(* ===== verification/_CoqProject ===== *)
-Q . S2P
Prelude.v
External.v
Bytes.v
JournalFrame.v
JournalReplay.v
JournalCurrent.v
FileSystem.v
JournalFs.v
JournalDisk.v
JournalLog.v
JournalInv.v
JournalSafe.v
JournalStates.v
JournalMaint.v
JournalRecover.v
JournalCrash.v
MetaTypes.v
MetaStore.v
MetaLink.v
MetaShard.v
MetaRecovery.v
MetaPolicy.v
Wal.v
Key.v
Namespace.v
Placement.v
Block.v
BTree.v
PageTable.v
SmallKey.v
SmallKeys.v
SmallTable.v
SmallSeal.v
SmallRecords.v
SmallExtents.v
SmallModel.v
SmallRefine.v
SmallJournal.v
Catalog.v
CatalogInv.v
CatalogSnapshot.v
CatalogJournal.v
Trace.v
Broker.v
Frame.v
Envelope.v
EnvelopeSpec.v
Data.v
Status.v
Membership.v
Control.v
AwsChunked.v
StateStore.v
StateStoreSpec.v
Registry.v
NodeSet.v
Heartbeats.v
PageLifecycle.v
PageTasks.v
PageClaims.v
PageDirty.v
PageSaved.v
AccessRecord.v
AccessShard.v
AccessLoad.v
AccessCrash.v
ShardRegistry.v
ShardContent.v
ShardInvariant.v
ShardSampling.v
ShardSaved.v
MemoryStore.v
MemorySpec.v
ReadPlan.v
RateLimit.v
