(* ===== verification/Prelude.v ===== *)
(** * Talon: a verification development

    Talon is a distributed read cache in front of object stores. Clients (a library, a FUSE mount, an
    S3/Azure gateway) ask workers for ranges of objects; a worker serves them from memory, from files
    on local disks, or from the origin. A coordinator keeps the membership, and a metadata service the
    writable namespace. This library is a shallow embedding of the parts where correctness lives in the
    code rather than in a service it calls: pure functions are functions, methods under a mutex pass
    their state, and code that other threads or a crash can interrupt is a program of single
    instructions or a step relation.

    ** Conventions

    - Unsigned integers are [Z] with their width where it matters ([is_u], [wrap], [saturating_add],
      [saturating_sub]); [usize] is 64 bits. Bytes are [Byte.byte]; a [str] is the list of its UTF-8 bytes.
    - [Result] is [result]; a panic (arithmetic overflow, [unwrap], slice out of bounds) is an outer
      [None], so that a theorem about a returned [Some] also says that nothing panics.
    - [HashMap] and [HashSet] are [gmap] and [gset]; where the order of their iteration shows in a
      result it is a parameter. [BTreeMap] is a sorted list ([BTree]) or a [gmap] read in order.
    - Code outside the repository is a class with its documented behaviour as laws: hashes ([External]),
      JSON ([Catalog], [Broker]), [bincode] ([Data], [Control], [Membership]), URL parsing ([Broker]),
      checksums ([AwsChunked]). Every theorem that uses one has a witness with a concrete instance.
    - Loops that are not structural take fuel, the bound being a measure of the loop: slots of a table,
      bytes of a buffer, entries of a map. Running out of fuel is the same [None] as a panic, and the
      theorems show that it does not happen, so they are about the loop without fuel.

    ** Parts

    [Prelude], [External] and [Bytes] hold what is shared: results, widths, list lemmas and tactics; the
    interfaces of hashes; readers, little- and big-endian integers, UTF-8.

    Metadata journal (crates/talon-journal/src).
    - [JournalFrame] is frame.rs, one frame of the log; [JournalReplay] is replay.rs, reading a log in
      batches through a window of decoder threads. [read_crash_prefix]: a log that was cut anywhere reads
      back as a prefix of the records written.
    - [FileSystem] models the file system: what a power loss and the death of a process may leave; [JournalFs] its names.
      [JournalCurrent] and [JournalDisk] are disk.rs and the loop of writer.rs on it, each operation a
      program of system calls; [JournalLog], [JournalInv], [JournalSafe], [JournalStates], [JournalMaint]
      and [JournalRecover] develop the invariant that holds between any two calls.
    - [JournalCrash] states the result for any [Machine]: under every interleaving of appends, syncs,
      rotations and snapshots, cut by crashes, also during recovery, recovery completes and rebuilds the
      state after exactly a prefix of the records that contains every record of a completed sync.

    Small-object store (crates/talon-worker/src/small_store).
    - [SmallKey], [SmallKeys], [SmallTable], [SmallSeal]: block_key.rs, key.rs, key_codec.rs, format.rs and
      the prefix-compressed key table keys.rs, which implements a map from rows to keys.
    - [SmallRecords], [SmallExtents]: records.rs, which implements a map from offsets to records.
    - [SmallModel], [SmallRefine], [SmallJournal]: journal/model.rs, its refinement of a catalogue of
      segments, and its recovery through the journal.

    Residency catalogue (crates/talon-worker/src/catalog/model.rs, page_table.rs).
    - [BTree], [PageTable]: the resident-page table implements an ordered map.
    - [Catalog], [CatalogInv], [CatalogSnapshot], [CatalogJournal]: durable intents and completions of page
      writes, chunked snapshots, recovery through the journal, and the blocks handed to the cache.

    Worker memory and write-back log.
    - [MemoryStore], [MemorySpec]: memory_store.rs, the page cache in memory and the byte budget that
      several caches share.
    - [Wal]: wal.rs, the physical framing of the write-back log.

    Metadata service (crates/talon-metadata/src).
    - [MetaTypes], [MetaStore]: records, transactions and the in-process store (memory.rs).
    - [MetaLink]: the hard-link state machine link.rs, run by coordinators with stale reads.
    - [MetaShard], [MetaRecovery], [MetaPolicy]: shard.rs, assignment.rs; recovery.rs; flush.rs, scrub.rs,
      cluster.rs.

    Wire protocol (crates/talon-transport/src, crates/talon-core/src, crates/talon-telemetry/src).
    - [Frame]: frame.rs and the bounded reader of limits.rs. [Trace], [Broker], [Envelope], [EnvelopeSpec]:
      what a request carries (context.rs, request.rs, envelope.rs). [Data]: data.rs; a request as a client
      encodes and sends it is what the worker reads from the socket and decodes.
    - [Status], [Membership], [Control]: status.rs, worker_membership.rs, codec.rs; validation of control
      messages on both ends, bounded diagnostics, and a discovery view that always fits its frame.

    Clients and core types (crates/talon-core/src, talon-cache-client, talon-fuse, talon-gateway).
    - [Key]: key.rs and mapping.rs; [Namespace]: namespace.rs; [Block]: block.rs; [Placement]: placement.rs
      and node.rs; [ReadPlan]: read_plan.rs; [RateLimit]: rate_limit.rs, also as its compare-and-swap loop
      under every interleaving; [AwsChunked]: aws_chunked.rs and the spool of s3.rs.

    Coordinator (crates/talon-coordinator/src).
    - [StateStore], [StateStoreSpec]: state_store/memory.rs and the contract in mod.rs. A watch resumed from
      a snapshot misses no event; the leases answer as a table that is never pruned would.
    - [Registry]: state_store/registry.rs and the registry update of observability/state.rs, as tasks on one
      store that interleave call by call; the updates linearise.
    - [NodeSet]: membership.rs, placement.rs, service.rs, heartbeat.rs; the placement version is a function
      of the node set. [Heartbeats]: observability/heartbeats.rs and the flush of state.rs; a heartbeat
      answered from the buffer extends no lease.


    Worker page lifecycle (crates/talon-worker/src/page_lifecycle.rs, runtime/page_maintenance.rs).
    - [PageLifecycle]: the word of a page, the mutation gate, reads, fills, selections, evictions and
      checkpoints of access times of one block. Tasks interleave at every access of shared memory.
    - [PageTasks], [PageClaims]: who holds which lock, reader count and claim in every reachable state; pages
      are unlinked only while nobody reads them or can start to, and only by a selection made after the last read.
    - [PageDirty], [PageSaved]: how marks of reads reach the dirty map and checkpoints, failed ones included;
      a block that is not noted as dirty has its ages saved.
    - [AccessRecord], [AccessShard], [AccessLoad], [AccessCrash]: page_access_store.rs, page_access_shard.rs and its
      journal.rs, where the ages of a shard are saved. Any bytes load without a panic, and only plausible ages;
      after any failures the files load as the last completed flush or as one begun since.
    - [ShardRegistry], [ShardContent], [ShardInvariant], [ShardSampling], [ShardSaved]: the blocks of a shard, with removed
      ones remembered until a flush has removed them, and the checkpoint of the shard in critical sections
      between which blocks come, go, are read and change. When a checkpoint would find nothing to do, the files
      hold exactly the ages in memory. A block is seen through its ages, marks and revisions.
    ** Assumptions

    Power losses keep synced bytes and names and an order-respecting prefix of directory updates
    ([FileSystem]). Atomics on one cell are sequentially consistent. Mutexes are not poisoned. Memory is not
    exhausted. Hash functions need not be free of collisions: where a digest protects data the theorems are
    about undamaged or truncated bytes, not about forged ones.

    ** Not modelled

    The etcd store, origin backends (talon-backend: HTTP, signatures, XML of S3, Azure and GCS), the HTTP
    surface of the gateway and coordinator, FUSE operations, connection pools, io_uring and sendfile
    paths, TLS, telemetry export and metrics: they are mostly calls of third-party services and of the
    operating system. Of the worker, the runtime that ties the stores together, eviction policies,
    the scan of the page registry for candidates, the directory of the small-object store, staging and
    the background tasks are not modelled.
    Test code, benchmarks and the clients in other languages are left out. *)

From stdpp Require Export prelude gmap strings sorting list_numbers.
From Stdlib Require Export Init.Byte.
From Stdlib Require Strings.Byte.
From Stdlib Require Export ZArith Lia ZifyBool ZifyNat.

#[export] Set Default Goal Selector "!".

Open Scope Z_scope.

(** ** Results: Rust's [Result<A, E>] *)

Inductive result (E A : Type) : Type :=
  | Ok (a : A)
  | Err (e : E).
Arguments Ok {E A} _.
Arguments Err {E A} _.

#[export] Instance result_ret E : MRet (result E) := fun A a => Ok a.
#[export] Instance result_bind E : MBind (result E) := fun A B f m =>
  match m with Ok a => f a | Err e => Err e end.
#[export] Instance result_fmap E : FMap (result E) := fun A B f m =>
  match m with Ok a => Ok (f a) | Err e => Err e end.
#[export] Instance result_eq_dec E A `{EqDecision E, EqDecision A} :
  EqDecision (result E A).
Proof. solve_decision. Defined.

(** [option::ok_or]. *)
Definition ok_or {E A} (o : option A) (e : E) : result E A :=
  match o with Some a => Ok a | None => Err e end.

(** An early [return Err(e)] guarded by a condition. *)
Definition ensure {E} (b : bool) (e : E) : result E unit :=
  if b then Ok tt else Err e.

Definition is_ok {E A} (r : result E A) : bool :=
  match r with Ok _ => true | Err _ => false end.

Lemma bind_ok_inv {E A B} (m : result E A) (f : A -> result E B) b :
  m ≫= f = Ok b -> exists a, m = Ok a /\ f a = Ok b.
Proof. destruct m as [a|e]; simpl; [eauto | discriminate]. Qed.

Lemma Ok_same {E A} (a b : A) : Ok (E := E) a = Ok b -> a = b.
Proof. congruence. Qed.

#[export] Instance Ok_inj E A : Inj eq eq (@Ok E A).
Proof. intros a b. apply Ok_same. Qed.

Lemma fmap_ok_inv {E A B} (m : result E A) (f : A -> B) b :
  f <$> m = Ok b -> exists a, m = Ok a /\ b = f a.
Proof. destruct m as [a|e]; simpl; [injection 1; eauto | discriminate]. Qed.

Lemma ensure_ok_inv {E} (b : bool) (e : E) u : ensure b e = Ok u -> b = true.
Proof. by destruct b. Qed.

(** Decompose every successful [Ok] equation in the context. *)
Ltac inv_ok :=
  repeat match goal with
  | H : Ok _ = Ok _ |- _ => injection H as H; subst
  | H : Err _ = Ok _ |- _ => discriminate H
  | H : Ok _ = Err _ |- _ => discriminate H
  | H : mbind _ _ = Ok _ |- _ =>
      let a := fresh "r" in let E := fresh "E" in
      apply bind_ok_inv in H as (a & E & H)
  | H : fmap _ _ = Ok _ |- _ =>
      let a := fresh "r" in let E := fresh "E" in
      apply fmap_ok_inv in H as (a & E & H); subst
  | H : ensure _ _ = Ok _ |- _ => apply ensure_ok_inv in H
  | H : ok_or ?o _ = Ok _ |- _ => let E := fresh "E" in
      destruct o eqn:E; simpl in H; [injection H as H; subst | discriminate H]
  end.

Ltac splits := repeat match goal with |- _ /\ _ => split end.

(** ** Machine integers

    A [w]-bit unsigned integer is a [Z]; every operation of the source that
    wraps, saturates or fails at the width says so here. *)

Definition u8_max : Z := 2 ^ 8 - 1.
Definition u16_max : Z := 2 ^ 16 - 1.
Definition u32_max : Z := 2 ^ 32 - 1.
Definition u64_max : Z := 2 ^ 64 - 1.

Definition is_u (w : Z) (z : Z) : Prop := 0 <= z < 2 ^ w.
Abbreviation is_u8 := (is_u 8).
Abbreviation is_u16 := (is_u 16).
Abbreviation is_u32 := (is_u 32).
Abbreviation is_u64 := (is_u 64).

#[export] Instance is_u_dec w z : Decision (is_u w z).
Proof. unfold is_u. apply _. Defined.

(** [as u8], [as u32], ...: truncation; [wrapping_add] and friends. *)
Definition wrap (w z : Z) : Z := z mod 2 ^ w.

Definition saturating_add (w a b : Z) : Z := Z.min (a + b) (2 ^ w - 1).
Definition saturating_sub (a b : Z) : Z := Z.max 0 (a - b).
Definition saturating_mul (w a b : Z) : Z := Z.min (a * b) (2 ^ w - 1).
Definition checked_add (w a b : Z) : option Z :=
  if a + b <? 2 ^ w then Some (a + b) else None.
Definition checked_sub (a b : Z) : option Z :=
  if b <=? a then Some (a - b) else None.

(** [!x] on a [w]-bit unsigned integer. *)
Definition bit_not (w z : Z) : Z := 2 ^ w - 1 - z.

(** [a.div_ceil(b)]. *)
Definition div_ceil (a b : Z) : Z := (a + b - 1) / b.

Lemma wrap_range w z : 0 <= w -> is_u w (wrap w z).
Proof. intros. apply Z.mod_pos_bound, Z.pow_pos_nonneg; lia. Qed.

Lemma wrap_small w z : is_u w z -> wrap w z = z.
Proof. intros. by apply Z.mod_small. Qed.

Lemma bit_not_involutive w z : bit_not w (bit_not w z) = z.
Proof. unfold bit_not. lia. Qed.

Lemma bit_not_range w z : is_u w z -> is_u w (bit_not w z).
Proof. unfold bit_not, is_u. lia. Qed.

Lemma is_u_testbit w z :
  0 <= w -> is_u w z <-> 0 <= z /\ forall i, w <= i -> Z.testbit z i = false.
Proof.
  intros Hw. split.
  - intros [H0 H1]. split; [done|]. intros i Hi.
    destruct (Z.eq_dec z 0) as [->|]; [by rewrite Z.testbit_0_l|].
    apply Z.bits_above_log2; [done|]. apply Z.log2_lt_pow2 in H1; lia.
  - intros [H0 Hb]. split; [done|]. destruct (Z.lt_ge_cases z (2 ^ w)) as [|Hge]; [done|].
    assert (0 < z) as Hz by (assert (0 < 2 ^ w) by (by apply Z.pow_pos_nonneg); lia).
    apply Z.log2_le_pow2 in Hge; [|done]. exfalso.
    specialize (Hb (Z.log2 z) Hge). rewrite Z.bit_log2 in Hb by done. done.
Qed.

Lemma is_u_lxor w a b : 0 <= w -> is_u w a -> is_u w b -> is_u w (Z.lxor a b).
Proof.
  intros Hw Ha Hb. apply is_u_testbit in Ha as [Ha0 Ha], Hb as [Hb0 Hb]; [|done..].
  apply is_u_testbit; [done|]. split; [by apply Z.lxor_nonneg|].
  intros i Hi. by rewrite Z.lxor_spec, Ha, Hb.
Qed.

Lemma is_u_land w a b : 0 <= w -> 0 <= b -> is_u w a -> is_u w (Z.land a b).
Proof.
  intros Hw H0 Ha. apply is_u_testbit in Ha as [Ha0 Ha]; [|done].
  apply is_u_testbit; [done|]. split; [apply Z.land_nonneg; by left|].
  intros i Hi. by rewrite Z.land_spec, Ha.
Qed.

Lemma is_u_shiftr w a i : 0 <= w -> 0 <= i -> is_u w a -> is_u w (Z.shiftr a i).
Proof.
  intros Hw Hi [Ha0 Ha]. rewrite Z.shiftr_div_pow2 by done. split.
  - apply Z.div_pos; [done|]. by apply Z.pow_pos_nonneg.
  - eapply Z.le_lt_trans; [|exact Ha]. apply Z.div_le_upper_bound; [by apply Z.pow_pos_nonneg|].
    assert (0 < 2 ^ i) by (by apply Z.pow_pos_nonneg). nia.
Qed.

(** ** Bytes and fixed-width integer encodings *)

Definition byte_val (b : byte) : Z := Z.of_N (Byte.to_N b).
Definition byte_of (z : Z) : byte := default x00 (Byte.of_N (Z.to_N (z mod 256))).

#[export] Instance byte_eq_dec : EqDecision byte := Byte.byte_eq_dec.

Lemma byte_val_range b : 0 <= byte_val b < 256.
Proof. unfold byte_val. pose proof (Byte.to_N_bounded b). lia. Qed.

Lemma byte_val_of z : byte_val (byte_of z) = z mod 256.
Proof.
  unfold byte_val, byte_of. pose proof (Z.mod_pos_bound z 256 eq_refl) as Hb.
  destruct (Byte.of_N (Z.to_N (z mod 256))) as [b|] eqn:E; simpl.
  - apply Byte.to_of_N in E. rewrite E. lia.
  - apply Byte.of_N_None_iff in E. lia.
Qed.

Lemma byte_of_val b : byte_of (byte_val b) = b.
Proof.
  unfold byte_of. rewrite Z.mod_small by apply byte_val_range.
  unfold byte_val. by rewrite N2Z.id, Byte.of_to_N.
Qed.

Lemma byte_val_inj b c : byte_val b = byte_val c -> b = c.
Proof. intros H. by rewrite <-(byte_of_val b), <-(byte_of_val c), H. Qed.

(** [to_le_bytes] / [from_le_bytes] and their big-endian duals. *)
Fixpoint le_bytes (n : nat) (v : Z) : list byte :=
  match n with
  | O => []
  | S n => byte_of v :: le_bytes n (v / 256)
  end.

Fixpoint le_val (bs : list byte) : Z :=
  match bs with
  | [] => 0
  | b :: bs => byte_val b + 256 * le_val bs
  end.

Definition be_bytes (n : nat) (v : Z) : list byte := reverse (le_bytes n v).
Definition be_val (bs : list byte) : Z := le_val (reverse bs).

Lemma length_le_bytes n v : length (le_bytes n v) = n.
Proof. revert v. induction n as [|n IH]; intros v; simpl; [done|by rewrite IH]. Qed.

Lemma length_be_bytes n v : length (be_bytes n v) = n.
Proof. unfold be_bytes. by rewrite length_reverse, length_le_bytes. Qed.

Lemma pow256_succ n : 256 ^ Z.of_nat (S n) = 256 * 256 ^ Z.of_nat n.
Proof. rewrite Nat2Z.inj_succ, Z.pow_succ_r; lia. Qed.

Lemma pow256_pos n : 0 < 256 ^ Z.of_nat n.
Proof. apply Z.pow_pos_nonneg; lia. Qed.

Lemma le_val_le_bytes_mod n v : le_val (le_bytes n v) = v mod 256 ^ Z.of_nat n.
Proof.
  revert v. induction n as [|n IH]; intros v; cbn [le_bytes le_val].
  - by rewrite Z.mod_1_r.
  - rewrite IH, byte_val_of, pow256_succ.
    pose proof (pow256_pos n). rewrite Z.rem_mul_r by lia. lia.
Qed.

Lemma le_val_le_bytes n v :
  0 <= v < 256 ^ Z.of_nat n -> le_val (le_bytes n v) = v.
Proof. intros. rewrite le_val_le_bytes_mod. by apply Z.mod_small. Qed.

Lemma be_val_be_bytes n v :
  0 <= v < 256 ^ Z.of_nat n -> be_val (be_bytes n v) = v.
Proof. unfold be_val, be_bytes. rewrite reverse_involutive. apply le_val_le_bytes. Qed.

Lemma le_val_range bs : 0 <= le_val bs < 256 ^ Z.of_nat (length bs).
Proof.
  induction bs as [|b bs IH]; cbn [le_val length]; [done|].
  rewrite pow256_succ. pose proof (byte_val_range b). lia.
Qed.

Lemma be_val_range bs : 0 <= be_val bs < 256 ^ Z.of_nat (length bs).
Proof. unfold be_val. rewrite <-(length_reverse bs). apply le_val_range. Qed.

Lemma le_bytes_le_val bs : le_bytes (length bs) (le_val bs) = bs.
Proof.
  induction bs as [|b bs IH]; cbn [le_val length le_bytes]; [done|].
  pose proof (byte_val_range b) as Hb.
  rewrite (Z.mul_comm 256), Z.div_add by lia.
  rewrite (Z.div_small (byte_val b)), Z.add_0_l, IH by done. f_equal.
  apply byte_val_inj. rewrite byte_val_of, Z.mod_add, Z.mod_small by lia. done.
Qed.

Lemma be_bytes_be_val bs : be_bytes (length bs) (be_val bs) = bs.
Proof.
  unfold be_bytes, be_val.
  by rewrite <-(length_reverse bs), le_bytes_le_val, reverse_involutive.
Qed.

Lemma le_bytes_inj n v w :
  0 <= v < 256 ^ Z.of_nat n -> 0 <= w < 256 ^ Z.of_nat n ->
  le_bytes n v = le_bytes n w -> v = w.
Proof.
  intros Hv Hw E. by rewrite <-(le_val_le_bytes n v), <-(le_val_le_bytes n w), E.
Qed.

(** ** Slices

    [slice i n bs] is [&bs[i..i + n]] for an in-range slice. *)
Definition slice {A} (i n : nat) (l : list A) : list A := take n (drop i l).

(** [bs.copy_within(src..src + n, dst)]: memmove inside one buffer. *)
Definition copy_within {A} (src n dst : nat) (l : list A) : list A :=
  take dst l ++ slice src n l ++ drop (dst + n) l.

Lemma length_slice {A} i n (l : list A) :
  (i + n <= length l)%nat -> length (slice i n l) = n.
Proof. intros. unfold slice. rewrite length_take, length_drop. lia. Qed.

Lemma slice_app_l {A} i n (l k : list A) :
  (i + n <= length l)%nat -> slice i n (l ++ k) = slice i n l.
Proof.
  intros. unfold slice. rewrite drop_app_le, take_app_le; [done| |lia].
  rewrite length_drop. lia.
Qed.

Lemma slice_app_r {A} i n (l k : list A) :
  slice (length l + i) n (l ++ k) = slice i n k.
Proof. unfold slice. by rewrite drop_app_add. Qed.

Lemma slice_0_app {A} n (l k : list A) : length l = n -> slice 0 n (l ++ k) = l.
Proof. intros <-. unfold slice. by rewrite drop_0, take_app_length. Qed.

Lemma slice_app_exact {A} i n (l k m : list A) :
  length l = i -> length k = n -> slice i n (l ++ k ++ m) = k.
Proof.
  intros <- <-. unfold slice. by rewrite drop_app_length, take_app_length.
Qed.

Lemma slice_split {A} i a b (l : list A) :
  slice i (a + b) l = slice i a l ++ slice (i + a) b l.
Proof.
  unfold slice. rewrite <-drop_drop.
  by rewrite <-(take_drop a (take (a + b) (drop i l))), take_take,
    skipn_firstn_comm, Nat.min_l, Nat.add_comm, Nat.add_sub by lia.
Qed.

Lemma take_plus {A} a b (l : list A) : take (a + b) l = take a l ++ take b (drop a l).
Proof. exact (slice_split 0 a b l). Qed.

Lemma slice_take {A} i n k (l : list A) :
  (i + n <= k)%nat -> slice i n (take k l) = slice i n l.
Proof. intros. unfold slice. rewrite skipn_firstn_comm, take_take. f_equal. lia. Qed.

Lemma length_copy_within {A} src n dst (l : list A) :
  (src + n <= length l)%nat -> (dst + n <= length l)%nat ->
  length (copy_within src n dst l) = length l.
Proof.
  intros. unfold copy_within.
  rewrite !length_app, length_take, length_drop, length_slice by done. lia.
Qed.

(** Cutting a concatenation inside one of its parts. *)
Lemma take_concat_cut {A} (L : list (list A)) k :
  (k < length (concat L))%nat ->
  exists i x j, L !! i = Some x /\ (j < length x)%nat /\
    k = (length (concat (take i L)) + j)%nat /\
    take k (concat L) = concat (take i L) ++ take j x.
Proof.
  revert k. induction L as [|y L IH]; intros k Hk; simpl in Hk; [lia|].
  destruct (decide (k < length y)%nat) as [Hy|Hy].
  - exists 0%nat, y, k. simpl. by rewrite take_app_le by lia.
  - rewrite length_app in Hk. destruct (IH (k - length y)%nat) as (i & x & j & Hi & Hj & Ek & E);
      [lia|].
    exists (S i), x, j. simpl. rewrite length_app, take_app_ge, E, app_assoc by lia.
    splits; [done|done|lia|done].
Qed.

(** A filter that keeps nothing. *)
Lemma filter_none {A} (P : A -> Prop) `{forall x, Decision (P x)} (l : list A) :
  (forall x, x ∈ l -> ~ P x) -> filter P l = [].
Proof.
  intros Hl. induction l as [|x l IH]; [done|]. rewrite filter_cons_False.
  - apply IH. intros y Hy. apply Hl. by apply list_elem_of_further.
  - apply Hl, list_elem_of_here.
Qed.

(** A filter that keeps everything. *)
Lemma filter_keeps {A} (P : A -> Prop) `{forall x, Decision (P x)} (l : list A) : Forall P l -> filter P l = l.
Proof. induction 1 as [|x l Hx _ IH]; [done|]. by rewrite filter_cons_True, IH. Qed.

(** *** Sorted lists *)

Lemma filter_sorted {A} (R : A -> A -> Prop) (P : A -> Prop) `{forall x, Decision (P x)} l : StronglySorted R l -> StronglySorted R (filter P l).
Proof.
  induction 1 as [|x l Hs IH Hall]; [constructor|]. rewrite filter_cons. destruct (decide (P x)); [|done].
  constructor; [done|]. apply Forall_forall. intros y [_ Hy]%list_elem_of_filter. exact (proj1 (Forall_forall _ _) Hall y Hy).
Qed.

Lemma StronglySorted_join {A} (R : A -> A -> Prop) l k : StronglySorted R l -> StronglySorted R k ->
  (forall x y, x ∈ l -> y ∈ k -> R x y) -> StronglySorted R (l ++ k).
Proof.
  induction 1 as [|x l Hs IH Hall]; intros Hk Hlt; [done|]. cbn. constructor.
  - apply IH; [done|]. intros a b Ha Hb. apply Hlt; [by right|done].
  - apply Forall_app. split; [done|]. apply Forall_forall. intros y Hy. apply Hlt; [by left|done].
Qed.

Lemma StronglySorted_app_inv {A} (R : A -> A -> Prop) l k :
  StronglySorted R (l ++ k) -> StronglySorted R l /\ StronglySorted R k /\ forall x y, x ∈ l -> y ∈ k -> R x y.
Proof.
  induction l as [|x l IH]; cbn; intros Hs.
  - splits; [constructor|done|]. by intros x y Hx%elem_of_nil.
  - inv Hs. destruct IH as (H3 & H4 & H5); [done|]. apply Forall_app in H2 as [H2 H2']. splits; [by constructor|done|].
    intros a b [->|Ha]%elem_of_cons Hb; [|by apply H5]. by apply (proj1 (Forall_forall _ _) H2').
Qed.

Lemma existsb_none {A} (f : A -> bool) l x : existsb f l = false -> x ∈ l -> f x = false.
Proof. intros He Hx. apply not_true_is_false. intros Hf. apply list_elem_of_In in Hx. assert (existsb f l = true) by (apply existsb_exists; eauto). congruence. Qed.

(** Evaluate slices of concatenations whose prefix lengths are known. *)
Create HintDb talon discriminated.
#[export] Hint Resolve byte_val_range le_val_range be_val_range : talon.
Create Rewrite HintDb lens.
#[export] Hint Rewrite @length_app @length_take @length_drop @length_reverse
  @length_replicate length_le_bytes length_be_bytes @length_fmap : lens.

Ltac len := autorewrite with lens in *; simpl length in *; try lia.
