(* ===== verification/External.v ===== *)
(** Interfaces of the third-party code Talon calls.

    The hash functions come from crates that are not part of the repository
    ([xxhash-rust] and [sha2]), so every definition that hashes takes one of
    these classes as an argument.  The laws are the documented result types:
    [xxh3_64] returns a [u64]; a SHA-256 digest has 32 bytes.  The streaming
    interface ([new]/[update]/[digest]) is documented to hash the concatenation
    of the updates, so it is written as the one-shot function of the
    concatenation where the source streams. *)

From S2P Require Import Prelude.

Class Xxh3 := {
  xxh3_64 : list byte -> Z;
  xxh3_64_u64 : forall bs, is_u64 (xxh3_64 bs)
}.

Class Sha256 := {
  sha256 : list byte -> list byte;
  sha256_length : forall bs, length (sha256 bs) = 32%nat
}.

(** [std::io::Error], as far as the modelled code distinguishes it. *)
Inductive io_error :=
  | InvalidData (message : string)
  | OtherError (message : string)
  | NotFound
  | AlreadyExists
  | UnexpectedEof.

#[export] Instance io_error_eq_dec : EqDecision io_error.
Proof. solve_decision. Defined.

(** Code that may panic: [None] is a panic. *)
Abbreviation Panic A := (option (result io_error A)).

Definition try_bind {A B} (m : Panic A) (f : A -> Panic B) : Panic B :=
  match m with
  | Some (Ok a) => f a
  | Some (Err e) => Some (Err e)
  | None => None
  end.

Notation "'let?' x := m 'in' f" := (try_bind m (fun x => f)) (at level 10, x name, f at level 200).
Notation "'let?' ' x := m 'in' f" := (try_bind m (fun x => f)) (at level 10, x strict pattern, f at level 200).

Definition unpanic {A} (r : Panic A) : result io_error A := default (Err (OtherError "panic")) r.

(** Concrete instances that satisfy the laws, used by the examples and the
    witnesses. *)
Fixpoint weighted_sum (k : Z) (bs : list byte) : Z :=
  match bs with
  | [] => 0
  | b :: bs => k * (1 + byte_val b) + weighted_sum (k + 1) bs
  end.

Definition toy_xxh3 : Xxh3.
Proof.
  refine {| xxh3_64 := fun bs => wrap 64 (weighted_sum 1 bs) |}.
  intros. by apply wrap_range.
Defined.

Definition toy_sha256 : Sha256.
Proof.
  refine {| sha256 := fun bs => le_bytes 32 (7919 * weighted_sum 1 bs) |}.
  intros. apply length_le_bytes.
Defined.
