(* ===== verification/Bytes.v ===== *)
(** Byte readers and UTF-8, as far as the codecs use the standard library: [Read::read_exact]
    on a slice, fixed-width little- and big-endian integers, and [str::from_utf8]. *)

From S2P Require Import Prelude External.

Module Bytes.

(** [read_exact] of [n] bytes from a slice, with the rest. *)
Definition read_exact (n : nat) (b : list byte) : result io_error (list byte * list byte) :=
  if (length b <? n)%nat then Err UnexpectedEof else Ok (take n b, drop n b).

(** A little-endian integer of [n] bytes. *)
Definition read_le (n : nat) (b : list byte) : result io_error (Z * list byte) :=
  '(x, b) ← read_exact n b; Ok (le_val x, b).

Definition between (lo hi : Z) (b : byte) : bool := (lo <=? byte_val b) && (byte_val b <=? hi).

Definition continuation (b : byte) : bool := between 128 191 b.

(** Well-formed UTF-8: no overlong forms, no surrogates, nothing above U+10FFFF. *)
Fixpoint utf8 (l : list byte) : bool :=
  match l with
  | [] => true
  | b :: l =>
    if between 0 127 b then utf8 l
    else if between 194 223 b then
      match l with c :: l => continuation c && utf8 l | _ => false end
    else if between 224 239 b then
      match l with
      | c :: d :: l =>
        (if byte_val b =? 224 then between 160 191 c
         else if byte_val b =? 237 then between 128 159 c else continuation c)
        && continuation d && utf8 l
      | _ => false
      end
    else if between 240 244 b then
      match l with
      | c :: d :: e :: l =>
        (if byte_val b =? 240 then between 144 191 c
         else if byte_val b =? 244 then between 128 143 c else continuation c)
        && continuation d && continuation e && utf8 l
      | _ => false
      end
    else false
  end.

(** [String::from_utf8_lossy]: every maximal prefix of a well-formed sequence that does not go on as
    one becomes U+FFFD. *)
Definition REPLACEMENT : list byte := [xef; xbf; xbd].

Definition second_ok (b c : byte) : bool :=
  if byte_val b =? 224 then between 160 191 c
  else if byte_val b =? 237 then between 128 159 c
  else if byte_val b =? 240 then between 144 191 c
  else if byte_val b =? 244 then between 128 143 c else continuation c.

Fixpoint lossy (l : list byte) : list byte :=
  match l with
  | [] => []
  | b :: l1 =>
    if between 0 127 b then b :: lossy l1
    else if between 194 223 b then
      match l1 with
      | c :: l2 => if continuation c then b :: c :: lossy l2 else REPLACEMENT ++ lossy l1
      | [] => REPLACEMENT
      end
    else if between 224 244 b then
      match l1 with
      | c :: l2 =>
        if second_ok b c then
          match l2 with
          | d :: l3 =>
            if continuation d then
              if between 224 239 b then b :: c :: d :: lossy l3
              else match l3 with
                   | e :: l4 => if continuation e then b :: c :: d :: e :: lossy l4 else REPLACEMENT ++ lossy l3
                   | [] => REPLACEMENT
                   end
            else REPLACEMENT ++ lossy l2
          | [] => REPLACEMENT
          end
        else REPLACEMENT ++ lossy l1
      | [] => REPLACEMENT
      end
    else REPLACEMENT ++ lossy l1
  end.

(** The length in bytes of the white-space character that well-formed UTF-8 starts with ([char::is_whitespace]). *)
Definition ws_head (l : list byte) : nat :=
  match l with
  | b :: l1 =>
    if between 9 13 b || bool_decide (b = x20) then 1
    else match l1 with
    | c :: l2 =>
      if bool_decide ([b; c] = [xc2; x85]) || bool_decide ([b; c] = [xc2; xa0]) then 2
      else match l2 with
      | d :: _ =>
        if bool_decide ([b; c; d] = [xe1; x9a; x80]) ||
           (bool_decide ([b; c] = [xe2; x80]) && (between 128 138 d || bool_decide (d ∈ [xa8; xa9; xaf]))) ||
           bool_decide ([b; c; d] = [xe2; x81; x9f]) || bool_decide ([b; c; d] = [xe3; x80; x80]) then 3 else 0
      | [] => 0
      end
    | [] => 0
    end
  | [] => 0
  end.

(** The one it ends with. *)
Definition ws_last (l : list byte) : nat :=
  let n := length l in
  if (0 <? n)%nat && (ws_head (drop (n - 1) l) =? 1)%nat then 1
  else if (1 <? n)%nat && (ws_head (drop (n - 2) l) =? 2)%nat then 2
  else if (2 <? n)%nat && (ws_head (drop (n - 3) l) =? 3)%nat then 3 else 0.

Fixpoint trim_head (fuel : nat) (l : list byte) : list byte :=
  match fuel with O => l | S fuel => match ws_head l with O => l | n => trim_head fuel (drop n l) end end.

Fixpoint trim_last (fuel : nat) (l : list byte) : list byte :=
  match fuel with O => l | S fuel => match ws_last l with O => l | n => trim_last fuel (take (length l - n) l) end end.

(** [str::trim]; every character takes a byte or more. *)
Definition trim (l : list byte) : list byte := trim_last (length l) (trim_head (length l) l).

Lemma lossy_utf8 n l : (length l <= n)%nat -> utf8 l = true -> lossy l = l.
Proof.
  revert l. induction n as [|n IH]; intros l Hn; [by destruct l; [|cbn in Hn; lia]|]. destruct l as [|b l]; [done|]. cbn [utf8 lossy length] in *.
  destruct (between 0 127 b); [intros; f_equal; apply IH; [lia|done]|].
  destruct (between 194 223 b).
  { destruct l as [|c l]; [done|]. intros [-> Hl]%andb_true_iff. do 2 f_equal. apply IH; [cbn in Hn; lia|done]. }
  destruct (between 224 239 b) eqn:H3.
  - assert (between 224 244 b = true) as -> by (unfold between in *; rewrite andb_true_iff, !Z.leb_le in *; lia).
    destruct l as [|c [|d l]]; try done. intros [[Hc ->]%andb_true_iff Hl]%andb_true_iff.
    assert (second_ok b c = true) as ->.
    { unfold second_ok. unfold between in H3. rewrite andb_true_iff, !Z.leb_le in H3. destruct (byte_val b =? 224), (byte_val b =? 237); try done.
      rewrite !(proj2 (Z.eqb_neq _ _)) by lia. done. }
    do 3 f_equal. apply IH; [cbn in Hn; lia|done].
  - destruct (between 240 244 b) eqn:H4; [|done].
    assert (between 224 244 b = true) as -> by (unfold between in *; rewrite andb_true_iff, !Z.leb_le in *; lia).
    destruct l as [|c [|d [|e l]]]; try done; rewrite ?andb_true_iff; intros Hx. destruct Hx as [[[Hc ->] ->] Hl].
    assert (second_ok b c = true) as ->.
    { unfold second_ok. unfold between in H4. rewrite andb_true_iff, !Z.leb_le in H4. rewrite !(proj2 (Z.eqb_neq (byte_val b) 224)), !(proj2 (Z.eqb_neq (byte_val b) 237)) by lia. done. }
    do 4 f_equal. apply IH; [cbn in Hn; lia|done].
Qed.

Lemma utf8_first b l : utf8 (b :: l) = true -> continuation b = false.
Proof.
  cbn [utf8]. intros Hu. apply not_true_is_false. unfold continuation, between. rewrite andb_true_iff, !Z.leb_le. intros ?.
  unfold between in Hu. repeat (rewrite (proj2 (andb_false_iff (_ <=? byte_val b) _)) in Hu by (rewrite !Z.leb_gt; lia)). done.
Qed.

(** Well-formed UTF-8 that is not empty starts with one character: at most three continuation bytes after the
    first, and the rest may be replaced. *)
Lemma utf8_char b l : utf8 (b :: l) = true -> exists c tail,
  l = c ++ tail /\ (length c <= 3)%nat /\ Forall (fun x => continuation x = true) c /\ utf8 tail = true /\
  forall tail', utf8 tail' = true -> utf8 (b :: c ++ tail') = true.
Proof.
  assert (forall lo hi x, 128 <= lo -> hi <= 191 -> between lo hi x = true -> continuation x = true) as Hin.
  { intros lo hi x ? ?. unfold continuation, between. rewrite !andb_true_iff, !Z.leb_le. lia. }
  intros Hu. cbn [utf8] in Hu. revert Hu. destruct (between 0 127 b) eqn:H1; [intros Hl; exists [], l; splits; [done|cbn; lia|done|done|]; intros; cbn [app utf8]; by rewrite H1|].
  destruct (between 194 223 b) eqn:H2.
  { destruct l as [|c l]; [done|]. intros [Hc Hl]%andb_true_iff. exists [c], l. splits; [done|cbn; lia|by repeat constructor|done|].
    intros tail' Ht. cbn [app utf8]. by rewrite H1, H2, Hc, Ht. }
  destruct (between 224 239 b) eqn:H3.
  { destruct l as [|c [|d l]]; try done. intros [[Hc Hd]%andb_true_iff Hl]%andb_true_iff. exists [c; d], l.
    splits; [done|cbn; lia| |done|intros tail' Ht; cbn [app utf8]; by rewrite H1, H2, H3, Hc, Hd, Ht].
    repeat constructor; [|done]. destruct (byte_val b =? 224), (byte_val b =? 237); try done; (eapply Hin; [| |exact Hc]; lia). }
  destruct (between 240 244 b) eqn:H4; [|done].
  destruct l as [|c [|d [|e l]]]; try done. intros [[[Hc Hd]%andb_true_iff He]%andb_true_iff Hl]%andb_true_iff. exists [c; d; e], l.
  splits; [done|cbn; lia| |done|intros tail' Ht; cbn [app utf8]; by rewrite H1, H2, H3, H4, Hc, Hd, He, Ht].
  repeat constructor; try done. destruct (byte_val b =? 240), (byte_val b =? 244); try done; (eapply Hin; [| |exact Hc]; lia).
Qed.

(** A byte at which a character starts. *)
Definition starts (l : list byte) (i : nat) : Prop := forall x, l !! i = Some x -> continuation x = false.

(** Cutting at the start of a character keeps UTF-8, and one starts within any four bytes. *)
Lemma utf8_cut n l i : (length l <= n)%nat -> utf8 l = true -> starts l i -> utf8 (take i l) = true.
Proof.
  revert l i. induction n as [|n IH]; intros l i Hn Hu Hs; [by destruct l; [destruct i|cbn in Hn; lia]|].
  destruct i as [|i]; [done|]. destruct l as [|b l]; [done|]. destruct (utf8_char b l Hu) as (c & tail & -> & _ & Hc & Ht & Hadd).
  assert (starts (c ++ tail) i) as Hs' by exact Hs. cbn [take]. cbn [length] in Hn. rewrite length_app in Hn. destruct (decide (i < length c)%nat) as [Hi|Hi].
  - destruct (lookup_lt_is_Some_2 c i Hi) as [x Hx]. rewrite Forall_forall in Hc.
    assert (continuation x = false) by (apply Hs', lookup_app_l_Some, Hx). rewrite (Hc x) in * by (by eapply list_elem_of_lookup_2). done.
  - rewrite take_app_ge by lia. apply Hadd, IH; [lia|done|]. intros x Hx. apply Hs'. rewrite lookup_app_r by lia. exact Hx.
Qed.

Lemma utf8_starts n l i : (length l <= n)%nat -> utf8 l = true -> exists j, (i <= j + 3)%nat /\ (j <= i)%nat /\ starts l j.
Proof.
  revert l i. induction n as [|n IH]; intros l i Hn Hu.
  { exists i. splits; [lia|lia|]. destruct l; [by intros x|cbn in Hn; lia]. }
  destruct l as [|b l]; [exists i; splits; [lia|lia|by intros x]|]. destruct (utf8_char b l Hu) as (c & tail & -> & Hlc & Hc & Ht & _).
  assert (starts (b :: c ++ tail) 0) as H0. { intros x [= <-]. by eapply utf8_first. }
  cbn [length] in Hn. rewrite length_app in Hn. destruct (decide (i <= length c)%nat); [exists 0%nat; splits; [lia|lia|done]|].
  destruct (IH tail (i - 1 - length c)%nat ltac:(lia) Ht) as (j & ? & ? & Hj). exists (1 + length c + j)%nat. splits; [lia|lia|].
  intros x. change ((b :: c ++ tail) !! (1 + length c + j)%nat) with ((c ++ tail) !! (length c + j)%nat). rewrite lookup_app_r by lia. replace (length c + j - length c)%nat with j by lia. apply Hj.
Qed.

Lemma read_exact_app x rest n : length x = n -> read_exact n (x ++ rest) = Ok (x, rest).
Proof.
  intros <-. unfold read_exact. rewrite length_app, (proj2 (Nat.ltb_ge _ _)) by lia.
  by rewrite take_app_length, drop_app_length.
Qed.

Lemma read_exact_inv n b x rest : read_exact n b = Ok (x, rest) -> b = x ++ rest /\ length x = n.
Proof.
  unfold read_exact. destruct (Nat.ltb_spec (length b) n); [done|]. intros E. inv_ok.
  rewrite take_drop, length_take. split; [done|lia].
Qed.

Lemma read_le_app n v rest :
  0 <= v < 256 ^ Z.of_nat n -> read_le n (le_bytes n v ++ rest) = Ok (v, rest).
Proof.
  intros Hv. unfold read_le. rewrite read_exact_app by apply length_le_bytes. cbn [mbind result_bind].
  by rewrite le_val_le_bytes.
Qed.

Lemma read_le_inv n b v rest :
  read_le n b = Ok (v, rest) -> b = le_bytes n v ++ rest /\ 0 <= v < 256 ^ Z.of_nat n.
Proof.
  unfold read_le. intros E. apply bind_ok_inv in E as ([x r] & Hx & E). inv_ok.
  apply read_exact_inv in Hx as [-> <-]. rewrite le_bytes_le_val. split; [done|apply le_val_range].
Qed.

End Bytes.
