(* ===== verification/JournalFrame.v ===== *)
(** The physical record format of the metadata journal
    (crates/talon-journal/src/frame.rs).

    [encode] writes one frame; [decode] reads a buffer of complete frames,
    shifting each 24-byte header prefix next to its body in place so that one
    hash call covers both.  [parse] is the reference reader that never writes
    to the buffer. *)

From S2P Require Import Prelude External.

Module JournalFrame.

Definition MAGIC : list byte := String.list_byte_of_string "TLNJRN01".
Definition HEADER : nat := 32%nat.
Definition MAX_RECORD : Z := Z.shiftl 16 20.

Definition invalid (message : string) : io_error := InvalidData message.

(** The length of a buffer as an integer. *)
Definition blen (bs : list byte) : Z := Z.of_nat (length bs).

Section Frame.
Context `{Xxh3}.

Definition encode (lsn : Z) (body : list byte) : result io_error (list byte) :=
  if MAX_RECORD <? blen body then Err (invalid "journal frame too large")
  else
    let bytes := MAGIC ++ le_bytes 4 (wrap 32 (blen body))
                 ++ le_bytes 4 (bit_not 32 (wrap 32 (blen body)))
                 ++ le_bytes 8 lsn ++ replicate 8 x00 ++ body in
    let digest := xxh3_64 (take 24 bytes ++ body) in
    Ok (take 24 bytes ++ le_bytes 8 digest ++ drop 32 bytes).

Section Decode.
Context {T : Type} (dec : list byte -> result io_error T).

(** [None] is exhausted fuel; [decode_total] shows it never happens. *)
Fixpoint decode_loop (fuel : nat) (bytes : list byte) (position : nat)
    (records : list (Z * T)) : option (result io_error (list (Z * T))) :=
  match fuel with
  | O => None
  | S fuel =>
    if negb (position <? length bytes)%nat then Some (Ok records) else
    if (length bytes - position <? HEADER)%nat
    then Some (Err (invalid "truncated journal header")) else
    let header := slice position HEADER bytes in
    if negb (bool_decide (slice 0 8 header = MAGIC))
    then Some (Err (invalid "unsupported journal format")) else
    let n := le_val (slice 8 4 header) in
    if negb (bit_not 32 n =? le_val (slice 12 4 header)) || (MAX_RECORD <? n)
    then Some (Err (invalid "journal frame length")) else
    let lsn := le_val (slice 16 8 header) in
    let expected := le_val (slice 24 8 header) in
    let end_ := (position + HEADER + Z.to_nat n)%nat in
    if (length bytes <? end_)%nat
    then Some (Err (invalid "truncated journal body")) else
    let bytes := copy_within position 24 (position + 8) bytes in
    if negb (xxh3_64 (slice (position + 8) (end_ - (position + 8)) bytes) =? expected)
    then Some (Err (invalid "journal frame checksum")) else
    match dec (slice (position + HEADER) (end_ - (position + HEADER)) bytes) with
    | Err e => Some (Err e)
    | Ok value => decode_loop fuel bytes end_ (records ++ [(lsn, value)])
    end
  end.

Definition decode (bytes : list byte) : option (result io_error (list (Z * T))) :=
  decode_loop (S (length bytes)) bytes 0 [].

End Decode.

(** ** The reference reader *)

(** The canonical bytes of one frame. *)
Definition head24 (lsn : Z) (body : list byte) : list byte :=
  MAGIC ++ le_bytes 4 (blen body) ++ le_bytes 4 (bit_not 32 (blen body))
  ++ le_bytes 8 lsn.

Definition frame_bytes (lsn : Z) (body : list byte) : list byte :=
  head24 lsn body ++ le_bytes 8 (xxh3_64 (head24 lsn body ++ body)) ++ body.

(** A record the format can carry. *)
Definition frameable (r : Z * list byte) : Prop :=
  is_u64 (fst r) /\ blen (snd r) <= MAX_RECORD.

Definition frames_bytes (rs : list (Z * list byte)) : list byte :=
  concat ((fun r => frame_bytes (fst r) (snd r)) <$> rs).

(** Read the frame at the head of [rest]. *)
Definition parse_one (rest : list byte)
    : result io_error (Z * list byte * list byte) :=
  if (length rest <? HEADER)%nat then Err (invalid "truncated journal header") else
  let header := take HEADER rest in
  if negb (bool_decide (slice 0 8 header = MAGIC))
  then Err (invalid "unsupported journal format") else
  let n := le_val (slice 8 4 header) in
  if negb (bit_not 32 n =? le_val (slice 12 4 header)) || (MAX_RECORD <? n)
  then Err (invalid "journal frame length") else
  if (length rest <? HEADER + Z.to_nat n)%nat
  then Err (invalid "truncated journal body") else
  let body := slice HEADER (Z.to_nat n) rest in
  if negb (xxh3_64 (take 24 rest ++ body) =? le_val (slice 24 8 header))
  then Err (invalid "journal frame checksum") else
  Ok (le_val (slice 16 8 header), body, drop (HEADER + Z.to_nat n) rest).

Fixpoint parse_loop {T} (dec : list byte -> result io_error T) (fuel : nat)
    (rest : list byte) (records : list (Z * T))
    : option (result io_error (list (Z * T))) :=
  match fuel with
  | O => None
  | S fuel =>
    if (length rest =? 0)%nat then Some (Ok records) else
    match parse_one rest with
    | Err e => Some (Err e)
    | Ok (lsn, body, rest) =>
      match dec body with
      | Err e => Some (Err e)
      | Ok value => parse_loop dec fuel rest (records ++ [(lsn, value)])
      end
    end
  end.

(** ** Lemmas *)

Lemma length_MAGIC : length MAGIC = 8%nat.
Proof. reflexivity. Qed.

Lemma length_head24 lsn body : length (head24 lsn body) = 24%nat.
Proof. unfold head24. len. Qed.

Lemma length_frame_bytes lsn body :
  length (frame_bytes lsn body) = (HEADER + length body)%nat.
Proof. unfold frame_bytes, HEADER. len. Qed.

Lemma max_record_value : MAX_RECORD = 16777216.
Proof. reflexivity. Qed.

Lemma encode_spec lsn body :
  encode lsn body =
  if MAX_RECORD <? blen body then Err (invalid "journal frame too large")
  else Ok (frame_bytes lsn body).
Proof.
  unfold encode. destruct (Z.ltb_spec MAX_RECORD (blen body)) as [|Hle]; [done|].
  rewrite max_record_value in Hle.
  rewrite (wrap_small 32) by (unfold is_u, blen in *; lia).
  set (z := replicate 8 x00).
  replace (MAGIC ++ le_bytes 4 (blen body) ++ le_bytes 4 (bit_not 32 (blen body))
    ++ le_bytes 8 lsn ++ z ++ body) with (head24 lsn body ++ z ++ body)
    by (unfold head24; by rewrite <-!app_assoc).
  rewrite (take_app_length' (head24 lsn body)) by (by rewrite length_head24).
  replace (drop 32 (head24 lsn body ++ z ++ body)) with body; [done|].
  rewrite app_assoc, drop_app_length'; [done|].
  unfold z. len.
Qed.

Lemma drop_copy_within_after {A} p n q (l : list A) :
  (p + 8 + n <= q)%nat -> (p + 8 + n <= length l)%nat ->
  drop q (copy_within p n (p + 8) l) = drop q l.
Proof.
  intros Hq Hl. unfold copy_within.
  assert (length (take (p + 8) l) = (p + 8)%nat) as E1 by (len).
  assert (length (slice p n l) = n) as E2 by (apply length_slice; lia).
  rewrite drop_app_ge, E1 by (rewrite E1; lia).
  rewrite drop_app_ge, E2 by (rewrite E2; lia).
  rewrite drop_drop. f_equal. lia.
Qed.

Lemma drop_copy_within_at {A} p n (l : list A) :
  (p + 8 + n <= length l)%nat ->
  drop (p + 8) (copy_within p n (p + 8) l) = slice p n l ++ drop (p + 8 + n) l.
Proof.
  intros Hl. unfold copy_within. rewrite drop_app_length'; [done|]. len.
Qed.

(** One iteration of the in-place reader is one step of the reference. *)
Lemma decode_loop_parse {T} (dec : list byte -> result io_error T) fuel bytes p recs :
  (p <= length bytes)%nat ->
  decode_loop dec fuel bytes p recs = parse_loop dec fuel (drop p bytes) recs.
Proof.
  revert bytes p recs. induction fuel as [|fuel IH]; intros bytes p recs Hp; [done|].
  cbn [decode_loop parse_loop]. rewrite length_drop.
  destruct (Nat.ltb_spec p (length bytes)) as [Hlt|Hge]; cbn [negb].
  2:{ by replace (length bytes - p)%nat with 0%nat by lia. }
  rewrite (proj2 (Nat.eqb_neq (length bytes - p) 0)) by lia.
  unfold parse_one. rewrite length_drop. unfold slice at 1.
  destruct (Nat.ltb_spec (length bytes - p) HEADER) as [|Hh]; [done|].
  change (take HEADER (drop p bytes)) with (slice p HEADER bytes).
  destruct (bool_decide _) eqn:Em; cbn [negb]; [|done].
  set (n := le_val (slice 8 4 (slice p HEADER bytes))).
  destruct (negb (bit_not 32 n =? _) || (MAX_RECORD <? n)) eqn:En; [done|].
  assert ((length bytes <? p + HEADER + Z.to_nat n) =
          (length bytes - p <? HEADER + Z.to_nat n))%nat as ->.
  { destruct (Nat.ltb_spec (length bytes) (p + HEADER + Z.to_nat n));
    destruct (Nat.ltb_spec (length bytes - p) (HEADER + Z.to_nat n)); lia. }
  destruct (Nat.ltb_spec (length bytes - p) (HEADER + Z.to_nat n)) as [|Hb]; [done|].
  unfold HEADER in *.
  assert (slice (p + 8) (p + 32 + Z.to_nat n - (p + 8)) (copy_within p 24 (p + 8) bytes)
    = take 24 (drop p bytes) ++ slice 32 (Z.to_nat n) (drop p bytes)) as ->.
  { unfold slice at 1. rewrite drop_copy_within_at by lia.
    rewrite take_app_ge by (rewrite length_slice; lia).
    rewrite length_slice by lia. unfold slice. f_equal.
    rewrite drop_drop. f_equal; [lia|f_equal; lia]. }
  destruct (negb (xxh3_64 _ =? _)); [done|].
  assert (slice (p + 32) (p + 32 + Z.to_nat n - (p + 32)) (copy_within p 24 (p + 8) bytes)
    = slice 32 (Z.to_nat n) (drop p bytes)) as ->.
  { unfold slice. rewrite drop_copy_within_after, drop_drop by lia. f_equal. lia. }
  destruct (dec _); [|done].
  rewrite IH.
  - rewrite drop_copy_within_after, drop_drop by lia. f_equal. f_equal. lia.
  - rewrite length_copy_within by lia. lia.
Qed.

(** The header fields read back from a canonical frame. *)
Lemma frame_fields lsn body rest :
  frameable (lsn, body) ->
  let h := take HEADER (frame_bytes lsn body ++ rest) in
  slice 0 8 h = MAGIC /\ le_val (slice 8 4 h) = blen body /\
  le_val (slice 12 4 h) = bit_not 32 (blen body) /\ le_val (slice 16 8 h) = lsn /\
  le_val (slice 24 8 h) = xxh3_64 (head24 lsn body ++ body).
Proof.
  intros [Hl Hb] h. rewrite max_record_value in Hb. simpl in Hl, Hb.
  assert (0 <= blen body) as H0 by (unfold blen; lia).
  set (dg := xxh3_64 (head24 lsn body ++ body)).
  assert (h = MAGIC ++ le_bytes 4 (blen body) ++ le_bytes 4 (bit_not 32 (blen body))
    ++ le_bytes 8 lsn ++ le_bytes 8 dg ++ []) as ->.
  { unfold h, frame_bytes, head24 at 1, HEADER. fold dg. rewrite <-!app_assoc.
    rewrite app_nil_r, !(app_assoc _ _ (le_bytes 8 dg ++ _)), (app_assoc _ (le_bytes 8 dg)).
    rewrite take_app_length' by len. by rewrite <-!app_assoc. }
  repeat split.
  - rewrite slice_app_exact by len. apply le_val_le_bytes. lia.
  - rewrite (app_assoc MAGIC), slice_app_exact by len.
    apply le_val_le_bytes. unfold bit_not. lia.
  - rewrite (app_assoc MAGIC), (app_assoc (MAGIC ++ _)), slice_app_exact by len.
    apply le_val_le_bytes. unfold is_u in Hl. lia.
  - rewrite (app_assoc MAGIC), (app_assoc (MAGIC ++ _)), (app_assoc ((MAGIC ++ _) ++ _)).
    rewrite slice_app_exact by len.
    apply le_val_le_bytes. pose proof (xxh3_64_u64 (head24 lsn body ++ body)) as Hx.
    unfold is_u in Hx. fold dg in Hx. lia.
Qed.

Lemma parse_one_frame lsn body rest :
  frameable (lsn, body) -> parse_one (frame_bytes lsn body ++ rest) = Ok (lsn, body, rest).
Proof.
  intros Hf. unfold parse_one.
  destruct (frame_fields lsn body rest Hf) as (E1 & E2 & E3 & E4 & E5).
  rewrite E1, E2, E3, E4, E5, bool_decide_true, Z.eqb_refl by done. cbn [negb orb].
  destruct Hf as [_ Hb]. simpl in Hb.
  rewrite (proj2 (Z.ltb_ge MAX_RECORD (blen body))) by done.
  rewrite length_app, length_frame_bytes. unfold blen. rewrite Nat2Z.id.
  rewrite (proj2 (Nat.ltb_ge _ HEADER)), (proj2 (Nat.ltb_ge _ (HEADER + _))) by lia.
  set (dg := le_bytes 8 (xxh3_64 (head24 lsn body ++ body))).
  assert (slice HEADER (length body) (frame_bytes lsn body ++ rest) = body) as ->.
  { unfold frame_bytes. fold dg. rewrite (app_assoc _ dg), <-app_assoc.
    apply slice_app_exact; [|done]. unfold dg, HEADER. len. }
  assert (take 24 (frame_bytes lsn body ++ rest) = head24 lsn body) as ->.
  { unfold frame_bytes. rewrite <-app_assoc, take_app_length' by (by rewrite length_head24). done. }
  rewrite Z.eqb_refl. cbn [negb].
  rewrite drop_app_length' by (by rewrite length_frame_bytes). done.
Qed.

Lemma parse_one_inv rest lsn body rest' :
  parse_one rest = Ok (lsn, body, rest') ->
  rest = frame_bytes lsn body ++ rest' /\ frameable (lsn, body).
Proof.
  unfold parse_one. destruct (Nat.ltb_spec (length rest) HEADER) as [|Hh]; [done|].
  set (h := take HEADER rest).
  destruct (bool_decide (slice 0 8 h = MAGIC)) eqn:Em; cbn [negb]; [|done].
  apply bool_decide_eq_true in Em.
  set (n := le_val (slice 8 4 h)).
  destruct (Z.eqb_spec (bit_not 32 n) (le_val (slice 12 4 h))) as [Ec|]; cbn [negb orb]; [|done].
  destruct (Z.ltb_spec MAX_RECORD n) as [|Hn]; [done|].
  destruct (Nat.ltb_spec (length rest) (HEADER + Z.to_nat n)) as [|Hb]; [done|].
  destruct (Z.eqb_spec (xxh3_64 (take 24 rest ++ slice HEADER (Z.to_nat n) rest))
    (le_val (slice 24 8 h))) as [Ed|]; cbn [negb]; [|done].
  intros [= <- <- <-].
  assert (length h = 32%nat) as Hlh by (unfold h, HEADER in *; len).
  assert (0 <= n) as H0 by apply le_val_range.
  set (body := slice HEADER (Z.to_nat n) rest) in *.
  assert (blen body = n) as Hbn.
  { unfold blen, body. rewrite length_slice by lia. lia. }
  assert (forall i k, (i + k <= 32)%nat -> le_bytes k (le_val (slice i k h)) = slice i k h) as Hle.
  { intros i k Hik. rewrite <-(length_slice i k h) at 1 by lia. apply le_bytes_le_val. }
  assert (head24 (le_val (slice 16 8 h)) body = take 24 rest) as Eh.
  { unfold head24. rewrite Hbn, Ec, !Hle, <-Em by lia. subst n. rewrite Hle by lia.
    transitivity (slice 0 24 h); [|unfold h, HEADER; by rewrite slice_take by lia].
    change 24%nat with (8 + (4 + (4 + 8)))%nat. by rewrite !slice_split. }
  split; [|split].
  - unfold frame_bytes. rewrite Eh, Ed, Hle by lia.
    unfold h, body, HEADER. rewrite slice_take by lia.
    change (take 24 rest) with (slice 0 24 rest).
    rewrite <-(take_drop (32 + Z.to_nat n) rest) at 1. rewrite app_assoc. f_equal.
    change (take (32 + Z.to_nat n) rest) with (slice 0 (24 + (8 + Z.to_nat n)) rest).
    rewrite !slice_split, <-!app_assoc. done.
  - simpl. pose proof (le_val_range (slice 16 8 h)) as Hr.
    rewrite length_slice in Hr by lia. unfold is_u. lia.
  - simpl. lia.
Qed.

Lemma parse_one_shorter rest lsn body rest' :
  parse_one rest = Ok (lsn, body, rest') -> (length rest' < length rest)%nat.
Proof.
  intros [-> _]%parse_one_inv. rewrite length_app, length_frame_bytes.
  unfold HEADER. lia.
Qed.

Lemma frames_bytes_cons r rs :
  frames_bytes (r :: rs) = frame_bytes (fst r) (snd r) ++ frames_bytes rs.
Proof. reflexivity. Qed.

Lemma frames_bytes_nil : frames_bytes [] = [].
Proof. reflexivity. Qed.

Lemma frames_bytes_app rs ss : frames_bytes (rs ++ ss) = frames_bytes rs ++ frames_bytes ss.
Proof. unfold frames_bytes. by rewrite fmap_app, concat_app. Qed.

Lemma frame_bytes_cons_length lsn body rest :
  length (frame_bytes lsn body ++ rest) <> 0%nat.
Proof. rewrite length_app, length_frame_bytes. unfold HEADER. lia. Qed.

(** A concatenation of frames splits uniquely. *)
Lemma frames_bytes_head lsn body rest rs :
  frameable (lsn, body) -> Forall frameable rs ->
  frame_bytes lsn body ++ rest = frames_bytes rs ->
  exists rs', rs = (lsn, body) :: rs' /\ rest = frames_bytes rs' /\ Forall frameable rs'.
Proof.
  intros Hf Hrs E. destruct Hrs as [|[lsn' body'] rs Hr Hrs].
  { apply (f_equal length) in E. by apply frame_bytes_cons_length in E. }
  pose proof (parse_one_frame lsn body rest Hf) as P.
  rewrite E, frames_bytes_cons in P. cbn [fst snd] in P.
  rewrite parse_one_frame in P by done. injection P as -> -> <-. eauto.
Qed.

Section DecodeLemmas.
Context {T : Type} (dec : list byte -> result io_error T).

(** What the payload decoder makes of a raw record. *)
Definition decodes_to (r : Z * list byte) (o : Z * T) : Prop :=
  fst o = fst r /\ dec (snd r) = Ok (snd o).

Lemma parse_loop_total fuel rest recs :
  (length rest < fuel)%nat -> exists r, parse_loop dec fuel rest recs = Some r.
Proof.
  revert rest recs. induction fuel as [|fuel IH]; intros rest recs Hf; [lia|].
  cbn [parse_loop]. destruct (length rest =? 0)%nat; [eauto|].
  destruct (parse_one rest) as [[[lsn body] rest']|e] eqn:E; [|eauto].
  apply parse_one_shorter in E.
  destruct (dec body); [|eauto]. apply IH. lia.
Qed.

Lemma parse_loop_ok fuel rest recs out :
  (length rest < fuel)%nat ->
  parse_loop dec fuel rest recs = Some (Ok out) <->
  exists rs new, out = recs ++ new /\ Forall frameable rs /\
    rest = frames_bytes rs /\ Forall2 decodes_to rs new.
Proof.
  revert rest recs out. induction fuel as [|fuel IH]; intros rest recs out Hf; [lia|].
  cbn [parse_loop]. destruct (Nat.eqb_spec (length rest) 0) as [E0|Hne].
  { apply length_zero_iff_nil in E0 as ->. split.
    - intros [= <-]. exists [], []. by rewrite app_nil_r.
    - intros (rs & new & -> & _ & E & Hd). destruct rs as [|r rs].
      + apply Forall2_nil_inv_l in Hd as ->. by rewrite app_nil_r.
      + symmetry in E. apply (f_equal length) in E. rewrite frames_bytes_cons in E.
        by apply frame_bytes_cons_length in E. }
  destruct (parse_one rest) as [[[lsn body] rest']|e] eqn:E.
  - pose proof (parse_one_shorter _ _ _ _ E).
    apply parse_one_inv in E as [-> Hfr].
    destruct (dec body) as [v|e] eqn:Ed; split.
    + intros (rs & new & -> & Hrs & -> & Hd)%IH; [|lia].
      exists ((lsn, body) :: rs), ((lsn, v) :: new). rewrite <-app_assoc.
      repeat split; try done; by constructor.
    + intros (rs & new & -> & Hrs & E & Hd). apply IH; [lia|].
      apply frames_bytes_head in E as (rs' & -> & -> & Hrs'); [|done..].
      inversion Hd as [|? [o v'] ? new' [Eo Ev] Hd']; subst. simpl in *. subst o.
      rewrite Ed in Ev. injection Ev as ->.
      exists rs', new'. by rewrite <-app_assoc.
    + done.
    + intros (rs & new & -> & Hrs & E & Hd). exfalso.
      apply frames_bytes_head in E as (rs' & -> & -> & _); [|done..].
      inversion Hd as [|? ? ? ? [_ Ev] ?]; subst. simpl in Ev. congruence.
  - split; [done|]. intros (rs & new & -> & Hrs & -> & Hd). exfalso.
    destruct Hrs as [|[lsn' body'] rs Hr Hrs]; [done|].
    rewrite frames_bytes_cons in E. cbn [fst snd] in E. by rewrite parse_one_frame in E.
Qed.

(** The in-place reader is the reference reader. *)
Lemma decode_parse bytes : decode dec bytes = parse_loop dec (S (length bytes)) bytes [].
Proof. unfold decode. rewrite decode_loop_parse by lia. by rewrite drop_0. Qed.

Lemma decode_frames rs out :
  Forall frameable rs -> Forall2 decodes_to rs out ->
  decode dec (frames_bytes rs) = Some (Ok out).
Proof.
  intros Hrs Hd. rewrite decode_parse. apply parse_loop_ok; [lia|].
  exists rs, out. done.
Qed.

(** [decode] terminates on every buffer: the fuel it is given, one more than the
    buffer's length, is never exhausted, whatever the payload decoder does. *)
Theorem decode_total bytes : exists r, decode dec bytes = Some r.
Proof. rewrite decode_parse. apply parse_loop_total. lia. Qed.

(** Frame integrity.  [decode] succeeds on a buffer exactly when the buffer is the
    concatenation of canonical frames of records the format can carry, and then it
    returns each record's LSN with its decoded body, in order.  So no buffer with a
    damaged magic, length, complement, LSN, checksum or body is ever accepted as
    records it does not encode, and shifting headers in place never corrupts a later
    frame. *)
Theorem decode_ok_iff bytes out :
  decode dec bytes = Some (Ok out) <->
  exists rs, Forall frameable rs /\ bytes = frames_bytes rs /\ Forall2 decodes_to rs out.
Proof.
  rewrite decode_parse, parse_loop_ok by lia. split.
  - intros (rs & new & -> & ?). eauto.
  - intros (rs & ?). exists rs, out. done.
Qed.

End DecodeLemmas.

(** Writing records with [encode] and reading the concatenation back with [decode]
    gives the records back, for any number of records. *)
Theorem encode_decode_roundtrip (rs : list (Z * list byte)) (frames : list (list byte)) :
  Forall (fun r => is_u64 (fst r)) rs ->
  Forall2 (fun r f => encode (fst r) (snd r) = Ok f) rs frames ->
  decode Ok (concat frames) = Some (Ok rs).
Proof.
  intros Hu He.
  assert (Forall frameable rs /\ concat frames = frames_bytes rs) as [Hf ->].
  { induction He as [|[lsn body] f rs frames Ef He IH]; [by split|].
    apply Forall_cons in Hu as [Hu Hus]. destruct (IH Hus) as [Hfs E].
    rewrite encode_spec in Ef. simpl in Ef.
    destruct (Z.ltb_spec MAX_RECORD (blen body)); [done|]. injection Ef as <-.
    split; [by constructor|]. rewrite frames_bytes_cons. simpl. by rewrite E. }
  apply decode_frames; [done|]. clear.
  induction rs as [|r rs IH]; constructor; [by split|done].
Qed.

End Frame.

(** ** Examples and witnesses *)

Definition sample : list (Z * list byte) :=
  [(1, String.list_byte_of_string "alpha"); (2, []); (3, String.list_byte_of_string "x")].

Definition sample_frames : list (list byte) :=
  (fun r => @frame_bytes toy_xxh3 (fst r) (snd r)) <$> sample.

Example decode_sample :
  @decode toy_xxh3 _ Ok (concat sample_frames) = Some (Ok sample).
Proof. vm_compute. reflexivity. Qed.

Example decode_flipped_byte :
  @decode toy_xxh3 _ Ok (<[35%nat := x00]> (concat sample_frames)) =
  Some (Err (invalid "journal frame checksum")).
Proof. vm_compute. reflexivity. Qed.

Lemma encode_decode_roundtrip_witness :
  @decode toy_xxh3 _ Ok (concat sample_frames) = Some (Ok sample).
Proof.
  apply (@encode_decode_roundtrip toy_xxh3 sample sample_frames).
  - repeat (constructor; [by vm_compute|]). constructor.
  - repeat (constructor; [by vm_compute|]). constructor.
Defined.

End JournalFrame.
