(* ===== verification/JournalReplay.v ===== *)
(** The journal's replay pipeline (crates/talon-journal/src/replay.rs).

    [next] cuts a file into batches of physically complete frames; [read]
    decodes the batches and feeds the records to a visitor, either on the
    calling thread or through a window of batches that decoder threads work on
    while framing runs ahead.  A file is the list of its bytes; a decoder
    thread computes [JournalFrame.decode] of the batch it was sent, so the
    caller's loop is deterministic and is modelled with the batch itself in
    the queue of pending replies.  The visitor is a state-passing function. *)

From S2P Require Import Prelude External JournalFrame.

Module JournalReplay.
Import JournalFrame.

Definition BATCH_BYTES : Z := 512 * 1024.
Definition BATCH_RECORDS : nat := 1024%nat.
Definition WINDOW_BYTES : Z := 64 * 1024 * 1024.

Record Batch := mkBatch { batch_bytes : list byte; batch_end : nat }.

(** [file] holds the bytes the buffered reader has not delivered yet. *)
Record Frames := mkFrames {
  file : list byte;
  flength : nat;
  position : nat;
  header : option (list byte);
  tail_ok : bool;
  finished : bool
}.

Definition open (content : list byte) (tail_ok : bool) : Frames :=
  mkFrames content (length content) 0 None tail_ok false.

(** [Read::read_exact]. *)
Definition read_exact (n : nat) (file : list byte)
    : result io_error (list byte * list byte) :=
  if (length file <? n)%nat then Err UnexpectedEof
  else Ok (take n file, drop n file).

Definition take_header (fr : Frames) : result io_error (list byte * list byte) :=
  match header fr with
  | Some h => Ok (h, file fr)
  | None => read_exact HEADER (file fr)
  end.

Definition finish (fr : Frames) : Frames :=
  mkFrames (file fr) (flength fr) (position fr) (header fr) (tail_ok fr) true.

(** The loop of [next]; [budget] is [BATCH_RECORDS - records]. *)
Fixpoint next_loop (budget : nat) (fr : Frames) (bytes : list byte)
    : result io_error (Frames * list byte) :=
  match budget with
  | O => Ok (fr, bytes)
  | S budget =>
    if finished fr || negb (position fr <? flength fr)%nat then Ok (fr, bytes) else
    if (flength fr - position fr <? HEADER)%nat then
      if negb (tail_ok fr) then Err (invalid "truncated journal header")
      else Ok (finish fr, bytes)
    else
    '(h, rest) ← take_header fr;
    if negb (bool_decide (slice 0 8 h = MAGIC))
    then Err (invalid "unsupported/corrupt journal format") else
    let size := le_val (slice 8 4 h) in
    if negb (bit_not 32 size =? le_val (slice 12 4 h))
    then Err (invalid "journal frame length checksum mismatch") else
    if MAX_RECORD <? size then Err (invalid "invalid journal frame length") else
    if Z.of_nat (flength fr - position fr - HEADER) <? size then
      if negb (tail_ok fr) then Err (invalid "truncated journal body")
      else Ok (mkFrames rest (flength fr) (position fr) None (tail_ok fr) true, bytes)
    else
    if negb (length bytes =? 0)%nat
       && (BATCH_BYTES <? blen bytes + Z.of_nat HEADER + size)
    then Ok (mkFrames rest (flength fr) (position fr) (Some h) (tail_ok fr)
               (finished fr), bytes)
    else
    '(body, rest) ← read_exact (Z.to_nat size) rest;
    next_loop budget
      (mkFrames rest (flength fr) (position fr + (HEADER + Z.to_nat size))
         None (tail_ok fr) (finished fr))
      (bytes ++ h ++ body)
  end.

Definition next (fr : Frames) : result io_error (Frames * option Batch) :=
  '(fr, bytes) ← next_loop BATCH_RECORDS fr [];
  Ok (fr, if (length bytes =? 0)%nat then None else Some (mkBatch bytes (position fr))).

Section Read.
Context `{Xxh3} {T St : Type}.
Context (dec : list byte -> result io_error T).
Context (visit : St -> Z -> T -> result io_error St).

(** The [for (lsn, value) in records { visit(lsn, value)?; }] loop. *)
Fixpoint visit_all (st : St) (records : list (Z * T)) : result io_error St :=
  match records with
  | [] => Ok st
  | (lsn, value) :: records => st ← visit st lsn value; visit_all st records
  end.

Definition consume (st : St) (b : Batch) : result io_error St :=
  match decode dec (batch_bytes b) with
  | None => Err (OtherError "unreachable")
  | Some r => records ← r; visit_all st records
  end.

(** [threads == 1]: frame, decode and visit one batch at a time. *)
Fixpoint read_sequential (fuel : nat) (fr : Frames) (st : St)
    : option (result io_error (St * nat)) :=
  match fuel with
  | O => None
  | S fuel =>
    match next fr with
    | Err e => Some (Err e)
    | Ok (fr, None) => Some (Ok (st, position fr))
    | Ok (fr, Some b) =>
      match consume st b with
      | Err e => Some (Err e)
      | Ok st => read_sequential fuel fr st
      end
    end
  end.

(** Reading ahead: [slots] is [threads * 2 - pending.len()]. *)
Fixpoint fill (slots : nat) (fr : Frames) (pending : list Batch) (queued : Z) (eof : bool)
    : result io_error (Frames * list Batch * Z * bool) :=
  match slots with
  | O => Ok (fr, pending, queued, eof)
  | S slots =>
    if eof || negb (queued <=? WINDOW_BYTES - MAX_RECORD - Z.of_nat HEADER)
    then Ok (fr, pending, queued, eof)
    else
    '(fr, ob) ← next fr;
    match ob with
    | None => Ok (fr, pending, queued, true)
    | Some b => fill slots fr (pending ++ [b]) (queued + blen (batch_bytes b)) eof
    end
  end.

Fixpoint read_pipelined (fuel threads : nat) (fr : Frames) (pending : list Batch)
    (queued : Z) (eof : bool) (offset : nat) (st : St)
    : option (result io_error (St * nat)) :=
  match fuel with
  | O => None
  | S fuel =>
    if eof && (length pending =? 0)%nat then Some (Ok (st, offset)) else
    match fill (threads * 2 - length pending) fr pending queued eof with
    | Err e => Some (Err e)
    | Ok (fr, [], queued, eof) =>
        read_pipelined fuel threads fr [] queued eof offset st
    | Ok (fr, b :: pending, queued, eof) =>
      match consume st b with
      | Err e => Some (Err e)
      | Ok st => read_pipelined fuel threads fr pending
                   (queued - blen (batch_bytes b)) eof (batch_end b) st
      end
    end
  end.

Definition thread_count (threads : nat) (length_ : nat) : nat :=
  (Z.to_nat (Z.min (Z.max (Z.of_nat threads) 1)
    (Z.max (div_ceil (Z.of_nat length_) BATCH_BYTES) 1))).

Definition read (content : list byte) (tail_ok : bool) (threads : nat) (st : St)
    : option (result io_error (St * nat)) :=
  let fr := open content tail_ok in
  let threads := thread_count threads (flength fr) in
  if (threads =? 1)%nat
  then read_sequential (S (length content)) fr st
  else read_pipelined (3 + length content) (threads - 1) fr [] 0 false 0 st.

End Read.

Lemma batch_records_pos : BATCH_RECORDS <> 0%nat.
Proof. discriminate. Qed.

(** Keep [1024] folded: the lemmas below only use that it is positive. *)
#[global] Opaque BATCH_RECORDS.

(** ** Framing invariant *)

(** A file suffix that a crash in the middle of an append leaves: fewer bytes than a
    header, or a valid header whose body is not all there. *)
Definition torn (tail : list byte) : Prop :=
  (0 < length tail < HEADER)%nat \/
  ((HEADER <= length tail)%nat /\ slice 0 8 tail = MAGIC /\
   bit_not 32 (le_val (slice 8 4 tail)) = le_val (slice 12 4 tail) /\
   le_val (slice 8 4 tail) <= MAX_RECORD /\
   Z.of_nat (length tail - HEADER) < le_val (slice 8 4 tail)).

Section Framing.
Context (content : list byte).

Definition rem (fr : Frames) : list byte := drop (position fr) content.

Record framing_inv (fr : Frames) : Prop := {
  inv_length : flength fr = length content;
  inv_position : (position fr <= length content)%nat;
  inv_header : forall h, header fr = Some h ->
    h = slice (position fr) HEADER content /\ (position fr + HEADER <= length content)%nat;
  inv_file : finished fr = false -> file fr = drop (position fr + (if header fr is Some _ then HEADER else 0)) content
}.

Lemma framing_inv_open b : framing_inv (open content b).
Proof. constructor; simpl; [done|lia|done|by rewrite drop_0]. Qed.

Lemma take_header_inv fr :
  framing_inv fr -> finished fr = false -> (position fr + HEADER <= length content)%nat ->
  take_header fr = Ok (take HEADER (rem fr), drop HEADER (rem fr)).
Proof.
  intros [Hl Hp Hh Hf] Hfin Hle. specialize (Hf Hfin). unfold take_header, rem. rewrite drop_drop.
  destruct (header fr) as [h|] eqn:E.
  - destruct (Hh h eq_refl) as [-> _]. by rewrite Hf.
  - rewrite Nat.add_0_r in Hf. unfold read_exact. rewrite Hf, length_drop.
    rewrite (proj2 (Nat.ltb_ge _ _)) by lia. by rewrite drop_drop.
Qed.

Lemma length_rem fr : length (rem fr) = (length content - position fr)%nat.
Proof. apply length_drop. Qed.

(** What the head of the unread part of the file looks like. *)
Inductive cut (rem : list byte) : Type :=
  | cut_end : rem = [] -> cut rem
  | cut_torn : torn rem -> cut rem
  | cut_whole (n : nat) : (HEADER + n <= length rem)%nat ->
      slice 0 8 rem = MAGIC ->
      bit_not 32 (le_val (slice 8 4 rem)) = le_val (slice 12 4 rem) ->
      le_val (slice 8 4 rem) <= MAX_RECORD ->
      le_val (slice 8 4 rem) = Z.of_nat n -> cut rem
  | cut_bad : ((HEADER <= length rem)%nat) ->
      (slice 0 8 rem <> MAGIC \/
       bit_not 32 (le_val (slice 8 4 rem)) <> le_val (slice 12 4 rem) \/
       MAX_RECORD < le_val (slice 8 4 rem)) -> cut rem.

Lemma cut_cases (l : list byte) : cut l.
Proof.
  destruct (decide (length l = 0%nat)) as [E|Hne].
  { apply cut_end. by apply length_zero_iff_nil. }
  destruct (decide (length l < HEADER)%nat) as [Hlt|Hge].
  { apply cut_torn. left. lia. }
  assert (HEADER <= length l)%nat as Hle by lia. clear Hge.
  destruct (decide (slice 0 8 l = MAGIC)) as [Em|Em]; [|apply cut_bad; auto].
  destruct (decide (bit_not 32 (le_val (slice 8 4 l)) = le_val (slice 12 4 l)))
    as [Ec|Ec]; [|apply cut_bad; auto].
  destruct (decide (le_val (slice 8 4 l) <= MAX_RECORD)) as [En|En];
    [|apply cut_bad; auto with lia].
  pose proof (le_val_range (slice 8 4 l)) as [H0 _].
  destruct (decide (Z.of_nat (length l - HEADER) < le_val (slice 8 4 l))) as [Ht|Ht].
  { apply cut_torn. right. done. }
  apply (cut_whole _ (Z.to_nat (le_val (slice 8 4 l)))); try done; lia.
Qed.

(** One iteration of [next_loop] when a whole header is unread. *)
Lemma next_loop_header budget fr bytes :
  framing_inv fr -> finished fr = false -> (HEADER <= length (rem fr))%nat ->
  let size := le_val (slice 8 4 (rem fr)) in
  next_loop (S budget) fr bytes =
    if negb (bool_decide (slice 0 8 (rem fr) = MAGIC))
    then Err (invalid "unsupported/corrupt journal format") else
    if negb (bit_not 32 size =? le_val (slice 12 4 (rem fr)))
    then Err (invalid "journal frame length checksum mismatch") else
    if MAX_RECORD <? size then Err (invalid "invalid journal frame length") else
    if Z.of_nat (length (rem fr) - HEADER) <? size then
      if negb (tail_ok fr) then Err (invalid "truncated journal body")
      else Ok (mkFrames (drop HEADER (rem fr)) (flength fr) (position fr) None (tail_ok fr) true,
               bytes)
    else
    if negb (length bytes =? 0)%nat && (BATCH_BYTES <? blen bytes + Z.of_nat HEADER + size)
    then Ok (mkFrames (drop HEADER (rem fr)) (flength fr) (position fr)
               (Some (take HEADER (rem fr))) (tail_ok fr) false, bytes)
    else next_loop budget
      (mkFrames (drop (HEADER + Z.to_nat size) (rem fr)) (flength fr)
         (position fr + (HEADER + Z.to_nat size)) None (tail_ok fr) false)
      (bytes ++ take (HEADER + Z.to_nat size) (rem fr)).
Proof.
  intros Hi Hfin Hle size. pose proof (length_rem fr) as Hlr.
  pose proof (inv_position fr Hi) as Hp.
  assert (0 < HEADER)%nat as H0 by (unfold HEADER; lia).
  cbn [next_loop]. rewrite Hfin, (inv_length fr Hi).
  rewrite (proj2 (Nat.ltb_lt (position fr) _)) by lia. cbn [negb orb].
  rewrite (proj2 (Nat.ltb_ge (length content - _) _)) by lia.
  rewrite take_header_inv by auto with lia. cbn [mbind result_bind].
  rewrite !slice_take by (unfold HEADER; lia). fold size. rewrite <-Hlr.
  repeat case_match; try done.
  assert (0 <= size) as Hs by apply le_val_range.
  unfold read_exact. rewrite length_drop.
  rewrite (proj2 (Nat.ltb_ge (length (rem fr) - HEADER) (Z.to_nat size))).
  2:{ match goal with E : (Z.of_nat _ <? size) = false |- _ => apply Z.ltb_ge in E; lia end. }
  cbn [mbind result_bind]. rewrite drop_drop. do 2 f_equal.
  by rewrite take_plus.
Qed.

Lemma framing_inv_finish fr : framing_inv fr -> framing_inv (finish fr).
Proof. intros []. by constructor. Qed.

Lemma framing_inv_skip fr n ob b :
  framing_inv fr -> (n <= length (rem fr))%nat ->
  framing_inv (mkFrames (drop n (rem fr)) (flength fr) (position fr + n) None ob b).
Proof.
  intros [Hl Hp _ _] Hn. rewrite length_rem in Hn. constructor; simpl; [done|lia|done|].
  intros _. unfold rem. rewrite drop_drop. f_equal. lia.
Qed.

(** One iteration of [next_loop], by the shape of the unread bytes. *)
Lemma next_loop_step budget fr bytes :
  framing_inv fr -> finished fr = false ->
  match cut_cases (rem fr) with
  | cut_end _ _ => next_loop (S budget) fr bytes = Ok (fr, bytes)
  | cut_torn _ _ =>
      if tail_ok fr then exists fr', next_loop (S budget) fr bytes = Ok (fr', bytes) /\
        framing_inv fr' /\ position fr' = position fr /\ tail_ok fr' = true /\
        finished fr' = true
      else exists e, next_loop (S budget) fr bytes = Err e
  | cut_bad _ _ _ => exists e, next_loop (S budget) fr bytes = Err e
  | cut_whole _ n _ _ _ _ _ => exists fr',
      framing_inv fr' /\ tail_ok fr' = tail_ok fr /\ finished fr' = false /\
      ((bytes <> [] /\ position fr' = position fr /\
        next_loop (S budget) fr bytes = Ok (fr', bytes)) \/
       (position fr' = (position fr + (HEADER + n))%nat /\
        next_loop (S budget) fr bytes =
        next_loop budget fr' (bytes ++ take (HEADER + n) (rem fr))))
  end.
Proof.
  intros Hi Hfin. pose proof (inv_position fr Hi) as Hp. pose proof (length_rem fr) as Hlr.
  destruct (cut_cases (rem fr)) as [E|[Ht|(Hle & Em & Ec & Hm & Hlt)]|n Hn Em Ec Hm En|Hh Hbad].
  - cbn [next_loop]. rewrite Hfin. apply (f_equal length) in E. simpl in E.
    rewrite (inv_length fr Hi), (proj2 (Nat.ltb_ge _ _)) by lia. done.
  - cbn [next_loop]. rewrite Hfin, (inv_length fr Hi).
    rewrite (proj2 (Nat.ltb_lt (position fr) _)) by lia. cbn [negb orb].
    rewrite (proj2 (Nat.ltb_lt (length content - _) _)) by lia.
    destruct (tail_ok fr) eqn:Et; cbn [negb]; [|eauto].
    exists (finish fr). by pose proof (framing_inv_finish fr Hi).
  - rewrite next_loop_header, Em, Ec, bool_decide_true, Z.eqb_refl by done. cbn [negb].
    rewrite (proj2 (Z.ltb_ge MAX_RECORD _)), (proj2 (Z.ltb_lt _ _)) by lia.
    destruct (tail_ok fr) eqn:Et; cbn [negb]; [|eauto].
    eexists. split; [done|]. split; [|done].
    by constructor; simpl; [apply Hi|apply Hi|..].
  - rewrite next_loop_header, Em, Ec, bool_decide_true, Z.eqb_refl by (done || lia). cbn [negb].
    rewrite (proj2 (Z.ltb_ge MAX_RECORD _)), (proj2 (Z.ltb_ge _ _)) by lia.
    rewrite En, Nat2Z.id.
    destruct (negb (length bytes =? 0)%nat && _) eqn:Eb.
    + exists (mkFrames (drop HEADER (rem fr)) (flength fr) (position fr)
        (Some (take HEADER (rem fr))) (tail_ok fr) false).
      split; [|do 2 (split; [done|]); left; split; [|by split]].
      * constructor; simpl; [apply Hi|apply Hi| |].
        -- intros h [= <-]. unfold rem, slice. split; [done|lia].
        -- intros _. unfold rem. by rewrite drop_drop.
      * intros ->. by rewrite andb_false_l in Eb.
    + exists (mkFrames (drop (HEADER + n) (rem fr)) (flength fr)
        (position fr + (HEADER + n)) None (tail_ok fr) false).
      split; [|do 2 (split; [done|]); right; by split].
      apply framing_inv_skip; [done|lia].
  - rewrite next_loop_header by done.
    destruct (bool_decide _) eqn:Em; cbn [negb]; [|eauto]. apply bool_decide_eq_true in Em.
    destruct (Z.eqb_spec (bit_not 32 (le_val (slice 8 4 (rem fr))))
      (le_val (slice 12 4 (rem fr)))); cbn [negb]; [|eauto].
    destruct (Z.ltb_spec MAX_RECORD (le_val (slice 8 4 (rem fr)))); [eauto|].
    exfalso. destruct Hbad as [?|[?|?]]; [done..|lia].
Qed.

Lemma next_loop_sound budget fr bytes fr' bytes' :
  framing_inv fr -> finished fr = false -> next_loop budget fr bytes = Ok (fr', bytes') ->
  exists seg, bytes' = bytes ++ seg /\ rem fr = seg ++ rem fr' /\
    position fr' = (position fr + length seg)%nat /\ framing_inv fr' /\
    tail_ok fr' = tail_ok fr /\
    (finished fr' = true -> tail_ok fr = true /\ torn (rem fr')) /\
    (budget <> 0%nat -> bytes' = [] -> finished fr' = true \/ rem fr' = []).
Proof.
  revert fr bytes. induction budget as [|budget IH]; intros fr bytes Hi Hfin E.
  { injection E as <- <-. exists []. rewrite app_nil_r, Nat.add_0_r. by splits; auto; congruence. }
  pose proof (next_loop_step budget fr bytes Hi Hfin) as Hs.
  destruct (cut_cases (rem fr)) as [E0|Ht|n Hn Em Ec Hm En|Hh Hbad].
  - rewrite Hs in E. injection E as <- <-. exists []. rewrite app_nil_r, Nat.add_0_r.
    splits; auto; congruence.
  - destruct (tail_ok fr) eqn:Et.
    2:{ destruct Hs as [e Hs]. by rewrite Hs in E. }
    destruct Hs as (fr1 & Hs & Hi1 & Hp & Ht1 & Hf1). rewrite Hs in E. injection E as <- <-.
    exists []. rewrite app_nil_r, Nat.add_0_r. unfold rem in *. rewrite Hp.
    splits; auto; congruence.
  - destruct Hs as (fr1 & Hi1 & Ht1 & Hf1 & [(Hne & Hp & Hs)|[Hp Hs]]).
    + rewrite Hs in E. injection E as <- <-. exists []. rewrite app_nil_r, Nat.add_0_r.
      unfold rem. rewrite Hp. splits; auto; congruence.
    + rewrite Hs in E. apply IH in E as (seg & -> & Er & Hp' & Hi' & Ht' & Hf' & Hb'); [|done..].
      exists (take (HEADER + n) (rem fr) ++ seg).
      assert (rem fr = take (HEADER + n) (rem fr) ++ rem fr1) as Esplit.
      { rewrite <-(take_drop (HEADER + n) (rem fr)) at 1. f_equal.
        unfold rem. by rewrite Hp, drop_drop. }
      split; [by rewrite app_assoc|]. split.
      { rewrite Esplit at 1. by rewrite Er, app_assoc. }
      rewrite Ht1 in *. split; [len; unfold HEADER in *; lia|].
      repeat (split; [done|]). intros _ [[_ E0]%app_eq_nil _]%app_eq_nil.
      apply (f_equal length) in E0. rewrite length_take in E0. unfold HEADER in *.
      cbn [length] in E0. lia.
  - destruct Hs as [e Hs]. by rewrite Hs in E.
Qed.

End Framing.

Section Frames.
Context `{Xxh3}.

Lemma frame_slices lsn body rest :
  frameable (lsn, body) ->
  let r := frame_bytes lsn body ++ rest in
  (HEADER + length body <= length r)%nat /\ slice 0 8 r = MAGIC /\
  le_val (slice 8 4 r) = blen body /\ le_val (slice 12 4 r) = bit_not 32 (blen body).
Proof.
  intros Hf r. destruct (frame_fields lsn body rest Hf) as (E1 & E2 & E3 & _).
  split; [unfold r; rewrite length_app, length_frame_bytes; lia|].
  rewrite !slice_take in * by (unfold HEADER; lia). done.
Qed.

Lemma frame_not_torn lsn body rest :
  frameable (lsn, body) -> ~ torn (frame_bytes lsn body ++ rest).
Proof.
  intros Hf. destruct (frame_slices lsn body rest Hf) as (Hl & _ & En & _).
  intros [?|(_ & _ & _ & _ & Hlt)]; [lia|]. rewrite En in Hlt. unfold blen in Hlt. lia.
Qed.

(** A file as the writer and a crash leave it: whole frames, then nothing or, where a
    torn tail is tolerated, a torn frame. *)
Definition log_image (content : list byte) (tail_ok : bool) (rs : list (Z * list byte))
    (tail : list byte) : Prop :=
  content = frames_bytes rs ++ tail /\ Forall frameable rs /\
  (tail = [] \/ tail_ok = true /\ torn tail).

Lemma next_loop_complete content budget fr bytes rs tail :
  framing_inv content fr -> finished fr = false ->
  log_image (rem content fr) (tail_ok fr) rs tail ->
  exists rs1 rs2 fr', rs = rs1 ++ rs2 /\
    next_loop budget fr bytes = Ok (fr', bytes ++ frames_bytes rs1).
Proof.
  revert fr bytes rs. induction budget as [|budget IH]; intros fr bytes rs Hi Hfin Hlog.
  { exists [], rs, fr. split; [done|]. by rewrite frames_bytes_nil, app_nil_r. }
  pose proof (next_loop_step content budget fr bytes Hi Hfin) as Hs.
  destruct Hlog as (Er & Hrs & Htail).
  destruct rs as [|[lsn body] rs].
  - change (frames_bytes [] ++ tail) with tail in Er. rewrite <-Er in Htail. clear Er IH tail.
    destruct (cut_cases (rem content fr)) as [E0|Ht|n Hn Em Ec Hm En|Hh Hbad].
    + exists [], [], fr. split; [done|]. by rewrite frames_bytes_nil, app_nil_r.
    + destruct Htail as [E0|[Et _]].
      { exfalso. rewrite E0 in Ht. destruct Ht as [?|[Hx _]]; simpl in *; [lia|].
        unfold HEADER in Hx. lia. }
      rewrite Et in Hs. destruct Hs as (fr1 & Hs & _). exists [], [], fr1. split; [done|]. by rewrite frames_bytes_nil, app_nil_r.
    + exfalso. destruct Htail as [E0|[_ [?|(_ & _ & _ & _ & Hlt)]]]; [|lia..].
      rewrite E0 in Hn. simpl in Hn. unfold HEADER in Hn. lia.
    + exfalso. destruct Htail as [E0|[_ [?|(_ & Em & Ec & Hm & _)]]]; [|lia|].
      * rewrite E0 in Hh. simpl in Hh. unfold HEADER in Hh. lia.
      * destruct Hbad as [?|[?|?]]; [done..|lia].
  - apply Forall_cons in Hrs as [Hr Hrs]. rewrite frames_bytes_cons, <-app_assoc in Er.
    cbn [fst snd] in Er. pose proof (frame_slices _ _ (frames_bytes rs ++ tail) Hr) as Hsl.
    pose proof (frame_not_torn _ _ (frames_bytes rs ++ tail) Hr) as Hnt.
    cbv zeta in Hsl. rewrite <-Er in Hsl, Hnt. destruct Hsl as (Hl & Em' & En' & Ec').
    destruct (cut_cases (rem content fr)) as [E0|Ht|n Hn Em Ec Hm En|Hh Hbad].
    + rewrite E0 in Hl. simpl in Hl. unfold HEADER in Hl. lia.
    + done.
    + assert (n = length body) as -> by (unfold blen in *; lia).
      destruct Hs as (fr1 & Hi1 & Ht1 & Hf1 & [(Hne & Hp & Hs)|[Hp Hs]]).
      { exists [], ((lsn, body) :: rs), fr1. split; [done|]. by rewrite frames_bytes_nil, app_nil_r. }
      assert (take (HEADER + length body) (rem content fr) = frame_bytes lsn body) as Etk.
      { rewrite Er, take_app_length'; [done|]. by rewrite length_frame_bytes. }
      destruct (IH fr1 (bytes ++ frame_bytes lsn body) rs) as (rs1 & rs2 & fr' & -> & E);
        [done|done| |].
      { rewrite Ht1. split; [|done]. unfold rem. rewrite Hp, <-drop_drop.
        change (drop (position fr) content) with (rem content fr). rewrite Er.
        rewrite drop_app_length'; [done|]. by rewrite length_frame_bytes. }
      exists ((lsn, body) :: rs1), rs2, fr'. split; [done|].
      rewrite Hs, Etk, E, frames_bytes_cons, <-app_assoc. done.
    + exfalso. destruct Hr as [_ Hr]. simpl in Hr.
      destruct Hbad as [?|[Hx|?]]; [done| |lia]. by rewrite En', Ec' in Hx.
Qed.

End Frames.

(** ** The sequence of batches of a file *)

(** [run_batches fr bs fr']: calling [next] from [fr] until it returns [None] yields the
    batches [bs] and ends in [fr']. *)
Inductive run_batches : Frames -> list Batch -> Frames -> Prop :=
  | run_done fr fr' : next fr = Ok (fr', None) -> run_batches fr [] fr'
  | run_more fr fr1 b bs fr' :
      next fr = Ok (fr1, Some b) -> run_batches fr1 bs fr' -> run_batches fr (b :: bs) fr'.

Definition last_end (offset : nat) (bs : list Batch) : nat :=
  match last bs with Some b => batch_end b | None => offset end.

Lemma last_end_cons offset b bs : last_end offset (b :: bs) = last_end (batch_end b) bs.
Proof. unfold last_end. rewrite last_cons. by destruct (last bs). Qed.

Lemma next_loop_finished budget fr bytes :
  finished fr = true -> next_loop budget fr bytes = Ok (fr, bytes).
Proof. intros E. destruct budget; cbn [next_loop]; [done|]. by rewrite E. Qed.

Section Runs.
Context (content : list byte).
Abbreviation rem := (rem content).

(** The reader's state between calls of [next]. *)
Definition reader_inv (fr : Frames) : Prop :=
  framing_inv content fr /\ (finished fr = true -> tail_ok fr = true /\ torn (rem fr)).

Lemma reader_inv_open b : reader_inv (open content b).
Proof. split; [apply framing_inv_open|done]. Qed.

Lemma next_sound fr fr' ob :
  reader_inv fr -> next fr = Ok (fr', ob) ->
  reader_inv fr' /\ tail_ok fr' = tail_ok fr /\
  match ob with
  | Some b => rem fr = batch_bytes b ++ rem fr' /\ batch_bytes b <> [] /\
              batch_end b = position fr'
  | None => position fr' = position fr /\
            (rem fr' = [] \/ tail_ok fr = true /\ torn (rem fr'))
  end.
Proof.
  intros [Hi Hf] E. unfold next in E.
  destruct (next_loop BATCH_RECORDS fr []) as [[fr1 bytes]|e] eqn:En; [|done].
  cbn [mbind result_bind] in E. injection E as <- <-.
  destruct (finished fr) eqn:Hfin.
  { rewrite next_loop_finished in En by done. injection En as <- <-. cbn [length Nat.eqb]. unfold reader_inv. rewrite Hfin.
    splits; auto. }
  apply (next_loop_sound content) in En as (seg & Eb & Er & Hp & Hi' & Ht' & Hf' & Hend); [|done..].
  simpl in Eb. subst bytes. rewrite <-Ht' in Hf'.
  split; [done|]. split; [done|].
  destruct (Nat.eqb_spec (length seg) 0) as [E0|Hne].
  - apply length_zero_iff_nil in E0 as ->. split; [simpl in Hp; lia|].
    destruct (Hend batch_records_pos eq_refl) as [Hx|]; [|auto]. rewrite <-Ht'. auto.
  - splits; [done| |done]. intros E0. simpl in E0. by rewrite E0 in Hne.
Qed.

Lemma run_sound fr bs fr' :
  run_batches fr bs fr' -> reader_inv fr ->
  rem fr = concat (batch_bytes <$> bs) ++ rem fr' /\ reader_inv fr' /\
  (rem fr' = [] \/ tail_ok fr = true /\ torn (rem fr')) /\
  last_end (position fr) bs = position fr' /\ (length bs <= length (rem fr))%nat.
Proof.
  induction 1 as [fr fr' E|fr fr1 b bs fr' E _ IH]; intros Hi.
  - apply next_sound in E as (Hi' & Ht & Hp & Hend); [|done].
    splits; auto; [|simpl; lia]. simpl. unfold JournalReplay.rem. by rewrite Hp.
  - apply next_sound in E as (Hi1 & Ht & Er & Hne & Hb); [|done].
    destruct (IH Hi1) as (Er1 & Hi' & Hend & Hl & Hlen). rewrite Ht in Hend.
    splits; auto.
    + rewrite Er, Er1. cbn [fmap list_fmap concat]. by rewrite <-app_assoc.
    + by rewrite last_end_cons, Hb.
    + rewrite Er. destruct (batch_bytes b); [done|]. len.
Qed.

Lemma run_complete `{Xxh3} fr rs tail :
  reader_inv fr -> log_image (rem fr) (tail_ok fr) rs tail ->
  exists bs fr' rss, run_batches fr bs fr' /\ rs = concat rss /\
    batch_bytes <$> bs = frames_bytes <$> rss /\ rem fr' = tail.
Proof.
  remember (length (rem fr)) as k eqn:Ek. revert fr rs Ek.
  induction (lt_wf k) as [k _ IH]; intros fr rs -> Hi Hlog.
  assert (exists rs1 rs2 fr1, rs = rs1 ++ rs2 /\
    next_loop BATCH_RECORDS fr [] = Ok (fr1, frames_bytes rs1)) as (rs1 & rs2 & fr1 & -> & En).
  { destruct (finished fr) eqn:Hfin.
    - exists [], rs, fr. split; [done|]. by apply next_loop_finished.
    - destruct Hi as [Hi _].
      exact (next_loop_complete content BATCH_RECORDS fr [] rs tail Hi Hfin Hlog). }
  assert (next fr = Ok (fr1, if (length (frames_bytes rs1) =? 0)%nat then None
            else Some (mkBatch (frames_bytes rs1) (position fr1)))) as Enext.
  { unfold next. by rewrite En. }
  pose proof Hlog as (Er & Hrs & Htail). rewrite frames_bytes_app, <-app_assoc in Er.
  apply Forall_app in Hrs as [Hrs1 Hrs2].
  destruct (Nat.eqb_spec (length (frames_bytes rs1)) 0) as [E0|Hne].
  - pose proof (next_sound _ _ _ Hi Enext) as (Hi1 & Ht & Hp & Hend).
    assert (rem fr1 = rem fr) as Erem by (unfold JournalReplay.rem; by rewrite Hp).
    destruct rs1 as [|r rs1].
    2:{ by apply frame_bytes_cons_length in E0. }
    destruct rs2 as [|[lsn body] rs2].
    2:{ exfalso. rewrite frames_bytes_nil, frames_bytes_cons, <-app_assoc in Er.
        cbn [fst snd app] in Er. apply Forall_cons in Hrs2 as [Hr _]. rewrite Erem, Er in Hend.
        destruct Hend as [E|[_ Hx]].
        - apply (f_equal length) in E. by apply frame_bytes_cons_length in E.
        - by apply frame_not_torn in Hx. }
    exists [], fr1, []. splits; [by constructor|done..|]. by rewrite Erem.
  - pose proof (next_sound _ _ _ Hi Enext) as (Hi1 & Ht & Er1 & _ & _).
    cbn [batch_bytes] in Er1. rewrite Er1 in Er. apply app_inv_head in Er.
    destruct (IH (length (rem fr1))) with (fr := fr1) (rs := rs2) as
      (bs & fr' & rss & Hrun & -> & Eb & Etl); [|done|done| |].
    + rewrite Er1, length_app. lia.
    + by rewrite Ht.
    + exists (mkBatch (frames_bytes rs1) (position fr1) :: bs), fr', (rs1 :: rss).
      splits; [by econstructor|done| |done]. rewrite !fmap_cons. by rewrite Eb.
Qed.

End Runs.

(** ** Consuming the batches *)

Section Consume.
Context `{Xxh3} {T St : Type}.
Context (dec : list byte -> result io_error T).
Context (visit : St -> Z -> T -> result io_error St).

Fixpoint consume_all (st : St) (bs : list Batch) : result io_error St :=
  match bs with
  | [] => Ok st
  | b :: bs => st ← consume dec visit st b; consume_all st bs
  end.

Lemma visit_all_app st l k :
  visit_all visit st (l ++ k) = (visit_all visit st l ≫= fun st => visit_all visit st k).
Proof.
  revert st. induction l as [|[lsn v] l IH]; intros st; simpl; [done|].
  destruct (visit st lsn v); simpl; [apply IH|done].
Qed.

Lemma consume_frames st b rs out :
  batch_bytes b = frames_bytes rs -> Forall frameable rs -> Forall2 (decodes_to dec) rs out ->
  consume dec visit st b = visit_all visit st out.
Proof. intros E Hr Hd. unfold consume. by rewrite E, (decode_frames dec rs out). Qed.

Lemma consume_sound st b st' :
  consume dec visit st b = Ok st' ->
  exists rs out, batch_bytes b = frames_bytes rs /\ Forall frameable rs /\
    Forall2 (decodes_to dec) rs out /\ visit_all visit st out = Ok st'.
Proof.
  unfold consume. destruct (decode dec (batch_bytes b)) as [[out|e]|] eqn:E; [|done..].
  rewrite decode_parse in E. apply parse_loop_ok in E as (rs & new & -> & Hr & E & Hd); [|lia].
  intros Hv. exists rs, new. done.
Qed.

Lemma consume_all_sound st bs st' :
  consume_all st bs = Ok st' ->
  exists rs out, concat (batch_bytes <$> bs) = frames_bytes rs /\ Forall frameable rs /\
    Forall2 (decodes_to dec) rs out /\ visit_all visit st out = Ok st'.
Proof.
  revert st. induction bs as [|b bs IH]; intros st E; simpl in E.
  - injection E as <-. by exists [], [].
  - inv_ok. apply consume_sound in E0 as (rs1 & out1 & E1 & Hr1 & Hd1 & Hv1).
    apply IH in E as (rs2 & out2 & E2 & Hr2 & Hd2 & Hv2).
    exists (rs1 ++ rs2), (out1 ++ out2).
    rewrite fmap_cons. cbn [concat]. rewrite E1, E2, frames_bytes_app, visit_all_app, Hv1.
    splits; [done|by apply Forall_app|by apply Forall2_app|done].
Qed.

Lemma consume_all_complete st bs rss out :
  batch_bytes <$> bs = frames_bytes <$> rss -> Forall frameable (concat rss) ->
  Forall2 (decodes_to dec) (concat rss) out -> consume_all st bs = visit_all visit st out.
Proof.
  revert st rss out. induction bs as [|b bs IH]; intros st [|rs rss] out E Hr Hd;
    try discriminate E.
  - apply Forall2_nil_inv_l in Hd as ->. done.
  - rewrite !fmap_cons in E. injection E as Eb E. cbn [concat] in Hr, Hd.
    apply Forall_app in Hr as [Hr1 Hr2].
    apply Forall2_app_inv_l in Hd as (out1 & out2 & Hd1 & Hd2 & ->).
    cbn [consume_all]. rewrite (consume_frames st b rs out1) by done.
    rewrite visit_all_app. destruct (visit_all visit st out1); [|done].
    cbn [mbind result_bind]. by apply (IH _ rss).
Qed.

(** *** The sequential reader *)

Lemma read_sequential_sound fuel fr st st' off :
  read_sequential dec visit fuel fr st = Some (Ok (st', off)) ->
  exists bs fr', run_batches fr bs fr' /\ consume_all st bs = Ok st' /\ off = position fr'.
Proof.
  revert fr st. induction fuel as [|fuel IH]; intros fr st E; [done|]. simpl in E.
  destruct (next fr) as [[fr1 [b|]]|e] eqn:En; [| |done].
  - destruct (consume dec visit st b) as [st1|e] eqn:Ec; [|done].
    apply IH in E as (bs & fr' & Hrun & Hc & ->).
    exists (b :: bs), fr'. splits; [by econstructor| |done]. simpl. by rewrite Ec.
  - injection E as <- <-. exists [], fr1. splits; [by constructor|done..].
Qed.

Lemma read_sequential_complete fuel fr bs fr' st st' :
  run_batches fr bs fr' -> consume_all st bs = Ok st' -> (length bs < fuel)%nat ->
  read_sequential dec visit fuel fr st = Some (Ok (st', position fr')).
Proof.
  intros Hrun. revert fuel st. induction Hrun as [fr fr' E|fr fr1 b bs fr' E _ IH];
    intros [|fuel] st Hc Hf; try (simpl in Hf; lia); cbn [read_sequential]; rewrite E.
  - by injection Hc as ->.
  - simpl in Hc, Hf. destruct (consume dec visit st b); [|done]. apply IH; [done|lia].
Qed.

(** *** The pipelined reader *)

(** The batches still to be framed: none after end of file. *)
Definition rest_run (eof : bool) (fr : Frames) (bs : list Batch) (fr' : Frames) : Prop :=
  if eof then bs = [] /\ fr' = fr else run_batches fr bs fr'.

Definition queued_bytes (pending : list Batch) : Z :=
  foldr (fun b z => blen (batch_bytes b) + z) 0 pending.

Lemma queued_bytes_snoc pending b :
  queued_bytes (pending ++ [b]) = queued_bytes pending + blen (batch_bytes b).
Proof. unfold queued_bytes. induction pending; simpl; lia. Qed.

Lemma fill_sound slots fr pending queued eof fr1 pending1 queued1 eof1 :
  fill slots fr pending queued eof = Ok (fr1, pending1, queued1, eof1) ->
  exists bs1, pending1 = pending ++ bs1 /\
    (forall bs2 fr', rest_run eof1 fr1 bs2 fr' -> rest_run eof fr (bs1 ++ bs2) fr').
Proof.
  revert fr pending queued. induction slots as [|slots IH]; intros fr pending queued E;
    cbn [fill] in E.
  { injection E as <- <- <- <-. exists []. rewrite app_nil_r. auto. }
  destruct (eof || _) eqn:Ec.
  { injection E as <- <- <- <-. exists []. rewrite app_nil_r. auto. }
  apply orb_false_iff in Ec as [-> _].
  destruct (next fr) as [[fr2 [b|]]|e] eqn:En; cbn [mbind result_bind] in E; [| |done].
  - apply IH in E as (bs1 & -> & Hr). exists (b :: bs1).
    split; [by rewrite <-app_assoc|]. intros bs2 fr' H2%Hr. by econstructor.
  - injection E as <- <- <- <-. exists []. rewrite app_nil_r. split; [done|].
    intros bs2 fr' [-> ->]. by constructor.
Qed.

Lemma fill_complete slots fr pending queued eof bs fr' :
  queued = queued_bytes pending -> rest_run eof fr bs fr' ->
  exists fr1 bs1 bs2 eof1,
    fill slots fr pending queued eof =
      Ok (fr1, pending ++ bs1, queued_bytes (pending ++ bs1), eof1) /\
    bs = bs1 ++ bs2 /\ rest_run eof1 fr1 bs2 fr' /\ (eof = true -> eof1 = true) /\
    (slots <> 0%nat -> pending = [] -> bs1 = [] -> eof1 = true).
Proof.
  revert fr pending queued bs. induction slots as [|slots IH];
    intros fr pending queued bs -> Hrun; cbn [fill].
  { exists fr, [], bs, eof. rewrite app_nil_r. by splits. }
  destruct (eof || _) eqn:Ec.
  { exists fr, [], bs, eof. rewrite app_nil_r. splits; try done.
    intros _ -> _. apply orb_true_iff in Ec as [|Ec]; [done|].
    vm_compute in Ec. done. }
  apply orb_false_iff in Ec as [-> Hq]. cbn [rest_run] in Hrun.
  inversion Hrun as [? ? En|? fr2 b bs' ? En Hrun']; subst; rewrite En; cbn [mbind result_bind].
  - exists fr', [], [], true. rewrite app_nil_r. by splits.
  - destruct (IH fr2 (pending ++ [b]) (queued_bytes pending + blen (batch_bytes b)) bs')
      as (fr1 & bs1 & bs2 & eof1 & E & -> & Hr & He & _);
      [by rewrite queued_bytes_snoc|done|].
    exists fr1, (b :: bs1), bs2, eof1. rewrite E, <-app_assoc. by splits.
Qed.

Lemma read_pipelined_sound fuel threads fr pending queued eof offset st st' off :
  read_pipelined dec visit fuel threads fr pending queued eof offset st = Some (Ok (st', off)) ->
  exists bs fr', rest_run eof fr bs fr' /\ consume_all st (pending ++ bs) = Ok st' /\
    off = last_end offset (pending ++ bs).
Proof.
  revert fr pending queued eof offset st.
  induction fuel as [|fuel IH]; intros fr pending queued eof offset st E; [done|].
  cbn [read_pipelined] in E. destruct (eof && (length pending =? 0)%nat) eqn:Ee.
  { apply andb_true_iff in Ee as [-> E0]. apply Nat.eqb_eq, length_zero_iff_nil in E0 as ->.
    injection E as <- <-. by exists [], fr. }
  destruct (fill _ fr pending queued eof) as [[[[fr1 pending1] queued1] eof1]|e] eqn:Ef; [|done].
  apply fill_sound in Ef as (bs1 & -> & Hr).
  destruct (pending ++ bs1) as [|b pend] eqn:Ep.
  - apply IH in E as (bs & fr' & Hrun & Hc & ->). exists (bs1 ++ bs), fr'.
    rewrite app_assoc, Ep. splits; auto.
  - destruct (consume dec visit st b) as [st1|e] eqn:Ec; [|done].
    apply IH in E as (bs & fr' & Hrun & Hc & ->). exists (bs1 ++ bs), fr'.
    rewrite app_assoc, Ep. splits; auto.
    + cbn [app consume_all]. by rewrite Ec.
    + cbn [app]. by rewrite last_end_cons.
Qed.

Lemma read_pipelined_complete fuel threads fr pending eof offset bs fr' st st' :
  (0 < threads)%nat -> rest_run eof fr bs fr' -> consume_all st (pending ++ bs) = Ok st' ->
  (length pending + length bs + (if eof then 0 else 1) < fuel)%nat ->
  read_pipelined dec visit fuel threads fr pending (queued_bytes pending) eof offset st =
  Some (Ok (st', last_end offset (pending ++ bs))).
Proof.
  intros Ht. revert fr pending eof offset bs st.
  induction fuel as [|fuel IH]; intros fr pending eof offset bs st Hrun Hc Hf; [lia|].
  cbn [read_pipelined]. destruct (eof && (length pending =? 0)%nat) eqn:Ee.
  { apply andb_true_iff in Ee as [-> E0]. apply Nat.eqb_eq, length_zero_iff_nil in E0 as ->.
    destruct Hrun as [-> ->]. by injection Hc as ->. }
  destruct (fill_complete (threads * 2 - length pending) fr pending (queued_bytes pending)
    eof bs fr' eq_refl Hrun) as (fr1 & bs1 & bs2 & eof1 & -> & -> & Hr & He & Hp).
  rewrite app_assoc in Hc. rewrite app_assoc.
  assert (length (pending ++ bs1) + length bs2 + (if eof then 0 else 1) <= fuel)%nat as Hf'
    by (len).
  destruct (pending ++ bs1) as [|b pend] eqn:Ep.
  - apply app_eq_nil in Ep as [-> ->]. simpl in Ee.
    assert (eof1 = true) as -> by (apply Hp; simpl; [lia|done..]).
    apply IH; [done|done|]. destruct eof; [done|]. simpl in *. lia.
  - cbn [app consume_all] in Hc. destruct (consume dec visit st b) as [st1|e]; [|done].
    cbn [mbind result_bind] in Hc. cbn [app]. rewrite last_end_cons.
    replace (queued_bytes (b :: pend) - blen (batch_bytes b)) with (queued_bytes pend)
      by (simpl; lia).
    apply IH; [done|done|]. simpl in Hf'. destruct eof; [rewrite He by done; lia|].
    destruct eof1; lia.
Qed.

(** *** Both readers stop *)

Lemma read_sequential_stops content fuel fr st :
  reader_inv content fr -> (length (rem content fr) < fuel)%nat ->
  read_sequential dec visit fuel fr st <> None.
Proof.
  revert fr st. induction fuel as [|fuel IH]; intros fr st Hi Hf; [lia|].
  cbn [read_sequential]. destruct (next fr) as [[fr1 [b|]]|e] eqn:En; [|done..].
  apply (next_sound content) in En as (Hi1 & _ & Er & Hne & _); [|done].
  destruct (consume dec visit st b); [|done]. apply IH; [done|].
  rewrite Er in Hf. destruct (batch_bytes b); [done|]. revert Hf. len.
Qed.

Lemma fill_measure content slots fr pending queued eof fr1 pending1 queued1 eof1 :
  reader_inv content fr -> fill slots fr pending queued eof = Ok (fr1, pending1, queued1, eof1) ->
  queued = queued_bytes pending ->
  reader_inv content fr1 /\ queued1 = queued_bytes pending1 /\
  (length pending1 + length (rem content fr1) <= length pending + length (rem content fr))%nat /\
  (eof = true -> eof1 = true) /\ (slots <> 0%nat -> pending1 = [] -> eof1 = true).
Proof.
  revert fr pending queued. induction slots as [|slots IH]; intros fr pending queued Hi E Eq;
    cbn [fill] in E.
  { injection E as <- <- <- <-. by splits. }
  destruct (eof || _) eqn:Ec.
  { injection E as <- <- <- <-. splits; try done. intros _ ->. rewrite Eq in Ec.
    apply orb_true_iff in Ec as [|Ec]; [done|]. vm_compute in Ec. done. }
  destruct (next fr) as [[fr2 [b|]]|e] eqn:En; cbn [mbind result_bind] in E; [| |done];
    apply (next_sound content) in En as (Hi1 & _ & Er); try done.
  - destruct Er as (Er & Hne & _). pose proof (fill_sound _ _ _ _ _ _ _ _ _ E) as (bs1 & Ep & _).
    apply IH in E as (Hi' & Eq' & Hl & He & _); [|done|by rewrite queued_bytes_snoc, Eq].
    assert (pending1 <> []) as Hp by (rewrite Ep; by destruct pending). clear Ep.
    rewrite Er. destruct (batch_bytes b); [done|]. splits; try done. revert Hl. len.
  - injection E as <- <- <- <-. destruct Er as [Hp _]. splits; try done.
    unfold rem. by rewrite Hp.
Qed.

Lemma read_pipelined_stops content fuel threads fr pending (eof : bool) offset st :
  (0 < threads)%nat -> reader_inv content fr ->
  (length pending + length (rem content fr) + (if eof then 0 else 1) < fuel)%nat ->
  read_pipelined dec visit fuel threads fr pending (queued_bytes pending) eof offset st <> None.
Proof.
  intros Ht. revert fr pending eof offset st.
  induction fuel as [|fuel IH]; intros fr pending eof offset st Hi Hf; [lia|].
  cbn [read_pipelined]. destruct (eof && (length pending =? 0)%nat) eqn:Ee; [done|].
  destruct (fill _ fr pending _ eof) as [[[[fr1 pending1] queued1] eof1]|e] eqn:Ef; [|done].
  pose proof (fill_sound _ _ _ _ _ _ _ _ _ Ef) as (bs1 & Ep & _).
  apply (fill_measure content) in Ef as (Hi1 & -> & Hl & He & Hs); [|done..].
  destruct pending1 as [|b pend].
  - symmetry in Ep. apply app_eq_nil in Ep as [-> _]. simpl in *.
    rewrite Hs by (done || lia). apply IH; [done|]. destruct eof; [done|simpl; lia].
  - destruct (consume dec visit st b) as [st1|e]; [|done].
    replace (queued_bytes (b :: pend) - blen (batch_bytes b)) with (queued_bytes pend)
      by (simpl; lia).
    apply IH; [done|]. simpl in Hl. destruct eof; [rewrite He by done; lia|].
    destruct eof1; lia.
Qed.

(** *** [read] *)

Lemma read_cases content b threads st st' off :
  read dec visit content b threads st = Some (Ok (st', off)) <->
  exists bs fr', run_batches (open content b) bs fr' /\ consume_all st bs = Ok st' /\
    off = position fr'.
Proof.
  assert (forall bs fr', run_batches (open content b) bs fr' ->
    last_end 0 bs = position fr' /\ (length bs <= length content)%nat) as Hrun.
  { intros bs fr' Hr. apply (run_sound content) in Hr as (_ & _ & _ & Hl & Hlen);
      [|apply reader_inv_open]. split; [done|]. by rewrite length_rem, Nat.sub_0_r in Hlen. }
  unfold read. destruct (Nat.eqb_spec (thread_count threads (flength (open content b))) 1) as [E|E].
  - split; [apply read_sequential_sound|]. intros (bs & fr' & Hr & Hc & ->).
    destruct (Hrun _ _ Hr). apply (read_sequential_complete _ _ bs); [done..|lia].
  - split.
    + intros (bs & fr' & Hr & Hc & ->)%read_pipelined_sound. exists bs, fr'.
      destruct (Hrun _ _ Hr). done.
    + intros (bs & fr' & Hr & Hc & ->). destruct (Hrun _ _ Hr) as [<- Hlen].
      apply (read_pipelined_complete _ _ _ [] false 0 bs fr'); [|done..|simpl; lia].
      unfold thread_count in *. lia.
Qed.

Lemma read_image content b threads st st' off :
  read dec visit content b threads st = Some (Ok (st', off)) <->
  exists rs tail out, log_image content b rs tail /\ Forall2 (decodes_to dec) rs out /\
    visit_all visit st out = Ok st' /\ off = length (frames_bytes rs).
Proof.
  rewrite read_cases. split.
  - intros (bs & fr' & Hr & Hc & ->). apply consume_all_sound in Hc as (rs & out & E & Hrs & Hd & Hv).
    apply (run_sound content) in Hr as (Er & [Hi _] & Hend & _ & _); [|apply reader_inv_open].
    exists rs, (rem content fr'), out. splits; [|done|done|].
    + split; [|done]. by rewrite <-E, <-Er.
    + rewrite E in Er. apply (f_equal length) in Er. rewrite length_app, !length_rem in Er.
      pose proof (inv_position _ _ Hi). simpl in Er. lia.
  - intros (rs & tail & out & Hlog & Hd & Hv & ->).
    destruct (run_complete content (open content b) rs tail) as (bs & fr' & rss & Hr & -> & Eb & Etl);
      [apply reader_inv_open|by rewrite <-(drop_0 content) in Hlog|].
    destruct Hlog as (Ec & Hrs & _).
    exists bs, fr'. splits; [done|by rewrite (consume_all_complete _ _ rss out)|].
    apply (run_sound content) in Hr as (_ & [Hi _] & _); [|apply reader_inv_open].
    pose proof (inv_position _ _ Hi). apply (f_equal length) in Ec, Etl.
    rewrite length_rem in Etl. rewrite length_app in Ec. lia.
Qed.

(** *** Crash images *)

Lemma frame_prefix_torn lsn body k :
  frameable (lsn, body) -> (0 < k < length (frame_bytes lsn body))%nat ->
  torn (take k (frame_bytes lsn body)).
Proof.
  intros Hf [Hk0 Hk]. destruct (frame_slices lsn body [] Hf) as (_ & E1 & E2 & E3).
  rewrite app_nil_r in E1, E2, E3. destruct Hf as [_ Hm]. simpl in Hm.
  pose proof (length_frame_bytes lsn body) as Hl.
  assert (length (take k (frame_bytes lsn body)) = k) as Ek by (rewrite length_take; lia).
  destruct (decide (k < HEADER)%nat) as [|Hge]; [left; lia|right].
  rewrite !slice_take by (unfold HEADER in *; lia). rewrite E1, E2, E3, Ek.
  splits; [lia|done..|]. unfold blen. lia.
Qed.

(** Every prefix of a log of whole frames is whole frames and a torn one. *)
Lemma prefix_image rs k :
  Forall frameable rs ->
  exists n tail, log_image (take k (frames_bytes rs)) true (take n rs) tail /\
    (length (frames_bytes (take n rs)) <= k)%nat /\
    ((n < length rs)%nat -> (k < length (frames_bytes (take (S n) rs)))%nat).
Proof.
  revert k. induction rs as [|[lsn body] rs IH]; intros k Hrs.
  { exists 0%nat, []. simpl. splits; [|lia..]. rewrite frames_bytes_nil, take_nil. split; auto. }
  apply Forall_cons in Hrs as [Hr Hrs].
  destruct (decide (k < length (frame_bytes lsn body))%nat) as [Hk|Hk].
  - exists 0%nat, (take k (frame_bytes lsn body)). cbn [take].
    rewrite !frames_bytes_cons, frames_bytes_nil, app_nil_r. cbn [fst snd].
    split; [|split; [simpl; lia|done]]. split; [|split; [done|]].
    + by rewrite take_app_le by lia.
    + destruct k as [|k]; [by left|right]. split; [done|].
      apply frame_prefix_torn; [done|lia].
  - destruct (IH (k - length (frame_bytes lsn body))%nat Hrs) as (n & tail & (E & Hn & Ht) & Hle & Hlt).
    exists (S n), tail. cbn [take]. rewrite !frames_bytes_cons, !length_app. cbn [fst snd length].
    split; [|split; [lia|intros Hx; specialize (Hlt ltac:(lia)); lia]].
    split; [|split; [by constructor|done]].
    rewrite frames_bytes_cons, take_app_ge, E, app_assoc by lia. done.
Qed.

(** ** Theorems *)

(** [read] succeeds exactly on the files that are a sequence of canonical frames
    followed by nothing or, where a torn tail is tolerated, by a torn frame, whose records
    all decode and whose visits all succeed; it visits the records in file order and
    returns the end of the last complete record.  Batching, the read-ahead window and the
    number of decoder threads have no part in the result. *)
Theorem read_ok_iff content b threads st st' off :
  read dec visit content b threads st = Some (Ok (st', off)) <->
  exists rs tail out, log_image content b rs tail /\ Forall2 (decodes_to dec) rs out /\
    visit_all visit st out = Ok st' /\ off = length (frames_bytes rs).
Proof. apply read_image. Qed.

(** [read] returns on every file, for every thread count, also when framing, a decoder
    or the visitor fails: the caller's loop makes progress in every iteration. *)
Theorem read_total content b threads st :
  read dec visit content b threads st <> None.
Proof.
  pose proof (reader_inv_open content b) as Hi.
  unfold read. destruct (Nat.eqb_spec (thread_count threads (flength (open content b))) 1).
  - apply (read_sequential_stops content); [done|]. rewrite length_rem. simpl. lia.
  - apply (read_pipelined_stops content _ _ _ [] false); [unfold thread_count in *; lia|done|].
    rewrite length_rem. simpl. lia.
Qed.

(** A successful read with one thread count is a successful read, with the same state
    and the same offset, with every other. *)
Theorem read_threads_agree content b t1 t2 st r :
  read dec visit content b t1 st = Some (Ok r) <-> read dec visit content b t2 st = Some (Ok r).
Proof. destruct r as [st' off]. by rewrite !read_image. Qed.

(** Crash recovery.  Cut a log of whole frames at any byte: reading what is left with
    torn tails tolerated visits exactly the records that are wholly in it and returns the
    end of the last of them. *)
Theorem read_crash_prefix rs out k threads st :
  Forall frameable rs -> Forall2 (decodes_to dec) rs out ->
  exists n, (length (frames_bytes (take n rs)) <= k)%nat /\
    ((n < length rs)%nat -> (k < length (frames_bytes (take (S n) rs)))%nat) /\
    forall st', visit_all visit st (take n out) = Ok st' ->
      read dec visit (take k (frames_bytes rs)) true threads st =
      Some (Ok (st', length (frames_bytes (take n rs)))).
Proof.
  intros Hrs Hd. destruct (prefix_image rs k Hrs) as (n & tail & Hlog & Hle & Hlt).
  exists n. splits; [done..|]. intros st' Hv. apply read_image.
  exists (take n rs), tail, (take n out). splits; auto. by apply Forall2_take.
Qed.

End Consume.

(** ** Witness *)

Definition collect (st : list (Z * list byte)) (lsn : Z) (v : list byte)
    : result io_error (list (Z * list byte)) := Ok (st ++ [(lsn, v)]).

Lemma read_crash_prefix_witness :
  exists n, (length (@frames_bytes toy_xxh3 (take n sample)) <= 40)%nat /\
    ((n < length sample)%nat -> (40 < length (@frames_bytes toy_xxh3 (take (S n) sample)))%nat) /\
    forall st', visit_all collect [] (take n sample) = Ok st' ->
      @read toy_xxh3 _ _ Ok collect (take 40 (@frames_bytes toy_xxh3 sample)) true 4 [] =
      Some (Ok (st', length (@frames_bytes toy_xxh3 (take n sample)))).
Proof.
  apply (@read_crash_prefix toy_xxh3 _ _ Ok collect sample sample 40 4 []).
  - repeat (constructor; [by vm_compute|]). constructor.
  - repeat (constructor; [by vm_compute|]). constructor.
Defined.

Example read_torn_sample :
  @read toy_xxh3 _ _ Ok collect (take 40 (@frames_bytes toy_xxh3 sample)) true 4 [] =
  Some (Ok (take 1 sample, 37%nat)).
Proof. vm_compute. reflexivity. Qed.

End JournalReplay.
