(* ===== verification/JournalCurrent.v ===== *)
(** The journal's CURRENT record (crates/talon-journal/src/disk.rs): the recovery set of a
    stream, its encoding, and the names of the files it refers to. *)

From S2P Require Import Prelude External JournalFrame.

Module JournalCurrent.
Import JournalFrame.

Definition CURRENT_MAGIC : list byte := String.list_byte_of_string "TLNJCU01".
Definition MAX_GENERATIONS : Z := 64.

(** A garbage entry is a file kind ([true] for a snapshot) and a generation. *)
Record Current := mkCurrent {
  snapshot : Z;
  lsn : Z;
  bytes : Z;
  records : Z;
  logs : list Z;
  garbage : list (bool * Z);
  pending : Z
}.

#[export] Instance Current_eq_dec : EqDecision Current.
Proof. solve_decision. Defined.

Section Codec.
Context `{Xxh3}.

Definition kind_code (snapshot : bool) : Z := if snapshot then 1 else 0.

Definition garbage_bytes (e : bool * Z) : list byte :=
  le_bytes 8 (kind_code e.1) ++ le_bytes 8 e.2.

(** The bytes before the checksum. *)
Definition payload (c : Current) : list byte :=
  CURRENT_MAGIC ++
  concat (le_bytes 8 <$> [snapshot c; lsn c; bytes c; records c; pending c;
    Z.of_nat (length (logs c)); Z.of_nat (length (garbage c))]) ++
  concat (le_bytes 8 <$> logs c) ++ concat (garbage_bytes <$> garbage c).

Definition encode (c : Current) : result io_error (list byte) :=
  if (MAX_GENERATIONS <? Z.of_nat (length (logs c))) ||
     (MAX_GENERATIONS * 2 <? Z.of_nat (length (garbage c)))
  then Err (invalid "too many journal generations")
  else Ok (payload c ++ le_bytes 8 (xxh3_64 (payload c))).

(** The local function [n]: one little-endian word. *)
Definition n (b : list byte) : result io_error (Z * list byte) :=
  if (length b <? 8)%nat then Err (invalid "truncated CURRENT")
  else Ok (le_val (take 8 b), drop 8 b).

Fixpoint take_logs (count : nat) (b : list byte) : result io_error (list Z * list byte) :=
  match count with
  | O => Ok ([], b)
  | S count => '(v, b) ← n b; '(vs, b) ← take_logs count b; Ok (v :: vs, b)
  end.

Fixpoint take_garbage (count : nat) (b : list byte)
    : result io_error (list (bool * Z) * list byte) :=
  match count with
  | O => Ok ([], b)
  | S count =>
    '(kind, b) ← n b;
    if 1 <? kind then Err (invalid "CURRENT file kind") else
    '(g, b) ← n b; '(gs, b) ← take_garbage count b; Ok ((kind =? 1, g) :: gs, b)
  end.

(** [logs.windows(2).any(|p| p[1] != p[0] + 1)], in wrapping arithmetic. *)
Fixpoint gap (l : list Z) : bool :=
  match l with
  | a :: ((b :: _) as l') => negb (b =? wrap 64 (a + 1)) || gap l'
  | _ => false
  end.

(** A garbage entry that names a file of the recovery set. *)
Definition live (snapshot : Z) (logs : list Z) (e : bool * Z) : bool :=
  if e.1 then e.2 =? snapshot else bool_decide (e.2 ∈ logs).

Definition decode (b : list byte) : result io_error Current :=
  let body := (length b - 8)%nat in
  if (length b <? 72)%nat || negb (bool_decide (take 8 b = CURRENT_MAGIC)) ||
     negb (xxh3_64 (take body b) =? le_val (drop body b))
  then Err (invalid "journal CURRENT version/checksum") else
  let input := drop 8 (take body b) in
  '(snapshot, input) ← n input;
  '(lsn, input) ← n input;
  '(bytes, input) ← n input;
  '(records, input) ← n input;
  '(pending, input) ← n input;
  '(nlogs, input) ← n input;
  '(ngarbage, input) ← n input;
  if (nlogs =? 0) || (MAX_GENERATIONS <? nlogs) || (2 * MAX_GENERATIONS <? ngarbage)
  then Err (invalid "CURRENT generation count") else
  '(logs, input) ← take_logs (Z.to_nat nlogs) input;
  '(garbage, input) ← take_garbage (Z.to_nat ngarbage) input;
  if negb (length input =? 0)%nat || (snapshot =? 0)
     || negb (default 0 (head logs) =? snapshot) || gap logs
     || (negb (pending =? 0) && negb (pending =? default 0 (last logs)))
     || existsb (live snapshot logs) garbage
  then Err (invalid "CURRENT recovery set")
  else Ok (mkCurrent snapshot lsn bytes records logs garbage pending).

End Codec.

(** ** File names *)

(** The files of a stream's directory. *)
Inductive Name :=
  | CURRENT | CURRENT_tmp | journal_tmp | snapshot_tmp
  | Generation (snapshot : bool) (generation : Z).

#[export] Instance Name_eq_dec : EqDecision Name.
Proof. solve_decision. Defined.

#[export] Instance Name_countable : Countable Name.
Proof.
  refine (inj_countable'
    (fun x => match x with
      | CURRENT => inl 0 | CURRENT_tmp => inl 1 | journal_tmp => inl 2 | snapshot_tmp => inl 3
      | Generation s g => inr (s, g) end)
    (fun y => match y with
      | inl 0 => CURRENT | inl 1 => CURRENT_tmp | inl 2 => journal_tmp | inl _ => snapshot_tmp
      | inr (s, g) => Generation s g end) _).
  by intros [].
Defined.

Definition path (snapshot : bool) (generation : Z) : Name := Generation snapshot generation.

(** Fixed-width decimal, most significant digit first ([{generation:020}]). *)
Fixpoint decimal (width : nat) (v : Z) : list byte :=
  match width with
  | O => []
  | S width => decimal width (v / 10) ++ [byte_of (48 + v mod 10)]
  end.

(** The name in the directory. *)
Definition file_name (x : Name) : list byte :=
  match x with
  | CURRENT => String.list_byte_of_string "CURRENT"
  | CURRENT_tmp => String.list_byte_of_string "CURRENT.tmp"
  | journal_tmp => String.list_byte_of_string "journal.tmp"
  | snapshot_tmp => String.list_byte_of_string "snapshot.tmp"
  | Generation s g =>
    String.list_byte_of_string (if s then "snapshot." else "journal.") ++ decimal 20 g
  end.

(** Names of distinct files are distinct for every [u64] generation. *)
Definition name_u64 (x : Name) : Prop :=
  match x with Generation _ g => is_u64 g | _ => True end.

(** ** Parsing inverts printing *)

Lemma n_ok b v r : n b = Ok (v, r) <-> is_u64 v /\ b = le_bytes 8 v ++ r.
Proof.
  unfold n. destruct (Nat.ltb_spec (length b) 8) as [Hlt|Hge]; split; try done.
  - intros [_ ->]. rewrite length_app, length_le_bytes in Hlt. lia.
  - intros [= <- <-]. assert (length (take 8 b) = 8%nat) as Hl by (rewrite length_take; lia). split.
    + pose proof (le_val_range (take 8 b)) as Hr. by rewrite Hl in Hr.
    + rewrite <-(take_drop 8 b) at 1. f_equal. rewrite <-Hl at 2. by rewrite le_bytes_le_val.
  - intros [Hv ->]. rewrite take_app_length', drop_app_length' by by rewrite length_le_bytes.
    by rewrite le_val_le_bytes.
Qed.

Lemma n_le v r : is_u64 v -> n (le_bytes 8 v ++ r) = Ok (v, r).
Proof. intros. by apply n_ok. Qed.

Lemma take_logs_ok k b vs r :
  take_logs k b = Ok (vs, r) <->
  length vs = k /\ Forall is_u64 vs /\ b = concat (le_bytes 8 <$> vs) ++ r.
Proof.
  revert b vs. induction k as [|k IH]; intros b vs; cbn [take_logs].
  - split; [by intros [= <- <-]|]. intros (Hl & _ & ->). by apply nil_length_inv in Hl as ->.
  - split.
    + intros E. inv_ok. destruct r0 as [v b1]. inv_ok. destruct r0 as [vs1 b2]. simplify_eq.
      apply n_ok in E0 as [Hv ->]. apply IH in E1 as (<- & Hvs & ->).
      rewrite fmap_cons. cbn [concat]. rewrite <-app_assoc. splits; [done|by constructor|done].
    + intros (Hl & Hvs & ->). destruct vs as [|v vs]; [done|]. apply Forall_cons in Hvs as [Hv Hvs].
      rewrite fmap_cons. cbn [concat]. rewrite <-app_assoc, n_le by done. cbn [mbind result_bind].
      rewrite (proj2 (IH _ vs)); [done|]. splits; [by injection Hl|done..].
Qed.

Lemma take_garbage_ok k b gs r :
  take_garbage k b = Ok (gs, r) <->
  length gs = k /\ Forall (fun e => is_u64 e.2) gs /\ b = concat (garbage_bytes <$> gs) ++ r.
Proof.
  revert b gs. induction k as [|k IH]; intros b gs; cbn [take_garbage].
  - split; [by intros [= <- <-]|]. intros (Hl & _ & ->). by apply nil_length_inv in Hl as ->.
  - split.
    + intros E. inv_ok. destruct r0 as [kind b1]. destruct (Z.ltb_spec 1 kind); [done|]. inv_ok.
      destruct r0 as [g b2]. inv_ok. destruct r0 as [gs1 b3]. simplify_eq.
      apply n_ok in E0 as [Hk ->]. apply n_ok in E1 as [Hg ->]. apply IH in E2 as (<- & Hgs & ->).
      splits; [done|by constructor|]. rewrite fmap_cons. cbn [concat]. unfold garbage_bytes at 2. cbn [fst snd].
      rewrite <-!app_assoc. do 2 f_equal. unfold is_u in Hk. destruct (Z.eqb_spec kind 1); simpl; lia.
    + intros (Hl & Hgs & ->). destruct gs as [|[kd g] gs]; [done|].
      apply Forall_cons in Hgs as [Hg Hgs]. rewrite fmap_cons. cbn [concat]. unfold garbage_bytes at 1.
      cbn [fst snd]. rewrite <-!app_assoc, n_le by (by destruct kd). cbn [mbind result_bind].
      rewrite (proj2 (Z.ltb_ge 1 (kind_code kd))) by (by destruct kd). rewrite n_le by done.
      cbn [mbind result_bind]. rewrite (proj2 (IH _ gs)); [by destruct kd|].
      splits; [by injection Hl|done..].
Qed.

(** ** Valid recovery sets *)

Record current_ok (c : Current) : Prop := {
  co_words : Forall is_u64 [snapshot c; lsn c; bytes c; records c; pending c];
  co_logs : Forall is_u64 (logs c) /\ 0 < Z.of_nat (length (logs c)) <= MAX_GENERATIONS;
  co_garbage : Forall (fun e => is_u64 e.2) (garbage c) /\
    Z.of_nat (length (garbage c)) <= 2 * MAX_GENERATIONS;
  co_snapshot : snapshot c <> 0 /\ head (logs c) = Some (snapshot c);
  co_consecutive : gap (logs c) = false;
  co_pending : pending c = 0 \/ last (logs c) = Some (pending c);
  co_disjoint : forall e, e ∈ garbage c -> live (snapshot c) (logs c) e = false
}.

Lemma length_payload `{Xxh3} c : (64 <= length (payload c))%nat.
Proof. unfold payload. cbn [fmap list_fmap concat]. len. Qed.

Lemma count_u64 {A} (l : list A) : Z.of_nat (length l) <= 128 -> is_u64 (Z.of_nat (length l)).
Proof. unfold is_u. lia. Qed.

Lemma head_default l x : l <> [] -> default 0 (head l) = x <-> head l = Some x.
Proof. destruct l; [done|]. simpl. split; congruence. Qed.

Lemma last_default l x : l <> [] -> default 0 (last l) = x <-> last l = Some x.
Proof.
  intros Hl. destruct (last l) eqn:E; simpl; [split; congruence|]. by apply last_None in E.
Qed.

Lemma recovery_set_ok sn ls gs pd :
  ls <> [] ->
  (sn =? 0) || negb (default 0 (head ls) =? sn) || gap ls
    || (negb (pd =? 0) && negb (pd =? default 0 (last ls))) || existsb (live sn ls) gs = false <->
  (sn <> 0 /\ head ls = Some sn) /\ gap ls = false /\ (pd = 0 \/ last ls = Some pd) /\
  (forall e, e ∈ gs -> live sn ls e = false).
Proof.
  intros Hne. rewrite !orb_false_iff, andb_false_iff, !negb_false_iff, Z.eqb_neq, !Z.eqb_eq.
  rewrite (head_default ls sn Hne).
  assert (pd = default 0 (last ls) <-> last ls = Some pd) as ->
    by (rewrite <-(last_default ls pd Hne); split; congruence).
  assert (existsb (live sn ls) gs = false <-> forall e, e ∈ gs -> live sn ls e = false) as ->.
  { rewrite <-not_true_iff_false, existsb_exists. split.
    - intros Hn e He. apply not_true_iff_false. intros Hl. apply Hn. exists e.
      by rewrite <-list_elem_of_In.
    - intros Hall (e & He%list_elem_of_In & Hl). by rewrite (Hall e He) in Hl. }
  tauto.
Qed.

Lemma decode_sound `{Xxh3} b c : decode b = Ok c -> current_ok c /\ encode c = Ok b.
Proof.
  unfold decode. set (body := (length b - 8)%nat).
  destruct (Nat.ltb_spec (length b) 72) as [|Hlen]; [done|]. case_bool_decide as Hm; [|done].
  destruct (Z.eqb_spec (xxh3_64 (take body b)) (le_val (drop body b))) as [Hx|]; [|done].
  cbn [orb negb]. intros E. inv_ok.
  repeat match goal with H : (let '(_, _) := ?r in _) = Ok _ |- _ => destruct r; inv_ok end.
  destruct ((z4 =? 0) || _ || _) eqn:Hcount; [done|]. rewrite !orb_false_iff, Z.eqb_neq, !Z.ltb_ge in Hcount.
  inv_ok. destruct r as [ls input]. inv_ok. destruct r as [gs input']. rewrite <-!orb_assoc in E.
  destruct (Nat.eqb_spec (length input') 0) as [Hin|]; [|done]. cbn [negb orb] in E. rewrite !orb_assoc in E.
  apply nil_length_inv in Hin as ->.
  apply n_ok in E0 as [Hz E0].
  repeat match goal with H : n _ = Ok _ |- _ => apply n_ok in H as [? ->] end.
  apply take_logs_ok in E7 as (Hl & Hls & ->). apply take_garbage_ok in E8 as (Hg & Hgs & ->).
  destruct (_ || existsb _ _) eqn:Hset in E; [done|]. injection E as <-.
  unfold is_u in *. apply recovery_set_ok in Hset as (Hsn & Hgap & Hp & Hdis);
    [|destruct ls; [simpl in Hl; lia|done]].
  assert (take body b = payload (mkCurrent z z0 z1 z2 ls gs z3)) as Hpay.
  { unfold payload. cbn [snapshot lsn bytes records logs garbage pending fmap list_fmap concat].
    rewrite <-(take_drop 8 (take body b)), take_take, Nat.min_l, Hm, E0 by (unfold body; lia).
    rewrite Hl, Hg, !Z2Nat.id, <-!app_assoc by lia. by rewrite !app_nil_r. }
  split.
  - split; cbn [snapshot lsn bytes records logs garbage pending]; auto.
    + rewrite !Forall_cons. splits; done.
    + split; [done|lia].
    + split; [done|lia].
  - unfold encode. cbn [logs garbage]. rewrite !(proj2 (Z.ltb_ge _ _)) by (unfold MAX_GENERATIONS in *; lia).
    cbn [orb]. rewrite <-Hpay, Hx.
    assert (length (drop body b) = 8%nat) as H8 by (rewrite length_drop; unfold body; lia).
    pose proof (le_bytes_le_val (drop body b)) as Hle. rewrite H8 in Hle. by rewrite Hle, take_drop.
Qed.

Lemma decode_complete `{Xxh3} b c : current_ok c -> encode c = Ok b -> decode b = Ok c.
Proof.
  intros [Hw [Hls Hl] [Hgs Hg] Hsn Hgap Hp Hdis]. unfold encode, MAX_GENERATIONS in *.
  rewrite !(proj2 (Z.ltb_ge _ _)) by lia. cbn [orb]. intros Hb.
  assert (b = payload c ++ le_bytes 8 (xxh3_64 (payload c))) as -> by congruence. pose proof (length_payload c) as Hlen.
  unfold decode. rewrite length_app, length_le_bytes, Nat.add_sub.
  rewrite take_app_length, drop_app_length, le_val_le_bytes by apply xxh3_64_u64.
  rewrite (proj2 (Nat.ltb_ge _ _)), Z.eqb_refl by lia. rewrite take_app_le by lia.
  rewrite bool_decide_true by done. cbn [negb orb]. unfold payload.
  cbn [fmap list_fmap concat]. rewrite drop_app_length' by done. rewrite <-!app_assoc.
  pose proof (count_u64 (logs c) ltac:(lia)). pose proof (count_u64 (garbage c) ltac:(lia)).
  rewrite !Forall_cons in Hw. destruct Hw as (? & ? & ? & ? & ? & _).
  repeat (rewrite n_le by done; cbn [mbind result_bind]).
  rewrite (proj2 (Z.eqb_neq _ 0)), !(proj2 (Z.ltb_ge _ _)) by (unfold MAX_GENERATIONS; lia). cbn [orb].
  rewrite !Nat2Z.id. cbn [app]. rewrite (proj2 (take_logs_ok _ _ (logs c) _) ltac:(done)). cbn [mbind result_bind].
  rewrite <-(app_nil_r (concat (garbage_bytes <$> _))).
  rewrite (proj2 (take_garbage_ok _ _ (garbage c) []) ltac:(done)). cbn [mbind result_bind length Nat.eqb negb orb].
  assert (logs c <> []) as Hne by (intros E; rewrite E in Hl; simpl in Hl; lia).
  rewrite (proj2 (recovery_set_ok _ _ _ _ Hne)); [by destruct c|done].
Qed.



(** *** Names *)

Fixpoint decimal_val (l : list byte) : Z :=
  match l with [] => 0 | b :: l => (byte_val b - 48) * 10 ^ Z.of_nat (length l) + decimal_val l end.

Lemma decimal_val_snoc l b : decimal_val (l ++ [b]) = 10 * decimal_val l + (byte_val b - 48).
Proof.
  induction l as [|x l IH]; cbn [app decimal_val length]; [lia|]. rewrite IH, length_app. cbn [length].
  replace (Z.of_nat (length l + 1)) with (Z.succ (Z.of_nat (length l))) by lia.
  rewrite Z.pow_succ_r by lia. ring.
Qed.

Lemma decimal_val_decimal w v : 0 <= v < 10 ^ Z.of_nat w -> decimal_val (decimal w v) = v.
Proof.
  revert v. induction w as [|w IH]; intros v Hv; cbn [decimal]; [simpl in *; lia|].
  rewrite Nat2Z.inj_succ, Z.pow_succ_r in Hv by lia.
  rewrite decimal_val_snoc, byte_val_of, IH.
  - pose proof (Z.mod_pos_bound v 10 eq_refl). rewrite (Z.mod_small (48 + _)) by lia.
    pose proof (Z.div_mod v 10 ltac:(lia)). lia.
  - split; [apply Z.div_pos; lia|apply Z.div_lt_upper_bound; lia].
Qed.

Lemma length_decimal w v : length (decimal w v) = w.
Proof. revert v. induction w as [|w IH]; intros v; [done|]. cbn [decimal]. rewrite length_app, IH. simpl. lia. Qed.

(** Different files have different names in the directory. *)
Lemma file_name_inj x y : name_u64 x -> name_u64 y -> file_name x = file_name y -> x = y.
Proof.
  assert (forall s g, length (file_name (Generation s g)) = if s then 29%nat else 28%nat) as Hlen.
  { intros s g. cbn [file_name]. rewrite length_app, length_decimal. by destruct s. }
  intros Hx Hy E. pose proof (f_equal length E) as El.
  destruct x as [| | | |s g], y as [| | | |s' g']; rewrite ?Hlen in El; try done;
    try (destruct s; done); try (destruct s'; done).
  assert (s = s') as -> by (by destruct s, s'). cbn [file_name] in E. apply app_inv_head in E.
  apply (f_equal decimal_val) in E. unfold name_u64, is_u in *.
  rewrite !decimal_val_decimal in E by lia. by rewrite E.
Qed.

(** ** Theorem *)

(** CURRENT is canonical: a byte string is accepted exactly when it is the encoding of a
    valid recovery set, which is then returned. Valid means: a non-zero snapshot
    generation that is the first of at most 64 consecutive log generations, a pending
    snapshot only for the last log, and no garbage entry that names a live file. *)
Theorem current_canonical `{Xxh3} b c :
  decode b = Ok c <-> current_ok c /\ encode c = Ok b.
Proof. split; [apply decode_sound|]. intros [Hc Hb]. by apply decode_complete. Qed.

End JournalCurrent.
