(* ===== verification/FileSystem.v ===== *)
(** The file system under the journals, as the code's durability argument uses it.

    A file's bytes survive a power loss once the file is synced, a directory entry once the
    directory is. Until then a power loss may keep any prefix of what was appended to a synced
    file, anything at all of a file that was created or overwritten and not synced, and any of
    the directory states since the last directory sync (directory updates reach the disk in
    order). A process that dies leaves the directory as it is and possibly part of the write
    it had in flight. This is the model of the operating system, not of code in the
    repository; an operation of the code is a sequence of [Op]s. *)

From stdpp Require Import gmap.
From S2P Require Import Prelude External.

Module FileSystem.

(** Which names are of temporary files. *)
Class TempNames (Name : Type) := is_tmp : Name -> bool.

(** The content, and what a power loss may leave: any byte string between the two bounds in
    the prefix order, or anything. *)
Record Inode := mkInode { cur : list byte; bounds : option (list byte * list byte) }.

Definition synced (c : list byte) : Inode := mkInode c (Some (c, c)).

Section FileSystem.
Context {Name : Type} {name_eq : EqDecision Name} {name_countable : Countable Name} {temp : TempNames Name}.

#[local] Abbreviation Dir := (gmap Name nat).

(** The directory, the states it had since it was last synced, and the files. *)
Record Fs := mkFs { dir : Dir; older : list Dir; inodes : gmap nat Inode; fresh : nat }.

Definition dirs (fs : Fs) : list Dir := dir fs :: older fs.

Definition empty_fs : Fs := mkFs ∅ [] ∅ 0.

Inductive Op :=
  | Create (x : Name)
  | Write (x : Name) (offset : nat) (b : list byte)
  | Sync (x : Name)
  | SyncPrefix (x : Name) (len : nat)
  | SetLen (x : Name) (len : nat)
  | Rename (x y : Name)
  | Remove (x : Name)
  | SyncDir.

(** [pwrite]: past the end the file is extended with zeros. *)
Definition overwrite (offset : nat) (b c : list byte) : list byte :=
  take offset c ++ replicate (offset - length c) x00 ++ b ++ drop (offset + length b) c.

Definition write_inode (offset : nat) (b : list byte) (f : Inode) : Inode :=
  mkInode (overwrite offset b (cur f))
    match bounds f with
    | Some (lo, hi) =>
      if bool_decide (offset = length (cur f) /\ hi = cur f) then Some (lo, cur f ++ b) else None
    | None => None
    end.

Definition set_len_inode (len : nat) (f : Inode) : Inode :=
  mkInode (take len (cur f) ++ replicate (len - length (cur f)) x00)
    match bounds f with
    | Some (lo, hi) =>
      if bool_decide (len <= length (cur f))%nat then Some (take len lo, hi) else None
    | None => None
    end.

(** A sync that completes now and was started when the file had [len] bytes. *)
Definition sync_prefix_inode (len : nat) (f : Inode) : Inode :=
  mkInode (cur f)
    match bounds f with
    | Some (lo, hi) => Some (if (length lo <? len)%nat then take len (cur f) else lo, hi)
    | None => None
    end.

Definition content (x : Name) (fs : Fs) : option (list byte) :=
  match dir fs !! x with
  | None => None
  | Some i => cur <$> inodes fs !! i
  end.

(** Apply [g] to the file a name is bound to. *)
Definition on_file (x : Name) (g : Inode -> Inode) (fs : Fs) : option Fs :=
  match dir fs !! x with
  | None => None
  | Some i =>
    match inodes fs !! i with
    | None => None
    | Some f => Some (mkFs (dir fs) (older fs) (<[i := g f]> (inodes fs)) (fresh fs))
    end
  end.

Definition set_dir (d : Dir) (fs : Fs) : Fs := mkFs d (dirs fs) (inodes fs) (fresh fs).

(** [None] is an error of the system call. *)
Definition exec (op : Op) (fs : Fs) : option Fs :=
  match op with
  | Create x =>
    match dir fs !! x with
    | Some _ => on_file x (fun _ => mkInode [] None) fs
    | None => Some (mkFs (<[x := fresh fs]> (dir fs)) (dirs fs)
                      (<[fresh fs := mkInode [] None]> (inodes fs)) (S (fresh fs)))
    end
  | Write x offset b => on_file x (write_inode offset b) fs
  | Sync x => on_file x (fun f => synced (cur f)) fs
  | SyncPrefix x len => on_file x (sync_prefix_inode len) fs
  | SetLen x len => on_file x (set_len_inode len) fs
  | Rename x y =>
    match dir fs !! x with
    | None => None
    | Some i => Some (set_dir (<[y := i]> (delete x (dir fs))) fs)
    end
  | Remove x =>
    match dir fs !! x with
    | None => Some fs
    | Some _ => Some (set_dir (delete x (dir fs)) fs)
    end
  | SyncDir => Some (mkFs (dir fs) [] (inodes fs) (fresh fs))
  end.

Fixpoint exec_all (ops : list Op) (fs : Fs) : option Fs :=
  match ops with
  | [] => Some fs
  | op :: ops => match exec op fs with None => None | Some fs => exec_all ops fs end
  end.

(** ** Programs: the system calls of an operation, and its outcome *)

Definition Prog (A : Type) : Type := list Op * result io_error A.

#[global] Instance Prog_ret : MRet Prog := fun A a => ([], Ok a).
#[global] Instance Prog_bind : MBind Prog := fun A B f p =>
  match p with
  | (ops, Err e) => (ops, Err e)
  | (ops, Ok a) => let '(ops', r) := f a in (ops ++ ops', r)
  end.

Definition call (op : Op) : Prog unit := ([op], Ok tt).
Definition lift {A} (r : result io_error A) : Prog A := ([], r).

(** ** Failures *)

Definition admissible (f : Inode) (c : list byte) : Prop :=
  match bounds f with
  | Some (lo, hi) => lo `prefix_of` c /\ c `prefix_of` hi
  | None => True
  end.

(** The process dies: every file holds something admissible, and what is durable stays. *)
Definition killed (f f' : Inode) : Prop :=
  admissible f (cur f') /\
  bounds f' = match bounds f with Some (lo, _) => Some (lo, cur f') | None => None end.

Definition kill (fs fs' : Fs) : Prop :=
  dir fs' = dir fs /\ older fs' = older fs /\ fresh fs' = fresh fs /\
  forall i, option_Forall2 killed (inodes fs !! i) (inodes fs' !! i).

(** The machine loses power: some directory state, some admissible contents. *)
Definition lost (f f' : Inode) : Prop :=
  admissible f (cur f') /\ f' = synced (cur f').

Definition power_loss (fs fs' : Fs) : Prop :=
  dir fs' ∈ dirs fs /\ older fs' = [] /\ fresh fs' = fresh fs /\
  forall i, option_Forall2 lost (inodes fs !! i) (inodes fs' !! i).

(** ** Well-formed file systems *)

(** Entries name existing files, no file has two names in one directory state, and a file
    that has a temporary name was never seen under a permanent one. *)
Record fs_wf (fs : Fs) : Prop := {
  wf_bound : forall d x i, d ∈ dirs fs -> d !! x = Some i ->
    (i < fresh fs)%nat /\ is_Some (inodes fs !! i);
  wf_inj : forall d x y i, d ∈ dirs fs -> d !! x = Some i -> d !! y = Some i -> x = y;
  wf_private : forall x i d y, is_tmp x = true -> dir fs !! x = Some i ->
    d ∈ dirs fs -> is_tmp y = false -> d !! y <> Some i
}.

Lemma dirs_set_dir d fs : dirs (set_dir d fs) = d :: dirs fs.
Proof. done. Qed.

Lemma wf_on_file x g fs fs' : fs_wf fs -> on_file x g fs = Some fs' -> fs_wf fs'.
Proof.
  intros [Hb Hi Hp]. unfold on_file. destruct (dir fs !! x) as [i|]; [|done].
  destruct (inodes fs !! i) as [f|]; [|done]. intros [= <-]. split; [|done|done].
  intros d y j Hd Hy. destruct (Hb d y j Hd Hy) as [Hlt Hs]. split; [done|]. simpl.
  rewrite lookup_insert_is_Some'. by right.
Qed.

Lemma wf_create x fs fs' : fs_wf fs -> exec (Create x) fs = Some fs' -> fs_wf fs'.
Proof.
  intros Hwf. cbn [exec]. destruct (dir fs !! x) as [i|] eqn:E; [by apply wf_on_file|].
  intros [= <-]. destruct Hwf as [Hb Hi Hp].
  assert (forall d y, d ∈ dirs fs -> d !! y <> Some (fresh fs)) as Hfresh.
  { intros d y Hd Hy. destruct (Hb d y _ Hd Hy). lia. }
  assert (dir fs ∈ dirs fs) as Hcur by (left).
  split; unfold dirs in *; cbn [dir older inodes fresh] in *.
  - intros d y i Hd Hy. apply elem_of_cons in Hd as [->|Hd].
    + apply lookup_insert_Some in Hy as [[<- <-]|[Hne Hy]].
      * split; [lia|]. by rewrite lookup_insert_eq.
      * destruct (Hb _ y i Hcur Hy). split; [lia|]. rewrite lookup_insert_is_Some'. by right.
    + destruct (Hb d y i Hd Hy). split; [lia|]. rewrite lookup_insert_is_Some'. by right.
  - intros d y z i Hd Hy Hz. apply elem_of_cons in Hd as [->|Hd]; [|by eapply Hi].
    apply lookup_insert_Some in Hy as [[<- <-]|[Hne Hy]], Hz as [[<- Hz1]|[Hne' Hz]]; try done.
    + by destruct (Hfresh _ _ Hcur Hz).
    + subst. by destruct (Hfresh _ _ Hcur Hy).
    + by eapply (Hi (dir fs)).
  - intros y i d z Hty Hy Hd Htz Hz.
    apply lookup_insert_Some in Hy as [[<- <-]|[Hne Hy]].
    + apply elem_of_cons in Hd as [->|Hd]; [|by eapply Hfresh].
      rewrite lookup_insert_ne in Hz by congruence. by eapply Hfresh.
    + apply elem_of_cons in Hd as [->|Hd]; [|by eapply (Hp y i d z)].
      apply lookup_insert_Some in Hz as [[<- <-]|[_ Hz]]; [by eapply Hfresh|by eapply (Hp y i _ z)].
Qed.

(** A directory update that only drops entries, or moves a temporary name to a permanent
    one. *)
Lemma wf_set_dir d fs :
  fs_wf fs ->
  (forall x i, d !! x = Some i -> dir fs !! x = Some i \/
    is_tmp x = false /\ d !! x = Some i /\ exists t, is_tmp t = true /\ dir fs !! t = Some i /\
      d !! t = None /\ forall y, d !! y = Some i -> y = x) ->
  fs_wf (set_dir d fs).
Proof.
  intros [Hb Hi Hp] Hd. assert (dir fs ∈ dirs fs) as Hcur by left.
  split; rewrite ?dirs_set_dir; cbn [dir inodes fresh set_dir].
  - intros d' x i [->|Hd']%elem_of_cons Hx; [|by eapply Hb].
    destruct (Hd x i Hx) as [Hx'|(_ & _ & t & _ & Ht & _)]; by eapply (Hb (dir fs)).
  - intros d' x y i [->|Hd']%elem_of_cons Hx Hy; [|by eapply (Hi d')].
    destruct (Hd x i Hx) as [Hx'|(_ & _ & t & _ & _ & _ & Hu)]; [|symmetry; by apply Hu].
    destruct (Hd y i Hy) as [Hy'|(_ & _ & t & _ & _ & _ & Hu)]; [by eapply (Hi (dir fs))|by apply Hu].
  - intros x i d' y Htx Hx Hd' Hty Hy.
    destruct (Hd x i Hx) as [Hx'|(Hf & _)]; [|congruence].
    apply elem_of_cons in Hd' as [->|Hd']; [|by eapply (Hp x i d' y)].
    destruct (Hd y i Hy) as [Hy'|(_ & _ & t & Ht & Hti & Htn & _)]; [by eapply (Hp x i _ y)|].
    assert (t = x) as -> by by eapply (Hi (dir fs)). congruence.
Qed.

Definition op_ok (op : Op) : Prop :=
  match op with Rename x y => is_tmp x = true /\ is_tmp y = false | _ => True end.

Lemma wf_exec op fs fs' : fs_wf fs -> op_ok op -> exec op fs = Some fs' -> fs_wf fs'.
Proof.
  intros Hwf Hop. destruct op as [x|x o b|x|x l|x l|x y|x|]; [by apply wf_create|cbn [exec]..].
  - by apply wf_on_file.
  - by apply wf_on_file.
  - by apply wf_on_file.
  - by apply wf_on_file.
  - destruct (dir fs !! x) as [i|] eqn:Hx; [|done]. intros [= <-]. destruct Hop as [Htx Hty].
    apply wf_set_dir; [done|]. intros z j Hz. destruct (decide (z = y)) as [->|Hne].
    + rewrite lookup_insert_eq in Hz. simplify_eq. right. splits; [done|by rewrite lookup_insert_eq|].
      exists x. splits; [done..| |].
      * rewrite lookup_insert_ne by congruence. apply lookup_delete_eq.
      * intros w Hw. apply lookup_insert_Some in Hw as [[<- _]|[_ [Hxw Hw]%lookup_delete_Some]]; [done|].
        destruct Hxw. eapply (wf_inj fs Hwf (dir fs)); [by left|done..].
    + left. rewrite lookup_insert_ne in Hz by congruence. by apply lookup_delete_Some in Hz as [_ ?].
  - destruct (dir fs !! x) as [i|]; intros [= <-]; [|done].
    apply wf_set_dir; [done|]. intros z j Hz. left. by apply lookup_delete_Some in Hz as [_ ?].
  - intros [= <-]. destruct Hwf as [Hb Hi Hp]. unfold dirs in *.
    assert (forall d : Dir, d ∈ [dir fs] -> d ∈ dir fs :: older fs) as Hin
      by (intros d ->%list_elem_of_singleton; left).
    split; cbn [dir older inodes fresh].
    + intros d x i Hd. by apply (Hb d x i), Hin.
    + intros d x y i Hd. by apply (Hi d x y i), Hin.
    + intros x i d y Ht Hx Hd. by apply (Hp x i d y Ht Hx), Hin.
Qed.

Lemma killed_is_Some {R} (m m' : gmap nat Inode) i :
  (forall i, option_Forall2 R (m !! i) (m' !! i)) -> is_Some (m !! i) -> is_Some (m' !! i).
Proof. intros H [f Hf]. specialize (H i). rewrite Hf in H. inversion H. eauto. Qed.

Lemma wf_kill fs fs' : fs_wf fs -> kill fs fs' -> fs_wf fs'.
Proof.
  intros [Hb Hi Hp] (Hd & Ho & Hf & Hk). unfold dirs in *.
  split; unfold dirs; rewrite ?Hd, ?Ho, ?Hf; [|done|done].
  intros d x i Hin Hx. destruct (Hb d x i Hin Hx). split; [done|]. by eapply killed_is_Some.
Qed.

Lemma wf_power_loss fs fs' : fs_wf fs -> power_loss fs fs' -> fs_wf fs'.
Proof.
  intros [Hb Hi Hp] (Hd & Ho & Hf & Hk).
  split; unfold dirs; rewrite ?Ho, ?Hf.
  - intros d x i ->%list_elem_of_singleton Hx. destruct (Hb _ x i Hd Hx). split; [done|].
    by eapply killed_is_Some.
  - intros d x y i ->%list_elem_of_singleton. by apply Hi.
  - intros x i d y Ht Hx ->%list_elem_of_singleton Hty Hy.
    assert (x = y) as -> by by eapply (Hi (dir fs')). congruence.
Qed.

(** ** Changes to temporary files only *)

Definition same_perm (f f' : Fs) : Prop :=
  forall x, is_tmp x = false -> dir f' !! x = dir f !! x /\
  forall i, dir f !! x = Some i -> inodes f' !! i = inodes f !! i.

(** Every directory state agrees with one there was before, up to temporary names. *)
Definition tmp_only (f f' : Fs) : Prop :=
  same_perm f f' /\
  forall d, d ∈ dirs f' -> exists d0, d0 ∈ dirs f /\
  forall x, is_tmp x = false -> d !! x = d0 !! x /\
  forall i, d0 !! x = Some i -> inodes f' !! i = inodes f !! i.

Definition tmp_op (op : Op) : Prop :=
  match op with
  | Create x | Write x _ _ | Sync x | Remove x => is_tmp x = true
  | SyncDir => True
  | _ => False
  end.

Lemma tmp_only_on_file x g f f' :
  fs_wf f -> is_tmp x = true -> on_file x g f = Some f' -> tmp_only f f'.
Proof.
  intros Hwf Hx. unfold on_file. destruct (dir f !! x) as [i|] eqn:Hd; [|done].
  destruct (inodes f !! i) as [n|]; [|done]. intros [= <-].
  assert (forall d y j, d ∈ dirs f -> is_tmp y = false -> d !! y = Some j ->
    <[i := g n]> (inodes f) !! j = inodes f !! j) as Hsame.
  { intros d y j Hin Hy Hj. rewrite lookup_insert_ne; [done|]. intros ->. by eapply (wf_private f Hwf x j d y). }
  split.
  - intros y Hy. split; [done|]. intros j Hj. eapply Hsame; [by left|done..].
  - intros d Hin. exists d. split; [done|]. intros y Hy. split; [done|]. intros j Hj. by eapply Hsame.
Qed.

Lemma tmp_only_dir d f :
  (forall x, is_tmp x = false -> d !! x = dir f !! x) -> tmp_only f (set_dir d f).
Proof.
  intros Hd. split.
  - intros x Hx. by split; [apply Hd|].
  - intros d' Hin. rewrite dirs_set_dir in Hin. apply elem_of_cons in Hin as [->|Hin].
    + exists (dir f). split; [by left|]. intros x Hx. by split; [apply Hd|].
    + by exists d'.
Qed.

Lemma tmp_only_exec op f f' : fs_wf f -> tmp_op op -> exec op f = Some f' -> tmp_only f f'.
Proof.
  intros Hwf Hop. destruct op as [x|x o b|x|x l|x l|x y|x|]; try done; cbn [exec].
  - destruct (dir f !! x) as [i|] eqn:Hd; [by apply tmp_only_on_file|]. intros [= <-].
    assert (forall d y j, d ∈ dirs f -> d !! y = Some j ->
      <[fresh f := mkInode [] None]> (inodes f) !! j = inodes f !! j) as Hsame.
    { intros d y j Hin Hj. rewrite lookup_insert_ne; [done|]. destruct (wf_bound f Hwf d y j Hin Hj). lia. }
    split.
    + intros y Hy. split; [apply lookup_insert_ne; intros ->; by rewrite Hop in Hy|].
      intros j Hj. eapply Hsame; [by left|done].
    + intros d Hin. apply elem_of_cons in Hin as [->|Hin].
      * exists (dir f). split; [by left|]. intros y Hy.
        split; [apply lookup_insert_ne; intros ->; by rewrite Hop in Hy|].
        intros j Hj. eapply Hsame; [by left|done].
      * exists d. split; [done|]. intros y Hy. split; [done|]. intros j Hj. by eapply Hsame.
  - by apply tmp_only_on_file.
  - by apply tmp_only_on_file.
  - destruct (dir f !! x) as [i|]; intros [= <-].
    + apply tmp_only_dir. intros y Hy. apply lookup_delete_ne. intros ->. by rewrite Hop in Hy.
    + split; [done|]. intros d Hd. by exists d.
  - intros [= <-]. split; [done|]. intros d Hd. exists d. split; [|done].
    apply list_elem_of_singleton in Hd as ->. by left.
Qed.

(** ** Writing a file under a temporary name *)

Fixpoint writes (x : Name) (cs : list (list byte)) (off : nat) : list Op :=
  match cs with
  | [] => []
  | c :: cs => Write x off c :: writes x cs (off + length c)
  end.

Definition tmp_file (x : Name) (c : list byte) (f : Fs) : Prop :=
  exists i bd, dir f !! x = Some i /\ inodes f !! i = Some (mkInode c bd).

Definition tmp_synced (x : Name) (c : list byte) (f : Fs) : Prop :=
  exists i, dir f !! x = Some i /\ inodes f !! i = Some (synced c).

Lemma exec_create x f : fs_wf f -> exists f', exec (Create x) f = Some f' /\ tmp_file x [] f'.
Proof.
  intros Hwf. cbn [exec]. destruct (dir f !! x) as [i|] eqn:Hd.
  - destruct (wf_bound f Hwf (dir f) x i) as [_ [n Hn]]; [by left|done|].
    unfold on_file. rewrite Hd, Hn. eexists. split; [done|]. exists i, None. cbn [dir inodes].
    by rewrite lookup_insert_eq.
  - eexists. split; [done|]. exists (fresh f), None. cbn [dir inodes]. by rewrite !lookup_insert_eq.
Qed.

Lemma overwrite_end b c : overwrite (length c) b c = c ++ b.
Proof.
  unfold overwrite. rewrite take_ge, Nat.sub_diag, drop_ge by lia. cbn. by rewrite app_nil_r.
Qed.

Lemma exec_write x b c f :
  tmp_file x c f -> exists f', exec (Write x (length c) b) f = Some f' /\ tmp_file x (c ++ b) f'.
Proof.
  intros (i & bd & Hd & Hi). cbn [exec]. unfold on_file. rewrite Hd, Hi. eexists. split; [done|].
  exists i. eexists. cbn [dir inodes]. rewrite lookup_insert_eq. split; [done|]. f_equal. unfold write_inode.
  cbn [cur bounds]. by rewrite overwrite_end.
Qed.

Lemma exec_sync x c f :
  tmp_file x c f -> exists f', exec (Sync x) f = Some f' /\ tmp_synced x c f'.
Proof.
  intros (i & bd & Hd & Hi). cbn [exec]. unfold on_file. rewrite Hd, Hi. eexists. split; [done|].
  exists i. cbn [dir inodes]. by rewrite lookup_insert_eq.
Qed.

End FileSystem.
End FileSystem.
