(* ===== verification/JournalFs.v ===== *)
(** The file system with the names of a journal stream (crates/talon-journal/src/disk.rs). *)

From S2P Require Import Prelude JournalCurrent FileSystem.

Module JournalFs.
Import JournalCurrent.
Export FileSystem.

#[export] Instance journal_tmp_names : TempNames Name := fun x =>
  match x with CURRENT_tmp | journal_tmp | snapshot_tmp => true | _ => false end.

Abbreviation Dir := (gmap Name nat).
Abbreviation Fs := (FileSystem.Fs (Name := Name)).
Abbreviation Op := (FileSystem.Op (Name := Name)).
Abbreviation Prog := (FileSystem.Prog (Name := Name)).
End JournalFs.
