(* ===== verification/JournalDisk.v ===== *)
(** The files of a journal stream (crates/talon-journal/src/disk.rs) and the loop that writes
    them (crates/talon-journal/src/writer.rs).

    An operation of disk.rs is a [Prog]: the file system calls it makes, in order, and its
    outcome. Handles the code keeps open are named by the file they were opened on. The
    accounting of allocated bytes and the pacing policy do not change what is written and are
    left out.

    [step] is a stream's life: appends and syncs of the log, one maintenance task at a time
    (rotation, snapshot, publication) that advances call by call between them, the death of
    the process or of the machine at any point, and recovery, which also advances call by call
    and can be interrupted. [hist] is ghost state, the record bodies that were written to the
    log in order, and [dur] the number of them that the last completed sync covers: the records
    whose [Ack::Durable] may have been sent. A sync in flight is the length of the log and the
    number of records when it was started; appends may overtake it. *)

From S2P Require Import Prelude External JournalFrame JournalReplay JournalCurrent JournalFs.

Module JournalDisk.
Import JournalFrame JournalCurrent JournalFs.

(** ** The state machine of a stream (the trait [Machine])

    [m_valid] are the values of the Rust type: integers within their width, strings that are
    UTF-8. *)

Class Machine := {
  MRecord : Type;
  MSnapshotRecord : Type;
  MState : Type;
  m_valid : MRecord -> Prop;
  m_encode : MRecord -> result io_error (list byte);
  m_decode : list byte -> result io_error MRecord;
  m_apply : MState -> Z -> MRecord -> result io_error MState;
  m_snapshot : MState -> result io_error (list (result io_error (list byte)));
  m_decode_snapshot : list byte -> result io_error MSnapshotRecord;
  m_restore : MState -> MSnapshotRecord -> result io_error MState
}.

Section Disk.
Context `{Xxh3} `{Machine}.

Record Disk := mkDisk { current : Current; offset : Z; disk_lsn : Z }.

Record Snapshot := mkSnapshot { s_generation : Z; s_lsn : Z; s_bytes : Z; s_records : Z }.

Definition last_log (c : Current) : Z := default 0 (last (logs c)).

Definition write_sync (x : Name) (b : list byte) : Prog unit :=
  call (Create x) ;; call (Write x 0 b) ;; call (Sync x).

Definition publish_sync (c : Current) : Prog unit :=
  b ← lift (encode c);
  write_sync CURRENT_tmp b ;; call (Rename CURRENT_tmp CURRENT) ;; call SyncDir.

Definition publish (c : Current) : Prog unit :=
  call (Create CURRENT_tmp) ;;
  b ← lift (encode c);
  call (Write CURRENT_tmp 0 b) ;; call (Sync CURRENT_tmp) ;;
  call (Rename CURRENT_tmp CURRENT) ;; call SyncDir.

Definition sync (d : Disk) : Prog unit := call (Sync (path false (last_log (current d)))).

Definition rotate (d : Disk) : Prog Disk :=
  sync d ;;
  generation ← lift (ok_or (checked_add 64 (last_log (current d)) 1)
                       (invalid "journal generation overflow"));
  call (Create journal_tmp) ;; call (Sync journal_tmp) ;;
  call (Rename journal_tmp (path false generation)) ;; call SyncDir ;;
  let c := current d in
  let c' := mkCurrent (snapshot c) (lsn c) (bytes c) (records c) (logs c ++ [generation])
              (garbage c) generation in
  publish c' ;; mret (mkDisk c' 0 (disk_lsn d)).

(** *** Snapshots *)

Definition CHUNK : Z := 256 * 1024.

(** The encoder thread: the chunks it sends, and how it ends. *)
Fixpoint encode_chunks (items : list (result io_error (list byte))) (ordinal : Z)
    (buffer : list byte) : list (list byte) * result io_error unit :=
  match items with
  | [] => (if (length buffer =? 0)%nat then [] else [buffer], Ok tt)
  | Err e :: _ => ([], Err e)
  | Ok b :: items =>
    match JournalFrame.encode (ordinal + 1) b with
    | Err e => ([], Err e)
    | Ok encoded =>
      if negb (length buffer =? 0)%nat && (CHUNK <? blen buffer + blen encoded)
      then let '(cs, r) := encode_chunks items (ordinal + 1) encoded in (buffer :: cs, r)
      else encode_chunks items (ordinal + 1) (buffer ++ encoded)
    end
  end.

(** The frames of a chunk, counted by their length fields. [None] is exhausted fuel or an
    index out of range. *)
Fixpoint count_frames (fuel : nat) (chunk : list byte) (pos : nat) : option Z :=
  if (pos <? length chunk)%nat then
    match fuel with
    | O => None
    | S fuel =>
      if (length chunk <? pos + 12)%nat then None else
      let n := Z.to_nat (le_val (slice (pos + 8) 4 chunk)) in
      Z.add 1 <$> count_frames fuel chunk (pos + (HEADER + n))
    end
  else Some 0.

Fixpoint write_chunks (cs : list (list byte)) (offset : nat) (records : Z) : Prog (nat * Z) :=
  match cs with
  | [] => mret (offset, records)
  | chunk :: cs =>
    match count_frames (length chunk) chunk 0 with
    | None => lift (Err (OtherError "panic"))
    | Some k =>
      call (Write snapshot_tmp offset chunk) ;; write_chunks cs (offset + length chunk) (records + k)
    end
  end.

Definition write_snapshot (generation l : Z) (items : list (result io_error (list byte)))
    : Prog Snapshot :=
  call (Create snapshot_tmp) ;;
  let '(chunks, ended) := encode_chunks items 0 [] in
  '(len, recs) ← write_chunks chunks 0 0;
  lift ended ;;
  call (Sync snapshot_tmp) ;; call (Rename snapshot_tmp (path true generation)) ;; call SyncDir ;;
  mret (mkSnapshot generation l (Z.of_nat len) recs).

Fixpoint remove_all (gs : list (bool * Z)) : Prog unit :=
  match gs with
  | [] => mret tt
  | (s, g) :: gs => call (Remove (path s g)) ;; remove_all gs
  end.

Definition clear_garbage (c : Current) : Current :=
  mkCurrent (snapshot c) (lsn c) (bytes c) (records c) (logs c) [] (pending c).

(** The recovery set a snapshot replaces [c] by. *)
Definition advance (c : Current) (s : Snapshot) : Current :=
  mkCurrent (s_generation s) (s_lsn s) (s_bytes s) (s_records s)
    (filter (fun g => s_generation s <= g) (logs c))
    (garbage c ++ (true, snapshot c) ::
       ((fun g => (false, g)) <$> filter (fun g => g < s_generation s) (logs c))) 0.

Definition publish_snapshot (c : Current) (s : Snapshot) : Prog Current :=
  let c1 := advance c s in
  publish c1 ;; remove_all (garbage c1) ;; call SyncDir ;;
  publish (clear_garbage c1) ;; mret (clear_garbage c1).

(** *** Appends *)

(** The frames of a batch and the last LSN. *)
Fixpoint encode_batch (next : Z) (bodies : list (list byte)) : result io_error (Z * list byte) :=
  match bodies with
  | [] => Ok (next, [])
  | b :: bodies =>
    next ← ok_or (checked_add 64 next 1) (invalid "journal LSN overflow");
    f ← JournalFrame.encode next b;
    '(l, fs) ← encode_batch next bodies;
    Ok (l, f ++ fs)
  end.

Definition append_batch (d : Disk) (bodies : list (list byte)) : Prog Disk :=
  '(l, b) ← lift (encode_batch (disk_lsn d) bodies);
  end_ ← lift (ok_or (checked_add 64 (offset d) (blen b)) (invalid "journal offset overflow"));
  call (Write (path false (last_log (current d))) (Z.to_nat (offset d)) b) ;;
  mret (mkDisk (current d) end_ l).

(** [machine.apply] on the records of a batch. *)
Fixpoint apply_all (m : MState) (l : Z) (rs : list MRecord) : result io_error MState :=
  match rs with
  | [] => Ok m
  | r :: rs => m ← m_apply m (l + 1) r; apply_all m (l + 1) rs
  end.

(** *** Recovery *)

Definition initial : Current := mkCurrent 1 0 0 0 [1] [] 0.

Definition recover_start (fs : Fs) : Prog Current :=
  match content CURRENT fs with
  | Some b =>
    if (65536 <? blen b) then lift (Err (invalid "journal CURRENT too large")) else lift (decode b)
  | None =>
    write_sync (path true 1) [] ;; write_sync (path false 1) [] ;; call SyncDir ;;
    publish_sync initial ;; mret initial
  end.

Definition restore_visit (st : MState * Z) (k : Z) (r : MSnapshotRecord)
    : result io_error (MState * Z) :=
  if negb (k =? st.2 + 1) then Err (invalid "snapshot ordinal gap")
  else m ← m_restore st.1 r; Ok (m, st.2 + 1).

Definition apply_visit (st : MState * Z) (k : Z) (r : MRecord) : result io_error (MState * Z) :=
  if negb (bool_decide (checked_add 64 st.2 1 = Some k)) then Err (invalid "journal LSN gap")
  else m ← m_apply st.1 k r; Ok (m, k).

(** The logs in order; only the last may end in a torn frame. *)
Fixpoint replay_logs (threads : nat) (fs : Fs) (ls : list Z) (st : MState * Z) (offset : nat)
    : option (result io_error (MState * Z * nat)) :=
  match ls with
  | [] => Some (Ok (st, offset))
  | g :: ls =>
    match content (path false g) fs with
    | None => Some (Err NotFound)
    | Some b =>
      match JournalReplay.read m_decode apply_visit b (length ls =? 0)%nat threads st with
      | None => None
      | Some (Err e) => Some (Err e)
      | Some (Ok (st, offset)) => replay_logs threads fs ls st offset
      end
    end
  end.

(** The machine, its LSN and the end of the last log. *)
Definition recover_scan (threads : nat) (m0 : MState) (c : Current) (fs : Fs)
    : option (result io_error (MState * Z * nat)) :=
  match content (path true (snapshot c)) fs with
  | None => Some (Err NotFound)
  | Some b =>
    if negb (blen b =? bytes c) then Some (Err (invalid "snapshot length mismatch")) else
    match JournalReplay.read m_decode_snapshot restore_visit b false threads (m0, 0) with
    | None => None
    | Some (Err e) => Some (Err e)
    | Some (Ok (m, ordinal, _)) =>
      if negb (ordinal =? records c) then Some (Err (invalid "snapshot record count mismatch"))
      else replay_logs threads fs (logs c) (m, lsn c) 0
    end
  end.

Definition recover_finish (c : Current) (offset len : nat) : Prog Current :=
  (if (len =? offset)%nat then mret tt
   else call (SetLen (path false (last_log c)) offset) ;; call (Sync (path false (last_log c)))) ;;
  remove_all (garbage c) ;;
  (if pending c =? 0 then mret tt else call (Remove (path true (pending c)))) ;;
  call (Remove CURRENT_tmp) ;; call (Remove journal_tmp) ;; call (Remove snapshot_tmp) ;;
  let c' := mkCurrent (snapshot c) (lsn c) (bytes c) (records c) (logs c) [] 0 in
  call SyncDir ;; publish_sync c' ;; mret c'.

(** Running a program without interruption. *)
Definition exec_prog {A} (p : Prog A) (fs : Fs) : result io_error (Fs * A) :=
  match exec_all p.1 fs with
  | None => Err (OtherError "system call")
  | Some fs => (fun a => (fs, a)) <$> p.2
  end.

(** The whole of [recover]. *)
Definition recover (threads : nat) (m0 : MState) (fs : Fs)
    : option (result io_error (Fs * Disk * MState)) :=
  match exec_prog (recover_start fs) fs with
  | Err e => Some (Err e)
  | Ok (fs, c) =>
    match recover_scan threads m0 c fs with
    | None => None
    | Some (Err e) => Some (Err e)
    | Some (Ok (m, l, off)) =>
      match content (path false (last_log c)) fs with
      | None => Some (Err NotFound)
      | Some b =>
        Some ('(fs, c) ← exec_prog (recover_finish c off (length b)) fs;
              Ok (fs, mkDisk c (Z.of_nat off) l, m))
      end
    end
  end.

(** ** The life of a stream *)

Inductive Task :=
  | Idle
  | Rotating (todo : list Op) (r : result io_error Disk) (items : list (result io_error (list byte)))
  | Snapshotting (todo : list Op) (r : result io_error Snapshot)
  | Publishing (todo : list Op) (r : result io_error Current).

Inductive Phase :=
  | Down
  | Starting (todo : list Op) (r : result io_error Current)
  | Finishing (todo : list Op) (r : result io_error Current) (m : MState) (l : Z) (offset : nat)
  | Up (d : Disk) (m : MState) (t : Task) (syncing : option (nat * nat)).

Record Sys := mkSys { fs : Fs; phase : Phase; hist : list (list byte); dur : nat }.

Definition rotating (t : Task) : bool := match t with Rotating _ _ _ => true | _ => false end.

(** A snapshot file has fewer than 2^64 bytes. *)
Definition items_fit (items : list (result io_error (list byte))) : Prop :=
  Z.of_nat (length (concat (encode_chunks items 0 []).1)) < 2 ^ 64.

Inductive step (threads : nat) (m0 : MState) : Sys -> Sys -> Prop :=
  | s_append f f' d d' m m' t y h k rs bodies ops :
      rotating t = false -> Forall m_valid rs -> Forall2 (fun r b => m_encode r = Ok b) rs bodies ->
      append_batch d bodies = (ops, Ok d') -> exec_all ops f = Some f' ->
      apply_all m (disk_lsn d) rs = Ok m' ->
      step threads m0 (mkSys f (Up d m t y) h k) (mkSys f' (Up d' m' t y) (h ++ bodies) k)
  | s_sync_begin f d m t h k :
      rotating t = false ->
      step threads m0 (mkSys f (Up d m t None) h k)
                      (mkSys f (Up d m t (Some (Z.to_nat (offset d), length h))) h k)
  | s_sync_end f f' d m t h k len n :
      exec (SyncPrefix (path false (last_log (current d))) len) f = Some f' ->
      step threads m0 (mkSys f (Up d m t (Some (len, n))) h k) (mkSys f' (Up d m t None) h n)
  | s_rotate f d m h k items ops r :
      m_snapshot m = Ok items -> items_fit items -> rotate d = (ops, r) ->
      step threads m0 (mkSys f (Up d m Idle None) h k) (mkSys f (Up d m (Rotating ops r items) None) h k)
  | s_rotating f f' d m h k op ops r items :
      exec op f = Some f' ->
      step threads m0 (mkSys f (Up d m (Rotating (op :: ops) r items) None) h k)
                      (mkSys f' (Up d m (Rotating ops r items) None) h k)
  | s_rotated f d d' m h k items ops r :
      write_snapshot (last_log (current d')) (disk_lsn d') items = (ops, r) ->
      step threads m0 (mkSys f (Up d m (Rotating [] (Ok d') items) None) h k)
                      (mkSys f (Up d' m (Snapshotting ops r) None) h k)
  | s_snapshotting f f' d m y h k op ops r :
      exec op f = Some f' ->
      step threads m0 (mkSys f (Up d m (Snapshotting (op :: ops) r) y) h k)
                      (mkSys f' (Up d m (Snapshotting ops r) y) h k)
  | s_snapshotted f d m y h k s ops r :
      publish_snapshot (current d) s = (ops, r) ->
      step threads m0 (mkSys f (Up d m (Snapshotting [] (Ok s)) y) h k)
                      (mkSys f (Up d m (Publishing ops r) y) h k)
  | s_publishing f f' d m y h k op ops r :
      exec op f = Some f' ->
      step threads m0 (mkSys f (Up d m (Publishing (op :: ops) r) y) h k)
                      (mkSys f' (Up d m (Publishing ops r) y) h k)
  | s_published f d m y h k c :
      step threads m0 (mkSys f (Up d m (Publishing [] (Ok c)) y) h k)
                      (mkSys f (Up (mkDisk c (offset d) (disk_lsn d)) m Idle y) h k)
  | s_kill f f' p h k : kill f f' -> step threads m0 (mkSys f p h k) (mkSys f' Down h k)
  | s_power_loss f f' p h k :
      power_loss f f' -> step threads m0 (mkSys f p h k) (mkSys f' Down h k)
  | s_start f h k ops r :
      recover_start f = (ops, r) ->
      step threads m0 (mkSys f Down h k) (mkSys f (Starting ops r) h k)
  | s_starting f f' h k op ops r :
      exec op f = Some f' ->
      step threads m0 (mkSys f (Starting (op :: ops) r) h k) (mkSys f' (Starting ops r) h k)
  | s_scan f h k c m l off b ops r :
      recover_scan threads m0 c f = Some (Ok (m, l, off)) ->
      content (path false (last_log c)) f = Some b ->
      recover_finish c off (length b) = (ops, r) ->
      step threads m0 (mkSys f (Starting [] (Ok c)) h k) (mkSys f (Finishing ops r m l off) h k)
  | s_finishing f f' h k op ops r m l off :
      exec op f = Some f' ->
      step threads m0 (mkSys f (Finishing (op :: ops) r m l off) h k)
                      (mkSys f' (Finishing ops r m l off) h k)
  | s_up f h k c m l off :
      step threads m0 (mkSys f (Finishing [] (Ok c) m l off) h k)
                      (mkSys f (Up (mkDisk c (Z.of_nat off) l) m Idle None) (take (Z.to_nat l) h) k).

Definition init : Sys := mkSys empty_fs Down [] 0.

Inductive reachable (threads : nat) (m0 : MState) : Sys -> Prop :=
  | reach_init : reachable threads m0 init
  | reach_step s s' : reachable threads m0 s -> step threads m0 s s' -> reachable threads m0 s'.

End Disk.

End JournalDisk.
