(* ===== verification/JournalLog.v ===== *)
(** What the files of a journal stream contain: record bodies framed with consecutive LSNs,
    the machine states they lead to, and the chunks of a snapshot; how the readers of
    [JournalReplay] and the writers of [JournalDisk] relate to them. *)

From S2P Require Import Prelude External JournalFrame JournalReplay JournalCurrent JournalFs JournalDisk.

Module JournalLog.
Import JournalFrame JournalCurrent JournalFs JournalDisk.

(** ** Records, frames and states *)

Section Logs.
Context `{Xxh3} `{Machine}.

(** Bodies with the LSNs that follow [a]. *)
Fixpoint number (a : nat) (bodies : list (list byte)) : list (Z * list byte) :=
  match bodies with
  | [] => []
  | b :: bodies => (Z.of_nat a + 1, b) :: number (S a) bodies
  end.

Definition framed (a : nat) (bodies : list (list byte)) : list byte := frames_bytes (number a bodies).

Definition small (b : list byte) : Prop := blen b <= MAX_RECORD.

(** The machine after the records [bodies] that follow the first [a]. *)
Fixpoint run (m : MState) (a : nat) (bodies : list (list byte)) : result io_error MState :=
  match bodies with
  | [] => Ok m
  | b :: bodies =>
    r ← m_decode b; m ← m_apply m (Z.of_nat a + 1) r; run m (S a) bodies
  end.

(** The machine after the snapshot records. *)
Fixpoint restore_all (m : MState) (snaps : list (list byte)) : result io_error MState :=
  match snaps with
  | [] => Ok m
  | b :: snaps => r ← m_decode_snapshot b; m ← m_restore m r; restore_all m snaps
  end.

(** [sim m i]: [m] represents the same state as [i]. A machine that was restored from a
    snapshot need not have the representation that the records alone lead to. *)
Class Sim := sim : MState -> MState -> Prop.

(** What the journal relies on of a machine. Equal states accept the same records, an accepted
    record decodes to itself, and the records of a snapshot restore what it was taken of. *)
Class MachineLaws `{!Sim} (m0 : MState) : Prop := {
  law_start : sim m0 m0;
  law_valid : forall b r, m_decode b = Ok r -> m_valid r;
  law_decode : forall m i r b l m', sim m i -> m_valid r -> m_encode r = Ok b ->
    m_apply m l r = Ok m' -> m_decode b = Ok r;
  law_replay : forall m i r l i', sim m i -> m_valid r -> m_apply i l r = Ok i' ->
    exists m', m_apply m l r = Ok m' /\ sim m' i';
  law_ideal : forall m i r l m', sim m i -> m_valid r -> m_apply m l r = Ok m' ->
    exists i', m_apply i l r = Ok i' /\ sim m' i';
  law_restore : forall m i snaps, sim m i -> m_snapshot m = Ok (Ok <$> snaps) ->
    exists m', restore_all m0 snaps = Ok m' /\ sim m' i
}.

Lemma number_app a l k : number a (l ++ k) = number a l ++ number (a + length l) k.
Proof.
  revert a. induction l as [|b l IH]; intros a; simpl; [by rewrite Nat.add_0_r|].
  f_equal. rewrite IH. do 2 f_equal. lia.
Qed.

Lemma length_number a l : length (number a l) = length l.
Proof. revert a. induction l as [|b l IH]; intros a; simpl; [done|]. by rewrite IH. Qed.

Lemma take_number n a l : take n (number a l) = number a (take n l).
Proof.
  revert a n. induction l as [|b l IH]; intros a [|n]; simpl; try done. by rewrite IH.
Qed.

Lemma framed_app a l k : framed a (l ++ k) = framed a l ++ framed (a + length l) k.
Proof. unfold framed. by rewrite number_app, frames_bytes_app. Qed.

Lemma framed_nil a : framed a [] = [].
Proof. apply frames_bytes_nil. Qed.

Lemma framed_prefix a l k : l `prefix_of` k -> framed a l `prefix_of` framed a k.
Proof. intros [r ->]. rewrite framed_app. by apply prefix_app_r. Qed.

Lemma length_framed_le a l : (length l <= length (framed a l))%nat.
Proof.
  revert a. induction l as [|b l IH]; intros a; [simpl; lia|]. specialize (IH (S a)). unfold framed in *. cbn [number].
  rewrite frames_bytes_cons, length_app, length_frame_bytes. unfold HEADER. simpl. lia.
Qed.

Lemma frameable_number a l :
  Forall small l -> Z.of_nat (a + length l) < 2 ^ 64 -> Forall frameable (number a l).
Proof.
  intros Hl. revert a. induction Hl as [|b l Hb _ IH]; intros a Ha; simpl; [constructor|].
  simpl in Ha. constructor; [|apply IH; lia]. split; [unfold is_u; simpl; lia|done].
Qed.

Lemma run_app m a l k : run m a (l ++ k) = m' ← run m a l; run m' (a + length l) k.
Proof.
  revert m a. induction l as [|b l IH]; intros m a; simpl; [by rewrite Nat.add_0_r|].
  destruct (m_decode b) as [r|]; simpl; [|done]. destruct (m_apply _ _ _) as [m1|]; simpl; [|done].
  rewrite IH. by replace (S a + length l)%nat with (a + S (length l))%nat by lia.
Qed.

Lemma run_prefix m a l k m' : run m a (l ++ k) = Ok m' -> exists m1, run m a l = Ok m1.
Proof. rewrite run_app. destruct (run m a l); simpl; [eauto|done]. Qed.

(** Applying what was encoded is running the bodies. *)
Lemma apply_all_run `{!Sim} `{!MachineLaws m0} m i a rs bodies m' :
  sim m i -> Forall m_valid rs -> Forall2 (fun r b => m_encode r = Ok b) rs bodies ->
  apply_all m (Z.of_nat a) rs = Ok m' -> exists i', run i a bodies = Ok i' /\ sim m' i'.
Proof.
  intros Hs Hv Hf. revert m i a Hs Hv. induction Hf as [|r b rs bodies Hb _ IH]; intros m i a Hs Hv E.
  { cbn in E. simplify_eq. by exists i. }
  apply Forall_cons in Hv as [Hr Hv]. cbn [apply_all] in E. inv_ok. cbn [run].
  rewrite (law_decode m i r b _ _ Hs Hr Hb E0). cbn [mbind result_bind].
  destruct (law_ideal m i r _ _ Hs Hr E0) as (i1 & -> & Hs1). cbn [mbind result_bind].
  apply (IH _ _ (S a) Hs1 Hv). rewrite <-E. f_equal. lia.
Qed.

(** Machines in the same state replay alike. *)
Lemma run_sim `{!Sim} `{!MachineLaws m0} m i a bodies i' :
  sim m i -> run i a bodies = Ok i' -> exists m', run m a bodies = Ok m' /\ sim m' i'.
Proof.
  revert m i a. induction bodies as [|b bodies IH]; intros m i a Hs E; cbn [run] in *.
  { simplify_eq. by exists m. }
  inv_ok. rewrite E0. cbn [mbind result_bind].
  destruct (law_replay m i r _ _ Hs (law_valid _ _ E0) E1) as (m1 & -> & Hs1). by apply (IH _ _ _ Hs1).
Qed.

Lemma encode_batch_framed a bodies l b :
  encode_batch (Z.of_nat a) bodies = Ok (l, b) -> Z.of_nat a < 2 ^ 64 ->
  l = Z.of_nat (a + length bodies) /\ b = framed a bodies /\ Forall small bodies /\ l < 2 ^ 64.
Proof.
  revert a l b. induction bodies as [|x bodies IH]; intros a l b E Ha.
  { cbn in E. simplify_eq. rewrite framed_nil. simpl. splits; [lia|done|constructor|lia]. }
  cbn [encode_batch] in E. unfold checked_add in E.
  destruct (Z.ltb_spec (Z.of_nat a + 1) (2 ^ 64)) as [Ha1|]; [|done]. cbn [ok_or mbind result_bind] in E.
  rewrite encode_spec in E. destruct (Z.ltb_spec MAX_RECORD (blen x)) as [|Hx]; [done|].
  cbn [mbind result_bind] in E. replace (Z.of_nat a + 1) with (Z.of_nat (S a)) in E by lia.
  inv_ok. destruct r as [l1 fs1]. simplify_eq.
  destruct (IH _ _ _ E0) as (-> & -> & Hs & Hlt); [lia|]. cbn [length].
  replace (a + S (length bodies))%nat with (S a + length bodies)%nat by lia.
  splits; [done| |by constructor|lia]. unfold framed. cbn [number]. rewrite frames_bytes_cons. cbn [fst snd].
  by replace (Z.of_nat a + 1) with (Z.of_nat (S a)) by lia.
Qed.

(** *** Reading them back *)

Lemma apply_visit_ok m a r m' :
  Z.of_nat a + 1 < 2 ^ 64 -> m_apply m (Z.of_nat a + 1) r = Ok m' ->
  apply_visit (m, Z.of_nat a) (Z.of_nat a + 1) r = Ok (m', Z.of_nat (S a)).
Proof.
  intros Hlt Ha. unfold apply_visit, checked_add. cbn [fst snd]. rewrite (proj2 (Z.ltb_lt _ _)) by done.
  rewrite bool_decide_true, Ha by done. cbn. do 2 f_equal. lia.
Qed.

Lemma visit_run m a bodies m' :
  run m a bodies = Ok m' -> Z.of_nat (a + length bodies) < 2 ^ 64 ->
  exists out, Forall2 (decodes_to m_decode) (number a bodies) out /\
  JournalReplay.visit_all apply_visit (m, Z.of_nat a) out = Ok (m', Z.of_nat (a + length bodies)).
Proof.
  revert m a. induction bodies as [|b bodies IH]; intros m a E Hlt; cbn [run number length] in *.
  { simplify_eq. exists []. split; [constructor|]. simpl. by rewrite Nat.add_0_r. }
  inv_ok. destruct (IH _ _ E) as (out & Hd & Hv); [lia|]. exists ((Z.of_nat a + 1, r) :: out).
  split; [by constructor|]. cbn [JournalReplay.visit_all]. rewrite (apply_visit_ok _ _ _ r0) by (done || lia).
  cbn [mbind result_bind]. rewrite Hv. do 2 f_equal. lia.
Qed.

Lemma visit_restore m k snaps m' :
  restore_all m snaps = Ok m' ->
  exists out, Forall2 (decodes_to m_decode_snapshot) (number k snaps) out /\
  JournalReplay.visit_all restore_visit (m, Z.of_nat k) out = Ok (m', Z.of_nat (k + length snaps)).
Proof.
  revert m k. induction snaps as [|b snaps IH]; intros m k E; cbn [restore_all number length] in *.
  { simplify_eq. exists []. split; [constructor|]. simpl. by rewrite Nat.add_0_r. }
  inv_ok. destruct (IH _ (S k) E) as (out & Hd & Hv). exists ((Z.of_nat k + 1, r) :: out).
  split; [by constructor|]. cbn [JournalReplay.visit_all].
  assert (restore_visit (m, Z.of_nat k) (Z.of_nat k + 1) r = Ok (r0, Z.of_nat (S k))) as ->.
  { unfold restore_visit. cbn [fst snd]. rewrite Z.eqb_refl. cbn [negb]. rewrite E1. cbn. do 2 f_equal. lia. }
  cbn [mbind result_bind]. rewrite Hv. do 2 f_equal. lia.
Qed.

(** A whole log. *)
Lemma read_framed threads b m a bodies m' :
  Forall small bodies -> Z.of_nat (a + length bodies) < 2 ^ 64 -> run m a bodies = Ok m' ->
  JournalReplay.read m_decode apply_visit (framed a bodies) b threads (m, Z.of_nat a) =
  Some (Ok (m', Z.of_nat (a + length bodies), length (framed a bodies))).
Proof.
  intros Hs Hlt Hr. destruct (visit_run _ _ _ _ Hr Hlt) as (out & Hd & Hv).
  apply JournalReplay.read_image. exists (number a bodies), [], out. splits; [|done..].
  split; [by rewrite app_nil_r|]. split; [by apply frameable_number|by left].
Qed.

Lemma read_snapshot threads m snaps m' :
  Forall small snaps -> Z.of_nat (length snaps) < 2 ^ 64 -> restore_all m snaps = Ok m' ->
  JournalReplay.read m_decode_snapshot restore_visit (framed 0 snaps) false threads (m, 0) =
  Some (Ok (m', Z.of_nat (length snaps), length (framed 0 snaps))).
Proof.
  intros Hs Hlt Hr. destruct (visit_restore _ 0 _ _ Hr) as (out & Hd & Hv).
  apply JournalReplay.read_image. exists (number 0 snaps), [], out. splits; [|done..].
  split; [by rewrite app_nil_r|]. split; [by apply frameable_number|by left].
Qed.

(** What a crash leaves of a log. *)
Lemma read_log_cut threads c a bodies :
  Forall small bodies -> Z.of_nat (a + length bodies) < 2 ^ 64 -> c `prefix_of` framed a bodies ->
  exists n, (n <= length bodies)%nat /\ framed a (take n bodies) `prefix_of` c /\
  (forall k, framed a (take k bodies) `prefix_of` c -> (k <= length bodies)%nat -> (k <= n)%nat) /\
  forall m m', run m a (take n bodies) = Ok m' ->
  JournalReplay.read m_decode apply_visit c true threads (m, Z.of_nat a) =
  Some (Ok (m', Z.of_nat (a + n), length (framed a (take n bodies)))).
Proof.
  intros Hs Hlt Hc.
  destruct (JournalReplay.prefix_image m_decode apply_visit (number a bodies) (length c)) as (n & tail & Himg & Hle & Hnext);
    [by apply frameable_number|].
  assert (take (length c) (frames_bytes (number a bodies)) = c) as Ec
    by (destruct Hc as [r Hr]; unfold framed in Hr; by rewrite Hr, take_app_length).
  rewrite Ec, take_number in *. rewrite length_number in Hnext.
  exists (Nat.min n (length bodies)).
  assert (take (Nat.min n (length bodies)) bodies = take n bodies) as Et.
  { destruct (Nat.min_spec n (length bodies)) as [[? ->]|[? ->]]; [done|]. by rewrite !take_ge by lia. }
  rewrite Et. splits; [lia| | |].
  - destruct Himg as [-> _]. by apply prefix_app_r.
  - intros k Hk Hkl. destruct (decide (k <= n)%nat) as [|Hgt]; [lia|]. exfalso.
    specialize (Hnext ltac:(lia)). apply prefix_length in Hk.
    assert (framed a (take (S n) bodies) `prefix_of` framed a (take k bodies)) as Hp.
    { apply framed_prefix. exists (drop (S n) (take k bodies)).
      rewrite <-(take_drop (S n) (take k bodies)) at 1. by rewrite take_take, Nat.min_l by lia. }
    apply prefix_length in Hp. unfold framed in *. lia.
  - intros m m' Hr. destruct (visit_run _ _ _ _ Hr) as (out & Hd & Hv); [rewrite length_take; lia|].
    apply JournalReplay.read_image. exists (number a (take n bodies)), tail, out.
    splits; [done|done| |done]. by rewrite Hv, length_take.
Qed.

(** *** Snapshot chunks *)

Lemma frame_length_field l b rest :
  small b -> le_val (slice 8 4 (frame_bytes l b ++ rest)) = blen b.
Proof.
  intros Hb. unfold frame_bytes, head24. rewrite <-!app_assoc.
  rewrite (slice_app_exact 8 4 MAGIC) by (done || by rewrite length_le_bytes).
  rewrite le_val_le_bytes; [done|]. unfold small in Hb. rewrite max_record_value in Hb. unfold blen in *. lia.
Qed.

Lemma count_framed fuel pre a l :
  Forall small l -> (length (framed a l) <= fuel)%nat ->
  count_frames fuel (pre ++ framed a l) (length pre) = Some (Z.of_nat (length l)).
Proof.
  intros Hl. revert fuel pre a. induction Hl as [|b l Hb Hl IH]; intros fuel pre a Hf.
  { rewrite framed_nil, app_nil_r. destruct fuel; cbn [count_frames]; by rewrite Nat.ltb_irrefl. }
  unfold framed in *. cbn [number] in *. rewrite frames_bytes_cons in *. cbn [fst snd] in *.
  pose proof (length_frame_bytes (Z.of_nat a + 1) b) as Hlen. unfold HEADER in Hlen.
  rewrite length_app in Hf. destruct fuel as [|fuel]; [lia|]. cbn [count_frames].
  rewrite !length_app. rewrite (proj2 (Nat.ltb_lt _ _)), (proj2 (Nat.ltb_ge _ _)) by lia.
  rewrite slice_app_r by lia. replace (length pre + 8 - length pre)%nat with 8%nat by lia. rewrite frame_length_field by done.
  replace (Z.to_nat (blen b)) with (length b) by (unfold blen; lia).
  replace (length pre + (HEADER + length b))%nat with (length (pre ++ frame_bytes (Z.of_nat a + 1) b))
    by (rewrite length_app; unfold HEADER; lia).
  rewrite app_assoc, IH by lia. simpl. f_equal. lia.
Qed.

Definition chunk_of (n : nat) (c : list byte) : Prop :=
  exists a l, Forall small l /\ length l = n /\ c = framed a l.

Lemma encode_chunks_ok items a pre cs :
  encode_chunks items (Z.of_nat (a + length pre)) (framed a pre) = (cs, Ok tt) -> Forall small pre ->
  exists snaps ns, items = Ok <$> snaps /\ Forall small snaps /\ concat cs = framed a (pre ++ snaps) /\
  Forall2 chunk_of ns cs /\ foldr Nat.add 0%nat ns = (length pre + length snaps)%nat.
Proof.
  revert a pre cs. induction items as [|[b|e] items IH]; intros a pre cs E Hpre; cbn [encode_chunks] in E.
  - injection E as <-. exists []. rewrite app_nil_r. destruct (Nat.eqb_spec (length (framed a pre)) 0) as [Hz|Hz].
    + exists []. apply nil_length_inv in Hz as Hz0. splits; [done|constructor|by rewrite Hz0|constructor|].
      destruct pre as [|b pre]; [done|]. unfold framed in Hz. cbn [number] in Hz.
      rewrite frames_bytes_cons, length_app, length_frame_bytes in Hz. unfold HEADER in Hz. lia.
    + exists [length pre]. cbn [concat foldr length]. rewrite app_nil_r.
      splits; [done|constructor|done| |lia]. constructor; [by exists a, pre|constructor].
  - rewrite encode_spec in E. destruct (Z.ltb_spec MAX_RECORD (blen b)) as [|Hb]; [done|].
    replace (Z.of_nat (a + length pre) + 1) with (Z.of_nat (S (a + length pre))) in E by lia.
    assert (frame_bytes (Z.of_nat (S (a + length pre))) b = framed (a + length pre) [b]) as Hfb.
    { unfold framed. cbn [number]. rewrite frames_bytes_cons, frames_bytes_nil, app_nil_r. cbn [fst snd].
      f_equal. lia. }
    rewrite Hfb in E. destruct (_ && _).
    + destruct (encode_chunks items _ _) as [cs1 r1] eqn:E1. injection E as <- ->.
      replace (S (a + length pre)) with (a + length pre + length [b])%nat in E1 by (simpl; lia).
      apply IH in E1 as (snaps & ns & -> & Hsn & Hc & Hns & Hsum); [|by constructor].
      exists (b :: snaps), (length pre :: ns). cbn [concat foldr length] in *.
      rewrite Hc, (framed_app a pre). splits; [done|by constructor|done| |lia].
      constructor; [by exists a, pre|done].
    + rewrite <-framed_app in E.
      replace (S (a + length pre)) with (a + length (pre ++ [b]))%nat in E by (rewrite length_app; simpl; lia).
      apply IH in E as (snaps & ns & -> & Hsn & Hc & Hns & Hsum); [|apply Forall_app; by repeat constructor].
      exists (b :: snaps), ns. rewrite <-app_assoc in Hc. rewrite length_app in Hsum. cbn [length] in *.
      splits; [done|by constructor|done|done|lia].
  - done.
Qed.

(** What [write_chunks] does. *)
Fixpoint chunk_writes (cs : list (list byte)) (off : nat) : list Op :=
  match cs with
  | [] => []
  | c :: cs => Write snapshot_tmp off c :: chunk_writes cs (off + length c)
  end.

Lemma write_chunks_ops cs off k ops r :
  write_chunks cs off k = (ops, r) -> exists cs', cs' `prefix_of` cs /\ ops = chunk_writes cs' off.
Proof.
  revert off k ops. induction cs as [|c cs IH]; intros off k ops E; cbn [write_chunks] in E.
  { injection E as <- _. by exists []. }
  destruct (count_frames _ _ _); [|injection E as <- _; exists []; split; [apply prefix_nil|done]].
  cbn in E. destruct (write_chunks cs _ _) as [ops' r'] eqn:E'. injection E as <- <-.
  apply IH in E' as (cs' & Hp & ->). exists (c :: cs'). split; [by apply prefix_cons|done].
Qed.

Lemma write_chunks_ok cs ns off k :
  Forall2 chunk_of ns cs ->
  write_chunks cs off k =
  (chunk_writes cs off, Ok ((off + length (concat cs))%nat, k + Z.of_nat (foldr Nat.add 0%nat ns))).
Proof.
  intros Hf. revert off k. induction Hf as [|n c ns cs (a & l & Hl & <- & ->) _ IH]; intros off k.
  { cbn. by rewrite Nat.add_0_r, Z.add_0_r. }
  cbn [write_chunks]. pose proof (count_framed (length (framed a l)) [] a l Hl ltac:(done)) as Hc.
  cbn [app length] in Hc. rewrite Hc.
  cbn [mbind Prog_bind call app]. rewrite IH. cbn [chunk_writes concat foldr app]. rewrite length_app.
  by rewrite Nat2Z.inj_add, Z.add_assoc, Nat.add_assoc.
Qed.

End Logs.

End JournalLog.
