(* ===== verification/JournalInv.v ===== *)
(** When a directory of a journal stream is recoverable, and what keeps it so.

    [holds] describes a directory state that recovery accepts: CURRENT, the snapshot and the
    closed logs are synced, the snapshot restores the state after its LSN, and the logs continue
    from there. The last log is open: only the records of the last completed sync are certain to
    be in it. In a directory that a rotation is about to replace, every log may be closed. *)

From stdpp Require Import gmap.
From S2P Require Import Prelude External JournalFrame JournalReplay JournalCurrent JournalFs.
From S2P Require Import JournalDisk JournalLog.

Module JournalInv.
Import JournalFrame JournalCurrent JournalFs JournalDisk JournalLog.

Abbreviation Log := (path false).
Abbreviation Snap := (path true).
Abbreviation history := (list (list byte)).

Section Inv.
Context `{Xxh3} `{Machine} `{same : !Sim} (m0 : MState).

(** [m] represents the state after the records [h]. *)
Definition runs (h : history) (m : MState) : Prop := exists i, run m0 0 h = Ok i /\ sim m i.

(** The records [a, b) of a history. *)
Definition seg (h : history) (a b : nat) : history := take (b - a) (drop a h).

Definition hist_ok (h : history) : Prop :=
  Forall small h /\ Z.of_nat (length h) < 2 ^ 64 /\ exists m, run m0 0 h = Ok m.

(** A synced file other than the open log [il]. *)
Definition fixed (I : gmap nat Inode) (d : Dir) (il : nat) (x : Name) (b : list byte) : Prop :=
  exists i, d !! x = Some i /\ i <> il /\ I !! i = Some (synced b).

(** The open log starts after [al] records and holds at least the first [k]. *)
Definition log_open (I : gmap nat Inode) (d : Dir) (il al : nat) (h : history) (k : nat) (g : Z) : Prop :=
  d !! Log g = Some il /\ (al <= length h)%nat /\
  exists c lo hi, I !! il = Some (mkInode c (Some (lo, hi))) /\
    lo `prefix_of` c /\ c `prefix_of` hi /\ hi `prefix_of` framed al (drop al h) /\
    framed al (seg h al k) `prefix_of` lo.

Inductive chain (closed : bool) (I : gmap nat Inode) (d : Dir) (il al : nat) (h : history) (k : nat)
    : nat -> list Z -> Prop :=
  | chain_closed : closed = true -> chain closed I d il al h k (length h) []
  | chain_open g : log_open I d il al h k g -> chain closed I d il al h k al [g]
  | chain_cons a b g gs :
      (a <= b <= length h)%nat -> fixed I d il (Log g) (framed a (seg h a b)) ->
      chain closed I d il al h k b gs -> chain closed I d il al h k a (g :: gs).

Record holds (closed : bool) (I : gmap nat Inode) (d : Dir) (il al : nat) (h : history) (k : nat)
    (c : Current) : Prop := {
  h_ok : current_ok c;
  h_current : exists b, encode c = Ok b /\ fixed I d il CURRENT b;
  h_pending : pending c = 0 \/ pending c <> snapshot c;
  h_logs : logs c = seqZ (snapshot c) (Z.of_nat (length (logs c)));
  h_snapshot : exists snaps m, fixed I d il (Snap (snapshot c)) (framed 0 snaps) /\
    bytes c = blen (framed 0 snaps) /\ records c = Z.of_nat (length snaps) /\ Forall small snaps /\
    restore_all m0 snaps = Ok m /\ runs (take (Z.to_nat (lsn c)) h) m;
  h_lsn : 0 <= lsn c <= Z.of_nat (length h);
  h_chain : chain closed I d il al h k (Z.to_nat (lsn c)) (logs c)
}.

(** *** Segments *)

Lemma seg_app h k a b : (a <= b <= length h)%nat -> seg (h ++ k) a b = seg h a b.
Proof.
  intros Hab. unfold seg. rewrite drop_app_le by lia. apply take_app_le. rewrite length_drop. lia.
Qed.

Lemma length_seg h a b : (a <= b <= length h)%nat -> length (seg h a b) = (b - a)%nat.
Proof. intros Hab. unfold seg. rewrite length_take, length_drop. lia. Qed.

Lemma seg_all h a : seg h a (length h) = drop a h.
Proof. unfold seg. apply take_ge. by rewrite length_drop. Qed.

Lemma take_seg h a b : (a <= b)%nat -> take a h ++ seg h a b = take b h.
Proof.
  intros Hab. unfold seg. rewrite <-(take_drop a (take b h)). f_equal.
  - by rewrite take_take, Nat.min_l by lia.
  - by rewrite skipn_firstn_comm.
Qed.

Lemma seg_prefix h a b b' : (b <= b')%nat -> seg h a b `prefix_of` seg h a b'.
Proof.
  intros Hb. exists (drop (b - a) (seg h a b')). unfold seg.
  rewrite <-(take_drop (b - a) (take (b' - a) (drop a h))) at 1.
  by rewrite take_take, Nat.min_l by lia.
Qed.

Lemma Forall_small_drop h a : Forall small h -> Forall small (drop a h).
Proof. apply Forall_drop. Qed.

Lemma run_take h n : hist_ok h -> exists m, run m0 0 (take n h) = Ok m.
Proof.
  intros (_ & _ & m & Hm). rewrite <-(take_drop n h) in Hm. by apply run_prefix in Hm.
Qed.

(** Running on from the first [a] records. *)
Lemma run_seg `{!MachineLaws m0} h a b m :
  hist_ok h -> (a <= b <= length h)%nat -> runs (take a h) m ->
  exists m', run m a (seg h a b) = Ok m' /\ runs (take b h) m'.
Proof.
  intros Hh Hab (i & Hi & Hs). destruct (run_take h b Hh) as [i' Hi'].
  pose proof Hi' as E. rewrite <-(take_seg h a b), run_app, Hi in E by lia. cbn [mbind result_bind] in E.
  rewrite length_take, Nat.min_l in E by lia. destruct (run_sim m i a _ i' Hs E) as (m' & Hm' & Hs').
  exists m'. split; [done|]. by exists i'.
Qed.

(** *** Files that change and files that do not *)

Lemma fixed_inodes I I' d il x b :
  (forall i, d !! x = Some i -> i <> il -> I' !! i = I !! i) -> fixed I d il x b -> fixed I' d il x b.
Proof. intros HI (i & Hd & Hne & Hi). exists i. by rewrite HI. Qed.

Lemma fixed_dir I d d' il x b : d' !! x = d !! x -> fixed I d il x b -> fixed I d' il x b.
Proof. intros Hd (i & Hi & Hne & Hs). exists i. by rewrite Hd. Qed.

Lemma fixed_synced I I' d il x b :
  (forall i b, I !! i = Some (synced b) -> I' !! i = Some (synced b)) ->
  fixed I d il x b -> fixed I' d il x b.
Proof. intros HI (i & Hd & Hne & Hi). exists i. by rewrite (HI i b). Qed.

(** The names a recovery set refers to. *)
Definition in_set (c : Current) (x : Name) : Prop :=
  x = CURRENT \/ x = Snap (snapshot c) \/ exists g, g ∈ logs c /\ x = Log g.

(** [fixed] facts and the open log determine [holds]. *)
Lemma holds_map cl cl' I I' d d' il al al' h h' k k' il' c :
  h `prefix_of` h' ->
  (forall x b, in_set c x -> fixed I d il x b -> fixed I' d' il' x b) ->
  (chain cl I d il al h k (Z.to_nat (lsn c)) (logs c) -> 
   (forall g b, g ∈ logs c -> fixed I d il (Log g) b -> fixed I' d' il' (Log g) b) ->
   chain cl' I' d' il' al' h' k' (Z.to_nat (lsn c)) (logs c)) ->
  holds cl I d il al h k c -> holds cl' I' d' il' al' h' k' c.
Proof.
  intros Hh Hfix Hchain [Hok (b & He & Hc) Hp Hq (snaps & m & Hs & Hb & Hr & Hsm & Hre & Hrun) Hl Hch].
  split; try done.
  - exists b. split; [done|]. apply Hfix; [by left|done].
  - exists snaps, m. splits; try done; [apply Hfix; [by right; left|done]|]. destruct Hh as [t ->].
    by rewrite take_app_le by lia.
  - apply prefix_length in Hh. lia.
  - apply Hchain; [done|]. intros g b' Hg. apply Hfix. right. right. eauto.
Qed.

Lemma chain_bound cl I d il al h k a gs : chain cl I d il al h k a gs -> (a <= length h)%nat.
Proof. intros Hc. destruct Hc as [|g (_ & ? & _)|]; lia. Qed.

Lemma chain_map cl cl' I I' d d' il il' al al' h h' k k' a gs :
  h `prefix_of` h' -> (cl = true -> cl' = true /\ h' = h) ->
  (forall g b, g ∈ gs -> fixed I d il (Log g) b -> fixed I' d' il' (Log g) b) ->
  (forall g, g ∈ gs -> log_open I d il al h k g -> chain cl' I' d' il' al' h' k' al [g]) ->
  chain cl I d il al h k a gs -> chain cl' I' d' il' al' h' k' a gs.
Proof.
  intros [t ->] Hcl Hfix Hopen Hc. revert Hfix Hopen.
  induction Hc as [Ht|g Ho|a b g gs Hab Hf Hc IH]; intros Hfix Hopen.
  - destruct (Hcl Ht) as [-> Hh]. rewrite <-(app_nil_r h) in Hh at 2. apply app_inv_head in Hh as ->.
    rewrite app_nil_r. by constructor.
  - apply Hopen; [left|done].
  - apply chain_cons with b.
    + rewrite length_app. lia.
    + rewrite seg_app by done. apply Hfix; [left|done].
    + apply IH; intros; [apply Hfix|apply Hopen]; try done; by right.
Qed.

(** Files outside the recovery set may change. *)
Lemma holds_inodes cl I I' d il al h k c :
  (forall x i, d !! x = Some i -> is_tmp x = false -> I' !! i = I !! i) ->
  holds cl I d il al h k c -> holds cl I' d il al h k c.
Proof.
  intros HI. assert (forall x b, is_tmp x = false -> fixed I d il x b -> fixed I' d il x b) as Hf.
  { intros x b Hx. apply fixed_inodes. intros i Hi _. by eapply HI. }
  apply holds_map; [done| |].
  - intros x b Hx. apply Hf. by destruct Hx as [->|[->|(g & _ & ->)]].
  - intros Hc _. revert Hc. apply chain_map; [done|done|intros g b _; by apply Hf|].
    intros g _ (Hd & Hl & c' & lo & hi & Hi & ?). apply chain_open. split; [done|]. split; [done|].
    exists c', lo, hi. by rewrite (HI _ _ Hd).
Qed.

(** Names outside the recovery set may change. *)
Lemma holds_dir cl I d d' il al h k c :
  (forall x, in_set c x -> d' !! x = d !! x) ->
  holds cl I d il al h k c -> holds cl I d' il al h k c.
Proof.
  intros Hd'. assert (forall g, g ∈ logs c -> d' !! Log g = d !! Log g) as Hlog
    by (intros g Hg; apply Hd'; right; right; eauto).
  apply holds_map; [done| |].
  - intros x b Hx. apply fixed_dir. auto.
  - intros Hc _. revert Hc. apply chain_map; [done|done| |].
    + intros g b Hg. apply fixed_dir. auto.
    + intros g Hg (Hd & ?). apply chain_open. split; [by rewrite Hlog|done].
Qed.

Lemma in_set_perm c x : in_set c x -> is_tmp x = false.
Proof. by intros [->|[->|(g & _ & ->)]]. Qed.

(** The open log may change, and the history grow with it. *)
Lemma holds_log cl I I' d il al h h' k k' c :
  h `prefix_of` h' -> (cl = true -> h' = h) ->
  (forall i, i <> il -> I' !! i = I !! i) ->
  (forall g, log_open I d il al h k g -> log_open I' d il al h' k' g) ->
  holds cl I d il al h k c -> holds cl I' d il al h' k' c.
Proof.
  intros Hh Hcl HI Ho.
  assert (forall x b, fixed I d il x b -> fixed I' d il x b) as Hf by (intros x b; apply fixed_inodes; auto).
  apply holds_map; [done|auto|]. intros Hc _. revert Hc.
  apply chain_map; [done|auto|auto|]. intros g _ Hg. by apply chain_open, Ho.
Qed.

(** A synced log can be closed, for any other file to become the open log. *)
Lemma holds_close I d il il' al al' h k c :
  I !! il = Some (synced (framed al (drop al h))) ->
  (forall x, in_set c x -> d !! x <> Some il') ->
  holds false I d il al h k c -> holds true I d il' al' h k c.
Proof.
  intros Hs Hfree.
  assert (forall x b, in_set c x -> fixed I d il x b -> fixed I d il' x b) as Hf.
  { intros x b Hx (i & Hd & Hne & Hi). exists i. splits; [done| |done]. intros ->. by eapply Hfree. }
  assert (forall g, g ∈ logs c -> in_set c (Log g)) as Hin by (intros g Hg; right; right; eauto).
  apply holds_map; [done|done|].
  intros Hc _. revert Hc. apply chain_map; [done|done|intros g b Hg; by apply Hf, Hin|].
  intros g Hg (Hd & Hl & _). apply chain_cons with (length h); [lia| |by apply chain_closed].
  exists il. splits; [done| |by rewrite seg_all]. intros ->. by eapply (Hfree (Log g) (Hin g Hg)).
Qed.

(** A closed chain continued by a new open log. *)
Lemma chain_extend I d il h k a gs g :
  (forall g', g' ∈ gs -> d !! Log g' <> Some il) ->
  chain true I d il (length h) h k a gs -> log_open I d il (length h) h k g ->
  chain false I d il (length h) h k a (gs ++ [g]).
Proof.
  intros Hfree Hc Ho. induction Hc as [_|g' (Hd & _)|a b g' gs Hab Hf Hc IH].
  - by apply chain_open.
  - by destruct (Hfree g' ltac:(left)).
  - apply chain_cons with b; [done|done|]. apply IH. intros g2 Hg2. apply Hfree. by right.
Qed.

(** The log of a closed directory can be opened again. *)
Lemma chain_reopen I d il al h k a gs :
  (forall x y i, d !! x = Some i -> d !! y = Some i -> x = y) -> NoDup gs -> gs <> [] ->
  chain true I d il al h k a gs ->
  exists il' al' g, chain false I d il' al' h k a gs /\ last gs = Some g /\ d !! Log g = Some il'.
Proof.
  intros Hinj Hnd Hne Hc. induction Hc as [_|g Ho|a b g gs Hab Hf Hc IH]; [done| |].
  - exists il, al, g. splits; [by apply chain_open|done|apply Ho].
  - destruct gs as [|g' gs].
    + inversion Hc; subst. destruct Hf as (i & Hd & _ & Hi). exists i, a, g. splits; [|done|done].
      apply chain_open. split; [done|]. split; [lia|]. rewrite seg_all in Hi.
      exists (framed a (drop a h)), (framed a (drop a h)), (framed a (drop a h)). splits; try done.
      apply framed_prefix. unfold seg. apply prefix_take.
    + apply NoDup_cons in Hnd as [Hg Hnd]. destruct (IH Hnd ltac:(done)) as (il' & al' & gl & Hc' & Hl & Hgl).
      exists il', al', gl. splits; [|by rewrite last_cons_cons|done].
      apply chain_cons with b; [done| |done]. destruct Hf as (i & Hd & _ & Hi). exists i. splits; try done.
      intros ->. assert (Log g = Log gl) as E by by eapply Hinj. injection E as ->.
      apply Hg. apply last_Some_elem_of in Hl. done.
Qed.

Lemma gap_lookup a l i v :
  gap (a :: l) = false -> is_u64 a -> (a :: l) !! i = Some v -> v = wrap 64 (a + Z.of_nat i).
Proof.
  revert a i. induction l as [|b l IH]; intros a i Hg Ha.
  - destruct i as [|i]; [|done]. cbn. intros [= <-]. rewrite Z.add_0_r. symmetry. by apply wrap_small.
  - destruct i as [|i]; cbn [lookup list_lookup].
    + intros [= <-]. rewrite Z.add_0_r. symmetry. by apply wrap_small.
    + cbn [gap] in Hg. apply orb_false_iff in Hg as [Hb Hg]. apply negb_false_iff, Z.eqb_eq in Hb.
      intros Hv. apply (IH b i Hg) in Hv; [|rewrite Hb; by apply wrap_range].
      rewrite Hv, Hb. unfold wrap. rewrite Z.add_mod_idemp_l by lia. f_equal. lia.
Qed.

Lemma logs_nodup c : current_ok c -> NoDup (logs c).
Proof.
  intros [_ [Hu Hl] _ _ Hg _ _]. destruct (logs c) as [|a l]; [constructor|].
  apply Forall_cons in Hu as [Ha _]. apply NoDup_alt. intros i j v Hi Hj.
  pose proof (lookup_lt_Some _ _ _ Hi) as Hil. pose proof (lookup_lt_Some _ _ _ Hj) as Hjl.
  apply (gap_lookup _ _ _ _ Hg Ha) in Hi, Hj. rewrite Hi in Hj. unfold wrap, MAX_GENERATIONS in *.
  pose proof (Z.div_mod (a + Z.of_nat i) (2 ^ 64) ltac:(lia)).
  pose proof (Z.div_mod (a + Z.of_nat j) (2 ^ 64) ltac:(lia)). lia.
Qed.

Lemma logs_nonempty c : current_ok c -> logs c <> [].
Proof. intros [_ [_ Hl] _ _ _ _ _] E. rewrite E in Hl. simpl in Hl. lia. Qed.

Lemma last_log_Some c : current_ok c -> last (logs c) = Some (last_log c).
Proof.
  intros Hc. apply logs_nonempty in Hc. unfold last_log.
  destruct (last (logs c)) eqn:E; [done|]. by apply last_None in E.
Qed.

Lemma chain_last I d il al h k a gs g :
  chain false I d il al h k a gs -> last gs = Some g -> d !! Log g = Some il /\ log_open I d il al h k g.
Proof.
  intros Hc. revert g. induction Hc as [|g Ho|a b g gs Hab Hf Hc IH]; intros g0 Hl; [done| |].
  - injection Hl as <-. split; [apply Ho|done].
  - destruct gs as [|g' gs]; [by inversion Hc|]. apply IH. by rewrite last_cons_cons in Hl.
Qed.

(** Any directory state that holds can be recovered with its last log open. *)
Lemma holds_reopen I d il al h k c :
  (forall x y i, d !! x = Some i -> d !! y = Some i -> x = y) ->
  holds true I d il al h k c -> exists il' al', holds false I d il' al' h k c.
Proof.
  intros Hinj [Hok (b & He & Hc) Hp Hq (snaps & m & Hs & Hb & Hr & Hsm & Hre & Hrun) Hl Hch].
  destruct (chain_reopen I d il al h k _ _ Hinj (logs_nodup c Hok) (logs_nonempty c Hok) Hch)
    as (il' & al' & g & Hch' & _ & Hg).
  assert (forall x b, x <> Log g -> fixed I d il x b -> fixed I d il' x b) as Hf.
  { intros x b' Hx (i & Hd & _ & Hi). exists i. splits; [done| |done]. intros ->. by destruct Hx; eapply Hinj. }
  exists il', al'. split; try done.
  - exists b. split; [done|]. by apply Hf.
  - exists snaps, m. splits; try done. by apply Hf.
Qed.

Lemma chain_weaken I d il al h k a gs : chain false I d il al h k a gs -> chain true I d il al h k a gs.
Proof.
  apply chain_map; [done|done|done|]. intros g _ Hg. by apply chain_open.
Qed.

Lemma holds_weaken I d il al h k c : holds false I d il al h k c -> holds true I d il al h k c.
Proof. apply holds_map; [done|done|]. intros Hc _. by apply chain_weaken. Qed.

(** *** Failures *)

(** What a process or machine failure does to a file. *)
Definition failed (f f' : Inode) : Prop :=
  forall lo hi, bounds f = Some (lo, hi) ->
  exists lo', bounds f' = Some (lo', cur f') /\ lo `prefix_of` lo' /\ lo' `prefix_of` cur f' /\
    cur f' `prefix_of` hi.

Lemma killed_failed f f' : killed f f' -> failed f f'.
Proof.
  intros [Ha Hb] lo hi E. unfold admissible in Ha. rewrite E in Ha, Hb. exists lo. by destruct Ha.
Qed.

Lemma lost_failed f f' : lost f f' -> failed f f'.
Proof.
  intros [Ha Hb] lo hi E. unfold admissible in Ha. rewrite E in Ha. exists (cur f').
  rewrite Hb at 1. by destruct Ha.
Qed.

Lemma holds_failed cl I I' d il al h k c :
  (forall i, option_Forall2 failed (I !! i) (I' !! i)) ->
  holds cl I d il al h k c -> holds cl I' d il al h k c.
Proof.
  intros HI. assert (forall i f, I !! i = Some f -> exists f', I' !! i = Some f' /\ failed f f') as Hi.
  { intros i f Hf. specialize (HI i). rewrite Hf in HI. inversion HI. eauto. }
  assert (forall x b, fixed I d il x b -> fixed I' d il x b) as Hf.
  { intros x b. apply fixed_synced. intros i b' (f' & -> & Hf)%Hi. f_equal. destruct f' as [c' bd].
    destruct (Hf b' b' eq_refl) as (lo' & E & H1 & H2 & H3). cbn in *. subst bd.
    apply (anti_symm prefix) in H3; [|by etrans]. subst c'.
    apply (anti_symm prefix) in H1; [|done]. by subst lo'. }
  apply holds_map; [done|auto|]. intros Hc _. revert Hc. apply chain_map; [done|done|auto|].
  intros g _ (Hd & Hl & c' & lo & hi & Hil & H1 & H2 & H3 & H4). apply chain_open. split; [done|]. split; [done|].
  destruct (Hi _ _ Hil) as ([c1 bd] & Hil' & Hf'). destruct (Hf' lo hi eq_refl) as (lo' & E & F1 & F2 & F3).
  cbn in *. subst bd. exists c1, lo', c1. splits; try done; by etrans.
Qed.

(** ** Recovery reads what is there *)

Lemma content_fixed f il x b : fixed (inodes f) (dir f) il x b -> content x f = Some b.
Proof. intros (i & Hd & _ & Hi). unfold content. by rewrite Hd, Hi. Qed.

Lemma replay_chain `{!MachineLaws m0} threads f il al h k a gs m off :
  hist_ok h -> (k <= length h)%nat ->
  chain false (inodes f) (dir f) il al h k a gs -> runs (take a h) m -> gs <> [] ->
  exists n m' c, replay_logs threads f gs (m, Z.of_nat a) off =
    Some (Ok (m', Z.of_nat n, length (framed al (seg h al n)))) /\
  (al <= n <= length h)%nat /\ (k <= n)%nat /\ runs (take n h) m' /\
  cur <$> inodes f !! il = Some c /\ framed al (seg h al n) `prefix_of` c.
Proof.
  intros Hh Hk Hc. revert m off. induction Hc as [|g Ho|a b g gs Hab Hf Hc IH]; intros m off Hm Hne; [done| |].
  - destruct Ho as (Hd & Hal & c & lo & hi & Hi & H1 & H2 & H3 & H4).
    pose proof Hh as (Hs & Hlt & Hrun). cbn [replay_logs length]. unfold content. rewrite Hd, Hi. cbn [fmap option_fmap option_map cur].
    destruct (read_log_cut threads c al (drop al h)) as (n & Hn & Hp & Hmax & Hread);
      [by apply Forall_drop|rewrite length_drop; lia|by etrans|].
    rewrite length_drop in Hn. assert (take n (drop al h) = seg h al (al + n)) as Eseg
      by (unfold seg; f_equal; lia).
    destruct (run_seg h al (al + n) m) as (m' & Hm' & Hruns); [done|lia|done|]. rewrite <-Eseg in Hm'.
    cbn [Nat.eqb]. rewrite (Hread m m' Hm'). exists (al + n)%nat, m', c. rewrite Eseg in *.
    splits; try done; try lia. destruct (decide (k <= al)%nat); [lia|]. specialize (Hmax (k - al)%nat).
    rewrite length_drop in Hmax. assert (k - al <= n)%nat; [|lia]. apply Hmax; [|lia].
    change (take (k - al) (drop al h)) with (seg h al k). by etrans; [|exact H1].
  - destruct gs as [|g' gs]; [by inversion Hc|]. cbn [replay_logs]. rewrite (content_fixed _ _ _ _ Hf).
    destruct (run_seg h a b m) as (m' & Hm' & Hmb); [done..|]. destruct Hh as (Hs & Hlt & Hrun).
    rewrite (read_framed threads _ m a (seg h a b) m').
    + rewrite length_seg by done. replace (a + (b - a))%nat with b by lia.
      by apply (IH m' (length (framed a (seg h a b))) Hmb).
    + unfold seg. by apply Forall_take, Forall_drop.
    + rewrite length_seg by done. lia.
    + done.
Qed.

Lemma recover_scan_ok `{!MachineLaws m0} threads f il al h k c :
  hist_ok h -> (k <= length h)%nat -> holds false (inodes f) (dir f) il al h k c ->
  exists n m b, recover_scan threads m0 c f =
    Some (Ok (m, Z.of_nat n, length (framed al (seg h al n)))) /\
  (al <= n <= length h)%nat /\ (k <= n)%nat /\ runs (take n h) m /\
  cur <$> inodes f !! il = Some b /\ content (Log (last_log c)) f = Some b /\
  framed al (seg h al n) `prefix_of` b.
Proof.
  intros Hh Hk [Hok _ _ _ (snaps & m & Hs & Hb & Hr & Hsm & Hre & Hrun) Hl Hch].
  unfold recover_scan. rewrite (content_fixed _ _ _ _ Hs). rewrite (proj2 (Z.eqb_eq _ _)) by done. cbn [negb].
  rewrite (read_snapshot threads m0 snaps m) by (done || pose proof (co_words c Hok) as Hw;
    rewrite !Forall_cons in Hw; destruct Hw as (_ & _ & _ & Hrec & _); rewrite Hr in Hrec; apply Hrec).
  rewrite Hr, Z.eqb_refl. cbn [negb].
  assert (lsn c = Z.of_nat (Z.to_nat (lsn c))) as El by lia.
  destruct (replay_chain threads f il al h k _ _ m 0 Hh Hk Hch Hrun (logs_nonempty c Hok))
    as (n & m' & b & Hrep & Hn & Hkn & Hm' & Hcur & Hp).
  exists n, m', b. rewrite <-El in Hrep. splits; try done; try lia.
  destruct (chain_last _ _ _ _ _ _ _ _ _ Hch (last_log_Some c Hok)) as [Hd _].
  unfold content. by rewrite Hd.
Qed.

Lemma length_concat_le8 (l : list Z) : length (concat (le_bytes 8 <$> l)) = (8 * length l)%nat.
Proof. induction l as [|x l IH]; [done|]. rewrite fmap_cons. cbn [concat length]. rewrite length_app, length_le_bytes, IH. lia. Qed.

Lemma length_concat_garbage l : length (concat (garbage_bytes <$> l)) = (16 * length l)%nat.
Proof.
  induction l as [|x l IH]; [done|]. rewrite fmap_cons. cbn [concat length]. rewrite length_app, IH.
  unfold garbage_bytes. rewrite length_app, !length_le_bytes. lia.
Qed.

Lemma current_size c b : current_ok c -> encode c = Ok b -> blen b <= 65536.
Proof.
  intros [_ [_ Hl] [_ Hg] _ _ _ _]. unfold encode. destruct (_ || _); [done|]. intros E.
  assert (b = payload c ++ le_bytes 8 (xxh3_64 (payload c))) as -> by congruence.
  unfold blen, payload, MAX_GENERATIONS in *. rewrite !length_app, length_le_bytes, !length_concat_le8, length_concat_garbage.
  change (length CURRENT_MAGIC) with 8%nat. cbn [length]. lia.
Qed.

(** Starting from a directory that holds reads its recovery set and changes nothing. *)
Lemma recover_start_holds cl f il al h k c :
  holds cl (inodes f) (dir f) il al h k c -> recover_start f = ([], Ok c).
Proof.
  intros [Hok (b & He & Hc) _ _ _ _ _]. unfold recover_start. rewrite (content_fixed _ _ _ _ Hc).
  rewrite (proj2 (Z.ltb_ge _ _)) by by eapply current_size.
  unfold lift. by rewrite (decode_complete b c).
Qed.

End Inv.

End JournalInv.
