(* ===== verification/JournalSafe.v ===== *)
(** Programs that keep a stream recoverable at every system call.

    [safe] is the property of a program that is run call by call: at every point the
    directory states that a crash may leave hold, also when the log has been appended to since the
    last call. The rules below run the two shapes the programs of disk.rs are made of:
    a temporary file that is written, synced and renamed, and calls that touch only names
    outside the recovery set. *)

From stdpp Require Import gmap.
From S2P Require Import Prelude External JournalFrame JournalReplay JournalCurrent JournalFs.
From S2P Require Import JournalDisk JournalLog JournalInv.

Module JournalSafe.
Import JournalFrame JournalCurrent JournalFs JournalDisk JournalLog JournalInv.

(** ** Programs *)

(** What the environment of a program may do: it keeps the directory and every file but the
    volatile ones, which have no temporary names. *)
Record environment (Q : Fs -> list (list byte) -> nat -> Prop)
    (Var : Fs -> list (list byte) -> nat -> Fs -> list (list byte) -> nat -> Prop)
    (vol : nat -> Prop) : Prop := {
  env_refl : forall f h k, Var f h k f h k;
  env_trans : forall f h k f1 h1 k1 f2 h2 k2,
    Var f h k f1 h1 k1 -> Var f1 h1 k1 f2 h2 k2 -> Var f h k f2 h2 k2;
  env_fs : forall f h k f' h' k', Var f h k f' h' k' ->
    dir f' = dir f /\ older f' = older f /\ forall i, ~ vol i -> inodes f' !! i = inodes f !! i;
  env_wf : forall f h k, Q f h k -> fs_wf f;
  env_vol : forall f h k x i, Q f h k -> is_tmp x = true -> dir f !! x = Some i -> ~ vol i
}.

Section Safe.
Context (Q : Fs -> list (list byte) -> nat -> Prop).
Context (Var : Fs -> list (list byte) -> nat -> Fs -> list (list byte) -> nat -> Prop).
Context (vol : nat -> Prop).
Hypothesis E : environment Q Var vol.

Fixpoint safe (Post : Fs -> list (list byte) -> nat -> Prop) (todo : list Op)
    (f : Fs) (h : list (list byte)) (k : nat) : Prop :=
  Q f h k /\
  forall f' h' k', Var f h k f' h' k' -> Q f' h' k' ->
  match todo with
  | [] => Post f' h' k'
  | op :: todo => exists f'', exec op f' = Some f'' /\ safe Post todo f'' h' k'
  end.

Lemma safe_Q Post todo f h k : safe Post todo f h k -> Q f h k.
Proof. destruct todo; by intros [? _]. Qed.

Lemma safe_var Post todo f h k f' h' k' :
  safe Post todo f h k -> Var f h k f' h' k' -> Q f' h' k' -> safe Post todo f' h' k'.
Proof.
  intros Hs HV HQ. destruct todo; destruct Hs as [_ Hs]; split; try done; intros f2 h2 k2 HV2 HQ2;
    (apply Hs; [by eapply (env_trans _ _ _ E)|done]).
Qed.

Lemma safe_step Post op todo f h k :
  safe Post (op :: todo) f h k -> exists f', exec op f = Some f' /\ safe Post todo f' h k.
Proof. intros [HQ Hs]. apply Hs; [apply (env_refl _ _ _ E)|done]. Qed.

Lemma safe_done Post f h k : safe Post [] f h k -> Post f h k.
Proof. intros [HQ Hs]. apply Hs; [apply (env_refl _ _ _ E)|done]. Qed.

(** An assertion the environment and temporary files leave alone. *)
Record assertion (A : Fs -> list (list byte) -> nat -> Prop) : Prop := {
  a_Q : forall f h k, A f h k -> Q f h k;
  a_var : forall f h k f' h' k', A f h k -> Var f h k f' h' k' -> Q f' h' k' -> A f' h' k';
  a_tmp : forall f h k f', A f h k -> fs_wf f' -> tmp_only f f' -> A f' h k
}.

Lemma safe_nil A Post f h k :
  assertion A -> (forall f h k, A f h k -> Post f h k) -> A f h k -> safe Post [] f h k.
Proof.
  intros HA HP Ha. split; [by eapply a_Q|]. intros f' h' k' HV HQ. apply HP. by eapply a_var.
Qed.

(** One call that turns one assertion into another. *)
Lemma safe_cons A Post op todo f h k :
  assertion A -> A f h k ->
  (forall f h k, A f h k -> exists f', exec op f = Some f' /\ safe Post todo f' h k) ->
  safe Post (op :: todo) f h k.
Proof.
  intros HA Ha Hs. split; [by eapply a_Q|]. intros f' h' k' HV HQ. apply Hs. by eapply a_var.
Qed.

(** *** A temporary file *)

Lemma tmp_file_var x c f h k f' h' k' :
  is_tmp x = true -> Q f h k -> Var f h k f' h' k' -> tmp_file x c f -> tmp_file x c f'.
Proof.
  intros Hx HQ HV (i & bd & Hd & Hi). apply (env_fs _ _ _ E) in HV as (Hd' & _ & Hi'). exists i, bd.
  rewrite Hd', Hi'; [done|]. by eapply (env_vol _ _ _ E).
Qed.

Lemma tmp_synced_var x c f h k f' h' k' :
  is_tmp x = true -> Q f h k -> Var f h k f' h' k' -> tmp_synced x c f -> tmp_synced x c f'.
Proof.
  intros Hx HQ HV (i & Hd & Hi). apply (env_fs _ _ _ E) in HV as (Hd' & _ & Hi'). exists i.
  rewrite Hd', Hi'; [done|]. by eapply (env_vol _ _ _ E).
Qed.

(** [A] is kept by a call on a temporary file. *)
Lemma assertion_exec A op f h k f' :
  assertion A -> A f h k -> tmp_op op -> exec op f = Some f' -> A f' h k.
Proof.
  intros HA Ha Hop He. pose proof (env_wf _ _ _ E _ _ _ (a_Q A HA _ _ _ Ha)) as Hwf.
  eapply a_tmp; [done|exact Ha| |by eapply tmp_only_exec].
  eapply wf_exec; [exact Hwf| |exact He]. by destruct op.
Qed.

Lemma safe_writes A Post x cs c rest f h k :
  assertion A -> is_tmp x = true ->
  (forall f h k, A f h k -> tmp_file x (c ++ concat cs) f -> safe Post rest f h k) ->
  A f h k -> tmp_file x c f -> safe Post (writes x cs (length c) ++ rest) f h k.
Proof.
  intros HA Hx. revert c f h k. induction cs as [|b cs IH]; intros c f h k Hrest Ha Ht.
  { cbn [concat] in Hrest. rewrite app_nil_r in Hrest. by apply Hrest. }
  cbn [writes app]. split; [by eapply a_Q|]. intros f' h' k' HV HQ.
  pose proof (tmp_file_var x c _ _ _ _ _ _ Hx (a_Q A HA _ _ _ Ha) HV Ht) as Ht'.
  pose proof (a_var A HA _ _ _ _ _ _ Ha HV HQ) as Ha'.
  destruct (exec_write x b c f' Ht') as (f'' & He & Ht''). exists f''. split; [done|].
  rewrite <-length_app. apply IH; [|by apply (assertion_exec A (Write x (length c) b) f' h' k' f'' HA Ha' Hx)|done].
  intros f1 h1 k1 Ha1. rewrite <-app_assoc. by apply Hrest.
Qed.

(** The rule for a file written under a temporary name and renamed. *)
Lemma safe_file A A' Post x y cs rest f h k :
  assertion A -> assertion A' -> is_tmp x = true -> is_tmp y = false ->
  (forall f h k i, A f h k -> dir f !! x = Some i -> inodes f !! i = Some (synced (concat cs)) ->
    fs_wf (set_dir (<[y := i]> (delete x (dir f))) f) ->
    A' (set_dir (<[y := i]> (delete x (dir f))) f) h k) ->
  (forall f h k, A' f h k -> older f = [] -> safe Post rest f h k) ->
  A f h k ->
  safe Post (Create x :: writes x cs 0 ++ Sync x :: Rename x y :: SyncDir :: rest) f h k.
Proof.
  intros HA HA' Hx Hy Hren Hrest Ha. eapply safe_cons; [exact HA|exact Ha|]. clear f h k Ha.
  intros f h k Ha. destruct (exec_create x f) as (f1 & He & Ht); [apply (env_wf _ _ _ E f h k), (a_Q A HA _ _ _ Ha)|].
  exists f1. split; [done|]. apply (assertion_exec A (Create x) f h k f1 HA Ha Hx) in He. clear f Ha.
  apply (safe_writes A _ x cs [] (Sync x :: Rename x y :: SyncDir :: rest)); [done..| |done|done].
  clear f1 h k He Ht. cbn [app]. intros f h k Ha Ht.
  (* the sync *)
  split; [exact (a_Q A HA _ _ _ Ha)|]. intros f1 h1 k1 HV HQ.
  pose proof (tmp_file_var x _ _ _ _ _ _ _ Hx (a_Q A HA _ _ _ Ha) HV Ht) as Ht1.
  pose proof (a_var A HA _ _ _ _ _ _ Ha HV HQ) as Ha1.
  destruct (exec_sync x _ f1 Ht1) as (f2 & He & Ht2). exists f2. split; [done|].
  apply (assertion_exec A (Sync x) f1 h1 k1 f2 HA Ha1 Hx) in He. clear f h k f1 Ha Ht HV HQ Ht1 Ha1.
  (* the rename *)
  split; [exact (a_Q A HA _ _ _ He)|]. intros f h k HV HQ.
  pose proof (tmp_synced_var x _ _ _ _ _ _ _ Hx (a_Q A HA _ _ _ He) HV Ht2) as (i & Hd & Hi).
  pose proof (a_var A HA _ _ _ _ _ _ He HV HQ) as Ha.
  assert (exec (Rename x y) f = Some (set_dir (<[y := i]> (delete x (dir f))) f)) as Hex
    by (cbn [exec]; by rewrite Hd).
  eexists. split; [exact Hex|]. assert (A' (set_dir (<[y := i]> (delete x (dir f))) f) h k) as Ha'.
  { apply Hren; [done..|]. eapply wf_exec; [exact (env_wf _ _ _ E _ _ _ HQ)| |exact Hex]. done. }
  (* the directory sync *)
  eapply safe_cons; [exact HA'|exact Ha'|]. intros f3 h3 k3 Ha3. eexists. split; [done|].
  apply Hrest; [|done]. by apply (assertion_exec A' SyncDir f3 h3 k3 _ HA' Ha3).
Qed.

End Safe.

End JournalSafe.
