(* ===== verification/JournalStates.v ===== *)
(** The states of a journal stream's directory between two file system calls: never
    published, recoverable, up. A failure of the process or of the machine takes any of them
    to one that recovery accepts, and temporary files do not matter to any of them. *)

From stdpp Require Import gmap.
From S2P Require Import Prelude External JournalFrame JournalReplay JournalCurrent JournalFs.
From S2P Require Import JournalDisk JournalLog JournalInv JournalSafe.

Module JournalStates.
Import JournalFrame JournalCurrent JournalFs JournalDisk JournalLog JournalInv JournalSafe.

Section States.
Context `{Xxh3} `{Machine} `{same : !Sim} (m0 : MState).

Abbreviation holds := (JournalInv.holds m0).

(** ** The directory states a crash may leave *)

(** A stream that was never published. *)
Definition blank (d : Dir) (h : history) : Prop := d !! CURRENT = None /\ h = [].

Definition all_blank (f : Fs) (h : history) : Prop := fs_wf f /\ forall d, d ∈ dirs f -> blank d h.

(** The current directory is recoverable with [il] as its open log, and so are the older
    ones, where that log may not be in use yet. *)
Definition recoverable (il al : nat) (c : Current) (f : Fs) (h : history) (k : nat) : Prop :=
  fs_wf f /\
  (forall d, d ∈ dirs f -> blank d h \/ exists c', holds true (inodes f) d il al h k c') /\
  holds false (inodes f) (dir f) il al h k c.

Definition crash_ok (f : Fs) (h : history) (k : nat) : Prop :=
  all_blank f h \/ exists il al c, recoverable il al c f h k.

(** The open log holds the whole history after [al], all of it written. *)
Definition active (il al : nat) (f : Fs) (h : history) : Prop :=
  exists lo, inodes f !! il = Some (mkInode (framed al (drop al h)) (Some (lo, framed al (drop al h)))).

(** While the stream is up every directory state has the same open log, of generation [gl]. *)
Definition up_ok (il al : nat) (gl : Z) (f : Fs) (h : history) (k : nat) : Prop :=
  fs_wf f /\ (forall d, d ∈ dirs f -> exists c, holds false (inodes f) d il al h k c) /\
  active il al f h /\ dir f !! Log gl = Some il.

(** [c] is the recovery set in the directory. *)
Definition set_is (il al : nat) (gl : Z) (c : Current) (f : Fs) (h : history) (k : nat) : Prop :=
  up_ok il al gl f h k /\ holds false (inodes f) (dir f) il al h k c.

Definition Var_eq (f : Fs) (h : history) (k : nat) (f' : Fs) (h' : history) (k' : nat) : Prop :=
  f' = f /\ h' = h /\ k' = k.

(** The log may be appended to and synced. *)
Definition Var_up (il : nat) (f : Fs) (h : history) (k : nat) (f' : Fs) (h' : history) (k' : nat) : Prop :=
  dir f' = dir f /\ older f' = older f /\ (forall i, i <> il -> inodes f' !! i = inodes f !! i) /\
  h `prefix_of` h'.

(** *** Temporary files do not matter *)

Lemma holds_tmp cl (f f' : Fs) d d0 il al h k c :
  (forall x, is_tmp x = false -> d !! x = d0 !! x /\
    forall i, d0 !! x = Some i -> inodes f' !! i = inodes f !! i) ->
  holds cl (inodes f) d0 il al h k c -> holds cl (inodes f') d il al h k c.
Proof.
  intros Hd Hh. apply (holds_dir m0 cl _ d0).
  - intros x Hx. apply Hd. by eapply in_set_perm.
  - eapply holds_inodes; [|exact Hh]. intros x i Hx Ht. by apply (proj2 (Hd x Ht)).
Qed.

Lemma all_blank_tmp f f' h : all_blank f h -> fs_wf f' -> tmp_only f f' -> all_blank f' h.
Proof.
  intros [_ Hb] Hwf [_ Hd]. split; [done|]. intros d (d0 & Hin & Hx)%Hd. destruct (Hb d0 Hin) as [Hc ->].
  split; [|done]. by rewrite (proj1 (Hx CURRENT eq_refl)).
Qed.

Lemma recoverable_tmp il al c f f' h k :
  recoverable il al c f h k -> fs_wf f' -> tmp_only f f' -> recoverable il al c f' h k.
Proof.
  intros (_ & Hd & Hc) Hwf [Hs Ht]. unfold recoverable. splits; [done| |by eapply holds_tmp].
  intros d (d0 & Hin & Hx)%Ht. destruct (Hd d0 Hin) as [[Hb ->]|[c' Hc']].
  - left. split; [|done]. by rewrite (proj1 (Hx CURRENT eq_refl)).
  - right. exists c'. by eapply holds_tmp.
Qed.

Lemma crash_ok_tmp f h k f' : crash_ok f h k -> fs_wf f' -> tmp_only f f' -> crash_ok f' h k.
Proof.
  intros [Ha|(il & al & c & Hr)] Hwf Ht; [left; by eapply all_blank_tmp|right].
  exists il, al, c. by eapply recoverable_tmp.
Qed.

Lemma up_ok_tmp il al gl f h k f' : up_ok il al gl f h k -> fs_wf f' -> tmp_only f f' -> up_ok il al gl f' h k.
Proof.
  intros (_ & Hd & [lo Ha] & Hl) Hwf [Hs Ht]. destruct (Hs (Log gl) eq_refl) as [Hl' Hi]. unfold up_ok. splits; [done| | |].
  - intros d (d0 & Hin & Hx)%Ht. destruct (Hd d0 Hin) as [c' Hc']. exists c'. by eapply holds_tmp.
  - exists lo. by rewrite Hi.
  - by rewrite Hl'.
Qed.

Lemma set_is_tmp il al gl c f h k f' :
  set_is il al gl c f h k -> fs_wf f' -> tmp_only f f' -> set_is il al gl c f' h k.
Proof.
  intros [Hu Hc] Hwf Ht. split; [by eapply up_ok_tmp|]. destruct Ht as [Hs _]. by eapply holds_tmp.
Qed.

Lemma crash_ok_wf f h k : crash_ok f h k -> fs_wf f.
Proof. by intros [[? _]|(il & al & c & ? & _)]. Qed.

Lemma up_ok_wf il al gl f h k : up_ok il al gl f h k -> fs_wf f.
Proof. by intros [? _]. Qed.

Lemma up_ok_vol il al gl f h k x i :
  up_ok il al gl f h k -> is_tmp x = true -> dir f !! x = Some i -> i <> il.
Proof.
  intros (Hwf & _ & _ & Hl) Hx Hi ->. by eapply (wf_private f Hwf x il (dir f) (Log gl)); [..|left| |].
Qed.

Lemma set_is_recoverable il al gl c f h k : set_is il al gl c f h k -> recoverable il al c f h k.
Proof.
  intros [(Hwf & Hd & _) Hc]. unfold recoverable. splits; [done| |done]. intros d Hin. right.
  destruct (Hd d Hin) as [c' Hc']. exists c'. by apply holds_weaken.
Qed.

Lemma up_ok_crash_ok il al gl f h k : up_ok il al gl f h k -> crash_ok f h k.
Proof.
  intros Hu. destruct (proj1 (proj2 Hu) (dir f) ltac:(left)) as [c Hc].
  right. exists il, al, c. by eapply set_is_recoverable.
Qed.

(** The directory names one recovery set. *)
Lemma holds_same cl cl' I d il il' al al' h h' k k' c c' :
  holds cl I d il al h k c -> holds cl' I d il' al' h' k' c' -> c' = c.
Proof.
  intros [Hok (b & He & (i & Hd & _ & Hi)) _ _ _ _ _] [Hok' (b' & He' & (i' & Hd' & _ & Hi')) _ _ _ _ _].
  rewrite Hd in Hd'. injection Hd' as <-. rewrite Hi in Hi'. injection Hi' as <-.
  apply (decode_complete b c) in He; [|done]. apply (decode_complete b c') in He'; [|done]. congruence.
Qed.

(** ** Failures *)

(** After a failure the open log ends where it was read to end. *)
Definition tail_closed (il : nat) (f : Fs) : Prop :=
  exists b lo, inodes f !! il = Some (mkInode b (Some (lo, b))).

Definition down_ok (f : Fs) (h : history) (k : nat) : Prop :=
  all_blank f h \/ exists il al c, recoverable il al c f h k /\ tail_closed il f.

Lemma tail_closed_failed (f f' : Fs) d il al h k c :
  (forall i, option_Forall2 failed (inodes f !! i) (inodes f' !! i)) ->
  holds false (inodes f) d il al h k c -> tail_closed il f'.
Proof.
  intros Hf [Hok _ _ _ _ _ Hch].
  destruct (chain_last _ _ _ _ _ _ _ _ _ Hch (last_log_Some c Hok)) as [_ (_ & _ & b & lo & hi & Hi & _)].
  specialize (Hf il). rewrite Hi in Hf. inversion Hf as [? [b' bd] Hfail|]; subst.
  destruct (Hfail lo hi eq_refl) as (lo' & E & _). cbn in E. subst bd. by exists b', lo'.
Qed.

Lemma kill_down f f' h k : crash_ok f h k -> kill f f' -> down_ok f' h k.
Proof.
  intros Hc Hk. pose proof (wf_kill f f' (crash_ok_wf _ _ _ Hc) Hk) as Hwf.
  destruct Hk as (Hd & Ho & _ & Hi). assert (dirs f' = dirs f) as Hdirs by (unfold dirs; by rewrite Hd, Ho).
  assert (forall i, option_Forall2 failed (inodes f !! i) (inodes f' !! i)) as Hf.
  { intros i. destruct (Hi i); constructor. by apply killed_failed. }
  destruct Hc as [[_ Hb]|(il & al & c & _ & Hds & Hc)].
  - left. split; [done|]. by rewrite Hdirs.
  - right. exists il, al, c. split; [|by eapply tail_closed_failed]. unfold recoverable. rewrite Hdirs, Hd.
    splits; [done| |by eapply holds_failed]. intros d Hin.
    destruct (Hds d Hin) as [Hb|[c' Hc']]; [by left|right]. exists c'. by eapply holds_failed.
Qed.

Lemma power_loss_down f f' h k : crash_ok f h k -> power_loss f f' -> down_ok f' h k.
Proof.
  intros Hc Hp. pose proof (wf_power_loss f f' (crash_ok_wf _ _ _ Hc) Hp) as Hwf.
  destruct Hp as (Hd & Ho & _ & Hi). assert (dirs f' = [dir f']) as Hdirs by (unfold dirs; by rewrite Ho).
  assert (forall i, option_Forall2 failed (inodes f !! i) (inodes f' !! i)) as Hf.
  { intros i. destruct (Hi i); constructor. by apply lost_failed. }
  assert (blank (dir f') h \/ exists il al c, holds true (inodes f) (dir f') il al h k c) as [Hb|(il & al & c & Hc')].
  { destruct Hc as [[_ Hb]|(il & al & c & _ & Hds & _)]; [left; by apply Hb|].
    destruct (Hds _ Hd) as [|[c' ?]]; [by left|right; eauto]. }
  - left. split; [done|]. rewrite Hdirs. by intros d ->%list_elem_of_singleton.
  - apply holds_reopen in Hc' as (il' & al' & Hc'').
    + right. exists il', al', c. split; [|by eapply tail_closed_failed].
      apply (holds_failed m0 _ _ _ _ _ _ _ _ _ Hf) in Hc''. unfold recoverable. rewrite Hdirs.
      splits; [done| |done]. intros d ->%list_elem_of_singleton. right. exists c. by apply holds_weaken.
    + intros x y i. apply (wf_inj f (crash_ok_wf _ _ _ Hc) (dir f') x y i Hd).
Qed.

(** ** Environments *)

Lemma env_eq : environment crash_ok Var_eq (fun _ => False).
Proof.
  split; [done| |by intros f h k f' h' k' (-> & -> & ->)|apply crash_ok_wf|intros f h k x i _ _ _ []].
  by intros f h k f1 h1 k1 f2 h2 k2 (-> & -> & ->) (-> & -> & ->).
Qed.

Lemma assertion_eq (A : Fs -> history -> nat -> Prop) :
  (forall f h k, A f h k -> crash_ok f h k) ->
  (forall f h k f', A f h k -> fs_wf f' -> tmp_only f f' -> A f' h k) ->
  assertion crash_ok Var_eq A.
Proof. intros H1 H2. split; [done| |done]. by intros f h k f' h' k' Ha (-> & -> & ->) _. Qed.

Lemma env_up il al gl : environment (up_ok il al gl) (Var_up il) (fun i => i = il).
Proof.
  split.
  - intros f h k. unfold Var_up. done.
  - intros f h k f1 h1 k1 f2 h2 k2 (Hd & Ho & Hi & Hh) (Hd' & Ho' & Hi' & Hh'). unfold Var_up.
    splits; [congruence|congruence| |by etrans]. intros i Hne. by rewrite Hi', Hi.
  - by intros f h k f' h' k' (? & ? & Hi & _).
  - apply up_ok_wf.
  - intros f h k x i. apply up_ok_vol.
Qed.

Lemma set_is_assertion il al gl c : assertion (up_ok il al gl) (Var_up il) (set_is il al gl c).
Proof.
  split.
  - by intros f h k [? _].
  - intros f h k f' h' k' [_ Hc] (Hd & Ho & Hi & Hh) Hu. split; [done|].
    destruct (proj1 (proj2 Hu) (dir f') ltac:(left)) as [c' Hc'].
    assert (c' = c) as ->; [|done]. destruct Hc as [Hok (b & He & (i & Hx & Hne & Hs)) _ _ _ _ _].
    destruct Hc' as [Hok' (b' & He' & (i' & Hx' & Hne' & Hs')) _ _ _ _ _].
    rewrite Hd, Hx in Hx'. injection Hx' as <-. rewrite Hi, Hs in Hs' by done. injection Hs' as <-.
    apply (decode_complete b c) in He; [|done]. apply (decode_complete b c') in He'; [|done]. congruence.
  - intros f h k f'. apply set_is_tmp.
Qed.

(** ** Generations *)

Lemma gap_seqZ a n : 0 <= a -> a + Z.of_nat n <= 2 ^ 64 -> gap (seqZ a (Z.of_nat n)) = false.
Proof.
  revert a. induction n as [|n IH]; intros a Ha Hn; [done|].
  rewrite seqZ_cons by lia. replace (Z.pred (Z.of_nat (S n))) with (Z.of_nat n) by lia.
  specialize (IH (Z.succ a) ltac:(lia) ltac:(lia)). destruct n as [|n]; [done|].
  rewrite seqZ_cons in * by lia. cbn [gap]. rewrite wrap_small by (unfold is_u; lia).
  replace (a + 1) with (Z.succ a) by lia. by rewrite Z.eqb_refl.
Qed.

Lemma seqZ_snoc a n : seqZ a (Z.of_nat n) ++ [a + Z.of_nat n] = seqZ a (Z.of_nat (S n)).
Proof. by rewrite seqZ_S. Qed.

Lemma last_log_seqZ c :
  current_ok c -> logs c = seqZ (snapshot c) (Z.of_nat (length (logs c))) ->
  last_log c = snapshot c + Z.of_nat (length (logs c)) - 1.
Proof.
  intros Hok Hl. pose proof (last_log_Some c Hok) as Hlast. pose proof (logs_nonempty c Hok) as Hne.
  destruct (length (logs c)) as [|n] eqn:E; [by apply nil_length_inv in E|].
  rewrite Hl, seqZ_S, last_snoc in Hlast. injection Hlast. lia.
Qed.

Lemma holds_log_name cl I d il al h k c :
  holds cl I d il al h k c -> cl = false -> d !! Log (last_log c) = Some il.
Proof.
  intros [Hok _ _ _ _ _ Hch] ->. by destruct (chain_last _ _ _ _ _ _ _ _ _ Hch (last_log_Some c Hok)).
Qed.

End States.

End JournalStates.
