(* ===== verification/JournalMaint.v ===== *)
(** The maintenance programs of disk.rs keep a stream recoverable at every system call:
    rotation of the log, which nothing overlaps, and the writing and the publication of a
    snapshot, which appends and syncs of the log overlap. *)

From stdpp Require Import gmap.
From S2P Require Import Prelude External JournalFrame JournalReplay JournalCurrent JournalFs.
From S2P Require Import JournalDisk JournalLog JournalInv JournalSafe JournalStates.

Module JournalMaint.
Import JournalFrame JournalCurrent JournalFs JournalDisk JournalLog JournalInv JournalSafe JournalStates.

Section Maint.
Context `{Xxh3} `{Machine} `{same : !Sim} (m0 : MState).

Abbreviation holds := (JournalInv.holds m0).
Abbreviation crash_ok := (JournalStates.crash_ok m0).
Abbreviation recoverable := (JournalStates.recoverable m0).
Abbreviation up_ok := (JournalStates.up_ok m0).
Abbreviation set_is := (JournalStates.set_is m0).

(** What rotation publishes. *)
Definition rotated (c : Current) (g : Z) : Current :=
  mkCurrent (snapshot c) (lsn c) (bytes c) (records c) (logs c ++ [g]) (garbage c) g.

Lemma rotated_ok c b :
  current_ok c -> logs c = seqZ (snapshot c) (Z.of_nat (length (logs c))) -> garbage c = [] ->
  last_log c + 1 < 2 ^ 64 -> encode (rotated c (last_log c + 1)) = Ok b ->
  current_ok (rotated c (last_log c + 1)) /\
  logs c ++ [last_log c + 1] = seqZ (snapshot c) (Z.of_nat (length (logs c ++ [last_log c + 1]))) /\
  snapshot c < last_log c + 1.
Proof.
  intros Hok Hl Hg Hlt He. pose proof (last_log_seqZ c Hok Hl) as Hlast.
  pose proof (logs_nonempty c Hok) as Hne. set (n := length (logs c)) in *.
  assert (0 < Z.of_nat n) by (destruct (logs c); [done|simpl in *; unfold n; simpl; lia]).
  unfold encode in He. cbn [logs garbage rotated] in He. rewrite length_app, Hg in He. cbn [length] in He. fold n in He.
  destruct (Z.ltb_spec MAX_GENERATIONS (Z.of_nat (n + 1))) as [|Hmax]; [done|]. clear He.
  assert (logs c ++ [last_log c + 1] = seqZ (snapshot c) (Z.of_nat (S n))) as Hseq.
  { rewrite <-seqZ_snoc, <-Hl. do 2 f_equal. lia. }
  destruct Hok as [Hw [Hu _] _ [Hs0 Hh] _ _ _]. rewrite !Forall_cons in Hw. destruct Hw as (Hws & Hwl & Hwb & Hwr & _).
  unfold is_u in Hws. splits; [| |lia].
  - split; cbn [snapshot lsn bytes records logs garbage pending rotated].
    + rewrite !Forall_cons. splits; try done; unfold is_u; lia.
    + rewrite length_app. cbn [length]. fold n. split; [|lia]. apply Forall_app. split; [done|].
      apply Forall_singleton. unfold is_u. lia.
    + rewrite Hg. cbn. unfold MAX_GENERATIONS. by split.
    + split; [done|]. by destruct (logs c).
    + rewrite Hseq. apply gap_seqZ; lia.
    + right. by rewrite last_snoc.
    + rewrite Hg. intros e He. by apply not_elem_of_nil in He.
  - rewrite length_app. cbn [length]. fold n. by rewrite Nat.add_1_r.
Qed.

(** ** Rotation *)

(** The old log is synced. *)
Definition rot (il al : nat) (c : Current) (f : Fs) (h : history) (k : nat) : Prop :=
  fs_wf f /\ (forall d, d ∈ dirs f -> holds false (inodes f) d il al h k c) /\
  inodes f !! il = Some (synced (framed al (drop al h))).

(** The new one has its name. *)
Definition rot_new (il al : nat) (c : Current) (g : Z) (f : Fs) (h : history) (k : nat) : Prop :=
  rot il al c f h k /\ exists j, dir f !! Log g = Some j /\ inodes f !! j = Some (synced []) /\
  forall d x, d ∈ dirs f -> is_tmp x = false -> d !! x = Some j -> x = Log g.

(** It is published. *)
Definition rot_done (c : Current) (f : Fs) (h : history) (k : nat) : Prop :=
  exists j, recoverable j (length h) c f h k /\ inodes f !! j = Some (synced []).

Lemma rot_crash_ok il al c f h k : rot il al c f h k -> crash_ok f h k.
Proof.
  intros (Hwf & Hd & _). right. exists il, al, c. unfold recoverable. splits; [done| |apply Hd; left].
  intros d Hin. right. exists c. by apply holds_weaken, Hd.
Qed.

Lemma rot_tmp il al c f h k f' : rot il al c f h k -> fs_wf f' -> tmp_only f f' -> rot il al c f' h k.
Proof.
  intros (_ & Hd & Hs) Hwf [Hp Ht]. unfold rot. splits; [done| |].
  - intros d (d0 & Hin & Hx)%Ht. eapply holds_tmp; [exact Hx|by apply Hd].
  - destruct (Hp (Log (last_log c)) eq_refl) as [_ Hi]. rewrite Hi; [done|].
    eapply holds_log_name; [apply Hd; by left|done].
Qed.

Lemma rot_new_tmp il al c g f h k f' :
  rot_new il al c g f h k -> fs_wf f' -> tmp_only f f' -> rot_new il al c g f' h k.
Proof.
  intros [Hr (j & Hj & Hs & Hu)] Hwf Ht. split; [by eapply rot_tmp|]. destruct Ht as [Hp Ht].
  destruct (Hp (Log g) eq_refl) as [Hg Hi]. exists j. rewrite Hg, (Hi j Hj). splits; try done.
  intros d x (d0 & Hin & Hx)%Ht Hxt Hdx. apply (Hu d0 x Hin Hxt). by rewrite <-(proj1 (Hx x Hxt)).
Qed.

Lemma rot_done_tmp c f h k f' : rot_done c f h k -> fs_wf f' -> tmp_only f f' -> rot_done c f' h k.
Proof.
  intros (j & Hr & Hj) Hwf Ht. exists j. split; [by eapply recoverable_tmp|].
  destruct Hr as (_ & _ & Hc). destruct Ht as [Hp _].
  destruct (Hp (Log (last_log c)) eq_refl) as [_ Hi]. rewrite Hi; [done|]. by eapply holds_log_name.
Qed.

(** *** The published directory *)

Lemma lookup_published x i (d : Dir) :
  is_tmp x = false -> x <> CURRENT -> (<[CURRENT := i]> (delete CURRENT_tmp d)) !! x = d !! x.
Proof. intros Hx Hne. rewrite lookup_insert_ne, lookup_delete_ne; [done| |done]. by intros <-. Qed.

Lemma published_current I il i b (d : Dir) :
  I !! i = Some (synced b) -> i <> il -> fixed I (<[CURRENT := i]> (delete CURRENT_tmp d)) il CURRENT b.
Proof. intros Hi Hne. exists i. by rewrite lookup_insert_eq. Qed.

Lemma chain_dir cl I d d' il al h k a gs :
  (forall g, g ∈ gs -> d' !! Log g = d !! Log g) ->
  chain cl I d il al h k a gs -> chain cl I d' il al h k a gs.
Proof.
  intros Hd. apply chain_map; [done|done| |].
  - intros g b Hg. apply fixed_dir. auto.
  - intros g Hg (Hx & ?). apply chain_open. split; [by rewrite Hd|done].
Qed.

Lemma publish_ops c : publish c =
  match encode c with
  | Ok b => (Create CURRENT_tmp :: writes CURRENT_tmp [b] 0 ++
              Sync CURRENT_tmp :: Rename CURRENT_tmp CURRENT :: SyncDir :: [], Ok tt)
  | Err e => ([Create CURRENT_tmp], Err e)
  end.
Proof. unfold publish. by destruct (encode c). Qed.

Lemma rotate_ops d : rotate d =
  let c := current d in
  match checked_add 64 (last_log c) 1 with
  | None => ([Sync (Log (last_log c))], Err (invalid "journal generation overflow"))
  | Some g =>
    let '(ops, r) := publish (rotated c g) in
    (Sync (Log (last_log c)) :: Create journal_tmp :: writes journal_tmp [] 0 ++
       Sync journal_tmp :: Rename journal_tmp (Log g) :: SyncDir :: ops,
     r ;; Ok (mkDisk (rotated c g) 0 (disk_lsn d)))
  end.
Proof.
  unfold rotate, sync. cbv zeta. destruct (checked_add 64 (last_log (current d)) 1) as [g|]; [|done].
  cbn. fold (rotated (current d) g). by destruct (encode (rotated (current d) g)).
Qed.

(** A closed directory becomes one with a new log when a new CURRENT says so. *)
Lemma rot_set I d d' j b h k c g :
  current_ok (rotated c g) ->
  logs c ++ [g] = seqZ (snapshot c) (Z.of_nat (length (logs c ++ [g]))) ->
  encode (rotated c g) = Ok b -> fixed I d' j CURRENT b ->
  pending (rotated c g) = 0 \/ pending (rotated c g) <> snapshot c ->
  (forall x, is_tmp x = false -> x <> CURRENT -> d' !! x = d !! x) ->
  holds true I d j (length h) h k c -> (k <= length h)%nat ->
  d !! Log g = Some j -> I !! j = Some (synced []) -> (forall g', g' ∈ logs c -> d !! Log g' <> Some j) ->
  holds false I d' j (length h) h k (rotated c g).
Proof.
  intros Hok Hl He Hcur Hpend Hd [_ _ _ _ (snaps & m & Hs & Hrest) Hlsn Hch] Hk Hj Hi Hfree.
  split; [done|by exists b|done|exact Hl| |done|].
  - exists snaps, m. split; [|done]. eapply fixed_dir; [|exact Hs]. by apply Hd.
  - apply (chain_dir _ _ d); [intros g' _; by apply Hd|]. apply chain_extend; [done|done|].
    split; [done|]. split; [done|]. exists [], [], []. rewrite drop_ge by done.
    rewrite framed_nil. splits; try done. unfold seg. rewrite drop_ge, take_nil, framed_nil by done. done.
Qed.

(** The directory the rename of CURRENT leads to. *)
Lemma rot_published il al c f h k i b :
  rot_new il al c (last_log c + 1) f h k -> hist_ok m0 h -> (k <= length h)%nat -> garbage c = [] ->
  last_log c + 1 < 2 ^ 64 -> encode (rotated c (last_log c + 1)) = Ok b ->
  dir f !! CURRENT_tmp = Some i -> inodes f !! i = Some (synced b) ->
  fs_wf (set_dir (<[CURRENT := i]> (delete CURRENT_tmp (dir f))) f) ->
  rot_done (rotated c (last_log c + 1)) (set_dir (<[CURRENT := i]> (delete CURRENT_tmp (dir f))) f) h k.
Proof.
  intros [(Hwf & Hd & Hil) (j & Hj & Hs & Hu)] Hh Hk Hg Hlt He Hi Hb Hwf'. exists j. split; [|done].
  pose proof (Hd (dir f) ltac:(left)) as Hc.
  destruct (rotated_ok c b (h_ok _ _ _ _ _ _ _ _ _ Hc) (h_logs _ _ _ _ _ _ _ _ _ Hc) Hg Hlt He) as (Hok & Hl & Hsn).
  set (g := last_log c + 1) in *.
  assert (g ∉ logs c) as Hgl.
  { pose proof (logs_nodup _ Hok) as Hnd. cbn in Hnd. apply NoDup_app in Hnd as (_ & Hx & _).
    intros Hin. apply (Hx g Hin). left. }
  assert (forall d x, d ∈ dirs f -> in_set c x -> d !! x <> Some j) as Hfree.
  { intros d x Hin Hx Hdx. specialize (Hu d x Hin (in_set_perm c x Hx) Hdx).
    destruct Hx as [->|[->|(g' & Hg' & ->)]]; try done. by injection Hu as ->. }
  assert (forall d, d ∈ dirs f -> holds true (inodes f) d j (length h) h k c) as Hclosed.
  { intros d Hin. eapply holds_close; [exact Hil|intros x; by apply Hfree|by apply Hd]. }
  set (d' := <[CURRENT := i]> (delete CURRENT_tmp (dir f))).
  assert (holds false (inodes f) d' j (length h) h k (rotated c g)) as Hnew.
  { apply (rot_set (inodes f) (dir f) d' j b); try done.
    - apply published_current; [done|]. intros ->.
      by assert (CURRENT_tmp = Log g) by by apply (wf_inj f Hwf (dir f) _ _ j); [left|..].
    - right. cbn. lia.
    - intros x Hx Hne. by apply lookup_published.
    - apply Hclosed. left.
    - intros g' Hg'. apply Hfree; [left|]. right. right. eauto. }
  unfold recoverable. splits; [done| |done].
  intros d [->|Hin]%elem_of_cons; right; [|exists c; by apply Hclosed].
  exists (rotated c g). by apply holds_weaken.
Qed.

Lemma assertion_at h k (A : Fs -> Prop) :
  (forall f, A f -> crash_ok f h k) -> (forall f f', A f -> fs_wf f' -> tmp_only f f' -> A f') ->
  assertion crash_ok Var_eq (fun f h' k' => A f /\ h' = h /\ k' = k).
Proof.
  intros HQ Ht. apply assertion_eq.
  - intros f h' k' (Ha & -> & ->). auto.
  - intros f h' k' f' (Ha & -> & ->) Hwf Htmp. split; [by eapply Ht|done].
Qed.

Lemma rot_assertion il al c h k : assertion crash_ok Var_eq (fun f h' k' => rot il al c f h k /\ h' = h /\ k' = k).
Proof. apply assertion_at; intros; [by eapply rot_crash_ok|by eapply rot_tmp]. Qed.

Lemma rot_new_assertion il al c g h k :
  assertion crash_ok Var_eq (fun f h' k' => rot_new il al c g f h k /\ h' = h /\ k' = k).
Proof. apply assertion_at; intros f; [|intros; by eapply rot_new_tmp]. intros [Hr _]. by eapply rot_crash_ok. Qed.

Lemma rot_done_assertion c h k :
  assertion crash_ok Var_eq (fun f h' k' => rot_done c f h k /\ h' = h /\ k' = k).
Proof.
  apply assertion_at; intros f; [|intros; by eapply rot_done_tmp]. intros (j & Hr & _).
  right. exists j, (length h), c. done.
Qed.

Lemma last_log_rotated c g : last_log (rotated c g) = g.
Proof. unfold last_log. cbn. by rewrite last_snoc. Qed.

(** A program that ends in a failure before the rename. *)
Lemma safe_failed Q Var vol A Post x f h k :
  environment Q Var vol -> assertion Q Var A -> is_tmp x = true ->
  (forall f h k, A f h k -> Post f h k) -> A f h k -> safe Q Var Post [Create x] f h k.
Proof.
  intros E HA Hx HP Ha. eapply safe_cons; [exact HA|exact Ha|]. intros f1 h1 k1 Ha1.
  destruct (exec_create x f1) as (f2 & He & _); [apply (env_wf _ _ _ E f1 h1 k1), (a_Q _ _ _ HA _ _ _ Ha1)|].
  exists f2. split; [done|]. eapply safe_nil; [exact HA|exact HP|].
  by apply (assertion_exec Q Var vol E A (Create x) f1).
Qed.

(** The sync that rotation starts with. *)
Lemma rot_synced il al gl c f h k :
  (al <= length h)%nat -> older f = [] -> set_is il al gl c f h k ->
  exists f', exec (Sync (Log (last_log c))) f = Some f' /\ rot il al c f' h k.
Proof.
  intros Hal Ho [(Hwf & _ & [lo Ha] & _) Hc]. pose proof (holds_log_name _ _ _ _ _ _ _ _ _ Hc eq_refl) as Hn.
  assert (exec (Sync (Log (last_log c))) f = Some (mkFs (dir f) (older f)
    (<[il := synced (framed al (drop al h))]> (inodes f)) (fresh f))) as He.
  { cbn [exec]. unfold on_file. by rewrite Hn, Ha. }
  eexists. split; [exact He|]. apply wf_exec in He; [|done|done].
  unfold rot. cbn [inodes]. rewrite lookup_insert_eq. splits; [done| |done].
  unfold dirs. cbn [dir older]. rewrite Ho. intros d ->%list_elem_of_singleton. eapply (holds_log m0); [done|done| | |exact Hc].
  - intros i Hne. by rewrite lookup_insert_ne.
  - intros g (Hg & _ & c1 & lo1 & hi1 & _). split; [done|]. split; [done|].
    exists (framed al (drop al h)), (framed al (drop al h)), (framed al (drop al h)).
    rewrite lookup_insert_eq. splits; try done. apply framed_prefix, prefix_take.
Qed.

(** The rename of the new log. *)
Lemma rot_renamed il al c g f h k j :
  rot il al c f h k -> g ∉ logs c -> dir f !! journal_tmp = Some j -> inodes f !! j = Some (synced []) ->
  fs_wf (set_dir (<[Log g := j]> (delete journal_tmp (dir f))) f) ->
  rot_new il al c g (set_dir (<[Log g := j]> (delete journal_tmp (dir f))) f) h k.
Proof.
  intros (Hwf & Hd & Hil) Hg Hj Hi Hwf'. split; [unfold rot; splits; [done| |done]|exists j; splits].
  - intros d [->|Hin]%elem_of_cons; [|by apply Hd]. apply (holds_dir m0 _ _ (dir f)); [|apply Hd; left].
    intros x Hx. cbn [dir set_dir]. rewrite lookup_insert_ne, lookup_delete_ne; [done| |].
    + intros <-. by apply in_set_perm in Hx.
    + intros <-. destruct Hx as [?|[?|(g' & Hg' & E)]]; [done|done|]. by injection E as ->.
  - cbn [dir set_dir]. by rewrite lookup_insert_eq.
  - done.
  - intros d x [->|Hin]%elem_of_cons Hx Hdx; [|by destruct (wf_private f Hwf journal_tmp j d x)].
    cbn [dir set_dir] in Hdx. apply lookup_insert_Some in Hdx as [[<- _]|[_ Hdx]]; [done|]. apply lookup_delete_Some in Hdx as [_ Hdx].
    by destruct (wf_private f Hwf journal_tmp j (dir f) x); [..|left| |].
Qed.

(** Where a completed rotation leaves the stream. *)
Definition rotate_post (d : Disk) (h : history) (k : nat) (r : result io_error Disk) (f : Fs) (h' : history) (k' : nat) : Prop :=
  h' = h /\ k' = k /\
  match r with
  | Err _ => True
  | Ok d' => d' = mkDisk (rotated (current d) (last_log (current d) + 1)) 0 (disk_lsn d) /\ older f = [] /\
    exists il, set_is il (length h) (last_log (current d) + 1) (current d') f h k
  end.

Lemma rot_done_up c f h k :
  rot_done c f h k -> older f = [] -> exists il, set_is il (length h) (last_log c) c f h k.
Proof.
  intros (j & (Hwf & _ & Hc) & Hj) Ho. exists j. split; [|done]. unfold up_ok, dirs. rewrite Ho. splits.
  - done.
  - intros d ->%list_elem_of_singleton. by exists c.
  - exists []. by rewrite drop_ge, framed_nil by done.
  - by eapply holds_log_name.
Qed.

Lemma rotate_safe d il al gl f h k ops r :
  hist_ok m0 h -> (k <= length h)%nat -> (al <= length h)%nat -> garbage (current d) = [] -> older f = [] ->
  set_is il al gl (current d) f h k -> rotate d = (ops, r) ->
  safe crash_ok Var_eq (rotate_post d h k r) ops f h k.
Proof.
  intros Hh Hk Hal Hg Ho Hs. rewrite rotate_ops. cbv zeta. set (c := current d).
  pose proof (proj2 Hs) as Hc. fold c in Hc. destruct Hc as [Hok _ _ Hl _ _ _].
  pose proof (last_log_seqZ c Hok Hl) as Hlast.
  destruct (rot_synced il al gl c f h k Hal Ho Hs) as (f1 & Hex & Hr).
  assert (forall Post rest, safe crash_ok Var_eq Post rest f1 h k ->
    safe crash_ok Var_eq Post (Sync (Log (last_log c)) :: rest) f h k) as Hsync.
  { intros Post rest Hrest. split; [by eapply up_ok_crash_ok, Hs|]. intros f' h' k' (-> & -> & ->) _. eauto. }
  destruct (checked_add 64 (last_log c) 1) as [g|] eqn:Hadd.
  2:{ intros [= <- <-]. apply Hsync. eapply safe_nil; [apply (rot_assertion il al c h k)| |done].
      intros f' h' k' (_ & -> & ->). unfold rotate_post. done. }
  assert (g = last_log c + 1 /\ last_log c + 1 < 2 ^ 64) as [-> Hlt].
  { unfold checked_add in Hadd. destruct (Z.ltb_spec (last_log c + 1) (2 ^ 64)); [|done]. by injection Hadd as <-. }
  assert (last_log c + 1 ∉ logs c) as Hnin by (rewrite Hl, elem_of_seqZ; lia).
  destruct (publish (rotated c (last_log c + 1))) as [pops pr] eqn:Hpub. intros [= <- <-].
  apply Hsync. eapply (safe_file crash_ok Var_eq _ (env_eq m0) _ _ _ journal_tmp (Log (last_log c + 1)) []);
    [apply (rot_assertion il al c h k)|apply (rot_new_assertion il al c (last_log c + 1) h k)|done|done| | |done].
  { intros f' h' k' j (Ha & -> & ->) Hj Hi Hwf. split; [by apply rot_renamed|done]. }
  intros f' h' k' (Ha & -> & ->) _. rewrite publish_ops in Hpub.
  destruct (encode (rotated c (last_log c + 1))) as [b|e] eqn:He; injection Hpub as <- <-.
  2:{ eapply safe_failed; [apply env_eq|apply (rot_new_assertion il al c (last_log c + 1) h k)|done| |done].
      intros f2 h2 k2 (_ & -> & ->). unfold rotate_post. done. }
  eapply (safe_file crash_ok Var_eq _ (env_eq m0) _ _ _ CURRENT_tmp CURRENT [b]);
    [apply (rot_new_assertion il al c (last_log c + 1) h k)
    |apply (rot_done_assertion (rotated c (last_log c + 1)) h k)|done|done| | |done].
  - intros f2 h2 k2 i (Ha2 & -> & ->) Hi Hb Hwf. cbn [concat] in Hb. rewrite app_nil_r in Hb. split; [|done].
    by apply (rot_published il al c f2 h k i b).
  - intros f2 h2 k2 (Ha2 & -> & ->) Ho2. split.
    { by eapply (a_Q _ _ _ (rot_done_assertion _ h k)). }
    intros f3 h3 k3 (-> & -> & ->) _. unfold rotate_post. splits; try done.
    apply rot_done_up in Ha2; [|done]. cbn [current]. by rewrite last_log_rotated in Ha2.
Qed.

(** ** Writing a snapshot *)

Lemma chunk_writes_writes cs off : chunk_writes cs off = writes snapshot_tmp cs off.
Proof. revert off. induction cs as [|c cs IH]; intros off; cbn [chunk_writes writes]; [done|]. by rewrite IH. Qed.

Lemma write_snapshot_ops g l items ops r :
  write_snapshot g l items = (ops, r) ->
  (exists cs e, r = Err e /\ ops = Create snapshot_tmp :: writes snapshot_tmp cs 0) \/
  (exists cs snaps, items = Ok <$> snaps /\ Forall small snaps /\ concat cs = framed 0 snaps /\
    cs = (encode_chunks items 0 []).1 /\
    r = Ok (mkSnapshot g l (blen (framed 0 snaps)) (Z.of_nat (length snaps))) /\
    ops = Create snapshot_tmp :: writes snapshot_tmp cs 0 ++
      Sync snapshot_tmp :: Rename snapshot_tmp (Snap g) :: SyncDir :: []).
Proof.
  unfold write_snapshot. destruct (encode_chunks items 0 []) as [cs [[]|e]] eqn:E.
  - destruct (encode_chunks_ok items 0 [] cs) as (snaps & ns & -> & Hsm & Hc & Hns & Hsum);
      [by rewrite framed_nil|constructor|]. cbn [app length plus] in Hc, Hsum.
    rewrite (write_chunks_ok cs ns) by done. cbn. rewrite chunk_writes_writes, Hc, Hsum. intros [= <- <-].
    right. by exists cs, snaps.
  - destruct (write_chunks cs 0 0) as [wops wr] eqn:Hw. pose proof Hw as (cs' & _ & ->)%write_chunks_ops.
    rewrite chunk_writes_writes. destruct wr as [[len recs]|e']; cbn; intros [= <- <-]; left; exists cs'.
    + exists e. by rewrite !app_nil_r.
    + by exists e'.
Qed.

(** The snapshot has its name, and restores the state the open log continues from. *)
Definition snapped (il al : nat) (gl : Z) (c : Current) (snaps : list (list byte)) (m : MState)
    (f : Fs) (h : history) (k : nat) : Prop :=
  set_is il al gl c f h k /\ fixed (inodes f) (dir f) il (Snap gl) (framed 0 snaps) /\
  (al <= length h)%nat /\ runs m0 (take al h) m.

(** The state the open log continues from. *)
Definition base_is (il al : nat) (gl : Z) (c : Current) (m : MState) (f : Fs) (h : history) (k : nat) : Prop :=
  set_is il al gl c f h k /\ (al <= length h)%nat /\ runs m0 (take al h) m.

Lemma base_is_assertion il al gl c m : assertion (up_ok il al gl) (Var_up il) (base_is il al gl c m).
Proof.
  pose proof (set_is_assertion m0 il al gl c) as [HQ HV HT]. split.
  - intros f h k [Hs _]. by apply HQ.
  - intros f h k f' h' k' (Hs & Hal & Hr) Hv HQ'. split; [by eapply HV|].
    destruct Hv as (_ & _ & _ & [t ->]). rewrite length_app, take_app_le by done. split; [lia|done].
  - intros f h k f' (Hs & Hr) Hwf Ht. split; [by eapply HT|done].
Qed.

Lemma snapped_assertion il al gl c snaps m :
  assertion (up_ok il al gl) (Var_up il) (snapped il al gl c snaps m).
Proof.
  pose proof (base_is_assertion il al gl c m) as [HQ HV HT].
  assert (forall f h k, snapped il al gl c snaps m f h k -> base_is il al gl c m f h k) as Hb
    by (intros f h k (? & _ & ?); by split).
  split.
  - intros f h k Hs. by apply HQ, Hb.
  - intros f h k f' h' k' Hs Hv HQ'. destruct (HV _ _ _ _ _ _ (Hb _ _ _ Hs) Hv HQ') as [? ?]. split; [done|].
    split; [|done]. destruct Hs as (_ & (i & Hd & Hne & Hi) & _). destruct Hv as (Hd' & _ & Hi' & _).
    exists i. by rewrite Hd', Hi'.
  - intros f h k f' Hs Hwf Ht. destruct (HT _ _ _ f' (Hb _ _ _ Hs) Hwf Ht) as [? ?]. split; [done|].
    split; [|done]. destruct Hs as (_ & (i & Hd & Hne & Hi) & _). destruct Ht as [Hp _].
    destruct (Hp (Snap gl) eq_refl) as [Hd' Hi']. exists i. by rewrite Hd', Hi'.
Qed.

(** A directory update that keeps the stream up. *)
Lemma set_is_set_dir il al gl c' d' f h k :
  up_ok il al gl f h k -> holds false (inodes f) d' il al h k c' -> d' !! Log gl = Some il ->
  fs_wf (set_dir d' f) -> set_is il al gl c' (set_dir d' f) h k.
Proof.
  intros (_ & Hd & Ha & _) Hc Hl Hwf. split; [|done]. unfold up_ok. splits; try done.
  intros d [->|Hin]%elem_of_cons; [by exists c'|by apply Hd].
Qed.

(** Where a completed snapshot leaves the stream. *)
Definition snapshot_post (il al : nat) (c : Current) (r : result io_error Snapshot)
    (f : Fs) (h : history) (k : nat) : Prop :=
  match r with
  | Err _ => True
  | Ok s => older f = [] /\ exists snaps m, snapped il al (last_log c) c snaps m f h k /\
    restore_all m0 snaps = Ok m /\ Forall small snaps /\ blen (framed 0 snaps) < 2 ^ 64 /\
    s = mkSnapshot (last_log c) (Z.of_nat al) (blen (framed 0 snaps)) (Z.of_nat (length snaps))
  end.

Lemma snap_renamed il al gl c snaps m m' f h k i :
  base_is il al gl c m f h k -> (forall s, sim m s -> sim m' s) -> gl <> snapshot c -> dir f !! snapshot_tmp = Some i ->
  inodes f !! i = Some (synced (framed 0 snaps)) ->
  fs_wf (set_dir (<[Snap gl := i]> (delete snapshot_tmp (dir f))) f) ->
  snapped il al gl c snaps m' (set_dir (<[Snap gl := i]> (delete snapshot_tmp (dir f))) f) h k.
Proof.
  intros (Hs & Hal & (s & Hr & Hsim)) Hms Hne Hi Hb Hwf'. assert (runs m0 (take al h) m') as Hr' by (exists s; auto). pose proof Hs as [(Hwf & Hd & Ha & Hl) Hc].
  set (d' := <[Snap gl := i]> (delete snapshot_tmp (dir f))) in *.
  assert (holds false (inodes f) d' il al h k c) as Hc'.
  { apply (holds_dir m0 _ _ (dir f)); [|done]. intros x Hx. unfold d'.
    rewrite lookup_insert_ne, lookup_delete_ne; [done| |].
    - intros <-. by apply in_set_perm in Hx.
    - intros <-. destruct Hx as [?|[E|(g' & _ & E)]]; [done| |done]. by injection E. }
  split; [|split; [|done]].
  - eapply set_is_set_dir; [apply Hs|done| |done]. unfold d'. by rewrite lookup_insert_ne, lookup_delete_ne.
  - exists i. cbn [dir set_dir]. unfold d'. rewrite lookup_insert_eq. splits; try done.
    by apply (up_ok_vol m0 il al gl f h k snapshot_tmp).
Qed.

Lemma snapshot_safe `{!MachineLaws m0} il al c m items f h k ops r :
  base_is il al (last_log c) c m f h k -> last_log c <> snapshot c ->
  m_snapshot m = Ok items -> items_fit items ->
  write_snapshot (last_log c) (Z.of_nat al) items = (ops, r) ->
  safe (up_ok il al (last_log c)) (Var_up il) (snapshot_post il al c r) ops f h k.
Proof.
  intros Hb Hne Hm Hfit Hw. pose proof (env_up m0 il al (last_log c)) as E.
  pose proof (base_is_assertion il al (last_log c) c m) as HA.
  destruct (write_snapshot_ops _ _ _ _ _ Hw) as
    [(cs & e & -> & ->)|(cs & snaps & -> & Hsm & Hcs & Ecs & -> & ->)].
  - eapply safe_cons; [exact HA|exact Hb|]. intros f1 h1 k1 Hb1.
    destruct (exec_create snapshot_tmp f1) as (f2 & He & Ht); [by eapply up_ok_wf, Hb1|]. exists f2. split; [done|].
    rewrite <-(app_nil_r (writes _ _ _)).
    eapply (safe_writes _ _ _ E _ _ snapshot_tmp cs []); [exact HA|done| |by apply (assertion_exec _ _ _ E _ (Create snapshot_tmp) f1)|done].
    intros f3 h3 k3 Hb3 _. by eapply safe_nil.
  - assert (exists m', restore_all m0 snaps = Ok m' /\ forall s, sim m s -> sim m' s) as (m' & Hre & Hms).
    { destruct Hb as (_ & _ & i & _ & Hi). destruct (law_restore m i snaps Hi Hm) as (m' & Hre & _).
      exists m'. split; [done|]. intros s Hs. destruct (law_restore m s snaps Hs Hm) as (m1 & Hre1 & Hs1). congruence. }
    eapply (safe_file _ _ _ E _ _ _ snapshot_tmp (Snap (last_log c)) cs);
      [exact HA|apply (snapped_assertion il al (last_log c) c snaps m')|done|done| | |exact Hb].
    + intros f1 h1 k1 i Hb1 Hi Hs Hwf. rewrite Hcs in Hs. by eapply snap_renamed.
    + intros f1 h1 k1 Hs1 Ho. split; [by apply Hs1|]. intros f2 h2 k2 Hv HQ. unfold snapshot_post.
      split; [by destruct Hv as (_ & -> & _)|]. exists snaps, m'.
      destruct (a_var _ _ _ (snapped_assertion il al (last_log c) c snaps m') _ _ _ _ _ _ Hs1 Hv HQ) as [Hs2 Hs3].
      splits; try done. unfold items_fit in Hfit. rewrite <-Ecs, Hcs in Hfit. done.
Qed.

(** ** Publishing a snapshot *)

Lemma remove_all_ops gs : remove_all gs = ((fun e => Remove (path e.1 e.2)) <$> gs, Ok tt).
Proof. induction gs as [|[s g] gs IH]; [done|]. cbn [remove_all]. by rewrite IH. Qed.

Lemma publish_snapshot_ops c s : publish_snapshot c s =
  let c1 := advance c s in
  match encode c1 with
  | Err e => ([Create CURRENT_tmp], Err e)
  | Ok b =>
    let '(ops, r) := publish (clear_garbage c1) in
    (Create CURRENT_tmp :: writes CURRENT_tmp [b] 0 ++
       Sync CURRENT_tmp :: Rename CURRENT_tmp CURRENT :: SyncDir ::
       ((fun e => Remove (path e.1 e.2)) <$> garbage c1) ++ SyncDir :: ops,
     r ;; Ok (clear_garbage c1))
  end.
Proof.
  unfold publish_snapshot. cbv zeta. rewrite !publish_ops, remove_all_ops.
  destruct (encode (advance c s)); [|done]. by destruct (encode (clear_garbage (advance c s))).
Qed.

(** Removing names an assertion does not depend on. *)
Lemma safe_removes Q Var vol A Post gs rest f h k :
  environment Q Var vol -> assertion Q Var A ->
  (forall e f h k, e ∈ gs -> A f h k -> fs_wf (set_dir (delete (path e.1 e.2) (dir f)) f) ->
    A (set_dir (delete (path e.1 e.2) (dir f)) f) h k) ->
  (forall f h k, A f h k -> safe Q Var Post rest f h k) ->
  A f h k -> safe Q Var Post (((fun e => Remove (path e.1 e.2)) <$> gs) ++ rest) f h k.
Proof.
  intros E HA. revert f h k. induction gs as [|e gs IH]; intros f h k Hrem Hrest Ha; [by apply Hrest|].
  cbn [fmap list_fmap app]. eapply safe_cons; [exact HA|exact Ha|]. clear f h k Ha. intros f h k Ha.
  assert (forall f, A f h k -> safe Q Var Post (((fun e => Remove (path e.1 e.2)) <$> gs) ++ rest) f h k) as IH'.
  { intros f' Ha'. apply IH; [|done|done]. intros e' f1 h1 k1 He'. apply Hrem. by right. }
  cbn [exec]. destruct (dir f !! path e.1 e.2) eqn:Hd; eexists; (split; [done|]); apply IH'; [|done].
  apply Hrem; [left|done|]. eapply (wf_exec (Remove (path e.1 e.2))).
  - eapply (env_wf _ _ _ E), (a_Q _ _ _ HA), Ha.
  - done.
  - cbn [exec]. by rewrite Hd.
Qed.

Lemma garbage_not_in_set c e : current_ok c -> e ∈ garbage c -> ~ in_set c (path e.1 e.2).
Proof.
  intros Hok He Hin. apply (co_disjoint c Hok) in He. destruct e as [s g]. unfold live in He. cbn [fst snd] in *.
  destruct Hin as [?|[E|(g' & Hg & E)]]; [done|injection E as -> ->|injection E as -> ->].
  - by rewrite Z.eqb_refl in He.
  - by rewrite bool_decide_eq_true_2 in He.
Qed.

Lemma advance_logs c s :
  current_ok c -> logs c = seqZ (snapshot c) (Z.of_nat (length (logs c))) -> s_generation s = last_log c ->
  logs (advance c s) = [last_log c] /\
  forall g, g ∈ filter (fun g => g < s_generation s) (logs c) -> g <> last_log c.
Proof.
  intros Hok Hl Hs. split; [|intros g (? & _)%list_elem_of_filter; lia].
  pose proof (last_log_seqZ c Hok Hl) as Hlast. pose proof (logs_nonempty c Hok) as Hne. cbn [logs advance].
  rewrite Hs. destruct (length (logs c)) as [|p] eqn:E; [by apply nil_length_inv in E|].
  rewrite Hl, seqZ_S, filter_app. replace (snapshot c + Z.of_nat p) with (last_log c) by lia.
  rewrite filter_none, filter_cons_True by (done || intros g Hg%elem_of_seqZ; lia). done.
Qed.

Lemma advance_ok c s b :
  current_ok c -> logs c = seqZ (snapshot c) (Z.of_nat (length (logs c))) -> garbage c = [] ->
  s_generation s = last_log c -> last_log c <> snapshot c ->
  Forall is_u64 [s_lsn s; s_bytes s; s_records s] -> encode (advance c s) = Ok b ->
  current_ok (advance c s).
Proof.
  intros Hok Hl Hg Hs Hne Hw He. destruct (advance_logs c s Hok Hl Hs) as [Hlogs Hlt].
  pose proof (last_log_seqZ c Hok Hl) as Hlast. pose proof (last_log_Some c Hok) as Hin%last_Some_elem_of.
  unfold encode in He. destruct (_ || _) eqn:Hn; [done|]. apply orb_false_iff in Hn as [_ Hn%Z.ltb_ge]. clear He.
  destruct Hok as [Hw0 [Hu Hlen] _ [Hs0 Hh] _ _ _]. rewrite Forall_cons in Hw0. destruct Hw0 as [Hsu _].
  pose proof (proj1 (Forall_forall _ _) Hu _ Hin) as Hgu. cbv beta in Hgu.
  rewrite !Forall_cons in Hw. destruct Hw as (Hw1 & Hw2 & Hw3 & _).
  assert (1 <= snapshot c) as Hs1 by (unfold is_u in Hsu; lia).
  assert (0 < Z.of_nat (length (logs c))) as Hpos by lia. split.
  - cbn [snapshot lsn bytes records pending advance]. rewrite Hs. by repeat (apply Forall_cons; split).
  - rewrite Hlogs. split; [by apply Forall_singleton|]. cbn. unfold MAX_GENERATIONS. lia.
  - split; [|lia]. cbn [garbage advance]. rewrite Hg. cbn [app]. constructor; [done|].
    apply Forall_fmap, Forall_forall. intros g (_ & Hgl)%list_elem_of_filter. by eapply Forall_forall in Hgl.
  - rewrite Hlogs. cbn [snapshot advance head]. rewrite Hs. split; [lia|done].
  - by rewrite Hlogs.
  - by left.
  - rewrite Hlogs. cbn [snapshot garbage advance]. rewrite Hs in Hlt |- *. rewrite Hg. cbn [app]. intros e [->|He]%elem_of_cons.
    + unfold live. by apply Z.eqb_neq.
    + apply list_elem_of_fmap in He as (g & -> & Hgf). unfold live. apply bool_decide_eq_false_2. cbn [snd].
      intros ->%list_elem_of_singleton. by eapply Hlt.
Qed.

(** A new CURRENT for the same files. *)
Lemma holds_republish cl I d d' il al h k c c' b :
  holds cl I d il al h k c -> current_ok c' -> encode c' = Ok b -> fixed I d' il CURRENT b ->
  (forall x, is_tmp x = false -> x <> CURRENT -> d' !! x = d !! x) ->
  (pending c' = 0 \/ pending c' <> snapshot c') ->
  snapshot c' = snapshot c -> lsn c' = lsn c -> bytes c' = bytes c -> records c' = records c ->
  logs c' = logs c -> holds cl I d' il al h k c'.
Proof.
  intros [_ _ _ Hl (snaps & m & Hs & Hrest) Hlsn Hch] Hok He Hcur Hd Hp E1 E2 E3 E4 E5. split; rewrite ?E1, ?E2, ?E3, ?E4, ?E5;
    [done|by exists b|by rewrite E1 in Hp|done| |done|].
  - exists snaps, m. split; [|done]. eapply fixed_dir; [|exact Hs]. by apply Hd.
  - eapply chain_dir; [|exact Hch]. intros g _. by apply Hd.
Qed.

Lemma advance_published il al c snaps m f h k i b :
  let s := mkSnapshot (last_log c) (Z.of_nat al) (blen (framed 0 snaps)) (Z.of_nat (length snaps)) in
  snapped il al (last_log c) c snaps m f h k -> restore_all m0 snaps = Ok m -> Forall small snaps ->
  current_ok (advance c s) -> encode (advance c s) = Ok b ->
  dir f !! CURRENT_tmp = Some i -> inodes f !! i = Some (synced b) ->
  fs_wf (set_dir (<[CURRENT := i]> (delete CURRENT_tmp (dir f))) f) ->
  set_is il al (last_log c) (advance c s) (set_dir (<[CURRENT := i]> (delete CURRENT_tmp (dir f))) f) h k.
Proof.
  intros s (Hs & Hsnap & Hal & Hr) Hrest Hsm Hok He Hi Hb Hwf'. destruct Hs as [Hu Hc].
  pose proof (holds_log_name _ _ _ _ _ _ _ _ _ Hc eq_refl) as Hn.
  destruct Hc as [Hok0 _ _ Hl0 _ _ Hch]. destruct (advance_logs c s Hok0 Hl0 eq_refl) as [Hlogs _].
  pose proof (up_ok_vol m0 il al _ f h k CURRENT_tmp i Hu eq_refl Hi) as Hne.
  pose proof (fun x Hx Hy => lookup_published x i (dir f) Hx Hy) as Hd'.
  eapply set_is_set_dir; [exact Hu| |by rewrite Hd'|done]. split.
  - done.
  - exists b. split; [done|]. by apply published_current.
  - by left.
  - by rewrite Hlogs.
  - exists snaps, m. unfold s. cbn [snapshot bytes records lsn advance s_generation s_lsn s_bytes s_records]. rewrite Nat2Z.id. splits; try done.
    eapply fixed_dir; [|exact Hsnap]. by apply Hd'.
  - cbn. lia.
  - rewrite Hlogs. unfold s. cbn [lsn advance s_lsn]. rewrite Nat2Z.id. apply (chain_dir _ _ (dir f)); [intros g _; by apply Hd'|].
    apply chain_open. by eapply chain_last; [|apply last_log_Some].
Qed.

Lemma set_is_removed il al gl c x f h k :
  set_is il al gl c f h k -> in_set c (Log gl) -> ~ in_set c x ->
  fs_wf (set_dir (delete x (dir f)) f) -> set_is il al gl c (set_dir (delete x (dir f)) f) h k.
Proof.
  intros [Hu Hc] Hl Hx Hwf.
  assert (forall y, in_set c y -> delete x (dir f) !! y = dir f !! y) as Hd
    by (intros y Hy; apply lookup_delete_ne; by intros ->).
  eapply set_is_set_dir; [exact Hu| | |done]; [by apply (holds_dir m0 _ _ (dir f))|]. rewrite Hd by done. apply Hu.
Qed.

Lemma clear_garbage_ok c : current_ok c -> current_ok (clear_garbage c).
Proof.
  intros [H1 H2 H3 H4 H5 H6 H7]. split; try done. intros e He. by apply not_elem_of_nil in He.
Qed.

Lemma clear_published il al gl c f h k i b :
  set_is il al gl c f h k -> encode (clear_garbage c) = Ok b -> pending c = 0 ->
  dir f !! CURRENT_tmp = Some i -> inodes f !! i = Some (synced b) ->
  fs_wf (set_dir (<[CURRENT := i]> (delete CURRENT_tmp (dir f))) f) ->
  set_is il al gl (clear_garbage c) (set_dir (<[CURRENT := i]> (delete CURRENT_tmp (dir f))) f) h k.
Proof.
  intros [Hu Hc] He Hp Hi Hb Hwf'. pose proof (up_ok_vol m0 il al _ f h k CURRENT_tmp i Hu eq_refl Hi) as Hne.
  eapply set_is_set_dir; [exact Hu| |rewrite lookup_published by done; apply Hu|done].
  eapply holds_republish; [exact Hc|by apply clear_garbage_ok; apply Hc|exact He|by apply published_current| |by left|done..].
  intros x Hx Hy. by apply lookup_published.
Qed.

(** Where a completed publication leaves the stream. *)
Definition publish_post (il al : nat) (c : Current) (s : Snapshot) (r : result io_error Current)
    (f : Fs) (h : history) (k : nat) : Prop :=
  match r with
  | Err _ => True
  | Ok c2 => c2 = clear_garbage (advance c s) /\ older f = [] /\ set_is il al (last_log c) c2 f h k
  end.

Lemma published_done il al gl c f h k :
  older f = [] -> set_is il al gl c f h k ->
  safe (up_ok il al gl) (Var_up il) (fun f h k => older f = [] /\ set_is il al gl c f h k) [] f h k.
Proof.
  intros Ho Hs. split; [apply Hs|]. intros f' h' k' Hv HQ. split; [by destruct Hv as (_ & -> & _)|].
  by eapply (a_var _ _ _ (set_is_assertion m0 il al gl c)).
Qed.

Lemma safe_post Q Var (Post Post' : Fs -> history -> nat -> Prop) ops f h k :
  (forall f h k, Post f h k -> Post' f h k) -> safe Q Var Post ops f h k -> safe Q Var Post' ops f h k.
Proof.
  intros HP. revert f h k. induction ops as [|op ops IH]; intros f h k [HQ Hs]; (split; [done|]);
    intros f' h' k' Hv HQ'; [by apply HP, Hs|].
  destruct (Hs f' h' k' Hv HQ') as (f'' & He & Hs''). exists f''. split; [done|]. by apply IH.
Qed.

(** The second half: CURRENT names the snapshot, the files it replaces go. *)
Lemma clear_safe il al gl c ops r f h k :
  set_is il al gl c f h k -> in_set c (Log gl) -> pending c = 0 -> publish (clear_garbage c) = (ops, r) ->
  safe (up_ok il al gl) (Var_up il)
    (fun f h k => r = Ok tt -> older f = [] /\ set_is il al gl (clear_garbage c) f h k)
    (((fun e => Remove (path e.1 e.2)) <$> garbage c) ++ SyncDir :: ops) f h k.
Proof.
  intros Hs Hl Hp Hpub. pose proof (env_up m0 il al gl) as E. pose proof (set_is_assertion m0 il al gl c) as HA.
  pose proof (h_ok _ _ _ _ _ _ _ _ _ (proj2 Hs)) as Hok.
  eapply (safe_removes _ _ _ (set_is il al gl c)); [exact E|exact HA| | |exact Hs].
  { intros e f1 h1 k1 He Hs1 Hwf. apply set_is_removed; try done. by apply garbage_not_in_set. }
  clear f h k Hs. intros f h k Hs. eapply safe_cons; [exact HA|exact Hs|]. clear f h k Hs. intros f h k Hs.
  eexists. split; [done|]. pose proof (assertion_exec _ _ _ E _ SyncDir f h k _ HA Hs I eq_refl) as Hs'.
  rewrite publish_ops in Hpub. destruct (encode (clear_garbage c)) as [b|e] eqn:He; injection Hpub as <- <-.
  2:{ eapply safe_failed; [exact E|exact HA|done|done|exact Hs']. }
  eapply (safe_file _ _ _ E _ _ _ CURRENT_tmp CURRENT [b]);
    [exact HA|apply (set_is_assertion m0 il al gl (clear_garbage c))|done|done| | |exact Hs'].
  - intros f2 h2 k2 i Hs2 Hi Hb Hwf. cbn [concat] in Hb. rewrite app_nil_r in Hb. by eapply clear_published.
  - intros f2 h2 k2 Hs2 Ho2. eapply safe_post; [|by apply published_done]. done.
Qed.

Lemma publish_safe il al c snaps m s ops r f h k :
  snapped il al (last_log c) c snaps m f h k -> restore_all m0 snaps = Ok m -> Forall small snaps ->
  blen (framed 0 snaps) < 2 ^ 64 -> is_u64 (Z.of_nat al) -> garbage c = [] -> last_log c <> snapshot c ->
  s = mkSnapshot (last_log c) (Z.of_nat al) (blen (framed 0 snaps)) (Z.of_nat (length snaps)) ->
  publish_snapshot c s = (ops, r) ->
  safe (up_ok il al (last_log c)) (Var_up il) (publish_post il al c s r) ops f h k.
Proof.
  intros Hs Hr Hsm Hlen Hal Hg Hne -> Hpub. set (s := mkSnapshot _ _ _ _) in *.
  pose proof (env_up m0 il al (last_log c)) as E. pose proof (snapped_assertion il al (last_log c) c snaps m) as HA.
  rewrite publish_snapshot_ops in Hpub. cbv zeta in Hpub.
  destruct (encode (advance c s)) as [b|e] eqn:He.
  2:{ injection Hpub as <- <-. eapply safe_failed; [exact E|exact HA|done|done|exact Hs]. }
  destruct (publish (clear_garbage (advance c s))) as [pops pr] eqn:Hp. injection Hpub as <- <-.
  destruct (proj2 (proj1 Hs)) as [Hok _ _ Hl _ _ _]. destruct (advance_logs c s Hok Hl eq_refl) as [Hlogs _].
  assert (current_ok (advance c s)) as Hok1.
  { eapply advance_ok; try done. pose proof (length_framed_le 0 snaps) as Hle. unfold blen in Hlen.
    repeat (apply Forall_cons; split); [done| | |constructor]; unfold s, blen, is_u; cbn [s_bytes s_records]; lia. }
  eapply (safe_file _ _ _ E _ _ _ CURRENT_tmp CURRENT [b]);
    [exact HA|apply (set_is_assertion m0 il al (last_log c) (advance c s))|done|done| | |exact Hs].
  - intros f2 h2 k2 i Hs2 Hi Hb Hwf. cbn [concat] in Hb. rewrite app_nil_r in Hb. by eapply advance_published.
  - intros f2 h2 k2 Hs2 _. fold (garbage (advance c s)).
    eapply safe_post; [|eapply (clear_safe _ _ _ (advance c s)); [exact Hs2| |done|exact Hp]].
    + intros f3 h3 k3 Hpost. destruct pr as [[]|e]; [|done]. cbn. destruct (Hpost eq_refl). done.
    + right. right. exists (last_log c). rewrite Hlogs. split; [left|done].
Qed.

End Maint.

End JournalMaint.
