(* ===== verification/JournalRecover.v ===== *)
(** Recovery keeps a stream recoverable at every system call it makes itself: creating a
    stream that was never published, and, after the files were read, cutting the torn tail of
    the last log, removing what interrupted maintenance left, and publishing the result. *)

From stdpp Require Import gmap.
From S2P Require Import Prelude External JournalFrame JournalReplay JournalCurrent JournalFs.
From S2P Require Import JournalDisk JournalLog JournalInv JournalSafe JournalStates JournalMaint.

Module JournalRecover.
Import JournalFrame JournalCurrent JournalFs JournalDisk JournalLog JournalInv JournalSafe JournalStates JournalMaint.

Section Recover.
Context `{Xxh3} `{Machine} `{same : !Sim} (m0 : MState) `{!MachineLaws m0}.

Abbreviation holds := (JournalInv.holds m0).
Abbreviation crash_ok := (JournalStates.crash_ok m0).
Abbreviation recoverable := (JournalStates.recoverable m0).
Abbreviation set_is := (JournalStates.set_is m0).

Lemma safe_now (Post : Fs -> history -> nat -> Prop) op ops f f' h k :
  crash_ok f h k -> exec op f = Some f' -> safe crash_ok Var_eq Post ops f' h k ->
  safe crash_ok Var_eq Post (op :: ops) f h k.
Proof. intros HQ He Hs. split; [done|]. intros f1 h1 k1 (-> & -> & ->) _. eauto. Qed.

(** ** A new stream *)

(** Calls on a file that is not CURRENT. *)
Definition touches (x : Name) (op : Op) : Prop :=
  match op with
  | Create y | Write y _ _ | Sync y => y = x
  | SyncDir => True
  | _ => False
  end.

Lemma on_file_frame x y g c f f' :
  fs_wf f -> y <> x -> on_file x g f = Some f' -> tmp_synced y c f -> tmp_synced y c f'.
Proof.
  intros Hwf Hne. unfold on_file. destruct (dir f !! x) as [i|] eqn:Hx; [|done].
  destruct (inodes f !! i); [|done]. intros [= <-] (j & Hy & Hj). exists j. cbn [dir inodes].
  rewrite lookup_insert_ne; [done|]. intros ->. destruct Hne. by apply (wf_inj f Hwf (dir f) y x j); [left|..].
Qed.

Lemma touches_frame x y op c f f' :
  fs_wf f -> y <> x -> touches x op -> exec op f = Some f' -> tmp_synced y c f -> tmp_synced y c f'.
Proof.
  intros Hwf Hne Hop. destruct op as [z|z o b|z|z l|z l|z w|z|]; try done; cbn in Hop; subst; cbn [exec].
  - destruct (dir f !! x) as [i|] eqn:Hx; [by apply on_file_frame|]. intros [= <-] (j & Hy & Hj). exists j.
    cbn [dir inodes]. rewrite !lookup_insert_ne; [done| |congruence].
    destruct (wf_bound f Hwf (dir f) y j ltac:(left) Hy). lia.
  - by apply on_file_frame.
  - by apply on_file_frame.
  - intros [= <-] (j & Hy & Hj). by exists j.
Qed.

Lemma touches_blank x op f f' h :
  x <> CURRENT -> touches x op -> exec op f = Some f' -> all_blank f h -> all_blank f' h.
Proof.
  intros Hx Hop He [Hwf Hb]. split; [eapply wf_exec; [exact Hwf| |exact He]; by destruct op|].
  assert (forall y g, on_file y g f = Some f' -> dirs f' = dirs f) as Hon.
  { intros y g. unfold on_file. destruct (dir f !! y) as [i|]; [|done]. by destruct (inodes f !! i); [intros [= <-]|]. }
  destruct op as [z|z o b|z|z l|z l|z w|z|]; try done; cbn in Hop; subst; cbn [exec] in He.
  - destruct (dir f !! x) as [i|] eqn:Hd; [by rewrite (Hon x _ He)|]. injection He as <-.
    intros d [->|Hin]%elem_of_cons; [|by apply Hb]. destruct (Hb (dir f) ltac:(left)) as [Hn ->].
    split; [|done]. cbn [dir]. by rewrite lookup_insert_ne.
  - by rewrite (Hon x _ He).
  - by rewrite (Hon x _ He).
  - injection He as <-. intros d ->%list_elem_of_singleton. apply Hb. left.
Qed.

Lemma all_blank_crash_ok f h k : all_blank f h -> crash_ok f h k.
Proof. by left. Qed.

(** [write_sync] of an empty file. *)
Lemma safe_empty_file (Post : Fs -> history -> nat -> Prop) x ops f h k :
  x <> CURRENT -> all_blank f h ->
  (forall f', all_blank f' h -> tmp_synced x [] f' ->
    (forall y c, y <> x -> tmp_synced y c f -> tmp_synced y c f') -> safe crash_ok Var_eq Post ops f' h k) ->
  safe crash_ok Var_eq Post (Create x :: Write x 0 [] :: Sync x :: ops) f h k.
Proof.
  intros Hx Hb Hs. destruct (exec_create x f) as (f1 & He1 & Ht1); [apply Hb|].
  pose proof (touches_blank x (Create x) f f1 h Hx eq_refl He1 Hb) as Hb1.
  destruct (exec_write x [] [] f1 Ht1) as (f2 & He2 & Ht2).
  pose proof (touches_blank x (Write x 0 []) f1 f2 h Hx eq_refl He2 Hb1) as Hb2.
  destruct (exec_sync x [] f2 Ht2) as (f3 & He3 & Ht3).
  pose proof (touches_blank x (Sync x) f2 f3 h Hx eq_refl He3 Hb2) as Hb3.
  eapply safe_now; [by apply all_blank_crash_ok|exact He1|].
  eapply safe_now; [by apply all_blank_crash_ok|exact He2|].
  eapply safe_now; [by apply all_blank_crash_ok|exact He3|].
  apply Hs; [done|done|]. intros y c Hne Hy.
  eapply (touches_frame x y (Sync x)); [apply Hb2|done|done|exact He3|].
  eapply (touches_frame x y (Write x 0 [])); [apply Hb1|done|done|exact He2|].
  by eapply (touches_frame x y (Create x)); [apply Hb|done|done|exact He1|].
Qed.

(** The first snapshot and log are there, unpublished. *)
Definition created (h : history) (f : Fs) : Prop :=
  all_blank f h /\ tmp_synced (Snap 1) [] f /\ tmp_synced (Log 1) [] f.

(** They are published. *)
Definition founded (h : history) (k : nat) (f : Fs) : Prop :=
  exists il, recoverable il 0 initial f h k /\ inodes f !! il = Some (synced []).

Lemma tmp_synced_perm x c f f' : is_tmp x = false -> same_perm f f' -> tmp_synced x c f -> tmp_synced x c f'.
Proof. intros Hx Hs (i & Hd & Hi). destruct (Hs x Hx) as [Hd' Hi']. exists i. by rewrite Hd', Hi'. Qed.

Lemma created_assertion h k : assertion crash_ok Var_eq (fun f h' k' => created h f /\ h' = h /\ k' = k).
Proof.
  apply assertion_at.
  - intros f [Hb _]. by left.
  - intros f f' (Hb & Hs & Hl) Hwf Ht. split; [by eapply all_blank_tmp|].
    destruct Ht as [Hp _]. by split; eapply tmp_synced_perm.
Qed.

Lemma founded_assertion h k : assertion crash_ok Var_eq (fun f h' k' => founded h k f /\ h' = h /\ k' = k).
Proof.
  apply assertion_at.
  - intros f (il & Hr & _). right. by exists il, 0%nat, initial.
  - intros f f' (il & Hr & Hi) Hwf Ht. exists il. split; [by eapply recoverable_tmp|].
    destruct Ht as [Hp _]. destruct (Hp (Log (last_log initial)) eq_refl) as [_ Hi']. rewrite Hi'; [done|].
    by eapply holds_log_name; [apply Hr|].
Qed.

Lemma initial_ok : current_ok initial.
Proof.
  split; cbn; try done.
  - by repeat (apply Forall_cons; split).
  - split; [by apply Forall_singleton|]. unfold MAX_GENERATIONS. lia.
  - by left.
  - intros e He. by apply not_elem_of_nil in He.
Qed.

Lemma encode_initial : exists b, encode initial = Ok b.
Proof. by eexists. Qed.

Lemma founded_published h k f i b :
  created h f -> encode initial = Ok b -> dir f !! CURRENT_tmp = Some i -> inodes f !! i = Some (synced b) ->
  fs_wf (set_dir (<[CURRENT := i]> (delete CURRENT_tmp (dir f))) f) ->
  founded h k (set_dir (<[CURRENT := i]> (delete CURRENT_tmp (dir f))) f).
Proof.
  intros ([Hwf Hb] & (js & Hs & His) & (il & Hl & Hil)) He Hi Hbi Hwf'. exists il. split; [|done].
  destruct (Hb (dir f) ltac:(left)) as [_ ->].
  assert (forall x j, dir f !! x = Some j -> x <> Log 1 -> j <> il) as Hne.
  { intros x j Hx Hxl ->. destruct Hxl. by apply (wf_inj f Hwf (dir f) x (Log 1) il); [left|..]. }
  assert (holds false (inodes f) (<[CURRENT := i]> (delete CURRENT_tmp (dir f))) il 0 [] k initial) as Hc.
  { split; [apply initial_ok| |by left|done| |cbn; lia|].
    - exists b. split; [done|]. apply published_current; [done|]. by eapply Hne.
    - exists [], m0. rewrite framed_nil. splits; try done; [|exists m0; split; [done|apply law_start]].
      exists js. rewrite lookup_published by done. splits; [done| |done]. by eapply Hne.
    - apply chain_open. split; [by rewrite lookup_published|]. split; [done|]. exists [], [], [].
      rewrite drop_nil. unfold seg. rewrite drop_nil, take_nil, framed_nil. by splits. }
  unfold recoverable. splits; [done| |done]. intros d [->|Hin]%elem_of_cons; [|left; by apply Hb].
  right. exists initial. by apply holds_weaken.
Qed.

(** Where the first part of recovery leads. *)
Definition start_post (h : history) (k : nat) (r : result io_error Current) (f : Fs) (h' : history) (k' : nat) : Prop :=
  h' = h /\ k' = k /\ exists c il al, r = Ok c /\ recoverable il al c f h k /\ tail_closed il f.

Lemma recover_start_blank f :
  dir f !! CURRENT = None -> exists b, encode initial = Ok b /\ recover_start f =
  (Create (Snap 1) :: Write (Snap 1) 0 [] :: Sync (Snap 1) ::
   Create (Log 1) :: Write (Log 1) 0 [] :: Sync (Log 1) :: SyncDir ::
   Create CURRENT_tmp :: writes CURRENT_tmp [b] 0 ++
     Sync CURRENT_tmp :: Rename CURRENT_tmp CURRENT :: SyncDir :: [], Ok initial).
Proof.
  intros Hd. destruct encode_initial as [b He]. exists b. split; [done|].
  unfold recover_start, content. rewrite Hd. unfold publish_sync. by rewrite He.
Qed.

Lemma recover_start_safe f h k ops r :
  down_ok m0 f h k -> recover_start f = (ops, r) -> safe crash_ok Var_eq (start_post h k r) ops f h k.
Proof.
  intros [Hb|(il & al & c & Hr & Ht)].
  - destruct (recover_start_blank f) as (b & He & ->); [apply (proj2 Hb); left|]. intros [= <- <-].
    apply safe_empty_file; [done|done|]. intros f1 Hb1 Hs1 _.
    apply safe_empty_file; [done|done|]. intros f2 Hb2 Hl2 Hfr.
    assert (created h f2) as Hc by (split; [done|]; split; [by apply Hfr|done]).
    eapply safe_cons; [apply (created_assertion h k)|done|]. intros f3 h3 k3 (Hc3 & -> & ->). eexists. split; [done|].
    assert (created h (mkFs (dir f3) [] (inodes f3) (fresh f3))) as Hc4.
    { destruct Hc3 as (Hb3 & Hs3 & Hl3). split; [|by split]. by apply (touches_blank journal_tmp SyncDir f3). }
    eapply (safe_file _ _ _ (env_eq m0) _ _ _ CURRENT_tmp CURRENT [b]);
      [apply (created_assertion h k)|apply (founded_assertion h k)|done|done| | |done].
    + intros f5 h5 k5 i (Hc5 & -> & ->) Hi Hbi Hwf. cbn [concat] in Hbi. rewrite app_nil_r in Hbi.
      split; [|done]. by eapply founded_published.
    + intros f5 h5 k5 Hc5 _. eapply safe_nil; [apply (founded_assertion h k)| |done].
      intros f6 h6 k6 ((il & Hr & Hi) & -> & ->). unfold start_post. splits; try done.
      exists initial, il, 0%nat. splits; try done. by exists [], [].
  - rewrite (recover_start_holds m0 false f il al h k c) by apply Hr. intros [= <- <-].
    split; [right; by exists il, al, c|]. intros f1 h1 k1 (-> & -> & ->) _. unfold start_post.
    splits; try done. by exists c, il, al.
Qed.

(** ** Cutting the tail and publishing *)

(** The recovery set is [c], and the open log ends after the record [n]. *)
Definition cut (il al : nat) (c : Current) (n : nat) (h : history) (k : nat) (f : Fs) : Prop :=
  recoverable il al c f h k /\
  exists lo, inodes f !! il = Some (mkInode (framed al (seg h al n)) (Some (lo, framed al (seg h al n)))).

Lemma cut_assertion il al c n h k :
  assertion crash_ok Var_eq (fun f h' k' => cut il al c n h k f /\ h' = h /\ k' = k).
Proof.
  apply assertion_at.
  - intros f [Hr _]. right. by exists il, al, c.
  - intros f f' [Hr [lo Hi]] Hwf Ht. split; [by eapply recoverable_tmp|]. exists lo.
    destruct Ht as [Hp _]. destruct (Hp (Log (last_log c)) eq_refl) as [_ Hi']. rewrite Hi'; [done|].
    by eapply holds_log_name; [apply Hr|].
Qed.

(** A call on the open log. *)
Lemma recoverable_log il al c f h k b lo hi b' lo' hi' g :
  recoverable il al c f h k -> inodes f !! il = Some (mkInode b (Some (lo, hi))) ->
  g (mkInode b (Some (lo, hi))) = mkInode b' (Some (lo', hi')) ->
  (forall p, p = framed al (seg h al k) -> lo `prefix_of` b -> b `prefix_of` hi -> p `prefix_of` lo ->
    lo' `prefix_of` b' /\ b' `prefix_of` hi' /\ hi' `prefix_of` hi /\ p `prefix_of` lo') ->
  exists f', on_file (Log (last_log c)) g f = Some f' /\ recoverable il al c f' h k /\
  inodes f' !! il = Some (mkInode b' (Some (lo', hi'))).
Proof.
  intros (Hwf & Hd & Hc) Hi Hg Hp. pose proof (holds_log_name _ _ _ _ _ _ _ _ _ Hc eq_refl) as Hn.
  set (n' := mkInode b' (Some (lo', hi'))) in *.
  assert (on_file (Log (last_log c)) g f = Some (mkFs (dir f) (older f) (<[il := n']> (inodes f)) (fresh f))) as He.
  { unfold on_file. by rewrite Hn, Hi, Hg. }
  eexists. split; [exact He|]. cbn [inodes]. rewrite lookup_insert_eq. split; [|done].
  assert (forall cl d c, holds cl (inodes f) d il al h k c -> holds cl (<[il := n']> (inodes f)) d il al h k c) as Hh.
  { intros cl d c'. apply (holds_log m0); [done|done|intros i Hne; by rewrite lookup_insert_ne|].
    intros x (Hx & Hal & c1 & lo1 & hi1 & Hi1 & P1 & P2 & P3 & P4). rewrite Hi in Hi1. injection Hi1 as <- <- <-.
    destruct (Hp _ eq_refl P1 P2 P4) as (Q1 & Q2 & Q3 & Q4). split; [done|]. split; [done|].
    exists b', lo', hi'. rewrite lookup_insert_eq. splits; try done. by etrans. }
  unfold recoverable. splits; [by eapply wf_on_file| |by apply Hh]. intros d Hin.
  destruct (Hd d Hin) as [|[c' Hc']]; [by left|right]. exists c'. by apply Hh.
Qed.

Lemma prefix_cut (p X lo b : list byte) :
  X `prefix_of` b -> lo `prefix_of` b -> p `prefix_of` lo -> p `prefix_of` X ->
  take (length X) lo `prefix_of` X /\ p `prefix_of` take (length X) lo.
Proof.
  intros HX Hlo Hp HpX. destruct (prefix_weak_total X lo b HX Hlo) as [[t ->]|Hl].
  - by rewrite take_app_length.
  - rewrite take_ge by by apply prefix_length. done.
Qed.

(** [set_len] and the sync after it. *)
Lemma cut_set_len il al c n h k f b lo :
  recoverable il al c f h k -> inodes f !! il = Some (mkInode b (Some (lo, b))) ->
  framed al (seg h al n) `prefix_of` b -> (k <= n)%nat ->
  exists f1, exec (SetLen (Log (last_log c)) (length (framed al (seg h al n)))) f = Some f1 /\
  recoverable il al c f1 h k /\
  exists f2, exec (Sync (Log (last_log c))) f1 = Some f2 /\ cut il al c n h k f2.
Proof.
  intros Hr Hi Hp Hkn. pose proof (framed_prefix al _ _ (seg_prefix h al k n Hkn)) as HpX.
  set (X := framed al (seg h al n)) in *.
  assert (length X <= length b)%nat as Hlen by by apply prefix_length.
  destruct (recoverable_log il al c f h k b lo b X (take (length X) lo) b (set_len_inode (length X)) Hr Hi)
    as (f1 & He1 & Hr1 & Hi1).
  { unfold set_len_inode. cbn [cur bounds]. rewrite bool_decide_eq_true_2 by done.
    replace (length X - length b)%nat with 0%nat by lia. cbn [replicate]. rewrite app_nil_r. f_equal.
    destruct Hp as [t ->]. by rewrite take_app_length. }
  { intros p -> P1 P2 P3. destruct (prefix_cut _ X lo b Hp P1 P3 HpX). by splits. }
  exists f1. split; [done|]. split; [done|].
  destruct (recoverable_log il al c f1 h k X _ b X X X (fun f => synced (cur f)) Hr1 Hi1)
    as (f2 & He2 & Hr2 & Hi2); [done| |].
  { intros p -> P1 P2 P3. by splits. }
  exists f2. split; [done|]. split; [done|]. by exists X.
Qed.

(** What recovery publishes. *)
Definition finished (c : Current) : Current :=
  mkCurrent (snapshot c) (lsn c) (bytes c) (records c) (logs c) [] 0.

(** What it removes. *)
Definition leftovers (c : Current) : list (bool * Z) :=
  garbage c ++ (if pending c =? 0 then [] else [(true, pending c)]).

Lemma finished_ok c : current_ok c -> current_ok (finished c).
Proof.
  intros [H1 H2 H3 H4 H5 H6 H7]. split; try done; cbn.
  - rewrite !Forall_cons in H1 |- *. destruct H1 as (? & ? & ? & ? & _). by splits.
  - by left.
  - intros e He. by apply not_elem_of_nil in He.
Qed.

Lemma encode_finished c b : encode c = Ok b -> exists b', encode (finished c) = Ok b'.
Proof.
  unfold encode. cbn [logs garbage finished length]. destruct (_ || _) eqn:E; [done|].
  apply orb_false_iff in E as [-> _]. intros _. by eexists.
Qed.

Lemma recover_finish_ops c off len b :
  encode (finished c) = Ok b -> recover_finish c off len =
  ((if (len =? off)%nat then [] else [SetLen (Log (last_log c)) off; Sync (Log (last_log c))]) ++
   ((fun e => Remove (path e.1 e.2)) <$> leftovers c) ++
   Remove CURRENT_tmp :: Remove journal_tmp :: Remove snapshot_tmp :: SyncDir ::
   Create CURRENT_tmp :: writes CURRENT_tmp [b] 0 ++
     Sync CURRENT_tmp :: Rename CURRENT_tmp CURRENT :: SyncDir :: [], Ok (finished c)).
Proof.
  intros He. unfold recover_finish, publish_sync, leftovers. cbv zeta. fold (finished c).
  rewrite remove_all_ops, He, fmap_app. destruct (len =? off)%nat, (pending c =? 0); cbn; by rewrite <-?app_assoc.
Qed.

Lemma leftovers_not_in_set cl I d il al h k c e :
  holds cl I d il al h k c -> e ∈ leftovers c -> ~ in_set c (path e.1 e.2).
Proof.
  intros Hc [He|He]%elem_of_app; [by apply garbage_not_in_set; [apply Hc|]|].
  destruct (Z.eqb_spec (pending c) 0) as [|Hp0]; [by apply not_elem_of_nil in He|].
  apply list_elem_of_singleton in He as ->. cbn [fst snd]. intros [?|[E|(g & _ & ?)]]; try done.
  injection E as E. by destruct (h_pending _ _ _ _ _ _ _ _ _ Hc).
Qed.

(** Directory updates the open log survives. *)
Lemma cut_set_dir il al c c' n h k f d' :
  cut il al c n h k f -> fs_wf (set_dir d' f) -> holds false (inodes f) d' il al h k c' ->
  cut il al c' n h k (set_dir d' f).
Proof.
  intros [(_ & Hd & _) Hi] Hwf Hc. split; [|done]. unfold recoverable. splits; [done| |done].
  intros d [->|Hin]%elem_of_cons; [|by apply Hd]. right. exists c'. by apply holds_weaken.
Qed.

(** Where the second part of recovery leads. *)
Definition finish_post (il al : nat) (c : Current) (n : nat) (h : history) (k : nat)
    (f : Fs) (h' : history) (k' : nat) : Prop :=
  h' = h /\ k' = k /\ older f = [] /\ cut il al (finished c) n h k f.

Lemma cut_published il al c n h k f i b :
  cut il al c n h k f -> encode (finished c) = Ok b -> dir f !! CURRENT_tmp = Some i ->
  inodes f !! i = Some (synced b) -> fs_wf (set_dir (<[CURRENT := i]> (delete CURRENT_tmp (dir f))) f) ->
  cut il al (finished c) n h k (set_dir (<[CURRENT := i]> (delete CURRENT_tmp (dir f))) f).
Proof.
  intros Hcut He Hi Hb Hwf'. pose proof Hcut as [(Hwf & _ & Hc) _]. eapply cut_set_dir; [exact Hcut|done|].
  eapply holds_republish; [exact Hc|by apply finished_ok; apply Hc|exact He| | |by left|done..].
  - apply published_current; [done|]. intros ->.
    apply (wf_private f Hwf CURRENT_tmp il (dir f) (Log (last_log c))); [done|done|left|done|].
    by eapply holds_log_name.
  - intros x Hx Hne. by apply lookup_published.
Qed.

(** The calls after the tail is cut. *)
Lemma clean_safe il al c n h k f b :
  cut il al c n h k f -> encode (finished c) = Ok b ->
  safe crash_ok Var_eq (finish_post il al c n h k)
    (((fun e => Remove (path e.1 e.2)) <$> leftovers c) ++
     Remove CURRENT_tmp :: Remove journal_tmp :: Remove snapshot_tmp :: SyncDir ::
     Create CURRENT_tmp :: writes CURRENT_tmp [b] 0 ++
       Sync CURRENT_tmp :: Rename CURRENT_tmp CURRENT :: SyncDir :: []) f h k.
Proof.
  intros Hcut He. pose proof (env_eq m0) as E. pose proof (cut_assertion il al c n h k) as HA.
  assert (forall op ops, tmp_op op -> (forall f, exists f', exec op f = Some f') ->
    (forall f, cut il al c n h k f -> safe crash_ok Var_eq (finish_post il al c n h k) ops f h k) ->
    forall f, cut il al c n h k f -> safe crash_ok Var_eq (finish_post il al c n h k) (op :: ops) f h k) as Htmp.
  { intros op ops Hop Hex Hrest f1 Hc1. eapply safe_cons; [exact HA|done|]. intros f2 h2 k2 (Hc2 & -> & ->).
    destruct (Hex f2) as [f3 He3]. exists f3. split; [done|]. apply Hrest.
    by destruct (assertion_exec _ _ _ E _ op f2 h k f3 HA (conj Hc2 (conj eq_refl eq_refl)) Hop He3). }
  assert (forall (x : Name) (f : Fs), exists f', exec (Remove x) f = Some f') as Hrem.
  { intros x f1. cbn [exec]. destruct (dir f1 !! x); by eexists. }
  eapply (safe_removes _ _ _ (fun f h' k' => cut il al c n h k f /\ h' = h /\ k' = k));
    [exact E|exact HA| | |done].
  { intros e f1 h1 k1 Hin (Hc1 & -> & ->) Hwf. split; [|done]. pose proof Hc1 as [(_ & _ & Hc) _].
    eapply cut_set_dir; [exact Hc1|done|]. apply (holds_dir m0 _ _ (dir f1)); [|done]. intros x Hx.
    apply lookup_delete_ne. intros <-. by eapply leftovers_not_in_set. }
  clear f Hcut. intros f h' k' (Hcut & -> & ->). revert f Hcut. do 4 (apply Htmp; [done|done || by eexists|]).
  intros f Hcut. eapply (safe_file _ _ _ E _ _ _ CURRENT_tmp CURRENT [b]);
    [exact HA|apply (cut_assertion il al (finished c) n h k)|done|done| | |done].
  - intros f1 h1 k1 i (Hc1 & -> & ->) Hi Hb Hwf. cbn [concat] in Hb. rewrite app_nil_r in Hb.
    split; [|done]. by eapply cut_published.
  - intros f1 h1 k1 (Hc1 & -> & ->) Ho. split.
    { by apply (a_Q _ _ _ (cut_assertion il al (finished c) n h k)). }
    intros f2 h2 k2 (-> & -> & ->) _. unfold finish_post. done.
Qed.

Lemma recover_finish_safe il al c n h k f b lo off ops r :
  recoverable il al c f h k -> inodes f !! il = Some (mkInode b (Some (lo, b))) ->
  framed al (seg h al n) `prefix_of` b -> (k <= n)%nat -> off = length (framed al (seg h al n)) ->
  recover_finish c off (length b) = (ops, r) ->
  r = Ok (finished c) /\ safe crash_ok Var_eq (finish_post il al c n h k) ops f h k.
Proof.
  intros Hr Hi Hp Hkn ->. destruct (h_current _ _ _ _ _ _ _ _ _ (proj2 (proj2 Hr))) as (b0 & He0 & _).
  destruct (encode_finished c b0 He0) as [b1 He]. rewrite (recover_finish_ops c _ _ b1 He). intros [= <- <-].
  split; [done|]. destruct (Nat.eqb_spec (length b) (length (framed al (seg h al n)))) as [Hl|Hl].
  - apply clean_safe; [|done]. split; [done|]. exists lo. destruct Hp as [t ->]. rewrite length_app in Hl.
    assert (t = []) as -> by (destruct t; [done|simpl in Hl; lia]). by rewrite app_nil_r in Hi.
  - destruct (cut_set_len il al c n h k f b lo Hr Hi Hp Hkn) as (f1 & He1 & Hr1 & f2 & He2 & Hc2).
    cbn [app]. eapply safe_now; [right; by exists il, al, c|exact He1|].
    eapply safe_now; [right; by exists il, al, c|exact He2|]. by apply clean_safe.
Qed.

End Recover.

End JournalRecover.
