(* ===== verification/JournalCrash.v ===== *)
(** Crash safety of a journal stream: whatever interleaving of appends, syncs, rotations,
    snapshots and publications is cut by the death of the process or of the machine, and
    however often recovery itself is cut, recovery succeeds, keeps every record of a completed
    sync, and rebuilds the machine's state after exactly the records it keeps. *)

From stdpp Require Import gmap.
From S2P Require Import Prelude External JournalFrame JournalReplay JournalCurrent JournalFs.
From S2P Require Import JournalDisk JournalLog JournalInv JournalSafe JournalStates JournalMaint JournalRecover.

Module JournalCrash.
Import JournalFrame JournalCurrent JournalFs JournalDisk JournalLog JournalInv JournalSafe.
Import JournalStates JournalMaint JournalRecover.

Section Crash.
Context `{Xxh3} `{Machine} `{same : !Sim} (m0 : MState) `{!MachineLaws m0}.

Abbreviation holds := (JournalInv.holds m0).
Abbreviation crash_ok := (JournalStates.crash_ok m0).
Abbreviation recoverable := (JournalStates.recoverable m0).
Abbreviation up_ok := (JournalStates.up_ok m0).
Abbreviation set_is := (JournalStates.set_is m0).

(** ** The invariant *)

(** A sync in flight covers the records up to [n]. *)
Definition sync_ok (al : nat) (h : history) (k : nat) (y : option (nat * nat)) : Prop :=
  match y with
  | None => True
  | Some (len, n) => (al <= n <= length h)%nat /\ (k <= n)%nat /\ len = length (framed al (seg h al n))
  end.

(** The task that runs beside the appends. *)
Definition task_ok (il al : nat) (c : Current) (t : Task) (f : Fs) (h : history) (k : nat) : Prop :=
  match t with
  | Idle => older f = [] /\ set_is il al (last_log c) c f h k
  | Rotating _ _ _ => False
  | Snapshotting ops r =>
    last_log c <> snapshot c /\
    safe (up_ok il al (last_log c)) (Var_up il) (snapshot_post m0 il al c r) ops f h k
  | Publishing ops r =>
    exists s, s_generation s = last_log c /\
    safe (up_ok il al (last_log c)) (Var_up il) (publish_post m0 il al c s r) ops f h k
  end.

(** Up: the open log holds the history after [al]. *)
Definition serving (d : Disk) (t : Task) (y : option (nat * nat)) (f : Fs) (h : history) (k : nat) : Prop :=
  exists il al, (al <= length h)%nat /\ offset d = blen (framed al (drop al h)) /\
  up_ok il al (last_log (current d)) f h k /\ current_ok (current d) /\
  logs (current d) = seqZ (snapshot (current d)) (Z.of_nat (length (logs (current d)))) /\
  garbage (current d) = [] /\ sync_ok al h k y /\ task_ok il al (current d) t f h k.

Definition phase_ok (p : Phase) (f : Fs) (h : history) (k : nat) : Prop :=
  match p with
  | Down => down_ok m0 f h k
  | Starting ops r => safe crash_ok Var_eq (start_post m0 h k r) ops f h k
  | Finishing ops r m l off =>
    exists il al c n, r = Ok (finished c) /\ l = Z.of_nat n /\ (al <= n <= length h)%nat /\ (k <= n)%nat /\
    runs m0 (take n h) m /\ off = length (framed al (seg h al n)) /\
    safe crash_ok Var_eq (finish_post m0 il al c n h k) ops f h k
  | Up d m t y =>
    runs m0 h m /\ disk_lsn d = Z.of_nat (length h) /\
    match t with
    | Rotating ops r items =>
      y = None /\ m_snapshot m = Ok items /\ items_fit items /\
      current_ok (current d) /\
      logs (current d) = seqZ (snapshot (current d)) (Z.of_nat (length (logs (current d)))) /\
      garbage (current d) = [] /\
      safe crash_ok Var_eq (rotate_post m0 d h k r) ops f h k
    | _ => serving d t y f h k
    end
  end.

Definition sys_ok (s : Sys) : Prop :=
  hist_ok m0 (hist s) /\ (dur s <= length (hist s))%nat /\ phase_ok (phase s) (fs s) (hist s) (dur s).

(** Every phase can be cut. *)
Lemma phase_crash_ok p f h k : phase_ok p f h k -> crash_ok f h k.
Proof.
  destruct p as [|ops r|ops r m l off|d m t y]; cbn [phase_ok].
  - intros [Hb|(il & al & c & Hr & _)]; [by left|right]. by exists il, al, c.
  - apply safe_Q.
  - intros (il & al & c & n & _ & _ & _ & _ & _ & _ & Hs). by eapply safe_Q.
  - intros (_ & _ & Hp). destruct t; try (destruct Hp as (il & al & _ & _ & Hu & _); by eapply up_ok_crash_ok).
    destruct Hp as (_ & _ & _ & _ & _ & _ & Hs). by eapply safe_Q.
Qed.

(** ** Recovery takes the history it found *)

Lemma seg_take h n a b : (b <= n)%nat -> seg (take n h) a b = seg h a b.
Proof.
  intros Hb. unfold seg. rewrite skipn_firstn_comm, take_take. f_equal. lia.
Qed.

Lemma chain_below I d il al h k a gs : chain false I d il al h k a gs -> (a <= al)%nat.
Proof. intros Hc. induction Hc; [done|done|lia]. Qed.

Lemma chain_take I d il al h k a gs n lo X :
  chain false I d il al h k a gs -> (al <= n <= length h)%nat -> (k <= n)%nat ->
  X = framed al (seg h al n) -> I !! il = Some (mkInode X (Some (lo, X))) ->
  chain false I d il al (take n h) k a gs.
Proof.
  intros Hc Hn Hk HX Hi. assert (length (take n h) = n) as Hlen by (rewrite length_take; lia).
  induction Hc as [|g Ho|a b g gs Hab Hf Hc IH]; [done| |].
  - apply chain_open. destruct Ho as (Hd & Hal & c1 & lo1 & hi1 & Hi1 & P1 & P2 & P3 & P4).
    rewrite Hi in Hi1. injection Hi1 as <- <- <-. split; [done|]. split; [lia|]. exists X, lo, X.
    rewrite seg_take by done. splits; try done. subst X. unfold seg. by rewrite skipn_firstn_comm.
  - pose proof (chain_below _ _ _ _ _ _ _ _ Hc). apply chain_cons with b; [lia| |done].
    by rewrite seg_take by lia.
Qed.

Lemma holds_take I d il al h k c n lo X :
  holds false I d il al h k c -> (al <= n <= length h)%nat -> (k <= n)%nat ->
  X = framed al (seg h al n) -> I !! il = Some (mkInode X (Some (lo, X))) ->
  holds false I d il al (take n h) k c.
Proof.
  intros [Hok Hcur Hpend Hl (snaps & m & Hs & Hb & Hr & Hsm & Hre & Hrun) Hlsn Hch] Hn Hk HX Hi.
  pose proof (chain_below _ _ _ _ _ _ _ _ Hch) as Hbelow. split; try done.
  - exists snaps, m. splits; try done. by rewrite take_take, Nat.min_l by lia.
  - rewrite length_take. lia.
  - by eapply chain_take.
Qed.

Lemma cut_up il al c n h k f :
  cut m0 il al c n h k f -> older f = [] -> (al <= n <= length h)%nat -> (k <= n)%nat ->
  set_is il al (last_log c) c f (take n h) k.
Proof.
  intros [(Hwf & _ & Hc) [lo Hi]] Ho Hn Hk.
  assert (holds false (inodes f) (dir f) il al (take n h) k c) as Hc' by by eapply holds_take.
  split; [|done]. unfold up_ok, dirs. rewrite Ho. splits.
  - done.
  - intros d ->%list_elem_of_singleton. by exists c.
  - exists lo. by rewrite skipn_firstn_comm.
  - by eapply holds_log_name.
Qed.

(** ** Appends and syncs *)

(** A call on the open log. *)
Lemma up_log il al gl f h k h' k' g lo lo' :
  up_ok il al gl f h k -> h `prefix_of` h' -> (al <= length h')%nat ->
  inodes f !! il = Some (mkInode (framed al (drop al h)) (Some (lo, framed al (drop al h)))) ->
  g (mkInode (framed al (drop al h)) (Some (lo, framed al (drop al h)))) =
    mkInode (framed al (drop al h')) (Some (lo', framed al (drop al h'))) ->
  lo' `prefix_of` framed al (drop al h') -> framed al (seg h' al k') `prefix_of` lo' ->
  exists f', on_file (Log gl) g f = Some f' /\ up_ok il al gl f' h' k' /\ Var_up il f h k f' h' k'.
Proof.
  intros (Hwf & Hd & _ & Hl) Hpre Hal Hi Hg Hlo Hk. set (X := framed al (drop al h')) in *.
  assert (on_file (Log gl) g f = Some (mkFs (dir f) (older f)
    (<[il := mkInode X (Some (lo', X))]> (inodes f)) (fresh f))) as He.
  { unfold on_file. by rewrite Hl, Hi, Hg. }
  eexists. split; [exact He|].
  assert (forall i, i <> il -> <[il := mkInode X (Some (lo', X))]> (inodes f) !! i = inodes f !! i) as Hother
    by (intros i Hne; by rewrite lookup_insert_ne).
  split; [|by unfold Var_up]. unfold up_ok. splits.
  - by eapply wf_on_file.
  - intros d Hin. destruct (Hd d Hin) as [c Hc]. exists c. eapply (holds_log m0); [exact Hpre|done|exact Hother| |exact Hc].
    intros x (Hx & _). split; [done|]. split; [done|]. exists X, lo', X. cbn [inodes].
    rewrite lookup_insert_eq. by splits.
  - exists lo'. cbn [inodes]. by rewrite lookup_insert_eq.
  - done.
Qed.

Lemma task_var il al c t f h k f' h' k' :
  task_ok il al c t f h k -> Var_up il f h k f' h' k' -> up_ok il al (last_log c) f' h' k' ->
  task_ok il al c t f' h' k'.
Proof.
  intros Ht Hv Hu. pose proof (env_up m0 il al (last_log c)) as E. destruct t as [|?|ops r|ops r]; cbn [task_ok] in *.
  - destruct Ht as [Ho Hs]. split; [by destruct Hv as (_ & -> & _)|].
    by eapply (a_var _ _ _ (set_is_assertion m0 il al (last_log c) c)).
  - done.
  - destruct Ht as (Hne & Hs). split; [done|]. by eapply safe_var.
  - destruct Ht as (s & Hg & Hs). exists s. split; [done|]. by eapply safe_var.
Qed.

(** What up_ok says of the open log. *)
Lemma up_open il al gl f h k :
  up_ok il al gl f h k -> exists lo,
  inodes f !! il = Some (mkInode (framed al (drop al h)) (Some (lo, framed al (drop al h)))) /\
  lo `prefix_of` framed al (drop al h) /\ framed al (seg h al k) `prefix_of` lo.
Proof.
  intros (_ & Hd & [lo Ha] & _). destruct (Hd (dir f) ltac:(left)) as [c [Hok _ _ _ _ _ Hch]].
  destruct (chain_last _ _ _ _ _ _ _ _ _ Hch (last_log_Some c Hok)) as [_ (_ & _ & c1 & lo1 & hi1 & Hi & P1 & _ & _ & P4)].
  exists lo. rewrite Ha in Hi. injection Hi as <- <- <-. by splits.
Qed.

Lemma seg_grow h t al k : (k <= length h)%nat -> seg (h ++ t) al k = seg h al k.
Proof.
  intros Hk. destruct (decide (al <= k)%nat); [apply seg_app; lia|].
  unfold seg. by replace (k - al)%nat with 0%nat by lia.
Qed.

Lemma append_serving d d' t y f f' h k bodies ops :
  serving d t y f h k -> disk_lsn d = Z.of_nat (length h) -> Z.of_nat (length h) < 2 ^ 64 ->
  (k <= length h)%nat ->
  append_batch d bodies = (ops, Ok d') -> exec_all ops f = Some f' ->
  Forall small bodies /\ Z.of_nat (length (h ++ bodies)) < 2 ^ 64 /\
  disk_lsn d' = Z.of_nat (length (h ++ bodies)) /\ serving d' t y f' (h ++ bodies) k.
Proof.
  intros (il & al & Hal & Hoff & Hu & Hok & Hl & Hg & Hy & Ht) Hlsn Hlen Hk Happ Hex.
  unfold append_batch in Happ. rewrite Hlsn in Happ.
  destruct (encode_batch (Z.of_nat (length h)) bodies) as [[l b]|e] eqn:He; [|done].
  destruct (encode_batch_framed _ _ _ _ He Hlen) as (-> & -> & Hsm & Hlt). rewrite <-length_app in *.
  cbn in Happ. destruct (checked_add 64 (offset d) _) as [e|] eqn:Hadd; [|done]. cbn in Happ.
  injection Happ as <- <-. cbn [disk_lsn]. splits; try done.
  unfold checked_add in Hadd. destruct (_ <? _); [|done]. injection Hadd as <-.
  destruct (up_open _ _ _ _ _ _ Hu) as (lo & Hi & Hlo & Hkl).
  assert (framed al (drop al (h ++ bodies)) = framed al (drop al h) ++ framed (length h) bodies) as Hfr.
  { rewrite drop_app_le by done. rewrite framed_app, length_drop. do 2 f_equal. lia. }
  assert (Z.to_nat (offset d) = length (framed al (drop al h))) as Hto by (rewrite Hoff; unfold blen; lia).
  cbn [exec_all] in Hex. rewrite Hto in Hex.
  destruct (up_log il al (last_log (current d)) f h k (h ++ bodies) k
    (write_inode (length (framed al (drop al h))) (framed (length h) bodies)) lo lo Hu) as (f1 & He1 & Hu1 & Hv1);
    [by apply prefix_app_r|rewrite length_app; lia|done| |rewrite Hfr; by apply prefix_app_r|by rewrite seg_grow|].
  { unfold write_inode. cbn [cur bounds]. rewrite bool_decide_eq_true_2 by done. by rewrite overwrite_end, Hfr. }
  cbn [exec] in Hex. rewrite He1 in Hex. injection Hex as <-.
  exists il, al. cbn [current offset]. splits; try done.
  - rewrite length_app. lia.
  - rewrite Hfr, Hoff. unfold blen. rewrite length_app. lia.
  - destruct y as [[len n]|]; [|done]. destruct Hy as (Hn & Hkn & ->). cbn. rewrite length_app.
    splits; try lia. by rewrite seg_app by lia.
  - by eapply task_var.
Qed.

Lemma sync_begin_serving d t f h k :
  serving d t None f h k -> (k <= length h)%nat ->
  serving d t (Some (Z.to_nat (offset d), length h)) f h k.
Proof.
  intros (il & al & Hal & Hoff & Hrest) Hk. exists il, al. splits; try done; try apply Hrest.
  cbn. rewrite seg_all, Hoff. unfold blen. splits; lia.
Qed.

Lemma sync_end_serving d t f f' h k len n :
  serving d t (Some (len, n)) f h k -> exec (SyncPrefix (Log (last_log (current d))) len) f = Some f' ->
  (k <= n <= length h)%nat /\ serving d t None f' h n.
Proof.
  intros (il & al & Hal & Hoff & Hu & Hok & Hl & Hg & (Hn & Hkn & ->) & Ht) Hex. split; [lia|].
  destruct (up_open _ _ _ _ _ _ Hu) as (lo & Hi & Hlo & Hkl).
  set (X := framed al (seg h al n)) in *.
  assert (X `prefix_of` framed al (drop al h)) as HX by apply framed_prefix, prefix_take.
  set (lo' := if (length lo <? length X)%nat then take (length X) (framed al (drop al h)) else lo).
  assert (lo' `prefix_of` framed al (drop al h) /\ X `prefix_of` lo') as [H1 H2].
  { unfold lo'. destruct (Nat.ltb_spec (length lo) (length X)).
    - destruct HX as [t' ->]. rewrite take_app_length. by split; [apply prefix_app_r|].
    - split; [done|]. destruct (prefix_weak_total _ _ _ Hlo HX) as [Hp|]; [|done].
      assert (lo = X) as -> by (apply prefix_length_eq; [done|lia]). done. }
  destruct (up_log il al (last_log (current d)) f h k h n (sync_prefix_inode (length X)) lo lo' Hu)
    as (f1 & He1 & Hu1 & Hv1); [done..|].
  cbn [exec] in Hex. rewrite He1 in Hex. injection Hex as <-.
  exists il, al. splits; try done. by eapply task_var.
Qed.

(** ** Maintenance *)

Lemma set_is_facts il al gl c f h k :
  set_is il al gl c f h k -> current_ok c /\ logs c = seqZ (snapshot c) (Z.of_nat (length (logs c))).
Proof. intros [_ [Hok _ _ Hl _ _ _]]. done. Qed.

Lemma rotated_serving d d' m items ops r f h k :
  phase_ok (Up d m (Rotating [] (Ok d') items) None) f h k ->
  write_snapshot (last_log (current d')) (disk_lsn d') items = (ops, r) ->
  disk_lsn d' = Z.of_nat (length h) /\ serving d' (Snapshotting ops r) None f h k.
Proof.
  intros (Hrun & Hlsn & _ & Hm & Hfit & Hok & Hl & Hg & Hs) Hw.
  apply (safe_done _ _ _ (env_eq m0)) in Hs as (_ & _ & -> & Ho & il & Hset). cbn [disk_lsn current] in *.
  rewrite last_log_rotated in Hw. split; [done|]. destruct (set_is_facts _ _ _ _ _ _ _ Hset) as [Hok' Hl'].
  pose proof (last_log_seqZ _ Hok Hl) as Hlast. pose proof (logs_nonempty _ Hok) as Hne.
  assert (0 < Z.of_nat (length (logs (current d)))) as Hpos by (destruct (logs (current d)); [done|simpl; lia]).
  assert (last_log (current d) + 1 <> snapshot (current d)) as Hsn by lia.
  exists il, (length h). cbn [current offset]. rewrite last_log_rotated, drop_ge, framed_nil by done.
  splits; try done; [apply Hset|]. unfold task_ok. rewrite last_log_rotated. split; [done|].
  pose proof (snapshot_safe m0 il (length h) (rotated (current d) (last_log (current d) + 1)) m items f h k ops r)
    as Hsafe. rewrite last_log_rotated in Hsafe. rewrite Hlsn in Hw. apply Hsafe; try done.
  unfold base_is. rewrite firstn_all. by splits.
Qed.

Lemma snapshotting_serving d y op ops r f f' h k :
  serving d (Snapshotting (op :: ops) r) y f h k -> exec op f = Some f' ->
  serving d (Snapshotting ops r) y f' h k.
Proof.
  intros (il & al & Hal & Hoff & _ & Hok & Hl & Hg & Hy & Hne & Hs) He.
  apply (safe_step _ _ _ (env_up m0 il al _)) in Hs as (f1 & He1 & Hs). rewrite He in He1. injection He1 as <-.
  exists il, al. splits; try done; by eapply safe_Q.
Qed.

Lemma publishing_serving d y op ops r f f' h k :
  serving d (Publishing (op :: ops) r) y f h k -> exec op f = Some f' ->
  serving d (Publishing ops r) y f' h k.
Proof.
  intros (il & al & Hal & Hoff & _ & Hok & Hl & Hg & Hy & s & Hgen & Hs) He.
  apply (safe_step _ _ _ (env_up m0 il al _)) in Hs as (f1 & He1 & Hs). rewrite He in He1. injection He1 as <-.
  exists il, al. splits; try done; [by eapply safe_Q|]. by exists s.
Qed.

Lemma snapshotted_serving d y s ops r f h k :
  serving d (Snapshotting [] (Ok s)) y f h k -> Z.of_nat (length h) < 2 ^ 64 ->
  publish_snapshot (current d) s = (ops, r) -> serving d (Publishing ops r) y f h k.
Proof.
  intros (il & al & Hal & Hoff & Hu & Hok & Hl & Hg & Hy & Hne & Hs) Hlen Hp.
  apply (safe_done _ _ _ (env_up m0 il al _)) in Hs as (Ho & snaps & m & Hsn & Hr & Hsm & Hb & Es).
  exists il, al. splits; try done. exists s. split; [by rewrite Es|].
  eapply publish_safe; try done. unfold is_u. lia.
Qed.

Lemma published_serving d y c f h k :
  serving d (Publishing [] (Ok c)) y f h k ->
  serving (mkDisk c (offset d) (disk_lsn d)) Idle y f h k.
Proof.
  intros (il & al & Hal & Hoff & Hu & Hok & Hl & Hg & Hy & s & Hgen & Hs).
  apply (safe_done _ _ _ (env_up m0 il al _)) in Hs as (-> & Ho & Hset).
  destruct (advance_logs (current d) s Hok Hl Hgen) as [Hlogs _].
  assert (last_log (clear_garbage (advance (current d) s)) = last_log (current d)) as Hlast.
  { unfold last_log at 1. cbn [logs clear_garbage]. by rewrite Hlogs. }
  destruct (set_is_facts _ _ _ _ _ _ _ Hset) as [Hok' Hl'].
  exists il, al. cbn [current offset]. rewrite Hlast. splits; try done. unfold task_ok. by rewrite Hlast.
Qed.

Lemma rotate_phase d m items ops r f h k :
  hist_ok m0 h -> (k <= length h)%nat -> phase_ok (Up d m Idle None) f h k ->
  m_snapshot m = Ok items -> items_fit items -> rotate d = (ops, r) ->
  phase_ok (Up d m (Rotating ops r items) None) f h k.
Proof.
  intros Hh Hk (Hrun & Hlsn & il & al & Hal & Hoff & Hu & Hok & Hl & Hg & _ & Ho & Hset) Hm Hfit Hr.
  unfold phase_ok. splits; try done. by eapply rotate_safe.
Qed.

Lemma scan_phase threads c m l off b ops r f h k :
  hist_ok m0 h -> (k <= length h)%nat -> phase_ok (Starting [] (Ok c)) f h k ->
  recover_scan threads m0 c f = Some (Ok (m, l, off)) -> content (Log (last_log c)) f = Some b ->
  recover_finish c off (length b) = (ops, r) -> phase_ok (Finishing ops r m l off) f h k.
Proof.
  intros Hh Hk Hs Hscan Hb Hf. apply (safe_done _ _ _ (env_eq m0)) in Hs as (_ & _ & c' & il & al & Hc & Hr & (b' & lo & Hi)).
  injection Hc as <-. destruct (recover_scan_ok m0 threads f il al h k c Hh Hk (proj2 (proj2 Hr)))
    as (n & m' & b1 & Hscan' & Hn & Hkn & Hm & Hcur & Hcont & Hp).
  rewrite Hscan in Hscan'. injection Hscan' as -> -> ->. rewrite Hb in Hcont. injection Hcont as <-.
  rewrite Hi in Hcur. injection Hcur as ->.
  destruct (recover_finish_safe m0 il al c n h k f b lo _ ops r Hr Hi Hp Hkn eq_refl Hf) as [-> Hs].
  by exists il, al, c, n.
Qed.

Lemma up_phase c m l off f h k :
  phase_ok (Finishing [] (Ok c) m l off) f h k -> exists n,
  l = Z.of_nat n /\ (k <= n <= length h)%nat /\
  phase_ok (Up (mkDisk c (Z.of_nat off) l) m Idle None) f (take n h) k.
Proof.
  intros (il & al & c0 & n & Hc & -> & Hn & Hk & Hm & -> & Hs). injection Hc as ->.
  apply (safe_done _ _ _ (env_eq m0)) in Hs as (_ & _ & Ho & Hcut). exists n. splits; [done|lia|lia|].
  apply cut_up in Hcut as Hset; try done. destruct (set_is_facts _ _ _ _ _ _ _ Hset) as [Hok' Hl'].
  assert (length (take n h) = n) as Hlen by (rewrite length_take; lia).
  unfold phase_ok. cbn [disk_lsn]. rewrite Hlen. splits; [done|done|].
  exists il, al. cbn [current offset]. rewrite Hlen. splits; try done; [lia| |apply Hset].
  unfold blen. by rewrite skipn_firstn_comm.
Qed.

(** ** The invariant holds *)

Lemma empty_fs_ok : down_ok m0 empty_fs [] 0.
Proof.
  left. split.
  - split.
    + intros d x i ->%list_elem_of_singleton Hx. cbn in Hx. by rewrite lookup_empty in Hx.
    + intros d x y i ->%list_elem_of_singleton Hx. cbn in Hx. by rewrite lookup_empty in Hx.
    + intros x i d y _ Hx. cbn in Hx. by rewrite lookup_empty in Hx.
  - intros d ->%list_elem_of_singleton. by split; [apply lookup_empty|].
Qed.

Lemma hist_ok_app h bodies m' :
  hist_ok m0 h -> Forall small bodies -> Z.of_nat (length (h ++ bodies)) < 2 ^ 64 ->
  run m0 0 (h ++ bodies) = Ok m' -> hist_ok m0 (h ++ bodies).
Proof. intros (Hs & _ & _) Hb Hl Hr. split; [by apply Forall_app|]. eauto. Qed.

Lemma hist_ok_take h n : hist_ok m0 h -> hist_ok m0 (take n h).
Proof.
  intros Hh. split; [apply Forall_take, Hh|]. split; [|by apply run_take].
  destruct Hh as (_ & Hl & _). rewrite length_take. lia.
Qed.

Lemma append_ok d d' m m' t y f f' h k rs bodies ops :
  sys_ok (mkSys f (Up d m t y) h k) -> rotating t = false -> Forall m_valid rs ->
  Forall2 (fun r b => m_encode r = Ok b) rs bodies ->
  append_batch d bodies = (ops, Ok d') -> exec_all ops f = Some f' ->
  apply_all m (disk_lsn d) rs = Ok m' ->
  sys_ok (mkSys f' (Up d' m' t y) (h ++ bodies) k).
Proof.
  intros (Hh & Hk & (i & Hrun & Hsim) & Hlsn & Hp) Hrot Hval Hrs Happ Hex Hm'. cbn [hist dur phase fs] in *.
  assert (serving d t y f h k) as Hserv by by destruct t.
  destruct (append_serving _ _ _ _ _ _ _ _ _ _ Hserv Hlsn (proj1 (proj2 Hh)) Hk Happ Hex) as (Hsm & Hlen & Hlsn' & Hserv').
  rewrite Hlsn in Hm'. destruct (apply_all_run m i _ rs bodies m' Hsim Hval Hrs Hm') as (i' & Hi' & Hsim').
  assert (run m0 0 (h ++ bodies) = Ok i') as Hrun' by by rewrite run_app, Hrun.
  split; [by eapply hist_ok_app|]. split; [cbn; rewrite length_app; lia|]. cbn. splits; try done; [by exists i'|]. by destruct t.
Qed.

Lemma fail_ok p f f' h k :
  sys_ok (mkSys f p h k) -> kill f f' \/ power_loss f f' -> sys_ok (mkSys f' Down h k).
Proof.
  intros (Hh & Hk & Hp) Hf. split; [done|]. split; [done|]. apply phase_crash_ok in Hp.
  by destruct Hf; [eapply kill_down|eapply power_loss_down].
Qed.

Lemma sys_ok_step threads s s' : sys_ok s -> step threads m0 s s' -> sys_ok s'.
Proof.
  intros Hs Hstep. destruct Hstep; try (by eapply append_ok); try (by eapply fail_ok; eauto);
    destruct Hs as (Hh & Hk & Hp); cbn [hist dur phase fs] in *; unfold sys_ok; cbn [hist dur phase fs].
  - (* sync begin *) splits; try done. destruct Hp as (? & ? & Hp). unfold phase_ok. splits; try done.
    by destruct t; try done; apply sync_begin_serving.
  - (* sync end *) destruct Hp as (? & ? & Hp). eassert (serving d t (Some _) f h k) as Hserv.
    { destruct t; try done. by destruct Hp as (? & _). }
    destruct (sync_end_serving _ _ _ _ _ _ _ _ Hserv ltac:(done)) as [Hn Hserv'].
    splits; [done|lia|]. unfold phase_ok. splits; try done. destruct t; try done. by destruct Hp as (? & _).
  - splits; try done. by eapply rotate_phase.
  - (* rotating *) splits; try done. destruct Hp as (? & ? & ? & ? & ? & ? & ? & ? & Hs).
    apply (safe_step _ _ _ (env_eq m0)) in Hs as (f1 & He1 & Hs). simplify_eq. unfold phase_ok. by splits.
  - splits; try done. destruct (rotated_serving _ _ _ _ _ _ _ _ _ Hp ltac:(done)) as [Hl Hserv].
    destruct Hp as (? & _). unfold phase_ok. by splits.
  - splits; try done. destruct Hp as (? & ? & Hp). unfold phase_ok. splits; try done. by eapply snapshotting_serving.
  - splits; try done. destruct Hp as (? & ? & Hp). unfold phase_ok. splits; try done.
    eapply snapshotted_serving; try done. apply Hh.
  - splits; try done. destruct Hp as (? & ? & Hp). unfold phase_ok. splits; try done. by eapply publishing_serving.
  - splits; try done. destruct Hp as (? & ? & Hp). unfold phase_ok. splits; try done. by apply published_serving.
  - splits; try done. by apply recover_start_safe.
  - splits; try done. apply (safe_step _ _ _ (env_eq m0)) in Hp as (f1 & He1 & Hs). by simplify_eq.
  - splits; try done. by eapply scan_phase.
  - splits; try done. destruct Hp as (il & al & c & n & ? & ? & ? & ? & ? & ? & Hs).
    apply (safe_step _ _ _ (env_eq m0)) in Hs as (f1 & He1 & Hs). simplify_eq. by exists il, al, c, n.
  - destruct (up_phase _ _ _ _ _ _ _ Hp) as (n & -> & Hn & Hup). rewrite Nat2Z.id.
    splits; [by apply hist_ok_take|rewrite length_take; lia|done].
Qed.

Lemma reachable_ok threads s : reachable threads m0 s -> sys_ok s.
Proof.
  intros Hr. induction Hr as [|s s' _ IH Hstep]; [|by eapply sys_ok_step].
  split; [|split; [done|apply empty_fs_ok]]. split; [constructor|]. split; [done|]. by exists m0.
Qed.

(** ** Recovery completes *)

Lemma safe_exec_all Q Var vol (Post : Fs -> history -> nat -> Prop) ops f h k :
  environment Q Var vol -> safe Q Var Post ops f h k ->
  exists f', exec_all ops f = Some f' /\ safe Q Var Post [] f' h k.
Proof.
  intros E. revert f. induction ops as [|op ops IH]; intros f Hs; [by exists f|].
  apply (safe_step _ _ _ E) in Hs as (f1 & He & Hs). cbn [exec_all]. rewrite He. by apply IH.
Qed.

Lemma starting_run threads ops r f f' h k :
  exec_all ops f = Some f' ->
  rtc (step threads m0) (mkSys f (Starting ops r) h k) (mkSys f' (Starting [] r) h k).
Proof.
  revert f. induction ops as [|op ops IH]; intros f; cbn [exec_all]; [by intros [= <-]|].
  destruct (exec op f) as [f1|] eqn:He; [|done]. intros Hex.
  eapply rtc_l; [by apply s_starting|by apply IH].
Qed.

Lemma finishing_run threads ops r m l off f f' h k :
  exec_all ops f = Some f' ->
  rtc (step threads m0) (mkSys f (Finishing ops r m l off) h k) (mkSys f' (Finishing [] r m l off) h k).
Proof.
  revert f. induction ops as [|op ops IH]; intros f; cbn [exec_all]; [by intros [= <-]|].
  destruct (exec op f) as [f1|] eqn:He; [|done]. intros Hex.
  eapply rtc_l; [by apply s_finishing|by apply IH].
Qed.

(** Recovery of a stream that is down, as a function and as a run. *)
Lemma recover_runs threads f h k :
  sys_ok (mkSys f Down h k) -> exists f' d m n,
  recover threads m0 f = Some (Ok (f', d, m)) /\
  rtc (step threads m0) (mkSys f Down h k) (mkSys f' (Up d m Idle None) (take n h) k) /\
  (k <= n <= length h)%nat /\ disk_lsn d = Z.of_nat n /\ runs m0 (take n h) m.
Proof.
  intros (Hh & Hk & Hd). cbn [hist dur phase fs] in *. destruct (recover_start f) as [ops r] eqn:Hst.
  pose proof (recover_start_safe m0 f h k ops r Hd Hst) as Hs.
  destruct (safe_exec_all _ _ _ _ _ _ _ _ (env_eq m0) Hs) as (f1 & He1 & Hs1).
  pose proof (safe_done _ _ _ (env_eq m0) _ _ _ _ Hs1) as (_ & _ & c & il & al & -> & Hr & (b & lo & Hi)).
  destruct (recover_scan_ok m0 threads f1 il al h k c Hh Hk (proj2 (proj2 Hr)))
    as (n & m & b' & Hscan & Hn & Hkn & Hm & Hcur & Hcont & Hp).
  rewrite Hi in Hcur. injection Hcur as <-.
  destruct (recover_finish c (length (framed al (seg h al n))) (length b)) as [ops2 r2] eqn:Hfin.
  destruct (recover_finish_safe m0 il al c n h k f1 b lo _ ops2 r2 Hr Hi Hp Hkn eq_refl Hfin) as [-> Hs2].
  destruct (safe_exec_all _ _ _ _ _ _ _ _ (env_eq m0) Hs2) as (f2 & He2 & _).
  exists f2, (mkDisk (finished c) (Z.of_nat (length (framed al (seg h al n)))) (Z.of_nat n)), m, n.
  splits; try done; [| |lia].
  - unfold recover, exec_prog. rewrite Hst. cbn [fst snd]. rewrite He1. cbn. rewrite Hscan, Hcont, Hfin.
    cbn [fst snd]. by rewrite He2.
  - eapply rtc_l; [by apply s_start|]. etrans; [by apply starting_run|].
    eapply rtc_l; [by eapply s_scan|]. etrans; [by apply finishing_run|].
    replace (take n h) with (take (Z.to_nat (Z.of_nat n)) h) by by rewrite Nat2Z.id.
    apply rtc_once, s_up.
Qed.

(** ** Theorems *)



Lemma step_durable threads s s' :
  sys_ok s -> step threads m0 s s' ->
  (dur s <= dur s')%nat /\ take (dur s) (hist s') = take (dur s) (hist s).
Proof.
  intros (Hh & Hk & Hp) Hstep. destruct Hstep; cbn [hist dur phase fs] in *; try done.
  - split; [done|]. by rewrite take_app_le.
  - split; [|done]. destruct Hp as (_ & _ & Hp). eassert (serving d t (Some _) f h k) as (il & al & _ & _ & _ & _ & _ & _ & Hy & _).
    { destruct t; try done. by destruct Hp as (? & _). }
    cbn in Hy. lia.
  - split; [done|]. destruct (up_phase _ _ _ _ _ _ _ Hp) as (n & -> & Hn & _).
    by rewrite Nat2Z.id, take_take, Nat.min_l by lia.
Qed.

(** C2: the records a completed sync covers are never lost, reordered or changed: they are a
    prefix of the history in every later state, and later syncs only add to them. *)
Theorem durable_records_kept threads s s' :
  reachable threads m0 s -> rtc (step threads m0) s s' ->
  (dur s <= dur s')%nat /\ take (dur s) (hist s') = take (dur s) (hist s).
Proof.
  intros Hr Hrtc. apply reachable_ok in Hr. revert Hr. induction Hrtc as [s|s s1 s2 Hstep _ IH]; intros Hok; [done|].
  destruct (step_durable threads s s1 Hok Hstep) as [Hd Ht].
  destruct (IH (sys_ok_step threads s s1 Hok Hstep)) as [Hd' Ht']. split; [lia|].
  rewrite <-Ht. apply (f_equal (take (dur s))) in Ht'. by rewrite !take_take, !Nat.min_l in Ht' by lia.
Qed.


End Crash.

(** ** Runs *)

(** A power loss that keeps only what is certain. *)
Definition least (i : Inode) : Inode := synced match bounds i with Some (lo, _) => lo | None => [] end.

Definition bounded (i : Inode) : Prop :=
  match bounds i with Some (lo, hi) => lo `prefix_of` hi | None => True end.

#[local] Instance bounded_dec i : Decision (bounded i).
Proof. unfold bounded. destruct (bounds i) as [[lo hi]|]; apply _. Defined.

Definition lose (f : Fs) : Fs := mkFs (dir f) [] (least <$> inodes f) (fresh f).

Lemma power_loss_least f : map_Forall (fun _ i => bounded i) (inodes f) -> power_loss f (lose f).
Proof.
  intros Hb. split; [by left|]. split; [done|]. split; [done|]. intros i. cbn [inodes lose]. rewrite lookup_fmap.
  destruct (inodes f !! i) as [n|] eqn:Hi; cbn; constructor. split; [|done]. specialize (Hb i n Hi).
  unfold admissible, least, bounded in *. cbn. by destruct (bounds n) as [[lo hi]|].
Qed.

Section Runs.
Context `{Xxh3} `{Machine} `{same : !Sim} (m0 : MState) `{!MachineLaws m0}.

Abbreviation step_to := (fun s s' => rtc (step 1 m0) s s').

Lemma reachable_rtc s s' : reachable 1 m0 s -> step_to s s' -> reachable 1 m0 s'.
Proof. intros Hr Hs. induction Hs as [|s s1 s2 Hstep _ IH]; [done|]. apply IH. by eapply reach_step. Qed.

Definition run_up : option Sys :=
  match recover 1 m0 empty_fs with
  | Some (Ok (f, d, m)) => Some (mkSys f (Up d m Idle None) [] 0)
  | _ => None
  end.

Definition run_append (r : MRecord) (s : Sys) : option Sys :=
  match s with
  | mkSys f (Up d m Idle y) h k =>
    match m_encode r, apply_all m (disk_lsn d) [r] with
    | Ok b, Ok m' =>
      match append_batch d [b] with
      | (ops, Ok d') => (fun f => mkSys f (Up d' m' Idle y) (h ++ [b]) k) <$> exec_all ops f
      | _ => None
      end
    | _, _ => None
    end
  | _ => None
  end.

Definition run_sync (s : Sys) : option Sys :=
  match s with
  | mkSys f (Up d m Idle None) h k =>
    (fun f => mkSys f (Up d m Idle None) h (length h)) <$>
      exec (SyncPrefix (path false (last_log (current d))) (Z.to_nat (offset d))) f
  | _ => None
  end.

Definition run_rotate (s : Sys) : option Sys :=
  match s with
  | mkSys f (Up d m Idle None) h k =>
    match m_snapshot m with
    | Ok items =>
      if Z.of_nat (length (concat (encode_chunks items 0 []).1)) <? 2 ^ 64 then
        let '(ops, r) := rotate d in Some (mkSys f (Up d m (Rotating ops r items) None) h k)
      else None
    | Err _ => None
    end
  | _ => None
  end.

Definition run_lose (s : Sys) : option Sys :=
  if decide (map_Forall (fun _ i => bounded i) (inodes (fs s)))
  then Some (mkSys (lose (fs s)) Down (hist s) (dur s)) else None.

Lemma run_append_steps r s s' : m_valid r -> run_append r s = Some s' -> step_to s s'.
Proof.
  intros Hv. destruct s as [f [|?|?|d m [] y] h k]; try done. cbn [run_append].
  destruct (m_encode r) as [b|] eqn:Hb; [|done]. destruct (apply_all m (disk_lsn d) [r]) as [m'|] eqn:Hm; [|done].
  destruct (append_batch d [b]) as [ops [d'|e]] eqn:Ha; [|done].
  destruct (exec_all ops f) as [f'|] eqn:He; [|done]. intros [= <-].
  apply rtc_once. eapply (s_append 1 m0 f f' d d' m m' Idle y h k [r] [b] ops); try done; by repeat constructor.
Qed.

Lemma run_sync_steps s s' : run_sync s = Some s' -> step_to s s'.
Proof.
  destruct s as [f [|?|?|d m [] []] h k]; try done. cbn [run_sync].
  destruct (exec _ f) as [f'|] eqn:He; [|done]. intros [= <-].
  eapply rtc_l; [by apply s_sync_begin|]. by apply rtc_once, s_sync_end.
Qed.

Lemma run_rotate_steps s s' : run_rotate s = Some s' -> step_to s s'.
Proof.
  destruct s as [f [|?|?|d m [] []] h k]; try done. cbn [run_rotate].
  destruct (m_snapshot m) as [items|] eqn:Hm; [|done].
  destruct (Z.ltb_spec (Z.of_nat (length (concat (encode_chunks items 0 []).1))) (2 ^ 64)); [|done].
  destruct (rotate d) as [ops r] eqn:Hr. intros [= <-]. by apply rtc_once, s_rotate.
Qed.

Lemma run_lose_steps s s' : run_lose s = Some s' -> step_to s s'.
Proof.
  unfold run_lose. destruct (decide _); [|done]. intros [= <-]. destruct s as [f p h k].
  by apply rtc_once, s_power_loss, power_loss_least.
Qed.

Lemma run_up_reachable s : run_up = Some s -> reachable 1 m0 s.
Proof.
  destruct (recover_runs m0 1 empty_fs [] 0) as (f & d & m & n & Hrec & Hrun & _).
  { apply (reachable_ok m0 1 init), reach_init. }
  unfold run_up. rewrite Hrec. intros [= <-]. eapply reachable_rtc; [apply reach_init|]. by rewrite take_nil in Hrun.
Qed.

(** A stream is created, a record is appended and synced, another one appended, a rotation
    begins, and the machine loses power. *)
Definition run_synced (r : MRecord) : option Sys := (run_up ≫= run_append r) ≫= run_sync.
Definition run_lost (r r' : MRecord) : option Sys := ((run_synced r ≫= run_append r') ≫= run_rotate) ≫= run_lose.

Lemma run_synced_reachable r s : m_valid r -> run_synced r = Some s -> reachable 1 m0 s.
Proof.
  unfold run_synced. intros Hv (s2 & (s1 & Hup & Ha)%bind_Some & Hs)%bind_Some.
  eapply reachable_rtc; [by apply run_up_reachable|]. etrans; [by eapply run_append_steps|by apply run_sync_steps].
Qed.

Lemma run_lost_steps r r' s s' : m_valid r' -> run_synced r = Some s -> run_lost r r' = Some s' -> step_to s s'.
Proof.
  unfold run_lost. intros Hv ->. cbn. intros (s3 & (s2 & Ha & Hr)%bind_Some & Hl)%bind_Some.
  etrans; [by eapply run_append_steps|]. etrans; [by eapply run_rotate_steps|by apply run_lose_steps].
Qed.

End Runs.

(** A machine that keeps its records, one snapshot record for each. *)
Definition list_machine : Machine := {|
  MRecord := list byte; MSnapshotRecord := list byte; MState := list (list byte);
  m_valid := fun _ => True; m_encode := fun r => Ok r; m_decode := fun b => Ok b;
  m_apply := fun m _ r => Ok (m ++ [r]);
  m_snapshot := fun m => Ok (Ok <$> m);
  m_decode_snapshot := fun b => Ok b;
  m_restore := fun m r => Ok (m ++ [r])
|}.

#[local] Existing Instances toy_xxh3 list_machine.

Definition empty_machine : MState := ([] : list (list byte)).

Lemma list_machine_run (m : list (list byte)) a l : run (m : MState) a l = Ok (m ++ l).
Proof.
  revert m a. induction l as [|b l IH]; intros m a; simpl; [by rewrite app_nil_r|]. by rewrite IH, <-app_assoc.
Qed.

Lemma list_machine_restore (m : list (list byte)) l : restore_all (m : MState) l = Ok (m ++ l).
Proof.
  revert m. induction l as [|b l IH]; intros m; simpl; [by rewrite app_nil_r|]. by rewrite IH, <-app_assoc.
Qed.

#[local] Instance list_machine_sim : Sim := eq.

#[local] Instance list_machine_laws : MachineLaws empty_machine.
Proof.
  split; [done|done|by intros m i r b l m' _ _ [= <-]| | |].
  - intros m i r l i' -> _ E. by exists i'.
  - intros m i r l m' -> _ E. by exists m'.
  - intros m i snaps -> E. unfold empty_machine. rewrite list_machine_restore. eexists. split; [done|]. cbn in *.
    injection E as E. symmetry. eapply list_fmap_eq_inj; [|exact E]. by intros x y [= ->].
Qed.

Section Demo.

Definition demo_synced : option Sys := run_synced empty_machine [x41].
Definition demo_lost : option Sys := run_lost empty_machine [x41] [x42].

(** What the run leads to, evaluated. *)
Lemma demo_synced_value :
  (fun s => (dur s, hist s)) <$> demo_synced = Some (1%nat, [[x41]]).
Proof. vm_compute. reflexivity. Qed.

Lemma demo_lost_value :
  (fun s => (match phase s with Down => true | _ => false end, dur s, hist s)) <$> demo_lost =
  Some (true, 1%nat, [[x41]; [x42]]).
Proof. vm_compute. reflexivity. Qed.

#[local] Opaque demo_synced demo_lost.

Lemma demo_states : exists s s', demo_synced = Some s /\ demo_lost = Some s' /\
  reachable 1 empty_machine s /\ reachable 1 empty_machine s' /\ rtc (step 1 empty_machine) s s' /\
  phase s' = Down /\ dur s = 1%nat /\ dur s' = 1%nat /\ hist s = [[x41]] /\ hist s' = [[x41]; [x42]].
Proof.
  pose proof demo_synced_value as (s & Es & Hs)%fmap_Some. pose proof demo_lost_value as (s' & El & Hl)%fmap_Some.
  injection Hs as Hd Hh. injection Hl as Hp Hd' Hh'. exists s, s'.
  pose proof (run_synced_reachable empty_machine _ s I Es) as Hr. pose proof (run_lost_steps empty_machine _ _ s s' I Es El) as Hrtc.
  split; [exact Es|]. split; [exact El|]. split; [exact Hr|]. split; [by eapply reachable_rtc|]. split; [exact Hrtc|].
  split; [by destruct (phase s')|]. 
  exact (conj (eq_sym Hd) (conj (eq_sym Hd') (conj (eq_sym Hh) (eq_sym Hh')))).
Qed.



Lemma durable_records_kept_witness : exists s s', demo_synced = Some s /\ demo_lost = Some s' /\
  (dur s <= dur s')%nat /\ take 1 (hist s') = [[x41]].
Proof.
  destruct demo_states as (s & s' & Es & El & Hr & _ & Hrtc & _ & Hd & _ & Hh & _).
  exists s, s'. split; [exact Es|]. split; [exact El|].
  pose proof (durable_records_kept empty_machine 1 s s' Hr Hrtc) as Hk. rewrite Hh, Hd in Hk. rewrite Hd. exact Hk.
Defined.


End Demo.

End JournalCrash.
