(* ===== verification/MetaTypes.v ===== *)
(** The metadata service's vocabulary (crates/talon-metadata/src): revisions
    (revision.rs), records (record.rs), capabilities (capability.rs), errors
    (error.rs), transactions (transaction.rs) and the mapping fence (fence.rs).

    A newtype over a string or an integer is the string or the [Z] itself; its
    checked constructor keeps the source's guard.  A panic is [None]. *)

From stdpp Require Export pretty.
From S2P Require Import Prelude.

Module MetaTypes.

(** ** capability.rs *)

Inductive Capability := Locks | HardLinks | WriteBack.

#[export] Instance Capability_eq_dec : EqDecision Capability.
Proof. solve_decision. Defined.

Definition ALL : list Capability := [Locks; HardLinks; WriteBack].

(** A [u8] bit mask. *)
Abbreviation CapabilitySet := Z (only parsing).

Definition bit (c : Capability) : Z :=
  match c with
  | Locks => Z.shiftl 1 0
  | HardLinks => Z.shiftl 1 1
  | WriteBack => Z.shiftl 1 2
  end.

Definition none : CapabilitySet := 0.
Definition with_ (s : CapabilitySet) (c : Capability) : CapabilitySet := Z.lor s (bit c).
Definition supports (s : CapabilitySet) (c : Capability) : bool :=
  negb (Z.land s (bit c) =? 0).
Definition is_empty (s : CapabilitySet) : bool := s =? 0.
Definition iter (s : CapabilitySet) : list Capability := filter (fun c => supports s c) ALL.
Definition from_iter (cs : list Capability) : CapabilitySet := foldl with_ none cs.

(** ** revision.rs *)

Abbreviation StoreRevision := string (only parsing).
Abbreviation MappingRevision := Z (only parsing).
Definition INITIAL : MappingRevision := 0.
Definition next (r : MappingRevision) : option MappingRevision := checked_add 64 r 1.

(** ** error.rs *)

Inductive MetadataBackend := Memory | Etcd.

Inductive MetadataError :=
  | CapabilityUnsupported (backend : MetadataBackend) (capability : Capability)
  | CompareAndSwapFailed (expected observed : StoreRevision)
  | NotFound (key : string)
  | AlreadyExists (key : string)
  | InvalidRecord (detail : string)
  | InvalidRevision (backend : option MetadataBackend) (revision detail : string)
  | InvalidLeaseTtl (nanos : Z)
  | SessionExpired (session : string)
  | Compacted (requested oldest : StoreRevision)
  | WatchLagged (after : StoreRevision) (skipped : Z)
  | Authentication (backend : MetadataBackend)
  | PermissionDenied (backend : MetadataBackend)
  | Timeout (backend : MetadataBackend)
  | Unavailable (backend : MetadataBackend) (detail : string).

Abbreviation MetadataResult := (result MetadataError).

Definition is_retryable (e : MetadataError) : bool :=
  match e with
  | Compacted _ _ | WatchLagged _ _ | Timeout _ | Unavailable _ _ => true
  | _ => false
  end.

Definition is_capability_gap (e : MetadataError) : bool :=
  match e with CapabilityUnsupported _ _ => true | _ => false end.

Definition StoreRevision_new (value : string) : MetadataResult StoreRevision :=
  if (value =? "")%string
  then Err (InvalidRevision None value "revision must not be empty")
  else Ok value.

(** ** record.rs *)

Abbreviation NamespaceId := string (only parsing).
Definition NamespaceId_new (value : string) : MetadataResult NamespaceId :=
  if (value =? "")%string then Err (InvalidRecord "namespace id must not be empty")
  else Ok value.

Abbreviation InodeNumber := Z (only parsing).
Definition InodeNumber_new (value : Z) : MetadataResult InodeNumber :=
  if value =? 0 then Err (InvalidRecord "inode number must be non-zero") else Ok value.

Abbreviation LinkCount := Z (only parsing).
Definition PROMOTED : LinkCount := 2.
Definition LinkCount_new (value : Z) : MetadataResult LinkCount :=
  if value <? 2
  then Err (InvalidRecord ("link count " +:+ pretty value +:+ " does not belong in TMS: a file with fewer than two links occupies zero records (ADR 0003 §3)"))
  else Ok value.
Definition increment (c : LinkCount) : option LinkCount := checked_add 64 c 1.
Definition decrement (c : LinkCount) : option LinkCount :=
  if negb (c - 1 =? 0) && (2 <=? c - 1) then Some (c - 1) else None.

Record InodeRecord := mkInodeRecord {
  ir_namespace : NamespaceId;
  ir_inode : InodeNumber;
  link_count : LinkCount;
  corrupt : bool
}.

Record PathIndexEntry := mkPathIndexEntry {
  pe_namespace : NamespaceId;
  pe_path : string;
  pe_inode : InodeNumber
}.

Inductive LinkTransitionState := Preparing | Committed | Aborted.

#[export] Instance LinkTransitionState_eq_dec : EqDecision LinkTransitionState.
Proof. solve_decision. Defined.

Definition original_is_authoritative (s : LinkTransitionState) : bool :=
  match s with Preparing | Aborted => true | Committed => false end.

Record LinkTransition := mkLinkTransition {
  lt_namespace : NamespaceId;
  operation_id : string;
  state : LinkTransitionState;
  source_path : string;
  new_path : string;
  source_version : string;
  expected_mapping_revision : MappingRevision;
  inode : InodeNumber;
  operation_worker : string;
  operation_worker_incarnation : string
}.

(** ** transaction.rs *)

Inductive Precondition :=
  | MappingRevisionIs (namespace : NamespaceId) (expected : MappingRevision)
  | PathIsUnmapped (namespace : NamespaceId) (path : string)
  | PathResolvesTo (namespace : NamespaceId) (path : string) (inode : InodeNumber)
  | TransitionExists (namespace : NamespaceId) (operation_id : string)
  | TransitionAbsent (namespace : NamespaceId) (operation_id : string).

Inductive Operation :=
  | PutPathIndex (entry : PathIndexEntry)
  | RemovePathIndex (namespace : NamespaceId) (path : string)
  | PutInode (record : InodeRecord)
  | RemoveInode (namespace : NamespaceId) (inode : InodeNumber)
  | PutTransition (transition : LinkTransition)
  | RemoveTransition (namespace : NamespaceId) (operation_id : string)
  | AdvanceMappingRevision (namespace : NamespaceId).

Record Transaction := mkTransaction {
  preconditions : list Precondition;
  operations : list Operation
}.

Definition Transaction_new : Transaction := mkTransaction [] [].
Definition when (t : Transaction) (p : Precondition) : Transaction :=
  mkTransaction (preconditions t ++ [p]) (operations t).
Definition then_ (t : Transaction) (o : Operation) : Transaction :=
  mkTransaction (preconditions t) (operations t ++ [o]).
Definition Transaction_is_empty (t : Transaction) : bool :=
  match operations t with [] => true | _ => false end.

Record TransactionOutcome := mkTransactionOutcome {
  to_revision : StoreRevision;
  to_mapping_revision : option MappingRevision
}.

(** ** fence.rs *)

Inductive FenceDecision := Proceed | ClientStale | WorkerStale.

Definition is_proceed (d : FenceDecision) : bool :=
  match d with Proceed => true | _ => false end.

Definition fence_check (request local : MappingRevision) : FenceDecision :=
  match request ?= local with
  | Eq => Proceed
  | Lt => ClientStale
  | Gt => WorkerStale
  end.

(** ** Lemmas *)

Lemma fence_check_proceed r l : is_proceed (fence_check r l) = true <-> r = l.
Proof. unfold fence_check. destruct (Z.compare_spec r l); simpl; split; try done; lia. Qed.

Lemma next_spec r r' : next r = Some r' <-> r' = r + 1 /\ r + 1 < 2 ^ 64.
Proof.
  unfold next, checked_add. destruct (Z.ltb_spec (r + 1) (2 ^ 64)); split; try done.
  - by intros [= <-].
  - by intros [-> _].
  - intros [_ ?]; lia.
Qed.

Lemma increment_spec c c' : increment c = Some c' <-> c' = c + 1 /\ c + 1 < 2 ^ 64.
Proof. apply next_spec. Qed.

Lemma decrement_spec c c' : decrement c = Some c' <-> c' = c - 1 /\ 3 <= c.
Proof.
  unfold decrement. destruct (negb (c - 1 =? 0) && (2 <=? c - 1)) eqn:E; split; try done.
  - intros [= <-]. lia.
  - by intros [-> _].
  - intros [_ ?]. lia.
Qed.

Lemma decrement_None c : decrement c = None <-> c <= 2.
Proof.
  unfold decrement. destruct (negb (c - 1 =? 0) && (2 <=? c - 1)) eqn:E; split; try done; lia.
Qed.

Lemma bit_supports c c' : Z.land (bit c) (bit c') = if decide (c = c') then bit c else 0.
Proof. by destruct c, c'. Qed.

(** [with] and [supports] implement set insertion and membership. *)
Lemma supports_with s c c' :
  supports (with_ s c) c' = supports s c' || bool_decide (c = c').
Proof.
  unfold supports, with_. rewrite Z.land_lor_distr_l, bit_supports.
  destruct (decide (c = c')) as [->|Hne].
  - rewrite bool_decide_true, orb_true_r by done. apply negb_true_iff, Z.eqb_neq.
    intros [_ E]%Z.lor_eq_0_iff. by destruct c'.
  - by rewrite bool_decide_false, orb_false_r, Z.lor_0_r by done.
Qed.

Lemma supports_none c : supports none c = false.
Proof. by destruct c. Qed.

Lemma supports_from_iter cs c : supports (from_iter cs) c = bool_decide (c ∈ cs).
Proof.
  assert (forall s, supports (foldl with_ s cs) c = supports s c || bool_decide (c ∈ cs)) as Hg.
  { induction cs as [|c0 cs IH]; intros s; cbn [foldl].
    - by rewrite bool_decide_false, orb_false_r by apply not_elem_of_nil.
    - rewrite IH, supports_with, <-orb_assoc. f_equal.
      apply eq_true_iff_eq. rewrite orb_true_iff, !bool_decide_eq_true, elem_of_cons.
      split; intros [->|?]; auto. }
  unfold from_iter. by rewrite Hg, supports_none.
Qed.

Lemma pretty_N_go_length x s : (String.length s <= String.length (pretty_N_go x s))%nat.
Proof.
  revert s. induction (N.lt_wf_0 x) as [x _ IH]; intros s.
  destruct (decide (x = 0)%N) as [->|]; [by rewrite pretty_N_go_0|].
  rewrite pretty_N_go_step by lia. etrans; [|apply IH, N.div_lt; lia]. simpl. lia.
Qed.

(** Decimal rendering is never empty, so [StoreRevision::new] accepts it. *)
Lemma pretty_Z_nonempty (z : Z) : pretty z <> ""%string.
Proof.
  assert (forall p, pretty_N_go (Npos p) "" <> ""%string) as Hp.
  { intros p E. pose proof (pretty_N_go_length (Npos p / 10)%N
      (String (pretty_N_char (Npos p `mod` 10)) "")) as Hl.
    rewrite <-pretty_N_go_step, E in Hl by lia. simpl in Hl. lia. }
  destruct z as [|p|p]; [done| |].
  - exact (Hp p).
  - done.
Qed.

Lemma StoreRevision_new_pretty (z : Z) : StoreRevision_new (pretty z) = Ok (pretty z).
Proof.
  unfold StoreRevision_new. destruct (String.eqb_spec (pretty z) "") as [E|]; [|done].
  by apply pretty_Z_nonempty in E.
Qed.

End MetaTypes.
