(* ===== verification/MetaStore.v ===== *)
(** The in-process metadata store (crates/talon-metadata/src/memory.rs).

    The mutex makes every method atomic, so a method is a function of the store
    that also returns the store it leaves behind, with the error when it fails:
    that a failed commit leaves nothing behind is a theorem, not a consequence
    of the types.  [None] is a panic (a revision counter overflowed). *)

From S2P Require Import Prelude MetaTypes.

Module MetaStore.
Import MetaTypes.
Local Open Scope Z_scope.

Record NamespaceState := mkNamespaceState {
  mapping_revision : MappingRevision;
  paths : gmap string InodeNumber;
  inodes : gmap Z InodeRecord;
  transitions : gmap string LinkTransition
}.

Definition NamespaceState_default : NamespaceState :=
  mkNamespaceState INITIAL ∅ ∅ ∅.

Record State := mkState {
  namespaces : gmap string NamespaceState;
  revision : Z
}.

Definition State_default : State := mkState ∅ 0.

Record MemoryMetadataStore := mkStore {
  st : State;
  capabilities : CapabilitySet
}.

Definition new : MemoryMetadataStore := mkStore State_default (with_ none HardLinks).
Definition without_capabilities : MemoryMetadataStore := mkStore State_default none.

Definition require (s : MemoryMetadataStore) (c : Capability) : MetadataResult unit :=
  if supports (capabilities s) c then Ok tt
  else Err (CapabilityUnsupported Memory c).

(** [state.namespaces.get(ns)], and [entry(ns).or_default()]. *)
Definition get (s : State) (ns : NamespaceId) : option NamespaceState := namespaces s !! ns.
Definition or_default (s : State) (ns : NamespaceId) : NamespaceState :=
  default NamespaceState_default (get s ns).
Definition put (s : State) (ns : NamespaceId) (n : NamespaceState) : State :=
  mkState (<[ns := n]> (namespaces s)) (revision s).

Definition set_paths n x := mkNamespaceState (mapping_revision n) x (inodes n) (transitions n).
Definition set_inodes n x := mkNamespaceState (mapping_revision n) (paths n) x (transitions n).
Definition set_transitions n x := mkNamespaceState (mapping_revision n) (paths n) (inodes n) x.
Definition set_mapping_revision n x := mkNamespaceState x (paths n) (inodes n) (transitions n).

Definition revision_of (s : State) (ns : NamespaceId) : MappingRevision :=
  match get s ns with Some n => mapping_revision n | None => INITIAL end.

Definition check (s : State) (p : Precondition) : MetadataResult unit :=
  match p with
  | MappingRevisionIs ns expected =>
    let actual := revision_of s ns in
    if negb (actual =? expected) then
      e ← StoreRevision_new (pretty expected);
      o ← StoreRevision_new (pretty actual);
      Err (CompareAndSwapFailed e o)
    else Ok tt
  | PathIsUnmapped ns path =>
    if match get s ns with Some n => bool_decide (is_Some (paths n !! path)) | None => false end
    then Err (InvalidRecord ("path " +:+ path +:+ " is already mapped to an inode"))
    else Ok tt
  | PathResolvesTo ns path i =>
    if negb (bool_decide ((n ← get s ns; paths n !! path) = Some i))
    then Err (InvalidRecord ("path " +:+ path +:+ " does not resolve to inode " +:+ pretty i))
    else Ok tt
  | TransitionExists ns op =>
    if negb match get s ns with
            | Some n => bool_decide (is_Some (transitions n !! op)) | None => false end
    then Err (NotFound ("transition/" +:+ op)) else Ok tt
  | TransitionAbsent ns op =>
    if match get s ns with
       | Some n => bool_decide (is_Some (transitions n !! op)) | None => false end
    then Err (AlreadyExists ("transition/" +:+ op)) else Ok tt
  end.

(** The new state and the mapping revision, when the operation advanced it. *)
Definition apply (s : State) (o : Operation) : option (State * option MappingRevision) :=
  match o with
  | PutPathIndex e =>
    let n := or_default s (pe_namespace e) in
    Some (put s (pe_namespace e) (set_paths n (<[pe_path e := pe_inode e]> (paths n))), None)
  | RemovePathIndex ns path =>
    match get s ns with
    | Some n => Some (put s ns (set_paths n (delete path (paths n))), None)
    | None => Some (s, None)
    end
  | PutInode r =>
    let n := or_default s (ir_namespace r) in
    Some (put s (ir_namespace r) (set_inodes n (<[ir_inode r := r]> (inodes n))), None)
  | RemoveInode ns i =>
    match get s ns with
    | Some n => Some (put s ns (set_inodes n (delete i (inodes n))), None)
    | None => Some (s, None)
    end
  | PutTransition t =>
    let n := or_default s (lt_namespace t) in
    Some (put s (lt_namespace t)
            (set_transitions n (<[operation_id t := t]> (transitions n))), None)
  | RemoveTransition ns op =>
    match get s ns with
    | Some n => Some (put s ns (set_transitions n (delete op (transitions n))), None)
    | None => Some (s, None)
    end
  | AdvanceMappingRevision ns =>
    let n := or_default s ns in
    match next (mapping_revision n) with
    | Some r => Some (put s ns (set_mapping_revision n r), Some r)
    | None => None
    end
  end.

Fixpoint check_all (s : State) (ps : list Precondition) : MetadataResult unit :=
  match ps with
  | [] => Ok tt
  | p :: ps => _ ← check s p; check_all s ps
  end.

Fixpoint apply_all (s : State) (mr : option MappingRevision) (os : list Operation)
    : option (State * option MappingRevision) :=
  match os with
  | [] => Some (s, mr)
  | o :: os =>
    match apply s o with
    | None => None
    | Some (s, r) => apply_all s (match r with Some r => Some r | None => mr end) os
    end
  end.

Definition commit (s : MemoryMetadataStore) (t : Transaction)
    : option (MetadataResult TransactionOutcome * MemoryMetadataStore) :=
  match require s HardLinks with
  | Err e => Some (Err e, s)
  | Ok _ =>
    match check_all (st s) (preconditions t) with
    | Err e => Some (Err e, s)
    | Ok _ =>
      match apply_all (st s) None (operations t) with
      | None => None
      | Some (s1, mr) =>
        match checked_add 64 (revision s1) 1 with
        | None => None
        | Some rev =>
          let s2 := mkState (namespaces s1) rev in
          match StoreRevision_new (pretty rev) with
          | Err e => Some (Err e, mkStore s2 (capabilities s))
          | Ok r => Some (Ok (mkTransactionOutcome r mr), mkStore s2 (capabilities s))
          end
        end
      end
    end
  end.

(** The read methods. *)
Definition state_snapshot (s : MemoryMetadataStore) (ns : NamespaceId) : NamespaceState :=
  default NamespaceState_default (get (st s) ns).

Definition load_transition (s : MemoryMetadataStore) (ns : NamespaceId) (op : string)
    : MetadataResult (option LinkTransition) :=
  _ ← require s HardLinks;
  Ok (n ← get (st s) ns; transitions n !! op).

Definition read_mapping_revision (s : MemoryMetadataStore) (ns : NamespaceId)
    : MetadataResult MappingRevision :=
  _ ← require s HardLinks; Ok (revision_of (st s) ns).

Definition resolve_path (s : MemoryMetadataStore) (ns : NamespaceId) (path : string)
    : MetadataResult (option PathIndexEntry) :=
  _ ← require s HardLinks;
  Ok (i ← (n ← get (st s) ns; paths n !! path); Some (mkPathIndexEntry ns path i)).

Definition load_inode (s : MemoryMetadataStore) (ns : NamespaceId) (i : InodeNumber)
    : MetadataResult InodeRecord :=
  _ ← require s HardLinks;
  ok_or (n ← get (st s) ns; inodes n !! i) (NotFound ("inode/" +:+ pretty i)).

(** ** Specification: one namespace at a time *)

(** What a reader of the namespace sees; an absent namespace reads as the default. *)
Definition view (s : State) (ns : NamespaceId) : NamespaceState := or_default s ns.

(** The declarative meaning of a precondition on a view. *)
Definition holds_in (n : NamespaceState) (p : Precondition) : Prop :=
  match p with
  | MappingRevisionIs _ expected => mapping_revision n = expected
  | PathIsUnmapped _ path => paths n !! path = None
  | PathResolvesTo _ path i => paths n !! path = Some i
  | TransitionExists _ op => is_Some (transitions n !! op)
  | TransitionAbsent _ op => transitions n !! op = None
  end.

Definition pre_ns (p : Precondition) : NamespaceId :=
  match p with
  | MappingRevisionIs ns _ | PathIsUnmapped ns _ | PathResolvesTo ns _ _
  | TransitionExists ns _ | TransitionAbsent ns _ => ns
  end.

Definition op_ns (o : Operation) : NamespaceId :=
  match o with
  | PutPathIndex e => pe_namespace e
  | PutInode r => ir_namespace r
  | PutTransition t => lt_namespace t
  | RemovePathIndex ns _ | RemoveInode ns _ | RemoveTransition ns _
  | AdvanceMappingRevision ns => ns
  end.

(** The effect of an operation on the namespace it names. *)
Definition ns_apply (n : NamespaceState) (o : Operation) : option NamespaceState :=
  match o with
  | PutPathIndex e => Some (set_paths n (<[pe_path e := pe_inode e]> (paths n)))
  | RemovePathIndex _ path => Some (set_paths n (delete path (paths n)))
  | PutInode r => Some (set_inodes n (<[ir_inode r := r]> (inodes n)))
  | RemoveInode _ i => Some (set_inodes n (delete i (inodes n)))
  | PutTransition t => Some (set_transitions n (<[operation_id t := t]> (transitions n)))
  | RemoveTransition _ op => Some (set_transitions n (delete op (transitions n)))
  | AdvanceMappingRevision _ => set_mapping_revision n <$> next (mapping_revision n)
  end.

Fixpoint ns_apply_all (ns : NamespaceId) (n : NamespaceState) (os : list Operation)
    : option NamespaceState :=
  match os with
  | [] => Some n
  | o :: os =>
    if decide (op_ns o = ns)
    then match ns_apply n o with Some n => ns_apply_all ns n os | None => None end
    else ns_apply_all ns n os
  end.

Lemma view_put s ns n ns' :
  view (put s ns n) ns' = if decide (ns = ns') then n else view s ns'.
Proof.
  unfold view, or_default, get, put. simpl. destruct (decide (ns = ns')) as [->|].
  - by rewrite lookup_insert_eq.
  - by rewrite lookup_insert_ne.
Qed.

Lemma check_holds s p : check s p = Ok tt <-> holds_in (view s (pre_ns p)) p.
Proof.
  unfold view, or_default. destruct p as [ns r|ns path|ns path i|ns op|ns op];
    cbn [check holds_in pre_ns]; unfold revision_of; rewrite ?StoreRevision_new_pretty;
    destruct (get s ns) as [n|]; cbn [default];
    try change (from_option id NamespaceState_default None) with NamespaceState_default; unfold id.
  -
    destruct (Z.eqb_spec (mapping_revision n) r); by split.
  - change (mapping_revision NamespaceState_default) with INITIAL.
    destruct (Z.eqb_spec INITIAL r); by split.
  - case_bool_decide as Hx; split; try done.
    + by destruct Hx as [? ->].
    + intros _. by apply eq_None_not_Some.
  - by split.
  - cbn. case_bool_decide; by split.
  - by split.
  - cbn. case_bool_decide as Hx; by split.
  - split; [done|]. by intros [].
  - case_bool_decide as Hx; split; try done.
    + by destruct Hx as [? ->].
    + intros _. by apply eq_None_not_Some.
  - by split.
Qed.

Lemma check_all_holds s ps :
  check_all s ps = Ok tt <-> Forall (fun p => holds_in (view s (pre_ns p)) p) ps.
Proof.
  induction ps as [|p ps IH]; cbn [check_all]; [by split|]. rewrite Forall_cons, <-check_holds, <-IH.
  destruct (check s p) as [[]|e]; cbn; split; try done; by intros [].
Qed.

Lemma check_all_unit s ps u : check_all s ps = Ok u -> check_all s ps = Ok tt.
Proof. by destruct u. Qed.

Lemma apply_view s o s' r ns :
  apply s o = Some (s', r) ->
  revision s' = revision s /\
  (if decide (op_ns o = ns) then ns_apply (view s ns) o = Some (view s' ns)
   else view s' ns = view s ns).
Proof.
  intros E. destruct o as [e|ns0 path|rc|ns0 i|t|ns0 op|ns0]; cbn in E |- *.
  1,3,5: injection E as <- <-; split; [done|]; rewrite view_put; by case_decide; subst.
  1,2,3: destruct (get s ns0) as [n|] eqn:Eg; injection E as <- <-; (split; [done|]);
    rewrite ?view_put; case_decide; try done; subst; f_equal; unfold view, or_default;
    rewrite Eg; try done; cbn [default];
    unfold NamespaceState_default, set_paths, set_inodes, set_transitions; cbn;
    by rewrite delete_empty.
  destruct (next (mapping_revision (or_default s ns0))) as [r0|] eqn:En; [|done].
  injection E as <- <-. split; [done|]. rewrite view_put. case_decide; [|done]. subst.
  unfold view. by rewrite En.
Qed.

Lemma apply_all_view s mr os s' mr' ns :
  apply_all s mr os = Some (s', mr') ->
  revision s' = revision s /\ ns_apply_all ns (view s ns) os = Some (view s' ns).
Proof.
  revert s mr. induction os as [|o os IH]; intros s mr E; cbn [apply_all ns_apply_all] in *.
  { by injection E as <- <-. }
  destruct (apply s o) as [[s1 r]|] eqn:Ea; [|done].
  apply (apply_view _ _ _ _ ns) in Ea as [Hr Hv]. apply IH in E as [Hr' E].
  rewrite Hr', Hr. split; [done|]. case_decide; by rewrite Hv in * || rewrite <-Hv.
Qed.

Lemma ns_apply_all_other ns n os :
  Forall (fun o => op_ns o <> ns) os -> ns_apply_all ns n os = Some n.
Proof.
  induction 1 as [|o os Ho _ IH]; cbn [ns_apply_all]; [done|]. by rewrite decide_False.
Qed.

(** Every outcome of a commit. *)
Lemma commit_cases s t r s' :
  commit s t = Some (r, s') ->
  match r with
  | Err _ => s' = s
  | Ok o =>
    supports (capabilities s) HardLinks = true /\ capabilities s' = capabilities s /\
    Forall (fun p => holds_in (view (st s) (pre_ns p)) p) (preconditions t) /\
    (forall ns, ns_apply_all ns (view (st s) ns) (operations t) = Some (view (st s') ns)) /\
    revision (st s') = revision (st s) + 1 /\ to_revision o = pretty (revision (st s'))
  end.
Proof.
  unfold commit, require. destruct (supports (capabilities s) HardLinks) eqn:Es.
  2:{ by intros [= <- <-]. }
  destruct (check_all (st s) (preconditions t)) as [u|e] eqn:Ec; [|by intros [= <- <-]].
  apply check_all_unit, check_all_holds in Ec.
  destruct (apply_all (st s) None (operations t)) as [[s1 mr]|] eqn:Ea; [|done].
  destruct (checked_add 64 (revision s1) 1) as [rev|] eqn:Er; [|done].
  rewrite StoreRevision_new_pretty. intros [= <- <-]. cbn.
  unfold checked_add in Er. destruct (_ <? _); [|done]. injection Er as <-.
  pose proof (fun ns => apply_all_view _ _ _ _ _ ns Ea) as Hv.
  splits; try done; [intros ns; by destruct (Hv ns) as [_ ->]|].
  by destruct (Hv ""%string) as [-> _].
Qed.

(** ** Theorems *)

(** C33: Transactions are atomic.  A commit that fails leaves the store exactly as it was;
    a commit that succeeds found every precondition true of the store it read, applied
    every operation, in order, to the namespace it names, and advanced the store revision
    by one, which is the token it returns. *)
Theorem commit_atomic s t r s' :
  commit s t = Some (r, s') ->
  match r with
  | Err _ => s' = s
  | Ok o =>
    Forall (fun p => holds_in (view (st s) (pre_ns p)) p) (preconditions t) /\
    (forall ns, ns_apply_all ns (view (st s) ns) (operations t) = Some (view (st s') ns)) /\
    revision (st s') = revision (st s) + 1 /\ to_revision o = pretty (revision (st s'))
  end.
Proof. intros E%commit_cases. destruct r as [o|e]; [|done]. by destruct E as (_ & _ & E). Qed.

(** A store that does not advertise hard links refuses every commit and every read with
    [CapabilityUnsupported], which is not retryable, and keeps its state. *)
Theorem unsupported_refused s t ns path i op :
  supports (capabilities s) HardLinks = false ->
  let e := CapabilityUnsupported Memory HardLinks in
  commit s t = Some (Err e, s) /\ read_mapping_revision s ns = Err e /\
  resolve_path s ns path = Err e /\ load_inode s ns i = Err e /\
  load_transition s ns op = Err e /\ is_retryable e = false /\ is_capability_gap e = true.
Proof.
  intros E e. unfold commit, read_mapping_revision, resolve_path, load_inode,
    load_transition, require. by rewrite E.
Qed.

Lemma unsupported_refused_witness :
  commit without_capabilities Transaction_new =
  Some (Err (CapabilityUnsupported Memory HardLinks), without_capabilities).
Proof.
  exact (proj1 (unsupported_refused without_capabilities Transaction_new "ns" "p" 1 "op"
    eq_refl)).
Defined.

Lemma commit_atomic_witness :
  let t := then_ Transaction_new (AdvanceMappingRevision "ns") in
  let s' := mkStore (mkState {[ "ns" := set_mapping_revision NamespaceState_default 1 ]} 1)
              (with_ none HardLinks) in
  Forall (fun p => holds_in (view (st new) (pre_ns p)) p) (preconditions t) /\
  (forall ns, ns_apply_all ns (view (st new) ns) (operations t) = Some (view (st s') ns)) /\
  revision (st s') = revision (st new) + 1 /\ "1"%string = pretty (revision (st s')).
Proof.
  apply (commit_atomic new (then_ Transaction_new (AdvanceMappingRevision "ns"))
    (Ok (mkTransactionOutcome "1" (Some 1)))). vm_compute. reflexivity.
Defined.

End MetaStore.
