(* ===== verification/MetaLink.v ===== *)
(** The hard-link promotion and demotion state machine
    (crates/talon-metadata/src/link.rs), run against the metadata store of
    [MetaStore].

    The transaction builders are translated one for one.  [link_step] is the
    protocol a coordinator runs with them: it reads the mapping revision, then
    the records, and commits against the revision it read; a promotion commits
    against the revision its opening transaction returned.  Reads may be stale:
    they come from any earlier view of the namespace. *)

From S2P Require Import Prelude MetaTypes MetaStore.

Module MetaLink.
Import MetaTypes MetaStore.
Local Open Scope Z_scope.

Inductive Recovery := Abort | ResumeOrDiscard | FinishCleanup.
Inductive InodeObject := Absent | Present.

Definition recovery_for (t : LinkTransition) (o : InodeObject) : Recovery :=
  match state t, o with
  | Committed, _ => FinishCleanup
  | Aborted, _ | Preparing, Absent => Abort
  | Preparing, Present => ResumeOrDiscard
  end.

Definition debug_state (s : LinkTransitionState) : string :=
  match s with Preparing => "Preparing" | Committed => "Committed" | Aborted => "Aborted" end.

Definition begin_promotion (t : LinkTransition) : MetadataResult Transaction :=
  if negb (bool_decide (state t = Preparing))
  then Err (InvalidRecord ("a promotion opens in Preparing, not " +:+ debug_state (state t)))
  else
  let x := Transaction_new in
  let x := when x (MappingRevisionIs (lt_namespace t) (expected_mapping_revision t)) in
  let x := when x (PathIsUnmapped (lt_namespace t) (source_path t)) in
  let x := when x (PathIsUnmapped (lt_namespace t) (new_path t)) in
  let x := when x (TransitionAbsent (lt_namespace t) (operation_id t)) in
  let x := then_ x (PutTransition t) in
  Ok (then_ x (AdvanceMappingRevision (lt_namespace t))).

Definition commit_promotion (t : LinkTransition) (observed_revision : MappingRevision)
    : Transaction :=
  let x := Transaction_new in
  let x := when x (TransitionExists (lt_namespace t) (operation_id t)) in
  let x := when x (MappingRevisionIs (lt_namespace t) observed_revision) in
  let x := then_ x (PutPathIndex (mkPathIndexEntry (lt_namespace t) (source_path t) (inode t))) in
  let x := then_ x (PutPathIndex (mkPathIndexEntry (lt_namespace t) (new_path t) (inode t))) in
  let x := then_ x (PutInode (mkInodeRecord (lt_namespace t) (inode t) PROMOTED false)) in
  let x := then_ x (RemoveTransition (lt_namespace t) (operation_id t)) in
  then_ x (AdvanceMappingRevision (lt_namespace t)).

Definition abort_promotion (t : LinkTransition) : Transaction :=
  let x := Transaction_new in
  let x := when x (TransitionExists (lt_namespace t) (operation_id t)) in
  let x := then_ x (RemoveTransition (lt_namespace t) (operation_id t)) in
  then_ x (AdvanceMappingRevision (lt_namespace t)).

(** [None]: [LinkCount::increment] overflowed. *)
Definition add_link (ns : NamespaceId) (new_path : string) (i : InodeNumber)
    (current : LinkCount) (observed_revision : MappingRevision) : option Transaction :=
  match increment current with
  | None => None
  | Some c =>
    let x := Transaction_new in
    let x := when x (MappingRevisionIs ns observed_revision) in
    let x := when x (PathIsUnmapped ns new_path) in
    let x := then_ x (PutPathIndex (mkPathIndexEntry ns new_path i)) in
    let x := then_ x (PutInode (mkInodeRecord ns i c false)) in
    Some (then_ x (AdvanceMappingRevision ns))
  end.

Definition remove_link (ns : NamespaceId) (path : string) (i : InodeNumber)
    (current : LinkCount) (observed_revision : MappingRevision) : MetadataResult Transaction :=
  remaining ← ok_or (decrement current)
    (InvalidRecord "removing this link leaves one: use commit_demotion (ADR 0003 §5)");
  let x := Transaction_new in
  let x := when x (MappingRevisionIs ns observed_revision) in
  let x := when x (PathResolvesTo ns path i) in
  let x := then_ x (RemovePathIndex ns path) in
  let x := then_ x (PutInode (mkInodeRecord ns i remaining false)) in
  Ok (then_ x (AdvanceMappingRevision ns)).

Definition commit_demotion (ns : NamespaceId) (removed_path remaining_path : string)
    (i : InodeNumber) (observed_revision : MappingRevision) : Transaction :=
  let x := Transaction_new in
  let x := when x (MappingRevisionIs ns observed_revision) in
  let x := when x (PathResolvesTo ns removed_path i) in
  let x := when x (PathResolvesTo ns remaining_path i) in
  let x := then_ x (RemovePathIndex ns removed_path) in
  let x := then_ x (RemovePathIndex ns remaining_path) in
  let x := then_ x (RemoveInode ns i) in
  then_ x (AdvanceMappingRevision ns).

Definition may_resume (t : LinkTransition) (resumer resumer_incarnation : string) : bool :=
  negb (operation_worker t =? resumer)%string
  || negb (operation_worker_incarnation t =? resumer_incarnation)%string.

(** ** The protocol *)

Section Protocol.
Context (ns : NamespaceId).

(** The store, and every view of the namespace there has been, the current one included. *)
Record World := mkWorld { store : MemoryMetadataStore; seen : list NamespaceState }.

Definition now (w : World) : NamespaceState := view (st (store w)) ns.

(** A record read after the mapping revision [rev] was. *)
Definition read_inode (w : World) (rev : MappingRevision) (i : InodeNumber) (r : InodeRecord)
    : Prop :=
  exists v, v ∈ seen w /\ rev <= mapping_revision v /\ inodes v !! i = Some r.

Inductive request (w : World) : Transaction -> Prop :=
  | req_begin t x :
      lt_namespace t = ns -> source_path t <> new_path t ->
      inodes (now w) !! inode t = None ->
      begin_promotion t = Ok x -> request w x
  | req_commit t v :
      v ∈ seen w -> transitions v !! operation_id t = Some t ->
      request w (commit_promotion t (expected_mapping_revision t + 1))
  | req_abort t v :
      v ∈ seen w -> transitions v !! operation_id t = Some t ->
      request w (abort_promotion t)
  | req_add path i rev r x :
      read_inode w rev i r -> add_link ns path i (link_count r) rev = Some x -> request w x
  | req_remove path i rev r x :
      read_inode w rev i r -> remove_link ns path i (link_count r) rev = Ok x -> request w x
  | req_demote removed remaining i rev r :
      read_inode w rev i r -> decrement (link_count r) = None -> removed <> remaining ->
      request w (commit_demotion ns removed remaining i rev)
  | req_other x :
      Forall (fun o => op_ns o <> ns) (operations x) -> request w x.

(** A commit of a request, successful or not. *)
Inductive link_step : World -> World -> Prop :=
  | do_commit w x r s' :
      request w x -> commit (store w) x = Some (r, s') ->
      link_step w (mkWorld s' (seen w ++ [view (st s') ns])).

Inductive reachable : World -> Prop :=
  | reach_new : reachable (mkWorld new [NamespaceState_default])
  | reach_step w w' : reachable w -> link_step w w' -> reachable w'.

(** The number of paths that resolve to an inode. *)
Definition path_total (m : gmap string InodeNumber) (i : InodeNumber) : nat :=
  size (filter (fun kv => kv.2 = i) m).

(** Every inode record counts the paths that resolve to it, of which there are at least
    two, and every indexed path resolves to an inode record. *)
Record index_inv (P : gmap string InodeNumber) (I : gmap Z InodeRecord) : Prop := {
  inv_record : forall i r, I !! i = Some r ->
    ir_namespace r = ns /\ ir_inode r = i /\ 2 <= link_count r /\
    link_count r = Z.of_nat (path_total P i);
  inv_resolves : forall p i, P !! p = Some i -> is_Some (I !! i)
}.

Definition link_inv (n : NamespaceState) : Prop := index_inv (paths n) (inodes n).

(** *** Counting paths *)

Lemma path_total_insert m p j i :
  m !! p = None ->
  path_total (<[p := j]> m) i = (path_total m i + if decide (i = j) then 1 else 0)%nat.
Proof.
  intros Hp. unfold path_total. destruct (decide (i = j)) as [->|Hne].
  - rewrite map_filter_insert_True by done. rewrite map_size_insert_None; [lia|].
    apply map_lookup_filter_None. by left.
  - rewrite map_filter_insert_False by (simpl; congruence). rewrite delete_id by done. lia.
Qed.

Lemma path_total_delete m p j i :
  m !! p = Some j ->
  path_total m i = (path_total (delete p m) i + if decide (i = j) then 1 else 0)%nat.
Proof.
  intros Hp. rewrite <-(insert_delete_id m p j) at 1 by done.
  apply path_total_insert, lookup_delete_eq.
Qed.

Lemma path_total_0 m i : path_total m i = 0%nat <-> forall p, m !! p <> Some i.
Proof.
  unfold path_total. rewrite map_size_empty_iff, map_empty. split.
  - intros H p Hp. specialize (H p). apply map_lookup_filter_None in H as [H|H]; [congruence|].
    by apply (H i).
  - intros H p. apply map_lookup_filter_None. right. intros j Hj Ej. simpl in Ej. subst j. by apply (H p).
Qed.

(** *** The index invariant under the four changes of the index *)

Lemma index_inv_unused P I i p : index_inv P I -> I !! i = None -> P !! p <> Some i.
Proof. intros H Hi Hp. apply (inv_resolves _ _ H) in Hp as [r Hr]. congruence. Qed.

Lemma index_inv_promote P I p q i :
  index_inv P I -> P !! p = None -> P !! q = None -> p <> q -> I !! i = None ->
  index_inv (<[q := i]> (<[p := i]> P)) (<[i := mkInodeRecord ns i PROMOTED false]> I).
Proof.
  intros H Hp Hq Hne Hi.
  assert (forall j, path_total (<[q := i]> (<[p := i]> P)) j =
    (path_total P j + if decide (j = i) then 2 else 0)%nat) as Ht.
  { intros j. rewrite !path_total_insert; [case_decide; lia|done|].
    by rewrite lookup_insert_ne. }
  assert (path_total P i = 0%nat) as H0.
  { apply path_total_0. intros r. by eapply index_inv_unused. }
  split.
  - intros j r. rewrite Ht, lookup_insert_Some.
    intros [[<- <-]|[Hj (? & ? & ? & Hr)%(inv_record _ _ H)]]; simpl; unfold PROMOTED.
    + rewrite decide_True by done. splits; try done. lia.
    + rewrite decide_False by done. splits; try done; lia.
  - intros r j. rewrite lookup_insert_is_Some.
    rewrite !lookup_insert_Some. intros [[_ ->]|[_ [[_ ->]|[_ Hr]]]]; [by left..|].
    destruct (decide (i = j)); [by left|right]. split; [done|]. by apply (inv_resolves _ _ H) in Hr.
Qed.

Lemma index_inv_add P I p i r c :
  index_inv P I -> P !! p = None -> I !! i = Some r -> c = link_count r + 1 ->
  index_inv (<[p := i]> P) (<[i := mkInodeRecord ns i c false]> I).
Proof.
  intros H Hp Hi ->. destruct (inv_record _ _ H i r Hi) as (_ & _ & H2 & Hc). split.
  - intros j r'. rewrite path_total_insert, lookup_insert_Some by done.
    intros [[<- <-]|[Hj (? & ? & ? & Hr)%(inv_record _ _ H)]]; simpl.
    + rewrite decide_True by done. splits; try done; lia.
    + rewrite decide_False by done. splits; try done; lia.
  - intros q j. rewrite lookup_insert_is_Some, lookup_insert_Some.
    intros [[_ ->]|[_ Hq]]; [by left|].
    destruct (decide (i = j)); [by left|right]. split; [done|]. by apply (inv_resolves _ _ H) in Hq.
Qed.

Lemma index_inv_remove P I p i r c :
  index_inv P I -> P !! p = Some i -> I !! i = Some r -> c = link_count r - 1 -> 2 <= c ->
  index_inv (delete p P) (<[i := mkInodeRecord ns i c false]> I).
Proof.
  intros H Hp Hi -> H3. destruct (inv_record _ _ H i r Hi) as (_ & _ & H2 & Hc). split.
  - intros j r'. rewrite lookup_insert_Some.
    intros [[<- <-]|[Hj Hr]]; simpl.
    + rewrite (path_total_delete P p i i Hp), decide_True in Hc by done. splits; try done; lia.
    + apply (inv_record _ _ H) in Hr as (? & ? & ? & Hr).
      rewrite (path_total_delete P p i j Hp), decide_False in Hr by done. splits; try done; lia.
  - intros q j. rewrite lookup_insert_is_Some, lookup_delete_Some. intros [_ Hq].
    destruct (decide (i = j)); [by left|right]. split; [done|]. by apply (inv_resolves _ _ H) in Hq.
Qed.

Lemma index_inv_demote P I p q i r :
  index_inv P I -> P !! p = Some i -> P !! q = Some i -> p <> q -> I !! i = Some r ->
  link_count r <= 2 -> index_inv (delete q (delete p P)) (delete i I).
Proof.
  intros H Hp Hq Hne Hi H2. destruct (inv_record _ _ H i r Hi) as (_ & _ & _ & Hc).
  assert (forall j, path_total P j = (path_total (delete q (delete p P)) j +
    if decide (j = i) then 2 else 0)%nat) as Ht.
  { intros j. rewrite (path_total_delete P p i j Hp), (path_total_delete (delete p P) q i j);
      [case_decide; lia|]. by rewrite lookup_delete_ne. }
  assert (path_total (delete q (delete p P)) i = 0%nat) as H0.
  { specialize (Ht i). rewrite decide_True in Ht by done. lia. }
  split.
  - intros j r'. rewrite lookup_delete_Some. intros [Hj (? & ? & ? & Hr)%(inv_record _ _ H)].
    rewrite Ht, decide_False in Hr by done. splits; try done; lia.
  - intros x j Hx. rewrite lookup_delete_is_Some. split.
    + intros ->. by apply (proj1 (path_total_0 _ _) H0) in Hx.
    + rewrite !lookup_delete_Some in Hx. by apply (inv_resolves _ _ H x), Hx.
Qed.

(** *** The effect of each request on the view *)

Definition bump (n : NamespaceState) : NamespaceState :=
  set_mapping_revision n (mapping_revision n + 1).

Lemma advance_inv n m :
  (set_mapping_revision n <$> next (mapping_revision n)) = Some m -> m = bump n.
Proof.
  destruct (next (mapping_revision n)) as [r|] eqn:E; [|done].
  apply next_spec in E as [-> _]. by intros [= <-].
Qed.

Lemma ns_apply_all_cons n o os :
  op_ns o = ns -> ns_apply_all ns n (o :: os) =
  match ns_apply n o with Some n => ns_apply_all ns n os | None => None end.
Proof. intros E. cbn [ns_apply_all]. by rewrite decide_True. Qed.

Lemma ns_apply_all_advance n m :
  ns_apply_all ns n [AdvanceMappingRevision ns] = Some m -> m = bump n.
Proof.
  rewrite ns_apply_all_cons by done. cbn [ns_apply ns_apply_all]. intros E. apply advance_inv.
  by destruct (_ <$> _).
Qed.

(** What a namespace needs of a transition somebody may still commit. *)
Definition pending (n : NamespaceState) (t : LinkTransition) : Prop :=
  lt_namespace t = ns /\ source_path t <> new_path t /\
  expected_mapping_revision t + 1 <= mapping_revision n /\
  (expected_mapping_revision t + 1 = mapping_revision n ->
   paths n !! source_path t = None /\ paths n !! new_path t = None /\
   inodes n !! inode t = None).

Record world_inv (w : World) : Prop := {
  wi_link : link_inv (now w);
  wi_now : now w ∈ seen w;
  wi_seen : forall v, v ∈ seen w -> mapping_revision v <= mapping_revision (now w) /\
    (mapping_revision v = mapping_revision (now w) -> v = now w);
  wi_pending : forall v op t, v ∈ seen w -> transitions v !! op = Some t -> pending (now w) t
}.

(** A view that a request can leave behind. *)
Definition good_next (w : World) (n : NamespaceState) : Prop :=
  link_inv n /\ mapping_revision n = mapping_revision (now w) + 1 /\
  forall op t, transitions n !! op = Some t ->
    (exists v, v ∈ seen w /\ transitions v !! op = Some t) \/ pending n t.

Lemma world_inv_stay w s' :
  world_inv w -> view (st s') ns = now w ->
  world_inv (mkWorld s' (seen w ++ [view (st s') ns])).
Proof.
  intros [H1 H2 H3 H4] E. split; unfold now; simpl; rewrite E; try done.
  - apply elem_of_app. by left.
  - intros v [?| ->%list_elem_of_singleton]%elem_of_app; auto with lia.
  - intros v op t [?| ->%list_elem_of_singleton]%elem_of_app; eauto.
Qed.

Lemma world_inv_advance w s' :
  world_inv w -> good_next w (view (st s') ns) ->
  world_inv (mkWorld s' (seen w ++ [view (st s') ns])).
Proof.
  intros [H1 H2 H3 H4] (Hl & Hr & Ht).
  assert (forall v op t, v ∈ seen w -> transitions v !! op = Some t ->
    pending (view (st s') ns) t) as Hold.
  { intros v op t Hv Hvt. destruct (H4 v op t Hv Hvt) as (? & ? & ? & _).
    split; [done|]. split; [done|]. lia. }
  split; unfold now; simpl; try done.
  - apply elem_of_app. right. by apply list_elem_of_singleton.
  - intros v [Hv%H3| ->%list_elem_of_singleton]%elem_of_app; [|done]. lia.
  - intros v op t [Hv| ->%list_elem_of_singleton]%elem_of_app Hvt; [by eapply Hold|].
    destruct (Ht op t Hvt) as [(v & Hv & Hvt')|]; [|done]. by eapply Hold.
Qed.

(** A read at a revision that is still current is a read of the current view. *)
Lemma read_current w rev i r :
  world_inv w -> read_inode w rev i r -> mapping_revision (now w) = rev ->
  inodes (now w) !! i = Some r.
Proof.
  intros Hw (v & Hv & Hle & Hi) Er. destruct (wi_seen w Hw v Hv) as [Hle' Heq].
  rewrite <-Heq; [done|lia].
Qed.

Lemma begin_good w t x n :
  world_inv w -> lt_namespace t = ns -> source_path t <> new_path t ->
  inodes (now w) !! inode t = None -> begin_promotion t = Ok x ->
  Forall (fun p => pre_ns p = ns -> holds_in (now w) p) (preconditions x) ->
  ns_apply_all ns (now w) (operations x) = Some n -> good_next w n.
Proof.
  intros Hw Hns Hne Hi Eb Hp E. unfold begin_promotion in Eb.
  destruct (negb _); [done|]. injection Eb as <-. cbn [then_ when Transaction_new
    operations preconditions app] in *. rewrite Hns in *.
  apply Forall_cons in Hp as [H1 [H2 [H3 _]%Forall_cons]%Forall_cons].
  specialize (H1 eq_refl). specialize (H2 eq_refl). specialize (H3 eq_refl).
  rewrite ns_apply_all_cons in E by done. cbn [ns_apply] in E.
  apply ns_apply_all_advance in E as ->. split; [exact (wi_link w Hw)|]. split; [done|].
  intros op t'. simpl. rewrite lookup_insert_Some. intros [[_ <-]|[_ Ht]].
  - right. unfold pending. cbn in *. splits; try done; lia.
  - left. exists (now w). split; [exact (wi_now w Hw)|done].
Qed.

Lemma commit_good w t v n :
  world_inv w -> v ∈ seen w -> transitions v !! operation_id t = Some t ->
  mapping_revision (now w) = expected_mapping_revision t + 1 ->
  ns_apply_all ns (now w) (operations (commit_promotion t (expected_mapping_revision t + 1)))
    = Some n -> good_next w n.
Proof.
  intros Hw Hv Ht Hr E. destruct (wi_pending w Hw v _ t Hv Ht) as (Hns & Hne & _ & Hun).
  destruct Hun as (Hs & Hn & Hi); [done|].
  cbn [commit_promotion then_ when Transaction_new operations preconditions app] in E.
  rewrite Hns in *. do 4 (rewrite ns_apply_all_cons in E by done; cbn [ns_apply] in E).
  apply ns_apply_all_advance in E as ->. split; [|split; [done|]].
  - by apply index_inv_promote; [apply (wi_link w Hw)|..].
  - intros op t'. simpl. rewrite lookup_delete_Some. intros [_ Ht']. left. exists (now w).
    split; [exact (wi_now w Hw)|done].
Qed.

Lemma abort_good w t v n :
  world_inv w -> v ∈ seen w -> transitions v !! operation_id t = Some t ->
  ns_apply_all ns (now w) (operations (abort_promotion t)) = Some n -> good_next w n.
Proof.
  intros Hw Hv Ht E. destruct (wi_pending w Hw v _ t Hv Ht) as (Hns & _).
  cbn [abort_promotion then_ when Transaction_new operations preconditions app] in E.
  rewrite Hns in *. rewrite ns_apply_all_cons in E by done. cbn [ns_apply] in E.
  apply ns_apply_all_advance in E as ->. split; [exact (wi_link w Hw)|split; [done|]].
  intros op t'. simpl. rewrite lookup_delete_Some. intros [_ Ht']. left. exists (now w).
  split; [exact (wi_now w Hw)|done].
Qed.

(** A request that leaves the transitions alone needs only the index invariant. *)
Lemma index_good w P I :
  world_inv w -> index_inv P I ->
  good_next w (bump (set_inodes (set_paths (now w) P) I)).
Proof.
  intros Hw H. split; [done|]. split; [done|]. intros op t Ht. left. exists (now w).
  split; [exact (wi_now w Hw)|done].
Qed.

Lemma request_good w x n :
  world_inv w -> request w x ->
  Forall (fun p => pre_ns p = ns -> holds_in (now w) p) (preconditions x) ->
  ns_apply_all ns (now w) (operations x) = Some n -> n = now w \/ good_next w n.
Proof.
  intros Hw Hreq Hp E. pose proof (wi_link w Hw) as Hl.
  destruct Hreq as [t x Hns Hne Hi Eb|t v Hv Ht|t v Hv Ht|path i rev r x Hread Ea
    |path i rev r x Hread Er|p q i rev r Hread Ed Hne|x Hother].
  - right. by eapply begin_good.
  - right. apply (commit_good w t v); try done.
    destruct (wi_pending w Hw v _ t Hv Ht) as (Hns & _).
    apply Forall_cons in Hp as [_ [H1 _]%Forall_cons]. by apply H1.
  - right. by apply (abort_good w t v).
  - right. unfold add_link in Ea. destruct (increment _) as [c|] eqn:Ec; [|done].
    apply increment_spec in Ec as [-> _]. injection Ea as <-.
    cbn [then_ when Transaction_new operations preconditions app] in *.
    apply Forall_cons in Hp as [H1 [H2 _]%Forall_cons].
    do 2 (rewrite ns_apply_all_cons in E by done; cbn [ns_apply] in E).
    apply ns_apply_all_advance in E as ->. apply index_good; [done|].
    apply (index_inv_add _ _ _ _ r); [done|by apply H2| |done].
    apply (read_current w rev); [done..|by apply H1].
  - right. unfold remove_link in Er. inv_ok. apply decrement_spec in E1 as [-> H3].
    cbn [then_ when Transaction_new operations preconditions app] in *.
    apply Forall_cons in Hp as [H1 [H2 _]%Forall_cons].
    do 2 (rewrite ns_apply_all_cons in E by done; cbn [ns_apply] in E).
    apply ns_apply_all_advance in E as ->. apply index_good; [done|].
    apply (index_inv_remove _ _ _ _ r); [done|by apply H2| |done|lia].
    apply (read_current w rev); [done..|by apply H1].
  - right. apply decrement_None in Ed.
    cbn [commit_demotion then_ when Transaction_new operations preconditions app] in *.
    apply Forall_cons in Hp as [H1 [H2 [H3 _]%Forall_cons]%Forall_cons].
    do 3 (rewrite ns_apply_all_cons in E by done; cbn [ns_apply] in E).
    apply ns_apply_all_advance in E as ->. apply index_good; [done|].
    apply (index_inv_demote _ _ _ _ i r); [done|by apply H2|by apply H3|done| |done].
    apply (read_current w rev); [done..|by apply H1].
  - left. rewrite ns_apply_all_other in E by done. by injection E.
Qed.

Lemma world_inv_step w w' : world_inv w -> link_step w w' -> world_inv w'.
Proof.
  intros Hw Hs. revert Hw. destruct Hs as [w x r s' Hreq E]. intros Hw.
  apply commit_cases in E. destruct r as [o|e].
  - destruct E as (_ & _ & Hp & Hv & _). specialize (Hv ns).
    apply (request_good w) in Hv as [Hn|Hg]; [| |done|done|].
    + by apply world_inv_stay.
    + by apply world_inv_advance.
    + eapply Forall_impl; [exact Hp|]. intros p Hh Ep. unfold now. by rewrite <-Ep.
  - subst. by apply world_inv_stay.
Qed.

Lemma world_inv_reachable w : reachable w -> world_inv w.
Proof.
  induction 1 as [|w w' _ IH Hs]; [|by eapply world_inv_step].
  split; simpl; try done.
  - by apply list_elem_of_singleton.
  - by intros v ->%list_elem_of_singleton.
  - by intros v op t ->%list_elem_of_singleton.
Qed.

(** ** Theorems *)

(** C32: Link counts are exact.  However coordinators interleave, with reads as stale as they
    may be, every inode record of the namespace has a link count of at least two that is
    the number of paths resolving to the inode, and every indexed path resolves to an
    inode record. *)
Theorem link_counts_exact w : reachable w -> link_inv (now w).
Proof. intros H. exact (wi_link w (world_inv_reachable w H)). Qed.

(** C34: The mapping revision is a fence.  A client or worker whose revision passes the fence
    check against the store's revision holds the current view: two views of the namespace
    with one revision are the same view, so a mapping that [fence_check] lets through is
    never stale. *)
Theorem fence_sound w v :
  reachable w -> v ∈ seen w ->
  is_proceed (fence_check (mapping_revision v) (mapping_revision (now w))) = true -> v = now w.
Proof.
  intros H%world_inv_reachable Hv Hp%fence_check_proceed. by apply (wi_seen w H).
Qed.

(** The recovery table.  Recovery deletes the path object only after the commit, when the
    inode object is authoritative; while the original is authoritative, recovery never
    finishes a cleanup, and it resumes only when the copy is there. *)
Theorem recovery_for_authoritative t o :
  (recovery_for t o = FinishCleanup <-> original_is_authoritative (state t) = false) /\
  (recovery_for t o = ResumeOrDiscard <-> state t = Preparing /\ o = Present).
Proof. unfold recovery_for. destruct (state t), o; simpl; split; split; intuition congruence. Qed.

End Protocol.

(** ** What the protocol depends on *)

(** [add_link] and [remove_link] rewrite the inode record with [corrupt: false]: changing the
    number of links of an inode that was marked corrupt drops the mark. *)
Theorem add_link_clears_corrupt ns path i current rev x s o s' :
  add_link ns path i current rev = Some x -> commit s x = Some (Ok o, s') ->
  corrupt <$> inodes (view (st s') ns) !! i = Some false.
Proof.
  unfold add_link. destruct (increment current) as [c|]; [|done]. intros [= <-] E.
  apply commit_cases in E as (_ & _ & _ & Hv & _). specialize (Hv ns).
  cbn [then_ when Transaction_new operations preconditions app] in Hv.
  do 2 (rewrite ns_apply_all_cons in Hv by done; cbn [ns_apply] in Hv).
  apply ns_apply_all_advance in Hv as ->. simpl. by rewrite lookup_insert_eq.
Qed.

(** Run a transaction, keeping only the store. *)
Definition run (s : MemoryMetadataStore) (x : Transaction) : MemoryMetadataStore :=
  match commit s x with Some (_, s') => s' | None => s end.

Definition run_begin (s : MemoryMetadataStore) (t : LinkTransition) : MemoryMetadataStore :=
  match begin_promotion t with Ok x => run s x | Err _ => s end.

Definition promotion (op : string) (dst : string) (rev : Z) (i : Z) : LinkTransition :=
  mkLinkTransition "ns" op Preparing "a" dst "v1" rev i "w" "inc".

(** [commit_promotion] checks the revision it is given and that a transition with the id
    exists, not that the paths are still unmapped.  Two promotions of one source that both
    commit against a refreshed revision overwrite the path index: inode 1 keeps a link
    count of two with one path resolving to it.  The protocol above is safe because a
    promotion commits only against the revision its own opening returned. *)
Theorem commit_promotion_refreshed :
  let t1 := promotion "op1" "b" 0 1 in
  let t2 := promotion "op2" "c" 1 2 in
  let s := run_begin (run_begin new t1) t2 in
  let s := run (run s (commit_promotion t1 2)) (commit_promotion t2 3) in
  let n := view (st s) "ns" in
  link_count <$> inodes n !! 1 = Some 2 /\ path_total (paths n) 1 = 1%nat.
Proof. vm_compute. done. Qed.

(** ** Witnesses *)

Lemma run_step ns w x :
  request ns w x -> (if commit (store w) x is Some _ then true else false) = true ->
  link_step ns w (mkWorld (run (store w) x) (seen w ++ [view (st (run (store w) x)) ns])).
Proof.
  intros Hr E. unfold run. destruct (commit (store w) x) as [[r s']|] eqn:Ec; [|done].
  by apply (do_commit ns w x r s').
Qed.

Definition opening : LinkTransition := promotion "op1" "b" 0 1.
Definition opening_tx : Transaction :=
  match begin_promotion opening with Ok x => x | Err _ => Transaction_new end.
Definition opened_store : MemoryMetadataStore := run new opening_tx.
Definition promoted_store : MemoryMetadataStore :=
  run opened_store (commit_promotion opening (0 + 1)).
Definition opened_world : World :=
  mkWorld opened_store ([NamespaceState_default] ++ [view (st opened_store) "ns"]).
Definition promoted_world : World :=
  mkWorld promoted_store (seen opened_world ++ [view (st promoted_store) "ns"]).

Lemma promoted_reachable : reachable "ns" promoted_world.
Proof.
  apply (reach_step _ opened_world); [apply (reach_step _ (mkWorld new [NamespaceState_default]))|].
  - apply reach_new.
  - apply (run_step "ns" (mkWorld new [NamespaceState_default]) opening_tx).
    + apply (req_begin "ns" _ opening); [reflexivity|discriminate|reflexivity|reflexivity].
    + vm_compute. reflexivity.
  - apply (run_step "ns" opened_world (commit_promotion opening (0 + 1))).
    + apply (req_commit "ns" _ opening (view (st opened_store) "ns")).
      * apply list_elem_of_further, list_elem_of_here.
      * vm_compute. reflexivity.
    + vm_compute. reflexivity.
Qed.

Lemma link_counts_exact_witness : link_inv "ns" (now "ns" promoted_world).
Proof. apply (link_counts_exact "ns" promoted_world). exact promoted_reachable. Defined.

Lemma fence_sound_witness : view (st promoted_store) "ns" = now "ns" promoted_world.
Proof.
  apply (fence_sound "ns" promoted_world (view (st promoted_store) "ns")).
  - exact promoted_reachable.
  - do 2 (apply list_elem_of_further). by apply list_elem_of_here.
  - vm_compute. reflexivity.
Defined.

End MetaLink.
