(* ===== verification/MetaShard.v ===== *)
(** Write-shard routing and ownership (crates/talon-metadata/src): the shard hash
    (shard.rs) and the rendezvous ranking and fencing terms (assignment.rs).

    Strings that are hashed enter through their bytes ([as_bytes]); [xxh3_64] is
    the parameter of [External]. *)

From S2P Require Import Prelude External MetaTypes.

Module MetaShard.
Import MetaTypes.
Local Open Scope Z_scope.

Definition as_bytes (s : string) : list byte := String.list_byte_of_string s.

(** ** shard.rs *)

Definition SHARD_SCHEME_VERSION : Z := 1.
Definition DEFAULT_SHARD_COUNT : Z := 4096.
Definition MIN_SHARD_COUNT : Z := 256.
Definition MAX_SHARD_COUNT : Z := 16384.

Record WriteIdentity := mkWriteIdentity {
  wi_namespace : string;
  wi_backend : string;
  wi_bucket : string;
  wi_object_path : string
}.

Record ShardConfig := mkShardConfig {
  shard_count : Z;
  salt : Z;
  scheme_version : Z
}.

Definition ShardConfig_new (salt : Z) : ShardConfig :=
  mkShardConfig DEFAULT_SHARD_COUNT salt SHARD_SCHEME_VERSION.

(** [u32::is_power_of_two]. *)
Definition is_power_of_two (n : Z) : bool := (0 <? n) && (Z.land n (n - 1) =? 0).

Definition with_shard_count (salt count : Z) : MetadataResult ShardConfig :=
  if negb ((MIN_SHARD_COUNT <=? count) && (count <=? MAX_SHARD_COUNT))
  then Err (InvalidRecord ("shard count " +:+ pretty count +:+ " is outside 256..=16384"))
  else if negb (is_power_of_two count)
  then Err (InvalidRecord ("shard count " +:+ pretty count +:+ " is not a power of two"))
  else Ok (mkShardConfig count salt SHARD_SCHEME_VERSION).

(** One length-prefixed field. *)
Definition encode_field (f : string) : list byte :=
  le_bytes 8 (Z.of_nat (length (as_bytes f))) ++ as_bytes f.

Definition encode (c : ShardConfig) (i : WriteIdentity) : list byte :=
  le_bytes 4 (scheme_version c) ++ le_bytes 8 (salt c) ++
  concat (encode_field <$> [wi_namespace i; wi_backend i; wi_bucket i; wi_object_path i]).

Definition shard_for `{Xxh3} (c : ShardConfig) (i : WriteIdentity) : Z :=
  wrap 32 (xxh3_64 (encode c i) mod shard_count c).

(** ** assignment.rs *)

Record EligibleWorker := mkEligibleWorker { id : string; failure_domain : string }.

#[export] Instance EligibleWorker_eq_dec : EqDecision EligibleWorker.
Proof. solve_decision. Defined.

(** [FencingTerm::next]; [None] is the overflow panic. *)
Definition FencingTerm_next (t : Z) : option Z := checked_add 64 t 1.

Inductive ShardState := Active | Draining | Recovering | Incomplete.

Definition accepts_writes (s : ShardState) : bool :=
  match s with Active => true | _ => false end.
Definition ShardState_is_retryable (s : ShardState) : bool :=
  match s with Recovering | Draining => true | _ => false end.

Record DesiredAssignment := mkDesiredAssignment {
  da_shard : Z;
  primary : string;
  replicas : list string
}.

Record WriteShardDescriptor := mkDescriptor {
  shard : Z;
  term : Z;
  d_state : ShardState;
  owner : string;
  owner_incarnation : string;
  previous_acting_set : list string;
  acting_set : list string;
  replication_factor : Z;
  write_quorum : Z
}.

Definition accepts_term (d : WriteShardDescriptor) (t : Z) : bool := term d <=? t.

Definition PLACEMENT_SCHEME : Z := 1.

Definition score `{Xxh3} (shard : Z) (worker_id : string) : Z :=
  xxh3_64 (le_bytes 4 PLACEMENT_SCHEME ++ le_bytes 4 shard ++
           le_bytes 8 (Z.of_nat (length (as_bytes worker_id))) ++ as_bytes worker_id).

(** The comparison of [sort_by]: descending score, then ascending id. *)
Definition before `{Xxh3} (sh : Z) (a b : EligibleWorker) : Prop :=
  score sh (id b) < score sh (id a) \/
  (score sh (id b) = score sh (id a) /\ String.le (id a) (id b)).

#[export] Instance before_dec `{Xxh3} sh a b : Decision (before sh a b).
Proof. unfold before. apply _. Defined.

(** The loop that takes the first worker of each new failure domain. *)
Fixpoint choose (rf : Z) (domains replicas : list string) (ws : list EligibleWorker)
    : list string :=
  match ws with
  | [] => replicas
  | w :: ws =>
    if rf <=? Z.of_nat (length replicas) + 1 then replicas
    else if bool_decide (failure_domain w ∈ domains) then choose rf domains replicas ws
    else choose rf (domains ++ [failure_domain w]) (replicas ++ [id w]) ws
  end.

(** The sort of no workers is the empty list, the case of the first guard. *)
Definition rank `{Xxh3} (sh : Z) (workers : list EligibleWorker) (rf : Z)
    : MetadataResult DesiredAssignment :=
  match merge_sort (before sh) workers with
  | [] => Err (InvalidRecord ("no eligible workers for shard " +:+ pretty sh))
  | p :: ws =>
    let replicas := choose rf [failure_domain p] [] ws in
    if Z.of_nat (length replicas) + 1 <? rf
    then Err (InvalidRecord ("shard " +:+ pretty sh +:+ " needs " +:+ pretty rf +:+
                " failure domains, found " +:+ pretty (Z.of_nat (length replicas) + 1)))
    else Ok (mkDesiredAssignment sh (id p) replicas)
  end.

Definition propose_transfer (current : WriteShardDescriptor) (desired : DesiredAssignment)
    (new_owner_incarnation : string) (state : ShardState) : option WriteShardDescriptor :=
  match FencingTerm_next (term current) with
  | None => None
  | Some t => Some (mkDescriptor (shard current) t state (primary desired)
      new_owner_incarnation (acting_set current) (primary desired :: replicas desired)
      (replication_factor current) (write_quorum current))
  end.

(** ** The hash input *)

Lemma as_bytes_inj a b : as_bytes a = as_bytes b -> a = b.
Proof.
  intros E. rewrite <-(String.string_of_list_byte_of_string a),
    <-(String.string_of_list_byte_of_string b). unfold as_bytes in E. by rewrite E.
Qed.

Definition short (f : string) : Prop := Z.of_nat (length (as_bytes f)) < 2 ^ 64.

Lemma encode_field_app_inj f g r r' :
  short f -> short g -> encode_field f ++ r = encode_field g ++ r' -> f = g /\ r = r'.
Proof.
  unfold short, encode_field. intros Hf Hg E. rewrite <-!app_assoc in E.
  apply app_inj_1 in E as [El E]; [|by rewrite !length_le_bytes].
  apply le_bytes_inj in El; [|change (256 ^ Z.of_nat 8) with (2 ^ 64); lia..].
  apply app_inj_1 in E as [Ef E]; [|lia]. by apply as_bytes_inj in Ef.
Qed.

Lemma is_power_of_two_spec n : is_power_of_two n = true -> n = 2 ^ Z.log2 n.
Proof.
  unfold is_power_of_two. intros [Hn%Z.ltb_lt E%Z.eqb_eq]%andb_true_iff.
  pose proof (Z.log2_spec n Hn) as [Hlo Hhi].
  destruct (Z.eq_dec n (2 ^ Z.log2 n)) as [|Hne]; [done|exfalso].
  assert (Z.log2 (n - 1) = Z.log2 n) as El.
  { apply Z.log2_unique; [apply Z.log2_nonneg|lia]. }
  apply (f_equal (fun x => Z.testbit x (Z.log2 n))) in E.
  rewrite Z.land_spec, Z.bit_log2, Z.testbit_0_l in E by done.
  rewrite <-El, Z.bit_log2 in E; [done|]. pose proof (Z.log2_nonneg n).
  assert (0 < 2 ^ Z.log2 n) by (by apply Z.pow_pos_nonneg). lia.
Qed.

(** ** The ranking order *)

Section Ranking.
Context `{Xxh3} (sh : Z).

#[local] Instance before_trans : Transitive (before sh).
Proof.
  intros a b c [?|[? ?]] [?|[? ?]]; unfold before; [left; lia..|].
  right. split; [lia|by etrans].
Qed.

#[local] Instance before_total : Total (before sh).
Proof.
  intros a b. unfold before. destruct (Z.lt_total (score sh (id a)) (score sh (id b)))
    as [?|[?|?]]; [auto| |auto].
  destruct (total String.le (id a) (id b)); auto with lia.
Qed.

Lemma before_antisym_id a b : before sh a b -> before sh b a -> id a = id b.
Proof. intros [?|[? ?]] [?|[? ?]]; try lia. by apply (anti_symm String.le). Qed.

Lemma before_antisym ws a b :
  NoDup (id <$> ws) -> a ∈ ws -> b ∈ ws -> before sh a b -> before sh b a -> a = b.
Proof.
  intros Hnd Ha Hb H1 H2. pose proof (before_antisym_id a b H1 H2) as E.
  apply list_elem_of_lookup in Ha as [i Ha]. apply list_elem_of_lookup in Hb as [j Hb].
  assert (i = j) as ->; [|congruence].
  eapply NoDup_lookup; [exact Hnd| |]; rewrite list_lookup_fmap.
  - by rewrite Ha.
  - by rewrite Hb, E.
Qed.

(** The sorted order is determined by the set of workers. *)
Lemma sort_unique ws l :
  NoDup (id <$> ws) -> l ≡ₚ ws -> StronglySorted (before sh) l ->
  merge_sort (before sh) ws = l.
Proof.
  intros Hnd Hp Hs. apply (StronglySorted_unique_strong (before sh)).
  - intros a b Ha Hb. rewrite (merge_sort_Permutation (before sh) ws) in Ha.
    rewrite Hp in Hb. by apply (before_antisym ws).
  - apply StronglySorted_merge_sort; apply _.
  - done.
  - by rewrite merge_sort_Permutation, Hp.
Qed.

(** *** The choice of replicas *)

Lemma choose_full rf ds rs ws : rf <= Z.of_nat (length rs) + 1 -> choose rf ds rs ws = rs.
Proof.
  intros Hf. destruct ws as [|w ws]; simpl; [done|].
  by rewrite (proj2 (Z.leb_le _ _)).
Qed.

Lemma choose_prefix rf ds rs ws : rs `prefix_of` choose rf ds rs ws.
Proof.
  revert ds rs. induction ws as [|w ws IH]; intros ds rs; simpl; [done|].
  destruct (_ <=? _); [done|]. case_bool_decide; [apply IH|].
  etrans; [|apply IH]. by apply prefix_app_r.
Qed.

Lemma choose_skip rf ds rs l1 w l2 :
  id w ∉ choose rf ds rs (l1 ++ w :: l2) ->
  choose rf ds rs (l1 ++ l2) = choose rf ds rs (l1 ++ w :: l2).
Proof.
  revert ds rs. induction l1 as [|v l1 IH]; intros ds rs; simpl.
  - destruct (Z.leb_spec rf (Z.of_nat (length rs) + 1)); [intros _; by apply choose_full|].
    case_bool_decide as Hd; [done|]. intros []. eapply elem_of_prefix; [|apply choose_prefix].
    apply elem_of_app. right. by apply list_elem_of_singleton.
  - destruct (_ <=? _); [done|]. case_bool_decide; apply IH.
Qed.

Lemma choose_separated rf ds rs ws :
  NoDup ds ->
  exists cs, choose rf ds rs ws = rs ++ (id <$> cs) /\ cs `sublist_of` ws /\
    NoDup (ds ++ (failure_domain <$> cs)) /\
    (cs = [] \/ Z.of_nat (length rs + length cs) + 1 <= rf).
Proof.
  revert ds rs. induction ws as [|w ws IH]; intros ds rs Hd; simpl.
  { exists []. rewrite !app_nil_r. splits; auto. }
  destruct (Z.leb_spec rf (Z.of_nat (length rs) + 1)) as [Hf|Hf].
  { exists []. rewrite !app_nil_r. splits; auto. apply sublist_nil_l. }
  case_bool_decide as Hw.
  - destruct (IH ds rs Hd) as (cs & -> & Hs & Hn & Hl). exists cs. splits; auto.
    by apply sublist_cons.
  - destruct (IH (ds ++ [failure_domain w]) (rs ++ [id w])) as (cs & -> & Hs & Hn & Hl).
    { apply NoDup_app. splits; [done| |apply NoDup_singleton].
      by intros d Hin ->%list_elem_of_singleton. }
    exists (w :: cs). rewrite !fmap_cons, <-app_assoc. splits; [done|by apply sublist_skip| |].
    + by rewrite <-app_assoc in Hn.
    + right. destruct Hl as [->|Hl]; [simpl; lia|]. rewrite length_app in Hl. simpl in *. lia.
Qed.

End Ranking.

(** ** Theorems *)

(** The shard hash input is injective: with one configuration, no two write identities
    are hashed from the same bytes, wherever separators fall in their fields. *)
Theorem encode_injective c i j :
  Forall short [wi_namespace i; wi_backend i; wi_bucket i; wi_object_path i] ->
  Forall short [wi_namespace j; wi_backend j; wi_bucket j; wi_object_path j] ->
  encode c i = encode c j -> i = j.
Proof.
  intros Hi Hj E. unfold encode in E. do 2 apply app_inv_head in E. destruct i, j.
  cbn -[encode_field short] in E, Hi, Hj.
  repeat match goal with H : Forall _ (_ :: _) |- _ => apply Forall_cons in H as [? ?] end.
  do 4 (apply encode_field_app_inj in E as [-> E]; [|done..]). done.
Qed.

(** Configurations come with a power of two of shards, so the shard of an identity is
    the digest masked to the low bits and always a shard of the namespace; shard counts
    outside the bounds or not a power of two are refused. *)
Theorem shard_for_mask `{Xxh3} s n c i :
  with_shard_count s n = Ok c ->
  shard_for c i = Z.land (xxh3_64 (encode c i)) (n - 1) /\ 0 <= shard_for c i < n /\
  MIN_SHARD_COUNT <= n <= MAX_SHARD_COUNT.
Proof.
  unfold with_shard_count. destruct (negb (_ && _)) eqn:Eb; [done|].
  destruct (is_power_of_two n) eqn:Ep; [|done]. intros [= <-].
  apply negb_false_iff, andb_true_iff in Eb as [Hlo%Z.leb_le Hhi%Z.leb_le].
  unfold shard_for. cbn [shard_count].
  set (d := xxh3_64 _). pose proof (Z.mod_pos_bound d n ltac:(unfold MIN_SHARD_COUNT in *; lia)) as Hm.
  rewrite wrap_small by (unfold is_u, MAX_SHARD_COUNT in *; lia). splits; try lia.
  rewrite (is_power_of_two_spec n Ep).
  replace (2 ^ Z.log2 n - 1) with (Z.ones (Z.log2 n)) by (rewrite Z.ones_equiv; lia).
  by rewrite Z.land_ones by apply Z.log2_nonneg.
Qed.

(** Every coordinator computes the same assignment: with distinct worker ids, [rank] does
    not depend on the order the workers are listed in, also when scores collide. *)
Theorem rank_order_independent `{Xxh3} sh ws ws' rf :
  NoDup (id <$> ws) -> ws ≡ₚ ws' -> rank sh ws rf = rank sh ws' rf.
Proof.
  intros Hnd Hp. unfold rank. rewrite (sort_unique sh ws (merge_sort (before sh) ws')); [done|done| |].
  - by rewrite merge_sort_Permutation, Hp.
  - apply StronglySorted_merge_sort; [apply before_trans|apply before_total].
Qed.

(** A successful ranking chooses the best-ranked worker as primary and exactly
    [replication_factor] workers (one when it is zero) in distinct failure domains, all
    from the given list. *)
Theorem rank_separated `{Xxh3} sh ws rf a :
  rank sh ws rf = Ok a ->
  exists p cs, primary a = id p /\ replicas a = id <$> cs /\
    p :: cs ⊆+ ws /\ NoDup (failure_domain <$> p :: cs) /\
    Z.of_nat (length (p :: cs)) = Z.max 1 rf /\ Forall (before sh p) ws.
Proof.
  unfold rank. destruct (merge_sort (before sh) ws) as [|p l] eqn:Es; [done|].
  destruct (choose_separated rf [failure_domain p] [] l) as (cs & -> & Hs & Hn & Hl).
  { apply NoDup_singleton. }
  destruct (Z.ltb_spec (Z.of_nat (length ([] ++ (id <$> cs))) + 1) rf) as [|Hge]; [done|].
  intros [= <-]. exists p, cs. simpl in *. rewrite length_fmap in Hge. splits; try done.
  - rewrite <-(merge_sort_Permutation (before sh) ws), Es.
    by apply submseteq_skip, sublist_submseteq.
  - destruct Hl as [->|Hl]; simpl in *; lia.
  - apply Forall_forall. intros w Hw.
    rewrite <-(merge_sort_Permutation (before sh) ws), Es in Hw.
    assert (StronglySorted (before sh) (p :: l)) as Hss.
    { rewrite <-Es. apply StronglySorted_merge_sort; [apply before_trans|apply before_total]. }
    apply StronglySorted_cons in Hss as [Hp _].
    apply elem_of_cons in Hw as [->|Hw]; [|by eapply Forall_forall in Hp].
    destruct (before_total sh p p); done.
Qed.

(** Ownership moves only when it has to: removing a worker that the assignment does not
    use leaves the assignment unchanged. *)
Theorem rank_stable `{Xxh3} sh w ws rf a :
  NoDup (id <$> w :: ws) -> rank sh (w :: ws) rf = Ok a ->
  id w <> primary a -> id w ∉ replicas a -> rank sh ws rf = Ok a.
Proof.
  intros Hnd Er Hp Hr. unfold rank in Er.
  assert (StronglySorted (before sh) (merge_sort (before sh) (w :: ws))) as Hss.
  { apply StronglySorted_merge_sort; [apply before_trans|apply before_total]. }
  pose proof (merge_sort_Permutation (before sh) (w :: ws)) as Hperm.
  assert (w ∈ merge_sort (before sh) (w :: ws)) as Hin.
  { rewrite Hperm. by apply list_elem_of_here. }
  apply list_elem_of_split in Hin as (l1 & l2 & E). rewrite E in Er, Hss, Hperm.
  assert (merge_sort (before sh) ws = l1 ++ l2) as Es.
  { apply sort_unique; [by apply NoDup_cons in Hnd as [_ ?]| |].
    - apply (Permutation_cons_inv (a := w)). by rewrite <-Hperm, Permutation_middle.
    - apply StronglySorted_app in Hss as (H12 & H1 & H2).
      apply StronglySorted_app. apply StronglySorted_cons in H2 as [_ H2].
      splits; try done. intros x y Hx Hy. apply H12; [done|by apply list_elem_of_further]. }
  unfold rank. rewrite Es. destruct l1 as [|p l1]; simpl in *.
  - destruct (_ <? rf); [done|]. injection Er as <-. by destruct Hp.
  - destruct (_ <? rf) eqn:El in Er; [done|]. injection Er as <-. simpl in Hr.
    rewrite (choose_skip rf _ _ l1 w l2) by done. by rewrite El.
Qed.

(** A transfer fences the old owner: the proposed term is the next one, so the new
    descriptor rejects the old term and every lower one, and recovery can still ask the
    workers that held the shard before. *)
Theorem transfer_fences d a inc state d' :
  propose_transfer d a inc state = Some d' ->
  term d' = term d + 1 /\ (forall t, accepts_term d' t = true <-> term d < t) /\
  previous_acting_set d' = acting_set d /\ acting_set d' = primary a :: replicas a /\
  owner d' = primary a /\ shard d' = shard d.
Proof.
  unfold propose_transfer, FencingTerm_next, checked_add.
  destruct (term d + 1 <? 2 ^ 64); [|done]. intros [= <-]. unfold accepts_term. simpl.
  splits; try done. intros t. rewrite Z.leb_le. lia.
Qed.

(** ** Witnesses *)

Definition sample_identity : WriteIdentity := mkWriteIdentity "ns" "s3" "bucket" "a/b.bin".
Definition sample_config : ShardConfig := ShardConfig_new 7.

Lemma encode_injective_witness : sample_identity = sample_identity.
Proof.
  apply (encode_injective sample_config).
  - repeat (constructor; [by vm_compute|]). constructor.
  - repeat (constructor; [by vm_compute|]). constructor.
  - reflexivity.
Defined.

Lemma shard_for_mask_witness :
  let c := mkShardConfig 512 7 1 in
  @shard_for toy_xxh3 c sample_identity =
    Z.land (@xxh3_64 toy_xxh3 (encode c sample_identity)) (512 - 1) /\
  0 <= @shard_for toy_xxh3 c sample_identity < 512 /\
  MIN_SHARD_COUNT <= 512 <= MAX_SHARD_COUNT.
Proof. apply (@shard_for_mask toy_xxh3 7). reflexivity. Defined.

Definition w1 : EligibleWorker := mkEligibleWorker "w1" "rack1".
Definition w2 : EligibleWorker := mkEligibleWorker "w2" "rack2".
Definition w3 : EligibleWorker := mkEligibleWorker "w3" "rack2".

Lemma sample_nodup : NoDup (id <$> [w1; w2; w3]).
Proof. apply (bool_decide_unpack _). vm_compute. done. Qed.

Example rank_sample :
  @rank toy_xxh3 5 [w1; w2; w3] 2 = Ok (mkDesiredAssignment 5 "w3" ["w1"]).
Proof. vm_compute. reflexivity. Qed.

Lemma rank_order_independent_witness :
  @rank toy_xxh3 5 [w1; w2; w3] 2 = @rank toy_xxh3 5 [w2; w1; w3] 2.
Proof.
  apply (@rank_order_independent toy_xxh3).
  - exact sample_nodup.
  - apply perm_swap.
Defined.

Lemma rank_separated_witness :
  exists p cs, "w3"%string = id p /\ ["w1"%string] = id <$> cs /\
    p :: cs ⊆+ [w1; w2; w3] /\ NoDup (failure_domain <$> p :: cs) /\
    Z.of_nat (length (p :: cs)) = Z.max 1 2 /\ Forall (@before toy_xxh3 5 p) [w1; w2; w3].
Proof.
  apply (@rank_separated toy_xxh3 5 [w1; w2; w3] 2 (mkDesiredAssignment 5 "w3" ["w1"%string])).
  vm_compute. reflexivity.
Defined.

Lemma rank_stable_witness :
  @rank toy_xxh3 5 [w1; w3] 2 = Ok (mkDesiredAssignment 5 "w3" ["w1"%string]).
Proof.
  apply (@rank_stable toy_xxh3 5 w2 [w1; w3]).
  - apply (bool_decide_unpack _). vm_compute. done.
  - vm_compute. reflexivity.
  - discriminate.
  - apply (bool_decide_unpack _). vm_compute. done.
Defined.

Definition sample_descriptor : WriteShardDescriptor :=
  mkDescriptor 5 3 Active "w1" "inc" [] ["w1"%string; "w2"%string] 2 2.

Lemma transfer_fences_witness :
  let d' := mkDescriptor 5 4 Recovering "w3" "inc2" ["w1"%string; "w2"%string]
              ["w3"%string; "w1"%string] 2 2 in
  term d' = term sample_descriptor + 1 /\
  (forall t, accepts_term d' t = true <-> term sample_descriptor < t) /\
  previous_acting_set d' = acting_set sample_descriptor /\
  acting_set d' = ["w3"%string; "w1"%string] /\
  owner d' = "w3"%string /\ shard d' = shard sample_descriptor.
Proof.
  apply (transfer_fences sample_descriptor (mkDesiredAssignment 5 "w3" ["w1"%string]) "inc2"
    Recovering). vm_compute. reflexivity.
Defined.

End MetaShard.
