(* ===== verification/MetaRecovery.v ===== *)
(** Shard handoff and quorum recovery (crates/talon-metadata/src/recovery.rs).

    [recover] merges the manifests of the replicas that answered.  A [u8]
    subtraction or addition that overflows is a panic, [None]. *)

From S2P Require Import Prelude MetaTypes MetaShard.

Module MetaRecovery.
Import MetaTypes MetaShard.
Local Open Scope Z_scope.

(** Durations in nanoseconds. *)
Definition from_secs (s : Z) : Z := s * 1000000000.
Definition UNHEALTHY_AFTER : Z := from_secs 15.
Definition MANIFEST_COLLECTION : Z := from_secs 10.
Definition REPAIR_PROGRESS : Z := from_secs 30.
Definition RECOVERY_TOTAL : Z := from_secs 120.
Definition CLIENT_RETRY : Z := from_secs 30.

Record MutationId := mkMutationId { m_term : Z; sequence : Z }.

#[export] Instance MutationId_eq_dec : EqDecision MutationId.
Proof. solve_decision. Defined.

(** The derived order: term first, then sequence. *)
Definition mutation_lt (a b : MutationId) : bool :=
  (m_term a <? m_term b) || ((m_term a =? m_term b) && (sequence a <? sequence b)).
Definition mutation_le (a b : MutationId) : Prop :=
  m_term a < m_term b \/ (m_term a = m_term b /\ sequence a <= sequence b).

Inductive MutationState := Prepared | MutCommitted | Flushed.

Definition survives_recovery (s : MutationState) : bool :=
  match s with MutCommitted | Flushed => true | Prepared => false end.

Record ManifestEntry := mkEntry {
  object : string;
  mutation : MutationId;
  m_state : MutationState;
  payload_verified : bool
}.

Record ManifestResponse := mkResponse { replica : string; entries : list ManifestEntry }.

Inductive RecoveryFailure :=
  | QuorumNotMet (received required : Z)
  | PayloadUnavailable (object : string)
  | DeadlineExceeded (stage : string).

Inductive RecoveryOutcome :=
  | Recovered (selected : list ManifestEntry)
  | RecoveryIncomplete (failure : RecoveryFailure).

Definition resulting_state (o : RecoveryOutcome) : ShardState :=
  match o with Recovered _ => Active | RecoveryIncomplete _ => Incomplete end.

Definition recovery_quorum (rf wq : Z) : option Z :=
  match checked_sub rf wq with
  | Some d => checked_add 8 d 1
  | None => None
  end.

(** Whether an entry replaces the current winner of its object. *)
Definition better (entry current : ManifestEntry) : bool :=
  mutation_lt (mutation current) (mutation entry)
  || (bool_decide (mutation entry = mutation current)
      && payload_verified entry && negb (payload_verified current)).

Fixpoint merge_entry (winners : list ManifestEntry) (entry : ManifestEntry)
    : list ManifestEntry :=
  match winners with
  | [] => [entry]
  | w :: ws =>
    if (object w =? object entry)%string
    then (if better entry w then entry else w) :: ws
    else w :: merge_entry ws entry
  end.

Definition merge_step (winners : list ManifestEntry) (entry : ManifestEntry)
    : list ManifestEntry :=
  if negb (survives_recovery (m_state entry)) then winners else merge_entry winners entry.

Definition merge_all (responses : list ManifestResponse) : list ManifestEntry :=
  foldl (fun winners response => foldl merge_step winners (entries response)) [] responses.

Definition by_object (a b : ManifestEntry) : Prop := String.le (object a) (object b).

#[export] Instance by_object_dec a b : Decision (by_object a b).
Proof. unfold by_object. apply _. Defined.

Definition recover (responses : list ManifestResponse) (rf wq : Z) : option RecoveryOutcome :=
  match recovery_quorum rf wq with
  | None => None
  | Some required =>
    if Z.of_nat (length responses) <? required
    then Some (RecoveryIncomplete (QuorumNotMet (Z.of_nat (length responses)) required))
    else
    let winners := merge_all responses in
    match List.find (fun e => negb (payload_verified e)) winners with
    | Some missing => Some (RecoveryIncomplete (PayloadUnavailable (object missing)))
    | None => Some (Recovered (merge_sort by_object winners))
    end
  end.

Definition deadline_exceeded (since_recovering since_progress : Z)
    (manifests_collected : bool) : option string :=
  if RECOVERY_TOTAL <? since_recovering then Some "recovery_total"
  else if negb manifests_collected && (MANIFEST_COLLECTION <? since_recovering)
  then Some "manifest_collection"
  else if REPAIR_PROGRESS <? since_progress then Some "repair_progress"
  else None.

Definition may_start_recovery (has_fresh_membership_snapshot : bool) : bool :=
  has_fresh_membership_snapshot.

Inductive HandoffStep :=
  MarkDraining | TransferDirtySet | QuiesceAndCopyTail | CommitOwnership | Activate.

Definition ORDER : list HandoffStep :=
  [MarkDraining; TransferDirtySet; QuiesceAndCopyTail; CommitOwnership; Activate].

Definition old_owner_still_serves (s : HandoffStep) : bool :=
  match s with MarkDraining | TransferDirtySet => true | _ => false end.

(** ** The merge *)

(** All entries that survive, in the order they are merged. *)
Definition surviving (responses : list ManifestResponse) : list ManifestEntry :=
  filter (fun e => survives_recovery (m_state e)) (concat (entries <$> responses)).

Lemma foldl_merge_step ws es :
  foldl merge_step ws es = foldl merge_entry ws (filter (fun e => survives_recovery (m_state e)) es).
Proof.
  revert ws. induction es as [|e es IH]; intros ws; [done|]. rewrite filter_cons. cbn [foldl].
  rewrite IH. unfold merge_step. destruct (survives_recovery (m_state e)); simpl; by rewrite ?decide_True, ?decide_False.
Qed.

Lemma merge_all_surviving rs : merge_all rs = foldl merge_entry [] (surviving rs).
Proof.
  unfold merge_all, surviving. generalize (@nil ManifestEntry) as ws.
  induction rs as [|r rs IH]; intros ws; [done|]. rewrite fmap_cons. cbn [foldl concat].
  by rewrite IH, foldl_merge_step, filter_app, foldl_app.
Qed.

Lemma mutation_lt_spec a b : mutation_lt a b = true <-> ~ mutation_le b a.
Proof. unfold mutation_lt, mutation_le. lia. Qed.

Lemma mutation_le_refl a : mutation_le a a.
Proof. unfold mutation_le. lia. Qed.

Lemma mutation_le_trans a b c : mutation_le a b -> mutation_le b c -> mutation_le a c.
Proof. unfold mutation_le. lia. Qed.

Lemma better_le e w :
  if better e w then mutation_le (mutation w) (mutation e)
  else mutation_le (mutation e) (mutation w).
Proof.
  unfold better. destruct (mutation_lt (mutation w) (mutation e)) eqn:E; simpl.
  - apply mutation_lt_spec in E. unfold mutation_le in *. lia.
  - apply not_true_iff_false in E. rewrite mutation_lt_spec in E.
    case_bool_decide as Em; simpl.
    + rewrite Em. by destruct (_ && _); apply mutation_le_refl.
    + by apply dec_stable in E.
Qed.

(** [w] is at least as good as [e]: no older, and verified if [e] is the same mutation and
    verified. *)
Definition covers (w e : ManifestEntry) : Prop :=
  object w = object e /\ mutation_le (mutation e) (mutation w) /\
  (mutation e = mutation w -> payload_verified e = true -> payload_verified w = true).

Lemma covers_trans a b c : covers a b -> covers b c -> covers a c.
Proof.
  intros (E1 & L1 & V1) (E2 & L2 & V2). split; [congruence|].
  split; [by eapply mutation_le_trans|]. intros E V.
  assert (mutation b = mutation a) as Eb.
  { rewrite E in L2. destruct (mutation a), (mutation b); unfold mutation_le in *; simpl in *.
    f_equal; lia. }
  apply V1; [done|]. apply V2; [congruence|done].
Qed.

Lemma covers_refl e : covers e e.
Proof. split; [done|]. split; [apply mutation_le_refl|done]. Qed.

Lemma better_covers e w :
  object w = object e ->
  covers (if better e w then e else w) w /\ covers (if better e w then e else w) e.
Proof.
  intros Eo. pose proof (better_le e w) as Hle. unfold better in *.
  destruct (mutation_lt (mutation w) (mutation e)) eqn:E; simpl in *.
  - apply mutation_lt_spec in E. split; [|apply covers_refl]. split; [done|]. split; [done|].
    intros Em. destruct E. rewrite Em. apply mutation_le_refl.
  - case_bool_decide as Em; simpl in *.
    + destruct (payload_verified e) eqn:Ve, (payload_verified w) eqn:Vw; simpl in *;
        unfold covers; rewrite Em, Eo, ?Ve, ?Vw; splits; try done; apply mutation_le_refl.
    + unfold covers. splits; try done; apply mutation_le_refl.
Qed.

(** What holds of the winners [ws] after merging the entries [es]. *)
Record winners_of (es ws : list ManifestEntry) : Prop := {
  wo_from : forall w, w ∈ ws -> w ∈ es;
  wo_unique : NoDup (object <$> ws);
  wo_covers : forall e, e ∈ es -> exists w, w ∈ ws /\ covers w e
}.

Lemma merge_entry_cases ws e :
  (merge_entry ws e = ws ++ [e] /\ object e ∉ object <$> ws) \/
  exists l w r, ws = l ++ w :: r /\ object w = object e /\
    merge_entry ws e = l ++ (if better e w then e else w) :: r.
Proof.
  induction ws as [|w ws IH]; simpl; [left; split; [done|apply not_elem_of_nil]|].
  destruct (String.eqb_spec (object w) (object e)) as [E|Hne].
  - right. by exists [], w, ws.
  - destruct IH as [[-> Hn]|(l & w' & r & -> & Eo & ->)].
    + left. split; [done|]. by apply not_elem_of_cons.
    + right. by exists (w :: l), w', r.
Qed.

Lemma winners_of_merge es ws e :
  winners_of es ws -> winners_of (es ++ [e]) (merge_entry ws e).
Proof.
  intros [Hf Hu Hc]. destruct (merge_entry_cases ws e) as [[-> Hn]|(l & w & r & -> & Eo & ->)].
  - split.
    + intros w [?%Hf|?]%elem_of_app; apply elem_of_app; auto.
    + rewrite fmap_app. apply NoDup_app. splits; [done| |apply NoDup_singleton].
      by intros x Hx ->%list_elem_of_singleton.
    + intros e' [(w & Hw & ?)%Hc|Hw]%elem_of_app.
      * exists w. rewrite elem_of_app. auto.
      * apply list_elem_of_singleton in Hw as ->. exists e. rewrite elem_of_app, list_elem_of_singleton.
        split; [by right|apply covers_refl].
  - destruct (better_covers e w Eo) as [Cw Ce].
    assert (object (if better e w then e else w) = object w) as Ew by (by destruct (better e w)).
    set (x := if better e w then e else w) in *. split.
    + intros w' Hw'. rewrite elem_of_app. apply elem_of_app in Hw' as [?|Hw'].
      { left. apply Hf. apply elem_of_app. by left. }
      apply elem_of_cons in Hw' as [->|?].
      2:{ left. apply Hf. apply elem_of_app. right. by apply list_elem_of_further. }
      unfold x. destruct (better e w); [right; by apply list_elem_of_singleton|left].
      apply Hf. apply elem_of_app. right. by apply list_elem_of_here.
    + rewrite fmap_app, fmap_cons in *. by rewrite Ew.
    + assert (forall e', (exists w', w' ∈ l ++ w :: r /\ covers w' e') ->
        exists w', w' ∈ l ++ x :: r /\ covers w' e') as Hup.
      { intros e' (w' & Hw' & C). rewrite elem_of_app, elem_of_cons in Hw'.
        destruct Hw' as [?|[->|?]].
        - exists w'. rewrite elem_of_app. auto.
        - exists x. rewrite elem_of_app, elem_of_cons. split; [by auto|]. exact (covers_trans _ _ _ Cw C).
        - exists w'. rewrite elem_of_app, elem_of_cons. auto. }
      intros e' [He%Hc|He]%elem_of_app; [by apply Hup|].
      apply list_elem_of_singleton in He as ->. exists x. rewrite elem_of_app, elem_of_cons. auto.
Qed.

Lemma winners_of_fold es es0 ws :
  winners_of es0 ws -> winners_of (es0 ++ es) (foldl merge_entry ws es).
Proof.
  revert es0 ws. induction es as [|e es IH]; intros es0 ws Hw; cbn [foldl].
  - by rewrite app_nil_r.
  - rewrite cons_middle, app_assoc. by apply IH, winners_of_merge.
Qed.

Lemma merge_all_winners rs : winners_of (surviving rs) (merge_all rs).
Proof.
  rewrite merge_all_surviving. apply (winners_of_fold _ []). split.
  - done.
  - constructor.
  - by intros e ?%not_elem_of_nil.
Qed.

Lemma find_none {A} (f : A -> bool) l :
  List.find f l = None -> forall x, x ∈ l -> f x = false.
Proof. intros H x Hx. apply (List.find_none f l H). by apply list_elem_of_In. Qed.

Lemma submseteq_nodup {A} (l k : list A) : l ⊆+ k -> NoDup k -> NoDup l.
Proof. intros [k' ->]%submseteq_Permutation Hk. by apply NoDup_app in Hk as (? & _ & _). Qed.

(** What a recovery that returns selected. *)
Lemma recover_recovered rs rf wq sel :
  recover rs rf wq = Some (Recovered sel) ->
  rf - wq + 1 <= Z.of_nat (length rs) /\ winners_of (surviving rs) sel /\
  Sorted by_object sel /\ Forall (fun e => payload_verified e = true) sel.
Proof.
  unfold recover, recovery_quorum, checked_sub, checked_add.
  destruct (wq <=? rf); [|done]. destruct (_ <? 2 ^ 8); [|done].
  destruct (Z.ltb_spec (Z.of_nat (length rs)) (rf - wq + 1)); [done|].
  destruct (List.find _ (merge_all rs)) eqn:Ef; [done|]. intros [= <-].
  pose proof (merge_sort_Permutation by_object (merge_all rs)) as Hp.
  destruct (merge_all_winners rs) as [Hf Hu Hc]. splits; [done| | |].
  - split.
    + intros w. rewrite Hp. apply Hf.
    + by rewrite Hp.
    + intros e (w & ? & ?)%Hc. exists w. by rewrite Hp.
  - apply Sorted_merge_sort. intros a b. apply (total String.le).
  - apply Forall_forall. intros e. rewrite Hp. intros He%(find_none _ _ Ef).
    by apply negb_false_iff.
Qed.

(** ** Theorems *)

(** C35: No acknowledged write is lost.  Let a write of an object have been acknowledged by
    [W] distinct members of an acting set of [R], each of which still reports it as
    surviving.  If recovery from distinct members of the acting set returns the shard to
    service, the entry it selects for the object is that write or a later one, with a
    verified payload. *)
Theorem recover_keeps_acknowledged acting holders rs sel rf wq o mu :
  Z.of_nat (length acting) = rf -> NoDup acting ->
  holders ⊆+ acting -> Z.of_nat (length holders) = wq ->
  (replica <$> rs) ⊆+ acting ->
  (forall r, r ∈ rs -> replica r ∈ holders -> exists e, e ∈ entries r /\ object e = o /\
     mutation e = mu /\ survives_recovery (m_state e) = true) ->
  recover rs rf wq = Some (Recovered sel) ->
  exists e, e ∈ sel /\ object e = o /\ mutation_le mu (mutation e) /\ payload_verified e = true.
Proof.
  intros Hrf Hnd Hh Hwq Hrs Hrep (Hq & Hw & _ & Hv)%recover_recovered.
  assert (exists r, r ∈ rs /\ replica r ∈ holders) as (r & Hr & Hrh).
  { destruct (decide (Exists (fun r => replica r ∈ holders) rs)) as [He|He].
    { apply Exists_exists in He as (r & ? & ?). eauto. }
    exfalso. assert (holders ++ (replica <$> rs) ⊆+ acting) as Hsub.
    { apply NoDup_submseteq.
      - apply NoDup_app. splits.
        + by eapply submseteq_nodup.
        + intros x Hx (r & -> & Hr)%list_elem_of_fmap. apply He, Exists_exists. eauto.
        + by eapply submseteq_nodup.
      - intros x [Hx|Hx]%elem_of_app; by eapply elem_of_submseteq. }
    apply submseteq_length in Hsub. rewrite length_app, length_fmap in Hsub. lia. }
  destruct (Hrep r Hr Hrh) as (e & He & Eo & Em & Hs).
  destruct (wo_covers _ _ Hw e) as (w & Hws & Co & Cm & _).
  { apply list_elem_of_filter. split; [by rewrite Hs|]. apply list_elem_of_In, List.in_concat.
    exists (entries r). rewrite <-!list_elem_of_In. split; [|done]. apply list_elem_of_fmap. eauto. }
  exists w. splits; [done|congruence|by rewrite <-Em|]. by eapply Forall_forall in Hv.
Qed.

(** A recovery that succeeds selects, for every object some replica reports a surviving
    mutation of, exactly one entry: one that a replica reported, with the greatest
    surviving mutation id and a verified payload, the entries in object order.  It fails
    on an object's payload only when no replica verified the greatest mutation. *)
Theorem recover_selects_greatest rs rf wq :
  match recover rs rf wq with
  | Some (Recovered sel) =>
      Sorted by_object sel /\ NoDup (object <$> sel) /\
      (forall w, w ∈ sel -> w ∈ surviving rs /\ payload_verified w = true) /\
      (forall e, e ∈ surviving rs -> exists w, w ∈ sel /\ covers w e)
  | Some (RecoveryIncomplete (PayloadUnavailable o)) =>
      exists w, w ∈ surviving rs /\ object w = o /\
        forall e, e ∈ surviving rs -> object e = o ->
          mutation_le (mutation e) (mutation w) /\
          (mutation e = mutation w -> payload_verified e = false)
  | _ => True
  end.
Proof.
  destruct (recover rs rf wq) as [[sel|f]|] eqn:E; [| |done].
  - apply recover_recovered in E as (_ & [Hf Hu Hc] & Hs & Hv). splits; try done.
    intros w Hw. split; [by apply Hf|]. by eapply Forall_forall in Hv.
  - unfold recover in E. destruct (recovery_quorum rf wq); [|done]. destruct (_ <? _).
    { by injection E as <-. }
    destruct (List.find _ (merge_all rs)) as [w|] eqn:Ef; [|done]. injection E as <-.
    apply List.find_some in Ef as [Hin Hv%negb_true_iff]. apply list_elem_of_In in Hin.
    destruct (merge_all_winners rs) as [Hf Hu Hc]. exists w. splits; [by apply Hf|done|].
    intros e He Eo. destruct (Hc e He) as (w' & Hw' & Co & Cm & Cv).
    assert (w' = w) as ->.
    { apply list_elem_of_lookup in Hw' as [i Hi]. apply list_elem_of_lookup in Hin as [j Hj].
      assert (i = j) as ->; [|congruence]. eapply NoDup_lookup; [exact Hu| |];
        rewrite list_lookup_fmap; [by rewrite Hi|]. rewrite Hj. simpl. congruence. }
    split; [done|]. intros Em. destruct (payload_verified e) eqn:Ev; [|done].
    by rewrite Cv in Hv.
Qed.

(** [recover] counts responses, not replicas: one replica answering twice meets a quorum of
    two, and a write that the other two replicas acknowledged is lost. *)
Theorem duplicate_response_loses_write :
  let e := mkEntry "a" (mkMutationId 2 3) MutCommitted true in
  let lagging := mkResponse "w1" [] in
  let holders := [mkResponse "w2" [e]; mkResponse "w3" [e]] in
  recover holders 3 2 = Some (Recovered [e]) /\
  recover [lagging; lagging] 3 2 = Some (Recovered []).
Proof. vm_compute. done. Qed.

(** ** Witness *)

Lemma recover_keeps_acknowledged_witness :
  let e := mkEntry "a" (mkMutationId 2 3) MutCommitted true in
  exists x, x ∈ [e] /\ object x = "a"%string /\ mutation_le (mkMutationId 2 3) (mutation x) /\
    payload_verified x = true.
Proof.
  intros e. apply (recover_keeps_acknowledged ["w1"%string; "w2"%string; "w3"%string]
    ["w2"%string; "w3"%string] [mkResponse "w1" []; mkResponse "w3" [e]] [e] 3 2).
  - reflexivity.
  - apply (bool_decide_unpack _). vm_compute. done.
  - apply submseteq_cons. reflexivity.
  - reflexivity.
  - apply submseteq_skip, submseteq_cons. reflexivity.
  - intros r [->|[->|Hr%not_elem_of_nil]%elem_of_cons]%elem_of_cons Hh; [|by exists e; split; [apply list_elem_of_here|]|done].
    exfalso. revert Hh. apply (bool_decide_unpack _). vm_compute. done.
  - vm_compute. reflexivity.
Defined.

End MetaRecovery.
