(* ===== verification/MetaPolicy.v ===== *)
(** Decisions of the metadata service: flush conflicts and back-off
    (crates/talon-metadata/src/flush.rs), the reference scrubber (scrub.rs) and
    the advertised capabilities (cluster.rs).  Durations are nanoseconds. *)

From S2P Require Import Prelude MetaTypes MetaStore MetaLink.

Module MetaPolicy.
Import MetaTypes.
Local Open Scope Z_scope.

(** ** flush.rs *)

Inductive ConflictPolicy := Manual | TalonWins | ExportThenManual.

Definition ConflictPolicy_as_str (p : ConflictPolicy) : string :=
  match p with
  | Manual => "manual"
  | TalonWins => "talon_wins"
  | ExportThenManual => "export_then_manual"
  end.

Definition preserves_read_your_writes (p : ConflictPolicy) : bool :=
  match p with Manual | TalonWins | ExportThenManual => true end.

Inductive ConflictAction :=
  | Park
  | RetryAgainst (observed_version : string)
  | ExportThenPark.

Definition on_conflict (policy : ConflictPolicy) (observed_version : string)
    (already_retried : bool) : ConflictAction :=
  match policy with
  | Manual => Park
  | ExportThenManual => ExportThenPark
  | TalonWins => if already_retried then Park else RetryAgainst observed_version
  end.

Definition MAX_FLUSH_ATTEMPTS : Z := 5.
Definition INITIAL_BACKOFF : Z := 200 * 1000000.
Definition MAX_BACKOFF : Z := 30 * 1000000000.

(** The largest [Duration], in nanoseconds. *)
Definition DURATION_MAX : Z := 2 ^ 64 * 1000000000 - 1.

(** [1u64.checked_shl(n)]. *)
Definition checked_shl (n : Z) : option Z := if n <? 64 then Some (Z.shiftl 1 n) else None.

(** [Duration::checked_mul]. *)
Definition checked_mul (d k : Z) : option Z :=
  if d * k <=? DURATION_MAX then Some (d * k) else None.

Definition backoff_for (attempt : Z) : Z :=
  if attempt <=? 1 then INITIAL_BACKOFF else
  let factor := default u64_max (checked_shl (attempt - 1)) in
  Z.min (default MAX_BACKOFF (checked_mul INITIAL_BACKOFF (Z.min factor u32_max))) MAX_BACKOFF.

Definition budget_exhausted (attempts : Z) : bool := MAX_FLUSH_ATTEMPTS <=? attempts.

Inductive Resolution :=
  | Retry
  | Export
  | AbandonAcceptOrigin (mutation_id : string) (confirm_data_loss : bool).

Definition destroys_acknowledged_data (r : Resolution) : bool :=
  match r with AbandonAcceptOrigin _ _ => true | _ => false end.

Definition is_permitted (r : Resolution) : bool :=
  match r with
  | Retry | Export => true
  | AbandonAcceptOrigin _ confirm => confirm
  end.

(** ** scrub.rs *)

Record Observation := mkObservation {
  o_inode : InodeNumber;
  object_present : bool;
  recorded_link_count : option LinkCount;
  path_references : Z;
  live_transition : bool;
  previously_unreferenced : bool;
  grace_elapsed : bool
}.

Inductive Repair :=
  | NoRepair
  | DeferToTransition
  | Quarantine (i : InodeNumber)
  | DeleteQuarantined (i : InodeNumber)
  | RepairLinkCount (i : InodeNumber) (recomputed : LinkCount)
  | MarkCorrupt (i : InodeNumber) (dangling_references : Z)
  | RequiresOperator (i : InodeNumber) (reason : string).

Definition is_destructive (r : Repair) : bool :=
  match r with DeleteQuarantined _ => true | _ => false end.

Definition decide_repair (o : Observation) : Repair :=
  if live_transition o then DeferToTransition else
  if negb (object_present o) && (0 <? path_references o)
  then MarkCorrupt (o_inode o) (path_references o)
  else if negb (object_present o) then NoRepair
  else if path_references o =? 0 then
    if previously_unreferenced o && grace_elapsed o
    then DeleteQuarantined (o_inode o) else Quarantine (o_inode o)
  else
    match recorded_link_count o with
    | None => RequiresOperator (o_inode o) "paths reference an inode with no TMS record"
    | Some recorded =>
      if recorded =? path_references o then NoRepair else
      match LinkCount_new (path_references o) with
      | Ok recomputed => RepairLinkCount (o_inode o) recomputed
      | Err _ => RequiresOperator (o_inode o)
          "inode has fewer than two links and needs demotion, not repair"
      end
    end.

(** ** cluster.rs *)

Record ClusterCapabilities := mkClusterCapabilities {
  advertised : CapabilitySet;
  cc_revision : Z;
  store_reachable : bool
}.

Inductive CapabilityState := Available | NotOffered | Unreachable.

Definition CapabilityRevision_next (r : Z) : option Z := checked_add 64 r 1.

Definition ClusterCapabilities_none : ClusterCapabilities :=
  mkClusterCapabilities none INITIAL true.

Definition state_of (c : ClusterCapabilities) (cap : Capability) : CapabilityState :=
  if negb (supports (advertised c) cap) then NotOffered
  else if store_reachable c then Available else Unreachable.

Definition is_available (c : ClusterCapabilities) (cap : Capability) : bool :=
  match state_of c cap with Available => true | _ => false end.

(** ** Lemmas *)

Lemma factor_range n :
  8 <= n -> 256 <= Z.min (default u64_max (checked_shl n)) u32_max <= u32_max.
Proof.
  intros Hn. unfold checked_shl. destruct (n <? 64); [|by vm_compute].
  cbn [default from_option]. unfold id. rewrite Z.shiftl_1_l.
  pose proof (Z.pow_le_mono_r 2 8 n eq_refl Hn) as Hp. change (2 ^ 8) with 256 in Hp.
  unfold u32_max. lia.
Qed.

(** From the ninth attempt on, the back-off is the cap. *)
Lemma backoff_capped a :
  9 <= a ->
  Z.min (default MAX_BACKOFF (checked_mul INITIAL_BACKOFF
    (Z.min (default u64_max (checked_shl (a - 1))) u32_max))) MAX_BACKOFF =
  Z.min (INITIAL_BACKOFF * 2 ^ (a - 1)) MAX_BACKOFF.
Proof.
  intros Ha. pose proof (factor_range (a - 1) ltac:(lia)) as Hf.
  pose proof (Z.pow_le_mono_r 2 8 (a - 1) eq_refl ltac:(lia)) as Hp. change (2 ^ 8) with 256 in Hp.
  generalize dependent (2 ^ (a - 1)). intros q Hq.
  generalize dependent (Z.min (default u64_max (checked_shl (a - 1))) u32_max). intros f Hf.
  unfold checked_mul, INITIAL_BACKOFF, MAX_BACKOFF. destruct (_ <=? DURATION_MAX);
    cbn [default from_option]; unfold id; lia.
Qed.

(** ** Theorems *)

(** The flush back-off doubles from 200 ms and is capped at 30 s, for every attempt
    count a [u32] can hold, including the counts at which the shift would overflow. *)
Theorem backoff_doubles_to_cap a :
  1 <= a < 2 ^ 32 -> backoff_for a = Z.min (INITIAL_BACKOFF * 2 ^ (a - 1)) MAX_BACKOFF.
Proof.
  intros Ha. unfold backoff_for. destruct (Z.leb_spec a 1) as [|H1].
  { assert (a = 1) as -> by lia. vm_compute. reflexivity. }
  destruct (Z.le_gt_cases 9 a) as [H9|H9]; [by apply backoff_capped|].
  assert (a = 2 \/ a = 3 \/ a = 4 \/ a = 5 \/ a = 6 \/ a = 7 \/ a = 8) as Hc by lia.
  clear -Hc. destruct Hc as [->|[->|[->|[->|[->|[->| ->]]]]]]; vm_compute; reflexivity.
Qed.

(** The scrubber deletes an inode object exactly when no transition is live, nothing
    references the object, it was already unreferenced in an earlier pass and the grace
    period is over; a reference to a missing object is marked corrupt and never repaired
    by deleting anything. *)
Theorem scrub_deletes_iff o :
  (is_destructive (decide_repair o) = true <->
   live_transition o = false /\ object_present o = true /\ path_references o = 0 /\
   previously_unreferenced o = true /\ grace_elapsed o = true) /\
  (live_transition o = false -> object_present o = false -> 0 < path_references o ->
   decide_repair o = MarkCorrupt (o_inode o) (path_references o)).
Proof.
  unfold decide_repair. destruct o as [i present rc refs live prev grace]. simpl. split.
  - destruct live; [by intuition|]. destruct present; simpl.
    + destruct (Z.eqb_spec refs 0), prev, grace; simpl; repeat case_match; simpl; intuition congruence.
    + destruct (0 <? refs); simpl; intuition congruence.
  - intros -> -> Hr. simpl. by rewrite (proj2 (Z.ltb_lt _ _)).
Qed.

(** The scrubber and the link protocol agree: on every namespace the protocol reaches, an
    inode whose object exists exactly while it has a record needs no repair, in whatever
    pass it is observed. *)
Theorem scrub_consistent ns w i prev grace :
  MetaLink.reachable ns w ->
  let n := MetaLink.now ns w in
  decide_repair (mkObservation i (bool_decide (is_Some (MetaStore.inodes n !! i)))
    (link_count <$> MetaStore.inodes n !! i)
    (Z.of_nat (MetaLink.path_total (MetaStore.paths n) i)) false prev grace) = NoRepair.
Proof.
  intros Hw n. destruct (MetaLink.wi_link _ _ (MetaLink.world_inv_reachable _ _ Hw)) as [Hr Hp].
  fold n in Hr, Hp. unfold decide_repair. cbn [live_transition object_present path_references
    recorded_link_count]. destruct (MetaStore.inodes n !! i) as [r|] eqn:Ei.
  - destruct (Hr i r Ei) as (_ & _ & H2 & Hc). rewrite bool_decide_true by done. simpl.
    rewrite <-Hc, Z.eqb_refl. destruct (Z.eqb_spec (link_count r) 0); [lia|done].
  - rewrite bool_decide_false by (by intros []). simpl.
    rewrite (proj2 (MetaLink.path_total_0 _ _)); [done|].
    intros p E%Hp. rewrite Ei in E. by destruct E.
Qed.

(** A conflict is retried at most once: after one retry every policy parks the write or
    exports and parks it, no policy gives up read-your-writes, and acknowledged data is
    destroyed only by a resolution that confirms the loss. *)
Theorem conflict_bounded policy v r :
  (forall v', on_conflict policy v true <> RetryAgainst v') /\
  (forall v', on_conflict policy v false = RetryAgainst v' -> v' = v /\ policy = TalonWins) /\
  preserves_read_your_writes policy = true /\
  (is_permitted r = true -> destroys_acknowledged_data r = true ->
   exists m, r = AbandonAcceptOrigin m true).
Proof.
  splits.
  - by destruct policy.
  - destruct policy; simpl; intros v' [= <-]; done.
  - by destruct policy.
  - destruct r as [| |m []]; simpl; try done. by exists m.
Qed.

(** ** Witnesses *)

Lemma backoff_doubles_to_cap_witness :
  backoff_for 4000000000 = Z.min (INITIAL_BACKOFF * 2 ^ (4000000000 - 1)) MAX_BACKOFF.
Proof. apply (backoff_doubles_to_cap 4000000000). lia. Defined.

Lemma scrub_consistent_witness :
  let n := MetaLink.now "ns" MetaLink.promoted_world in
  decide_repair (mkObservation 1 (bool_decide (is_Some (MetaStore.inodes n !! 1)))
    (link_count <$> MetaStore.inodes n !! 1)
    (Z.of_nat (MetaLink.path_total (MetaStore.paths n) 1)) false true true) = NoRepair.
Proof.
  apply (scrub_consistent "ns" MetaLink.promoted_world 1 true true).
  exact MetaLink.promoted_reachable.
Defined.

End MetaPolicy.
