(* ===== verification/Wal.v ===== *)
(** The write-back log's physical framing (crates/talon-worker/src/wal.rs).

    A record is cut into fragments that each fit a 32 KiB block; a segment is
    the concatenation of encoded records.  The loops run with fuel; [None] is
    out of fuel and never happens (lemmas [encode_record_some] and
    [read_segment_some]). *)

From S2P Require Import Prelude.

Module Wal.

Definition BLOCK_SIZE : nat := Z.to_nat (32 * 1024).
Definition HEADER_LEN : nat := 12.
Definition MAX_FRAGMENT_BODY : nat := BLOCK_SIZE - HEADER_LEN.
Definition MAGIC : list byte := String.list_byte_of_string "TWAL".
Definition FORMAT_VERSION : Z := 1.

Inductive FragmentKind := Full | First | Middle | Last.

#[export] Instance FragmentKind_eq_dec : EqDecision FragmentKind.
Proof. solve_decision. Defined.

Definition to_byte (k : FragmentKind) : Z :=
  match k with Full => 1 | First => 2 | Middle => 3 | Last => 4 end.

Definition from_byte (b : Z) : option FragmentKind :=
  if b =? 1 then Some Full else if b =? 2 then Some First
  else if b =? 3 then Some Middle else if b =? 4 then Some Last else None.

Definition starts_record (k : FragmentKind) : bool :=
  match k with Full | First => true | _ => false end.
Definition ends_record (k : FragmentKind) : bool :=
  match k with Full | Last => true | _ => false end.

Inductive ReadError :=
  | TornTail
  | CorruptFragment (offset : nat)
  | NotAFragment (offset : nat)
  | UnsupportedVersion (found : Z).

(** ** CRC-32C *)

Definition POLY : Z := 0x82F63B78.

Definition crc_bit (crc : Z) : Z :=
  let mask := wrap 32 (- Z.land crc 1) in
  Z.lxor (Z.shiftr crc 1) (Z.land POLY mask).

Definition crc_byte (crc : Z) (b : byte) : Z :=
  Nat.iter 8 crc_bit (Z.lxor crc (byte_val b)).

Definition crc32c (data : list byte) : Z := bit_not 32 (foldl crc_byte 0xFFFFFFFF data).

(** ** Encoding *)

(** The four bytes of the envelope that the checksum covers. *)
Definition meta (kind : FragmentKind) (body : list byte) : list byte :=
  byte_of FORMAT_VERSION :: byte_of (to_byte kind)
  :: le_bytes 2 (wrap 16 (Z.of_nat (length body))).

Definition encode_fragment (kind : FragmentKind) (body : list byte) : list byte :=
  MAGIC ++ meta kind body ++ le_bytes 4 (crc32c (meta kind body ++ body)) ++ body.

Fixpoint encode_loop (fuel : nat) (out remaining : list byte) (first : bool)
    : option (list byte) :=
  match fuel with
  | O => None
  | S fuel =>
    let used := (length out mod BLOCK_SIZE)%nat in
    let free := (BLOCK_SIZE - used)%nat in
    if (free <? HEADER_LEN + 1)%nat
    then encode_loop fuel (out ++ replicate free x00) remaining first
    else
    let capacity := (free - HEADER_LEN)%nat in
    let n := Nat.min (length remaining) capacity in
    let last := (n =? length remaining)%nat in
    let kind := match first, last with
      | true, true => Full
      | true, false => First
      | false, true => Last
      | false, false => Middle
      end in
    let out := out ++ encode_fragment kind (take n remaining) in
    if last then Some out else encode_loop fuel out (drop n remaining) false
  end.

Definition encode_record (body : list byte) : option (list byte) :=
  encode_loop (S (length body)) [] body true.

(** ** Decoding *)

Record Fragment := mkFragment { kind : FragmentKind; body : list byte; len : nat }.

Definition all_zero (l : list byte) : bool := forallb (fun b => byte_val b =? 0) l.

Definition decode_fragment (buf : list byte) (offset : nat)
    : result ReadError (option Fragment) :=
  if (length buf <? HEADER_LEN)%nat then
    if all_zero buf then Ok None else Err TornTail
  else if negb (bool_decide (take 4 buf = MAGIC)) then
    if all_zero (take HEADER_LEN buf) then Ok None else Err (NotAFragment offset)
  else
  let version := le_val (slice 4 1 buf) in
  if FORMAT_VERSION <? version then Err (UnsupportedVersion version) else
  k ← ok_or (from_byte (le_val (slice 5 1 buf))) (CorruptFragment offset);
  let body_len := Z.to_nat (le_val (slice 6 2 buf)) in
  let stored_crc := le_val (slice 8 4 buf) in
  if (length buf <? HEADER_LEN + body_len)%nat then Err TornTail else
  let body := slice HEADER_LEN body_len buf in
  if negb (crc32c (slice 4 4 buf ++ body) =? stored_crc)
  then Err (CorruptFragment offset)
  else Ok (Some (mkFragment k body (HEADER_LEN + body_len))).

Record ReadResult := mkReadResult {
  records : list (list byte);
  stopped_by : option ReadError;
  damaged_blocks : nat
}.

Definition next_block (offset : nat) : nat := ((offset / BLOCK_SIZE + 1) * BLOCK_SIZE)%nat.

(** The record under construction after a fragment. *)
Definition extend_pending (f : Fragment) (pending : option (list byte)) : option (list byte) :=
  match starts_record (kind f), pending with
  | true, _ => Some (body f)
  | false, Some open => Some (open ++ body f)
  | false, None => None
  end.

Fixpoint read_loop (fuel : nat) (buf : list byte) (recs : list (list byte))
    (pending : option (list byte)) (damaged offset : nat) : option ReadResult :=
  match fuel with
  | O => None
  | S fuel =>
    if negb (offset <? length buf)%nat then Some (mkReadResult recs None damaged) else
    match decode_fragment (drop offset buf) offset with
    | Ok (Some f) =>
      let pending := extend_pending f pending in
      match ends_record (kind f), pending with
      | true, Some complete =>
          read_loop fuel buf (recs ++ [complete]) None damaged (offset + len f)
      | _, _ => read_loop fuel buf recs pending damaged (offset + len f)
      end
    | Ok None => read_loop fuel buf recs pending damaged (next_block offset)
    | Err TornTail => Some (mkReadResult recs (Some TornTail) damaged)
    | Err (UnsupportedVersion v) =>
        Some (mkReadResult recs (Some (UnsupportedVersion v)) damaged)
    | Err _ => read_loop fuel buf recs None (S damaged) (next_block offset)
    end
  end.

Definition read_segment (buf : list byte) : option ReadResult :=
  read_loop (S (length buf)) buf [] None 0 0.

Lemma BLOCK_SIZE_Z : Z.of_nat BLOCK_SIZE = 32768.
Proof. reflexivity. Qed.
#[global] Opaque BLOCK_SIZE.

(** ** The checksum *)

Lemma crc_bit_u32 c : is_u32 c -> is_u32 (crc_bit c).
Proof.
  intros Hc. apply is_u_lxor; [done|by apply is_u_shiftr|].
  apply is_u_land; [done|apply wrap_range; lia|done].
Qed.

Lemma crc_byte_u32 c b : is_u32 c -> is_u32 (crc_byte c b).
Proof.
  intros Hc. unfold crc_byte. do 8 apply crc_bit_u32. apply is_u_lxor; [done..|].
  pose proof (byte_val_range b). unfold is_u. lia.
Qed.

Lemma crc_fold_u32 l c : is_u32 c -> is_u32 (foldl crc_byte c l).
Proof. revert c. induction l as [|b l IH]; intros c Hc; simpl; auto using crc_byte_u32. Qed.

Lemma crc32c_u32 l : is_u32 (crc32c l).
Proof. apply bit_not_range, crc_fold_u32. by vm_compute. Qed.

(** A register step is invertible: the top bit of the result is the bit shifted out. *)
Lemma crc_bit_inj a b : is_u32 a -> is_u32 b -> crc_bit a = crc_bit b -> a = b.
Proof.
  intros Ha Hb E.
  assert (forall c, is_u32 c -> Z.testbit (crc_bit c) 31 = Z.testbit c 0) as Htop.
  { intros c Hc. unfold crc_bit. rewrite Z.lxor_spec, Z.shiftr_spec, Z.land_spec by lia.
    apply is_u_testbit in Hc as [Hc0 Hc]; [|done]. rewrite (Hc (31 + 1)) by lia.
    change (Z.testbit POLY 31) with true. rewrite andb_true_l, xorb_false_l.
    change 1 with (Z.ones 1) at 1. rewrite Z.land_ones by lia.
    pose proof (Z.mod_pos_bound c (2 ^ 1) eq_refl) as Hm.
    rewrite Z.bit0_odd, Zodd_mod. change (2 ^ 1) with 2 in *.
    destruct (Z.eq_dec (c mod 2) 0) as [->|]; [done|].
    assert (c mod 2 = 1) as -> by lia. done. }
  assert (Z.land a 1 = Z.land b 1) as El.
  { change 1 with (Z.ones 1). rewrite !Z.land_ones by lia. change (2 ^ 1) with 2.
    pose proof (Htop a Ha) as Ta. pose proof (Htop b Hb) as Tb. rewrite E, Tb in Ta.
    rewrite !Z.bit0_odd, !Zodd_mod in Ta.
    pose proof (Z.mod_pos_bound a 2 eq_refl). pose proof (Z.mod_pos_bound b 2 eq_refl).
    destruct (_ =? _) eqn:E1 in Ta; destruct (_ =? _) eqn:E2 in Ta; try done; lia. }
  unfold crc_bit in E. rewrite El in E.
  apply (f_equal (fun x => Z.lxor x (Z.land POLY (wrap 32 (- Z.land b 1))))) in E.
  rewrite !Z.lxor_assoc, Z.lxor_nilpotent, !Z.lxor_0_r in E.
  rewrite !Z.shiftr_div_pow2 in E by lia. change 1 with (Z.ones 1) in El.
  rewrite !Z.land_ones in El by lia. change (2 ^ 1) with 2 in *.
  rewrite (Z.div_mod a 2), (Z.div_mod b 2) by lia. lia.
Qed.

Lemma crc_iter_inj n a b :
  is_u32 a -> is_u32 b -> Nat.iter n crc_bit a = Nat.iter n crc_bit b -> a = b.
Proof.
  intros Ha Hb. assert (forall m c, is_u32 c -> is_u32 (Nat.iter m crc_bit c)) as Hu.
  { intros m c Hc. induction m; simpl; auto using crc_bit_u32. }
  induction n as [|n IH]; simpl; [done|]. intros E. apply crc_bit_inj in E; auto.
Qed.

Lemma crc_byte_eq c b : crc_byte c b = Nat.iter 8 crc_bit (Z.lxor c (byte_val b)).
Proof. reflexivity. Qed.

Lemma crc_byte_inj_state a b x :
  is_u32 a -> is_u32 b -> crc_byte a x = crc_byte b x -> a = b.
Proof.
  pose proof (byte_val_range x) as Hx. intros Ha Hb E. rewrite !crc_byte_eq in E. apply crc_iter_inj in E.
  - apply (f_equal (fun v => Z.lxor v (byte_val x))) in E.
    by rewrite !Z.lxor_assoc, !Z.lxor_nilpotent, !Z.lxor_0_r in E.
  - apply is_u_lxor; [done..|unfold is_u; lia].
  - apply is_u_lxor; [done..|unfold is_u; lia].
Qed.

Lemma crc_byte_inj_byte a x y : is_u32 a -> crc_byte a x = crc_byte a y -> x = y.
Proof.
  pose proof (byte_val_range x) as Hx. pose proof (byte_val_range y) as Hy.
  intros Ha E. rewrite !crc_byte_eq in E. apply crc_iter_inj in E.
  - apply (f_equal (Z.lxor a)) in E.
    rewrite <-!Z.lxor_assoc, !Z.lxor_nilpotent, !Z.lxor_0_l in E. by apply byte_val_inj.
  - apply is_u_lxor; [done..|unfold is_u; lia].
  - apply is_u_lxor; [done..|unfold is_u; lia].
Qed.

Lemma crc_fold_inj l a b :
  is_u32 a -> is_u32 b -> foldl crc_byte a l = foldl crc_byte b l -> a = b.
Proof.
  revert a b. induction l as [|x l IH]; intros a b Ha Hb; simpl; [done|].
  intros E. apply IH in E; [|by apply crc_byte_u32..]. by apply crc_byte_inj_state in E.
Qed.

Lemma crc32c_byte_error l x y r :
  crc32c (l ++ x :: r) = crc32c (l ++ y :: r) -> x = y.
Proof.
  unfold crc32c, bit_not. intros E.
  assert (foldl crc_byte 0xFFFFFFFF (l ++ x :: r) = foldl crc_byte 0xFFFFFFFF (l ++ y :: r)) as E'
    by lia.
  rewrite !foldl_app in E'. cbn [foldl] in E'.
  assert (is_u32 (foldl crc_byte 0xFFFFFFFF l)) as Hl by (apply crc_fold_u32; by vm_compute).
  apply crc_fold_inj in E'; [|by apply crc_byte_u32..]. by apply crc_byte_inj_byte in E'.
Qed.

(** ** One fragment *)

Lemma length_meta k b : length (meta k b) = 4%nat.
Proof. reflexivity. Qed.

Lemma length_encode_fragment k b : length (encode_fragment k b) = (HEADER_LEN + length b)%nat.
Proof.
  unfold encode_fragment. rewrite !length_app, length_meta, length_le_bytes. reflexivity.
Qed.

Lemma from_to_byte k : from_byte (to_byte k) = Some k.
Proof. by destruct k. Qed.

(** The envelope fields, whatever follows the first eight bytes. *)
Lemma envelope_fields k b rest :
  Z.of_nat (length b) < 2 ^ 16 ->
  let buf := MAGIC ++ meta k b ++ rest in
  take 4 buf = MAGIC /\ le_val (slice 4 1 buf) = FORMAT_VERSION /\
  le_val (slice 5 1 buf) = to_byte k /\ le_val (slice 6 2 buf) = Z.of_nat (length b) /\
  slice 4 4 buf = meta k b.
Proof.
  intros Hb buf.
  assert (slice 6 2 buf = le_bytes 2 (wrap 16 (Z.of_nat (length b)))) as E by reflexivity.
  splits; [reflexivity|reflexivity|by destruct k| |reflexivity].
  rewrite E, le_val_le_bytes; [apply wrap_small; unfold is_u; lia|].
  change (256 ^ Z.of_nat 2) with (2 ^ 16). apply wrap_range. lia.
Qed.

Lemma decode_encode_fragment k b rest off :
  Z.of_nat (length b) < 2 ^ 16 ->
  decode_fragment (encode_fragment k b ++ rest) off =
  Ok (Some (mkFragment k b (HEADER_LEN + length b))).
Proof.
  intros Hb. pose proof (length_encode_fragment k b) as Hl.
  set (crc := crc32c (meta k b ++ b)).
  pose proof (envelope_fields k b (le_bytes 4 crc ++ b ++ rest) Hb) as (E1 & E2 & E3 & E4 & E5).
  assert (encode_fragment k b ++ rest = MAGIC ++ meta k b ++ le_bytes 4 crc ++ b ++ rest) as Ebuf.
  { unfold encode_fragment. fold crc. by rewrite <-!app_assoc. }
  assert (slice 8 4 (encode_fragment k b ++ rest) = le_bytes 4 crc) as E6.
  { rewrite Ebuf, (app_assoc MAGIC). by apply slice_app_exact; [reflexivity|]. }
  assert (slice HEADER_LEN (length b) (encode_fragment k b ++ rest) = b) as E7.
  { rewrite Ebuf, !(app_assoc _ _ (b ++ rest)). apply slice_app_exact; [|done].
    rewrite !length_app, length_le_bytes. reflexivity. }
  rewrite <-Ebuf in E1, E2, E3, E4, E5. unfold decode_fragment. rewrite length_app, Hl.
  rewrite (proj2 (Nat.ltb_ge _ HEADER_LEN)) by lia. rewrite E1, bool_decide_true by done.
  cbn [negb]. rewrite E2, Z.ltb_irrefl, E3, from_to_byte. cbn [ok_or mbind result_bind].
  rewrite E4, Nat2Z.id, (proj2 (Nat.ltb_ge _ _)) by lia.
  rewrite E7, E5, E6, le_val_le_bytes by apply crc32c_u32. fold crc. by rewrite Z.eqb_refl.
Qed.

(** A fragment that was being written when the process died. *)
Lemma decode_torn_fragment k b j off :
  Z.of_nat (length b) < 2 ^ 16 -> (0 < j < HEADER_LEN + length b)%nat ->
  decode_fragment (take j (encode_fragment k b)) off = Err TornTail.
Proof.
  intros Hb Hj. pose proof (length_encode_fragment k b) as Hl.
  assert (length (take j (encode_fragment k b)) = j) as Hlj by (rewrite length_take; lia).
  unfold decode_fragment. rewrite Hlj. destruct (Nat.ltb_spec j HEADER_LEN) as [Hh|Hh].
  { destruct j as [|j]; [lia|]. reflexivity. }
  pose proof (envelope_fields k b (le_bytes 4 (crc32c (meta k b ++ b)) ++ b) Hb)
    as (E1 & E2 & E3 & E4 & _).
  change (MAGIC ++ _) with (encode_fragment k b) in E1, E2, E3, E4.
  unfold HEADER_LEN in *.
  rewrite take_take, Nat.min_l, E1, bool_decide_true by (done || lia). cbn [negb].
  rewrite (slice_take 4 1), (slice_take 5 1), (slice_take 6 2) by lia. rewrite E2, Z.ltb_irrefl, E3, from_to_byte.
  cbn [ok_or mbind result_bind]. by rewrite E4, Nat2Z.id, (proj2 (Nat.ltb_lt j _)) by lia.
Qed.

(** ** Fragmentation *)

(** The fragments of the rest of a record. *)
Inductive fragmented : bool -> list byte -> list (FragmentKind * list byte) -> Prop :=
  | frag_last first b : (length b <= MAX_FRAGMENT_BODY)%nat ->
      fragmented first b [(if first then Full else Last, b)]
  | frag_more first b c fs : length b = MAX_FRAGMENT_BODY -> c <> [] -> fragmented false c fs ->
      fragmented first (b ++ c) ((if first then First else Middle, b) :: fs).

Definition enc (f : FragmentKind * list byte) : list byte := encode_fragment f.1 f.2.

Lemma block_size_pos : (HEADER_LEN + 1 < BLOCK_SIZE)%nat.
Proof. pose proof BLOCK_SIZE_Z. unfold HEADER_LEN. lia. Qed.

(** The loop only ever extends a whole number of blocks. *)
Definition aligned (out : list byte) : Prop := (length out mod BLOCK_SIZE = 0)%nat.

Lemma aligned_block out f : aligned out -> length f = BLOCK_SIZE -> aligned (out ++ f).
Proof.
  unfold aligned. intros Ho Hf. rewrite length_app, Hf, Nat.Div0.add_mod, Ho, Nat.Div0.mod_same.
  apply Nat.Div0.mod_0_l.
Qed.

Lemma encode_loop_fragmented fuel out rem first :
  aligned out -> (length rem < fuel)%nat ->
  exists fs, encode_loop fuel out rem first = Some (out ++ concat (enc <$> fs)) /\
    fragmented first rem fs.
Proof.
  pose proof block_size_pos as Hbs. revert out rem first.
  induction fuel as [|fuel IH]; intros out rem first Ho Hf; [lia|].
  cbn [encode_loop]. unfold aligned in Ho. rewrite Ho. fold (aligned out) in Ho.
  rewrite Nat.sub_0_r, (proj2 (Nat.ltb_ge BLOCK_SIZE _)) by lia.
  fold MAX_FRAGMENT_BODY. destruct (Nat.eqb_spec (Nat.min (length rem) MAX_FRAGMENT_BODY) (length rem)) as [El|El].
  - exists [(if first then Full else Last, rem)]. rewrite El, take_ge by lia. split.
    + simpl. rewrite app_nil_r. by destruct first.
    + constructor. lia.
  - assert (MAX_FRAGMENT_BODY < length rem)%nat as Hlt by lia.
    rewrite Nat.min_r by lia.
    set (k := if first then First else Middle).
    replace (match first with true => First | false => Middle end) with k by (by destruct first).
    destruct (IH (out ++ encode_fragment k (take MAX_FRAGMENT_BODY rem))
      (drop MAX_FRAGMENT_BODY rem) false) as (fs & E & Hfs).
    + apply aligned_block; [done|]. rewrite length_encode_fragment, length_take.
      unfold MAX_FRAGMENT_BODY in *. lia.
    + rewrite length_drop. unfold MAX_FRAGMENT_BODY in *. lia.
    + exists ((k, take MAX_FRAGMENT_BODY rem) :: fs). split.
      * rewrite E, fmap_cons. cbn [concat]. by rewrite <-app_assoc.
      * rewrite <-(take_drop MAX_FRAGMENT_BODY rem) at 1. constructor; [| |done].
        -- rewrite length_take. lia.
        -- intros E0. apply (f_equal length) in E0. rewrite length_drop in E0. simpl in E0. lia.
Qed.

Lemma encode_record_some b :
  exists fs, encode_record b = Some (concat (enc <$> fs)) /\ fragmented true b fs.
Proof.
  unfold encode_record. apply (encode_loop_fragmented _ []); [|lia].
  apply Nat.Div0.mod_0_l.
Qed.

Lemma fragmented_short first b fs :
  fragmented first b fs -> Forall (fun f => Z.of_nat (length f.2) < 2 ^ 16) fs.
Proof.
  assert (Z.of_nat MAX_FRAGMENT_BODY < 2 ^ 16) as Hm.
  { pose proof BLOCK_SIZE_Z as Hz. unfold MAX_FRAGMENT_BODY, HEADER_LEN. lia. }
  induction 1 as [first b Hb|first b c fs Hb _ _ IH].
  - constructor; [cbn [snd]; lia|constructor].
  - constructor; [cbn [snd]; lia|exact IH].
Qed.

(** ** The reader *)

(** The effect of one intact fragment on the records and the record under construction. *)
Definition absorb (s : list (list byte) * option (list byte)) (f : FragmentKind * list byte)
    : list (list byte) * option (list byte) :=
  let pending := extend_pending (mkFragment f.1 f.2 0) s.2 in
  match ends_record f.1, pending with
  | true, Some complete => (s.1 ++ [complete], None)
  | _, _ => (s.1, pending)
  end.

Lemma read_loop_fragment fuel pre f rest recs pending damaged :
  Z.of_nat (length f.2) < 2 ^ 16 ->
  read_loop (S fuel) (pre ++ enc f ++ rest) recs pending damaged (length pre) =
  let s := absorb (recs, pending) f in
  read_loop fuel (pre ++ enc f ++ rest) s.1 s.2 damaged (length (pre ++ enc f)).
Proof.
  intros Hf. cbn [read_loop]. unfold enc.
  rewrite !length_app, length_encode_fragment, (proj2 (Nat.ltb_lt _ _)) by (unfold HEADER_LEN; lia).
  cbn [negb]. rewrite drop_app_length, decode_encode_fragment by exact Hf.
  unfold absorb, extend_pending. cbn [kind body len fst snd].
  destruct f as [k b]. cbn [fst snd]. by destruct k, pending.
Qed.

Lemma read_loop_fragments fuel pre fs rest recs pending damaged :
  Forall (fun f => Z.of_nat (length f.2) < 2 ^ 16) fs ->
  read_loop (length fs + fuel) (pre ++ concat (enc <$> fs) ++ rest) recs pending damaged (length pre) =
  let s := foldl absorb (recs, pending) fs in
  read_loop fuel (pre ++ concat (enc <$> fs) ++ rest) s.1 s.2 damaged
    (length (pre ++ concat (enc <$> fs))).
Proof.
  intros Hfs. revert pre recs pending. induction Hfs as [|f fs Hf _ IH]; intros pre recs pending.
  { simpl. by rewrite app_nil_r. }
  rewrite fmap_cons. cbn [concat length Nat.add foldl]. rewrite <-app_assoc.
  rewrite read_loop_fragment by done. cbv zeta.
  destruct (absorb (recs, pending) f) as [recs1 pending1]. cbn [fst snd].
  rewrite (app_assoc pre), IH. by rewrite !app_assoc.
Qed.

Lemma absorb_rest c fs recs a :
  fragmented false c fs -> foldl absorb (recs, Some a) fs = (recs ++ [a ++ c], None).
Proof.
  intros H. remember false as first eqn:Ef. revert a. induction H as [first b _|first b c fs _ _ _ IH];
    intros a; subst; [done|]. cbn [foldl].
  change (absorb (recs, Some a) _) with (recs, Some (a ++ b)). rewrite IH by done.
  by rewrite <-app_assoc.
Qed.

Lemma absorb_record b fs recs pending :
  fragmented true b fs -> foldl absorb (recs, pending) fs = (recs ++ [b], None).
Proof.
  inversion 1 as [first b' Hb|first b' c fs' Hb _ Hfs]; subst; cbn [foldl].
  - done.
  - unfold absorb at 2. cbn [fst snd extend_pending starts_record ends_record kind body].
    by apply absorb_rest.
Qed.

(** An incomplete record adds no record. *)
Lemma absorb_partial first b fs i recs pending :
  fragmented first b fs -> (i < length fs)%nat -> (first = true \/ is_Some pending) ->
  (foldl absorb (recs, pending) (take i fs)).1 = recs.
Proof.
  intros H. revert i pending. induction H as [first b _|first b c fs _ _ _ IH]; intros i pending Hi Hp.
  - by destruct i as [|i]; [|simpl in Hi; lia].
  - destruct i as [|i]; [done|]. simpl in Hi |- *.
    assert (is_Some (absorb (recs, pending) (if first then First else Middle, b)).2 /\
      (absorb (recs, pending) (if first then First else Middle, b)).1 = recs) as [Hs E].
    { destruct Hp as [->|[p ->]]; [by eexists|]. by destruct first; simpl; eauto. }
    destruct (absorb _ _) as [r1 p1]. simpl in *. subst. apply IH; [lia|by right].
Qed.

Lemma read_loop_end fuel buf recs pending damaged :
  read_loop (S fuel) buf recs pending damaged (length buf) =
  Some (mkReadResult recs None damaged).
Proof. cbn [read_loop]. by rewrite (proj2 (Nat.ltb_ge _ _)). Qed.

Lemma length_concat_enc fs : (length fs <= length (concat (enc <$> fs)))%nat.
Proof.
  induction fs as [|f fs IH]; [done|]. rewrite fmap_cons. cbn [concat length].
  rewrite length_app. unfold enc at 1. rewrite length_encode_fragment. unfold HEADER_LEN. lia.
Qed.

(** Reading intact fragments followed by a torn one. *)
Lemma read_fragments_torn fs f j :
  Forall (fun f => Z.of_nat (length f.2) < 2 ^ 16) (fs ++ [f]) -> (j < length (enc f))%nat ->
  read_segment (concat (enc <$> fs) ++ take j (enc f)) =
  Some (mkReadResult (foldl absorb ([], None) fs).1
          (if decide (j = 0)%nat then None else Some TornTail) 0).
Proof.
  intros [Hfs Hf%Forall_cons]%Forall_app Hj. destruct Hf as [Hf _].
  pose proof (length_concat_enc fs) as Hlen. unfold read_segment.
  set (tl := take j (enc f)).
  assert (length tl = j) as Hlt by (unfold tl; rewrite length_take; lia).
  replace (S (length (concat (enc <$> fs) ++ tl))) with
    (length fs + S (length (concat (enc <$> fs) ++ tl) - length fs))%nat by (rewrite length_app; lia).
  rewrite (read_loop_fragments _ [] fs tl [] None 0 Hfs). cbn [app length]. cbv zeta.
  case_decide as Hj0.
  - assert (tl = []) as -> by (apply length_zero_iff_nil; lia).
    rewrite app_nil_r. apply read_loop_end.
  - cbn [read_loop]. rewrite length_app, (proj2 (Nat.ltb_lt _ _)) by lia. cbn [negb].
    rewrite drop_app_length. unfold tl, enc. rewrite decode_torn_fragment; [done|done|].
    unfold enc in Hj. rewrite length_encode_fragment in Hj. lia.
Qed.

(** ** Segments *)

(** A segment that [encode_record] wrote, record by record. *)
Definition encoded (bs es : list (list byte)) : Prop :=
  Forall2 (fun b e => encode_record b = Some e) bs es.

Lemma encoded_fragments bs es :
  encoded bs es -> exists fss, Forall2 (fragmented true) bs fss /\
    es = (fun fs => concat (enc <$> fs)) <$> fss.
Proof.
  induction 1 as [|b e bs es Ee _ (fss & Hf & ->)]; [by exists []|].
  destruct (encode_record_some b) as (fs & Es & Hfs). rewrite Ee in Es. injection Es as ->.
  exists (fs :: fss). split; [by constructor|done].
Qed.

Lemma absorb_records bs fss recs :
  Forall2 (fragmented true) bs fss -> foldl absorb (recs, None) (concat fss) = (recs ++ bs, None).
Proof.
  intros H. revert recs. induction H as [|b fs bs fss Hb _ IH]; intros recs; simpl.
  - by rewrite app_nil_r.
  - rewrite foldl_app, (absorb_record b) by done. by rewrite IH, <-app_assoc.
Qed.

Lemma fragments_short bs fss :
  Forall2 (fragmented true) bs fss ->
  Forall (fun f => Z.of_nat (length f.2) < 2 ^ 16) (concat fss).
Proof.
  induction 1 as [|b fs bs fss Hb _ IH]; simpl; [constructor|].
  apply Forall_app. split; [by eapply fragmented_short|done].
Qed.

Lemma concat_enc (fss : list (list (FragmentKind * list byte))) :
  concat ((fun fs => concat (enc <$> fs)) <$> fss) = concat (enc <$> concat fss).
Proof.
  induction fss as [|fs fss IH]; [done|]. rewrite fmap_cons. cbn [concat].
  by rewrite IH, fmap_app, concat_app.
Qed.

Lemma read_encoded bs es :
  encoded bs es -> read_segment (concat es) = Some (mkReadResult bs None 0).
Proof.
  intros (fss & Hf & ->)%encoded_fragments. rewrite concat_enc.
  pose proof (read_fragments_torn (concat fss) (Full, []) 0) as E.
  rewrite take_0, app_nil_r in E. rewrite E.
  - by rewrite (absorb_records bs fss []).
  - apply Forall_app. split; [by eapply fragments_short|]. by repeat constructor.
  - unfold enc. rewrite length_encode_fragment. unfold HEADER_LEN. lia.
Qed.

(** A cut inside record [i]. *)
Lemma read_cut bs fss i fs b j :
  Forall2 (fragmented true) bs fss -> fss !! i = Some fs -> bs !! i = Some b ->
  (j < length (concat (enc <$> fs)))%nat ->
  exists stop, (stop = None \/ stop = Some TornTail) /\
    read_segment (concat (enc <$> concat (take i fss)) ++ take j (concat (enc <$> fs))) =
    Some (mkReadResult (take i bs) stop 0).
Proof.
  intros Hf Hi Hb Hj. assert (fragmented true b fs) as Hfs by (by eapply Forall2_lookup_lr).
  destruct (take_concat_cut (enc <$> fs) j Hj) as (i' & x & j' & Hx & Hj' & _ & ->).
  rewrite list_lookup_fmap in Hx. destruct (fs !! i') as [f|] eqn:Ef; [|done].
  injection Hx as <-. rewrite <-fmap_take, app_assoc, <-concat_app, <-fmap_app.
  pose proof (fragments_short _ _ (Forall2_take _ _ _ i Hf)) as H1.
  pose proof (fragmented_short _ _ _ Hfs) as H2.
  assert (i' < length fs)%nat as Hi' by (by eapply lookup_lt_Some).
  rewrite (read_fragments_torn _ f j'); [|apply Forall_app; split; [apply Forall_app; split|]|done].
  - eexists. split; [|rewrite foldl_app, (absorb_records (take i bs)), (absorb_partial true b);
      [done|done|done|by left|by apply Forall2_take]].
    case_decide; auto.
  - done.
  - by apply Forall_take.
  - constructor; [|constructor]. by eapply Forall_lookup_1 in H2.
Qed.

Lemma read_encoded_cut bs es k :
  encoded bs es ->
  exists n stop, (length (concat (take n es)) <= k)%nat /\
    ((n < length es)%nat -> (k < length (concat (take (S n) es)))%nat) /\
    (stop = None \/ stop = Some TornTail) /\
    read_segment (take k (concat es)) = Some (mkReadResult (take n bs) stop 0).
Proof.
  intros Hes. destruct (decide (k < length (concat es))%nat) as [Hk|Hk].
  - pose proof (encoded_fragments _ _ Hes) as (fss & Hf & Ees).
    destruct (take_concat_cut es k Hk) as (i & e & j & Hi & Hj & Ek & ->).
    rewrite Ees, list_lookup_fmap in Hi. destruct (fss !! i) as [fs|] eqn:Efs; [|done].
    injection Hi as <-.
    destruct (Forall2_lookup_r _ _ _ i fs Hf Efs) as (b & Hb & _).
    destruct (read_cut bs fss i fs b j Hf Efs Hb Hj) as (stop & Hstop & E).
    exists i, stop. splits; [lia| |done|].
    + intros _. erewrite take_S_r by (by rewrite Ees, list_lookup_fmap, Efs).
      rewrite concat_app, length_app. cbn [concat]. rewrite app_nil_r. lia.
    + rewrite <-E. do 2 f_equal. by rewrite Ees, <-fmap_take, concat_enc.
  - exists (length es), None. rewrite firstn_all, (take_ge (concat es)) by lia.
    rewrite (take_ge bs) by (rewrite (Forall2_length _ _ _ Hes); lia).
    splits; [lia|lia|by left|]. by apply read_encoded.
Qed.

(** ** Progress *)

Lemma round_up_gt (n b : nat) : (0 < b)%nat -> (n < (n / b + 1) * b)%nat.
Proof.
  intros Hb. pose proof (Nat.Div0.div_mod n b) as E.
  pose proof (Nat.mod_upper_bound n b ltac:(lia)) as Hm. nia.
Qed.

Lemma next_block_gt offset : (offset < next_block offset)%nat.
Proof. apply round_up_gt. pose proof block_size_pos. lia. Qed.

Lemma decode_fragment_len buf off f :
  decode_fragment buf off = Ok (Some f) -> (0 < len f)%nat.
Proof.
  unfold decode_fragment. intros E.
  destruct (length buf <? HEADER_LEN)%nat; [by destruct (all_zero buf)|].
  destruct (negb _); [by destruct (all_zero _)|]. destruct (FORMAT_VERSION <? _); [done|].
  destruct (from_byte _); [|done]. cbn [ok_or mbind result_bind] in E.
  destruct (_ <? _)%nat; [done|]. destruct (negb _); [done|].
  injection E as <-. cbn [len]. unfold HEADER_LEN. lia.
Qed.

Lemma read_loop_stops fuel buf recs pending damaged offset :
  (length buf - offset < fuel)%nat -> read_loop fuel buf recs pending damaged offset <> None.
Proof.
  revert recs pending damaged offset.
  induction fuel as [|fuel IH]; intros recs pending damaged offset Hf.
  { lia. }
  cbn [read_loop]. destruct (Nat.ltb_spec offset (length buf)) as [Ho|]; [|done]. cbn [negb].
  pose proof (next_block_gt offset) as Hn.
  destruct (decode_fragment (drop offset buf) offset) as [[f|]|[]] eqn:Ed; try done;
    try (apply IH; lia).
  apply decode_fragment_len in Ed. destruct (ends_record _), (extend_pending _ _);
    apply IH; lia.
Qed.

(** ** Theorems *)

(** Reading a segment gives back exactly the records that were encoded into it, for
    records of any size and number: no error, no damaged block. *)
Theorem wal_roundtrip bs es :
  encoded bs es -> read_segment (concat es) = Some (mkReadResult bs None 0).
Proof. apply read_encoded. Qed.

(** A segment cut at any byte still yields exactly the records that are wholly before
    the cut, with no block counted as damaged; reading ends cleanly or at a torn tail. *)
Theorem wal_crash_prefix bs es k :
  encoded bs es ->
  exists n stop, (length (concat (take n es)) <= k)%nat /\
    ((n < length es)%nat -> (k < length (concat (take (S n) es)))%nat) /\
    (stop = None \/ stop = Some TornTail) /\
    read_segment (take k (concat es)) = Some (mkReadResult (take n bs) stop 0).
Proof. apply read_encoded_cut. Qed.

(** The reader returns on every sequence of bytes, damaged or not. *)
Theorem wal_read_total buf : read_segment buf <> None.
Proof. apply read_loop_stops. lia. Qed.

(** The checksum detects every error confined to one byte: a fragment with one byte of
    its body changed is reported as corrupt. *)
Theorem corrupt_byte_detected k l x y r rest off :
  Z.of_nat (length (l ++ x :: r)) < 2 ^ 16 -> x <> y ->
  decode_fragment (MAGIC ++ meta k (l ++ x :: r) ++
    le_bytes 4 (crc32c (meta k (l ++ x :: r) ++ l ++ x :: r)) ++ (l ++ y :: r) ++ rest) off =
  Err (CorruptFragment off).
Proof.
  intros Hb Hne. set (b := l ++ x :: r) in *. set (crc := crc32c (meta k b ++ b)).
  assert (length (l ++ y :: r) = length b) as Hlen by (unfold b; by rewrite !length_app).
  set (buf := MAGIC ++ _).
  pose proof (envelope_fields k b (le_bytes 4 crc ++ (l ++ y :: r) ++ rest) Hb)
    as (E1 & E2 & E3 & E4 & E5). fold buf in E1, E2, E3, E4, E5.
  assert (length buf = HEADER_LEN + length b + length rest)%nat as Hl.
  { unfold buf. rewrite (length_app MAGIC), (length_app (meta k b)), (length_app (le_bytes 4 crc)),
      (length_app (l ++ y :: r)), Hlen, length_le_bytes, length_meta.
    change (length MAGIC) with 4%nat. unfold HEADER_LEN. lia. }
  assert (slice 8 4 buf = le_bytes 4 crc) as E6.
  { unfold buf. rewrite (app_assoc MAGIC). by apply slice_app_exact; [reflexivity|]. }
  assert (slice HEADER_LEN (length b) buf = l ++ y :: r) as E7.
  { unfold buf. rewrite !(app_assoc _ _ ((l ++ y :: r) ++ rest)). apply slice_app_exact; [|done].
    rewrite !length_app, length_le_bytes. reflexivity. }
  unfold decode_fragment. rewrite Hl, (proj2 (Nat.ltb_ge _ HEADER_LEN)) by lia.
  rewrite E1, bool_decide_true by done. cbn [negb]. rewrite E2, Z.ltb_irrefl, E3, from_to_byte.
  cbn [ok_or mbind result_bind]. rewrite E4, Nat2Z.id, (proj2 (Nat.ltb_ge _ _)) by lia.
  rewrite E7, E5, E6, le_val_le_bytes by apply crc32c_u32.
  destruct (Z.eqb_spec (crc32c (meta k b ++ l ++ y :: r)) crc) as [E|]; [|done].
  unfold crc, b in E. rewrite !app_assoc in E. by apply crc32c_byte_error in E.
Qed.

(** ** Damage can lose intact records

    [encode_record] aligns fragments to the start of the record, not of the segment, so in
    a segment of several records a fragment may straddle a block boundary.  Here one
    changed byte in a record of 100 bytes makes the reader resynchronise in the middle of
    the next record, and both intact records after the damage are lost. *)

Definition seg_a : list byte := replicate 100 x41.
Definition seg_b : list byte := replicate (Z.to_nat 32756) x42.
Definition seg_c : list byte := [x43].
Definition encode_or_nil (b : list byte) : list byte := default [] (encode_record b).
Definition segment : list byte := encode_or_nil seg_a ++ encode_or_nil seg_b ++ encode_or_nil seg_c.

Lemma encode_small b :
  (length b <= MAX_FRAGMENT_BODY)%nat -> encode_record b = Some (encode_fragment Full b).
Proof.
  intros Hb. destruct (encode_record_some b) as (fs & -> & Hf).
  inversion Hf as [first b' _|first b' c fs' E Hc Hfs]; subst; [simpl; by rewrite app_nil_r|].
  exfalso. rewrite length_app in Hb. destruct c; [done|]. simpl in Hb. lia.
Qed.

Theorem damage_loses_intact_records :
  read_segment segment = Some (mkReadResult [seg_a; seg_b; seg_c] None 0) /\
  read_segment (<[20%nat := x00]> segment) = Some (mkReadResult [] None 2).
Proof.
  assert (forall b, Z.of_nat (length b) <= 32756 -> encode_or_nil b = encode_fragment Full b) as Hs.
  { intros b Hb. unfold encode_or_nil. rewrite encode_small; [done|].
    pose proof BLOCK_SIZE_Z. unfold MAX_FRAGMENT_BODY, HEADER_LEN. lia. }
  split.
  - unfold segment. rewrite <-(app_nil_r (encode_or_nil seg_c)).
    apply (read_encoded _ [encode_or_nil seg_a; encode_or_nil seg_b; encode_or_nil seg_c]).
    repeat constructor; unfold encode_or_nil;
      match goal with |- context [default _ (encode_record ?b)] =>
        by destruct (encode_record_some b) as (? & -> & _) end.
  - unfold segment. rewrite !Hs by (vm_compute; discriminate). unfold encode_fragment at 2.
    generalize (crc32c (meta Full seg_b ++ seg_b)). intros crc. vm_compute. reflexivity.
Qed.

(** ** Witnesses *)

Definition wal_sample : list (list byte) := [[x41; x42]; []; [x43]].

Lemma wal_sample_encoded : encoded wal_sample (encode_or_nil <$> wal_sample).
Proof. repeat (constructor; [vm_compute; reflexivity|]). constructor. Qed.

Lemma wal_roundtrip_witness :
  read_segment (concat (encode_or_nil <$> wal_sample)) = Some (mkReadResult wal_sample None 0).
Proof. apply (wal_roundtrip wal_sample). exact wal_sample_encoded. Defined.

Lemma wal_crash_prefix_witness :
  exists n stop, (length (concat (take n (encode_or_nil <$> wal_sample))) <= 20)%nat /\
    ((n < length (encode_or_nil <$> wal_sample))%nat ->
     (20 < length (concat (take (S n) (encode_or_nil <$> wal_sample))))%nat) /\
    (stop = None \/ stop = Some TornTail) /\
    read_segment (take 20 (concat (encode_or_nil <$> wal_sample))) =
    Some (mkReadResult (take n wal_sample) stop 0).
Proof. apply (wal_crash_prefix wal_sample). exact wal_sample_encoded. Defined.

Lemma corrupt_byte_detected_witness :
  decode_fragment (MAGIC ++ meta Full ([] ++ x41 :: []) ++
    le_bytes 4 (crc32c (meta Full ([] ++ x41 :: []) ++ [] ++ x41 :: [])) ++ ([] ++ x42 :: []) ++ []) 7 =
  Err (CorruptFragment 7).
Proof. apply (corrupt_byte_detected Full [] x41 x42 [] [] 7); [reflexivity|discriminate]. Defined.

End Wal.
