(* ===== verification/Key.v ===== *)
(** Cache keys and their path form: crates/talon-core/src/key.rs, and the mount's
    parser of the same paths, crates/talon-fuse/src/mapping.rs.

    A Rust [str] is the list of its UTF-8 bytes; the separator is a single
    ASCII byte, so splitting the bytes is splitting the characters. *)

From S2P Require Import Prelude.

Module Key.

Abbreviation str := (list byte).
Definition s (x : string) : str := String.list_byte_of_string x.
Definition slash : byte := x2f.

Inductive Backend := S3 | Gcs | Azure.

#[export] Instance Backend_eq_dec : EqDecision Backend.
Proof. solve_decision. Defined.

Definition prefix (b : Backend) : str :=
  match b with S3 => s "s3" | Gcs => s "gcs" | Azure => s "az" end.

(** [Error::Other]. *)
Inductive Error := Other (message : str).

Definition Backend_from_str (x : str) : result Error Backend :=
  if bool_decide (x = s "s3") then Ok S3
  else if bool_decide (x = s "gcs") then Ok Gcs
  else if bool_decide (x = s "az") || bool_decide (x = s "azure") then Ok Azure
  else Err (Other (s "unknown backend: " ++ x)).

Record ObjectId := mkObjectId { backend : Backend; bucket : str; object_path : str }.

#[export] Instance ObjectId_eq_dec : EqDecision ObjectId.
Proof. solve_decision. Defined.

Record BlockId := mkBlockId {
  object : ObjectId;
  offset : Z;
  block_size : Z;
  version : str
}.

#[export] Instance BlockId_eq_dec : EqDecision BlockId.
Proof. solve_decision. Defined.

#[export] Instance byte_countable : Countable byte.
Proof. apply (inj_countable Byte.to_N Byte.of_N). intros b. apply Byte.of_to_N. Defined.

#[export] Instance Backend_countable : Countable Backend.
Proof.
  apply (inj_countable (fun b => match b with S3 => 0%N | Gcs => 1%N | Azure => 2%N end)
    (fun n => match n with 0%N => Some S3 | 1%N => Some Gcs | _ => Some Azure end)). by intros [].
Defined.

#[export] Instance BlockId_countable : Countable BlockId.
Proof.
  apply (inj_countable' (fun b => (backend (object b), bucket (object b), object_path (object b), offset b, block_size b, version b))
    (fun '(be, bu, pa, off, size, ver) => mkBlockId (mkObjectId be bu pa) off size ver)). by intros [[]].
Defined.

Definition block_index (b : BlockId) : Z :=
  if block_size b =? 0 then 0 else offset b / block_size b.

Definition page_count (b : BlockId) (page_size : Z) : Z :=
  if page_size =? 0 then 0 else div_ceil (block_size b) page_size.

Definition to_path (o : ObjectId) : str :=
  slash :: prefix (backend o) ++ slash :: bucket o ++ slash :: object_path o.

(** [trim_start_matches('/')]. *)
Fixpoint trim_start (l : str) : str :=
  match l with
  | [] => []
  | b :: l' => if bool_decide (b = slash) then trim_start l' else l
  end.

(** The text before the first separator, and what follows it. *)
Fixpoint split_once (l : str) : str * option str :=
  match l with
  | [] => ([], None)
  | b :: l =>
    if bool_decide (b = slash) then ([], Some l)
    else let '(h, t) := split_once l in (b :: h, t)
  end.

(** [splitn(3, '/')]. *)
Definition splitn3 (l : str) : list str :=
  let '(a, r) := split_once l in
  match r with
  | None => [a]
  | Some r =>
    let '(b, r) := split_once r in
    match r with None => [a; b] | Some c => [a; b; c] end
  end.

(** [split('/')]. *)
Fixpoint split (l : str) : list str :=
  match l with
  | [] => [[]]
  | b :: l =>
    if bool_decide (b = slash) then [] :: split l
    else match split l with h :: t => (b :: h) :: t | [] => [[b]] end
  end.

Definition bad_component (c : str) : bool :=
  bool_decide (c = []) || bool_decide (c = s ".") || bool_decide (c = s "..").

(** [iter.next().filter(|s| !s.is_empty()).ok_or_else(...)]. *)
Definition next_part (parts : list str) (message : str) : result Error (str * list str) :=
  match parts with
  | (b :: p) :: parts => Ok (b :: p, parts)
  | _ => Err (Other message)
  end.

Definition from_path (path : str) : result Error ObjectId :=
  let parts := splitn3 (trim_start path) in
  '(pre, parts) ← next_part parts (s "missing backend in path: " ++ path);
  '(buc, parts) ← next_part parts (s "missing bucket in path: " ++ path);
  '(obj, _) ← next_part parts (s "missing object path in path: " ++ path);
  if existsb bad_component (split obj)
  then Err (Other (s "invalid or ambiguous object path: " ++ path))
  else
  b ← Backend_from_str pre;
  Ok (mkObjectId b buc obj).

(** ** mapping.rs *)

(** [strip_prefix('/').unwrap_or(path)]. *)
Definition strip_prefix (l : str) : str :=
  match l with b :: l' => if bool_decide (b = slash) then l' else l | [] => [] end.

(** [rest.join("/")]. *)
Fixpoint join (cs : list str) : str :=
  match cs with
  | [] => []
  | [c] => c
  | c :: cs => c ++ slash :: join cs
  end.

(** [debug] stands for the [{path:?}] rendering of the path in messages. *)
Definition path_to_object (debug : str -> str) (path : str) : result Error ObjectId :=
  let parts := split (strip_prefix path) in
  '(pre, parts) ← next_part parts (s "missing backend in path: " ++ debug path);
  b ← Backend_from_str pre;
  '(buc, rest) ← next_part parts (s "missing bucket in path: " ++ debug path);
  if bool_decide (rest = []) || existsb bad_component rest
  then Err (Other (s "invalid or ambiguous object path: " ++ debug path))
  else Ok (mkObjectId b buc (join rest)).

Record ReadTarget := mkReadTarget { rt_block : BlockId; rt_offset_in_block : Z }.

Definition resolve_read (obj : ObjectId) (off bs : Z) (ver : str)
    : result Error ReadTarget :=
  if bs =? 0 then Err (Other (s "block_size must be > 0")) else
  let block_start := off / bs * bs in
  Ok (mkReadTarget (mkBlockId obj block_start bs ver) (wrap 32 (off - block_start))).

(** ** Splitting *)

Lemma split_once_app l r : slash ∉ l -> split_once (l ++ slash :: r) = (l, Some r).
Proof.
  induction l as [|b l IH]; intros Hl; cbn [app split_once].
  - by rewrite bool_decide_true.
  - apply not_elem_of_cons in Hl as [Hb Hl]. rewrite bool_decide_false by done. by rewrite IH.
Qed.

Lemma split_once_inv l a r :
  split_once l = (a, r) ->
  (slash ∉ a) /\ l = match r with Some r => a ++ slash :: r | None => a end.
Proof.
  revert a r. induction l as [|b l IH]; intros a r; simpl.
  { intros [= <- <-]. split; [apply not_elem_of_nil|done]. }
  case_bool_decide as Hb.
  - intros [= <- <-]. subst. split; [apply not_elem_of_nil|done].
  - destruct (split_once l) as [h t]. intros [= <- <-]. destruct (IH h t eq_refl) as [Hh ->].
    split; [by apply not_elem_of_cons|]. by destruct t.
Qed.

Lemma split_nonempty l : split l <> [].
Proof.
  destruct l as [|b l]; simpl; [done|]. case_bool_decide; [done|]. by destruct (split l).
Qed.

Lemma join_split l : join (split l) = l.
Proof.
  induction l as [|b l IH]; simpl; [done|]. pose proof (split_nonempty l) as Hn.
  case_bool_decide as Hb.
  - subst. destruct (split l) as [|c cs] eqn:E; [done|]. simpl in *. by rewrite IH.
  - destruct (split l) as [|c cs] eqn:E; [done|]. simpl in *. destruct cs; simpl in *; by rewrite IH.
Qed.

(** [split] by [split_once]. *)
Lemma split_step l :
  split l = let '(a, r) := split_once l in
            match r with None => [a] | Some r => a :: split r end.
Proof.
  induction l as [|b l IH]; simpl; [done|]. case_bool_decide; [done|].
  rewrite IH. by destruct (split_once l) as [a [r|]].
Qed.

Lemma trim_start_head l : match trim_start l with b :: _ => b <> slash | [] => True end.
Proof. induction l as [|b l IH]; simpl; [done|]. by case_bool_decide. Qed.

Lemma trim_start_id b l : b <> slash -> trim_start (b :: l) = b :: l.
Proof. intros Hb. simpl. by rewrite bool_decide_false. Qed.

Lemma prefix_cons b : exists c p, prefix b = c :: p /\ c <> slash /\ (slash ∉ prefix b).
Proof. destruct b; do 2 eexists; (split; [reflexivity|]); (split; [done|]); apply (bool_decide_unpack _); by vm_compute. Qed.

Lemma Backend_from_prefix b : Backend_from_str (prefix b) = Ok b.
Proof. by destruct b. Qed.

(** The objects that have a path. *)
Definition valid (o : ObjectId) : Prop :=
  bucket o <> [] /\ (slash ∉ bucket o) /\
  Forall (fun c => bad_component c = false) (split (object_path o)).

Lemma existsb_bad cs : existsb bad_component cs = false <-> Forall (fun c => bad_component c = false) cs.
Proof.
  induction cs as [|c cs IH]; simpl; [by split; [constructor|]|].
  by rewrite orb_false_iff, Forall_cons, IH.
Qed.

Lemma from_path_inv p o :
  from_path p = Ok o -> valid o /\ exists pre, Backend_from_str pre = Ok (backend o) /\
    pre <> [] /\ (slash ∉ pre) /\
    trim_start p = pre ++ slash :: bucket o ++ slash :: object_path o.
Proof.
  unfold from_path, splitn3. destruct (split_once (trim_start p)) as [a [r|]] eqn:E1.
  2:{ by destruct a as [|]. }
  destruct (split_once r) as [b [c|]] eqn:E2.
  2:{ by destruct a as [|], b as [|]. }
  destruct a as [|a0 a]; [done|]. destruct b as [|b0 b]; [done|]. destruct c as [|c0 c]; [done|].
  cbn [next_part mbind result_bind].
  destruct (existsb bad_component (split (c0 :: c))) eqn:Eb; [done|].
  destruct (Backend_from_str (a0 :: a)) as [be|] eqn:Ebe; [|done]. intros [= <-].
  apply split_once_inv in E1 as [Ha E1], E2 as [Hb ->]. apply existsb_bad in Eb.
  split; [by unfold valid|]. exists (a0 :: a). done.
Qed.

Lemma valid_object_nonempty o : valid o -> object_path o <> [].
Proof. intros (_ & _ & H) E. rewrite E in H. by apply Forall_cons in H as [H _]. Qed.

(** Parsing what a well-formed path spells. *)
Lemma from_path_parts p o pre :
  valid o -> Backend_from_str pre = Ok (backend o) -> pre <> [] -> slash ∉ pre ->
  trim_start p = pre ++ slash :: bucket o ++ slash :: object_path o -> from_path p = Ok o.
Proof.
  intros Hv Hb Hne Hs E. pose proof (valid_object_nonempty o Hv) as Hobj.
  destruct Hv as (Hbne & Hbs & Hc%existsb_bad).
  unfold from_path, splitn3. rewrite E, split_once_app, split_once_app by done.
  destruct pre; [done|]. destruct o as [be [|b0 bs] [|c0 cs]]; try done.
  cbn [next_part mbind result_bind bucket object_path backend] in *. by rewrite Hc, Hb.
Qed.

Lemma from_to_path o : valid o -> from_path (to_path o) = Ok o.
Proof.
  intros Hv. destruct (prefix_cons (backend o)) as (c & p & Ep & Hc & Hs).
  apply (from_path_parts _ o (prefix (backend o))); try done.
  - apply Backend_from_prefix.
  - by rewrite Ep.
  - unfold to_path. rewrite Ep. cbn [trim_start]. rewrite bool_decide_true by done.
    by apply trim_start_id.
Qed.

(** A path with two leading separators. *)
Definition double_slash (p : str) : Prop := exists l, p = slash :: slash :: l.

Lemma strip_trim p : ~ double_slash p -> strip_prefix p = trim_start p.
Proof.
  intros Hd. destruct p as [|b p]; [done|]. simpl. case_bool_decide as Hb; [|done]. subst.
  destruct p as [|c p]; [done|]. symmetry. apply trim_start_id. intros ->. apply Hd. by exists p.
Qed.

Lemma path_to_object_double debug p : double_slash p -> forall o, path_to_object debug p <> Ok o.
Proof. intros [l ->] o. by vm_compute. Qed.

(** The mount parser on a path without doubled leading separator, by its parts. *)
Lemma path_to_object_parts debug p o :
  path_to_object debug p = Ok o <->
  valid o /\ exists pre, Backend_from_str pre = Ok (backend o) /\
    pre <> [] /\ (slash ∉ pre) /\
    strip_prefix p = pre ++ slash :: bucket o ++ slash :: object_path o.
Proof.
  unfold path_to_object. rewrite split_step. split.
  - destruct (split_once (strip_prefix p)) as [a r] eqn:E1. apply split_once_inv in E1 as [Ha E1].
    destruct r as [r|], a as [|a0 a]; cbn [next_part mbind result_bind]; try done;
      destruct (Backend_from_str (a0 :: a)) as [be|] eqn:Ebe; try done.
    cbn [mbind result_bind]. rewrite split_step.
    destruct (split_once r) as [b r2] eqn:E2. apply split_once_inv in E2 as [Hb ->].
    destruct r2 as [r2|], b as [|b0 b]; cbn [next_part mbind result_bind]; try done.
    destruct (_ || _) eqn:Ec; [done|]. intros [= <-].
    apply orb_false_iff in Ec as [_ Ec%existsb_bad].
    cbn [bucket object_path backend]. rewrite join_split. split.
    + by split.
    + by exists (a0 :: a).
  - intros ((Hbne & Hbs & Hc%existsb_bad) & pre & Hb & Hne & Hs & ->).
    rewrite split_once_app by done. destruct pre as [|a0 a]; [done|].
    cbn [next_part mbind result_bind]. rewrite Hb. cbn [mbind result_bind].
    rewrite split_step, split_once_app by done. destruct o as [be [|b0 b] op]; [done|].
    cbn [next_part mbind result_bind bucket object_path backend] in *.
    rewrite bool_decide_false by apply split_nonempty. by rewrite Hc, join_split.
Qed.

(** ** Theorems *)


(** Whatever path was parsed, rendering the object gives its canonical path, which parses
    to the same object; a parsed key has no empty, [.] or [..] component. *)
Theorem from_path_canonical p o :
  from_path p = Ok o ->
  from_path (to_path o) = Ok o /\
  Forall (fun c => c <> [] /\ c <> s "." /\ c <> s "..") (split (object_path o)).
Proof.
  intros [Hv _]%from_path_inv. split; [by apply from_to_path|].
  destruct Hv as (_ & _ & Hc). eapply Forall_impl; [exact Hc|]. intros c.
  unfold bad_component. rewrite !orb_false_iff, !bool_decide_eq_false. intuition.
Qed.

(** The mount's parser and the key parser agree: the mount accepts exactly the paths the
    key parser accepts, with the same object, except that it refuses more than one leading
    separator. *)
Theorem mount_parser_agrees debug p o :
  path_to_object debug p = Ok o <-> from_path p = Ok o /\ ~ double_slash p.
Proof.
  split.
  - intros E. assert (~ double_slash p) as Hd.
    { intros Hd. by apply (path_to_object_double debug p Hd o). }
    split; [|done]. apply path_to_object_parts in E as (Hv & pre & ? & ? & ? & E).
    rewrite strip_trim in E by done. by apply (from_path_parts _ _ pre).
  - intros [E Hd]. apply path_to_object_parts. apply from_path_inv in E.
    by rewrite strip_trim.
Qed.

(** Neither parser looks at the bucket: [.] and [..] are accepted as bucket names. *)
Theorem dotdot_bucket_accepted debug :
  from_path (s "/s3/../key") = Ok (mkObjectId S3 (s "..") (s "key")) /\
  path_to_object debug (s "/s3/../key") = Ok (mkObjectId S3 (s "..") (s "key")).
Proof. by vm_compute. Qed.

Lemma from_path_canonical_witness :
  let o := mkObjectId Azure (s "c") (s "a/b") in
  from_path (to_path o) = Ok o /\
  Forall (fun c => c <> [] /\ c <> s "." /\ c <> s "..") (split (object_path o)).
Proof. apply (from_path_canonical (s "///azure/c/a/b")). vm_compute. reflexivity. Defined.

End Key.
