(* ===== verification/Namespace.v ===== *)
(** Cache namespace identities and their validation (crates/talon-core/src/namespace.rs). *)

From S2P Require Import Prelude Key.

Module Namespace.
Import Key.

Definition MAX_NAMESPACE_ID_BYTES : Z := 255.
Definition DEFAULT_NAMESPACE : str := s "default".

Inductive NamespaceIdError := Reserved | Empty | TooLong (n : Z) | UnsafePath.

(** [u8::is_ascii_alphanumeric]. *)
Definition is_ascii_alphanumeric (b : byte) : bool :=
  let v := byte_val b in
  ((48 <=? v) && (v <=? 57)) || ((65 <=? v) && (v <=? 90)) || ((97 <=? v) && (v <=? 122)).

Definition name_byte (b : byte) : bool :=
  is_ascii_alphanumeric b || bool_decide (b ∈ s "-_.").

(** A validated name. *)
Definition NamespaceContext_new (name : str) : result NamespaceIdError str :=
  if bool_decide (name = []) then Err Empty else
  if MAX_NAMESPACE_ID_BYTES <? Z.of_nat (length name) then Err (TooLong (Z.of_nat (length name))) else
  if bool_decide (name ∈ [s "worker_identity"; s ".worker.lock"; s ".paged-catalog"])
  then Err Reserved else
  if bool_decide (name = s ".") || bool_decide (name = s "..") || negb (forallb name_byte name)
  then Err UnsafePath else Ok name.

Inductive NamespaceId := Named (name : str) | Unattributed.

Definition name (n : NamespaceId) : option str :=
  match n with Named name => Some name | Unattributed => None end.

Definition effective_name (n : NamespaceId) : str := default DEFAULT_NAMESPACE (name n).

Definition normalized (n : NamespaceId) : NamespaceId := Named (effective_name n).

Definition is_default (n : NamespaceId) : bool := bool_decide (effective_name n = DEFAULT_NAMESPACE).

Definition is_unattributed (n : NamespaceId) : bool :=
  match n with Unattributed => true | Named _ => false end.

Definition context (n : NamespaceId) : result NamespaceIdError str :=
  NamespaceContext_new (effective_name n).

Definition validate (n : NamespaceId) : result NamespaceIdError unit :=
  match context n with Ok _ => Ok tt | Err e => Err e end.

(** A validated identity is usable as one directory name under the cache root: it is not
    empty, has no separator, is neither [.] nor [..], and is none of the worker's own files. *)
Lemma context_component n c :
  context n = Ok c ->
  c = effective_name n /\ (0 < length c <= 255)%nat /\ (slash ∉ c) /\
  c <> s "." /\ c <> s ".." /\
  (c ∉ [s "worker_identity"; s ".worker.lock"; s ".paged-catalog"]).
Proof.
  unfold context, NamespaceContext_new. set (e := effective_name n).
  case_bool_decide as H0; [done|]. destruct (Z.ltb_spec MAX_NAMESPACE_ID_BYTES (Z.of_nat (length e))) as [|Hl]; [done|].
  case_bool_decide as Hr; [done|]. case_bool_decide as H1; [done|].
  case_bool_decide as H2; [done|]. destruct (forallb name_byte e) eqn:Hb; [|done].
  intros [= <-]. unfold MAX_NAMESPACE_ID_BYTES in Hl.
  splits; try done; [destruct e; [done|simpl; lia]|lia|].
  intros Hs. rewrite forallb_forall in Hb. specialize (Hb slash). rewrite <-list_elem_of_In in Hb.
  by specialize (Hb Hs).
Qed.

End Namespace.
