(* ===== verification/Placement.v ===== *)
(** Client-side placement of cache blocks (crates/talon-core/src/placement.rs, node.rs):
    the Maglev table built from a membership snapshot, the primary and ranked lookups, and
    the membership epoch. SHA-256 is the parameter of [External].

    Loops that the source leaves to the arithmetic (the search for a free slot, the outer
    fill) take fuel: a search never needs more probes than the table has slots, and every
    round of the fill places at least one slot, so the table size is enough for both; that it
    is enough is part of what is proved. *)

From stdpp Require Import sorting strings.
From S2P Require Import Prelude External Key.

#[local] Set Warnings "-clear-no-such-hyp".

Module Placement.
Import Key.

(** ** node.rs *)

Inductive NodeRole := Coordinator | Worker.

#[export] Instance NodeRole_eq_dec : EqDecision NodeRole.
Proof. solve_decision. Defined.

Record NodeInfo := mkNode { id : string; address : string; role : NodeRole }.

#[export] Instance NodeInfo_eq_dec : EqDecision NodeInfo.
Proof. solve_decision. Defined.

Definition as_bytes (x : string) : list byte := String.list_byte_of_string x.

(** ** placement.rs *)

(** The domain strings end in a NUL byte. *)
Definition BLOCK_DOMAIN : list byte := s "talon-cache-maglev-block-v1" ++ [x00].
Definition WORKER_DOMAIN : list byte := s "talon-cache-maglev-worker-v1" ++ [x00].
Definition MEMBERSHIP_DOMAIN : list byte := s "talon-cache-membership-v1" ++ [x00].
Definition MIN_TABLE_SIZE : Z := 4096.
Definition SLOTS_PER_WORKER : Z := 64.
Definition EMPTY_SLOT : Z := u32_max.

Definition backend_tag (b : Backend) : byte :=
  match b with S3 => x00 | Gcs => x01 | Azure => x02 end.

Definition hash_field (v : list byte) : list byte := le_bytes 8 (Z.of_nat (length v)) ++ v.

(** What is hashed for a block. *)
Definition block_input (b : BlockId) : list byte :=
  BLOCK_DOMAIN ++ [backend_tag (backend (object b))] ++ hash_field (bucket (object b)) ++
  hash_field (object_path (object b)) ++ le_bytes 8 (offset b) ++ le_bytes 4 (block_size b) ++
  hash_field (version b).

Definition cache_block_hash `{Sha256} (b : BlockId) : list byte := sha256 (block_input b).

(** [u64::from_le_bytes] of eight bytes of a digest, as [usize]. *)
Definition le_word (digest : list byte) (i : nat) : Z := le_val (slice i 8 digest).

Definition worker_permutation `{Sha256} (worker : string) (mask : Z) : Z * Z :=
  let digest := sha256 (WORKER_DOMAIN ++ hash_field (as_bytes worker)) in
  (Z.land (le_word digest 0) mask, Z.land (Z.lor (le_word digest 8) 1) mask).

(** The slot a wrapping arithmetic progression reaches at step [i]. *)
Definition candidate (offset skip mask i : Z) : Z :=
  Z.land (wrap 64 (offset + wrap 64 (i * skip))) mask.

Record CachePlacementTable := mkTable {
  workers : list NodeInfo;
  slots : list Z;
  mask : Z
}.

(** *** Construction *)

Definition by_id (a b : NodeInfo) : Prop := String.le (id a) (id b).

#[export] Instance by_id_dec a b : Decision (by_id a b).
Proof. unfold by_id. apply _. Defined.

(** [dedup_by]: drop an element whose id is that of the last one kept. *)
Fixpoint dedup_from (last : NodeInfo) (l : list NodeInfo) : list NodeInfo :=
  match l with
  | [] => []
  | x :: l => if bool_decide (id x = id last) then dedup_from last l else x :: dedup_from x l
  end.

Definition dedup_by_id (l : list NodeInfo) : list NodeInfo :=
  match l with [] => [] | x :: l => x :: dedup_from x l end.

Definition select_workers (nodes : list NodeInfo) : list NodeInfo :=
  merge_sort by_id (filter (fun n => role n = Worker) nodes).

(** [checked_next_power_of_two]. *)
Definition checked_next_power_of_two (n : Z) : option Z :=
  let p := 2 ^ Z.log2_up n in if p <? 2 ^ 64 then Some p else None.

(** The mutable state of the fill: the slots, each worker's next step, the slots placed. *)
Record Fill := mkFill { fslots : list Z; nexts : list Z; filled : Z }.

(** The inner [loop]: the first free slot of the worker's progression, and the step after. *)
Fixpoint probe (fuel : nat) (sl : list Z) (perm : Z * Z) (mask next : Z) : option (Z * Z) :=
  match fuel with
  | O => None
  | S fuel =>
    let c := candidate perm.1 perm.2 mask next in
    match sl !! Z.to_nat c with
    | None => None
    | Some v => if v =? EMPTY_SLOT then Some (c, next + 1) else probe fuel sl perm mask (next + 1)
    end
  end.

(** One worker's turn. *)
Definition turn (mask : Z) (wi : nat) (perm : Z * Z) (f : Fill) : option Fill :=
  match nexts f !! wi with
  | None => None
  | Some next =>
    match probe (length (fslots f)) (fslots f) perm mask next with
    | None => None
    | Some (c, next') =>
      Some (mkFill (<[Z.to_nat c := Z.of_nat wi]> (fslots f)) (<[wi := next']> (nexts f)) (filled f + 1))
    end
  end.

(** The [for] over the permutations, with its [break]. *)
Fixpoint round (table_size mask : Z) (wi : nat) (perms : list (Z * Z)) (f : Fill) : option Fill :=
  match perms with
  | [] => Some f
  | p :: ps =>
    match turn mask wi p f with
    | None => None
    | Some f' => if filled f' =? table_size then Some f' else round table_size mask (S wi) ps f'
    end
  end.

(** The [while]. *)
Fixpoint fill (fuel : nat) (table_size mask : Z) (perms : list (Z * Z)) (f : Fill) : option Fill :=
  if filled f <? table_size then
    match fuel with
    | O => None
    | S fuel =>
      match round table_size mask 0 perms f with
      | None => None
      | Some f' => fill fuel table_size mask perms f'
      end
    end
  else Some f.

(** [None] is a panic (too many workers, or a table size that overflows). *)
Definition new `{Sha256} (nodes : list NodeInfo) : option CachePlacementTable :=
  let ws := dedup_by_id (select_workers nodes) in
  match ws with
  | [] => Some (mkTable [] [] 0)
  | _ =>
    let n := Z.of_nat (length ws) in
    if negb (n <? EMPTY_SLOT) then None else
    let wanted := Z.max (saturating_mul 64 n SLOTS_PER_WORKER) MIN_TABLE_SIZE in
    match checked_next_power_of_two wanted with
    | None => None
    | Some table_size =>
      let mask := table_size - 1 in
      let perms := (fun w => worker_permutation (id w) mask) <$> ws in
      let start := mkFill (replicate (Z.to_nat table_size) EMPTY_SLOT)
                     (replicate (length ws) 0) 0 in
      match fill (Z.to_nat table_size) table_size mask perms start with
      | None => None
      | Some f => Some (mkTable ws (fslots f) mask)
      end
    end
  end.

(** *** Lookup *)

(** [Some None] is no worker; [None] a panic of an index. *)
Definition primary `{Sha256} (t : CachePlacementTable) (b : BlockId) : option (option NodeInfo) :=
  let slot := Z.land (le_word (cache_block_hash b) 0) (mask t) in
  match slots t !! Z.to_nat slot with
  | None => Some None
  | Some w => Some <$> workers t !! Z.to_nat w
  end.

(** The probe loop of [rank]: [n] probes left, the next one [i]. *)
Fixpoint rank_loop (t : CachePlacementTable) (start step : Z) (target n : nat) (i : Z)
    (result : list NodeInfo) : option (list NodeInfo) :=
  match n with
  | O => Some result
  | S n =>
    match slots t !! Z.to_nat (candidate start step (mask t) i) ≫= fun w => workers t !! Z.to_nat w with
    | None => None
    | Some node =>
      if existsb (fun r => bool_decide (id r = id node)) result
      then rank_loop t start step target n (i + 1) result
      else if bool_decide (length (result ++ [node]) = target) then Some (result ++ [node])
      else rank_loop t start step target n (i + 1) (result ++ [node])
    end
  end.

Definition rank `{Sha256} (t : CachePlacementTable) (b : BlockId) (k : nat) : option (list NodeInfo) :=
  let target := Nat.min k (length (workers t)) in
  if bool_decide (target = 0%nat) then Some [] else
  let digest := cache_block_hash b in
  let start := Z.land (le_word digest 0) (mask t) in
  let step := Z.land (Z.lor (le_word digest 8) 1) (mask t) in
  rank_loop t start step target (length (slots t)) 0 [].

Definition rank_cache_workers `{Sha256} (b : BlockId) (nodes : list NodeInfo) (k : nat)
  : option (list string) :=
  match new nodes with
  | None => None
  | Some t => option_map (map id) (rank t b k)
  end.

(** *** Membership epoch *)

Definition membership_input (ws : list NodeInfo) : list byte :=
  MEMBERSHIP_DOMAIN ++
  concat ((fun w => hash_field (as_bytes (id w)) ++ hash_field (as_bytes (address w))) <$> ws).

Definition cache_membership_epoch `{Sha256} (nodes : list NodeInfo) : Z :=
  match nodes with
  | [] => 0
  | _ =>
    match select_workers nodes with
    | [] => 0
    | ws => Z.max (be_val (take 8 (sha256 (membership_input ws)))) 1
    end
  end.

(** ** Arithmetic progressions modulo the table size *)

Lemma land_mask x k : 0 <= k -> Z.land x (2 ^ k - 1) = x mod 2 ^ k.
Proof.
  intros Hk. rewrite <-Z.land_ones by done. f_equal. by rewrite Z.ones_equiv, <-Z.sub_1_r.
Qed.

Lemma candidate_mod offset skip k i :
  0 <= k <= 64 -> candidate offset skip (2 ^ k - 1) i = (offset + i * skip) mod 2 ^ k.
Proof.
  intros Hk. unfold candidate, wrap. rewrite land_mask by lia.
  assert ((2 ^ k | 2 ^ 64)) as Hd.
  { exists (2 ^ (64 - k)). rewrite <-Z.pow_add_r by lia. f_equal. lia. }
  rewrite Z.mod_mod_divide by done. rewrite Z.add_mod, Z.mod_mod_divide by (done || lia).
  by rewrite <-Z.add_mod by lia.
Qed.

Lemma candidate_range offset skip k i :
  0 <= k <= 64 -> 0 <= candidate offset skip (2 ^ k - 1) i < 2 ^ k.
Proof. intros Hk. rewrite candidate_mod by done. apply Z.mod_pos_bound. lia. Qed.

(** An odd stride is invertible modulo a power of two. *)
Lemma odd_bezout s k : Z.odd s = true -> 0 <= k -> exists u v, u * s + v * 2 ^ k = 1.
Proof.
  intros Hs Hk. revert k Hk. apply natlike_ind; [by exists 0, 1|].
  intros k Hk (u & v & Huv). rewrite Z.pow_succ_r by done.
  apply Z.odd_spec in Hs as [a ->]. destruct (Z.even v) eqn:Hv.
  - apply Z.even_spec in Hv as [b ->]. exists u, b. nia.
  - rewrite <-Z.negb_odd in Hv. apply negb_false_iff, Z.odd_spec in Hv as [b ->].
    exists (u + 2 ^ k), (b - a). nia.
Qed.

(** An odd stride visits every slot. *)
Lemma candidate_surj offset skip k c :
  0 <= k <= 64 -> Z.odd skip = true -> 0 <= c < 2 ^ k ->
  exists j, 0 <= j < 2 ^ k /\ candidate offset skip (2 ^ k - 1) j = c.
Proof.
  intros Hk Hodd Hc. destruct (odd_bezout skip k Hodd ltac:(lia)) as (u & v & Huv).
  exists (((c - offset) * u) mod 2 ^ k). split; [apply Z.mod_pos_bound; lia|].
  rewrite candidate_mod by done. rewrite <-Z.add_mod_idemp_r, Z.mul_mod_idemp_l, Z.add_mod_idemp_r by lia.
  rewrite <-Z.mul_assoc. replace (u * skip) with (1 - v * 2 ^ k) by lia.
  replace (offset + (c - offset) * (1 - v * 2 ^ k)) with (c + ((offset - c) * v) * 2 ^ k) by ring.
  rewrite Z.mod_add by lia. by apply Z.mod_small.
Qed.

Lemma odd_mask x k : 0 < k -> Z.odd (Z.land (Z.lor x 1) (2 ^ k - 1)) = true.
Proof.
  intros Hk. replace (2 ^ k - 1) with (Z.ones k) by (rewrite Z.ones_equiv; lia).
  rewrite <-Z.bit0_odd, Z.land_spec, Z.lor_spec, Z.ones_spec_low by lia.
  by rewrite orb_comm.
Qed.

(** ** Counting slots *)

Definition cnt (v : Z) (l : list Z) : Z := Z.of_nat (length (filter (fun x => x = v) l)).

Lemma cnt_nonneg v l : 0 <= cnt v l.
Proof. unfold cnt. lia. Qed.

Lemma cnt_app v l k : cnt v (l ++ k) = cnt v l + cnt v k.
Proof. unfold cnt. rewrite filter_app, length_app. lia. Qed.

Lemma cnt_cons v x l : cnt v (x :: l) = (if decide (x = v) then 1 else 0) + cnt v l.
Proof. unfold cnt. rewrite filter_cons. case_decide; simpl length; lia. Qed.

Lemma cnt_insert v l i x y :
  l !! i = Some x ->
  cnt v (<[i := y]> l) =
  cnt v l - (if decide (x = v) then 1 else 0) + (if decide (y = v) then 1 else 0).
Proof.
  intros Hi. assert (i < length l)%nat by by eapply lookup_lt_Some.
  rewrite insert_take_drop by done. rewrite <-(take_drop_middle l i x Hi) at 3.
  rewrite !cnt_app, !cnt_cons. lia.
Qed.

Lemma cnt_pos v l : 0 < cnt v l -> exists i, l !! i = Some v.
Proof.
  induction l as [|x l IH]; [done|]. rewrite cnt_cons. case_decide as E.
  - subst. by exists 0%nat.
  - intros [i Hi]%IH. by exists (S i).
Qed.

Lemma cnt_zero v l i : cnt v l = 0 -> l !! i <> Some v.
Proof.
  revert i. induction l as [|x l IH]; intros [|i]; try done; rewrite cnt_cons;
    pose proof (cnt_nonneg v l); case_decide; simpl; try lia; [congruence|].
  intros. apply IH. lia.
Qed.

(** The first step at or after [next] whose slot is free. *)
Lemma probe_finds fuel sl perm mask next j :
  (forall i, is_Some (sl !! Z.to_nat (candidate perm.1 perm.2 mask i))) ->
  next <= j -> j - next < Z.of_nat fuel ->
  sl !! Z.to_nat (candidate perm.1 perm.2 mask j) = Some EMPTY_SLOT ->
  exists i, next <= i /\ probe fuel sl perm mask next = Some (candidate perm.1 perm.2 mask i, i + 1) /\
  sl !! Z.to_nat (candidate perm.1 perm.2 mask i) = Some EMPTY_SLOT /\
  forall i', next <= i' < i -> sl !! Z.to_nat (candidate perm.1 perm.2 mask i') <> Some EMPTY_SLOT.
Proof.
  intros Hin. revert next. induction fuel as [|fuel IH]; intros next Hle Hf Hj; [lia|].
  cbn [probe]. destruct (Hin next) as [v Hv]. rewrite Hv.
  destruct (Z.eqb_spec v EMPTY_SLOT) as [->|Hne].
  - exists next. splits; try done. intros; lia.
  - assert (next <> j) by congruence.
    destruct (IH (next + 1) ltac:(lia) ltac:(lia) Hj) as (i & Hi & Hp & He & Hbefore).
    exists i. splits; [lia|done|done|]. intros i' Hi'. destruct (Z.eq_dec i' next) as [->|].
    + congruence.
    + apply Hbefore. lia.
Qed.

(** ** The fill *)

Section fill.
Context (k : Z) (perms : list (Z * Z)).
Hypothesis Hk : 0 < k <= 64.
Hypothesis Hodd : Forall (fun p => Z.odd p.2 = true) perms.
Let n := Z.of_nat (length perms).
Hypothesis Hn : 0 < n < EMPTY_SLOT.

(** Each worker has [ceil ((filled - w) / n)] slots: the turns it had so far. Its
    progression is full before its next step. *)
Record fill_inv (f : Fill) : Prop := {
  fi_slots : Z.of_nat (length (fslots f)) = 2 ^ k;
  fi_nexts : length (nexts f) = length perms;
  fi_filled : filled f = 2 ^ k - cnt EMPTY_SLOT (fslots f);
  fi_range : forall i v, fslots f !! i = Some v -> v = EMPTY_SLOT \/ 0 <= v < n;
  fi_probed : forall w p nx, perms !! w = Some p -> nexts f !! w = Some nx ->
    0 <= nx /\ forall j, 0 <= j < nx ->
      fslots f !! Z.to_nat (candidate p.1 p.2 (2 ^ k - 1) j) <> Some EMPTY_SLOT;
  fi_count : forall w, 0 <= w < n -> cnt w (fslots f) = div_ceil (filled f - w) n
}.

Lemma div_ceil_turn f w :
  0 <= w < n -> div_ceil (f + 1 - w) n = div_ceil (f - w) n + (if decide (f mod n = w) then 1 else 0).
Proof.
  intros Hw. unfold div_ceil. pose proof (Z.div_mod f n ltac:(lia)) as Hdm.
  pose proof (Z.mod_pos_bound f n ltac:(lia)) as Hm. set (q := f / n) in *. set (r := f mod n) in *.
  assert (forall x c, 0 <= x < n -> (n * c + x) / n = c) as Hdiv.
  { intros x c Hx. rewrite Z.mul_comm, Z.div_add_l, Z.div_small by lia. lia. }
  rewrite Hdm. case_decide as Hd.
  - replace (n * q + r + 1 - w + n - 1) with (n * (q + 1) + 0) by lia.
    replace (n * q + r - w + n - 1) with (n * q + (n - 1)) by lia. rewrite !Hdiv by lia. lia.
  - destruct (Z.lt_ge_cases w r).
    + replace (n * q + r + 1 - w + n - 1) with (n * (q + 1) + (r - w)) by lia.
      replace (n * q + r - w + n - 1) with (n * (q + 1) + (r - w - 1)) by lia. rewrite !Hdiv by lia. lia.
    + replace (n * q + r + 1 - w + n - 1) with (n * q + (r - w + n)) by lia.
      replace (n * q + r - w + n - 1) with (n * q + (r - w + n - 1)) by lia. rewrite !Hdiv by lia. lia.
Qed.

(** While a slot is free, a worker's search ends. *)
Lemma probe_some f wi p nx :
  fill_inv f -> filled f < 2 ^ k -> perms !! wi = Some p -> nexts f !! wi = Some nx ->
  exists i, nx <= i /\
  probe (length (fslots f)) (fslots f) p (2 ^ k - 1) nx = Some (candidate p.1 p.2 (2 ^ k - 1) i, i + 1) /\
  fslots f !! Z.to_nat (candidate p.1 p.2 (2 ^ k - 1) i) = Some EMPTY_SLOT /\
  forall j, 0 <= j < i -> fslots f !! Z.to_nat (candidate p.1 p.2 (2 ^ k - 1) j) <> Some EMPTY_SLOT.
Proof.
  intros Hi Hf Hp Hnx. destruct (fi_probed f Hi _ _ _ Hp Hnx) as [Hnx0 Hfull].
  destruct (cnt_pos EMPTY_SLOT (fslots f)) as [c Hc]; [pose proof (fi_filled f Hi); lia|].
  pose proof (lookup_lt_Some _ _ _ Hc) as Hlt. pose proof (fi_slots f Hi) as Hlen.
  destruct (candidate_surj p.1 p.2 k (Z.of_nat c)) as (j & Hj & Hjc); [lia| |lia|].
  { by apply (Forall_lookup_1 _ _ _ _ Hodd Hp). }
  assert (fslots f !! Z.to_nat (candidate p.1 p.2 (2 ^ k - 1) j) = Some EMPTY_SLOT) as Hje
    by by rewrite Hjc, Nat2Z.id.
  assert (nx <= j) by (destruct (Z.lt_ge_cases j nx); [by destruct (Hfull j); [lia|]|done]).
  destruct (probe_finds (length (fslots f)) (fslots f) p (2 ^ k - 1) nx j) as (i & Hle & Hpr & He & Hb);
    [|done|lia|done|].
  { intros i. apply lookup_lt_is_Some. pose proof (candidate_range p.1 p.2 k i). lia. }
  exists i. splits; try done. intros j' Hj'. destruct (Z.lt_ge_cases j' nx); [apply Hfull; lia|apply Hb; lia].
Qed.

Lemma turn_spec f wi p :
  fill_inv f -> filled f < 2 ^ k -> perms !! wi = Some p -> filled f mod n = Z.of_nat wi ->
  exists f', turn (2 ^ k - 1) wi p f = Some f' /\ fill_inv f' /\ filled f' = filled f + 1.
Proof.
  intros Hi Hf Hp Hmod. pose proof (lookup_lt_Some _ _ _ Hp) as Hwi.
  destruct (lookup_lt_is_Some_2 (nexts f) wi) as [nx Hnx]; [by rewrite (fi_nexts f Hi)|].
  destruct (probe_some f wi p nx Hi Hf Hp Hnx) as (i & Hle & Hpr & He & Hb).
  unfold turn. rewrite Hnx, Hpr. eexists. split; [done|]. split; [|done].
  destruct Hi as [Hs Hl Hfill Hr Hprobed Hc]. set (c := Z.to_nat (candidate _ _ _ i)) in *.
  assert (Z.of_nat wi <> EMPTY_SLOT) as Hne by (unfold n in *; lia).
  split; cbn [fslots nexts filled].
  - by rewrite length_insert.
  - by rewrite length_insert.
  - rewrite (cnt_insert _ _ _ _ _ He). rewrite decide_True, decide_False by done. lia.
  - intros j v. rewrite list_lookup_insert_Some. intros [(_ & <- & _)|[_ Hv]]; [|by eapply Hr].
    right. unfold n. lia.
  - intros w q nx' Hq. rewrite list_lookup_insert_Some. intros Hnx'.
    assert (forall j, fslots f !! j <> Some EMPTY_SLOT ->
      <[c := Z.of_nat wi]> (fslots f) !! j <> Some EMPTY_SLOT) as Hkeep.
    { intros j Hj. rewrite list_lookup_insert_Some. intros [(_ & ? & _)|[_ ?]]; congruence. }
    destruct Hnx' as [(<- & <- & _)|[_ Hnx']].
    + simplify_eq. destruct (Hprobed _ _ _ Hp Hnx) as [Hnx0 _]. split; [lia|]. intros j Hj.
      destruct (Z.eq_dec j i) as [->|]; [|apply Hkeep, Hb; lia].
      fold c. rewrite list_lookup_insert_eq by by eapply lookup_lt_Some. congruence.
    + destruct (Hprobed _ _ _ Hq Hnx') as [H0 H1]. split; [done|]. intros. by apply Hkeep, H1.
  - intros w Hw. rewrite (cnt_insert _ _ _ _ _ He), decide_False, Hc, div_ceil_turn by lia.
    rewrite Hmod. lia.
Qed.

Lemma round_spec wi ps f :
  fill_inv f -> filled f < 2 ^ k -> drop wi perms = ps -> ps <> [] -> filled f mod n = Z.of_nat wi ->
  exists f', round (2 ^ k) (2 ^ k - 1) wi ps f = Some f' /\ fill_inv f' /\ filled f < filled f' <= 2 ^ k /\
  (filled f' = 2 ^ k \/ filled f' mod n = 0).
Proof.
  revert wi f. induction ps as [|p ps IH]; intros wi f Hi Hf Hd Hps Hmod; [done|].
  assert (perms !! wi = Some p) as Hp by (rewrite <-(Nat.add_0_r wi), <-lookup_drop, Hd; done).
  pose proof (lookup_lt_Some _ _ _ Hp) as Hwi.
  destruct (turn_spec f wi p Hi Hf Hp Hmod) as (f1 & Ht & Hi1 & Hf1). cbn [round]. rewrite Ht.
  destruct (Z.eqb_spec (filled f1) (2 ^ k)) as [Hdone|Hmore]; [exists f1; splits; auto; lia|].
  assert (drop (S wi) perms = ps) as Hd1 by (rewrite <-Nat.add_1_r, <-drop_drop, Hd; done).
  pose proof (Z.div_mod (filled f) n ltac:(lia)) as Hdm. rewrite Hmod in Hdm.
  destruct ps as [|p' ps].
  - exists f1. cbn [round]. splits; try done; try lia. right.
    assert (length perms <= S wi)%nat as Hend by by apply drop_nil_inv.
    rewrite Hf1, Hdm. replace (n * (filled f / n) + Z.of_nat wi + 1) with ((filled f / n + 1) * n)
      by (unfold n; lia). by apply Z.mod_mul; lia.
  - destruct (IH (S wi) f1) as (f2 & Hr & Hi2 & Hf2 & Hend); [done|lia|done|done| |].
    { assert (S wi < length perms)%nat by (apply (f_equal length) in Hd1; rewrite length_drop in Hd1;
        simpl in Hd1; lia).
      rewrite Hf1, Hdm. replace (n * (filled f / n) + Z.of_nat wi + 1) with
        (Z.of_nat (S wi) + filled f / n * n) by lia. rewrite Z.mod_add by lia. apply Z.mod_small.
      unfold n. lia. }
    exists f2. splits; try done; lia.
Qed.

Lemma fill_spec fuel f :
  fill_inv f -> filled f <= 2 ^ k -> (filled f = 2 ^ k \/ filled f mod n = 0) ->
  2 ^ k - filled f <= Z.of_nat fuel ->
  exists f', fill fuel (2 ^ k) (2 ^ k - 1) perms f = Some f' /\ fill_inv f' /\ filled f' = 2 ^ k.
Proof.
  revert f. induction fuel as [|fuel IH]; intros f Hi Hle Hmod Hf; cbn [fill].
  - rewrite (proj2 (Z.ltb_ge _ _)) by lia. exists f. splits; try done. lia.
  - destruct (Z.ltb_spec (filled f) (2 ^ k)) as [Hlt|]; [|exists f; splits; try done; lia].
    destruct (round_spec 0 perms f) as (f1 & Hr & Hi1 & Hf1 & Hend); try done.
    { intros Hnil. apply (f_equal length) in Hnil. simpl in Hnil. lia. } { destruct Hmod; [lia|done]. }
    rewrite Hr. apply IH; try done; lia.
Qed.

End fill.

(** ** The workers of a table *)

#[local] Instance by_id_trans : Transitive by_id.
Proof. intros a b c. unfold by_id. apply transitivity. Qed.

#[local] Instance by_id_total : Total by_id.
Proof. intros a b. apply (total String.le). Qed.

Lemma dedup_from_ids last l :
  StronglySorted by_id (last :: l) ->
  NoDup (id <$> (last :: dedup_from last l)) /\ dedup_from last l ⊆ l /\
  (forall x, x ∈ l -> id x ∈ id <$> (last :: dedup_from last l)).
Proof.
  revert last. induction l as [|x l IH]; intros last Hs.
  { cbn. splits; [apply NoDup_singleton|done|]. intros x Hx. by apply not_elem_of_nil in Hx. }
  apply StronglySorted_cons in Hs as [Hlast Hs].
  pose proof (proj1 (Forall_cons _ _ _) Hlast) as [Hlx Hl]. cbn [dedup_from]. case_bool_decide as E.
  - destruct (IH last) as (H1 & H2 & H3).
    { apply StronglySorted_cons. apply StronglySorted_cons in Hs as [_ Hs]. done. }
    splits; [done|set_solver|]. intros y [->|Hy]%elem_of_cons; [rewrite E; set_solver|by apply H3].
  - destruct (IH x Hs) as (H1 & H2 & H3). splits; [|set_solver|].
    + rewrite fmap_cons. apply NoDup_cons. split; [|done]. rewrite fmap_cons. intros Hin.
      apply elem_of_cons in Hin as [Hin|Hin]; [congruence|].
      apply list_elem_of_fmap in Hin as (y & Hy & Hin).
      apply E. apply (anti_symm String.le).
      * rewrite Hy. apply StronglySorted_cons in Hs as [Hs _]. rewrite Forall_forall in Hs.
        apply Hs. set_solver.
      * done.
    + intros y [->|Hy]%elem_of_cons; [set_solver|]. specialize (H3 y Hy). set_solver.
Qed.

Lemma table_workers nodes :
  let ws := dedup_by_id (select_workers nodes) in
  NoDup (id <$> ws) /\ (forall w, w ∈ ws -> w ∈ nodes /\ role w = Worker) /\
  (forall w, w ∈ nodes -> role w = Worker -> id w ∈ id <$> ws).
Proof.
  intros ws. unfold ws. clear ws.
  assert (forall w, w ∈ select_workers nodes <-> w ∈ nodes /\ role w = Worker) as Hin.
  { intros w. unfold select_workers. rewrite (merge_sort_Permutation by_id).
    rewrite list_elem_of_filter. tauto. }
  assert (StronglySorted by_id (select_workers nodes)) as Hs
    by (apply StronglySorted_merge_sort; apply _).
  unfold dedup_by_id. destruct (select_workers nodes) as [|x l].
  - splits; [apply NoDup_nil_2|intros w Hw; by apply not_elem_of_nil in Hw|].
    intros w Hw Hr. specialize (proj2 (Hin w) (conj Hw Hr)). intros H. by apply not_elem_of_nil in H.
  - destruct (dedup_from_ids x l Hs) as (H1 & H2 & H3). splits; [done| |].
    + intros w Hw. apply Hin. set_solver.
    + intros w Hw Hr. apply (conj Hw), Hin in Hr. apply elem_of_cons in Hr as [->|Hr]; [set_solver|].
      by apply H3.
Qed.

(** ** A built table *)

Record table_ok (k : Z) (t : CachePlacementTable) : Prop := {
  to_k : 0 < k <= 64;
  to_mask : mask t = 2 ^ k - 1;
  to_len : Z.of_nat (length (slots t)) = 2 ^ k;
  to_big : SLOTS_PER_WORKER * Z.of_nat (length (workers t)) <= 2 ^ k;
  to_range : forall i v, slots t !! i = Some v -> 0 <= v < Z.of_nat (length (workers t));
  to_count : forall w, 0 <= w < Z.of_nat (length (workers t)) ->
    cnt w (slots t) = div_ceil (2 ^ k - w) (Z.of_nat (length (workers t)))
}.

Lemma next_power_of_two_spec n :
  1 < n <= 2 ^ 63 -> exists k, checked_next_power_of_two n = Some (2 ^ k) /\ 0 < k <= 63 /\ n <= 2 ^ k.
Proof.
  intros Hn. exists (Z.log2_up n). unfold checked_next_power_of_two.
  pose proof (Z.log2_up_spec n ltac:(lia)) as [_ Hle]. pose proof (Z.log2_up_pos n ltac:(lia)) as Hpos.
  assert (Z.log2_up n <= 63) as H63 by (rewrite <-(Z.log2_up_pow2 63) by lia; apply Z.log2_up_le_mono; lia).
  assert (2 ^ Z.log2_up n <= 2 ^ 63) as Hp by (apply Z.pow_le_mono_r; lia).
  rewrite (proj2 (Z.ltb_lt _ _)) by lia. split; [done|lia].
Qed.

Lemma start_inv k perms :
  0 < k <= 64 -> 0 < Z.of_nat (length perms) < EMPTY_SLOT ->
  fill_inv k perms (mkFill (replicate (Z.to_nat (2 ^ k)) EMPTY_SLOT) (replicate (length perms) 0) 0).
Proof.
  intros Hk Hn. set (N := Z.to_nat (2 ^ k)).
  assert (forall m v, cnt v (replicate m EMPTY_SLOT) = if decide (EMPTY_SLOT = v) then Z.of_nat m else 0) as Hcnt.
  { intros m v. induction m as [|m IH]; [by case_decide|]. cbn [replicate]. rewrite cnt_cons, IH.
    case_decide; lia. }
  split; cbn [fslots nexts filled].
  - rewrite length_replicate. unfold N. lia.
  - apply length_replicate.
  - rewrite Hcnt, decide_True by done. unfold N. lia.
  - intros i v [-> _]%lookup_replicate. by left.
  - intros w p nx _ [-> _]%lookup_replicate. split; [done|]. lia.
  - intros w Hw. rewrite Hcnt, decide_False by lia. unfold div_ceil.
    replace (0 - w + Z.of_nat (length perms) - 1) with (Z.of_nat (length perms) - 1 - w) by lia.
    rewrite Z.div_small; lia.
Qed.

Lemma new_spec `{Sha256} nodes ws :
  ws = dedup_by_id (select_workers nodes) -> ws <> [] -> Z.of_nat (length ws) < EMPTY_SLOT ->
  exists k t, new nodes = Some t /\ workers t = ws /\ table_ok k t.
Proof.
  intros Hws Hne Hn. unfold new. rewrite <-Hws.
  assert (0 < Z.of_nat (length ws)) as Hpos by (destruct ws; [done|simpl; lia]).
  unfold EMPTY_SLOT, u32_max in Hn.
  destruct (next_power_of_two_spec (Z.max (saturating_mul 64 (Z.of_nat (length ws)) SLOTS_PER_WORKER) MIN_TABLE_SIZE))
    as (k & Hp & Hk & Hle).
  { unfold saturating_mul, SLOTS_PER_WORKER, MIN_TABLE_SIZE. lia. }
  unfold saturating_mul, SLOTS_PER_WORKER in Hle.
  set (perms := (fun w => worker_permutation (id w) (2 ^ k - 1)) <$> ws).
  assert (length perms = length ws) as Hlen by apply length_fmap.
  destruct (fill_spec k perms ltac:(lia)) with (fuel := Z.to_nat (2 ^ k))
    (f := mkFill (replicate (Z.to_nat (2 ^ k)) EMPTY_SLOT) (replicate (length ws) 0) 0)
    as (f & Hf & Hi & Hfull).
  { apply Forall_fmap, Forall_true. intros w. apply odd_mask. lia. }
  { rewrite Hlen. unfold EMPTY_SLOT, u32_max. lia. }
  { rewrite <-Hlen. apply start_inv; rewrite ?Hlen; unfold EMPTY_SLOT, u32_max; lia. }
  { simpl. lia. } { right. apply Z.mod_0_l. rewrite Hlen. lia. } { simpl. lia. }
  exists k, (mkTable ws (fslots f) (2 ^ k - 1)). split; [|split; [done|]].
  - unfold perms in Hf. destruct ws as [|w ws']; [done|]. rewrite (proj2 (Z.ltb_lt _ EMPTY_SLOT))
      by (unfold EMPTY_SLOT, u32_max; lia). cbn [negb]. rewrite Hp. by rewrite Hf.
  - destruct Hi as [Hs _ Hfill Hr _ Hc]. rewrite Hfull in Hfill, Hc. rewrite Hlen in *.
    split; cbn [workers slots mask]; try done; [lia|unfold SLOTS_PER_WORKER; lia|].
    intros i v Hv. destruct (Hr i v Hv) as [->|]; [|done]. exfalso.
    apply (cnt_zero EMPTY_SLOT (fslots f) i); [lia|done].
Qed.

(** ** Ranking *)

Section ranking.
Context (k : Z) (t : CachePlacementTable) (start step : Z).
Hypothesis Ht : table_ok k t.
Hypothesis Hnd : NoDup (id <$> workers t).
Hypothesis Hstep : Z.odd step = true.

(** The worker the probe [i] finds. *)
Definition worker_at (i : Z) : option NodeInfo :=
  slots t !! Z.to_nat (candidate start step (mask t) i) ≫= fun w => workers t !! Z.to_nat w.

Lemma worker_at_some i : exists w, worker_at i = Some w /\ w ∈ workers t.
Proof using Ht.
  clear Hstep.
  unfold worker_at. destruct Ht as [Hk Hm Hl _ Hr _]. rewrite Hm.
  pose proof (candidate_range start step k i ltac:(lia)) as Hc.
  destruct (lookup_lt_is_Some_2 (slots t) (Z.to_nat (candidate start step (2 ^ k - 1) i))) as [v Hv]; [lia|].
  rewrite Hv. cbn. specialize (Hr _ _ Hv).
  destruct (lookup_lt_is_Some_2 (workers t) (Z.to_nat v)) as [w Hw]; [lia|].
  exists w. split; [done|]. by eapply list_elem_of_lookup_2.
Qed.

(** Every worker is met by some probe. *)
Lemma worker_at_surj w : w ∈ workers t -> exists j, 0 <= j < 2 ^ k /\ worker_at j = Some w.
Proof.
  intros (i & Hi)%list_elem_of_lookup. pose proof (lookup_lt_Some _ _ _ Hi) as Hlt.
  destruct Ht as [Hk Hm Hl Hbig _ Hc]. unfold SLOTS_PER_WORKER in Hbig.
  destruct (cnt_pos (Z.of_nat i) (slots t)) as [c Hcell].
  { rewrite Hc by lia. unfold div_ceil. apply Z.div_str_pos. lia. }
  pose proof (lookup_lt_Some _ _ _ Hcell).
  destruct (candidate_surj start step k (Z.of_nat c)) as (j & Hj & Hjc); [lia|done|lia|].
  exists j. split; [done|]. unfold worker_at. rewrite Hm, Hjc, Nat2Z.id, Hcell. cbn. by rewrite Nat2Z.id.
Qed.

Lemma rank_loop_step target n i res :
  exists w, worker_at i = Some w /\ w ∈ workers t /\
  rank_loop t start step target (S n) i res =
  if existsb (fun r => bool_decide (id r = id w)) res
  then rank_loop t start step target n (i + 1) res
  else if bool_decide (length (res ++ [w]) = target) then Some (res ++ [w])
  else rank_loop t start step target n (i + 1) (res ++ [w]).
Proof using Ht.
  clear Hstep.
  destruct (worker_at_some i) as (w & Hw & Hin). exists w. splits; [done..|].
  cbn [rank_loop]. unfold worker_at in Hw. by rewrite Hw.
Qed.

Lemma existsb_id w res : existsb (fun r => bool_decide (id r = id w)) res = true <-> id w ∈ id <$> res.
Proof.
  rewrite existsb_exists, list_elem_of_fmap. split.
  - intros (x & Hx%list_elem_of_In & He%bool_decide_eq_true). by exists x.
  - intros (x & He & Hx). exists x. rewrite bool_decide_eq_true. by rewrite <-list_elem_of_In.
Qed.

(** The loop stops with as many distinct workers as it was asked for. *)
Lemma rank_loop_spec target n i res :
  0 <= i -> i + Z.of_nat n = 2 ^ k -> (length res < target <= length (workers t))%nat ->
  NoDup (id <$> res) -> res ⊆ workers t ->
  (forall j w, 0 <= j < i -> worker_at j = Some w -> id w ∈ id <$> res) ->
  exists r, rank_loop t start step target n i res = Some (res ++ r) /\
  length (res ++ r) = target /\ NoDup (id <$> (res ++ r)) /\ res ++ r ⊆ workers t.
Proof.
  revert i res. induction n as [|n IH]; intros i res Hi Hn Hlen Hres Hsub Hseen.
  { exfalso. assert (id <$> workers t ⊆ id <$> res) as Hall.
    { intros x (w & -> & Hw)%list_elem_of_fmap.
      destruct (worker_at_surj w Hw) as (j & Hj & Hat). apply (Hseen j w); [lia|done]. }
    apply (NoDup_submseteq _ _ Hnd), submseteq_length in Hall. rewrite !length_fmap in Hall. lia. }
  destruct (rank_loop_step target n i res) as (w & Hat & Hin & ->).
  destruct (existsb _ res) eqn:Ex.
  - apply existsb_id in Ex. apply IH; try done; try lia. intros j v Hj Hv.
    destruct (Z.eq_dec j i) as [->|]; [by simplify_eq|]. apply (Hseen j v); [lia|done].
  - assert (id w ∉ id <$> res) as Hnew by (rewrite <-existsb_id; congruence).
    assert (NoDup (id <$> (res ++ [w]))) as Hnd'.
    { rewrite fmap_app. apply NoDup_app. splits; [done| |apply NoDup_singleton].
      intros x Hx. cbn. rewrite list_elem_of_singleton. by intros ->. }
    assert (res ++ [w] ⊆ workers t) as Hsub' by set_solver.
    case_bool_decide as Hdone; [by exists [w]|]. rewrite length_app in Hdone. cbn in Hdone.
    destruct (IH (i + 1) (res ++ [w])) as (r & Hr & H1 & H2 & H3); try done; try lia.
    { rewrite length_app. cbn. lia. }
    { intros j v Hj Hv. rewrite fmap_app, elem_of_app. destruct (Z.eq_dec j i) as [->|].
      - right. simplify_eq. cbn. by apply list_elem_of_singleton.
      - left. apply (Hseen j v); [lia|done]. }
    exists (w :: r). by rewrite Hr, <-app_assoc in *.
Qed.

(** What the loop has found it keeps. *)
Lemma rank_loop_extends target n i res r :
  rank_loop t start step target n i res = Some r -> res `prefix_of` r.
Proof using Ht.
  clear Hstep.
  revert i res. induction n as [|n IH]; intros i res; [by intros [= <-]|].
  destruct (rank_loop_step target n i res) as (w & _ & _ & ->).
  destruct (existsb _ _); [apply IH|]. case_bool_decide.
  - intros [= <-]. by apply prefix_app_r.
  - intros Hr%IH. etrans; [|exact Hr]. by apply prefix_app_r.
Qed.

Lemma rank_loop_prefix target target' n i res r r' :
  (target <= target')%nat -> (length res < target)%nat ->
  rank_loop t start step target n i res = Some r ->
  rank_loop t start step target' n i res = Some r' -> r `prefix_of` r'.
Proof using Ht.
  clear Hstep.
  intros Hle. revert i res. induction n as [|n IH]; intros i res Hlen; [by intros [= <-] [= <-]|].
  destruct (rank_loop_step target n i res) as (w & Hw & _ & ->).
  destruct (rank_loop_step target' n i res) as (w' & Hw' & _ & ->). simplify_eq.
  destruct (existsb _ _); [by apply IH|].
  case_bool_decide as E; case_bool_decide as E'.
  - intros [= <-] [= <-]. done.
  - intros [= <-]. apply rank_loop_extends.
  - rewrite length_app in *. simpl in *. lia.
  - apply IH. rewrite length_app in *. simpl in *. lia.
Qed.

Lemma rank_loop_head target n r :
  rank_loop t start step target (S n) 0 [] = Some r ->
  exists w, worker_at 0 = Some w /\ head r = Some w.
Proof using Ht.
  clear Hstep.
  destruct (rank_loop_step target n 0 []) as (w & Hw & _ & ->). cbn [existsb app].
  intros Hr. exists w. split; [done|]. case_bool_decide; [by simplify_eq|].
  by apply rank_loop_extends in Hr as [l ->].
Qed.

End ranking.

Lemma new_table_inv `{Sha256} nodes t :
  new nodes = Some t ->
  workers t = dedup_by_id (select_workers nodes) /\ (workers t <> [] -> exists k, table_ok k t).
Proof.
  intros Ht. destruct (decide (dedup_by_id (select_workers nodes) = [])) as [E|E].
  - unfold new in Ht. rewrite E in *. by simplify_eq.
  - destruct (Z.lt_ge_cases (Z.of_nat (length (dedup_by_id (select_workers nodes)))) EMPTY_SLOT) as [Hlt|Hge].
    + destruct (new_spec nodes _ eq_refl E Hlt) as (k & t' & Ht' & Hw & Hok). simplify_eq. eauto.
    + unfold new in Ht. destruct (dedup_by_id _) as [|x l]; [done|].
      by rewrite (proj2 (Z.ltb_ge _ _)) in Ht.
Qed.

Lemma primary_worker_at `{Sha256} k t b step :
  table_ok k t ->
  primary t b = Some <$> worker_at t (Z.land (le_word (cache_block_hash b) 0) (mask t)) step 0.
Proof.
  intros Ht. destruct (worker_at_some k t (Z.land (le_word (cache_block_hash b) 0) (mask t)) step Ht 0)
    as (w & Hw & _). rewrite Hw. unfold primary, worker_at in *. destruct Ht as [Hk Hm _ _ _ _].
  rewrite Hm in *. rewrite candidate_mod, Z.add_0_r in Hw by lia. rewrite land_mask in * by lia.
  rewrite Z.mod_mod in Hw by lia. destruct (slots t !! _) as [v|]; [|done]. cbn in Hw |- *. by rewrite Hw.
Qed.

(** Sorting by a key that has no duplicates does not depend on the order of the input. *)
Lemma sort_perm {A} (f : A -> string) (R : A -> A -> Prop) `{forall a b, Decision (R a b)} (l l' : list A) :
  (forall a b, R a b <-> String.le (f a) (f b)) -> l ≡ₚ l' -> NoDup (f <$> l) -> merge_sort R l = merge_sort R l'.
Proof.
  intros HR Hp Hnd. assert (Transitive R) by (intros a b c; rewrite !HR; apply transitivity).
  assert (Total R) by (intros a b; rewrite !HR; apply (total String.le)). apply (StronglySorted_unique_strong R).
  - intros a b Ha Hb Hab Hba. rewrite HR in Hab, Hba. rewrite (merge_sort_Permutation R) in Ha, Hb.
    rewrite <-Hp in Hb. assert (f a = f b) as Hid by by apply (anti_symm String.le).
    apply list_elem_of_lookup in Ha as [i Hi], Hb as [j Hj].
    assert (i = j) as ->; [|by simplify_eq].
    eapply (NoDup_lookup _ i j (f a) Hnd); rewrite list_lookup_fmap; [by rewrite Hi|by rewrite Hj, Hid].
  - apply StronglySorted_merge_sort; apply _.
  - apply StronglySorted_merge_sort; apply _.
  - by rewrite !(merge_sort_Permutation R), Hp.
Qed.

(** The sorted workers do not depend on the order the membership lists them in. *)
Lemma select_workers_perm nodes nodes' :
  nodes ≡ₚ nodes' -> NoDup (id <$> filter (fun n => role n = Worker) nodes) ->
  select_workers nodes = select_workers nodes'.
Proof. intros Hp Hnd. apply (sort_perm id by_id); [done|by rewrite Hp|done]. Qed.

Lemma hash_field_inj v w l k :
  Z.of_nat (length v) < 2 ^ 64 -> Z.of_nat (length w) < 2 ^ 64 ->
  hash_field v ++ l = hash_field w ++ k -> v = w /\ l = k.
Proof.
  intros Hv Hw. unfold hash_field. rewrite <-!app_assoc. intros E.
  apply app_inj_1 in E as [E1 E2]; [|by rewrite !length_le_bytes].
  apply (le_bytes_inj 8) in E1; [|change (256 ^ Z.of_nat 8) with (2 ^ 64); lia..].
  by apply app_inj_1 in E2; [|lia].
Qed.

(** ** Theorems *)

(** C38: Building a table terminates for every membership of fewer than 2^32 - 1 workers. Its
    workers are the membership's distinct worker ids; every slot is assigned; and the load is
    balanced: the numbers of slots of two workers differ by at most one, and each is at
    least 64. *)
Theorem maglev_balanced `{Sha256} nodes :
  Z.of_nat (length (dedup_by_id (select_workers nodes))) < EMPTY_SLOT ->
  exists t, new nodes = Some t /\ NoDup (id <$> workers t) /\
  (forall w, w ∈ workers t -> w ∈ nodes /\ role w = Worker) /\
  (forall w, w ∈ nodes -> role w = Worker -> id w ∈ id <$> workers t) /\
  let n := Z.of_nat (length (workers t)) in
  (forall i v, slots t !! i = Some v -> 0 <= v < n) /\
  (forall v w, 0 <= v < n -> 0 <= w < n ->
    cnt v (slots t) <= cnt w (slots t) + 1 /\ 64 <= cnt v (slots t)).
Proof.
  intros Hn. destruct (table_workers nodes) as (H1 & H2 & H3).
  destruct (decide (dedup_by_id (select_workers nodes) = [])) as [E|E].
  - exists (mkTable [] [] 0). unfold new. rewrite E in *. cbn. splits; try done; intros; lia.
  - destruct (new_spec nodes _ eq_refl E Hn) as (k & t & Ht & Hw & Hok). exists t. rewrite Hw.
    destruct Hok as [Hk _ _ Hbig Hr Hc]. rewrite Hw in *. cbv zeta. splits; try done.
    intros v w Hv Hw'. rewrite !Hc by done. unfold SLOTS_PER_WORKER, div_ceil in *.
    set (n := Z.of_nat _) in *. split.
    + transitivity ((2 ^ k - w + n - 1 + 1 * n) / n); [apply Z.div_le_mono; lia|].
      rewrite Z.div_add by lia. done.
    + apply Z.div_le_lower_bound; lia.
Qed.

(** For every block and every [k], ranking returns [min k n] distinct workers of the
    table, the primary first, and asking for more workers only appends to the answer. *)
Theorem rank_distinct `{Sha256} nodes t b k :
  new nodes = Some t ->
  exists r, rank t b k = Some r /\ length r = Nat.min k (length (workers t)) /\
  NoDup (id <$> r) /\ r ⊆ workers t /\
  (r <> [] -> exists p, primary t b = Some (Some p) /\ head r = Some p) /\
  (forall k', (k <= k')%nat -> exists r', rank t b k' = Some r' /\ r `prefix_of` r').
Proof.
  intros [Hw Hok]%new_table_inv. pose proof (proj1 (table_workers nodes)) as Hnd. cbn in Hnd. rewrite <-Hw in Hnd.
  destruct (decide (workers t = [])) as [E|E].
  { assert (forall m, rank t b m = Some []) as Hr by (intros m; unfold rank; by rewrite E, Nat.min_0_r).
    exists []. rewrite Hr, E, Nat.min_0_r. splits; try done; [constructor|]. intros k' _. by exists []. }
  destruct (Hok E) as [q Ht]. clear Hok.
  set (start := Z.land (le_word (cache_block_hash b) 0) (mask t)).
  set (step := Z.land (Z.lor (le_word (cache_block_hash b) 8) 1) (mask t)).
  assert (Z.odd step = true) as Hodd by (unfold step; rewrite (to_mask q t Ht); apply odd_mask, (to_k q t Ht)).
  assert (forall m, (0 < m)%nat -> exists r, rank t b m = Some r /\
    rank_loop t start step (Nat.min m (length (workers t))) (length (slots t)) 0 [] = Some r /\
    length r = Nat.min m (length (workers t)) /\ NoDup (id <$> r) /\ r ⊆ workers t) as Hrank.
  { intros m Hm. assert (0 < length (workers t))%nat by (destruct (workers t); [done|simpl; lia]).
    destruct (rank_loop_spec q t start step Ht Hnd Hodd (Nat.min m (length (workers t))) (length (slots t)) 0 [])
      as (r & Hr & Hlen & H1 & H2); simpl; try done; try lia; [apply (to_len q t Ht)|constructor|set_solver|].
    exists r. unfold rank. rewrite bool_decide_false by lia. done. }
  destruct k as [|k].
  { exists []. splits; try done; [constructor|set_solver|]. intros [|k'] _; [by exists []|].
    destruct (Hrank (S k') ltac:(lia)) as (r & Hr & _). exists r. split; [done|]. apply prefix_nil. }
  destruct (Hrank (S k) ltac:(lia)) as (r & Hr & Hloop & Hlen & H1 & H2). exists r. splits; try done.
  - intros _. pose proof (to_len q t Ht) as Hl. pose proof (to_k q t Ht).
    destruct (length (slots t)) as [|n]; [lia|].
    apply (rank_loop_head q t start step Ht) in Hloop as (p & Hp & Hhead).
    exists p. split; [|done]. rewrite (primary_worker_at q t b step Ht). fold start. by rewrite Hp.
  - intros k' Hk'. destruct (Hrank k' ltac:(lia)) as (r' & Hr' & Hloop' & _). exists r'. split; [done|].
    assert (0 < length (workers t))%nat by (destruct (workers t); [done|simpl; lia]).
    eapply (rank_loop_prefix q t start step Ht (Nat.min (S k) (length (workers t))) (Nat.min k' (length (workers t))));
      [lia| |exact Hloop|exact Hloop']. cbn [length]. lia.
Qed.

(** Clients that hold the same members in different orders agree: they build the same
    table, hence rank every block the same way, and compute the same membership epoch. *)
Theorem membership_order_irrelevant `{Sha256} nodes nodes' :
  nodes ≡ₚ nodes' -> NoDup (id <$> filter (fun n => role n = Worker) nodes) ->
  new nodes = new nodes' /\
  (forall b k, rank_cache_workers b nodes k = rank_cache_workers b nodes' k) /\
  cache_membership_epoch nodes = cache_membership_epoch nodes'.
Proof.
  intros Hp Hnd. pose proof (select_workers_perm nodes nodes' Hp Hnd) as Hs.
  assert (new nodes = new nodes') as Hn by (unfold new; by rewrite Hs).
  splits; [done|intros; unfold rank_cache_workers; by rewrite Hn|].
  unfold cache_membership_epoch. rewrite Hs. destruct nodes as [|x l], nodes' as [|y l']; try done.
  by apply Permutation_nil_l in Hp.
Qed.

(** A [String] holds fewer than 2^64 bytes. *)
Definition node_sized (n : NodeInfo) : Prop :=
  Z.of_nat (length (as_bytes (id n))) < 2 ^ 64 /\ Z.of_nat (length (as_bytes (address n))) < 2 ^ 64.

Lemma node_bytes_inj x y : as_bytes x = as_bytes y -> x = y.
Proof.
  unfold as_bytes. intros E. rewrite <-(String.string_of_list_byte_of_string x), E.
  apply String.string_of_list_byte_of_string.
Qed.

(** The epoch covers the membership: two lists of workers that are hashed alike have the same
    ids and addresses, so only a collision of the hash can hide a change of either. *)
Lemma membership_input_injective ws ws' :
  Forall node_sized ws -> Forall node_sized ws' -> membership_input ws = membership_input ws' ->
  ((fun n => (id n, address n)) <$> ws) = ((fun n => (id n, address n)) <$> ws').
Proof.
  intros Hs Hs' E. unfold membership_input in E. apply app_inv_head in E. revert ws' Hs' E.
  induction Hs as [|w ws [Hi Ha] _ IH]; intros ws' Hs' E; destruct Hs' as [|w' ws' [Hi' Ha'] Hs'];
    try done.
  cbn [fmap list_fmap concat] in E. rewrite <-!app_assoc in E.
  apply hash_field_inj in E as [E1%node_bytes_inj E]; [|done..].
  apply hash_field_inj in E as [E2%node_bytes_inj E]; [|done..].
  rewrite !fmap_cons. f_equal; [by rewrite E1, E2|]. by apply IH.
Qed.

Definition example_nodes : list NodeInfo :=
  [mkNode "w2" "10.0.0.2:1" Worker; mkNode "c" "10.0.0.9:1" Coordinator;
   mkNode "w1" "10.0.0.1:1" Worker].

Lemma maglev_balanced_witness :
  exists t, @new toy_sha256 example_nodes = Some t /\ cnt 0 (slots t) <= cnt 1 (slots t) + 1.
Proof.
  destruct (@maglev_balanced toy_sha256 example_nodes) as (t & Ht & _ & _ & _ & Hn).
  { by vm_compute. }
  exists t. split; [done|]. apply Hn; apply new_table_inv in Ht as [-> _]; by vm_compute.
Defined.

Lemma rank_distinct_witness :
  exists t r, @new toy_sha256 example_nodes = Some t /\
  @rank toy_sha256 t (mkBlockId (mkObjectId S3 [] []) 0 4 []) 5 = Some r /\ length r = 2%nat.
Proof.
  destruct (new_spec (H := toy_sha256) example_nodes _ eq_refl) as (_ & t & Ht & Hw & _);
    [by vm_compute|by vm_compute|].
  destruct (@rank_distinct toy_sha256 example_nodes t (mkBlockId (mkObjectId S3 [] []) 0 4 []) 5 Ht)
    as (r & Hr & Hl & _).
  exists t, r. split; [done|]. split; [done|]. rewrite Hl, Hw. by vm_compute.
Defined.

Lemma membership_order_irrelevant_witness :
  @new toy_sha256 example_nodes = @new toy_sha256 (reverse example_nodes).
Proof.
  refine (proj1 (@membership_order_irrelevant toy_sha256 example_nodes (reverse example_nodes) _ _)).
  - by rewrite reverse_Permutation.
  - apply (bool_decide_unpack _). by vm_compute.
Defined.

End Placement.
