(* ===== verification/Block.v ===== *)
(** Block materialisation (crates/talon-core/src/block.rs): the presence bitmap of
    a paged block, packed in [u64] words, and the byte accounting built on it. *)

From S2P Require Import Prelude Key.

Module Block.
Import Key.

Inductive LoadHint := HintWhole | HintPaged (page_size : Z).

(** The words are [u64]s; [len] is the number of pages. *)
Record PresentBitmap := mkBitmap { words : list Z; len : Z }.

Definition new (page_count : Z) : PresentBitmap :=
  mkBitmap (replicate (Z.to_nat (div_ceil page_count 64)) 0) page_count.

Definition is_empty (b : PresentBitmap) : bool := len b =? 0.

Definition word (b : PresentBitmap) (page : Z) : Z := default 0 (words b !! Z.to_nat (page / 64)).

(** [self.words[page / 64] = w]. *)
Definition set_word (b : PresentBitmap) (page w : Z) : PresentBitmap :=
  mkBitmap (<[Z.to_nat (page / 64) := w]> (words b)) (len b).

Definition set (b : PresentBitmap) (page : Z) : PresentBitmap :=
  if page <? len b
  then set_word b page (Z.lor (word b page) (Z.shiftl 1 (page mod 64)))
  else b.

Definition clear (b : PresentBitmap) (page : Z) : PresentBitmap :=
  if page <? len b
  then set_word b page (Z.land (word b page) (bit_not 64 (Z.shiftl 1 (page mod 64))))
  else b.

Definition is_present (b : PresentBitmap) (page : Z) : bool :=
  (page <? len b) && (Z.land (Z.shiftr (word b page) (page mod 64)) 1 =? 1).

(** The pages [start, end). *)
Definition pages (start end_ : Z) : list Z := seqZ start (end_ - start).

Definition range_present (b : PresentBitmap) (start end_ : Z) : bool :=
  forallb (is_present b) (pages start end_).

(** [u64::count_ones]. *)
Definition count_ones (w : Z) : Z :=
  Z.of_nat (length (filter (fun i => Z.testbit w i = true) (seqZ 0 64))).

Definition count (b : PresentBitmap) : Z := foldr Z.add 0 (count_ones <$> words b).

Inductive BlockForm := Whole | Paged (page_size : Z) (present : PresentBitmap).

Record BlockMeta := mkBlockMeta { id : BlockId; form : BlockForm; blen : Z }.

Definition page_len (len page_size page : Z) : Z :=
  if page_size =? 0 then 0 else
  let start := page * page_size in
  Z.min (saturating_sub len start) page_size.

Definition resident_bytes (m : BlockMeta) : Z :=
  match form m with
  | Whole => blen m
  | Paged ps present =>
    foldr Z.add 0 ((fun p => page_len (blen m) ps p) <$>
      filter (fun p => is_present present p = true) (pages 0 (len present)))
  end.

Definition BlockMeta_page_len (m : BlockMeta) (page : Z) : Z :=
  match form m with
  | Whole => 0
  | Paged ps _ => page_len (blen m) ps page
  end.

(** ** The bitmap is a set of pages *)

(** Enough words for the pages, every bit past the last page clear. *)
Record bitmap_inv (b : PresentBitmap) : Prop := {
  bi_len : 0 <= len b;
  bi_words : Z.of_nat (length (words b)) = div_ceil (len b) 64;
  bi_bits : forall i w, words b !! i = Some w ->
    is_u64 w /\ forall j, 0 <= j -> len b <= 64 * Z.of_nat i + j -> Z.testbit w j = false
}.

Lemma word_index b page :
  bitmap_inv b -> 0 <= page < len b -> is_Some (words b !! Z.to_nat (page / 64)).
Proof.
  intros [H0 Hw _] Hp. apply lookup_lt_is_Some.
  assert (page / 64 < div_ceil (len b) 64) as Hd.
  { unfold div_ceil. apply Z.div_lt_upper_bound; [done|].
    pose proof (Z.div_mod (len b + 64 - 1) 64 ltac:(lia)).
    pose proof (Z.mod_pos_bound (len b + 64 - 1) 64 eq_refl). lia. }
  pose proof (Z.div_pos page 64 ltac:(lia) eq_refl). lia.
Qed.

Lemma is_present_testbit b page :
  is_present b page = true <-> page < len b /\ Z.testbit (word b page) (page mod 64) = true.
Proof.
  unfold is_present. rewrite andb_true_iff, Z.ltb_lt, Z.eqb_eq.
  change 1 with (Z.ones 1). rewrite Z.land_ones by lia. change (2 ^ 1) with 2.
  pose proof (Z.mod_pos_bound page 64 eq_refl) as Hm.
  rewrite <-Z.bit0_mod, Z.shiftr_spec, Z.add_0_l by lia.
  destruct (Z.testbit _ _); simpl; split; intros [? ?]; split; try done; lia.
Qed.

Lemma page_split page q : 0 <= page -> 0 <= q ->
  page = q <-> Z.to_nat (page / 64) = Z.to_nat (q / 64) /\ page mod 64 = q mod 64.
Proof.
  intros Hp Hq. split; [by intros ->|]. intros [Hd Hm].
  pose proof (Z.div_pos page 64 Hp eq_refl). pose proof (Z.div_pos q 64 Hq eq_refl).
  rewrite (Z.div_mod page 64), (Z.div_mod q 64) by lia. lia.
Qed.

(** Writing one word changes the pages of that word only. *)
Lemma word_set_word b page w q :
  bitmap_inv b -> 0 <= page < len b ->
  word (set_word b page w) q =
  if decide (Z.to_nat (page / 64) = Z.to_nat (q / 64)) then w else word b q.
Proof.
  intros Hi Hp. unfold word, set_word. simpl. case_decide as Hd.
  - rewrite <-Hd, list_lookup_insert_eq; [done|]. apply lookup_lt_is_Some.
    by apply word_index.
  - by rewrite list_lookup_insert_ne.
Qed.

Lemma bitmap_inv_set_word b page w :
  bitmap_inv b -> 0 <= page < len b -> is_u64 w ->
  (forall j, 0 <= j -> len b <= 64 * (page / 64) + j -> Z.testbit w j = false) ->
  bitmap_inv (set_word b page w).
Proof.
  intros Hi Hp Hw Hb. pose proof (word_index b page Hi Hp) as Hx. destruct Hi as [H0 Hl Hbits].
  split; simpl; [done|by rewrite length_insert|].
  intros i v. rewrite list_lookup_insert_Some. intros [(<- & <- & _)|[_ Hv]]; [|by apply Hbits].
  split; [done|]. intros j Hj Hle. apply Hb; [done|].
  pose proof (Z.div_pos page 64 ltac:(lia) eq_refl). lia.
Qed.

Lemma word_bits b page :
  bitmap_inv b -> 0 <= page < len b ->
  is_u64 (word b page) /\
  forall j, 0 <= j -> len b <= 64 * (page / 64) + j -> Z.testbit (word b page) j = false.
Proof.
  intros Hi Hp. destruct (word_index b page Hi Hp) as [w Ew]. unfold word. rewrite Ew. simpl.
  destruct (bi_bits b Hi _ w Ew) as [Hu Hb]. split; [done|]. intros j Hj Hle. apply Hb; [done|].
  pose proof (Z.div_pos page 64 ltac:(lia) eq_refl). lia.
Qed.

Lemma shift_bit i j : 0 <= i -> 0 <= j -> Z.testbit (Z.shiftl 1 i) j = bool_decide (i = j).
Proof.
  intros Hi Hj. rewrite Z.shiftl_1_l, Z.pow2_bits_eqb by done.
  destruct (Z.eqb_spec i j); by rewrite ?bool_decide_true, ?bool_decide_false by done.
Qed.

Lemma is_u64_bit i : 0 <= i < 64 -> is_u64 (Z.shiftl 1 i).
Proof. intros Hi. rewrite Z.shiftl_1_l. split; [lia|]. apply Z.pow_lt_mono_r; lia. Qed.

(** [!(1 << i)] has every bit but one. *)
Lemma bit_not_shift i j :
  0 <= i < 64 -> 0 <= j < 64 -> Z.testbit (bit_not 64 (Z.shiftl 1 i)) j = negb (bool_decide (i = j)).
Proof.
  intros Hi Hj. unfold bit_not. rewrite <-(shift_bit i j) by lia.
  replace (2 ^ 64 - 1 - Z.shiftl 1 i) with (Z.ldiff (Z.ones 64) (Z.shiftl 1 i)).
  { rewrite Z.ldiff_spec, Z.ones_spec_low by lia. done. }
  rewrite <-Z.sub_nocarry_ldiff; [done|].
  apply Z.bits_inj'. intros k Hk. rewrite Z.ldiff_spec, Z.testbit_0_l, shift_bit by lia.
  case_bool_decide as E; [|done]. subst. by rewrite Z.ones_spec_low by lia.
Qed.

Lemma set_spec b page :
  bitmap_inv b -> 0 <= page < len b ->
  bitmap_inv (set b page) /\
  forall q, 0 <= q -> is_present (set b page) q = bool_decide (page = q) || is_present b q.
Proof.
  intros Hi Hp. destruct (word_bits b page Hi Hp) as [Hu Hb].
  pose proof (Z.mod_pos_bound page 64 eq_refl) as Hm. unfold set.
  rewrite (proj2 (Z.ltb_lt _ _)) by lia. set (w := Z.lor _ _).
  assert (forall j, 0 <= j -> Z.testbit w j = Z.testbit (word b page) j || bool_decide (page mod 64 = j)) as Hw.
  { intros j Hj. unfold w. by rewrite Z.lor_spec, shift_bit by lia. }
  split.
  - apply bitmap_inv_set_word; [done..| |].
    + apply is_u_testbit in Hu as [Hu0 Hu]; [|done]. apply is_u_testbit; [done|]. split.
      * unfold w. apply Z.lor_nonneg. split; [done|]. by apply is_u64_bit.
      * intros j Hj. rewrite Hw, Hu, bool_decide_false by lia. done.
    + intros j Hj Hle. rewrite Hw, Hb by done. apply bool_decide_false. intros <-.
      pose proof (Z.div_mod page 64 ltac:(lia)). lia.
  - intros q Hq. apply eq_true_iff_eq. rewrite orb_true_iff, bool_decide_eq_true, !is_present_testbit.
    rewrite word_set_word by done. cbn [len set_word].
    pose proof (Z.mod_pos_bound q 64 eq_refl) as Hmq. pose proof (page_split page q ltac:(lia) Hq) as Heq.
    case_decide as Hd.
    + rewrite Hw, orb_true_iff, bool_decide_eq_true by lia.
      assert (word b page = word b q) as -> by (unfold word; by rewrite Hd). intuition lia.
    + intuition congruence.
Qed.

Lemma clear_spec b page :
  bitmap_inv b -> 0 <= page < len b ->
  bitmap_inv (clear b page) /\
  forall q, 0 <= q -> is_present (clear b page) q = negb (bool_decide (page = q)) && is_present b q.
Proof.
  intros Hi Hp. destruct (word_bits b page Hi Hp) as [Hu Hb].
  pose proof (Z.mod_pos_bound page 64 eq_refl) as Hm. unfold clear.
  rewrite (proj2 (Z.ltb_lt _ _)) by lia. set (w := Z.land _ _).
  assert (forall j, 0 <= j < 64 -> Z.testbit w j = Z.testbit (word b page) j && negb (bool_decide (page mod 64 = j))) as Hw.
  { intros j Hj. unfold w. by rewrite Z.land_spec, bit_not_shift by lia. }
  split.
  - apply bitmap_inv_set_word; [done..| |].
    + apply is_u_land; [done| |done]. apply bit_not_range, is_u64_bit. lia.
    + intros j Hj Hle. unfold w. by rewrite Z.land_spec, Hb.
  - intros q Hq. apply eq_true_iff_eq.
    rewrite andb_true_iff, negb_true_iff, bool_decide_eq_false, !is_present_testbit.
    rewrite word_set_word by done. cbn [len set_word].
    pose proof (Z.mod_pos_bound q 64 eq_refl) as Hmq. pose proof (page_split page q ltac:(lia) Hq) as Heq.
    case_decide as Hd.
    + rewrite Hw, andb_true_iff, negb_true_iff, bool_decide_eq_false by lia.
      assert (word b page = word b q) as -> by (unfold word; by rewrite Hd). intuition lia.
    + intuition congruence.
Qed.

Lemma new_inv n : 0 <= n -> bitmap_inv (new n).
Proof.
  intros Hn. assert (0 <= div_ceil n 64) by (apply Z.div_pos; lia).
  split; simpl; [done|rewrite length_replicate; lia|].
  intros i w [-> _]%lookup_replicate. split; [done|]. intros. apply Z.testbit_0_l.
Qed.

Lemma new_absent n q : is_present (new n) q = false.
Proof.
  apply not_true_iff_false. rewrite is_present_testbit. unfold word, new. simpl.
  destruct (replicate _ 0 !! _) as [w|] eqn:E; simpl.
  - apply lookup_replicate in E as [-> _]. rewrite Z.testbit_0_l. by intros [].
  - rewrite Z.testbit_0_l. by intros [].
Qed.

(** *** Counting *)

(** Page [p]'s bit in a list of words. *)
Definition bit_at (ws : list Z) (p : Z) : Prop :=
  Z.testbit (default 0 (ws !! Z.to_nat (p / 64))) (p mod 64) = true.

#[local] Instance bit_at_dec ws p : Decision (bit_at ws p).
Proof. unfold bit_at. apply _. Defined.

Lemma filter_ext_in {A} (P Q : A -> Prop) `{forall x, Decision (P x), forall x, Decision (Q x)} (l : list A) :
  (forall x, x ∈ l -> P x <-> Q x) -> filter P l = filter Q l.
Proof.
  induction l as [|x l IH]; intros Hl; [done|]. rewrite !filter_cons.
  rewrite IH by (intros y Hy; apply Hl; by apply list_elem_of_further).
  specialize (Hl x (list_elem_of_here _ _)). do 2 case_decide; tauto.
Qed.

Lemma filter_all {A} (P : A -> Prop) `{forall x, Decision (P x)} (l : list A) :
  (forall x, x ∈ l -> P x) -> filter P l = l.
Proof.
  intros Hl. induction l as [|x l IH]; [done|]. rewrite filter_cons_True.
  - f_equal. apply IH. intros y Hy. apply Hl. by apply list_elem_of_further.
  - apply Hl, list_elem_of_here.
Qed.

Lemma filter_fmap_length {A B} (g : A -> B) (P : B -> Prop) `{forall x, Decision (P x)} (l : list A) :
  length (filter P (g <$> l)) = length (filter (fun x => P (g x)) l).
Proof.
  induction l as [|x l IH]; [done|]. rewrite fmap_cons, !filter_cons.
  case_decide; simpl; lia.
Qed.

Lemma ones_are_bits (ws : list Z) :
  foldr Z.add 0 (count_ones <$> ws) =
  Z.of_nat (length (filter (bit_at ws) (seqZ 0 (64 * Z.of_nat (length ws))))).
Proof.
  induction ws as [|w ws IH] using rev_ind; [done|].
  rewrite fmap_app, foldr_app, length_app. cbn [fmap list_fmap foldr length].
  assert (forall l z, foldr Z.add z l = foldr Z.add 0 l + z) as Hadd.
  { intros l z. induction l as [|x l IHl]; simpl; lia. }
  rewrite Hadd, IH. replace (64 * Z.of_nat (length ws + 1)) with (64 * Z.of_nat (length ws) + 64) by lia.
  rewrite seqZ_app by lia. rewrite filter_app, length_app, Nat2Z.inj_add. f_equal.
  - do 2 f_equal. apply filter_ext_in. intros p [Hp0 Hp]%elem_of_seqZ. unfold bit_at.
    rewrite lookup_app_l; [done|]. apply Nat2Z.inj_lt. rewrite Z2Nat.id by (apply Z.div_pos; lia).
    apply Z.div_lt_upper_bound; lia.
  - rewrite Z.add_0_r. unfold count_ones. f_equal.
    replace (seqZ (0 + 64 * Z.of_nat (length ws)) 64) with (Z.add (64 * Z.of_nat (length ws)) <$> seqZ 0 64)
      by (rewrite fmap_add_seqZ; f_equal; lia).
    rewrite filter_fmap_length. f_equal. apply filter_ext_in.
    intros p [Hp0 Hp]%elem_of_seqZ. unfold bit_at.
    rewrite (Z.mul_comm 64), Z.div_add_l, Z.div_small, Z.add_0_r, Nat2Z.id by lia.
    rewrite lookup_app_r, Nat.sub_diag by lia. simpl.
    by rewrite Z.add_comm, Z.mod_add, Z.mod_small by lia.
Qed.

Lemma count_present b :
  bitmap_inv b ->
  count b = Z.of_nat (length (filter (fun p => is_present b p = true) (pages 0 (len b)))).
Proof.
  intros Hi. unfold count. rewrite ones_are_bits. destruct Hi as [H0 Hl Hbits].
  assert (len b <= 64 * Z.of_nat (length (words b))) as Hle.
  { rewrite Hl. unfold div_ceil. pose proof (Z.div_mod (len b + 64 - 1) 64 ltac:(lia)).
    pose proof (Z.mod_pos_bound (len b + 64 - 1) 64 eq_refl). lia. }
  replace (64 * Z.of_nat (length (words b))) with
    (len b + (64 * Z.of_nat (length (words b)) - len b)) by lia.
  rewrite seqZ_app, filter_app, length_app by lia. rewrite (filter_none _ (seqZ (0 + len b) _)).
  - simpl. rewrite Nat.add_0_r. unfold pages. rewrite Z.sub_0_r. do 2 f_equal.
    apply filter_ext_in. intros p [Hp0 Hp]%elem_of_seqZ. rewrite is_present_testbit.
    unfold bit_at, word. intuition lia.
  - intros p [Hp0 Hp]%elem_of_seqZ. unfold bit_at.
    destruct (words b !! Z.to_nat (p / 64)) as [w|] eqn:Ew; simpl; [|by rewrite Z.testbit_0_l].
    destruct (Hbits _ w Ew) as [_ Hb]. rewrite Hb; [done|by apply Z.mod_pos_bound|].
    rewrite Z2Nat.id by (apply Z.div_pos; lia). pose proof (Z.div_mod p 64 ltac:(lia)). lia.
Qed.

(** *** Byte accounting *)

Lemma page_len_nonneg l ps p : 0 <= ps -> 0 <= page_len l ps p.
Proof. intros Hp. unfold page_len, saturating_sub. destruct (ps =? 0); lia. Qed.

(** The pages of a block tile it. *)
Lemma page_len_total l ps n :
  0 <= l -> 0 < ps ->
  foldr Z.add 0 ((fun p => page_len l ps p) <$> seqZ 0 (Z.of_nat n)) = Z.min l (Z.of_nat n * ps).
Proof.
  intros Hl Hp. induction n as [|n IH]; [simpl; lia|].
  rewrite seqZ_S, fmap_app, foldr_app. cbn [fmap list_fmap foldr].
  assert (forall k z, foldr Z.add z k = foldr Z.add 0 k + z) as Hadd.
  { intros k z. induction k as [|x k IHk]; simpl; lia. }
  rewrite Hadd, IH. unfold page_len, saturating_sub.
  rewrite (proj2 (Z.eqb_neq ps 0)) by lia. rewrite Nat2Z.inj_succ. nia.
Qed.

Lemma filter_sum_le (f : Z -> Z) (P : Z -> Prop) `{forall x, Decision (P x)} (l : list Z) :
  (forall x, 0 <= f x) -> foldr Z.add 0 (f <$> filter P l) <= foldr Z.add 0 (f <$> l).
Proof.
  intros Hf. induction l as [|x l IH]; [done|]. rewrite filter_cons. specialize (Hf x).
  case_decide; rewrite ?fmap_cons; cbn [foldr]; lia.
Qed.

(** ** Theorems *)

(** The bitmap implements a set of pages: starting empty, [set] and [clear] add and
    remove exactly the page they name (and nothing for a page out of range), [count] is
    the number of present pages, and the packed representation stays well formed. *)
Theorem bitmap_refines_set b page :
  bitmap_inv b -> 0 <= page ->
  bitmap_inv (set b page) /\ bitmap_inv (clear b page) /\
  (forall q, 0 <= q ->
     is_present (set b page) q = (bool_decide (page = q /\ page < len b)) || is_present b q /\
     is_present (clear b page) q = negb (bool_decide (page = q)) && is_present b q) /\
  count b = Z.of_nat (length (filter (fun p => is_present b p = true) (pages 0 (len b)))).
Proof.
  intros Hi Hp. pose proof (count_present b Hi) as Hc.
  destruct (Z.lt_ge_cases page (len b)) as [Hlt|Hge].
  - destruct (set_spec b page Hi ltac:(lia)) as [Hs Hsp].
    destruct (clear_spec b page Hi ltac:(lia)) as [Hcl Hcp]. splits; try done.
    intros q Hq. rewrite Hsp, Hcp by done. split; [|done]. f_equal. apply bool_decide_ext. intuition.
  - unfold set, clear. rewrite (proj2 (Z.ltb_ge _ _)) by lia. splits; try done. intros q Hq.
    rewrite bool_decide_false by lia. split; [done|].
    case_bool_decide; [|done]. subst. simpl. apply not_true_iff_false.
    rewrite is_present_testbit. lia.
Qed.

Definition example_bitmap : PresentBitmap := set (new 70) 65.

Lemma bitmap_refines_set_witness :
  is_present (set example_bitmap 3) 3 = true /\ is_present (clear example_bitmap 65) 65 = false /\
  count example_bitmap = 1.
Proof.
  assert (bitmap_inv example_bitmap) as Hi.
  { apply set_spec; [apply new_inv; lia|simpl; lia]. }
  destruct (bitmap_refines_set example_bitmap 3 Hi ltac:(lia)) as (_ & _ & H3 & Hc).
  destruct (bitmap_refines_set example_bitmap 65 Hi ltac:(lia)) as (_ & _ & H65 & _).
  rewrite (proj1 (H3 3 ltac:(lia))), (proj2 (H65 65 ltac:(lia))), Hc. vm_compute. auto.
Defined.

(** A fresh bitmap is well formed and has no page; a range is present when all its pages
    are. *)
Lemma bitmap_new_empty n b start end_ :
  0 <= n ->
  bitmap_inv (new n) /\ (forall q, is_present (new n) q = false) /\
  (range_present b start end_ = true <->
   forall p, start <= p < end_ -> is_present b p = true).
Proof.
  intros Hn. splits; [by apply new_inv|apply new_absent|].
  unfold range_present, pages. rewrite forallb_forall. split.
  - intros H p Hp. apply H, list_elem_of_In, elem_of_seqZ. lia.
  - intros H p Hp%list_elem_of_In. apply elem_of_seqZ in Hp. apply H. lia.
Qed.

(** A paged block is charged only for what is resident: never more than the block's
    logical length, and exactly the length when every page of a bitmap that covers the
    block is present. *)
Theorem resident_bytes_bounded i ps present l :
  0 <= l -> 0 < ps -> 0 <= len present ->
  let r := resident_bytes (mkBlockMeta i (Paged ps present) l) in
  0 <= r <= Z.min l (len present * ps) /\
  (range_present present 0 (len present) = true -> l <= len present * ps -> r = l).
Proof.
  intros Hl Hp Hn r. pose proof (page_len_total l ps (Z.to_nat (len present)) Hl Hp) as Ht.
  rewrite Z2Nat.id in Ht by done.
  assert (forall x, 0 <= page_len l ps x) as Hnn by (intros; apply page_len_nonneg; lia).
  unfold r, resident_bytes. cbn [form blen]. unfold pages. rewrite Z.sub_0_r. splits.
  - generalize (filter (fun p => is_present present p = true) (seqZ 0 (len present))) as k.
    intros k. induction k as [|x k IH]; [done|]. rewrite fmap_cons. cbn [foldr]. specialize (Hnn x). lia.
  - rewrite <-Ht. by apply filter_sum_le.
  - intros Hall Hle. rewrite filter_all; [lia|]. intros p Hpp. unfold range_present, pages in Hall.
    rewrite Z.sub_0_r, forallb_forall in Hall. by apply Hall, list_elem_of_In.
Qed.

Lemma resident_bytes_bounded_witness :
  resident_bytes (mkBlockMeta (mkBlockId (mkObjectId S3 [] []) 0 4 [])
    (Paged 4 (set (set (new 2) 0) 1)) 7) = 7.
Proof.
  apply (resident_bytes_bounded _ 4 (set (set (new 2) 0) 1) 7);
    vm_compute; congruence.
Defined.

End Block.
