(* ===== verification/BTree.v ===== *)
(** [BTreeMap<u64, V>] of the standard library as a list sorted by key. *)

From S2P Require Import Prelude.

Module BTree.

Section Map.
Context {V : Type}.
Implicit Types (m : list (Z * V)) (k : Z) (v : V).

Fixpoint get k m : option V :=
  match m with
  | [] => None
  | (k', v) :: m => if k =? k' then Some v else get k m
  end.

(** [insert], which replaces the value of a present key. *)
Fixpoint put k v m : list (Z * V) :=
  match m with
  | [] => [(k, v)]
  | (k', v') :: m' => if k <? k' then (k, v) :: m else if k =? k' then (k, v) :: m' else (k', v') :: put k v m'
  end.

Fixpoint del k m : list (Z * V) :=
  match m with
  | [] => []
  | (k', v') :: m => if k =? k' then m else (k', v') :: del k m
  end.

(** [last_entry]: the greatest key. *)
Definition last_entry m : option (Z * V) := last m.

Definition sorted m : Prop := StronglySorted (fun a b => a.1 < b.1) m.

Lemma get_put k v m k' : get k' (put k v m) = if k' =? k then Some v else get k' m.
Proof.
  induction m as [|[k1 v1] m IH]; cbn; [done|].
  destruct (Z.ltb_spec k k1); [cbn; done|]. destruct (Z.eqb_spec k k1) as [->|]; cbn.
  - by destruct (Z.eqb_spec k' k1).
  - rewrite IH. destruct (Z.eqb_spec k' k1), (Z.eqb_spec k' k); subst; done.
Qed.

Lemma put_all (P : Z -> Prop) k v m : P k -> Forall (fun e => P e.1) m -> Forall (fun e => P e.1) (put k v m).
Proof.
  intros Hk. induction 1 as [|[k1 v1] m H1 Hm IH]; cbn; [by constructor|].
  destruct (k <? k1); [by repeat constructor|]. destruct (k =? k1); by constructor.
Qed.

Lemma put_sorted k v m : sorted m -> sorted (put k v m).
Proof.
  induction 1 as [|[k1 v1] m Hm IH Hall]; cbn; [by repeat constructor|].
  destruct (Z.ltb_spec k k1).
  - constructor; [by constructor|]. constructor; [done|]. eapply Forall_impl; [exact Hall|]. cbn. lia.
  - destruct (Z.eqb_spec k k1) as [->|]; [by constructor|]. constructor; [done|].
    apply (put_all (fun z => k1 < z)); [lia|done].
Qed.

Lemma del_all (P : Z * V -> Prop) k m : Forall P m -> Forall P (del k m).
Proof. induction 1 as [|[k1 v1] m H1 Hm IH]; cbn; [constructor|]. destruct (k =? k1); [done|by constructor]. Qed.

Lemma del_sorted k m : sorted m -> sorted (del k m).
Proof.
  induction 1 as [|[k1 v1] m Hm IH Hall]; cbn; [constructor|]. destruct (k =? k1); [done|].
  constructor; [done|]. by apply del_all.
Qed.

Lemma get_None k m : Forall (fun e => e.1 <> k) m -> get k m = None.
Proof. induction 1 as [|[k1 v1] m H1 Hm IH]; cbn in *; [done|]. destruct (Z.eqb_spec k k1); [congruence|done]. Qed.

Lemma get_del k k' m : sorted m -> get k (del k' m) = if k =? k' then None else get k m.
Proof.
  induction 1 as [|[k0 v0] m Hs IH Ha]; cbn [del get]; [by destruct (k =? k')|].
  destruct (Z.eqb_spec k' k0) as [->|Hne].
  - destruct (Z.eqb_spec k k0) as [->|]; [|done]. apply get_None. eapply Forall_impl; [exact Ha|]. cbn. lia.
  - cbn [get]. rewrite IH. destruct (Z.eqb_spec k k0) as [->|]; [|done]. by rewrite (proj2 (Z.eqb_neq _ _)).
Qed.

Lemma get_elem k v m : get k m = Some v -> (k, v) ∈ m.
Proof.
  induction m as [|[k1 v1] m IH]; cbn; [done|]. destruct (Z.eqb_spec k k1) as [->|]; [intros [= ->]; by left|right; auto].
Qed.

Lemma elem_get k v m : sorted m -> (k, v) ∈ m -> get k m = Some v.
Proof.
  induction 1 as [|[k1 v1] m Hm IH Hall]; intros He; [by apply elem_of_nil in He|]. cbn.
  apply elem_of_cons in He as [[= -> ->]|He]; [by rewrite Z.eqb_refl|].
  pose proof (proj1 (Forall_forall _ _) Hall _ He) as Hlt. cbn in Hlt. rewrite (proj2 (Z.eqb_neq _ _)) by lia. by apply IH.
Qed.

(** Keys beyond the last are appended. *)
Lemma put_last k v m : Forall (fun e => e.1 < k) m -> put k v m = m ++ [(k, v)].
Proof.
  induction 1 as [|[k1 v1] m H1 Hm IH]; cbn in *; [done|]. rewrite (proj2 (Z.ltb_ge _ _)), (proj2 (Z.eqb_neq _ _)) by lia. by rewrite IH.
Qed.

Lemma put_app k v v' m : Forall (fun e => e.1 < k) m -> put k v (m ++ [(k, v')]) = m ++ [(k, v)].
Proof.
  induction 1 as [|[k1 v1] m H1 Hm IH]; cbn in *; [by rewrite Z.ltb_irrefl, Z.eqb_refl|].
  rewrite (proj2 (Z.ltb_ge _ _)), (proj2 (Z.eqb_neq _ _)) by lia. by rewrite IH.
Qed.

Lemma get_app k v m : Forall (fun e => e.1 < k) m -> get k (m ++ [(k, v)]) = Some v.
Proof.
  induction 1 as [|[k1 v1] m H1 Hm IH]; cbn in *; [by rewrite Z.eqb_refl|]. by rewrite (proj2 (Z.eqb_neq _ _)) by lia.
Qed.

Lemma put_Forall (P : Z * V -> Prop) k v m : P (k, v) -> Forall P m -> Forall P (put k v m).
Proof.
  intros Hk. induction 1 as [|[k1 v1] m H1 Hm IH]; cbn; [by constructor|].
  destruct (k <? k1); [by repeat constructor|]. destruct (k =? k1); by constructor.
Qed.

Lemma elem_put x k v m : x ∈ put k v m -> x = (k, v) \/ x ∈ m.
Proof.
  induction m as [|[k1 v1] m IH]; cbn.
  - intros [->|Hx]%elem_of_cons; [by left|by apply elem_of_nil in Hx].
  - destruct (k <? k1); [|destruct (k =? k1)]; rewrite !elem_of_cons; tauto.
Qed.

Lemma elem_del x k m : x ∈ del k m -> x ∈ m.
Proof.
  induction m as [|[k1 v1] m IH]; cbn; [done|]. destruct (k =? k1); rewrite ?elem_of_cons; tauto.
Qed.

End Map.

Section Related.
Context {V W : Type} (R : V -> W -> Prop).

(** Maps with the same keys and related values. *)
Definition related (m : list (Z * V)) (n : list (Z * W)) : Prop := Forall2 (fun a b => a.1 = b.1 /\ R a.2 b.2) m n.

Lemma related_get m n k : related m n ->
  match get k m, get k n with Some v, Some w => R v w | None, None => True | _, _ => False end.
Proof.
  induction 1 as [|[k1 v] [k2 w] m n [Hk Hr] _ IH]; [done|]. cbn in *. subst. by destruct (k =? k2).
Qed.

Lemma related_put m n k v w : related m n -> R v w -> related (put k v m) (put k w n).
Proof.
  intros Hm Hr. induction Hm as [|[k1 v1] [k2 w1] m n [Hk Hr1] Hm IH]; cbn in *; [by repeat constructor|]. subst.
  destruct (k <? k2); [by repeat constructor|]. destruct (k =? k2); by constructor.
Qed.

Lemma related_del m n k : related m n -> related (del k m) (del k n).
Proof.
  induction 1 as [|[k1 v1] [k2 w1] m n [Hk Hr1] Hm IH]; cbn in *; [constructor|]. subst. destruct (k =? k2); [done|by constructor].
Qed.

End Related.

End BTree.
