(* ===== verification/PageTable.v ===== *)
(** The resident-page map (crates/talon-worker/src/page_table.rs): one page inline, a sorted array
    up to four, a B-tree beyond. It implements an ordered map, and its representation is a function
    of its contents. *)

From S2P Require Import Prelude External BTree.

Module PageTable.

Inductive PageMap (V : Type) :=
  | One (one : option (Z * V))
  | Few (few : list (Z * V))
  | Many (many : list (Z * V)).
Arguments One {V}.
Arguments Few {V}.
Arguments Many {V}.

#[export] Instance PageMap_eq_dec {V} `{EqDecision V} : EqDecision (PageMap V).
Proof. solve_decision. Defined.

Section Map.
Context {V : Type}.
Implicit Types (m : PageMap V) (l : list (Z * V)).

Definition empty : PageMap V := One None.

(** The first index whose key is not below [key]. *)
Fixpoint lower (key : Z) l : nat :=
  match l with
  | (k, _) :: l => if k <? key then S (lower key l) else 0%nat
  | [] => 0%nat
  end.

(** [binary_search_by_key] of an array sorted by key: [inl] found, [inr] where it belongs. *)
Definition binary_search (key : Z) l : nat + nat :=
  let i := lower key l in
  match l !! i with
  | Some (k, _) => if k =? key then inl i else inr i
  | None => inr i
  end.

Definition first_key_value m : option (Z * V) :=
  match m with One one => one | Few few => head few | Many many => head many end.

Definition last_key_value m : option (Z * V) :=
  match m with One one => one | Few few => last few | Many many => BTree.last_entry many end.

Definition len m : nat :=
  match m with One one => length (option_list one) | Few few => length few | Many many => length many end.

Definition is_empty m : bool := (len m =? 0)%nat.

Definition get m (key : Z) : option V :=
  match m with
  | One one => match one with Some (k, v) => if k =? key then Some v else None | None => None end
  | Few few => match binary_search key few with inl i => snd <$> few !! i | inr _ => None end
  | Many many => BTree.get key many
  end.

Definition contains_key m (key : Z) : bool := bool_decide (is_Some (get m key)).

(** The representation that has room for [key]. *)
Definition promote m (key : Z) : PageMap V :=
  let m := match m with
           | One (Some (old, v)) => if old =? key then m else Few [(old, v)]
           | _ => m
           end in
  match m with
  | Few few => if (length few =? 4)%nat && match binary_search key few with inr _ => true | inl _ => false end
               then Many few else m
  | _ => m
  end.

(** The new map and the value that was replaced. *)
Definition insert m (key : Z) (value : V) : PageMap V * option V :=
  match promote m key with
  | One None => (One (Some (key, value)), None)
  | One (Some (k, v)) => (One (Some (k, value)), Some v)
  | Few few =>
    match binary_search key few with
    | inl i => (Few (<[i := (key, value)]> few), snd <$> few !! i)
    | inr i => (Few (take i few ++ (key, value) :: drop i few), None)
    end
  | Many many => (Many (BTree.put key value many), BTree.get key many)
  end.

(** The smallest representation, after a removal. *)
Definition demote m : PageMap V :=
  let m := match m with
           | Many many => if (length many <=? 4)%nat then Few many else m
           | _ => m
           end in
  match m with
  | Few few => if (length few <=? 1)%nat then One (last few) else m
  | _ => m
  end.

Definition remove m (key : Z) : PageMap V * option V :=
  let '(m, removed) :=
    match m with
    | One one =>
      match one with
      | Some (k, v) => if k =? key then (One None, Some v) else (m, None)
      | None => (m, None)
      end
    | Few few =>
      match binary_search key few with
      | inl i => (Few (take i few ++ drop (S i) few), snd <$> few !! i)
      | inr _ => (m, None)
      end
    | Many many => (Many (BTree.del key many), BTree.get key many)
    end in
  (demote m, removed).

Definition iter m : list (Z * V) :=
  match m with One one => option_list one | Few few => few | Many many => many end.

(** [range((after, Unbounded))] *)
Definition range_after m (after : option Z) : list (Z * V) :=
  match after with Some a => filter (fun e => a < e.1) (iter m) | None => iter m end.

Definition keys m : list Z := fst <$> iter m.

Fixpoint extend m l : PageMap V :=
  match l with
  | [] => m
  | (k, v) :: l => extend (insert m k v).1 l
  end.

Definition from_iter l : PageMap V := extend empty l.

End Map.

(** ** Theorems *)

Section Theorems.
Context {V : Type}.
Implicit Types (m : PageMap V) (l : list (Z * V)).

(** The representation is the one for the number of pages, and the pages are in order. *)
Definition wf m : Prop :=
  BTree.sorted (iter m) /\
  match m with One _ => True | Few few => (2 <= length few <= 4)%nat | Many many => (5 <= length many)%nat end.

Lemma wf_empty : wf (empty : PageMap V).
Proof. split; [constructor|done]. Qed.

(** Two tables with the same pages are equal. *)
Lemma iter_inj m m' : wf m -> wf m' -> iter m = iter m' -> m = m'.
Proof.
  intros [_ H1] [_ H2] E. pose proof (f_equal length E) as El.
  destruct m as [[o|]|f|f], m' as [[o'|]|f'|f']; cbn in *; try congruence; lia.
Qed.

Lemma lower_split key l : BTree.sorted l ->
  Forall (fun e => e.1 < key) (take (lower key l) l) /\ Forall (fun e => key <= e.1) (drop (lower key l) l).
Proof.
  induction 1 as [|[k v] l Hs IH Hall]; cbn; [split; constructor|]. destruct (Z.ltb_spec k key); cbn.
  - destruct IH as [IH1 IH2]. split; [by constructor|done].
  - split; [constructor|]. constructor; [done|]. eapply Forall_impl; [exact Hall|]. cbn. lia.
Qed.

Lemma put_split l1 l2 key (v : V) : Forall (fun e => e.1 < key) l1 -> Forall (fun e => key < e.1) l2 ->
  BTree.put key v (l1 ++ l2) = l1 ++ (key, v) :: l2 /\ BTree.get key (l1 ++ l2) = None /\ BTree.del key (l1 ++ l2) = l1 ++ l2.
Proof.
  intros H1 H2. induction H1 as [|[k w] l1 Hk _ IH]; cbn in *.
  - destruct H2 as [|[k w] l2 Hk H2]; cbn in *; [done|].
    rewrite (proj2 (Z.ltb_lt _ _)), (proj2 (Z.eqb_neq _ _)) by lia. splits; [done| |].
    + apply BTree.get_None. eapply Forall_impl; [exact H2|]. cbn. lia.
    + f_equal. clear -H2. induction H2 as [|[k' w'] l Hk' _ IH]; cbn in *; [done|].
      rewrite (proj2 (Z.eqb_neq _ _)) by lia. by rewrite IH.
  - destruct IH as (IH1 & IH2 & IH3). rewrite (proj2 (Z.ltb_ge _ _)), (proj2 (Z.eqb_neq _ _)) by lia.
    splits; congruence.
Qed.

Lemma put_found l1 l2 key (v w : V) : Forall (fun e => e.1 < key) l1 ->
  BTree.put key v (l1 ++ (key, w) :: l2) = l1 ++ (key, v) :: l2 /\
  BTree.get key (l1 ++ (key, w) :: l2) = Some w /\ BTree.del key (l1 ++ (key, w) :: l2) = l1 ++ l2.
Proof.
  intros H1. induction H1 as [|[k x] l1 Hk _ IH]; cbn in *.
  - by rewrite Z.ltb_irrefl, Z.eqb_refl.
  - destruct IH as (IH1 & IH2 & IH3). rewrite (proj2 (Z.ltb_ge _ _)), (proj2 (Z.eqb_neq _ _)) by lia. splits; congruence.
Qed.

(** The search decides membership, with the place. *)
Lemma search_ok key l : BTree.sorted l ->
  match binary_search key l with
  | inl i => exists l1 w l2, l = l1 ++ (key, w) :: l2 /\ i = length l1 /\ Forall (fun e => e.1 < key) l1
  | inr i => exists l1 l2, l = l1 ++ l2 /\ i = length l1 /\ Forall (fun e => e.1 < key) l1 /\ Forall (fun e => key < e.1) l2
  end.
Proof.
  intros Hs. destruct (lower_split key l Hs) as [H1 H2]. unfold binary_search.
  assert (lower key l <= length l)%nat as Hle by (clear; induction l as [|[k v] l IH]; cbn; [lia|]; destruct (k <? key); lia).
  assert (length (take (lower key l) l) = lower key l) as Hlen by (rewrite length_take; lia).
  destruct (l !! lower key l) as [[k w]|] eqn:E.
  - rewrite (drop_S _ _ _ E) in H2. apply Forall_cons in H2 as [Hk H2]. cbn in Hk. destruct (Z.eqb_spec k key) as [->|Hne].
    + exists (take (lower key l) l), w, (drop (S (lower key l)) l). splits; [|done|done]. symmetry. by apply take_drop_middle.
    + exists (take (lower key l) l), (drop (lower key l) l). splits; [by rewrite take_drop|done|done|].
      rewrite (drop_S _ _ _ E). pose proof Hs as Hs'. rewrite <-(take_drop_middle _ _ _ E) in Hs'.
      apply StronglySorted_app_inv in Hs' as (_ & Hs' & _). inv Hs'. constructor; [cbn; lia|].
      eapply Forall_impl; [eassumption|]. cbn. lia.
  - apply lookup_ge_None in E. exists l, []. rewrite take_ge in H1 by lia. splits; [by rewrite app_nil_r|lia|done|constructor].
Qed.

Lemma page_get_ok m key : wf m -> get m key = BTree.get key (iter m).
Proof.
  intros [Hs Hw]. destruct m as [[[k v]|]|few|many]; cbn in *; try done.
  - rewrite Z.eqb_sym. by destruct (k =? key).
  - pose proof (search_ok key few Hs) as Hb. destruct (binary_search key few) as [i|i].
    + destruct Hb as (l1 & w & l2 & -> & -> & H1). rewrite lookup_app_r, Nat.sub_diag by lia. cbn.
      by destruct (put_found l1 l2 key w w H1) as (_ & -> & _).
    + destruct Hb as (l1 & l2 & -> & _ & H1 & H2). symmetry.
      destruct l2 as [|[k v] l2]; [apply BTree.get_None|].
      * rewrite app_nil_r. eapply Forall_impl; [exact H1|]. cbn. lia.
      * apply (put_split l1 ((k, v) :: l2) key v H1 H2).
Qed.

Lemma wf_Many l : BTree.sorted l -> (5 <= length l)%nat -> wf (Many l).
Proof. by split. Qed.

Lemma page_insert_ok m key value : wf m ->
  wf (insert m key value).1 /\ iter (insert m key value).1 = BTree.put key value (iter m) /\
  (insert m key value).2 = BTree.get key (iter m).
Proof.
  intros [Hs Hw]. pose proof (BTree.put_sorted key value _ Hs) as Hs'. unfold insert, promote.
  destruct m as [[[k v]|]|few|many]; cbn [iter option_list] in *.
  - destruct (Z.eqb_spec k key) as [->|Hne]; cbn.
    + rewrite Z.ltb_irrefl, Z.eqb_refl. splits; [|done|done]. split; [repeat constructor|done].
    + unfold binary_search. cbn [lower]. destruct (Z.ltb_spec k key) as [Hlt|Hge]; cbn.
      * rewrite (proj2 (Z.ltb_ge key k)), !(proj2 (Z.eqb_neq key k)) by lia. splits; [|done|done]. split; [|cbn; lia].
        cbn. repeat constructor. exact Hlt.
      * rewrite (proj2 (Z.eqb_neq k key)), (proj2 (Z.ltb_lt key k)), (proj2 (Z.eqb_neq key k)) by lia. cbn. splits; [|done|done].
        split; [|cbn; lia]. repeat constructor. cbn. lia.
  - cbn. splits; [|done|done]. split; [repeat constructor|done].
  - pose proof (search_ok key few Hs) as Hb. destruct (binary_search key few) as [i|i] eqn:Es.
    + rewrite andb_false_r, Es. destruct Hb as (l1 & w & l2 & -> & -> & H1).
      destruct (put_found l1 l2 key value w H1) as (Hp & Hg & _). rewrite Hp in *. rewrite Hg. cbn [fst snd iter].
      rewrite insert_app_r_alt, Nat.sub_diag by lia. cbn [insert list_insert].
      splits; [|done|by rewrite lookup_app_r, Nat.sub_diag by lia]. split; [done|].
      rewrite !length_app in *. cbn in *. done.
    + destruct Hb as (l1 & l2 & -> & -> & H1 & H2). destruct (put_split l1 l2 key value H1 H2) as (Hp & Hg & _).
      rewrite andb_true_r. destruct (Nat.eqb_spec (length (l1 ++ l2)) 4) as [E4|Hn4].
      * cbn [fst snd iter]. splits; [|done|done]. apply wf_Many; [done|]. rewrite Hp. rewrite length_app in *. cbn. lia.
      * rewrite Es. cbn [fst snd iter]. rewrite take_app_length, drop_app_length, Hp, Hg in *. splits; [|done|done].
        split; [done|]. rewrite !length_app in *. cbn. lia.
  - cbn [fst snd iter]. splits; [|done|done]. apply wf_Many; [done|]. clear -Hw.
    enough (length many <= length (BTree.put key value many))%nat by lia. clear.
    induction many as [|[k v] l IH]; cbn; [lia|]. destruct (key <? k); cbn; [lia|]. destruct (key =? k); cbn; lia.
Qed.

Lemma demote_ok m : BTree.sorted (iter m) -> (match m with One _ => True | Few few => (length few <= 4)%nat | Many _ => True end) ->
  wf (demote m) /\ iter (demote m) = iter m.
Proof.
  intros Hs Hw. unfold demote.
  assert (forall l, BTree.sorted l -> (length l <= 4)%nat ->
    wf (if (length l <=? 1)%nat then One (last l) else Few l) /\ iter (if (length l <=? 1)%nat then One (last l) else Few l) = l) as Hfew.
  { intros l Hl Hn. destruct (Nat.leb_spec (length l) 1) as [H1|H1].
    - destruct l as [|e [|]]; cbn in *; [..|lia]; (split; [split|]; [repeat constructor|done|done]).
    - split; [|done]. split; [done|]. lia. }
  destruct m as [one|few|many]; cbn [iter] in *; [by split|by apply Hfew|].
  destruct (Nat.leb_spec (length many) 4); [by apply Hfew|]. split; [|done]. apply wf_Many; [done|lia].
Qed.

Lemma page_remove_ok m key : wf m ->
  wf (remove m key).1 /\ iter (remove m key).1 = BTree.del key (iter m) /\ (remove m key).2 = BTree.get key (iter m).
Proof.
  intros [Hs Hw]. pose proof (BTree.del_sorted key _ Hs) as Hs'. unfold remove.
  destruct m as [[[k v]|]|few|many]; cbn [iter option_list] in *.
  - cbn. rewrite (Z.eqb_sym key k). destruct (k =? key); cbn; splits; try done; apply wf_empty.
  - cbn. splits; [|done|done]. apply wf_empty.
  - pose proof (search_ok key few Hs) as Hb. destruct (binary_search key few) as [i|i].
    + destruct Hb as (l1 & w & l2 & -> & -> & H1). destruct (put_found l1 l2 key w w H1) as (_ & Hg & Hd). rewrite Hd in *. rewrite Hg.
      rewrite take_app_length, lookup_app_r, Nat.sub_diag by lia.
      replace (drop (S (length l1)) (l1 ++ (key, w) :: l2)) with l2
        by (rewrite drop_app_ge by lia; replace (S (length l1) - length l1)%nat with 1%nat by lia; done).
      cbn [fst snd]. destruct (demote_ok (Few (l1 ++ l2))) as [Hw' Hi]; [done|rewrite length_app in *; cbn in *; lia|]. splits; [done|done|done].
    + destruct Hb as (l1 & l2 & -> & -> & H1 & H2). cbn [fst snd].
      destruct (demote_ok (Few (l1 ++ l2))) as [Hw' Hi]; [done|lia|]. splits; [done| |].
      * rewrite Hi. destruct l2 as [|[k v] l2].
        -- rewrite app_nil_r in *. clear -H1. induction H1 as [|[k v] l1 Hk _ IH]; cbn in *; [done|].
           rewrite (proj2 (Z.eqb_neq _ _)) by lia. by rewrite <-IH.
        -- symmetry. apply (put_split l1 ((k, v) :: l2) key v H1 H2).
      * symmetry. apply BTree.get_None. apply Forall_app. split; (eapply Forall_impl; [eassumption|]); cbn; lia.
  - cbn [fst snd]. destruct (demote_ok (Many (BTree.del key many))) as [Hw' Hi]; [done|done|]. splits; [done|done|done].
Qed.

Lemma len_ok m : len m = length (iter m).
Proof. by destruct m as [[|]| |]. Qed.

Lemma first_ok m : first_key_value m = head (iter m).
Proof. by destruct m as [[|]| |]. Qed.

Lemma last_ok m : last_key_value m = last (iter m).
Proof. by destruct m as [[|]| |]. Qed.

Lemma extend_ok m l : wf m -> wf (extend m l) /\ iter (extend m l) = foldl (fun c e => BTree.put e.1 e.2 c) (iter m) l.
Proof.
  revert m. induction l as [|[k v] l IH]; intros m Hm; [done|]. cbn [extend foldl fst snd].
  destruct (page_insert_ok m k v Hm) as (Hw & Hi & _). rewrite <-Hi. by apply IH.
Qed.

(** Sorted pages beyond the last are appended. *)
Lemma extend_sorted m l : wf m -> BTree.sorted (iter m ++ l) -> wf (extend m l) /\ iter (extend m l) = iter m ++ l.
Proof.
  intros Hm Hs. destruct (extend_ok m l Hm) as [Hw ->]. split; [done|]. clear Hw Hm.
  generalize dependent (iter m). induction l as [|[k v] l IH]; intros c Hs; cbn [foldl fst snd]; [by rewrite app_nil_r|].
  rewrite BTree.put_last, IH; [by rewrite <-app_assoc|by rewrite <-app_assoc|].
  apply StronglySorted_app_inv in Hs as (_ & _ & Hlt). apply Forall_forall. intros e He. exact (Hlt e (k, v) He ltac:(by left)).
Qed.

(** ** Any sequence of operations *)

Inductive Op := OInsert (key : Z) (value : V) | ORemove (key : Z).

Definition step (m : PageMap V) (o : Op) : PageMap V * option V :=
  match o with OInsert k v => insert m k v | ORemove k => remove m k end.

Definition step_spec (l : list (Z * V)) (o : Op) : list (Z * V) * option V :=
  match o with
  | OInsert k v => (BTree.put k v l, BTree.get k l)
  | ORemove k => (BTree.del k l, BTree.get k l)
  end.

Fixpoint run (m : PageMap V) (os : list Op) : PageMap V * list (option V) :=
  match os with
  | [] => (m, [])
  | o :: os => let '(m, r) := step m o in let '(m, rs) := run m os in (m, r :: rs)
  end.

Fixpoint run_spec (l : list (Z * V)) (os : list Op) : list (Z * V) * list (option V) :=
  match os with
  | [] => (l, [])
  | o :: os => let '(l, r) := step_spec l o in let '(l, rs) := run_spec l os in (l, r :: rs)
  end.

Lemma run_ok os m : wf m -> wf (run m os).1 /\ (iter (run m os).1, (run m os).2) = run_spec (iter m) os.
Proof.
  revert m. induction os as [|o os IH]; intros m Hm; [done|]. cbn [run run_spec].
  assert (wf (step m o).1 /\ (iter (step m o).1, (step m o).2) = step_spec (iter m) o) as [Hw E].
  { destruct o as [k v|k]; cbn [step step_spec].
    - destruct (page_insert_ok m k v Hm) as (? & -> & ->). done.
    - destruct (page_remove_ok m k Hm) as (? & -> & ->). done. }
  destruct (step m o) as [m1 r]. cbn [fst snd] in *. rewrite <-E. destruct (IH m1 Hw) as [Hw' E'].
  destruct (run m1 os) as [m2 rs]. cbn [fst snd] in *. by rewrite <-E'.
Qed.

(** The page table is an ordered map whose representation depends only on its contents. After
    any insertions and removals its iteration, lookups, size and returned values are those of a
    sorted association list, and two histories that leave the same pages leave equal tables. *)
Theorem page_map_refines os os' :
  let m := (run empty os).1 in
  (iter m, (run empty os).2) = run_spec [] os /\
  (forall k, get m k = BTree.get k (iter m)) /\ len m = length (iter m) /\
  first_key_value m = head (iter m) /\ last_key_value m = last (iter m) /\
  (iter (run empty os').1 = iter m -> (run empty os').1 = m).
Proof.
  intros m. destruct (run_ok os empty wf_empty) as [Hw E]. destruct (run_ok os' empty wf_empty) as [Hw' _]. fold m in Hw, E.
  splits; [exact E|intros k; by apply page_get_ok|apply len_ok|apply first_ok|apply last_ok|]. by apply iter_inj.
Qed.

End Theorems.

End PageTable.
