(* ===== verification/SmallKey.v ===== *)
(** Identities of small objects: crates/talon-worker/src/block_key.rs,
    small_store/key.rs, the on-disk key of small_store/format.rs and the in-memory key of
    small_store/key_codec.rs. *)

From S2P Require Import Prelude External Bytes Key.

Module SmallKey.
Import Bytes Key.

(** ** Packed block keys (block_key.rs) *)

(** The three strings share one allocation. *)
Record BlockKey := mkBlockKey {
  text : str; bucket_end : nat; path_end : nat; k_offset : Z; k_block_size : Z; k_backend : Backend
}.

Definition BlockKey_new (id : BlockId) : BlockKey :=
  let text := bucket (object id) in
  let bucket_end := length text in
  let text := text ++ object_path (object id) in
  let path_end := length text in
  mkBlockKey (text ++ version id) bucket_end path_end (offset id) (block_size id) (backend (object id)).

Definition BlockKey_view (k : BlockKey) : BlockId :=
  mkBlockId
    (mkObjectId (k_backend k) (take (bucket_end k) (text k))
       (slice (bucket_end k) (path_end k - bucket_end k) (text k)))
    (k_offset k) (k_block_size k) (drop (path_end k) (text k)).

(** ** Small keys (key.rs) *)

Inductive UnitKind := Whole | ExactRange | Page (page : Z).

#[export] Instance UnitKind_eq_dec : EqDecision UnitKind.
Proof. solve_decision. Defined.

Record SmallKey := mkSmallKey { block : BlockId; kind : UnitKind }.

#[export] Instance SmallKey_eq_dec : EqDecision SmallKey.
Proof. solve_decision. Defined.

Definition MAX_EXACT_READ_LEN : Z := Z.shiftl 1 20.

Definition valid_extent (k : SmallKey) (len : Z) : bool :=
  match kind k with
  | Whole => (offset (block k) =? 0) && (0 <? len) && (len <? block_size (block k))
  | ExactRange =>
    (0 <? len) && (len <=? MAX_EXACT_READ_LEN) && (len =? block_size (block k)) &&
    bool_decide (is_Some (checked_add 64 (offset (block k)) len))
  | Page _ => false
  end.

(** ** The on-disk key (format.rs) *)

Definition MAX_KEY : Z := 64 * 1024.

Definition invalid (message : string) : io_error := InvalidData message.

Definition slen (x : str) : Z := Z.of_nat (length x).

Definition key_len (k : SmallKey) : Z :=
  25 + slen (bucket (object (block k))) + slen (object_path (object (block k))) + slen (version (block k)).

Definition validate_key (k : SmallKey) : result io_error unit :=
  match kind k with
  | Page _ => Err (invalid "page is not a small-store key")
  | _ => if MAX_KEY <? key_len k then Err (invalid "small object key too long") else Ok tt
  end.

Definition backend_tag (b : Backend) : Z := match b with S3 => 0 | Gcs => 1 | Azure => 2 end.

Definition encode_string (x : str) : list byte := le_bytes 4 (wrap 32 (slen x)) ++ x.

Definition encode_key (out : list byte) (k : SmallKey) : result io_error (list byte) :=
  validate_key k ;;
  let id := block k in
  let tag := match kind k with ExactRange => 128 | _ => 0 end in
  Ok (out ++ [byte_of (Z.lor tag (backend_tag (backend (object id))))] ++
      le_bytes 8 (offset id) ++ le_bytes 4 (block_size id) ++
      encode_string (bucket (object id)) ++ encode_string (object_path (object id)) ++
      encode_string (version id)).

(** The closure [string]. *)
Definition read_string (b : list byte) : result io_error (str * list byte) :=
  '(len, b) ← read_le 4 b;
  let n := Z.to_nat len in
  if (length b <? n)%nat then Err (invalid "small object key length")
  else if utf8 (take n b) then Ok (take n b, drop n b)
  else Err (invalid "small object key UTF-8").

Definition view (b : list byte) : result io_error SmallKey :=
  if MAX_KEY <? slen b then Err (invalid "small object key too long") else
  '(tag, b) ← read_exact 1 b;
  let tag := byte_val (default x00 (head tag)) in
  let exact := negb (Z.land tag 128 =? 0) in
  be ← (if Z.land tag 127 =? 0 then Ok S3
        else if Z.land tag 127 =? 1 then Ok Gcs
        else if Z.land tag 127 =? 2 then Ok Azure
        else Err (invalid "small object backend"));
  '(off, b) ← read_le 8 b;
  '(size, b) ← read_le 4 b;
  '(bucket, b) ← read_string b;
  '(path, b) ← read_string b;
  '(version, b) ← read_string b;
  if negb (length b =? 0)%nat then Err (invalid "small object key trailing bytes")
  else Ok (mkSmallKey (mkBlockId (mkObjectId be bucket path) off size version)
             (if exact then ExactRange else Whole)).

(** ** The in-memory key (key_codec.rs)

    Strings end in a doubled zero byte, so that keys compare like paths. A panic is [None]. *)

Fixpoint field_body (x : list byte) : list byte :=
  match x with
  | [] => []
  | b :: x => (if bool_decide (b = x00) then [x00; xff] else [b]) ++ field_body x
  end.

Definition field (x : str) : list byte := field_body x ++ [x00; x00].

(** The bytes of a field and the rest; an input that ends inside a field ends it. *)
Fixpoint unfield_bytes (input : list byte) : option (list byte * list byte) :=
  match input with
  | [] => Some ([], [])
  | b :: input =>
    if bool_decide (b = x00) then
      match input with
      | [] => None
      | tag :: input =>
        if bool_decide (tag = x00) then Some ([], input)
        else '(out, rest) ← unfield_bytes input; Some (b :: out, rest)
      end
    else '(out, rest) ← unfield_bytes input; Some (b :: out, rest)
  end.

Definition unfield (input : list byte) : option (str * list byte) :=
  '(out, rest) ← unfield_bytes input;
  if utf8 out then Some (out, rest) else None.

Definition is_hex_digit (b : byte) : bool := between 48 57 b || between 97 102 b.

Definition hex (v : str) : bool := (Z.of_nat (length v) mod 2 =? 0) && forallb is_hex_digit v.

Definition digit (b : byte) : Z := if byte_val b <=? 57 then byte_val b - 48 else byte_val b - 97 + 10.

Fixpoint pack (v : list byte) : list byte :=
  match v with
  | a :: b :: v => byte_of (digit a * 16 + digit b) :: pack v
  | _ => []
  end.

Definition HEX : list byte := String.list_byte_of_string "0123456789abcdef".

Definition hex_digit (n : Z) : byte := default x00 (HEX !! Z.to_nat n).

Definition unpack (l : list byte) : list byte :=
  l ≫= fun b => [hex_digit (byte_val b / 16); hex_digit (byte_val b mod 16)].

Definition encode (k : SmallKey) : list byte :=
  let id := block k in
  let h := hex (version id) in
  let tag := Z.lor (Z.lor (Z.lor (backend_tag (backend (object id)))
               (match kind k with ExactRange => 128 | _ => 0 end))
               (if offset id =? 0 then 0 else 64))
               (if h then 32 else 0) in
  field (bucket (object id)) ++ field (object_path (object id)) ++
  [byte_of tag] ++ le_bytes 4 (block_size id) ++
  (if offset id =? 0 then [] else le_bytes 8 (offset id)) ++
  (if h then pack (version id) else version id).

Definition take_opt (n : nat) (b : list byte) : option (list byte * list byte) :=
  if (length b <? n)%nat then None else Some (take n b, drop n b).

Definition decode (input : list byte) : option SmallKey :=
  '(bucket, input) ← unfield input;
  '(path, input) ← unfield input;
  tag ← byte_val <$> head input;
  be ← (if Z.land tag 31 =? 0 then Some S3 else if Z.land tag 31 =? 1 then Some Gcs
        else if Z.land tag 31 =? 2 then Some Azure else None);
  '(head5, input) ← take_opt 5 input;
  let size := le_val (drop 1 head5) in
  '(off, input) ← (if Z.land tag 64 =? 0 then Some (0, input)
                   else '(x, input) ← take_opt 8 input; Some (le_val x, input));
  let version := if Z.land tag 32 =? 0 then input else unpack input in
  if utf8 version then
    Some (mkSmallKey (mkBlockId (mkObjectId be bucket path) off size version)
            (if Z.land tag 128 =? 0 then Whole else ExactRange))
  else None.

(** ** Theorems *)

Lemma view_new id : BlockKey_view (BlockKey_new id) = id.
Proof.
  unfold BlockKey_view, BlockKey_new. destruct id as [[be bu pa] off size ver].
  cbn [text bucket_end path_end k_offset k_block_size k_backend object bucket object_path version backend offset block_size].
  rewrite length_app, drop_app_length', (take_app_le (bu ++ pa)) by len. do 2 f_equal.
  - by rewrite take_app_length.
  - rewrite <-app_assoc. apply slice_app_exact; [done|lia].
Qed.

(** The values of the Rust type. *)
Record key_valid (k : SmallKey) : Prop := {
  kv_offset : is_u64 (offset (block k));
  kv_size : is_u32 (block_size (block k));
  kv_bucket : utf8 (bucket (object (block k))) = true;
  kv_path : utf8 (object_path (object (block k))) = true;
  kv_version : utf8 (version (block k)) = true
}.

(** Keys the store accepts. *)
Definition key_ok (k : SmallKey) : Prop := key_valid k /\ validate_key k = Ok tt.

Lemma validate_key_ok k : validate_key k = Ok tt <-> (forall p, kind k <> Page p) /\ key_len k <= MAX_KEY.
Proof.
  unfold validate_key. destruct (kind k) as [| |p]; destruct (Z.ltb_spec MAX_KEY (key_len k)) as [Hl|Hl]; split; intros E;
    try discriminate; try (split; [intros; discriminate|done]); try reflexivity; try (destruct E; lia);
    destruct E as [E _]; by destruct (E p).
Qed.

Lemma read_string_app x rest :
  utf8 x = true -> slen x < 2 ^ 32 -> read_string (encode_string x ++ rest) = Ok (x, rest).
Proof.
  intros Hu Hl. unfold read_string, encode_string. rewrite wrap_small by (unfold is_u, slen in *; lia).
  rewrite <-app_assoc, read_le_app by (unfold slen in *; lia). cbn [mbind result_bind].
  replace (Z.to_nat (slen x)) with (length x) by (unfold slen; lia).
  rewrite length_app, (proj2 (Nat.ltb_ge _ _)) by lia. by rewrite take_app_length, drop_app_length, Hu.
Qed.

Lemma read_string_inv b x rest :
  read_string b = Ok (x, rest) -> b = encode_string x ++ rest /\ utf8 x = true.
Proof.
  unfold read_string. intros E. apply bind_ok_inv in E as ([n r] & Hn & E).
  apply read_le_inv in Hn as [-> Hn]. destruct (Nat.ltb_spec (length r) (Z.to_nat n)) as [|Hl]; [done|].
  destruct (utf8 (take _ r)) eqn:Hu; [|done]. inv_ok. split; [|done]. unfold encode_string, slen.
  rewrite length_take, Nat.min_l, Z2Nat.id, wrap_small by (unfold is_u; lia).
  by rewrite <-app_assoc, take_drop.
Qed.

Lemma length_encode_string x : length (encode_string x) = (4 + length x)%nat.
Proof. unfold encode_string. len. Qed.

Definition disk_tag (k : SmallKey) : Z :=
  Z.lor (match kind k with ExactRange => 128 | _ => 0 end) (backend_tag (backend (object (block k)))).

(** The bytes of a valid key. *)
Definition key_bytes (k : SmallKey) : list byte :=
  let id := block k in
  [byte_of (disk_tag k)] ++ le_bytes 8 (offset id) ++ le_bytes 4 (block_size id) ++
  encode_string (bucket (object id)) ++ encode_string (object_path (object id)) ++ encode_string (version id).

Lemma encode_key_spec out k :
  encode_key out k = (fun _ => out ++ key_bytes k) <$> validate_key k.
Proof. unfold encode_key. by destruct (validate_key k) as [[]|]. Qed.

Lemma length_key_bytes k : slen (key_bytes k) = key_len k.
Proof. unfold key_bytes, key_len, slen. rewrite !length_app, !length_encode_string. len. Qed.

(** The backend of a tag, as the reader takes it. *)
Definition tag_backend (t : Z) : result io_error Backend :=
  if t =? 0 then Ok S3 else if t =? 1 then Ok Gcs else if t =? 2 then Ok Azure
  else Err (invalid "small object backend").

Lemma tag_backend_inv t be : tag_backend t = Ok be -> t = backend_tag be.
Proof.
  unfold tag_backend. destruct (Z.eqb_spec t 0); [by intros [= <-]|]. destruct (Z.eqb_spec t 1); [by intros [= <-]|].
  destruct (Z.eqb_spec t 2); [by intros [= <-]|done].
Qed.

Lemma byte_tag_split b t :
  Z.land (byte_val b) 127 = t -> t < 32 ->
  byte_val b = Z.lor (if Z.land (byte_val b) 128 =? 0 then 0 else 128) t.
Proof. intros <-. destruct b; vm_compute; intros E; first [reflexivity | discriminate E]. Qed.

Lemma view_key_bytes k : key_ok k -> view (key_bytes k) = Ok k.
Proof.
  intros [[Ho Hs Hb Hp Hv] Hk]. pose proof Hk as [Hpage Hlen]%validate_key_ok.
  assert (slen (bucket (object (block k))) < 2 ^ 32 /\ slen (object_path (object (block k))) < 2 ^ 32 /\
    slen (version (block k)) < 2 ^ 32) as (Hb' & Hp' & Hv') by (unfold key_len, MAX_KEY, slen in *; lia).
  unfold view. rewrite length_key_bytes, (proj2 (Z.ltb_ge _ _)) by done. unfold key_bytes.
  rewrite read_exact_app by done. cbn [mbind result_bind head default id].
  rewrite byte_val_of. replace (disk_tag k mod 256) with (disk_tag k)
    by (unfold disk_tag; by destruct (kind k), (backend (object (block k)))).
  destruct k as [[[be bu pa] off size ver] kd]. unfold disk_tag.
  cbn [block kind object bucket object_path version offset block_size backend] in *.
  destruct kd as [| |p]; [| |by destruct (Hpage p)]; destruct be; cbn [backend_tag Z.lor Z.land Z.eqb negb mbind result_bind];
    rewrite read_le_app by (unfold is_u in *; lia); cbn [mbind result_bind];
    rewrite read_le_app by (unfold is_u in *; lia); cbn [mbind result_bind];
    rewrite read_string_app by done; cbn [mbind result_bind]; rewrite read_string_app by done;
    cbn [mbind result_bind]; rewrite <-(app_nil_r (encode_string ver)), read_string_app by done; reflexivity.
Qed.

Lemma view_inv b k : view b = Ok k -> key_ok k /\ b = key_bytes k.
Proof.
  unfold view. destruct (Z.ltb_spec MAX_KEY (slen b)) as [|Hlen]; [done|]. intros E.
  apply bind_ok_inv in E as ([t r] & (-> & Ht)%read_exact_inv & E).
  destruct t as [|t [|]]; try discriminate Ht. cbn [head default id] in E.
  apply bind_ok_inv in E as (be & Hbe & E). fold (tag_backend (Z.land (byte_val t) 127)) in Hbe.
  apply tag_backend_inv in Hbe.
  apply bind_ok_inv in E as ([off r1] & (-> & Hoff)%read_le_inv & E).
  apply bind_ok_inv in E as ([size r2] & (-> & Hsize)%read_le_inv & E).
  apply bind_ok_inv in E as ([bu r3] & (-> & Hbu)%read_string_inv & E).
  apply bind_ok_inv in E as ([pa r4] & (-> & Hpa)%read_string_inv & E).
  apply bind_ok_inv in E as ([ver r5] & (-> & Hver)%read_string_inv & E).
  destruct r5 as [|]; [|done]. cbn [length Nat.eqb negb] in E. rewrite app_nil_r in *.
  pose proof (byte_tag_split t _ Hbe ltac:(by destruct be)) as Htag.
  set (k0 := mkSmallKey _ _) in E. assert (k0 = k) as <- by congruence. clear E.
  assert (key_bytes k0 = [t] ++ le_bytes 8 off ++ le_bytes 4 size ++ encode_string bu ++ encode_string pa ++ encode_string ver) as Hbytes.
  { unfold key_bytes. do 2 f_equal. cbn [block k0 disk_tag kind object backend]. rewrite <-(byte_of_val t). f_equal.
    rewrite Htag. by destruct (Z.land (byte_val t) 128 =? 0). }
  split; [|done]. split.
  - split; cbn [block k0 object bucket object_path version offset block_size]; unfold is_u; try done; lia.
  - apply validate_key_ok. rewrite <-length_key_bytes, Hbytes. split; [|done].
    intros p. cbn [kind k0]. by destruct (negb _).
Qed.

(** The on-disk decoder accepts exactly the encodings of the keys the store takes. *)
Lemma view_iff b k : key_valid k -> view b = Ok k <-> encode_key [] k = Ok b.
Proof.
  intros Hv. rewrite encode_key_spec. split.
  - intros [[_ Hk] ->]%view_inv. by rewrite Hk.
  - destruct (validate_key k) as [[]|] eqn:Hk; [|done]. cbn. intros [= <-]. by apply view_key_bytes.
Qed.

(** *** The in-memory key *)

Lemma unfield_field_bytes x rest : unfield_bytes (field x ++ rest) = Some (x, rest).
Proof.
  unfold field. induction x as [|b x IH]; [done|]. cbn [field_body].
  destruct (decide (b = x00)) as [->|Hb].
  - rewrite bool_decide_true by done. cbn [app unfield_bytes]. rewrite bool_decide_true, bool_decide_false by done.
    by rewrite IH.
  - rewrite bool_decide_false by done. cbn [app unfield_bytes]. rewrite bool_decide_false by done. by rewrite IH.
Qed.

Lemma unfield_field x rest : utf8 x = true -> unfield (field x ++ rest) = Some (x, rest).
Proof. intros Hu. unfold unfield. rewrite unfield_field_bytes. cbn. by rewrite Hu. Qed.

Lemma hex_digits a b :
  is_hex_digit a = true -> is_hex_digit b = true ->
  hex_digit (byte_val (byte_of (digit a * 16 + digit b)) / 16) = a /\
  hex_digit (byte_val (byte_of (digit a * 16 + digit b)) mod 16) = b.
Proof.
  assert (forall a, is_hex_digit a = true -> 0 <= digit a < 16 /\ hex_digit (digit a) = a) as Hd.
  { intros [] E; vm_compute in E; first [discriminate E | by vm_compute]. }
  intros [Ha Ea]%Hd [Hb Eb]%Hd. rewrite byte_val_of, Z.mod_small by lia.
  rewrite Z.div_add_l, (Z.div_small (digit b)), Z.add_0_r by lia.
  by rewrite Z.add_comm, Z.mod_add, Z.mod_small by lia.
Qed.

Lemma unpack_pack v : hex v = true -> unpack (pack v) = v.
Proof.
  unfold hex. intros [He Hd]%andb_prop. apply Z.eqb_eq in He. remember (length v) as n eqn:En.
  revert v En He Hd. induction n as [n IH] using lt_wf_ind. intros [|a [|b v]] -> He Hd; [done|simpl in He; by vm_compute in He|].
  cbn [forallb] in Hd. apply andb_prop in Hd as [Ha Hd]. apply andb_prop in Hd as [Hb Hd].
  destruct (hex_digits a b Ha Hb) as [E1 E2]. cbn [pack]. unfold unpack in *. cbn [mbind list_bind app].
  rewrite E1, E2. do 2 f_equal. apply (IH (length v)); [simpl; lia|done| |done].
  cbn [length] in He. rewrite <-He. replace (Z.of_nat (S (S (length v)))) with (Z.of_nat (length v) + 1 * 2) by lia.
  by rewrite Z.mod_add.
Qed.

(** The tag byte. *)
Definition memory_tag (k : SmallKey) : Z :=
  Z.lor (Z.lor (Z.lor (backend_tag (backend (object (block k))))
    (match kind k with ExactRange => 128 | _ => 0 end))
    (if offset (block k) =? 0 then 0 else 64))
    (if hex (version (block k)) then 32 else 0).

Lemma memory_tag_bits k : (forall p, kind k <> Page p) ->
  byte_val (byte_of (memory_tag k)) = memory_tag k /\
  Z.land (memory_tag k) 31 = backend_tag (backend (object (block k))) /\
  (Z.land (memory_tag k) 64 =? 0) = (offset (block k) =? 0) /\
  (Z.land (memory_tag k) 32 =? 0) = negb (hex (version (block k))) /\
  (if Z.land (memory_tag k) 128 =? 0 then Whole else ExactRange) = kind k.
Proof.
  intros Hp. unfold memory_tag. destruct (kind k) as [| |p] eqn:Ek; [| |by destruct (Hp p)];
    destruct (backend (object (block k))), (offset (block k) =? 0), (hex (version (block k))); by vm_compute.
Qed.

Lemma take_opt_app x rest n : length x = n -> take_opt n (x ++ rest) = Some (x, rest).
Proof.
  intros <-. unfold take_opt. rewrite length_app, (proj2 (Nat.ltb_ge _ _)) by lia.
  by rewrite take_app_length, drop_app_length.
Qed.

Lemma decode_encode k : key_valid k -> (forall p, kind k <> Page p) -> decode (encode k) = Some k.
Proof.
  intros [Ho Hs Hb Hp Hv] Hpage. destruct (memory_tag_bits k Hpage) as (Ht & Hbe & Hoff & Hhex & Hkind).
  unfold encode, decode. cbv zeta. fold (memory_tag k).
  rewrite unfield_field by done. cbn [mbind option_bind]. rewrite unfield_field by done.
  cbn [mbind option_bind app head fmap option_fmap option_map]. rewrite Ht, Hbe, Hoff, Hhex, Hkind.
  set (rest := (if offset (block k) =? 0 then [] else le_bytes 8 (offset (block k))) ++
    (if hex (version (block k)) then pack (version (block k)) else version (block k))).
  assert ((if backend_tag (backend (object (block k))) =? 0 then Some S3 else
    if backend_tag (backend (object (block k))) =? 1 then Some Gcs else
    if backend_tag (backend (object (block k))) =? 2 then Some Azure else None) = Some (backend (object (block k)))) as ->
    by by destruct (backend (object (block k))).
  cbn [mbind option_bind].
  change (byte_of (memory_tag k) :: le_bytes 4 (block_size (block k)) ++ rest)
    with ((byte_of (memory_tag k) :: le_bytes 4 (block_size (block k))) ++ rest).
  rewrite take_opt_app by (cbn [length]; by rewrite length_le_bytes). cbn [mbind option_bind skipn].
  rewrite drop_0, le_val_le_bytes by (unfold is_u in Hs; lia).
  assert ((if offset (block k) =? 0 then Some (0, rest)
    else '(x, input) ← take_opt 8 rest; Some (le_val x, input)) =
    Some (offset (block k), if hex (version (block k)) then pack (version (block k)) else version (block k))) as ->.
  { unfold rest. destruct (Z.eqb_spec (offset (block k)) 0) as [->|]; [done|].
    rewrite take_opt_app by apply length_le_bytes. cbn [mbind option_bind]. by rewrite le_val_le_bytes by (unfold is_u in Ho; lia). }
  cbn [mbind option_bind].
  assert ((if negb (hex (version (block k))) then if hex (version (block k)) then pack (version (block k)) else version (block k)
    else unpack (if hex (version (block k)) then pack (version (block k)) else version (block k))) = version (block k)) as ->.
  { destruct (hex (version (block k))) eqn:Eh; [by apply unpack_pack|done]. }
  rewrite Hv. by destruct k as [[[] ? ? ?] ?].
Qed.

(** the compact in-memory key of a small object is a lossless encoding: decoding returns
    the identity, without a panic, so that two objects share a key only when they are the same. *)
Theorem codec_lossless k k' :
  key_valid k -> key_valid k' -> validate_key k = Ok tt -> validate_key k' = Ok tt ->
  decode (encode k) = Some k /\ (encode k = encode k' -> k = k').
Proof.
  intros Hk Hk' [Hp _]%validate_key_ok [Hp' _]%validate_key_ok. split; [by apply decode_encode|].
  intros E. pose proof (decode_encode k Hk Hp) as H1. rewrite E, (decode_encode k' Hk' Hp') in H1. congruence.
Qed.

(** The on-disk key decoder accepts a byte string exactly when it is the encoding of a key
    the store takes, and returns that key. *)
Theorem view_canonical b k : view b = Ok k <-> key_ok k /\ encode_key [] k = Ok b.
Proof.
  split.
  - intros Hv. pose proof (view_inv b k Hv) as [[Hk Hval] _]. split; [done|]. by apply view_iff.
  - intros [[Hk _] He]. by apply view_iff.
Qed.

Definition example_key : SmallKey :=
  mkSmallKey (mkBlockId (mkObjectId Azure (s "bucket") (s "a/b")) 4096 1024 (s "00abcdef")) ExactRange.

Lemma codec_lossless_witness :
  decode (encode example_key) = Some example_key /\ (encode example_key = encode example_key -> example_key = example_key).
Proof.
  assert (key_valid example_key) as Hv by (split; vm_compute; intuition congruence).
  refine (codec_lossless example_key example_key Hv Hv _ _); reflexivity.
Defined.

End SmallKey.
