(* ===== verification/SmallKeys.v ===== *)
(** The compressed key table of a small-object segment (crates/talon-worker/src/small_store/keys.rs).

    Keys live in one byte buffer; a sealed table shares common prefixes between the keys that
    profit from it, chosen bottom-up over the trie of the sorted keys, and keeps only row
    boundaries. A panic of the code ([unwrap], exhausted fuel) is [None]. *)

From S2P Require Import Prelude External.

Module SmallKeys.

Definition U32_MAX : Z := 2 ^ 32 - 1.

(** [x as u32] of a length. *)
Definition as_u32 (n : nat) : nat := Z.to_nat (wrap 32 (Z.of_nat n)).

Definition blen (b : list byte) : Z := Z.of_nat (length b).

(** [Vec::get] at a [u32] index. *)
Definition get_u32 {A} (l : list A) (i : Z) : option A :=
  if i <? Z.of_nat (length l) then l !! Z.to_nat i else None.

Record Span := mkSpan { sp_offset : nat; sp_len : nat }.

Definition Span_default : Span := mkSpan 0 0.

Definition Span_get (s : Span) (bytes : list byte) : list byte := slice (sp_offset s) (sp_len s) bytes.

Definition Span_append (bytes key : list byte) : result io_error (Span * list byte) :=
  if U32_MAX <? blen bytes + blen key then Err (OtherError "small-object key buffer overflow")
  else Ok (mkSpan (as_u32 (length bytes)) (as_u32 (length key)), bytes ++ key).

Record Keys := mkKeys {
  rows : list Span; offsets : list nat; suffixes : list byte; prefix_ids : list Z;
  prefixes : list Span; prefix_bytes : list byte; garbage : nat
}.

Definition Keys_default : Keys := mkKeys [] [] [] [] [] [] 0.

Definition is_nil {A} (l : list A) : bool := match l with [] => true | _ => false end.

Definition get (k : Keys) (row : nat) : option (list byte * list byte) :=
  span ← (if is_nil (offsets k) then rows k !! row
          else end_ ← offsets k !! S row; offset ← offsets k !! row; Some (mkSpan offset (end_ - offset)));
  let prefix := id ← prefix_ids k !! row; get_u32 (prefixes k) id in
  Some (match prefix with Some p => Span_get p (prefix_bytes k) | None => [] end, Span_get span (suffixes k)).

Definition unwrap {E A} (r : result E A) : option A := match r with Ok a => Some a | Err _ => None end.

(** *** Repacking *)

(** [windows(2)] of the boundaries. *)
Fixpoint spans (offsets : list nat) : list Span :=
  match offsets with
  | a :: (b :: _) as rest => mkSpan a (b - a) :: spans rest
  | _ => []
  end.

Fixpoint freeze_rows (rows : list Span) (src : list byte) (offsets : list nat) (out : list byte)
    : list nat * list byte :=
  match rows with
  | [] => (offsets ++ [as_u32 (length out)], out)
  | r :: rows => freeze_rows rows src (offsets ++ [as_u32 (length out)]) (out ++ Span_get r src)
  end.

Definition freeze (k : Keys) : Keys :=
  let '(offsets, suffixes) := freeze_rows (rows k) (suffixes k) [] [] in
  mkKeys [] offsets suffixes (prefix_ids k) (prefixes k) (prefix_bytes k) 0.

(** One row of [retain]: the new table and the new numbers of the old prefixes. *)
Definition retain_row (k : Keys) (compressed : bool) (row : nat) (st : Keys * list Z) : option (Keys * list Z) :=
  let '(next, renumber) := st in
  '(prefix, suffix) ← get k row;
  '(span, suffixes) ← unwrap (Span_append (suffixes next) suffix);
  let next := mkKeys (rows next ++ [span]) (offsets next) suffixes (prefix_ids next) (prefixes next)
                (prefix_bytes next) (garbage next) in
  if compressed then
    old ← prefix_ids k !! row;
    if old =? U32_MAX then
      Some (mkKeys (rows next) (offsets next) (SmallKeys.suffixes next) (prefix_ids next ++ [U32_MAX])
              (prefixes next) (prefix_bytes next) (garbage next), renumber)
    else
      id ← get_u32 renumber old;
      if id =? U32_MAX then
        let id := Z.of_nat (length (prefixes next)) in
        '(span, bytes) ← unwrap (Span_append (prefix_bytes next) prefix);
        Some (mkKeys (rows next) (offsets next) (SmallKeys.suffixes next) (prefix_ids next ++ [id])
                (prefixes next ++ [span]) bytes (garbage next), <[Z.to_nat old := id]> renumber)
      else
        Some (mkKeys (rows next) (offsets next) (SmallKeys.suffixes next) (prefix_ids next ++ [id])
                (prefixes next) (prefix_bytes next) (garbage next), renumber)
  else Some (next, renumber).

Fixpoint retain_rows (k : Keys) (compressed : bool) (keep : nat -> bool) (row n : nat) (st : Keys * list Z)
    : option (Keys * list Z) :=
  match n with
  | O => Some st
  | S n =>
    if keep row then st ← retain_row k compressed row st; retain_rows k compressed keep (S row) n st
    else retain_rows k compressed keep (S row) n st
  end.

Definition length_rows (k : Keys) : nat :=
  if is_nil (offsets k) then length (rows k) else (length (offsets k) - 1)%nat.

Definition retain (k : Keys) (keep : nat -> bool) : option Keys :=
  let sealed := negb (is_nil (offsets k)) in
  let compressed := negb (is_nil (prefix_ids k)) in
  '(next, _) ← retain_rows k compressed keep 0 (length_rows k)
                 (Keys_default, replicate (length (prefixes k)) U32_MAX);
  Some (if sealed then freeze next else next).

Definition insert_at {A} (row : nat) (x : A) (l : list A) : list A := take row l ++ x :: drop row l.

Definition unfreeze (k : Keys) : Keys :=
  if is_nil (offsets k) then k
  else mkKeys (spans (offsets k)) [] (suffixes k) (prefix_ids k) (prefixes k) (prefix_bytes k) (garbage k).

Definition insert (k : Keys) (row : nat) (key : list byte) (replace : bool) : option (result io_error Keys) :=
  let k := unfreeze k in
  k ← (if (length (suffixes k) / 2 <? garbage k)%nat || (U32_MAX <? blen (suffixes k) + blen key)
       then retain k (fun _ => true) else Some k);
  match Span_append (suffixes k) key with
  | Err e => Some (Err e)
  | Ok (span, suffixes) =>
    if replace then
      old ← rows k !! row;
      Some (Ok (mkKeys (<[row := span]> (rows k)) [] suffixes
        (if is_nil (prefix_ids k) then prefix_ids k else <[row := U32_MAX]> (prefix_ids k))
        (prefixes k) (prefix_bytes k) (garbage k + sp_len old)))
    else
      if (length (rows k) <? row)%nat then None else
      Some (Ok (mkKeys (insert_at row span (rows k)) [] suffixes
        (if is_nil (prefix_ids k) then prefix_ids k else insert_at row U32_MAX (prefix_ids k))
        (prefixes k) (prefix_bytes k) (garbage k)))
  end.

Definition remove (k : Keys) (row : nat) : option Keys :=
  if negb (is_nil (offsets k)) then Some k else
  old ← rows k !! row;
  Some (mkKeys (<[row := Span_default]> (rows k)) [] (suffixes k)
    (if is_nil (prefix_ids k) then prefix_ids k else <[row := U32_MAX]> (prefix_ids k))
    (prefixes k) (prefix_bytes k) (garbage k + sp_len old)).

(** *** Sealing *)

(** Lexicographic order of byte strings. *)
Fixpoint bytes_leb (a b : list byte) : bool :=
  match a, b with
  | [], _ => true
  | _ :: _, [] => false
  | x :: a, y :: b => (byte_val x <? byte_val y) || (byte_val x =? byte_val y) && bytes_leb a b
  end.

Definition row_key (k : Keys) (row : nat) : list byte :=
  match rows k !! row with Some s => Span_get s (suffixes k) | None => [] end.

Definition row_le (k : Keys) (a b : nat) : Prop := bytes_leb (row_key k a) (row_key k b) = true.

#[export] Instance row_le_dec k a b : Decision (row_le k a b).
Proof. unfold row_le. apply _. Defined.

Definition sorted_rows (k : Keys) : list nat := merge_sort (row_le k) (seq 0 (length (rows k))).

Record Group := mkGroup { g_start : nat; g_end : nat; g_prefix : nat }.

Inductive Work :=
  | Visit (start end_ : nat)
  | Finish (group : Group) (mark cost_mark whole : nat).

Fixpoint common (a b : list byte) : nat :=
  match a, b with
  | x :: a, y :: b => if bool_decide (x = y) then S (common a b) else 0%nat
  | _, _ => 0%nat
  end.

Definition SPAN_SIZE : nat := 8.

(** The runs of equal symbols in [i, j + n), of which [i, j) is known to be one. *)
Fixpoint children (symbol : nat -> option byte) (i j n : nat) : list (nat * nat) :=
  match n with
  | O => [(i, j)]
  | S n =>
    if bool_decide (symbol j = symbol i) then children symbol i (S j) n
    else (i, j) :: children symbol j (S j) n
  end.

Definition total_len (key : nat -> list byte) (start end_ : nat) : nat :=
  sum_list_with (fun i => length (key i)) (seq start (end_ - start)).

(** One item of the work list. [key i] is the key of the [i]-th row in sorted order. *)
Definition group_step (key : nat -> list byte) (item : Work) (work : list Work)
    (groups : list Group) (costs : list nat) : list Work * list Group * list nat :=
  match item with
  | Finish group mark cost_mark whole =>
    let children := sum_list (drop cost_mark costs) in
    let costs := take cost_mark costs in
    if (whole <=? children)%nat
    then (work, take mark groups ++ [group], costs ++ [Nat.min whole children])
    else (work, groups, costs ++ [Nat.min whole children])
  | Visit start end_ =>
    let first := key start in
    let last := key (end_ - 1)%nat in
    let prefix := common first last in
    let total := total_len key start end_ in
    let shared := (prefix + SPAN_SIZE + total - (end_ - start) * prefix)%nat in
    if (end_ - start =? 1)%nat || bool_decide (first = last) then
      (work, groups ++ [mkGroup start end_ (if (shared <? total)%nat then prefix else 0%nat)],
       costs ++ [Nat.min shared total])
    else
      let visits := (fun c => Visit c.1 c.2) <$>
        children (fun i => key i !! prefix) start (S start) (end_ - start - 1) in
      (reverse visits ++
       Finish (mkGroup start end_ prefix) (length groups) (length costs)
         (if (prefix =? 0)%nat then total else shared) :: work, groups, costs)
  end.

Fixpoint group_loop (fuel : nat) (key : nat -> list byte) (work : list Work) (groups : list Group)
    (costs : list nat) : option (list Group) :=
  match work with
  | [] => Some groups
  | item :: work =>
    match fuel with
    | O => None
    | S fuel =>
      let '(work, groups, costs) := group_step key item work groups costs in
      group_loop fuel key work groups costs
    end
  end.

Definition groups (k : Keys) (order : list nat) : option (list Group) :=
  group_loop (3 * length order) (fun i => row_key k (default 0%nat (order !! i))) [Visit 0 (length order)] [] [].

(** The rows of a group, without its prefix. *)
Fixpoint compress_rows (k : Keys) (prefix : nat) (prefix_id : Z) (group : list nat) (next : Keys) : option Keys :=
  match group with
  | [] => Some next
  | row :: group =>
    '(span, suffixes) ← unwrap (Span_append (suffixes next) (drop prefix (row_key k row)));
    compress_rows k prefix prefix_id group
      (mkKeys (<[row := span]> (rows next)) [] suffixes (<[row := prefix_id]> (prefix_ids next))
         (prefixes next) (prefix_bytes next) 0)
  end.

Definition compress_group (k : Keys) (order : list nat) (g : Group) (next : Keys) : option Keys :=
  let rows_of := slice (g_start g) (g_end g - g_start g) order in
  if (g_prefix g =? 0)%nat then compress_rows k 0 U32_MAX rows_of next
  else
    first ← order !! g_start g;
    '(span, bytes) ← unwrap (Span_append (prefix_bytes next) (take (g_prefix g) (row_key k first)));
    compress_rows k (g_prefix g) (Z.of_nat (length (prefixes next))) rows_of
      (mkKeys (rows next) [] (suffixes next) (prefix_ids next) (prefixes next ++ [span]) bytes 0).

Fixpoint compress_groups (k : Keys) (order : list nat) (gs : list Group) (next : Keys) : option Keys :=
  match gs with
  | [] => Some next
  | g :: gs => next ← compress_group k order g next; compress_groups k order gs next
  end.

Definition compressed_size (k : Keys) (order : list nat) (gs : list Group) : nat :=
  sum_list_with g_prefix gs + length (filter (fun g => g_prefix g <> 0%nat) gs) * SPAN_SIZE +
  sum_list_with (fun g => sum_list_with (fun row => (length (row_key k row) - g_prefix g)%nat)
                            (slice (g_start g) (g_end g - g_start g) order)) gs +
  length (rows k) * 4.

Definition compress (k : Keys) : option Keys :=
  if is_nil (rows k) || negb (is_nil (prefix_ids k)) then Some k else
  k ← (if (garbage k =? 0)%nat then Some k else retain k (fun _ => true));
  let order := sorted_rows k in
  gs ← groups k order;
  if (length (suffixes k) <=? compressed_size k order gs)%nat then Some k else
  compress_groups k order gs
    (mkKeys (replicate (length (rows k)) Span_default) [] [] (replicate (length (rows k)) U32_MAX) [] [] 0).

Definition seal (k : Keys) : option Keys :=
  if is_nil (offsets k) then freeze <$> compress k else Some k.

End SmallKeys.
