(* ===== verification/SmallTable.v ===== *)
(** The compressed key table stores what was inserted: every row reads back its key, through
    replacement, deletion, repacking, prefix sharing and freezing, without a panic. *)

From S2P Require Import Prelude External SmallKeys.

Module SmallTable.
Import SmallKeys.

(** ** The invariant *)

Definition in_range (bytes : list byte) (s : Span) : Prop := (sp_offset s + sp_len s <= length bytes)%nat.

Definition sum_len (l : list Span) : nat := sum_list_with sp_len l.

(** Every byte of the buffers is in a row, in a prefix or garbage. *)
Record uwf (k : Keys) : Prop := {
  u_offsets : offsets k = [];
  u_rows : Forall (in_range (suffixes k)) (rows k);
  u_sum : (sum_len (rows k) + garbage k = length (suffixes k))%nat;
  u_suffixes : blen (suffixes k) <= U32_MAX;
  u_ids : prefix_ids k = [] \/ length (prefix_ids k) = length (rows k);
  u_id : Forall (fun id => id = U32_MAX \/ 0 <= id < Z.of_nat (length (prefixes k))) (prefix_ids k);
  u_prefixes : Forall (fun s => in_range (prefix_bytes k) s /\ (0 < sp_len s)%nat) (prefixes k);
  u_psum : sum_len (prefixes k) = length (prefix_bytes k);
  u_pbytes : blen (prefix_bytes k) <= U32_MAX
}.

(** Row boundaries of a sealed table. *)
Definition sealed_ok (k : Keys) : Prop :=
  offsets k = [] \/ rows k = [] /\ garbage k = 0%nat.

Definition wf (k : Keys) : Prop := uwf (unfreeze k) /\ sealed_ok k.

Definition key_at (k : Keys) (row : nat) : option (list byte) := (fun ps => ps.1 ++ ps.2) <$> get k row.

(** The rows of [k] hold the keys [l]. *)
Definition holds (k : Keys) (l : list (list byte)) : Prop :=
  length_rows k = length l /\ forall row x, l !! row = Some x -> key_at k row = Some x.

Definition prefix_at (k : Keys) (row : nat) : list byte :=
  match id ← prefix_ids k !! row; get_u32 (prefixes k) id with
  | Some p => Span_get p (prefix_bytes k)
  | None => []
  end.

(** *** Spans *)

Lemma as_u32_small n : Z.of_nat n <= U32_MAX -> as_u32 n = n.
Proof. intros Hn. unfold as_u32, U32_MAX in *. rewrite wrap_small; [lia|]. unfold is_u. lia. Qed.

Lemma Span_get_app s b c : in_range b s -> Span_get s (b ++ c) = Span_get s b.
Proof. intros Hr. unfold Span_get. by apply slice_app_l. Qed.

Lemma in_range_app s b c : in_range b s -> in_range (b ++ c) s.
Proof. unfold in_range. rewrite length_app. lia. Qed.

Lemma length_Span_get s b : in_range b s -> length (Span_get s b) = sp_len s.
Proof. intros Hr. by apply length_slice. Qed.

Lemma Span_append_ok b x :
  blen b + blen x <= U32_MAX ->
  Span_append b x = Ok (mkSpan (length b) (length x), b ++ x) /\
  in_range (b ++ x) (mkSpan (length b) (length x)) /\
  Span_get (mkSpan (length b) (length x)) (b ++ x) = x.
Proof.
  intros Hl. unfold Span_append, blen in *. rewrite (proj2 (Z.ltb_ge _ _)), !as_u32_small by lia. splits; [done| |].
  - unfold in_range. cbn. rewrite length_app. lia.
  - unfold Span_get. cbn. rewrite <-(app_nil_r x) at 2. by apply slice_app_exact.
Qed.

Lemma Span_append_inv b x s b' :
  Span_append b x = Ok (s, b') -> blen b + blen x <= U32_MAX /\ s = mkSpan (length b) (length x) /\ b' = b ++ x.
Proof.
  unfold Span_append. destruct (Z.ltb_spec U32_MAX (blen b + blen x)) as [|Hl]; [done|]. intros E. inv_ok.
  unfold blen in Hl. rewrite !as_u32_small by lia. splits; [unfold blen; lia|done|done].
Qed.

Lemma sum_len_app l l' : sum_len (l ++ l') = (sum_len l + sum_len l')%nat.
Proof. unfold sum_len. by rewrite sum_list_with_app. Qed.

Lemma sum_len_insert l i s s' :
  l !! i = Some s -> (sum_len (<[i := s']> l) + sp_len s = sum_len l + sp_len s')%nat.
Proof.
  intros Hi. rewrite insert_take_drop by by eapply lookup_lt_Some.
  assert (sum_len l = sum_len (take i l ++ s :: drop (S i) l)) as -> by by rewrite take_drop_middle.
  rewrite !sum_len_app. unfold sum_len. cbn. lia.
Qed.

Lemma length_le_sum (l : list Span) : Forall (fun s => (0 < sp_len s)%nat) l -> (length l <= sum_len l)%nat.
Proof. induction 1 as [|s l Hs _ IH]; unfold sum_len in *; cbn in *; lia. Qed.

(** *** Reading rows *)

Lemma spans_lookup offs row :
  spans offs !! row = (end_ ← offs !! S row; offset ← offs !! row; Some (mkSpan offset (end_ - offset))).
Proof.
  revert row. induction offs as [|a offs IH]; intros row; [done|]. destruct offs as [|b offs].
  - cbn. by rewrite lookup_nil.
  - destruct row as [|row]; [done|]. cbn [spans lookup list_lookup]. rewrite IH. done.
Qed.

Lemma length_spans offs : length (spans offs) = (length offs - 1)%nat.
Proof.
  induction offs as [|a offs IH]; [done|]. destruct offs as [|b offs]; [done|].
  cbn [spans length] in *. rewrite IH. lia.
Qed.

Lemma get_unfreeze k row : get (unfreeze k) row = get k row.
Proof. unfold unfreeze. destruct (offsets k) eqn:E; [done|]. unfold get. cbn [offsets is_nil rows suffixes prefix_ids prefixes prefix_bytes]. by rewrite E, spans_lookup. Qed.

Lemma length_unfreeze k : length_rows (unfreeze k) = length_rows k.
Proof. unfold unfreeze, length_rows. destruct (offsets k) eqn:E; cbn [is_nil]; [by rewrite E|]. cbn [offsets is_nil rows]. by rewrite length_spans. Qed.

Lemma key_at_unfreeze k row : key_at (unfreeze k) row = key_at k row.
Proof. unfold key_at. by rewrite get_unfreeze. Qed.

Lemma holds_unfreeze k l : holds (unfreeze k) l <-> holds k l.
Proof. unfold holds. rewrite length_unfreeze. by setoid_rewrite key_at_unfreeze. Qed.

(** Unsealed tables. *)
Lemma get_u k row : offsets k = [] -> get k row = (fun s => (prefix_at k row, Span_get s (suffixes k))) <$> rows k !! row.
Proof. intros E. unfold get, prefix_at. rewrite E. cbn [is_nil]. by destruct (rows k !! row). Qed.

Lemma key_at_u k row : offsets k = [] -> key_at k row = (fun s => prefix_at k row ++ Span_get s (suffixes k)) <$> rows k !! row.
Proof. intros E. unfold key_at. rewrite get_u by done. by destruct (rows k !! row). Qed.

Lemma uwf_wf k : uwf k -> wf k.
Proof.
  intros Hu. split; [|left; apply Hu]. unfold unfreeze. by rewrite (u_offsets k Hu).
Qed.

Lemma wf_default : wf Keys_default.
Proof. apply uwf_wf. split; cbn; try done; try (by constructor); by left. Qed.

(** ** Freezing *)

Fixpoint bounds (a : nat) (parts : list (list byte)) : list nat :=
  match parts with
  | [] => [a]
  | p :: parts => a :: bounds (a + length p) parts
  end.

Lemma bounds_cons a parts : exists l, bounds a parts = a :: l.
Proof. destruct parts; cbn; eauto. Qed.

Lemma freeze_rows_spec rs src offs out :
  blen out + blen (concat ((fun s => Span_get s src) <$> rs)) <= U32_MAX ->
  freeze_rows rs src offs out =
  (offs ++ bounds (length out) ((fun s => Span_get s src) <$> rs), out ++ concat ((fun s => Span_get s src) <$> rs)).
Proof.
  revert offs out. induction rs as [|r rs IH]; intros offs out Hl; cbn [freeze_rows fmap list_fmap concat bounds] in *;
    unfold blen in *; rewrite as_u32_small by lia.
  - by rewrite app_nil_r.
  - rewrite length_app in Hl. rewrite IH by (rewrite length_app; unfold blen; lia). by rewrite length_app, <-!app_assoc.
Qed.

Lemma spans_bounds a parts pre :
  length pre = a -> Forall2 (fun s p => Span_get s (pre ++ concat parts) = p /\ in_range (pre ++ concat parts) s /\
    sp_len s = length p) (spans (bounds a parts)) parts.
Proof.
  revert a pre. induction parts as [|p parts IH]; intros a pre Ha; [constructor|].
  cbn [bounds]. destruct (bounds_cons (a + length p) parts) as [l El]. rewrite El.
  change (spans (a :: (a + length p)%nat :: l)) with (mkSpan a (a + length p - a) :: spans ((a + length p)%nat :: l)).
  rewrite <-El. constructor.
  - cbn [concat]. unfold in_range, Span_get. cbn [sp_offset sp_len].
    replace (a + length p - a)%nat with (length p) by lia. rewrite !length_app. splits; [|lia|done].
    by apply slice_app_exact.
  - cbn [concat]. rewrite app_assoc. apply IH. rewrite length_app. lia.
Qed.

Lemma concat_sum (parts : list (list byte)) ss :
  Forall2 (fun s p => sp_len s = length p) ss parts -> sum_len ss = length (concat parts).
Proof.
  induction 1 as [|s p ss parts Hs _ IH]; [done|]. unfold sum_len in *. cbn. rewrite length_app. lia.
Qed.

Lemma parts_sum k : uwf k ->
  length (concat ((fun s => Span_get s (suffixes k)) <$> rows k)) = sum_len (rows k).
Proof.
  intros Hu. symmetry. apply concat_sum. pose proof (u_rows k Hu) as Hr.
  induction Hr as [|s l Hs _ IH]; constructor; [|done]. symmetry. by apply length_Span_get.
Qed.

Lemma freeze_ok k l : uwf k -> holds k l -> wf (freeze k) /\ holds (freeze k) l /\ offsets (freeze k) <> [].
Proof.
  intros Hu [Hn Hh]. unfold freeze. pose proof (parts_sum k Hu) as Hps. pose proof (u_sum k Hu) as Hsum.
  pose proof (u_suffixes k Hu) as Hsuf. unfold blen in Hsuf.
  set (parts := (fun s => Span_get s (suffixes k)) <$> rows k) in *.
  rewrite freeze_rows_spec by (fold parts; unfold blen; cbn [length]; lia). fold parts. cbn [app length].
  destruct (bounds_cons 0 parts) as [bs Eb]. pose proof (spans_bounds 0 parts [] eq_refl) as Hsp. cbn [app] in Hsp.
  assert (length (spans (bounds 0 parts)) = length (rows k)) as Hlen.
  { rewrite (Forall2_length _ _ _ Hsp). unfold parts. apply length_fmap. }
  set (k' := mkKeys [] (bounds 0 parts) (concat parts) (prefix_ids k) (prefixes k) (prefix_bytes k) 0).
  assert (unfreeze k' = mkKeys (spans (bounds 0 parts)) [] (concat parts) (prefix_ids k) (prefixes k) (prefix_bytes k) 0) as Hun.
  { unfold unfreeze, k'. cbn [offsets]. rewrite Eb. cbn [is_nil]. done. }
  splits; [split; [|by right]| |unfold k'; cbn [offsets]; by rewrite Eb].
  - rewrite Hun. destruct Hu as [H1 H2 H3 H4 H5 H6 H7 H8 H9]. split; cbn; try done.
    + apply Forall_lookup. intros i s Hi. destruct (Forall2_lookup_l _ _ _ _ _ Hsp Hi) as (p & _ & _ & Hr & _). done.
    + rewrite Nat.add_0_r. apply concat_sum. eapply Forall2_impl; [exact Hsp|]. by intros s p (_ & _ & ?).
    + unfold blen. lia.
    + by rewrite Hlen.
  - apply holds_unfreeze. rewrite Hun. split.
    + unfold length_rows in *. cbn. rewrite Hlen. by rewrite (u_offsets k Hu) in Hn.
    + intros row x Hx. specialize (Hh row x Hx). rewrite key_at_u in Hh |- * by (done || apply Hu). cbn [rows].
      apply fmap_Some in Hh as (s & Hs & ->).
      assert (parts !! row = Some (Span_get s (suffixes k))) as Hp by (unfold parts; by rewrite list_lookup_fmap, Hs).
      destruct (Forall2_lookup_r _ _ _ _ _ Hsp Hp) as (s' & -> & Hs' & _). cbn. by rewrite Hs'.
Qed.

(** ** Adding a row *)

Lemma get_u32_lookup {A} (l : list A) i : get_u32 l (Z.of_nat i) = l !! i.
Proof.
  unfold get_u32. destruct (Z.ltb_spec (Z.of_nat i) (Z.of_nat (length l))); [by rewrite Nat2Z.id|].
  symmetry. apply lookup_ge_None. lia.
Qed.

Lemma get_u32_prefix {A} (l l' : list A) i x : l `prefix_of` l' -> 0 <= i -> get_u32 l i = Some x -> get_u32 l' i = Some x.
Proof.
  intros Hp Hi. rewrite <-(Z2Nat.id i) by done. rewrite !get_u32_lookup.
  intros E. by eapply prefix_lookup_Some.
Qed.

Lemma prefixes_le k : uwf k -> (length (prefixes k) <= length (prefix_bytes k))%nat.
Proof.
  intros Hu. rewrite <-(u_psum k Hu). apply length_le_sum.
  eapply Forall_impl; [apply (u_prefixes k Hu)|]. by intros s [_ ?].
Qed.

Lemma get_u32_max k : uwf k -> get_u32 (prefixes k) U32_MAX = None.
Proof.
  intros Hu. unfold get_u32. rewrite (proj2 (Z.ltb_ge _ _)); [done|].
  pose proof (prefixes_le k Hu). pose proof (u_pbytes k Hu) as Hb. unfold blen in Hb. lia.
Qed.

(** The prefix table of [k] may be extended: rows keep their prefixes. *)
Lemma prefix_at_extend k k' row :
  uwf k -> uwf k' -> prefixes k `prefix_of` prefixes k' -> prefix_bytes k `prefix_of` prefix_bytes k' ->
  prefix_ids k' !! row = prefix_ids k !! row -> prefix_at k' row = prefix_at k row.
Proof.
  intros Hu Hu' Hp Hb Hid. unfold prefix_at. rewrite Hid. destruct (prefix_ids k !! row) as [id|] eqn:Ei; [|done]. cbn [mbind option_bind].
  destruct (Forall_lookup_1 _ _ _ _ (u_id k Hu) Ei) as [->|Hid'].
  - by rewrite !get_u32_max.
  - destruct (lookup_lt_is_Some_2 (prefixes k) (Z.to_nat id)) as [p Hpi]; [lia|].
    assert (get_u32 (prefixes k) id = Some p) as E1.
    { rewrite <-(Z2Nat.id id) by lia. by rewrite get_u32_lookup. }
    rewrite E1. rewrite (get_u32_prefix _ (prefixes k') id p Hp) by (done || lia).
    destruct Hb as [t ->]. apply Span_get_app. 
    by destruct (Forall_lookup_1 _ _ _ _ (u_prefixes k Hu) Hpi).
Qed.

(** What is known of a row's prefix. *)
Definition id_reads (ps : list Span) (pb : list byte) (id : Z) (prefix : list byte) : Prop :=
  id = U32_MAX /\ prefix = [] \/
  0 <= id < Z.of_nat (length ps) /\ exists p, get_u32 ps id = Some p /\ Span_get p pb = prefix.

Lemma push_row k m suffix prefix ids ps pb :
  uwf k -> holds k m -> blen (suffixes k) + blen suffix <= U32_MAX ->
  prefixes k `prefix_of` ps -> prefix_bytes k `prefix_of` pb ->
  Forall (fun s => in_range pb s /\ (0 < sp_len s)%nat) ps -> sum_len ps = length pb -> blen pb <= U32_MAX ->
  (ids = [] /\ prefix_ids k = [] /\ prefix = [] \/
   exists id, length (prefix_ids k) = length (rows k) /\ ids = prefix_ids k ++ [id] /\ id_reads ps pb id prefix) ->
  let k' := mkKeys (rows k ++ [mkSpan (length (suffixes k)) (length suffix)]) [] (suffixes k ++ suffix) ids ps pb (garbage k) in
  uwf k' /\ holds k' (m ++ [prefix ++ suffix]).
Proof.
  intros Hu [Hn Hh] Hl Hps Hpb Hpr Hsum Hbl Hids k'.
  assert (uwf k') as Hu'.
  { destruct Hu as [H1 H2 H3 H4 H5 H6 H7 H8 H9]. split; cbn; try done.
    - apply Forall_app. split; [eapply Forall_impl; [exact H2|]; intros s; apply in_range_app|].
      constructor; [|constructor]. unfold in_range. cbn. rewrite length_app. lia.
    - rewrite sum_len_app, length_app. unfold sum_len at 2. cbn. lia.
    - unfold blen in *. rewrite length_app. lia.
    - destruct Hids as [(-> & _)|(id & Hlen & -> & _)]; [by left|right]. rewrite !length_app. cbn. lia.
    - destruct Hids as [(-> & _)|(id & Hlen & -> & Hr)]; [constructor|]. apply Forall_app. split.
      + eapply Forall_impl; [exact H6|]. intros x [->|Hx]; [by left|right]. apply prefix_length in Hps. lia.
      + constructor; [|constructor]. destruct Hr as [[-> _]|[? _]]; [by left|by right]. }
  split; [done|]. pose proof (u_offsets k Hu) as Ho.
  assert (length (rows k) = length m) as Hrm by (unfold length_rows in Hn; by rewrite Ho in Hn). split.
  { unfold length_rows. cbn. rewrite !length_app. cbn. lia. }
  intros row x Hx. rewrite key_at_u by done. unfold k' at 2 3. cbn [rows suffixes].
  apply lookup_app_Some in Hx as [Hx|[Hge Hx]].
  - pose proof (lookup_lt_Some _ _ _ Hx) as Hlt. specialize (Hh row x Hx). rewrite key_at_u in Hh by done.
    apply fmap_Some in Hh as (s & Hs & ->). rewrite lookup_app_l, Hs by lia. cbn. f_equal. f_equal.
    + apply prefix_at_extend; try done. cbn.
      destruct Hids as [(-> & -> & _)|(id & Hlen & -> & _)]; [done|]. apply lookup_app_l. lia.
    + apply Span_get_app. by eapply (Forall_lookup_1 _ _ _ _ (u_rows k Hu)).
  - assert (row = length (rows k)) as -> by (apply lookup_lt_Some in Hx; cbn in Hx; lia).
    replace (length (rows k) - length m)%nat with 0%nat in Hx by lia. injection Hx as <-.
    rewrite lookup_app_r, Nat.sub_diag by lia. cbn. f_equal. f_equal.
    + unfold prefix_at. cbn [prefix_ids prefixes prefix_bytes k'].
      destruct Hids as [(-> & _ & ->)|(id & Hlen & -> & Hr)]; [done|].
      rewrite lookup_app_r, Hlen, Nat.sub_diag by lia. cbn [lookup list_lookup mbind option_bind].
      destruct Hr as [[-> ->]|[_ (p & -> & <-)]]; [|done].
      pose proof (get_u32_max k' Hu') as Hmax. cbn [prefixes k'] in Hmax. by rewrite Hmax.
    + unfold Span_get. cbn. rewrite <-(app_nil_r suffix) at 2. by apply slice_app_exact.
Qed.

(** ** Repacking *)

Fixpoint kept (keep : nat -> bool) (row : nat) (l : list (list byte)) : list (list byte) :=
  match l with
  | [] => []
  | x :: l => if keep row then x :: kept keep (S row) l else kept keep (S row) l
  end.

Lemma kept_all row l : kept (fun _ => true) row l = l.
Proof. revert row. induction l as [|x l IH]; intros row; cbn; [done|]. by rewrite IH. Qed.

(** The bytes of the prefixes that have a new number. *)
Fixpoint used (renumber : list Z) (ps : list Span) : nat :=
  match renumber, ps with
  | id :: renumber, p :: ps => ((if (id =? U32_MAX)%Z then 0 else sp_len p) + used renumber ps)%nat
  | _, _ => 0%nat
  end.

Lemma used_le renumber ps : (used renumber ps <= sum_len ps)%nat.
Proof.
  revert ps. induction renumber as [|id rn IH]; intros [|p ps]; unfold sum_len in *; cbn; try lia.
  specialize (IH ps). destruct (id =? U32_MAX); lia.
Qed.

Lemma used_insert renumber ps i id p :
  renumber !! i = Some U32_MAX -> ps !! i = Some p -> id <> U32_MAX ->
  used (<[i := id]> renumber) ps = (used renumber ps + sp_len p)%nat.
Proof.
  revert ps i. induction renumber as [|x rn IH]; intros [|q ps] [|i] Hr Hp Hid; try done; cbn in *.
  - simplify_eq. rewrite Z.eqb_refl. destruct (Z.eqb_spec id U32_MAX); [done|lia].
  - rewrite IH by done. lia.
Qed.

Lemma used_replicate n ps : used (replicate n U32_MAX) ps = 0%nat.
Proof. revert ps. induction n as [|n IH]; intros [|p ps]; cbn; [done..|]. by rewrite IH. Qed.

Lemma used_room renumber ps i p :
  renumber !! i = Some U32_MAX -> ps !! i = Some p -> (used renumber ps + sp_len p <= sum_len ps)%nat.
Proof.
  revert ps i. induction renumber as [|x rn IH]; intros [|q ps] [|i] Hr Hp; try done; unfold sum_len in *; cbn in *.
  - simplify_eq. rewrite Z.eqb_refl. pose proof (used_le rn ps) as Hu. unfold sum_len in Hu. lia.
  - specialize (IH ps i Hr Hp). destruct (x =? U32_MAX); lia.
Qed.

(** While the rows of [k] are copied. *)
Record ret_inv (k : Keys) (compressed : bool) (n : nat) (m : list (list byte)) (st : Keys * list Z) : Prop := {
  r_uwf : uwf st.1;
  r_garbage : garbage st.1 = 0%nat;
  r_holds : holds st.1 m;
  r_ids : if compressed then length (prefix_ids st.1) = length (rows st.1) else prefix_ids st.1 = [];
  r_length : length st.2 = length (prefixes k);
  r_renumber : forall old id, st.2 !! old = Some id -> id <> U32_MAX ->
    0 <= id < Z.of_nat (length (prefixes st.1)) /\ exists p p', prefixes k !! old = Some p /\
    get_u32 (prefixes st.1) id = Some p' /\ Span_get p' (prefix_bytes st.1) = Span_get p (prefix_bytes k);
  r_sum : (length (suffixes st.1) <= sum_len (take n (rows k)))%nat;
  r_used : length (prefix_bytes st.1) = used st.2 (prefixes k)
}.

Lemma sum_len_take_S l n s : l !! n = Some s -> sum_len (take (S n) l) = (sum_len (take n l) + sp_len s)%nat.
Proof. intros Hs. rewrite (take_S_r _ _ _ Hs), sum_len_app. unfold sum_len at 2. cbn. lia. Qed.

Lemma sum_len_take_le l n : (sum_len (take n l) <= sum_len l)%nat.
Proof. rewrite <-(take_drop n l) at 2. rewrite sum_len_app. lia. Qed.

(** Copying one row. [k] is unsealed; [g] may be the sealed table it comes from. *)
Lemma retain_row_ok g k compressed n m st x :
  uwf k -> prefix_ids g = prefix_ids k -> get g n = get k n ->
  (compressed = true -> length (prefix_ids k) = length (rows k)) -> (compressed = false -> prefix_ids k = []) ->
  key_at k n = Some x -> ret_inv k compressed n m st ->
  exists st', retain_row g compressed n st = Some st' /\ ret_inv k compressed (S n) (m ++ [x]) st'.
Proof.
  intros Hu Hgi Hg Hc Hnc Hx [R1 R2 R3 R4 R5 R6 R7 R8]. destruct st as [next rn]. cbn [fst snd] in *.
  rewrite key_at_u in Hx by apply Hu. apply fmap_Some in Hx as (sp & Hs & ->).
  unfold retain_row. rewrite Hg, get_u, Hs by apply Hu. cbn [fmap option_fmap option_map mbind option_bind].
  pose proof (Forall_lookup_1 _ _ _ _ (u_rows k Hu) Hs) as Hr. pose proof (length_Span_get _ _ Hr) as Hlen.
  pose proof (sum_len_take_S _ _ _ Hs) as HS. pose proof (sum_len_take_le (rows k) (S n)) as Hle.
  pose proof (u_sum k Hu) as Hsum. pose proof (u_suffixes k Hu) as Hsuf. unfold blen in Hsuf.
  assert (blen (suffixes next) + blen (Span_get sp (suffixes k)) <= U32_MAX) as Hfit by (unfold blen; lia).
  destruct (Span_append_ok (suffixes next) (Span_get sp (suffixes k)) Hfit) as (-> & _ & _).
  cbn [unwrap mbind option_bind].
  pose proof (u_prefixes next R1) as Hpr. pose proof (u_psum next R1) as Hps. pose proof (u_pbytes next R1) as Hpb.
  assert (length (suffixes next ++ Span_get sp (suffixes k)) <= sum_len (take (S n) (rows k)))%nat as Hsum'
    by (rewrite length_app; lia).
  destruct compressed.
  2:{ eexists. split; [done|]. rewrite (u_offsets next R1).
      assert (prefix_at k n = []) as Hpre by (unfold prefix_at; by rewrite Hnc). rewrite Hpre.
      destruct (push_row next m (Span_get sp (suffixes k)) [] [] (prefixes next) (prefix_bytes next) R1 R3 Hfit)
        as [Hu' Hh']; try done; [by left|]. rewrite R4. by split. }
  specialize (Hc eq_refl). destruct (lookup_lt_is_Some_2 (prefix_ids k) n) as [old Hold].
  { apply lookup_lt_Some in Hs. lia. }
  rewrite Hgi, Hold. cbn [mbind option_bind].
  assert (prefix_at k n = match get_u32 (prefixes k) old with Some p => Span_get p (prefix_bytes k) | None => [] end) as Hpre
    by (unfold prefix_at; by rewrite Hold).
  destruct (Z.eqb_spec old U32_MAX) as [->|Hne].
  { eexists. split; [done|]. rewrite (u_offsets next R1). rewrite (get_u32_max k Hu) in Hpre. rewrite Hpre.
    destruct (push_row next m (Span_get sp (suffixes k)) [] (prefix_ids next ++ [U32_MAX]) (prefixes next) (prefix_bytes next) R1 R3 Hfit)
      as [Hu' Hh']; try done; [right; exists U32_MAX; splits; try done; by left|].
    split; cbn; try done. rewrite !length_app. cbn. lia. }
  destruct (Forall_lookup_1 _ _ _ _ (u_id k Hu) Hold) as [|Hrange]; [done|].
  destruct (lookup_lt_is_Some_2 (prefixes k) (Z.to_nat old)) as [po Hpo]; [lia|].
  assert (get_u32 (prefixes k) old = Some po) as Hgo by (rewrite <-(Z2Nat.id old) by lia; by rewrite get_u32_lookup).
  rewrite Hgo in Hpre. destruct (lookup_lt_is_Some_2 rn (Z.to_nat old)) as [id Hid]; [lia|].
  assert (get_u32 rn old = Some id) as -> by (rewrite <-(Z2Nat.id old) by lia; by rewrite get_u32_lookup).
  cbn [mbind option_bind]. destruct (Z.eqb_spec id U32_MAX) as [->|Hidne].
  - pose proof (used_room _ _ _ _ Hid Hpo) as Hroom.
    pose proof (u_psum k Hu) as Hkps. pose proof (u_pbytes k Hu) as Hkpb. unfold blen in Hkpb.
    destruct (Forall_lookup_1 _ _ _ _ (u_prefixes k Hu) Hpo) as [Hpor Hpolen].
    assert (Z.of_nat (length (prefixes next)) <> U32_MAX) as Hfresh.
    { pose proof (prefixes_le next R1). lia. }
    pose proof (used_insert _ _ _ _ _ Hid Hpo Hfresh) as Hused.
    pose proof (length_Span_get _ _ Hpor) as Hpol. rewrite Hpre.
    assert (blen (prefix_bytes next) + blen (Span_get po (prefix_bytes k)) <= U32_MAX) as Hpfit by (unfold blen; lia).
    cbn [prefix_bytes prefixes rows prefix_ids SmallKeys.suffixes offsets garbage].
    destruct (Span_append_ok _ _ Hpfit) as (-> & Hin & Hget). cbn [unwrap mbind option_bind].
    eexists. split; [done|]. rewrite (u_offsets next R1). 
    destruct (push_row next m (Span_get sp (suffixes k)) (Span_get po (prefix_bytes k)) (prefix_ids next ++ [Z.of_nat (length (prefixes next))])
      (prefixes next ++ [mkSpan (length (prefix_bytes next)) (length (Span_get po (prefix_bytes k)))])
      (prefix_bytes next ++ Span_get po (prefix_bytes k)) R1 R3 Hfit) as [Hu' Hh']; try done.
    { by eexists. } { by eexists. } 
    { apply Forall_app. split; [|constructor; [|constructor]; split; [done|cbn; lia]].
      eapply Forall_impl; [exact Hpr|]. intros s [? ?]. split; [by apply in_range_app|done]. }
    { rewrite sum_len_app, length_app. unfold sum_len at 2. cbn. lia. }
    { unfold blen in *. rewrite length_app. lia. }
    { right. eexists. splits; [done|done|]. right. rewrite length_app. cbn [length]. split; [lia|]. eexists.
      by rewrite get_u32_lookup, lookup_app_r, Nat.sub_diag by lia. }
    split; cbn; try done.
    + rewrite !length_app. cbn. lia.
    + by rewrite length_insert.
    + intros old' id' Hi Hne'. apply list_lookup_insert_Some in Hi as [(<- & <- & _)|(Hne2 & Hi)].
      * rewrite length_app. cbn [length]. split; [lia|]. eexists _, _. splits; [exact Hpo| |exact Hget].
        by rewrite get_u32_lookup, lookup_app_r, Nat.sub_diag by lia.
      * destruct (R6 _ _ Hi Hne') as (Hr' & p & p' & Hp & Hp' & Hsp). rewrite length_app. split; [lia|].
        exists p, p'. splits; [done|eapply get_u32_prefix; [|lia|done]; by eexists|]. rewrite <-Hsp. apply Span_get_app.
        rewrite <-(Z2Nat.id id') in Hp' by lia. rewrite get_u32_lookup in Hp'.
        by destruct (Forall_lookup_1 _ _ _ _ Hpr Hp').
    + rewrite length_app. lia.
  - destruct (R6 _ _ Hid Hidne) as (Hidr & p & p' & Hp & Hp' & Hsp). eexists. split; [done|].
    rewrite (u_offsets next R1). rewrite Hpo in Hp. injection Hp as <-. rewrite Hpre.
    destruct (push_row next m (Span_get sp (suffixes k)) (Span_get po (prefix_bytes k)) (prefix_ids next ++ [id])
      (prefixes next) (prefix_bytes next) R1 R3 Hfit) as [Hu' Hh']; try done.
    { right. exists id. splits; try done. right. split; [done|]. by exists p'. }
    split; cbn; try done. rewrite !length_app. cbn. lia.
Qed.

Lemma ret_inv_skip k compressed n m st : ret_inv k compressed n m st -> ret_inv k compressed (S n) m st.
Proof.
  intros [R1 R2 R3 R4 R5 R6 R7 R8]. split; try done. etrans; [exact R7|].
  destruct (rows k !! n) as [s|] eqn:Es; [rewrite (sum_len_take_S _ _ _ Es); lia|].
  apply lookup_ge_None in Es. by rewrite !take_ge by lia.
Qed.

Lemma retain_rows_ok g k compressed keep l :
  uwf k -> prefix_ids g = prefix_ids k -> (forall n, get g n = get k n) ->
  (compressed = true -> length (prefix_ids k) = length (rows k)) -> (compressed = false -> prefix_ids k = []) ->
  holds k l -> forall n row m st, (row + n = length l)%nat -> ret_inv k compressed row m st ->
  exists st', retain_rows g compressed keep row n st = Some st' /\
    ret_inv k compressed (length l) (m ++ kept keep row (drop row l)) st'.
Proof.
  intros Hu Hgi Hg Hc Hnc [Hn Hh] n. induction n as [|n IH]; intros row m st Hrow Hi.
  { exists st. split; [done|]. rewrite drop_ge, app_nil_r by lia. by replace (length l) with row by lia. }
  destruct (lookup_lt_is_Some_2 l row) as [x Hx]; [lia|].
  rewrite (drop_S _ _ _ Hx). cbn [retain_rows kept]. destruct (keep row).
  - destruct (retain_row_ok g k compressed row m st x Hu Hgi (Hg row) Hc Hnc (Hh _ _ Hx) Hi) as (st' & -> & Hi').
    cbn [mbind option_bind]. destruct (IH (S row) (m ++ [x]) st') as (st2 & -> & Hi2); [lia|done|].
    exists st2. split; [done|]. by rewrite <-app_assoc in Hi2.
  - apply IH; [lia|]. by apply ret_inv_skip.
Qed.

Lemma ret_inv_start k compressed :
  ret_inv k compressed 0 [] (Keys_default, replicate (length (prefixes k)) U32_MAX).
Proof.
  split; cbn; try done.
  - split; cbn; try done; try (by constructor); by left.
  - by destruct compressed.
  - by rewrite length_replicate.
  - intros old id Hi. by apply lookup_replicate in Hi as [-> _].
  - by rewrite used_replicate.
Qed.

(** Repacking keeps exactly the rows it is asked for, and drops the garbage. *)
Lemma retain_ok k keep l : wf k -> holds k l -> exists k', retain k keep = Some k' /\ wf k' /\
  holds k' (kept keep 0 l) /\ is_nil (offsets k') = is_nil (offsets k) /\
  (offsets k = [] -> uwf k' /\ garbage k' = 0%nat /\ (length (suffixes k') <= sum_len (rows k))%nat /\
     (prefix_ids k = [] -> prefix_ids k' = [])).
Proof.
  intros [Hu Hs] Hh. unfold retain. set (ku := unfreeze k) in *.
  assert (prefix_ids k = prefix_ids ku) as Hids by (unfold ku, unfreeze; by destruct (is_nil (offsets k))).
  assert (prefixes k = prefixes ku) as Hps by (unfold ku, unfreeze; by destruct (is_nil (offsets k))).
  assert (holds ku l) as Hhu by by apply holds_unfreeze.
  destruct (retain_rows_ok k ku (negb (is_nil (prefix_ids k))) keep l Hu Hids (fun n => eq_sym (get_unfreeze k n)))
    with (n := length l) (row := 0%nat) (m := @nil (list byte)) (st := (Keys_default, replicate (length (prefixes ku)) U32_MAX))
    as ([next rn] & E & Hi); try done.
  { rewrite Hids. pose proof (u_ids ku Hu) as [->|]; [done|by intros]. }
  { rewrite Hids. by destruct (prefix_ids ku). }
  { apply ret_inv_start. }
  destruct Hh as [Hn _]. rewrite Hn, Hps, E. cbn [mbind option_bind].
  destruct Hi as [R1 R2 R3 R4 _ _ R7 _]. rewrite drop_0 in R3. cbn [fst snd app] in *. eexists. split; [done|].
  destruct (offsets k) as [|o os] eqn:Eo; cbn [is_nil negb].
  - splits; [by apply uwf_wf|done|by rewrite (u_offsets next R1)|]. intros _. splits; [done|done| |by intros E0; rewrite E0 in R4].
    replace (rows k) with (rows ku) by (unfold ku, unfreeze; by rewrite Eo). etrans; [exact R7|]. apply sum_len_take_le.
  - destruct (freeze_ok next _ R1 R3) as (Hw & Hh' & Hne). splits; [done|done| |done].
    by destruct (offsets (freeze next)).
Qed.

(** ** Insertion, replacement and deletion *)

Lemma holds_u k l : offsets k = [] -> holds k l <-> length (rows k) = length l /\
  forall row s, rows k !! row = Some s -> l !! row = Some (prefix_at k row ++ Span_get s (suffixes k)).
Proof.
  intros Ho. unfold holds, length_rows. rewrite Ho. cbn [is_nil]. split; intros [Hn Hh]; (split; [done|]).
  - intros row s Hs. destruct (lookup_lt_is_Some_2 l row) as [x Hx]; [apply lookup_lt_Some in Hs; lia|].
    specialize (Hh _ _ Hx). rewrite key_at_u, Hs in Hh by done. by injection Hh as <-.
  - intros row x Hx. destruct (lookup_lt_is_Some_2 (rows k) row) as [s Hs]; [apply lookup_lt_Some in Hx; lia|].
    specialize (Hh _ _ Hs). rewrite key_at_u, Hs by done. cbn. congruence.
Qed.

Lemma id_max k row : uwf k -> prefix_ids k !! row = Some U32_MAX \/ prefix_ids k = [] -> prefix_at k row = [].
Proof. unfold prefix_at. intros Hu [->| ->]; [|done]. cbn. by rewrite get_u32_max. Qed.

(** The prefix tables [ps], [pb] extend those of [k]. *)
Definition extends (k : Keys) (ps : list Span) (pb : list byte) : Prop :=
  prefixes k `prefix_of` ps /\ prefix_bytes k `prefix_of` pb /\
  Forall (fun s => in_range pb s /\ (0 < sp_len s)%nat) ps /\ sum_len ps = length pb /\ blen pb <= U32_MAX.

Lemma extends_refl k : uwf k -> extends k (prefixes k) (prefix_bytes k).
Proof. intros Hu. unfold extends. splits; try done; apply Hu. Qed.

Lemma replace_row k l row old sp tail prefix ids ps pb :
  uwf k -> holds k l -> rows k !! row = Some old ->
  in_range (suffixes k ++ tail) sp -> sp_len sp = length tail -> Span_get sp (suffixes k ++ tail) = tail ->
  blen (suffixes k) + blen tail <= U32_MAX -> extends k ps pb ->
  (ids = [] /\ prefix_ids k = [] /\ prefix = [] \/
   exists id, length (prefix_ids k) = length (rows k) /\ ids = <[row := id]> (prefix_ids k) /\ id_reads ps pb id prefix) ->
  let k' := mkKeys (<[row := sp]> (rows k)) [] (suffixes k ++ tail) ids ps pb (garbage k + sp_len old) in
  uwf k' /\ holds k' (<[row := prefix ++ tail]> l).
Proof.
  intros Hu Hh Hrow Hin Hlen Hget Hfit (Hps & Hpb & Hpr & Hsum & Hbl) Hids k'. pose proof (lookup_lt_Some _ _ _ Hrow) as Hlt.
  assert (uwf k') as Hu'.
  { destruct Hu as [H1 H2 H3 H4 H5 H6 H7 H8 H9]. split; cbn; try done.
    - apply Forall_insert; [|done]. eapply Forall_impl; [exact H2|]. intros s. apply in_range_app.
    - pose proof (sum_len_insert _ _ _ sp Hrow). unfold sum_len in *. rewrite length_app. lia.
    - unfold blen in *. rewrite length_app. lia.
    - destruct Hids as [(-> & _)|(id & Hl & -> & _)]; [by left|right]. by rewrite !length_insert.
    - destruct Hids as [(-> & _)|(id & Hl & -> & Hr)]; [constructor|]. apply Forall_insert.
      + eapply Forall_impl; [exact H6|]. intros x [->|Hx]; [by left|right]. apply prefix_length in Hps. lia.
      + destruct Hr as [[-> _]|[? _]]; [by left|by right]. }
  split; [done|]. rewrite holds_u in Hh |- * by (done || apply Hu). destruct Hh as [Hn Hh].
  split; [cbn; by rewrite !length_insert|]. intros i s Hi. cbn in Hi.
  apply list_lookup_insert_Some in Hi as [(<- & <- & _)|(Hne & Hi)].
  - rewrite list_lookup_insert_eq by lia. unfold k' at 2. cbn [suffixes]. rewrite Hget. do 2 f_equal. symmetry.
    unfold prefix_at. cbn [prefix_ids prefixes prefix_bytes k'].
    destruct Hids as [(-> & _ & ->)|(id & Hl & -> & Hr)]; [done|]. rewrite list_lookup_insert_eq by lia. cbn [mbind option_bind].
    destruct Hr as [[-> ->]|[_ (p & -> & <-)]]; [|done].
    pose proof (get_u32_max k' Hu') as Hmax. cbn [prefixes k'] in Hmax. by rewrite Hmax.
  - rewrite list_lookup_insert_ne by done. rewrite (Hh _ _ Hi). f_equal. f_equal; [|symmetry; apply Span_get_app].
    + symmetry. apply prefix_at_extend; try done. cbn.
      destruct Hids as [(-> & -> & _)|(id & Hl & -> & Hr)]; [done|]. by apply list_lookup_insert_ne.
    + by eapply (Forall_lookup_1 _ _ _ _ (u_rows k Hu)).
Qed.

Lemma set_row k l row old sp tail :
  uwf k -> holds k l -> rows k !! row = Some old ->
  in_range (suffixes k ++ tail) sp -> sp_len sp = length tail -> Span_get sp (suffixes k ++ tail) = tail ->
  blen (suffixes k) + blen tail <= U32_MAX ->
  let k' := mkKeys (<[row := sp]> (rows k)) [] (suffixes k ++ tail)
    (if is_nil (prefix_ids k) then prefix_ids k else <[row := U32_MAX]> (prefix_ids k))
    (prefixes k) (prefix_bytes k) (garbage k + sp_len old) in
  uwf k' /\ holds k' (<[row := tail]> l).
Proof.
  intros Hu Hh Hrow Hin Hlen Hget Hfit. apply (replace_row k l row old sp tail []); try done; [by apply extends_refl|].
  destruct (u_ids k Hu) as [->|Hl]; [by left|]. destruct (prefix_ids k) eqn:E; [by left|]. right. exists U32_MAX.
  splits; try done. by left.
Qed.

Lemma insert_at_spec {A} row (x : A) l i : (row <= length l)%nat ->
  insert_at row x l !! i = if decide (i < row)%nat then l !! i else if decide (i = row) then Some x else l !! (i - 1)%nat.
Proof.
  intros Hrow. unfold insert_at. destruct (decide (i < row)%nat).
  - rewrite lookup_app_l by (rewrite length_take; lia). by apply lookup_take_lt.
  - rewrite lookup_app_r by (rewrite length_take; lia). rewrite length_take, Nat.min_l by lia.
    destruct (decide (i = row)) as [->|]; [by rewrite Nat.sub_diag|].
    replace (i - row)%nat with (S (i - row - 1)) by lia.
    change (drop row l !! (i - row - 1)%nat = l !! (i - 1)%nat). rewrite lookup_drop. f_equal. lia.
Qed.

Lemma length_insert_at {A} row (x : A) l : (row <= length l)%nat -> length (insert_at row x l) = S (length l).
Proof. intros. unfold insert_at. rewrite length_app, length_take. cbn. rewrite length_drop. lia. Qed.

Lemma Forall_insert_at {A} (P : A -> Prop) row x l : Forall P l -> P x -> Forall P (insert_at row x l).
Proof.
  intros Hl Hx. unfold insert_at. apply Forall_app. split; [by apply Forall_take|].
  constructor; [done|]. by apply Forall_drop.
Qed.

Lemma add_row k l row tail :
  uwf k -> holds k l -> (row <= length l)%nat -> blen (suffixes k) + blen tail <= U32_MAX ->
  let k' := mkKeys (insert_at row (mkSpan (length (suffixes k)) (length tail)) (rows k)) [] (suffixes k ++ tail)
    (if is_nil (prefix_ids k) then prefix_ids k else insert_at row U32_MAX (prefix_ids k))
    (prefixes k) (prefix_bytes k) (garbage k) in
  uwf k' /\ holds k' (insert_at row tail l).
Proof.
  intros Hu Hh Hrow Hfit k'. rewrite holds_u in Hh by apply Hu. destruct Hh as [Hn Hh].
  destruct (Span_append_ok _ _ Hfit) as (_ & Hin & Hget).
  assert (prefix_ids k <> [] -> length (prefix_ids k) = length (rows k)) as Hpi by (intros; by destruct (u_ids k Hu)).
  assert (uwf k') as Hu'.
  { destruct Hu as [H1 H2 H3 H4 H5 H6 H7 H8 H9]. split; cbn; try done.
    - apply Forall_insert_at; [|done]. eapply Forall_impl; [exact H2|]. intros s. apply in_range_app.
    - unfold insert_at. rewrite <-(take_drop row (rows k)) in H3. rewrite sum_len_app in *. rewrite length_app.
      unfold sum_len in *. cbn. lia.
    - unfold blen in *. rewrite length_app. lia.
    - destruct (prefix_ids k) eqn:E; [by left|right]. specialize (Hpi ltac:(done)). cbn [is_nil].
      rewrite !length_insert_at; lia.
    - destruct (prefix_ids k) eqn:E; [by constructor|]. cbn [is_nil]. apply Forall_insert_at; [done|by left]. }
  split; [done|]. rewrite holds_u by done. split; [cbn; rewrite !length_insert_at; lia|].
  assert (forall i j, (if is_nil (prefix_ids k) then prefix_ids k else insert_at row U32_MAX (prefix_ids k)) !! i = prefix_ids k !! j ->
    prefix_at k' i = prefix_at k j) as Hpre.
  { intros i j E. unfold prefix_at. cbn [prefix_ids k' prefixes prefix_bytes]. by rewrite E. }
  intros i s Hi. change (insert_at row (mkSpan (length (suffixes k)) (length tail)) (rows k) !! i = Some s) in Hi.
  rewrite insert_at_spec in Hi by lia. rewrite insert_at_spec by lia.
  destruct (decide (i < row)%nat); [|destruct (decide (i = row)) as [->|]].
  - rewrite (Hh _ _ Hi). f_equal. f_equal; [symmetry; apply Hpre|symmetry; apply Span_get_app].
    + destruct (prefix_ids k) eqn:E; [done|]. cbn [is_nil]. rewrite <-E in *. specialize (Hpi ltac:(congruence)).
      rewrite insert_at_spec, decide_True by lia. done.
    + by eapply (Forall_lookup_1 _ _ _ _ (u_rows k Hu)).
  - injection Hi as <-. rewrite (id_max k'); [by rewrite <-Hget at 1|done|]. cbn.
    destruct (prefix_ids k) eqn:E; [by right|left]. cbn [is_nil]. rewrite <-E in *. specialize (Hpi ltac:(congruence)).
    rewrite insert_at_spec, decide_False, decide_True by lia. done.
  - rewrite (Hh _ _ Hi). f_equal. f_equal; [symmetry; apply Hpre|symmetry; apply Span_get_app].
    + destruct (prefix_ids k) eqn:E; [done|]. cbn [is_nil]. rewrite <-E in *. specialize (Hpi ltac:(congruence)).
      rewrite insert_at_spec, !decide_False by lia. done.
    + by eapply (Forall_lookup_1 _ _ _ _ (u_rows k Hu)).
Qed.

(** What an insertion does to the keys. *)
Definition inserted (l : list (list byte)) (row : nat) (key : list byte) (replace : bool) : list (list byte) :=
  if replace then <[row := key]> l else insert_at row key l.

(** The bytes of the rows, without garbage. *)
Definition live (k : Keys) : Z := Z.of_nat (sum_len (rows (unfreeze k))).

Lemma insert_ok k l row key (replace : bool) :
  wf k -> holds k l -> (if replace then (row < length l)%nat else (row <= length l)%nat) ->
  match insert k row key replace with
  | Some (Ok k') => uwf k' /\ holds k' (inserted l row key replace) /\ (prefix_ids k = [] -> prefix_ids k' = [])
  | Some (Err _) => U32_MAX < live k + blen key
  | None => False
  end.
Proof.
  intros [Hu _] Hh Hrow. unfold insert, live. set (ku := unfreeze k) in *.
  assert (holds ku l) as Hhu by by apply holds_unfreeze.
  assert (exists k1, (if (length (suffixes ku) / 2 <? garbage ku)%nat || (U32_MAX <? blen (suffixes ku) + blen key)
    then retain ku (fun _ => true) else Some ku) = Some k1 /\ uwf k1 /\ holds k1 l /\
    (prefix_ids k = [] -> prefix_ids k1 = []) /\ (blen (suffixes k1) + blen key <= U32_MAX \/ (length (suffixes k1) <= sum_len (rows ku))%nat))
    as (k1 & -> & Hu1 & Hh1 & Hids & Hfit).
  { assert (prefix_ids k = prefix_ids ku) as -> by (unfold ku, unfreeze; by destruct (is_nil (offsets k))).
    destruct (_ || _) eqn:E.
    - destruct (retain_ok ku (fun _ => true) l (uwf_wf _ Hu) Hhu) as (k1 & -> & _ & Hh1 & _ & Hr).
      destruct (Hr (u_offsets ku Hu)) as (? & _ & ? & ?). rewrite kept_all in Hh1. exists k1. splits; try done. by right.
    - apply orb_false_iff in E as [_ E%Z.ltb_ge]. exists ku. splits; try done. by left. }
  cbn [mbind option_bind]. destruct (Span_append (suffixes k1) key) as [[sp b]|e] eqn:E.
  - apply Span_append_inv in E as (Hl & -> & ->). destruct (Span_append_ok _ _ Hl) as (_ & Hin & Hget).
    assert (length (rows k1) = length l) as Hlen by (by apply holds_u in Hh1 as [? _]; [|apply Hu1]).
    destruct replace.
    + destruct (lookup_lt_is_Some_2 (rows k1) row) as [old Hold]; [lia|]. rewrite Hold. cbn [mbind option_bind].
      destruct (set_row k1 l row old _ key Hu1 Hh1 Hold Hin eq_refl Hget Hl) as [? ?]. splits; [done|done|].
      intros E. cbn. by rewrite Hids.
    + rewrite (proj2 (Nat.ltb_ge _ _)) by lia. destruct (add_row k1 l row key Hu1 Hh1 Hrow Hl) as [? ?]. splits; [done|done|].
      intros E. cbn. by rewrite Hids.
  - unfold Span_append in E. destruct (Z.ltb_spec U32_MAX (blen (suffixes k1) + blen key)) as [Hlt|]; [|done].
    unfold blen in *. lia.
Qed.

Lemma remove_ok k l row :
  wf k -> holds k l -> (row < length l)%nat ->
  exists k', remove k row = Some k' /\ wf k' /\
    holds k' (if is_nil (offsets k) then <[row := []]> l else l) /\ is_nil (offsets k') = is_nil (offsets k) /\
    (prefix_ids k = [] -> prefix_ids k' = []).
Proof.
  intros [Hu Hs] Hh Hrow. unfold remove. destruct (offsets k) as [|o os] eqn:Eo; cbn [is_nil negb].
  2:{ exists k. splits; [done|by split|done|by rewrite Eo|done]. }
  unfold unfreeze in Hu. rewrite Eo in Hu. cbn [is_nil] in Hu.
  assert (length (rows k) = length l) as Hlen by (by apply holds_u in Hh as [? _]).
  destruct (lookup_lt_is_Some_2 (rows k) row) as [old Hold]; [lia|]. rewrite Hold. cbn [mbind option_bind].
  destruct (set_row k l row old Span_default [] Hu Hh Hold) as [Hu' Hh']; try done.
  { unfold in_range. cbn. lia. } { pose proof (u_suffixes k Hu). unfold blen in *. cbn. lia. }
  rewrite app_nil_r in Hu', Hh'. eexists. splits; [done|by apply uwf_wf|done|done|]. cbn. by intros ->.
Qed.

(** The key bytes of a table without shared prefixes. *)
Definition total (l : list (list byte)) : Z := Z.of_nat (sum_list_with length l).

Lemma sum_len_get b rs : Forall (in_range b) rs -> sum_len rs = sum_list_with length ((fun s => Span_get s b) <$> rs).
Proof. induction 1 as [|s rs Hs _ IH]; [done|]. unfold sum_len in *. cbn. by rewrite length_Span_get, IH. Qed.

Lemma plain_total k l : uwf k -> prefix_ids k = [] -> holds k l -> Z.of_nat (sum_len (rows k)) = total l.
Proof.
  intros Hu Hids Hh. unfold total. f_equal. apply holds_u in Hh as [Hn Hh]; [|apply Hu].
  assert (l = (fun s => Span_get s (suffixes k)) <$> rows k) as ->.
  { apply list_eq_same_length with (n := length l); [|done|]; [by rewrite length_fmap|].
    intros i x y _ Hx Hy. rewrite list_lookup_fmap in Hy. apply fmap_Some in Hy as (s & Hs & ->).
    rewrite (Hh _ _ Hs) in Hx. unfold prefix_at in Hx. rewrite Hids in Hx. by injection Hx as <-. }
  apply sum_len_get, Hu.
Qed.

End SmallTable.
