(* ===== verification/SmallSeal.v ===== *)
(** Sealing a key table: the bottom-up choice of shared prefixes terminates with a partition of the
    sorted keys into runs that share their prefix, and the compressed table holds the same keys. *)

From S2P Require Import Prelude External SmallKeys SmallTable.

Module SmallSeal.
Import SmallKeys SmallTable.

(** ** Sorted keys share what the first and the last share *)

Lemma bytes_leb_refl a : bytes_leb a a = true.
Proof. induction a as [|x a IH]; [done|]. cbn. rewrite Z.ltb_irrefl, Z.eqb_refl. done. Qed.

Lemma bytes_leb_total a b : bytes_leb a b = true \/ bytes_leb b a = true.
Proof.
  revert b. induction a as [|x a IH]; intros [|y b]; cbn; try (by left); [by right|].
  destruct (Z.ltb_spec (byte_val x) (byte_val y)); [by left|].
  destruct (Z.ltb_spec (byte_val y) (byte_val x)); [by right|].
  rewrite !(proj2 (Z.eqb_eq _ _)) by lia. apply IH.
Qed.

Lemma bytes_leb_trans a b c : bytes_leb a b = true -> bytes_leb b c = true -> bytes_leb a c = true.
Proof.
  revert b c. induction a as [|x a IH]; intros [|y b] [|z c]; cbn; try done.
  rewrite !orb_true_iff, !andb_true_iff, !Z.ltb_lt, !Z.eqb_eq. intros [?|[? ?]] [?|[? ?]]; try (left; lia).
  right. split; [lia|]. by eapply IH.
Qed.

Lemma common_between a b c n :
  bytes_leb a b = true -> bytes_leb b c = true -> (n <= common a c)%nat ->
  take n b = take n a /\ (n <= length b)%nat.
Proof.
  revert b c n. induction a as [|x a IH]; intros [|y b] [|z c] [|n]; cbn; try done; try (split; [done|lia]); try lia.
  destruct (bool_decide_reflect (x = z)) as [->|]; [|lia].
  rewrite !orb_true_iff, !andb_true_iff, !Z.ltb_lt, !Z.eqb_eq. intros H1 H2 Hn.
  assert (byte_val y = byte_val z) as Hv by lia. apply byte_val_inj in Hv as ->.
  destruct H1 as [?|[_ H1]]; [lia|]. destruct H2 as [?|[_ H2]]; [lia|].
  destruct (IH b c n H1 H2) as [-> ?]; [lia|]. split; [done|lia].
Qed.

Lemma common_same a : common a a = length a.
Proof. induction a as [|x a IH]; [done|]. cbn. rewrite bool_decide_true by done. by rewrite IH. Qed.

Lemma common_differs a b : a <> b -> a !! common a b <> b !! common a b.
Proof.
  revert b. induction a as [|x a IH]; intros [|y b] Hne; cbn; try done.
  destruct (bool_decide_reflect (x = y)) as [->|Hxy]; [|cbn; congruence].
  cbn. apply IH. congruence.
Qed.

(** ** Tiling *)

(** The positions a group covers. *)
Definition positions (gs : list Group) : list nat :=
  mjoin ((fun g => seq (g_start g) (g_end g - g_start g)) <$> gs).

(** All keys of the group begin with the prefix of its first key. *)
Definition shares (key : nat -> list byte) (g : Group) : Prop :=
  (g_start g < g_end g)%nat /\ forall i, (g_start g <= i < g_end g)%nat ->
    take (g_prefix g) (key i) = take (g_prefix g) (key (g_start g)) /\ (g_prefix g <= length (key i))%nat.

Definition tiles (key : nat -> list byte) (start end_ : nat) (gs : list Group) : Prop :=
  positions gs ≡ₚ seq start (end_ - start) /\ Forall (shares key) gs.

Definition sorted_on (key : nat -> list byte) (start end_ : nat) : Prop :=
  forall i j, (start <= i)%nat -> (i <= j)%nat -> (j < end_)%nat -> bytes_leb (key i) (key j) = true.

Lemma positions_app gs gs' : positions (gs ++ gs') = positions gs ++ positions gs'.
Proof. unfold positions. by rewrite fmap_app, join_app. Qed.

Lemma tiles_one key g : shares key g -> tiles key (g_start g) (g_end g) [g].
Proof. intros Hg. split; [|by constructor]. unfold positions. cbn. by rewrite app_nil_r. Qed.

Lemma shares_run key start end_ n :
  sorted_on key start end_ -> (start < end_)%nat -> (n <= common (key start) (key (end_ - 1)))%nat ->
  shares key (mkGroup start end_ n).
Proof.
  intros Hs Hlt Hn. split; [done|]. cbn. intros i Hi. apply (common_between _ _ (key (end_ - 1)%nat)); [..|done]; apply Hs; lia.
Qed.

(** The children of a run are consecutive. *)
Inductive chain : nat -> nat -> list (nat * nat) -> Prop :=
  | chain_nil i : chain i i []
  | chain_cons i j k l : (i < j)%nat -> chain j k l -> chain i k ((i, j) :: l).

Lemma children_chain symbol i j n : (i < j)%nat -> chain i (j + n) (children symbol i j n).
Proof.
  revert i j. induction n as [|n IH]; intros i j Hij; cbn [children].
  - rewrite Nat.add_0_r. repeat constructor. done.
  - replace (j + S n)%nat with (S j + n)%nat by lia. destruct (bool_decide _); [apply IH; lia|].
    constructor; [done|]. apply IH. lia.
Qed.

Lemma children_two symbol i j n :
  (i < j)%nat -> symbol (j + n)%nat <> symbol i -> (2 <= length (children symbol i j (S n)))%nat.
Proof.
  revert j. induction n as [|n IH]; intros j Hij Hne; cbn [children] in *.
  - rewrite Nat.add_0_r in Hne. rewrite bool_decide_false by done. cbn. lia.
  - case_bool_decide as Hs; cbn [children] in *.
    + apply (IH (S j)); [lia|]. by replace (S j + n)%nat with (j + S n)%nat by lia.
    + cbn. case_bool_decide; cbn; [|lia]. clear. generalize (S (S j)). induction n as [|n IH]; intros k; cbn; [lia|].
      case_bool_decide; [apply IH|cbn; lia].
Qed.

Lemma chain_le i k l : chain i k l -> (i <= k)%nat.
Proof. induction 1; lia. Qed.

Lemma chain_length i k l : chain i k l -> (length l <= k - i)%nat.
Proof. induction 1 as [|i j k l Hij Hc IH]; cbn; [lia|]. pose proof (chain_le _ _ _ Hc). lia. Qed.

Lemma chain_elem i k l a b :
  chain i k l -> (a, b) ∈ l -> (i <= a)%nat /\ (a < b)%nat /\ (b <= k)%nat /\ (b - a + length l <= k - i + 1)%nat.
Proof.
  induction 1 as [i|i j k l Hij Hc IH]; intros He; [by apply elem_of_nil in He|].
  pose proof (chain_le _ _ _ Hc) as Hle. cbn [length]. apply elem_of_cons in He as [[= -> ->]|He].
  - pose proof (chain_length _ _ _ Hc). splits; lia.
  - destruct (IH He) as (? & ? & ? & ?). splits; lia.
Qed.

(** ** The work list terminates *)

(** [n] iterations consume the items [ws], adding [gs] and [cs]. *)
Definition evaluates (key : nat -> list byte) (n : nat) (ws : list Work) (gs : list Group) (cs : list nat) : Prop :=
  forall fuel work groups costs, group_loop (n + fuel) key (ws ++ work) groups costs =
    group_loop fuel key work (groups ++ gs) (costs ++ cs).

Lemma evaluates_nil key : evaluates key 0 [] [] [].
Proof. intros fuel work groups costs. by rewrite !app_nil_r. Qed.

Lemma evaluates_app key n n' ws ws' gs gs' cs cs' :
  evaluates key n ws gs cs -> evaluates key n' ws' gs' cs' ->
  evaluates key (n + n') (ws ++ ws') (gs ++ gs') (cs ++ cs').
Proof. intros H H' fuel work groups costs. by rewrite <-app_assoc, <-Nat.add_assoc, H, H', !app_assoc. Qed.

Lemma tiles_app key i j k gs gs' :
  (i <= j <= k)%nat -> tiles key i j gs -> tiles key j k gs' -> tiles key i k (gs' ++ gs).
Proof.
  intros Hl [H1 H2] [H3 H4]. split; [|by apply Forall_app].
  rewrite positions_app, H1, H3, (Permutation_app_comm (seq j _)).
  replace (k - i)%nat with ((j - i) + (k - j))%nat by lia. rewrite seq_app. by replace (i + (j - i))%nat with j by lia.
Qed.

Definition visit_ok (key : nat -> list byte) (start end_ : nat) : Prop :=
  exists n gs c, (n + 2 <= 3 * (end_ - start))%nat /\ evaluates key n [Visit start end_] gs [c] /\ tiles key start end_ gs.

Lemma visits_ok key i k l :
  chain i k l -> (forall a b, (a, b) ∈ l -> visit_ok key a b) ->
  exists n gs cs, (n + 2 * length l <= 3 * (k - i))%nat /\
    evaluates key n (reverse ((fun c => Visit c.1 c.2) <$> l)) gs cs /\ tiles key i k gs.
Proof.
  induction 1 as [i|i j k l Hij Hc IH]; intros Hv.
  - exists 0%nat, [], []. splits; [cbn; lia|apply evaluates_nil|]. unfold tiles. by rewrite Nat.sub_diag.
  - destruct IH as (n & gs & cs & Hn & He & Ht); [intros a b Hab; apply Hv; by right|].
    destruct (Hv i j) as (n' & gs' & c & Hn' & He' & Ht'); [by left|]. pose proof (chain_le _ _ _ Hc).
    exists (n + n')%nat, (gs ++ gs'), (cs ++ [c]). splits; [cbn; lia| |eapply tiles_app; [|done..]; lia].
    rewrite fmap_cons, reverse_cons. by apply evaluates_app.
Qed.

Lemma visit_total key start end_ : (start < end_)%nat -> sorted_on key start end_ -> visit_ok key start end_.
Proof.
  remember (end_ - start)%nat as m eqn:Hm. revert start end_ Hm.
  induction m as [m IH] using lt_wf_ind; intros start end_ Hm Hlt Hs. unfold visit_ok.
  set (prefix := common (key start) (key (end_ - 1)%nat)).
  set (total := total_len key start end_).
  set (shared := (prefix + SPAN_SIZE + total - (end_ - start) * prefix)%nat).
  destruct ((end_ - start =? 1)%nat || bool_decide (key start = key (end_ - 1)%nat)) eqn:Eleaf.
  { eexists 1%nat, _, _. splits; [lia| |].
    - intros fuel work groups costs. cbn [plus app group_loop group_step]. rewrite Eleaf. reflexivity.
    - apply (tiles_one key (mkGroup _ _ _)). apply shares_run; [done..|]. destruct (_ <? _)%nat; [done|lia]. }
  apply orb_false_iff in Eleaf as [E1%Nat.eqb_neq E2%bool_decide_eq_false].
  set (cs := children (fun i => key i !! prefix) start (S start) (end_ - start - 1)).
  assert (chain start end_ cs) as Hc.
  { replace end_ with (S start + (end_ - start - 1))%nat at 1 by lia. apply children_chain. lia. }
  assert (2 <= length cs)%nat as H2.
  { unfold cs. replace (end_ - start - 1)%nat with (S (end_ - start - 2)) by lia. apply children_two; [lia|].
    replace (S start + (end_ - start - 2))%nat with (end_ - 1)%nat by lia. intros E. by apply (common_differs _ _ E2). }
  destruct (visits_ok key start end_ cs Hc) as (n & gs & costs' & Hn & He & Ht).
  { intros a b Hab. destruct (chain_elem _ _ _ _ _ Hc Hab) as (? & ? & ? & ?).
    apply (IH (b - a)%nat); [lia|done|done|]. intros i j ???. apply Hs; lia. }
  set (whole := if (prefix =? 0)%nat then total else shared).
  exists (S (n + 1)), (if (whole <=? sum_list costs')%nat then [mkGroup start end_ prefix] else gs), (Nat.min whole (sum_list costs')).
  splits; [lia| |].
  - intros fuel work groups costs. cbn [plus app group_loop group_step]. fold prefix total shared whole.
    rewrite (proj2 (Nat.eqb_neq _ _) E1), bool_decide_false by done. cbn [orb]. fold cs.
    rewrite <-Nat.add_assoc, He. cbn [plus group_loop group_step].
    rewrite !drop_app_length, !take_app_length. by destruct (whole <=? _)%nat.
  - destruct (whole <=? _)%nat; [|done]. apply (tiles_one key (mkGroup _ _ _)). by apply shares_run.
Qed.

(** Sorted keys are grouped within the fuel. *)
Lemma groups_ok k order :
  (0 < length order)%nat ->
  (forall i j r r', (i <= j)%nat -> order !! i = Some r -> order !! j = Some r' -> row_le k r r') ->
  exists gs, groups k order = Some gs /\ tiles (fun i => row_key k (default 0%nat (order !! i))) 0 (length order) gs.
Proof.
  intros Hn Hs. set (key := fun i => row_key k (default 0%nat (order !! i))).
  destruct (visit_total key 0 (length order)) as (n & gs & c & Hf & He & Ht); [lia| |].
  - intros i j _ Hij Hj. destruct (lookup_lt_is_Some_2 order i) as [r Hr]; [lia|].
    destruct (lookup_lt_is_Some_2 order j) as [r' Hr']; [lia|]. unfold key. rewrite Hr, Hr'. exact (Hs i j r r' Hij Hr Hr').
  - exists gs. split; [|done]. unfold groups. fold key.
    replace (3 * length order)%nat with (n + (3 * length order - n))%nat by lia.
    specialize (He (3 * length order - n)%nat [] [] []). rewrite app_nil_r in He. rewrite He.
    by destruct (3 * length order - n)%nat.
Qed.

(** ** The compressed table *)

(** The rows of a group. *)
Definition rows_of (order : list nat) (g : Group) : list nat := slice (g_start g) (g_end g - g_start g) order.

(** The bytes of some rows' keys. *)
Definition weight (k : Keys) (rs : list nat) : nat := sum_list_with (fun r => length (row_key k r)) rs.

(** While the rows [D] of [k] are written to [next]. *)
Record packing (k : Keys) (D : list nat) (next : Keys) : Prop := {
  p_uwf : uwf next;
  p_garbage : garbage next = 0%nat;
  p_rows : length (rows next) = length (rows k);
  p_ids : length (prefix_ids next) = length (rows next);
  p_holds : exists m, holds next m /\ forall row, row ∈ D -> m !! row = Some (row_key k row);
  p_rest : forall row s, rows next !! row = Some s -> row ∉ D -> s = Span_default
}.

Lemma packing_perm k D D' next : packing k D next -> D ≡ₚ D' -> packing k D' next.
Proof.
  intros [P1 P2 P3 P4 (m & Hm & HmD) P6] HD. split; try done.
  - exists m. split; [done|]. intros row. rewrite <-HD. apply HmD.
  - intros row s. rewrite <-HD. apply P6.
Qed.

Lemma compress_rows_ok k prefix pre id group D next :
  packing k D next -> (forall r, r ∈ group -> (r < length (rows k))%nat /\ (r ∉ D) /\ take prefix (row_key k r) = pre) ->
  NoDup group -> id_reads (prefixes next) (prefix_bytes next) id pre ->
  Z.of_nat (length (suffixes next) + weight k group) <= U32_MAX ->
  exists next', compress_rows k prefix id group next = Some next' /\ packing k (group ++ D) next' /\
    prefixes next' = prefixes next /\ prefix_bytes next' = prefix_bytes next /\
    (length (suffixes next') <= length (suffixes next) + weight k group)%nat.
Proof.
  revert D next. induction group as [|row group IH]; intros D next Hp Hg Hnd Hid Hfit.
  { exists next. splits; try done. lia. }
  destruct Hp as [P1 P2 P3 P4 (m & Hm & HmD) P6]. apply NoDup_cons in Hnd as [Hnin Hnd].
  destruct (Hg row) as (Hlt & HnD & Hpre); [by left|]. unfold weight in Hfit |- *. cbn [sum_list_with] in Hfit |- *.
  pose proof (length_drop (row_key k row) prefix) as Hdl. cbn [compress_rows].
  assert (blen (suffixes next) + blen (drop prefix (row_key k row)) <= U32_MAX) as Hb by (unfold blen; lia).
  destruct (Span_append_ok _ _ Hb) as (-> & Hin & Hget). cbn [unwrap mbind option_bind].
  destruct (lookup_lt_is_Some_2 (rows next) row) as [old Hold]; [lia|].
  pose proof (P6 _ _ Hold HnD) as ->.
  destruct (replace_row next m row Span_default (mkSpan (length (suffixes next)) (length (drop prefix (row_key k row))))
    (drop prefix (row_key k row)) pre (<[row := id]> (prefix_ids next)) (prefixes next) (prefix_bytes next)
    P1 Hm Hold Hin eq_refl Hget Hb (extends_refl _ P1)) as [Hu' Hh'].
  { right. by exists id. }
  rewrite P2 in Hu', Hh'. cbn [sp_len Span_default plus] in Hu', Hh'. rewrite <-Hpre, take_drop in Hh'.
  pose proof (proj1 (holds_u _ _ (u_offsets _ P1)) Hm) as [Hlm _].
  match type of Hu' with uwf ?x => set (next1 := x) in * end.
  assert (packing k (row :: D) next1) as Hp1.
  { split; cbn; try done.
    - by rewrite length_insert.
    - by rewrite !length_insert.
    - eexists. split; [exact Hh'|]. intros r [->|Hr]%elem_of_cons; [apply list_lookup_insert_eq; lia|].
      rewrite list_lookup_insert_ne by congruence. by apply HmD.
    - intros r s Hs Hr. apply not_elem_of_cons in Hr as [Hne Hr]. rewrite list_lookup_insert_ne in Hs by done. by eapply P6. }
  destruct (IH (row :: D) next1 Hp1) as (next' & E & Hp' & Hps & Hpb & Hlen); [|done|done| |].
  - intros r Hr. destruct (Hg r) as (? & ? & ?); [by right|]. splits; try done. apply not_elem_of_cons. split; [congruence|done].
  - cbn. rewrite length_app. unfold weight. lia.
  - exists next'. splits; [exact E| |done|done|].
    + eapply packing_perm; [exact Hp'|]. by rewrite <-Permutation_middle.
    + cbn [SmallKeys.suffixes next1] in Hlen. rewrite length_app in Hlen. unfold weight in Hlen. lia.
Qed.

(** A new prefix. *)
Lemma packing_extend k D next pre :
  packing k D next -> pre <> [] -> blen (prefix_bytes next) + blen pre <= U32_MAX ->
  let next1 := mkKeys (rows next) [] (suffixes next) (prefix_ids next)
    (prefixes next ++ [mkSpan (length (prefix_bytes next)) (length pre)]) (prefix_bytes next ++ pre) 0 in
  packing k D next1 /\ id_reads (prefixes next1) (prefix_bytes next1) (Z.of_nat (length (prefixes next))) pre.
Proof.
  intros [P1 P2 P3 P4 (m & Hm & HmD) P6] Hne Hfit next1. destruct (Span_append_ok _ _ Hfit) as (_ & Hin & Hget).
  assert (uwf next1) as Hu.
  { destruct P1 as [H1 H2 H3 H4 H5 H6 H7 H8 H9]. split; cbn; try done.
    - rewrite <-P2. exact H3.
    - eapply Forall_impl; [exact H6|]. intros x [->|Hx]; [by left|right]. rewrite length_app. lia.
    - apply Forall_app. split.
      + eapply Forall_impl; [exact H7|]. intros s [? ?]. split; [by apply in_range_app|done].
      + repeat constructor; [exact Hin|]. cbn. destruct pre; [done|cbn; lia].
    - fold (sum_len (prefixes next ++ [mkSpan (length (prefix_bytes next)) (length pre)])).
      rewrite sum_len_app, length_app, H8. unfold sum_len. cbn. lia.
    - unfold blen in *. rewrite length_app. lia. }
  assert (holds next1 m) as Hh.
  { rewrite holds_u in Hm |- * by (done || apply P1). destruct Hm as [Hl Hm]. split; [done|].
    intros row s Hs. rewrite (Hm row s Hs). do 2 f_equal. symmetry. apply prefix_at_extend; try done; by eexists. }
  split; [split; try done; by exists m|]. right. cbn. rewrite length_app. cbn [length]. split; [lia|].
  eexists. by rewrite get_u32_lookup, lookup_app_r, Nat.sub_diag by lia.
Qed.

Lemma elem_of_rows_of order g r : r ∈ rows_of order g <-> exists i, (g_start g <= i < g_end g)%nat /\ order !! i = Some r.
Proof.
  unfold rows_of, slice. rewrite list_elem_of_lookup. split.
  - intros [i Hi]. apply lookup_take_Some in Hi as [Hi Hlt]. rewrite lookup_drop in Hi. exists (g_start g + i)%nat. split; [lia|done].
  - intros (i & Hr & Hi). exists (i - g_start g)%nat. apply lookup_take_Some. rewrite lookup_drop. split; [|lia].
    by replace (g_start g + (i - g_start g))%nat with i by lia.
Qed.

Lemma weight_app k rs rs' : weight k (rs ++ rs') = (weight k rs + weight k rs')%nat.
Proof. unfold weight. by rewrite sum_list_with_app. Qed.

Lemma weight_elem k rs r : r ∈ rs -> (length (row_key k r) <= weight k rs)%nat.
Proof. intros Hr. unfold weight. induction Hr as [|r x rs Hr IH]; cbn; lia. Qed.

Definition all_rows (order : list nat) (gs : list Group) : list nat := mjoin (rows_of order <$> gs).

Lemma all_rows_cons order g gs : all_rows order (g :: gs) = rows_of order g ++ all_rows order gs.
Proof. done. Qed.

Lemma compress_group_ok k order g D next :
  packing k D next -> Forall (fun r => (r < length (rows k))%nat) order ->
  shares (fun i => row_key k (default 0%nat (order !! i))) g -> (g_end g <= length order)%nat ->
  NoDup (rows_of order g) -> (forall r, r ∈ rows_of order g -> r ∉ D) ->
  Z.of_nat (length (suffixes next) + weight k (rows_of order g)) <= U32_MAX ->
  Z.of_nat (length (prefix_bytes next) + weight k (rows_of order g)) <= U32_MAX ->
  exists next1, compress_group k order g next = Some next1 /\ packing k (rows_of order g ++ D) next1 /\
    (length (suffixes next1) <= length (suffixes next) + weight k (rows_of order g))%nat /\
    (length (prefix_bytes next1) <= length (prefix_bytes next) + weight k (rows_of order g))%nat.
Proof.
  intros Hp Ho [Hlt Hsh] Hend Hnd Hdis Hf1 Hf2.
  destruct (lookup_lt_is_Some_2 order (g_start g)) as [first Hfirst]; [lia|].
  assert (forall r, r ∈ rows_of order g -> (r < length (rows k))%nat /\ (r ∉ D) /\
    take (g_prefix g) (row_key k r) = take (g_prefix g) (row_key k first)) as Hrows.
  { intros r Hr. splits; [|by apply Hdis|]; apply elem_of_rows_of in Hr as (i & Hi & Hri).
    - exact (Forall_lookup_1 _ _ _ _ Ho Hri).
    - destruct (Hsh i Hi) as [E _]. rewrite Hri, Hfirst in E. exact E. }
  unfold compress_group. fold (rows_of order g). destruct (Nat.eqb_spec (g_prefix g) 0) as [E0|Hne].
  - destruct (compress_rows_ok k 0 [] U32_MAX (rows_of order g) D next) as (next1 & E & Hp1 & _ & Hpb & Hl); try done.
    { intros r Hr. destruct (Hrows r Hr) as (? & ? & _). splits; done. } { by left. }
    exists next1. splits; try done. rewrite Hpb. lia.
  - rewrite Hfirst. cbn [mbind option_bind]. destruct (Hsh (g_start g)) as [_ Hle]; [lia|]. rewrite Hfirst in Hle. cbn [default id] in Hle.
    assert (first ∈ rows_of order g) as Hin by (apply elem_of_rows_of; exists (g_start g); split; [lia|done]).
    pose proof (weight_elem k _ _ Hin) as Hw. pose proof (length_take (row_key k first) (g_prefix g)) as Htl.
    assert (blen (prefix_bytes next) + blen (take (g_prefix g) (row_key k first)) <= U32_MAX) as Hb by (unfold blen; lia).
    destruct (Span_append_ok _ _ Hb) as (-> & _ & _). cbn [unwrap mbind option_bind].
    destruct (packing_extend k D next (take (g_prefix g) (row_key k first)) Hp) as [Hp' Hid]; [|done|].
    { intros E. rewrite E in Htl. cbn in Htl. lia. }
    destruct (compress_rows_ok k (g_prefix g) (take (g_prefix g) (row_key k first)) (Z.of_nat (length (prefixes next)))
      (rows_of order g) D _ Hp' Hrows Hnd Hid) as (next1 & E & Hp1 & _ & Hpb & Hl); [done|].
    exists next1. splits; try done. rewrite Hpb. cbn. rewrite length_app. lia.
Qed.

Lemma compress_groups_ok k order gs D next :
  packing k D next -> Forall (fun r => (r < length (rows k))%nat) order ->
  Forall (fun g => shares (fun i => row_key k (default 0%nat (order !! i))) g /\ (g_end g <= length order)%nat) gs ->
  NoDup (all_rows order gs ++ D) ->
  Z.of_nat (length (suffixes next) + weight k (all_rows order gs)) <= U32_MAX ->
  Z.of_nat (length (prefix_bytes next) + weight k (all_rows order gs)) <= U32_MAX ->
  exists next', compress_groups k order gs next = Some next' /\ packing k (all_rows order gs ++ D) next'.
Proof.
  revert D next. induction gs as [|g gs IH]; intros D next Hp Ho Hg Hnd Hf1 Hf2; [by exists next|].
  apply Forall_cons in Hg as [[Hsh Hend] Hg]. rewrite all_rows_cons in *.
  rewrite weight_app in Hf1, Hf2. rewrite <-app_assoc in Hnd. apply NoDup_app in Hnd as (Hnd1 & Hdis & Hnd2).
  destruct (compress_group_ok k order g D next) as (next1 & E1 & Hp1 & Hl1 & Hl2); try done; [|lia|lia|].
  { intros r Hr HD. apply (Hdis r Hr), elem_of_app. by right. }
  cbn [compress_groups]. rewrite E1. cbn [mbind option_bind].
  destruct (IH (rows_of order g ++ D) next1) as (next' & -> & Hp'); try done; [|lia|lia|].
  - rewrite app_assoc, (Permutation_app_comm _ (rows_of order g)), <-app_assoc. apply NoDup_app. done.
  - exists next'. split; [done|]. eapply packing_perm; [exact Hp'|].
    by rewrite !app_assoc, (Permutation_app_comm _ (rows_of order g)).
Qed.

(** ** Sealing *)

Lemma rows_of_seq order g : (g_end g <= length order)%nat ->
  rows_of order g = omap (fun i => order !! i) (seq (g_start g) (g_end g - g_start g)).
Proof.
  unfold rows_of, slice. intros He. generalize (g_start g) as s, (g_end g - g_start g)%nat as n.
  intros s n. revert s. induction n as [|n IH]; intros s; [by rewrite take_0|]. cbn [seq omap list_omap].
  destruct (order !! s) as [r|] eqn:Er.
  - rewrite (drop_S _ _ _ Er). cbn [take]. by rewrite IH.
  - apply lookup_ge_None in Er. rewrite drop_ge, take_nil by lia. rewrite <-IH, drop_ge, take_nil by lia. done.
Qed.

Lemma all_rows_tile order gs :
  Forall (fun g => (g_end g <= length order)%nat) gs -> positions gs ≡ₚ seq 0 (length order) -> all_rows order gs ≡ₚ order.
Proof.
  intros Hg Hp. assert (all_rows order gs = omap (fun i => order !! i) (positions gs)) as ->.
  { clear Hp. induction Hg as [|g gs He Hg IH]; [done|]. rewrite all_rows_cons, IH, rows_of_seq by done.
    change (positions (g :: gs)) with (seq (g_start g) (g_end g - g_start g) ++ positions gs). by rewrite omap_app. }
  rewrite Hp. pose proof (rows_of_seq order (mkGroup 0 (length order) 0) (le_n _)) as E.
  unfold rows_of, slice in E. cbn [g_start g_end] in E. by rewrite Nat.sub_0_r, drop_0, take_ge in E by lia; rewrite <-E.
Qed.

#[export] Instance row_le_trans k : Transitive (row_le k).
Proof. intros a b c. unfold row_le. apply bytes_leb_trans. Qed.

#[export] Instance row_le_total k : Total (row_le k).
Proof. intros a b. apply bytes_leb_total. Qed.

Lemma sorted_lookup k order i j r r' :
  StronglySorted (row_le k) order -> (i <= j)%nat -> order !! i = Some r -> order !! j = Some r' -> row_le k r r'.
Proof.
  intros Hs. revert i j. induction Hs as [|x l Hs IH Hx]; intros i j Hij Hi Hj; [done|].
  destruct i as [|i], j as [|j]; cbn in Hi, Hj; simplify_eq; [apply bytes_leb_refl| |lia|].
  - exact (Forall_lookup_1 _ _ _ _ Hx Hj).
  - apply (IH i j); [lia|done|done].
Qed.

Lemma sorted_rows_spec k :
  sorted_rows k ≡ₚ seq 0 (length (rows k)) /\
  forall i j r r', (i <= j)%nat -> sorted_rows k !! i = Some r -> sorted_rows k !! j = Some r' -> row_le k r r'.
Proof.
  split; [apply merge_sort_Permutation|]. intros i j r r'. apply sorted_lookup.
  apply StronglySorted_merge_sort; apply _.
Qed.

Lemma packing_start k :
  packing k [] (mkKeys (replicate (length (rows k)) Span_default) [] [] (replicate (length (rows k)) U32_MAX) [] [] 0).
Proof.
  assert (uwf (mkKeys (replicate (length (rows k)) Span_default) [] [] (replicate (length (rows k)) U32_MAX) [] [] 0)) as Hu.
  { split; cbn; try done; try (by constructor).
    - apply Forall_replicate. unfold in_range. cbn. lia.
    - rewrite Nat.add_0_r. induction (length (rows k)); cbn; lia.
    - right. by rewrite !length_replicate.
    - apply Forall_replicate. by left. }
  split; cbn; try done.
  - by rewrite length_replicate.
  - by rewrite !length_replicate.
  - exists (replicate (length (rows k)) []). split; [|by intros row Hr%elem_of_nil]. apply holds_u; [done|]. cbn.
    split; [by rewrite !length_replicate|]. intros row s [-> Hlt]%lookup_replicate. rewrite lookup_replicate_2 by done.
    rewrite (id_max _ _ Hu); [done|]. left. by apply lookup_replicate_2.
  - by intros row s [-> _]%lookup_replicate.
Qed.

Lemma weight_concat k rs : weight k rs = length (concat (row_key k <$> rs)).
Proof. unfold weight. induction rs as [|r rs IH]; [done|]. cbn. rewrite length_app. lia. Qed.

Lemma weight_all k : uwf k -> weight k (seq 0 (length (rows k))) = sum_len (rows k).
Proof.
  intros Hu. rewrite weight_concat, <-parts_sum by done. do 2 f_equal. apply list_eq. intros i. rewrite !list_lookup_fmap.
  destruct (rows k !! i) as [s|] eqn:Es.
  - rewrite lookup_seq_lt by by eapply lookup_lt_Some. cbn. unfold row_key. by rewrite Es.
  - apply lookup_ge_None in Es. by rewrite lookup_seq_ge by lia.
Qed.

#[export] Instance weight_proper k : Proper ((≡ₚ) ==> eq) (weight k).
Proof. intros rs rs' Hp. unfold weight. induction Hp; cbn; lia. Qed.

(** Plain rows: no prefixes are shared. *)
Lemma row_key_holds k l row x : uwf k -> prefix_ids k = [] -> holds k l -> l !! row = Some x -> row_key k row = x.
Proof.
  intros Hu Hids [_ Hh] Hx. specialize (Hh _ _ Hx). rewrite key_at_u in Hh by apply Hu. unfold row_key.
  destruct (rows k !! row) as [s|]; [|done]. cbn in Hh. unfold prefix_at in Hh. rewrite Hids in Hh. by injection Hh.
Qed.

Lemma packing_done k l D next :
  uwf k -> prefix_ids k = [] -> holds k l -> packing k D next -> D ≡ₚ seq 0 (length (rows k)) -> holds next l.
Proof.
  intros Hu Hids Hh [P1 _ P3 _ (m & Hm & HmD) _] HD. pose proof (proj1 (holds_u _ _ (u_offsets k Hu)) Hh) as [Hl _].
  pose proof (proj1 (holds_u _ _ (u_offsets next P1)) Hm) as [Hl' _]. replace l with m; [done|].
  apply list_eq_same_length with (n := length l); [done|lia|]. intros i x y Hi Hx Hy.
  rewrite (HmD i) in Hx by (rewrite HD; apply elem_of_seq; lia). injection Hx as <-.
  by apply (row_key_holds k l).
Qed.

Lemma tile_ends key n gs : tiles key 0 n gs -> Forall (fun g => shares key g /\ (g_end g <= n)%nat) gs.
Proof.
  intros [Hp Hs]. rewrite Nat.sub_0_r in Hp. apply Forall_forall. intros g Hg.
  pose proof (proj1 (Forall_forall _ _) Hs g Hg) as Hsg. split; [done|]. destruct Hsg as [Hlt _].
  assert ((g_end g - 1)%nat ∈ positions gs) as Hin.
  { unfold positions. apply list_elem_of_join. exists (seq (g_start g) (g_end g - g_start g)). split; [apply elem_of_seq; lia|].
    apply list_elem_of_fmap. by exists g. }
  rewrite Hp in Hin. apply elem_of_seq in Hin. lia.
Qed.

(** Rows without garbage or prefixes. *)
Lemma compress_plain k l :
  uwf k -> prefix_ids k = [] -> holds k l -> rows k <> [] ->
  exists gs next, groups k (sorted_rows k) = Some gs /\ compress_groups k (sorted_rows k) gs
    (mkKeys (replicate (length (rows k)) Span_default) [] [] (replicate (length (rows k)) U32_MAX) [] [] 0) = Some next /\
    uwf next /\ holds next l.
Proof.
  intros Hu Hids Hh Hne. destruct (sorted_rows_spec k) as [Hperm Hsort].
  pose proof (Permutation_length Hperm) as Hlen. rewrite length_seq in Hlen.
  destruct (groups_ok k (sorted_rows k)) as (gs & Hgs & Ht); [destruct (rows k); cbn in *; [done|lia]|exact Hsort|].
  pose proof (tile_ends _ _ _ Ht) as Hends. destruct Ht as [Hpos _]. rewrite Nat.sub_0_r in Hpos.
  assert (all_rows (sorted_rows k) gs ≡ₚ seq 0 (length (rows k))) as Hall.
  { rewrite <-Hperm. apply all_rows_tile; [|done]. eapply Forall_impl; [exact Hends|]. by intros g [_ ?]. }
  assert (Z.of_nat (weight k (all_rows (sorted_rows k) gs)) <= U32_MAX) as Hw.
  { rewrite Hall, weight_all by done. pose proof (u_sum k Hu). pose proof (u_suffixes k Hu) as Hb. unfold blen in Hb. lia. }
  destruct (compress_groups_ok k (sorted_rows k) gs [] _ (packing_start k)) as (next & E & Hp); try done.
  { rewrite Hperm. apply Forall_forall. intros r Hr. apply elem_of_seq in Hr. lia. }
  { rewrite app_nil_r, Hall. apply NoDup_seq. }
  exists gs, next. splits; [done|done|apply Hp|]. rewrite app_nil_r in Hp. by eapply packing_done.
Qed.

Lemma compress_ok k l : uwf k -> holds k l -> exists k', compress k = Some k' /\ uwf k' /\ holds k' l.
Proof.
  intros Hu Hh. unfold compress. destruct (is_nil (rows k)) eqn:Er; [by exists k|]. cbn [orb].
  destruct (prefix_ids k) eqn:Ei; cbn [is_nil negb]; [|by exists k].
  assert (exists k1, (if (garbage k =? 0)%nat then Some k else retain k (fun _ => true)) = Some k1 /\ uwf k1 /\ holds k1 l /\
    prefix_ids k1 = [] /\ rows k1 <> []) as (k1 & -> & Hu1 & Hh1 & Hi1 & Hr1).
  { destruct (garbage k =? 0)%nat; [exists k; splits; try done; by destruct (rows k)|].
    destruct (retain_ok k (fun _ => true) l (uwf_wf _ Hu) Hh) as (k1 & -> & _ & Hh1 & _ & Hr).
    destruct (Hr (u_offsets k Hu)) as (Hu1 & _ & _ & Hi). rewrite kept_all in Hh1. exists k1. splits; [done|done|done|by apply Hi|].
    apply holds_u in Hh1 as [Hl1 _]; [|apply Hu1]. apply holds_u in Hh as [Hl _]; [|apply Hu].
    destruct (rows k), (rows k1); cbn in *; congruence. }
  cbn [mbind option_bind]. destruct (compress_plain k1 l Hu1 Hi1 Hh1 Hr1) as (gs & next & -> & E & Hu' & Hh').
  cbn [mbind option_bind]. destruct (_ <=? _)%nat; [by exists k1|]. by exists next.
Qed.

Lemma seal_ok k l : wf k -> holds k l -> exists k', seal k = Some k' /\ wf k' /\ holds k' l /\ offsets k' <> [].
Proof.
  intros [Hu Hs] Hh. unfold seal. destruct (offsets k) as [|o os] eqn:Eo; cbn [is_nil].
  - unfold unfreeze in Hu. rewrite Eo in Hu. cbn [is_nil] in Hu. destruct (compress_ok k l Hu Hh) as (k1 & -> & Hu1 & Hh1).
    eexists. split; [done|]. by apply freeze_ok.
  - exists k. splits; [done|by split|done|by rewrite Eo].
Qed.

(** ** Any sequence of operations *)

Inductive Edit :=
  | EInsert (row : nat) (key : list byte) (replace : bool)
  | ERemove (row : nat)
  | ERetain (keep : nat -> bool)
  | ESeal.

Definition edit (k : Keys) (e : Edit) : option (result io_error Keys) :=
  match e with
  | EInsert row key replace => insert k row key replace
  | ERemove row => Ok <$> remove k row
  | ERetain keep => Ok <$> retain k keep
  | ESeal => Ok <$> seal k
  end.

Fixpoint edits (k : Keys) (es : list Edit) : option (result io_error Keys) :=
  match es with
  | [] => Some (Ok k)
  | e :: es =>
    match edit k e with
    | Some (Ok k) => edits k es
    | r => r
    end
  end.

(** What the edits do to the list of keys. Rows exist, and the keys fit 32-bit offsets; a sealed
    table ignores removals. *)
Definition edit_spec (st : list (list byte) * bool) (e : Edit) : option (list (list byte) * bool) :=
  let '(l, sealed) := st in
  match e with
  | EInsert row key replace =>
    if (if replace then row <? length l else row <=? length l)%nat && (total l + blen key <=? U32_MAX)
    then Some (inserted l row key replace, false) else None
  | ERemove row => if (row <? length l)%nat then Some (if sealed then l else <[row := []]> l, sealed) else None
  | ERetain keep => Some (kept keep 0 l, sealed)
  | ESeal => Some (l, true)
  end.

Fixpoint edits_spec (st : list (list byte) * bool) (es : list Edit) : option (list (list byte) * bool) :=
  match es with
  | [] => Some st
  | e :: es => st ← edit_spec st e; edits_spec st es
  end.

Definition table_ok (k : Keys) (st : list (list byte) * bool) : Prop :=
  wf k /\ holds k st.1 /\ is_nil (offsets k) = negb st.2.

Lemma live_total k l : wf k -> holds k l -> live k <= total l.
Proof.
  intros [Hu _] Hh%holds_unfreeze. unfold live, total. apply holds_u in Hh as [Hn Hh]; [|apply Hu].
  pose proof (u_rows _ Hu) as Hr. revert Hn Hh Hr. generalize (unfreeze k) as ku. intros ku Hn Hh Hr.
  apply Nat2Z.inj_le. rewrite (sum_len_get _ _ Hr). revert l Hn Hh.
  assert (forall (a b : list (list byte)), Forall2 (fun x y => (length x <= length y)%nat) a b -> (sum_list_with length a <= sum_list_with length b)%nat) as Hmono
    by (induction 1; cbn; lia).
  intros l Hn Hh. apply Hmono. apply Forall2_same_length_lookup_2; [by rewrite length_fmap|].
  intros i x y Hx Hy. rewrite list_lookup_fmap in Hx. apply fmap_Some in Hx as (s & Hs & ->).
  rewrite (Hh _ _ Hs) in Hy. injection Hy as <-. rewrite length_app. lia.
Qed.

Lemma edit_ok k st e st' : table_ok k st -> edit_spec st e = Some st' -> exists k', edit k e = Some (Ok k') /\ table_ok k' st'.
Proof.
  intros (Hw & Hh & Ho) Hs. destruct st as [l sealed]. cbn [fst snd] in *. destruct e as [row key replace|row|keep|]; cbn [edit_spec edit] in *.
  - destruct (_ && _) eqn:E; [|done]. injection Hs as <-. apply andb_true_iff in E as [Er Et%Z.leb_le].
    pose proof (insert_ok k l row key replace Hw Hh) as Hi. pose proof (live_total k l Hw Hh).
    destruct (insert k row key replace) as [[k'|]|].
    + destruct Hi as (Hu & Hh' & _); [by destruct replace; [apply Nat.ltb_lt|apply Nat.leb_le]|].
      exists k'. splits; [done|]. unfold table_ok. splits; [by apply uwf_wf|done|by rewrite (u_offsets _ Hu)].
    + exfalso. enough (U32_MAX < live k + blen key) by lia. apply Hi. by destruct replace; [apply Nat.ltb_lt|apply Nat.leb_le].
    + destruct Hi. by destruct replace; [apply Nat.ltb_lt|apply Nat.leb_le].
  - destruct (Nat.ltb_spec row (length l)) as [Hlt|]; [|done]. injection Hs as <-.
    destruct (remove_ok k l row Hw Hh Hlt) as (k' & -> & Hw' & Hh' & Ho' & _). exists k'. split; [done|].
    unfold table_ok. cbn. rewrite Ho', Ho. splits; [done| |done]. rewrite Ho in Hh'. by destruct sealed.
  - injection Hs as <-. destruct (retain_ok k keep l Hw Hh) as (k' & -> & Hw' & Hh' & Ho' & _). exists k'. split; [done|].
    unfold table_ok. cbn. by rewrite Ho', Ho.
  - injection Hs as <-. destruct (seal_ok k l Hw Hh) as (k' & -> & Hw' & Hh' & Ho'). exists k'. split; [done|].
    unfold table_ok. cbn. splits; [done|done|by destruct (offsets k')].
Qed.

(** C7: The compressed key table is a list of keys. After any sequence of insertions,
    replacements, removals, repackings and seals on rows that exist, no operation panicked or
    failed and every row reads back exactly its key, however prefixes are shared between rows. *)
Theorem table_refines (es : list Edit) :
  match edits_spec ([], false) es with
  | Some (l, sealed) => exists k, edits Keys_default es = Some (Ok k) /\
      (forall row, (fun ps => ps.1 ++ ps.2) <$> get k row = l !! row)
  | None => True
  end.
Proof.
  assert (forall k st st', table_ok k st -> edits_spec st es = Some st' -> exists k', edits k es = Some (Ok k') /\ table_ok k' st') as Hrun.
  { induction es as [|e es IH]; intros k st st' Hk Hs; cbn in *; [injection Hs as <-; by exists k|].
    destruct (edit_spec st e) as [st1|] eqn:E; [|done]. destruct (edit_ok k st e st1 Hk E) as (k1 & -> & Hk1). by eapply IH. }
  destruct (edits_spec ([], false) es) as [[l sealed]|] eqn:E; [|done].
  destruct (Hrun Keys_default ([], false) (l, sealed)) as (k & -> & (Hw & Hh & _)); [|done|].
  { split; [apply wf_default|]. split; [by split|done]. }
  exists k. split; [done|]. intros row. destruct Hh as [Hn Hh]. cbn [fst] in *. destruct (l !! row) as [x|] eqn:Ex; [by apply Hh|].
  apply lookup_ge_None in Ex. fold (key_at k row). rewrite <-key_at_unfreeze, key_at_u by apply Hw.
  rewrite lookup_ge_None_2; [done|]. rewrite <-length_unfreeze in Hn. unfold length_rows in Hn.
  rewrite (u_offsets _ (proj1 Hw)) in Hn. cbn [is_nil] in Hn. lia.
Qed.

End SmallSeal.
