(* ===== verification/SmallRecords.v ===== *)
(** The records of a small-object segment (crates/talon-worker/src/small_store/records.rs):
    fixed-width rows ordered by offset beside the key table, with tombstones that are compacted
    away. The map from offsets to records is recovered from every reachable table. *)

From S2P Require Import Prelude External Bytes Key SmallKey SmallKeys SmallTable SmallSeal.

(** The hasher of the process is seeded at random: any function to 64 bits. *)
Class KeyHash := {
  key_hash : SmallKey.SmallKey.SmallKey -> Z;
  key_hash_u64 : forall k, is_u64 (key_hash k)
}.

Module SmallRecords.
Import SmallKey SmallTable SmallSeal.

(** [Record] of journal/model.rs. *)
Record SmallRecord := mkRecord { r_key : SmallKey; r_len : Z; r_checksum : Z }.

Definition WIDTH : nat := 26.

(** A row is [WIDTH] bytes. *)
Definition Row : Type := list byte.

Record Records := mkRecords { r_rows : list Row; r_keys : SmallKeys.Keys; r_live : nat }.

Definition Records_default : Records := mkRecords [] SmallKeys.Keys_default 0.

Record Metadata := mkMetadata { m_offset : Z; m_len : Z; m_checksum : Z; m_hash : Z; m_charge : Z }.

Definition n32 (row : Row) (i : nat) : Z := le_val (slice i 4 row).

Definition row_offset (row : Row) : Z := n32 row 0.
Definition row_len (row : Row) : Z := n32 row 4.
Definition row_live (row : Row) : bool := negb (row_len row =? 0).

(** [row[4..8].fill(0)] *)
Definition clear_len (row : Row) : Row := take 4 row ++ replicate 4 x00 ++ drop 8 row.

(** [partition_point] of a slice in which the rows that satisfy [p] come first. *)
Fixpoint partition_point {A} (p : A -> bool) (l : list A) : nat :=
  match l with
  | x :: l => if p x then S (partition_point p l) else 0%nat
  | [] => 0%nat
  end.

Definition metadata (r : Records) (row : nat) : option Metadata :=
  row ← r_rows r !! row;
  let len := row_len row in
  if len =? 0 then None else
  Some (mkMetadata (row_offset row) len (le_val (slice 8 8 row)) (le_val (slice 16 8 row))
          (len + le_val (slice 24 2 row) + 25 + 37)).

Definition matches (r : Records) (row : nat) (key : list byte) : bool :=
  match metadata r row, SmallKeys.get (r_keys r) row with
  | Some _, Some (prefix, suffix) =>
    (length key =? length prefix + length suffix)%nat &&
    bool_decide (take (length prefix) key = prefix) && bool_decide (drop (length prefix) key = suffix)
  | _, _ => false
  end.

(** A panic is [None]. *)
Definition get (r : Records) (row : nat) : option (option (Z * SmallRecord)) :=
  match metadata r row with
  | None => Some None
  | Some meta =>
    '(prefix, suffix) ← SmallKeys.get (r_keys r) row;
    key ← decode (prefix ++ suffix);
    Some (Some (m_offset meta, mkRecord key (m_len meta) (m_checksum meta)))
  end.

(** The items of [filter_map] over the rows of [ns]. *)
Fixpoint get_rows (r : Records) (ns : list nat) : option (list (Z * SmallRecord)) :=
  match ns with
  | [] => Some []
  | n :: ns =>
    item ← get r n;
    items ← get_rows r ns;
    Some (match item with Some x => x :: items | None => items end)
  end.

Definition iter (r : Records) : option (list (Z * SmallRecord)) := get_rows r (seq 0 (length (r_rows r))).

Fixpoint take_while {A} (p : A -> bool) (l : list A) : list A :=
  match l with
  | x :: l => if p x then x :: take_while p l else []
  | [] => []
  end.

Definition before (r : Records) (end_ : Z) : option (list (Z * SmallRecord)) :=
  take_while (fun x => x.1 <? end_) <$> iter r.

Definition position (r : Records) (offset : Z) : nat := partition_point (fun row => row_offset row <? offset) (r_rows r).

Fixpoint find_row (p : Row -> bool) (l : list Row) : option Row :=
  match l with
  | x :: l => if p x then Some x else find_row p l
  | [] => None
  end.

Definition overlaps (r : Records) (offset len : Z) : bool :=
  let next := position r offset in
  match find_row row_live (reverse (take next (r_rows r))) with
  | Some row => offset <? row_offset row + row_len row
  | None => false
  end ||
  match find_row row_live (drop next (r_rows r)) with
  | Some row => row_offset row <? offset + len
  | None => false
  end.

Definition crosses (r : Records) (end_ : Z) : bool :=
  match find_row row_live (reverse (take (position r end_) (r_rows r))) with
  | Some row => end_ <? row_offset row + row_len row
  | None => false
  end.

Definition valid_record (offset : Z) (record : SmallRecord) : bool :=
  valid_extent (r_key record) (r_len record) && (offset <? 2 ^ 30) && negb (r_len record =? 0) &&
  (r_len record <=? Z.shiftl 128 20) && (offset + r_len record <=? 2 ^ 30).

Section Hash.
Context `{KeyHash}.

Definition encode_row (offset : Z) (record : SmallRecord) : Row :=
  le_bytes 4 (wrap 32 offset) ++ le_bytes 4 (wrap 32 (r_len record)) ++ le_bytes 8 (r_checksum record) ++
  le_bytes 8 (key_hash (r_key record)) ++ le_bytes 2 (wrap 16 (key_len (r_key record) - 25)).

Definition insert (r : Records) (offset : Z) (record : SmallRecord) : option (result io_error (nat * Records)) :=
  match validate_key (r_key record) with
  | Err e => Some (Err e)
  | Ok _ =>
    if negb (valid_record offset record) then Some (Err (invalid "invalid small-object record extent")) else
    let row := encode_row offset record in
    let key := encode (r_key record) in
    let vacant := position r offset in
    let replace :=
      match r_rows r !! vacant with
      | Some row => (row_offset row =? offset) && (row_len row =? 0)
      | None => false
      end in
    if replace then
      keys ← SmallKeys.insert (r_keys r) vacant key true;
      Some (keys ← keys; Ok (vacant, mkRecords (<[vacant := row]> (r_rows r)) keys (S (r_live r))))
    else
      let index := partition_point (fun row => row_offset row <=? offset) (r_rows r) in
      keys ← SmallKeys.insert (r_keys r) index key false;
      Some (keys ← keys; Ok (index, mkRecords (SmallKeys.insert_at index row (r_rows r)) keys (S (r_live r))))
  end.

End Hash.

(** The closure indexes the rows by the row of the key. *)
Definition compact (r : Records) : option Records :=
  if (length (r_rows r) <? SmallKeys.length_rows (r_keys r))%nat then None else
  keys ← SmallKeys.retain (r_keys r) (fun i => match r_rows r !! i with Some row => row_live row | None => false end);
  Some (mkRecords (filter (fun row => row_live row = true) (r_rows r)) keys (r_live r)).

(** The row that [remove] clears. *)
Definition find_index (r : Records) (offset : Z) : option nat :=
  let index := position r offset in
  let same := take_while (fun row => row_offset row =? offset) (drop index (r_rows r)) in
  let n := partition_point (fun row => negb (row_live row)) same in
  if (n <? length same)%nat then Some (index + n)%nat else None.

(** Outside [None] is a panic, inside it is the method's [None]. *)
Definition remove (r : Records) (offset : Z) : option (option Records) :=
  match find_index r offset with
  | None => Some None
  | Some index =>
    keys ← SmallKeys.remove (r_keys r) index;
    row ← r_rows r !! index;
    let live := (r_live r - 1)%nat in
    let r := mkRecords (<[index := clear_len row]> (r_rows r)) keys live in
    if (length (r_rows r) <=? (length (r_rows r) - live) * 100)%nat then Some <$> compact r
    else Some (Some r)
  end.

Fixpoint clear_from (end_ : Z) (l : list Row) (live : nat) : list Row * nat :=
  match l with
  | [] => ([], live)
  | row :: l =>
    if (end_ <=? row_offset row) && row_live row then
      let '(l, live) := clear_from end_ l (live - 1) in (clear_len row :: l, live)
    else let '(l, live) := clear_from end_ l live in (row :: l, live)
  end.

Definition retain_before (r : Records) (end_ : Z) : option Records :=
  let '(rows, live) := clear_from end_ (r_rows r) (r_live r) in
  compact (mkRecords rows (r_keys r) live).

Definition compacts_after_remove (r : Records) : bool :=
  (length (r_rows r) <=? (length (r_rows r) - r_live r + 1) * 100)%nat.

Definition seal (r : Records) : option Records :=
  keys ← SmallKeys.seal (r_keys r);
  Some (mkRecords (r_rows r) keys (r_live r)).

End SmallRecords.
