(* ===== verification/SmallExtents.v ===== *)
(** The record table of a segment implements a map from offsets to records: reading back, extent
    queries, insertion, deletion, truncation, compaction and sealing, without a panic. *)

From S2P Require Import Prelude External Bytes Key SmallKey SmallKeys SmallTable SmallSeal SmallRecords.

Module SmallExtents.
Import SmallKey SmallTable SmallSeal SmallRecords.

(** A row: a live record or a tombstone at an offset. *)
Abbreviation Slot := (Z * option SmallRecord)%type.

Definition content (s : Slot) : option (Z * SmallRecord) := (fun rec => (s.1, rec)) <$> s.2.

(** The records by offset. *)
Definition contents (c : list Slot) : list (Z * SmallRecord) := omap content c.

(** ** Lists *)

Lemma Forall3_take {A B C} (P : A -> B -> C -> Prop) n l k m :
  Forall3 P l k m -> Forall3 P (take n l) (take n k) (take n m).
Proof. intros Hf. revert n. induction Hf; intros [|n]; cbn; constructor; auto. Qed.

Lemma Forall3_drop {A B C} (P : A -> B -> C -> Prop) n l k m :
  Forall3 P l k m -> Forall3 P (drop n l) (drop n k) (drop n m).
Proof. intros Hf. revert n. induction Hf; intros [|n]; cbn; try constructor; auto. Qed.

Lemma Forall3_insert {A B C} (P : A -> B -> C -> Prop) n l k m x y z :
  Forall3 P l k m -> P x y z -> Forall3 P (<[n := x]> l) (<[n := y]> k) (<[n := z]> m).
Proof. intros Hf HP. revert n. induction Hf; intros [|n]; cbn; constructor; auto; apply IHHf. Qed.

Lemma Forall3_insert_at {A B C} (P : A -> B -> C -> Prop) n l k m x y z :
  Forall3 P l k m -> P x y z ->
  Forall3 P (SmallKeys.insert_at n x l) (SmallKeys.insert_at n y k) (SmallKeys.insert_at n z m).
Proof.
  intros Hf HP. unfold SmallKeys.insert_at. apply Forall3_app; [by apply Forall3_take|]. constructor; [done|].
  by apply Forall3_drop.
Qed.

Lemma Forall3_reverse {A B C} (P : A -> B -> C -> Prop) l k m :
  Forall3 P l k m -> Forall3 P (reverse l) (reverse k) (reverse m).
Proof. induction 1; [constructor|]. rewrite !reverse_cons. apply Forall3_app; [done|]. by repeat constructor. Qed.

Lemma partition_point_take {A} (p : A -> bool) l : Forall (fun x => p x = true) (take (partition_point p l) l).
Proof. induction l as [|x l IH]; cbn; [constructor|]. destruct (p x) eqn:E; cbn; constructor; done. Qed.

Lemma partition_point_le {A} (p : A -> bool) l : (partition_point p l <= length l)%nat.
Proof. induction l as [|x l IH]; cbn; [lia|]. destruct (p x); lia. Qed.

Definition slot_lt (a b : Slot) : Prop := a.1 < b.1.

Lemma partition_point_drop (p : Slot -> bool) c :
  StronglySorted slot_lt c -> (forall a b, slot_lt a b -> p b = true -> p a = true) ->
  Forall (fun s => p s = false) (drop (partition_point p c) c).
Proof.
  intros Hs Hp. induction Hs as [|s c Hs IH Hall]; cbn; [constructor|]. destruct (p s) eqn:E; cbn; [done|].
  constructor; [done|]. eapply Forall_impl; [exact Hall|]. intros t Ht. destruct (p t) eqn:Et; [|done].
  rewrite (Hp s t Ht Et) in E. done.
Qed.

Lemma contents_app c c' : contents (c ++ c') = contents c ++ contents c'.
Proof. apply omap_app. Qed.

Lemma contents_cons s c : contents (s :: c) = match content s with Some e => e :: contents c | None => contents c end.
Proof. done. Qed.

Lemma contents_reverse c : contents (reverse c) = reverse (contents c).
Proof.
  induction c as [|s c IH]; [done|]. rewrite reverse_cons, contents_app, IH, !contents_cons.
  destruct (content s); [by rewrite reverse_cons|by rewrite app_nil_r].
Qed.

Lemma contents_Forall (P : Z -> Prop) c : Forall (fun s => P s.1) c -> Forall (fun e => P e.1) (contents c).
Proof.
  induction 1 as [|[off [rec|]] c Hs _ IH]; cbn; [constructor| |done]. by constructor.
Qed.

(** ** Extents *)

Definition end_of (e : Z * SmallRecord) : Z := e.1 + r_len e.2.

Definition disjoint (d : list (Z * SmallRecord)) : Prop := StronglySorted (fun a b => end_of a <= b.1) d.

Definition intersects (off len : Z) (e : Z * SmallRecord) : bool := (e.1 <? off + len) && (off <? end_of e).

Lemma exists_last off d : disjoint d -> Forall (fun e => 0 < r_len e.2) d ->
  existsb (fun e => off <? end_of e) d = match last d with Some e => off <? end_of e | None => false end.
Proof.
  induction d as [|e d IH] using rev_ind; intros Hd Hp; [done|]. rewrite last_snoc, existsb_app. cbn [existsb].
  apply Forall_app in Hp as [Hp He]. apply Forall_cons in He as [He _].
  apply StronglySorted_app_inv in Hd as (Hd & _ & Hlt). destruct (existsb _ d) eqn:E; [|by rewrite orb_false_r].
  apply existsb_exists in E as (x & Hx & Hlast). rewrite orb_false_r. symmetry. apply Z.ltb_lt. apply Z.ltb_lt in Hlast.
  specialize (Hlt x e ltac:(by apply list_elem_of_In) ltac:(by left)). unfold end_of in *. lia.
Qed.

Lemma exists_first lim d : disjoint d -> Forall (fun e => 0 < r_len e.2) d ->
  existsb (fun e => e.1 <? lim) d = match head d with Some e => e.1 <? lim | None => false end.
Proof.
  intros Hd Hp. destruct d as [|e d]; [done|]. cbn. destruct (Z.ltb_spec e.1 lim) as [|Hge]; [done|]. cbn.
  apply not_true_is_false. intros (x & Hx & Hlt)%existsb_exists. apply Z.ltb_lt in Hlt. inv Hd.
  pose proof (proj1 (Forall_forall _ _) H2 x (proj2 (list_elem_of_In _ _) Hx)) as Hr.
  apply Forall_cons in Hp as [Hp _]. unfold end_of in Hr. cbn in *. lia.
Qed.

(** ** Rows *)

Definition rec_ok (off : Z) (rec : SmallRecord) : Prop :=
  key_ok (r_key rec) /\ is_u64 (r_checksum rec) /\ 0 <= off /\ valid_record off rec = true.

Lemma rec_ok_bounds off rec : rec_ok off rec ->
  0 <= off /\ 0 < r_len rec <= 2 ^ 27 /\ off + r_len rec <= 2 ^ 30 /\ 25 <= key_len (r_key rec) <= MAX_KEY /\
  valid_extent (r_key rec) (r_len rec) = true.
Proof.
  intros ([_ [_ Hk]%validate_key_ok] & _ & Ho & Hv). unfold valid_record in Hv.
  rewrite !andb_true_iff, negb_true_iff, Z.ltb_lt, Z.eqb_neq, !Z.leb_le in Hv. destruct Hv as ((((Hv & H1) & H2) & H3) & H4).
  assert (0 <= r_len rec) as Hl.
  { unfold valid_extent in Hv. destruct (kind _); rewrite ?andb_true_iff, ?Z.ltb_lt in Hv; try done; lia. }
  change (Z.shiftl 128 20) with (2 ^ 27) in H3. splits; try done; try lia. unfold key_len, slen. lia.
Qed.

Section Hash.
Context `{KeyHash}.

Definition slot_ok (row : Row) (key : list byte) (s : Slot) : Prop :=
  length row = WIDTH /\ row_offset row = s.1 /\
  match s.2 with
  | Some rec => row = encode_row s.1 rec /\ key = encode (r_key rec) /\ rec_ok s.1 rec
  | None => row_len row = 0
  end.

Lemma encode_row_fields off rec : rec_ok off rec ->
  length (encode_row off rec) = WIDTH /\ row_offset (encode_row off rec) = off /\
  row_len (encode_row off rec) = r_len rec /\ le_val (slice 8 8 (encode_row off rec)) = r_checksum rec /\
  le_val (slice 16 8 (encode_row off rec)) = key_hash (r_key rec) /\
  le_val (slice 24 2 (encode_row off rec)) = key_len (r_key rec) - 25.
Proof.
  intros Hr. pose proof (rec_ok_bounds _ _ Hr) as (Ho & Hl & He & Hk & _). destruct Hr as (_ & Hc & _).
  pose proof (key_hash_u64 (r_key rec)) as Hh. unfold MAX_KEY, is_u in *.
  unfold encode_row. rewrite !wrap_small by (unfold is_u; lia).
  set (a := le_bytes 4 off). set (b := le_bytes 4 (r_len rec)). set (c := le_bytes 8 (r_checksum rec)).
  set (d := le_bytes 8 (key_hash (r_key rec))). set (e := le_bytes 2 (key_len (r_key rec) - 25)).
  assert (length a = 4%nat /\ length b = 4%nat /\ length c = 8%nat /\ length d = 8%nat /\ length e = 2%nat) as (La & Lb & Lc & Ld & Le)
    by (unfold a, b, c, d, e; by rewrite !length_le_bytes).
  unfold row_offset, row_len, n32. splits.
  - rewrite !length_app. unfold WIDTH. lia.
  - rewrite slice_0_app by done. apply le_val_le_bytes. lia.
  - rewrite (slice_app_exact 4 4 a b) by done. apply le_val_le_bytes. lia.
  - rewrite app_assoc, (slice_app_exact 8 8 (a ++ b) c) by (rewrite ?length_app; lia). apply le_val_le_bytes. lia.
  - rewrite !app_assoc, <-(app_assoc _ d e), (slice_app_exact 16 8 ((a ++ b) ++ c) d) by (rewrite ?length_app; lia). apply le_val_le_bytes. lia.
  - rewrite !app_assoc, <-(app_nil_r e), app_assoc, <-(app_assoc _ e []),
      (slice_app_exact 24 2 (((a ++ b) ++ c) ++ d) e) by (rewrite ?length_app; lia). apply le_val_le_bytes. lia.
Qed.

Lemma clear_len_ok row : length row = WIDTH ->
  length (clear_len row) = WIDTH /\ row_offset (clear_len row) = row_offset row /\ row_len (clear_len row) = 0.
Proof.
  unfold WIDTH. intros Hl. unfold clear_len, row_offset, row_len, n32. splits.
  - rewrite !length_app, length_take, length_replicate, length_drop. lia.
  - rewrite slice_0_app by (rewrite length_take; lia). unfold slice. by rewrite drop_0.
  - rewrite (slice_app_exact 4 4 (take 4 row)) by (rewrite ?length_take; done || lia). done.
Qed.

Lemma slot_live row key s : slot_ok row key s -> row_live row = bool_decide (is_Some s.2).
Proof.
  intros (_ & _ & Hs). unfold row_live. destruct s as [off [rec|]]; cbn [fst snd] in *.
  - destruct Hs as (-> & _ & Hr). destruct (encode_row_fields _ _ Hr) as (_ & _ & -> & _).
    pose proof (rec_ok_bounds _ _ Hr) as (_ & Hl & _). rewrite bool_decide_true by eauto.
    rewrite (proj2 (Z.eqb_neq _ _)) by lia. done.
  - rewrite Hs. rewrite bool_decide_false by by intros [? ?]. done.
Qed.

Lemma slot_clear row key s key' : slot_ok row key s -> slot_ok (clear_len row) key' (s.1, None).
Proof. intros (Hl & Ho & _). destruct (clear_len_ok row Hl) as (? & ? & ?). split; [done|]. cbn [fst snd]. split; [congruence|done]. Qed.

(** The table [r] has the key rows [l] and the slots [c]. A table that was never sealed is
    [plain]: it shares no prefixes, and its tombstones have no key bytes. *)
Record repr (plain : bool) (r : Records) (l : list (list byte)) (c : list Slot) : Prop := {
  rp_wf : wf (r_keys r);
  rp_holds : holds (r_keys r) l;
  rp_slots : Forall3 slot_ok (r_rows r) l c;
  rp_sorted : StronglySorted slot_lt c;
  rp_live : r_live r = length (contents c);
  rp_plain : plain = true -> SmallKeys.offsets (r_keys r) = [] /\ SmallKeys.prefix_ids (r_keys r) = [] /\
    Forall2 (fun x s => s.2 = None -> x = []) l c
}.

Lemma repr_default : repr true Records_default [] [].
Proof. split; cbn; try done; try (by constructor). apply wf_default. Qed.

Lemma slots_length (rows : list Row) l c : Forall3 slot_ok rows l c -> length rows = length c /\ length l = length c.
Proof. intros Hf. induction Hf; cbn; lia. Qed.

Lemma slots_lookup (rows : list Row) l c i s : Forall3 slot_ok rows l c -> c !! i = Some s ->
  exists row key, rows !! i = Some row /\ l !! i = Some key /\ slot_ok row key s.
Proof. intros Hf Hs. by eapply Forall3_lookup_r. Qed.

(** ** Reading *)

Lemma metadata_ok plain r l c i s : repr plain r l c -> c !! i = Some s ->
  metadata r i = (fun rec => mkMetadata s.1 (r_len rec) (r_checksum rec) (key_hash (r_key rec))
                               (r_len rec + key_len (r_key rec) + 37)) <$> s.2.
Proof.
  intros Hr Hs. destruct (slots_lookup _ _ _ _ _ (rp_slots _ _ _ _ Hr) Hs) as (row & key & Hrow & _ & (_ & _ & Hok)).
  unfold metadata. rewrite Hrow. cbn [mbind option_bind]. destruct s as [off [rec|]]; cbn [fst snd] in *.
  - destruct Hok as (-> & _ & Hrec). destruct (encode_row_fields _ _ Hrec) as (_ & -> & -> & -> & -> & ->).
    pose proof (rec_ok_bounds _ _ Hrec) as (_ & Hl & _). rewrite (proj2 (Z.eqb_neq _ _)) by lia. cbn. do 2 f_equal. lia.
  - by rewrite Hok.
Qed.

Lemma get_ok plain r l c i s : repr plain r l c -> c !! i = Some s -> get r i = Some (content s).
Proof.
  intros Hr Hs. unfold get. rewrite (metadata_ok _ _ _ _ _ _ Hr Hs).
  destruct (slots_lookup _ _ _ _ _ (rp_slots _ _ _ _ Hr) Hs) as (row & key & _ & Hkey & (_ & _ & Hok)).
  destruct s as [off [rec|]]; cbn [fst snd fmap option_fmap option_map] in *; [|done].
  destruct Hok as (_ & -> & ([Hk [Hp _]%validate_key_ok] & _)). destruct (rp_holds _ _ _ _ Hr) as [_ Hh]. specialize (Hh _ _ Hkey).
  unfold key_at in Hh. apply fmap_Some in Hh as ([pre suf] & -> & Heq). cbn [mbind option_bind].
  cbn [fst snd] in Heq. rewrite <-Heq, decode_encode by done. cbn [mbind option_bind]. by destruct rec.
Qed.

Lemma get_rows_ok plain r l c n : repr plain r l c -> (n <= length c)%nat ->
  get_rows r (seq (length c - n) n) = Some (contents (drop (length c - n) c)).
Proof.
  intros Hr. induction n as [|n IH]; intros Hn; [by rewrite drop_ge by lia|].
  destruct (lookup_lt_is_Some_2 c (length c - S n)) as [s Hs]; [lia|].
  cbn [seq get_rows]. rewrite (get_ok _ _ _ _ _ _ Hr Hs), (drop_S _ _ _ Hs), contents_cons. cbn [mbind option_bind].
  replace (S (length c - S n)) with (length c - n)%nat by lia. rewrite IH by lia. done.
Qed.

Lemma iter_ok plain r l c : repr plain r l c -> iter r = Some (contents c).
Proof.
  intros Hr. unfold iter. destruct (slots_length _ _ _ (rp_slots _ _ _ _ Hr)) as [-> _].
  pose proof (get_rows_ok _ _ _ _ (length c) Hr (le_n _)) as E. by rewrite Nat.sub_diag, drop_0 in E.
Qed.

Lemma matches_ok plain r l c i s key : repr plain r l c -> c !! i = Some s ->
  matches r i key = true <-> exists rec, s.2 = Some rec /\ key = encode (r_key rec).
Proof.
  intros Hr Hs. unfold matches. rewrite (metadata_ok _ _ _ _ _ _ Hr Hs).
  destruct (slots_lookup _ _ _ _ _ (rp_slots _ _ _ _ Hr) Hs) as (row & key' & _ & Hkey & (_ & _ & Hok)).
  destruct s as [off [rec|]]; cbn [fst snd fmap option_fmap option_map] in *; [|split; [done|by intros (? & ? & _)]].
  destruct Hok as (_ & -> & _). destruct (rp_holds _ _ _ _ Hr) as [_ Hh]. specialize (Hh _ _ Hkey).
  unfold key_at in Hh. apply fmap_Some in Hh as ([pre suf] & -> & Heq). cbn [fst snd] in Heq.
  rewrite !andb_true_iff, Nat.eqb_eq, !bool_decide_eq_true. split.
  - intros [[_ H1] H2]. exists rec. split; [done|]. rewrite Heq, <-H1, <-H2 at 1. by rewrite take_drop.
  - intros (rec' & [= <-] & ->). rewrite Heq, length_app, take_app_length, drop_app_length. done.
Qed.

(** ** Extent queries *)

Lemma partition_point_rows (rows : list Row) l c (p : Row -> bool) q :
  Forall3 slot_ok rows l c -> (forall row key s, slot_ok row key s -> p row = q s) ->
  partition_point p rows = partition_point q c.
Proof.
  intros Hf Hp. induction Hf as [|row key s rows l c Hs _ IH]; [done|]. cbn. rewrite (Hp _ _ _ Hs). by destruct (q s); [rewrite IH|].
Qed.

Definition point (off : Z) (c : list Slot) : nat := partition_point (fun s => s.1 <? off) c.

Lemma position_ok plain r l c off : repr plain r l c -> position r off = point off c.
Proof.
  intros Hr. eapply partition_point_rows; [apply Hr|]. intros row key s (_ & -> & _). done.
Qed.

Lemma point_split off c : StronglySorted slot_lt c ->
  Forall (fun s => s.1 < off) (take (point off c) c) /\ Forall (fun s => off <= s.1) (drop (point off c) c).
Proof.
  intros Hs. split.
  - eapply Forall_impl; [apply partition_point_take|]. intros s. cbn. apply Z.ltb_lt.
  - eapply Forall_impl; [apply (partition_point_drop (fun s => s.1 <? off) c Hs)|]; cbn; [|intros s; apply Z.ltb_ge].
    intros a b Hab. rewrite !Z.ltb_lt. unfold slot_lt in Hab. lia.
Qed.

Lemma find_row_ok (rows : list Row) l c : Forall3 slot_ok rows l c ->
  match find_row row_live rows with
  | Some row => exists e, head (contents c) = Some e /\ row_offset row = e.1 /\ row_len row = r_len e.2
  | None => contents c = []
  end.
Proof.
  induction 1 as [|row key s rows l c Hs _ IH]; [done|]. cbn [find_row]. rewrite (slot_live _ _ _ Hs), contents_cons.
  destruct Hs as (_ & Ho & Hs). destruct s as [off [rec|]]; cbn [fst snd content fmap option_fmap option_map] in *.
  - rewrite bool_decide_true by eauto. destruct Hs as (-> & _ & Hr). exists (off, rec). splits; [done|done|].
    by destruct (encode_row_fields _ _ Hr) as (_ & _ & -> & _).
  - by rewrite bool_decide_false by by intros [? ?].
Qed.

(** The last record before a point and the first after it. *)
Lemma find_before plain r l c off : repr plain r l c ->
  match find_row row_live (reverse (take (position r off) (r_rows r))) with
  | Some row => exists e, last (contents (take (point off c) c)) = Some e /\ row_offset row = e.1 /\ row_len row = r_len e.2
  | None => contents (take (point off c) c) = []
  end.
Proof.
  intros Hr. rewrite (position_ok _ _ _ _ _ Hr).
  pose proof (find_row_ok _ _ _ (Forall3_reverse _ _ _ _ (Forall3_take _ (point off c) _ _ _ (rp_slots _ _ _ _ Hr)))) as Hf.
  rewrite contents_reverse, head_reverse in Hf. destruct (find_row _ _); [done|].
  apply (f_equal reverse) in Hf. by rewrite reverse_involutive in Hf.
Qed.

Lemma find_after plain r l c off : repr plain r l c ->
  match find_row row_live (drop (position r off) (r_rows r)) with
  | Some row => exists e, head (contents (drop (point off c) c)) = Some e /\ row_offset row = e.1 /\ row_len row = r_len e.2
  | None => contents (drop (point off c) c) = []
  end.
Proof.
  intros Hr. rewrite (position_ok _ _ _ _ _ Hr).
  exact (find_row_ok _ _ _ (Forall3_drop _ (point off c) _ _ _ (rp_slots _ _ _ _ Hr))).
Qed.

Lemma contents_split off c : contents c = contents (take (point off c) c) ++ contents (drop (point off c) c).
Proof. by rewrite <-contents_app, take_drop. Qed.

Lemma contents_ok (rows : list Row) l c : Forall3 slot_ok rows l c -> Forall (fun e => rec_ok e.1 e.2) (contents c).
Proof.
  induction 1 as [|row key s rows l c Hs _ IH]; [constructor|]. rewrite contents_cons. destruct Hs as (_ & _ & Hs).
  destruct s as [off [rec|]]; [|done]. constructor; [by apply Hs|done].
Qed.

Lemma contents_pos (rows : list Row) l c : Forall3 slot_ok rows l c -> Forall (fun e => 0 < r_len e.2) (contents c).
Proof.
  intros Hf. eapply Forall_impl; [by eapply contents_ok|]. cbn. intros e He. pose proof (rec_ok_bounds _ _ He) as (_ & ? & _). lia.
Qed.

Lemma existsb_ext_in {A} (p q : A -> bool) l : (forall x, x ∈ l -> p x = q x) -> existsb p l = existsb q l.
Proof.
  induction l as [|x l IH]; intros Hpq; [done|]. cbn. rewrite Hpq by by left. rewrite IH; [done|]. intros y Hy. apply Hpq. by right.
Qed.

Lemma overlaps_ok plain r l c off len : repr plain r l c -> disjoint (contents c) -> 0 <= len ->
  overlaps r off len = existsb (intersects off len) (contents c).
Proof.
  intros Hr Hd Hlen. pose proof (contents_pos _ _ _ (rp_slots _ _ _ _ Hr)) as Hp.
  destruct (point_split off c (rp_sorted _ _ _ _ Hr)) as [H1%(contents_Forall (fun z => z < off)) H2%(contents_Forall (fun z => off <= z))].
  rewrite (contents_split off c) in Hd, Hp |- *. rewrite existsb_app. unfold overlaps.
  pose proof (find_before _ _ _ _ off Hr) as Hb. pose proof (find_after _ _ _ _ off Hr) as Ha.
  apply StronglySorted_app_inv in Hd as (Hd1 & Hd2 & _). apply Forall_app in Hp as [Hp1 Hp2]. f_equal.
  - rewrite (existsb_ext_in _ (fun e => off <? end_of e)), exists_last; try done.
    + destruct (find_row _ _) as [row|]; [|by rewrite Hb]. by destruct Hb as (e & -> & -> & ->).
    + intros e He. unfold intersects. rewrite (proj2 (Z.ltb_lt _ (off + len))); [done|].
      pose proof (proj1 (Forall_forall _ _) H1 e He) as Hlt. cbn in Hlt. lia.
  - rewrite (existsb_ext_in _ (fun e => e.1 <? off + len)), exists_first; try done.
    + destruct (find_row _ (drop _ _)) as [row|]; [|by rewrite Ha]. by destruct Ha as (e & -> & -> & _).
    + intros e He. unfold intersects, end_of. rewrite (proj2 (Z.ltb_lt off _)); [apply andb_true_r|].
      pose proof (proj1 (Forall_forall _ _) H2 e He) as Hge. pose proof (proj1 (Forall_forall _ _) Hp2 e He) as Hpos. cbn in *. lia.
Qed.

Lemma crosses_ok plain r l c off : repr plain r l c -> disjoint (contents c) ->
  crosses r off = existsb (fun e => (e.1 <? off) && (off <? end_of e)) (contents c).
Proof.
  intros Hr Hd. pose proof (contents_pos _ _ _ (rp_slots _ _ _ _ Hr)) as Hp.
  destruct (point_split off c (rp_sorted _ _ _ _ Hr)) as [H1%(contents_Forall (fun z => z < off)) H2%(contents_Forall (fun z => off <= z))].
  rewrite (contents_split off c) in Hd, Hp |- *. rewrite existsb_app. unfold crosses.
  pose proof (find_before _ _ _ _ off Hr) as Hb.
  apply StronglySorted_app_inv in Hd as (Hd1 & _ & _). apply Forall_app in Hp as [Hp1 _].
  rewrite (existsb_ext_in _ (fun e => off <? end_of e) (contents (take _ _))), exists_last; try done.
  2:{ intros e He. rewrite (proj2 (Z.ltb_lt _ off)); [done|]. exact (proj1 (Forall_forall _ _) H1 e He). }
  rewrite (existsb_ext_in _ (fun _ => false) (contents (drop _ _))).
  2:{ intros e He. rewrite (proj2 (Z.ltb_ge _ off)); [done|]. exact (proj1 (Forall_forall _ _) H2 e He). }
  replace (existsb (fun _ => false) _) with false by (clear; induction (contents _); done). rewrite orb_false_r.
  destruct (find_row _ _) as [row|]; [|by rewrite Hb]. by destruct Hb as (e & -> & -> & ->).
Qed.

Lemma take_while_app (p : Z * SmallRecord -> bool) (d1 d2 : list (Z * SmallRecord)) :
  Forall (fun e => p e = true) d1 -> Forall (fun e => p e = false) d2 -> take_while p (d1 ++ d2) = d1.
Proof. induction 1 as [|e d1 He _ IH]; cbn; intros H2; [destruct H2 as [|e d2 He _]; cbn; by rewrite ?He|]. by rewrite He, IH. Qed.

Lemma before_ok plain r l c off : repr plain r l c -> before r off = Some (contents (take (point off c) c)).
Proof.
  intros Hr. unfold before. rewrite (iter_ok _ _ _ _ Hr). cbn [fmap option_fmap option_map]. f_equal.
  destruct (point_split off c (rp_sorted _ _ _ _ Hr)) as [H1%(contents_Forall (fun z => z < off)) H2%(contents_Forall (fun z => off <= z))].
  rewrite (contents_split off c) at 1. apply take_while_app.
  - eapply Forall_impl; [exact H1|]. intros e. apply Z.ltb_lt.
  - eapply Forall_impl; [exact H2|]. intros e. apply Z.ltb_ge.
Qed.

Lemma contents_take off c : StronglySorted slot_lt c ->
  contents (take (point off c) c) = filter (fun e => e.1 < off) (contents c) /\
  contents (drop (point off c) c) = filter (fun e => off <= e.1) (contents c).
Proof.
  intros Hs. destruct (point_split off c Hs) as [H1%(contents_Forall (fun z => z < off)) H2%(contents_Forall (fun z => off <= z))].
  rewrite (contents_split off c), !filter_app. rewrite !(filter_keeps _ _ H1), !(filter_keeps _ _ H2). split.
  - rewrite filter_none; [by rewrite app_nil_r|]. intros e He. pose proof (proj1 (Forall_forall _ _) H2 e He) as Hge. cbn in *. lia.
  - rewrite filter_none; [done|]. intros e He. pose proof (proj1 (Forall_forall _ _) H1 e He) as Hge. cbn in *. lia.
Qed.

(** ** Compaction *)

Definition live_slots (c : list Slot) : list Slot := filter (fun s => is_Some s.2) c.

Lemma contents_live c : contents (live_slots c) = contents c.
Proof.
  unfold live_slots. induction c as [|[off [rec|]] c IH]; [done| |].
  - rewrite filter_cons_True by (cbn; eauto). exact (f_equal (cons (off, rec)) IH).
  - rewrite filter_cons_False by (cbn; by intros [? ?]). exact IH.
Qed.

Lemma kept_slots (rows : list Row) l c keep a :
  Forall3 slot_ok rows l c -> (forall i row, rows !! i = Some row -> keep (a + i)%nat = row_live row) ->
  Forall3 slot_ok (filter (fun row => row_live row = true) rows) (kept keep a l) (live_slots c).
Proof.
  intros Hf. revert a. unfold live_slots. induction Hf as [|row key s rows l c Hs _ IH]; intros a Hk; [constructor|]. cbn [kept].
  rewrite <-(Nat.add_0_r a) at 1. rewrite (Hk 0%nat row eq_refl). pose proof (slot_live _ _ _ Hs) as Hl.
  assert (forall i r, rows !! i = Some r -> keep (S a + i)%nat = row_live r) as Hk'
    by (intros i r Hi; rewrite <-(Hk (S i) r Hi); f_equal; lia).
  destruct (row_live row) eqn:E.
  - symmetry in Hl. apply bool_decide_eq_true in Hl. rewrite !filter_cons_True by done. constructor; [done|]. by apply IH.
  - symmetry in Hl. apply bool_decide_eq_false in Hl. rewrite !filter_cons_False by (done || congruence). by apply IH.
Qed.

Lemma compact_ok (plain : bool) r l c :
  wf (r_keys r) -> holds (r_keys r) l -> Forall3 slot_ok (r_rows r) l c -> StronglySorted slot_lt c ->
  r_live r = length (contents c) ->
  (plain = true -> SmallKeys.offsets (r_keys r) = [] /\ SmallKeys.prefix_ids (r_keys r) = []) ->
  exists r' l', compact r = Some r' /\ repr plain r' l' (live_slots c).
Proof.
  intros Hw Hh Hf Hs Hl Hp. destruct (slots_length _ _ _ Hf) as [Hn1 Hn2]. unfold compact.
  rewrite (proj2 (Nat.ltb_ge _ _)) by (destruct Hh as [-> _]; lia).
  set (keep := fun i => match r_rows r !! i with Some row => row_live row | None => false end).
  destruct (retain_ok (r_keys r) keep l Hw Hh) as (k' & -> & Hw' & Hh' & Ho & Hu). cbn [mbind option_bind].
  assert (Forall3 slot_ok (filter (fun row => row_live row = true) (r_rows r)) (kept keep 0 l) (live_slots c)) as Hf'.
  { apply kept_slots; [done|]. intros i row Hi. unfold keep. cbn [plus]. by rewrite Hi. }
  eexists _, _. split; [done|]. split; cbn; try done.
  - by apply filter_sorted.
  - by rewrite contents_live.
  - intros E. destruct (Hp E) as [Eo Ei]. destruct (Hu Eo) as (Hu' & _ & _ & Hi). splits; [apply Hu'|by apply Hi|].
    apply Forall2_same_length_lookup_2; [apply (slots_length _ _ _ Hf')|]. intros i x s Hx Hsl Hnone.
    apply list_elem_of_lookup_2, list_elem_of_filter in Hsl as [[? Hsome] _]. congruence.
Qed.

(** ** Deletion *)

Lemma sorted_middle c1 s c2 : StronglySorted slot_lt (c1 ++ s :: c2) ->
  Forall (fun t => t.1 < s.1) c1 /\ Forall (fun t => s.1 < t.1) c2 /\ StronglySorted slot_lt c1 /\ StronglySorted slot_lt c2.
Proof.
  intros Hs. apply StronglySorted_app_inv in Hs as (H1 & H2 & H3). inv H2. splits; try done.
  apply Forall_forall. intros t Ht. apply H3; [done|by left].
Qed.

Lemma sorted_set c1 s s' c2 : s.1 = s'.1 -> StronglySorted slot_lt (c1 ++ s :: c2) -> StronglySorted slot_lt (c1 ++ s' :: c2).
Proof.
  intros E Hs. apply sorted_middle in Hs as (H1 & H2 & H3 & H4). apply StronglySorted_join; [done|constructor; [done|]|].
  - eapply Forall_impl; [exact H2|]. unfold slot_lt. intros t. by rewrite E.
  - intros a b Ha [->|Hb]%elem_of_cons; unfold slot_lt.
    + rewrite <-E. exact (proj1 (Forall_forall _ _) H1 a Ha).
    + pose proof (proj1 (Forall_forall _ _) H1 a Ha). pose proof (proj1 (Forall_forall _ _) H2 b Hb). cbn in *. lia.
Qed.

(** The records but the one at [off]. *)
Definition without (off : Z) (d : list (Z * SmallRecord)) : list (Z * SmallRecord) := filter (fun e => e.1 <> off) d.

Lemma without_middle c1 off o c2 : StronglySorted slot_lt (c1 ++ (off, o) :: c2) ->
  without off (contents (c1 ++ (off, o) :: c2)) = contents c1 ++ contents c2.
Proof.
  intros Hs. apply sorted_middle in Hs as (H1 & H2 & _ & _). cbn [fst] in *.
  apply (contents_Forall (fun z => z < off)) in H1. apply (contents_Forall (fun z => off < z)) in H2.
  rewrite contents_app, contents_cons. unfold without. rewrite filter_app. f_equal.
  - apply filter_keeps. eapply Forall_impl; [exact H1|]. cbn. lia.
  - destruct (content (off, o)) as [[off' rec]|] eqn:E.
    + destruct o; [|done]. injection E as <- <-. rewrite filter_cons_False by (cbn; lia).
      apply filter_keeps. eapply Forall_impl; [exact H2|]. cbn. lia.
    + apply filter_keeps. eapply Forall_impl; [exact H2|]. cbn. lia.
Qed.

Lemma slots_drop_cons (rows : list Row) l c i s c2 : Forall3 slot_ok rows l c -> drop i c = s :: c2 ->
  exists row key rows2 l2, drop i rows = row :: rows2 /\ l !! i = Some key /\ rows !! i = Some row /\ slot_ok row key s /\ Forall3 slot_ok rows2 l2 c2.
Proof.
  intros Hf E. pose proof (Forall3_drop _ i _ _ _ Hf) as Hd. rewrite E in Hd. inv Hd as [|row key ? rows2 l2 ? Hs Hd' Er El].
  exists row, key, rows2, l2. splits; try done.
  - by rewrite <-(Nat.add_0_r i), <-lookup_drop, <-El.
  - by rewrite <-(Nat.add_0_r i), <-lookup_drop, <-Er.
Qed.

Lemma find_index_ok plain r l c off : repr plain r l c ->
  match find_index r off with
  | Some i => exists c1 rec c2, c = c1 ++ (off, Some rec) :: c2 /\ i = length c1
  | None => Forall (fun e => e.1 <> off) (contents c)
  end.
Proof.
  intros Hr. unfold find_index. rewrite (position_ok _ _ _ _ _ Hr). set (v := point off c).
  destruct (point_split off c (rp_sorted _ _ _ _ Hr)) as [H1 H2]. fold v in H1, H2.
  assert (Forall (fun s => s.1 <> off) (drop v c) -> Forall (fun e => e.1 <> off) (contents c)) as Hnone.
  { intros Hd. apply (contents_Forall (fun z => z <> off)). rewrite <-(take_drop v c). apply Forall_app. split; [|done].
    eapply Forall_impl; [exact H1|]. cbn. lia. }
  pose proof (rp_sorted _ _ _ _ Hr) as Hs. rewrite <-(take_drop v c) in Hs.
  destruct (drop v c) as [|[off' o] c2] eqn:Ed.
  { destruct (slots_length _ _ _ (rp_slots _ _ _ _ Hr)) as [Hl _]. pose proof (f_equal length Ed) as El. rewrite length_drop in El.
    cbn in El. rewrite drop_ge by lia. cbn. by apply Hnone. }
  destruct (slots_drop_cons _ _ _ _ _ _ (rp_slots _ _ _ _ Hr) Ed) as (row & key & rows2 & l2 & -> & _ & _ & Hok & Hf2).
  apply sorted_middle in Hs as (_ & Hs2 & _ & _). cbn [fst] in Hs2. cbn [take_while]. pose proof Hok as (_ & Ho & _). rewrite Ho. cbn [fst].
  apply Forall_cons in H2 as [H2 _]. cbn [fst] in H2. destruct (Z.eqb_spec off' off) as [->|Hne].
  - assert (take_while (fun row0 => row_offset row0 =? off) rows2 = []) as ->.
    { inv Hf2 as [|row2 key2 s2 ??? Hok2 _]; [done|]. cbn. destruct Hok2 as (_ & -> & _). apply Forall_cons in Hs2 as [Hs2 _].
      rewrite (proj2 (Z.eqb_neq _ _)) by lia. done. }
    cbn [partition_point length]. rewrite (slot_live _ _ _ Hok). destruct o as [rec|]; cbn [snd].
    + rewrite bool_decide_true by eauto. cbn. exists (take v c), rec, c2. rewrite Nat.add_0_r.
      split; [transitivity (take v c ++ drop v c); [by rewrite take_drop|by rewrite Ed]|].
      rewrite length_take. pose proof (f_equal length Ed) as El. rewrite length_drop in El. cbn [length] in El. lia.
    + rewrite bool_decide_false by by intros [? ?]. cbn. 
      rewrite <-(take_drop v c), Ed, contents_app, contents_cons. apply Forall_app. split.
      * apply (contents_Forall (fun z => z <> off)). eapply Forall_impl; [exact H1|]. cbn. lia.
      * apply (contents_Forall (fun z => z <> off)). eapply Forall_impl; [exact Hs2|]. cbn. lia.
  - cbn. apply Hnone. constructor; [done|]. eapply Forall_impl; [exact Hs2|]. cbn. lia.
Qed.

Lemma remove_row_ok plain r l c off : repr plain r l c ->
  match remove r off with
  | Some (Some r') => exists l' c', repr plain r' l' c' /\ contents c' = without off (contents c) /\ exists rec, (off, rec) ∈ contents c
  | Some None => Forall (fun e => e.1 <> off) (contents c)
  | None => False
  end.
Proof.
  intros Hr. unfold remove. pose proof (find_index_ok _ _ _ _ off Hr) as Hi. destruct (find_index r off) as [i|]; [|done].
  destruct Hi as (c1 & rec & c2 & -> & ->). destruct (slots_length _ _ _ (rp_slots _ _ _ _ Hr)) as [Hl1 Hl2].
  pose proof (rp_sorted _ _ _ _ Hr) as Hs. rewrite length_app in Hl1, Hl2. cbn [length] in Hl1, Hl2.
  destruct (remove_ok (r_keys r) l (length c1) (rp_wf _ _ _ _ Hr) (rp_holds _ _ _ _ Hr)) as (k' & -> & Hw' & Hh' & Ho' & Hi'); [lia|].
  cbn [mbind option_bind].
  destruct (slots_lookup _ _ _ (length c1) (off, Some rec) (rp_slots _ _ _ _ Hr)) as (row & key & Hrow & Hkey & Hok);
    [by rewrite lookup_app_r, Nat.sub_diag by lia|].
  rewrite Hrow. cbn [mbind option_bind].
  set (l' := if SmallKeys.is_nil (SmallKeys.offsets (r_keys r)) then <[length c1 := []]> l else l).
  set (c' := c1 ++ (off, None) :: c2).
  assert (<[length c1 := (off, None)]> (c1 ++ (off, Some rec) :: c2) = c') as Hc'.
  { rewrite insert_app_r_alt, Nat.sub_diag by lia. done. }
  assert (Forall3 slot_ok (<[length c1 := clear_len row]> (r_rows r)) l' c') as Hf'.
  { unfold l'. rewrite <-Hc'. pose proof (slot_clear row key (off, Some rec)) as Hsc. destruct (SmallKeys.is_nil _).
    - apply Forall3_insert; [apply Hr|by apply Hsc].
    - rewrite <-(list_insert_id l _ key Hkey). apply Forall3_insert; [apply Hr|by apply Hsc]. }
  pose proof (sorted_set c1 (off, Some rec) (off, None) c2 eq_refl Hs) as Hs'. fold c' in Hs'.
  assert (contents c' = without off (contents (c1 ++ (off, Some rec) :: c2))) as Hcont.
  { rewrite (without_middle _ _ _ _ Hs). unfold c'. by rewrite contents_app. }
  assert (length (contents (c1 ++ (off, Some rec) :: c2)) = S (length (contents c'))) as Hlen.
  { unfold c'. rewrite !contents_app, !contents_cons, !length_app. cbn. lia. }
  assert (exists rec', (off, rec') ∈ contents (c1 ++ (off, Some rec) :: c2)) as Hex.
  { exists rec. rewrite contents_app, contents_cons. cbn. apply elem_of_app. right. by left. }
  assert (plain = true -> SmallKeys.offsets k' = [] /\ SmallKeys.prefix_ids k' = []) as Hp'.
  { intros E. destruct (rp_plain _ _ _ _ Hr E) as (Eo & Ei & _). rewrite Eo in Ho'. split; [|by apply Hi'].
    by destruct (SmallKeys.offsets k'). }
  cbn [r_rows]. destruct (_ <=? _)%nat.
  - destruct (compact_ok plain (mkRecords (<[length c1 := clear_len row]> (r_rows r)) k' (r_live r - 1)) l' c') as (r' & l2 & -> & Hr'); try done.
    { cbn. rewrite (rp_live _ _ _ _ Hr). lia. }
    cbn. exists l2, (live_slots c'). splits; [done|by rewrite contents_live|done].
  - exists l', c'. splits; [|done|done]. split; cbn; try done; [rewrite (rp_live _ _ _ _ Hr); lia|].
    intros E. destruct (Hp' E) as [? ?]. splits; try done. destruct (rp_plain _ _ _ _ Hr E) as (Eo & _ & Hf).
    unfold l'. rewrite Eo, <-Hc'. cbn [SmallKeys.is_nil]. by apply Forall2_insert.
Qed.

(** ** Insertion *)

Definition with_record (off : Z) (rec : SmallRecord) (d : list (Z * SmallRecord)) : list (Z * SmallRecord) :=
  filter (fun e => e.1 < off) d ++ (off, rec) :: filter (fun e => off <= e.1) d.

(** The bytes of the live keys. *)
Definition key_bytes_total (d : list (Z * SmallRecord)) : Z :=
  Z.of_nat (sum_list_with (fun e => length (encode (r_key e.2))) d).

Lemma plain_keys_total plain r l c : repr plain r l c -> plain = true -> total l = key_bytes_total (contents c).
Proof.
  intros Hr Hp. destruct (rp_plain _ _ _ _ Hr Hp) as (_ & _ & Hf). unfold total, key_bytes_total. f_equal.
  pose proof (rp_slots _ _ _ _ Hr) as Hs. clear Hr. induction Hs as [|row key s rows l c Hok _ IH]; [done|].
  apply Forall2_cons in Hf as [Hkey Hf]. rewrite contents_cons. cbn [sum_list_with]. rewrite (IH Hf).
  destruct s as [off [rec|]]; cbn [content fmap option_fmap option_map fst snd] in *.
  - destruct Hok as (_ & _ & _ & -> & _). done.
  - by rewrite Hkey.
Qed.

(** Where a record goes: no slot between the ones before [off] and those after it is live at [off]. *)
Lemma vacancy off c : StronglySorted slot_lt c -> Forall (fun e => e.1 <> off) (contents c) ->
  exists c1 c2, StronglySorted slot_lt c1 /\ StronglySorted slot_lt c2 /\
    Forall (fun s => s.1 < off) c1 /\ Forall (fun s => off < s.1) c2 /\ point off c = length c1 /\
    (c = c1 ++ c2 \/ c = c1 ++ (off, None) :: c2).
Proof.
  intros Hs Hne. destruct (point_split off c Hs) as [H1 H2]. exists (take (point off c) c).
  pose proof Hs as Hs'. rewrite <-(take_drop (point off c) c) in Hs'.
  apply StronglySorted_app_inv in Hs' as (Hs1 & Hs2 & _).
  assert (point off c = length (take (point off c) c)) as Hlen.
  { rewrite length_take. pose proof (partition_point_le (fun s => s.1 <? off) c). unfold point. lia. }
  rewrite <-(take_drop (point off c) c) in Hne. rewrite contents_app in Hne. apply Forall_app in Hne as [_ Hne].
  destruct (drop (point off c) c) as [|[off' o] c2] eqn:Ed.
  - exists []. splits; [done|constructor|done|constructor|done|]. left. by rewrite <-Ed, take_drop.
  - inv Hs2. apply Forall_cons in H2 as [H2 _]. cbn [fst] in H2. destruct (decide (off' = off)) as [->|Hoff].
    + exists c2. splits; try done. right. destruct o as [rec|]; [|by rewrite <-Ed, take_drop].
      rewrite contents_cons in Hne. cbn in Hne. apply Forall_cons in Hne as [Hne _]. done.
    + exists ((off', o) :: c2). splits; try done; [by constructor| |left; by rewrite <-Ed, take_drop].
      constructor; [cbn; lia|]. eapply Forall_impl; [eassumption|]. unfold slot_lt. cbn. lia.
Qed.

Lemma contents_with c1 c2 c off rec :
  Forall (fun s => s.1 < off) c1 -> Forall (fun s => off < s.1) c2 -> c = c1 ++ c2 \/ c = c1 ++ (off, None) :: c2 ->
  contents (c1 ++ (off, Some rec) :: c2) = with_record off rec (contents c).
Proof.
  intros H1%(contents_Forall (fun z => z < off)) H2%(contents_Forall (fun z => off < z)) Hc.
  assert (contents c = contents c1 ++ contents c2) as -> by (destruct Hc as [-> | ->]; by rewrite contents_app).
  rewrite contents_app, contents_cons. unfold with_record. rewrite !filter_app. cbn [content fmap option_fmap option_map fst snd].
  rewrite (filter_keeps (fun e => e.1 < off) _ H1), (filter_none (fun e => e.1 < off) (contents c2)), (filter_none (fun e => off <= e.1) (contents c1)), app_nil_r.
  - do 2 f_equal. symmetry. apply filter_keeps. eapply Forall_impl; [exact H2|]. cbn. lia.
  - intros e He. pose proof (proj1 (Forall_forall _ _) H1 e He) as Hlt. cbn in *. lia.
  - intros e He. pose proof (proj1 (Forall_forall _ _) H2 e He) as Hlt. cbn in *. lia.
Qed.

Lemma sorted_with c1 s c2 : StronglySorted slot_lt c1 -> StronglySorted slot_lt c2 ->
  Forall (fun t => t.1 < s.1) c1 -> Forall (fun t => s.1 < t.1) c2 -> StronglySorted slot_lt (c1 ++ s :: c2).
Proof.
  intros Hs1 Hs2 H1 H2. apply StronglySorted_join; [done|by constructor|]. intros a b Ha [->|Hb]%elem_of_cons; unfold slot_lt.
  - exact (proj1 (Forall_forall _ _) H1 a Ha).
  - pose proof (proj1 (Forall_forall _ _) H1 a Ha). pose proof (proj1 (Forall_forall _ _) H2 b Hb). cbn in *. lia.
Qed.

Lemma partition_point_app {A} (p : A -> bool) l k :
  Forall (fun x => p x = true) l -> Forall (fun x => p x = false) k -> partition_point p (l ++ k) = length l.
Proof.
  induction 1 as [|x l Hx _ IH]; cbn; intros Hk; [destruct Hk as [|x k Hx _]; cbn; by rewrite ?Hx|]. by rewrite Hx, IH.
Qed.

Lemma insert_at_length {A} (x : A) l k : SmallKeys.insert_at (length l) x (l ++ k) = l ++ x :: k.
Proof. unfold SmallKeys.insert_at. by rewrite take_app_length, drop_app_length. Qed.

Lemma row_at (rows : list Row) l c1 s c2 : Forall3 slot_ok rows l (c1 ++ s :: c2) ->
  exists row key, rows !! length c1 = Some row /\ l !! length c1 = Some key /\ slot_ok row key s.
Proof. intros Hf. eapply slots_lookup; [done|]. by rewrite lookup_app_r, Nat.sub_diag by lia. Qed.

(** The row [insert] takes, and whether it is a tombstone to be replaced. *)
Lemma target_ok plain r l c off c1 c2 :
  repr plain r l c -> Forall (fun s => s.1 < off) c1 -> Forall (fun s => off < s.1) c2 ->
  c = c1 ++ c2 \/ c = c1 ++ (off, None) :: c2 ->
  let replace := match r_rows r !! length c1 with
    | Some row => (row_offset row =? off) && (row_len row =? 0) | None => false end in
  if replace then c = c1 ++ (off, None) :: c2
  else c = c1 ++ c2 /\ partition_point (fun row => row_offset row <=? off) (r_rows r) = length c1.
Proof.
  intros Hr H1 H2 Hc replace. unfold replace. pose proof (rp_slots _ _ _ _ Hr) as Hf. destruct Hc as [-> | ->].
  - assert (partition_point (fun row => row_offset row <=? off) (r_rows r) = length c1) as Hpp.
    { rewrite (partition_point_rows _ _ _ _ (fun s => s.1 <=? off) Hf) by by intros row key s (_ & -> & _).
      apply partition_point_app; (eapply Forall_impl; [eassumption|]); cbn; intros s; [rewrite Z.leb_le|rewrite Z.leb_gt]; lia. }
    destruct c2 as [|s c2].
    + destruct (slots_length _ _ _ Hf) as [Hl _]. rewrite app_nil_r in Hl. rewrite lookup_ge_None_2 by lia. done.
    + destruct (row_at _ _ _ _ _ Hf) as (row & key & -> & _ & (_ & -> & _)). apply Forall_cons in H2 as [H2 _].
      rewrite (proj2 (Z.eqb_neq _ _)) by lia. done.
  - destruct (row_at _ _ _ _ _ Hf) as (row & key & -> & _ & (_ & -> & Hz)). cbn [fst snd] in *. rewrite Hz, Z.eqb_refl. done.
Qed.

Lemma encode_slot off rec : rec_ok off rec -> slot_ok (encode_row off rec) (encode (r_key rec)) (off, Some rec).
Proof. intros Hr. destruct (encode_row_fields off rec Hr) as (? & ? & _). split; [done|]. split; [done|]. done. Qed.

Lemma insert_row_ok plain r l c off rec :
  repr plain r l c -> Forall (fun e => e.1 <> off) (contents c) -> key_valid (r_key rec) -> is_u64 (r_checksum rec) -> 0 <= off ->
  match insert r off rec with
  | Some (Ok (i, r')) => rec_ok off rec /\ exists l' c', repr plain r' l' c' /\
      contents c' = with_record off rec (contents c) /\ c' !! i = Some (off, Some rec)
  | Some (Err _) => validate_key (r_key rec) <> Ok tt \/ valid_record off rec = false \/
      SmallKeys.U32_MAX < live (r_keys r) + SmallKeys.blen (encode (r_key rec))
  | None => False
  end.
Proof.
  intros Hr Hne Hkv Hck Ho. unfold insert. destruct (validate_key (r_key rec)) as [[]|] eqn:Hval; [|by left].
  destruct (valid_record off rec) eqn:Hrec; cbn [negb]; [|right; by left].
  assert (rec_ok off rec) as Hok by done. rewrite (position_ok _ _ _ _ _ Hr).
  destruct (vacancy off c (rp_sorted _ _ _ _ Hr) Hne) as (c1 & c2 & Hs1 & Hs2 & H1 & H2 & -> & Hc).
  pose proof (target_ok _ _ _ _ _ _ _ Hr H1 H2 Hc) as Ht. cbv zeta in Ht.
  pose proof (contents_with c1 c2 c off rec H1 H2 Hc) as Hcont.
  assert (StronglySorted slot_lt (c1 ++ (off, Some rec) :: c2)) as Hsort by by apply sorted_with.
  assert (length (contents (c1 ++ (off, Some rec) :: c2)) = S (length (contents c))) as Hlen.
  { destruct Hc as [-> | ->]; rewrite !contents_app, ?contents_cons, !length_app; cbn; lia. }
  assert ((c1 ++ (off, Some rec) :: c2) !! length c1 = Some (off, Some rec)) as Hat by by rewrite lookup_app_r, Nat.sub_diag by lia.
  destruct (slots_length _ _ _ (rp_slots _ _ _ _ Hr)) as [_ Hl2]. pose proof (rp_live _ _ _ _ Hr) as Hlive.
  destruct (match r_rows r !! length c1 with Some _ => _ | None => _ end) eqn:Erep; [|destruct Ht as [Ht ->]].
  - pose proof (insert_ok (r_keys r) l (length c1) (encode (r_key rec)) true (rp_wf _ _ _ _ Hr) (rp_holds _ _ _ _ Hr)) as Hi.
    destruct (SmallKeys.insert _ _ _ _) as [[k'|e]|]; cbn [mbind option_bind result_bind];
      [|right; right; apply Hi; rewrite Hl2, Ht, length_app; cbn; lia|apply Hi; rewrite Hl2, Ht, length_app; cbn; lia].
    destruct Hi as (Hu' & Hh' & Hids); [rewrite Hl2, Ht, length_app; cbn; lia|]. split; [done|].
    exists (<[length c1 := encode (r_key rec)]> l), (c1 ++ (off, Some rec) :: c2). splits; [|done|done].
    assert (<[length c1 := (off, Some rec)]> c = c1 ++ (off, Some rec) :: c2) as Hins
      by (rewrite Ht, insert_app_r_alt, Nat.sub_diag by lia; done).
    split; cbn; try done; [by apply uwf_wf| |by rewrite Hlen, Hlive|].
    + rewrite <-Hins. apply Forall3_insert; [apply Hr|by apply encode_slot].
    + intros E. destruct (rp_plain _ _ _ _ Hr E) as (Eo & Ei & Hf). splits; [apply Hu'|by apply Hids|].
      rewrite <-Hins. apply Forall2_insert; done.
  - pose proof (insert_ok (r_keys r) l (length c1) (encode (r_key rec)) false (rp_wf _ _ _ _ Hr) (rp_holds _ _ _ _ Hr)) as Hi.
    destruct (SmallKeys.insert _ _ _ _) as [[k'|e]|]; cbn [mbind option_bind result_bind];
      [|right; right; apply Hi; rewrite Hl2, Ht, length_app; lia|apply Hi; rewrite Hl2, Ht, length_app; lia].
    destruct Hi as (Hu' & Hh' & Hids); [rewrite Hl2, Ht, length_app; lia|]. split; [done|].
    exists (SmallKeys.insert_at (length c1) (encode (r_key rec)) l), (c1 ++ (off, Some rec) :: c2). splits; [|done|done].
    split; cbn; try done; [by apply uwf_wf| |by rewrite Hlen, Hlive|].
    + rewrite <-(insert_at_length _ c1 c2), <-Ht. apply Forall3_insert_at; [apply Hr|by apply encode_slot].
    + intros E. destruct (rp_plain _ _ _ _ Hr E) as (Eo & Ei & Hf). splits; [apply Hu'|by apply Hids|].
      rewrite <-(insert_at_length _ c1 c2), <-Ht. unfold SmallKeys.insert_at.
      apply Forall2_app; [by apply Forall2_take|]. constructor; [done|by apply Forall2_drop].
Qed.

(** ** Truncation and sealing *)

Definition cut (end_ : Z) (s : Slot) : Slot := if end_ <=? s.1 then (s.1, None) else s.

Lemma clear_from_ok end_ (rows : list Row) l c n :
  Forall3 slot_ok rows l c -> (length (contents c) <= n)%nat ->
  Forall3 slot_ok (clear_from end_ rows n).1 l (cut end_ <$> c) /\
  (clear_from end_ rows n).2 = (n - length (contents c) + length (contents (cut end_ <$> c)))%nat.
Proof.
  intros Hf. revert n. induction Hf as [|row key s rows l c Hok Hf IH]; intros n Hn; [split; [constructor|cbn in *; lia]|].
  rewrite contents_cons in Hn. cbn [clear_from]. rewrite (slot_live _ _ _ Hok). pose proof Hok as (_ & -> & Hz).
  rewrite fmap_cons, !contents_cons. unfold cut at 1 3.
  destruct s as [off [rec|]]; cbn [fst snd content fmap option_fmap option_map] in *.
  - rewrite bool_decide_true by eauto. rewrite andb_true_r. cbn [length] in Hn. destruct (end_ <=? off).
    + destruct (clear_from end_ rows (n - 1)) as [rows' n'] eqn:E. destruct (IH (n - 1)%nat) as [IH1 IH2]; [lia|].
      rewrite E in IH1, IH2. cbn [fst snd] in *. split; [|cbn; lia]. constructor; [by apply (slot_clear row key (off, Some rec))|done].
    + destruct (clear_from end_ rows n) as [rows' n'] eqn:E. destruct (IH n) as [IH1 IH2]; [lia|].
      rewrite E in IH1, IH2. cbn [fst snd length] in *. split; [by constructor|]. cbn [content fmap option_fmap option_map fst snd length]. lia.
  - rewrite bool_decide_false by by intros [? ?]. rewrite andb_false_r.
    destruct (clear_from end_ rows n) as [rows' n'] eqn:E. destruct (IH n) as [IH1 IH2]; [lia|].
    rewrite E in IH1, IH2. cbn [fst snd length] in *. split; [|by destruct (end_ <=? off)]. constructor; [|done]. by destruct (end_ <=? off).
Qed.

Lemma contents_cut end_ c : contents (cut end_ <$> c) = filter (fun e => e.1 < end_) (contents c).
Proof.
  induction c as [|[off o] c IH]; [done|]. rewrite fmap_cons, !contents_cons. unfold cut at 1. cbn [fst].
  destruct o as [rec|]; cbn [content fmap option_fmap option_map fst snd].
  - destruct (Z.leb_spec end_ off); [rewrite filter_cons_False by (cbn; lia)|rewrite filter_cons_True by (cbn; lia)];
      cbn [content fmap option_fmap option_map fst snd]; by rewrite IH.
  - by destruct (end_ <=? off).
Qed.

Lemma cut_sorted end_ c : StronglySorted slot_lt c -> StronglySorted slot_lt (cut end_ <$> c).
Proof.
  assert (forall s, (cut end_ s).1 = s.1) as Hc by (intros s; unfold cut; by destruct (end_ <=? s.1)).
  induction 1 as [|s c Hs IH Hall]; [constructor|]. rewrite fmap_cons. constructor; [done|]. apply Forall_fmap.
  eapply Forall_impl; [exact Hall|]. intros t Ht. unfold slot_lt in *. cbn. by rewrite !Hc.
Qed.

Lemma retain_before_ok plain r l c end_ : repr plain r l c ->
  exists r' l' c', retain_before r end_ = Some r' /\ repr plain r' l' c' /\ contents c' = filter (fun e => e.1 < end_) (contents c).
Proof.
  intros Hr. unfold retain_before. destruct (clear_from_ok end_ _ _ _ (r_live r) (rp_slots _ _ _ _ Hr)) as [Hf Hl];
    [by rewrite (rp_live _ _ _ _ Hr)|].
  destruct (clear_from end_ (r_rows r) (r_live r)) as [rows n]. cbn [fst snd] in *.
  destruct (compact_ok plain (mkRecords rows (r_keys r) n) l (cut end_ <$> c)) as (r' & l' & -> & Hr').
  - apply Hr.
  - apply Hr.
  - done.
  - apply cut_sorted, Hr.
  - cbn. rewrite Hl, (rp_live _ _ _ _ Hr). lia.
  - intros E. by destruct (rp_plain _ _ _ _ Hr E) as (? & ? & _).
  - exists r', l', (live_slots (cut end_ <$> c)). splits; [done|done|]. by rewrite contents_live, contents_cut.
Qed.

Lemma seal_row_ok plain r l c : repr plain r l c -> exists r', seal r = Some r' /\ repr false r' l c.
Proof.
  intros Hr. unfold seal. destruct (seal_ok (r_keys r) l (rp_wf _ _ _ _ Hr) (rp_holds _ _ _ _ Hr)) as (k' & -> & Hw & Hh & _).
  cbn [mbind option_bind]. eexists. split; [done|]. split; cbn; try done; apply Hr.
Qed.

(** ** Key bytes *)

Lemma key_bytes_with off rec d :
  key_bytes_total (with_record off rec d) = key_bytes_total d + SmallKeys.blen (encode (r_key rec)).
Proof.
  unfold key_bytes_total, with_record, SmallKeys.blen. rewrite sum_list_with_app. cbn [sum_list_with snd].
  assert (sum_list_with (fun e => length (encode (r_key e.2))) d =
    (sum_list_with (fun e => length (encode (r_key e.2))) (filter (fun e => (e.1 < off)%Z) d) +
     sum_list_with (fun e => length (encode (r_key e.2))) (filter (fun e => (off <= e.1)%Z) d))%nat) as ->; [|lia].
  induction d as [|e d IH]; [done|]. rewrite !filter_cons. destruct (decide (e.1 < off)) as [Hlt|Hge].
  - rewrite decide_False by lia. cbn [sum_list_with]. lia.
  - rewrite decide_True by lia. cbn [sum_list_with]. lia.
Qed.

Lemma plain_live r l c : repr true r l c -> live (r_keys r) = key_bytes_total (contents c).
Proof.
  intros Hr. rewrite <-(plain_keys_total true _ _ _ Hr eq_refl). destruct (rp_plain _ _ _ _ Hr eq_refl) as (Eo & Ei & _).
  unfold live. pose proof (rp_wf _ _ _ _ Hr) as [Hu _].
  assert (SmallKeys.unfreeze (r_keys r) = r_keys r) as E by (unfold SmallKeys.unfreeze; by rewrite Eo). rewrite E in *.
  apply plain_total; [done|done|apply Hr].
Qed.

Lemma plain_fits r l c : repr true r l c -> key_bytes_total (contents c) <= SmallKeys.U32_MAX.
Proof.
  intros Hr. rewrite <-(plain_live _ _ _ Hr). unfold live. pose proof (rp_wf _ _ _ _ Hr) as [Hu _].
  pose proof (u_sum _ Hu). pose proof (u_suffixes _ Hu) as Hs. unfold SmallKeys.blen in Hs. lia.
Qed.

End Hash.

End SmallExtents.
