(* ===== verification/SmallModel.v ===== *)
(** The checkpointable metadata of the small-object store
    (crates/talon-worker/src/small_store/journal/model.rs): segments of records, the events that
    change them, and the snapshot the journal compacts its log with.

    A panic is [None] outside the result. The state after an error is not modelled: the journal
    stops at the first record that does not apply. *)

From S2P Require Import Prelude External Bytes BTree Key SmallKey SmallKeys SmallRecords.

Module SmallModel.
Import Bytes SmallKey SmallRecords.

Record SegmentMeta := mkSegment {
  slot : Z; bytes : Z; durable_end : Z; s_metadata : Z; sealed : bool; records : Records
}.

(** Keys are segment numbers. *)
Record Model := mkModel { segments : list (Z * SegmentMeta); next : Z }.

(** [Model::default] with the allocator the store opens with. *)
Definition Model_start : Model := mkModel [] 1.

Inductive Event :=
  | Insert (slot segment offset : Z) (record : SmallRecord)
  | Delete (segment offset : Z)
  | Seal (segment : Z)
  | Flush (segment durable_end : Z)
  | Recover (segment : Z)
  | SetNext (next : Z)
  | Replace (old : Z) (new : option Z).

Definition recovered_metadata (s : SegmentMeta) : option Z :=
  if sealed s then Some (s_metadata s) else
  rs ← before (records s) (durable_end s);
  Some (wrap 64 (8 + foldr (fun e n => 37 + key_len (r_key e.2) + n) 0 rs)).

(** *** Encoding *)

Definition encode_event (e : Event) : result io_error (list byte) :=
  match e with
  | SetNext next => Ok (byte_of 5 :: le_bytes 8 next)
  | Insert slot segment offset record =>
    encode_key (byte_of 0 :: (le_bytes 8 slot ++ le_bytes 8 segment ++ le_bytes 8 offset ++
      le_bytes 8 (r_len record) ++ le_bytes 8 (r_checksum record))) (r_key record)
  | Delete segment offset => Ok (byte_of 1 :: (le_bytes 8 segment ++ le_bytes 8 offset))
  | Seal segment => Ok (byte_of 2 :: le_bytes 8 segment)
  | Flush segment durable_end => Ok (byte_of 6 :: (le_bytes 8 segment ++ le_bytes 8 durable_end))
  | Recover segment => Ok (byte_of 7 :: le_bytes 8 segment)
  | Replace old new => Ok (byte_of 3 :: (le_bytes 8 old ++ le_bytes 8 (default 0 new)))
  end.

Definition encoded_len (e : Event) : Z :=
  match e with
  | Insert _ _ _ record => 41 + key_len (r_key record)
  | Delete _ _ | Replace _ _ | Flush _ _ => 17
  | Seal _ | SetNext _ | Recover _ => 9
  end.

Definition take_byte (b : list byte) : result io_error (byte * list byte) :=
  match b with
  | first :: rest => Ok (first, rest)
  | [] => Err (invalid "missing operation")
  end.

Definition u64 (b : list byte) : result io_error (Z * list byte) := read_le 8 b.

Definition decode_event (b : list byte) : result io_error Event :=
  '(kind, b) ← take_byte b;
  let kind := byte_val kind in
  '(event, b) ←
    (if kind =? 5 then '(next, b) ← u64 b; Ok (SetNext next, b)
     else if kind =? 0 then
       '(slot, b) ← u64 b;
       '(segment, b) ← u64 b;
       '(offset, b) ← u64 b;
       '(len, b) ← u64 b;
       '(checksum, b) ← u64 b;
       id ← view b;
       if (Z.shiftl 128 20 <? len) || negb (valid_extent id len) then Err (invalid "journal extent")
       else Ok (Insert slot segment offset (mkRecord id len checksum), [])
     else if kind =? 1 then
       '(segment, b) ← u64 b; '(offset, b) ← u64 b; Ok (Delete segment offset, b)
     else if kind =? 2 then '(segment, b) ← u64 b; Ok (Seal segment, b)
     else if kind =? 6 then
       '(segment, b) ← u64 b; '(durable_end, b) ← u64 b; Ok (Flush segment durable_end, b)
     else if kind =? 7 then '(segment, b) ← u64 b; Ok (Recover segment, b)
     else if kind =? 3 then
       '(old, b) ← u64 b; '(new, b) ← u64 b; Ok (Replace old (if new =? 0 then None else Some new), b)
     else Err (invalid "journal operation"));
  if negb (length b =? 0)%nat then Err (invalid "journal trailing bytes") else Ok event.

(** *** Applying events *)

Definition fail {A} (message : string) : Panic A := Some (Err (invalid message)).
Definition ok {A} (a : A) : Panic A := Some (Ok a).

(** [get_mut(&segment).ok_or_else(..)?] *)
Definition get_mut (m : Model) (segment : Z) (message : string) : Panic SegmentMeta :=
  match BTree.get segment (segments m) with
  | Some s => ok s
  | None => fail message
  end.

Definition put (m : Model) (segment : Z) (s : SegmentMeta) : Model :=
  mkModel (BTree.put segment s (segments m)) (next m).

Definition seal_segment (s : SegmentMeta) : Panic SegmentMeta :=
  records ← seal (records s);
  ok (mkSegment (slot s) (bytes s) (bytes s) (s_metadata s) true records).

Section Hash.
Context `{KeyHash}.

Definition apply_insert (m : Model) (slot_ segment offset : Z) (record : SmallRecord) : Panic Model :=
  if segment =? 0 then fail "zero segment id" else
  match checked_add 64 segment 1 with
  | None => fail "segment id overflow"
  | Some above =>
    let s := default (mkSegment slot_ 0 0 8 false Records_default) (BTree.get segment (segments m)) in
    if negb (slot s =? slot_) || sealed s || (offset <? durable_end s) then fail "insert into sealed/wrong stream" else
    match checked_add 64 offset (r_len record) with
    | None => fail "extent overflow"
    | Some end_ =>
      if overlaps (records s) offset (r_len record) then fail "overlapping journal extent" else
      let? row := insert (records s) offset record in
      ok (mkModel (BTree.put segment
            (mkSegment (slot s) (Z.max (bytes s) end_) (durable_end s)
               (wrap 64 (s_metadata s + (37 + key_len (r_key record)))) (sealed s) row.2) (segments m))
            (Z.max (next m) above))
    end
  end.

Definition apply (m : Model) (e : Event) : Panic Model :=
  match e with
  | SetNext n => if n =? 0 then fail "zero segment allocator" else ok (mkModel (segments m) (Z.max (next m) n))
  | Insert slot segment offset record => apply_insert m slot segment offset record
  | Delete segment offset =>
    let? s := get_mut m segment "delete missing segment" in
    rs ← remove (records s) offset;
    match rs with
    | None => fail "delete missing record"
    | Some rs =>
      ok (put m segment (mkSegment (slot s) (bytes s) (durable_end s) (wrap 64 (s_metadata s + 21)) (sealed s) rs))
    end
  | Seal segment =>
    let? s := get_mut m segment "seal missing segment" in
    let? s := seal_segment s in
    ok (put m segment s)
  | Flush segment d =>
    let? s := get_mut m segment "flush missing segment" in
    if sealed s || (d =? 0) || (d <? durable_end s) || (bytes s <? d) || crosses (records s) d
    then fail "invalid durable segment boundary"
    else ok (put m segment (mkSegment (slot s) (bytes s) d (s_metadata s) (sealed s) (records s)))
  | Recover segment =>
    let? s := get_mut m segment "recover missing segment" in
    if sealed s || (durable_end s =? 0) then fail "invalid segment recovery" else
    metadata ← recovered_metadata s;
    rs ← retain_before (records s) (durable_end s);
    rs ← seal rs;
    ok (put m segment (mkSegment (slot s) (durable_end s) (durable_end s) metadata true rs))
  | Replace old new =>
    let? m :=
      (match new with
       | Some new =>
         if old =? new then fail "self relocation" else
         let? s := get_mut m new "replacement missing segment" in
         let? s := seal_segment s in
         ok (put m new s)
       | None => ok m
       end) in
    ok (mkModel (BTree.del old (segments m)) (next m))
  end.

(** *** Snapshots *)

Definition header (id : Z) (s : SegmentMeta) : list byte :=
  byte_of 8 :: (le_bytes 8 id ++ le_bytes 8 (slot s) ++ le_bytes 8 (bytes s) ++ le_bytes 8 (s_metadata s) ++
  [byte_of (if sealed s then 1 else 0)] ++ le_bytes 8 (durable_end s)).

(** The records of the current segment, from row [after]. *)
Fixpoint snapshot_rows (id : Z) (s : SegmentMeta) (after n : nat) : option (list (result io_error (list byte))) :=
  match n with
  | O => Some []
  | S n =>
    item ← get (records s) after;
    items ← snapshot_rows id s (S after) n;
    Some (match item with
          | Some (offset, r) => encode_event (Insert (slot s) id offset r) :: items
          | None => items
          end)
  end.

Fixpoint snapshot_segments (l : list (Z * SegmentMeta)) : option (list (result io_error (list byte))) :=
  match l with
  | [] => Some []
  | (id, s) :: l =>
    rows ← snapshot_rows id s 0 (length (r_rows (records s)));
    rest ← snapshot_segments l;
    Some (Ok (header id s) :: (rows ++ rest))
  end.

(** The items of the iterator. *)
Definition snapshot (m : Model) : option (list (result io_error (list byte))) :=
  items ← snapshot_segments (segments m);
  Some (Ok (byte_of 5 :: le_bytes 8 (next m)) :: items).

Inductive SnapshotRecord :=
  | SNext (next : Z)
  | SSegment (id : Z) (s : SegmentMeta)
  | SInsert (e : Event).

Definition decode_header (kind : Z) (b : list byte) : result io_error SnapshotRecord :=
  '(id, b) ← u64 b;
  '(slot, b) ← u64 b;
  '(bytes, b) ← u64 b;
  '(metadata, b) ← u64 b;
  '(flag, b) ← take_byte b;
  sealed ← (if byte_val flag =? 0 then Ok false else if byte_val flag =? 1 then Ok true
            else Err (invalid "snapshot seal"));
  '(durable_end, b) ← (if kind =? 8 then u64 b else Ok (if (sealed : bool) then bytes else 0, b));
  if negb (length b =? 0)%nat || (bytes <? durable_end) || (sealed && negb (durable_end =? bytes))
  then Err (invalid "invalid snapshot segment header")
  else Ok (SSegment id (mkSegment slot bytes durable_end metadata sealed Records_default)).

Definition decode_snapshot (input : list byte) : result io_error SnapshotRecord :=
  '(kind, b) ← take_byte input;
  let kind := byte_val kind in
  if kind =? 5 then
    '(next, b) ← u64 b;
    if negb (length b =? 0)%nat || (next =? 0) then Err (invalid "snapshot allocator") else Ok (SNext next)
  else if (kind =? 4) || (kind =? 8) then decode_header kind b
  else if kind =? 0 then e ← decode_event input; Ok (SInsert e)
  else Err (invalid "snapshot operation").

(** The previous segment is complete. *)
Definition seal_previous (m : Model) : option Model :=
  match BTree.last_entry (segments m) with
  | Some (id, s) =>
    if sealed s then
      rs ← seal (records s);
      Some (put m id (mkSegment (slot s) (bytes s) (durable_end s) (s_metadata s) (sealed s) rs))
    else Some m
  | None => Some m
  end.

Definition restore (m : Model) (r : SnapshotRecord) : Panic Model :=
  match r with
  | SNext n =>
    if negb (SmallKeys.is_nil (segments m)) then fail "snapshot allocator order" else ok (mkModel (segments m) n)
  | SSegment id s =>
    m ← seal_previous m;
    if (id =? 0) || (next m <=? id) || bool_decide (is_Some (BTree.get id (segments m)))
    then fail "snapshot segment"
    else ok (put m id s)
  | SInsert (Insert slot_ segment offset record) =>
    let? s := get_mut m segment "snapshot missing segment" in
    if negb (slot s =? slot_) ||
       match checked_add 64 offset (r_len record) with Some end_ => bytes s <? end_ | None => true end ||
       (offset <? durable_end s) && (durable_end s <? offset + r_len record) ||
       overlaps (records s) offset (r_len record)
    then fail "snapshot extent"
    else
      let? row := insert (records s) offset record in
      ok (put m segment (mkSegment (slot s) (bytes s) (durable_end s) (s_metadata s) (sealed s) row.2))
  | SInsert _ => fail "snapshot insert"
  end.

End Hash.

End SmallModel.
