(* ===== verification/SmallRefine.v ===== *)
(** The metadata model of the small-object store refines a catalogue of segments that map offsets
    to records: every event has the same outcome on both, without a panic, and the catalogue keeps
    its extents disjoint, inside their segment and on one side of the durable boundary. *)

From S2P Require Import Prelude External Bytes BTree Key SmallKey SmallKeys SmallTable SmallSeal SmallRecords SmallExtents SmallModel.

Module SmallRefine.
Import SmallKey SmallRecords SmallExtents SmallModel.

(** ** The catalogue *)

Record ASeg := mkASeg {
  a_slot : Z; a_bytes : Z; a_end : Z; a_metadata : Z; a_sealed : bool; a_recs : list (Z * SmallRecord)
}.

Record AModel := mkAModel { a_segments : list (Z * ASeg); a_next : Z }.

Definition a_put (A : AModel) (id : Z) (a : ASeg) : AModel := mkAModel (BTree.put id a (a_segments A)) (a_next A).

(** A record the store takes into a segment. *)
Definition accepts (off : Z) (rec : SmallRecord) (d : list (Z * SmallRecord)) : bool :=
  is_ok (validate_key (r_key rec)) && valid_record off rec &&
  (key_bytes_total d + SmallKeys.blen (encode (r_key rec)) <=? SmallKeys.U32_MAX).

Definition a_insert (A : AModel) (slot_ id off : Z) (rec : SmallRecord) : option AModel :=
  let a := default (mkASeg slot_ 0 0 8 false []) (BTree.get id (a_segments A)) in
  if (id =? 0) || (2 ^ 64 <=? id + 1) || negb (a_slot a =? slot_) || a_sealed a || (off <? a_end a) ||
     (2 ^ 64 <=? off + r_len rec) || existsb (intersects off (r_len rec)) (a_recs a) || negb (accepts off rec (a_recs a))
  then None
  else Some (mkAModel (BTree.put id (mkASeg slot_ (Z.max (a_bytes a) (off + r_len rec)) (a_end a)
                (wrap 64 (a_metadata a + (37 + key_len (r_key rec)))) false (with_record off rec (a_recs a))) (a_segments A))
              (Z.max (a_next A) (id + 1))).

Definition a_seal (a : ASeg) : ASeg := mkASeg (a_slot a) (a_bytes a) (a_bytes a) (a_metadata a) true (a_recs a).

Definition a_below (end_ : Z) (d : list (Z * SmallRecord)) : list (Z * SmallRecord) := filter (fun e => e.1 < end_) d.

Definition a_apply (A : AModel) (e : Event) : option AModel :=
  match e with
  | SetNext n => if n =? 0 then None else Some (mkAModel (a_segments A) (Z.max (a_next A) n))
  | Insert slot_ id off rec => a_insert A slot_ id off rec
  | Delete id off =>
    a ← BTree.get id (a_segments A);
    if existsb (fun e => e.1 =? off) (a_recs a)
    then Some (a_put A id (mkASeg (a_slot a) (a_bytes a) (a_end a) (wrap 64 (a_metadata a + 21)) (a_sealed a)
                 (without off (a_recs a))))
    else None
  | Seal id => a ← BTree.get id (a_segments A); Some (a_put A id (a_seal a))
  | Flush id d =>
    a ← BTree.get id (a_segments A);
    if a_sealed a || (d =? 0) || (d <? a_end a) || (a_bytes a <? d) ||
       existsb (fun e => (e.1 <? d) && (d <? end_of e)) (a_recs a)
    then None else Some (a_put A id (mkASeg (a_slot a) (a_bytes a) d (a_metadata a) (a_sealed a) (a_recs a)))
  | Recover id =>
    a ← BTree.get id (a_segments A);
    if a_sealed a || (a_end a =? 0) then None else
    let d := a_below (a_end a) (a_recs a) in
    Some (a_put A id (mkASeg (a_slot a) (a_end a) (a_end a)
      (wrap 64 (8 + foldr (fun e n => 37 + key_len (r_key e.2) + n) 0 d)) true d))
  | Replace old new =>
    A ← (match new with
         | Some new =>
           if old =? new then None else
           a ← BTree.get new (a_segments A); Some (a_put A new (a_seal a))
         | None => Some A
         end);
    Some (mkAModel (BTree.del old (a_segments A)) (a_next A))
  end.

(** The values of the Rust type. *)
Definition event_valid (e : Event) : Prop :=
  match e with
  | SetNext n => is_u64 n
  | Insert slot_ id off rec =>
    is_u64 slot_ /\ is_u64 id /\ is_u64 off /\ is_u64 (r_len rec) /\ is_u64 (r_checksum rec) /\ key_valid (r_key rec)
  | Delete id off => is_u64 id /\ is_u64 off
  | Seal id | Recover id => is_u64 id
  | Flush id d => is_u64 id /\ is_u64 d
  | Replace old new => is_u64 old /\ is_u64 (default 0 new)
  end.

(** ** Invariant *)

(** Extents are disjoint, inside the segment, and do not cross the durable boundary. *)
Record seg_inv (a : ASeg) : Prop := {
  si_slot : is_u64 (a_slot a);
  si_bytes : is_u64 (a_bytes a);
  si_end : 0 <= a_end a <= a_bytes a;
  si_metadata : is_u64 (a_metadata a);
  si_sealed : a_sealed a = true -> a_end a = a_bytes a;
  si_disjoint : disjoint (a_recs a);
  si_recs : Forall (fun e => rec_ok e.1 e.2 /\ end_of e <= a_bytes a /\ (end_of e <= a_end a \/ a_end a <= e.1)) (a_recs a);
  si_keys : key_bytes_total (a_recs a) <= SmallKeys.U32_MAX
}.

Record model_inv (A : AModel) : Prop := {
  mi_next : 1 <= a_next A < 2 ^ 64;
  mi_sorted : BTree.sorted (a_segments A);
  mi_ids : Forall (fun e => 0 < e.1 < a_next A) (a_segments A);
  mi_segments : Forall (fun e => seg_inv e.2) (a_segments A)
}.

Section Hash.
Context `{KeyHash}.

Definition seg_abs (s : SegmentMeta) (a : ASeg) : Prop :=
  slot s = a_slot a /\ bytes s = a_bytes a /\ durable_end s = a_end a /\ s_metadata s = a_metadata a /\ sealed s = a_sealed a /\
  exists l c, repr (negb (a_sealed a)) (records s) l c /\ contents c = a_recs a.

Definition model_abs (m : Model) (A : AModel) : Prop :=
  next m = a_next A /\ BTree.related seg_abs (segments m) (a_segments A).

End Hash.

(** ** Extents of a segment *)

Lemma with_record_Forall (P : Z * SmallRecord -> Prop) off rec d : Forall P d -> P (off, rec) -> Forall P (with_record off rec d).
Proof.
  intros Hd Hr. unfold with_record. apply Forall_app. split; [|constructor; [done|]];
    apply Forall_forall; intros e [_ He]%list_elem_of_filter; exact (proj1 (Forall_forall _ _) Hd e He).
Qed.

Lemma with_record_disjoint off rec d :
  disjoint d -> Forall (fun e => 0 < r_len e.2) d -> 0 < r_len rec -> existsb (intersects off (r_len rec)) d = false ->
  disjoint (with_record off rec d).
Proof.
  intros Hd Hp Hl Hno. assert (forall e, e ∈ d -> end_of e <= off \/ off + r_len rec <= e.1) as Hsep.
  { intros e He. pose proof (proj1 (Forall_forall _ _) Hp e He) as Hpe. cbn in Hpe.
    destruct (Z.le_gt_cases (end_of e) off); [by left|]. right. destruct (Z.le_gt_cases (off + r_len rec) e.1); [done|].
    assert (existsb (intersects off (r_len rec)) d = true); [|congruence]. apply existsb_exists. exists e.
    split; [by apply list_elem_of_In|]. unfold intersects. rewrite !(proj2 (Z.ltb_lt _ _)) by lia. done. }
  unfold with_record, disjoint. apply StronglySorted_join; [by apply filter_sorted|constructor; [by apply filter_sorted|]|].
  - apply Forall_forall. intros e [Hge He]%list_elem_of_filter. pose proof (proj1 (Forall_forall _ _) Hp e He) as Hpe.
    destruct (Hsep e He) as [Hs|Hs]; unfold end_of in *; cbn in *; lia.
  - intros x y [Hlt Hx]%list_elem_of_filter [->|[Hge Hy]%list_elem_of_filter]%elem_of_cons.
    + destruct (Hsep x Hx) as [Hs|Hs]; cbn in *; lia.
    + destruct (Hsep x Hx) as [Hs|Hs]; cbn in *; lia.
Qed.

Lemma not_at off len d : 0 < len -> Forall (fun e => 0 < r_len e.2) d -> existsb (intersects off len) d = false ->
  Forall (fun e => e.1 <> off) d.
Proof.
  intros Hl Hp Hno. apply Forall_forall. intros e He Heq. pose proof (proj1 (Forall_forall _ _) Hp e He) as Hpe.
  assert (existsb (intersects off len) d = true); [|congruence]. apply existsb_exists. exists e.
  split; [by apply list_elem_of_In|]. unfold intersects, end_of. rewrite !(proj2 (Z.ltb_lt _ _)) by (cbn in *; lia). done.
Qed.

Lemma recs_pos a : seg_inv a -> Forall (fun e => 0 < r_len e.2) (a_recs a).
Proof.
  intros Hi. eapply Forall_impl; [apply (si_recs a Hi)|]. intros e (He & _). pose proof (rec_ok_bounds _ _ He). lia.
Qed.

Lemma key_bytes_filter (P : Z * SmallRecord -> Prop) `{forall e, Decision (P e)} d : key_bytes_total (filter P d) <= key_bytes_total d.
Proof.
  unfold key_bytes_total. induction d as [|e d IH]; [done|]. rewrite filter_cons. destruct (decide (P e)); cbn [sum_list_with]; lia.
Qed.

Lemma checked_add_Some a b : 0 <= a -> 0 <= b ->
  checked_add 64 a b = if 2 ^ 64 <=? a + b then None else Some (a + b).
Proof.
  intros Ha Hb. unfold checked_add. destruct (Z.ltb_spec (a + b) (2 ^ 64)), (Z.leb_spec (2 ^ 64) (a + b)); try done; lia.
Qed.

Lemma inv_get A id a : model_inv A -> BTree.get id (a_segments A) = Some a -> seg_inv a /\ 0 < id < a_next A.
Proof.
  intros Hi Hg%BTree.get_elem. split.
  - exact (proj1 (Forall_forall _ _) (mi_segments A Hi) _ Hg).
  - exact (proj1 (Forall_forall _ _) (mi_ids A Hi) _ Hg).
Qed.

Lemma inv_put A id a n : model_inv A -> seg_inv a -> 0 < id < n -> a_next A <= n < 2 ^ 64 ->
  model_inv (mkAModel (BTree.put id a (a_segments A)) n).
Proof.
  intros [H1 H2 H3 H4] Ha Hid Hn. split; cbn.
  - lia.
  - by apply BTree.put_sorted.
  - apply BTree.put_Forall; [done|]. eapply Forall_impl; [exact H3|]. cbn. lia.
  - by apply BTree.put_Forall.
Qed.

Lemma inv_del A id : model_inv A -> model_inv (mkAModel (BTree.del id (a_segments A)) (a_next A)).
Proof. intros [H1 H2 H3 H4]. split; cbn; [done|by apply BTree.del_sorted|by apply BTree.del_all|by apply BTree.del_all]. Qed.

(** ** The invariant of the catalogue *)

Lemma seg_inv_seal a : seg_inv a -> seg_inv (a_seal a).
Proof.
  intros [H1 H2 H3 H4 H5 H6 H7 H8]. split; cbn; try done; [lia|].
  eapply Forall_impl; [exact H7|]. intros e (? & ? & ?). splits; try done. by left.
Qed.

Lemma seg_inv_filter a (P : Z * SmallRecord -> Prop) `{forall e, Decision (P e)} md : seg_inv a -> is_u64 md ->
  seg_inv (mkASeg (a_slot a) (a_bytes a) (a_end a) md (a_sealed a) (filter P (a_recs a))).
Proof.
  intros [H1 H2 H3 H4 H5 H6 H7 H8] Hm. split; cbn; try done.
  - by apply filter_sorted.
  - apply Forall_forall. intros e [_ He]%list_elem_of_filter. exact (proj1 (Forall_forall _ _) H7 e He).
  - etrans; [apply key_bytes_filter|done].
Qed.

Lemma seg_inv_recover a md : seg_inv a -> is_u64 md ->
  seg_inv (mkASeg (a_slot a) (a_end a) (a_end a) md true (a_below (a_end a) (a_recs a))).
Proof.
  intros [H1 H2 H3 H4 H5 H6 H7 H8] Hm. unfold is_u in *. split; cbn; unfold is_u; try done; try lia.
  - by apply filter_sorted.
  - apply Forall_forall. intros e [Hlt He]%list_elem_of_filter. destruct (proj1 (Forall_forall _ _) H7 e He) as (? & ? & ?).
    splits; [done|lia|left; lia].
  - etrans; [apply key_bytes_filter|done].
Qed.

Lemma seg_inv_flush a d : seg_inv a -> a_sealed a = false -> a_end a <= d <= a_bytes a ->
  existsb (fun e => (e.1 <? d) && (d <? end_of e)) (a_recs a) = false ->
  seg_inv (mkASeg (a_slot a) (a_bytes a) d (a_metadata a) (a_sealed a) (a_recs a)).
Proof.
  intros [H1 H2 H3 H4 H5 H6 H7 H8] Hs Hd Hno. split; cbn; try done; [lia|congruence|].
  apply Forall_forall. intros e He. destruct (proj1 (Forall_forall _ _) H7 e He) as (? & ? & ?). splits; try done.
  destruct (Z.le_gt_cases (end_of e) d); [by left|]. destruct (Z.le_gt_cases d e.1); [by right|].
  assert (existsb (fun e => (e.1 <? d) && (d <? end_of e)) (a_recs a) = true); [|congruence].
  apply existsb_exists. exists e. split; [by apply list_elem_of_In|]. rewrite !(proj2 (Z.ltb_lt _ _)) by lia. done.
Qed.

Lemma seg_inv_insert a off rec md : seg_inv a -> a_sealed a = false -> a_end a <= off -> rec_ok off rec -> is_u64 md ->
  existsb (intersects off (r_len rec)) (a_recs a) = false ->
  key_bytes_total (a_recs a) + SmallKeys.blen (encode (r_key rec)) <= SmallKeys.U32_MAX ->
  seg_inv (mkASeg (a_slot a) (Z.max (a_bytes a) (off + r_len rec)) (a_end a) md false (with_record off rec (a_recs a))).
Proof.
  intros Hi Hs Ho Hr Hm Hno Hk. pose proof (recs_pos a Hi) as Hpos. destruct Hi as [H1 H2 H3 H4 H5 H6 H7 H8].
  pose proof (rec_ok_bounds _ _ Hr) as (? & ? & ? & _). unfold is_u in *. split; cbn; unfold is_u; try done; try lia.
  - apply with_record_disjoint; try done. lia.
  - apply with_record_Forall; [|unfold end_of; cbn; splits; [done|lia|lia]].
    eapply Forall_impl; [exact H7|]. intros e (? & ? & ?). splits; [done|lia|done].
  - by rewrite key_bytes_with.
Qed.

(** ** Refinement *)

Section Refine.
Context `{KeyHash}.

(** The model and the catalogue agree on the outcome. *)
Definition agrees (r : Panic Model) (o : option AModel) : Prop :=
  match r with
  | Some (Ok m) => exists A, o = Some A /\ model_abs m A /\ model_inv A
  | Some (Err _) => o = None
  | None => False
  end.

Lemma abs_get m A id : model_abs m A ->
  match BTree.get id (segments m), BTree.get id (a_segments A) with
  | Some s, Some a => seg_abs s a | None, None => True | _, _ => False
  end.
Proof. intros [_ Hr]. by apply BTree.related_get. Qed.

(** The record table of a segment accepts what the catalogue accepts. *)
Lemma insert_refines s a off rec :
  seg_abs s a -> seg_inv a -> a_sealed a = false -> key_valid (r_key rec) -> is_u64 (r_checksum rec) -> is_u64 off -> is_u64 (r_len rec) ->
  existsb (intersects off (r_len rec)) (a_recs a) = false ->
  match insert (records s) off rec with
  | Some (Ok (_, r')) => accepts off rec (a_recs a) = true /\ rec_ok off rec /\
      exists l' c', repr true r' l' c' /\ contents c' = with_record off rec (a_recs a)
  | Some (Err _) => accepts off rec (a_recs a) = false
  | None => False
  end.
Proof.
  intros (_ & _ & _ & _ & Hse & l & c & Hr & Hc) Hi Hs Hkv Hck Hoff Hlen Hno. rewrite Hs in Hr. cbn [negb] in Hr.
  unfold accepts. destruct (validate_key (r_key rec)) as [[]|] eqn:Hval.
  2:{ unfold insert. by rewrite Hval. }
  destruct (valid_record off rec) eqn:Hvr.
  2:{ unfold insert. by rewrite Hval, Hvr. }
  cbn [is_ok andb]. unfold is_u in Hoff. assert (rec_ok off rec) as Hok by (unfold rec_ok; splits; [by split|done|lia|done]).
  pose proof (rec_ok_bounds _ _ Hok) as (_ & Hl & _). pose proof (recs_pos a Hi) as Hpos.
  assert (Forall (fun e => e.1 <> off) (contents c)) as Hne by (rewrite Hc; apply (not_at off (r_len rec)); [lia|done|done]).
  pose proof (insert_row_ok true (records s) l c off rec Hr Hne Hkv Hck) as Hins.
  pose proof (plain_live _ _ _ Hr) as Hlive. rewrite Hc in Hins, Hlive.
  destruct (insert (records s) off rec) as [[[i r']|e]|].
  - destruct Hins as (_ & l' & c' & Hr' & Hc' & _); [lia|]. splits; [|done|by exists l', c'].
    apply Z.leb_le. rewrite <-(key_bytes_with off), <-Hc'. by eapply plain_fits.
  - destruct Hins as [Hv|[Hv|Hover]]; [lia|congruence|congruence|]. apply Z.leb_gt. rewrite <-Hlive. exact Hover.
  - apply Hins. lia.
Qed.

Lemma apply_insert_refines m A slot_ id off rec :
  model_inv A -> model_abs m A -> event_valid (Insert slot_ id off rec) ->
  agrees (apply_insert m slot_ id off rec) (a_insert A slot_ id off rec).
Proof.
  intros Hi Ha (Hslot & Hid & Hoff & Hlen & Hck & Hkv). unfold apply_insert, a_insert.
  pose proof Hid as [Hid0 _]. pose proof Hoff as [Hoff0 _]. pose proof Hlen as [Hlen0 _].
  destruct (Z.eqb_spec id 0) as [|Hnz]; [done|]. rewrite checked_add_Some by lia.
  destruct (Z.leb_spec (2 ^ 64) (id + 1)) as [|Hup]; [done|]. cbn [orb].
  set (s := default (mkSegment slot_ 0 0 8 false Records_default) (BTree.get id (segments m))).
  set (a := default (mkASeg slot_ 0 0 8 false []) (BTree.get id (a_segments A))).
  assert (seg_abs s a /\ seg_inv a) as [Hsa Hsi].
  { pose proof (abs_get m A id Ha) as Hg. unfold s, a. destruct (BTree.get id (segments m)), (BTree.get id (a_segments A)) eqn:E; try done.
    - split; [done|]. exact (proj1 (inv_get _ _ _ Hi E)).
    - split; [unfold seg_abs; splits; try done; exists [], []; split; [apply repr_default|done]|].
      split; cbn; unfold is_u in *; try done; try lia; constructor. }
  pose proof Hsa as (-> & Hby & -> & Hmd & -> & _).
  destruct (Z.eqb_spec (a_slot a) slot_) as [Hsl|]; [|done]. cbn [negb orb].
  destruct (a_sealed a) eqn:Hse; [done|]. cbn [orb]. destruct (Z.ltb_spec off (a_end a)) as [|Hend]; [done|]. cbn [orb].
  rewrite checked_add_Some by lia. destruct (Z.leb_spec (2 ^ 64) (off + r_len rec)) as [|Hfit]; [done|]. cbn [orb].
  pose proof Hsa as (_ & _ & _ & _ & _ & l & c & Hr & Hc).
  rewrite (overlaps_ok _ _ _ _ off (r_len rec) Hr) by (rewrite ?Hc; (apply Hsi || lia)). rewrite Hc.
  destruct (existsb _ (a_recs a)) eqn:Hno; [done|]. cbn [orb].
  pose proof (insert_refines s a off rec Hsa Hsi Hse Hkv Hck Hoff Hlen Hno) as Hins.
  destruct (insert (records s) off rec) as [[[i r']|e]|]; [|by rewrite Hins|done].
  destruct Hins as (Hacc & Hok & l' & c' & Hr' & Hc'). rewrite Hacc. cbn [negb try_bind snd ok agrees].
  unfold accepts in Hacc. apply andb_true_iff in Hacc as [_ Hkb%Z.leb_le].
  eexists. split; [done|]. destruct Ha as [Hn Hrel]. split.
  - split; cbn; [by rewrite Hn|]. apply BTree.related_put; [done|]. unfold seg_abs. cbn. rewrite Hby, Hmd.
    splits; try done. by exists l', c'.
  - apply inv_put; [done| |lia|pose proof (mi_next A Hi); lia].
    rewrite <-Hsl. apply seg_inv_insert; try done. apply wrap_range. lia.
Qed.

(** Looking a segment up and writing it back. *)
Lemma agrees_segment m A id msg (f : SegmentMeta -> Panic Model) (g : ASeg -> option AModel) :
  model_inv A -> model_abs m A ->
  (forall s a, seg_abs s a -> seg_inv a -> BTree.get id (a_segments A) = Some a -> agrees (f s) (g a)) ->
  agrees (try_bind (get_mut m id msg) f) (a ← BTree.get id (a_segments A); g a).
Proof.
  intros Hi Ha Hf. unfold get_mut. pose proof (abs_get m A id Ha) as Hg.
  destruct (BTree.get id (segments m)) as [s|]; destruct (BTree.get id (a_segments A)) as [a|] eqn:E; cbn; try done.
  apply Hf; [done|exact (proj1 (inv_get _ _ _ Hi E))|done].
Qed.

Lemma agrees_put m A id s a b : model_inv A -> model_abs m A -> BTree.get id (a_segments A) = Some b ->
  seg_abs s a -> seg_inv a -> agrees (ok (put m id s)) (Some (a_put A id a)).
Proof.
  intros Hi [Hn Hr] Hg Hs Hsi. eexists. split; [done|]. split; [split; [done|by apply BTree.related_put]|].
  destruct (inv_get _ _ _ Hi Hg) as [_ Hid]. apply inv_put; [done..|]. pose proof (mi_next A Hi). lia.
Qed.

Lemma seal_refines s a : seg_abs s a -> exists s', seal_segment s = ok s' /\ seg_abs s' (a_seal a).
Proof.
  intros (H1 & H2 & H3 & H4 & H5 & l & c & Hr & Hc). destruct (seal_row_ok _ _ _ _ Hr) as (r' & E & Hr').
  unfold seal_segment. rewrite E. cbn [mbind option_bind]. eexists. split; [done|]. unfold seg_abs. cbn. splits; try done. by exists l, c.
Qed.

Lemma delete_refines m A id off : model_inv A -> model_abs m A -> agrees (apply m (Delete id off)) (a_apply A (Delete id off)).
Proof.
  intros Hi Ha. cbn [apply a_apply]. apply agrees_segment; [done..|]. intros s a Hs Hsi Hg.
  pose proof Hs as (H1 & H2 & H3 & H4 & H5 & l & c & Hr & Hc). pose proof (remove_row_ok _ _ _ _ off Hr) as Hrm.
  destruct (remove (records s) off) as [[r'|]|]; [|..|done]; cbn [mbind option_bind].
  - destruct Hrm as (l' & c' & Hr' & Hc' & rec & Hin). rewrite (proj2 (existsb_exists _ _)).
    2:{ exists (off, rec). rewrite <-Hc. split; [by apply list_elem_of_In|]. apply Z.eqb_refl. }
    eapply agrees_put; [done..| |].
    + unfold seg_abs. cbn. rewrite H1, H2, H3, H4, H5. splits; try done. exists l', c'. by rewrite Hc', Hc.
    + apply seg_inv_filter; [done|]. apply wrap_range. lia.
  - cbn. destruct (existsb _ _) eqn:E; [|done]. apply existsb_exists in E as (e & He & Heq%Z.eqb_eq).
    rewrite Hc in Hrm. by destruct (proj1 (Forall_forall _ _) Hrm e (proj2 (list_elem_of_In _ _) He)).
Qed.

Lemma seal_event_refines m A id : model_inv A -> model_abs m A -> agrees (apply m (Seal id)) (a_apply A (Seal id)).
Proof.
  intros Hi Ha. cbn [apply a_apply]. apply agrees_segment; [done..|]. intros s a Hs Hsi Hg.
  destruct (seal_refines s a Hs) as (s' & -> & Hs'). cbn [try_bind ok]. eapply agrees_put; [done..|]. by apply seg_inv_seal.
Qed.

Lemma flush_refines m A id d : model_inv A -> model_abs m A -> agrees (apply m (Flush id d)) (a_apply A (Flush id d)).
Proof.
  intros Hi Ha. cbn [apply a_apply]. apply agrees_segment; [done..|]. intros s a Hs Hsi Hg.
  pose proof Hs as (H1 & -> & -> & H4 & -> & l & c & Hr & Hc). rewrite (crosses_ok _ _ _ _ d Hr), Hc by (rewrite Hc; apply Hsi).
  destruct (a_sealed a) eqn:E1; [done|]. destruct (Z.eqb_spec d 0) as [|E2]; [done|]. destruct (Z.ltb_spec d (a_end a)) as [|E3]; [done|].
  destruct (Z.ltb_spec (a_bytes a) d) as [|E4]; [done|]. cbn [orb]. destruct (existsb _ _) eqn:E5; [done|].
  eapply agrees_put; [done..| |].
  - unfold seg_abs. cbn. splits; try done. by exists l, c.
  - rewrite <-E1. by apply seg_inv_flush.
Qed.

Lemma recover_refines m A id : model_inv A -> model_abs m A -> agrees (apply m (Recover id)) (a_apply A (Recover id)).
Proof.
  intros Hi Ha. cbn [apply a_apply]. apply agrees_segment; [done..|]. intros s a Hs Hsi Hg.
  pose proof Hs as (H1 & H2 & H3 & H4 & H5 & l & c & Hr & Hc). rewrite H3, H5.
  destruct (a_sealed a) eqn:E1; [done|]. destruct (Z.eqb_spec (a_end a) 0) as [|E2]; [done|]. cbn [orb].
  unfold recovered_metadata. rewrite H5, H3, (before_ok _ _ _ _ (a_end a) Hr). cbn [mbind option_bind].
  destruct (contents_take (a_end a) c (rp_sorted _ _ _ _ Hr)) as [-> _]. rewrite Hc.
  destruct (retain_before_ok _ _ _ _ (a_end a) Hr) as (r1 & l1 & c1 & -> & Hr1 & Hc1). cbn [mbind option_bind].
  destruct (seal_row_ok _ _ _ _ Hr1) as (r2 & -> & Hr2). cbn [mbind option_bind]. eapply agrees_put; [done..| |].
  - unfold seg_abs. cbn. splits; try done. exists l1, c1. by rewrite Hc1, Hc.
  - apply seg_inv_recover; [done|]. apply wrap_range. lia.
Qed.

Lemma replace_refines m A old new : model_inv A -> model_abs m A -> agrees (apply m (Replace old new)) (a_apply A (Replace old new)).
Proof.
  intros Hi Ha. cbn [apply a_apply].
  assert (forall m A, model_inv A -> model_abs m A ->
    agrees (ok (mkModel (BTree.del old (segments m)) (next m))) (Some (mkAModel (BTree.del old (a_segments A)) (a_next A)))) as Hdel.
  { intros m1 A1 Hi1 [Hn Hr]. eexists. split; [done|]. split; [split; [done|by apply BTree.related_del]|by apply inv_del]. }
  destruct new as [new|]; [|by apply Hdel]. destruct (old =? new); [done|].
  unfold get_mut. pose proof (abs_get m A new Ha) as Hg.
  destruct (BTree.get new (segments m)) as [s|]; destruct (BTree.get new (a_segments A)) as [a|] eqn:E; cbn [try_bind ok fail mbind option_bind]; try done.
  destruct (seal_refines s a Hg) as (s' & -> & Hs'). cbn [try_bind ok]. destruct (inv_get _ _ _ Hi E) as [Hsi _].
  destruct (agrees_put m A new s' (a_seal a) a Hi Ha E Hs' (seg_inv_seal _ Hsi)) as (A' & [= <-] & Ha' & Hi'). by apply Hdel.
Qed.

Lemma apply_refines m A e : model_inv A -> model_abs m A -> event_valid e -> agrees (apply m e) (a_apply A e).
Proof.
  intros Hi Ha Hv. destruct e as [slot_ id off rec|id off|id|id d|id|n|old new].
  - by apply apply_insert_refines.
  - by apply delete_refines.
  - by apply seal_event_refines.
  - by apply flush_refines.
  - by apply recover_refines.
  - cbn in *. destruct (Z.eqb_spec n 0); [done|]. destruct Ha as [Hn Hr]. eexists. split; [done|]. split; [split; cbn; [by rewrite Hn|done]|].
    destruct Hi as [I1 I2 I3 I4]. split; cbn; try done; [unfold is_u in Hv; lia|]. eapply Forall_impl; [exact I3|]. cbn. lia.
  - by apply replace_refines.
Qed.

End Refine.

End SmallRefine.
