(* ===== verification/SmallJournal.v ===== *)
(** The small-object store on its journal: events and snapshots are lossless, the metadata model
    meets what the journal requires of a machine, and a crash at any moment loses no durable event. *)

From S2P Require Import Prelude External Bytes BTree Key SmallKey SmallKeys SmallTable SmallSeal SmallRecords SmallExtents SmallModel SmallRefine.
From S2P Require Import JournalFrame JournalReplay JournalCurrent JournalFs JournalDisk JournalLog JournalInv JournalCrash.

Module SmallJournal.
Import Bytes SmallKey SmallRecords SmallExtents SmallModel SmallRefine.

(** ** Events *)

(** The events that survive their encoding. *)
Definition codable (e : Event) : Prop :=
  match e with
  | Insert _ _ _ rec => validate_key (r_key rec) = Ok tt /\ r_len rec <= Z.shiftl 128 20 /\ valid_extent (r_key rec) (r_len rec) = true
  | Replace _ new => new <> Some 0
  | _ => True
  end.

Definition insert_bytes (slot_ id off : Z) (rec : SmallRecord) : list byte :=
  byte_of 0 :: (le_bytes 8 slot_ ++ le_bytes 8 id ++ le_bytes 8 off ++ le_bytes 8 (r_len rec) ++
    le_bytes 8 (r_checksum rec) ++ key_bytes (r_key rec)).

Lemma encode_insert slot_ id off rec : validate_key (r_key rec) = Ok tt ->
  encode_event (Insert slot_ id off rec) = Ok (insert_bytes slot_ id off rec).
Proof. intros Hv. cbn [encode_event]. rewrite encode_key_spec, Hv. cbn [fmap result_fmap]. unfold insert_bytes. cbn [app]. by rewrite <-!app_assoc. Qed.

Lemma u64_app z b : is_u64 z -> u64 (le_bytes 8 z ++ b) = Ok (z, b).
Proof. intros Hz. unfold u64. apply read_le_app. unfold is_u in Hz. lia. Qed.

Lemma u64_nil z : is_u64 z -> u64 (le_bytes 8 z) = Ok (z, []).
Proof. intros Hz. rewrite <-(app_nil_r (le_bytes 8 z)). by apply u64_app. Qed.

Lemma u64_inv b z rest : u64 b = Ok (z, rest) -> b = le_bytes 8 z ++ rest /\ is_u64 z.
Proof. unfold u64. intros [-> Hz]%read_le_inv. split; [done|]. unfold is_u. lia. Qed.

Ltac read_all :=
  repeat (first [rewrite u64_app by (unfold is_u in *; lia || done) | rewrite u64_nil by (unfold is_u in *; lia || done)];
    cbn [mbind result_bind]).

Lemma decode_insert slot_ id off rec : event_valid (Insert slot_ id off rec) -> codable (Insert slot_ id off rec) ->
  decode_event (insert_bytes slot_ id off rec) = Ok (Insert slot_ id off rec).
Proof.
  intros (Hs & Hi & Ho & Hl & Hc & Hk) (Hv & Hlen & Hext). unfold decode_event, insert_bytes. cbn [take_byte mbind result_bind].
  change (byte_val (byte_of 0)) with 0. cbn [Z.eqb].
  read_all. rewrite view_key_bytes by by split. cbn [mbind result_bind].
  rewrite (proj2 (Z.ltb_ge _ _)), Hext by done. cbn. by destruct rec.
Qed.


Lemma decode_encode_event e b : event_valid e -> codable e -> encode_event e = Ok b -> decode_event b = Ok e.
Proof.
  intros Hv Hc He. destruct e as [slot_ id off rec|id off|id|id d|id|n|old new].
  - rewrite encode_insert in He by apply Hc. apply Ok_same in He as <-. by apply decode_insert.
  - destruct Hv as [H1 H2]. apply Ok_same in He as <-. unfold decode_event. cbn [take_byte mbind result_bind].
    change (byte_val (byte_of 1)) with 1. cbn [Z.eqb Pos.eqb]. by read_all.
  - apply Ok_same in He as <-. cbn in Hv. unfold decode_event. cbn [take_byte mbind result_bind].
    change (byte_val (byte_of 2)) with 2. cbn [Z.eqb Pos.eqb]. by read_all.
  - destruct Hv as [H1 H2]. apply Ok_same in He as <-. unfold decode_event. cbn [take_byte mbind result_bind].
    change (byte_val (byte_of 6)) with 6. cbn [Z.eqb Pos.eqb]. by read_all.
  - apply Ok_same in He as <-. cbn in Hv. unfold decode_event. cbn [take_byte mbind result_bind].
    change (byte_val (byte_of 7)) with 7. cbn [Z.eqb Pos.eqb]. by read_all.
  - apply Ok_same in He as <-. cbn in Hv. unfold decode_event. cbn [take_byte mbind result_bind].
    change (byte_val (byte_of 5)) with 5. cbn [Z.eqb Pos.eqb]. by read_all.
  - destruct Hv as [H1 H2]. apply Ok_same in He as <-. unfold decode_event. cbn [take_byte mbind result_bind].
    change (byte_val (byte_of 3)) with 3. cbn [Z.eqb Pos.eqb]. read_all. destruct new as [new|]; [|done]. cbn [default id] in *.
    destruct (Z.eqb_spec new 0) as [->|]; [by destruct Hc|done].
Qed.

Lemma take_byte_inv b x rest : take_byte b = Ok (x, rest) -> b = x :: rest.
Proof. destruct b; [done|]. by intros [= -> ->]. Qed.

Lemma byte_of_eq x z : byte_val x = z -> x = byte_of z.
Proof. intros <-. by rewrite byte_of_val. Qed.

(** A decoded event has the encoding it was read from. *)
Definition decoded (b : list byte) (e : Event) : Prop := event_valid e /\ codable e /\ encode_event e = Ok b.

Ltac read_inv E :=
  repeat match type of E with
  | mbind _ (u64 ?x) = Ok _ =>
    let z := fresh "z" in let r := fresh "r" in let Hz := fresh "Hz" in
    apply bind_ok_inv in E as ([z r] & (-> & Hz)%u64_inv & E)
  end.

Lemma decode_event_inv b e : decode_event b = Ok e -> decoded b e.
Proof.
  unfold decode_event. intros E. apply bind_ok_inv in E as ([k r] & ->%take_byte_inv & E).
  apply bind_ok_inv in E as ([e' r'] & E & Hend). destruct r' as [|]; [|done]. cbn [length Nat.eqb negb] in Hend. apply Ok_same in Hend as <-.
  unfold decoded.
  destruct (Z.eqb_spec (byte_val k) 5) as [->%byte_of_eq|_]; [read_inv E; apply Ok_same in E as [= <- ->]; rewrite app_nil_r; done|].
  destruct (Z.eqb_spec (byte_val k) 0) as [->%byte_of_eq|_].
  { read_inv E. apply bind_ok_inv in E as (key & (Hk & ->)%view_inv & E).
    destruct ((Z.shiftl 128 20 <? _) || _) eqn:Eb; [done|]. apply Ok_same in E as [= <-].
    apply orb_false_iff in Eb as [Hl%Z.ltb_ge Hx%negb_false_iff]. destruct Hk as [Hkv Hkk]. splits; try done.
    rewrite encode_insert by done. unfold insert_bytes. cbn [r_len r_checksum r_key]. by rewrite <-?app_assoc. }
  destruct (Z.eqb_spec (byte_val k) 1) as [->%byte_of_eq|_]; [read_inv E; apply Ok_same in E as [= <- ->]; rewrite app_nil_r; done|].
  destruct (Z.eqb_spec (byte_val k) 2) as [->%byte_of_eq|_]; [read_inv E; apply Ok_same in E as [= <- ->]; rewrite app_nil_r; done|].
  destruct (Z.eqb_spec (byte_val k) 6) as [->%byte_of_eq|_]; [read_inv E; apply Ok_same in E as [= <- ->]; rewrite app_nil_r; done|].
  destruct (Z.eqb_spec (byte_val k) 7) as [->%byte_of_eq|_]; [read_inv E; apply Ok_same in E as [= <- ->]; rewrite app_nil_r; done|].
  destruct (Z.eqb_spec (byte_val k) 3) as [->%byte_of_eq|_]; [|done].
  read_inv E. apply Ok_same in E as [= <- ->]. rewrite app_nil_r. destruct (Z.eqb_spec z0 0) as [->|Hnz]; [done|].
  splits; try done. cbn. congruence.
Qed.

(** The length that the journal reserves. *)
Lemma encoded_len_ok e b : encode_event e = Ok b -> Z.of_nat (length b) = encoded_len e.
Proof.
  intros He. destruct e as [slot_ id off rec|id off|id|id d|id|n|old new].
  1:{ destruct (validate_key (r_key rec)) as [[]|] eqn:Hv; [|cbn [encode_event] in He; by rewrite encode_key_spec, Hv in He].
      rewrite encode_insert in He by done. apply Ok_same in He as <-. unfold insert_bytes, encoded_len.
      rewrite <-length_key_bytes. unfold slen. cbn [length]. rewrite !length_app, !length_le_bytes. lia. }
  all: apply Ok_same in He as <-; cbn [encoded_len length]; rewrite ?length_app, !length_le_bytes; done.
Qed.

(** ** Snapshots *)

Definition a_header (id : Z) (a : ASeg) : list byte :=
  byte_of 8 :: (le_bytes 8 id ++ le_bytes 8 (a_slot a) ++ le_bytes 8 (a_bytes a) ++ le_bytes 8 (a_metadata a) ++
  [byte_of (if a_sealed a then 1 else 0)] ++ le_bytes 8 (a_end a)).

Definition a_rows (id : Z) (a : ASeg) (d : list (Z * SmallRecord)) : list (list byte) :=
  (fun e => insert_bytes (a_slot a) id e.1 e.2) <$> d.

Fixpoint a_snapshot_segments (l : list (Z * ASeg)) : list (list byte) :=
  match l with
  | [] => []
  | (id, a) :: l => a_header id a :: (a_rows id a (a_recs a) ++ a_snapshot_segments l)
  end.

Definition a_snapshot (A : AModel) : list (list byte) := (byte_of 5 :: le_bytes 8 (a_next A)) :: a_snapshot_segments (a_segments A).

(** The store as the state machine of its journal. *)
#[export] Instance small_machine `{KeyHash} : JournalDisk.Machine := {|
  JournalDisk.MRecord := Event;
  JournalDisk.MSnapshotRecord := SnapshotRecord;
  JournalDisk.MState := Model;
  JournalDisk.m_valid := event_valid;
  JournalDisk.m_encode := encode_event;
  JournalDisk.m_decode := decode_event;
  JournalDisk.m_apply := fun m _ e => unpanic (apply m e);
  JournalDisk.m_snapshot := fun m => unpanic (Ok <$> snapshot m);
  JournalDisk.m_decode_snapshot := decode_snapshot;
  JournalDisk.m_restore := fun m r => unpanic (restore m r)
|}.

Section Snapshot.
Context `{KeyHash}.

Lemma snapshot_rows_ok id s a l c n :
  slot s = a_slot a -> repr (negb (a_sealed a)) (records s) l c -> (n <= length c)%nat ->
  snapshot_rows id s (length c - n) n = Some (Ok <$> a_rows id a (contents (drop (length c - n) c))).
Proof.
  intros Hs Hr. induction n as [|n IH]; intros Hn; [by rewrite drop_ge by lia|].
  destruct (lookup_lt_is_Some_2 c (length c - S n)) as [t Ht]; [lia|].
  cbn [snapshot_rows]. rewrite (get_ok _ _ _ _ _ _ Hr Ht), (drop_S _ _ _ Ht), contents_cons. cbn [mbind option_bind].
  replace (S (length c - S n)) with (length c - n)%nat by lia. rewrite IH by lia. cbn [mbind option_bind].
  pose proof (contents_ok _ _ _ (rp_slots _ _ _ _ Hr)) as Hok.
  destruct t as [off [rec|]]; cbn [content fmap option_fmap option_map fst snd]; [|done].
  rewrite encode_insert, Hs; [done|].
  assert ((off, rec) ∈ contents c) as Hin.
  { rewrite <-(take_drop (length c - S n) c), contents_app, (drop_S _ _ _ Ht), contents_cons. apply elem_of_app. right. by left. }
  by destruct (proj1 (Forall_forall _ _) Hok _ Hin) as ([_ ?] & _).
Qed.

Lemma snapshot_ok m A : model_abs m A -> snapshot m = Some (Ok <$> a_snapshot A).
Proof.
  intros [Hn Hr]. unfold snapshot. rewrite Hn.
  assert (snapshot_segments (segments m) = Some (Ok <$> a_snapshot_segments (a_segments A))) as ->; [|done].
  induction Hr as [|[id s] [id' a] ms As [Hid Hs] _ IH]; [done|]. cbn in Hid. subst id'. cbn [snapshot_segments a_snapshot_segments].
  destruct Hs as (H1 & H2 & H3 & H4 & H5 & l & c & Hr & Hc).
  destruct (slots_length _ _ _ (rp_slots _ _ _ _ Hr)) as [Hlen _]. cbn [snd] in *. rewrite Hlen.
  pose proof (snapshot_rows_ok id s a l c (length c) H1 Hr (le_n _)) as E. rewrite Nat.sub_diag, drop_0 in E.
  rewrite E, IH. cbn [mbind option_bind]. rewrite fmap_cons, fmap_app, Hc. unfold header, a_header. by rewrite H1, H2, H3, H4, H5.
Qed.

(** ** Restoring *)

Lemma decode_header_ok id a : is_u64 id -> seg_inv a ->
  decode_snapshot (a_header id a) = Ok (SSegment id (mkSegment (a_slot a) (a_bytes a) (a_end a) (a_metadata a) (a_sealed a) Records_default)).
Proof.
  intros Hid [H1 H2 H3 H4 H5 _ _ _]. unfold decode_snapshot, a_header. cbn [take_byte mbind result_bind].
  change (byte_val (byte_of 8)) with 8. cbn [Z.eqb Pos.eqb orb]. unfold decode_header. read_all. cbn [app take_byte mbind result_bind].
  destruct (a_sealed a) eqn:Es.
  - change (byte_val (byte_of 1) =? 0) with false. change (byte_val (byte_of 1) =? 1) with true. cbn [mbind result_bind Z.eqb Pos.eqb].
    read_all. rewrite H5, Z.ltb_irrefl, Z.eqb_refl by done. done.
  - change (byte_val (byte_of 0) =? 0) with true. cbn [mbind result_bind Z.eqb Pos.eqb].
    read_all. rewrite (proj2 (Z.ltb_ge _ _)) by lia. done.
Qed.

Lemma decode_row_ok slot_ id off rec : is_u64 slot_ -> is_u64 id -> rec_ok off rec ->
  decode_snapshot (insert_bytes slot_ id off rec) = Ok (SInsert (Insert slot_ id off rec)).
Proof.
  intros Hs Hi Hr. pose proof (rec_ok_bounds _ _ Hr) as (Ho & Hl & He & _ & Hext). destruct Hr as ([Hkv Hkk] & Hck & _ & _).
  unfold decode_snapshot. change (take_byte (insert_bytes slot_ id off rec)) with
    (Ok (E := io_error) (byte_of 0, drop 1 (insert_bytes slot_ id off rec))). cbn [mbind result_bind].
  change (byte_val (byte_of 0)) with 0. cbn [Z.eqb orb].
  rewrite decode_insert; [done| |].
  - cbn. unfold is_u in *. splits; try done; lia.
  - cbn. splits; [done|change (Z.shiftl 128 20) with (2 ^ 27); lia|done].
Qed.

(** A segment that is being restored: its header, and the records so far. *)
Definition partial (s : SegmentMeta) (a : ASeg) (d : list (Z * SmallRecord)) : Prop :=
  slot s = a_slot a /\ bytes s = a_bytes a /\ durable_end s = a_end a /\ s_metadata s = a_metadata a /\ sealed s = a_sealed a /\
  exists l c, repr true (records s) l c /\ contents c = d.

Lemma with_record_last off rec d : Forall (fun e => e.1 < off) d -> with_record off rec d = d ++ [(off, rec)].
Proof.
  intros Hd. unfold with_record. rewrite (filter_keeps _ _ Hd), filter_none; [done|].
  intros e He. pose proof (proj1 (Forall_forall _ _) Hd e He) as Hlt. cbn in *. lia.
Qed.

Lemma key_bytes_app d d' : key_bytes_total (d ++ d') = key_bytes_total d + key_bytes_total d'.
Proof. unfold key_bytes_total. rewrite sum_list_with_app. lia. Qed.

Lemma insert_next s a d off rec d2 : partial s a d -> seg_inv a -> a_recs a = d ++ (off, rec) :: d2 ->
  overlaps (records s) off (r_len rec) = false /\
  exists i r', insert (records s) off rec = Some (Ok (i, r')) /\ exists l c, repr true r' l c /\ contents c = d ++ [(off, rec)].
Proof.
  intros (_ & _ & _ & _ & _ & l & c & Hr & Hc) Hi Hd. pose proof (recs_pos a Hi) as Hp. pose proof (si_recs a Hi) as Hrec.
  pose proof (si_disjoint a Hi) as Hdis. pose proof (si_keys a Hi) as Hk. rewrite Hd in *.
  apply StronglySorted_app_inv in Hdis as (Hd1 & _ & Hlt). apply Forall_app in Hp as [Hp Hp2]. apply Forall_cons in Hp2 as [Hpr _].
  apply Forall_app in Hrec as [_ Hrec]. apply Forall_cons in Hrec as [(Hok & _) _]. cbn [fst snd] in *.
  assert (Forall (fun e => end_of e <= off) d) as Hbefore.
  { apply Forall_forall. intros e He. exact (Hlt e (off, rec) He ltac:(by left)). }
  assert (Forall (fun e => e.1 < off) d) as Hlt'.
  { apply Forall_forall. intros e He. pose proof (proj1 (Forall_forall _ _) Hbefore e He) as H1.
    pose proof (proj1 (Forall_forall _ _) Hp e He) as H2. unfold end_of in H1. cbn in *. lia. }
  split.
  { rewrite (overlaps_ok _ _ _ _ off (r_len rec) Hr) by (rewrite ?Hc; (done || lia)). rewrite Hc. apply not_true_is_false.
    intros (e & He & Hint)%existsb_exists. pose proof (proj1 (Forall_forall _ _) Hbefore e (proj2 (list_elem_of_In _ _) He)) as Hle.
    unfold intersects in Hint. apply andb_true_iff in Hint as [_ Hgt%Z.ltb_lt]. cbn in Hle. lia. }
  pose proof Hok as ([Hkv Hkk] & Hck & Ho & Hvr).
  pose proof (insert_row_ok true (records s) l c off rec Hr) as Hins. rewrite Hc in Hins.
  rewrite key_bytes_app in Hk. assert (0 <= key_bytes_total d2) as Hk2 by (unfold key_bytes_total; lia).
  assert (key_bytes_total ((off, rec) :: d2) = SmallKeys.blen (encode (r_key rec)) + key_bytes_total d2) as Hk1
    by (unfold key_bytes_total, SmallKeys.blen; cbn [sum_list_with snd]; lia).
  pose proof (plain_live _ _ _ Hr) as Hlive. rewrite Hc in Hlive.
  assert (Forall (fun e => e.1 <> off) d) as Hne by (eapply Forall_impl; [exact Hlt'|]; cbn; lia).
  specialize (Hins Hne Hkv Hck Ho). destruct (insert (records s) off rec) as [[[i r']|e]|]; [|exfalso|done].
  - destruct Hins as (_ & l' & c' & Hr' & Hc' & _). eexists _, _. split; [done|]. exists l', c'. by rewrite Hc', with_record_last.
  - destruct Hins as [Hv|[Hv|Hover]]; [congruence|congruence|lia].
Qed.

Lemma restore_row pre id s a d off rec d2 nx :
  partial s a d -> seg_inv a -> a_recs a = d ++ (off, rec) :: d2 -> Forall (fun e => e.1 < id) pre ->
  exists s', partial s' a (d ++ [(off, rec)]) /\
    restore (mkModel (pre ++ [(id, s)]) nx) (SInsert (Insert (a_slot a) id off rec)) = ok (mkModel (pre ++ [(id, s')]) nx).
Proof.
  intros Hp Hi Hd Hpre. destruct (insert_next s a d off rec d2 Hp Hi Hd) as (Hov & i & r' & Hins & l & c & Hr & Hc).
  destruct Hp as (H1 & H2 & H3 & H4 & H5 & _). cbn [restore]. unfold get_mut. cbn [segments]. rewrite BTree.get_app by done.
  cbn [try_bind ok]. rewrite H1, Z.eqb_refl, Hov, Hins, H2, H3. cbn [negb orb].
  pose proof (si_recs a Hi) as Hrec. rewrite Hd in Hrec. apply Forall_app in Hrec as [_ Hrec].
  apply Forall_cons in Hrec as [(Hok & Hby & Hside) _]. unfold end_of in *. cbn [fst snd] in *.
  pose proof (rec_ok_bounds _ _ Hok) as (Ho & Hl & He & _). pose proof (si_bytes a Hi) as Hb. unfold is_u in Hb.
  rewrite checked_add_Some by lia. rewrite (proj2 (Z.leb_gt _ _)) by lia. rewrite (proj2 (Z.ltb_ge _ _)) by lia. cbn [orb].
  assert ((off <? a_end a) && (a_end a <? off + r_len rec) = false) as ->.
  { apply andb_false_iff. rewrite !Z.ltb_ge. lia. }
  cbn [orb try_bind ok snd]. eexists. unfold put. cbn [segments next]. rewrite BTree.put_app by done. split; [|done].
  unfold partial. cbn. splits; try done. by exists l, c.
Qed.

Lemma restore_rows pre id s a d d2 nx rest :
  partial s a d -> seg_inv a -> a_recs a = d ++ d2 -> Forall (fun e => e.1 < id) pre -> is_u64 id ->
  exists s', partial s' a (a_recs a) /\
    JournalLog.restore_all (mkModel (pre ++ [(id, s)]) nx : JournalDisk.MState) (a_rows id a d2 ++ rest) =
    JournalLog.restore_all (mkModel (pre ++ [(id, s')]) nx : JournalDisk.MState) rest.
Proof.
  revert s d. induction d2 as [|[off rec] d2 IH]; intros s d Hp Hi Hd Hpre Hid.
  { exists s. rewrite app_nil_r in Hd. rewrite Hd. done. }
  destruct (restore_row pre id s a d off rec d2 nx Hp Hi Hd Hpre) as (s1 & Hp1 & E).
  destruct (IH s1 (d ++ [(off, rec)])) as (s' & Hp' & E'); [done|done|by rewrite Hd, <-app_assoc|done|done|].
  exists s'. split; [done|]. rewrite <-E'. unfold a_rows. rewrite fmap_cons. cbn [app JournalLog.restore_all fst snd].
  cbn [JournalDisk.m_decode_snapshot JournalDisk.m_restore small_machine].
  pose proof (si_recs a Hi) as Hrec. rewrite Hd in Hrec. apply Forall_app in Hrec as [_ Hrec]. apply Forall_cons in Hrec as [(Hok & _) _].
  rewrite decode_row_ok by (done || apply Hi). cbn [mbind result_bind]. rewrite E. done.
Qed.

Lemma partial_abs s a : partial s a (a_recs a) -> seg_abs s a.
Proof.
  intros (H1 & H2 & H3 & H4 & H5 & l & c & [R1 R2 R3 R4 R5 R6] & Hc). unfold seg_abs. splits; try done. exists l, c. split; [|done].
  split; try done. intros _. by apply R6.
Qed.

Lemma seal_previous_ok ms As nx : BTree.related seg_abs ms As -> BTree.sorted As ->
  exists ms', seal_previous (mkModel ms nx) = Some (mkModel ms' nx) /\ BTree.related seg_abs ms' As.
Proof.
  intros Hr Hs. unfold seal_previous, BTree.last_entry. cbn [segments]. destruct ms as [|x ms _] using rev_ind.
  { exists []. done. }
  rewrite last_snoc. destruct x as [id s]. apply Forall2_app_inv_l in Hr as (As1 & As2 & Hr1 & Hr2 & ->).
  apply Forall2_cons_inv_l in Hr2 as ([id' a] & As3 & [Hid Hsa] & Hr3%Forall2_nil_inv_l & ->). cbn [fst snd] in Hid, Hsa. subst.
  assert (Forall (fun e => e.1 < id') ms) as Hpre.
  { apply StronglySorted_app_inv in Hs as (_ & _ & Hlt). clear -Hlt Hr1. induction Hr1 as [|[k v] [k' w] ms As [Hk _] _ IH]; constructor.
    - cbn in *. subst. exact (Hlt (k', w) (id', a) ltac:(by left) ltac:(by left)).
    - apply IH. intros x y Hx. apply Hlt. by right. }
  destruct (sealed s) eqn:Es.
  - pose proof Hsa as (H1 & H2 & H3 & H4 & H5 & l & c & Hrep & Hc). destruct (seal_row_ok _ _ _ _ Hrep) as (r' & -> & Hr').
    cbn [mbind option_bind]. unfold put. cbn [segments next]. rewrite BTree.put_app by done. eexists. split; [done|].
    apply Forall2_app; [done|]. rewrite Es in H5. constructor; [|constructor]. split; [done|]. cbn [snd]. unfold seg_abs. cbn. splits; try (done || congruence).
    exists l, c. by rewrite <-H5.
  - eexists. split; [done|]. apply Forall2_app; [done|]. constructor; [done|constructor].
Qed.

Lemma restore_segment ms As id a nx rest :
  BTree.related seg_abs ms As -> BTree.sorted (As ++ [(id, a)]) -> seg_inv a -> 0 < id < nx -> nx < 2 ^ 64 ->
  exists ms', BTree.related seg_abs ms' (As ++ [(id, a)]) /\
    JournalLog.restore_all (mkModel ms nx : JournalDisk.MState) (a_header id a :: (a_rows id a (a_recs a) ++ rest)) =
    JournalLog.restore_all (mkModel ms' nx : JournalDisk.MState) rest.
Proof.
  intros Hr Hs Hi Hid Hnx. assert (is_u64 id) as Hu by (unfold is_u; lia).
  apply StronglySorted_app_inv in Hs as (Hs1 & _ & Hlt).
  destruct (seal_previous_ok ms As nx Hr Hs1) as (ms1 & E & Hr1).
  assert (Forall (fun e => e.1 < id) ms1) as Hpre.
  { clear -Hlt Hr1. induction Hr1 as [|[k v] [k' w] ms As [Hk _] _ IH]; constructor.
    - cbn in *. subst. exact (Hlt (k', w) (id, a) ltac:(by left) ltac:(by left)).
    - apply IH. intros x y Hx. apply Hlt. by right. }
  set (s0 := mkSegment (a_slot a) (a_bytes a) (a_end a) (a_metadata a) (a_sealed a) Records_default).
  assert (partial s0 a []) as Hp0.
  { unfold partial. cbn. splits; try done. exists [], []. split; [apply repr_default|done]. }
  destruct (restore_rows ms1 id s0 a [] (a_recs a) nx rest Hp0 Hi eq_refl Hpre Hu) as (s' & Hp' & E').
  exists (ms1 ++ [(id, s')]). split.
  { apply Forall2_app; [done|]. constructor; [|constructor]. split; [done|]. by apply partial_abs. }
  rewrite <-E'. cbn [JournalLog.restore_all]. cbn [JournalDisk.m_decode_snapshot JournalDisk.m_restore small_machine].
  rewrite decode_header_ok by done. cbn [mbind result_bind]. fold s0.
  assert (restore (mkModel ms nx) (SSegment id s0) = ok (mkModel (ms1 ++ [(id, s0)]) nx)) as ->; [|done].
  cbn [restore]. rewrite E. cbn [mbind option_bind next segments]. rewrite (proj2 (Z.eqb_neq _ _)), (proj2 (Z.leb_gt _ _)) by lia.
  rewrite BTree.get_None by (eapply Forall_impl; [exact Hpre|]; cbn; lia).
  rewrite bool_decide_false by by intros [? ?]. cbn [orb]. unfold put. cbn [segments next]. by rewrite BTree.put_last.
Qed.

Lemma restore_segments ms As1 As2 nx :
  BTree.related seg_abs ms As1 -> BTree.sorted (As1 ++ As2) -> Forall (fun e => seg_inv e.2) As2 ->
  Forall (fun e => 0 < e.1 < nx) As2 -> nx < 2 ^ 64 ->
  exists ms', BTree.related seg_abs ms' (As1 ++ As2) /\
    JournalLog.restore_all (mkModel ms nx : JournalDisk.MState) (a_snapshot_segments As2) = Ok (mkModel ms' nx).
Proof.
  revert ms As1. induction As2 as [|[id a] As2 IH]; intros ms As1 Hr Hs Hi Hid Hnx; [exists ms; by rewrite app_nil_r|].
  apply Forall_cons in Hi as [Hia Hi]. apply Forall_cons in Hid as [Hid1 Hid]. cbn [a_snapshot_segments].
  assert (As1 ++ (id, a) :: As2 = (As1 ++ [(id, a)]) ++ As2) as Hassoc by by rewrite <-app_assoc. rewrite Hassoc in *.
  pose proof (StronglySorted_app_inv _ _ _ Hs) as (Hs1 & _ & _).
  destruct (restore_segment ms As1 id a nx (a_snapshot_segments As2) Hr Hs1 Hia Hid1 Hnx) as (ms1 & Hr1 & ->).
  by apply IH.
Qed.

Lemma snapshot_restores m A : model_inv A -> model_abs m A ->
  exists m', JournalLog.restore_all (Model_start : JournalDisk.MState) (a_snapshot A) = Ok m' /\ model_abs m' A.
Proof.
  intros [I1 I2 I3 I4] Ha. unfold a_snapshot. cbn [JournalLog.restore_all JournalDisk.m_decode_snapshot JournalDisk.m_restore small_machine].
  unfold decode_snapshot at 1. cbn [take_byte mbind result_bind]. change (byte_val (byte_of 5)) with 5. cbn [Z.eqb Pos.eqb].
  rewrite u64_nil by (unfold is_u; lia). cbn [mbind result_bind length Nat.eqb negb orb]. rewrite (proj2 (Z.eqb_neq _ _)) by lia.
  cbn [mbind result_bind restore segments Model_start SmallKeys.is_nil negb unpanic default ok].
  destruct (restore_segments [] [] (a_segments A) (a_next A)) as (ms & Hr & E); [constructor|done|done|done|lia|].
  exists (mkModel ms (a_next A)). split; [exact E|]. by split.
Qed.

End Snapshot.

(** ** The journal's requirements *)

Section Laws.
Context `{KeyHash}.

(** Two models of the same catalogue. *)
#[export] Instance small_sim : JournalLog.Sim := fun m i =>
  exists A, model_inv A /\ model_abs m A /\ model_abs i A.

Lemma applied m A e m' : model_inv A -> model_abs m A -> event_valid e ->
  unpanic (apply m e) = Ok m' -> exists A', a_apply A e = Some A' /\ model_abs m' A' /\ model_inv A'.
Proof.
  intros Hi Ha Hv E. pose proof (apply_refines m A e Hi Ha Hv) as Hr. destruct (apply m e) as [[m1|]|]; [|done|done].
  cbn in E. injection E as <-. exact Hr.
Qed.

Lemma apply_complete m A e A' : model_inv A -> model_abs m A -> event_valid e -> a_apply A e = Some A' ->
  exists m', unpanic (apply m e) = Ok m' /\ model_abs m' A'.
Proof.
  intros Hi Ha Hv E. pose proof (apply_refines m A e Hi Ha Hv) as Hr. destruct (apply m e) as [[m1|]|]; [| |done].
  - destruct Hr as (A1 & E1 & Ha1 & _). rewrite E in E1. injection E1 as <-. by exists m1.
  - cbn in Hr. congruence.
Qed.

Lemma applied_codable A e A' b : model_inv A -> a_apply A e = Some A' -> encode_event e = Ok b -> codable e.
Proof.
  intros Hi E Hb. destruct e as [slot_ id off rec|id off|id|id d|id|n|old new]; try exact I.
  - cbn [a_apply] in E. unfold a_insert in E. destruct (_ || _) eqn:Eb; [done|].
    apply orb_false_iff in Eb as [_ Hacc%negb_false_iff]. unfold accepts in Hacc.
    apply andb_true_iff in Hacc as [Hacc _]. apply andb_true_iff in Hacc as [Hval Hvr]. unfold valid_record in Hvr.
    rewrite !andb_true_iff, !Z.leb_le in Hvr. destruct Hvr as ((((Hx & _) & _) & Hl) & _).
    cbn. splits; [|done|done]. by destruct (validate_key (r_key rec)) as [[]|].
  - destruct new as [new|]; [|done]. cbn [a_apply] in E. intros [= ->].
    destruct (old =? 0); [done|]. destruct (BTree.get 0 (a_segments A)) as [a|] eqn:Eg; [|done].
    destruct (inv_get _ _ _ Hi Eg) as [_ Hid]. lia.
Qed.

Lemma start_abs : model_inv (mkAModel [] 1) /\ model_abs Model_start (mkAModel [] 1).
Proof. split; [split; cbn; [lia|constructor..]|]. split; [done|constructor]. Qed.


#[export] Instance small_laws : JournalLog.MachineLaws (Model_start : JournalDisk.MState).
Proof.
  split.
  - destruct start_abs as [Hi Ha]. by exists (mkAModel [] 1).
  - intros b e Hd. by destruct (decode_event_inv b e Hd).
  - intros m i e b l m' (A & Hi & Ha & _) Hv He Hap. destruct (applied m A e m' Hi Ha Hv Hap) as (A' & HA & _).
    apply decode_encode_event; [done|by eapply applied_codable|done].
  - intros m i e l i' (A & Hi & Ha & Hb) Hv Hap. destruct (applied i A e i' Hi Hb Hv Hap) as (A' & HA & Hb' & Hi').
    destruct (apply_complete m A e A' Hi Ha Hv HA) as (m' & E & Ha'). exists m'. split; [exact E|]. by exists A'.
  - intros m i e l m' (A & Hi & Ha & Hb) Hv Hap. destruct (applied m A e m' Hi Ha Hv Hap) as (A' & HA & Ha' & Hi').
    destruct (apply_complete i A e A' Hi Hb Hv HA) as (i' & E & Hb'). exists i'. split; [exact E|]. by exists A'.
  - intros m i snaps (A & Hi & Ha & Hb) Hsn. cbn [JournalDisk.m_snapshot small_machine] in Hsn. rewrite (snapshot_ok m A Ha) in Hsn.
    apply Ok_same in Hsn. apply (inj (fmap (M := list) Ok)) in Hsn as <-.
    destruct (snapshot_restores m A Hi Ha) as (m' & E & Ha'). exists m'. split; [exact E|]. by exists A.
Qed.

End Laws.

(** ** Theorems *)

(** What the store reads of a model. *)
Fixpoint view_segments (l : list (Z * SegmentMeta)) : option (list (Z * ASeg)) :=
  match l with
  | [] => Some []
  | (id, s) :: l =>
    d ← iter (records s);
    l ← view_segments l;
    Some ((id, mkASeg (slot s) (bytes s) (durable_end s) (s_metadata s) (sealed s) d) :: l)
  end.

Definition model_view (m : Model) : option AModel :=
  l ← view_segments (segments m); Some (mkAModel l (next m)).

Definition A_start : AModel := mkAModel [] 1.

Fixpoint events `{KeyHash} (m : Model) (es : list Event) : Panic Model :=
  match es with
  | [] => ok m
  | e :: es => try_bind (apply m e) (fun m => events m es)
  end.

Fixpoint a_events (A : AModel) (es : list Event) : option AModel :=
  match es with
  | [] => Some A
  | e :: es => A ← a_apply A e; a_events A es
  end.

(** The catalogue after the records of a log. *)
Fixpoint a_run (A : AModel) (h : list (list byte)) : option AModel :=
  match h with
  | [] => Some A
  | b :: h =>
    match decode_event b with
    | Ok e => A ← a_apply A e; a_run A h
    | Err _ => None
    end
  end.

Section Theorems.
Context `{KeyHash}.

Lemma view_ok m A : model_abs m A -> model_view m = Some A.
Proof.
  intros [Hn Hr]. unfold model_view. rewrite Hn.
  assert (view_segments (segments m) = Some (a_segments A)) as ->; [|by destruct A].
  induction Hr as [|[id s] [id' a] ms As [Hid Hs] _ IH]; [done|]. cbn in Hid. subst id'. cbn [view_segments snd] in *.
  destruct Hs as (H1 & H2 & H3 & H4 & H5 & l & c & Hrep & Hc). rewrite (iter_ok _ _ _ _ Hrep), IH. cbn [mbind option_bind].
  rewrite H1, H2, H3, H4, H5, Hc. by destruct a.
Qed.

Lemma run_refines m A a h i : model_inv A -> model_abs m A ->
  JournalLog.run (m : JournalDisk.MState) a h = Ok i -> exists A', a_run A h = Some A' /\ model_abs i A' /\ model_inv A'.
Proof.
  revert m A a. induction h as [|b h IH]; intros m A a Hi Ha E; cbn in E; [injection E as <-; by exists A|].
  cbn [a_run]. destruct (decode_event b) as [e|] eqn:Hd; [|done]. cbn [mbind result_bind] in E.
  destruct (unpanic (apply m e)) as [m1|] eqn:Hap; [|done]. cbn [mbind result_bind] in E.
  destruct (decode_event_inv b e Hd) as (Hv & _). destruct (applied m A e m1 Hi Ha Hv Hap) as (A1 & -> & Ha1 & Hi1).
  cbn [mbind option_bind]. by eapply IH.
Qed.

(** C6: The metadata model refines the catalogue of segments. On any sequence of events it
    succeeds exactly when the catalogue accepts them all, never panics, and then shows the
    catalogue's segments and records; extents stay disjoint and on one side of the durable
    boundary. *)
Theorem model_refines es :
  Forall event_valid es ->
  match events Model_start es with
  | Some (Ok m) => exists A, a_events A_start es = Some A /\ model_view m = Some A /\ model_inv A
  | Some (Err _) => a_events A_start es = None
  | None => False
  end.
Proof.
  intros Hes. destruct start_abs as [Hi Ha]. fold A_start in Hi, Ha. revert Hi Ha. generalize Model_start as m, A_start as A.
  induction Hes as [|e es Hv _ IH]; intros m A Hi Ha; cbn [events a_events].
  { exists A. splits; [done|by apply view_ok|done]. }
  pose proof (apply_refines m A e Hi Ha Hv) as Hr. destruct (apply m e) as [[m1|]|]; [| |done]; cbn [try_bind agrees] in *.
  - destruct Hr as (A1 & -> & Ha1 & Hi1). by apply IH.
  - by rewrite Hr.
Qed.

(** The event codec is canonical: a byte string decodes to an event exactly when it is the
    encoding of that event and the event is one that its encoding preserves. *)
Theorem event_codec_canonical b e :
  decode_event b = Ok e <-> event_valid e /\ codable e /\ encode_event e = Ok b.
Proof.
  split; [apply decode_event_inv|]. intros (Hv & Hc & He). by apply decode_encode_event.
Qed.

End Theorems.

Section Recovery.
Context `{Xxh3} `{KeyHash}.


End Recovery.

(** ** A run *)

Section Demo.

#[local] Instance toy_hash : KeyHash.
Proof. refine {| key_hash := fun _ => 0 |}. intros k. unfold is_u. lia. Defined.

#[local] Existing Instance toy_xxh3.

Definition demo_key : SmallKey :=
  mkSmallKey (Key.mkBlockId (Key.mkObjectId Key.S3 [x62] [x70]) 0 100 [x76]) Whole.

Definition demo_record : SmallRecord := mkRecord demo_key 10 7.

(** A record is made durable, a second one is not, and the segment is recovered. *)
Definition demo_events : list Event :=
  [Insert 0 1 0 demo_record; Flush 1 10; Insert 0 1 10 demo_record; Recover 1; Delete 1 0].

Lemma demo_insert_valid off : is_u64 off -> event_valid (Insert 0 1 off demo_record).
Proof. intros Ho. cbn. unfold is_u in *. splits; try lia. split; cbn; unfold is_u; (done || lia). Qed.

Lemma demo_events_valid : Forall event_valid demo_events.
Proof.
  repeat constructor; try (apply demo_insert_valid); cbn; unfold is_u; try lia.
Qed.

Lemma demo_events_accepted :
  match events Model_start demo_events with Some (Ok _) => true | _ => false end = true.
Proof. vm_compute. reflexivity. Qed.

Lemma model_refines_witness : exists m, events Model_start demo_events = Some (Ok m) /\
  exists A, a_events A_start demo_events = Some A /\ model_view m = Some A /\ model_inv A.
Proof.
  pose proof (model_refines demo_events demo_events_valid) as Hr. pose proof demo_events_accepted as Ha.
  destruct (events Model_start demo_events) as [[m|e]|]; [|discriminate Ha..].
  exact (ex_intro _ m (conj eq_refl Hr)).
Defined.

Definition demo_store : option JournalDisk.Sys :=
  JournalCrash.run_lost (Model_start : JournalDisk.MState)
    (Insert 0 1 0 demo_record : JournalDisk.MRecord) (Flush 1 10 : JournalDisk.MRecord).

Lemma demo_store_value :
  (fun s => (match JournalDisk.phase s with JournalDisk.Down => true | _ => false end, JournalDisk.dur s, length (JournalDisk.hist s)))
    <$> demo_store = Some (true, 1%nat, 2%nat).
Proof. vm_compute. reflexivity. Qed.

#[local] Opaque demo_store.

Lemma demo_store_reachable s : demo_store = Some s -> JournalDisk.reachable 1 (Model_start : JournalDisk.MState) s.
Proof.
  Transparent demo_store. unfold demo_store. intros E.
  assert (exists s0, JournalCrash.run_synced (Model_start : JournalDisk.MState) (Insert 0 1 0 demo_record : JournalDisk.MRecord) = Some s0) as [s0 E0].
  { unfold JournalCrash.run_lost in E. apply bind_Some in E as (? & (? & (s0 & E0 & _)%bind_Some & _)%bind_Some & _). by exists s0. }
  eapply JournalCrash.reachable_rtc.
  - eapply (JournalCrash.run_synced_reachable _ _ s0); [|exact E0]. apply demo_insert_valid. unfold is_u. lia.
  - eapply (JournalCrash.run_lost_steps _ _ _ s0 s); [|exact E0|exact E]. cbn. unfold is_u. lia.
Qed.


End Demo.

End SmallJournal.
