(* ===== verification/Catalog.v ===== *)
(** The file cache's residency catalogue (crates/talon-worker/src/catalog/model.rs): data files are
    bracketed by durable intents and completions in the journal. JSON (serde_json) is a parameter. *)

From stdpp Require Import gmap.
From S2P Require Import Prelude External BTree PageTable Key Block.

Module Catalog.
Import Key.

Abbreviation Pages := (PageTable.PageMap Z).

Record CBlock := mkBlock { b_id : BlockId; b_len : Z; b_pages : Pages }.

Inductive Operation :=
  | Put (page len : Z)
  | PutWhole (len : Z)
  | DeletePage (page : Z)
  | DeleteBlock.

Record Intent := mkIntent { i_store : str; i_block : BlockId; i_operation : Operation }.

Inductive CRecord :=
  | RStore (path : str) (page_size : Z)
  | Begin (intent : Intent)
  | Complete (transaction allocated : Z)
  | Resolve (transaction : Z).

Record Store := mkStore { s_page_size : Z; s_blocks : gmap BlockId CBlock }.

Record State := mkState { stores : gmap str Store; pending : list (Z * Intent) }.

Definition State_default : State := mkState ∅ [].

Definition PAGED : str := String.list_byte_of_string "paged".
Definition WHOLE : str := String.list_byte_of_string "whole".

Definition valid_store (path : str) : bool := bool_decide (path = PAGED) || bool_decide (path = WHOLE).

Definition invalid (message : string) : io_error := InvalidData message.

Definition fail {A} (message : string) : Panic A := Some (Err (invalid message)).
Definition ok {A} (a : A) : Panic A := Some (Ok a).

Definition overlapping (a b : Operation) : bool :=
  match a, b with
  | (DeleteBlock | PutWhole _), _ | _, (DeleteBlock | PutWhole _) => true
  | (Put p _ | DeletePage p), (Put q _ | DeletePage q) => p =? q
  end.

(** The geometry checks of an intent. *)
Definition intent_fits (s : Store) (i : Intent) : bool :=
  match i_operation i with
  | Put page len => (0 <? s_page_size s) && (page <? page_count (i_block i) (s_page_size s)) && (len <=? block_size (i_block i))
  | PutWhole len => (s_page_size s =? 0) && (len <=? block_size (i_block i))
  | DeletePage page => (0 <? s_page_size s) && (page <? page_count (i_block i) (s_page_size s))
  | DeleteBlock => true
  end.

Definition misfit (o : Operation) : string :=
  match o with
  | Put _ _ => "invalid page intent"
  | PutWhole _ => "invalid whole block intent"
  | DeletePage _ => "invalid delete page"
  | DeleteBlock => ""
  end.

Definition conflicts (a b : Intent) : bool :=
  bool_decide (i_store a = i_store b) && bool_decide (i_block a = i_block b) && overlapping (i_operation a) (i_operation b).

Definition put_store (st : State) (path : str) (s : Store) : State := mkState (<[path := s]> (stores st)) (pending st).

Definition apply_store (st : State) (path : str) (page_size : Z) : Panic State :=
  if negb (valid_store path && eqb (bool_decide (path = WHOLE)) (page_size =? 0)) then fail "invalid catalog store" else
  match stores st !! path with
  | Some s => if negb (s_page_size s =? page_size) then fail "catalog geometry changed"
              else ok (put_store st path (mkStore page_size (s_blocks s)))
  | None => ok (put_store st path (mkStore page_size ∅))
  end.

Definition apply_begin (st : State) (lsn : Z) (i : Intent) : Panic State :=
  if negb ((0 <? lsn) && bool_decide (BTree.get lsn (pending st) = None)) then fail "invalid catalog transaction" else
  match stores st !! i_store i with
  | None => fail "unknown catalog store"
  | Some s =>
    if negb (intent_fits s i) then fail (misfit (i_operation i))
    else if existsb (fun e => conflicts e.2 i) (pending st)
      then fail "overlapping catalog mutation: caller must hold the page/block gate"
    else ok (mkState (stores st) (BTree.put lsn i (pending st)))
  end.

(** A page leaves its block; a block without pages leaves the store. *)
Definition drop_page (s : Store) (id : BlockId) (page : Z) : Store :=
  match s_blocks s !! id with
  | Some b =>
    let b := mkBlock (b_id b) (b_len b) (PageTable.remove (b_pages b) page).1 in
    if PageTable.is_empty (b_pages b) then mkStore (s_page_size s) (delete id (s_blocks s))
    else mkStore (s_page_size s) (<[id := b]> (s_blocks s))
  | None => s
  end.

Definition drop_block (s : Store) (id : BlockId) : Store := mkStore (s_page_size s) (delete id (s_blocks s)).

Definition resolve (s : Store) (i : Intent) : Store :=
  match i_operation i with
  | Put page _ | DeletePage page => drop_page s (i_block i) page
  | DeleteBlock | PutWhole _ => drop_block s (i_block i)
  end.

Definition complete (s : Store) (i : Intent) (allocated : Z) : Store :=
  let id := i_block i in
  match i_operation i with
  | PutWhole len =>
    mkStore (s_page_size s) (<[id := mkBlock id len (PageTable.from_iter [(0, allocated)])]> (s_blocks s))
  | Put page len =>
    let b := default (mkBlock id len PageTable.empty) (s_blocks s !! id) in
    mkStore (s_page_size s) (<[id := mkBlock (b_id b) len (PageTable.insert (b_pages b) page allocated).1]> (s_blocks s))
  | DeletePage page => drop_page s id page
  | DeleteBlock => drop_block s id
  end.

(** Remove a pending transaction and change its store. *)
Definition settle (st : State) (transaction : Z) (f : Store -> Intent -> Store) : Panic State :=
  match BTree.get transaction (pending st) with
  | None => fail "unknown catalog transaction"
  | Some i =>
    s ← stores st !! i_store i;
    ok (mkState (<[i_store i := f s i]> (stores st)) (BTree.del transaction (pending st)))
  end.

Definition apply_record (st : State) (lsn : Z) (r : CRecord) : Panic State :=
  match r with
  | RStore path page_size => apply_store st path page_size
  | Begin i => apply_begin st lsn i
  | Resolve t => settle st t resolve
  | Complete t allocated => settle st t (fun s i => complete s i allocated)
  end.

(** *** Recovered blocks *)

(** [recovery::map] (crates/talon-worker/src/recovery.rs): contiguous chunks on [threads] threads,
    joined in order. *)
Fixpoint split_chunks {T} (n size : nat) (input : list T) : list (list T) :=
  match n with
  | O => []
  | S n => take size input :: split_chunks n size (drop size input)
  end.

Definition ceil_div (a b : nat) : nat := ((a + b - 1) / b)%nat.

Definition recovery_map {T U} (input : list T) (threads : nat) (work : T -> U) : list U :=
  let threads := Nat.min (Nat.max threads 1) (Nat.max (ceil_div (length input) 1024) 1) in
  if (threads =? 1)%nat then work <$> input
  else mjoin ((fun chunk => work <$> chunk) <$> split_chunks threads (ceil_div (length input) threads) input).

Record StoredBlock := mkStored { st_id : BlockId; st_len : Z; st_form : Block.Block.BlockForm; st_allocated : list (option Z * Z) }.

Definition stored_block (s : Store) (b : CBlock) : option StoredBlock :=
  if s_page_size s =? 0 then
    allocated ← PageTable.get (b_pages b) 0;
    Some (mkStored (b_id b) (b_len b) Block.Block.Whole [(None, allocated)])
  else
    let present := foldl Block.Block.set (Block.Block.new (page_count (b_id b) (s_page_size s))) (PageTable.keys (b_pages b)) in
    Some (mkStored (b_id b) (b_len b) (Block.Block.Paged (s_page_size s) present)
            ((fun e => (Some e.1, e.2)) <$> PageTable.iter (b_pages b))).

(** *** Snapshots *)

Inductive SnapshotRecord :=
  | SStore (path : str) (page_size : Z)
  | SBlock (store : str) (block : CBlock) (continuation : bool)
  | SPending (transaction : Z) (intent : Intent).

Definition SNAPSHOT_PAGES : nat := 1024.

(** The records of one block, from the pages after [after]. [None] is exhausted fuel. *)
Fixpoint block_chunks (fuel : nat) (store : str) (b : CBlock) (after : option Z) : option (list SnapshotRecord) :=
  let pages := PageTable.from_iter (take SNAPSHOT_PAGES (PageTable.range_after (b_pages b) after)) in
  match PageTable.last_key_value pages with
  | None => Some []
  | Some (last, _) =>
    match fuel with
    | O => None
    | S fuel =>
      rest ← block_chunks fuel store b (Some last);
      Some (SBlock store (mkBlock (b_id b) (b_len b) pages) (bool_decide (is_Some after)) :: rest)
    end
  end.

(** [HashMap] iterates its entries in some order, [BTreeMap<String, _>] in key order: a permutation
    either way. *)
Class MapOrder := {
  block_order : gmap BlockId CBlock -> list (BlockId * CBlock);
  block_order_perm : forall m, block_order m ≡ₚ map_to_list m;
  store_order : gmap str Store -> list (str * Store);
  store_order_perm : forall m, store_order m ≡ₚ map_to_list m
}.

Section Order.
Context `{MapOrder}.

Definition entries (st : State) (path : str) (threads : nat) : option (option (list StoredBlock)) :=
  match stores st !! path with
  | None => Some None
  | Some s =>
    let blocks := filter (fun b => PageTable.is_empty (b_pages b) = false) (snd <$> block_order (s_blocks s)) in
    Some <$> mapM (fun x => x) (recovery_map blocks threads (stored_block s))
  end.

Fixpoint blocks_chunks (store : str) (l : list (BlockId * CBlock)) : option (list SnapshotRecord) :=
  match l with
  | [] => Some []
  | (_, b) :: l =>
    chunks ← block_chunks (PageTable.len (b_pages b)) store b None;
    rest ← blocks_chunks store l;
    Some (chunks ++ rest)
  end.

Fixpoint stores_chunks (l : list (str * Store)) : option (list SnapshotRecord) :=
  match l with
  | [] => Some []
  | (path, s) :: l =>
    blocks ← blocks_chunks path (block_order (s_blocks s));
    rest ← stores_chunks l;
    Some (SStore path (s_page_size s) :: (blocks ++ rest))
  end.

Definition snapshot (st : State) : option (list SnapshotRecord) :=
  l ← stores_chunks (store_order (stores st));
  Some (l ++ ((fun e => SPending e.1 e.2) <$> pending st)).

Definition block_fits (s : Store) (b : CBlock) (continuation : bool) : bool :=
  (b_len b <=? block_size (b_id b)) && negb (PageTable.is_empty (b_pages b)) &&
  (if s_page_size s =? 0
   then negb continuation && (PageTable.len (b_pages b) =? 1)%nat && PageTable.contains_key (b_pages b) 0
   else forallb (fun p => p <? page_count (b_id b) (s_page_size s)) (PageTable.keys (b_pages b))).

Definition restore_block (s : Store) (b : CBlock) (continuation : bool) : Panic Store :=
  if negb (block_fits s b continuation) then fail "invalid snapshot block" else
  if continuation then
    match s_blocks s !! b_id b with
    | None => fail "snapshot continuation without block"
    | Some previous =>
      '(last, _) ← PageTable.last_key_value (b_pages previous);
      '(first, _) ← PageTable.first_key_value (b_pages b);
      if negb (b_len previous =? b_len b) || (first <=? last) then fail "invalid/duplicate snapshot page chunk"
      else ok (mkStore (s_page_size s) (<[b_id b :=
        mkBlock (b_id previous) (b_len previous) (PageTable.extend (b_pages previous) (PageTable.iter (b_pages b)))]> (s_blocks s)))
    end
  else
    match s_blocks s !! b_id b with
    | Some _ => fail "duplicate snapshot block"
    | None => ok (mkStore (s_page_size s) (<[b_id b := b]> (s_blocks s)))
    end.

Definition restore (st : State) (r : SnapshotRecord) : Panic State :=
  match r with
  | SStore path page_size =>
    match stores st !! path with
    | Some _ => fail "duplicate snapshot store"
    | None => apply_record st 0 (RStore path page_size)
    end
  | SBlock path b continuation =>
    match stores st !! path with
    | None => fail "unknown snapshot store"
    | Some s =>
      r ← restore_block s b continuation;
      Some (s ← r; Ok (put_store st path s))
    end
  | SPending t i =>
    if (t =? 0) || bool_decide (is_Some (BTree.get t (pending st))) then fail "invalid/duplicate snapshot transaction"
    else apply_record st t (Begin i)
  end.

End Order.

End Catalog.
