(* ===== verification/CatalogInv.v ===== *)
(** What every reachable catalogue satisfies: blocks hold at least one page, pages are inside their
    block, and pending transactions never touch the same pages. *)

From stdpp Require Import gmap.
From S2P Require Import Prelude External BTree PageTable Key Block Catalog.

Module CatalogInv.
Import Key Catalog.

Record block_inv (page_size : Z) (id : BlockId) (b : CBlock) : Prop := {
  bi_id : b_id b = id;
  bi_wf : PageTable.wf (b_pages b);
  bi_pages : PageTable.iter (b_pages b) <> [];
  bi_len : b_len b <= block_size id;
  bi_fits : if page_size =? 0 then exists n, PageTable.iter (b_pages b) = [(0, n)]
            else Forall (fun e => 0 <= e.1 < page_count id page_size) (PageTable.iter (b_pages b))
}.

Record store_inv (path : str) (s : Store) : Prop := {
  si_path : valid_store path = true;
  si_whole : bool_decide (path = WHOLE) = (s_page_size s =? 0);
  si_size : 0 <= s_page_size s;
  si_blocks : map_Forall (block_inv (s_page_size s)) (s_blocks s)
}.

(** The values of the Rust type. *)
Definition operation_valid (o : Operation) : Prop :=
  match o with
  | Put page len => is_u32 page /\ is_u64 len
  | PutWhole len => is_u64 len
  | DeletePage page => is_u32 page
  | DeleteBlock => True
  end.

Definition intent_inv (ss : gmap str Store) (i : Intent) : Prop :=
  operation_valid (i_operation i) /\ exists s, ss !! i_store i = Some s /\ intent_fits s i = true.

Record inv (st : State) : Prop := {
  i_stores : map_Forall store_inv (stores st);
  i_sorted : BTree.sorted (pending st);
  i_pending : Forall (fun e => 0 < e.1 /\ intent_inv (stores st) e.2) (pending st);
  i_separate : forall a b, a ∈ pending st -> b ∈ pending st -> a.1 <> b.1 -> conflicts a.2 b.2 = false
}.

Definition record_valid (r : CRecord) : Prop :=
  match r with
  | RStore _ page_size => is_u32 page_size
  | Begin i => is_u32 (block_size (i_block i)) /\ operation_valid (i_operation i)
  | Complete t allocated => is_u64 t /\ is_u64 allocated
  | Resolve t => is_u64 t
  end.

Lemma overlapping_sym a b : overlapping a b = overlapping b a.
Proof. destruct a, b; try done; apply Z.eqb_sym. Qed.

Lemma conflicts_sym a b : conflicts a b = conflicts b a.
Proof.
  unfold conflicts. rewrite overlapping_sym. f_equal. f_equal; apply bool_decide_ext; split; congruence.
Qed.

Lemma inv_default : inv State_default.
Proof.
  split; cbn; [apply map_Forall_empty|constructor|constructor|]. by intros a b Ha%elem_of_nil.
Qed.

(** Intents depend on the page sizes of the stores only. *)
Lemma intent_inv_put ss path s i :
  intent_inv ss i -> (forall s0, ss !! path = Some s0 -> s_page_size s = s_page_size s0) -> intent_inv (<[path := s]> ss) i.
Proof.
  intros (Hv & s0 & Hs & Hf) Hp. split; [done|]. destruct (decide (i_store i = path)) as [<-|Hne].
  - exists s. rewrite lookup_insert_eq. split; [done|]. unfold intent_fits in *. by rewrite (Hp _ Hs).
  - exists s0. by rewrite lookup_insert_ne by done.
Qed.

Lemma pages_is_empty (p : Pages) : PageTable.is_empty p = true <-> PageTable.iter p = [].
Proof. unfold PageTable.is_empty. rewrite Nat.eqb_eq, PageTable.len_ok. apply length_zero_iff_nil. Qed.

Lemma drop_block_inv path s id : store_inv path s -> store_inv path (drop_block s id).
Proof. intros [H1 H2 H3 H4]. split; cbn; try done. by apply map_Forall_delete. Qed.

Lemma drop_page_inv path s id page : store_inv path s -> 0 < s_page_size s -> store_inv path (drop_page s id page).
Proof.
  intros Hs Hp. pose proof Hs as [H1 H2 H3 H4]. unfold drop_page. destruct (s_blocks s !! id) as [b|] eqn:Hb; [|done]. cbn [b_pages].
  destruct (PageTable.is_empty _) eqn:He; [by apply drop_block_inv|]. split; cbn; try done.
  apply map_Forall_insert_2; [|done]. destruct (H4 _ _ Hb) as [B1 B2 B3 B4 B5].
  destruct (PageTable.page_remove_ok (b_pages b) page B2) as (Hw & Hi & _). split; cbn; try done.
  - intros E. apply pages_is_empty in E. congruence.
  - rewrite (proj2 (Z.eqb_neq _ _)) in * by lia. rewrite Hi. by apply BTree.del_all.
Qed.

Lemma resolve_inv path s i : store_inv path s -> intent_fits s i = true -> store_inv path (resolve s i) /\ s_page_size (resolve s i) = s_page_size s.
Proof.
  intros Hs Hf. unfold resolve, intent_fits in *. destruct (i_operation i) as [page len|len|page|].
  - apply andb_true_iff in Hf as [[Hp%Z.ltb_lt _]%andb_true_iff _]. split; [by apply drop_page_inv|].
    unfold drop_page. destruct (s_blocks s !! i_block i); [|done]. by destruct (PageTable.is_empty _).
  - split; [by apply drop_block_inv|done].
  - apply andb_true_iff in Hf as [Hp%Z.ltb_lt _]. split; [by apply drop_page_inv|].
    unfold drop_page. destruct (s_blocks s !! i_block i); [|done]. by destruct (PageTable.is_empty _).
  - split; [by apply drop_block_inv|done].
Qed.

Lemma complete_inv path s i n : store_inv path s -> operation_valid (i_operation i) -> intent_fits s i = true ->
  store_inv path (complete s i n) /\ s_page_size (complete s i n) = s_page_size s.
Proof.
  intros Hs Hv Hf. destruct (resolve_inv path s i Hs Hf) as [Hr Hrs]. unfold complete, resolve, intent_fits in *.
  pose proof Hs as [H1 H2 H3 H4]. destruct (i_operation i) as [page len|len|page|]; try done.
  - apply andb_true_iff in Hf as [[Hp%Z.ltb_lt Hc%Z.ltb_lt]%andb_true_iff Hl%Z.leb_le]. split; [|done]. split; cbn; try done.
    apply map_Forall_insert_2; [|done].
    assert (forall b, b_id b = i_block i -> PageTable.wf (b_pages b) -> Forall (fun e => 0 <= e.1 < page_count (i_block i) (s_page_size s)) (PageTable.iter (b_pages b)) ->
      block_inv (s_page_size s) (i_block i) (mkBlock (b_id b) len (PageTable.insert (b_pages b) page n).1)) as Hput.
    { intros b Hid Hw Hall. destruct (PageTable.page_insert_ok (b_pages b) page n Hw) as (Hw' & Hi & _). split; cbn; try done.
      - rewrite Hi. intros E. pose proof (BTree.get_put page n (PageTable.iter (b_pages b)) page) as Hg. rewrite E, Z.eqb_refl in Hg. done.
      - rewrite (proj2 (Z.eqb_neq _ _)) by lia. rewrite Hi. apply BTree.put_Forall; [|done]. destruct Hv as [Hv _]. unfold is_u in Hv. cbn. lia. }
    destruct (s_blocks s !! i_block i) as [b|] eqn:Hb; cbn [default id from_option].
    + destruct (H4 _ _ Hb) as [B1 B2 B3 B4 B5]. apply Hput; [done|done|]. rewrite (proj2 (Z.eqb_neq _ _)) in B5 by lia. done.
    + apply (Hput (mkBlock (i_block i) len PageTable.empty)); [done|apply PageTable.wf_empty|constructor].
  - apply andb_true_iff in Hf as [Hz Hl%Z.leb_le]. split; [|done]. split; cbn; try done. apply map_Forall_insert_2; [|done].
    destruct (PageTable.extend_sorted PageTable.empty [(0, n)] PageTable.wf_empty) as [Hw Hi]; [repeat constructor|].
    split; cbn; try done. rewrite Hz. exists n. exact Hi.
Qed.

(** Replacing a store by one of the same page size. *)
Lemma inv_put_store st path s p :
  inv st -> store_inv path s -> (forall s0, stores st !! path = Some s0 -> s_page_size s = s_page_size s0) ->
  BTree.sorted p -> (forall e, e ∈ p -> e ∈ pending st) -> inv (mkState (<[path := s]> (stores st)) p).
Proof.
  intros [I1 I2 I3 I4] Hs Hp Hsort Hsub. split; cbn; [by apply map_Forall_insert_2|done| |].
  - apply Forall_forall. intros e He. destruct (proj1 (Forall_forall _ _) I3 e (Hsub e He)) as [? ?]. split; [done|]. by apply intent_inv_put.
  - intros a b Ha Hb. apply I4; by apply Hsub.
Qed.

Lemma apply_store_inv st path n st' : inv st -> is_u32 n -> apply_store st path n = ok st' -> inv st'.
Proof.
  intros Hi Hn. unfold apply_store. destruct (valid_store path && _) eqn:Ev; [|done]. cbn [negb].
  apply andb_true_iff in Ev as [Hv He%eqb_prop]. unfold is_u in Hn. destruct (stores st !! path) as [s|] eqn:Hs.
  - destruct (Z.eqb_spec (s_page_size s) n) as [<-|]; [|done]. cbn [negb]. intros [= <-]. unfold put_store. destruct s as [ps bs]. cbn.
    eapply inv_put_store; [done|exact (i_stores st Hi _ _ Hs)|intros s0 E; congruence|apply Hi|done].
  - intros [= <-]. unfold put_store. eapply inv_put_store; [done| |by intros s0 E; rewrite Hs in E|apply Hi|done].
    split; cbn; [done|done|lia|apply map_Forall_empty].
Qed.

Lemma apply_begin_inv st lsn i st' : inv st -> operation_valid (i_operation i) -> apply_begin st lsn i = ok st' -> inv st'.
Proof.
  intros [I1 I2 I3 I4] Hv. unfold apply_begin. destruct ((0 <? lsn) && _) eqn:El; [|done]. cbn [negb].
  apply andb_true_iff in El as [Hl%Z.ltb_lt Hg%bool_decide_eq_true]. destruct (stores st !! i_store i) as [s|] eqn:Hs; [|done].
  destruct (intent_fits s i) eqn:Hf; [|done]. cbn [negb]. destruct (existsb _ _) eqn:Hc; [done|]. intros [= <-].
  assert (forall e, e ∈ pending st -> conflicts e.2 i = false) as Hno.
  { intros e He. apply not_true_is_false. intros E. assert (existsb (fun e => conflicts e.2 i) (pending st) = true); [|congruence].
    apply existsb_exists. exists e. split; [by apply list_elem_of_In|done]. }
  split; cbn; [done|by apply BTree.put_sorted| |].
  - apply BTree.put_Forall; [|done]. split; [done|]. split; [done|]. by exists s.
  - intros a b [->|Ha]%BTree.elem_put [->|Hb]%BTree.elem_put Hne; cbn in *; [done| |by apply Hno|by apply I4].
    rewrite conflicts_sym. by apply Hno.
Qed.

Lemma settle_inv st t f : inv st ->
  (forall path s i, store_inv path s -> operation_valid (i_operation i) -> intent_fits s i = true -> store_inv path (f s i) /\ s_page_size (f s i) = s_page_size s) ->
  match settle st t f with
  | Some (Ok st') => inv st'
  | Some (Err _) => True
  | None => False
  end.
Proof.
  intros Hi Hf. pose proof Hi as [I1 I2 I3 I4]. unfold settle. destruct (BTree.get t (pending st)) as [i|] eqn:Hg; [|done].
  apply BTree.get_elem in Hg. destruct (proj1 (Forall_forall _ _) I3 _ Hg) as [_ (Hv & s & Hs & Hfit)]. cbn [snd] in *. rewrite Hs. cbn [mbind option_bind].
  destruct (Hf _ s i (I1 _ _ Hs) Hv Hfit) as [Hs' Hps].
  eapply inv_put_store; [done|done|intros s0 E; congruence|by apply BTree.del_sorted|]. intros e. apply BTree.elem_del.
Qed.

(** Records keep the invariant and never make the code panic. *)
Lemma apply_inv st lsn r : inv st -> record_valid r ->
  match apply_record st lsn r with
  | Some (Ok st') => inv st'
  | Some (Err _) => True
  | None => False
  end.
Proof.
  intros Hi Hv. destruct r as [path n|i|t n|t]; cbn [apply_record].
  - destruct (apply_store st path n) as [[st'|]|] eqn:E; [by eapply apply_store_inv|done|].
    unfold apply_store in E. destruct (negb _); [done|]. destruct (stores st !! path); [destruct (negb _)|]; done.
  - destruct (apply_begin st lsn i) as [[st'|]|] eqn:E; [eapply apply_begin_inv; [done|apply Hv|done]|done|].
    unfold apply_begin in E. destruct (negb _); [done|]. destruct (stores st !! _); [|done]. destruct (negb _); [done|]. by destruct (existsb _ _).
  - apply settle_inv; [done|]. intros path s i. apply complete_inv.
  - apply settle_inv; [done|]. intros path s i ? _. by apply resolve_inv.
Qed.

End CatalogInv.
