(* ===== verification/CatalogSnapshot.v ===== *)
(** A snapshot of the catalogue, cut into chunks of pages, restores exactly the catalogue it was
    taken of, whatever order the maps are iterated in. *)

From stdpp Require Import gmap.
From S2P Require Import Prelude External BTree PageTable Key Block Catalog CatalogInv.

Module CatalogSnapshot.
Import Key Catalog CatalogInv.

Fixpoint restores (st : State) (rs : list SnapshotRecord) : Panic State :=
  match rs with
  | [] => ok st
  | r :: rs =>
    match restore st r with
    | Some (Ok st) => restores st rs
    | e => e
    end
  end.

Lemma restores_app st st' a b : restores st a = ok st' -> restores st (a ++ b) = restores st' b.
Proof.
  revert st. induction a as [|r a IH]; intros st E; cbn in *; [by injection E as ->|].
  destruct (restore st r) as [[st1|]|]; [by apply IH|done|done].
Qed.

(** ** One block *)

Lemma from_iter_sorted (l : list (Z * Z)) : BTree.sorted l ->
  PageTable.wf (PageTable.from_iter l) /\ PageTable.iter (PageTable.from_iter l) = l.
Proof. intros Hs. exact (PageTable.extend_sorted PageTable.empty l PageTable.wf_empty Hs). Qed.

(** The chunks of the pages [c2] that follow [c1]. *)
Fixpoint chunks (fuel : nat) (store : str) (b : CBlock) (c1 c2 : list (Z * Z)) : list SnapshotRecord :=
  match c2, fuel with
  | [], _ | _, O => []
  | _, S fuel =>
    SBlock store (mkBlock (b_id b) (b_len b) (PageTable.from_iter (take SNAPSHOT_PAGES c2))) (negb (match c1 with [] => true | _ => false end)) ::
    chunks fuel store b (c1 ++ take SNAPSHOT_PAGES c2) (drop SNAPSHOT_PAGES c2)
  end.

Definition after_of (c1 : list (Z * Z)) : option Z := fst <$> last c1.

Lemma range_after_ok (p : Pages) c1 c2 : PageTable.wf p -> PageTable.iter p = c1 ++ c2 -> PageTable.range_after p (after_of c1) = c2.
Proof.
  intros [Hs _] E. rewrite E in Hs. apply StronglySorted_app_inv in Hs as (Hs1 & _ & Hlt).
  unfold PageTable.range_after, after_of. rewrite E. destruct c1 as [|e c1 _] using rev_ind; [done|].
  rewrite last_snoc. cbn [fmap option_fmap option_map]. rewrite filter_app, filter_none, filter_keeps; [done| |].
  - apply Forall_forall. intros x Hx. apply Hlt; [|done]. apply elem_of_app. right. by left.
  - intros x Hx Hgt. apply elem_of_app in Hx as [Hx| ->%list_elem_of_singleton]; [|lia].
    apply StronglySorted_app_inv in Hs1 as (_ & _ & Hlt1). specialize (Hlt1 x e Hx ltac:(by left)). cbn in *. lia.
Qed.

Lemma block_chunks_ok fuel store b c1 c2 :
  PageTable.wf (b_pages b) -> PageTable.iter (b_pages b) = c1 ++ c2 -> (length c2 <= fuel)%nat ->
  block_chunks fuel store b (after_of c1) = Some (chunks fuel store b c1 c2).
Proof.
  intros Hw. revert c1 c2. induction fuel as [|fuel IH]; intros c1 c2 E Hf.
  - destruct c2; [|cbn in Hf; lia]. cbn [block_chunks chunks]. by rewrite (range_after_ok _ _ _ Hw E).
  - assert (BTree.sorted c2) as Hs2.
    { destruct Hw as [Hs _]. rewrite E in Hs. by apply StronglySorted_app_inv in Hs as (_ & ? & _). }
    assert (BTree.sorted (take SNAPSHOT_PAGES c2)) as Hs3.
    { rewrite <-(take_drop SNAPSHOT_PAGES c2) in Hs2. by apply StronglySorted_app_inv in Hs2 as (? & _ & _). }
    cbn [block_chunks]. rewrite (range_after_ok _ _ _ Hw E), PageTable.last_ok.
    destruct (from_iter_sorted _ Hs3) as [_ ->]. destruct c2 as [|e c2]; [done|]. cbn [chunks].
    destruct (last (take SNAPSHOT_PAGES (e :: c2))) as [[k v]|] eqn:El.
    2:{ apply last_None in El. by apply (f_equal length) in El. }
    assert (after_of (c1 ++ take SNAPSHOT_PAGES (e :: c2)) = Some k) as Ha by (unfold after_of; by rewrite last_app, El).
    rewrite <-Ha, (IH _ (drop SNAPSHOT_PAGES (e :: c2))); cbn [mbind option_bind].
    + do 2 f_equal. f_equal. destruct c1 as [|x c1 _] using rev_ind; [done|]. unfold after_of. rewrite last_snoc.
      cbn. by destruct c1.
    + rewrite <-app_assoc, take_drop. done.
    + rewrite length_drop. unfold SNAPSHOT_PAGES. cbn [length] in *. lia.
Qed.

(** The page tables of the chunks are canonical. *)
Definition canonical (r : SnapshotRecord) : Prop :=
  match r with SBlock _ b _ => PageTable.wf (b_pages b) | _ => True end.

Lemma chunks_canonical fuel store b c1 c2 : BTree.sorted c2 -> Forall canonical (chunks fuel store b c1 c2).
Proof.
  revert c1 c2. induction fuel as [|fuel IH]; intros c1 c2 Hs; destruct c2 as [|e c2]; try by constructor.
  cbn [chunks]. rewrite <-(take_drop SNAPSHOT_PAGES (e :: c2)) in Hs. apply StronglySorted_app_inv in Hs as (Hs1 & Hs2 & _).
  constructor; [|by apply IH]. apply (from_iter_sorted _ Hs1).
Qed.

Lemma chunk_fits (s : Store) id b c1 c2 : block_inv (s_page_size s) id b -> PageTable.iter (b_pages b) = c1 ++ c2 -> c2 <> [] ->
  block_fits s (mkBlock (b_id b) (b_len b) (PageTable.from_iter (take SNAPSHOT_PAGES c2)))
    (negb (match c1 with [] => true | _ => false end)) = true /\
  PageTable.wf (PageTable.from_iter (take SNAPSHOT_PAGES c2)) /\
  PageTable.iter (PageTable.from_iter (take SNAPSHOT_PAGES c2)) = take SNAPSHOT_PAGES c2.
Proof.
  intros [B1 B2 B3 B4 B5] E Hne.
  destruct (from_iter_sorted (take SNAPSHOT_PAGES c2)) as [Hw Hi].
  { pose proof (proj1 B2) as Hs. rewrite E in Hs. apply StronglySorted_app_inv in Hs as (_ & Hs & _).
    rewrite <-(take_drop SNAPSHOT_PAGES c2) in Hs. by apply StronglySorted_app_inv in Hs as (? & _ & _). }
  splits; [|done|done]. unfold block_fits. cbn [b_len b_id b_pages]. rewrite !andb_true_iff. splits.
  - apply Z.leb_le. by rewrite B1.
  - apply negb_true_iff, not_true_is_false. intros Em%pages_is_empty. rewrite Hi in Em. by destruct c2.
  - rewrite B1. destruct (Z.eqb_spec (s_page_size s) 0) as [H0|H0].
    + destruct B5 as [n Hn]. rewrite Hn in E. destruct c1 as [|? c1]; [|by destruct c1, c2].
      cbn [app] in E. subst c2. reflexivity.
    + apply forallb_forall. intros p Hp. apply Z.ltb_lt. unfold PageTable.keys in Hp. rewrite Hi in Hp.
      apply in_map_iff in Hp as (e & <- & He). rewrite E in B5. apply Forall_app in B5 as [_ B5].
      rewrite <-(take_drop SNAPSHOT_PAGES c2) in B5. apply Forall_app in B5 as [B5 _].
      rewrite List.Forall_forall in B5. by apply (B5 e He).
Qed.

(** The block [id] of a store holds the pages [c1] so far. *)
Definition partial (s : Store) (id : BlockId) (len : Z) (c1 : list (Z * Z)) : Prop :=
  match c1 with
  | [] => s_blocks s !! id = None
  | _ => exists p, s_blocks s !! id = Some (mkBlock id len p) /\ PageTable.wf p /\ PageTable.iter p = c1
  end.

Lemma restore_chunk s id b c1 c2 p :
  block_inv (s_page_size s) id b -> PageTable.iter (b_pages b) = c1 ++ c2 -> c2 <> [] -> partial s id (b_len b) c1 ->
  p = PageTable.from_iter (take SNAPSHOT_PAGES c2) ->
  exists q, restore_block s (mkBlock (b_id b) (b_len b) p) (negb (match c1 with [] => true | _ => false end)) =
    ok (mkStore (s_page_size s) (<[id := mkBlock id (b_len b) q]> (s_blocks s))) /\
    PageTable.wf q /\ PageTable.iter q = c1 ++ take SNAPSHOT_PAGES c2.
Proof.
  intros Hb E Hne Hp ->. destruct (chunk_fits s id b c1 c2 Hb E Hne) as (Hf & Hw & Hi). unfold restore_block. rewrite Hf.
  destruct Hb as [B1 B2 B3 B4 B5]. cbn [b_id b_len b_pages negb]. rewrite B1. destruct c1 as [|e c1]; cbn [negb partial] in *.
  { rewrite Hp. eexists. splits; [reflexivity|done|done]. }
  destruct Hp as (p & Hs & Hpw & Hpi). rewrite Hs. cbn [b_pages b_len b_id]. rewrite PageTable.last_ok, PageTable.first_ok, Hi, Hpi, Z.eqb_refl.
  pose proof (proj1 B2) as Hso. rewrite E in Hso. rewrite <-(take_drop SNAPSHOT_PAGES c2), app_assoc in Hso.
  apply StronglySorted_app_inv in Hso as (Hso & _ & _). pose proof Hso as Hlt. apply StronglySorted_app_inv in Hlt as (_ & _ & Hlt).
  rewrite <-Hpi in Hso. destruct (PageTable.extend_sorted _ _ Hpw Hso) as [Hew Hei]. rewrite Hpi in Hei.
  destruct (last (e :: c1)) as [[k v]|] eqn:El; [|by apply last_None in El]. destruct c2 as [|[k2 v2] c2]; [done|].
  cbn [take SNAPSHOT_PAGES head mbind option_bind negb orb].
  assert (k < k2) as Hk by (apply (Hlt (k, v) (k2, v2)); [by apply last_Some_elem_of|by left]).
  destruct (Z.leb_spec k2 k); [lia|]. eexists. splits; [reflexivity|done|done].
Qed.

Lemma put_store_same st path s : stores st !! path = Some s -> put_store st path s = st.
Proof. intros E. unfold put_store. rewrite insert_id by done. by destruct st. Qed.

Lemma restore_chunks fuel st path s id b c1 c2 :
  stores st !! path = Some s -> block_inv (s_page_size s) id b -> PageTable.iter (b_pages b) = c1 ++ c2 ->
  partial s id (b_len b) c1 -> (length c2 <= fuel)%nat ->
  restores st (chunks fuel path b c1 c2) = ok (put_store st path (mkStore (s_page_size s) (<[id := b]> (s_blocks s)))).
Proof.
  revert st s c1 c2. induction fuel as [|fuel IH]; intros st s c1 c2 Hs Hb E Hp Hf.
  all: destruct c2 as [|e c2]; [|try by cbn in Hf; lia].
  1,2: rewrite app_nil_r in E; destruct c1 as [|x c1]; [by destruct Hb|]; destruct Hp as (p & Hl & Hw & Hi); cbn [chunks restores];
    rewrite insert_id by (rewrite Hl; f_equal; destruct Hb as [<- Hbw _ _ _], b; cbn in *; f_equal; apply PageTable.iter_inj; congruence);
    rewrite put_store_same by (by destruct s); done.
  cbn [chunks restores restore]. rewrite Hs.
  destruct (restore_chunk s id b c1 (e :: c2) _ Hb E ltac:(done) Hp eq_refl) as (q & -> & Hqw & Hqi). cbn [mbind option_bind result_bind ok].
  rewrite (IH _ (mkStore (s_page_size s) (<[id := mkBlock id (b_len b) q]> (s_blocks s)))).
  - unfold put_store. cbn [stores pending s_page_size s_blocks]. by rewrite !insert_insert_eq.
  - unfold put_store. cbn [stores]. by rewrite lookup_insert_eq.
  - done.
  - by rewrite <-app_assoc, take_drop.
  - unfold partial. destruct (c1 ++ take SNAPSHOT_PAGES (e :: c2)) eqn:Ec; [by destruct c1|]. exists q. cbn [s_blocks].
    by rewrite lookup_insert_eq.
  - rewrite length_drop. unfold SNAPSHOT_PAGES. cbn [length] in *. lia.
Qed.

Section Order.
Context `{MapOrder}.

(** ** The blocks of a store *)

Lemma blocks_restore path ps l : NoDup l.*1 -> Forall (fun e => block_inv ps e.1 e.2) l ->
  exists rs, blocks_chunks path l = Some rs /\
    forall st s, stores st !! path = Some s -> s_page_size s = ps -> (forall id, id ∈ l.*1 -> s_blocks s !! id = None) ->
      restores st rs = ok (put_store st path (mkStore ps (list_to_map l ∪ s_blocks s))).
Proof.
  induction l as [|[id b] l IH]; intros Hnd Hf; cbn [fmap list_fmap fst] in Hnd.
  - eexists. split; [reflexivity|]. intros st s Hs <- _. cbn [restores list_to_map foldr]. rewrite (left_id_L ∅ (∪)), put_store_same; [done|].
    by destruct s.
  - apply NoDup_cons in Hnd as [Hni Hnd]. apply Forall_cons in Hf as [Hb Hf]. cbn [fst snd] in Hb. destruct (IH Hnd Hf) as (rs & Hrs & Hre).
    pose proof Hb as [_ Hw _ _ _]. cbn [blocks_chunks]. rewrite (block_chunks_ok _ path b [] (PageTable.iter (b_pages b)) Hw eq_refl)
      by (rewrite PageTable.len_ok; lia). rewrite Hrs. cbn [mbind option_bind]. eexists. split; [reflexivity|].
    intros st s Hs Hps Hfree. rewrite <-Hps in Hb.
    erewrite restores_app; [|apply (restore_chunks _ st path s id b []); [done|done|done| |by rewrite PageTable.len_ok]].
    2:{ apply Hfree. by left. }
    erewrite Hre; [|unfold put_store; cbn [stores]; apply lookup_insert_eq|done|].
    + unfold put_store. cbn [stores pending s_blocks]. rewrite insert_insert_eq. do 4 f_equal. cbn [list_to_map foldr fst snd].
      rewrite <-insert_union_r, insert_union_l; [done|]. by apply not_elem_of_list_to_map.
    + intros id' Hid. cbn [s_blocks]. rewrite lookup_insert_ne; [|congruence]. apply Hfree. by right.
Qed.

Lemma block_order_ok m : NoDup (block_order m).*1 /\ list_to_map (block_order m) = m.
Proof.
  assert (NoDup (block_order m).*1) as Hnd by (rewrite block_order_perm; apply NoDup_fst_map_to_list). split; [done|].
  rewrite (list_to_map_proper _ (map_to_list m)); [apply list_to_map_to_list|done|apply block_order_perm].
Qed.

Lemma store_order_ok m : NoDup (store_order m).*1 /\ list_to_map (store_order m) = m.
Proof.
  assert (NoDup (store_order m).*1) as Hnd by (rewrite store_order_perm; apply NoDup_fst_map_to_list). split; [done|].
  rewrite (list_to_map_proper _ (map_to_list m)); [apply list_to_map_to_list|done|apply store_order_perm].
Qed.

(** ** The stores *)

Lemma store_restore path s : store_inv path s ->
  exists rs, blocks_chunks path (block_order (s_blocks s)) = Some rs /\
    forall st, stores st !! path = None ->
      restores st (SStore path (s_page_size s) :: rs) = ok (put_store st path s).
Proof.
  intros [S1 S2 S3 S4]. destruct (block_order_ok (s_blocks s)) as [Hnd Hm].
  destruct (blocks_restore path (s_page_size s) (block_order (s_blocks s))) as (rs & Hrs & Hre); [done| |].
  { apply Forall_forall. intros [id b] He. rewrite block_order_perm in He. apply S4. by apply elem_of_map_to_list. }
  exists rs. split; [done|]. intros st Hst. cbn [restores restore]. rewrite Hst. cbn [apply_record]. unfold apply_store.
  rewrite S1, S2, eqb_reflx, Hst. cbn [andb negb].
  change (restores (put_store st path (mkStore (s_page_size s) ∅)) rs = ok (put_store st path s)).
  erewrite Hre; [|unfold put_store; cbn [stores]; apply lookup_insert_eq|done|by intros; apply lookup_empty].
  unfold put_store. cbn [stores pending s_blocks]. rewrite insert_insert_eq, (right_id_L ∅ (∪)), Hm. by destruct s.
Qed.

Lemma stores_restore l : NoDup l.*1 -> Forall (fun e => store_inv e.1 e.2) l ->
  exists rs, stores_chunks l = Some rs /\
    forall st, (forall path, path ∈ l.*1 -> stores st !! path = None) ->
      restores st rs = ok (mkState (list_to_map l ∪ stores st) (pending st)).
Proof.
  induction l as [|[path s] l IH]; intros Hnd Hf; cbn [fmap list_fmap fst] in Hnd.
  - eexists. split; [reflexivity|]. intros st _. cbn [restores list_to_map foldr]. rewrite (left_id_L ∅ (∪)). by destruct st.
  - apply NoDup_cons in Hnd as [Hni Hnd]. apply Forall_cons in Hf as [Hs Hf]. cbn [fst snd] in Hs.
    destruct (IH Hnd Hf) as (rs & Hrs & Hre). destruct (store_restore path s Hs) as (bs & Hbs & Hbr).
    cbn [stores_chunks]. rewrite Hbs, Hrs. cbn [mbind option_bind]. eexists. split; [reflexivity|]. intros st Hfree.
    rewrite app_comm_cons. erewrite restores_app; [|apply Hbr, Hfree; by left].
    rewrite Hre; unfold put_store; cbn [stores pending].
    + do 2 f_equal. cbn [list_to_map foldr fst snd]. rewrite <-insert_union_r, insert_union_l; [done|]. by apply not_elem_of_list_to_map.
    + intros path' Hp. rewrite lookup_insert_ne; [|congruence]. apply Hfree. by right.
Qed.

(** ** The pending transactions *)

Lemma pending_restore ss p1 p2 : inv (mkState ss (p1 ++ p2)) ->
  restores (mkState ss p1) ((fun e : Z * Intent => SPending e.1 e.2) <$> p2) = ok (mkState ss (p1 ++ p2)).
Proof.
  revert p1. induction p2 as [|[t i] p2 IH]; intros p1 Hi; [by rewrite app_nil_r|].
  cbn [fmap list_fmap restores restore pending fst snd]. pose proof Hi as [I1 I2 I3 I4]. cbn [stores pending] in *.
  apply Forall_app in I3 as [_ [(Ht & _ & s & Hs & Hf) _]%Forall_cons]. cbn [fst snd] in *.
  apply StronglySorted_app_inv in I2 as (_ & _ & Hlt).
  assert (forall e, e ∈ p1 -> e.1 < t) as Hlt1 by (intros e He; apply (Hlt e (t, i)); [done|by left]).
  assert (Forall (fun e => e.1 < t) p1) as Hlt2 by (by apply Forall_forall).
  assert (BTree.get t p1 = None) as Hg by (apply BTree.get_None; eapply Forall_impl; [done|]; cbn; lia).
  rewrite Hg. destruct (Z.eqb_spec t 0); [lia|]. cbn [orb bool_decide]. rewrite bool_decide_false; [|by intros [? ?]].
  cbn [apply_record]. unfold apply_begin. cbn [pending stores]. rewrite Hg, bool_decide_true; [|done].
  destruct (Z.ltb_spec 0 t); [|lia]. cbn [andb negb]. rewrite Hs, Hf. cbn [negb].
  destruct (existsb _ p1) eqn:Hc.
  { apply existsb_exists in Hc as (e & He & Hc). apply list_elem_of_In in He. 
    specialize (I4 e (t, i)). specialize (Hlt1 e He). cbn [fst snd] in I4. rewrite I4 in Hc; [done| | |lia].
    - apply elem_of_app. by left.
    - apply elem_of_app. right. by left. }
  cbn [ok]. rewrite BTree.put_last by done.
  rewrite IH; rewrite <-app_assoc; done.
Qed.

(** A snapshot can be taken of every catalogue, and restores it. *)
Lemma catalog_snapshot_restores st : inv st -> exists rs, snapshot st = Some rs /\ restores State_default rs = ok st.
Proof.
  intros Hi. pose proof Hi as [I1 I2 I3 I4]. destruct (store_order_ok (stores st)) as [Hnd Hm].
  destruct (stores_restore (store_order (stores st)) Hnd) as (rs & Hrs & Hre).
  { apply Forall_forall. intros [path s] He. rewrite store_order_perm in He. apply I1. by apply elem_of_map_to_list. }
  unfold snapshot. rewrite Hrs. cbn [mbind option_bind]. eexists. split; [reflexivity|].
  erewrite restores_app; [|apply Hre; intros; apply lookup_empty]. cbn [stores pending State_default].
  rewrite (right_id_L ∅ (∪)), Hm. rewrite (pending_restore (stores st) [] (pending st)); [|by destruct st]. by destruct st.
Qed.

End Order.

End CatalogSnapshot.
