(* ===== verification/CatalogJournal.v ===== *)
(** The catalogue as the state machine of its journal. What it shows after recovery is what an
    acknowledged prefix of its records leads to, and the blocks it hands to the cache are exactly the
    resident pages. *)

From stdpp Require Import gmap.
From S2P Require Import Prelude External JournalDisk JournalLog JournalCrash.
From S2P Require Import BTree PageTable Key Block Catalog CatalogInv CatalogSnapshot.

Module CatalogJournal.
Import Key Catalog CatalogInv CatalogSnapshot.

(** ** JSON *)

(** The JSON form of a snapshot record: a page table is an object with its entries in order. *)
Inductive SnapshotDocument :=
  | DStore (path : str) (page_size : Z)
  | DBlock (store : str) (id : BlockId) (len : Z) (pages : list (Z * Z)) (continuation : bool)
  | DPending (transaction : Z) (intent : Intent).

Definition to_document (r : SnapshotRecord) : SnapshotDocument :=
  match r with
  | SStore path page_size => DStore path page_size
  | SBlock store b continuation => DBlock store (b_id b) (b_len b) (PageTable.iter (b_pages b)) continuation
  | SPending t i => DPending t i
  end.

(** The visitor inserts the entries into an empty table one after another. *)
Definition of_document (d : SnapshotDocument) : SnapshotRecord :=
  match d with
  | DStore path page_size => SStore path page_size
  | DBlock store id len pages continuation =>
    SBlock store (mkBlock id len (PageTable.from_iter pages)) continuation
  | DPending t i => SPending t i
  end.

(** [serde_json]: what it writes it reads back, and an integer that it reads is in the range of
    its type. *)
Class Json := {
  record_to_vec : CRecord -> result io_error (list byte);
  record_from_slice : list byte -> result io_error CRecord;
  record_range : forall b r, record_from_slice b = Ok r -> record_valid r;
  record_round : forall r b, record_valid r -> record_to_vec r = Ok b -> record_from_slice b = Ok r;
  document_to_vec : SnapshotDocument -> result io_error (list byte);
  document_from_slice : list byte -> result io_error SnapshotDocument;
  document_round : forall d b, document_to_vec d = Ok b -> document_from_slice b = Ok d
}.

(** The iterator encodes one record at a time. *)
Definition snapshot_bytes `{Json} `{MapOrder} (st : State) : Panic (list (result io_error (list byte))) :=
  match snapshot st with
  | Some rs => ok ((fun r => document_to_vec (to_document r)) <$> rs)
  | None => None
  end.

#[export] Instance catalog_machine `{Json} `{MapOrder} : JournalDisk.Machine := {|
  JournalDisk.MRecord := CRecord;
  JournalDisk.MSnapshotRecord := SnapshotRecord;
  JournalDisk.MState := State;
  JournalDisk.m_valid := record_valid;
  JournalDisk.m_encode := record_to_vec;
  JournalDisk.m_decode := record_from_slice;
  JournalDisk.m_apply := fun st lsn r => unpanic (apply_record st lsn r);
  JournalDisk.m_snapshot := fun st => unpanic (snapshot_bytes st);
  JournalDisk.m_decode_snapshot := fun b => of_document <$> document_from_slice b;
  JournalDisk.m_restore := fun st r => unpanic (restore st r)
|}.

(** ** What a catalogue shows *)

Definition resident (st : State) (path : str) (id : BlockId) (page : Z) : option Z :=
  s ← stores st !! path; b ← s_blocks s !! id; PageTable.get (b_pages b) page.

(** What a transaction leaves of the page [page] of its block, [None] when it does not touch it. *)
Definition touched (o : Operation) (allocated : option Z) (page : Z) : option (option Z) :=
  match o with
  | Put p _ => if page =? p then Some allocated else None
  | PutWhole _ => Some (if page =? 0 then allocated else None)
  | DeletePage p => if page =? p then Some None else None
  | DeleteBlock => Some None
  end.

Definition settled (st : State) (t : Z) (allocated : option Z) (path : str) (id : BlockId) (page : Z) : option Z :=
  match BTree.get t (pending st) with
  | Some i =>
    if bool_decide (i_store i = path /\ i_block i = id)
    then default (resident st path id page) (touched (i_operation i) allocated page)
    else resident st path id page
  | None => resident st path id page
  end.

(** The effect of a record on what is resident. *)
Definition effect (st : State) (r : CRecord) (path : str) (id : BlockId) (page : Z) : option Z :=
  match r with
  | RStore _ _ | Begin _ => resident st path id page
  | Complete t allocated => settled st t (Some allocated) path id page
  | Resolve t => settled st t None path id page
  end.

Definition pending_effect (st : State) (lsn : Z) (r : CRecord) (t : Z) : option Intent :=
  match r with
  | RStore _ _ => BTree.get t (pending st)
  | Begin i => if t =? lsn then Some i else BTree.get t (pending st)
  | Complete u _ | Resolve u => if t =? u then None else BTree.get t (pending st)
  end.

(** The state after the records of a log. *)
Fixpoint c_run `{Json} (st : State) (lsn : nat) (h : list (list byte)) : Panic State :=
  match h with
  | [] => ok st
  | b :: h =>
    match record_from_slice b with
    | Ok r => try_bind (apply_record st (Z.of_nat lsn + 1) r) (fun st => c_run st (S lsn) h)
    | Err e => Some (Err e)
    end
  end.

(** A stored block describes a block of the store. *)
Definition describes (st : State) (path : str) (page_size : Z) (x : StoredBlock) : Prop :=
  if page_size =? 0
  then st_form x = Block.Block.Whole /\ exists n, st_allocated x = [(None, n)] /\ resident st path (st_id x) 0 = Some n
  else exists present, st_form x = Block.Block.Paged page_size present /\
    (forall page, 0 <= page -> Block.Block.is_present present page = bool_decide (is_Some (resident st path (st_id x) page))) /\
    (forall page n, (Some page, n) ∈ st_allocated x <-> resident st path (st_id x) page = Some n).

(** ** The journal's requirements *)

Section Laws.
Context `{Json} `{MapOrder}.

#[export] Instance catalog_sim : JournalLog.Sim := fun m i => m = i /\ inv (m : State).

Lemma record_applied st l r st' : inv st -> record_valid r -> unpanic (apply_record st l r) = Ok st' ->
  apply_record st l r = ok st' /\ inv st'.
Proof.
  intros Hi Hv E. pose proof (apply_inv st l r Hi Hv) as Ha. destruct (apply_record st l r) as [[st1|]|]; [|done|done].
  apply Ok_same in E as <-. done.
Qed.

(** A canonical page table survives its JSON form. *)
Lemma document_ok r : canonical r -> of_document (to_document r) = r.
Proof.
  destruct r as [path n|store b c|t i]; [done| |done]. cbn [canonical to_document of_document]. intros Hw.
  destruct (from_iter_sorted (PageTable.iter (b_pages b)) (proj1 Hw)) as [Hw' Hi].
  rewrite (PageTable.iter_inj _ _ Hw' Hw Hi). by destruct b.
Qed.

Lemma snapshot_canonical st rs : inv st -> snapshot st = Some rs -> Forall canonical rs.
Proof.
  intros Hi. unfold snapshot. intros (l & Hl & [= <-])%bind_Some. apply Forall_app. split.
  2:{ apply Forall_fmap, Forall_forall. done. }
  assert (Forall (fun e => store_inv e.1 e.2) (store_order (stores st))) as Hs.
  { apply Forall_forall. intros [path s] He. rewrite store_order_perm in He. apply (i_stores st Hi). by apply elem_of_map_to_list. }
  revert l Hl. induction Hs as [|[path s] ss Hs _ IH]; intros l Hl; cbn [stores_chunks] in Hl; [by injection Hl as <-|].
  apply bind_Some in Hl as (bs & Hbs & (rest & Hrest & [= <-])%bind_Some). constructor; [done|]. apply Forall_app. split; [|by apply IH].
  assert (Forall (fun e => PageTable.wf (b_pages e.2)) (block_order (s_blocks s))) as Hw.
  { apply Forall_forall. intros [id b] He. rewrite block_order_perm in He. by apply (si_blocks _ _ Hs id b), elem_of_map_to_list. }
  clear -Hbs Hw. revert bs Hbs. induction Hw as [|[id b] l Hw _ IH]; intros bs Hbs; cbn [blocks_chunks] in Hbs; [by injection Hbs as <-|].
  apply bind_Some in Hbs as (cs & Hcs & (rest & Hrest & [= <-])%bind_Some). apply Forall_app. split; [|by apply IH].
  cbn [snd] in Hw. rewrite (block_chunks_ok _ path b [] (PageTable.iter (b_pages b)) Hw eq_refl) in Hcs by (rewrite PageTable.len_ok; lia).
  injection Hcs as <-. apply chunks_canonical. apply Hw.
Qed.

Lemma decoded_restores m rs snaps : Forall canonical rs -> (fun r => document_to_vec (to_document r)) <$> rs = Ok <$> snaps ->
  JournalLog.restore_all (m : JournalDisk.MState) snaps = unpanic (restores m rs).
Proof.
  intros Hc. revert m snaps. induction Hc as [|r rs Hr _ IH]; intros m [|b snaps] E; try done.
  injection E as Eb E. cbn [JournalLog.restore_all restores].
  cbn [JournalDisk.m_decode_snapshot JournalDisk.m_restore catalog_machine]. rewrite (document_round _ _ Eb). cbn [fmap result_fmap mbind result_bind].
  rewrite document_ok by done. destruct (restore m r) as [[m1|]|]; cbn [unpanic default result_bind]; [|done|done]. by apply IH.
Qed.

#[export] Instance catalog_laws : JournalLog.MachineLaws (State_default : JournalDisk.MState).
Proof.
  split.
  - split; [done|apply inv_default].
  - exact record_range.
  - intros m i r b l m' _ Hv He _. by apply record_round.
  - intros m i r l i' [-> Hi] Hv E. exists i'. split; [done|]. by destruct (record_applied i l r i' Hi Hv E).
  - intros m i r l m' [-> Hi] Hv E. exists m'. split; [done|]. by destruct (record_applied i l r m' Hi Hv E).
  - intros m i snaps [-> Hi] Hs. destruct (catalog_snapshot_restores i Hi) as (rs & Hrs & Hre).
    cbn [JournalDisk.m_snapshot catalog_machine] in Hs. unfold snapshot_bytes in Hs. rewrite Hrs in Hs. apply Ok_same in Hs.
    exists i. split; [|done]. rewrite (decoded_restores _ rs); [by rewrite Hre|by eapply snapshot_canonical|done].
Qed.

End Laws.

(** ** Effects *)

Definition block_get (b : option CBlock) (page : Z) : option Z := b ← b; PageTable.get (b_pages b) page.

Lemma resident_block st path s id page : stores st !! path = Some s -> resident st path id page = block_get (s_blocks s !! id) page.
Proof. intros E. unfold resident. by rewrite E. Qed.

Lemma get_delete_block s id id' page :
  block_get (delete id (s_blocks s) !! id') page = if bool_decide (id = id') then None else block_get (s_blocks s !! id') page.
Proof. case_bool_decide as E; [subst; by rewrite lookup_delete_eq|by rewrite lookup_delete_ne]. Qed.

Lemma drop_page_get path s id p id' page : store_inv path s ->
  block_get (s_blocks (drop_page s id p) !! id') page =
  if bool_decide (id = id') && (page =? p) then None else block_get (s_blocks s !! id') page.
Proof.
  intros [_ _ _ Hb]. unfold drop_page. destruct (s_blocks s !! id) as [b|] eqn:E; cbn [b_pages].
  2:{ case_bool_decide as Ei; [|done]. subst id'. rewrite E. by destruct (page =? p). }
  pose proof (bi_wf _ _ _ (Hb _ _ E)) as Hbw. destruct (PageTable.page_remove_ok (b_pages b) p Hbw) as (Hw & Hi & _).
  assert (PageTable.get (PageTable.remove (b_pages b) p).1 page = if page =? p then None else PageTable.get (b_pages b) page) as Hg.
  { rewrite (PageTable.page_get_ok _ _ Hw), (PageTable.page_get_ok _ _ Hbw), Hi. apply BTree.get_del, Hbw. }
  destruct (PageTable.is_empty _) eqn:Ee; cbn [s_blocks].
  - rewrite get_delete_block. case_bool_decide as Ei; [|done]. subst id'. rewrite E. cbn [andb block_get mbind option_bind].
    rewrite PageTable.page_get_ok in Hg by done. apply pages_is_empty in Ee. rewrite Ee in Hg. cbn [BTree.get] in Hg. by destruct (page =? p).
  - case_bool_decide as Ei; [subst id'; rewrite lookup_insert_eq, E; exact Hg|by rewrite lookup_insert_ne].
Qed.

Lemma resolve_get path s i id page : store_inv path s ->
  block_get (s_blocks (resolve s i) !! id) page =
  if bool_decide (i_block i = id) then default (block_get (s_blocks s !! id) page) (touched (i_operation i) None page)
  else block_get (s_blocks s !! id) page.
Proof.
  intros Hs. unfold resolve. destruct (i_operation i) as [p len|len|p|]; cbn [touched]; rewrite ?(drop_page_get path) by done.
  - case_bool_decide; [|done]. by destruct (page =? p).
  - unfold drop_block. cbn [s_blocks]. rewrite get_delete_block. case_bool_decide; [|done]. by destruct (page =? 0).
  - case_bool_decide; [|done]. by destruct (page =? p).
  - unfold drop_block. cbn [s_blocks]. by rewrite get_delete_block.
Qed.

Lemma complete_get path s i n id page : store_inv path s ->
  block_get (s_blocks (complete s i n) !! id) page =
  if bool_decide (i_block i = id) then default (block_get (s_blocks s !! id) page) (touched (i_operation i) (Some n) page)
  else block_get (s_blocks s !! id) page.
Proof.
  intros Hs. pose proof (resolve_get path s i id page Hs) as Hr. unfold complete, resolve in *.
  destruct (i_operation i) as [p len|len|p|]; cbn [touched] in *; try exact Hr; clear Hr; cbn [s_blocks].
  - case_bool_decide as E; [subst id; rewrite lookup_insert_eq|by rewrite lookup_insert_ne]. cbn [block_get mbind option_bind b_pages].
    destruct (s_blocks s !! i_block i) as [b|] eqn:Eb; cbn [default from_option].
    + pose proof (bi_wf _ _ _ (si_blocks _ _ Hs _ _ Eb)) as Hbw. destruct (PageTable.page_insert_ok (b_pages b) p n Hbw) as (Hw & Hi & _).
      rewrite (PageTable.page_get_ok _ _ Hw), Hi, BTree.get_put, <-(PageTable.page_get_ok _ _ Hbw). by destruct (page =? p).
    + destruct (PageTable.page_insert_ok PageTable.empty p n PageTable.wf_empty) as (Hw & Hi & _). cbn [b_pages].
      rewrite !PageTable.page_get_ok, Hi, BTree.get_put by done. by destruct (page =? p).
  - case_bool_decide as E; [subst id; rewrite lookup_insert_eq|by rewrite lookup_insert_ne]. cbn [block_get mbind option_bind b_pages].
    destruct (from_iter_sorted [(0, n)]) as [Hw Hi]; [repeat constructor|]. rewrite PageTable.page_get_ok, Hi by done. cbn [BTree.get].
    by destruct (page =? 0).
Qed.

Lemma settle_effect st t f allocated st' : inv st -> settle st t f = ok st' ->
  (forall path s i id page, store_inv path s -> block_get (s_blocks (f s i) !! id) page =
    if bool_decide (i_block i = id) then default (block_get (s_blocks s !! id) page) (touched (i_operation i) allocated page)
    else block_get (s_blocks s !! id) page) ->
  (forall path id page, resident st' path id page = settled st t allocated path id page) /\
  (forall u, BTree.get u (pending st') = if u =? t then None else BTree.get u (pending st)).
Proof.
  intros Hi E Hf. unfold settle, settled in *. destruct (BTree.get t (pending st)) as [i|] eqn:Hg; [|done].
  destruct (stores st !! i_store i) as [s|] eqn:Hs; [|done]. cbn [mbind option_bind] in E. injection E as <-. split.
  2:{ intros u. apply BTree.get_del, Hi. }
  intros path id page. destruct (decide (i_store i = path)) as [<-|Hne].
  - rewrite (resident_block _ _ (f s i)) by apply lookup_insert_eq. rewrite (Hf (i_store i)) by apply (i_stores _ Hi _ _ Hs).
    rewrite (resident_block _ _ s) by done. do 2 case_bool_decide; naive_solver.
  - rewrite bool_decide_false by naive_solver. unfold resident. cbn [stores]. by rewrite lookup_insert_ne.
Qed.

(** ** Recovered blocks *)

Lemma mjoin_chunks {T U} (work : T -> U) n size input : (length input <= n * size)%nat ->
  mjoin ((fun chunk => work <$> chunk) <$> split_chunks n size input) = work <$> input.
Proof.
  revert input. induction n as [|n IH]; intros input Hl.
  - destruct input; [done|cbn in Hl; lia].
  - cbn [split_chunks fmap list_fmap mjoin list_join]. rewrite IH by (rewrite length_drop; lia). by rewrite <-fmap_app, take_drop.
Qed.

Lemma recovery_map_ok {T U} (input : list T) threads (work : T -> U) : recovery_map input threads work = work <$> input.
Proof.
  unfold recovery_map. set (n := Nat.min _ _). destruct (Nat.eqb_spec n 1); [done|]. apply mjoin_chunks. unfold ceil_div.
  assert (1 <= n)%nat as Hn by (unfold n; lia). pose proof (Nat.div_mod_eq (length input + n - 1) n) as E.
  pose proof (Nat.mod_upper_bound (length input + n - 1) n ltac:(lia)). nia.
Qed.

Lemma present_ok n ks b : Block.Block.bitmap_inv b -> Block.Block.len b = n -> Forall (fun k => 0 <= k < n) ks ->
  forall q, 0 <= q -> Block.Block.is_present (foldl Block.Block.set b ks) q = bool_decide (q ∈ ks) || Block.Block.is_present b q.
Proof.
  intros Hb Hn Hks. revert b Hb Hn. induction Hks as [|k ks Hk _ IH]; intros b Hb Hn q Hq; cbn [foldl].
  - by rewrite bool_decide_false by apply not_elem_of_nil.
  - destruct (Block.Block.set_spec b k Hb ltac:(lia)) as [Hb' Hs]. rewrite IH, Hs; [|done|done| |done].
    + apply eq_true_iff_eq. rewrite !orb_true_iff, !bool_decide_eq_true, elem_of_cons. naive_solver.
    + unfold Block.Block.set. by destruct (k <? Block.Block.len b).
Qed.

Lemma stored_ok st path s id b : inv st -> stores st !! path = Some s -> s_blocks s !! id = Some b ->
  exists x, stored_block s b = Some x /\ st_id x = id /\ st_len x = b_len b /\ describes st path (s_page_size s) x.
Proof.
  intros Hi Hs Hb. pose proof (si_blocks _ _ (i_stores _ Hi _ _ Hs) _ _ Hb) as [B1 B2 B3 B4 B5].
  assert (forall page, resident st path (b_id b) page = BTree.get page (PageTable.iter (b_pages b))) as Hres.
  { intros page. rewrite (resident_block _ _ s) by done. rewrite B1, Hb. cbn [block_get mbind option_bind]. by apply PageTable.page_get_ok. }
  unfold stored_block, describes. rewrite PageTable.page_get_ok by done.
  destruct (Z.eqb_spec (s_page_size s) 0) as [_|Hps].
  { destruct B5 as [n Hn]. rewrite Hn. cbn [BTree.get mbind option_bind Z.eqb]. eexists. cbn [st_id st_len st_form st_allocated].
    splits; try done. exists n. split; [done|]. by rewrite Hres, Hn. }
  eexists. cbn [st_id st_len st_form st_allocated]. splits; try done. eexists. splits; [reflexivity| |].
  - intros page Hp. rewrite Hres. rewrite (present_ok (page_count (b_id b) (s_page_size s))); [|apply Block.Block.new_inv|done| |done].
    + rewrite Block.Block.new_absent, orb_false_r. apply bool_decide_ext. unfold PageTable.keys. rewrite list_elem_of_fmap. split.
      * intros ([k v] & -> & He). exists v. by apply BTree.elem_get, He; apply B2.
      * intros [v Hv]. exists (page, v). split; [done|]. by apply BTree.get_elem.
    + rewrite B1. destruct (PageTable.iter (b_pages b)) as [|e l]; [done|]. apply Forall_cons in B5 as [B5 _]. lia.
    + unfold PageTable.keys. rewrite B1. by apply Forall_fmap.
  - intros page n. cbn [st_id st_allocated]. rewrite Hres, list_elem_of_fmap. split.
    + intros ([k v] & [= -> ->] & He). by apply BTree.elem_get, He; apply B2.
    + intros Hg. exists (page, n). split; [done|]. by apply BTree.get_elem.
Qed.

Lemma mapM_stored `{MapOrder} st path s l : inv st -> stores st !! path = Some s ->
  (forall e, e ∈ l -> s_blocks s !! e.1 = Some e.2) ->
  exists r, mapM (fun x => x) (stored_block s <$> l.*2) = Some r /\ st_id <$> r = l.*1 /\
    st_len <$> r = (fun e => b_len e.2) <$> l /\ Forall (describes st path (s_page_size s)) r.
Proof.
  intros Hi Hs. induction l as [|[id b] l IH]; intros Hl; [by exists []|].
  destruct IH as (r & Hr & Hid & Hlen & Hd); [intros e He; apply Hl; by right|].
  destruct (stored_ok st path s id b Hi Hs (Hl (id, b) ltac:(by left))) as (x & Hx & Hxi & Hxl & Hxd).
  exists (x :: r). cbn. rewrite Hx. cbn. rewrite Hr. cbn. splits; [done|by f_equal|by f_equal|by constructor].
Qed.

Lemma blocks_kept `{MapOrder} st path s : inv st -> stores st !! path = Some s ->
  filter (fun b => PageTable.is_empty (b_pages b) = false) (block_order (s_blocks s)).*2 = (block_order (s_blocks s)).*2.
Proof.
  intros Hi Hs. apply filter_keeps. apply Forall_fmap, Forall_forall. intros [id b] He. rewrite block_order_perm, elem_of_map_to_list in He.
  cbn. apply not_true_is_false. intros E%pages_is_empty. by destruct (si_blocks _ _ (i_stores _ Hi _ _ Hs) _ _ He).
Qed.

(** ** Theorems *)

(** C9: What a record does. An accepted record keeps the catalogue well formed; beginning a transaction
    changes nothing that is resident, completing it changes exactly the pages its operation names,
    and resolving an interrupted one removes them. *)
Theorem catalog_effects st lsn r st' :
  inv st -> record_valid r -> apply_record st lsn r = ok st' ->
  inv st' /\
  (forall path id page, resident st' path id page = effect st r path id page) /\
  (forall t, BTree.get t (pending st') = pending_effect st lsn r t).
Proof.
  intros Hi Hv E. pose proof (apply_inv st lsn r Hi Hv) as Ha. rewrite E in Ha. split; [exact Ha|]. clear Ha.
  destruct r as [path0 n|i|t n|t]; cbn [apply_record effect pending_effect] in *.
  - unfold apply_store in E. destruct (negb _); [done|]. destruct (stores st !! path0) as [s|] eqn:Hs.
    + destruct (negb (_ =? _)); [done|]. injection E as <-. split; [|done]. intros path id page. unfold resident, put_store. cbn [stores].
      destruct (decide (path0 = path)) as [<-|]; [by rewrite lookup_insert_eq, Hs|by rewrite lookup_insert_ne].
    + injection E as <-. split; [|done]. intros path id page. unfold resident, put_store. cbn [stores].
      destruct (decide (path0 = path)) as [<-|]; [by rewrite lookup_insert_eq, Hs|by rewrite lookup_insert_ne].
  - unfold apply_begin in E. destruct (negb _); [done|]. destruct (stores st !! _); [|done]. destruct (negb _); [done|].
    destruct (existsb _ _); [done|]. injection E as <-. split; [done|]. intros t. apply BTree.get_put.
  - eapply settle_effect; [done|exact E|]. intros path s i id page. apply complete_get.
  - eapply settle_effect; [done|exact E|]. intros path s i id page. apply resolve_get.
Qed.

(** The blocks that the catalogue hands to the cache at start-up are exactly the blocks of the store,
    each with its length, its pages and their allocations as resident, on any number of recovery
    threads. *)
Theorem entries_exact `{MapOrder} st path s threads :
  inv st -> stores st !! path = Some s ->
  exists l, entries st path threads = Some (Some l) /\ entries st path 1 = Some (Some l) /\
    NoDup (st_id <$> l) /\ (forall id, id ∈ st_id <$> l <-> is_Some (s_blocks s !! id)) /\
    Forall (fun x => describes st path (s_page_size s) x /\ exists b, s_blocks s !! st_id x = Some b /\ st_len x = b_len b) l.
Proof.
  intros Hi Hs. unfold entries. rewrite Hs, !recovery_map_ok, (blocks_kept st path s Hi Hs).
  assert (forall e, e ∈ block_order (s_blocks s) -> s_blocks s !! e.1 = Some e.2) as Hl.
  { intros [id b] He. rewrite block_order_perm in He. by apply elem_of_map_to_list. }
  destruct (mapM_stored st path s _ Hi Hs Hl) as (r & Hr & Hid & Hlen & Hd). rewrite Hr.
  destruct (block_order_ok (s_blocks s)) as [Hnd _]. exists r. rewrite Hid. splits; [done|done|done| |].
  { intros id. split; [intros (e & -> & He)%list_elem_of_fmap; exists (e.2); by apply Hl|]. intros [b Hb]. apply list_elem_of_fmap. exists (id, b). split; [done|]. rewrite block_order_perm. by apply elem_of_map_to_list. }
  clear -Hid Hlen Hd Hl. revert Hid Hlen Hl. generalize (block_order (s_blocks s)) as l.
  induction Hd as [|x r Hx _ IH]; intros [|e l] Hid Hlen Hl; try done; constructor.
  - split; [done|]. injection Hid as Hid _. injection Hlen as Hlen _. exists (e.2). rewrite Hid. split; [apply Hl; by left|done].
  - injection Hid as _ Hid. injection Hlen as _ Hlen. eapply IH; [done|done|]. intros e' He'. apply Hl. by right.
Qed.
Section Recovery.
Context `{Xxh3} `{Json} `{MapOrder}.

Lemma run_states (st : State) a h i : inv st -> JournalLog.run (st : JournalDisk.MState) a h = Ok i -> c_run st a h = ok (i : State).
Proof.
  revert st a. induction h as [|b h IH]; intros st a Hi E; cbn in E; [by apply Ok_same in E as <-|].
  cbn [c_run]. destruct (record_from_slice b) as [r|] eqn:Hd; [|done]. cbn [mbind result_bind] in E.
  destruct (unpanic (apply_record st (Z.of_nat a + 1) r)) as [st1|] eqn:Hap; [|done]. cbn [mbind result_bind] in E.
  destruct (record_applied st _ r st1 Hi (record_range _ _ Hd) Hap) as [-> Hi1]. by apply IH.
Qed.


End Recovery.
(** ** A run *)

Section Demo.

#[local] Instance Operation_countable_eq : EqDecision Operation.
Proof. solve_decision. Defined.
#[local] Instance Intent_eq : EqDecision Intent.
Proof. solve_decision. Defined.
#[local] Instance CRecord_eq : EqDecision CRecord.
Proof. solve_decision. Defined.
#[local] Instance Document_eq : EqDecision SnapshotDocument.
Proof. solve_decision. Defined.

#[local] Instance Operation_countable : Countable Operation.
Proof.
  apply (inj_countable' (fun o => match o with Put p l => inl (p, l) | PutWhole l => inr (inl l) | DeletePage p => inr (inr (inl p))
      | DeleteBlock => inr (inr (inr tt)) end)
    (fun s => match s with inl (p, l) => Put p l | inr (inl l) => PutWhole l | inr (inr (inl p)) => DeletePage p | _ => DeleteBlock end)).
  by intros [].
Defined.

#[local] Instance Intent_countable : Countable Intent.
Proof.
  apply (inj_countable' (fun i => (i_store i, i_block i, i_operation i)) (fun '(s, b, o) => mkIntent s b o)). by intros [].
Defined.

#[local] Instance CRecord_countable : Countable CRecord.
Proof.
  apply (inj_countable' (fun r => match r with RStore p n => inl (p, n) | Begin i => inr (inl i) | Complete t n => inr (inr (inl (t, n)))
      | Resolve t => inr (inr (inr t)) end)
    (fun s => match s with inl (p, n) => RStore p n | inr (inl i) => Begin i | inr (inr (inl (t, n))) => Complete t n
      | inr (inr (inr t)) => Resolve t end)). by intros [].
Defined.

#[local] Instance Document_countable : Countable SnapshotDocument.
Proof.
  apply (inj_countable' (fun r => match r with DStore p n => inl (p, n) | DBlock s i l p c => inr (inl (s, i, l, p, c)) | DPending t i => inr (inr (t, i)) end)
    (fun s => match s with inl (p, n) => DStore p n | inr (inl (s, i, l, p, c)) => DBlock s i l p c | inr (inr (t, i)) => DPending t i end)).
  by intros [].
Defined.

#[local] Instance record_valid_dec r : Decision (record_valid r).
Proof.
  destruct r as [path n|[st b o]|t n|t]; cbn; try (unfold is_u; apply _). destruct o; cbn; unfold is_u; apply _.
Defined.

(** One byte per bit. *)
Fixpoint bits (p : positive) : list byte :=
  match p with xH => [] | xO p => x00 :: bits p | xI p => x01 :: bits p end.

Fixpoint of_bits (l : list byte) : positive :=
  match l with [] => xH | b :: l => if bool_decide (b = x00) then xO (of_bits l) else xI (of_bits l) end.

Lemma of_bits_ok p : of_bits (bits p) = p.
Proof. induction p as [p IH|p IH|]; cbn; [by rewrite IH..|done]. Qed.

#[local] Instance toy_json : Json.
Proof.
  refine {|
    record_to_vec r := Ok (bits (encode r));
    record_from_slice b := match decode (of_bits b) with
      | Some r => if bool_decide (record_valid r) then Ok r else Err (invalid "range")
      | None => Err (invalid "syntax") end;
    document_to_vec d := Ok (bits (encode d));
    document_from_slice b := match decode (of_bits b) with Some d => Ok d | None => Err (invalid "syntax") end
  |}.
  - intros b r. destruct (decode _) as [r'|]; [|done]. case_bool_decide; [|done]. intros <-%Ok_same. done.
  - intros r b Hv <-%Ok_same. rewrite of_bits_ok, decode_encode. by rewrite bool_decide_true.
  - intros d b <-%Ok_same. by rewrite of_bits_ok, decode_encode.
Defined.

#[local] Instance toy_order : MapOrder.
Proof. refine {| block_order := map_to_list; store_order := map_to_list |}; done. Defined.

#[local] Existing Instance toy_xxh3.

Definition demo_block : BlockId := mkBlockId (mkObjectId S3 [x62] [x70]) 0 100 [x76].

Definition demo_put : CRecord := Begin (mkIntent WHOLE demo_block (PutWhole 100)).

(** The state after a whole block was stored. *)
Definition demo_state : State :=
  mkState {[ WHOLE := mkStore 0 {[ demo_block := mkBlock demo_block 100 (PageTable.from_iter [(0, 128)]) ]} ]} [].

Definition demo_begun : State :=
  mkState {[ WHOLE := mkStore 0 ∅ ]} [(2, mkIntent WHOLE demo_block (PutWhole 100))].

Lemma demo_begun_inv : inv demo_begun.
Proof.
  assert (apply_record (mkState {[ WHOLE := mkStore 0 ∅ ]} []) 2 demo_put = ok demo_begun) as E by reflexivity.
  assert (apply_record State_default 1 (RStore WHOLE 0) = ok (mkState {[ WHOLE := mkStore 0 ∅ ]} [])) as E0 by reflexivity.
  pose proof (apply_inv State_default 1 (RStore WHOLE 0) inv_default ltac:(cbn; unfold is_u; lia)) as H0. rewrite E0 in H0.
  pose proof (apply_inv _ 2 demo_put H0 ltac:(cbn; unfold is_u; lia)) as H1. by rewrite E in H1.
Qed.

Lemma demo_completed : apply_record demo_begun 3 (Complete 2 128) = ok demo_state.
Proof. reflexivity. Qed.

Lemma demo_state_inv : inv demo_state.
Proof.
  pose proof (apply_inv demo_begun 3 (Complete 2 128) demo_begun_inv ltac:(cbn; unfold is_u; lia)) as H1. by rewrite demo_completed in H1.
Qed.

Lemma catalog_effects_witness : inv demo_state /\
  (forall path id page, resident demo_state path id page = effect demo_begun (Complete 2 128) path id page) /\
  (forall t, BTree.get t (pending demo_state) = pending_effect demo_begun 3 (Complete 2 128) t).
Proof.
  refine (catalog_effects demo_begun 3 (Complete 2 128) demo_state demo_begun_inv _ demo_completed). cbn. unfold is_u. lia.
Defined.

Lemma entries_exact_witness : exists l, entries demo_state WHOLE 8 = Some (Some l) /\ entries demo_state WHOLE 1 = Some (Some l) /\
  NoDup (st_id <$> l) /\
  (forall id, id ∈ st_id <$> l <-> is_Some (({[ demo_block := mkBlock demo_block 100 (PageTable.from_iter [(0, 128)]) ]} : gmap _ _) !! id)) /\
  Forall (fun x => describes demo_state WHOLE 0 x /\ exists b,
    ({[ demo_block := mkBlock demo_block 100 (PageTable.from_iter [(0, 128)]) ]} : gmap _ _) !! st_id x = Some b /\ st_len x = b_len b) l.
Proof.
  exact (entries_exact demo_state WHOLE (mkStore 0 {[ demo_block := mkBlock demo_block 100 (PageTable.from_iter [(0, 128)]) ]}) 8
    demo_state_inv eq_refl).
Defined.

(** The store is declared durably, a put is begun but not synced, and the machine crashes. *)
Definition demo_run : option JournalDisk.Sys :=
  JournalCrash.run_lost (State_default : JournalDisk.MState) (RStore WHOLE 0 : JournalDisk.MRecord) (demo_put : JournalDisk.MRecord).

Lemma demo_run_value :
  (fun s => (match JournalDisk.phase s with JournalDisk.Down => true | _ => false end, JournalDisk.dur s, length (JournalDisk.hist s)))
    <$> demo_run = Some (true, 1%nat, 2%nat).
Proof. vm_compute. reflexivity. Qed.

#[local] Opaque demo_run.

Lemma demo_run_reachable s : demo_run = Some s -> JournalDisk.reachable 1 (State_default : JournalDisk.MState) s.
Proof.
  Transparent demo_run. unfold demo_run. intros E.
  assert (exists s0, JournalCrash.run_synced (State_default : JournalDisk.MState) (RStore WHOLE 0 : JournalDisk.MRecord) = Some s0) as [s0 E0].
  { unfold JournalCrash.run_lost in E. apply bind_Some in E as (? & (? & (s0 & E0 & _)%bind_Some & _)%bind_Some & _). by exists s0. }
  eapply JournalCrash.reachable_rtc.
  - eapply (JournalCrash.run_synced_reachable _ _ s0); [|exact E0]. cbn. unfold is_u. lia.
  - eapply (JournalCrash.run_lost_steps _ _ _ s0 s); [|exact E0|exact E]. cbn. unfold is_u. lia.
Qed.


End Demo.

End CatalogJournal.
