(* ===== verification/Trace.v ===== *)
(** The W3C trace carrier (crates/talon-telemetry/src/context.rs): parsing a [traceparent] and a
    [tracestate], and that what was parsed is forwarded as text that parses to the same context. *)

From S2P Require Import Prelude External Bytes Key.

Module Trace.
Import Key.

(** The significant bytes of the two arrays. *)
Record TraceContext := mkTrace { parent : list byte; state : list byte }.

#[export] Instance TraceContext_eq_dec : EqDecision TraceContext.
Proof. solve_decision. Defined.

Definition dash : byte := x2d.
Definition zero : byte := x30.

Definition is_ascii_digit (b : byte) : bool := Bytes.between 48 57 b.
Definition is_ascii_lowercase (b : byte) : bool := Bytes.between 97 122 b.
Definition is_ascii_alphanumeric (b : byte) : bool := is_ascii_digit b || is_ascii_lowercase b || Bytes.between 65 90 b.
Definition is_ascii_graphic (b : byte) : bool := Bytes.between 33 126 b.

Definition hex (l : list byte) : bool := forallb (fun b => is_ascii_digit b || Bytes.between 97 102 b) l.

(** [&p[i..j]] *)
Definition sub (i j : nat) (p : list byte) : list byte := take (j - i) (drop i p).

(** [split(c)]: the pieces between the separators. *)
Fixpoint split (c : byte) (l : list byte) : list (list byte) :=
  match l with
  | [] => [[]]
  | b :: l =>
    if bool_decide (b = c) then [] :: split c l
    else match split c l with x :: xs => (b :: x) :: xs | [] => [[b]] end
  end.

Fixpoint split_once (c : byte) (l : list byte) : option (list byte * list byte) :=
  match l with
  | [] => None
  | b :: l => if bool_decide (b = c) then Some ([], l) else '(k, v) ← split_once c l; Some (b :: k, v)
  end.

Fixpoint trim_start (f : byte -> bool) (l : list byte) : list byte :=
  match l with b :: l' => if f b then trim_start f l' else l | [] => [] end.

Definition trim_matches (f : byte -> bool) (l : list byte) : list byte := rev (trim_start f (rev (trim_start f l))).

Definition valid_tail (l : list byte) : bool :=
  forallb (fun b => is_ascii_lowercase b || is_ascii_digit b || bool_decide (b ∈ s "_-*/")) l.

Definition first_is (f : byte -> bool) (l : list byte) : bool := match l with b :: _ => f b | [] => false end.

Definition valid_key (key : list byte) : bool :=
  match split_once x40 key with
  | Some (tenant, system) =>
    negb (bool_decide (tenant = [])) && (length tenant <=? 241)%nat && first_is is_ascii_alphanumeric tenant && valid_tail tenant &&
    negb (bool_decide (system = [])) && (length system <=? 14)%nat && first_is is_ascii_lowercase system && valid_tail system
  | None => first_is is_ascii_lowercase key && valid_tail key
  end.

Definition valid_value (value : list byte) : bool :=
  negb (bool_decide (value = [])) && (length value <=? 256)%nat && negb (bool_decide (last value = Some x20)) &&
  forallb (fun b => Bytes.between 32 126 b && negb (bool_decide (b ∈ s ",="))) value.

(** The members of a [tracestate], with the keys before them. *)
Fixpoint valid_entries (keys : list (list byte)) (entries : list (list byte)) : bool :=
  match entries with
  | [] => true
  | entry :: entries =>
    if (length keys =? 32)%nat then false else
    match split_once x3d (trim_matches (fun b => bool_decide (b ∈ [x20; x09])) entry) with
    | None => false
    | Some (key, value) =>
      if bool_decide (key = []) || (256 <? length key)%nat || bool_decide (key ∈ keys) || negb (valid_value value) then false
      else if negb (valid_key key) then false else valid_entries (keys ++ [key]) entries
    end
  end.

Definition valid_state (state : list byte) : bool :=
  if bool_decide (state = []) || (512 <? length state)%nat then false else valid_entries [] (split x2c state).

Definition at_ (i : nat) (b : byte) (p : list byte) : bool := bool_decide (p !! i = Some b).

Definition invalid_parent (p : list byte) : bool :=
  (length p <? 55)%nat || (1024 <? length p)%nat || negb (at_ 2 dash p) || negb (at_ 35 dash p) || negb (at_ 52 dash p) ||
  negb (hex (sub 0 2 p)) || bool_decide (sub 0 2 p = s "ff") ||
  negb (hex (sub 3 35 p)) || negb (hex (sub 36 52 p)) || negb (hex (sub 53 55 p)) ||
  forallb (fun b => bool_decide (b = zero)) (sub 3 35 p) || forallb (fun b => bool_decide (b = zero)) (sub 36 52 p) ||
  (bool_decide (sub 0 2 p = s "00") && negb (length p =? 55)%nat) ||
  ((55 <? length p)%nat && (negb (at_ 55 dash p) || negb (forallb is_ascii_graphic (drop 56 p)))).

Definition from_w3c (p : list byte) (st : option (list byte)) : option TraceContext :=
  if invalid_parent p then None else
  Some (mkTrace (s "00" ++ sub 2 55 p)
          (match st with Some st => if valid_state st then st else [] | None => [] end)).

(** The carried text: an empty [tracestate] is not sent. *)
Definition carried (c : TraceContext) : option (list byte) := if bool_decide (state c = []) then None else Some (state c).

(** [to_digit16] of the last flag digit. *)
Definition to_digit16 (b : byte) : Z := if is_ascii_digit b then byte_val b - 48 else byte_val b - 97 + 10.

Definition sampled (c : TraceContext) : bool :=
  match parent c !! 54%nat with Some b => Z.land (to_digit16 b) 1 =? 1 | None => false end.

(** ** Forwarding *)

(** A context that came out of the parser. *)
Definition wf (c : TraceContext) : Prop :=
  invalid_parent (parent c) = false /\ length (parent c) = 55%nat /\ take 2 (parent c) = s "00" /\
  (state c = [] \/ valid_state (state c) = true).

(** What the parser keeps of a parent: version 00 and the rest of the 55 bytes. *)
Lemma kept_sub p q i j : (55 <= length p)%nat -> q = s "00" ++ sub 2 55 p -> (2 <= i <= j)%nat -> (j <= 55)%nat -> sub i j q = sub i j p.
Proof.
  intros Hp -> Hi Hj. unfold sub. rewrite drop_app_ge by (cbn; lia).
  rewrite skipn_firstn_comm, drop_drop, take_take. change (length (s "00")) with 2%nat. f_equal; [lia|f_equal; lia].
Qed.

Lemma kept_at p q i b : (55 <= length p)%nat -> q = s "00" ++ sub 2 55 p -> (2 <= i < 55)%nat -> at_ i b q = at_ i b p.
Proof.
  intros Hp -> Hi. unfold at_, sub. rewrite lookup_app_r by (cbn; lia). rewrite lookup_take_lt by (cbn; lia).
  rewrite lookup_drop. by replace (2 + (i - length (s "00")))%nat with i by (cbn; lia).
Qed.

Lemma valid_parent_length p : invalid_parent p = false -> (55 <= length p)%nat.
Proof. unfold invalid_parent. intros E. rewrite !orb_false_iff, Nat.ltb_ge in E. tauto. Qed.

Lemma kept_valid p : invalid_parent p = false -> invalid_parent (s "00" ++ sub 2 55 p) = false /\ length (s "00" ++ sub 2 55 p) = 55%nat.
Proof.
  intros E. pose proof (valid_parent_length p E) as Hp. remember (s "00" ++ sub 2 55 p) as q eqn:Hq.
  assert (length q = 55%nat) as Hl by (rewrite Hq; unfold sub; rewrite length_app, length_take, length_drop; change (length (s "00")) with 2%nat; lia).
  assert (sub 0 2 q = s "00") as H0 by (by rewrite Hq). split; [|done]. revert E. unfold invalid_parent. rewrite H0, Hl.
  rewrite !(kept_at p q), !(kept_sub p q) by (done || lia). rewrite !orb_false_iff. intros E. splits; try tauto.
Qed.

Lemma from_w3c_wf p st c : from_w3c p st = Some c -> wf c.
Proof.
  unfold from_w3c. destruct (invalid_parent p) eqn:E; [done|]. intros [= <-]. unfold wf. cbn [parent state].
  destruct (kept_valid p E) as [Hv Hl]. splits; [done|done|done|].
  destruct st as [st|]; [|by left]. destruct (valid_state st) eqn:Ev; [by right|by left].
Qed.

Lemma carried_again c : wf c -> from_w3c (parent c) (carried c) = Some c.
Proof.
  intros (Hv & Hl & H0 & Hs). unfold from_w3c, carried. rewrite Hv. destruct c as [p st]. cbn [parent state] in *. do 2 f_equal.
  - unfold sub. rewrite <-H0, take_ge with (n := (55 - 2)%nat) by (rewrite length_drop; lia). apply take_drop.
  - case_bool_decide as E; [done|]. destruct Hs as [|Hs]; [done|]. by rewrite Hs.
Qed.

Lemma ascii_utf8 l : Forall (fun b => byte_val b <= 127) l -> Bytes.utf8 l = true.
Proof.
  induction 1 as [|b l Hb _ IH]; [done|]. cbn [Bytes.utf8]. unfold Bytes.between. pose proof (byte_val_range b).
  by rewrite (proj2 (Z.leb_le 0 _)), (proj2 (Z.leb_le _ 127)) by lia.
Qed.

Lemma hex_ascii l : hex l = true -> Forall (fun b => byte_val b <= 127) l.
Proof.
  intros H. apply Forall_forall. intros b Hb. unfold hex in H. rewrite forallb_forall in H. apply list_elem_of_In in Hb.
  specialize (H b Hb). unfold is_ascii_digit, Bytes.between in H. rewrite orb_true_iff, !andb_true_iff, !Z.leb_le in H. lia.
Qed.

Lemma cut_at (p : list byte) i b : p !! i = Some b -> p = take i p ++ b :: drop (S i) p.
Proof. intros H. by rewrite <-(drop_S _ _ _ H), take_drop. Qed.

(** The text of a parent is ASCII. *)
Lemma parent_utf8 c : wf c -> Bytes.utf8 (parent c) = true.
Proof.
  intros (Hv & Hl & H0 & _). unfold invalid_parent in Hv. rewrite !orb_false_iff, !negb_false_iff in Hv. unfold at_ in Hv.
  rewrite !bool_decide_eq_true in Hv. apply ascii_utf8.
  assert (parent c = take 2 (parent c) ++ dash :: sub 3 35 (parent c) ++ dash :: sub 36 52 (parent c) ++ dash :: sub 53 55 (parent c)) as E.
  { rewrite (cut_at (parent c) 2 dash) at 1 by tauto. f_equal. f_equal.
    rewrite (cut_at (drop 3 (parent c)) 32 dash) at 1 by (rewrite lookup_drop; tauto). unfold sub. f_equal. f_equal. rewrite drop_drop.
    rewrite (cut_at (drop (3 + 33) (parent c)) 16 dash) at 1 by (rewrite lookup_drop; tauto). f_equal. f_equal. rewrite drop_drop.
    symmetry. apply take_ge. rewrite length_drop. cbn. lia. }
  rewrite E, H0. rewrite !Forall_app, !Forall_cons, !Forall_app, !Forall_cons, !Forall_app, !Forall_cons.
  splits; try done; try (apply hex_ascii; tauto).
Qed.

(** The trace context of a request is forwarded unchanged: what the parser makes of any carrier is
    well formed, and its text parses to the same context again. *)
Theorem trace_forwarded p st c :
  from_w3c p st = Some c -> length (parent c) = 55%nat /\ (length (state c) <= 512)%nat /\ from_w3c (parent c) (carried c) = Some c.
Proof.
  intros E. pose proof (from_w3c_wf p st c E) as Hw. splits; [apply Hw| |by apply carried_again].
  destruct Hw as (_ & _ & _ & [->|Hs]); [cbn; lia|]. unfold valid_state in Hs.
  destruct (bool_decide _) eqn:Eb; [done|]. cbn [orb] in Hs. destruct (Nat.ltb_spec 512 (length (state c))); [done|lia].
Qed.

(** A carrier of a later version with an extension and two vendor states. *)
Definition demo_parent : list byte := s "01-4bf92f3577b34da6a3ce929d0e0e4736-00f067aa0ba902b7-01-ext".
Definition demo_state : list byte := s "congo=t61rcWkgMzE, t1@rojo=00f067aa0ba902b7".

Lemma trace_forwarded_witness : exists c, from_w3c demo_parent (Some demo_state) = Some c /\
  (length (parent c) = 55%nat /\ (length (state c) <= 512)%nat /\ from_w3c (parent c) (carried c) = Some c).
Proof.
  eexists. split; [|apply (trace_forwarded demo_parent (Some demo_state))]; vm_compute; reflexivity.
Defined.

End Trace.
