(* ===== verification/Broker.v ===== *)
(** Request-local origin credentials (crates/talon-core/src/request.rs): the descriptor, its
    validation, and its canonical wire form. [serde_json] and [url] are parameters. *)

From S2P Require Import Prelude External Bytes Key Trace.

Module Broker.
Import Key.

#[local] Unset Elimination Schemes.

(** [serde_json::Value]. A float is its bit pattern. *)
Inductive Value :=
  | JNull
  | JBool (b : bool)
  | JInteger (n : Z)
  | JFloat (bits : Z)
  | JString (x : str)
  | JArray (l : list Value)
  | JObject (l : list (str * Value)).

#[local] Set Elimination Schemes.

(** The derived equality. *)
Fixpoint value_eqb (x y : Value) : bool :=
  match x, y with
  | JNull, JNull => true
  | JBool a, JBool b => eqb a b
  | JInteger a, JInteger b | JFloat a, JFloat b => a =? b
  | JString a, JString b => bool_decide (a = b)
  | JArray l, JArray k =>
    (fix go l k := match l, k with [], [] => true | a :: l, b :: k => value_eqb a b && go l k | _, _ => false end) l k
  | JObject l, JObject k =>
    (fix go l k := match l, k with
      | [], [] => true
      | (i, a) :: l, (j, b) :: k => bool_decide (i = j) && value_eqb a b && go l k
      | _, _ => false end) l k
  | _, _ => false
  end.

Definition is_object (v : Value) : bool := match v with JObject _ => true | _ => false end.

(** [get] of an object and [as_str]. *)
Definition get_str (v : Value) (key : str) : option str :=
  match v with
  | JObject l => match list_find (fun e => e.1 = key) l with Some (_, (_, JString x)) => Some x | _ => None end
  | _ => None
  end.

Record OriginOptions := mkOrigin {
  endpoint : option str; region : option str; use_ssl : option bool; use_virtual_host : option bool;
  tls_ca_pem : option str; tls_min_version : option str; request_timeout_ms : option Z; max_connections : option Z }.

Record BrokerConfig := mkBroker { url : str; request : Value; origin : option OriginOptions }.

(** What the code reads of a [url::Url]. *)
Inductive Host := Domain (x : str) | Ipv4 (text : str) | Ipv6.
Record Url := mkUrl { scheme : str; host : option Host; username : str; password : option str; fragment : option str }.

Lemma Value_rect_all (P : Value -> Prop) :
  P JNull -> (forall b, P (JBool b)) -> (forall n, P (JInteger n)) -> (forall n, P (JFloat n)) -> (forall x, P (JString x)) ->
  (forall l, Forall P l -> P (JArray l)) -> (forall l, Forall (fun e => P e.2) l -> P (JObject l)) -> forall v, P v.
Proof.
  intros H1 H2 H3 H4 H5 H6 H7. fix IH 1. intros [| | | | |l|l]; [apply H1|apply H2|apply H3|apply H4|apply H5|apply H6|apply H7].
  - induction l as [|v l IHl]; constructor; [apply IH|exact IHl].
  - induction l as [|[k v] l IHl]; constructor; [apply IH|exact IHl].
Qed.

Lemma value_eqb_eq x : forall y, value_eqb x y = true <-> x = y.
Proof.
  induction x as [|b|n|n|z|l IH|l IH] using Value_rect_all; intros [|b'|n'|n'|z'|l'|l']; cbn [value_eqb]; try (split; [done|discriminate]); try done.
  - rewrite eqb_true_iff. naive_solver.
  - rewrite Z.eqb_eq. naive_solver.
  - rewrite Z.eqb_eq. naive_solver.
  - rewrite bool_decide_eq_true. naive_solver.
  - transitivity (l = l'); [|naive_solver]. revert l'. induction IH as [|v l Hv _ IHl]; intros [|v' l']; try (split; [done|discriminate]); [done|].
    rewrite andb_true_iff, Hv, IHl. naive_solver.
  - transitivity (l = l'); [|naive_solver]. revert l'. induction IH as [|[k v] l Hv _ IHl]; intros [|[k' v'] l']; try (split; [done|discriminate]); [done|].
    cbn [snd] in Hv. rewrite !andb_true_iff, bool_decide_eq_true, Hv, IHl. naive_solver.
Qed.

#[export] Instance Value_eq_dec : EqDecision Value.
Proof. intros x y. destruct (value_eqb x y) eqn:E; [left; by apply value_eqb_eq|right; intros H%value_eqb_eq; congruence]. Defined.
#[export] Instance OriginOptions_eq_dec : EqDecision OriginOptions.
Proof. solve_decision. Defined.
#[export] Instance BrokerConfig_eq_dec : EqDecision BrokerConfig.
Proof. solve_decision. Defined.
#[export] Instance Host_eq_dec : EqDecision Host.
Proof. solve_decision. Defined.

Definition JSON_RECURSION_LIMIT : nat := 128.
Definition MAX_CREDENTIAL_BROKER_BYTES : nat := 16 * 1024.
Definition S3_ORIGIN_REGION_CSPS : list str := [s "aws"; s "ali"; s "tc"; s "hwc"].

Fixpoint within_nesting_limit (v : Value) (depth : nat) : bool :=
  match v with
  | JArray l => (depth <? JSON_RECURSION_LIMIT)%nat && forallb (fun v => within_nesting_limit v (S depth)) l
  | JObject l => (depth <? JSON_RECURSION_LIMIT)%nat && forallb (fun e => within_nesting_limit e.2 (S depth)) l
  | _ => true
  end.

Fixpoint no_floats (v : Value) : bool :=
  match v with
  | JFloat _ => false
  | JArray l => forallb no_floats l
  | JObject l => forallb (fun e => no_floats e.2) l
  | _ => true
  end.

(** [serde_json] for this type, and [Url::parse]. Writing and reading a value without floating-point
    numbers whose nesting the parser accepts gives the value back: the descriptor and its request are
    the first two levels. What is written is UTF-8. *)
Class BrokerLibs := {
  broker_from_str : list byte -> option BrokerConfig;
  broker_to_vec : BrokerConfig -> option (list byte);
  broker_round : forall c b, no_floats (request c) = true -> within_nesting_limit (request c) 2 = true ->
    broker_to_vec c = Some b -> broker_from_str b = Some c;
  broker_utf8 : forall c b, broker_to_vec c = Some b -> Bytes.utf8 b = true;
  url_parse : str -> option Url
}.

Definition lower (b : byte) : byte := if Bytes.between 65 90 b then byte_of (byte_val b + 32) else b.
Definition eq_ignore_ascii_case (a b : str) : bool := bool_decide (lower <$> a = lower <$> b).

(** [split_once("://")] *)
Fixpoint split_scheme (l : str) : option (str * str) :=
  match l with
  | [] => None
  | b :: l' =>
    if bool_decide (take 3 l = s "://") then Some ([], drop 3 l)
    else '(x, y) ← split_scheme l'; Some (b :: x, y)
  end.

Definition strip_suffix (c : byte) (l : str) : str := if bool_decide (last l = Some c) then take (length l - 1) l else l.

Definition is_ascii (b : byte) : bool := Bytes.between 0 127 b.

(** White space and control characters: the rest of the check refuses anything that is not ASCII. *)
Definition blank (b : byte) : bool := Bytes.between 0 32 b || bool_decide (b = x7f).

Definition alphanumeric (b : byte) : bool := Trace.is_ascii_alphanumeric b.
Definition alphabetic (b : byte) : bool := Bytes.between 65 90 b || Bytes.between 97 122 b.

Definition valid_label (label : str) : bool :=
  Trace.first_is alphanumeric label && Trace.first_is alphanumeric (rev label) &&
  forallb (fun b => alphanumeric b || bool_decide (b = x2d)) label.

Definition dot : byte := x2e.

Definition valid_domain (h : str) : bool :=
  let h := strip_suffix dot h in
  forallb valid_label (Trace.split dot h) &&
  (negb (bool_decide (dot ∈ h)) || Trace.first_is alphabetic (default [] (last (Trace.split dot h)))).

Definition valid_host (authority : str) (h : option Host) : bool :=
  match h with
  | Some (Ipv4 text) => bool_decide (head (Trace.split x3a authority) = Some text)
  | Some Ipv6 => true
  | Some (Domain h) => valid_domain h
  | None => false
  end.

(** The Unicode white space of [trim], in UTF-8. *)
Fixpoint all_whitespace (l : list byte) : bool :=
  match l with
  | [] => true
  | b :: l1 =>
    if Bytes.between 9 13 b || bool_decide (b = x20) then all_whitespace l1
    else match l1 with
    | c :: l2 =>
      if bool_decide (b = xc2) && (bool_decide (c = x85) || bool_decide (c = xa0)) then all_whitespace l2
      else match l2 with
      | d :: l3 =>
        (bool_decide ([b; c; d] = [xe1; x9a; x80]) ||
         (bool_decide ([b; c] = [xe2; x80]) && (Bytes.between 128 138 d || bool_decide (d ∈ [xa8; xa9; xaf]))) ||
         bool_decide ([b; c; d] = [xe2; x81; x9f]) || bool_decide ([b; c; d] = [xe3; x80; x80])) && all_whitespace l3
      | [] => false
      end
    | [] => false
    end
  end.

(** An absent value passes. *)
Definition absent_or {A} (o : option A) (f : A -> bool) : bool := match o with Some a => f a | None => true end.

Section Validate.
Context `{BrokerLibs}.

Definition validate_endpoint (o : OriginOptions) (value : str) : result string unit :=
  let '(sch, authority) := match split_scheme value with Some (x, y) => (Some x, y) | None => (None, value) end in
  if negb (absent_or sch (fun x => eq_ignore_ascii_case x (s "http") || eq_ignore_ascii_case x (s "https")))
  then Err "credential_broker origin endpoint must be HTTP(S)" else
  let authority := strip_suffix slash authority in
  if bool_decide (authority = []) || existsb blank value || existsb (fun b => bool_decide (b ∈ s "/\@?#%")) authority ||
     negb (forallb is_ascii authority)
  then Err "credential_broker origin endpoint must contain only a host and port" else
  match url_parse (s "https://" ++ authority) with
  | None => Err "invalid credential_broker origin endpoint"
  | Some u =>
    if negb (valid_host authority (host u)) then Err "invalid credential_broker origin endpoint" else
    match sch, use_ssl o with
    | Some x, Some ssl => if negb (eqb (eq_ignore_ascii_case x (s "https")) ssl)
                          then Err "credential_broker origin endpoint conflicts with use_ssl" else Ok tt
    | _, _ => Ok tt
    end
  end.

Definition origin_validate (o : OriginOptions) : result string unit :=
  _ ← match endpoint o with Some value => validate_endpoint o value | None => Ok tt end;
  if negb (absent_or (region o) (fun x => negb (all_whitespace x)) && absent_or (tls_ca_pem o) (fun x => negb (all_whitespace x)))
  then Err "credential_broker origin region and CA must not be empty" else
  if negb (absent_or (tls_min_version o) (fun x => bool_decide (x ∈ [s "1.0"; s "1.1"; s "1.2"; s "1.3"])))
  then Err "credential_broker origin TLS minimum must be 1.0, 1.1, 1.2 or 1.3" else
  if bool_decide (request_timeout_ms o = Some 0) || bool_decide (max_connections o = Some 0)
  then Err "credential_broker origin timeout and connection limit must be positive" else Ok tt.

Definition validate (c : BrokerConfig) : result string unit :=
  if negb (is_object (request c)) then Err "credential_broker request must be a JSON object" else
  _ ← match origin c with Some o => origin_validate o | None => Ok tt end;
  match url_parse (url c) with
  | None => Err "credential_broker URL must be a full HTTP(S) URL"
  | Some u =>
    if negb (bool_decide (scheme u ∈ [s "http"; s "https"])) || bool_decide (host u = None) || negb (bool_decide (username u = [])) ||
       bool_decide (is_Some (password u)) || bool_decide (is_Some (fragment u))
    then Err "credential_broker URL must be HTTP(S) without userinfo or fragment" else Ok tt
  end.

Definition validate_request (c : BrokerConfig) : result string unit :=
  _ ← validate c;
  if bool_decide ((o ← origin c; endpoint o) = None) then Err "credential_broker origin endpoint is required" else
  if bool_decide (Exists (fun csp => get_str (request c) (s "csp") = Some csp) S3_ORIGIN_REGION_CSPS) && bool_decide ((o ← origin c; region o) = None)
  then Err "credential_broker origin region is required for S3" else Ok tt.

Record ValidatedBrokerConfig := mkValidated { config : BrokerConfig; canonical_json : list byte }.

Definition try_from (c : BrokerConfig) : result string ValidatedBrokerConfig :=
  _ ← validate_request c;
  if negb (within_nesting_limit (request c) 2) then Err "credential_broker exceeds the request nesting limit" else
  match broker_to_vec c with
  | None => Err "invalid credential_broker request"
  | Some b => if (MAX_CREDENTIAL_BROKER_BYTES <? length b)%nat then Err "credential_broker exceeds the request size limit"
              else Ok (mkValidated c b)
  end.

Definition from_json (value : list byte) : result string ValidatedBrokerConfig :=
  if (MAX_CREDENTIAL_BROKER_BYTES <? length value)%nat then Err "credential_broker exceeds the request size limit" else
  match broker_from_str value with
  | None => Err "credential_broker must contain a URL and a request object"
  | Some c => try_from c
  end.

End Validate.

(** ** Theorems *)

Section Theorems.
Context `{BrokerLibs}.

Lemma try_from_inv c v : try_from c = Ok v ->
  config v = c /\ validate_request c = Ok tt /\ within_nesting_limit (request c) 2 = true /\
  broker_to_vec c = Some (canonical_json v) /\ (length (canonical_json v) <= MAX_CREDENTIAL_BROKER_BYTES)%nat.
Proof.
  unfold try_from. intros ([] & Hv & E)%bind_ok_inv. destruct (within_nesting_limit _ _) eqn:Hn; [|done]. cbn [negb] in E.
  destruct (broker_to_vec c) as [b|]; [|done]. destruct (Nat.ltb_spec MAX_CREDENTIAL_BROKER_BYTES (length b)); [done|].
  apply Ok_same in E as <-. done.
Qed.

Lemma reparsed v : try_from (config v) = Ok v -> no_floats (request (config v)) = true -> from_json (canonical_json v) = Ok v.
Proof.
  intros Hv Hf. pose proof (try_from_inv _ v Hv) as (_ & _ & Hn & Hb & Hl). unfold from_json.
  rewrite (proj2 (Nat.ltb_ge _ _)) by done. by rewrite (broker_round _ _ Hf Hn Hb).
Qed.

(** The canonical form of a credential descriptor is stable across hops: a descriptor that was accepted
    fits the wire limit, passes validation, and the bytes it is forwarded as parse to the same
    descriptor with the same bytes. *)
Theorem broker_canonical b v :
  from_json b = Ok v -> no_floats (request (config v)) = true ->
  validate_request (config v) = Ok tt /\ (length (canonical_json v) <= MAX_CREDENTIAL_BROKER_BYTES)%nat /\
  from_json (canonical_json v) = Ok v.
Proof.
  unfold from_json at 1. destruct (Nat.ltb_spec MAX_CREDENTIAL_BROKER_BYTES (length b)); [done|].
  destruct (broker_from_str b) as [c|]; [|done]. intros Hv Hf. pose proof (try_from_inv c v Hv) as (<- & Hr & _ & _ & Hl).
  splits; [done|done|by apply reparsed].
Qed.

End Theorems.

Section Demo.

Definition demo_config : BrokerConfig :=
  mkBroker (s "https://broker.example/v1") (JObject [(s "csp", JString (s "aws")); (s "ttl", JInteger 900)])
    (Some (mkOrigin (Some (s "s3.example.com:443")) (Some (s "us-east-1")) (Some true) None None (Some (s "1.2")) (Some 2000) None)).

(** A codec for this descriptor alone. *)
#[local] Instance demo_libs : BrokerLibs.
Proof.
  refine {|
    broker_from_str b := if bool_decide (b = s "{demo}") then Some demo_config else None;
    broker_to_vec c := if bool_decide (c = demo_config) then Some (s "{demo}") else None;
    url_parse u := Some (mkUrl (s "https") (Some (Domain (s "s3.example.com"))) [] None None)
  |}.
  - intros c b _ _. case_bool_decide as E; [|done]. intros [= <-]. by rewrite bool_decide_true, E.
  - intros c b. by case_bool_decide as E; intros [= <-].
Defined.

Lemma broker_canonical_witness : exists v, from_json (s "{demo}") = Ok v /\
  (validate_request (config v) = Ok tt /\ (length (canonical_json v) <= MAX_CREDENTIAL_BROKER_BYTES)%nat /\
   from_json (canonical_json v) = Ok v).
Proof.
  eexists. split; [|apply (broker_canonical (s "{demo}"))]; vm_compute; reflexivity.
Defined.

End Demo.

End Broker.
