(* ===== verification/Frame.v ===== *)
(** The wire frame of both planes (crates/talon-transport/src/frame.rs) and the bounded reader of
    incoming frames (crates/talon-transport/src/limits.rs). *)

From S2P Require Import Prelude External Bytes.

Module Frame.

Definition HEADER_LEN : nat := 16.
Definition MAGIC : Z := 21580.
Definition MAX_PAYLOAD_LEN : Z := Z.shiftl 320 20.

Inductive MsgType :=
  | Control | Get | GetRange | Put | Ping | Delete | GetCachedRange | AdmitCachedBlock | GetRangeNamespace | GetCachedRangeNamespace
  | GetVersionedRange | GetVersionedRangeNamespace | GetExactRange | GetExactRangeNamespace.

#[export] Instance MsgType_eq_dec : EqDecision MsgType.
Proof. solve_decision. Defined.

(** [msg_type as u8] *)
Definition discriminant (t : MsgType) : Z :=
  match t with
  | Control => 0 | Get => 1 | GetRange => 2 | Put => 3 | Ping => 4 | Delete => 5 | GetCachedRange => 6 | AdmitCachedBlock => 7
  | GetRangeNamespace => 8 | GetCachedRangeNamespace => 9 | GetVersionedRange => 10 | GetVersionedRangeNamespace => 11
  | GetExactRange => 12 | GetExactRangeNamespace => 13
  end.

Inductive FrameError :=
  | Truncated (n : nat)
  | BadMagic (magic : Z)
  | UnsupportedVersion (version : Z)
  | UnknownMsgType (tag : Z)
  | PayloadTooLarge (length : Z)
  | InvalidEnvelope.

Definition from_u8 (v : Z) : result FrameError MsgType :=
  match v with
  | 0 => Ok Control | 1 => Ok Get | 2 => Ok GetRange | 3 => Ok Put | 4 => Ok Ping | 5 => Ok Delete | 6 => Ok GetCachedRange
  | 7 => Ok AdmitCachedBlock | 8 => Ok GetRangeNamespace | 9 => Ok GetCachedRangeNamespace | 10 => Ok GetVersionedRange
  | 11 => Ok GetVersionedRangeNamespace | 12 => Ok GetExactRange | 13 => Ok GetExactRangeNamespace
  | other => Err (UnknownMsgType other)
  end.

Definition END_OF_STREAM : Z := 1.
Definition ERROR : Z := 2.
Definition contains (flags mask : Z) : bool := Z.land flags mask =? mask.
Definition with_ (flags mask : Z) : Z := Z.lor flags mask.

Record FrameHeader := mkHeader { version : Z; msg_type : MsgType; flags : Z; request_id : Z; length_ : Z }.

Definition new (t : MsgType) (id len : Z) : FrameHeader := mkHeader 1 t 0 id len.

Definition encode (h : FrameHeader) : list byte :=
  be_bytes 2 MAGIC ++ [byte_of (version h); byte_of (discriminant (msg_type h))] ++ be_bytes 2 (flags h) ++ [x00; x00] ++
  be_bytes 4 (request_id h) ++ be_bytes 4 (length_ h).

(** Message types that may carry a tracing envelope. *)
Definition supports_v2 (t : MsgType) : bool :=
  match t with
  | Control | GetRange | GetRangeNamespace | GetCachedRange | GetCachedRangeNamespace | GetVersionedRange
  | GetVersionedRangeNamespace | GetExactRange | GetExactRangeNamespace => true
  | Get | Put | Ping | Delete | AdmitCachedBlock => false
  end.

Definition byte_at (i : nat) (buf : list byte) : Z := byte_val (nth i buf x00).

Definition decode (buf : list byte) : result FrameError FrameHeader :=
  if (length buf <? HEADER_LEN)%nat then Err (Truncated (length buf)) else
  let magic := be_val (slice 0 2 buf) in
  if negb (magic =? MAGIC) then Err (BadMagic magic) else
  let v := byte_at 2 buf in
  if negb (v =? 1) && negb (v =? 2) && negb (v =? 3) && negb (v =? 4) then Err (UnsupportedVersion v) else
  t ← from_u8 (byte_at 3 buf);
  if (v =? 2) && negb (supports_v2 t) then Err InvalidEnvelope else
  let len := be_val (slice 12 4 buf) in
  if MAX_PAYLOAD_LEN <? len then Err (PayloadTooLarge len) else
  Ok (mkHeader v t (be_val (slice 4 2 buf)) (be_val (slice 8 4 buf)) len).

(** *** Reading *)

Definition MAX_METADATA_LEN : Z := 1024.
Definition ENVELOPE_OVERHEAD : Z := MAX_METADATA_LEN + 2.
Definition MAX_CREDENTIAL_BROKER_BYTES : Z := 16 * 1024.
Definition MAX_V4_METADATA_LEN : Z := MAX_METADATA_LEN + 3 + MAX_CREDENTIAL_BROKER_BYTES.

Definition overhead (v : Z) : Z :=
  if v =? 4 then MAX_V4_METADATA_LEN + 2 else if (v =? 2) || (v =? 3) then ENVELOPE_OVERHEAD else 0.

Definition MAX_CONTROL_PAYLOAD_LEN : Z := Z.shiftl 1 20.
Definition MAX_PING_PAYLOAD_LEN : Z := 0.

Definition max_payload_for (t : MsgType) : Z :=
  match t with
  | Control => MAX_CONTROL_PAYLOAD_LEN
  | Ping => MAX_PING_PAYLOAD_LEN
  | Get | GetRange => MAX_PAYLOAD_LEN
  | _ => MAX_CONTROL_PAYLOAD_LEN
  end.

(** [u32::saturating_add] *)
Definition saturating_add (a b : Z) : Z := Z.min (a + b) (2 ^ 32 - 1).

(** What a peer sends, and how it goes on after that: it closes the connection, sends nothing more,
    or the connection fails. *)
Inductive Ending := Closed | Stalled | Broken.
Record Stream := mkStream { incoming : list byte; ending : Ending }.

Inductive ReadFrameError :=
  | Eof
  | TooLarge (t : MsgType) (length cap : Z)
  | Header (e : FrameError)
  | Timeout
  | Io.

(** [timeout(read_exact(buf))]: [None] is [UnexpectedEof]. *)
Inductive Read := Got (bytes : list byte) (rest : Stream) | UnexpectedEof | TimedOut | ReadFailed.

Definition read_exact (n : nat) (st : Stream) : Read :=
  if (n <=? length (incoming st))%nat
  then Got (take n (incoming st)) (mkStream (drop n (incoming st)) (ending st))
  else match ending st with Closed => UnexpectedEof | Stalled => TimedOut | Broken => ReadFailed end.

(** The bytes allocated for the payload, and the outcome. *)
Definition read_frame (st : Stream) : Z * result ReadFrameError (FrameHeader * list byte * Stream) :=
  match read_exact HEADER_LEN st with
  | UnexpectedEof => (0, Err Eof)
  | ReadFailed => (0, Err Io)
  | TimedOut => (0, Err Timeout)
  | Got header_buf st =>
    match decode header_buf with
    | Err e => (0, Err (Header e))
    | Ok header =>
      let cap := saturating_add (max_payload_for (msg_type header)) (overhead (version header)) in
      if cap <? length_ header then (0, Err (TooLarge (msg_type header) (length_ header) cap)) else
      (length_ header,
       match read_exact (Z.to_nat (length_ header)) st with
       | Got payload st => Ok (header, payload, st)
       | UnexpectedEof | ReadFailed => Err Io
       | TimedOut => Err Timeout
       end)
    end
  end.

(** ** Headers *)

(** A header that the decoder accepts. *)
Record header_valid (h : FrameHeader) : Prop := {
  hv_version : 1 <= version h <= 4;
  hv_v2 : version h = 2 -> supports_v2 (msg_type h) = true;
  hv_flags : is_u16 (flags h);
  hv_id : is_u32 (request_id h);
  hv_length : 0 <= length_ h <= MAX_PAYLOAD_LEN
}.

(** The header with any bytes in the reserved field. *)
Definition encoding (h : FrameHeader) (reserved : list byte) : list byte :=
  be_bytes 2 MAGIC ++ [byte_of (version h); byte_of (discriminant (msg_type h))] ++ be_bytes 2 (flags h) ++ reserved ++
  be_bytes 4 (request_id h) ++ be_bytes 4 (length_ h).

Lemma from_u8_discriminant t : from_u8 (discriminant t) = Ok t.
Proof. by destruct t. Qed.

Lemma from_u8_inv v t : 0 <= v < 256 -> from_u8 v = Ok t -> v = discriminant t.
Proof.
  intros Hv. destruct v as [|v|v]; [by intros [= <-]| |lia]. do 4 (try destruct v as [v|v|]); cbn; intros [= <-]; done.
Qed.

Lemma length_encoding h r : length r = 2%nat -> length (encoding h r) = HEADER_LEN.
Proof. intros Hr. unfold encoding. rewrite !length_app, !length_be_bytes, Hr. done. Qed.

Lemma encode_encoding h : encode h = encoding h [x00; x00].
Proof. done. Qed.

Lemma discriminant_range t : 0 <= discriminant t < 256.
Proof. destruct t; cbn; lia. Qed.

Lemma fields m v t f r i l rest :
  length m = 2%nat -> length f = 2%nat -> length r = 2%nat -> length i = 4%nat -> length l = 4%nat ->
  let buf := (m ++ [v; t] ++ f ++ r ++ i ++ l) ++ rest in
  (length buf <? HEADER_LEN)%nat = false /\ slice 0 2 buf = m /\ byte_at 2 buf = byte_val v /\ byte_at 3 buf = byte_val t /\
  slice 4 2 buf = f /\ slice 8 4 buf = i /\ slice 12 4 buf = l.
Proof.
  intros Hm Hf Hr Hi Hl. repeat (destruct m as [|? m]; try done). repeat (destruct f as [|? f]; try done).
  repeat (destruct r as [|? r]; try done). repeat (destruct i as [|? i]; try done). repeat (destruct l as [|? l]; try done).
Qed.

Lemma split_header (buf : list byte) : (HEADER_LEN <= length buf)%nat ->
  buf = (slice 0 2 buf ++ [nth 2 buf x00; nth 3 buf x00] ++ slice 4 2 buf ++ slice 6 2 buf ++ slice 8 4 buf ++ slice 12 4 buf) ++ drop 16 buf.
Proof. intros H. unfold HEADER_LEN in H. do 16 (destruct buf as [|? buf]; [cbn in H; lia|]). done. Qed.

Lemma decode_encoding h r rest : header_valid h -> length r = 2%nat -> decode (encoding h r ++ rest) = Ok h.
Proof.
  intros [Hv H2 Hf Hi Hl] Hr. unfold encoding, decode.
  destruct (fields (be_bytes 2 MAGIC) (byte_of (version h)) (byte_of (discriminant (msg_type h))) (be_bytes 2 (flags h)) r
    (be_bytes 4 (request_id h)) (be_bytes 4 (length_ h)) rest) as (-> & -> & -> & -> & -> & -> & ->); [by rewrite ?length_be_bytes..|].
  unfold is_u, MAX_PAYLOAD_LEN in *. change (Z.shiftl 320 20) with 335544320 in *.
  rewrite !be_val_be_bytes by (unfold MAGIC; cbn; lia). pose proof (discriminant_range (msg_type h)).
  rewrite !byte_val_of, !Z.mod_small, from_u8_discriminant by lia.
  rewrite Z.eqb_refl. cbn [negb]. assert (negb (version h =? 1) && negb (version h =? 2) && negb (version h =? 3) && negb (version h =? 4) = false) as ->.
  { rewrite !andb_false_iff, !negb_false_iff, !Z.eqb_eq. lia. }
  cbn [mbind result_bind]. assert ((version h =? 2) && negb (supports_v2 (msg_type h)) = false) as ->.
  { destruct (Z.eqb_spec (version h) 2) as [E|]; [|done]. by rewrite H2. }
  rewrite (proj2 (Z.ltb_ge _ _)) by lia. by destruct h.
Qed.

Lemma decode_inv buf h : decode buf = Ok h ->
  header_valid h /\ exists r rest, length r = 2%nat /\ buf = encoding h r ++ rest.
Proof.
  unfold decode. destruct (Nat.ltb_spec (length buf) HEADER_LEN) as [|Hlen]; [done|].
  destruct (Z.eqb_spec (be_val (slice 0 2 buf)) MAGIC) as [Hm|]; [|done]. cbn [negb].
  destruct (negb (byte_at 2 buf =? 1) && _ && _ && _) eqn:Hv; [done|]. intros (t & Ht & E)%bind_ok_inv.
  destruct ((byte_at 2 buf =? 2) && negb (supports_v2 t)) eqn:H2; [done|].
  destruct (Z.ltb_spec MAX_PAYLOAD_LEN (be_val (slice 12 4 buf))) as [|Hl]; [done|]. apply Ok_same in E as <-.
  rewrite !andb_false_iff, !negb_false_iff, !Z.eqb_eq in Hv. pose proof (split_header buf Hlen) as Hs.
  assert (forall i n, (i + n <= 16)%nat -> be_bytes n (be_val (slice i n buf)) = slice i n buf) as Hbe.
  { intros i n Hin. rewrite <-(length_slice i n buf) at 1 by (unfold HEADER_LEN in *; lia). apply be_bytes_be_val. }
  assert (forall i n, (i + n <= 16)%nat -> 0 <= be_val (slice i n buf) < 256 ^ Z.of_nat n) as Hr.
  { intros i n Hin. rewrite <-(length_slice i n buf) at 3 by (unfold HEADER_LEN in *; lia). apply be_val_range. }
  split.
  - split; cbn [version msg_type flags request_id length_].
    + lia.
    + intros Hv2. rewrite Hv2 in H2. cbn [Z.eqb Pos.eqb andb] in H2. by apply negb_false_iff in H2.
    + apply Hr. lia.
    + apply Hr. lia.
    + split; [apply Hr; lia|done].
  - exists (slice 6 2 buf), (drop 16 buf). split; [apply length_slice; unfold HEADER_LEN in *; lia|].
    unfold encoding. cbn [version msg_type flags request_id length_]. rewrite !Hbe by lia. rewrite <-Hm, !Hbe by lia.
    apply from_u8_inv in Ht as <-; [|apply byte_val_range]. unfold byte_at. rewrite !byte_of_val. exact Hs.
Qed.

(** ** Reading *)

Definition cap (h : FrameHeader) : Z := max_payload_for (msg_type h) + overhead (version h).

Lemma cap_exact h : saturating_add (max_payload_for (msg_type h)) (overhead (version h)) = cap h.
Proof.
  unfold saturating_add, cap. apply Z.min_l. unfold overhead. destruct (version h =? 4), ((version h =? 2) || (version h =? 3)), (msg_type h); vm_compute; discriminate.
Qed.

Lemma read_exact_got n st b rest : read_exact n st = Got b rest <->
  incoming st = b ++ incoming rest /\ length b = n /\ ending rest = ending st.
Proof.
  unfold read_exact. destruct (Nat.leb_spec n (length (incoming st))) as [H|H].
  - split.
    + intros [= <- <-]. cbn. rewrite take_drop, length_take. splits; [done|lia|done].
    + intros (E & <- & Ee). rewrite E, take_app_length, drop_app_length. destruct rest. cbn in *. by rewrite Ee.
  - split; [by destruct (ending st)|]. intros (E & <- & _). rewrite E, length_app in H. lia.
Qed.

(** A frame that the reader accepts, at the head of the stream. *)
Definition frame_at (st : Stream) (h : FrameHeader) (payload : list byte) (rest : Stream) : Prop :=
  header_valid h /\ length_ h <= cap h /\ Z.of_nat (length payload) = length_ h /\ ending rest = ending st /\
  exists reserved, length reserved = 2%nat /\ incoming st = encoding h reserved ++ payload ++ incoming rest.

Lemma read_frame_complete st h payload rest : frame_at st h payload rest -> read_frame st = (length_ h, Ok (h, payload, rest)).
Proof.
  intros (Hv & Hc & Hp & Ee & r & Hr & E). unfold read_frame.
  assert (read_exact HEADER_LEN st = Got (encoding h r) (mkStream (payload ++ incoming rest) (ending st))) as ->.
  { apply read_exact_got. cbn. splits; [done|by apply length_encoding|done]. }
  rewrite <-(app_nil_r (encoding h r)), decode_encoding by done. rewrite cap_exact, (proj2 (Z.ltb_ge _ _)) by done.
  assert (read_exact (Z.to_nat (length_ h)) (mkStream (payload ++ incoming rest) (ending st)) = Got payload rest) as ->; [|done].
  apply read_exact_got. cbn. splits; [done|lia|done].
Qed.

(** C10: A peer cannot make the reader allocate more than the message type allows: a payload buffer is
    allocated only for a valid header, within the limit of its type and envelope version. A frame
    is returned exactly when the stream starts with one whose length is within that limit. *)
Theorem read_frame_bounded st :
  ((read_frame st).1 = 0 \/ exists h, decode (take HEADER_LEN (incoming st)) = Ok h /\ (read_frame st).1 = length_ h /\ length_ h <= cap h) /\
  forall h payload rest, (read_frame st).2 = Ok (h, payload, rest) <-> frame_at st h payload rest.
Proof.
  split.
  - unfold read_frame. destruct (read_exact HEADER_LEN st) as [b st1| | |] eqn:Er; try by left.
    apply read_exact_got in Er as (E & Hb & _). rewrite E, <-Hb, take_app_length.
    destruct (decode b) as [h|e]; [|by left]. rewrite cap_exact. destruct (Z.ltb_spec (cap h) (length_ h)); [by left|].
    right. exists h. done.
  - intros h payload rest. split.
    + unfold read_frame. destruct (read_exact HEADER_LEN st) as [b st1| | |] eqn:Er; try done.
      apply read_exact_got in Er as (E & Hb & Ee). destruct (decode b) as [h'|e] eqn:Hd; [|done]. rewrite cap_exact.
      destruct (Z.ltb_spec (cap h') (length_ h')); [done|]. cbn [snd].
      destruct (read_exact (Z.to_nat (length_ h')) st1) as [p st2| | |] eqn:Ep; try done. intros [= <- <- <-].
      apply read_exact_got in Ep as (E' & Hp & Ee'). apply decode_inv in Hd as (Hv & r & rest' & Hr & ->).
      rewrite length_app, length_encoding in Hb by done. destruct rest' as [|x rest']; [|rewrite length_cons in Hb; lia].
      unfold frame_at. splits; [done|done|pose proof (hv_length h' Hv); lia|congruence|]. exists r. split; [done|]. by rewrite E, E', app_nil_r.
    + intros Hf. by rewrite (read_frame_complete _ _ _ _ Hf).
Qed.

(** A header is accepted exactly when it is the encoding of a valid header, except that the two reserved
    bytes may be anything. *)
Theorem header_ok_iff buf h :
  decode buf = Ok h <-> header_valid h /\ exists reserved rest, length reserved = 2%nat /\ buf = encoding h reserved ++ rest.
Proof.
  split; [apply decode_inv|]. intros (Hv & r & rest & Hr & ->). by apply decode_encoding.
Qed.

(** The end of the stream in the middle of a header is reported like one between two frames. *)
Lemma partial_header_is_eof b : (length b < HEADER_LEN)%nat -> read_frame (mkStream b Closed) = (0, Err Eof).
Proof. intros H. unfold read_frame, read_exact. cbn [incoming ending]. by rewrite (proj2 (Nat.leb_gt _ _)). Qed.

End Frame.
