(* ===== verification/Envelope.v ===== *)
(** Request metadata on the wire (crates/talon-transport/src/envelope.rs): version 2 frames carry a
    trace, version 3 a required namespace, version 4 required credentials. The task-local trace,
    read identifier and credentials are arguments. *)

From S2P Require Import Prelude External Bytes Key Namespace Trace Broker Frame.

Module Envelope.
Import Key (str).
Import Broker.
Import Frame.
Import Namespace (NamespaceId, Named, effective_name, DEFAULT_NAMESPACE).

Record Metadata := mkMetadata {
  namespace : option NamespaceId;
  credential_broker : option ValidatedBrokerConfig;
  context : option Trace.TraceContext;
  read_id : option (list byte);
  detail : option Z }.

Definition Metadata_default : Metadata := mkMetadata None None None None None.

(** A panic is [None]. *)
Abbreviation Outcome A := (option (result FrameError A)).

(** The state of the loop over the fields. *)
Record Fields := mkFields { parent : option (list byte); tracestate : option (list byte); found : Metadata; seen : Z; invalid : bool }.

Definition Fields_default : Fields := mkFields None None Metadata_default 0 false.

Definition from_utf8 (b : list byte) : option (list byte) := if Bytes.utf8 b then Some b else None.

Section Decode.
Context `{BrokerLibs}.

(** Duplicate trace fields make the trace invalid. *)
Definition note_seen (key : Z) (f : Fields) : Fields :=
  if (1 <=? key) && (key <=? 4)
  then mkFields (parent f) (tracestate f) (found f) (Z.lor (seen f) (Z.shiftl 1 key))
         (invalid f || negb (Z.land (seen f) (Z.shiftl 1 key) =? 0))
  else f.

Definition set_invalid (f : Fields) : Fields := mkFields (parent f) (tracestate f) (found f) (seen f) true.

Definition set_found (f : Fields) (m : Metadata) : Fields := mkFields (parent f) (tracestate f) m (seen f) (invalid f).

Definition broker_field (known : option ValidatedBrokerConfig) (value : list byte) : result FrameError ValidatedBrokerConfig :=
  match known with
  | Some k =>
    if bool_decide (canonical_json k = value) then Ok k
    else match from_utf8 value with
         | Some json => match Broker.from_json json with Ok b => Ok b | Err _ => Err InvalidEnvelope end
         | None => Err InvalidEnvelope
         end
  | None =>
    match from_utf8 value with
    | Some json => match Broker.from_json json with Ok b => Ok b | Err _ => Err InvalidEnvelope end
    | None => Err InvalidEnvelope
    end
  end.

(** One field. *)
Definition field (v : Z) (known : option ValidatedBrokerConfig) (f : Fields) (key : Z) (value : list byte) : result FrameError Fields :=
  let f := note_seen key f in
  let m := found f in
  if key =? 1 then
    let p := from_utf8 value in
    Ok (mkFields p (tracestate f) m (seen f) (invalid f || bool_decide (p = None)))
  else if key =? 2 then Ok (mkFields (parent f) (from_utf8 value) m (seen f) (invalid f))
  else if key =? 3 then
    if (length value =? 16)%nat
    then Ok (set_found f (mkMetadata (namespace m) (credential_broker m) (context m) (Some value) (detail m)))
    else Ok (set_invalid f)
  else if key =? 4 then
    match value with
    | [b] => if byte_val b <=? 1 then Ok (set_found f (mkMetadata (namespace m) (credential_broker m) (context m) (read_id m) (Some (byte_val b))))
             else Ok (set_invalid f)
    | _ => Ok (set_invalid f)
    end
  else if (key =? 5) && (3 <=? v) then
    if bool_decide (is_Some (namespace m)) then Err InvalidEnvelope else
    match from_utf8 value with
    | None => Err InvalidEnvelope
    | Some name =>
      match Namespace.validate (Named name) with
      | Err _ => Err InvalidEnvelope
      | Ok _ => Ok (set_found f (mkMetadata (Some (Named name)) (credential_broker m) (context m) (read_id m) (detail m)))
      end
    end
  else if key =? 6 then
    if negb (v =? 4) || bool_decide (is_Some (credential_broker m)) then Err InvalidEnvelope else
    b ← broker_field known value;
    Ok (set_found f (mkMetadata (namespace m) (Some b) (context m) (read_id m) (detail m)))
  else Ok f.

(** The loop; every field takes three bytes or more. *)
Fixpoint fields_loop (fuel : nat) (v : Z) (known : option ValidatedBrokerConfig) (rest : list byte) (f : Fields) : result FrameError Fields :=
  match rest, fuel with
  | [], _ => Ok f
  | key :: n1 :: n2 :: rest, S fuel =>
    let n := Z.to_nat (be_val [n1; n2]) in
    if (length rest <? n)%nat then Err InvalidEnvelope else
    f ← field v known f (byte_val key) (take n rest);
    fields_loop fuel v known (drop n rest) f
  | _, _ => Err InvalidEnvelope
  end.

Definition max_metadata (v : Z) : Z := if v =? 4 then MAX_V4_METADATA_LEN else MAX_METADATA_LEN.

(** The metadata that the fields amount to. *)
Definition finish (v : Z) (f : Fields) : result FrameError Metadata :=
  let m := found f in
  if (v =? 3) && bool_decide (namespace m = None) then Err InvalidEnvelope else
  if (v =? 4) && negb (bool_decide (is_Some (credential_broker m))) then Err InvalidEnvelope else
  if invalid f then Ok (mkMetadata (namespace m) (credential_broker m) None None None) else
  let c := p ← parent f; Trace.from_w3c p (tracestate f) in
  Ok (mkMetadata (namespace m) (credential_broker m) c (match c with Some _ => read_id m | None => None end) (detail m)).

Definition decode_with_broker (h : FrameHeader) (payload : list byte) (known : option ValidatedBrokerConfig) :
    result FrameError (Metadata * list byte) :=
  if negb (Z.of_nat (length payload) =? length_ h) then Err InvalidEnvelope else
  if version h =? 1 then Ok (Metadata_default, payload) else
  if ((version h =? 2) && negb (supports_v2 (msg_type h))) || (length payload <? 2)%nat then Err InvalidEnvelope else
  let len := be_val (take 2 payload) in
  if (max_metadata (version h) <? len) || (Z.of_nat (length payload) <? len + 2) then Err InvalidEnvelope else
  let business := drop (2 + Z.to_nat len) payload in
  if max_payload_for (msg_type h) <? Z.of_nat (length business) then Err InvalidEnvelope else
  f ← fields_loop (Z.to_nat len) (version h) known (slice 2 (Z.to_nat len) payload) Fields_default;
  m ← finish (version h) f;
  Ok (m, business).

Definition decode (h : FrameHeader) (payload : list byte) : result FrameError (Metadata * list byte) :=
  decode_with_broker h payload None.

End Decode.

(** *** Writing *)

(** [push] into the 1024-byte buffer. *)
Definition push (key : Z) (value metadata : list byte) : option (list byte) :=
  if (1024 <? length metadata + 3 + length value)%nat then None
  else Some (metadata ++ byte_of key :: be_bytes 2 (wrap 16 (Z.of_nat (length value))) ++ value).

Definition trace_metadata (c : option Trace.TraceContext) (id : option (list byte)) : option (list byte) :=
  match c with
  | None => Some []
  | Some c =>
    b ← push 1 (Trace.parent c) [];
    b ← (if bool_decide (Trace.state c = []) then Some b else push 2 (Trace.state c) b);
    match id with Some id => push 3 id b | None => Some b end
  end.

Definition with_length (h : FrameHeader) (v len : Z) : FrameHeader := mkHeader v (msg_type h) (flags h) (request_id h) len.

Definition encode (frame : list byte) (c : option Trace.TraceContext) (id : option (list byte)) : Outcome (list byte) :=
  match Frame.decode frame with
  | Err e => Some (Err e)
  | Ok h =>
    if negb (version h =? 1) || negb (supports_v2 (msg_type h)) || negb (Z.of_nat (length frame) =? 16 + length_ h)
    then Some (Err InvalidEnvelope) else
    metadata ← trace_metadata c id;
    let len := length metadata in
    if 2 ^ 32 <=? length_ h + 2 + Z.of_nat len then Some (Err InvalidEnvelope) else
    Some (Ok (Frame.encode (with_length h 2 (length_ h + 2 + Z.of_nat len)) ++
              be_bytes 2 (wrap 16 (Z.of_nat len)) ++ metadata ++ drop HEADER_LEN frame))
  end.

Definition append_metadata (frame : list byte) (h : FrameHeader) (old_metadata : Z) (key : Z) (value : list byte) (v : Z) :
    result FrameError (list byte) :=
  let new_metadata := old_metadata + 3 + Z.of_nat (length value) in
  if overhead v <? new_metadata + 2 then Err InvalidEnvelope else
  let prefix := if version h =? 1 then 2 else 0 in
  let added := prefix + 3 + Z.of_nat (length value) in
  let insertion := Z.to_nat (16 + if 2 <=? version h then 2 + old_metadata else 0) in
  let frame := Frame.encode (with_length h v (length_ h + added)) ++ be_bytes 2 (wrap 16 new_metadata) ++
    slice 18 (Z.to_nat old_metadata) frame ++ byte_of key :: be_bytes 2 (wrap 16 (Z.of_nat (length value))) ++ value ++ drop insertion frame in
  Ok frame.

Section Outbound.
Context `{BrokerLibs}.

Definition old_metadata_len (h : FrameHeader) (frame : list byte) : Z := if 2 <=? version h then be_val (slice 16 2 frame) else 0.

(** [namespace] is a validated name. *)
Definition encode_namespace_context_with_broker (frame : list byte) (name : str) (broker : option ValidatedBrokerConfig) :
    result FrameError (list byte) :=
  h ← Frame.decode frame;
  if negb (Z.of_nat (length frame) =? 16 + length_ h) then Err InvalidEnvelope else
  existing ← (if 2 <=? version h
    then '(m, _) ← decode_with_broker h (drop HEADER_LEN frame) broker; Ok (namespace m)
    else Ok None);
  match existing with
  | Some e => if bool_decide (effective_name e = name) then Ok frame else Err InvalidEnvelope
  | None => append_metadata frame h (old_metadata_len h frame) 5 name (if version h =? 4 then 4 else 3)
  end.

Definition encode_validated_credential_broker (frame : list byte) (broker : ValidatedBrokerConfig) : result FrameError (list byte) :=
  h ← Frame.decode frame;
  if negb (Z.of_nat (length frame) =? 16 + length_ h) then Err InvalidEnvelope else
  if version h =? 4 then
    '(m, _) ← decode_with_broker h (drop HEADER_LEN frame) (Some broker);
    if bool_decide (config <$> credential_broker m = Some (config broker)) then Ok frame else Err InvalidEnvelope
  else
    _ ← (if 2 <=? version h then '(m, b) ← decode_with_broker h (drop HEADER_LEN frame) (Some broker); Ok tt else Ok tt);
    append_metadata frame h (old_metadata_len h frame) 6 (canonical_json broker) 4.

(** The ambient state of a request: whether the peer takes version 2 frames, and the credentials,
    trace and read identifier of the current task. *)
Record Ambient := mkAmbient {
  trace_enabled : bool;
  current_broker : option ValidatedBrokerConfig;
  current_carrier : option Trace.TraceContext;
  current_read_id : option (list byte) }.

(** The carrier of an earlier attempt is taken off again. *)
Definition strip (frame : list byte) (h : FrameHeader) (broker : option ValidatedBrokerConfig) :
    result FrameError (list byte * FrameHeader * option NamespaceId * option ValidatedBrokerConfig) :=
  if (2 <=? version h) && (version h <=? 4) then
    '(m, business) ← decode_with_broker h (drop HEADER_LEN frame) broker;
    _ ← match broker, credential_broker m with
        | Some current, Some encoded => if bool_decide (config current = config encoded) then Ok tt else Err InvalidEnvelope
        | _, _ => Ok tt
        end;
    let h := with_length h 1 (wrap 32 (Z.of_nat (length business))) in
    Ok (Frame.encode h ++ business, h, namespace m, match broker with Some b => Some b | None => credential_broker m end)
  else Ok (frame, h, None, broker).

Definition then_ok {A B} (r : Outcome A) (f : A -> Outcome B) : Outcome B :=
  match r with Some (Ok a) => f a | Some (Err e) => Some (Err e) | None => None end.

Definition prepare_outbound (env : Ambient) (frame : list byte) : Outcome (list byte * option ValidatedBrokerConfig) :=
  let broker := current_broker env in
  match Frame.decode frame with
  | Err e => Some (Err e)
  | Ok h =>
    let plain := negb (bool_decide (is_Some broker)) && negb (version h =? 4) in
    if negb (trace_enabled env) && plain then Some (Ok (frame, broker)) else
    if negb (supports_v2 (msg_type h)) && plain then Some (Ok (frame, broker)) else
    then_ok (Some (strip frame h broker)) (fun '(frame, h, ns, broker) =>
    then_ok (if trace_enabled env && supports_v2 (msg_type h)
             then match current_carrier env with Some c => encode frame (Some c) (current_read_id env) | None => Some (Ok frame) end
             else Some (Ok frame)) (fun frame =>
    then_ok (Some (match ns with
                   | Some ns =>
                     match Namespace.context ns with
                     | Ok name => encode_namespace_context_with_broker frame name broker
                     | Err _ => Err InvalidEnvelope
                     end
                   | None => Ok frame
                   end)) (fun frame =>
    then_ok (Some (match broker with
                   | Some b => encode_validated_credential_broker frame b
                   | None => Ok frame
                   end)) (fun frame => Some (Ok (frame, broker))))))
  end.

Definition outbound (env : Ambient) (frame : list byte) : Outcome (list byte) :=
  then_ok (prepare_outbound env frame) (fun '(frame, _) => Some (Ok frame)).

Definition outbound_namespace_context (env : Ambient) (frame : list byte) (name : str) : Outcome (list byte) :=
  then_ok (prepare_outbound env frame) (fun '(frame, broker) =>
  if bool_decide (name = DEFAULT_NAMESPACE) then Some (Ok frame)
  else Some (encode_namespace_context_with_broker frame name broker)).

Definition outbound_namespace (env : Ambient) (frame : list byte) (ns : NamespaceId) : Outcome (list byte) :=
  match Namespace.context ns with
  | Ok name => outbound_namespace_context env frame name
  | Err _ => Some (Err InvalidEnvelope)
  end.

(** Set a response's version without touching the payload. *)
Definition response_version (frame : list byte) (v : Z) : list byte := <[2%nat := byte_of v]> frame.

End Outbound.

(** ** Fields *)

Definition tlv (e : Z * list byte) : list byte := byte_of e.1 :: be_bytes 2 (Z.of_nat (length e.2)) ++ e.2.
Definition tlvs (l : list (Z * list byte)) : list byte := concat (tlv <$> l).
Definition tlv_ok (e : Z * list byte) : Prop := 0 <= e.1 < 256 /\ (Z.of_nat (length e.2) < 65536).

Section Fields.
Context `{BrokerLibs}.

Fixpoint fold_fields (v : Z) (known : option ValidatedBrokerConfig) (l : list (Z * list byte)) (f : Fields) : result FrameError Fields :=
  match l with
  | [] => Ok f
  | e :: l => f ← field v known f e.1 e.2; fold_fields v known l f
  end.

Lemma fold_fields_app v known l k f : fold_fields v known (l ++ k) f = (f ← fold_fields v known l f; fold_fields v known k f).
Proof. revert f. induction l as [|e l IH]; intros f; cbn; [done|]. destruct (field v known f e.1 e.2); cbn; [apply IH|done]. Qed.

Lemma tlvs_app l k : tlvs (l ++ k) = tlvs l ++ tlvs k.
Proof. unfold tlvs. by rewrite fmap_app, concat_app. Qed.

Lemma length_tlv e : length (tlv e) = (3 + length e.2)%nat.
Proof. unfold tlv. cbn [length]. by rewrite length_app, length_be_bytes. Qed.

Lemma fields_loop_ok fuel v known l f : Forall tlv_ok l -> (length (tlvs l) <= fuel)%nat ->
  fields_loop fuel v known (tlvs l) f = fold_fields v known l f.
Proof.
  intros Hl. revert fuel f. induction Hl as [|[k x] l [Hk Hx] _ IH]; intros fuel f Hf; [by destruct fuel|].
  unfold tlvs in *. rewrite fmap_cons, concat_cons, length_app, length_tlv in *. cbn [fst snd] in *.
  destruct fuel as [|fuel]; [lia|]. unfold tlv. cbn [fst snd]. pose proof (length_be_bytes 2 (Z.of_nat (length x))) as Hb.
  destruct (be_bytes 2 _) as [|b1 [|b2 [|]]] eqn:E; try done. cbn [app]. cbn [fields_loop fold_fields fst snd].
  rewrite <-E, be_val_be_bytes, Nat2Z.id by (cbn; lia).
  rewrite (proj2 (Nat.ltb_ge _ _)) by (rewrite length_app; lia). rewrite take_app_length, drop_app_length, byte_val_of, Z.mod_small by lia.
  destruct (field v known f k x); [|done]. cbn [mbind result_bind]. apply IH. lia.
Qed.

(** What a receiver makes of the fields. *)
Definition meaning (v : Z) (l : list (Z * list byte)) : result FrameError Metadata :=
  f ← fold_fields v None l Fields_default; finish v f.

(** The payload of a frame with these fields. *)
Definition payload (v : Z) (l : list (Z * list byte)) (business : list byte) : list byte :=
  if v =? 1 then business else be_bytes 2 (Z.of_nat (length (tlvs l))) ++ tlvs l ++ business.

Lemma decode_payload h l b : header_valid h -> version h <> 1 -> Forall tlv_ok l -> Z.of_nat (length (tlvs l)) <= max_metadata (version h) ->
  Z.of_nat (length b) <= max_payload_for (msg_type h) -> length_ h = Z.of_nat (length (payload (version h) l b)) ->
  decode h (payload (version h) l b) = (m ← meaning (version h) l; Ok (m, b)).
Proof.
  intros Hv H1 Hl Hm Hb Hlen. unfold decode, decode_with_broker. rewrite Hlen, Z.eqb_refl. cbn [negb].
  unfold payload in *. rewrite (proj2 (Z.eqb_neq (version h) 1)) in * by done.
  assert ((version h =? 2) && negb (supports_v2 (msg_type h)) = false) as ->.
  { destruct (Z.eqb_spec (version h) 2) as [E|]; [|done]. by rewrite (hv_v2 h Hv E). }
  assert (max_metadata (version h) < 65536) as Hmax by (unfold max_metadata; destruct (version h =? 4); vm_compute; reflexivity).
  pose proof (be_val_be_bytes 2 (Z.of_nat (length (tlvs l))) ltac:(cbn; lia)) as Hbe. pose proof (length_be_bytes 2 (Z.of_nat (length (tlvs l)))) as Hlb.
  destruct (be_bytes 2 _) as [|b1 [|b2 [|]]]; try done. cbn [app length Nat.ltb Nat.leb orb firstn skipn Nat.add]. rewrite take_0, Hbe, Nat2Z.id.
  rewrite (proj2 (Z.ltb_ge _ _)) by done. cbn [orb]. rewrite (proj2 (Z.ltb_ge _ (_ + 2))) by (rewrite length_app; lia).
  unfold slice. cbn [skipn]. rewrite (drop_0 (tlvs l ++ b)), take_app_length, drop_app_length, (proj2 (Z.ltb_ge _ _)) by done.
  rewrite fields_loop_ok by done. unfold meaning. destruct (fold_fields _ _ _ _); [|done]. cbn [mbind result_bind]. by destruct (finish _ _).
Qed.

End Fields.

End Envelope.
