(* ===== verification/EnvelopeSpec.v ===== *)
(** What a request carries survives its envelope: whatever a task has attached, and on every retry, the
    receiver decodes the same trace, namespace and credentials, and the payload byte for byte. *)

From S2P Require Import Prelude External Bytes Key Namespace Trace Broker Frame Envelope.

Module EnvelopeSpec.
Import Key (str).
Import Broker.
Import Frame.
Import Namespace (NamespaceId, Named, effective_name, DEFAULT_NAMESPACE).
Import Envelope.

Section Spec.
Context `{BrokerLibs}.

(** A descriptor whose canonical bytes parse to itself. *)
Definition good_broker (k : ValidatedBrokerConfig) : Prop :=
  Broker.from_json (canonical_json k) = Ok k /\ Bytes.utf8 (canonical_json k) = true /\
  Z.of_nat (length (canonical_json k)) <= Frame.MAX_CREDENTIAL_BROKER_BYTES.

Lemma accepted_good_broker k : try_from (config k) = Ok k -> no_floats (request (config k)) = true -> good_broker k.
Proof.
  intros Hk Hf. pose proof (try_from_inv _ k Hk) as (_ & _ & _ & Hb & Hl).
  split; [by apply reparsed|]. split; [by eapply broker_utf8|]. unfold Broker.MAX_CREDENTIAL_BROKER_BYTES in Hl. unfold Frame.MAX_CREDENTIAL_BROKER_BYTES. lia.
Qed.

Definition good_known (known : option ValidatedBrokerConfig) : Prop := forall k, known = Some k -> good_broker k.

(** With such a descriptor at hand, comparing bytes first changes nothing. *)
Lemma broker_field_known known value : good_known known -> broker_field known value = broker_field None value.
Proof.
  destruct known as [k|]; [|done]. intros Hk. destruct (Hk k eq_refl) as (Hj & Hu & _). cbn [broker_field].
  case_bool_decide as E; [|done]. unfold from_utf8. by rewrite <-E, Hu, Hj.
Qed.

Lemma fields_loop_known known fuel v rest f : good_known known -> fields_loop fuel v known rest f = fields_loop fuel v None rest f.
Proof.
  intros Hk. revert rest f. induction fuel as [|fuel IH]; intros [|key [|n1 [|n2 rest]]] f; try done. cbn [fields_loop].
  destruct (_ <? _)%nat; [done|].
  assert (forall key value, field v known f key value = field v None f key value) as ->
    by (intros; unfold field; by rewrite broker_field_known).
  destruct (field v None f _ _); [|done]. cbn [mbind result_bind]. apply IH.
Qed.

Lemma decode_known known h p : good_known known -> decode_with_broker h p known = decode h p.
Proof. intros Hk. unfold decode, decode_with_broker. by rewrite fields_loop_known. Qed.

(** *** What a frame carries *)

Abbreviation Traced := (option (Trace.TraceContext * option (list byte))).

Definition trace_tlvs (t : Traced) : list (Z * list byte) :=
  match t with
  | None => []
  | Some (c, id) => (1, Trace.parent c) :: (if bool_decide (Trace.state c = []) then [] else [(2, Trace.state c)]) ++
                    match id with Some id => [(3, id)] | None => [] end
  end.

Definition ns_tlvs (n : option str) : list (Z * list byte) := match n with Some n => [(5, n)] | None => [] end.
Definition broker_tlvs (k : option ValidatedBrokerConfig) : list (Z * list byte) :=
  match k with Some k => [(6, canonical_json k)] | None => [] end.

Definition wire_version (t : Traced) (n : option str) (k : option ValidatedBrokerConfig) : Z :=
  match k, n, t with Some _, _, _ => 4 | None, Some _, _ => 3 | None, None, Some _ => 2 | None, None, None => 1 end.

Definition good_trace (t : Traced) : Prop :=
  forall c id, t = Some (c, id) -> Trace.wf c /\ Bytes.utf8 (Trace.state c) = true /\ forall i, id = Some i -> length i = 16%nat.

Definition good_name (n : str) : Prop := Namespace.NamespaceContext_new n = Ok n.

(** The fields, in the order in which they were attached. *)
Definition attached (t : Traced) (n : option str) (k : option ValidatedBrokerConfig) (l : list (Z * list byte)) : Prop :=
  l = trace_tlvs t ++ ns_tlvs n ++ broker_tlvs k \/ l = trace_tlvs t ++ broker_tlvs k ++ ns_tlvs n.

(** A payload that leaves room for every envelope. *)
Definition small (t : MsgType) (b : list byte) : Prop :=
  Z.of_nat (length b) <= max_payload_for t /\ Z.of_nat (length b) + overhead 4 <= MAX_PAYLOAD_LEN.

Record carries (frame : list byte) (h : FrameHeader) (t : Traced) (n : option str) (k : option ValidatedBrokerConfig) (b : list byte) : Prop := {
  c_header : header_valid h;
  c_version : version h = wire_version t n k;
  c_supports : is_Some t -> supports_v2 (msg_type h) = true;
  c_trace : good_trace t;
  c_name : forall name, n = Some name -> good_name name;
  c_broker : good_known k;
  c_small : small (msg_type h) b;
  c_frame : exists l, attached t n k l /\ frame = Frame.encode h ++ payload (version h) l b /\
    length_ h = Z.of_nat (length (payload (version h) l b))
}.

(** The metadata that the receiver sees. *)
Definition metadata (t : Traced) (n : option str) (k : option ValidatedBrokerConfig) : Metadata :=
  mkMetadata (Named <$> n) k (fst <$> t) (t ← t; t.2) None.

(** *** The receiver's view *)

Lemma name_utf8 n : good_name n -> Bytes.utf8 n = true /\ (length n <= 255)%nat /\ Namespace.validate (Named n) = Ok tt.
Proof.
  intros Hn. unfold Namespace.validate, Namespace.context. change (effective_name (Named n)) with n. unfold good_name in Hn. rewrite Hn.
  unfold Namespace.NamespaceContext_new in Hn. case_bool_decide; [done|].
  destruct (Z.ltb_spec Namespace.MAX_NAMESPACE_ID_BYTES (Z.of_nat (length n))) as [|Hl]; [done|]. case_bool_decide; [done|].
  destruct (bool_decide (n = Key.s ".") || bool_decide (n = Key.s "..")); [done|]. destruct (forallb Namespace.name_byte n) eqn:Hb; [|done].
  unfold Namespace.MAX_NAMESPACE_ID_BYTES in Hl. splits; [|lia|done]. apply Trace.ascii_utf8, Forall_forall. intros b Hin.
  rewrite forallb_forall in Hb. apply list_elem_of_In in Hin. specialize (Hb b Hin). unfold Namespace.name_byte, Namespace.is_ascii_alphanumeric in Hb.
  rewrite !orb_true_iff, !andb_true_iff, !Z.leb_le, bool_decide_eq_true in Hb. destruct Hb as [Hb|Hb]; [lia|].
  repeat (apply elem_of_cons in Hb as [->|Hb]; [vm_compute; discriminate|]). by apply elem_of_nil in Hb.
Qed.

(** The fields that the trace amounts to. *)
Definition trace_fields (t : Traced) (n : option NamespaceId) (k : option ValidatedBrokerConfig) : Fields :=
  match t with
  | None => mkFields None None (mkMetadata n k None None None) 0 false
  | Some (c, id) =>
    mkFields (Some (Trace.parent c)) (Trace.carried c) (mkMetadata n k None id None)
      (2 + (if bool_decide (Trace.state c = []) then 0 else 4) + match id with Some _ => 8 | None => 0 end) false
  end.

Lemma fold_trace v t : good_trace t -> fold_fields v None (trace_tlvs t) Fields_default = Ok (trace_fields t None None).
Proof.
  destruct t as [[c id]|]; [|done]. intros Ht. destruct (Ht c id eq_refl) as (Hw & Hu & Hid). unfold trace_tlvs, trace_fields, Trace.carried.
  assert (from_utf8 (Trace.parent c) = Some (Trace.parent c)) as Hp by (unfold from_utf8; by rewrite Trace.parent_utf8).
  assert (from_utf8 (Trace.state c) = Some (Trace.state c)) as Hs by (unfold from_utf8; by rewrite Hu).
  assert (forall i, id = Some i -> (length i =? 16)%nat = true) as Hi by (intros i E; by rewrite (Hid i E)).
  case_bool_decide; destruct id as [i|]; cbn -[from_utf8 Nat.eqb length]; rewrite ?Hp, ?Hs, ?(Hi i) by done; cbn -[from_utf8]; rewrite ?bool_decide_false by done; done.
Qed.

Lemma field_name v t k name : good_name name -> 3 <= v ->
  field v None (trace_fields t None k) 5 name = Ok (trace_fields t (Some (Named name)) k).
Proof.
  intros Hn Hv. destruct (name_utf8 name Hn) as (Hu & _ & Hval).
  assert (from_utf8 name = Some name) as Hf by (unfold from_utf8; by rewrite Hu).
  unfold field. cbn [Z.eqb Pos.eqb note_seen Z.leb Z.compare Pos.compare Pos.compare_cont andb]. rewrite (proj2 (Z.leb_le 3 v)) by done.
  cbn [andb]. destruct t as [[c id]|]; cbn [trace_fields note_seen found namespace]; rewrite Hf; cbn -[Namespace.validate]; rewrite Hval; done.
Qed.

Lemma field_broker t n k : good_broker k -> field 4 None (trace_fields t n None) 6 (canonical_json k) = Ok (trace_fields t n (Some k)).
Proof.
  intros (Hj & Hu & _). unfold field. cbn [broker_field]. assert (from_utf8 (canonical_json k) = Some (canonical_json k)) as Hf by (unfold from_utf8; by rewrite Hu).
  rewrite Hf, Hj. by destruct t as [[c id]|].
Qed.

Lemma finish_trace v t n k : good_trace t -> (v = 3 -> is_Some n) -> (v = 4 -> is_Some k) ->
  finish v (trace_fields t n k) = Ok (mkMetadata n k (fst <$> t) (t ← t; t.2) None).
Proof.
  intros Ht H3 H4. unfold finish. assert ((v =? 3) && bool_decide (namespace (found (trace_fields t n k)) = None) = false) as ->.
  { destruct (Z.eqb_spec v 3) as [E|]; [|done]. destruct (H3 E) as [x ->]. by destruct t as [[c id]|]. }
  assert ((v =? 4) && negb (bool_decide (is_Some (credential_broker (found (trace_fields t n k))))) = false) as ->.
  { destruct (Z.eqb_spec v 4) as [E|]; [|done]. destruct (H4 E) as [x ->]. by destruct t as [[c id]|]. }
  destruct t as [[c id]|]; cbn [trace_fields invalid found namespace credential_broker parent tracestate mbind option_bind read_id detail]; [|done].
  destruct (Ht c id eq_refl) as (Hw & _ & _). rewrite Trace.carried_again by done. done.
Qed.

Lemma meaning_attached t n k l : good_trace t -> (forall name, n = Some name -> good_name name) -> good_known k ->
  attached t n k l -> wire_version t n k <> 1 -> meaning (wire_version t n k) l = Ok (metadata t n k).
Proof.
  intros Ht Hn Hk Hl H1. unfold meaning, metadata.
  assert (fold_fields (wire_version t n k) None l Fields_default = Ok (trace_fields t (Named <$> n) k)) as ->.
  { destruct Hl as [->| ->]; rewrite fold_fields_app, (fold_trace _ t Ht); cbn [mbind result_bind];
      destruct n as [name|], k as [k|]; cbn [ns_tlvs broker_tlvs app fold_fields fst snd wire_version fmap option_fmap option_map];
      rewrite ?field_name by (lia || by apply Hn); cbn [mbind result_bind]; rewrite ?field_broker by (by apply Hk); cbn [mbind result_bind];
      rewrite ?field_name by (lia || by apply Hn); done. }
  apply finish_trace; [done|by destruct n, k, t|by destruct n, k, t].
Qed.

Lemma trace_sizes t : good_trace t -> Forall tlv_ok (trace_tlvs t) /\ (length (tlvs (trace_tlvs t)) <= 592)%nat.
Proof.
  destruct t as [[c id]|]; [|cbn; intros; split; [constructor|lia]]. intros Ht. destruct (Ht c id eq_refl) as ((_ & Hp & _ & Hs) & _ & Hid).
  assert (length (Trace.state c) <= 512)%nat as Hsl.
  { destruct Hs as [->|Hs]; [cbn; lia|]. unfold Trace.valid_state in Hs.
    destruct (bool_decide _); [done|]. cbn [orb] in Hs. destruct (Nat.ltb_spec 512 (length (Trace.state c))); [done|lia]. }
  assert (forall i, id = Some i -> length i = 16%nat) as Hi by done. unfold trace_tlvs, tlvs.
  case_bool_decide; destruct id as [i|]; cbn [app fmap list_fmap concat]; rewrite ?length_app, ?length_tlv; cbn [snd length];
    rewrite ?Hp, ?(Hi i) by done; (split; [repeat constructor; cbn [fst snd]; rewrite ?Hp, ?(Hi i) by done; lia|lia]).
Qed.

Lemma attached_sizes t n k l : good_trace t -> (forall name, n = Some name -> good_name name) -> good_known k -> attached t n k l ->
  Forall tlv_ok l /\ Z.of_nat (length (tlvs l)) <=
    592 + (match n with Some n => 3 + Z.of_nat (length n) | None => 0 end) + (match k with Some k => 3 + Z.of_nat (length (canonical_json k)) | None => 0 end).
Proof.
  intros Ht Hn Hk Hl. destruct (trace_sizes t Ht) as [Ho Hs].
  assert (Forall tlv_ok (ns_tlvs n) /\ Z.of_nat (length (tlvs (ns_tlvs n))) = match n with Some n => 3 + Z.of_nat (length n) | None => 0 end) as [Hon Hsn].
  { destruct n as [n|]; [|done]. destruct (name_utf8 n (Hn n eq_refl)) as (_ & Hl' & _). unfold tlvs, ns_tlvs. cbn [fmap list_fmap concat].
    rewrite app_nil_r, length_tlv. cbn [snd]. split; [|lia]. constructor; [|constructor]. split; cbn; lia. }
  assert (Forall tlv_ok (broker_tlvs k) /\ Z.of_nat (length (tlvs (broker_tlvs k))) = match k with Some k => 3 + Z.of_nat (length (canonical_json k)) | None => 0 end) as [Hok Hsk].
  { destruct k as [k|]; [|done]. destruct (Hk k eq_refl) as (_ & _ & Hl'). unfold tlvs, broker_tlvs, Frame.MAX_CREDENTIAL_BROKER_BYTES in *.
    cbn [fmap list_fmap concat]. rewrite app_nil_r, length_tlv. cbn [snd]. split; [|lia]. constructor; [|constructor]. split; cbn; lia. }
  destruct Hl as [->| ->]; rewrite !Forall_app, !tlvs_app, !length_app; (split; [done|lia]).
Qed.

(** The metadata always fits. *)
Lemma attached_fit t n k l : good_trace t -> (forall name, n = Some name -> good_name name) -> good_known k -> attached t n k l ->
  Forall tlv_ok l /\ Z.of_nat (length (tlvs l)) <= max_metadata (wire_version t n k).
Proof.
  intros Ht Hn Hk Hl. destruct (attached_sizes t n k l Ht Hn Hk Hl) as [Ho Hs]. split; [done|]. etransitivity; [exact Hs|].
  assert (match n with Some n => 3 + Z.of_nat (length n) | None => 0 end <= 258).
  { destruct n as [n|]; [|lia]. destruct (name_utf8 n (Hn n eq_refl)) as (_ & ? & _). lia. }
  destruct k as [k|]; [|destruct n as [n|], t; unfold max_metadata, MAX_METADATA_LEN; cbn; lia].
  destruct (Hk k eq_refl) as (_ & _ & ?). unfold max_metadata, MAX_V4_METADATA_LEN, MAX_METADATA_LEN, Frame.MAX_CREDENTIAL_BROKER_BYTES in *. cbn [wire_version Z.eqb Pos.eqb]. lia.
Qed.

(** A receiver decodes what a frame carries. *)
Lemma carried_decodes frame h t n k b : carries frame h t n k b ->
  Frame.decode frame = Ok h /\ Z.of_nat (length frame) = 16 + length_ h /\ decode h (drop HEADER_LEN frame) = Ok (metadata t n k, b).
Proof.
  intros [Hh Hv Hsup Ht Hn Hk [Hs1 Hs2] (l & Hl & -> & Hlen)]. rewrite encode_encoding.
  assert (length (encoding h [x00; x00]) = HEADER_LEN) as Hel by by apply length_encoding.
  splits; [by apply decode_encoding|rewrite length_app, Hel, Hlen; unfold HEADER_LEN; lia|].
  rewrite <-Hel, drop_app_length. destruct (attached_fit t n k l Ht Hn Hk Hl) as [Ho Hfit].
  destruct (Z.eq_dec (version h) 1) as [E1|Hne].
  - rewrite Hv in E1. destruct k, n, t; try done. unfold decode, decode_with_broker, payload in *. rewrite Hv in *. cbn [wire_version Z.eqb Pos.eqb] in *.
    by rewrite Hlen, Z.eqb_refl.
  - rewrite decode_payload by (done || congruence). rewrite Hv, meaning_attached; [done|done|done|done|done|congruence].
Qed.

(** *** The steps of sending *)

Lemma overhead_metadata v : v = 2 \/ v = 3 \/ v = 4 -> overhead v = max_metadata v + 2.
Proof. by intros [->|[->| ->]]. Qed.

Lemma wire_version_range t n k : 1 <= wire_version t n k <= 4.
Proof. destruct k, n, t; cbn; lia. Qed.

Lemma metadata_overhead v : max_metadata v + 2 <= overhead 4.
Proof. unfold max_metadata. destruct (v =? 4); vm_compute; discriminate. Qed.

Lemma metadata_cap v : 2 <= v <= 4 -> max_metadata v + 2 <= overhead v.
Proof. intros ?. assert (v = 2 \/ v = 3 \/ v = 4) as [->|[->| ->]] by lia; vm_compute; discriminate. Qed.

(** The reader of the socket returns a frame that carries a request: it is within the cap of its type and version. *)
Lemma carried_reads frame h t n k b rest e : carries frame h t n k b ->
  frame = Frame.encode h ++ drop HEADER_LEN frame /\
  read_frame (mkStream (frame ++ rest) e) = (length_ h, Ok (h, drop HEADER_LEN frame, mkStream rest e)).
Proof.
  intros [Hh Hv _ Ht Hn Hk [Hs1 _] (l & Hl & -> & Hlen)]. rewrite encode_encoding.
  assert (length (encoding h [x00; x00]) = HEADER_LEN) as Hel by by apply length_encoding.
  rewrite <-Hel, drop_app_length. split; [done|]. apply read_frame_complete. unfold frame_at. splits; [done| |by rewrite Hlen|done|].
  - rewrite Hlen. destruct (attached_fit t n k l Ht Hn Hk Hl) as [_ Hfit]. rewrite <-Hv in Hfit. unfold cap, payload.
    pose proof (metadata_cap (version h)). pose proof (hv_version h Hh). destruct (Z.eqb_spec (version h) 1) as [E|]; [rewrite E; cbn; lia|].
    rewrite !length_app, length_be_bytes. lia.
  - exists [x00; x00]. split; [done|]. cbn [incoming]. by rewrite app_assoc.
Qed.

(** Any header of the request, with these fields. *)
Lemma carries_intro h t n k l b : header_valid h -> (is_Some t -> supports_v2 (msg_type h) = true) -> good_trace t ->
  (forall name, n = Some name -> good_name name) -> good_known k -> small (msg_type h) b -> attached t n k l ->
  let h' := with_length h (wire_version t n k) (Z.of_nat (length (payload (wire_version t n k) l b))) in
  carries (Frame.encode h' ++ payload (wire_version t n k) l b) h' t n k b.
Proof.
  intros [V1 V2 V3 V4 V5] Hsup Ht Hn Hk Hs Hl h'. destruct (attached_fit t n k l Ht Hn Hk Hl) as [Ho Hfit]. destruct Hs as [Hs1 Hs2].
  assert (Z.of_nat (length (payload (wire_version t n k) l b)) <= MAX_PAYLOAD_LEN) as Hp.
  { unfold payload. destruct (wire_version t n k =? 1); [pose proof (metadata_overhead 4) as Ho4; change (overhead 4) with 17413 in *; lia|].
    rewrite !length_app, length_be_bytes. pose proof (metadata_overhead (wire_version t n k)). lia. }
  split; try done; [|by exists l].
  split; cbn [version msg_type flags request_id length_ h' with_length]; try done; [apply wire_version_range| |lia].
  intros E. apply Hsup. destruct k, n, t; try done; cbn in E; lia.
Qed.

Definition same_request (h h' : FrameHeader) : Prop :=
  msg_type h' = msg_type h /\ flags h' = flags h /\ request_id h' = request_id h.

Lemma with_length_twice h v len v' len' : with_length (with_length h v len) v' len' = with_length h v' len'.
Proof. done. Qed.

Lemma push_ok key value m : (length m + 3 + length value <= 1024)%nat -> push key value m = Some (m ++ tlv (key, value)).
Proof.
  intros Hl. unfold push. rewrite (proj2 (Nat.ltb_ge _ _)) by done. unfold tlv. cbn [fst snd]. rewrite wrap_small by (unfold is_u; lia). done.
Qed.

Lemma trace_metadata_ok c id : good_trace (Some (c, id)) -> trace_metadata (Some c) id = Some (tlvs (trace_tlvs (Some (c, id)))).
Proof.
  intros Ht. pose proof (trace_sizes _ Ht) as [_ Hs]. unfold trace_metadata, trace_tlvs, tlvs in *.
  case_bool_decide; destruct id as [i|]; cbn [app fmap list_fmap concat] in *; rewrite ?app_nil_r, ?length_app, ?length_tlv in Hs; cbn [snd length] in Hs;
    rewrite push_ok by (cbn [length]; lia); cbn [mbind option_bind app]; rewrite ?push_ok by (rewrite ?length_app, ?length_tlv; cbn [snd length]; lia);
    cbn [mbind option_bind]; rewrite ?push_ok by (rewrite ?length_app, ?length_tlv; cbn [snd length]; lia); rewrite <-?app_assoc; rewrite ?app_nil_r; done.
Qed.

Lemma payload_1 l b : payload 1 l b = b.
Proof. done. Qed.

Lemma carries_plain frame h t n k b : carries frame h t n k b -> version h = 1 -> t = None /\ n = None /\ k = None /\ frame = Frame.encode h ++ b /\ length_ h = Z.of_nat (length b).
Proof.
  intros [_ Hv _ _ _ _ _ (l & _ & -> & Hl)] E. rewrite E in *. destruct k, n, t; try done.
Qed.

Lemma encode_stage frame h b c id : carries frame h None None None b -> supports_v2 (msg_type h) = true -> good_trace (Some (c, id)) ->
  exists frame' h', encode frame (Some c) id = Some (Ok frame') /\ carries frame' h' (Some (c, id)) None None b /\ same_request h h'.
Proof.
  intros Hc Hsup Ht. destruct (carried_decodes _ _ _ _ _ _ Hc) as (Hd & Hlen & _). pose proof (c_version _ _ _ _ _ _ Hc) as Hv. cbn in Hv.
  destruct (carries_plain _ _ _ _ _ _ Hc Hv) as (_ & _ & _ & Hf & Hb). unfold encode. rewrite Hd, Hv, Hsup, Hlen, !Z.eqb_refl. cbn [negb orb].
  rewrite trace_metadata_ok by done. cbn [mbind option_bind]. pose proof (trace_sizes _ Ht) as [_ Hs]. pose proof (hv_length _ (c_header _ _ _ _ _ _ Hc)) as Hl.
  rewrite (proj2 (Z.leb_gt _ _)) by (unfold MAX_PAYLOAD_LEN in Hl; change (Z.shiftl 320 20) with 335544320 in Hl; lia).
  assert (attached (Some (c, id)) None None (trace_tlvs (Some (c, id)))) as Ha by (left; by rewrite !app_nil_r).
  pose proof (carries_intro h (Some (c, id)) None None _ b (c_header _ _ _ _ _ _ Hc) (fun _ => Hsup) Ht ltac:(done) ltac:(done) (c_small _ _ _ _ _ _ Hc) Ha) as Hc'.
  eexists _, _. split; [|split; [exact Hc'|done]]. cbn [wire_version] in *. unfold payload. cbn [Z.eqb Pos.eqb]. rewrite !length_app, length_be_bytes.
  rewrite wrap_small by (unfold is_u; lia). do 2 f_equal. rewrite Hf, Hb. assert (length (Frame.encode h) = HEADER_LEN) as <- by by apply (length_encoding h [x00; x00]).
  rewrite drop_app_length. do 3 f_equal. lia.
Qed.

(** Attaching a field at the end. *)
Lemma append_stage frame h t n k b l key value v :
  carries frame h t n k b -> attached t n k l -> frame = Frame.encode h ++ payload (version h) l b ->
  v = 3 \/ v = 4 -> Z.of_nat (length (tlvs (l ++ [(key, value)]))) <= max_metadata v ->
  append_metadata frame h (old_metadata_len h frame) key value v =
    Ok (Frame.encode (with_length h v (Z.of_nat (length (payload v (l ++ [(key, value)]) b)))) ++ payload v (l ++ [(key, value)]) b).
Proof.
  intros [Hh Hv Hsup Ht Hn Hk Hs (l' & Hl' & Hf & Hlen)] Hl -> Hv' Hfit.
  apply app_inv_head in Hf. rewrite <-Hf in Hlen. clear Hf Hl' l'.
  assert (length (Frame.encode h) = HEADER_LEN) as He by by apply (length_encoding h [x00; x00]).
  destruct (attached_fit t n k l Ht Hn Hk Hl) as [_ Hml].
  assert (max_metadata v < 65536) as Hmax by (destruct Hv' as [->| ->]; vm_compute; reflexivity).
  rewrite tlvs_app, length_app in Hfit. unfold tlvs at 2 in Hfit. cbn [fmap list_fmap concat] in Hfit. rewrite app_nil_r, length_tlv in Hfit. cbn [snd] in Hfit.
  assert (overhead v = max_metadata v + 2) as Hov by (apply overhead_metadata; tauto).
  assert (payload v (l ++ [(key, value)]) b = be_bytes 2 (Z.of_nat (length (tlvs l)) + 3 + Z.of_nat (length value)) ++ tlvs l ++ tlv (key, value) ++ b) as ->.
  { unfold payload. rewrite (proj2 (Z.eqb_neq v 1)) by lia. rewrite tlvs_app, length_app. unfold tlvs at 2 4. cbn [fmap list_fmap concat].
    rewrite app_nil_r, length_tlv, <-app_assoc. cbn [snd]. do 2 f_equal. lia. }
  unfold append_metadata, old_metadata_len. destruct (Z.eq_dec (version h) 1) as [E1|Hne].
  - assert (l = []) as -> by (rewrite Hv in E1; by destruct k, n, t, Hl as [->| ->]). rewrite E1 in *. cbn [Z.leb Z.compare Pos.compare Pos.compare_cont Z.eqb Pos.eqb tlvs fmap list_fmap concat length Z.of_nat Z.add] in *.
    rewrite (proj2 (Z.ltb_ge _ _)) by lia. change (Z.to_nat (16 + 0)) with HEADER_LEN. rewrite <-He, drop_app_length.
    change (slice 18 (Z.to_nat 0) (Frame.encode h ++ payload 1 [] b)) with (@nil byte). cbn [app].
    unfold payload in *. cbn [Z.eqb Pos.eqb] in *. rewrite !wrap_small by (unfold is_u; lia). unfold tlv. cbn [fst snd]. do 4 f_equal.
    rewrite Hlen, !length_app, length_be_bytes, length_cons, length_app, length_be_bytes. lia.
  - pose proof (hv_version h Hh). rewrite (proj2 (Z.leb_le 2 (version h))) by lia. rewrite (proj2 (Z.eqb_neq (version h) 1)) by done.
    unfold payload in *. rewrite (proj2 (Z.eqb_neq (version h) 1)) in * by done.
    assert (max_metadata (wire_version t n k) < 65536) by (unfold max_metadata; destruct (_ =? 4); vm_compute; reflexivity).
    rewrite (slice_app_exact 16 2) by (by rewrite ?He, ?length_be_bytes). rewrite be_val_be_bytes by (cbn; lia).
    rewrite (proj2 (Z.ltb_ge _ _)) by lia. rewrite !wrap_small by (unfold is_u; lia). rewrite Nat2Z.id.
    assert (slice 18 (length (tlvs l)) (Frame.encode h ++ be_bytes 2 (Z.of_nat (length (tlvs l))) ++ tlvs l ++ b) = tlvs l) as ->.
    { rewrite app_assoc. apply slice_app_exact; [rewrite length_app, He, length_be_bytes; done|done]. }
    assert (drop (Z.to_nat (16 + (2 + Z.of_nat (length (tlvs l))))) (Frame.encode h ++ be_bytes 2 (Z.of_nat (length (tlvs l))) ++ tlvs l ++ b) = b) as ->.
    { rewrite !app_assoc. apply drop_app_length'. rewrite !length_app, He, length_be_bytes. unfold HEADER_LEN. lia. }
    unfold tlv. cbn [fst snd]. do 4 f_equal.
    rewrite Hlen, !length_app, !length_be_bytes, length_cons, !length_app, length_be_bytes. lia.
Qed.

Lemma name_stage frame h t n k b name known : carries frame h t n k b -> good_name name -> good_known known ->
  match n with
  | Some n0 => encode_namespace_context_with_broker frame name known = if bool_decide (n0 = name) then Ok frame else Err InvalidEnvelope
  | None => exists frame' h', encode_namespace_context_with_broker frame name known = Ok frame' /\ carries frame' h' t (Some name) k b /\ same_request h h'
  end.
Proof.
  intros Hc Hname Hknown. destruct (carried_decodes _ _ _ _ _ _ Hc) as (Hd & Hlen & Hdec). pose proof (c_version _ _ _ _ _ _ Hc) as Hv.
  unfold encode_namespace_context_with_broker. rewrite Hd. cbn [mbind result_bind]. rewrite Hlen, Z.eqb_refl. cbn [negb].
  rewrite decode_known, Hdec by done. cbn [mbind result_bind metadata namespace].
  destruct n as [n0|].
  { assert ((2 <=? version h) = true) as -> by (rewrite Hv; by destruct k). cbn [fmap option_fmap option_map]. done. }
  assert ((if 2 <=? version h then Ok (Named <$> None) else Ok None) = Ok (E := FrameError) None) as -> by by destruct (2 <=? version h).
  cbn [mbind result_bind]. pose proof Hc as [Hh _ Hsup Ht Hn Hk Hs (l & Hl & Hf & _)].
  assert (attached t (Some name) k (l ++ [(5, name)])) as Ha.
  { right. destruct Hl as [->| ->]; cbn [ns_tlvs app]; rewrite ?app_nil_r, <-?app_assoc; done. }
  assert (forall name0, Some name = Some name0 -> good_name name0) as Hn' by (by intros ? [= <-]).
  destruct (attached_fit t (Some name) k _ Ht Hn' Hk Ha) as [_ Hfit].
  assert ((if version h =? 4 then 4 else 3) = wire_version t (Some name) k) as -> by (rewrite Hv; by destruct k, t).
  rewrite (append_stage frame h t None k b l 5 name (wire_version t (Some name) k)); [|done|done|done|destruct k; cbn; tauto|done].
  eexists _, _. split; [reflexivity|]. split; [exact (carries_intro h t (Some name) k _ b Hh Hsup Ht Hn' Hk Hs Ha)|done].
Qed.

Lemma broker_stage frame h t n b k : carries frame h t n None b -> good_broker k ->
  exists frame' h', encode_validated_credential_broker frame k = Ok frame' /\ carries frame' h' t n (Some k) b /\ same_request h h'.
Proof.
  intros Hc Hgood. assert (good_known (Some k)) as Hknown by (by intros ? [= <-]).
  destruct (carried_decodes _ _ _ _ _ _ Hc) as (Hd & Hlen & Hdec). pose proof (c_version _ _ _ _ _ _ Hc) as Hv.
  unfold encode_validated_credential_broker. rewrite Hd. cbn [mbind result_bind]. rewrite Hlen, Z.eqb_refl. cbn [negb].
  assert ((version h =? 4) = false) as -> by (rewrite Hv; by destruct n, t).
  rewrite decode_known, Hdec by done. cbn [mbind result_bind].
  assert ((if 2 <=? version h then Ok tt else Ok tt) = Ok (E := FrameError) tt) as -> by by destruct (2 <=? version h).
  cbn [mbind result_bind]. pose proof Hc as [Hh _ Hsup Ht Hn _ Hs (l & Hl & Hf & _)].
  assert (attached t n (Some k) (l ++ [(6, canonical_json k)])) as Ha.
  { left. destruct Hl as [->| ->]; cbn [broker_tlvs app]; rewrite ?app_nil_r, <-?app_assoc; done. }
  destruct (attached_fit t n (Some k) _ Ht Hn Hknown Ha) as [_ Hfit].
  rewrite (append_stage frame h t n None b l 6 (canonical_json k) 4); [|done|done|done|tauto|done].
  eexists _, _. split; [reflexivity|]. split; [exact (carries_intro h t n (Some k) _ b Hh Hsup Ht Hn Hknown Hs Ha)|done].
Qed.

(** Credentials of the task and of the frame that differ. *)
Definition broker_conflict (known k : option ValidatedBrokerConfig) : Prop :=
  exists current encoded, known = Some current /\ k = Some encoded /\ config current <> config encoded.

Definition either (known k : option ValidatedBrokerConfig) : option ValidatedBrokerConfig :=
  match known with Some b => Some b | None => k end.

Lemma strip_stage frame h t n k b known : carries frame h t n k b -> good_known known ->
  (strip frame h known = Err InvalidEnvelope /\ broker_conflict known k) \/
  (~ broker_conflict known k /\ exists frame' h', strip frame h known = Ok (frame', h', Named <$> n, either known k) /\ carries frame' h' None None None b /\ same_request h h').
Proof.
  intros Hc Hknown. destruct (carried_decodes _ _ _ _ _ _ Hc) as (Hd & Hlen & Hdec). pose proof (c_version _ _ _ _ _ _ Hc) as Hv.
  pose proof Hc as [Hh _ Hsup Ht Hn Hk Hs (l & Hl & Hf & _)]. pose proof (hv_version h Hh) as Hr.
  unfold strip. rewrite (proj2 (Z.leb_le (version h) 4)), andb_true_r by lia. destruct (Z.leb_spec 2 (version h)) as [H2|H2].
  - rewrite decode_known, Hdec by done. cbn [mbind result_bind metadata credential_broker namespace].
    assert (is_u32 (Z.of_nat (length b))) as Hw.
    { destruct Hs as [_ Hs]. unfold is_u. change (overhead 4) with 17413 in Hs. change MAX_PAYLOAD_LEN with 335544320 in Hs. lia. }
    pose proof (carries_intro h None None None [] b Hh ltac:(by intros [? ?]) ltac:(done) ltac:(done) ltac:(done) Hs ltac:(by left)) as Hp.
    cbn [wire_version] in Hp. unfold payload in Hp. cbn [Z.eqb Pos.eqb] in Hp. rewrite wrap_small by done.
    destruct known as [current|], k as [encoded|]; cbn [either].
    + case_bool_decide as Econf; cbn [mbind result_bind]; [right|left].
      * split; [intros (x & y & [= <-] & [= <-] & Hne); done|]. eexists _, _. split; [reflexivity|]. split; [exact Hp|done].
      * split; [done|]. by exists current, encoded.
    + right. split; [by intros (? & ? & _ & ? & _)|]. eexists _, _. split; [reflexivity|]. split; [exact Hp|done].
    + right. split; [by intros (? & ? & ? & _)|]. eexists _, _. split; [reflexivity|]. split; [exact Hp|done].
    + right. split; [by intros (? & ? & ? & _)|]. eexists _, _. split; [reflexivity|]. split; [exact Hp|done].
  - right. assert (version h = 1) as E1 by lia. destruct (carries_plain _ _ _ _ _ _ Hc E1) as (-> & -> & -> & _ & _). split; [by intros (? & ? & _ & ? & _)|].
    exists frame, h. split; [by destruct known|done].
Qed.

(** *** Sending *)

Definition good_env (env : Ambient) : Prop :=
  good_known (current_broker env) /\ good_trace ((fun c => (c, current_read_id env)) <$> current_carrier env).

(** The trace that is sent: the ambient one where the peer takes it. A request without credentials
    that cannot carry a new trace is left as it is. *)
Definition sent_trace (env : Ambient) (h : FrameHeader) (t : Traced) (k : option ValidatedBrokerConfig) : Traced :=
  let traces := trace_enabled env && supports_v2 (msg_type h) in
  if negb traces && bool_decide (config <$> either (current_broker env) k = None) then t
  else if traces then (fun c => (c, current_read_id env)) <$> current_carrier env else None.

Lemma attach_stage frame h t b n k : carries frame h t None None b -> (forall name, n = Some name -> good_name name) -> good_known k ->
  exists frame' h',
    then_ok (Some (match Named <$> n with
                   | Some ns => match Namespace.context ns with
                                | Ok name => encode_namespace_context_with_broker frame name k
                                | Err _ => Err InvalidEnvelope
                                end
                   | None => Ok frame
                   end)) (fun frame =>
    then_ok (Some (match k with Some b => encode_validated_credential_broker frame b | None => Ok frame end)) (fun frame => Some (Ok (frame, k)))) =
    Some (Ok (frame', k)) /\ carries frame' h' t n k b /\ same_request h h'.
Proof.
  intros Hc Hn Hk.
  assert (exists frame1 h1, match Named <$> n with
      | Some ns => match Namespace.context ns with
                   | Ok name => encode_namespace_context_with_broker frame name k
                   | Err _ => Err InvalidEnvelope
                   end
      | None => Ok frame
      end = Ok frame1 /\ carries frame1 h1 t n None b /\ same_request h h1) as (frame1 & h1 & -> & Hc1 & Hs1).
  { destruct n as [n0|]; cbn [fmap option_fmap option_map]; [|by exists frame, h].
    assert (Namespace.context (Named n0) = Ok n0) as -> by exact (Hn n0 eq_refl). exact (name_stage _ _ _ _ _ _ n0 k Hc (Hn n0 eq_refl) Hk). }
  cbn [then_ok]. destruct k as [k|]; [|by exists frame1, h1].
  destruct (broker_stage _ _ _ _ _ k Hc1 (Hk k eq_refl)) as (frame2 & h2 & -> & Hc2 & Hs2). cbn [then_ok].
  exists frame2, h2. split; [done|]. split; [done|]. unfold same_request in *. intuition congruence.
Qed.

Lemma either_good known k : good_known known -> good_known k -> good_known (either known k).
Proof. destruct known; done. Qed.

Lemma prepare_stage env frame h t n k b : carries frame h t n k b -> good_env env ->
  (prepare_outbound env frame = Some (Err InvalidEnvelope) /\ broker_conflict (current_broker env) k) \/
  (~ broker_conflict (current_broker env) k /\ exists frame' h',
    prepare_outbound env frame = Some (Ok (frame', either (current_broker env) k)) /\
    carries frame' h' (sent_trace env h t k) n (either (current_broker env) k) b /\ same_request h h').
Proof.
  intros Hc [Hcur Hamb]. destruct (carried_decodes _ _ _ _ _ _ Hc) as (Hd & _ & _). unfold prepare_outbound. rewrite Hd.
  assert (negb (bool_decide (is_Some (current_broker env))) && negb (version h =? 4) = bool_decide (config <$> either (current_broker env) k = None)) as ->.
  { rewrite (c_version _ _ _ _ _ _ Hc). destruct (current_broker env), k; try done. by destruct n, t. }
  unfold sent_trace. set (traces := trace_enabled env && supports_v2 (msg_type h)). set (plain := bool_decide _).
  destruct (negb traces && plain) eqn:Early.
  - apply andb_true_iff in Early as [Etr Ep]. right. assert (current_broker env = None /\ k = None) as [Ecur ->].
    { unfold plain in Ep. apply bool_decide_eq_true in Ep. by destruct (current_broker env), k. }
    split; [by intros (? & ? & ? & ? & _)|]. exists frame, h. rewrite Ecur, Ep. split; [|done].
    unfold traces in Etr. destruct (trace_enabled env); cbn [negb andb]; [|done]. by destruct (supports_v2 (msg_type h)).
  - assert (negb (trace_enabled env) && plain = false /\ negb (supports_v2 (msg_type h)) && plain = false) as [-> ->].
    { unfold traces in Early. by destruct (trace_enabled env), (supports_v2 (msg_type h)), plain. }
    destruct (strip_stage _ _ _ _ _ _ (current_broker env) Hc Hcur) as [[-> Hconf]|(Hno & frame1 & h1 & -> & Hc1 & Hs1)]; [by left|].
    right. split; [done|]. cbn [then_ok]. destruct Hs1 as (Ht1 & Hf1 & Hr1). rewrite Ht1. fold traces.
    assert (exists frame2 h2, (if traces then match current_carrier env with Some c => encode frame1 (Some c) (current_read_id env) | None => Some (Ok frame1) end
        else Some (Ok frame1)) = Some (Ok frame2) /\
      carries frame2 h2 (if traces then (fun c => (c, current_read_id env)) <$> current_carrier env else None) None None b /\ same_request h1 h2)
      as (frame2 & h2 & -> & Hc2 & Hs2).
    { destruct traces eqn:Et; [|by exists frame1, h1]. destruct (current_carrier env) as [c|]; [|by exists frame1, h1].
      apply (encode_stage frame1 h1 b c (current_read_id env) Hc1); [|done]. unfold traces in Et. rewrite Ht1. by apply andb_true_iff in Et as [_ ?]. }
    cbn [then_ok].
    destruct (attach_stage frame2 h2 _ b n (either (current_broker env) k) Hc2 (c_name _ _ _ _ _ _ Hc) (either_good _ _ Hcur (c_broker _ _ _ _ _ _ Hc)))
      as (frame3 & h3 & E3 & Hc3 & Hs3).
    exists frame3, h3. split; [exact E3|]. split; [done|]. unfold same_request in *. intuition congruence.
Qed.

(** A namespace that differs from the one the frame already carries. *)
Definition name_conflict (name : str) (n : option str) : Prop :=
  name <> DEFAULT_NAMESPACE /\ exists n0, n = Some n0 /\ n0 <> name.

#[local] Instance name_conflict_dec name n : Decision (name_conflict name n).
Proof.
  destruct n as [n0|]; [|right; by intros (_ & ? & ? & _)]. destruct (decide (name <> DEFAULT_NAMESPACE /\ n0 <> name)) as [[H1 H2]|Hn].
  - left. split; [done|by exists n0].
  - right. intros (H1 & ? & [= <-] & H2). by apply Hn.
Qed.

(** Without a contradiction the request goes out. *)
Lemma outbound_sends env frame h t n k b name :
  carries frame h t n k b -> good_env env -> good_name name -> ~ broker_conflict (current_broker env) k -> ~ name_conflict name n ->
  exists frame' h',
    let t' := sent_trace env h t k in
    let n' := if bool_decide (name = DEFAULT_NAMESPACE) then n else Some name in
    let k' := either (current_broker env) k in
    outbound_namespace_context env frame name = Some (Ok frame') /\
    same_request h h' /\ Frame.decode frame' = Ok h' /\ decode h' (drop HEADER_LEN frame') = Ok (metadata t' n' k', b) /\
    carries frame' h' t' n' k' b.
Proof.
  intros Hc He Hname Hb Hn. unfold outbound_namespace_context.
  destruct (prepare_stage env frame h t n k b Hc He) as [[_ ?]|(_ & frame1 & h1 & -> & Hc1 & Hs1)]; [done|]. cbn [then_ok].
  assert (exists frame2 h2, (if bool_decide (name = DEFAULT_NAMESPACE) then Some (Ok frame1)
      else Some (encode_namespace_context_with_broker frame1 name (either (current_broker env) k))) = Some (Ok frame2) /\
    carries frame2 h2 (sent_trace env h t k) (if bool_decide (name = DEFAULT_NAMESPACE) then n else Some name) (either (current_broker env) k) b /\
    same_request h1 h2) as (frame2 & h2 & E & Hc2 & Hs2).
  { case_bool_decide as Ed; [by exists frame1, h1|].
    pose proof (name_stage _ _ _ _ _ _ name (either (current_broker env) k) Hc1 Hname (c_broker _ _ _ _ _ _ Hc1)) as Hst. destruct n as [n0|].
    - assert (n0 = name) as -> by (apply dec_stable; intros ?; apply Hn; split; [done|by exists n0]).
      rewrite Hst, bool_decide_true by done. by exists frame1, h1.
    - destruct Hst as (frame2 & h2 & -> & Hc2 & Hs2). by exists frame2, h2. }
  destruct (carried_decodes _ _ _ _ _ _ Hc2) as (Hd2 & _ & Hm2). exists frame2, h2.
  splits; try done; unfold same_request in *; intuition congruence.
Qed.

(** C11: Sending a request, first or again, either fails because the task's credentials or namespace contradict
    those the frame already carries, or yields a frame of the same request from which the receiver
    decodes the same payload byte for byte with the trace, namespace and credentials of the task.
    It never panics and never runs out of room. *)
Theorem outbound_exact env frame h t n k b name :
  carries frame h t n k b -> good_env env -> good_name name ->
  (outbound_namespace_context env frame name = Some (Err InvalidEnvelope) /\
   (broker_conflict (current_broker env) k \/ name_conflict name n)) \/
  (~ broker_conflict (current_broker env) k /\ ~ name_conflict name n /\ exists frame' h',
    let t' := sent_trace env h t k in
    let n' := if bool_decide (name = DEFAULT_NAMESPACE) then n else Some name in
    let k' := either (current_broker env) k in
    outbound_namespace_context env frame name = Some (Ok frame') /\
    same_request h h' /\ Frame.decode frame' = Ok h' /\ decode h' (drop HEADER_LEN frame') = Ok (metadata t' n' k', b) /\
    carries frame' h' t' n' k' b).
Proof.
  intros Hc He Hname. destruct (prepare_stage env frame h t n k b Hc He) as [[E Hconf]|(Hb & frame1 & h1 & E & Hc1 & _)].
  { left. unfold outbound_namespace_context. rewrite E. split; [done|by left]. }
  destruct (decide (name_conflict name n)) as [Hn|Hn]; [left|right; split; [done|split; [done|by apply outbound_sends]]].
  split; [|by right]. destruct Hn as (Hd & n0 & -> & Hne). unfold outbound_namespace_context. rewrite E. cbn [then_ok].
  rewrite bool_decide_false by done.
  rewrite (name_stage _ _ _ _ _ _ name (either (current_broker env) k) Hc1 Hname (c_broker _ _ _ _ _ _ Hc1)). by rewrite bool_decide_false.
Qed.

End Spec.

(** ** A request with a trace, a namespace and credentials *)

Section Demo.

#[local] Existing Instance Broker.demo_libs.

Definition demo_broker : ValidatedBrokerConfig := mkValidated Broker.demo_config (Key.s "{demo}").

Definition demo_trace : Trace.TraceContext :=
  Trace.mkTrace (Key.s "00-4bf92f3577b34da6a3ce929d0e0e4736-00f067aa0ba902b7-01") (Key.s "congo=t61rcWkgMzE").

Definition demo_env : Ambient := mkAmbient true (Some demo_broker) (Some demo_trace) (Some (replicate 16 x07)).

Definition demo_request : FrameHeader := new GetRange 7 2.
Definition demo_frame : list byte := Frame.encode demo_request ++ [x01; x02].

Lemma demo_carries : carries demo_frame demo_request None None None [x01; x02].
Proof.
  apply (carries_intro demo_request None None None [] [x01; x02]); try done.
  by left.
Qed.

Lemma demo_env_good : good_env demo_env.
Proof.
  split.
  - intros k [= <-]. split; [vm_compute; reflexivity|]. split; [vm_compute; reflexivity|vm_compute; discriminate].
  - intros c id [= <- <-]. split; [apply (Trace.from_w3c_wf (Trace.parent demo_trace) (Some (Trace.state demo_trace))); vm_compute; reflexivity|].
    split; [vm_compute; reflexivity|]. by intros i [= <-].
Qed.

Lemma outbound_exact_witness : exists frame' h',
  outbound_namespace_context demo_env demo_frame (Key.s "tenant") = Some (Ok frame') /\
  decode h' (drop HEADER_LEN frame') =
    Ok (metadata (Some (demo_trace, Some (replicate 16 x07))) (Some (Key.s "tenant")) (Some demo_broker), [x01; x02]).
Proof.
  assert (good_name (Key.s "tenant")) as Hn by (vm_compute; reflexivity).
  destruct (outbound_exact demo_env demo_frame demo_request None None None [x01; x02] (Key.s "tenant") demo_carries demo_env_good Hn)
    as [[_ [Hb|Hb]]|(_ & _ & frame' & h' & E & _ & _ & Hd & _)].
  - exfalso. by destruct Hb as (? & ? & _ & ? & _).
  - exfalso. by destruct Hb as (_ & ? & ? & _).
  - exists frame', h'. split; [exact E|exact Hd].
Defined.

End Demo.

End EnvelopeSpec.
