(* ===== verification/Data.v ===== *)
(** The data-plane messages (crates/talon-transport/src/data.rs): ten kinds of request, and error
    replies. [bincode] is a parameter. A request that a client encodes and sends with its carrier is the
    request that the worker decodes. *)

From S2P Require Import Prelude External Bytes Key Namespace Trace Broker Frame Envelope EnvelopeSpec.

Module Data.
Import Key.
Import Broker.
Import Frame.
Import Namespace (NamespaceId).
Import Envelope.

Inductive DataErrorCode :=
  | Unknown | InvalidRequest | NotFound | CacheMiss | Unavailable | Timeout | VersionMismatch | Origin | Internal | RateLimited.

Record DataPlaneError := mkDataPlaneError { code : DataErrorCode; message : str }.
Record ErrorEnvelope := mkErrorEnvelope { ee_code : DataErrorCode; ee_message : str }.

Record RangeRequest := mkRange { rr_object : ObjectId; rr_offset : Z; rr_len : Z }.
Record VersionedRangeRequest := mkVersioned { vr_request : RangeRequest; vr_version : str; vr_object_len : Z }.
Record CachedRangeRequest := mkCached { cr_object : ObjectId; cr_version : str; cr_offset : Z; cr_len : Z }.
Record NamespaceScoped (A : Type) := mkScoped { sc_namespace : NamespaceId; sc_request : A }.
Arguments mkScoped {A}.
Record PutRequest := mkPut { pr_object : ObjectId; pr_body_len : Z }.
Record CachedBlockPutRequest := mkCachedPut { cp_block : BlockId; cp_object_len : Z; cp_body_len : Z }.
Record DeleteRequest := mkDelete { dr_object : ObjectId }.

(** [bincode] for one type: [deserialize] ignores trailing bytes, [deserialize_exact] (the default options
    with fixed-width integers and a byte limit) does not. *)
Class Bincode (A : Type) := {
  serialize : A -> option (list byte);
  deserialize : list byte -> option A;
  deserialize_exact : list byte -> option A;
  bincode_round : forall a b, serialize a = Some b -> deserialize b = Some a;
  bincode_round_exact : forall a b, serialize a = Some b -> deserialize_exact b = Some a
}.

Inductive DataError :=
  | FrameErr (e : FrameError)
  | NotGetRange (t : MsgType)
  | NotPut (t : MsgType)
  | NotCachedBlockPut (t : MsgType)
  | NotDelete (t : MsgType)
  | LengthMismatch (declared actual : Z)
  | BincodeError.

(** Every encoder writes a version 1 header and the serialised request. *)
Definition encode_frame {A} `{Bincode A} (t : MsgType) (id : Z) (req : A) : result DataError (list byte) :=
  match serialize req with
  | None => Err BincodeError
  | Some body => Ok (Frame.encode (new t id (wrap 32 (Z.of_nat (length body)))) ++ body)
  end.

Definition lift_frame {A} (r : result FrameError A) : result DataError A :=
  match r with Ok a => Ok a | Err e => Err (FrameErr e) end.

(** Every decoder checks the type and the length, and takes the envelope off. *)
Definition decode_frame {A} `{BrokerLibs} (t : MsgType) (other : MsgType -> DataError) (read : list byte -> option A) (buf : list byte) :
    result DataError (FrameHeader * A) :=
  header ← lift_frame (Frame.decode buf);
  if negb (bool_decide (msg_type header = t)) then Err (other (msg_type header)) else
  let body := drop HEADER_LEN buf in
  if negb (Z.of_nat (length body) =? length_ header) then Err (LengthMismatch (length_ header) (Z.of_nat (length body))) else
  '(_, body) ← lift_frame (Envelope.decode header body);
  match read body with
  | None => Err BincodeError
  | Some req => Ok (header, req)
  end.

Section Codecs.
Context `{BrokerLibs} `{Bincode RangeRequest} `{Bincode (NamespaceScoped RangeRequest)} `{Bincode VersionedRangeRequest}
  `{Bincode (NamespaceScoped VersionedRangeRequest)} `{Bincode CachedRangeRequest} `{Bincode (NamespaceScoped CachedRangeRequest)}
  `{Bincode PutRequest} `{Bincode CachedBlockPutRequest} `{Bincode DeleteRequest} `{Bincode ErrorEnvelope}.

Definition encode_request (id : Z) (req : RangeRequest) := encode_frame GetRange id req.
Definition decode_request := decode_frame GetRange NotGetRange (deserialize (A := RangeRequest)).

Definition encode_namespace_request (id : Z) (req : NamespaceScoped RangeRequest) := encode_frame GetRangeNamespace id req.
Definition decode_namespace_request := decode_frame GetRangeNamespace NotGetRange (deserialize (A := NamespaceScoped RangeRequest)).

Definition encode_versioned_request (id : Z) (req : VersionedRangeRequest) := encode_frame GetVersionedRange id req.
Definition decode_versioned_request := decode_frame GetVersionedRange NotGetRange (deserialize_exact (A := VersionedRangeRequest)).

Definition encode_versioned_namespace_request (id : Z) (req : NamespaceScoped VersionedRangeRequest) :=
  encode_frame GetVersionedRangeNamespace id req.
Definition decode_versioned_namespace_request :=
  decode_frame GetVersionedRangeNamespace NotGetRange (deserialize_exact (A := NamespaceScoped VersionedRangeRequest)).

Definition encode_exact_request (id : Z) (req : VersionedRangeRequest) := encode_frame GetExactRange id req.
Definition decode_exact_request := decode_frame GetExactRange NotGetRange (deserialize_exact (A := VersionedRangeRequest)).

Definition encode_exact_namespace_request (id : Z) (req : NamespaceScoped VersionedRangeRequest) := encode_frame GetExactRangeNamespace id req.
Definition decode_exact_namespace_request :=
  decode_frame GetExactRangeNamespace NotGetRange (deserialize_exact (A := NamespaceScoped VersionedRangeRequest)).

Definition encode_cached_request (id : Z) (req : CachedRangeRequest) := encode_frame GetCachedRange id req.
Definition decode_cached_request := decode_frame GetCachedRange NotGetRange (deserialize (A := CachedRangeRequest)).

Definition encode_cached_namespace_request (id : Z) (req : NamespaceScoped CachedRangeRequest) := encode_frame GetCachedRangeNamespace id req.
Definition decode_cached_namespace_request := decode_frame GetCachedRangeNamespace NotGetRange (deserialize (A := NamespaceScoped CachedRangeRequest)).

Definition encode_put_header (id : Z) (req : PutRequest) := encode_frame Put id req.
Definition decode_put_header := decode_frame Put NotPut (deserialize (A := PutRequest)).

Definition encode_cached_block_put_header (id : Z) (req : CachedBlockPutRequest) := encode_frame AdmitCachedBlock id req.
Definition decode_cached_block_put_header := decode_frame AdmitCachedBlock NotCachedBlockPut (deserialize (A := CachedBlockPutRequest)).

Definition encode_delete (id : Z) (req : DeleteRequest) := encode_frame Delete id req.
Definition decode_delete := decode_frame Delete NotDelete (deserialize (A := DeleteRequest)).

Definition response_header_ok (id len : Z) : list byte := Frame.encode (new GetRange id len).

(** *** Errors *)

Definition ERROR_ENVELOPE_MAGIC : list byte := s "TLE1".

Definition error_frame (id : Z) (body : list byte) : list byte :=
  Frame.encode (mkHeader 1 GetRange ERROR id (wrap 32 (Z.of_nat (length body)))) ++ body.

Definition encode_error (id : Z) (msg : str) : list byte := error_frame id msg.

(** [None] is a panic: the error envelope is not serializable. *)
Definition encode_typed_error (id : Z) (c : DataErrorCode) (msg : str) : option (list byte) :=
  encoded ← serialize (mkErrorEnvelope c msg);
  Some (error_frame id (ERROR_ENVELOPE_MAGIC ++ encoded)).

Definition strip_prefix (p l : list byte) : option (list byte) :=
  if bool_decide (take (length p) l = p) then Some (drop (length p) l) else None.

(** [error] is the text of a decoding error. *)
Definition decode_error_payload (body : list byte) (error : str) : DataPlaneError :=
  match strip_prefix ERROR_ENVELOPE_MAGIC body with
  | None => mkDataPlaneError Unknown (Bytes.lossy body)
  | Some encoded =>
    match deserialize (A := ErrorEnvelope) encoded with
    | Some e => mkDataPlaneError (ee_code e) (ee_message e)
    | None => mkDataPlaneError Internal (s "malformed typed worker error: " ++ error)
    end
  end.

(** A request of any kind, as the client encodes it and as the worker reads it by its message type. *)
Inductive Request :=
  | Range (r : RangeRequest) | ScopedRange (r : NamespaceScoped RangeRequest)
  | Versioned (r : VersionedRangeRequest) | ScopedVersioned (r : NamespaceScoped VersionedRangeRequest)
  | Exact (r : VersionedRangeRequest) | ScopedExact (r : NamespaceScoped VersionedRangeRequest)
  | Cached (r : CachedRangeRequest) | ScopedCached (r : NamespaceScoped CachedRangeRequest)
  | PutObject (r : PutRequest) | AdmitBlock (r : CachedBlockPutRequest) | DeleteObject (r : DeleteRequest).

Definition encode_any (id : Z) (r : Request) : result DataError (list byte) :=
  match r with
  | Range r => encode_request id r | ScopedRange r => encode_namespace_request id r
  | Versioned r => encode_versioned_request id r | ScopedVersioned r => encode_versioned_namespace_request id r
  | Exact r => encode_exact_request id r | ScopedExact r => encode_exact_namespace_request id r
  | Cached r => encode_cached_request id r | ScopedCached r => encode_cached_namespace_request id r
  | PutObject r => encode_put_header id r | AdmitBlock r => encode_cached_block_put_header id r
  | DeleteObject r => encode_delete id r
  end.

Definition tagged {A} (f : A -> Request) (r : result DataError (FrameHeader * A)) : option (FrameHeader * Request) :=
  match r with Ok (h, a) => Some (h, f a) | Err _ => None end.

Definition decode_any (buf : list byte) : option (FrameHeader * Request) :=
  match Frame.decode buf with
  | Err _ => None
  | Ok h =>
    match msg_type h with
    | GetRange => tagged Range (decode_request buf)
    | GetRangeNamespace => tagged ScopedRange (decode_namespace_request buf)
    | GetVersionedRange => tagged Versioned (decode_versioned_request buf)
    | GetVersionedRangeNamespace => tagged ScopedVersioned (decode_versioned_namespace_request buf)
    | GetExactRange => tagged Exact (decode_exact_request buf)
    | GetExactRangeNamespace => tagged ScopedExact (decode_exact_namespace_request buf)
    | GetCachedRange => tagged Cached (decode_cached_request buf)
    | GetCachedRangeNamespace => tagged ScopedCached (decode_cached_namespace_request buf)
    | Put => tagged PutObject (decode_put_header buf)
    | AdmitCachedBlock => tagged AdmitBlock (decode_cached_block_put_header buf)
    | Delete => tagged DeleteObject (decode_delete buf)
    | Control | Get | Ping => None
    end
  end.

(** ** Delivery *)

Import EnvelopeSpec.

Lemma decode_carried {A} t other (read : list byte -> option A) frame h tr n k body req :
  carries frame h tr n k body -> msg_type h = t -> read body = Some req -> decode_frame t other read frame = Ok (h, req).
Proof.
  intros Hc Ht Hr. destruct (carried_decodes _ _ _ _ _ _ Hc) as (Hd & Hl & He). unfold decode_frame. rewrite Hd. cbn [lift_frame mbind result_bind].
  pose proof (hv_length _ (c_header _ _ _ _ _ _ Hc)). rewrite bool_decide_true by done. cbn [negb]. rewrite length_drop, He. unfold HEADER_LEN.
  replace (Z.of_nat (length frame - 16)) with (length_ h) by lia. rewrite Z.eqb_refl. cbn [negb lift_frame mbind result_bind]. by rewrite Hr.
Qed.

(** Limits that leave room for every kind of request. *)
Definition request_sized (body : list byte) : Prop := Z.of_nat (length body) <= MAX_CONTROL_PAYLOAD_LEN.

Lemma plain_carries t id body : is_u32 id -> request_sized body -> t <> Ping ->
  carries (Frame.encode (new t id (Z.of_nat (length body))) ++ body) (new t id (Z.of_nat (length body))) None None None body.
Proof.
  intros Hid Hb Ht. unfold request_sized in Hb. change MAX_CONTROL_PAYLOAD_LEN with 1048576 in Hb.
  refine (carries_intro (new t id (Z.of_nat (length body))) None None None [] body _ _ _ _ _ _ _); [|by intros [? ?]|done|done|done| |by left].
  - split; cbn; unfold is_u in *; try done; change MAX_PAYLOAD_LEN with 335544320; lia.
  - split; [|change (overhead 4) with 17413; change MAX_PAYLOAD_LEN with 335544320; lia].
    destruct t; try done; cbn; first [change MAX_CONTROL_PAYLOAD_LEN with 1048576; lia|change MAX_PAYLOAD_LEN with 335544320; lia].
Qed.

Lemma encode_carries {A} `{Bincode A} t id (req : A) frame body : serialize req = Some body -> encode_frame t id req = Ok frame ->
  is_u32 id -> request_sized body -> t <> Ping ->
  frame = Frame.encode (new t id (Z.of_nat (length body))) ++ body /\ carries frame (new t id (Z.of_nat (length body))) None None None body.
Proof.
  intros Hs He Hid Hb Ht. unfold encode_frame in He. rewrite Hs in He. apply Ok_same in He as <-.
  rewrite wrap_small by (unfold request_sized in Hb; change MAX_CONTROL_PAYLOAD_LEN with 1048576 in Hb; unfold is_u; lia).
  split; [done|by apply plain_carries].
Qed.

Lemma encode_any_frame id r frame : encode_any id r = Ok frame ->
  exists A (B : Bincode A) (req : A) body t, serialize req = Some body /\ encode_frame t id req = Ok frame /\ t <> Ping /\
    length frame = (16 + length body)%nat /\
    forall frame' h' tr n k, carries frame' h' tr n k body -> msg_type h' = t -> decode_any frame' = Some (h', r).
Proof.
  assert (forall A (B : Bincode A) (req : A) t (f : A -> Request) other (read : list byte -> option A) d,
    encode_frame t id req = Ok frame -> t <> Ping -> (forall b, serialize req = Some b -> read b = Some req) -> f req = r ->
    (forall buf, d buf = decode_frame t other read buf) ->
    (forall buf h, Frame.decode buf = Ok h -> msg_type h = t -> decode_any buf = tagged f (d buf)) ->
    exists A (B : Bincode A) (req : A) body t, serialize req = Some body /\ encode_frame t id req = Ok frame /\ t <> Ping /\
    length frame = (16 + length body)%nat /\
    forall frame' h' tr n k, carries frame' h' tr n k body -> msg_type h' = t -> decode_any frame' = Some (h', r)) as Hgen.
  { intros A B req t f other read d He Ht Hread Hf Hd Hany. pose proof He as He'. unfold encode_frame in He'. destruct (serialize req) as [body|] eqn:Hs; [|done].
    apply Ok_same in He'. exists A, B, req, body, t. splits; try done.
    - by rewrite <-He', length_app.
    - intros frame' h' tr n k Hc Ht'. destruct (carried_decodes _ _ _ _ _ _ Hc) as (Hdh & _). rewrite (Hany frame' h' Hdh Ht'), Hd.
      rewrite (decode_carried t other read frame' h' tr n k body req Hc Ht' (Hread body eq_refl)). cbn [tagged]. by rewrite Hf. }
  destruct r as [r|r|r|r|r|r|r|r|r|r|r]; cbn [encode_any]; intros He.
  all: (eapply (Hgen _ _ r _ _ _ _ _ He); [done| |reflexivity|intros buf; reflexivity|intros buf h Hd Ht; unfold decode_any; rewrite Hd, Ht; reflexivity]).
  all: first [apply bincode_round|apply bincode_round_exact].
Qed.

(** C12: A request of any kind that a client encodes and sends with its carrier is the request that the worker
    reads from the socket and decodes, under the same request number, and with the trace, namespace
    and credentials of the client's task; what follows on the socket is untouched. *)
Theorem request_delivered env id r name frame :
  encode_any id r = Ok frame -> is_u32 id -> Z.of_nat (length frame) <= 16 + MAX_CONTROL_PAYLOAD_LEN -> good_env env -> good_name name ->
  exists frame' h' payload body,
    outbound_namespace_context env frame name = Some (Ok frame') /\
    (forall rest e, read_frame (mkStream (frame' ++ rest) e) = (length_ h', Ok (h', payload, mkStream rest e))) /\
    decode_any (Frame.encode h' ++ payload) = Some (h', r) /\ request_id h' = id /\
    Envelope.decode h' payload = Ok
      (metadata (sent_trace env h' None None) (if bool_decide (name = Namespace.DEFAULT_NAMESPACE) then None else Some name) (current_broker env), body).
Proof.
  intros He Hid Hlen Henv Hname. destruct (encode_any_frame id r frame He) as (A & B & req & body & t & Hs & Hf & Ht & Hl & Hdec).
  assert (request_sized body) as Hb by (unfold request_sized; lia).
  destruct (encode_carries t id req frame body Hs Hf Hid Hb Ht) as [_ Hc].
  destruct (outbound_sends env frame _ None None None body name Hc Henv Hname) as (frame' & h' & E & (Hty & _ & Hrid) & _ & Hd & Hc').
  { by intros (? & ? & _ & ? & _). }
  { by intros (_ & ? & ? & _). }
  exists frame', h', (drop HEADER_LEN frame'), body. splits; [exact E|intros; by eapply carried_reads| |done|].
  { destruct (carried_reads _ _ _ _ _ _ [] Closed Hc') as [<- _]. by eapply Hdec. }
  unfold sent_trace in *. rewrite Hty. cbn [msg_type new] in *.
  destruct (current_broker env); exact Hd.
Qed.

(** A typed error reply is decoded to its class and text, whatever the text, and an error of an older worker
    to an unclassified error with that text. *)
Theorem errors_roundtrip id c msg frame error :
  encode_typed_error id c msg = Some frame ->
  decode_error_payload (drop HEADER_LEN frame) error = mkDataPlaneError c msg /\
  (Bytes.utf8 msg = true -> take 4 msg <> ERROR_ENVELOPE_MAGIC ->
   decode_error_payload (drop HEADER_LEN (encode_error id msg)) error = mkDataPlaneError Unknown msg).
Proof.
  assert (forall body, drop HEADER_LEN (error_frame id body) = body) as Hdrop.
  { intros body. unfold error_frame. by rewrite drop_app_length'. }
  unfold encode_typed_error, encode_error. intros (b & Hs & E)%bind_Some.
  assert (frame = error_frame id (ERROR_ENVELOPE_MAGIC ++ b)) as -> by congruence. rewrite !Hdrop. unfold decode_error_payload, strip_prefix. split.
  - rewrite take_app_length, drop_app_length, bool_decide_true by done. by rewrite (bincode_round _ _ Hs).
  - intros Hu Hm. rewrite bool_decide_false by done. by rewrite (Bytes.lossy_utf8 (length msg) msg).
Qed.

End Codecs.

(** ** A request with a namespace, a trace and credentials *)

Section Demo.

(** A codec of one value. *)
Definition toy_bincode {A} `{EqDecision A} (a0 : option A) : Bincode A.
Proof.
  refine {|
    serialize a := if bool_decide (Some a = a0) then Some [x2a] else None;
    deserialize b := if bool_decide (b = [x2a]) then a0 else None;
    deserialize_exact b := if bool_decide (b = [x2a]) then a0 else None |}.
  - intros a b. case_bool_decide as E; [|done]. intros [= <-]. by rewrite E.
  - intros a b. case_bool_decide as E; [|done]. intros [= <-]. by rewrite E.
Defined.

#[local] Instance NamespaceId_eq_dec : EqDecision NamespaceId.
Proof. solve_decision. Defined.
#[local] Instance RangeRequest_eq_dec : EqDecision RangeRequest.
Proof. solve_decision. Defined.
#[local] Instance VersionedRangeRequest_eq_dec : EqDecision VersionedRangeRequest.
Proof. solve_decision. Defined.
#[local] Instance CachedRangeRequest_eq_dec : EqDecision CachedRangeRequest.
Proof. solve_decision. Defined.
#[local] Instance NamespaceScoped_eq_dec A `{EqDecision A} : EqDecision (NamespaceScoped A).
Proof. solve_decision. Defined.
#[local] Instance PutRequest_eq_dec : EqDecision PutRequest.
Proof. solve_decision. Defined.
#[local] Instance CachedBlockPutRequest_eq_dec : EqDecision CachedBlockPutRequest.
Proof. solve_decision. Defined.
#[local] Instance DeleteRequest_eq_dec : EqDecision DeleteRequest.
Proof. solve_decision. Defined.
#[local] Instance DataErrorCode_eq_dec : EqDecision DataErrorCode.
Proof. solve_decision. Defined.
#[local] Instance ErrorEnvelope_eq_dec : EqDecision ErrorEnvelope.
Proof. solve_decision. Defined.

Definition demo_exact : VersionedRangeRequest := mkVersioned (mkRange (mkObjectId S3 [x62] [x70]) 0 4096) (s "v1") 8192.
Definition demo_error : ErrorEnvelope := mkErrorEnvelope RateLimited (s "slow down").

#[local] Existing Instance Broker.demo_libs.
#[local] Instance demo_bincode : Bincode VersionedRangeRequest := toy_bincode (Some demo_exact).
#[local] Instance demo_bincode_error : Bincode ErrorEnvelope := toy_bincode (Some demo_error).
#[local] Instance no_bincode A `{EqDecision A} : Bincode A | 10 := toy_bincode None.

Lemma request_delivered_witness : exists frame frame' h' payload body, encode_any 7 (Exact demo_exact) = Ok frame /\
  outbound_namespace_context EnvelopeSpec.demo_env frame (s "tenant") = Some (Ok frame') /\
  (forall rest e, read_frame (mkStream (frame' ++ rest) e) = (length_ h', Ok (h', payload, mkStream rest e))) /\
  decode_any (Frame.encode h' ++ payload) = Some (h', Exact demo_exact) /\
  request_id h' = 7 /\
  Envelope.decode h' payload =
    Ok (EnvelopeSpec.metadata (EnvelopeSpec.sent_trace EnvelopeSpec.demo_env h' None None) (Some (s "tenant")) (Some EnvelopeSpec.demo_broker), body).
Proof.
  eexists.
  assert (encode_any 7 (Exact demo_exact) = Ok (Frame.encode (new GetExactRange 7 1) ++ [x2a])) as E by (vm_compute; reflexivity).
  destruct (request_delivered EnvelopeSpec.demo_env 7 (Exact demo_exact) (s "tenant") _ E) as (frame' & h' & payload & body & H).
  - unfold is_u. lia.
  - vm_compute. discriminate.
  - exact EnvelopeSpec.demo_env_good.
  - vm_compute. reflexivity.
  - exists frame', h', payload, body. split; [exact E|exact H].
Defined.

Lemma errors_roundtrip_witness : exists frame, encode_typed_error 7 RateLimited (s "slow down") = Some frame /\
  (decode_error_payload (drop HEADER_LEN frame) [] = mkDataPlaneError RateLimited (s "slow down") /\
   (Bytes.utf8 (s "slow down") = true -> take 4 (s "slow down") <> ERROR_ENVELOPE_MAGIC ->
    decode_error_payload (drop HEADER_LEN (encode_error 7 (s "slow down"))) [] = mkDataPlaneError Unknown (s "slow down"))).
Proof.
  eexists. split; [|apply (errors_roundtrip 7 RateLimited (s "slow down"))]; vm_compute; reflexivity.
Defined.

End Demo.

End Data.
