(* ===== verification/Status.v ===== *)
(** The runtime status of a node and its validation (crates/talon-core/src/status.rs). *)

From stdpp Require Import strings gmap.
From S2P Require Import Prelude Placement.

Module Status.
Import Placement.

Definition NODE_STATUS_SCHEMA_VERSION : Z := 1.
Definition MAX_NODE_STATUS_BYTES : Z := 16 * 1024.
Definition MAX_STATUS_FIELD_BYTES : nat := 256.
Definition MAX_STATUS_LABELS : nat := 16.
Definition MAX_STATUS_LABEL_KEY_BYTES : nat := 63.
Definition MAX_STATUS_LABEL_VALUE_BYTES : nat := 256.

Inductive NodeHealth := Healthy | Degraded | Unhealthy | HealthUnknown.

#[export] Instance NodeHealth_eq_dec : EqDecision NodeHealth.
Proof. solve_decision. Defined.

Record NodeMetricsSnapshot := mkMetrics {
  requests_total : Z; errors_total : Z; bytes_served_total : Z; cache_hits_total : Z; cache_misses_total : Z; backend_errors_total : Z;
  evictions_total : Z; inflight_loads : Z; block_count : Z; page_count : Z; resident_bytes : Z; capacity_bytes : Z; state_snapshot_age_ms : Z }.

#[export] Instance NodeMetricsSnapshot_eq_dec : EqDecision NodeMetricsSnapshot.
Proof. solve_decision. Defined.

(** The labels are the entries of a [BTreeMap] in key order. *)
Record NodeStatus := mkStatus {
  schema_version : Z; cluster_id : string; node : NodeInfo; incarnation_id : string; admin_address : option string; build_version : string;
  started_at_unix_ms : Z; reported_at_unix_ms : Z; heartbeat_seq : Z; health : NodeHealth; ready : bool; metrics : NodeMetricsSnapshot;
  labels : list (string * string) }.

#[export] Instance NodeStatus_eq_dec : EqDecision NodeStatus.
Proof. solve_decision. Defined.

Inductive NodeStatusError :=
  | UnsupportedSchema (got supported : Z)
  | EmptyField (field : string)
  | FieldTooLong (field : string) (got max : nat)
  | TooManyLabels (got max : nat)
  | ReportBeforeStart (started reported : Z).

Definition validate_length (field value : string) (max : nat) : result NodeStatusError unit :=
  let got := String.length value in
  if (max <? got)%nat then Err (FieldTooLong field got max) else Ok tt.

Definition validate_required (field value : string) (max : nat) : result NodeStatusError unit :=
  if bool_decide (value = "") then Err (EmptyField field) else validate_length field value max.

Fixpoint validate_labels (l : list (string * string)) : result NodeStatusError unit :=
  match l with
  | [] => Ok tt
  | (key, value) :: l =>
    _ ← validate_required "label key" key MAX_STATUS_LABEL_KEY_BYTES;
    _ ← validate_length "label value" value MAX_STATUS_LABEL_VALUE_BYTES;
    validate_labels l
  end.

Definition validate (st : NodeStatus) : result NodeStatusError unit :=
  if negb (schema_version st =? NODE_STATUS_SCHEMA_VERSION) then Err (UnsupportedSchema (schema_version st) NODE_STATUS_SCHEMA_VERSION) else
  _ ← validate_required "cluster_id" (cluster_id st) MAX_STATUS_FIELD_BYTES;
  _ ← validate_required "node.id" (id (node st)) MAX_STATUS_FIELD_BYTES;
  _ ← validate_required "node.address" (address (node st)) MAX_STATUS_FIELD_BYTES;
  _ ← validate_required "incarnation_id" (incarnation_id st) MAX_STATUS_FIELD_BYTES;
  _ ← validate_required "build_version" (build_version st) MAX_STATUS_FIELD_BYTES;
  _ ← match admin_address st with Some a => validate_required "admin_address" a MAX_STATUS_FIELD_BYTES | None => Ok tt end;
  if reported_at_unix_ms st <? started_at_unix_ms st then Err (ReportBeforeStart (started_at_unix_ms st) (reported_at_unix_ms st)) else
  if (MAX_STATUS_LABELS <? length (labels st))%nat then Err (TooManyLabels (length (labels st)) MAX_STATUS_LABELS) else
  validate_labels (labels st).

(** The fields that end up in a discovery reply are bounded. *)
Definition field_ok (x : string) : Prop := x <> "" /\ (String.length x <= MAX_STATUS_FIELD_BYTES)%nat.

Lemma required_ok field value : validate_required field value MAX_STATUS_FIELD_BYTES = Ok tt -> field_ok value.
Proof.
  unfold validate_required, validate_length. case_bool_decide; [done|]. destruct (Nat.ltb_spec MAX_STATUS_FIELD_BYTES (String.length value)); [done|]. by split.
Qed.

Lemma validate_fields st : validate st = Ok tt -> field_ok (incarnation_id st) /\ field_ok (address (node st)).
Proof.
  unfold validate. destruct (negb _); [done|].
  intros ([] & _ & ([] & _ & ([] & Ha%required_ok & ([] & Hi%required_ok & _)%bind_ok_inv)%bind_ok_inv)%bind_ok_inv)%bind_ok_inv. done.
Qed.

End Status.
