(* ===== verification/Membership.v ===== *)
(** Logical worker membership and the discovery view that clients place blocks by
    (crates/talon-core/src/worker_membership.rs). SHA-256 and the JSON and [bincode] forms are
    parameters. *)

From stdpp Require Import strings gmap sorting.
From S2P Require Import Prelude External Broker Frame Placement Status.

Module Membership.
Import Placement Status.

Definition DISCOVERY_MAX_AGE_MS : Z := 30000.
Definition MAX_CONTROL_PAYLOAD_BYTES : Z := Z.shiftl 1 20.

Record WorkerMember := mkMember { worker_id : string; zone : option string; retired : bool }.

#[export] Instance WorkerMember_eq_dec : EqDecision WorkerMember.
Proof. solve_decision. Defined.

Record MemberRegistry := mkRegistry { format_version : Z; members : list WorkerMember }.

Definition MemberRegistry_default : MemberRegistry := mkRegistry 1 [].

Definition zone_len (m : WorkerMember) : nat := match zone m with Some z => String.length z | None => 0%nat end.

Definition invalid_member (m : WorkerMember) (ids : gset string) : bool :=
  Broker.all_whitespace (as_bytes (worker_id m)) || (256 <? String.length (worker_id m))%nat ||
  (256 <? zone_len m)%nat || bool_decide (worker_id m ∈ ids).

(** The serving size of a member. *)
Definition reserve (m : WorkerMember) : Z :=
  38 + Z.of_nat (String.length (worker_id m)) + Z.of_nat (zone_len m) + 2 * Z.of_nat MAX_STATUS_FIELD_BYTES.

Fixpoint validate_members (l : list WorkerMember) (ids : gset string) (discovery_bytes : Z) : result string unit :=
  match l with
  | [] => Ok tt
  | m :: l =>
    if invalid_member m ids then Err "invalid or duplicate member identity" else
    if retired m then validate_members l ({[ worker_id m ]} ∪ ids) discovery_bytes else
    let discovery_bytes := discovery_bytes + reserve m in
    if MAX_CONTROL_PAYLOAD_BYTES <? discovery_bytes then Err "active membership exceeds worker discovery frame budget"
    else validate_members l ({[ worker_id m ]} ∪ ids) discovery_bytes
  end.

Definition validate (r : MemberRegistry) : result string unit :=
  if negb (format_version r =? 1) then Err "unsupported member registry format"
  else validate_members (members r) ∅ 64.

Inductive InstanceState := Offline | Conflict | Serving (instance_id address : string).

#[export] Instance InstanceState_eq_dec : EqDecision InstanceState.
Proof. solve_decision. Defined.

Record DiscoveredWorker := mkDiscovered { member : WorkerMember; state : InstanceState }.

#[export] Instance DiscoveredWorker_eq_dec : EqDecision DiscoveredWorker.
Proof. solve_decision. Defined.

Record WorkerDiscovery := mkDiscovery { topology_token_ : Z; state_token : Z; valid_for_ms : Z; discovered : list DiscoveredWorker }.

(** [serde_json::to_vec] of the two lists that are hashed, and the [bincode] size of a discovery reply in its
    control envelope: integers have their width, an [Option] and a [bool] one byte, an enum tag four, a
    string or vector a length of eight bytes before its contents. *)
Definition member_size (m : WorkerMember) : Z :=
  8 + Z.of_nat (String.length (worker_id m)) + 1 + (match zone m with Some z => 8 + Z.of_nat (String.length z) | None => 0 end) + 1.

Definition state_size (st : InstanceState) : Z :=
  4 + match st with Serving i a => 8 + Z.of_nat (String.length i) + (8 + Z.of_nat (String.length a)) | _ => 0 end.

Class DiscoveryCodecs := {
  members_json : list WorkerMember -> list byte;
  workers_json : list DiscoveredWorker -> list byte;
  reply_size : WorkerDiscovery -> Z;
  reply_size_ok : forall d, reply_size d =
    2 + 4 + (8 + 8 + 8 + 8) + foldr Z.add 0 ((fun w => member_size (member w) + state_size (state w)) <$> discovered d)
}.

Definition by_worker (a b : WorkerMember) : Prop := String.le (worker_id a) (worker_id b).
#[export] Instance by_worker_dec a b : Decision (by_worker a b).
Proof. unfold by_worker. apply _. Defined.

Definition by_discovered (a b : DiscoveredWorker) : Prop := by_worker (member a) (member b).
#[export] Instance by_discovered_dec a b : Decision (by_discovered a b).
Proof. unfold by_discovered. apply _. Defined.

(** [u64::from_le_bytes] of the first eight bytes of the digest. *)
Definition token `{Sha256} (json : list byte) : Z := le_val (take 8 (sha256 json)).

Definition topology_token `{Sha256} `{DiscoveryCodecs} (r : MemberRegistry) : Z :=
  token (members_json (merge_sort by_worker (filter (fun m => retired m = false) (members r)))).

(** A lease that may serve. *)
Definition candidate (i : NodeStatus) : bool :=
  bool_decide (role (node i) = Worker) && ready i && bool_decide (health i = Healthy).

(** The scan of the leases: a second candidate of a worker is a conflict for good. *)
Definition scan (candidates : gmap string (option NodeStatus)) (i : NodeStatus) : gmap string (option NodeStatus) :=
  match candidates !! id (node i) with
  | Some _ => <[id (node i) := None]> candidates
  | None => <[id (node i) := Some i]> candidates
  end.

Definition instance_state (candidates : gmap string (option NodeStatus)) (m : WorkerMember) : InstanceState :=
  match candidates !! worker_id m with
  | None => Offline
  | Some (Some i) => Serving (incarnation_id i) (address (node i))
  | Some None => Conflict
  end.

Definition retained `{Sha256} `{DiscoveryCodecs} (r : MemberRegistry) (instances : list NodeStatus) : WorkerDiscovery :=
  let candidates := foldl scan ∅ (filter (fun i => candidate i = true) instances) in
  let workers := (fun m => mkDiscovered m (instance_state candidates m)) <$> filter (fun m => retired m = false) (members r) in
  let workers := merge_sort by_discovered workers in
  mkDiscovery (topology_token r) (token (workers_json workers)) DISCOVERY_MAX_AGE_MS workers.

(** ** Theorems *)

(** The instances of a worker that may serve. *)
Definition leases (instances : list NodeStatus) (w : string) : list NodeStatus :=
  filter (fun i => candidate i = true /\ id (node i) = w) instances.

Definition state_of (l : list NodeStatus) : InstanceState :=
  match l with
  | [] => Offline
  | [i] => Serving (incarnation_id i) (address (node i))
  | _ => Conflict
  end.

Lemma scan_leases l c w : (foldl scan c l) !! w =
  match filter (fun i => id (node i) = w) l, c !! w with
  | [], x => x
  | [i], None => Some (Some i)
  | _, _ => Some None
  end.
Proof.
  revert c. induction l as [|i l IH]; intros c; cbn [foldl]; [done|]. rewrite IH, filter_cons. unfold scan.
  destruct (decide (id (node i) = w)) as [<-|Hne].
  - destruct (c !! id (node i)) as [x|] eqn:E; rewrite lookup_insert_eq; destruct (filter _ l) as [|? [|]]; done.
  - destruct (c !! id (node i)) as [x|]; by rewrite lookup_insert_ne.
Qed.

Lemma state_leases instances m :
  instance_state (foldl scan ∅ (filter (fun i => candidate i = true) instances)) m = state_of (leases instances (worker_id m)).
Proof.
  unfold instance_state. rewrite scan_leases, lookup_empty, list_filter_filter. unfold leases.
  rewrite (list_filter_iff (fun i => candidate i = true /\ id (node i) = worker_id m) (fun i => id (node i) = worker_id m /\ candidate i = true)) by tauto.
  by destruct (filter _ instances) as [|? [|]].
Qed.

Lemma state_of_perm l l' : l ≡ₚ l' -> state_of l = state_of l'.
Proof.
  intros Hp. pose proof (Permutation_length Hp) as Hl. destruct l as [|i [|j l]], l' as [|i' [|j' l']]; try done.
  by apply Permutation_singleton_inj in Hp as ->.
Qed.

(** *** Validation *)

Lemma validate_members_ok l ids n : validate_members l ids n = Ok tt ->
  NoDup (worker_id <$> l) /\ (forall m, m ∈ l -> worker_id m ∉ ids) /\
  (0 <= n <= MAX_CONTROL_PAYLOAD_BYTES -> n + foldr Z.add 0 (reserve <$> filter (fun m => retired m = false) l) <= MAX_CONTROL_PAYLOAD_BYTES).
Proof.
  revert ids n. induction l as [|m l IH]; intros ids n; cbn [validate_members].
  { intros _. splits; [constructor|by intros m Hm%elem_of_nil|cbn; lia]. }
  destruct (invalid_member m ids) eqn:Em; [done|].
  assert (worker_id m ∉ ids) as Hm.
  { unfold invalid_member in Em. rewrite !orb_false_iff, bool_decide_eq_false in Em. tauto. }
  assert (forall n', validate_members l ({[ worker_id m ]} ∪ ids) n' = Ok tt ->
    NoDup (worker_id <$> m :: l) /\ (forall m', m' ∈ m :: l -> worker_id m' ∉ ids) /\
    (0 <= n' <= MAX_CONTROL_PAYLOAD_BYTES -> n' + foldr Z.add 0 (reserve <$> filter (fun m => retired m = false) l) <= MAX_CONTROL_PAYLOAD_BYTES)) as Hstep.
  { intros n' Hv. destruct (IH _ _ Hv) as (Hnd & Hids & Hb). splits; [|set_solver|done]. cbn. constructor; [|done].
    intros (m' & E & Hin)%list_elem_of_fmap. apply (Hids m' Hin). set_solver. }
  rewrite filter_cons. destruct (retired m) eqn:Er.
  - intros Hv. destruct (Hstep n Hv) as (? & ? & ?). rewrite decide_False by done. done.
  - destruct (Z.ltb_spec MAX_CONTROL_PAYLOAD_BYTES (n + reserve m)); [done|]. intros Hv. destruct (Hstep _ Hv) as (? & ? & Hb).
    rewrite decide_True by done. splits; [done|done|]. cbn [fmap list_fmap foldr]. unfold reserve in *. lia.
Qed.

Lemma validate_ok r : validate r = Ok tt -> NoDup (worker_id <$> members r) /\
  64 + foldr Z.add 0 (reserve <$> filter (fun m => retired m = false) (members r)) <= MAX_CONTROL_PAYLOAD_BYTES.
Proof.
  unfold validate. destruct (negb _); [done|]. intros (Hnd & _ & Hb)%validate_members_ok. split; [done|]. apply Hb.
  unfold MAX_CONTROL_PAYLOAD_BYTES. change (Z.shiftl 1 20) with 1048576. lia.
Qed.

Lemma filter_ids (P : WorkerMember -> Prop) `{forall m, Decision (P m)} l : NoDup (worker_id <$> l) -> NoDup (worker_id <$> filter P l).
Proof. intros Hnd. eapply sublist_NoDup; [exact Hnd|]. apply fmap_sublist, sublist_filter. Qed.

(** What discovery should say of a member. *)
Definition view (instances : list NodeStatus) (m : WorkerMember) : DiscoveredWorker :=
  mkDiscovered m (state_of (leases instances (worker_id m))).

Definition active (r : MemberRegistry) : list WorkerMember := filter (fun m => retired m = false) (members r).

Section Theorems.
Context `{Sha256} `{DiscoveryCodecs}.

Lemma discovered_view r instances : discovered (retained r instances) = merge_sort by_discovered (view instances <$> active r).
Proof. cbn. f_equal. apply list_fmap_ext. intros i m _. unfold view. by rewrite state_leases. Qed.

Lemma views_perm r r' instances instances' : NoDup (worker_id <$> active r) -> members r ≡ₚ members r' -> instances ≡ₚ instances' ->
  merge_sort by_discovered (view instances' <$> active r') = merge_sort by_discovered (view instances <$> active r).
Proof.
  intros Hnd Hm Hi. rewrite (list_fmap_ext (view instances') (view instances) (active r')).
  - symmetry. apply (sort_perm (worker_id ∘ member)); [done|unfold active; by rewrite Hm|by rewrite <-list_fmap_compose].
  - intros i m _. unfold view. f_equal. apply state_of_perm. unfold leases. by rewrite Hi.
Qed.

Lemma topology_perm r r' : NoDup (worker_id <$> active r) -> members r ≡ₚ members r' -> topology_token r' = topology_token r.
Proof. intros Hnd Hm. unfold topology_token. do 2 f_equal. symmetry. apply (sort_perm worker_id); [done|by rewrite Hm|done]. Qed.

(** C15: The discovery view is exact: sorted by identity, it lists each active member once, as serving if exactly one
    ready and healthy worker lease carries its identity, in conflict if several do, and offline
    otherwise. Neither the order of the registry nor the order of the leases matters. *)
Theorem retained_exact r instances r' instances' :
  validate r = Ok tt -> members r ≡ₚ members r' -> instances ≡ₚ instances' ->
  retained r' instances' = retained r instances /\
  StronglySorted by_discovered (discovered (retained r instances)) /\
  NoDup (worker_id ∘ member <$> discovered (retained r instances)) /\
  forall w, w ∈ discovered (retained r instances) <->
    member w ∈ members r /\ retired (member w) = false /\ state w = state_of (leases instances (worker_id (member w))).
Proof.
  intros [Hnd _]%validate_ok Hm Hi.
  pose proof (filter_ids (fun m => retired m = false) _ Hnd) as Hnd'.
  pose proof (views_perm r r' instances instances' Hnd' Hm Hi) as Hv. rewrite <-!discovered_view in Hv.
  split; [unfold retained in *; cbn in Hv; by rewrite Hv, (topology_perm r r')|]. rewrite discovered_view. splits.
  - apply StronglySorted_merge_sort; intros a b; unfold by_discovered, by_worker; [intros c; apply transitivity|apply (total String.le)].
  - rewrite (merge_sort_Permutation by_discovered), <-list_fmap_compose. exact Hnd'.
  - intros w. rewrite (merge_sort_Permutation by_discovered), list_elem_of_fmap. split.
    + intros (m & -> & [? ?]%list_elem_of_filter). done.
    + intros (Hin & Hr & Hs). exists (member w). split; [destruct w; unfold view; cbn in *; by rewrite <-Hs|]. by apply list_elem_of_filter.
Qed.

Lemma sum_perm (l l' : list Z) : l ≡ₚ l' -> foldr Z.add 0 l = foldr Z.add 0 l'.
Proof. induction 1; cbn; lia. Qed.

(** A worker takes no more of a reply than the registry reserves for it. *)
Lemma view_size instances m : Forall (fun i => Status.validate i = Ok tt) instances ->
  member_size m + state_size (state (view instances m)) <= reserve m.
Proof.
  intros Hall. assert (state_size (state (view instances m)) <= 4 + 16 + 2 * Z.of_nat MAX_STATUS_FIELD_BYTES) as Hs.
  { unfold view, state, state_of, state_size. destruct (leases instances (worker_id m)) as [|i [|]] eqn:El; [lia| |lia].
    assert (i ∈ leases instances (worker_id m)) as [_ Hi]%list_elem_of_filter by (rewrite El; set_solver).
    rewrite Forall_forall in Hall. destruct (validate_fields i (Hall i Hi)) as [[_ ?] [_ ?]]. lia. }
  unfold member_size, reserve, zone_len. destruct (zone m); lia.
Qed.

(** A discovery reply always fits: whatever leases the members of an accepted registry hold, as long as each
    status passed validation, the encoded reply is no longer than the cap on control payloads that a client
    enforces before it reads one. *)
Theorem discovery_fits r instances :
  validate r = Ok tt -> Forall (fun i => Status.validate i = Ok tt) instances ->
  reply_size (retained r instances) <= Frame.MAX_CONTROL_PAYLOAD_LEN.
Proof.
  intros [_ Hb]%validate_ok Hall. rewrite reply_size_ok, discovered_view, (sum_perm _ _ (fmap_Permutation _ _ _ (merge_sort_Permutation by_discovered _))), <-list_fmap_compose.
  change Frame.MAX_CONTROL_PAYLOAD_LEN with MAX_CONTROL_PAYLOAD_BYTES. fold (active r) in Hb.
  enough (foldr Z.add 0 ((fun w => member_size (member w) + state_size (state w)) ∘ view instances <$> active r) <= foldr Z.add 0 (reserve <$> active r)) by lia.
  clear Hb. induction (active r) as [|m l IH]; [done|]. rewrite !fmap_cons. cbn [foldr].
  pose proof (view_size instances m Hall). unfold compose in *. change (member (view instances m)) with m. lia.
Qed.

End Theorems.

(** *** A registry with a served, a contested, an offline and a retired worker *)

Definition demo_codecs : DiscoveryCodecs := {|
  members_json := fun _ => []; workers_json := fun _ => [];
  reply_size := fun d => 2 + 4 + (8 + 8 + 8 + 8) + foldr Z.add 0 ((fun w => member_size (member w) + state_size (state w)) <$> discovered d);
  reply_size_ok := fun _ => eq_refl |}.

Definition demo_registry : MemberRegistry :=
  mkRegistry 1 [mkMember "w2" (Some "a") false; mkMember "w1" None false; mkMember "w0" None true; mkMember "w3" None false].

Definition demo_lease (w incarnation : string) : NodeStatus :=
  mkStatus NODE_STATUS_SCHEMA_VERSION "c" (mkNode w "10.0.0.1:7000" Worker) incarnation None "1.0" 1 2 3 Healthy true
    (mkMetrics 0 0 0 0 0 0 0 0 0 0 0 0 0) [].

Definition demo_leases : list NodeStatus := [demo_lease "w2" "a"; demo_lease "w1" "b"; demo_lease "w1" "c"].

Lemma retained_exact_witness :
  discovered (@retained toy_sha256 demo_codecs demo_registry demo_leases) =
    [mkDiscovered (mkMember "w1" None false) Conflict; mkDiscovered (mkMember "w2" (Some "a") false) (Serving "a" "10.0.0.1:7000");
     mkDiscovered (mkMember "w3" None false) Offline] /\
  @retained toy_sha256 demo_codecs (mkRegistry 1 (reverse (members demo_registry))) (reverse demo_leases) =
    @retained toy_sha256 demo_codecs demo_registry demo_leases.
Proof.
  split; [vm_compute; reflexivity|].
  apply (@retained_exact toy_sha256 demo_codecs demo_registry demo_leases).
  - vm_compute; reflexivity.
  - symmetry. apply reverse_Permutation.
  - symmetry. apply reverse_Permutation.
Defined.

Lemma discovery_fits_witness :
  @reply_size demo_codecs (@retained toy_sha256 demo_codecs demo_registry demo_leases) <= Frame.MAX_CONTROL_PAYLOAD_LEN.
Proof.
  apply (@discovery_fits toy_sha256 demo_codecs).
  - vm_compute; reflexivity.
  - repeat constructor.
Defined.

End Membership.
