(* ===== verification/Control.v ===== *)
(** Control messages on the wire (crates/talon-transport/src/codec.rs): what is validated before a message is
    encoded and after it is decoded, the schema check, and bounded diagnostics. [bincode] of the envelope
    is a parameter. *)

From stdpp Require Import strings gmap.
From S2P Require Import Prelude External Bytes Key Namespace Trace Broker Frame Envelope EnvelopeSpec Placement Status Membership Data.

#[local] Set Warnings "-clear-no-such-hyp".

Module Control.
Import Key (str, s, ObjectId, BlockId).
Import Broker.
Import Frame.
Import Envelope.

Definition CONTROL_SCHEMA_VERSION : Z := 6.
Definition MIN_CONTROL_SCHEMA_VERSION : Z := CONTROL_SCHEMA_VERSION.

Definition MAX_BATCH_LOAD_BLOCKS : nat := 1024.
Definition MAX_BATCH_LOAD_BYTES : Z := MAX_CONTROL_PAYLOAD_LEN - ENVELOPE_OVERHEAD.
Definition MAX_LOAD_ERROR_BYTES : nat := 256.

Record LoadBlockFailure := mkFailure { index : Z; error : str }.

(** [str::is_char_boundary] *)
Definition is_char_boundary (x : str) (i : nat) : bool :=
  match i with
  | O => true
  | _ => if (length x <=? i)%nat then (i =? length x)%nat
         else match x !! i with Some b => negb (Bytes.continuation b) | None => false end
  end.

(** [while !error.is_char_boundary(end) { end -= 1 }] *)
Fixpoint floor_boundary (x : str) (e : nat) : nat :=
  if is_char_boundary x e then e else match e with O => O | S e => floor_boundary x e end.

Definition LoadBlockFailure_new (index : Z) (error : str) : LoadBlockFailure :=
  mkFailure index (take (floor_boundary error (Nat.min (length error) MAX_LOAD_ERROR_BYTES)) error).

Record LoadBlockRequest := mkLoadBlock { lb_block : BlockId; lb_len : Z }.
Record ObjectEntry := mkEntry { oe_path : str; oe_size : Z }.

Inductive ControlMessage :=
  | PlacementLookup (block : BlockId) (k : Z)
  | PlacementResponse (owners : list string) (epoch : Z)
  | Load (object : ObjectId) (offset len : Z)
  | EpochBump (epoch : Z)
  | MembershipQuery
  | MembershipList (view : Membership.WorkerDiscovery)
  | Ack (ok : bool) (detail : option str)
  | NodeStatusHeartbeat (status : Status.NodeStatus)
  | StatObject (object : ObjectId)
  | ObjectStat (size : Z) (version : str)
  | ListObjects (prefix : str)
  | ObjectList (entries : list ObjectEntry)
  | MappingRevisionQuery (namespace : str)
  | MappingRevisionValue (namespace : str) (revision : Z)
  | StaleMapping (namespace : str) (current : Z)
  | MappingRevisionUpdate (cluster_id namespace : str) (revision : Z) (coordinator_id coordinator_incarnation : str)
  | MappingRevisionAck (cluster_id namespace : str) (revision : Z) (worker_id worker_incarnation : str)
  | NodeStatusAck (accepted serving : bool) (detail : option str)
  | ControlFailure (code : Data.DataErrorCode) (message : str)
  | LoadBlock (block : BlockId) (len : Z)
  | BatchLoad (blocks : list LoadBlockRequest)
  | BatchLoadResult (failures : list LoadBlockFailure).

Definition minimum_schema (m : ControlMessage) : Z := CONTROL_SCHEMA_VERSION.

Record Envelope := mkEnvelope { schema : Z; message : ControlMessage }.

Inductive CodecError :=
  | InvalidBatchLoad (what : string)
  | FrameFailed (e : FrameError)
  | NotControl (t : MsgType)
  | LengthMismatch (declared actual : Z)
  | UnsupportedSchema (got ours : Z)
  | MessageRequiresSchema (required selected : Z)
  | InvalidNodeStatus (e : Status.NodeStatusError)
  | NodeStatusTooLarge (got max : Z)
  | BincodeFailed.

(** [bincode] of the envelope, with fixed-width integers: the schema is the first two bytes, the message is the
    rest; [serialized_size] is the length that [serialize] produces; [deserialize] ignores trailing bytes and
    fails on an input shorter than the first field. *)
Class ControlCodec := {
  serialize : Envelope -> option (list byte);
  deserialize : list byte -> option Envelope;
  message_size : ControlMessage -> option Z;
  status_size : Status.NodeStatus -> option Z;
  envelope_round : forall env b, serialize env = Some b -> deserialize b = Some env;
  envelope_schema : forall env b, serialize env = Some b -> take 2 b = le_bytes 2 (schema env);
  envelope_size : forall env b, serialize env = Some b -> message_size (message env) = Some (Z.of_nat (length b) - 2);
  envelope_short : forall b, (length b < 2)%nat -> deserialize b = None;
  envelope_read : forall b env, deserialize b = Some env -> schema env = le_val (take 2 b);
  failures_size : forall l n, message_size (BatchLoadResult l) = Some n ->
    n = 4 + 8 + foldr Z.add 0 ((fun f => 4 + 8 + Z.of_nat (length (error f))) <$> l);
  heartbeat_size : forall st n, message_size (NodeStatusHeartbeat st) = Some n -> status_size st = Some (n - 4)
}.

Section Codec.
Context `{ControlCodec} `{BrokerLibs}.

Definition validate_schema (schema max_schema : Z) : result CodecError unit :=
  if (MIN_CONTROL_SCHEMA_VERSION <=? schema) && (schema <=? max_schema) then Ok tt else Err (UnsupportedSchema schema max_schema).

(** [windows(2).any(|pair| pair[0].index >= pair[1].index)] *)
Fixpoint disordered (l : list LoadBlockFailure) : bool :=
  match l with
  | f :: ((g :: _) as l') => (index g <=? index f) || disordered l'
  | _ => false
  end.

Definition validate_message (m : ControlMessage) (schema : Z) : result CodecError unit :=
  let required := minimum_schema m in
  if schema <? required then Err (MessageRequiresSchema required schema) else
  match m with
  | BatchLoad blocks =>
    if (length blocks =? 0)%nat || (MAX_BATCH_LOAD_BLOCKS <? length blocks)%nat
    then Err (InvalidBatchLoad "expected 1..=1024 assignments") else
    match message_size m with
    | None => Err BincodeFailed
    | Some n => if MAX_BATCH_LOAD_BYTES <? 2 + n then Err (InvalidBatchLoad "encoded body exceeds control-frame limit") else Ok tt
    end
  | BatchLoadResult failures =>
    if (MAX_BATCH_LOAD_BLOCKS <? length failures)%nat ||
       existsb (fun f => (Z.of_nat MAX_BATCH_LOAD_BLOCKS <=? index f) || (MAX_LOAD_ERROR_BYTES <? length (error f))%nat) failures ||
       disordered failures
    then Err (InvalidBatchLoad "invalid batch failure list") else Ok tt
  | NodeStatusHeartbeat status =>
    match Status.validate status with
    | Err e => Err (InvalidNodeStatus e)
    | Ok _ =>
      match status_size status with
      | None => Err BincodeFailed
      | Some got => if Status.MAX_NODE_STATUS_BYTES <? got then Err (NodeStatusTooLarge got Status.MAX_NODE_STATUS_BYTES) else Ok tt
      end
    end
  | _ => Ok tt
  end.

Definition encode_for_schema (id : Z) (m : ControlMessage) (schema : Z) : result CodecError (list byte) :=
  _ ← validate_schema schema CONTROL_SCHEMA_VERSION;
  _ ← validate_message m schema;
  match serialize (mkEnvelope schema m) with
  | None => Err BincodeFailed
  | Some body => Ok (Frame.encode (new Frame.Control id (wrap 32 (Z.of_nat (length body)))) ++ body)
  end.

Definition encode (id : Z) (m : ControlMessage) : result CodecError (list byte) := encode_for_schema id m (minimum_schema m).

Definition lift_frame {A} (r : result FrameError A) : result CodecError A :=
  match r with Ok a => Ok a | Err e => Err (FrameFailed e) end.

(** [None] is the [unreachable!] of a truncated envelope that deserializes. *)
Definition peek_schema (body : list byte) : option (result CodecError Z) :=
  if (length body <? 2)%nat then match deserialize body with None => Some (Err BincodeFailed) | Some _ => None end
  else Some (Ok (le_val (take 2 body))).

Definition decode_business (h : FrameHeader) (body : list byte) (max_schema : Z) : option (result CodecError (FrameHeader * ControlMessage)) :=
  r ← peek_schema body;
  Some (schema_ ← r;
        _ ← validate_schema schema_ max_schema;
        match deserialize body with
        | None => Err BincodeFailed
        | Some env => _ ← validate_message (message env) (schema env); Ok (h, message env)
        end).

Definition decode_with_max_schema (buf : list byte) (max_schema : Z) : option (result CodecError (FrameHeader * ControlMessage)) :=
  match Frame.decode buf with
  | Err e => Some (Err (FrameFailed e))
  | Ok h =>
    if negb (bool_decide (msg_type h = Frame.Control)) then Some (Err (NotControl (msg_type h))) else
    let body := drop HEADER_LEN buf in
    if negb (Z.of_nat (length body) =? length_ h) then Some (Err (LengthMismatch (length_ h) (Z.of_nat (length body))))
    else decode_business h body max_schema
  end.

Definition decode (buf : list byte) : option (result CodecError (FrameHeader * ControlMessage)) :=
  decode_with_max_schema buf CONTROL_SCHEMA_VERSION.

Definition decode_request (buf : list byte) : option (result CodecError (FrameHeader * ControlMessage)) :=
  match Frame.decode buf with
  | Err e => Some (Err (FrameFailed e))
  | Ok h =>
    if negb (bool_decide (msg_type h = Frame.Control)) then Some (Err (NotControl (msg_type h))) else
    if version h =? 1 then decode buf else
    match Envelope.decode h (drop HEADER_LEN buf) with
    | Err e => Some (Err (FrameFailed e))
    | Ok (_, business) => decode_business h business CONTROL_SCHEMA_VERSION
    end
  end.

Definition request_schema (h : FrameHeader) (payload : list byte) : option (result CodecError Z) :=
  match Envelope.decode h payload with
  | Err e => Some (Err (FrameFailed e))
  | Ok (_, business) => peek_schema business
  end.

(** *** What a message has to satisfy *)

(** Declaratively, what both ends enforce. *)
Definition well_formed (m : ControlMessage) : Prop :=
  match m with
  | BatchLoad blocks => (1 <= length blocks <= 1024)%nat /\ exists n, message_size m = Some n /\ n + 2 + ENVELOPE_OVERHEAD <= MAX_CONTROL_PAYLOAD_LEN
  | BatchLoadResult failures => (length failures <= 1024)%nat /\
      Forall (fun f => index f < 1024 /\ (length (error f) <= 256)%nat) failures /\ StronglySorted (fun f g => index f < index g) failures
  | NodeStatusHeartbeat status => Status.validate status = Ok tt /\ exists n, status_size status = Some n /\ n <= 16384
  | _ => True
  end.

Lemma disordered_sorted l : disordered l = false <-> StronglySorted (fun f g => index f < index g) l.
Proof.
  split.
  - intros Hd. apply Sorted_StronglySorted; [intros f g h; lia|]. induction l as [|f [|g l] IH]; [constructor|repeat constructor|].
    cbn [disordered] in Hd. apply orb_false_iff in Hd as [?%Z.leb_gt Hd]. constructor; [by apply IH|constructor; lia].
  - induction 1 as [|f l Hs IH Hall]; [done|]. destruct l as [|g l]; [done|]. cbn [disordered]. apply Forall_cons in Hall as [? _].
    apply orb_false_iff. split; [by apply Z.leb_gt|exact IH].
Qed.

Lemma validate_message_ok m schema : validate_message m schema = Ok tt <-> 6 <= schema /\ well_formed m.
Proof.
  unfold validate_message, minimum_schema, CONTROL_SCHEMA_VERSION. destruct (Z.ltb_spec schema 6); [split; [done|lia]|].
  destruct m as [| | | | | | |status| | | | | | | | | | | | |blocks|failures]; cbn [well_formed]; try (split; [done|done]).
  - destruct (Status.validate status) as [[]|e]; [|naive_solver]. destruct (status_size status) as [n|]; [|naive_solver].
    change Status.MAX_NODE_STATUS_BYTES with 16384. destruct (Z.ltb_spec 16384 n); naive_solver lia.
  - unfold MAX_BATCH_LOAD_BLOCKS, MAX_BATCH_LOAD_BYTES. destruct (Nat.eqb_spec (length blocks) 0), (Nat.ltb_spec 1024 (length blocks)); cbn [orb]; try naive_solver lia.
    destruct (message_size _) as [size|]; [|naive_solver]. destruct (Z.ltb_spec (MAX_CONTROL_PAYLOAD_LEN - ENVELOPE_OVERHEAD) (2 + size)); naive_solver lia.
  - unfold MAX_BATCH_LOAD_BLOCKS, MAX_LOAD_ERROR_BYTES. rewrite <-disordered_sorted.
    destruct (Nat.ltb_spec 1024 (length failures)); cbn [orb]; [naive_solver lia|].
    destruct (existsb _ failures) eqn:Ee; cbn [orb].
    + split; [done|]. intros (_ & _ & Hall & _). apply existsb_exists in Ee as (f & Hf%list_elem_of_In & Hb).
      rewrite Forall_forall in Hall. specialize (Hall f Hf) as [? ?]. apply orb_true_iff in Hb as [?%Z.leb_le|?%Nat.ltb_lt]; lia.
    + assert (Forall (fun f => index f < 1024 /\ (length (error f) <= 256)%nat) failures).
      { apply Forall_forall. intros f Hf. apply not_true_iff_false in Ee. split; apply dec_stable; intros ?; apply Ee, existsb_exists;
        exists f; (split; [by apply list_elem_of_In|]); apply orb_true_iff; [left; apply Z.leb_le; lia|right; apply Nat.ltb_lt; lia]. }
      destruct (disordered failures); naive_solver.
Qed.

Lemma validate_schema_ok v : validate_schema v CONTROL_SCHEMA_VERSION = Ok tt <-> v = 6.
Proof.
  unfold validate_schema, MIN_CONTROL_SCHEMA_VERSION, CONTROL_SCHEMA_VERSION.
  destruct (Z.leb_spec 6 v), (Z.leb_spec v 6); cbn [andb]; first [split; [done|lia]|split; [intros _; lia|done]].
Qed.

(** *** Encoding *)

Lemma encode_ok id m frame : encode id m = Ok frame <->
  well_formed m /\ exists body, serialize (mkEnvelope 6 m) = Some body /\
    frame = Frame.encode (new Frame.Control id (wrap 32 (Z.of_nat (length body)))) ++ body.
Proof.
  unfold encode, encode_for_schema, minimum_schema. rewrite (proj2 (validate_schema_ok 6) eq_refl : validate_schema CONTROL_SCHEMA_VERSION _ = _).
  cbn [mbind result_bind]. change CONTROL_SCHEMA_VERSION with 6. destruct (validate_message m 6) as [[]|e] eqn:Ev.
  - apply validate_message_ok in Ev as [_ Hw]. cbn [mbind result_bind]. destruct (serialize _) as [b|].
    + split; [intros <-%Ok_same; eauto|]. by intros (_ & b' & [= <-] & ->).
    + split; [done|]. by intros (_ & ? & ? & _).
  - split; [done|]. intros [Hw _]. assert (validate_message m 6 = Ok tt) by (by apply validate_message_ok). congruence.
Qed.

(** *** Decoding *)

Lemma decode_business_ok h body m h' : decode_business h body CONTROL_SCHEMA_VERSION = Some (Ok (h', m)) <->
  h' = h /\ well_formed m /\ deserialize body = Some (mkEnvelope 6 m).
Proof.
  unfold decode_business, peek_schema. destruct (Nat.ltb_spec (length body) 2).
  { rewrite envelope_short by done. cbn. split; [done|]. by intros (_ & _ & ?). }
  cbn [mbind option_bind result_bind]. split.
  - destruct (validate_schema _ _) as [[]|] eqn:Es; [|done]. cbn [mbind result_bind]. apply validate_schema_ok in Es.
    destruct (deserialize body) as [[sc m']|] eqn:Ed; [|done]. cbn [message schema]. pose proof (envelope_read _ _ Ed) as Hr. cbn [schema] in Hr.
    destruct (validate_message m' sc) as [[]|] eqn:Ev; [|done]. cbn [mbind result_bind]. intros [= <- <-].
    apply validate_message_ok in Ev as [_ ?]. splits; [done|done|congruence].
  - intros (-> & Hw & Ed). pose proof (envelope_read _ _ Ed) as Hr. cbn [schema] in Hr. rewrite <-Hr.
    rewrite (proj2 (validate_schema_ok 6) eq_refl), Ed. cbn [mbind result_bind message schema].
    by rewrite (proj2 (validate_message_ok m 6)).
Qed.

Lemma decode_business_total h body : decode_business h body CONTROL_SCHEMA_VERSION <> None.
Proof. unfold decode_business, peek_schema. destruct (Nat.ltb_spec (length body) 2); [|done]. by rewrite envelope_short. Qed.

Lemma decode_request_ok buf h m : decode_request buf = Some (Ok (h, m)) ->
  Frame.decode buf = Ok h /\ msg_type h = Frame.Control /\ well_formed m.
Proof.
  unfold decode_request, decode, decode_with_max_schema. destruct (Frame.decode buf) as [h'|]; [|done].
  case_bool_decide as Ht; [|done]. cbn [negb]. destruct (version h' =? 1).
  - destruct (negb _); [done|]. intros (-> & ? & _)%decode_business_ok. done.
  - destruct (Envelope.decode _ _) as [[md b]|]; [|done]. intros (-> & ? & _)%decode_business_ok. done.
Qed.

Lemma decode_request_total buf : decode_request buf <> None.
Proof.
  unfold decode_request, decode, decode_with_max_schema. destruct (Frame.decode buf) as [h|]; [|done].
  destruct (negb (bool_decide (msg_type h = Frame.Control))); [done|]. destruct (version h =? 1).
  - destruct (negb _); [done|]. apply decode_business_total.
  - destruct (Envelope.decode _ _) as [[md b]|]; [|done]. apply decode_business_total.
Qed.

(** C13: Both ends hold control messages to the same type: a message is encoded exactly when it is well formed (and
    [bincode] can write it), and any buffer is decoded, without a panic, to an error or to a well
    formed message of a control frame. *)
Theorem control_checked :
  (forall id m, (exists frame, encode id m = Ok frame) <-> well_formed m /\ is_Some (serialize (mkEnvelope 6 m))) /\
  (forall buf, decode_request buf <> None /\
    forall h m, decode_request buf = Some (Ok (h, m)) -> msg_type h = Frame.Control /\ well_formed m).
Proof.
  splits.
  - intros id m. setoid_rewrite encode_ok. split; [intros (? & ? & b & -> & _); eauto|]. intros (Hw & b & Hs). eauto 6.
  - intros buf. split; [apply decode_request_total|]. intros h m (_ & ? & ?)%decode_request_ok. done.
Qed.

Import EnvelopeSpec.

(** A receiver decodes the message that a frame carries, with or without an envelope. *)
Lemma decode_carried_control frame h t n k body m : carries frame h t n k body -> msg_type h = Frame.Control ->
  well_formed m -> deserialize body = Some (mkEnvelope 6 m) ->
  decode_request frame = Some (Ok (h, m)) /\ request_schema h (drop HEADER_LEN frame) = Some (Ok 6).
Proof.
  intros Hc Ht Hw Hd. destruct (carried_decodes _ _ _ _ _ _ Hc) as (Hf & Hl & He).
  assert (decode_business h body CONTROL_SCHEMA_VERSION = Some (Ok (h, m))) as Hb by (by apply decode_business_ok). split.
  - unfold decode_request. rewrite Hf, bool_decide_true by done. cbn [negb]. destruct (Z.eqb_spec (version h) 1) as [E|]; [|by rewrite He].
    destruct (carries_plain _ _ _ _ _ _ Hc E) as (_ & _ & _ & -> & Hlen). unfold decode, decode_with_max_schema.
    rewrite Hf, bool_decide_true by done. rewrite drop_app_length' by done. by rewrite Hlen, Z.eqb_refl.
  - unfold request_schema, peek_schema. rewrite He. destruct (Nat.ltb_spec (length body) 2); [by rewrite envelope_short in Hd|].
    by rewrite <-(envelope_read _ _ Hd).
Qed.

(** A control message that is encoded and sent with the carrier of its task is read from the socket whole and
    decoded to the same message under the same request number, with the schema it was written in. *)
Theorem control_delivered env id m name frame :
  encode id m = Ok frame -> is_u32 id -> Z.of_nat (length frame) <= 16 + MAX_CONTROL_PAYLOAD_LEN -> good_env env -> good_name name ->
  exists frame' h' payload,
    outbound_namespace_context env frame name = Some (Ok frame') /\
    (forall rest e, read_frame (mkStream (frame' ++ rest) e) = (length_ h', Ok (h', payload, mkStream rest e))) /\
    decode_request (Frame.encode h' ++ payload) = Some (Ok (h', m)) /\ request_id h' = id /\ request_schema h' payload = Some (Ok 6).
Proof.
  intros (Hw & body & Hs & ->)%encode_ok Hid Hlen Henv Hname. rewrite length_app in Hlen.
  change (length (Frame.encode _)) with 16%nat in Hlen. change MAX_CONTROL_PAYLOAD_LEN with 1048576 in Hlen.
  rewrite wrap_small by (unfold is_u; lia).
  assert (carries (Frame.encode (new Frame.Control id (Z.of_nat (length body))) ++ body) (new Frame.Control id (Z.of_nat (length body))) None None None body) as Hc
    by (apply Data.plain_carries; [done|unfold Data.request_sized; change MAX_CONTROL_PAYLOAD_LEN with 1048576; lia|done]).
  destruct (outbound_sends env _ _ None None None body name Hc Henv Hname) as (frame' & h' & E & (Hty & _ & Hrid) & _ & _ & Hc').
  { by intros (? & ? & _ & ? & _). }
  { by intros (_ & ? & ? & _). }
  destruct (decode_carried_control frame' h' _ _ _ body m Hc' Hty Hw (envelope_round _ _ Hs)) as [Hd Hsch].
  exists frame', h', (drop HEADER_LEN frame'). splits; [exact E|intros; by eapply carried_reads| |done|exact Hsch].
  by destruct (carried_reads _ _ _ _ _ _ [] Closed Hc') as [<- _].
Qed.

(** *** Bounds *)

Lemma sum_bound {A} (f : A -> Z) (c : Z) l : Forall (fun x => f x <= c) l -> foldr Z.add 0 (f <$> l) <= c * Z.of_nat (length l).
Proof. induction 1; [cbn; lia|]. rewrite fmap_cons. cbn [foldr length]. lia. Qed.

(** The messages whose size the codec bounds. *)
Definition sized (m : ControlMessage) : bool :=
  match m with BatchLoad _ | BatchLoadResult _ | NodeStatusHeartbeat _ => true | _ => false end.

(** The frames of batches, batch replies and heartbeats that the codec accepts are within the cap on control
    payloads even with the tracing envelope on top. *)
Theorem batches_fit id m frame :
  encode id m = Ok frame -> sized m = true -> Z.of_nat (length frame) <= 16 + MAX_CONTROL_PAYLOAD_LEN - ENVELOPE_OVERHEAD.
Proof.
  intros (Hw & body & Hs & ->)%encode_ok Hm. rewrite length_app. change (length (Frame.encode _)) with 16%nat.
  pose proof (envelope_size _ _ Hs) as Hsize. cbn [message] in Hsize.
  change MAX_CONTROL_PAYLOAD_LEN with 1048576 in *. change ENVELOPE_OVERHEAD with 1026 in *.
  destruct m as [| | | | | | |status| | | | | | | | | | | | |blocks|failures]; try done; cbn [well_formed] in Hw.
  - destruct Hw as (_ & n & Hn & ?). rewrite (heartbeat_size _ _ Hsize) in Hn. injection Hn as <-. lia.
  - destruct Hw as (_ & n & Hn & ?). change MAX_CONTROL_PAYLOAD_LEN with 1048576 in *. change ENVELOPE_OVERHEAD with 1026 in *. rewrite Hsize in Hn. injection Hn as <-. lia.
  - destruct Hw as (Hl & Hall & _). apply failures_size in Hsize.
    assert (foldr Z.add 0 ((fun f => 4 + 8 + Z.of_nat (length (error f))) <$> failures) <= 268 * Z.of_nat (length failures)); [|lia].
    apply (sum_bound (fun f => 4 + 8 + Z.of_nat (length (error f)))). eapply Forall_impl; [exact Hall|]. intros f [_ ?]. lia.
Qed.

Lemma floor_boundary_ok x e : let i := floor_boundary x e in
  (i <= e)%nat /\ is_char_boundary x i = true /\ forall j, (i < j <= e)%nat -> is_char_boundary x j = false.
Proof.
  induction e as [|e IH]; cbn [floor_boundary]; [cbn; splits; [lia|done|lia]|].
  destruct (is_char_boundary x (S e)) eqn:Eb; cbv zeta; [splits; [lia|done|lia]|]. destruct IH as (? & ? & Hj). splits; [lia|done|].
  intros j ?. destruct (decide (j = S e)) as [->|]; [done|]. apply Hj. lia.
Qed.

Lemma boundary_starts x i : (i <= length x)%nat -> Bytes.utf8 x = true -> is_char_boundary x i = true <-> Bytes.starts x i.
Proof.
  intros Hi Hu. unfold is_char_boundary, Bytes.starts. destruct i as [|i].
  - split; [|done]. intros _ b Hb. destruct x as [|b' x]; [done|]. injection Hb as <-. by eapply Bytes.utf8_first.
  - destruct (Nat.leb_spec (length x) (S i)).
    + rewrite lookup_ge_None_2 by done. split; [done|]. intros _. apply Nat.eqb_eq. lia.
    + destruct (lookup_lt_is_Some_2 x (S i)) as [b ->]; [lia|]. rewrite negb_true_iff. naive_solver.
Qed.

Lemma failure_new_ok i x : Bytes.utf8 x = true ->
  let f := LoadBlockFailure_new i x in
  index f = i /\ error f `prefix_of` x /\ Bytes.utf8 (error f) = true /\ (length (error f) <= 256)%nat /\
  (error f = x \/ (253 <= length (error f))%nat).
Proof.
  intros Hu. unfold LoadBlockFailure_new, MAX_LOAD_ERROR_BYTES. cbn [index error].
  destruct (floor_boundary_ok x (Nat.min (length x) 256)) as (Hle & Hb & Hmax). set (j := floor_boundary x _) in *.
  rewrite length_take_le by lia. splits; [done|by exists (drop j x); rewrite take_drop| |lia|].
  - apply (Bytes.utf8_cut (length x)); [lia|done|]. apply boundary_starts; [lia|done|done].
  - destruct (decide (j = length x)) as [->|Hne]; [left; by rewrite firstn_all|right].
    destruct (Bytes.utf8_starts (length x) x (Nat.min (length x) 256)) as (k & ? & ? & Hk); [lia|done|].
    apply boundary_starts in Hk; [|lia|done]. assert (is_char_boundary x (length x) = true) as Hend.
    { unfold is_char_boundary. destruct (length x) eqn:El; [done|]. by rewrite Nat.leb_refl, Nat.eqb_refl. }
    destruct (decide (length x <= 256)%nat); [rewrite (Hmax (length x)) in Hend by lia; done|].
    destruct (decide (j < k)%nat); [rewrite (Hmax k) in Hk by lia; done|lia].
Qed.

Lemma StronglySorted_fmap {A B} (f : A -> B) (R : B -> B -> Prop) l :
  StronglySorted (fun x y => R (f x) (f y)) l -> StronglySorted R (f <$> l).
Proof. induction 1; cbn; constructor; [done|]. by apply Forall_fmap. Qed.

Lemma sorted_length (l : list Z) lo hi : StronglySorted Z.lt l -> Forall (fun x => lo <= x < hi) l -> Z.of_nat (length l) <= Z.max 0 (hi - lo).
Proof.
  intros Hs. revert lo. induction Hs as [|x l Hs IH Hx]; intros lo Hall; [cbn; lia|]. apply Forall_cons in Hall as [? Hall].
  cbn [length]. pose proof (IH (x + 1)) as Hi. assert (Forall (fun y => x + 1 <= y < hi) l) as Hf.
  { apply Forall_forall. intros y Hy. rewrite Forall_forall in Hx, Hall. specialize (Hx y Hy). specialize (Hall y Hy). lia. }
  specialize (Hi Hf). lia.
Qed.

(** C14: Whatever a batch reports, its reply can be sent: diagnostics of any length are cut to at most 256 bytes
    between two characters, losing at most three bytes more than needed, and nothing of those that fit;
    the list of failures so built, in the order of the assignments, passes validation. *)
Theorem diagnostics_bounded (reports : list (Z * str)) :
  StronglySorted (fun r r' => r.1 < r'.1) reports -> Forall (fun r => 0 <= r.1 < 1024 /\ Bytes.utf8 r.2 = true) reports ->
  let failures := (fun r => LoadBlockFailure_new r.1 r.2) <$> reports in
  well_formed (BatchLoadResult failures) /\
  Forall2 (fun r f => index f = r.1 /\ error f `prefix_of` r.2 /\ Bytes.utf8 (error f) = true /\
    (error f = r.2 \/ (253 <= length (error f) < length r.2)%nat)) reports failures.
Proof.
  intros Hs Hall failures. assert (forall r, r ∈ reports -> Bytes.utf8 r.2 = true) as Hu by (rewrite Forall_forall in Hall; firstorder).
  cbn [well_formed]. subst failures. rewrite length_fmap, Forall_fmap. splits.
  - enough (Z.of_nat (length (fst <$> reports)) <= Z.max 0 (1024 - 0)) by (rewrite length_fmap in *; lia).
    apply sorted_length; [|rewrite Forall_fmap; eapply Forall_impl; [exact Hall|]; cbn; tauto].
    by apply StronglySorted_fmap.
  - rewrite Forall_forall in *. intros r Hr. cbn. destruct (failure_new_ok r.1 r.2 (Hu r Hr)) as (_ & _ & _ & ? & _). split; [|done]. by apply Hall.
  - by apply StronglySorted_fmap.
  - apply Forall2_fmap_r, Forall_Forall2_diag, Forall_forall. intros r Hr. destruct (failure_new_ok r.1 r.2 (Hu r Hr)) as (? & Hp & ? & ? & Hor).
    unfold compose. splits; [done|done|done|]. destruct (decide (error (LoadBlockFailure_new r.1 r.2) = r.2)); [by left|right]. destruct Hor; [done|].
    split; [done|]. destruct Hp as [z Hz]. apply (f_equal length) in Hz as Hl. rewrite length_app in Hl. destruct z; [rewrite app_nil_r in Hz; done|rewrite length_cons in Hl; lia].
Qed.

End Codec.

(** ** Two messages *)

Section Demo.

(** The [bincode] form of an epoch and of an empty batch reply. *)
Definition demo_serialize (env : Envelope) : option (list byte) :=
  if negb (schema env =? 6) then None else
  match message env with
  | EpochBump 7 => Some (le_bytes 2 6 ++ le_bytes 4 3 ++ le_bytes 8 7)
  | BatchLoadResult [] => Some (le_bytes 2 6 ++ le_bytes 4 21 ++ le_bytes 8 0)
  | _ => None
  end.

Definition demo_deserialize (b : list byte) : option Envelope :=
  if bool_decide (b = le_bytes 2 6 ++ le_bytes 4 3 ++ le_bytes 8 7) then Some (mkEnvelope 6 (EpochBump 7))
  else if bool_decide (b = le_bytes 2 6 ++ le_bytes 4 21 ++ le_bytes 8 0) then Some (mkEnvelope 6 (BatchLoadResult [])) else None.

Definition demo_size (m : ControlMessage) : option Z :=
  match m with EpochBump 7 | BatchLoadResult [] => Some 12 | _ => None end.

Lemma demo_serialize_inv env b : demo_serialize env = Some b ->
  env = mkEnvelope 6 (EpochBump 7) /\ b = le_bytes 2 6 ++ le_bytes 4 3 ++ le_bytes 8 7 \/
  env = mkEnvelope 6 (BatchLoadResult []) /\ b = le_bytes 2 6 ++ le_bytes 4 21 ++ le_bytes 8 0.
Proof.
  destruct env as [sc m]. unfold demo_serialize. cbn [schema message]. destruct (Z.eqb_spec sc 6) as [->|]; [|done]. cbn [negb].
  destruct m as [| | |e| | | | | | | | | | | | | | | | | |[|]]; try done; [|intros E; injection E as <-; by right].
  destruct (decide (e = 7)) as [->|Hne]; [intros E; injection E as <-; by left|].
  destruct e as [|[[[]|[]|]|[]|]|]; done.
Qed.

#[local] Instance demo_codec : ControlCodec.
Proof.
  refine {| serialize := demo_serialize; deserialize := demo_deserialize; message_size := demo_size; status_size := fun _ => None |}.
  - intros env b [[-> ->]|[-> ->]]%demo_serialize_inv; vm_compute; reflexivity.
  - intros env b [[-> ->]|[-> ->]]%demo_serialize_inv; vm_compute; reflexivity.
  - intros env b [[-> ->]|[-> ->]]%demo_serialize_inv; vm_compute; reflexivity.
  - intros b Hb. unfold demo_deserialize. rewrite !bool_decide_false; [done| |]; intros ->; revert Hb; vm_compute; lia.
  - intros b env. unfold demo_deserialize. repeat case_bool_decide; intros [= <-]; subst b; vm_compute; reflexivity.
  - intros [|f l] n; [|done]. intros [= <-]. done.
  - done.
Defined.

#[local] Existing Instance Broker.demo_libs.

Lemma control_delivered_witness : exists frame frame' h' payload, encode 9 (EpochBump 7) = Ok frame /\
  outbound_namespace_context EnvelopeSpec.demo_env frame (s "tenant") = Some (Ok frame') /\
  (forall rest e, read_frame (mkStream (frame' ++ rest) e) = (length_ h', Ok (h', payload, mkStream rest e))) /\
  decode_request (Frame.encode h' ++ payload) = Some (Ok (h', EpochBump 7)) /\ request_id h' = 9 /\ request_schema h' payload = Some (Ok 6).
Proof.
  assert (encode 9 (EpochBump 7) = Ok (Frame.encode (new Frame.Control 9 14) ++ le_bytes 2 6 ++ le_bytes 4 3 ++ le_bytes 8 7)) as E
    by (vm_compute; reflexivity).
  destruct (control_delivered EnvelopeSpec.demo_env 9 (EpochBump 7) (s "tenant") _ E) as (frame' & h' & payload & H).
  - unfold is_u. lia.
  - vm_compute. discriminate.
  - exact EnvelopeSpec.demo_env_good.
  - vm_compute. reflexivity.
  - eexists _, frame', h', payload. split; [exact E|exact H].
Defined.

Lemma batches_fit_witness : exists frame, encode 9 (BatchLoadResult []) = Ok frame /\
  Z.of_nat (length frame) <= 16 + MAX_CONTROL_PAYLOAD_LEN - ENVELOPE_OVERHEAD.
Proof.
  assert (encode 9 (BatchLoadResult []) = Ok (Frame.encode (new Frame.Control 9 14) ++ le_bytes 2 6 ++ le_bytes 4 21 ++ le_bytes 8 0)) as E
    by (vm_compute; reflexivity).
  eexists. split; [exact E|]. exact (batches_fit 9 (BatchLoadResult []) _ E eq_refl).
Defined.

Lemma diagnostics_bounded_witness :
  let failures := (fun r => LoadBlockFailure_new r.1 r.2) <$> [(0, s "lost"); (3, replicate 255 x61 ++ [xe2; x82; xac])] in
  (fun f => length (error f)) <$> failures = [4; 255]%nat /\ well_formed (BatchLoadResult failures).
Proof.
  split; [vm_compute; reflexivity|]. apply (diagnostics_bounded [(0, s "lost"); (3, replicate 255 x61 ++ [xe2; x82; xac])]).
  - repeat constructor; cbn; lia.
  - repeat constructor; cbn [fst]; lia.
Defined.

End Demo.

End Control.
