(* ===== verification/AwsChunked.v ===== *)
(** The streaming decoder of [aws-chunked] upload bodies (crates/talon-gateway/src/aws_chunked.rs) and the spool that
    consumes it (crates/talon-gateway/src/s3.rs). The checksum functions are a parameter. *)

From S2P Require Import Prelude External Bytes Key Trace Broker.

Module AwsChunked.
Import Key (str, s).

Definition MAX_CHUNK_HEADER : nat := 1024.
Definition MAX_TRAILERS : nat := 64.

Inductive ChecksumAlgorithm := Crc32 | Crc32c | Crc64Nvme | Sha256.

#[export] Instance ChecksumAlgorithm_eq_dec : EqDecision ChecksumAlgorithm.
Proof. solve_decision. Defined.

Definition trailer_key (a : ChecksumAlgorithm) : str :=
  match a with
  | Crc32 => s "x-amz-checksum-crc32"
  | Crc32c => s "x-amz-checksum-crc32c"
  | Crc64Nvme => s "x-amz-checksum-crc64nvme"
  | Sha256 => s "x-amz-checksum-sha256"
  end.

Definition from_trailer_name (name : str) : option ChecksumAlgorithm :=
  let name := Broker.lower <$> Bytes.trim name in
  if bool_decide (name = s "x-amz-checksum-crc32") then Some Crc32
  else if bool_decide (name = s "x-amz-checksum-crc32c") then Some Crc32c
  else if bool_decide (name = s "x-amz-checksum-crc64nvme") then Some Crc64Nvme
  else if bool_decide (name = s "x-amz-checksum-sha256") then Some Sha256 else None.

(** The running digests of [crc] and [sha2], and [base64]: feeding a message in pieces is feeding it whole. *)
Class Digests := {
  Digest : Type;
  digest_new : ChecksumAlgorithm -> Digest;
  digest_update : Digest -> list byte -> Digest;
  finalize_base64 : Digest -> str;
  checksum : ChecksumAlgorithm -> list byte -> str;
  digest_streams : forall a pieces, finalize_base64 (foldl digest_update (digest_new a) pieces) = checksum a (concat pieces)
}.

Inductive ChunkDecodeError :=
  | Malformed (reason : string)
  | LengthMismatch (declared decoded : Z)
  | ChecksumMismatch
  | MissingChecksum
  | Source (reason : str).

Inductive Phase := Header | Data (remaining : Z) | AfterData | Trailer | Done.

Inductive Drive := Emit (payload : list byte) | NeedMore | DriveDone | DriveErr (e : ChunkDecodeError).

Section Decoder.
Context `{Digests}.

Record Decoder := mkDecoder {
  buf : list byte;
  phase : Phase;
  declared : Z;
  decoded : Z;
  trailer_lines : nat;
  source_done : bool;
  algorithm : option ChecksumAlgorithm;
  digest : option Digest;
  expected_checksum : option str
}.

Definition new (declared : Z) (a : option ChecksumAlgorithm) : Decoder :=
  mkDecoder [] Header declared 0 0 false a (digest_new <$> a) None.

Definition set_buf (b : list byte) (d : Decoder) : Decoder :=
  mkDecoder b (phase d) (declared d) (decoded d) (trailer_lines d) (source_done d) (algorithm d) (digest d) (expected_checksum d).
Definition set_phase (p : Phase) (d : Decoder) : Decoder :=
  mkDecoder (buf d) p (declared d) (decoded d) (trailer_lines d) (source_done d) (algorithm d) (digest d) (expected_checksum d).
Definition set_expected (x : option str) (d : Decoder) : Decoder :=
  mkDecoder (buf d) (phase d) (declared d) (decoded d) (trailer_lines d) (source_done d) (algorithm d) (digest d) x.
Definition set_trailer_lines (n : nat) (d : Decoder) : Decoder :=
  mkDecoder (buf d) (phase d) (declared d) (decoded d) n (source_done d) (algorithm d) (digest d) (expected_checksum d).

Definition extend (bytes : list byte) (d : Decoder) : Decoder := set_buf (buf d ++ bytes) d.

Definition finish (d : Decoder) : Decoder :=
  mkDecoder (buf d) (phase d) (declared d) (decoded d) (trailer_lines d) true (algorithm d) (digest d) (expected_checksum d).

(** [windows(2).position(|pair| pair == b"\r\n")] *)
Fixpoint find_crlf (l : list byte) : option nat :=
  match l with
  | b :: ((c :: _) as l') => if bool_decide (b = x0d) && bool_decide (c = x0a) then Some 0%nat else S <$> find_crlf l'
  | _ => None
  end.

Definition hex_value (b : byte) : option Z :=
  if Bytes.between 48 57 b then Some (byte_val b - 48)
  else if Bytes.between 97 102 b then Some (byte_val b - 87)
  else if Bytes.between 65 70 b then Some (byte_val b - 55) else None.

(** The digits of [from_str_radix]: each step fails on overflow. *)
Fixpoint hex_digits (acc : Z) (l : str) : option Z :=
  match l with
  | [] => Some acc
  | b :: l => v ← hex_value b; if 2 ^ 64 <=? acc * 16 + v then None else hex_digits (acc * 16 + v) l
  end.

(** [u64::from_str_radix(text, 16)]: one leading plus sign is allowed before a digit. *)
Definition from_str_radix16 (l : str) : option Z :=
  match l with
  | [] => None
  | [b] => if bool_decide (b = x2b) then None else hex_digits 0 [b]
  | b :: l' => if bool_decide (b = x2b) then hex_digits 0 l' else hex_digits 0 l
  end.

Definition parse_chunk_size (line : list byte) : result ChunkDecodeError Z :=
  if negb (Bytes.utf8 line) then Err (Malformed "non-utf8 chunk header") else
  let hex := Bytes.trim (default [] (head (Trace.split x3b line))) in
  if bool_decide (hex = []) then Err (Malformed "empty chunk size") else
  match from_str_radix16 hex with Some n => Ok n | None => Err (Malformed "chunk size is not hex") end.

Definition take_line (d : Decoder) : option (result ChunkDecodeError (list byte) * Decoder) :=
  match find_crlf (buf d) with
  | Some pos => Some (Ok (take pos (buf d)), set_buf (drop (pos + 2) (buf d)) d)
  | None => if (MAX_CHUNK_HEADER <? length (buf d))%nat then Some (Err (Malformed "chunk header too long"), d) else None
  end.

Definition take_crlf (d : Decoder) : option (bool * Decoder) :=
  if (length (buf d) <? 2)%nat then None
  else Some (bool_decide (take 2 (buf d) = [x0d; x0a]), set_buf (drop 2 (buf d)) d).

(** [None] is the panic of [expect]: the digest has been taken already. *)
Definition verify (d : Decoder) : option (result ChunkDecodeError unit * Decoder) :=
  if negb (decoded d =? declared d) then Some (Err (LengthMismatch (declared d) (decoded d)), d) else
  match algorithm d with
  | None => Some (Ok tt, d)
  | Some _ =>
    dg ← digest d;
    let computed := finalize_base64 dg in
    let d' := mkDecoder (buf d) (phase d) (declared d) (decoded d) (trailer_lines d) (source_done d) (algorithm d) None None in
    Some (match expected_checksum d with
          | Some e => if bool_decide (e = computed) then Ok tt else Err ChecksumMismatch
          | None => Err MissingChecksum
          end, d')
  end.

Definition capture_trailer (line : list byte) (d : Decoder) : Decoder :=
  match algorithm d with
  | None => d
  | Some a =>
    if negb (Bytes.utf8 line) then d else
    match Trace.split_once x3a line with
    | None => d
    | Some (name, value) =>
      if Broker.eq_ignore_ascii_case (Bytes.trim name) (trailer_key a) then set_expected (Some (Bytes.trim value)) d else d
    end
  end.

Definition need_more_or_truncated (d : Decoder) : Drive :=
  if source_done d then DriveErr (Malformed "unexpected end of aws-chunked body") else NeedMore.

(** [Trailer] at the blank line or at the end of the source. *)
Definition complete (d : Decoder) : option (Drive * Decoder) :=
  '(r, d) ← verify d;
  Some (match r with Ok _ => (DriveDone, set_phase Done d) | Err e => (DriveErr e, d) end).

(** One turn of the loop of [drive]: an answer, or the state to go on with. A panic is [None]. *)
Definition turn (d : Decoder) : option (Drive * Decoder + Decoder) :=
  match phase d with
  | Done => Some (inl (DriveDone, d))
  | Data remaining =>
    if bool_decide (buf d = []) then Some (inl (need_more_or_truncated d, d)) else
    let n := Z.min remaining (Z.of_nat (length (buf d))) in
    let payload := take (Z.to_nat n) (buf d) in
    let left := remaining - n in
    Some (inl (Emit payload,
      mkDecoder (drop (Z.to_nat n) (buf d)) (if left =? 0 then AfterData else Data left) (declared d) (decoded d + n) (trailer_lines d)
        (source_done d) (algorithm d) (digest d ≫= (fun dg => Some (digest_update dg payload))) (expected_checksum d)))
  | AfterData =>
    Some (match take_crlf d with
          | Some (true, d) => inr (set_phase Header d)
          | Some (false, d) => inl (DriveErr (Malformed "chunk data not CRLF-terminated"), d)
          | None => inl (need_more_or_truncated d, d)
          end)
  | Header =>
    Some (match take_line d with
          | Some (Ok line, d) =>
            match parse_chunk_size line with
            | Err e => inl (DriveErr e, d)
            | Ok size =>
              if size =? 0 then inr (set_phase Trailer d)
              else if (2 ^ 64 <=? decoded d + size) || (declared d <? decoded d + size)
              then inl (DriveErr (LengthMismatch (declared d) (Z.min (decoded d + size) (2 ^ 64 - 1))), d)
              else inr (set_phase (Data size) d)
            end
          | Some (Err e, d) => inl (DriveErr e, d)
          | None => inl (need_more_or_truncated d, d)
          end)
  | Trailer =>
    match take_line d with
    | Some (Ok line, d) =>
      if bool_decide (line = []) then inl <$> complete d else
      let d := set_trailer_lines (S (trailer_lines d)) d in
      Some (if (MAX_TRAILERS <? trailer_lines d)%nat then inl (DriveErr (Malformed "too many trailers"), d) else inr (capture_trailer line d))
    | Some (Err e, d) => Some (inl (DriveErr e, d))
    | None => if source_done d then inl <$> complete d else Some (inl (need_more_or_truncated d, d))
    end
  end.

(** Every turn that goes on takes two bytes or more out of the buffer. *)
Fixpoint drive_loop (fuel : nat) (d : Decoder) : option (Drive * Decoder) :=
  match fuel with
  | O => None
  | S fuel => r ← turn d; match r with inl answer => Some answer | inr d => drive_loop fuel d end
  end.

Definition drive (d : Decoder) : option (Drive * Decoder) := drive_loop (S (length (buf d))) d.

(** *** The stream *)

(** What polling the source gives, in order; at the end of the list the source is exhausted. *)
Inductive Item := Ready (bytes : list byte) | Failed (reason : str) | Pending.

Record ChunkedStream := mkStream { source : list Item; decoder : Decoder; finished : bool }.

Definition decode_aws_chunked (source : list Item) (declared : Z) (a : option ChecksumAlgorithm) : ChunkedStream :=
  mkStream source (new declared a) false.

Inductive Poll := PollReady (item : option (result ChunkDecodeError (list byte))) | PollPending.

(** Every turn that goes on takes an item of the source or marks its end. *)
Fixpoint poll_loop (fuel : nat) (st : ChunkedStream) : option (Poll * ChunkedStream) :=
  match fuel with
  | O => None
  | S fuel =>
    '(r, d) ← drive (decoder st);
    match r with
    | Emit bytes => Some (PollReady (Some (Ok bytes)), mkStream (source st) d false)
    | DriveDone => Some (PollReady None, mkStream (source st) d true)
    | DriveErr e => Some (PollReady (Some (Err e)), mkStream (source st) d true)
    | NeedMore =>
      match source st with
      | [] => poll_loop fuel (mkStream [] (finish d) false)
      | Ready bytes :: rest => poll_loop fuel (mkStream rest (extend bytes d) false)
      | Failed e :: rest => Some (PollReady (Some (Err (Source e))), mkStream rest d true)
      | Pending :: rest => Some (PollPending, mkStream rest d false)
      end
    end
  end.

Definition poll_next (st : ChunkedStream) : option (Poll * ChunkedStream) :=
  if finished st then Some (PollReady None, st) else poll_loop (length (source st) + 2) st.

(** *** The spool *)

Inductive S3Error := BadDigest | IncompleteBody | InvalidArgument.

Definition s3_error (e : ChunkDecodeError) : S3Error :=
  match e with
  | ChecksumMismatch => BadDigest
  | LengthMismatch _ _ | MissingChecksum => IncompleteBody
  | Malformed _ | Source _ => InvalidArgument
  end.

(** [while let Some(chunk) = decoded.next().await]: what is spooled. A poll that yields bytes takes some from the
    buffer or the source, one that is pending an item. *)
Fixpoint spool_loop (fuel : nat) (spool : list byte) (st : ChunkedStream) : option (result S3Error (list byte)) :=
  match fuel with
  | O => None
  | S fuel =>
    '(p, st) ← poll_next st;
    match p with
    | PollPending => spool_loop fuel spool st
    | PollReady None => Some (Ok spool)
    | PollReady (Some (Err e)) => Some (Err (s3_error e))
    | PollReady (Some (Ok chunk)) => spool_loop fuel (spool ++ chunk) st
    end
  end.

Definition bytes_of (items : list Item) : list byte := concat ((fun i => match i with Ready b => b | _ => [] end) <$> items).

Definition spool_decoded (items : list Item) (declared : Z) (a : option ChecksumAlgorithm) : option (result S3Error (list byte)) :=
  spool_loop (S (length items + length (bytes_of items))) [] (decode_aws_chunked items declared a).

End Decoder.

(** ** The format *)

Definition crlf : list byte := [x0d; x0a].

(** The checksum that a trailer line gives. *)
Definition trailer_value (a : option ChecksumAlgorithm) (line : list byte) : option str :=
  a ← a; if negb (Bytes.utf8 line) then None else
  '(name, value) ← Trace.split_once x3a line;
  if Broker.eq_ignore_ascii_case (Bytes.trim name) (trailer_key a) then Some (Bytes.trim value) else None.

Section Format.
Context `{Digests} (total : Z) (a : option ChecksumAlgorithm).

(** Whether lines are bounded: a receiver that sees a line grow past the limit before its end refuses it. *)
Context (short : bool).

Definition line_ok (line : list byte) : Prop := find_crlf line = None /\ (short = true -> (length line < MAX_CHUNK_HEADER)%nat).

Definition verified (fed : list byte) (expected : option str) : Prop :=
  Z.of_nat (length fed) = total /\ match a with None => True | Some a => expected = Some (checksum a fed) end.

(** What is left of a body in each phase, after the payload [fed], and the payload still in it. *)
Inductive parses : Phase -> list byte -> nat -> option str -> list byte -> list byte -> Prop :=
  | parses_data n fed k e d tail p : Z.of_nat (length d) = n -> parses AfterData (fed ++ d) k e tail p -> parses (Data n) fed k e (d ++ tail) (d ++ p)
  | parses_after fed k e tail p : parses Header fed k e tail p -> parses AfterData fed k e (crlf ++ tail) p
  | parses_zero line fed k e tail p : line_ok line -> parse_chunk_size line = Ok 0 ->
      parses Trailer fed k e tail p -> parses Header fed k e (line ++ crlf ++ tail) p
  | parses_size line n fed k e tail p : line_ok line -> parse_chunk_size line = Ok n -> 0 < n -> Z.of_nat (length fed) + n <= total ->
      parses (Data n) fed k e tail p -> parses Header fed k e (line ++ crlf ++ tail) p
  | parses_trailer line fed k e tail p : line_ok line -> line <> [] -> (k < MAX_TRAILERS)%nat ->
      parses Trailer fed (S k) (match trailer_value a line with Some v => Some v | None => e end) tail p ->
      parses Trailer fed k e (line ++ crlf ++ tail) p
  | parses_blank fed k e junk : verified fed e -> parses Trailer fed k e (crlf ++ junk) []
  | parses_eof fed k e tail : verified fed e -> find_crlf tail = None -> (length tail <= MAX_CHUNK_HEADER)%nat -> parses Trailer fed k e tail [].

End Format.

(** *** Lines *)

Lemma find_crlf_cons b c l : find_crlf (b :: c :: l) = if bool_decide (b = x0d) && bool_decide (c = x0a) then Some 0%nat else S <$> find_crlf (c :: l).
Proof. done. Qed.

Lemma find_crlf_line line tail : find_crlf line = None -> find_crlf (line ++ crlf ++ tail) = Some (length line).
Proof.
  induction line as [|b [|c line] IH]; [done| |]; intros Hl.
  - cbn. rewrite (bool_decide_false (x0d = x0a)) by done. by rewrite andb_false_r.
  - rewrite find_crlf_cons in Hl. change ((b :: c :: line) ++ crlf ++ tail) with (b :: c :: line ++ crlf ++ tail). rewrite find_crlf_cons.
    destruct (_ && _); [done|]. change (c :: line ++ crlf ++ tail) with ((c :: line) ++ crlf ++ tail).
    rewrite IH; [done|]. by destruct (find_crlf (c :: line)).
Qed.

Lemma find_crlf_some l i : find_crlf l = Some i -> l = take i l ++ crlf ++ drop (i + 2) l /\ find_crlf (take i l) = None /\ (i + 2 <= length l)%nat.
Proof.
  revert i. induction l as [|b [|c l] IH]; intros i; [done|done|]. rewrite find_crlf_cons. destruct (bool_decide (b = x0d) && bool_decide (c = x0a)) eqn:Eb.
  - apply andb_true_iff in Eb as [->%bool_decide_eq_true ->%bool_decide_eq_true]. intros [= <-]. splits; [done|done|cbn; lia].
  - intros (j & Hj & ->)%fmap_Some. destruct (IH j Hj) as (E & Hn & Hl). splits; [cbn [take drop Nat.add app]; by f_equal| |cbn [length] in *; lia].
    destruct j as [|j]; [done|]. change (take (S (S j)) (b :: c :: l)) with (b :: c :: take j l). by rewrite find_crlf_cons, Eb, (Hn : find_crlf (c :: take j l) = None).
Qed.

Lemma find_crlf_app l fut i : find_crlf l = Some i -> find_crlf (l ++ fut) = Some i.
Proof.
  intros (E & Hn & Hl)%find_crlf_some. rewrite E, <-!app_assoc. rewrite find_crlf_line by done. f_equal. rewrite length_take. lia.
Qed.

(** The first line of a body is the one that the buffer holds. *)
Lemma line_found l fut line tail i : find_crlf l = Some i -> find_crlf line = None -> l ++ fut = line ++ crlf ++ tail ->
  line = take i l /\ tail = drop (i + 2) l ++ fut.
Proof.
  intros Hi Hl E. pose proof (find_crlf_app l fut i Hi) as Hf. rewrite E, find_crlf_line in Hf by done. injection Hf as <-.
  destruct (find_crlf_some l _ Hi) as (El & _ & Hlen). rewrite El in E at 1. rewrite <-!app_assoc in E.
  apply app_inj_1 in E as [-> E]; [|rewrite length_take; lia]. split; [done|]. apply app_inv_head in E. done.
Qed.

Lemma line_waits l fut line tail : find_crlf l = None -> find_crlf line = None -> l ++ fut = line ++ crlf ++ tail -> (length l <= S (length line))%nat.
Proof.
  intros Hl Hn E. apply Nat.nlt_ge. intros Hlt. assert (l = (line ++ crlf) ++ drop (length line + 2) l) as El.
  { rewrite <-(take_drop (length line + 2) l) at 1. f_equal. apply (f_equal (take (length line + 2))) in E.
    rewrite take_app_le in E by lia. rewrite E, app_assoc, take_app_length'; [done|rewrite length_app; done]. }
  rewrite El, <-app_assoc, find_crlf_line in Hl by done. done.
Qed.

(** A chunk size is not negative. *)
Lemma hex_digits_range acc l n : 0 <= acc -> hex_digits acc l = Some n -> 0 <= n.
Proof.
  revert acc. induction l as [|b l IH]; intros acc Hacc; cbn [hex_digits]; [by intros [= <-]|]. intros (v & Hv & Hn)%bind_Some.
  destruct (2 ^ 64 <=? acc * 16 + v); [done|]. apply (IH _) in Hn; [done|]. unfold hex_value, Bytes.between in Hv.
  repeat match type of Hv with (if ?c then _ else _) = _ => destruct c eqn:?; [injection Hv as <-|] end; try done;
    match goal with H : _ && _ = true |- _ => apply andb_true_iff in H as [?%Z.leb_le ?%Z.leb_le] end; lia.
Qed.

Lemma parse_chunk_size_range line n : parse_chunk_size line = Ok n -> 0 <= n.
Proof.
  unfold parse_chunk_size. destruct (negb _); [done|]. case_bool_decide; [done|]. destruct (from_str_radix16 _) as [m|] eqn:E; [|done].
  intros <-%Ok_same. unfold from_str_radix16 in E. destruct (Bytes.trim _) as [|b [|c l]]; [done| |];
    destruct (bool_decide (b = x2b)); try done; by eapply hex_digits_range.
Qed.

(** *** Turns *)

Section Turns.
Context `{Digests} (total : Z) (a : option ChecksumAlgorithm) (Htotal : is_u64 total).

(** The decoder, after the payload [fed]. *)
Record at_ (d : Decoder) (fed : list byte) : Prop := {
  at_declared : declared d = total;
  at_algorithm : algorithm d = a;
  at_decoded : decoded d = Z.of_nat (length fed);
  at_digest : exists pieces, concat pieces = fed /\ digest d = (fun a => foldl digest_update (digest_new a) pieces) <$> a;
  at_phase : match phase d with Data n => 0 < n /\ Z.of_nat (length fed) + n <= total | Done => False | _ => Z.of_nat (length fed) <= total end
}.

Abbreviation rest short d fed fut p := (parses total a short (phase d) fed (trailer_lines d) (expected_checksum d) (buf d ++ fut) p).

Lemma capture_value line d : algorithm d = a -> capture_trailer line d =
  set_expected (match trailer_value a line with Some v => Some v | None => expected_checksum d end) d.
Proof.
  intros Ha. unfold capture_trailer, trailer_value. rewrite Ha. destruct d, a as [a'|]; cbn; [|done].
  destruct (Bytes.utf8 line); [|done]. cbn. destruct (Trace.split_once _ line) as [[name value]|]; [|done]. cbn.
  by destruct (Broker.eq_ignore_ascii_case _ _).
Qed.

Lemma verify_ok d fed : at_ d fed -> exists r d', verify d = Some (r, d') /\ (r = Ok tt <-> verified total a fed (expected_checksum d)).
Proof.
  intros [Hd Ha Hn (pieces & <- & Hg) _]. unfold verify, verified. rewrite Hd, Ha, Hn, Hg.
  destruct (Z.eqb_spec (Z.of_nat (length (concat pieces))) total); cbn [negb]; [|eexists _, _; split; [done|]; split; [done|tauto]].
  destruct a as [a'|]; cbn [fmap option_fmap option_map mbind option_bind]; [|eexists _, _; split; [done|]; split; [done|tauto]].
  rewrite digest_streams. eexists _, _. split; [done|]. destruct (expected_checksum d) as [x|]; [|split; [done|by intros [_ ?]]].
  case_bool_decide as E; [subst; split; [done|tauto]|]. split; [done|]. intros [_ ?]. congruence.
Qed.

Section Inversion.
Context (short : bool).
Abbreviation parses' := (parses total a short).

Lemma parses_data_inv n fed k e body p : parses' (Data n) fed k e body p ->
  exists x tail p', body = x ++ tail /\ p = x ++ p' /\ Z.of_nat (length x) = n /\ parses' AfterData (fed ++ x) k e tail p'.
Proof. inversion 1; subst. eauto 8. Qed.

Lemma parses_after_inv fed k e body p : parses' AfterData fed k e body p -> exists tail, body = crlf ++ tail /\ parses' Header fed k e tail p.
Proof. inversion 1; subst. eauto. Qed.

Lemma parses_header_inv fed k e body p : parses' Header fed k e body p ->
  exists line tail n, line_ok short line /\ body = line ++ crlf ++ tail /\ parse_chunk_size line = Ok n /\
    (n = 0 /\ parses' Trailer fed k e tail p \/ 0 < n /\ Z.of_nat (length fed) + n <= total /\ parses' (Data n) fed k e tail p).
Proof. inversion 1; subst; eauto 12. Qed.

Lemma parses_trailer_inv fed k e body p : parses' Trailer fed k e body p ->
  (exists line tail, line_ok short line /\ body = line ++ crlf ++ tail /\ line <> [] /\ (k < MAX_TRAILERS)%nat /\
     parses' Trailer fed (S k) (match trailer_value a line with Some v => Some v | None => e end) tail p) \/
  (exists junk, body = [] ++ crlf ++ junk /\ verified total a fed e /\ p = []) \/
  (find_crlf body = None /\ (length body <= MAX_CHUNK_HEADER)%nat /\ verified total a fed e /\ p = []).
Proof. inversion 1; subst; [left|right; left|right; right]; eauto 10. Qed.

End Inversion.

(** What a turn does, in the terms of the format. *)
Definition turn_ok (d : Decoder) (fed : list byte) (r : Drive * Decoder + Decoder) : Prop :=
  match r with
  | inr d' => at_ d' fed /\ source_done d' = source_done d /\ (length (buf d') < length (buf d))%nat /\
      forall fut p, (rest false d' fed fut p -> rest false d fed fut p) /\ (rest true d fed fut p -> rest true d' fed fut p)
  | inl (Emit b, d') => at_ d' (fed ++ b) /\ source_done d' = source_done d /\ b <> [] /\ buf d = b ++ buf d' /\
      forall fut p, (rest false d' (fed ++ b) fut p -> rest false d fed fut (b ++ p)) /\
        (rest true d fed fut p -> exists p', p = b ++ p' /\ rest true d' (fed ++ b) fut p')
  | inl (NeedMore, d') => d' = d /\ source_done d = false
  | inl (DriveDone, d') => forall fut p, (source_done d = true -> fut = []) -> rest false d fed fut [] /\ (rest true d fed fut p -> p = [])
  | inl (DriveErr _, d') => forall fut p, (source_done d = true -> fut = []) -> ~ rest true d fed fut p
  end.

Lemma wait_ok d fed : (source_done d = true -> forall p, ~ rest true d fed [] p) -> turn_ok d fed (inl (need_more_or_truncated d, d)).
Proof.
  intros Hr. unfold need_more_or_truncated. destruct (source_done d) eqn:Es; cbn; [|by split].
  intros fut p Hf. rewrite Hf by done. by apply Hr.
Qed.

Lemma turn_data d fed n : at_ d fed -> phase d = Data n -> exists r, turn d = Some r /\ turn_ok d fed r.
Proof.
  intros [Hd Ha Hn (pieces & <- & Hg) Hp] Hph. unfold turn. rewrite Hph in *. case_bool_decide as Eb.
  { eexists. split; [done|]. apply wait_ok. intros _ p Hr. rewrite Hph, Eb in Hr. destruct (parses_data_inv _ _ _ _ _ _ _ Hr) as (x & tail & p' & E & _ & Hx & _).
    destruct x; [cbn in Hx; lia|done]. }
  set (m := Z.min n (Z.of_nat (length (buf d)))). assert (0 < m <= Z.of_nat (length (buf d))) as Hm by (destruct (buf d); [done|subst m; cbn [length]; lia]).
  assert (length (take (Z.to_nat m) (buf d)) = Z.to_nat m) as Hlen by (rewrite length_take; lia).
  eexists. split; [done|]. cbn [turn_ok source_done buf]. splits.
  - split; cbn [declared algorithm decoded digest phase]; [done|done|rewrite length_app, Hlen; lia| |].
    + exists (pieces ++ [take (Z.to_nat m) (buf d)]). rewrite concat_app. cbn [concat]. rewrite app_nil_r. split; [done|]. rewrite Hg.
      destruct a; cbn; [|done]. by rewrite foldl_app.
    + destruct (Z.eqb_spec (n - m) 0); rewrite length_app, Hlen; lia.
  - done.
  - intros E. rewrite E in Hlen. cbn in Hlen. lia.
  - by rewrite take_drop.
  - intros fut p. cbn [phase trailer_lines expected_checksum buf]. rewrite Hph.
    set (b := take (Z.to_nat m) (buf d)) in *. set (q := drop (Z.to_nat m) (buf d)) in *.
    assert (buf d ++ fut = b ++ q ++ fut) as -> by (subst b q; by rewrite app_assoc, take_drop).
    destruct (Z.eqb_spec (n - m) 0) as [E0|E0]; split; intros Hr.
    + apply parses_data; [lia|done].
    + destruct (parses_data_inv _ _ _ _ _ _ _ Hr) as (x & tail & p' & E & -> & Hx & Hr').
      apply app_inj_1 in E as [-> ->]; [|lia]. eauto.
    + destruct (parses_data_inv _ _ _ _ _ _ _ Hr) as (x & tail & p' & -> & -> & Hx & Hr'). rewrite !app_assoc.
      apply parses_data; [rewrite length_app; lia|by rewrite app_assoc].
    + destruct (parses_data_inv _ _ _ _ _ _ _ Hr) as (x & tail & p' & E & -> & Hx & Hr').
      apply app_eq_inv in E as [(y & -> & ->)|(y & -> & ->)]; [rewrite length_app in Hlen; lia|]. rewrite length_app in Hx. rewrite <-app_assoc.
      eexists. split; [done|]. apply parses_data; [lia|by rewrite <-app_assoc].
Qed.

Lemma turn_after d fed : at_ d fed -> phase d = AfterData -> exists r, turn d = Some r /\ turn_ok d fed r.
Proof.
  intros [Hd Ha Hn Hg Hp] Hph. unfold turn, take_crlf. rewrite Hph in *. destruct (Nat.ltb_spec (length (buf d)) 2) as [Hlt|Hge].
  { eexists. split; [done|]. apply wait_ok. intros _ p Hr. rewrite Hph in Hr. destruct (parses_after_inv _ _ _ _ _ _ Hr) as (tail & E & _).
    apply (f_equal length) in E. rewrite !length_app in E. cbn in E. lia. }
  assert (forall fut, buf d ++ fut = take 2 (buf d) ++ drop 2 (buf d) ++ fut) as Hbuf by (intros; by rewrite app_assoc, take_drop).
  assert (length (take 2 (buf d)) = 2%nat) as Hl2 by (rewrite length_take; lia).
  case_bool_decide as Ec; eexists; (split; [done|]); cbn [turn_ok].
  - splits; [by split|done|cbn [buf set_phase set_buf]; rewrite length_drop; lia|].
    intros fut p. cbn [phase trailer_lines expected_checksum buf set_phase set_buf]. rewrite Hph, Hbuf, Ec. split.
    + apply parses_after.
    + intros Hr. destruct (parses_after_inv _ _ _ _ _ _ Hr) as (tail & E & Hr'). apply app_inv_head in E as ->. done.
  - intros fut p _ Hr. rewrite Hph, Hbuf in Hr. destruct (parses_after_inv _ _ _ _ _ _ Hr) as (tail & E & _).
    apply app_inj_1 in E as [E _]; [by apply Ec|done].
Qed.

Lemma turn_header d fed : at_ d fed -> phase d = Header -> exists r, turn d = Some r /\ turn_ok d fed r.
Proof.
  intros [Hd Ha Hn Hg Hp] Hph. unfold turn, take_line. rewrite Hph in *. destruct (find_crlf (buf d)) as [i|] eqn:Ei.
  - destruct (find_crlf_some _ _ Ei) as (Eb & Hnone & Hlen). set (line := take i (buf d)) in *.
    assert (forall fut p, rest true d fed fut p -> exists n, parse_chunk_size line = Ok n /\
      (n = 0 /\ parses total a true Trailer fed (trailer_lines d) (expected_checksum d) (drop (i + 2) (buf d) ++ fut) p \/
       0 < n /\ Z.of_nat (length fed) + n <= total /\ parses total a true (Data n) fed (trailer_lines d) (expected_checksum d) (drop (i + 2) (buf d) ++ fut) p)) as Hinv.
    { intros fut p Hr. rewrite Hph in Hr. destruct (parses_header_inv _ _ _ _ _ _ Hr) as (line' & tail & n & [Hl _] & E & Hsize & Hc).
      destruct (line_found _ _ _ _ _ Ei Hl E) as [-> ->]. eauto. }
    assert (forall fut, buf d ++ fut = line ++ crlf ++ drop (i + 2) (buf d) ++ fut) as Hbuf by (intros; rewrite Eb at 1; by rewrite <-!app_assoc).
    assert (line_ok false line) as Hline by done.
    destruct (parse_chunk_size line) as [size|e] eqn:Es; cbn [decoded declared set_buf]; rewrite ?Hn, ?Hd.
    + destruct (Z.eqb_spec size 0) as [->|Hz]; [|destruct ((2 ^ 64 <=? Z.of_nat (length fed) + size) || (total <? Z.of_nat (length fed) + size)) eqn:Eg].
      * eexists. split; [done|]. cbn [turn_ok]. splits; [by split|done|cbn [buf set_phase set_buf]; rewrite length_drop; lia|].
        intros fut p. cbn [phase trailer_lines expected_checksum buf set_phase set_buf]. split; [rewrite Hph, Hbuf; by apply parses_zero|].
        intros (n & [= <-] & [[_ ?]|[? _]])%Hinv; [done|lia].
      * eexists. split; [done|]. cbn [turn_ok]. intros fut p _ (n & [= <-] & [[? _]|(_ & ? & _)])%Hinv; [done|].
        apply orb_true_iff in Eg as [?%Z.leb_le|?%Z.ltb_lt]; unfold is_u in Htotal; lia.
      * apply orb_false_iff in Eg as [_ ?%Z.ltb_ge]. pose proof (parse_chunk_size_range _ _ Es).
        eexists. split; [done|]. cbn [turn_ok]. splits; [split; try done; cbn [phase set_phase]; lia|done|cbn [buf set_phase set_buf]; rewrite length_drop; lia|].
        intros fut p. cbn [phase trailer_lines expected_checksum buf set_phase set_buf]. split; [rewrite Hph, Hbuf; apply parses_size; [done|done|lia|done]|].
        intros (n & [= <-] & [[? _]|(_ & _ & ?)])%Hinv; done.
    + eexists. split; [done|]. cbn [turn_ok]. by intros fut p _ (n & ? & _)%Hinv.
  - destruct (Nat.ltb_spec MAX_CHUNK_HEADER (length (buf d))) as [Hl|Hl]; eexists; (split; [done|]).
    + cbn [turn_ok]. intros fut p _ Hr. rewrite Hph in Hr. destruct (parses_header_inv _ _ _ _ _ _ Hr) as (line & tail & n & [Hl1 Hl2] & E & _).
      pose proof (line_waits _ _ _ _ Ei Hl1 E). specialize (Hl2 eq_refl). lia.
    + apply wait_ok. intros _ p Hr. rewrite Hph, app_nil_r in Hr. destruct (parses_header_inv _ _ _ _ _ _ Hr) as (line & tail & n & [Hl1 _] & E & _).
      rewrite E, find_crlf_line in Ei by done. done.
Qed.

(** A trailer line is in the buffer. *)
Lemma turn_trailer_line d fed i : at_ d fed -> phase d = Trailer -> find_crlf (buf d) = Some i -> exists r, turn d = Some r /\ turn_ok d fed r.
Proof.
  intros Hat Hph Ei. pose proof Hat as [Hd Ha Hn Hg Hp]. unfold turn, take_line. rewrite Hph in *. rewrite Ei.
  destruct (find_crlf_some _ _ Ei) as (Eb & Hnone & Hlen). set (line := take i (buf d)) in *.
  assert (forall fut p, rest true d fed fut p ->
    line <> [] /\ (trailer_lines d < MAX_TRAILERS)%nat /\ parses total a true Trailer fed (S (trailer_lines d))
      (match trailer_value a line with Some v => Some v | None => expected_checksum d end) (drop (i + 2) (buf d) ++ fut) p \/
    line = [] /\ verified total a fed (expected_checksum d) /\ p = []) as Hinv.
  { intros fut p Hr. rewrite Hph in Hr. destruct (parses_trailer_inv _ _ _ _ _ _ Hr) as [(line' & tail & [Hl _] & E & Hne & Hk & Hr')|[(junk & E & Hv & Hp')|(Hf & _)]].
    - destruct (line_found _ _ _ _ _ Ei Hl E) as [-> ->]. by left.
    - destruct (line_found _ _ [] _ _ Ei eq_refl E) as [E' _]. by right.
    - by rewrite (find_crlf_app _ _ _ Ei) in Hf. }
  assert (forall fut, buf d ++ fut = line ++ crlf ++ drop (i + 2) (buf d) ++ fut) as Hbuf by (intros; rewrite Eb at 1; by rewrite <-!app_assoc).
  assert (line_ok false line) as Hline by done. case_bool_decide as El.
  - destruct (verify_ok (set_buf (drop (i + 2) (buf d)) d) fed) as (r & d' & Hv & Hr); [split; try done; cbn [phase set_buf]; by rewrite Hph|].
    unfold complete. rewrite Hv. cbn [mbind option_bind fmap option_fmap option_map expected_checksum set_buf] in *. eexists. split; [done|].
    destruct r as [[]|e]; cbn [turn_ok].
    + intros fut p _. rewrite Hph, Hbuf, El. split; [by apply parses_blank, Hr|].
      intros H1. rewrite <-El, <-Hbuf, <-Hph in H1. apply Hinv in H1 as [[? _]|(_ & _ & ?)]; done.
    + intros fut p _ [[? _]|(_ & Hver & _)]%Hinv; [done|]. apply Hr in Hver. done.
  - eexists. split; [done|]. cbn [trailer_lines set_trailer_lines set_buf]. destruct (Nat.ltb_spec MAX_TRAILERS (S (trailer_lines d))); cbn [turn_ok].
    + intros fut p _ [(_ & ? & _)|[? _]]%Hinv; [lia|done].
    + rewrite capture_value by done. cbn [expected_checksum set_trailer_lines set_buf]. splits.
      * split; try done. cbn [phase set_expected set_trailer_lines set_buf]. by rewrite Hph.
      * done.
      * cbn [buf set_expected set_trailer_lines set_buf]. rewrite length_drop. lia.
      * intros fut p. cbn [phase trailer_lines expected_checksum buf set_expected set_trailer_lines set_buf]. split.
         -- rewrite Hph, Hbuf. apply parses_trailer; [done|done|lia].
         -- rewrite Hph. rewrite <-Hph at 1. intros [(_ & _ & ?)|[? _]]%Hinv; done.
Qed.

(** There is no line end in the buffer. *)
Lemma turn_trailer_wait d fed : at_ d fed -> phase d = Trailer -> find_crlf (buf d) = None -> exists r, turn d = Some r /\ turn_ok d fed r.
Proof.
  intros Hat Hph Ei. unfold turn, take_line. rewrite Hph in *. rewrite Ei.
  destruct (Nat.ltb_spec MAX_CHUNK_HEADER (length (buf d))) as [Hl|Hl].
  - eexists. split; [done|]. cbn [turn_ok]. intros fut p _ Hr. rewrite Hph in Hr. unfold MAX_CHUNK_HEADER in *.
    destruct (parses_trailer_inv _ _ _ _ _ _ Hr) as [(line' & tail & [Hl1 Hl2] & E & _)|[(junk & E & _)|(_ & Hf & _)]].
    + pose proof (line_waits _ _ _ _ Ei Hl1 E). specialize (Hl2 eq_refl). unfold MAX_CHUNK_HEADER in *. lia.
    + pose proof (line_waits _ _ [] _ Ei eq_refl E) as Hw. cbn in Hw. lia.
    + unfold MAX_CHUNK_HEADER in Hf. rewrite length_app in Hf. lia.
  - destruct (source_done d) eqn:Ed.
    + destruct (verify_ok d fed Hat) as (r & d' & Hv & Hr). unfold complete. rewrite Hv. cbn [mbind option_bind fmap option_fmap option_map]. eexists. split; [done|].
      assert (forall p, rest true d fed [] p -> verified total a fed (expected_checksum d) /\ p = []) as Hinv.
      { intros p H1. rewrite Hph, app_nil_r in H1. destruct (parses_trailer_inv _ _ _ _ _ _ H1) as [(line' & tail & [Hl1 _] & E & _)|[(junk & E & _)|(_ & _ & ? & ?)]]; [| |done].
        - by rewrite E, find_crlf_line in Ei.
        - by rewrite E, (find_crlf_line []) in Ei. }
      destruct r as [[]|e]; cbn [turn_ok]; intros fut p Hf; rewrite Hf by done.
      * split; [|intros H1; by apply Hinv]. rewrite Hph, app_nil_r. by apply parses_eof; [apply Hr|done|].
      * intros [Hver _]%Hinv. apply Hr in Hver. done.
    + eexists. split; [done|]. apply wait_ok. congruence.
Qed.

Lemma turn_trailer d fed : at_ d fed -> phase d = Trailer -> exists r, turn d = Some r /\ turn_ok d fed r.
Proof.
  intros Hat Hph. destruct (find_crlf (buf d)) as [i|] eqn:Ei; [by eapply turn_trailer_line|by apply turn_trailer_wait].
Qed.

Lemma decode_turn_spec d fed : at_ d fed -> exists r, turn d = Some r /\ turn_ok d fed r.
Proof.
  intros Hat. destruct (phase d) as [|n| | |] eqn:Hph; [by apply turn_header|by eapply turn_data|by apply turn_after|by apply turn_trailer|].
  pose proof (at_phase _ _ Hat) as Hp. by rewrite Hph in Hp.
Qed.

(** [drive] ends, and answers what its last turn does. *)
Lemma drive_spec d fed : at_ d fed -> exists answer d1, drive d = Some answer /\ at_ d1 fed /\ source_done d1 = source_done d /\
  (length (buf d1) <= length (buf d))%nat /\ turn_ok d1 fed (inl answer) /\
  forall fut p, (rest false d1 fed fut p -> rest false d fed fut p) /\ (rest true d fed fut p -> rest true d1 fed fut p).
Proof.
  unfold drive. assert (length (buf d) < S (length (buf d)))%nat as Hf by lia. revert Hf. generalize (S (length (buf d))). intros fuel. revert d.
  induction fuel as [|fuel IH]; intros d Hf Hat; [lia|]. cbn [drive_loop].
  destruct (decode_turn_spec d fed Hat) as (r & -> & Hr). cbn [mbind option_bind]. destruct r as [answer|d'].
  - exists answer, d. splits; [done|done|done|lia|done|done].
  - destruct Hr as (Hat' & Hs & Hlt & Hrest). destruct (IH d') as (answer & d1 & E & H1 & H2 & H3 & H4 & H5); [lia|done|].
    exists answer, d1. splits; [done|done|congruence|lia|done|]. intros fut p. destruct (Hrest fut p), (H5 fut p). tauto.
Qed.

(** *** The stream *)

Definition ready (i : Item) : Prop := match i with Failed _ => False | _ => True end.

Record flowing (st : ChunkedStream) (fed : list byte) : Prop := {
  fl_open : finished st = false;
  fl_at : at_ (decoder st) fed;
  fl_done : source_done (decoder st) = true -> source st = []
}.

Definition weight (st : ChunkedStream) : nat := length (buf (decoder st)) + length (bytes_of (source st)).

Abbreviation remains short st fed p := (rest short (decoder st) fed (bytes_of (source st)) p).

(** The state after a poll, in the terms of the format. *)
Definition poll_ok (st : ChunkedStream) (fed : list byte) (r : Poll * ChunkedStream) : Prop :=
  match r with
  | (PollReady (Some (Ok b)), st') => flowing st' (fed ++ b) /\ (length (source st') <= length (source st))%nat /\ (weight st' < weight st)%nat /\
      (Forall ready (source st) -> Forall ready (source st')) /\
      forall p, (remains false st' (fed ++ b) p -> remains false st fed (b ++ p)) /\
        (remains true st fed p -> exists p', p = b ++ p' /\ remains true st' (fed ++ b) p')
  | (PollPending, st') => flowing st' fed /\ (length (source st') < length (source st))%nat /\ (weight st' <= weight st)%nat /\
      (Forall ready (source st) -> Forall ready (source st')) /\
      forall p, (remains false st' fed p -> remains false st fed p) /\ (remains true st fed p -> remains true st' fed p)
  | (PollReady None, st') => remains false st fed [] /\ forall p, remains true st fed p -> p = []
  | (PollReady (Some (Err _)), st') => Forall ready (source st) -> forall p, ~ remains true st fed p
  end.

(** Going on from a state that has no more to say, with what the source gives next. *)
Lemma poll_ok_step st st1 fed r : (length (source st1) <= length (source st))%nat -> (weight st1 <= weight st)%nat ->
  (Forall ready (source st) -> Forall ready (source st1)) ->
  (forall p, (remains false st1 fed p -> remains false st fed p) /\ (remains true st fed p -> remains true st1 fed p)) ->
  poll_ok st1 fed r -> poll_ok st fed r.
Proof.
  intros Hl Hw Hr Hrest. destruct r as [[[[b|e]|]|] st']; cbn [poll_ok].
  - intros (H1 & H2 & H3 & H4 & H5). splits; [done|lia|lia|by auto|]. intros p. destruct (H5 p). split; [intros; by apply Hrest; auto|].
    intros Hp. apply Hrest in Hp. auto.
  - intros H1 H2 p Hp. apply Hrest in Hp. by eapply H1; auto.
  - intros [H1 H2]. split; [by apply Hrest|]. intros p Hp. apply H2. by apply Hrest.
  - intros (H1 & H2 & H3 & H4 & H5). splits; [done|lia|lia|by auto|]. intros p. specialize (H5 p). specialize (Hrest p). tauto.
Qed.

Lemma poll_loop_spec fuel st fed : flowing st fed -> (length (source st) + (if source_done (decoder st) then 0 else 1) < fuel)%nat ->
  exists r, poll_loop fuel st = Some r /\ poll_ok st fed r.
Proof.
  revert st. induction fuel as [|fuel IH]; intros st [Ho Hat Hd] Hf; [lia|]. cbn [poll_loop].
  destruct (drive_spec (decoder st) fed Hat) as ([ans d'] & d1 & -> & Hat1 & Hs & Hb & Hans & Hrest). cbn [mbind option_bind].
  assert (forall r, poll_ok (mkStream (source st) d1 false) fed r -> poll_ok st fed r) as Hgo.
  { intros r. apply poll_ok_step; [done|unfold weight; cbn [decoder source]; lia|done|intros; apply Hrest]. }
  assert (source_done d1 = true -> bytes_of (source st) = []) as Hdone by (intros E; rewrite Hs in E; by rewrite (Hd E)).
  destruct ans as [b| | |e]; cbn [turn_ok] in Hans.
  - destruct Hans as (Hat' & Hs' & Hb' & Ebuf & Hrest'). eexists. split; [done|]. apply Hgo. cbn [poll_ok]. splits; [|cbn; lia| |done|intros; apply Hrest'].
    + split; [done|done|]. cbn [decoder source]. rewrite Hs', Hs. done.
    + unfold weight. cbn [decoder source]. rewrite Ebuf, length_app. destruct b; [done|rewrite length_cons; lia].
  - destruct Hans as [-> Hnd]. rewrite Hs in Hnd. rewrite Hnd in Hf. destruct (source st) as [|[b|x|] items] eqn:Esrc; cbn [length] in Hf.
    + destruct (IH (mkStream [] (finish d1) false)) as (r & -> & Hr); [split; [done|by destruct Hat1|done]|cbn; lia|].
      eexists. split; [done|]. apply Hgo. eapply poll_ok_step; [| | | |exact Hr]; [done|done|done|done].
    + destruct (IH (mkStream items (extend b d1) false)) as (r & -> & Hr); [|cbn [source decoder extend set_buf source_done]; rewrite Hs, Hnd; lia|].
      { split; [done|by destruct Hat1|]. cbn [decoder extend set_buf source_done]. congruence. }
      eexists. split; [done|]. apply Hgo. eapply poll_ok_step; [| | | |exact Hr]; cbn [source]; [cbn; lia| |by intros [_ ?]%Forall_cons|].
      * unfold weight, bytes_of. cbn [decoder source]. rewrite fmap_cons. cbn [concat extend set_buf buf]. rewrite !length_app. lia.
      * intros p. cbn [decoder extend set_buf phase trailer_lines expected_checksum buf]. unfold bytes_of. cbn [source]. rewrite fmap_cons. cbn [concat].
        by rewrite <-!app_assoc.
    + eexists. split; [done|]. cbn [poll_ok]. rewrite Esrc. by intros [? _]%Forall_cons.
    + eexists. split; [done|]. apply Hgo. cbn [poll_ok source length]. splits; [split; [done|done|cbn; congruence]|lia|done|by intros [_ ?]%Forall_cons|done].
  - eexists. split; [done|]. apply Hgo. cbn [poll_ok decoder source]. split; [by apply (Hans _ []); auto|]. intros p. by apply Hans; auto.
  - eexists. split; [done|]. apply Hgo. cbn [poll_ok decoder source]. intros _ p. apply Hans. auto.
Qed.

Lemma spool_spec fuel spool st : flowing st spool -> (length (source st) + weight st < fuel)%nat ->
  exists r, spool_loop fuel spool st = Some r /\
    (forall out, r = Ok out -> exists p, out = spool ++ p /\ remains false st spool p) /\
    (Forall ready (source st) -> forall p, remains true st spool p -> r = Ok (spool ++ p)).
Proof.
  revert spool st. induction fuel as [|fuel IH]; intros spool st Hfl Hf; [lia|]. cbn [spool_loop]. unfold poll_next. rewrite (fl_open _ _ Hfl).
  destruct (poll_loop_spec (length (source st) + 2) st spool Hfl) as ([res st'] & -> & Hr); [destruct (source_done _); lia|]. cbn [mbind option_bind].
  destruct res as [[[b|e]|]|]; cbn [poll_ok] in Hr.
  - destruct Hr as (Hfl' & H2 & H3 & H4 & H5). destruct (IH (spool ++ b) st') as (r & -> & Hs & Hc); [done|lia|]. eexists. split; [done|]. split.
    + intros out Ho. destruct (Hs out Ho) as (p & -> & Hp). exists (b ++ p). split; [by rewrite app_assoc|by apply H5].
    + intros Hready p Hp. destruct (H5 p) as [_ H6]. destruct (H6 Hp) as (p' & -> & Hp'). rewrite app_assoc. apply Hc; auto.
  - eexists. split; [done|]. split; [done|]. intros Hready p Hp. by destruct (Hr Hready p).
  - destruct Hr as [H1 H2]. eexists. split; [done|]. split.
    + intros out [= <-]. exists []. by rewrite app_nil_r.
    + intros _ p Hp. rewrite (H2 p Hp). by rewrite app_nil_r.
  - destruct Hr as (Hfl' & H2 & H3 & H4 & H5). destruct (IH spool st') as (r & -> & Hs & Hc); [done|lia|]. eexists. split; [done|]. split.
    + intros out Ho. destruct (Hs out Ho) as (p & -> & Hp). exists p. split; [done|by apply H5].
    + intros Hready p Hp. apply Hc; [auto|by apply H5].
Qed.

End Turns.

(** ** Bodies *)

(** The end of a body: a blank line, after which nothing counts, or the end of the source, with at most a
    fragment of a line. *)
Inductive Ending := Blank (junk : list byte) | Eof (fragment : list byte).

Record Body := mkBody { chunks : list (list byte * list byte); last_line : list byte; trailers : list (list byte); ending : Ending }.

Definition ending_wire (e : Ending) : list byte := match e with Blank junk => crlf ++ junk | Eof fragment => fragment end.

Definition trailers_wire (ts : list (list byte)) (e : Ending) : list byte := concat ((fun t => t ++ crlf) <$> ts) ++ ending_wire e.

Definition chunks_wire (cs : list (list byte * list byte)) : list byte := concat ((fun c => c.1 ++ crlf ++ c.2 ++ crlf) <$> cs).

Definition wire (b : Body) : list byte := chunks_wire (chunks b) ++ last_line b ++ crlf ++ trailers_wire (trailers b) (ending b).

Definition payload (b : Body) : list byte := concat (snd <$> chunks b).

Section Bodies.
Context `{Digests} (total : Z) (a : option ChecksumAlgorithm) (short : bool).

Definition ending_ok (e : Ending) : Prop :=
  match e with Blank _ => True | Eof fragment => find_crlf fragment = None /\ (length fragment <= MAX_CHUNK_HEADER)%nat end.

(** The last checksum that the trailers give counts. *)
Definition given (e : option str) (ts : list (list byte)) : option str :=
  foldl (fun e line => match trailer_value a line with Some v => Some v | None => e end) e ts.

Definition chunk_ok (c : list byte * list byte) : Prop := line_ok short c.1 /\ parse_chunk_size c.1 = Ok (Z.of_nat (length c.2)) /\ c.2 <> [].

Record well_framed (b : Body) : Prop := {
  wf_chunks : Forall chunk_ok (chunks b);
  wf_last : line_ok short (last_line b) /\ parse_chunk_size (last_line b) = Ok 0;
  wf_trailers : Forall (fun t => line_ok short t /\ t <> []) (trailers b);
  wf_count : (length (trailers b) <= MAX_TRAILERS)%nat;
  wf_ending : ending_ok (ending b);
  wf_verified : verified total a (payload b) (given None (trailers b))
}.

Definition trailers_ok (fed : list byte) (k : nat) (e : option str) (ts : list (list byte)) (en : Ending) : Prop :=
  Forall (fun t => line_ok short t /\ t <> []) ts /\ (k + length ts <= MAX_TRAILERS)%nat /\ ending_ok en /\ verified total a fed (given e ts).

(** A body seen from the start of a chunk. *)
Definition from_chunk (fed : list byte) (k : nat) (e : option str) (body p : list byte) : Prop :=
  exists cs l ts en, body = chunks_wire cs ++ l ++ crlf ++ trailers_wire ts en /\ p = concat (snd <$> cs) /\ Forall chunk_ok cs /\
    line_ok short l /\ parse_chunk_size l = Ok 0 /\ trailers_ok (fed ++ p) k e ts en.

Lemma from_chunk_cons line x fed k e tail p : chunk_ok (line, x) -> from_chunk (fed ++ x) k e tail p ->
  from_chunk fed k e (line ++ crlf ++ x ++ crlf ++ tail) (x ++ p).
Proof.
  intros Hc (cs & l & ts & en & -> & -> & Hcs & Hl & Hz & Ht). exists ((line, x) :: cs), l, ts, en. unfold chunks_wire. rewrite fmap_cons. cbn [concat fst snd fmap list_fmap].
  splits; [by rewrite <-!app_assoc|done|by constructor|done|done|by rewrite app_assoc].
Qed.

Lemma parses_body ph fed k e body p : (k <= MAX_TRAILERS)%nat -> parses total a short ph fed k e body p ->
  match ph with
  | Header => from_chunk fed k e body p
  | Data n => exists x tail p', body = x ++ crlf ++ tail /\ p = x ++ p' /\ Z.of_nat (length x) = n /\ from_chunk (fed ++ x) k e tail p'
  | AfterData => exists tail, body = crlf ++ tail /\ from_chunk fed k e tail p
  | Trailer => p = [] /\ exists ts en, body = trailers_wire ts en /\ trailers_ok fed k e ts en
  | Done => False
  end.
Proof.
  intros Hk Hp. induction Hp as [n fed k e x tail p Hx Hp IH|fed k e tail p Hp IH|line fed k e tail p Hl Hz Hp IH
    |line n fed k e tail p Hl Hs Hn Hb Hp IH|line fed k e tail p Hl Hne Hlt Hp IH|fed k e junk Hv|fed k e tail Hv Hf Hlen].
  - destruct (IH Hk) as (tail' & -> & Hc). eauto 10.
  - eauto.
  - destruct (IH Hk) as (-> & ts & en & -> & Ht). exists [], line, ts, en. splits; try done. by rewrite app_nil_r.
  - destruct (IH Hk) as (x & tail' & p' & -> & -> & Hx & Hc). subst n. apply from_chunk_cons; [|done].
    unfold chunk_ok. splits; [done|done|]. cbn [snd]. intros ->. cbn in Hn. lia.
  - destruct (IH ltac:(lia)) as (-> & ts & en & -> & H1 & H2 & H3 & H4). split; [done|]. exists (line :: ts), en. unfold trailers_wire, trailers_ok. rewrite fmap_cons. cbn [concat].
    splits; [by rewrite <-!app_assoc|by constructor|cbn; lia|done|done].
  - split; [done|]. exists [], (Blank junk). unfold trailers_ok. splits; [done|constructor|cbn; lia|done|done].
  - split; [done|]. exists [], (Eof tail). unfold trailers_ok. splits; [done|constructor|cbn; lia|done|done].
Qed.

Lemma trailers_parse ts en fed k e : trailers_ok fed k e ts en -> parses total a short Trailer fed k e (trailers_wire ts en) [].
Proof.
  intros (Hts & Hk & He & Hv). revert k e Hk Hv. induction Hts as [|t ts [Hl Hne] _ IH]; intros k e Hk Hv.
  - unfold trailers_wire. cbn [fmap list_fmap concat app]. destruct en as [junk|fragment]; [by apply parses_blank|]. destruct He. by apply parses_eof.
  - unfold trailers_wire in *. rewrite fmap_cons. cbn [concat]. rewrite <-!app_assoc. cbn [length] in Hk. apply parses_trailer; [done|done|lia|].
    apply IH; [lia|exact Hv].
Qed.

Lemma body_parses cs l ts en fed : Forall chunk_ok cs -> line_ok short l -> parse_chunk_size l = Ok 0 ->
  trailers_ok (fed ++ concat (snd <$> cs)) 0 None ts en ->
  parses total a short Header fed 0 None (chunks_wire cs ++ l ++ crlf ++ trailers_wire ts en) (concat (snd <$> cs)).
Proof.
  intros Hcs Hl Hz. revert fed. induction Hcs as [|[line x] cs (Hc1 & Hc2 & Hc3) _ IH]; intros fed Ht.
  - cbn [chunks_wire fmap list_fmap concat app] in *. rewrite app_nil_r in Ht. apply parses_zero; [done|done|]. by apply trailers_parse.
  - unfold chunks_wire in *. rewrite !fmap_cons in *. cbn [concat fst snd] in *. rewrite <-!app_assoc.
    apply (parses_size _ _ _ _ (Z.of_nat (length x))); [done|done|destruct x; [done|cbn; lia]| |].
    + destruct Ht as (_ & _ & _ & [Hv _]). rewrite !length_app in Hv. lia.
    + apply parses_data; [done|]. apply parses_after, IH. by rewrite <-app_assoc.
Qed.

Lemma parses_well_framed body p : parses total a short Header [] 0 None body p <-> exists b, wire b = body /\ payload b = p /\ well_framed b.
Proof.
  split.
  - intros Hp. apply parses_body in Hp as (cs & l & ts & en & -> & -> & Hcs & Hl & Hz & Hts & Hk & He & Hv); [|lia].
    exists (mkBody cs l ts en). by splits.
  - intros ([cs l ts en] & <- & <- & [H1 [H2 H3] H4 H5 H6 H7]). by apply body_parses.
Qed.

End Bodies.

Section Theorems.
Context `{Digests}.

Lemma start_flowing items total a : is_u64 total -> flowing total a (decode_aws_chunked items total a) [].
Proof.
  intros Ht. unfold is_u in Ht. split; [done| |done]. split; try done; [|cbn; lia]. exists []. split; [done|]. cbn. by destruct a.
Qed.

Lemma spool_total items total a : is_u64 total -> exists r, spool_decoded items total a = Some r /\
  (forall out, r = Ok out -> parses total a false Header [] 0 None (bytes_of items) out) /\
  (Forall ready items -> forall p, parses total a true Header [] 0 None (bytes_of items) p -> r = Ok p).
Proof.
  intros Ht. destruct (spool_spec total a Ht (S (length items + length (bytes_of items))) [] (decode_aws_chunked items total a)) as (r & E & Hs & Hc).
  - by apply start_flowing.
  - unfold weight. cbn [source decoder decode_aws_chunked buf new length]. lia.
  - exists r. split; [exact E|]. split; [|exact Hc]. intros out Ho. by destruct (Hs out Ho) as (p & -> & Hp).
Qed.

(** C16: An upload is stored only if it is whole: reading the body in any pieces, with any delays and failures, the
    gateway ends without a panic, and what it spools for the origin is the payload of a well framed body,
    of the declared length and with the promised checksum. *)
Theorem chunked_sound items total a : is_u64 total ->
  exists r, spool_decoded items total a = Some r /\
    forall out, r = Ok out -> exists b, wire b = bytes_of items /\ payload b = out /\ well_framed total a false b.
Proof.
  intros Ht. destruct (spool_total items total a Ht) as (r & E & Hs & _). exists r. split; [exact E|].
  intros out Ho. by apply parses_well_framed, Hs.
Qed.

(** C17: A well framed upload is accepted however the network cuts it into pieces, as long as no header or trailer
    line has 1024 bytes or more, and its payload comes out byte for byte. *)
Theorem chunked_complete items total a b : is_u64 total -> Forall ready items -> wire b = bytes_of items -> well_framed total a true b ->
  spool_decoded items total a = Some (Ok (payload b)).
Proof.
  intros Ht Hr Hw Hf. destruct (spool_total items total a Ht) as (r & E & _ & Hc). rewrite E. f_equal. apply Hc; [done|].
  apply parses_well_framed. eauto.
Qed.

End Theorems.

(** ** An upload in two chunks *)

Section Demo.

(** A digest that is the message itself. *)
#[local] Instance demo_digests : Digests.
Proof.
  refine {| Digest := list byte; digest_new := fun _ => []; digest_update := app; finalize_base64 := fun d => d; checksum := fun _ bs => bs |}.
  intros _ pieces. enough (forall acc, foldl app acc pieces = acc ++ concat pieces) as Hf by apply Hf.
  induction pieces as [|x l IH]; intros acc; cbn; [by rewrite app_nil_r|]. by rewrite IH, <-app_assoc.
Defined.

Definition demo_body : Body :=
  mkBody [(s "3;chunk-signature=ab", s "abc"); (s "2", s "de")] (s "0") [s "X-Amz-Checksum-Crc32: abcde"] (Blank []).

Definition demo_items : list Item := [Ready (take 5 (wire demo_body)); Pending; Ready (slice 5 22 (wire demo_body)); Ready []; Ready (drop 27 (wire demo_body))].

Lemma demo_well_framed : well_framed 5 (Some Crc32) true demo_body.
Proof.
  split; [|split; [split; [done|intros _; apply Nat.ltb_lt; vm_compute; reflexivity]|vm_compute; reflexivity]| |apply Nat.leb_le; reflexivity|done|split; vm_compute; reflexivity].
  - repeat constructor; try done; intros _; apply Nat.ltb_lt; vm_compute; reflexivity.
  - repeat constructor; try done; intros _; apply Nat.ltb_lt; vm_compute; reflexivity.
Qed.

Lemma chunked_sound_witness : exists b, wire b = bytes_of demo_items /\ payload b = s "abcde" /\ well_framed 5 (Some Crc32) false b.
Proof.
  destruct (chunked_sound demo_items 5 (Some Crc32)) as (r & E & Hr); [unfold is_u; lia|].
  assert (spool_decoded demo_items 5 (Some Crc32) = Some (Ok (s "abcde"))) as E' by (vm_compute; reflexivity). apply Hr. congruence.
Defined.

Lemma chunked_complete_witness : spool_decoded demo_items 5 (Some Crc32) = Some (Ok (s "abcde")).
Proof.
  apply (chunked_complete demo_items 5 (Some Crc32) demo_body); [unfold is_u; lia|repeat constructor|vm_compute; reflexivity|exact demo_well_framed].
Defined.

End Demo.

End AwsChunked.
