(* ===== verification/StateStore.v ===== *)
(** The coordinator's shared cluster state (crates/talon-coordinator/src/state_store): leased node records, a bounded
    history of events, and watches that resume from a snapshot, as the in-process backend (memory.rs)
    implements the contract of mod.rs.

    The mutex makes every method atomic; time is an argument. The broadcast channel of [tokio] is the list of the
    events that were ever sent; it drops the oldest ones of a receiver that falls behind. *)

From stdpp Require Import strings gmap sorting pretty.
From S2P Require Import Prelude External Key Placement Status Membership.

#[local] Set Warnings "-clear-no-such-hyp".

Module StateStore.
Import Key Placement Status.

(** ** Revisions *)

(** [str::parse::<u64>]: each step fails on overflow. *)
Fixpoint digits (acc : Z) (l : list byte) : option Z :=
  match l with
  | [] => Some acc
  | b :: l =>
    let d := byte_val b - 48 in
    if (d <? 0) || (9 <? d) then None else
    if 2 ^ 64 <=? acc * 10 + d then None else digits (acc * 10 + d) l
  end.

Definition parse_u64 (x : string) : option Z :=
  match as_bytes x with
  | [] => None
  | b :: l => if bool_decide (b = x2b) then match l with [] => None | _ => digits 0 l end else digits 0 (b :: l)
  end.

Definition prefix_of_token : string := "memory:".

Definition revision (v : Z) : string := prefix_of_token +:+ pretty v.

(** [strip_prefix]. *)
Fixpoint strip_prefix (p x : string) : option string :=
  match p, x with
  | EmptyString, _ => Some x
  | String a p, String b x => if bool_decide (a = b) then strip_prefix p x else None
  | _, _ => None
  end.

Inductive StateStoreError :=
  | InvalidRecord (e : NodeStatusError)
  | InvalidRegistry (detail : string)
  | InvalidLeaseTtl (ttl : Z)
  | InvalidRevision (revision detail : string)
  | Compacted (requested oldest : string)
  | WatchLagged (after : string) (skipped : Z)
  | Unavailable (detail : string).

Definition is_retryable (e : StateStoreError) : bool :=
  match e with Compacted _ _ | WatchLagged _ _ | Unavailable _ => true | _ => false end.

Definition parse_revision (r : string) : result StateStoreError Z :=
  ok_or (x ← strip_prefix prefix_of_token r; parse_u64 x) (InvalidRevision r "expected memory:<u64>").

(** ** State *)

Inductive NodeEventKind := Upserted | Removed.

Record NodeEvent := mkEvent {
  ev_cluster : string; ev_node : string; ev_kind : NodeEventKind; ev_status : option NodeStatus; ev_revision : string; ev_observed : Z }.

(** Cluster and node. *)
Abbreviation RecordKey := (string * string)%type (only parsing).

Record StoredRecord := mkStored { status : NodeStatus; expires_at_unix_ms : Z }.

Record Inner := mkInner {
  rev : Z; records : gmap RecordKey StoredRecord; registries : gmap string (Membership.MemberRegistry * string); history : list NodeEvent }.

Record MemoryStateStore := mkStore {
  instance_records : bool; history_limit : nat; available : bool; events : list NodeEvent; inner : Inner }.

Inductive WriteDisposition := Applied | Duplicate | Stale | NotFound.
#[export] Instance WriteDisposition_eq_dec : EqDecision WriteDisposition.
Proof. solve_decision. Defined.

Record WriteResult := mkWrite { disposition : WriteDisposition; w_revision : string }.

Record ClusterSnapshot := mkSnapshot { nodes : list NodeStatus; s_revision : string; observed_at_unix_ms : Z }.

(** The order in which a [HashMap] is iterated. *)
Class RecordOrder := {
  iter : Z -> gmap RecordKey StoredRecord -> list (RecordKey * StoredRecord);
  iter_perm : forall now m, iter now m ≡ₚ map_to_list m
}.

Definition with_time_source (limit : nat) (instances : bool) : MemoryStateStore :=
  mkStore instances (Nat.max limit 1) true [] (mkInner 0 ∅ ∅ []).

(** ** Operations *)

Definition ensure_available (st : MemoryStateStore) : result StateStoreError unit :=
  if available st then Ok tt else Err (Unavailable "fault injection is active").

Definition set_available (b : bool) (st : MemoryStateStore) : MemoryStateStore :=
  mkStore (instance_records st) (history_limit st) b (events st) (inner st).

Definition set_inner (i : Inner) (st : MemoryStateStore) : MemoryStateStore :=
  mkStore (instance_records st) (history_limit st) (available st) (events st) i.

Definition set_records (m : gmap RecordKey StoredRecord) (st : MemoryStateStore) : MemoryStateStore :=
  let i := inner st in set_inner (mkInner (rev i) m (registries i) (history i)) st.

(** The [while] that pops the front of a history longer than the limit. *)
Definition trim (limit : nat) (l : list NodeEvent) : list NodeEvent := drop (length l - limit) l.

Definition publish_locked (st : MemoryStateStore) (e : NodeEvent) : MemoryStateStore :=
  let i := inner st in
  let r := saturating_add 64 (rev i) 1 in
  let e := mkEvent (ev_cluster e) (ev_node e) (ev_kind e) (ev_status e) (revision r) (ev_observed e) in
  mkStore (instance_records st) (history_limit st) (available st) (events st ++ [e])
    (mkInner r (records i) (registries i) (trim (history_limit st) (history i ++ [e]))).

Definition removed (k : RecordKey) (now : Z) : NodeEvent := mkEvent k.1 k.2 Removed None (revision 0) now.

Definition expire (now : Z) (st : MemoryStateStore) (k : RecordKey) : MemoryStateStore :=
  publish_locked (set_records (delete k (records (inner st))) st) (removed k now).

Definition prune_expired_locked `{RecordOrder} (st : MemoryStateStore) (now : Z) : MemoryStateStore :=
  let expired := fst <$> filter (fun e => expires_at_unix_ms e.2 <= now) (iter now (records (inner st))) in
  foldl (expire now) st expired.

(** A [Duration] is its nanoseconds. *)
Definition ttl_ms (ttl : Z) : result StateStoreError Z :=
  if ttl =? 0 then Err (InvalidLeaseTtl ttl) else
  let ms := ttl / 1000000 in
  if 2 ^ 64 <=? ms then Err (InvalidLeaseTtl ttl) else
  if ms =? 0 then Err (InvalidLeaseTtl ttl) else Ok ms.

(** The unambiguous key of a process. *)
Definition instance_key (st : NodeStatus) : string :=
  pretty (Z.of_nat (String.length (id (node st)))) +:+ ":" +:+ id (node st) +:+ incarnation_id st.

Definition record_key (store : MemoryStateStore) (st : NodeStatus) : RecordKey :=
  (cluster_id st, if instance_records store then instance_key st else id (node st)).

(** Why a write is not accepted over the current record. *)
Definition refused (current new : NodeStatus) : option WriteDisposition :=
  if bool_decide (incarnation_id current = incarnation_id new) then
    match heartbeat_seq new ?= heartbeat_seq current with Lt => Some Stale | Eq => Some Duplicate | Gt => None end
  else if (started_at_unix_ms new <? started_at_unix_ms current)
       || ((started_at_unix_ms new =? started_at_unix_ms current) && (reported_at_unix_ms new <=? reported_at_unix_ms current))
  then Some Stale else None.

Definition upsert_locked `{RecordOrder} (store : MemoryStateStore) (st : NodeStatus) (ttl now : Z) : MemoryStateStore * WriteResult :=
  let key := record_key store st in
  let store := prune_expired_locked store now in
  match (r ← records (inner store) !! key; refused (status r) st) with
  | Some d => (store, mkWrite d (revision (rev (inner store))))
  | None =>
    let store := set_records (<[key := mkStored st (saturating_add 64 now ttl)]> (records (inner store))) store in
    let store := publish_locked store (mkEvent (cluster_id st) (id (node st)) Upserted (Some st) (revision 0) now) in
    (store, mkWrite Applied (revision (rev (inner store))))
  end.

(** A method returns the store it leaves behind, also when it fails. *)
Definition upsert_node `{RecordOrder} (store : MemoryStateStore) (st : NodeStatus) (ttl now : Z) : MemoryStateStore * result StateStoreError WriteResult :=
  match ensure_available store with
  | Err e => (store, Err e)
  | Ok _ =>
    match Status.validate st with
    | Err e => (store, Err (InvalidRecord e))
    | Ok _ =>
      match ttl_ms ttl with
      | Err e => (store, Err e)
      | Ok ms => let r := upsert_locked store st ms now in (r.1, Ok r.2)
      end
    end
  end.

Definition remove_locked `{RecordOrder} (store : MemoryStateStore) (key : RecordKey) (incarnation : string) (now : Z) : MemoryStateStore * WriteResult :=
  let store := prune_expired_locked store now in
  match records (inner store) !! key with
  | None => (store, mkWrite NotFound (revision (rev (inner store))))
  | Some r =>
    if negb (bool_decide (incarnation_id (status r) = incarnation)) then (store, mkWrite Stale (revision (rev (inner store)))) else
    let store := publish_locked (set_records (delete key (records (inner store))) store) (removed key now) in
    (store, mkWrite Applied (revision (rev (inner store))))
  end.

Definition remove_node `{RecordOrder} (store : MemoryStateStore) (cluster n incarnation : string) (now : Z) : MemoryStateStore * result StateStoreError WriteResult :=
  match ensure_available store with
  | Err e => (store, Err e)
  | Ok _ => let r := remove_locked store (cluster, n) incarnation now in (r.1, Ok r.2)
  end.

Definition by_node (a b : NodeStatus) : Prop := String.le (id (node a)) (id (node b)).
#[export] Instance by_node_dec a b : Decision (by_node a b).
Proof. unfold by_node. apply _. Defined.

Definition snapshot `{RecordOrder} (store : MemoryStateStore) (cluster : string) (now : Z) : MemoryStateStore * result StateStoreError ClusterSnapshot :=
  match ensure_available store with
  | Err e => (store, Err e)
  | Ok _ =>
    let store := prune_expired_locked store now in
    let l := (fun e => status e.2) <$> filter (fun e => e.1.1 = cluster) (iter now (records (inner store))) in
    (store, Ok (mkSnapshot (merge_sort by_node l) (revision (rev (inner store))) now))
  end.

Definition check_ready `{RecordOrder} (store : MemoryStateStore) (now : Z) : MemoryStateStore * result StateStoreError string :=
  match ensure_available store with
  | Err e => (store, Err e)
  | Ok _ => let store := prune_expired_locked store now in (store, Ok (revision (rev (inner store))))
  end.

(** *** Watches *)

(** [position] is the receiver's place in the events that are sent. *)
Record MemoryWatch := mkWatch { w_cluster : string; backlog : list NodeEvent; position : nat; last_revision : string }.

(** Is the event one of the cluster, after the revision? *)
Definition later (cluster : string) (after : Z) (e : NodeEvent) : bool :=
  bool_decide (ev_cluster e = cluster) && match parse_revision (ev_revision e) with Ok r => after <? r | Err _ => false end.

(** [None] is the panic of a history without memory revisions. *)
Definition watch_locked (store : MemoryStateStore) (cluster : string) (after : Z) : option (result StateStoreError MemoryWatch) :=
  if rev (inner store) <? after then Some (Err (InvalidRevision (revision after) "revision is newer than current state")) else
  let open := Some (Ok (mkWatch cluster (filter (fun e => later cluster after e = true) (history (inner store))) (length (events store)) (revision after))) in
  match history (inner store) with
  | [] => open
  | e :: _ =>
    match parse_revision (ev_revision e) with
    | Err _ => None
    | Ok oldest => if saturating_add 64 after 1 <? oldest then Some (Err (Compacted (revision after) (revision oldest))) else open
    end
  end.

Definition watch `{RecordOrder} (store : MemoryStateStore) (cluster : string) (after : option string) (now : Z) : MemoryStateStore * option (result StateStoreError MemoryWatch) :=
  match ensure_available store with
  | Err e => (store, Some (Err e))
  | Ok _ =>
    let store := prune_expired_locked store now in
    match match after with Some r => parse_revision r | None => Ok (rev (inner store)) end with
    | Err e => (store, Some (Err e))
    | Ok after => (store, watch_locked store cluster after)
    end
  end.

(** What [next] finds: an event, an error, or nothing yet. *)
Inductive Polled := Ready (r : result StateStoreError NodeEvent) | Pending.

(** The loop of [next]: [oldest] is the first event that the channel still holds for the receiver. *)
Fixpoint receive (fuel : nat) (sent : list NodeEvent) (oldest : nat) (w : MemoryWatch) : Polled * MemoryWatch :=
  match fuel with
  | O => (Pending, w)
  | S fuel =>
    if (position w <? oldest)%nat
    then (Ready (Err (WatchLagged (last_revision w) (Z.of_nat (oldest - position w)))), mkWatch (w_cluster w) (backlog w) oldest (last_revision w))
    else match sent !! position w with
         | None => (Pending, w)
         | Some e =>
           let w := mkWatch (w_cluster w) (backlog w) (S (position w)) (ev_revision e) in
           if bool_decide (ev_cluster e = w_cluster w) then (Ready (Ok e), w) else receive fuel sent oldest w
         end
  end.

Definition next (sent : list NodeEvent) (oldest : nat) (w : MemoryWatch) : Polled * MemoryWatch :=
  match backlog w with
  | e :: l => (Ready (Ok e), mkWatch (w_cluster w) l (position w) (ev_revision e))
  | [] => receive (S (length sent)) sent oldest w
  end.

(** *** Member registries *)

Definition MAX_REGISTRY_BYTES : Z := 512 * 1024.

(** [serde_json::to_vec] of a registry; [None] is a failure to serialize. *)
Class RegistryJson := { registry_json : Membership.MemberRegistry -> option (list byte) }.

Record RegistrySnapshot := mkRegistrySnapshot { value : Membership.MemberRegistry; r_revision : option string }.

Definition encode `{RegistryJson} (v : Membership.MemberRegistry) : result StateStoreError (list byte) :=
  match Membership.validate v with
  | Err e => Err (InvalidRegistry e)
  | Ok _ =>
    match registry_json v with
    | None => Err (InvalidRegistry "json")
    | Some bytes => if MAX_REGISTRY_BYTES <? Z.of_nat (length bytes) then Err (InvalidRegistry "member registry exceeds 512 KiB limit") else Ok bytes
    end
  end.

Definition member_registry (store : MemoryStateStore) (cluster : string) : result StateStoreError RegistrySnapshot :=
  _ ← ensure_available store;
  Ok (match registries (inner store) !! cluster with
      | Some (v, r) => mkRegistrySnapshot v (Some r)
      | None => mkRegistrySnapshot Membership.MemberRegistry_default None
      end).

(** The outer [None] is the overflow of the revision. *)
Definition compare_member_registry `{RegistryJson} (store : MemoryStateStore) (cluster : string) (expected : option string) (v : Membership.MemberRegistry)
  : option (MemoryStateStore * result StateStoreError bool) :=
  match (_ ← ensure_available store; encode v) with
  | Err e => Some (store, Err e)
  | Ok _ =>
    let i := inner store in
    if negb (bool_decide (snd <$> registries i !! cluster = expected)) then Some (store, Ok false) else
    let r := rev i + 1 in
    if 2 ^ 64 <=? r then None else
    Some (set_inner (mkInner r (records i) (<[cluster := (v, revision r)]> (registries i)) (history i)) store, Ok true)
  end.

(** *** The store of processes *)

(** The instance records live in a store of their own, made when it is first used. *)
Record Stores := mkStores { main : MemoryStateStore; instances : option MemoryStateStore }.

Definition instance_store (s : Stores) : MemoryStateStore :=
  default (with_time_source (history_limit (main s)) true) (instances s).

Definition upsert_instance `{RecordOrder} (s : Stores) (st : NodeStatus) (ttl now : Z) : Stores * result StateStoreError WriteResult :=
  match ensure_available (main s) with
  | Err e => (s, Err e)
  | Ok _ => let r := upsert_node (instance_store s) st ttl now in (mkStores (main s) (Some r.1), r.2)
  end.

Definition instance_snapshot `{RecordOrder} (s : Stores) (cluster : string) (now : Z) : Stores * result StateStoreError ClusterSnapshot :=
  match ensure_available (main s) with
  | Err e => (s, Err e)
  | Ok _ => let r := snapshot (instance_store s) cluster now in (mkStores (main s) (Some r.1), r.2)
  end.

(** ** Revisions read back *)

Lemma digits_pretty n x : (n < 2 ^ 64)%N -> digits 0 (as_bytes (pretty_N_go n x)) = digits (Z.of_N n) (as_bytes x).
Proof.
  revert x. induction (N.lt_wf_0 n) as [n _ IH]; intros x Hn. destruct (decide (n = 0)%N) as [->|H0]; [by rewrite pretty_N_go_0|].
  assert (n / 10 < n)%N by (apply N.div_lt; lia). rewrite pretty_N_go_step, IH by lia.
  pose proof (N.mod_lt n 10 ltac:(lia)) as Hd. pose proof (N.div_mod n 10 ltac:(lia)) as Hdm.
  remember (n mod 10)%N as d eqn:Ed. remember (n / 10)%N as q eqn:Eq. clear Ed Eq IH.
  change (as_bytes (String (pretty_N_char d) x)) with (Ascii.byte_of_ascii (pretty_N_char d) :: as_bytes x). cbn [digits].
  assert (byte_val (Ascii.byte_of_ascii (pretty_N_char d)) - 48 = Z.of_N d) as ->.
  { assert (d = 0 \/ d = 1 \/ d = 2 \/ d = 3 \/ d = 4 \/ d = 5 \/ d = 6 \/ d = 7 \/ d = 8 \/ d = 9)%N as Hc by lia.
    repeat destruct Hc as [->|Hc]; try (vm_compute; reflexivity). subst. vm_compute. reflexivity. }
  replace ((Z.of_N d <? 0) || (9 <? Z.of_N d)) with false by lia. replace (2 ^ 64 <=? Z.of_N q * 10 + Z.of_N d) with false by lia.
  f_equal. lia.
Qed.

Lemma parse_pretty n : 0 <= n < 2 ^ 64 -> parse_u64 (pretty n) = Some n.
Proof.
  intros Hn. destruct (decide (n = 0)) as [->|H0]; [done|]. destruct n as [|p|p]; [done| |lia].
  assert (digits 0 (as_bytes (pretty (Zpos p))) = Some (Zpos p)) as Hd.
  { change (pretty (Zpos p)) with (if decide (Npos p = 0)%N then "0" else pretty_N_go (Npos p) ""). rewrite decide_False by done. rewrite digits_pretty by lia. done. }
  unfold parse_u64. destruct (as_bytes (pretty (Zpos p))) as [|b l]; [done|]. case_bool_decide as Hb; [|done]. by subst.
Qed.

Lemma strip_prefix_app p x : strip_prefix p (p +:+ x) = Some x.
Proof.
  induction p as [|a p IH]; [by destruct x|].
  change (strip_prefix (String a p) (String a p +:+ x)) with (if bool_decide (a = a) then strip_prefix p (p +:+ x) else None). by rewrite bool_decide_eq_true_2.
Qed.

Lemma parse_revision_revision n : 0 <= n < 2 ^ 64 -> parse_revision (revision n) = Ok n.
Proof. intros Hn. unfold parse_revision, revision. rewrite strip_prefix_app. cbn [mbind option_bind]. by rewrite parse_pretty. Qed.

(** ** The log of events *)

(** Following the events of a cluster: what a watcher knows of the nodes. *)
Abbreviation View := (gmap RecordKey NodeStatus) (only parsing).

Definition apply_event (v : View) (e : NodeEvent) : View :=
  match ev_status e with
  | Some st => <[(ev_cluster e, ev_node e) := st]> v
  | None => delete (ev_cluster e, ev_node e) v
  end.

Definition replay (v : View) (l : list NodeEvent) : View := foldl apply_event v l.

Definition view (st : MemoryStateStore) : View := status <$> records (inner st).

(** The nodes of one cluster. *)
Definition of_cluster (c : string) (v : View) : View := filter (fun kv => kv.1.1 = c) v.

(** The revisions of events. *)
Definition numbered (l : list NodeEvent) (rs : list Z) : Prop := Forall2 (fun e r => ev_revision e = revision r) l rs.

(** A change of a store: the events it sends, with revisions of their own, account for what happens to the records. *)
Record advance (st : MemoryStateStore) (l : list NodeEvent) (rs : list Z) (st' : MemoryStateStore) : Prop := {
  adv_kind : instance_records st' = instance_records st;
  adv_limit : history_limit st' = history_limit st;
  adv_rev : rev (inner st) <= rev (inner st');
  adv_events : events st' = events st ++ l;
  adv_numbered : numbered l rs;
  adv_sorted : StronglySorted Z.lt rs;
  adv_range : Forall (fun r => rev (inner st) < r <= rev (inner st')) rs;
  adv_view : view st' = replay (view st) l;
  adv_history : history (inner st) = trim (history_limit st) (events st) -> history (inner st') = trim (history_limit st') (events st')
}.

Lemma advance_refl st st' : instance_records st' = instance_records st -> history_limit st' = history_limit st -> rev (inner st) <= rev (inner st') -> events st' = events st ->
  view st' = view st -> history (inner st') = history (inner st) -> advance st [] [] st'.
Proof.
  intros E1 E2 Hr E3 E4 E5. split; try done; [by rewrite E3, app_nil_r|constructor|constructor|].
  intros Hh. by rewrite E5, E3, E2.
Qed.

Lemma sorted_lt_app rs rs' a b c : StronglySorted Z.lt rs -> StronglySorted Z.lt rs' -> Forall (fun r => a < r <= b) rs -> Forall (fun r => b < r <= c) rs' ->
  StronglySorted Z.lt (rs ++ rs').
Proof.
  intros Hs Hs' Hf Hf'. induction Hs as [|r rs Hs IH Hall]; [done|]. apply Forall_cons in Hf as [Hr Hf]. cbn. constructor; [by apply IH|].
  apply Forall_app. split; [done|]. eapply Forall_impl; [exact Hf'|]. cbn. lia.
Qed.

Lemma advance_trans st l rs st' l' rs' st'' : advance st l rs st' -> advance st' l' rs' st'' -> advance st (l ++ l') (rs ++ rs') st''.
Proof.
  intros [A1 A2 A3 A4 A5 A6 A7 A8 A9] [B1 B2 B3 B4 B5 B6 B7 B8 B9]. split; [by rewrite B1|by rewrite B2|lia|by rewrite B4, A4, app_assoc| | | | |].
  - by apply Forall2_app.
  - by eapply sorted_lt_app.
  - apply Forall_app. split; eapply Forall_impl; eauto; cbn; lia.
  - rewrite B8, A8. unfold replay. by rewrite foldl_app.
  - intros Hh. by apply B9, A9.
Qed.

Lemma trim_app n a b : trim n (trim n a ++ b) = trim n (a ++ b).
Proof.
  unfold trim. rewrite !length_app, length_drop. destruct (decide (length a <= n)%nat) as [Hle|Hgt].
  - replace (length a - n)%nat with 0%nat by lia. rewrite drop_0. do 2 f_equal. lia.
  - rewrite !drop_app, drop_drop, length_drop. f_equal; f_equal; lia.
Qed.

Lemma publish_rev st e : 0 <= rev (inner st) <= 2 ^ 64 - 1 -> rev (inner st) <= rev (inner (publish_locked st e)) <= 2 ^ 64 - 1.
Proof. intros Hr. cbn. unfold saturating_add. lia. Qed.

Lemma publish_advance st m e : 0 <= rev (inner st) -> rev (inner (publish_locked st e)) < 2 ^ 64 - 1 -> status <$> m = apply_event (view st) e ->
  exists l rs, advance st l rs (publish_locked (set_records m st) e).
Proof.
  intros Hr Hlt Hm. cbn in Hlt. unfold saturating_add in Hlt. assert (saturating_add 64 (rev (inner st)) 1 = rev (inner st) + 1) as E by (unfold saturating_add; lia).
  eexists [_], [rev (inner st) + 1]. unfold publish_locked. cbn -[trim]. rewrite E. split; cbn -[trim]; [done|done|lia|reflexivity| | | |exact Hm|].
  - by constructor.
  - repeat constructor.
  - repeat constructor; lia.
  - intros ->. by rewrite trim_app.
Qed.

Section Log.
Context `{RecordOrder}.

Lemma expire_rev now st ks : 0 <= rev (inner st) <= 2 ^ 64 - 1 -> rev (inner st) <= rev (inner (foldl (expire now) st ks)) <= 2 ^ 64 - 1.
Proof.
  revert st. induction ks as [|k ks IH]; intros st Hr; cbn [foldl]; [lia|].
  pose proof (publish_rev (set_records (delete k (records (inner st))) st) (removed k now) Hr) as Hp. change (rev (inner (set_records _ st))) with (rev (inner st)) in Hp.
  specialize (IH (expire now st k)). unfold expire in *. lia.
Qed.

Lemma expire_advance now st ks : 0 <= rev (inner st) -> rev (inner (foldl (expire now) st ks)) < 2 ^ 64 - 1 -> exists l rs, advance st l rs (foldl (expire now) st ks).
Proof.
  revert st. induction ks as [|k ks IH]; intros st Hr Hlt; cbn [foldl] in *; [by exists [], []; apply advance_refl|].
  destruct (decide (rev (inner st) < 2 ^ 64 - 1)) as [Hs|Hs].
  2:{ exfalso. pose proof (expire_rev now (expire now st k) ks) as He. cbn in He. unfold saturating_add in He. lia. }
  assert (0 <= rev (inner (expire now st k)) <= 2 ^ 64 - 1) as Hk by (cbn; unfold saturating_add; lia).
  destruct (publish_advance st (delete k (records (inner st))) (removed k now)) as (l & rs & Ha); [done| | |].
  - pose proof (expire_rev now (expire now st k) ks Hk) as He. cbn in He |- *. lia.
  - unfold view, apply_event. cbn. rewrite fmap_delete. by destruct k.
  - destruct (IH (expire now st k)) as (l' & rs' & Ha'); [lia|done|]. exists (l ++ l'), (rs ++ rs'). by eapply advance_trans.
Qed.

Lemma prune_rev st now : 0 <= rev (inner st) <= 2 ^ 64 - 1 -> rev (inner st) <= rev (inner (prune_expired_locked st now)) <= 2 ^ 64 - 1.
Proof. apply expire_rev. Qed.

Lemma prune_advance st now : 0 <= rev (inner st) -> rev (inner (prune_expired_locked st now)) < 2 ^ 64 - 1 -> exists l rs, advance st l rs (prune_expired_locked st now).
Proof. apply expire_advance. Qed.

(** Pruning removes exactly the expired records. *)
Lemma expire_records now st ks : records (inner (foldl (expire now) st ks)) = foldl (fun m k => delete k m) (records (inner st)) ks.
Proof. revert st. induction ks as [|k ks IH]; intros st; [done|]. cbn [foldl]. by rewrite IH. Qed.

Lemma foldl_delete {A} (m : gmap RecordKey A) ks k : foldl (fun m k => delete k m) m ks !! k = if bool_decide (k ∈ ks) then None else m !! k.
Proof.
  revert m. induction ks as [|k' ks IH]; intros m; cbn [foldl]; [done|]. rewrite IH. destruct (decide (k = k')) as [->|Hne].
  - rewrite lookup_delete_eq, (bool_decide_eq_true_2 (k' ∈ k' :: ks)) by set_solver. by case_bool_decide.
  - rewrite lookup_delete_ne by done. rewrite (bool_decide_ext (k ∈ k' :: ks) (k ∈ ks)) by set_solver. done.
Qed.

Lemma prune_records st now k : records (inner (prune_expired_locked st now)) !! k =
  match records (inner st) !! k with Some r => if now <? expires_at_unix_ms r then Some r else None | None => None end.
Proof.
  unfold prune_expired_locked. rewrite expire_records, foldl_delete. set (ks := fst <$> _).
  assert (k ∈ ks <-> exists r, records (inner st) !! k = Some r /\ expires_at_unix_ms r <= now) as Hk.
  { unfold ks. rewrite list_elem_of_fmap. split.
    - intros ([k' r] & -> & [He Hin]%list_elem_of_filter). rewrite iter_perm in Hin. apply elem_of_map_to_list in Hin. eauto.
    - intros (r & Hr & He). exists (k, r). split; [done|]. apply list_elem_of_filter. split; [done|]. rewrite iter_perm. by apply elem_of_map_to_list. }
  case_bool_decide as Hb.
  - apply Hk in Hb as (r & -> & He). by destruct (Z.ltb_spec now (expires_at_unix_ms r)); [lia|].
  - destruct (records (inner st) !! k) as [r|] eqn:Er; [|done]. destruct (Z.ltb_spec now (expires_at_unix_ms r)); [done|].
    exfalso. apply Hb, Hk. eauto.
Qed.

End Log.

End StateStore.
