(* ===== verification/StateStoreSpec.v ===== *)
(** What the shared cluster state promises to coordinators: a watch that resumes from a snapshot delivers every change
    after it once and in order, and leases expire and refuse older writers exactly as their times say. *)

From stdpp Require Import strings gmap sorting.
From S2P Require Import Prelude External Key Placement Status Membership StateStore.

#[local] Set Warnings "-clear-no-such-hyp".

Module StateStoreSpec.
Import Key Placement Status StateStore.

Section Spec.
Context `{RecordOrder} `{RegistryJson}.

(** ** The life of a store *)

Inductive Op :=
  | OpUpsert (st : NodeStatus) (ttl : Z)
  | OpRemove (cluster n incarnation : string)
  | OpSnapshot (cluster : string)
  | OpReady
  | OpWatch (cluster : string) (after : option string)
  | OpCompare (cluster : string) (expected : option string) (v : Membership.MemberRegistry)
  | OpAvailable (b : bool).

Definition exec (op : Op) (now : Z) (st : MemoryStateStore) : option MemoryStateStore :=
  match op with
  | OpUpsert s ttl => Some (upsert_node st s ttl now).1
  | OpRemove c n i => Some (remove_node st c n i now).1
  | OpSnapshot c => Some (snapshot st c now).1
  | OpReady => Some (check_ready st now).1
  | OpWatch c after => let r := watch st c after now in _ ← r.2; Some r.1
  | OpCompare c expected v => fst <$> compare_member_registry st c expected v
  | OpAvailable b => Some (set_available b st)
  end.

Definition step (st st' : MemoryStateStore) : Prop := exists op now, exec op now st = Some st'.

Definition bounded (st : MemoryStateStore) : Prop := 0 <= rev (inner st) <= 2 ^ 64 - 1.

(** Every operation is a pruning, or a pruning and one more event, or leaves the records alone. *)
Inductive change (st : MemoryStateStore) (now : Z) : MemoryStateStore -> Prop :=
  | change_prune : change st now (prune_expired_locked st now)
  | change_event m e : status <$> m = apply_event (view (prune_expired_locked st now)) e ->
      match ev_status e with Some s => (ev_cluster e, ev_node e) = (cluster_id s, id (node s)) | None => True end ->
      change st now (publish_locked (set_records m (prune_expired_locked st now)) e)
  | change_other st' : instance_records st' = instance_records st -> history_limit st' = history_limit st -> rev (inner st) <= rev (inner st') ->
      events st' = events st -> records (inner st') = records (inner st) -> history (inner st') = history (inner st) ->
      (bounded st -> bounded st') -> change st now st'.

Lemma upsert_event st m s ttl now : instance_records st = false ->
  status <$> (<[record_key st s := mkStored s ttl]> m) = apply_event (status <$> m) (mkEvent (cluster_id s) (id (node s)) Upserted (Some s) (revision 0) now).
Proof. intros Hi. unfold record_key, apply_event. rewrite Hi. cbn. by rewrite fmap_insert. Qed.

Lemma prune_kind st now : instance_records (prune_expired_locked st now) = instance_records st.
Proof.
  unfold prune_expired_locked. generalize (fst <$> filter (fun e : RecordKey * StoredRecord => expires_at_unix_ms e.2 <= now) (iter now (records (inner st)))).
  intros ks. revert st. induction ks as [|k ks IH]; intros st; [done|]. cbn [foldl]. by rewrite IH.
Qed.

Lemma exec_change op now st st' : instance_records st = false -> exec op now st = Some st' -> change st now st'.
Proof.
  intros Hi. assert (change st now st) as Hsame by (by apply change_other).
  destruct op as [s ttl|c n i|c| |c after|c expected v|b]; cbn [exec].
  - intros [= <-]. unfold upsert_node. destruct (ensure_available st); [|done]. destruct (Status.validate s); [|done]. destruct (ttl_ms ttl); [|done]. cbn [fst].
    unfold upsert_locked. destruct (mbind _ _) as [d|]; cbn [fst]; [apply change_prune|]. apply change_event; [by apply upsert_event|done].
  - intros [= <-]. unfold remove_node. destruct (ensure_available st); [|done]. cbn [fst]. unfold remove_locked.
    case_match; [|apply change_prune]. destruct (negb _); [apply change_prune|]. cbn [fst]. apply change_event; [|done].
    unfold view, apply_event. cbn. by rewrite fmap_delete.
  - intros [= <-]. unfold snapshot. destruct (ensure_available st); [|done]. apply change_prune.
  - intros [= <-]. unfold check_ready. destruct (ensure_available st); [|done]. apply change_prune.
  - unfold watch. destruct (ensure_available st); [|by intros [= <-]]. destruct (match after with Some _ => _ | None => _ end) as [r|]; cbn; [|intros [= <-]; apply change_prune].
    intros (w & _ & [= <-])%bind_Some. apply change_prune.
  - unfold compare_member_registry. destruct (mbind _ _); [|by intros [= <-]]. destruct (negb _); [by intros [= <-]|].
    destruct (Z.leb_spec (2 ^ 64) (rev (inner st) + 1)); [done|]. intros [= <-]. apply change_other; cbn; try done; [lia|]. unfold bounded. cbn. lia.
  - intros [= <-]. by apply change_other.
Qed.

Lemma change_kind st now st' : change st now st' -> instance_records st' = instance_records st.
Proof. intros [|m e _ _|]; [apply prune_kind|apply prune_kind|done]. Qed.

Lemma change_bounded st now st' : change st now st' -> bounded st -> rev (inner st) <= rev (inner st') /\ bounded st'.
Proof.
  intros [|m e He _|st1 _ _ Hr _ _ _ Hb1] Hb; [pose proof (prune_rev st now Hb); unfold bounded in *; lia| |auto].
  pose proof (prune_rev st now Hb) as Hp. pose proof (publish_rev (set_records m (prune_expired_locked st now)) e) as Hq. cbn in *. unfold bounded in *. cbn in *. lia.
Qed.

Lemma change_advance st now st' : change st now st' -> bounded st -> rev (inner st') < 2 ^ 64 - 1 -> exists l rs, advance st l rs st'.
Proof.
  intros Hc Hb Hlt. pose proof Hb as [Hr _]. destruct Hc as [|m e He _|st' E1 E2 Hrev E3 E4 E5 _].
  - by apply prune_advance.
  - pose proof (prune_rev st now Hb) as Hp. assert (0 <= rev (inner (prune_expired_locked st now)) <= 2 ^ 64 - 1) as Hp' by lia. pose proof (publish_rev _ e Hp') as Hq.
    change (rev (inner (publish_locked (set_records m (prune_expired_locked st now)) e))) with (rev (inner (publish_locked (prune_expired_locked st now) e))) in Hlt.
    destruct (prune_advance st now) as (l & rs & Ha); [lia|lia|]. destruct (publish_advance (prune_expired_locked st now) m e) as (l' & rs' & Ha'); [lia|lia|done|].
    exists (l ++ l'), (rs ++ rs'). by eapply advance_trans.
  - exists [], []. apply advance_refl; try done. unfold view. by rewrite E4.
Qed.

Lemma steps_bounded st st' : rtc step st st' -> instance_records st = false -> bounded st -> instance_records st' = false /\ bounded st' /\ rev (inner st) <= rev (inner st').
Proof.
  induction 1 as [|st1 st2 st3 (op & now & He) _ IH]; intros Hi Hb; [by splits|]. pose proof (exec_change _ _ _ _ Hi He) as Hc.
  destruct (change_bounded _ _ _ Hc Hb) as [Hr Hb2]. destruct IH as (? & ? & ?); [by rewrite (change_kind _ _ _ Hc)|done|]. splits; [done|done|lia].
Qed.

Lemma steps_advance st st' : rtc step st st' -> instance_records st = false -> bounded st -> rev (inner st') < 2 ^ 64 - 1 ->
  bounded st' /\ exists l rs, advance st l rs st'.
Proof.
  intros Hs. induction Hs as [st|st1 st2 st3 (op & now & He) Hs IH]; intros Hi Hb Hlt.
  { split; [done|]. exists [], []. by apply advance_refl. }
  pose proof (exec_change _ _ _ _ Hi He) as Hc. destruct (change_bounded _ _ _ Hc Hb) as [_ Hb2].
  pose proof (change_kind _ _ _ Hc) as Hi2. destruct (IH ltac:(congruence) Hb2 Hlt) as (Hb3 & l & rs & Ha). split; [done|].
  destruct (change_advance _ _ _ Hc Hb) as (l' & rs' & Ha'); [pose proof (adv_rev _ _ _ _ Ha); lia|].
  exists (l' ++ l), (rs' ++ rs). by eapply advance_trans.
Qed.

(** ** Watching *)

(** The events of a cluster. *)
Definition events_of (c : string) (l : list NodeEvent) : list NodeEvent := filter (fun e => ev_cluster e = c) l.

Definition todo (sent : list NodeEvent) (w : MemoryWatch) : list NodeEvent := backlog w ++ events_of (w_cluster w) (drop (position w) sent).

Lemma receive_spec sent oldest fuel w : backlog w = [] -> (position w <= length sent)%nat -> (length sent - position w < fuel)%nat ->
  let r := receive fuel sent oldest w in
  w_cluster r.2 = w_cluster w /\ backlog r.2 = [] /\
  match r.1 with
  | Ready (Ok e) => (position r.2 <= length sent)%nat /\ todo sent w = e :: todo sent r.2
  | Ready (Err _) => True
  | Pending => (position r.2 <= length sent)%nat /\ todo sent w = [] /\ todo sent r.2 = []
  end.
Proof.
  revert w. induction fuel as [|fuel IH]; intros w Hb Hp Hf; [lia|]. cbn [receive]. destruct (position w <? oldest)%nat; [done|].
  destruct (sent !! position w) as [e|] eqn:Ee.
  2:{ assert (todo sent w = []) by (unfold todo, events_of; rewrite Hb, drop_ge; [done|]; by apply lookup_ge_None). done. }
  pose proof (lookup_lt_Some _ _ _ Ee) as Hlt. set (w1 := mkWatch _ _ _ _).
  assert (todo sent w = if bool_decide (ev_cluster e = w_cluster w) then e :: todo sent w1 else todo sent w1) as Ht.
  { unfold todo, events_of. cbn. rewrite Hb, (drop_S sent e (position w)) by done. cbn [app]. rewrite filter_cons. by case_decide; case_bool_decide. }
  change (w_cluster w1) with (w_cluster w). case_bool_decide.
  - cbn. splits; [done|done|lia|done].
  - rewrite Ht. apply (IH w1); [done|cbn; lia|cbn; lia].
Qed.

Lemma poll_spec sent oldest w : (position w <= length sent)%nat ->
  let r := next sent oldest w in
  w_cluster r.2 = w_cluster w /\
  match r.1 with
  | Ready (Ok e) => (position r.2 <= length sent)%nat /\ todo sent w = e :: todo sent r.2
  | Ready (Err _) => True
  | Pending => (position r.2 <= length sent)%nat /\ todo sent w = [] /\ todo sent r.2 = []
  end.
Proof.
  intros Hp. unfold next. destruct (backlog w) as [|e l] eqn:Eb.
  - by destruct (receive_spec sent oldest (S (length sent)) w Eb Hp ltac:(lia)) as (Hc & _ & Hr).
  - cbn. unfold todo. by rewrite Eb.
Qed.

(** A watcher polls while the store goes on; [l] is what it is given. *)
Inductive polls : MemoryStateStore -> MemoryWatch -> list NodeEvent -> MemoryStateStore -> MemoryWatch -> Prop :=
  | polls_done st w : polls st w [] st w
  | polls_store st st1 w l st' w' : step st st1 -> polls st1 w l st' w' -> polls st w l st' w'
  | polls_event st w oldest e w1 l st' w' : next (events st) oldest w = (Ready (Ok e), w1) -> polls st w1 l st' w' -> polls st w (e :: l) st' w'
  | polls_pending st w oldest w1 l st' w' : next (events st) oldest w = (Pending, w1) -> polls st w1 l st' w' -> polls st w l st' w'.

Lemma polls_steps st w l st' w' : polls st w l st' w' -> rtc step st st'.
Proof. induction 1; [done|by eapply rtc_l|done|done]. Qed.

Lemma polls_todo st w l st' w' : polls st w l st' w' -> instance_records st = false -> bounded st -> rev (inner st') < 2 ^ 64 - 1 -> (position w <= length (events st))%nat ->
  (position w' <= length (events st'))%nat /\ exists new, events st' = events st ++ new /\ todo (events st) w ++ events_of (w_cluster w) new = l ++ todo (events st') w'.
Proof.
  induction 1 as [st w|st st1 w l st' w' Hs Hp IH|st w oldest e w1 l st' w' Hn Hp IH|st w oldest w1 l st' w' Hn Hp IH]; intros Hi Hb Hlt Hpos.
  - split; [done|]. exists []. by rewrite !app_nil_r.
  - destruct (steps_advance st st1 (rtc_once _ _ Hs) Hi Hb) as (Hb1 & l1 & rs & Ha).
    { pose proof (polls_steps _ _ _ _ _ Hp) as Hr. destruct Hs as (op & now & He). pose proof (exec_change _ _ _ _ Hi He) as Hc.
      assert (instance_records st1 = false) as Hi1 by (by rewrite (change_kind _ _ _ Hc)).
      destruct (change_bounded _ _ _ Hc Hb) as [_ Hb1]. destruct (steps_advance _ _ Hr Hi1 Hb1 Hlt) as (_ & ? & ? & Ha). pose proof (adv_rev _ _ _ _ Ha). lia. }
    pose proof (adv_events _ _ _ _ Ha) as E. destruct IH as (Hpos' & new & E' & Ht); [by rewrite (adv_kind _ _ _ _ Ha)|done|done|rewrite E, length_app; lia|].
    split; [done|]. exists (l1 ++ new). split; [by rewrite E', E, app_assoc|]. rewrite <-Ht, E. unfold todo, events_of.
    rewrite (drop_app_le (events st)) by done. by rewrite !filter_app, !app_assoc.
  - pose proof (poll_spec (events st) oldest w Hpos) as Hs. rewrite Hn in Hs. cbn in Hs. destruct Hs as (Ec & Hp1 & ->).
    destruct (IH Hi Hb Hlt Hp1) as (Hpos' & new & E' & Ht). split; [done|]. exists new. split; [done|]. cbn. by rewrite <-Ht, Ec.
  - pose proof (poll_spec (events st) oldest w Hpos) as Hs. rewrite Hn in Hs. cbn in Hs. destruct Hs as (Ec & Hp1 & -> & E1).
    destruct (IH Hi Hb Hlt Hp1) as (Hpos' & new & E' & Ht). split; [done|]. exists new. split; [done|]. by rewrite <-Ht, E1, Ec.
Qed.

Lemma later_numbered c after e r : ev_revision e = revision r -> 0 <= r < 2 ^ 64 -> later c after e = bool_decide (ev_cluster e = c) && (after <? r).
Proof. intros E Hr. unfold later. by rewrite E, parse_revision_revision. Qed.

Lemma later_before c after l rs : numbered l rs -> Forall (fun r => 0 < r <= after) rs -> after < 2 ^ 64 -> filter (fun e => later c after e = true) l = [].
Proof.
  intros Hn Hf Ha. induction Hn as [|e r l rs He _ IH]; [done|]. apply Forall_cons in Hf as [Hr Hf]. rewrite filter_cons, decide_False; [by apply IH|].
  rewrite (later_numbered c after e r) by (done || lia). replace (after <? r) with false by lia. by rewrite andb_false_r.
Qed.

Lemma later_after c after l rs : numbered l rs -> Forall (fun r => after < r < 2 ^ 64 - 1) rs -> 0 <= after -> filter (fun e => later c after e = true) l = events_of c l.
Proof.
  intros Hn Hf Ha. induction Hn as [|e r l rs He _ IH]; [done|]. apply Forall_cons in Hf as [Hr Hf]. unfold events_of in *. rewrite !filter_cons, IH by done.
  rewrite (later_numbered c after e r) by (done || lia). replace (after <? r) with true by lia. rewrite andb_true_r. by case_bool_decide; case_decide; case_decide.
Qed.

(** A watch from a revision that no event after it was dropped for starts with exactly the later events. *)
Lemma watch_backlog st c after w before l rs0 rs :
  watch_locked st c after = Some (Ok w) -> events st = before ++ l -> history (inner st) = trim (history_limit st) (events st) -> (1 <= history_limit st)%nat ->
  numbered before rs0 -> numbered l rs -> StronglySorted Z.lt rs -> Forall (fun r => 0 < r <= after) rs0 -> Forall (fun r => after < r < 2 ^ 64 - 1) rs -> 0 <= after < 2 ^ 64 - 1 ->
  w = mkWatch c (events_of c l) (length (events st)) (revision after).
Proof.
  intros Hw Ee Eh Hl Hn0 Hn Hs Hr0 Hr Ha. unfold watch_locked in Hw. rewrite Eh, Ee in Hw. unfold trim in Hw. set (d := (length (before ++ l) - history_limit st)%nat) in *.
  destruct (rev (inner st) <? after); [done|]. destruct (decide (d <= length before)%nat) as [Hd|Hd].
  - assert (filter (fun e => later c after e = true) (drop d (before ++ l)) = events_of c l) as E.
    { rewrite drop_app_le, filter_app by done. rewrite (later_after c after l rs) by (done || lia).
      rewrite (later_before c after (drop d before) (drop d rs0)); [done|by apply Forall2_drop|by apply Forall_drop|lia]. }
    rewrite E, <-Ee in Hw. destruct (drop d _); [by injection Hw as <-|]. destruct (parse_revision _); [|done]. destruct (_ <? _); [done|]. by injection Hw as <-.
  - rewrite drop_app_ge in Hw by lia. pose proof (Forall2_length _ _ _ Hn) as Hlen. destruct l as [|e0 l]; [exfalso; unfold d in Hd; len|].
    destruct (Forall2_cons_inv_l _ _ _ _ Hn) as (r0 & rs' & He0 & Hn' & ->). apply Forall_cons in Hr as [Hr0' Hr'].
    pose proof (StronglySorted_inv Hs) as [_ Hall]. destruct (d - length before)%nat as [|i] eqn:Ei; [lia|]. cbn [drop] in Hw.
    assert (i < length l)%nat as Hi by (unfold d in Ei; len). destruct (lookup_lt_is_Some_2 l i Hi) as [e1 He1].
    destruct (Forall2_lookup_l _ _ _ _ _ Hn' He1) as (r1 & Hr1 & E1). rewrite (drop_S l e1 i He1) in Hw. rewrite E1 in Hw.
    pose proof (Forall_lookup_1 _ _ _ _ Hall Hr1) as Hlt. pose proof (Forall_lookup_1 _ _ _ _ Hr' Hr1) as Hb. cbn in Hlt, Hb.
    rewrite parse_revision_revision in Hw by lia. replace (saturating_add 64 after 1 <? r1) with true in Hw; [done|]. unfold saturating_add. lia.
Qed.

(** Records are found under the node they are about. *)
Definition keyed (v : View) : Prop := map_Forall (fun k s => k = (cluster_id s, id (node s))) v.

Lemma keyed_sub v v' : v ⊆ v' -> keyed v' -> keyed v.
Proof. intros Hs Hk k s Hv. apply Hk. by eapply lookup_weaken. Qed.

Lemma prune_view st now : view (prune_expired_locked st now) ⊆ view st.
Proof.
  apply map_subseteq_spec. intros k s. unfold view. rewrite !lookup_fmap, prune_records. destruct (records (inner st) !! k) as [r|]; [|done].
  by destruct (now <? expires_at_unix_ms r).
Qed.

Lemma change_keyed st now st' : change st now st' -> keyed (view st) -> keyed (view st').
Proof.
  intros Hc Hk. assert (keyed (view (prune_expired_locked st now))) as Hp by (eapply keyed_sub; [apply prune_view|done]).
  destruct Hc as [|m e He Hs|st' _ _ _ _ E _ _]; [done| |unfold view in *; by rewrite E].
  change (view (publish_locked (set_records m (prune_expired_locked st now)) e)) with (status <$> m). rewrite He. unfold apply_event.
  destruct (ev_status e) as [s|]; [by apply map_Forall_insert_2|by apply map_Forall_delete].
Qed.

Lemma steps_keyed st st' : rtc step st st' -> instance_records st = false -> keyed (view st) -> keyed (view st').
Proof.
  induction 1 as [|st1 st2 st3 (op & now & He) _ IH]; intros Hi Hk; [done|]. pose proof (exec_change _ _ _ _ Hi He) as Hc.
  apply IH; [by rewrite (change_kind _ _ _ Hc)|by eapply change_keyed].
Qed.

(** What a client knows from a snapshot. *)
Definition view_of (c : string) (l : list NodeStatus) : View := list_to_map ((fun s => ((c, id (node s)), s)) <$> l).

Lemma snapshot_view st c now snap st' : snapshot st c now = (st', Ok snap) -> keyed (view st) ->
  st' = prune_expired_locked st now /\ s_revision snap = revision (rev (inner st')) /\ view_of c (nodes snap) = of_cluster c (view st').
Proof.
  unfold snapshot. destruct (ensure_available st); [|done]. intros [= <- <-] Hk. cbn. splits; [done|done|].
  assert (keyed (view (prune_expired_locked st now))) as Hp by (eapply keyed_sub; [apply prune_view|done]).
  revert Hp. generalize (prune_expired_locked st now) as st1. intros st1 Hp. set (l := filter _ _).
  assert (forall e, e ∈ l <-> e.1.1 = c /\ records (inner st1) !! e.1 = Some e.2) as Hl.
  { intros [k r]. unfold l. by rewrite list_elem_of_filter, iter_perm, elem_of_map_to_list. }
  set (l' := (fun e : RecordKey * StoredRecord => (e.1, status e.2)) <$> l).
  assert (NoDup l'.*1) as Hnd.
  { unfold l'. rewrite <-list_fmap_compose. change (NoDup (fst <$> l)). eapply sublist_NoDup; [|apply fmap_sublist, sublist_filter]. rewrite iter_perm. apply NoDup_fst_map_to_list. }
  transitivity (list_to_map l' : View).
  - symmetry. apply list_to_map_proper; [done|]. rewrite merge_sort_Permutation, <-list_fmap_compose. unfold l'. apply Permutation_refl', list_fmap_ext. intros i e He.
    apply list_elem_of_lookup_2, Hl in He as [<- He]. assert (view st1 !! e.1 = Some (status e.2)) as Hv by (apply lookup_fmap_Some; eauto).
    pose proof (Hp _ _ Hv) as E. destruct e as [[c' n] r]. cbn in E |- *. by injection E as _ ->.
  - apply map_eq. intros k. apply option_eq. intros x. rewrite <-elem_of_list_to_map by done. unfold of_cluster, view, l'.
    rewrite map_lookup_filter_Some, lookup_fmap_Some, list_elem_of_fmap. split.
    + intros ([k' r] & [= -> ->] & [Hc He]%Hl). cbn in *. eauto.
    + intros [(r & <- & He) Hc]. exists (k, r). split; [done|]. by apply Hl.
Qed.

Lemma replay_cluster c v l : of_cluster c (replay v l) = replay (of_cluster c v) (events_of c l).
Proof.
  revert v. induction l as [|e l IH]; intros v; [done|]. cbn [replay foldl]. change (foldl apply_event (apply_event v e) l) with (replay (apply_event v e) l). rewrite IH.
  unfold events_of at 2. rewrite filter_cons. case_decide as Hc; cbn [replay foldl].
  - change (foldl apply_event ?v ?l) with (replay v l). f_equal. unfold apply_event, of_cluster. destruct (ev_status e) as [s|].
    + by rewrite map_filter_insert_True.
    + by rewrite map_filter_delete.
  - f_equal. unfold apply_event, of_cluster. destruct (ev_status e) as [s|].
    + rewrite map_filter_insert_False by done. apply map_filter_strong_ext_1. intros k x. rewrite lookup_delete_Some. cbn. naive_solver.
    + apply map_filter_strong_ext_1. intros k x. rewrite lookup_delete_Some. cbn. naive_solver.
Qed.

Lemma watch_opened limit st1 l1 rs1 l13 rs13 st2 c r now st3 w hi :
  watch st2 c (Some r) now = (st3, Some (Ok w)) -> r = revision (rev (inner st1)) -> bounded st1 ->
  advance (with_time_source limit false) l1 rs1 st1 -> advance st1 l13 rs13 st3 -> hi < 2 ^ 64 - 1 -> rev (inner st3) <= hi -> rev (inner st1) <= rev (inner st3) ->
  w = mkWatch c (events_of c l13) (length (events st3)) r.
Proof.
  intros Hw -> Hb1 A1 A13 Hlt Hr3 Hr13. unfold bounded in Hb1. unfold watch in Hw. destruct (ensure_available st2); [|done]. rewrite parse_revision_revision in Hw by lia.
  injection Hw as <- Hw. pose proof (advance_trans _ _ _ _ _ _ _ A1 A13) as A. eapply watch_backlog.
  - exact Hw.
  - rewrite (adv_events _ _ _ _ A13). reflexivity.
  - by apply (adv_history _ _ _ _ A).
  - rewrite (adv_limit _ _ _ _ A). cbn. lia.
  - rewrite (adv_events _ _ _ _ A1). apply (adv_numbered _ _ _ _ A1).
  - apply (adv_numbered _ _ _ _ A13).
  - apply (adv_sorted _ _ _ _ A13).
  - apply (adv_range _ _ _ _ A1).
  - eapply Forall_impl; [apply (adv_range _ _ _ _ A13)|]. cbn. lia.
  - lia.
Qed.

(** C21: A watch that resumes from a snapshot misses nothing: whenever the client has been given all there is, applying
    the events to the snapshot yields exactly the nodes of the cluster in the store, whatever happened
    before the watch was opened and while it was read. *)
Theorem watch_exact limit c st0 now0 st1 snap st2 now st3 w l st4 w4 oldest w5 :
  rtc step (with_time_source limit false) st0 -> snapshot st0 c now0 = (st1, Ok snap) -> rtc step st1 st2 ->
  watch st2 c (Some (s_revision snap)) now = (st3, Some (Ok w)) -> polls st3 w l st4 w4 -> rev (inner st4) < 2 ^ 64 - 1 ->
  next (events st4) oldest w4 = (Pending, w5) ->
  replay (view_of c (nodes snap)) l = of_cluster c (view st4).
Proof.
  intros R0 Hsnap R12 Hwatch Hpolls Hlt Hpend. set (new := with_time_source limit false) in *.
  assert (bounded new) as Hb0 by (unfold bounded; cbn; lia). assert (rtc step new st1) as R1.
  { eapply rtc_r; [exact R0|]. exists (OpSnapshot c), now0. cbn [exec]. by rewrite Hsnap. }
  assert (rtc step st1 st3) as R13.
  { eapply rtc_r; [exact R12|]. exists (OpWatch c (Some (s_revision snap))), now. cbn [exec]. by rewrite Hwatch. }
  pose proof (polls_steps _ _ _ _ _ Hpolls) as R34.
  destruct (steps_bounded _ _ R1 eq_refl Hb0) as (Hi1 & Hb1 & _). destruct (steps_bounded _ _ R13 Hi1 Hb1) as (Hi3 & Hb3 & Hr13). destruct (steps_bounded _ _ R34 Hi3 Hb3) as (_ & _ & Hr34).
  destruct (steps_bounded _ _ R0 eq_refl Hb0) as (Hi0 & _ & _).
  destruct (steps_advance _ _ R1 eq_refl Hb0 ltac:(lia)) as (_ & l1 & rs1 & A1). destruct (steps_advance _ _ R13 Hi1 Hb1 ltac:(lia)) as (_ & l13 & rs13 & A13).
  destruct (snapshot_view _ _ _ _ _ Hsnap (steps_keyed _ _ R0 eq_refl (map_Forall_empty _))) as (_ & Erev & Ev).
  pose proof (watch_opened limit st1 _ _ _ _ _ _ _ _ _ _ _ Hwatch Erev Hb1 A1 A13 Hlt Hr34 Hr13) as Ew.
  destruct (polls_todo _ _ _ _ _ Hpolls Hi3 Hb3 Hlt) as (Hpos & l34 & E34 & Ht); [by rewrite Ew|].
  pose proof (poll_spec (events st4) oldest w4 Hpos) as Hn. rewrite Hpend in Hn. destruct Hn as (_ & _ & Hnil & _).
  rewrite Hnil, app_nil_r, Ew in Ht. unfold todo in Ht. cbn in Ht. rewrite drop_all, app_nil_r in Ht.
  assert (rtc step st1 st4) as R14 by (by etransitivity). destruct (steps_advance _ _ R14 Hi1 Hb1 Hlt) as (_ & l14 & rs14 & A14).
  rewrite Ev, (adv_view _ _ _ _ A14), replay_cluster. f_equal. rewrite <-Ht.
  pose proof (adv_events _ _ _ _ A14) as E14. rewrite E34, (adv_events _ _ _ _ A13), <-app_assoc in E14. apply app_inv_head in E14. subst l14. unfold events_of. by rewrite filter_app.
Qed.

(** ** Leases *)

(** The abstract store: a table of leases that nothing is ever pruned from, read at a time. *)
Abbreviation Table := (gmap RecordKey StoredRecord) (only parsing).

Definition live (t : Table) (now : Z) (k : RecordKey) : option StoredRecord :=
  match t !! k with Some r => if now <? expires_at_unix_ms r then Some r else None | None => None end.

(** What a caller is told. *)
Inductive Reply := Wrote (d : WriteDisposition) | Nodes (l : list NodeStatus) | Failed (e : StateStoreError) | NoReply.

Definition told (r : result StateStoreError WriteResult) : Reply := match r with Ok w => Wrote (disposition w) | Err e => Failed e end.

Definition reply (op : Op) (now : Z) (st : MemoryStateStore) : Reply :=
  match op with
  | OpUpsert s ttl => told (upsert_node st s ttl now).2
  | OpRemove c n i => told (remove_node st c n i now).2
  | OpSnapshot c => match (snapshot st c now).2 with Ok s => Nodes (nodes s) | Err e => Failed e end
  | _ => NoReply
  end.

(** A report is newer than another: a later one of the same process, or one of a process that was started later, or
    as late and reports later. *)
Definition newer (current new : NodeStatus) : Prop :=
  if bool_decide (incarnation_id current = incarnation_id new) then heartbeat_seq current < heartbeat_seq new
  else started_at_unix_ms current < started_at_unix_ms new \/ (started_at_unix_ms current = started_at_unix_ms new /\ reported_at_unix_ms current < reported_at_unix_ms new).
#[local] Instance newer_dec current new : Decision (newer current new).
Proof. unfold newer. case_bool_decide; apply _. Defined.

Definition repeats (current new : NodeStatus) : Prop := incarnation_id current = incarnation_id new /\ heartbeat_seq current = heartbeat_seq new.

(** A write takes the lease unless the report of a live lease is as new; a removal ends the lease of its own process; a snapshot is
    the live leases of the cluster. *)
Definition spec_upsert (t : Table) (k : RecordKey) (s : NodeStatus) (ms now : Z) : Table * WriteDisposition :=
  match live t now k with
  | Some r => if decide (newer (status r) s) then (<[k := mkStored s (saturating_add 64 now ms)]> t, Applied)
              else (t, if bool_decide (repeats (status r) s) then Duplicate else Stale)
  | None => (<[k := mkStored s (saturating_add 64 now ms)]> t, Applied)
  end.

Definition spec_remove (t : Table) (k : RecordKey) (incarnation : string) (now : Z) : Table * WriteDisposition :=
  match live t now k with
  | None => (t, NotFound)
  | Some r => if bool_decide (incarnation_id (status r) = incarnation) then (delete k t, Applied) else (t, Stale)
  end.

Definition spec_nodes (t : Table) (c : string) (now : Z) : list NodeStatus :=
  (fun e => status e.2) <$> filter (fun e => e.1.1 = c /\ now < expires_at_unix_ms e.2) (map_to_list t).

Definition spec (op : Op) (now : Z) (t : Table * bool) : Table * bool * Reply :=
  match op with
  | OpAvailable b => (t.1, b, NoReply)
  | _ =>
    if negb t.2 then (t, match op with OpUpsert _ _ | OpRemove _ _ _ | OpSnapshot _ => Failed (Unavailable "fault injection is active") | _ => NoReply end) else
    match op with
    | OpUpsert s ttl =>
      match Status.validate s with
      | Err e => (t, Failed (InvalidRecord e))
      | Ok _ =>
        match ttl_ms ttl with
        | Err e => (t, Failed e)
        | Ok ms => let r := spec_upsert t.1 (cluster_id s, id (node s)) s ms now in (r.1, t.2, Wrote r.2)
        end
      end
    | OpRemove c n i => let r := spec_remove t.1 (c, n) i now in (r.1, t.2, Wrote r.2)
    | OpSnapshot c => (t, Nodes (spec_nodes t.1 c now))
    | _ => (t, NoReply)
    end
  end.

(** Snapshots list the same nodes, sorted. *)
Definition agrees (r r' : Reply) : Prop :=
  match r, r' with
  | Nodes l, Nodes l' => l ≡ₚ l' /\ StronglySorted by_node l
  | _, _ => r = r'
  end.

(** A run of the store at times that do not decrease, with what the callers are told. *)
Inductive run : Z -> MemoryStateStore -> list (Op * Z * Reply) -> MemoryStateStore -> Prop :=
  | run_nil last st : run last st [] st
  | run_cons last st op now st1 l st' : last <= now -> exec op now st = Some st1 -> run now st1 l st' -> run last st ((op, now, reply op now st) :: l) st'.

Fixpoint explains (t : Table * bool) (l : list (Op * Z * Reply)) : Prop :=
  match l with
  | [] => True
  | (op, now, r) :: l => let x := spec op now t in agrees r x.2 /\ explains x.1 l
  end.

(** The store and the table look the same from a time on. *)
Record sim (last : Z) (st : MemoryStateStore) (t : Table * bool) : Prop := {
  sim_kind : instance_records st = false;
  sim_available : available st = t.2;
  sim_live : forall now k, last <= now -> live (records (inner st)) now k = live t.1 now k
}.

Lemma prune_live st now now' k : now <= now' -> live (records (inner (prune_expired_locked st now))) now' k = live (records (inner st)) now' k.
Proof.
  intros Hn. unfold live. rewrite prune_records. destruct (records (inner st) !! k) as [r|]; [|done].
  destruct (Z.ltb_spec now (expires_at_unix_ms r)); [done|]. by destruct (Z.ltb_spec now' (expires_at_unix_ms r)); [lia|].
Qed.

Lemma pruned_live st now k : records (inner (prune_expired_locked st now)) !! k = live (records (inner st)) now k.
Proof. unfold live. apply prune_records. Qed.

Lemma live_insert t t' now k r k' : live t now k' = live t' now k' -> live (<[k := r]> t) now k' = live (<[k := r]> t') now k'.
Proof. intros E. unfold live in *. destruct (decide (k = k')) as [->|Hne]; [by rewrite !lookup_insert_eq|by rewrite !lookup_insert_ne]. Qed.

Lemma live_delete t t' now k k' : live t now k' = live t' now k' -> live (delete k t) now k' = live (delete k t') now k'.
Proof. intros E. unfold live in *. destruct (decide (k = k')) as [->|Hne]; [by rewrite !lookup_delete_eq|by rewrite !lookup_delete_ne]. Qed.

Lemma sim_prune last st t now : last <= now -> sim last st t -> sim now (prune_expired_locked st now) t.
Proof.
  intros Hn [Hi Ha Hl]. split; [by rewrite prune_kind| |].
  - rewrite <-Ha. unfold prune_expired_locked. generalize (fst <$> filter (fun e : RecordKey * StoredRecord => expires_at_unix_ms e.2 <= now) (iter now (records (inner st)))).
    intros ks. revert st Hi Ha Hl. assert (forall st : MemoryStateStore, available (foldl (expire now) st ks) = available st) as Hav by (induction ks as [|k ks IH]; intros st; [done|]; cbn [foldl]; by rewrite IH). intros. apply Hav.
  - intros now' k Hn'. rewrite prune_live by done. apply Hl. lia.
Qed.

Lemma sim_later last st t now : last <= now -> sim last st t -> sim now st t.
Proof. intros Hn [Hi Ha Hl]. split; [done|done|]. intros now' k Hn'. apply Hl. lia. Qed.

Lemma sim_set now st t m m' : sim now st t -> (forall now' k, now <= now' -> live m now' k = live m' now' k) -> forall e, sim now (publish_locked (set_records m st) e) (m', t.2).
Proof. intros [Hi Ha _] Hm e. by split. Qed.

Lemma refused_newer current new : refused current new = if decide (newer current new) then None else Some (if bool_decide (repeats current new) then Duplicate else Stale).
Proof.
  destruct (decide (newer current new)) as [Hn|Hn]; unfold newer in Hn; unfold refused, repeats;
    destruct (decide (incarnation_id current = incarnation_id new)) as [Ei|Ei];
    rewrite ?(bool_decide_eq_true_2 _ Ei), ?(bool_decide_eq_false_2 _ Ei) in *.
  - destruct (Z.compare_spec (heartbeat_seq new) (heartbeat_seq current)); try lia. done.
  - destruct (_ || _) eqn:E; [lia|done].
  - destruct (Z.compare_spec (heartbeat_seq new) (heartbeat_seq current)); try lia; case_bool_decide; naive_solver lia.
  - destruct (_ || _) eqn:E; [|lia]. rewrite bool_decide_eq_false_2 by naive_solver. done.
Qed.

Lemma upsert_sim last st t s ms now : last <= now -> sim last st t ->
  let r := upsert_locked st s ms now in let x := spec_upsert t.1 (cluster_id s, id (node s)) s ms now in
  sim now r.1 (x.1, t.2) /\ disposition r.2 = x.2.
Proof.
  intros Hn Hs. pose proof (sim_prune _ _ _ _ Hn Hs) as Hp. destruct t as [t av]. unfold upsert_locked, spec_upsert, record_key. rewrite (sim_kind _ _ _ Hs), pruned_live, (sim_live _ _ _ Hs) by done. cbn [fst].
  assert (forall m e, m = <[(cluster_id s, id (node s)) := mkStored s (saturating_add 64 now ms)]> (records (inner (prune_expired_locked st now))) ->
    sim now (publish_locked (set_records m (prune_expired_locked st now)) e) (<[(cluster_id s, id (node s)) := mkStored s (saturating_add 64 now ms)]> t, av)) as Hset.
  { intros m e ->. apply (sim_set now _ (t, av)); [done|]. intros now' k Hn'. apply live_insert. apply (sim_live _ _ _ Hp now' k Hn'). }
  destruct (live t now _) as [r|]; cbn [mbind option_bind]; [|split; [by apply Hset|done]]. rewrite refused_newer.
  destruct (decide (newer (status r) s)); [|done]. split; [by apply Hset|done].
Qed.

Lemma remove_sim last st t k i now : last <= now -> sim last st t ->
  let r := remove_locked st k i now in let x := spec_remove t.1 k i now in
  sim now r.1 (x.1, t.2) /\ disposition r.2 = x.2.
Proof.
  intros Hn Hs. pose proof (sim_prune _ _ _ _ Hn Hs) as Hp. destruct t as [t av]. unfold remove_locked, spec_remove. rewrite pruned_live, (sim_live _ _ _ Hs) by done.
  cbn [fst]. destruct (live t now k) as [r|]; [|done]. destruct (bool_decide _); [|done]. cbn. split; [|done]. apply (sim_set now _ (t, av)); [done|].
  intros now' k' Hn'. apply live_delete. apply (sim_live _ _ _ Hp now' k' Hn').
Qed.

Lemma filter_live (t : Table) c now : filter (fun e => e.1.1 = c /\ now < expires_at_unix_ms e.2) (map_to_list t) ≡ₚ
  filter (fun e => e.1.1 = c) (map_to_list (map_imap (fun k _ => live t now k) t)).
Proof.
  apply NoDup_Permutation; [apply NoDup_filter, NoDup_map_to_list|apply NoDup_filter, NoDup_map_to_list|].
  intros [k r]. rewrite !list_elem_of_filter, !elem_of_map_to_list, map_lookup_imap. unfold live. destruct (t !! k) as [r'|] eqn:Ek; cbn; [|naive_solver].
  destruct (Z.ltb_spec now (expires_at_unix_ms r')); naive_solver lia.
Qed.

Lemma snapshot_sim last st t c now : last <= now -> sim last st t -> t.2 = true ->
  exists snap, snapshot st c now = (prune_expired_locked st now, Ok snap) /\ nodes snap ≡ₚ spec_nodes t.1 c now /\ StronglySorted by_node (nodes snap).
Proof.
  intros Hn Hs Ha. unfold snapshot, ensure_available. rewrite (sim_available _ _ _ Hs), Ha. eexists. split; [done|]. cbn. split.
  2:{ apply Sorted_StronglySorted; [intros ? ? ?; unfold by_node; by etransitivity|]. apply Sorted_merge_sort. intros a b. apply (total String.le). }
  rewrite merge_sort_Permutation. unfold spec_nodes. rewrite filter_live, iter_perm. do 3 f_equiv. f_equal. apply map_eq. intros k. rewrite pruned_live, (sim_live _ _ _ Hs) by done.
  rewrite map_lookup_imap. unfold live. by destruct (t.1 !! k).
Qed.

Lemma sim_step last st t op now st1 : last <= now -> sim last st t -> exec op now st = Some st1 ->
  sim now st1 (spec op now t).1 /\ agrees (reply op now st) (spec op now t).2.
Proof.
  intros Hn Hs He. pose proof (sim_later _ _ _ _ Hn Hs) as Hl. pose proof (sim_prune _ _ _ _ Hn Hs) as Hp. pose proof (sim_available _ _ _ Hs) as Ha. destruct t as [t av]. cbn [snd] in Ha.
  destruct op as [s ttl|c n i|c| |c after|c expected v|b]; cbn [exec reply spec] in *.
  7:{ injection He as <-. split; [|done]. destruct Hl as [Hi _ Hl]. by split. }
  all: unfold upsert_node, remove_node, check_ready, watch, compare_member_registry, ensure_available in *; try rewrite Ha in *; destruct av; cbn [snd negb] in *.
  - injection He as <-. destruct (Status.validate s) as [[]|e]; [|done]. destruct (ttl_ms ttl) as [ms|e]; [|done].
    destruct (upsert_sim last st (t, true) s ms now Hn Hs) as [Hs' Hd]. cbn in *. by rewrite Hd.
  - by injection He as <-.
  - injection He as <-. destruct (remove_sim last st (t, true) (c, n) i now Hn Hs) as [Hs' Hd]. cbn in *. by rewrite Hd.
  - by injection He as <-.
  - injection He as <-. destruct (snapshot_sim last st (t, true) c now Hn Hs eq_refl) as (snap & -> & Hperm & Hsort). done.
  - unfold snapshot, ensure_available in *. rewrite Ha in *. by injection He as <-.
  - by injection He as <-.
  - by injection He as <-.
  - destruct (match after with Some _ => _ | None => _ end); cbn in He; [apply bind_Some in He as (w & _ & [= <-])|injection He as <-]; done.
  - by injection He as <-.
  - cbn [mbind result_bind] in He. destruct (encode v); [|by injection He as <-]. destruct (negb _); [by injection He as <-|]. destruct (_ <=? _); [done|].
    injection He as <-. split; [|done]. destruct Hl as [Hi _ Hl]. by split.
  - by injection He as <-.
Qed.

(** C22: Leases behave as their times say: at every time, the store accepts and refuses writes and lists nodes exactly
    as a table of leases that is never pruned, in which a lease counts until it expires, and a live
    lease refuses repeated or older heartbeats of its process and writes of older processes. *)
Theorem leases_refine limit start l st' : run start (with_time_source limit false) l st' -> explains (∅, true) l.
Proof.
  assert (sim start (with_time_source limit false) (∅, true)) as Hs by (by split). revert Hs. generalize ((∅, true) : Table * bool).
  generalize (with_time_source limit false). intros st t Hs Hr. revert t Hs. induction Hr as [last st|last st op now st1 l st' Hn He Hr IH]; intros t Hs; [done|].
  destruct (sim_step last st t op now st1 Hn Hs He) as [Hs1 Ha]. cbn [explains]. split; [done|]. by apply IH.
Qed.

End Spec.

(** ** A cluster of two workers *)

Section Demo.

#[local] Instance demo_order : RecordOrder := {| iter := fun _ m => map_to_list m; iter_perm := fun _ m => Permutation_refl _ |}.
#[local] Instance demo_json : RegistryJson := {| registry_json := fun _ => Some [] |}.

Definition demo_status (n : string) (seq : Z) : NodeStatus :=
  mkStatus 1 "c" (mkNode n "host:1" Worker) "inc" None "v" 5 (5 + seq) seq Healthy true (mkMetrics 0 0 0 0 0 0 0 0 0 0 0 0 0) [].

Definition demo_upsert (n : string) (seq now : Z) (st : MemoryStateStore) : MemoryStateStore := (upsert_node st (demo_status n seq) 20000000 now).1.

Definition ok_of {E A} (dflt : A) (r : result E A) : A := match r with Ok a => a | Err _ => dflt end.

Lemma ok_of_ok {E A} (dflt : A) (r : result E A) : is_ok r = true -> r = Ok (ok_of dflt r).
Proof. by destruct r. Qed.

(** Poll until nothing is left. *)
Fixpoint drain (fuel : nat) (st : MemoryStateStore) (w : MemoryWatch) : list NodeEvent * MemoryWatch :=
  match fuel with
  | O => ([], w)
  | S fuel => match next (events st) 0 w with (Ready (Ok e), w1) => let r := drain fuel st w1 in (e :: r.1, r.2) | _ => ([], w) end
  end.

Lemma drain_polls fuel st w : polls st w (drain fuel st w).1 st (drain fuel st w).2.
Proof.
  revert w. induction fuel as [|fuel IH]; intros w; cbn [drain]; [constructor|].
  destruct (next (events st) 0 w) as [[[e|e]|] w1] eqn:En; [|constructor|constructor]. cbn. by eapply polls_event.
Qed.

Definition d0 : MemoryStateStore := demo_upsert "w1" 0 10 (with_time_source 4 false).
Definition d1 : MemoryStateStore := (snapshot d0 "c" 11).1.
Definition dsnap : ClusterSnapshot := ok_of (mkSnapshot [] "" 0) (snapshot d0 "c" 11).2.
Definition d2 : MemoryStateStore := demo_upsert "w2" 0 12 d1.
Definition d3 : MemoryStateStore := (watch d2 "c" (Some (s_revision dsnap)) 13).1.
Definition dwatch : MemoryWatch := match (watch d2 "c" (Some (s_revision dsnap)) 13).2 with Some (Ok w) => w | _ => mkWatch "" [] 0 "" end.
Definition d4 : MemoryStateStore := demo_upsert "w2" 1 31 d3.
Definition dgiven : list NodeEvent * MemoryWatch := drain 9 d4 dwatch.

(** The lease of the first worker ends, and the second worker comes and goes on. *)
Lemma watch_exact_witness : ((fun e => (ev_kind e, ev_node e)) <$> dgiven.1) = [(Upserted, "w2"); (Removed, "w1"); (Upserted, "w2")] /\
  replay (view_of "c" (nodes dsnap)) dgiven.1 = of_cluster "c" (view d4).
Proof.
  split; [vm_compute; reflexivity|].
  assert (snapshot d0 "c" 11 = (d1, Ok dsnap)) as Hs.
  { rewrite (surjective_pairing (snapshot d0 "c" 11)). fold d1. apply (f_equal (pair d1)), ok_of_ok. vm_compute. reflexivity. }
  assert (watch d2 "c" (Some (s_revision dsnap)) 13 = (d3, Some (Ok dwatch))) as Hw.
  { rewrite (surjective_pairing (watch d2 "c" (Some (s_revision dsnap)) 13)). fold d3. apply (f_equal (pair d3)).
    assert (match (watch d2 "c" (Some (s_revision dsnap)) 13).2 with Some (Ok _) => true | _ => false end = true) as E by (vm_compute; reflexivity).
    unfold dwatch. destruct (watch d2 "c" (Some (s_revision dsnap)) 13).2 as [[w|]|]; done. }
  assert (match next (events d4) 0 dgiven.2 with (Pending, _) => true | _ => false end = true) as E by (vm_compute; reflexivity).
  destruct (next (events d4) 0 dgiven.2) as [[r|] w5] eqn:En; [done|].
  apply (watch_exact 4 "c" d0 11 d1 dsnap d2 13 d3 dwatch dgiven.1 d4 dgiven.2 0 w5).
  - apply rtc_once. by exists (OpUpsert (demo_status "w1" 0) 20000000), 10.
  - exact Hs.
  - apply rtc_once. by exists (OpUpsert (demo_status "w2" 0) 20000000), 12.
  - exact Hw.
  - apply polls_store with d4; [by exists (OpUpsert (demo_status "w2" 1) 20000000), 31|]. apply drain_polls.
  - vm_compute. reflexivity.
  - exact En.
Defined.

Definition demo_ops : list (Op * Z) :=
  [(OpUpsert (demo_status "w1" 3) 20000000, 10); (OpUpsert (demo_status "w1" 2) 20000000, 20); (OpUpsert (demo_status "w1" 2) 20000000, 31)].

(** The run of a list of operations. *)
Fixpoint run_ops (st : MemoryStateStore) (l : list (Op * Z)) : list (Op * Z * Reply) * MemoryStateStore :=
  match l with
  | [] => ([], st)
  | (op, now) :: l => let r := run_ops (default st (exec op now st)) l in ((op, now, reply op now st) :: r.1, r.2)
  end.

Lemma leases_refine_witness : (snd <$> (run_ops (with_time_source 4 false) demo_ops).1) = [Wrote Applied; Wrote Stale; Wrote Applied] /\
  explains (∅, true) (run_ops (with_time_source 4 false) demo_ops).1.
Proof.
  split; [vm_compute; reflexivity|]. apply (leases_refine 4 0 _ (run_ops (with_time_source 4 false) demo_ops).2).
  do 3 (eapply run_cons; [lia|reflexivity|]). apply run_nil.
Defined.

(** A registry write takes a revision without an event: the first event is never compacted, and yet a watch from before it is refused. *)
Lemma registry_write_refuses_watch : let st := default d0 (fst <$> compare_member_registry (with_time_source 4 false) "c" None Membership.MemberRegistry_default) in
  let st1 := demo_upsert "w1" 0 10 st in
  history (inner st1) = events st1 /\ length (events st1) = 1%nat /\
  (watch st1 "c" (Some (revision 0)) 10).2 = Some (Err (Compacted (revision 0) (revision 2))).
Proof. cbv zeta. splits; vm_compute; reflexivity. Qed.

End Demo.

End StateStoreSpec.
