(* ===== verification/Registry.v ===== *)
(** The persistent member registry that coordinators share (crates/talon-coordinator/src/state_store/registry.rs, and the
    administrative update of observability/state.rs): read, change, compare and swap, and try again.

    Coordinators run at the same time. A task is a [Prog]: the calls it makes on the shared store, and what it does
    with their answers; other tasks and heartbeats come between any two calls. A task that is cancelled
    is one that makes no further call. *)

From stdpp Require Import strings gmap sorting pretty.
From S2P Require Import Prelude External Key Placement Status Membership StateStore StateStoreSpec.

#[local] Set Warnings "-clear-no-such-hyp".

Module Registry.
Import Key Placement Status Membership StateStore.

Inductive MemberChange :=
  | Register (worker : string) (zone : option string)
  | SetMember (m : WorkerMember).

Inductive Outcome := Changed (r : result StateStoreError MemberRegistry) | Updated (r : result StateStoreError bool).

(** The calls of a task. *)
Inductive Prog :=
  | Ret (o : Outcome)
  | ReadRegistry (cluster : string) (k : result StateStoreError RegistrySnapshot -> Prog)
  | ReadInstances (cluster : string) (k : result StateStoreError ClusterSnapshot -> Prog)
  | Compare (cluster : string) (expected : option string) (v : MemberRegistry) (k : result StateStoreError bool -> Prog).

Definition find_member (w : string) (l : list WorkerMember) : option WorkerMember := List.find (fun m => bool_decide (worker_id m = w)) l.

(** Write over the first member of that identity. *)
Fixpoint replace_member (m : WorkerMember) (l : list WorkerMember) : list WorkerMember :=
  match l with
  | [] => []
  | x :: l => if bool_decide (worker_id x = worker_id m) then m :: l else x :: replace_member m l
  end.

(** The change of a value that was read: [None] when there is nothing to do. *)
Definition apply_change (v : MemberRegistry) (c : MemberChange) : result StateStoreError (option MemberRegistry) :=
  let set l := Ok (Some (mkRegistry (format_version v) l)) in
  match c with
  | Register w z =>
    match find_member w (members v) with
    | Some m =>
      if retired m then Err (InvalidRegistry "member retired; explicit administrative re-enable required") else
      if bool_decide (zone m <> z) then Err (InvalidRegistry "member zone differs; explicit administrative change required") else Ok None
    | None => set (members v ++ [mkMember w z false])
    end
  | SetMember m =>
    match find_member (worker_id m) (members v) with
    | Some _ => set (replace_member m (members v))
    | None => set (members v ++ [m])
    end
  end.

Definition sorted (v : MemberRegistry) : MemberRegistry := mkRegistry (format_version v) (merge_sort by_worker (members v)).

Section Code.
Context `{RegistryJson}.

(** One round of [change] after the read; [again] is the next round. *)
Definition change_body (cluster : string) (c : MemberChange) (again : Prog) (r : result StateStoreError RegistrySnapshot) : Prog :=
  match r with
  | Err e => Ret (Changed (Err e))
  | Ok sn =>
    match apply_change (value sn) c with
    | Err e => Ret (Changed (Err e))
    | Ok None => Ret (Changed (Ok (value sn)))
    | Ok (Some v) =>
      match encode (sorted v) with
      | Err e => Ret (Changed (Err e))
      | Ok _ => Compare cluster (r_revision sn) (sorted v) (fun r =>
          match r with Err e => Ret (Changed (Err e)) | Ok true => Ret (Changed (Ok (sorted v))) | Ok false => again end)
      end
    end
  end.

Fixpoint rounds (n : nat) (cluster : string) (c : MemberChange) : Prog :=
  match n with
  | O => Ret (Changed (Err (Unavailable "member registry write contention")))
  | S n => ReadRegistry cluster (change_body cluster c (rounds n cluster c))
  end.

Definition change (cluster : string) (c : MemberChange) : Prog := rounds 32 cluster c.

(** Does the new value lack a member of the old one? *)
Definition drops (old new : MemberRegistry) : bool :=
  existsb (fun o => negb (existsb (fun n => bool_decide (worker_id o = worker_id n)) (members new))) (members old).

(** Would a member be retired while an instance of it is ready? *)
Definition retires_ready (v : MemberRegistry) (l : list NodeStatus) : bool :=
  existsb (fun m => retired m && existsb (fun n => bool_decide (id (node n) = worker_id m) && ready n) l) (members v).

Definition update_body (cluster : string) (expected : option string) (v : MemberRegistry) (r : result StateStoreError RegistrySnapshot) : Prog :=
  match r with
  | Err e => Ret (Updated (Err e))
  | Ok current =>
    if negb (bool_decide (r_revision current = expected)) then Ret (Updated (Ok false)) else
    if drops (value current) v then Ret (Updated (Err (InvalidRegistry "retain all member records; retire instead of deleting"))) else
    ReadInstances cluster (fun r =>
      match r with
      | Err e => Ret (Updated (Err e))
      | Ok instances =>
        if retires_ready v (nodes instances) then Ret (Updated (Err (InvalidRegistry "stop worker and wait for instance withdrawal/expiration before retirement"))) else
        Compare cluster (r_revision current) (sorted v) (fun r => Ret (Updated r))
      end)
  end.

Definition update_worker_registry (cluster : string) (expected : option string) (v : MemberRegistry) : Prog :=
  ReadRegistry cluster (update_body cluster expected v).

(** ** Coordinators at work *)

Inductive Job := JChange (cluster : string) (c : MemberChange) | JUpdate (cluster : string) (expected : option string) (v : MemberRegistry).

Definition prog_of (j : Job) : Prog :=
  match j with JChange cluster c => change cluster c | JUpdate cluster expected v => update_worker_registry cluster expected v end.

(** [written] is ghost state: which task wrote which value, in order. *)
Record Sys := mkSys { stores : Stores; tasks : list Prog; written : list (nat * string * MemberRegistry) }.

Definition set_main (st : MemoryStateStore) (s : Stores) : Stores := mkStores st (instances s).

Definition is_compare (op : StateStoreSpec.Op) : bool := match op with StateStoreSpec.OpCompare _ _ _ => true | _ => false end.

Context `{RecordOrder}.

Inductive sys_step : Sys -> Sys -> Prop :=
  | sys_read sys i cluster k : tasks sys !! i = Some (ReadRegistry cluster k) ->
      sys_step sys (mkSys (stores sys) (<[i := k (member_registry (main (stores sys)) cluster)]> (tasks sys)) (written sys))
  | sys_instances sys i cluster k now : tasks sys !! i = Some (ReadInstances cluster k) ->
      let r := instance_snapshot (stores sys) cluster now in
      sys_step sys (mkSys r.1 (<[i := k r.2]> (tasks sys)) (written sys))
  | sys_compare sys i cluster expected v k st r : tasks sys !! i = Some (Compare cluster expected v k) ->
      compare_member_registry (main (stores sys)) cluster expected v = Some (st, r) ->
      sys_step sys (mkSys (set_main st (stores sys)) (<[i := k r]> (tasks sys)) (written sys ++ match r with Ok true => [(i, cluster, v)] | _ => [] end))
  | sys_other sys op now st : is_compare op = false -> StateStoreSpec.exec op now (main (stores sys)) = Some st ->
      sys_step sys (mkSys (set_main st (stores sys)) (tasks sys) (written sys))
  | sys_heartbeat sys s ttl now : sys_step sys (mkSys (upsert_instance (stores sys) s ttl now).1 (tasks sys) (written sys)).

Definition sys_init (limit : nat) (jobs : list Job) : Sys := mkSys (mkStores (with_time_source limit false) None) (prog_of <$> jobs) [].

(** ** Linearisation *)

(** The registry of a cluster after some writes. *)
Definition value_at (cluster : string) (log : list (nat * string * MemberRegistry)) : MemberRegistry :=
  foldl (fun v e => if bool_decide (e.1.2 = cluster) then e.2 else v) MemberRegistry_default log.

Definition writers (log : list (nat * string * MemberRegistry)) : list nat := (fun e => e.1.1) <$> log.

(** What a task does to the value it finds. *)
Definition effect (j : Job) (cluster : string) (old new : MemberRegistry) : Prop :=
  match j with
  | JChange cl c => cl = cluster /\ exists v, apply_change old c = Ok (Some v) /\ new = sorted v
  | JUpdate cl _ v => cl = cluster /\ new = sorted v /\ drops old v = false
  end.

Abbreviation Registries := (gmap string (MemberRegistry * string)) (only parsing).

(** A snapshot that is still current if its revision is. *)
Definition fresh (rg : Registries) (rv : Z) (log : list (nat * string * MemberRegistry)) (cl : string) (sn : RegistrySnapshot) : Prop :=
  (exists pos, (pos <= length log)%nat /\ value sn = value_at cl (take pos log)) /\
  (forall r, r_revision sn = Some r -> exists n, r = revision n /\ n <= rv) /\
  ((snd <$> rg !! cl) = r_revision sn -> value sn = value_at cl log).

(** Where a task is. *)
Inductive task_ok (rg : Registries) (rv : Z) (log : list (nat * string * MemberRegistry)) (i : nat) : Job -> Prog -> Prop :=
  | ok_rounds cl c n : i ∉ writers log -> task_ok rg rv log i (JChange cl c) (rounds n cl c)
  | ok_compare cl c n sn v : i ∉ writers log -> fresh rg rv log cl sn -> apply_change (value sn) c = Ok (Some v) ->
      task_ok rg rv log i (JChange cl c) (Compare cl (r_revision sn) (sorted v) (fun r =>
        match r with Err e => Ret (Changed (Err e)) | Ok true => Ret (Changed (Ok (sorted v))) | Ok false => rounds n cl c end))
  | ok_failed cl c e : i ∉ writers log -> task_ok rg rv log i (JChange cl c) (Ret (Changed (Err e)))
  | ok_same cl c v pos : i ∉ writers log -> (pos <= length log)%nat -> v = value_at cl (take pos log) -> apply_change v c = Ok None ->
      task_ok rg rv log i (JChange cl c) (Ret (Changed (Ok v)))
  | ok_changed cl c v : (i, cl, v) ∈ log -> task_ok rg rv log i (JChange cl c) (Ret (Changed (Ok v)))
  | ok_update cl exp v : i ∉ writers log -> task_ok rg rv log i (JUpdate cl exp v) (update_worker_registry cl exp v)
  | ok_checked cl exp v sn : i ∉ writers log -> fresh rg rv log cl sn -> drops (value sn) v = false ->
      task_ok rg rv log i (JUpdate cl exp v) (ReadInstances cl (fun r =>
        match r with
        | Err e => Ret (Updated (Err e))
        | Ok instances =>
          if retires_ready v (nodes instances) then Ret (Updated (Err (InvalidRegistry "stop worker and wait for instance withdrawal/expiration before retirement"))) else
          Compare cl (r_revision sn) (sorted v) (fun r => Ret (Updated r))
        end))
  | ok_swap cl exp v sn : i ∉ writers log -> fresh rg rv log cl sn -> drops (value sn) v = false ->
      task_ok rg rv log i (JUpdate cl exp v) (Compare cl (r_revision sn) (sorted v) (fun r => Ret (Updated r)))
  | ok_refused cl exp v r : i ∉ writers log -> r <> Ok true -> task_ok rg rv log i (JUpdate cl exp v) (Ret (Updated r))
  | ok_updated cl exp v : (i, cl, sorted v) ∈ log -> task_ok rg rv log i (JUpdate cl exp v) (Ret (Updated (Ok true))).

(** The store agrees with the writes. *)
Definition store_ok (rg : Registries) (rv : Z) (log : list (nat * string * MemberRegistry)) : Prop :=
  forall cl, match rg !! cl with
             | Some (v, r) => v = value_at cl log /\ exists n, r = revision n /\ n <= rv
             | None => value_at cl log = MemberRegistry_default
             end.

Definition log_ok (jobs : list Job) (log : list (nat * string * MemberRegistry)) : Prop :=
  NoDup (writers log) /\ forall pos i cl v, log !! pos = Some (i, cl, v) ->
    exists j, jobs !! i = Some j /\ effect j cl (value_at cl (take pos log)) v /\ validate v = Ok tt.

Record sys_ok (jobs : list Job) (sys : Sys) : Prop := {
  ok_store : store_ok (registries (inner (main (stores sys)))) (rev (inner (main (stores sys)))) (written sys);
  ok_log : log_ok jobs (written sys);
  ok_kind : instance_records (main (stores sys)) = false;
  ok_bounded : StateStoreSpec.bounded (main (stores sys));
  ok_jobs : length (tasks sys) = length jobs;
  ok_tasks : forall i j p, jobs !! i = Some j -> tasks sys !! i = Some p ->
    task_ok (registries (inner (main (stores sys)))) (rev (inner (main (stores sys)))) (written sys) i j p
}.

#[local] Instance revision_inj : Inj (=) (=) revision.
Proof. intros n m E. unfold revision in E. apply (inj (String.app prefix_of_token)) in E. by apply (inj pretty) in E. Qed.

Lemma fresh_mono rg rv rv' log cl sn : rv <= rv' -> fresh rg rv log cl sn -> fresh rg rv' log cl sn.
Proof. intros Hr (Hp & Hn & Hc). unfold fresh. splits; [done| |done]. intros r E. destruct (Hn r E) as (n & -> & ?). exists n. split; [done|lia]. Qed.

Lemma task_mono rg rv rv' log i j p : rv <= rv' -> task_ok rg rv log i j p -> task_ok rg rv' log i j p.
Proof. intros Hr Hp. destruct Hp; [eapply ok_rounds|eapply ok_compare|eapply ok_failed|eapply ok_same|eapply ok_changed|eapply ok_update|eapply ok_checked|eapply ok_swap|eapply ok_refused|eapply ok_updated]; eauto using fresh_mono. Qed.

Lemma value_at_snoc cl log i cl' v : value_at cl (log ++ [(i, cl', v)]) = if bool_decide (cl' = cl) then v else value_at cl log.
Proof. unfold value_at. by rewrite foldl_app. Qed.

Lemma fresh_write rg rv log cl sn i cl' v : fresh rg rv log cl sn ->
  fresh (<[cl' := (v, revision (rv + 1))]> rg) (rv + 1) (log ++ [(i, cl', v)]) cl sn.
Proof.
  intros ((pos & Hpos & Hv) & Hn & Hc). unfold fresh. splits.
  - exists pos. rewrite length_app, take_app_le by done. split; [lia|done].
  - intros r E. destruct (Hn r E) as (n & -> & ?). exists n. split; [done|lia].
  - rewrite value_at_snoc. destruct (decide (cl' = cl)) as [->|Hne].
    + rewrite lookup_insert_eq. cbn. intros E. destruct (Hn _ (eq_sym E)) as (n & En & ?). apply (inj revision) in En. lia.
    + rewrite lookup_insert_ne by done. by rewrite bool_decide_eq_false_2.
Qed.

Lemma task_write rg rv log i j p i' cl' v : i <> i' -> task_ok rg rv log i j p ->
  task_ok (<[cl' := (v, revision (rv + 1))]> rg) (rv + 1) (log ++ [(i', cl', v)]) i j p.
Proof.
  intros Hne Hp. assert (i ∉ writers log -> i ∉ writers (log ++ [(i', cl', v)])) as Hw by (unfold writers; rewrite fmap_app; set_solver).
  destruct Hp; [eapply ok_rounds|eapply ok_compare|eapply ok_failed|eapply ok_same with (pos := pos)|eapply ok_changed|eapply ok_update|eapply ok_checked|eapply ok_swap|eapply ok_refused|eapply ok_updated];
    eauto using fresh_write; [len|by rewrite take_app_le|set_solver|set_solver].
Qed.

(** *** Steps of one task *)

Lemma read_fresh st cl sn log : store_ok (registries (inner st)) (rev (inner st)) log -> member_registry st cl = Ok sn ->
  fresh (registries (inner st)) (rev (inner st)) log cl sn.
Proof.
  intros Hs Hm. unfold member_registry in Hm. destruct (ensure_available st); [|done]. cbn in Hm. injection Hm as <-. specialize (Hs cl). unfold fresh.
  destruct (registries (inner st) !! cl) as [[v r]|]; cbn.
  - destruct Hs as [-> (n & -> & Hn)]. splits; [|intros r [= <-]; eauto|done]. exists (length log). by rewrite firstn_all.
  - splits; [|done|done]. exists (length log). by rewrite firstn_all.
Qed.

Lemma task_read st log i j cl k : store_ok (registries (inner st)) (rev (inner st)) log ->
  task_ok (registries (inner st)) (rev (inner st)) log i j (ReadRegistry cl k) -> task_ok (registries (inner st)) (rev (inner st)) log i j (k (member_registry st cl)).
Proof.
  intros Hs Hp. inversion Hp as [cl' c n Hi|cl' c n sn v|cl' c e|cl' c v pos|cl' c v|cl' exp v Hi|cl' exp v sn|cl' exp v sn|cl' exp v r|cl' exp v]; subst; try done.
  - destruct n as [|n]; [done|]. match goal with E : _ = ReadRegistry _ _ |- _ => injection E as -> <- end.
    destruct (member_registry st cl) as [sn|e] eqn:Em; cbn [change_body]; [|by apply ok_failed]. pose proof (read_fresh _ _ _ _ Hs Em) as Hf.
    destruct (apply_change (value sn) c) as [[v|]|e] eqn:Ea; [| |by apply ok_failed].
    + destruct (encode (sorted v)); [by apply ok_compare|by apply ok_failed].
    + destruct Hf as ((pos & Hpos & Hv) & _). by eapply ok_same.
  - destruct (member_registry st cl) as [sn|e] eqn:Em; cbn [update_body]; [|by apply ok_refused]. pose proof (read_fresh _ _ _ _ Hs Em) as Hf.
    destruct (negb _); [by apply ok_refused|]. destruct (drops (value sn) v) eqn:Ed; [by apply ok_refused|]. by apply ok_checked.
Qed.

Lemma task_instances rg rv log i j cl k r : task_ok rg rv log i j (ReadInstances cl k) -> task_ok rg rv log i j (k r).
Proof.
  intros Hp. inversion Hp as [cl' c n Hi|cl' c n sn v|cl' c e|cl' c v pos|cl' c v|cl' exp v Hi|cl' exp v sn|cl' exp v sn|cl' exp v r'|cl' exp v]; subst; try done.
  - by destruct n.
  - destruct r as [l|e]; [|by apply ok_refused]. destruct (retires_ready v (nodes l)); [by apply ok_refused|]. by apply ok_swap.
Qed.

Lemma task_refused rg rv log i j cl exp v k r : task_ok rg rv log i j (Compare cl exp v k) -> r <> Ok true -> task_ok rg rv log i j (k r).
Proof.
  intros Hp Hr. inversion Hp as [cl' c n Hi|cl' c n sn v'|cl' c e|cl' c v' pos|cl' c v'|cl' exp' v' Hi|cl' exp' v' sn|cl' exp' v' sn|cl' exp' v' r'|cl' exp' v']; subst; try done.
  - by destruct n.
  - destruct r as [[]|e]; [done|by apply ok_rounds|by apply ok_failed].
  - by apply ok_refused.
Qed.

Lemma task_swapped rg rv log i j cl exp v k rg' rv' : task_ok rg rv log i j (Compare cl exp v k) -> (snd <$> rg !! cl) = exp ->
  (i ∉ writers log) /\ effect j cl (value_at cl log) v /\ task_ok rg' rv' (log ++ [(i, cl, v)]) i j (k (Ok true)).
Proof.
  intros Hp He. assert ((i, cl, v) ∈ log ++ [(i, cl, v)]) as Hin by set_solver.
  inversion Hp as [cl' c n Hi|cl' c n sn v' Hi Hf Ha|cl' c e|cl' c v' pos|cl' c v'|cl' exp' v' Hi|cl' exp' v' sn Hi Hf|cl' exp' v' sn Hi Hf Hd|cl' exp' v' r'|cl' exp' v']; subst; try done.
  - by destruct n.
  - destruct Hf as (_ & _ & Hc). rewrite Hc in Ha by done. splits; [done| |by apply ok_changed]. cbn. eauto.
  - destruct Hf as (_ & _ & Hc). rewrite Hc in Hd by done. splits; [done|done|by apply ok_updated].
Qed.

Lemma compare_inv st cl exp v st' r : compare_member_registry st cl exp v = Some (st', r) ->
  (st' = st /\ r <> Ok true) \/
  (r = Ok true /\ (snd <$> registries (inner st) !! cl) = exp /\ validate v = Ok tt /\ rev (inner st) + 1 < 2 ^ 64 /\
   registries (inner st') = <[cl := (v, revision (rev (inner st) + 1))]> (registries (inner st)) /\ rev (inner st') = rev (inner st) + 1 /\ instance_records st' = instance_records st).
Proof.
  unfold compare_member_registry. destruct (ensure_available st); cbn [mbind result_bind]; [|intros [= <- <-]; by left].
  unfold encode. destruct (validate v) as [[]|]; [|intros [= <- <-]; by left]. destruct (registry_json v); [|intros [= <- <-]; by left].
  destruct (_ <? _); [intros [= <- <-]; by left|]. destruct (decide (snd <$> registries (inner st) !! cl = exp)) as [E|E].
  - rewrite (bool_decide_eq_true_2 _ E). cbn [negb]. destruct (Z.leb_spec (2 ^ 64) (rev (inner st) + 1)); [done|]. intros [= <- <-]. right. by splits.
  - rewrite (bool_decide_eq_false_2 _ E). intros [= <- <-]. by left.
Qed.

Lemma store_write rg rv log i cl v : store_ok rg rv log -> store_ok (<[cl := (v, revision (rv + 1))]> rg) (rv + 1) (log ++ [(i, cl, v)]).
Proof.
  intros Hs cl'. rewrite value_at_snoc. destruct (decide (cl = cl')) as [->|Hne].
  - rewrite lookup_insert_eq, bool_decide_eq_true_2 by done. split; [done|]. eexists. split; [done|lia].
  - rewrite lookup_insert_ne, bool_decide_eq_false_2 by done. specialize (Hs cl'). destruct (rg !! cl') as [[v' r]|]; [|done].
    destruct Hs as [-> (n & -> & Hn)]. split; [done|]. eexists. split; [done|lia].
Qed.

Lemma store_mono rg rv rv' log : rv <= rv' -> store_ok rg rv log -> store_ok rg rv' log.
Proof.
  intros Hr Hs cl. specialize (Hs cl). destruct (rg !! cl) as [[v r]|]; [|done]. destruct Hs as [-> (n & -> & Hn)]. split; [done|]. eexists. split; [done|lia].
Qed.

Lemma log_write jobs log i j cl v : log_ok jobs log -> jobs !! i = Some j -> i ∉ writers log -> effect j cl (value_at cl log) v -> validate v = Ok tt ->
  log_ok jobs (log ++ [(i, cl, v)]).
Proof.
  intros [Hnd Hl] Hj Hi He Hv. split.
  - unfold writers. rewrite fmap_app. apply NoDup_app. splits; [done| |apply NoDup_singleton]. set_solver.
  - intros pos i' cl' v' Hpos. apply lookup_app_Some in Hpos as [Hpos|[Hge Hpos]].
    + rewrite take_app_le by (apply lookup_lt_Some in Hpos; lia). by apply (Hl pos).
    + destruct (pos - length log)%nat as [|] eqn:Ep; [|done]. injection Hpos as <- <- <-. exists j.
      rewrite take_app_le, firstn_all2 by lia. done.
Qed.

Lemma publish_registries st e : registries (inner (publish_locked st e)) = registries (inner st).
Proof. done. Qed.

Lemma prune_registries st now : registries (inner (prune_expired_locked st now)) = registries (inner st).
Proof.
  unfold prune_expired_locked. generalize (fst <$> filter (fun e : RecordKey * StoredRecord => expires_at_unix_ms e.2 <= now) (iter now (records (inner st)))).
  intros ks. revert st. induction ks as [|k ks IH]; intros st; [done|]. cbn [foldl]. by rewrite IH.
Qed.

Lemma exec_registries op now st st' : is_compare op = false -> StateStoreSpec.exec op now st = Some st' -> registries (inner st') = registries (inner st).
Proof.
  intros Hop. destruct op as [s ttl|c n i|c| |c after|c expected v|b]; cbn [StateStoreSpec.exec]; [| | | | |done|by intros [= <-]].
  - intros [= <-]. unfold upsert_node. destruct (ensure_available st); [|done]. destruct (Status.validate s); [|done]. destruct (ttl_ms ttl); [|done]. cbn [fst].
    unfold upsert_locked. destruct (mbind _ _); cbn; apply prune_registries.
  - intros [= <-]. unfold remove_node. destruct (ensure_available st); [|done]. cbn [fst]. unfold remove_locked. case_match; [|apply prune_registries].
    destruct (negb _); cbn; apply prune_registries.
  - intros [= <-]. unfold snapshot. destruct (ensure_available st); [|done]. apply prune_registries.
  - intros [= <-]. unfold check_ready. destruct (ensure_available st); [|done]. apply prune_registries.
  - unfold watch. destruct (ensure_available st); [|by intros [= <-]]. destruct (match after with Some _ => _ | None => _ end) as [r|]; cbn; [|intros [= <-]; apply prune_registries].
    intros (w & _ & [= <-])%bind_Some. apply prune_registries.
Qed.

(** The store changes, and the registries do not. *)
Lemma sys_ok_store jobs sys s : sys_ok jobs sys -> registries (inner (main s)) = registries (inner (main (stores sys))) -> rev (inner (main (stores sys))) <= rev (inner (main s)) ->
  instance_records (main s) = false -> StateStoreSpec.bounded (main s) -> sys_ok jobs (mkSys s (tasks sys) (written sys)).
Proof.
  intros [Hs Hl Hk Hb Hj Ht] E Hr Hk' Hb'. split; cbn; rewrite ?E; [by eapply store_mono|done|done|done|done|].
  intros i j p Hji Hp. eapply task_mono; [exact Hr|]. by apply Ht.
Qed.

(** A task goes on, and the store does not change. *)
Lemma sys_ok_task jobs sys i p : sys_ok jobs sys ->
  (forall j, jobs !! i = Some j -> task_ok (registries (inner (main (stores sys)))) (rev (inner (main (stores sys)))) (written sys) i j p) ->
  sys_ok jobs (mkSys (stores sys) (<[i := p]> (tasks sys)) (written sys)).
Proof.
  intros [Hs Hl Hk Hb Hj Ht] Hp. split; cbn; [done|done|done|done|by rewrite length_insert|].
  intros i' j' p' Hji Hpi. apply list_lookup_insert_Some in Hpi as [(-> & -> & _)|[Hne Hpi]]; [by apply Hp|by apply Ht].
Qed.

Lemma sys_step_ok jobs sys sys' : sys_ok jobs sys -> sys_step sys sys' -> sys_ok jobs sys'.
Proof.
  intros Hok Hst. pose proof Hok as [Hs Hl Hk Hb Hj Ht]. destruct Hst as [sys i cl k Hi|sys i cl k now Hi|sys i cl exp v k st r Hi Hc|sys op now st Hop He|sys s ttl now].
  - apply sys_ok_task; [done|]. intros j Hji. by apply task_read, Ht.
  - assert (forall r, sys_ok jobs (mkSys (stores sys) (<[i := k r]> (tasks sys)) (written sys))) as Hgo.
    { intros x. apply sys_ok_task; [done|]. intros j Hji. eapply task_instances. by eapply Ht. }
    subst r. unfold instance_snapshot. destruct (ensure_available (main (stores sys))); cbn [fst snd]; [|apply Hgo].
    apply (sys_ok_store jobs (mkSys (stores sys) (<[i := k _]> (tasks sys)) (written sys)) (mkStores (main (stores sys)) _) (Hgo _)); done.
  - assert (is_Some (jobs !! i)) as [j Hji] by (apply lookup_lt_is_Some; rewrite <-Hj; by eapply lookup_lt_Some). specialize (Ht i j _ Hji Hi) as Hti.
    apply compare_inv in Hc as [[-> Hr]|(-> & He & Hv & Hlt & Erg & Erv & Ek)].
    + replace (match r with Ok true => [(i, cl, v)] | _ => [] end) with (@nil (nat * string * MemberRegistry)) by (by destruct r as [[]|]). rewrite app_nil_r.
      destruct sys as [[m ins] ts ws]. apply (sys_ok_task jobs (mkSys (mkStores m ins) ts ws)); [done|]. intros j' Hj'. simplify_eq. by eapply task_refused.
    + destruct (task_swapped _ _ _ _ _ _ _ _ _ (<[cl := (v, revision (rev (inner (main (stores sys))) + 1))]> (registries (inner (main (stores sys))))) (rev (inner (main (stores sys))) + 1) Hti He) as (Hni & Heff & Hnew).
      split; cbn; rewrite ?Erg, ?Erv; [by apply store_write|by eapply log_write|by rewrite Ek|unfold StateStoreSpec.bounded in *; lia|by rewrite length_insert|].
      intros i' j' p' Hj' Hp'. apply list_lookup_insert_Some in Hp' as [(<- & <- & _)|[Hne Hp']]; [by simplify_eq|]. apply task_write; [done|]. by apply Ht.
  - pose proof (StateStoreSpec.exec_change _ _ _ _ Hk He) as Hc. destruct (StateStoreSpec.change_bounded _ _ _ Hc Hb) as [Hr Hb'].
    apply sys_ok_store; cbn; [done|by eapply exec_registries|done|by rewrite (StateStoreSpec.change_kind _ _ _ Hc)|done].
  - unfold upsert_instance. destruct (ensure_available (main (stores sys))); [by apply sys_ok_store|]. by destruct sys.
Qed.

Lemma init_ok limit jobs : sys_ok jobs (sys_init limit jobs).
Proof.
  split; cbn; [|split; [constructor|done]|done|unfold StateStoreSpec.bounded; cbn; lia|by rewrite length_fmap|].
  - intros cl. by rewrite lookup_empty.
  - intros i j p Hj Hp. rewrite list_lookup_fmap, Hj in Hp. injection Hp as <-. assert (i ∉ writers []) by set_solver.
    destruct j as [cl c|cl exp v]; [by apply ok_rounds|by apply ok_update].
Qed.

(** *** Members stay *)

Definition ids (v : MemberRegistry) : list string := worker_id <$> members v.

Lemma replace_ids m l : worker_id <$> replace_member m l = worker_id <$> l.
Proof. induction l as [|x l IH]; [done|]. cbn [replace_member]. case_bool_decide as E; cbn; [by rewrite E|]. f_equal. exact IH. Qed.

Lemma sorted_ids v : ids (sorted v) ≡ₚ ids v.
Proof. unfold ids, sorted. cbn. by rewrite merge_sort_Permutation. Qed.

Lemma change_ids v c v' : apply_change v c = Ok (Some v') -> ids v ⊆ ids v'.
Proof.
  unfold apply_change. destruct c as [w z|m]; cbn.
  - destruct (find_member w (members v)) as [x|]; [destruct (retired x); [done|]; by case_bool_decide|]. intros [= <-]. unfold ids. cbn. rewrite fmap_app. set_solver.
  - destruct (find_member _ _); intros [= <-]; unfold ids; cbn; [by rewrite replace_ids|rewrite fmap_app; set_solver].
Qed.

Lemma drops_ids old new : drops old new = false -> ids old ⊆ ids new.
Proof.
  unfold drops, ids. intros Hd w (o & -> & Ho)%list_elem_of_fmap. apply (existsb_none _ _ o) in Hd; [|done].
  apply negb_false_iff, existsb_exists in Hd as (n & Hn & E%bool_decide_eq_true). rewrite E. apply list_elem_of_fmap. exists n. split; [done|by apply list_elem_of_In].
Qed.

Lemma effect_ids j cl old new : effect j cl old new -> ids old ⊆ ids new.
Proof.
  destruct j as [cl' c|cl' exp v]; cbn.
  - intros (_ & v & Ha & ->) w Hw. rewrite sorted_ids. by eapply change_ids.
  - intros (_ & -> & Hd) w Hw. rewrite sorted_ids. by eapply drops_ids.
Qed.

Lemma ids_stay jobs log cl pos n : log_ok jobs log -> (pos <= n <= length log)%nat -> ids (value_at cl (take pos log)) ⊆ ids (value_at cl (take n log)).
Proof.
  intros [_ Hl] [Hpn Hn]. induction Hpn as [|n Hpn IH]; [done|]. etransitivity; [apply IH; lia|].
  destruct (lookup_lt_is_Some_2 log n ltac:(lia)) as [[[i cl'] v] He]. rewrite (take_S_r log n _ He), value_at_snoc. case_bool_decide as E; [|done]. subst cl'.
  destruct (Hl n i cl v He) as (j & _ & Heff & _). by eapply effect_ids.
Qed.

(** The registry that the store holds. *)
Definition registry_of (sys : Sys) (cl : string) : MemberRegistry :=
  match registries (inner (main (stores sys))) !! cl with Some (v, _) => v | None => MemberRegistry_default end.

(** C23: Updates of the member registry are atomic: however coordinators and administrators interleave, the registry is the
    result of their successful updates one after the other, each made on the value the previous one
    left, once, and valid; a task reports success exactly when its update is among them or was not
    needed; and a member, once registered, is never lost. *)
Theorem registry_linearises limit jobs sys : rtc sys_step (sys_init limit jobs) sys ->
  (forall cl, registry_of sys cl = value_at cl (written sys)) /\ log_ok jobs (written sys) /\
  (forall i j o, jobs !! i = Some j -> tasks sys !! i = Some (Ret o) ->
    match j, o with
    | JChange cl c, Changed (Ok v) => (i, cl, v) ∈ written sys \/
        (i ∉ writers (written sys)) /\ exists pos, v = value_at cl (take pos (written sys)) /\ apply_change v c = Ok None
    | JChange _ _, Changed (Err _) => i ∉ writers (written sys)
    | JUpdate cl _ v, Updated (Ok true) => (i, cl, sorted v) ∈ written sys
    | JUpdate _ _ _, Updated _ => i ∉ writers (written sys)
    | _, _ => False
    end) /\
  (forall cl pos, ids (value_at cl (take pos (written sys))) ⊆ ids (registry_of sys cl)).
Proof.
  intros Hr. assert (sys_ok jobs sys) as [Hs Hl Hk Hb Hj Ht].
  { pose proof (init_ok limit jobs) as Hi. revert Hi. induction Hr as [|s1 s2 s3 Hst _ IH]; [done|]. intros Hi. apply IH. by eapply sys_step_ok. }
  assert (forall cl, registry_of sys cl = value_at cl (written sys)) as Hv.
  { intros cl. specialize (Hs cl). unfold registry_of. destruct (registries _ !! cl) as [[v r]|]; [by destruct Hs|done]. }
  splits; [done|done| |].
  - intros i j o Hji Hp. specialize (Ht i j _ Hji Hp).
    inversion Ht as [cl' c n Hi E|cl' c n sn v'|cl' c e|cl' c v' pos|cl' c v'|cl' exp' v' Hi|cl' exp' v' sn Hi Hf|cl' exp' v' sn Hi Hf Hd|cl' exp' v' r'|cl' exp' v']; subst; try done.
    + destruct n as [|n]; [|done]. by match goal with E : _ = Ret _ |- _ => injection E as <- end.
    + right. eauto.
    + by left.
    + by destruct r' as [[]|].
  - intros cl pos. rewrite Hv. destruct (decide (pos <= length (written sys))%nat) as [Hle|Hgt].
    + rewrite <-(firstn_all (written sys)) at 2. by apply (ids_stay jobs).
    + by rewrite take_ge by lia.
Qed.

End Code.

(** ** Two registrations at the same time *)

Section Demo.

#[local] Instance demo_order : RecordOrder := {| iter := fun _ m => map_to_list m; iter_perm := fun _ m => Permutation_refl _ |}.
#[local] Instance demo_json : RegistryJson := {| registry_json := fun _ => Some [] |}.

Definition go (sys : Sys) (i : nat) : Sys :=
  match tasks sys !! i with
  | Some (ReadRegistry cl k) => mkSys (stores sys) (<[i := k (member_registry (main (stores sys)) cl)]> (tasks sys)) (written sys)
  | Some (Compare cl exp v k) =>
    match compare_member_registry (main (stores sys)) cl exp v with
    | Some (st, r) => mkSys (set_main st (stores sys)) (<[i := k r]> (tasks sys)) (written sys ++ match r with Ok true => [(i, cl, v)] | _ => [] end)
    | None => sys
    end
  | _ => sys
  end.

Lemma go_steps sys i : rtc sys_step sys (go sys i).
Proof.
  unfold go. destruct (tasks sys !! i) as [[o|cl k|cl k|cl exp v k]|] eqn:Ei; [done|by apply rtc_once, sys_read|done| |done].
  destruct (compare_member_registry (main (stores sys)) cl exp v) as [[st r]|] eqn:Ec; [|done]. apply rtc_once. by apply sys_compare with exp.
Qed.

Definition demo_jobs : list Job := [JChange "c" (Register "w2" None); JChange "c" (Register "w1" None)].

(** Both read the empty registry, and the second one has to try again. *)
Definition demo_sys : Sys := foldl go (sys_init 4 demo_jobs) [0; 1; 0; 1; 1; 1]%nat.

Definition done_with (p : Prog) : list string := match p with Ret (Changed (Ok v)) => ids v | _ => [] end.

Lemma registry_linearises_witness : (done_with <$> tasks demo_sys) = [["w2"]; ["w1"; "w2"]] /\ writers (written demo_sys) = [0; 1]%nat /\
  registry_of demo_sys "c" = value_at "c" (written demo_sys).
Proof.
  splits; [vm_compute; reflexivity|vm_compute; reflexivity|]. apply (registry_linearises 4 demo_jobs demo_sys).
  unfold demo_sys. generalize (sys_init 4 demo_jobs). generalize [0; 1; 0; 1; 1; 1]%nat. intros l. induction l as [|i l IH]; intros sys; [done|].
  cbn [foldl]. etransitivity; [apply go_steps|apply IH].
Defined.

End Demo.

End Registry.
