(* ===== verification/NodeSet.v ===== *)
(** The node set of a coordinator: its version (crates/talon-coordinator/src/placement.rs), the registry that reconciliation
    replaces (membership.rs), placement lookups on it (service.rs), and heartbeat liveness (heartbeat.rs).

    A method of the registry holds its lock for the whole call. A lookup takes the lock twice, so the registry may
    change between its two reads. *)

From stdpp Require Import strings gmap sorting.
From S2P Require Import Prelude External Key Placement.

#[local] Set Warnings "-clear-no-such-hyp".

Module NodeSet.
Import Key Placement.

(** ** The version of a node set *)

Definition push_field (buf bytes : list byte) : list byte := buf ++ le_bytes 8 (Z.of_nat (length bytes)) ++ bytes.

Definition role_byte (r : NodeRole) : byte := match r with Coordinator => x00 | Worker => x01 end.

Definition push_node (buf : list byte) (n : NodeInfo) : list byte :=
  push_field (push_field buf (as_bytes (id n))) (as_bytes (address n)) ++ [role_byte (role n)].

(** The canonical encoding that is hashed. *)
Definition encoding (nodes : list NodeInfo) : list byte := foldl push_node [] (merge_sort by_id nodes).

Definition EMPTY : Z := 0.

Definition for_nodes `{Xxh3} (nodes : list NodeInfo) : Z :=
  match nodes with
  | [] => EMPTY
  | _ => let raw := xxh3_64 (encoding nodes) in if raw =? EMPTY then 1 else raw
  end.

(** ** The registry *)

Record Member := mkMember { info : NodeInfo; zone : option string }.

Abbreviation Membership := (gmap string Member) (only parsing).

(** The order in which a [HashMap] is iterated. *)
Class NodeOrder := {
  values : gmap string Member -> list Member;
  values_perm : forall m, values m ≡ₚ (map_to_list m).*2
}.

Definition new : Membership := ∅.

Definition register (m : Membership) (i : NodeInfo) : Membership :=
  <[id i := mkMember i (m !! id i ≫= zone)]> m.

Definition register_zoned (m : Membership) (i : NodeInfo) (z : option string) : Membership := <[id i := mkMember i z]> m.

Definition remove (m : Membership) (n : string) : Membership := delete n m.

Definition snapshot `{NodeOrder} (m : Membership) : list NodeInfo := info <$> values m.

Definition snapshot_zoned `{NodeOrder} (m : Membership) : list (NodeInfo * option string) := (fun x => (info x, zone x)) <$> values m.

Definition epoch `{Xxh3} `{NodeOrder} (m : Membership) : Z := for_nodes (info <$> values m).

(** [collect] into a map: a later entry of a key replaces an earlier one. *)
Definition collect (desired : list (NodeInfo * option string)) : Membership :=
  foldl (fun m d => <[id d.1 := mkMember d.1 d.2]> m) ∅ desired.

Definition apply (m : Membership) (desired : list (NodeInfo * option string)) : bool * Membership :=
  let changed := negb (Nat.eqb (size m) (length desired)) ||
    existsb (fun d => bool_decide ((info <$> m !! id d.1) <> Some d.1)) desired in
  (changed, collect desired).

Definition reconcile_zoned (m : Membership) (desired : list (NodeInfo * option string)) : bool * Membership := apply m desired.

Definition reconcile (m : Membership) (desired : list NodeInfo) : bool * Membership :=
  apply m ((fun i => (i, m !! id i ≫= zone)) <$> desired).

(** ** Lookups *)

Record PlacementResult := mkPlacement { owners : list string; p_epoch : Z }.

(** The membership as the two reads of [lookup] find it; [None] is a panic of the ranking. *)
Definition lookup `{Xxh3} `{Sha256} `{NodeOrder} (at_epoch at_nodes : Membership) (b : BlockId) (k : nat) : option PlacementResult :=
  let e := epoch at_epoch in
  let nodes := snapshot at_nodes in
  owners ← rank_cache_workers b nodes k;
  Some (mkPlacement owners e).

(** ** Heartbeat liveness *)

Record Inventory := mkInventory { block_count : Z; resident_bytes : Z }.
Record HeartbeatRecord := mkHeartbeat { last_seen_ms : Z; inventory_ : Inventory }.
Record HeartbeatTracker := mkTracker { timeout_ms : Z; records : gmap string HeartbeatRecord }.

Definition record (t : HeartbeatTracker) (n : string) (now : Z) (i : Inventory) : HeartbeatTracker :=
  mkTracker (timeout_ms t) (<[n := mkHeartbeat now i]> (records t)).

Definition within (limit now : Z) (r : HeartbeatRecord) : bool := saturating_sub now (last_seen_ms r) <=? limit.

Definition is_healthy (t : HeartbeatTracker) (n : string) (now : Z) : bool :=
  match records t !! n with Some r => within (timeout_ms t) now r | None => false end.

Definition inventory (t : HeartbeatTracker) (n : string) : option Inventory := inventory_ <$> records t !! n.

Definition healthy_nodes (t : HeartbeatTracker) (now : Z) : gset string := dom (filter (fun e => within (timeout_ms t) now e.2 = true) (records t)).
Definition unhealthy_nodes (t : HeartbeatTracker) (now : Z) : gset string := dom (filter (fun e => within (timeout_ms t) now e.2 = false) (records t)).

Definition prune (t : HeartbeatTracker) (now retain : Z) : HeartbeatTracker * nat :=
  let kept := filter (fun e => within retain now e.2 = true) (records t) in
  (mkTracker (timeout_ms t) kept, size (records t) - size kept)%nat.

(** ** Theorems *)

Definition encode_node (n : NodeInfo) : list byte := hash_field (as_bytes (id n)) ++ hash_field (as_bytes (address n)) ++ [role_byte (role n)].

Lemma push_nodes buf l : foldl push_node buf l = buf ++ concat (encode_node <$> l).
Proof.
  revert buf. induction l as [|n l IH]; intros buf; cbn [foldl fmap list_fmap concat]; [by rewrite app_nil_r|]. rewrite IH.
  unfold push_node, push_field, encode_node, hash_field. by rewrite <-!app_assoc.
Qed.

Lemma encoding_concat l : encoding l = concat (encode_node <$> merge_sort by_id l).
Proof. apply push_nodes. Qed.

Lemma encode_nodes_inj l l' : Forall node_sized l -> Forall node_sized l' -> concat (encode_node <$> l) = concat (encode_node <$> l') -> l = l'.
Proof.
  intros Hs Hs'. revert l' Hs'. induction Hs as [|n l [Hi Ha] _ IH]; intros l' Hs' E; destruct Hs' as [|n' l' [Hi' Ha'] Hs']; try done.
  cbn [fmap list_fmap concat] in E. unfold encode_node in E. rewrite <-!app_assoc in E.
  apply hash_field_inj in E as [E1%node_bytes_inj E]; [|done..]. apply hash_field_inj in E as [E2%node_bytes_inj E]; [|done..].
  injection E as E3 E. f_equal; [|by apply IH]. destruct n as [i a r], n' as [i' a' r']. cbn in *. subst. f_equal. by destruct r, r'.
Qed.

Lemma encoding_perm l l' : l ≡ₚ l' -> NoDup (id <$> l) -> encoding l = encoding l'.
Proof. intros Hp Hn. unfold encoding. by rewrite (sort_perm id by_id l l'). Qed.

Lemma encoding_inj l l' : Forall node_sized l -> Forall node_sized l' -> encoding l = encoding l' -> l ≡ₚ l'.
Proof.
  intros Hs Hs' E. rewrite !encoding_concat in E. apply encode_nodes_inj in E; [|by rewrite merge_sort_Permutation|by rewrite merge_sort_Permutation].
  by rewrite <-(merge_sort_Permutation by_id l), E, merge_sort_Permutation.
Qed.

(** Members are found under the id of their node. *)
Definition keyed (m : Membership) : Prop := map_Forall (fun k x => k = id (info x)) m.

Definition sized (m : Membership) : Prop := map_Forall (fun _ x => node_sized (info x)) m.

Lemma keyed_insert m i z : keyed m -> keyed (<[id i := mkMember i z]> m).
Proof. intros Hk. by apply map_Forall_insert_2. Qed.

Lemma collect_snoc l d : collect (l ++ [d]) = <[id d.1 := mkMember d.1 d.2]> (collect l).
Proof. unfold collect. by rewrite foldl_app. Qed.

Lemma collect_keyed l : keyed (collect l).
Proof. induction l as [|d l IH] using rev_ind; [apply map_Forall_empty|]. rewrite collect_snoc. by apply keyed_insert. Qed.

Lemma collect_lookup l k x : NoDup ((fun d => id d.1) <$> l) -> collect l !! k = Some x <-> k = id (info x) /\ (info x, zone x) ∈ l.
Proof.
  induction l as [|d l IH] using rev_ind; intros Hnd; [cbn; rewrite lookup_empty; set_solver|]. rewrite collect_snoc.
  rewrite fmap_app in Hnd. apply NoDup_app in Hnd as (Hnd & Hdis & _). specialize (IH Hnd). rewrite elem_of_app, list_elem_of_singleton.
  destruct (decide (k = id d.1)) as [->|Hne].
  - rewrite lookup_insert_eq. split.
    + intros [= <-]. cbn. split; [done|]. right. by destruct d.
    + intros [E [Hin|E']]; [|by destruct x, d; simplify_eq/=]. exfalso. apply (Hdis (id (info x))); [apply list_elem_of_fmap; by exists (info x, zone x)|]. rewrite <-E. set_solver.
  - rewrite lookup_insert_ne, IH by done. split; [tauto|]. intros [E [Hin|E']]; [done|]. destruct x, d; simplify_eq/=. 
Qed.

Lemma collect_size l : NoDup ((fun d => id d.1) <$> l) -> size (collect l) = length l.
Proof.
  induction l as [|d l IH] using rev_ind; intros Hnd; [done|]. rewrite collect_snoc, length_app. pose proof Hnd as Hnd'. rewrite fmap_app in Hnd. apply NoDup_app in Hnd as (Hnd & Hdis & _).
  rewrite map_size_insert_None, IH by (done || (apply eq_None_not_Some; intros [x Hx]; apply collect_lookup in Hx as [E Hin]; [|done]; apply (Hdis (id d.1)); [rewrite E; apply list_elem_of_fmap; by exists (info x, zone x)|set_solver])). cbn. lia.
Qed.

(** Reconciliation installs exactly the desired members, and reports a change exactly when the nodes changed. *)
Lemma reconcile_exact m desired : keyed m -> NoDup ((fun d => id d.1) <$> desired) ->
  let r := reconcile_zoned m desired in
  keyed r.2 /\ (forall i z, r.2 !! id i = Some (mkMember i z) <-> (i, z) ∈ desired) /\ (r.1 = false <-> (info <$> r.2) = (info <$> m)).
Proof.
  intros Hk Hnd r. unfold r, reconcile_zoned, apply. cbn [fst snd]. splits; [apply collect_keyed| |].
  { intros i z. rewrite collect_lookup by done. cbn. tauto. }
  rewrite orb_false_iff, negb_false_iff, Nat.eqb_eq. split.
  - intros [Hs Hd]. apply map_subseteq_size_eq; [|by rewrite !map_size_fmap, collect_size, Hs].
    apply map_subseteq_spec. intros k i (x & <- & Hx)%lookup_fmap_Some. apply collect_lookup in Hx as [-> Hin]; [|done].
    apply (existsb_none _ _ (info x, zone x)) in Hd; [|done]. cbn in Hd. apply bool_decide_eq_false, dec_stable in Hd. by rewrite lookup_fmap.
  - intros E. assert (size (info <$> collect desired) = size (info <$> m)) as Hs by (by rewrite E). rewrite !map_size_fmap, collect_size in Hs by done. split; [done|].
    apply not_true_is_false. intros ([i z] & Hin%list_elem_of_In & Hd%bool_decide_eq_true)%existsb_exists. apply Hd. cbn in *.
    rewrite <-lookup_fmap, <-E, lookup_fmap. cut (collect desired !! id i = Some (mkMember i z)); [by intros ->|]. by apply collect_lookup.
Qed.

Lemma values_ids `{NodeOrder} m : keyed m -> NoDup (id <$> (info <$> values m)).
Proof.
  intros Hk. rewrite values_perm, <-!list_fmap_compose. eapply NoDup_Permutation_proper; [|apply (NoDup_fst_map_to_list m)].
  apply Permutation_refl'. apply list_fmap_ext. intros i [k x] Hi. apply list_elem_of_lookup_2, elem_of_map_to_list in Hi. symmetry. by apply Hk.
Qed.

Lemma values_infos `{NodeOrder} m : keyed m -> info <$> values m ≡ₚ (map_to_list (info <$> m)).*2.
Proof. intros Hk. rewrite values_perm, map_to_list_fmap, <-!list_fmap_compose. done. Qed.

Lemma infos_of_list m m' : keyed m -> keyed m' -> (map_to_list (info <$> m)).*2 ≡ₚ (map_to_list (info <$> m')).*2 -> (info <$> m) = (info <$> m').
Proof.
  intros Hk Hk' Hp. assert (forall m : Membership, keyed m -> forall i, i ∈ (map_to_list (info <$> m)).*2 <-> (info <$> m) !! id i = Some i) as Hin.
  { intros n Hn i. rewrite list_elem_of_fmap. split.
    - intros ([k j] & -> & Hj%elem_of_map_to_list). cbn. pose proof Hj as (x & E & Hx)%lookup_fmap_Some. subst j. by rewrite <-(Hn k x Hx).
    - intros Hi. exists (id i, i). split; [done|]. by apply elem_of_map_to_list. }
  apply map_eq. intros k. apply option_eq. intros i. split; intros Hi.
  - pose proof Hi as (x & <- & Hx)%lookup_fmap_Some. rewrite (Hk k x Hx) in Hi |- *. apply Hin; [done|]. rewrite <-Hp. by apply Hin.
  - pose proof Hi as (x & <- & Hx)%lookup_fmap_Some. rewrite (Hk' k x Hx) in Hi |- *. apply Hin; [done|]. rewrite Hp. by apply Hin.
Qed.

(** The bytes that the version of a membership hashes. *)
Definition version_input `{NodeOrder} (m : Membership) : list byte := encoding (info <$> values m).

Lemma epoch_perm `{Xxh3} (o o' : NodeOrder) (m m' : Membership) : info <$> @values o m ≡ₚ info <$> @values o' m' -> NoDup (id <$> (info <$> @values o m)) ->
  @epoch _ o m = @epoch _ o' m'.
Proof.
  intros Hpp Hnd. unfold epoch, for_nodes. rewrite (encoding_perm _ _ Hpp Hnd).
  destruct (info <$> @values o m) as [|i l], (info <$> @values o' m') as [|i' l']; try done; [by apply Permutation_nil_l in Hpp|by apply Permutation_nil_r in Hpp].
Qed.

(** C24: The placement version is a function of the node set alone: coordinators that hold the same nodes compute the same
    version whatever order their maps iterate in, what is hashed differs whenever the id, address or
    role of a node differs, and only the empty set has version zero; and they answer every lookup on an
    unchanging registry alike. *)
Theorem version_exact `{Xxh3} `{Sha256} (o o' : NodeOrder) (m m' : Membership) : keyed m -> keyed m' -> sized m -> sized m' ->
  ((info <$> m) = (info <$> m') -> @epoch _ o m = @epoch _ o' m') /\
  (@version_input o m = @version_input o' m' -> (info <$> m) = (info <$> m')) /\
  (@epoch _ o m = EMPTY <-> m = ∅) /\
  ((info <$> m) = (info <$> m') -> forall b k, @lookup _ _ o m m b k = @lookup _ _ o' m' m' b k).
Proof.
  intros Hk Hk' Hs Hs'. pose proof (@values_infos o m Hk) as Hp. pose proof (@values_infos o' m' Hk') as Hp'. pose proof (@values_ids o m Hk) as Hnd. splits.
  - intros E. apply epoch_perm; [by rewrite Hp, Hp', E|done].
  - intros E. apply infos_of_list; [done|done|]. rewrite <-Hp, <-Hp'. apply encoding_inj; [| |exact E].
    + apply Forall_fmap. rewrite values_perm. apply Forall_fmap, Forall_forall. intros [k x] Hx%elem_of_map_to_list. by apply (Hs k x).
    + apply Forall_fmap. rewrite values_perm. apply Forall_fmap, Forall_forall. intros [k x] Hx%elem_of_map_to_list. by apply (Hs' k x).
  - unfold epoch, for_nodes. split.
    + destruct (info <$> @values o m) as [|i l] eqn:E.
      * intros _. apply (f_equal length) in E. rewrite length_fmap, values_perm, length_fmap, length_map_to_list in E. by apply map_size_empty_inv.
      * cbv zeta. destruct (Z.eqb_spec (xxh3_64 (encoding (i :: l))) EMPTY); done.
    + intros ->. assert (@values o ∅ = []) as -> by (apply Permutation_nil_r; by rewrite values_perm). done.
  - intros E b k. assert (info <$> @values o m ≡ₚ info <$> @values o' m') as Hpp by (by rewrite Hp, Hp', E). unfold lookup, snapshot. rewrite (epoch_perm o o' m m' Hpp Hnd).
    destruct (membership_order_irrelevant _ _ Hpp) as (_ & -> & _); [|done]. eapply sublist_NoDup; [exact Hnd|]. apply fmap_sublist, sublist_filter.
Qed.

Lemma rank_single `{Sha256} b n : role n = Worker -> rank_cache_workers b [n] 1 = Some [id n].
Proof.
  intros Hr. assert (dedup_by_id (select_workers [n]) = [n]) as Hw by (unfold select_workers; by rewrite filter_cons, decide_True).
  destruct (new_spec [n] _ eq_refl) as (q & t & Ht & Ew & _); [by rewrite Hw|by rewrite Hw|]. rewrite Hw in Ew.
  destruct (rank_distinct [n] t b 1 Ht) as (r & Hrk & Hlen & _ & Hsub & _). rewrite Ew in *. unfold rank_cache_workers. rewrite Ht, Hrk. cbn.
  destruct r as [|x [|]]; try done. assert (x ∈ [n]) as ->%list_elem_of_singleton by (apply Hsub; set_solver). done.
Qed.

(** A registry that goes from one node set to another and back. *)
Section Demo.

#[local] Instance demo_order : NodeOrder := {| values := fun m => (map_to_list m).*2; values_perm := fun m => Permutation_refl _ |}.

Definition set_a : list (NodeInfo * option string) := [(mkNode "w1" "h1:1" Worker, None)].
Definition set_b : list (NodeInfo * option string) := [(mkNode "w2" "h2:1" Worker, None)].
Definition reg_a : Membership := (reconcile_zoned new set_a).2.
Definition reg_b : Membership := (reconcile_zoned reg_a set_b).2.
Definition reg_a' : Membership := (reconcile_zoned reg_b set_a).2.

(** A lookup that reads the version before the first change and the nodes after it answers with the owners of the second
    set under the version of the first: the version is current again after the second change, and the
    owners are not. *)
Lemma lookup_mixes_versions `{Xxh3} `{Sha256} b :
  lookup reg_a reg_b b 1 = Some (mkPlacement ["w2"] (epoch reg_a')) /\ lookup reg_a' reg_a' b 1 = Some (mkPlacement ["w1"] (epoch reg_a')).
Proof.
  assert (reg_a = reg_a') as <- by reflexivity. unfold lookup.
  change (snapshot reg_b) with [mkNode "w2" "h2:1" Worker]. change (snapshot reg_a) with [mkNode "w1" "h1:1" Worker]. by rewrite !rank_single.
Qed.

#[local] Existing Instances toy_xxh3 toy_sha256.

Lemma version_exact_witness : epoch reg_a = epoch reg_a' /\ ((info <$> reg_a) = (info <$> reg_b) -> epoch reg_a = epoch reg_b).
Proof.
  assert (forall l, keyed (collect l)) as Hk by apply collect_keyed.
  assert (sized reg_a /\ sized reg_b) as [Ha Hb].
  { split; (apply map_Forall_insert_2; [split; vm_compute; reflexivity|apply map_Forall_empty]). }
  destruct (version_exact demo_order demo_order reg_a reg_a' (Hk _) (Hk _) Ha Ha) as (H1 & _).
  destruct (version_exact demo_order demo_order reg_a reg_b (Hk _) (Hk _) Ha Hb) as (H2 & _).
  split; [apply H1; reflexivity|exact H2].
Defined.

End Demo.

End NodeSet.
