(* ===== verification/Heartbeats.v ===== *)
(** Heartbeats that a coordinator buffers between publications (crates/talon-coordinator/src/observability/heartbeats.rs, and the
    publication loop of observability/state.rs).

    The mutex makes every method atomic. An [Instant] and a [Duration] are nanoseconds of one clock. *)

From stdpp Require Import strings gmap sorting.
From S2P Require Import Prelude External Key Placement Status Membership StateStore.

#[local] Set Warnings "-clear-no-such-hyp".

Module Heartbeats.
Import Key Placement Status Membership StateStore.

Definition NODE_ZONE_LABEL : string := "zone".

Definition label (k : string) (l : list (string * string)) : option string := snd <$> List.find (fun e => bool_decide (e.1 = k)) l.

Record Heartbeat := mkHeartbeat {
  hb : NodeStatus; ttl : Z; received : Z; persisted : Z; persisted_seq : Z; serving : bool; admitted : bool }.

(** Worker and incarnation. *)
Definition key (st : NodeStatus) : string * string := (id (node st), incarnation_id st).

Abbreviation Entries := (gmap (string * string) Heartbeat) (only parsing).

Definition elapsed (now since : Z) : Z := saturating_sub now since.

Definition same_admission (a b : NodeStatus) : bool :=
  (schema_version a =? schema_version b) && bool_decide (cluster_id a = cluster_id b) && bool_decide (node a = node b) &&
  bool_decide (incarnation_id a = incarnation_id b) && bool_decide (admin_address a = admin_address b) && bool_decide (build_version a = build_version b) &&
  (started_at_unix_ms a =? started_at_unix_ms b) && bool_decide (health a = health b) && bool_decide (ready a = ready b) && bool_decide (labels a = labels b).

Definition is_stale (m : Entries) (st : NodeStatus) : bool :=
  match m !! key st with Some e => heartbeat_seq st <? heartbeat_seq (hb e) | None => false end.

Definition with_admitted (b : bool) (e : Heartbeat) : Heartbeat :=
  mkHeartbeat (hb e) (ttl e) (received e) (persisted e) (persisted_seq e) (serving e) b.

(** [None] needs authoritative admission; [Some (Err tt)] rejects a stale sequence. *)
Definition receive (m : Entries) (st : NodeStatus) (t now : Z) : option (result unit bool) * Entries :=
  match m !! key st with
  | None => (None, m)
  | Some e =>
    if heartbeat_seq st <? heartbeat_seq (hb e) then (Some (Err tt), m) else
    if (heartbeat_seq st =? heartbeat_seq (hb e)) && negb (same_admission (hb e) st) then (Some (Err tt), m) else
    if negb (same_admission (hb e) st) || (negb (ttl e =? 0) && negb (ttl e =? t)) || (t / 2 <=? elapsed now (persisted e)) || negb (admitted e)
    then (None, <[key st := with_admitted false e]> m) else
    let e' := if heartbeat_seq (hb e) <? heartbeat_seq st
              then mkHeartbeat st t now (persisted e) (persisted_seq e) (serving e) (admitted e)
              else mkHeartbeat (hb e) t (received e) (persisted e) (persisted_seq e) (serving e) (admitted e) in
    (Some (Ok (serving e)), <[key st := e']> m)
  end.

Definition admit_instance (m : Entries) (st : NodeStatus) (t at_ : Z) (s : bool) : Entries :=
  <[key st := mkHeartbeat st t at_ at_ (heartbeat_seq st) s true]> m.

(** The zones of the members, by worker. *)
Definition zones (l : list WorkerMember) : gmap string (option string) := foldl (fun m x => <[worker_id x := zone x]> m) ∅ l.

(** Is the entry in the zone of its member? *)
Definition in_zone (z : gmap string (option string)) (worker : string) (st : NodeStatus) : bool :=
  match z !! worker with Some x => bool_decide (x = label NODE_ZONE_LABEL (labels st)) | None => false end.

(** What stays buffered, and which of it is to be published. *)
Definition kept (r : MemberRegistry) (m : Entries) (now : Z) : Entries :=
  let z := zones (filter (fun x => retired x = false) (members r)) in
  filter (fun e => ((ttl e.2 =? 0) || (elapsed now (received e.2) <? ttl e.2)) && in_zone z e.1.1 (hb e.2) = true) m.

Definition due (now : Z) (e : Heartbeat) : bool :=
  admitted e && negb (ttl e =? 0) && (persisted_seq e <? heartbeat_seq (hb e)) && (ttl e / 3 <=? elapsed now (persisted e)).

(** The entries are published in the order of the map, which the code does not depend on. *)
Definition pending (r : MemberRegistry) (m : Entries) (now : Z) : list Heartbeat * Entries :=
  let m := kept r m now in ((map_to_list (filter (fun e => due now e.2 = true) m)).*2, m).

Definition persist (m : Entries) (flushed : Heartbeat) : Entries :=
  match m !! key (hb flushed) with
  | None => m
  | Some e =>
    if (heartbeat_seq (hb flushed) <? persisted_seq e) || negb (same_admission (hb e) (hb flushed)) then m else
    <[key (hb flushed) := mkHeartbeat (hb e) (ttl e) (received e) (received flushed) (heartbeat_seq (hb flushed)) (serving e) (admitted e)]> m
  end.

Definition forget (m : Entries) (st : NodeStatus) : Entries :=
  match m !! key st with
  | Some e => if heartbeat_seq (hb e) <=? heartbeat_seq st then delete (key st) m else m
  | None => m
  end.

(** One record of a shared snapshot. *)
Definition observe (z : gmap string (option string)) (observed : Z) (m : Entries) (st : NodeStatus) : Entries :=
  if negb (bool_decide (role (node st) = Worker)) || negb (in_zone z (id (node st)) st) then m else
  match m !! key st with
  | Some e =>
    let e := if persisted_seq e <? heartbeat_seq st
             then mkHeartbeat (hb e) (ttl e) (received e) observed (heartbeat_seq st) (serving e) (admitted e) else e in
    let e := if heartbeat_seq (hb e) <? heartbeat_seq st
             then mkHeartbeat st (ttl e) observed (persisted e) (persisted_seq e) (serving e) (admitted e) else e in
    <[key st := e]> m
  | None => admit_instance m st 0 observed false
  end.

Definition still_there (z : gmap string (option string)) (present : list (string * string)) (now : Z) (e : (string * string) * Heartbeat) : bool :=
  in_zone z e.1.1 (hb e.2) && (bool_decide (e.1 ∈ present) || (negb (ttl e.2 =? 0) && (elapsed now (received e.2) <? ttl e.2))).

Definition states (l : list DiscoveredWorker) : gmap string InstanceState := foldl (fun m w => <[worker_id (member w) := state w]> m) ∅ l.

Definition serves (ws : gmap string InstanceState) (k : string * string) (st : NodeStatus) : bool :=
  match ws !! k.1 with Some (Serving i a) => bool_decide (i = k.2) && bool_decide (a = address (node st)) | _ => false end.

Definition install (m : Entries) (view : WorkerDiscovery) (instances : list NodeStatus) (observed now : Z) : Entries :=
  let z := zones (member <$> discovered view) in
  let m := foldl (observe z observed) m instances in
  let present := key <$> instances in
  let m := filter (fun e => still_there z present now e = true) m in
  let ws := states (discovered view) in
  map_imap (fun k e => Some (mkHeartbeat (hb e) (ttl e) (received e) (persisted e) (persisted_seq e) (serves ws k (hb e)) (admitted e))) m.

(** *** Publication *)

(** The write of one buffered report: [None] when its time is over, and otherwise whether the store accepts it. *)
Definition flush_instance `{RecordOrder} (s : Stores) (h : Heartbeat) (now : Z) : Stores * option (result StateStoreError WriteResult) :=
  let remaining := saturating_sub (ttl h) (elapsed now (received h)) in
  if remaining =? 0 then (s, None) else
  let r := upsert_instance s (hb h) remaining (now / 1000000) in (r.1, Some r.2).

(** What follows a publication: a report that was not written or came too late is forgotten. *)
Definition complete (m : Entries) (h : Heartbeat) (r : option (result StateStoreError WriteResult)) : Entries :=
  match r with
  | None => forget m (hb h)
  | Some (Err _) => m
  | Some (Ok w) => if bool_decide (disposition w = Stale) then forget m (hb h) else persist m h
  end.

(** ** A coordinator at work *)

(** [flights] are the reports being published. The ghost state remembers which reports were received when, and when an
    instance was found in the shared state: admitted or published at the time its report was received, or
    observed there. *)
Record Buffer := mkBuffer {
  entries : Entries; clock : Z; flights : list Heartbeat; reports : list (NodeStatus * Z); sightings : list ((string * string) * Z) }.

Inductive buffer_step : Buffer -> Buffer -> Prop :=
  | buf_tick b now : clock b <= now -> buffer_step b (mkBuffer (entries b) now (flights b) (reports b) (sightings b))
  | buf_receive b st t : buffer_step b (mkBuffer (receive (entries b) st t (clock b)).2 (clock b) (flights b) ((st, clock b) :: reports b) (sightings b))
  | buf_admit b st t at_ s : 0 <= at_ <= clock b ->
      buffer_step b (mkBuffer (admit_instance (entries b) st t at_ s) (clock b) (flights b) ((st, at_) :: reports b) ((key st, at_) :: sightings b))
  | buf_pending b r : let p := pending r (entries b) (clock b) in
      buffer_step b (mkBuffer p.2 (clock b) (p.1 ++ flights b) (reports b) (sightings b))
  | buf_complete b h r : h ∈ flights b ->
      buffer_step b (mkBuffer (complete (entries b) h r) (clock b) (flights b) (reports b)
        (match r with Some (Ok _) => [(key (hb h), received h)] | _ => [] end ++ sightings b))
  | buf_install b view instances observed : 0 <= observed <= clock b ->
      buffer_step b (mkBuffer (install (entries b) view instances observed (clock b)) (clock b) (flights b) (reports b)
        (((fun st => (key st, observed)) <$> instances) ++ sightings b)).

Definition buffer_new : Buffer := mkBuffer ∅ 0 [] [] [].

(** ** Invariant *)

Definition entry_ok (reports : list (NodeStatus * Z)) (sightings : list ((string * string) * Z)) (k : string * string) (e : Heartbeat) : Prop :=
  key (hb e) = k /\ (k, persisted e) ∈ sightings /\ (persisted_seq e < heartbeat_seq (hb e) -> (hb e, received e) ∈ reports).

Record buffer_ok (b : Buffer) : Prop := {
  buf_clock : 0 <= clock b;
  buf_entries : map_Forall (entry_ok (reports b) (sightings b)) (entries b);
  buf_flights : forall h, h ∈ flights b -> (hb h, received h) ∈ reports b;
  buf_reports : forall st t, (st, t) ∈ reports b -> 0 <= t <= clock b;
  buf_sightings : forall k t, (k, t) ∈ sightings b -> 0 <= t <= clock b;
}.

Lemma entry_ok_weaken (rs rs' : list (NodeStatus * Z)) (ss ss' : list ((string * string) * Z)) k e : rs ⊆ rs' -> ss ⊆ ss' -> entry_ok rs ss k e -> entry_ok rs' ss' k e.
Proof. unfold entry_ok. intros Hr Hs (? & ? & ?). splits; [done|set_solver|]. intros. apply Hr. auto. Qed.

Lemma entries_weaken (rs rs' : list (NodeStatus * Z)) (ss ss' : list ((string * string) * Z)) (m : Entries) : rs ⊆ rs' -> ss ⊆ ss' -> map_Forall (entry_ok rs ss) m -> map_Forall (entry_ok rs' ss') m.
Proof. intros Hr Hs Hm k e Hk. eapply entry_ok_weaken; [done|done|]. by apply Hm. Qed.

Lemma same_admission_key a b : same_admission a b = true -> key a = key b.
Proof. unfold same_admission, key. rewrite !andb_true_iff, !bool_decide_eq_true. intros. destruct_and?. congruence. Qed.

Lemma receive_ok rs ss m st t now : map_Forall (entry_ok rs ss) m -> map_Forall (entry_ok ((st, now) :: rs) ss) (receive m st t now).2.
Proof.
  intros Hm. assert (map_Forall (entry_ok ((st, now) :: rs) ss) m) as Hw by (eapply entries_weaken; [| |done]; set_solver).
  unfold receive. destruct (m !! key st) as [e|] eqn:Ee; [|done]. destruct (_ <? _); [done|]. destruct (_ && _); [done|].
  destruct (Hw _ _ Ee) as (Hk & Hs & Hr). destruct (_ || _) eqn:Eg; cbn [snd].
  - apply map_Forall_insert_2; [|done]. by split.
  - apply map_Forall_insert_2; [|done]. destruct (_ <? _); unfold entry_ok; cbn; splits; try done. set_solver.
Qed.

Lemma admit_ok rs ss m st t at_ s : map_Forall (entry_ok rs ss) m -> (key st, at_) ∈ ss -> map_Forall (entry_ok rs ss) (admit_instance m st t at_ s).
Proof. intros Hm Hin. apply map_Forall_insert_2; [|done]. unfold entry_ok. cbn. splits; [done|done|lia]. Qed.

Lemma observe_ok rs ss z observed m st : map_Forall (entry_ok rs ss) m -> (key st, observed) ∈ ss -> map_Forall (entry_ok rs ss) (observe z observed m st).
Proof.
  intros Hm Hin. unfold observe. destruct (_ || _); [done|]. destruct (m !! key st) as [e|] eqn:Ee; [|by apply admit_ok].
  destruct (Hm _ _ Ee) as (Hk & Hs & Hr). apply map_Forall_insert_2; [|done].
  destruct (Z.ltb_spec (persisted_seq e) (heartbeat_seq st)); cbn; destruct (Z.ltb_spec (heartbeat_seq (hb e)) (heartbeat_seq st)); unfold entry_ok; cbn; splits; try done; try lia.
  intros. apply Hr. lia.
Qed.

Lemma install_ok rs ss m view instances observed now : map_Forall (entry_ok rs ss) m -> (forall st, st ∈ instances -> (key st, observed) ∈ ss) ->
  map_Forall (entry_ok rs ss) (install m view instances observed now).
Proof.
  intros Hm Hin. unfold install. set (z := zones _). assert (map_Forall (entry_ok rs ss) (foldl (observe z observed) m instances)) as Hf.
  { clear -Hm Hin. revert m Hm. induction instances as [|st l IH]; intros m Hm; [done|]. cbn [foldl]. apply IH; [set_solver|]. apply observe_ok; set_solver. }
  intros k e Hk. rewrite map_lookup_imap in Hk. apply bind_Some in Hk as (e0 & He0 & E). apply map_lookup_filter_Some in He0 as [He0 _]. injection E as <-. exact (Hf _ _ He0).
Qed.

Lemma persist_ok rs ss m h : map_Forall (entry_ok rs ss) m -> (key (hb h), received h) ∈ ss -> map_Forall (entry_ok rs ss) (persist m h).
Proof.
  intros Hm Hin. unfold persist. destruct (m !! key (hb h)) as [e|] eqn:Ee; [|done]. destruct (Z.ltb_spec (heartbeat_seq (hb h)) (persisted_seq e)); [done|].
  destruct (same_admission _ _) eqn:Ea; [|done]. cbn. destruct (Hm _ _ Ee) as (Hk & Hs & Hr). apply map_Forall_insert_2; [|done].
  unfold entry_ok. cbn. splits; [done|done|]. intros. apply Hr. lia.
Qed.

Lemma forget_ok rs ss m st : map_Forall (entry_ok rs ss) m -> map_Forall (entry_ok rs ss) (forget m st).
Proof. intros Hm. unfold forget. destruct (m !! key st); [|done]. destruct (_ <=? _); [|done]. by apply map_Forall_delete. Qed.

Lemma pending_from r m now h : h ∈ (pending r m now).1 -> exists k, m !! k = Some h /\ due now h = true /\ (ttl h = 0 \/ elapsed now (received h) < ttl h).
Proof.
  unfold pending. cbn [fst]. intros ([k e] & -> & Hin)%list_elem_of_fmap. apply elem_of_map_to_list, map_lookup_filter_Some in Hin as [Hin Hd].
  apply map_lookup_filter_Some in Hin as [Hin Hk]. exists k. splits; [done|done|]. cbn in *. apply andb_true_iff in Hk as [Hk _]. lia.
Qed.

Lemma complete_ok rs ss m h r : map_Forall (entry_ok rs ss) m ->
  map_Forall (entry_ok rs (match r with Some (Ok _) => [(key (hb h), received h)] | _ => [] end ++ ss)) (complete m h r).
Proof.
  intros Hm. assert (forall l, map_Forall (entry_ok rs (l ++ ss)) m) as Hw by (intros l; eapply entries_weaken; [| |done]; set_solver).
  destruct r as [[w|e]|]; cbn [complete]; [|apply Hw|by apply forget_ok]. case_bool_decide; [by apply forget_ok|]. apply persist_ok; [done|]. set_solver.
Qed.

Lemma buffer_step_ok b b' : buffer_ok b -> buffer_step b b' -> buffer_ok b'.
Proof.
  intros [Hc He Hf Hr Hs] Hst. destruct Hst as [b now Hn|b st t|b st t at_ s Ha|b r p|b h r Hh|b view instances observed Ho]; split; cbn [entries clock flights reports sightings]; try done.
  - lia.
  - intros st t Hin. specialize (Hr _ _ Hin). lia.
  - intros k t Hin. specialize (Hs _ _ Hin). lia.
  - by apply receive_ok.
  - intros h Hh. apply elem_of_cons. right. by apply Hf.
  - intros st' t' [[= -> ->]|Hin]%elem_of_cons; [lia|by eapply Hr].
  - apply admit_ok; [|set_solver]. eapply entries_weaken; [| |done]; set_solver.
  - intros h Hh. apply elem_of_cons. right. by apply Hf.
  - intros st' t' [[= -> ->]|Hin]%elem_of_cons; [lia|by eapply Hr].
  - intros k' t' [[= -> ->]|Hin]%elem_of_cons; [lia|by eapply Hs].
  - intros k e Hk. apply He. by apply map_lookup_filter_Some in Hk as [Hk _].
  - intros h [Hh|Hh]%elem_of_app; [|by apply Hf]. apply pending_from in Hh as (k & Hk & Hd & _). destruct (He _ _ Hk) as (_ & _ & Hin). apply Hin.
    unfold due in Hd. rewrite !andb_true_iff in Hd. lia.
  - by apply complete_ok.
  - intros k t [Hin|Hin]%elem_of_app; [|by eapply Hs]. destruct r as [[w|]|]; [|set_solver..]. apply list_elem_of_singleton in Hin as [= -> ->]. eapply Hr. by apply Hf.
  - apply install_ok; [eapply entries_weaken; [| |done]; set_solver|]. intros st Hin. apply elem_of_app. left. apply list_elem_of_fmap. eauto.
  - intros k t [Hin|Hin]%elem_of_app; [|by eapply Hs]. apply list_elem_of_fmap in Hin as (st & [= -> ->] & _). lia.
Qed.

Lemma buffer_reachable_ok b : rtc buffer_step buffer_new b -> buffer_ok b.
Proof.
  intros Hr. assert (buffer_ok buffer_new) as Hok by (split; cbn; [lia|apply map_Forall_empty|set_solver..]).
  induction Hr as [|b1 b2 b3 Hst _ IH]; [done|]. apply IH. by eapply buffer_step_ok.
Qed.

(** *** Leases *)

Lemma upsert_applied `{RecordOrder} st0 s ttl_ns now w : instance_records st0 = true -> (upsert_node st0 s ttl_ns now).2 = Ok w -> disposition w = Applied ->
  records (inner (upsert_node st0 s ttl_ns now).1) !! (cluster_id s, instance_key s) = Some (mkStored s (saturating_add 64 now (ttl_ns / 1000000))).
Proof.
  intros Hi. unfold upsert_node. destruct (ensure_available st0); [|done]. destruct (Status.validate s); [|done]. unfold ttl_ms.
  destruct (ttl_ns =? 0); [done|]. destruct (2 ^ 64 <=? ttl_ns / 1000000); [done|]. destruct (ttl_ns / 1000000 =? 0); [done|]. cbn [fst snd].
  unfold upsert_locked, record_key. rewrite Hi. destruct (mbind _ _) as [d|] eqn:Ed; cbn [fst snd].
  - intros [= <-] Hd. cbn in Hd. subst d. apply bind_Some in Ed as (r & _ & Er). exfalso. unfold refused in Er. repeat case_match; done.
  - intros [= <-] _. cbn. by rewrite lookup_insert_eq.
Qed.

Lemma instance_store_kind s : (forall st, instances s = Some st -> instance_records st = true) -> instance_records (instance_store s) = true.
Proof. intros Hs. unfold instance_store. destruct (instances s) as [st|]; [by apply Hs|done]. Qed.

Lemma flush_expires `{RecordOrder} s h now s' w : (forall st, instances s = Some st -> instance_records st = true) -> 0 <= received h <= now ->
  flush_instance s h now = (s', Some (Ok w)) -> disposition w = Applied ->
  exists r, records (inner (instance_store s')) !! (cluster_id (hb h), instance_key (hb h)) = Some r /\ status r = hb h /\ expires_at_unix_ms r * 1000000 <= received h + ttl h.
Proof.
  intros Hi Hn Hf Hd. unfold flush_instance in Hf. set (remaining := saturating_sub (ttl h) (elapsed now (received h))) in Hf.
  destruct (Z.eqb_spec remaining 0) as [|Hr]; [done|]. injection Hf as <- Hf. unfold upsert_instance in *. destruct (ensure_available (main s)); [|done]. cbn [fst snd] in *.
  eexists. split; [by apply (upsert_applied _ _ _ _ w); [apply instance_store_kind|..]|]. cbn. split; [done|]. unfold saturating_add.
  assert (remaining = ttl h + received h - now) as Er by (unfold remaining, saturating_sub, elapsed, saturating_sub in *; lia).
  pose proof (Z.mul_div_le now 1000000 ltac:(lia)). pose proof (Z.mul_div_le remaining 1000000 ltac:(lia)). lia.
Qed.


(** ** An observation that is older than it looks *)

Section Demo.

#[local] Instance demo_order : RecordOrder := {| iter := fun _ m => map_to_list m; iter_perm := fun _ m => Permutation_refl _ |}.

Definition seconds (n : Z) : Z := n * 1000000000.

Definition demo_status (seq : Z) : NodeStatus :=
  mkStatus 1 "c" (mkNode "w" "host:1" Worker) "inc" None "v" 5 (5 + seq) seq Healthy true (mkMetrics 0 0 0 0 0 0 0 0 0 0 0 0 0) [].

Definition demo_member : WorkerMember := Membership.mkMember "w" None false.
Definition demo_view : WorkerDiscovery := mkDiscovery 0 0 30000 [mkDiscovered demo_member (Serving "inc" "host:1")].
Definition demo_registry : MemberRegistry := mkRegistry 1 [demo_member].

(** One coordinator writes a lease of thirty seconds at time zero. *)
Definition demo_stores : Stores := (upsert_instance (mkStores (with_time_source 8 false) None) (demo_status 0) (seconds 30) 0).1.

(** Another one sees it after 29 seconds, and then receives heartbeats of the worker itself. *)
Definition seen : Entries := install ∅ demo_view [demo_status 0] (seconds 29) (seconds 29).
Definition next_beat : Entries := (receive seen (demo_status 1) (seconds 30) (seconds 29 + 500000000)).2.

(** The heartbeats are acknowledged as serving, but the buffer counts the publication from the time it saw the record: the
    lease ends at thirty seconds, and nothing is published before the thirty-ninth. *)
Lemma acknowledged_lease_lapses :
  (nodes <$> (instance_snapshot demo_stores "c" 29000).2) = Ok [demo_status 0] /\
  (receive seen (demo_status 1) (seconds 30) (seconds 29 + 500000000)).1 = Some (Ok true) /\
  (receive next_beat (demo_status 2) (seconds 30) (seconds 38)).1 = Some (Ok true) /\
  (pending demo_registry (receive next_beat (demo_status 2) (seconds 30) (seconds 38)).2 (seconds 38 + 900000000)).1 = [] /\
  (nodes <$> (instance_snapshot demo_stores "c" 30000).2) = Ok [].
Proof. splits; vm_compute; reflexivity. Qed.

Definition demo_buffer : Buffer :=
  let m := admit_instance ∅ (demo_status 0) (seconds 30) 0 true in
  let m := (receive m (demo_status 1) (seconds 30) (seconds 11)).2 in
  let p := pending demo_registry m (seconds 11) in
  mkBuffer p.2 (seconds 11) (p.1 ++ []) [(demo_status 1, seconds 11); (demo_status 0, 0)] [(key (demo_status 0), 0)].

Definition demo_flight : Heartbeat := mkHeartbeat (demo_status 1) (seconds 30) (seconds 11) 0 0 true true.


End Demo.

End Heartbeats.
