(* ===== verification/PageLifecycle.v ===== *)
(** Page residency (crates/talon-worker/src/page_lifecycle.rs, and the tasks of runtime/page_maintenance.rs that use
    it): readers pin a page with a counter in one word, evictions close it with a compare-and-exchange on the same
    word, and reads leave marks from which checkpoints of access times are made.

    A task is a [Pc]: where it is in the code and its local variables. [exec] is its next access of shared memory.
    Entering a mutex, reading what it protects and the first access to an atomic are one step, as are an access
    to an atomic and leaving the mutex. A task that cannot take a lock stays where it is. The flag of a step is what
    the environment decides: that a weak exchange does not fail spuriously, and that I/O succeeds.
    The model is one block from its creation until it is retired. *)

From S2P Require Import Prelude.

Module PageLifecycle.

Definition READERS : Z := u32_max.
Definition RETRY_SHIFT : Z := 32.
Definition RETRY : Z := Z.shiftl 3 RETRY_SHIFT.
Definition BOUND : Z := Z.shiftl 1 61.
Definition CLOSED : Z := Z.shiftl 1 62.
Definition ACCESSED : Z := Z.shiftl 1 63.
Definition UNKNOWN : Z := u64_max.

(** [word & mask != 0] and [word & !mask]. *)
Definition has (word mask : Z) : bool := negb (Z.land word mask =? 0).
Definition without (word mask : Z) : Z := Z.ldiff word mask.

(** The lazily allocated [PageAccess] is part of the page: one that is not allocated reads like a new one. *)
Record PageState := mkPage { state : Z; recency : Z; last_access : Z; dirty_since : Z }.
Definition new_page : PageState := mkPage 0 0 UNKNOWN UNKNOWN.

Definition set_state (v : Z) (s : PageState) := mkPage v (recency s) (last_access s) (dirty_since s).
Definition set_recency (v : Z) (s : PageState) := mkPage (state s) v (last_access s) (dirty_since s).
Definition set_last (v : Z) (s : PageState) := mkPage (state s) (recency s) v (dirty_since s).
Definition set_dirty (v : Z) (s : PageState) := mkPage (state s) (recency s) (last_access s) v.

Definition known (t : Z) : option Z := if t =? UNKNOWN then None else Some t.
Definition last_access_of (s : PageState) : option Z := known (last_access s).

(** ** The recency word of a page: a generation, and whether it was referenced *)

Definition policy_generation (s : PageState) : option (Z * PageState) :=
  g ← checked_add 64 (without (recency s) 1) 2; Some (g, set_recency g s).
Definition retire_policy (generation : Z) (s : PageState) : option PageState :=
  if without (recency s) 1 =? generation then g ← checked_add 64 generation 2; Some (set_recency g s) else Some s.
Definition referenced (generation : Z) (s : PageState) : bool := recency s =? Z.lor generation 1.
Definition reference (generation : Z) (s : PageState) : PageState :=
  if recency s =? generation then set_recency (Z.lor generation 1) s else s.
Definition take_reference (generation : Z) (s : PageState) : bool * PageState :=
  if recency s =? Z.lor generation 1 then (true, set_recency generation s) else (false, s).

(** ** What the code computes from a word *)

(** The value to exchange for [old] in the loop of [acquire]. *)
Definition acquire_next (old : Z) : option Z :=
  if has old CLOSED || (Z.land old READERS =? READERS) then None else Some (old + 1).
Definition release_next (old : Z) : Z := Z.lor (without (old - 1) RETRY) ACCESSED.
Definition retry (word : Z) : option Z :=
  let value := Z.shiftr (Z.land word RETRY) RETRY_SHIFT in if value =? 0 then None else Some (value - 1).
Definition abort_next (reason old : Z) : Z := Z.lor (without old (Z.lor CLOSED RETRY)) (Z.shiftl (reason + 1) RETRY_SHIFT).
Definition expired (last : option Z) (now tti : Z) : bool :=
  match last with None => true | Some last => tti <? saturating_sub now last end.

(** ** The block *)

Record PageEntry := mkEntry { handle : nat; selection : Z }.
Record BlockPages := mkPages {
  pages : gmap Z PageEntry;
  revision : Z;
  checkpointed_revision : Z;
  cleanup_pending : bool;
  retries : gset Z;
}.
(** [summary] and [pending] are the entries of the block in the maps of its shard. *)
Record BlockWork := mkWork { track_access : bool; work_since : Z; summary : option Z; pending : bool }.

(** [PageMutationGate]: fills in shared mode, everything else in exclusive mode. *)
Record Gate := mkGate { fills : nat; owned : bool }.
Inductive Hold := NoGate | FillGate | BlockGate.

Record GcCandidate := mkCandidate { c_page : Z; c_handle : nat; c_selection : Z }.
Record Eviction := mkEviction { candidate : GcCandidate; reason : Z; claim_at : Z; tti_ms : Z; finish_at : Z }.
Record PageCheckpoint := mkPageCheckpoint { p_page : Z; p_access : option Z; p_handle : nat; p_dirty : Z }.
Record Snapshot := mkSnapshot { since : option Z; replace : bool; at_revision : Z; sampled : list PageCheckpoint }.

(** How a reader ends: an error, or a read at a time when access times are kept. *)
Inductive Use := Failed | Served (now : option Z).

Inductive Pc :=
  | Done
  | Panicked (g : Hold)
  (* PageState::acquire, PageReadGuard *)
  | Acquire (h : nat) (u : Use)
  | AcquirePage (page : Z) (u : Use)
  | AcquireLoop (h : nat) (u : Use) (old : Z) (locked : bool)
  | Reading (h : nat) (u : Use)
  | ReleaseFailed (h : nat)
  | Release (h : nat)
  | ReleaseLoop (h : nat) (old : Z)
  (* PageState::touch, BlockWork::dirty *)
  | Touch (h : nat) (now : Z) (next : Pc)
  | TouchLoop (h : nat) (now old : Z) (next : Pc)
  | Mark (h : nat) (now : Z) (next : Pc)
  | Dirty (now : Z) (next : Pc)
  | Insert (now : Z) (next : Pc)
  | Leave (g : Hold)
  (* a fill: BlockState::register *)
  | Fill (page : Z) (access : option Z) (now : Z) (g : Hold)
  | Register (page : Z) (access : option Z) (now : Z) (g : Hold)
  | Bind (h : nat) (access : option Z) (now : Z) (g : Hold)
  | Accessed (h : nat) (now : Z) (g : Hold)
  (* BlockState::candidate, one page of PageLifecycle::scan, BlockState::select *)
  | Candidate (page : Z)
  | ScanPage (page now : Z) (tti : option Z)
  | ScanAge (page : Z) (h : nat) (flags now : Z) (tti : option Z)
  | Select (page : Z) (h : nat) (flags : Z)
  (* eviction of a page: claim, finish, abort *)
  | Evict (e : Eviction)
  | Claim (e : Eviction)
  | ClaimExchange (e : Eviction) (word : Z)
  | ClaimAge (e : Eviction)
  | ClaimReopen (e : Eviction)
  | Unlink (e : Eviction)
  | Finish (e : Eviction)
  | Abort (e : Eviction)
  | Finished
  | Emptied
  (* eviction of a block: claim_all_pages, BlockPageClaim *)
  | Retire (now : Z)
  | CloseAll (now : Z)
  | CloseLoad (now : Z) (todo closed : list nat)
  | CloseExchange (now : Z) (h : nat) (flags : Z) (todo closed : list nat)
  | UnlinkAll (now : Z) (closed : list nat)
  | FinishAll (now : Z) (closed : list nat)
  | Reopen (closed : list nat) (locked : bool)
  (* the checkpoint of a block *)
  | Checkpoint (full : bool)
  | Consume (full : bool)
  | Swap (full : bool) (since : option Z)
  | Sample (todo : list (Z * nat)) (s : Snapshot)
  | SampleAge (page : Z) (h : nat) (dirty : Z) (todo : list (Z * nat)) (s : Snapshot)
  | Flush (s : Snapshot)
  | Flushed (s : Snapshot)
  | Rollback (todo : list PageCheckpoint) (since : option Z)
  | EndCheckpoint.

(** [heap] holds every page state ever allocated, a handle being its index; [saved] the ages of this block that a restart would
    load. [inner] and [shard_lock] are the mutexes of the block and of the dirty map of its shard, [checkpointing] is the
    checkpoint gate of the shard. *)
Record World := mkWorld {
  heap : list PageState;
  block : BlockPages;
  work : BlockWork;
  inner : bool;
  gate : Gate;
  shard_lock : bool;
  checkpointing : bool;
  saved : gmap Z Z;
}.

Definition set_heap v w := mkWorld v (block w) (work w) (inner w) (gate w) (shard_lock w) (checkpointing w) (saved w).
Definition set_block v w := mkWorld (heap w) v (work w) (inner w) (gate w) (shard_lock w) (checkpointing w) (saved w).
Definition set_work v w := mkWorld (heap w) (block w) v (inner w) (gate w) (shard_lock w) (checkpointing w) (saved w).
Definition set_inner v w := mkWorld (heap w) (block w) (work w) v (gate w) (shard_lock w) (checkpointing w) (saved w).
Definition set_gate v w := mkWorld (heap w) (block w) (work w) (inner w) v (shard_lock w) (checkpointing w) (saved w).
Definition set_shard_lock v w := mkWorld (heap w) (block w) (work w) (inner w) (gate w) v (checkpointing w) (saved w).
Definition set_checkpointing v w := mkWorld (heap w) (block w) (work w) (inner w) (gate w) (shard_lock w) v (saved w).
Definition set_saved v w := mkWorld (heap w) (block w) (work w) (inner w) (gate w) (shard_lock w) (checkpointing w) v.

Definition page_of (w : World) (h : nat) : PageState := default new_page (heap w !! h).
Definition word (w : World) (h : nat) : Z := state (page_of w h).
Definition on_page (h : nat) (f : PageState -> PageState) (w : World) : World := set_heap (alter f h (heap w)) w.
Definition set_word (h : nat) (v : Z) (w : World) : World := on_page h (set_state v) w.

Definition set_pages (m : gmap Z PageEntry) (b : BlockPages) := mkPages m (revision b) (checkpointed_revision b) (cleanup_pending b) (retries b).
Definition set_revision v (b : BlockPages) := mkPages (pages b) v (checkpointed_revision b) (cleanup_pending b) (retries b).
Definition set_checkpointed v (b : BlockPages) := mkPages (pages b) (revision b) v (cleanup_pending b) (retries b).
Definition set_cleanup v (b : BlockPages) := mkPages (pages b) (revision b) (checkpointed_revision b) v (retries b).
Definition set_retries v (b : BlockPages) := mkPages (pages b) (revision b) (checkpointed_revision b) (cleanup_pending b) v.

Definition set_since v (k : BlockWork) := mkWork (track_access k) v (summary k) (pending k).
Definition set_summary v (k : BlockWork) := mkWork (track_access k) (work_since k) v (pending k).
Definition set_pending v (k : BlockWork) := mkWork (track_access k) (work_since k) (summary k) v.

(** ** Locks *)

(** [lock_page_fill] and [lock], when the gate is free. *)
Definition lock_page_fill (g : Gate) : option Gate := if owned g then None else Some (mkGate (S (fills g)) false).
Definition lock (g : Gate) : option Gate := if owned g || negb (bool_decide (fills g = 0%nat)) then None else Some (mkGate 0 true).
Definition enter (k : Hold) (g : Gate) : option Gate :=
  match k with NoGate => Some g | FillGate => lock_page_fill g | BlockGate => lock g end.
Definition unlock (k : Hold) (g : Gate) : Gate :=
  match k with NoGate => g | FillGate => mkGate (pred (fills g)) (owned g) | BlockGate => mkGate (fills g) false end.

Definition leave (k : Hold) (w : World) : World := set_gate (unlock k (gate w)) (set_inner false w).
Definition leave_gate (k : Hold) (w : World) : World := set_gate (unlock k (gate w)) w.

(** Run [f] inside the mutex of the block. *)
Definition locked (w : World) (pc : Pc) (f : World -> World * Pc) : World * Pc :=
  if inner w then (w, pc) else f (set_inner true w).

(** [BlockPages::changed], up to the notification of the shard. *)
Definition changed (now : Z) (k : Hold) (next : Pc) (w : World) : World * Pc :=
  match checked_add 64 (revision (block w)) 1 with
  | None => (w, Panicked k)
  | Some r => (set_block (set_revision r (block w)) w, Dirty now next)
  end.

Definition is_candidate (c : GcCandidate) (w : World) : bool :=
  match pages (block w) !! c_page c with
  | Some e => bool_decide (handle e = c_handle c) && (selection e =? c_selection c)
  | None => false
  end.

Definition tti_of (e : Eviction) : option Z := if reason e =? 0 then Some (tti_ms e) else None.

(** What replaying the frame of a snapshot makes of the saved ages of the block. *)
Definition records (s : Snapshot) : gmap Z Z :=
  list_to_map (omap (fun p => if replace s || negb (p_dirty p =? UNKNOWN) then pair (p_page p) <$> p_access p else None) (sampled s)).
Definition replay (s : Snapshot) (m : gmap Z Z) : gmap Z Z := if replace s then records s else records s ∪ m.

(** ** Readers *)

(** [PageState::acquire]: a turn of the loop with the value last seen. [locked]: called from [BlockState::acquire], which
    keeps the mutex of the block. *)
Definition acquire (w : World) (h : nat) (u : Use) (old : Z) (locked : bool) (ok : bool) : World * Pc :=
  let out w := if locked then set_inner false w else w in
  match acquire_next old with
  | None => (out w, Done)
  | Some new =>
    if (word w h =? old) && ok then (out (set_word h new w), Reading h u) else (w, AcquireLoop h u (word w h) locked)
  end.

Definition acquire_page (w : World) (page : Z) (u : Use) (pc : Pc) : World * Pc :=
  locked w pc (fun w =>
    match pages (block w) !! page with
    | None => (set_inner false w, Done)
    | Some e => (w, AcquireLoop (handle e) u (word w (handle e)) true)
    end).

(** [record_access_and_release], or the drop of a guard that recorded nothing. *)
Definition end_read (h : nat) (u : Use) : Pc :=
  match u with
  | Failed => ReleaseFailed h
  | Served None => Release h
  | Served (Some now) => Touch h (Z.min now (UNKNOWN - 1)) (Release h)
  end.

(** [PageState::release] after a successful read: a turn of the loop. *)
Definition release (w : World) (h : nat) (old : Z) (ok : bool) : World * Pc :=
  if (word w h =? old) && ok then (set_word h (release_next old) w, Done) else (w, ReleaseLoop h (word w h)).

(** [PageState::touch]: a turn of the loop, and the mark after it. *)
Definition touch (w : World) (h : nat) (now old : Z) (next : Pc) (ok : bool) : World * Pc :=
  if (old =? UNKNOWN) || (old <? now) then
    if (last_access (page_of w h) =? old) && ok then (on_page h (set_last now) w, Mark h now next)
    else (w, TouchLoop h now (last_access (page_of w h)) next)
  else (w, next).

Definition mark (w : World) (h : nat) (now : Z) (next : Pc) : World * Pc :=
  let old := dirty_since (page_of w h) in
  (on_page h (set_dirty (Z.min old now)) w, if old =? UNKNOWN then Dirty now next else next).

(** [BlockWork::dirty]: the exchange that coalesces, then the map of the shard. *)
Definition dirty (w : World) (now : Z) (next : Pc) : World * Pc :=
  if negb (track_access (work w)) then (w, next) else
  let old := work_since (work w) in
  (set_work (set_since (Z.min old now) (work w)) w, if old <=? now then next else Insert now next).

Definition insert (w : World) (now : Z) (next pc : Pc) : World * Pc :=
  if shard_lock w then (w, pc) else
  let s := match summary (work w) with Some old => Z.min old now | None => now end in
  (set_work (set_summary (Some s) (work w)) w, next).

(** ** Fills *)

(** [BlockState::register] of a page just written: find or insert the page, *)
Definition register (w : World) (page : Z) (access : option Z) (now : Z) (g : Hold) (pc : Pc) : World * Pc :=
  locked w pc (fun w =>
    let b := set_cleanup false (block w) in
    match pages b !! page with
    | Some e => (set_block b w, Bind (handle e) access now g)
    | None =>
      let h := length (heap w) in
      (set_heap (heap w ++ [new_page]) (set_block (set_pages (<[page := mkEntry h 0]> (pages b)) b) w), Bind h access now g)
    end).

(** bind it to its block ([bind_work]), *)
Definition bind (w : World) (h : nat) (access : option Z) (now : Z) (g : Hold) : World * Pc :=
  let w' := set_word h (Z.lor (word w h) BOUND) w in
  match (if track_access (work w) then access else None) with
  | Some t => (w', Touch h (Z.min t (UNKNOWN - 1)) (Accessed h now g))
  | None => (w', Accessed h now g)
  end.

(** and mark it accessed. *)
Definition accessed (w : World) (h : nat) (now : Z) (g : Hold) : World * Pc :=
  changed now g (Leave g) (set_word h (Z.lor (word w h) ACCESSED) w).

(** [BlockState::register] of a page restored at startup, before any task runs. *)
Definition restore (w : World) (page : Z) (access : option Z) : World :=
  let b := set_cleanup false (block w) in
  let '(h, hp, b) := match pages b !! page with
                     | Some e => (handle e, heap w, b)
                     | None => (length (heap w), heap w ++ [new_page], set_pages (<[page := mkEntry (length (heap w)) 0]> (pages b)) b)
                     end in
  let s := default new_page (hp !! h) in
  let s := set_state (Z.lor (state s) BOUND) s in
  let s := if track_access (work w) then set_last (match access with Some t => Z.min t (UNKNOWN - 1) | None => UNKNOWN end) s else s in
  set_heap (<[h := s]> hp) (set_block b w).

(** ** Selection of candidates *)

Definition candidate_of (w : World) (page : Z) (pc : Pc) : World * Pc :=
  locked w pc (fun w =>
    match pages (block w) !! page with
    | None => (set_inner false w, Done)
    | Some e => if has (word w (handle e)) CLOSED then (set_inner false w, Done) else (w, Select page (handle e) (word w (handle e)))
    end).

(** The body of the loop of [PageLifecycle::scan] for one page. *)
Definition scan_page (w : World) (page now : Z) (tti : option Z) (pc : Pc) : World * Pc :=
  locked w pc (fun w =>
    match pages (block w) !! page with
    | None => (set_inner false w, Done)
    | Some e =>
      let flags := word w (handle e) in
      let w := match retry flags with
               | None => set_block (set_retries (retries (block w) ∖ {[page]}) (block w)) w
               | Some _ => w
               end in
      (w, ScanAge page (handle e) flags now tti)
    end).

Definition scan_age (w : World) (page : Z) (h : nat) (flags now : Z) (tti : option Z) : World * Pc :=
  let tti_expired := match tti with Some tti => expired (last_access_of (page_of w h)) now tti | None => false end in
  let retryable := match retry flags with Some reason => negb (reason =? 0) || bool_decide (is_Some tti) | None => false end in
  if negb (has flags (Z.lor CLOSED READERS)) && (tti_expired || retryable) then (w, Select page h flags) else (set_inner false w, Done).

(** [BlockState::select]. *)
Definition select (w : World) (page : Z) (h : nat) (flags : Z) : World * Pc :=
  if word w h =? flags then
    let w := set_word h (without flags ACCESSED) w in
    match pages (block w) !! page with
    | Some e =>
      match checked_add 64 (selection e) 1 with
      | Some n => (set_inner false (set_block (set_pages (<[page := mkEntry (handle e) n]> (pages (block w))) (block w)) w), Done)
      | None => (w, Panicked NoGate)
      end
    | None => (w, Panicked NoGate)
    end
  else (set_inner false w, Done).

(** ** Eviction of a page *)

(** [BlockState::claim]. An eviction for capacity is called off when there is enough. *)
Definition claim (w : World) (e : Eviction) (pc : Pc) (ok : bool) : World * Pc :=
  if (reason e =? 1) && negb ok then (leave_gate BlockGate w, Done) else
  locked w pc (fun w =>
    let v := word w (c_handle (candidate e)) in
    if is_candidate (candidate e) w && negb (has v (Z.lor READERS (Z.lor CLOSED ACCESSED))) then (w, ClaimExchange e v)
    else (leave BlockGate w, Done)).

Definition claim_exchange (w : World) (e : Eviction) (v : Z) : World * Pc :=
  let h := c_handle (candidate e) in
  if word w h =? v then (set_word h (Z.lor v CLOSED) w, ClaimAge e) else (leave BlockGate w, Done).

Definition claim_age (w : World) (e : Eviction) : World * Pc :=
  match tti_of e with
  | Some tti =>
    if expired (last_access_of (page_of w (c_handle (candidate e)))) (claim_at e) tti then (set_inner false w, Unlink e)
    else (w, ClaimReopen e)
  | None => (set_inner false w, Unlink e)
  end.

Definition claim_reopen (w : World) (e : Eviction) : World * Pc :=
  let h := c_handle (candidate e) in (leave BlockGate (set_word h (without (word w h) CLOSED) w), Done).

(** [BlockState::finish]. *)
Definition finish (w : World) (e : Eviction) (pc : Pc) : World * Pc :=
  locked w pc (fun w =>
    let c := candidate e in
    if is_candidate c w && has (word w (c_handle c)) CLOSED then
      let m := delete (c_page c) (pages (block w)) in
      let empty := bool_decide (m = ∅) in
      let b := set_cleanup empty (set_retries (retries (block w) ∖ {[c_page c]}) (set_pages m (block w))) in
      let w := set_block b w in
      let w := if empty then set_work (set_pending true (work w)) w else w in
      changed (finish_at e) BlockGate Finished w
    else (set_inner false w, Emptied)).

(** [BlockState::abort]. *)
Definition abort (w : World) (e : Eviction) (pc : Pc) : World * Pc :=
  locked w pc (fun w =>
    let c := candidate e in
    if is_candidate c w then
      let w := set_word (c_handle c) (abort_next (reason e) (word w (c_handle c))) w in
      let w := set_block (set_retries ({[c_page c]} ∪ retries (block w)) (block w)) w in
      (leave BlockGate (set_work (set_pending true (work w)) w), Done)
    else (leave BlockGate w, Done)).

(** The directory of a block without pages is deleted, still under the gate. *)
Definition emptied (w : World) (pc : Pc) (ok : bool) : World * Pc :=
  locked w pc (fun w =>
    if bool_decide (pages (block w) = ∅) && ok then (leave BlockGate (set_block (set_cleanup false (block w)) w), Done)
    else (leave BlockGate w, Done)).

(** ** Eviction of a block *)

Definition close_all (w : World) (now : Z) (pc : Pc) (ok : bool) : World * Pc :=
  if negb ok then (leave_gate BlockGate w, Done) else
  locked w pc (fun w => (w, CloseLoad now (handle <$> (map_to_list (pages (block w))).*2) [])).

(** [BlockState::claim_all_pages]: the page at the head of the table. *)
Definition close_load (w : World) (now : Z) (todo closed : list nat) : World * Pc :=
  match todo with
  | [] => (set_inner false w, UnlinkAll now closed)
  | h :: todo =>
    if has (word w h) (Z.lor READERS CLOSED) then (w, Reopen closed true) else (w, CloseExchange now h (word w h) todo closed)
  end.

Definition close_exchange (w : World) (now : Z) (h : nat) (flags : Z) (todo closed : list nat) : World * Pc :=
  if word w h =? flags then (set_word h (Z.lor flags CLOSED) w, CloseLoad now todo (h :: closed)) else (w, Reopen closed true).

(** [BlockPageClaim::finish] and its drop. *)
Definition finish_all (w : World) (now : Z) (pc : Pc) : World * Pc :=
  locked w pc (fun w =>
    let b := set_cleanup false (set_retries ∅ (set_pages ∅ (block w))) in
    changed now BlockGate (Leave BlockGate) (set_work (set_pending true (work w)) (set_block b w))).

Definition reopen (w : World) (closed : list nat) (locked : bool) : World * Pc :=
  match closed with
  | [] => ((if locked then leave BlockGate w else leave_gate BlockGate w), Done)
  | h :: closed => (set_word h (without (word w h) CLOSED) w, Reopen closed locked)
  end.

(** ** The checkpoint of a block *)

Definition checkpoint (w : World) (full : bool) (pc : Pc) : World * Pc :=
  if checkpointing w then (w, pc) else locked w pc (fun w => (set_checkpointing true w, Consume full)).

(** [BlockWork::checkpoint]: the entry is removed and the word reset under the lock of the shard. *)
Definition consume (w : World) (full : bool) (pc : Pc) : World * Pc :=
  if shard_lock w then (w, pc) else
  (set_shard_lock true (set_work (set_summary None (work w)) w), Swap full (summary (work w))).

Definition swap (w : World) (full : bool) (since : option Z) : World * Pc :=
  let b := block w in
  (set_shard_lock false (set_work (set_since UNKNOWN (work w)) w),
   Sample (prod_map id handle <$> map_to_list (pages b)) (mkSnapshot since (full || negb (revision b =? checkpointed_revision b)) (revision b) [])).

(** [PageCheckpoint::new]: the marker, then the time. *)
Definition sample (w : World) (todo : list (Z * nat)) (s : Snapshot) : World * Pc :=
  match todo with
  | [] => (set_inner false w, Flush s)
  | (page, h) :: todo => (on_page h (set_dirty UNKNOWN) w, SampleAge page h (dirty_since (page_of w h)) todo s)
  end.

Definition sample_age (w : World) (page : Z) (h : nat) (d : Z) (todo : list (Z * nat)) (s : Snapshot) : World * Pc :=
  (w, Sample todo (mkSnapshot (since s) (replace s) (at_revision s)
                     (sampled s ++ [mkPageCheckpoint page (last_access_of (page_of w h)) h d]))).

(** The frame is written, and the guards are committed or dropped. A failure is reported before or after the frame can be
    read back. *)
Definition flush (w : World) (s : Snapshot) (ok : bool) : World * Pc :=
  if ok then (set_saved (replay s (saved w)) w, Flushed s) else (w, Rollback (sampled s) (since s)).

Definition commit (w : World) (s : Snapshot) (pc : Pc) (ok : bool) : World * Pc :=
  if ok then locked w pc (fun w => (set_checkpointing false (set_inner false (set_block (set_checkpointed (at_revision s) (block w)) w)), Done))
  else (w, Rollback (sampled s) (since s)).

(** The drops of [PageCheckpoint] and [BlockCheckpoint]. *)
Definition rollback (w : World) (todo : list PageCheckpoint) (since : option Z) : World * Pc :=
  match todo with
  | p :: todo =>
    if p_dirty p =? UNKNOWN then (w, Rollback todo since) else
    (on_page (p_handle p) (fun s => set_dirty (Z.min (dirty_since s) (p_dirty p)) s) w, Dirty (p_dirty p) (Rollback todo since))
  | [] => match since with Some t => (w, Dirty t EndCheckpoint) | None => (w, EndCheckpoint) end
  end.

(** ** Tasks *)

Definition exec (w : World) (pc : Pc) (ok : bool) : World * Pc :=
  match pc with
  | Done => (w, Done)
  | Panicked g => (w, Panicked g)
  | Acquire h u => if bool_decide (h < length (heap w))%nat then (w, AcquireLoop h u (word w h) false) else (w, Done)
  | AcquirePage page u => acquire_page w page u pc
  | AcquireLoop h u old locked => acquire w h u old locked ok
  | Reading h u => (w, end_read h u)
  | ReleaseFailed h => (set_word h (word w h - 1) w, Done)
  | Release h => (w, ReleaseLoop h (word w h))
  | ReleaseLoop h old => release w h old ok
  | Touch h now next => (w, TouchLoop h now (last_access (page_of w h)) next)
  | TouchLoop h now old next => touch w h now old next ok
  | Mark h now next => mark w h now next
  | Dirty now next => dirty w now next
  | Insert now next => insert w now next pc
  | Leave g => (leave g w, Done)
  | Fill page access now g => match enter g (gate w) with Some g' => (set_gate g' w, Register page access now g) | None => (w, pc) end
  | Register page access now g => register w page access now g pc
  | Bind h access now g => bind w h access now g
  | Accessed h now g => accessed w h now g
  | Candidate page => candidate_of w page pc
  | ScanPage page now tti => scan_page w page now tti pc
  | ScanAge page h flags now tti => scan_age w page h flags now tti
  | Select page h flags => select w page h flags
  | Evict e => match lock (gate w) with Some g => (set_gate g w, Claim e) | None => (w, pc) end
  | Claim e => claim w e pc ok
  | ClaimExchange e v => claim_exchange w e v
  | ClaimAge e => claim_age w e
  | ClaimReopen e => claim_reopen w e
  | Unlink e => (w, if ok then Finish e else Abort e)
  | Finish e => finish w e pc
  | Abort e => abort w e pc
  | Finished => (set_inner false w, Emptied)
  | Emptied => emptied w pc ok
  | Retire now => match lock (gate w) with Some g => (set_gate g w, CloseAll now) | None => (w, pc) end
  | CloseAll now => close_all w now pc ok
  | CloseLoad now todo closed => close_load w now todo closed
  | CloseExchange now h flags todo closed => close_exchange w now h flags todo closed
  | UnlinkAll now closed => (w, if ok then FinishAll now closed else Reopen closed false)
  | FinishAll now closed => finish_all w now pc
  | Reopen closed locked => reopen w closed locked
  | Checkpoint full => checkpoint w full pc
  | Consume full => consume w full pc
  | Swap full since => swap w full since
  | Sample todo s => sample w todo s
  | SampleAge page h d todo s => sample_age w page h d todo s
  | Flush s => flush w s ok
  | Flushed s => commit w s pc ok
  | Rollback todo since => rollback w todo since
  | EndCheckpoint => (set_checkpointing false w, Done)
  end.

(** Where tasks begin. Pages are evicted for their idle time (0), for capacity (1) and because they are superseded (2). *)
Definition starts (pc : Pc) : bool :=
  match pc with
  | Acquire _ _ | AcquirePage _ _ | Candidate _ | ScanPage _ _ _ | Retire _ | Checkpoint _ => true
  | Evict e => (0 <=? reason e) && (reason e <=? 2)
  | Fill _ _ _ g => match g with NoGate => false | _ => true end
  | _ => false
  end.

Inductive Event := Spawn (pc : Pc) | Step (i : nat) (ok : bool).

Definition step (s : World * list Pc) (ev : Event) : World * list Pc :=
  let '(w, ts) := s in
  match ev with
  | Spawn pc => if starts pc then (w, ts ++ [pc]) else s
  | Step i ok => match ts !! i with Some pc => let '(w', pc') := exec w pc ok in (w', <[i := pc']> ts) | None => s end
  end.

Definition run (s : World * list Pc) (evs : list Event) : World * list Pc := foldl step s evs.

Definition new_block (track : bool) : World :=
  mkWorld [] (mkPages ∅ 0 0 false ∅) (mkWork track UNKNOWN None true) false (mkGate 0 false) false false ∅.

(** A block at startup: the pages found on disk, with the ages that were saved for them. *)
Definition restored (track : bool) (l : list (Z * option Z)) : World := foldl (fun w p => restore w p.1 p.2) (new_block track) l.

End PageLifecycle.
