(* ===== verification/PageTasks.v ===== *)
(** The tasks of [PageLifecycle]: what the updates of a page word do, what a task holds, and the invariant of the locks. *)

From S2P Require Import Prelude PageLifecycle.

Module PageTasks.
Import PageLifecycle.

(** ** The word of a page *)

Definition readers (v : Z) : Z := Z.land v READERS.
Definition closed (v : Z) : bool := has v CLOSED.
Definition was_read (v : Z) : bool := has v ACCESSED.

Lemma readers_mod v : readers v = v mod 2 ^ 32.
Proof. apply (Z.land_ones v 32). lia. Qed.

Lemma has_bit v k : 0 <= k -> has v (Z.shiftl 1 k) = Z.testbit v k.
Proof.
  intros Hk. unfold has. rewrite Z.shiftl_1_l. destruct (Z.testbit v k) eqn:E.
  - apply negb_true_iff, Z.eqb_neq. intros Hz. apply (f_equal (fun x => Z.testbit x k)) in Hz.
    rewrite Z.land_spec, E, Z.pow2_bits_true, Z.bits_0 in Hz; [discriminate | lia].
  - apply negb_false_iff, Z.eqb_eq, Z.bits_inj'. intros n Hn.
    rewrite Z.land_spec, Z.bits_0, Z.pow2_bits_eqb by lia. destruct (Z.eqb_spec k n) as [->|_]; [by rewrite E | apply andb_false_r].
Qed.

Lemma closed_bit v : closed v = Z.testbit v 62.
Proof. apply has_bit. lia. Qed.

Lemma was_read_bit v : was_read v = Z.testbit v 63.
Proof. apply has_bit. lia. Qed.

(** Bits above the counter. *)
Lemma high_bit v n : 32 <= n -> Z.testbit v n = Z.testbit (v / 2 ^ 32) (n - 32).
Proof. intros Hn. rewrite <- Z.shiftr_div_pow2, Z.shiftr_spec by lia. f_equal. lia. Qed.

Lemma counter_bit v v' n : 32 <= n -> v / 2 ^ 32 = v' / 2 ^ 32 -> Z.testbit v n = Z.testbit v' n.
Proof. intros Hn E. by rewrite !(high_bit _ n), E by lia. Qed.

Lemma incr_div v : readers v <> READERS -> (v + 1) / 2 ^ 32 = v / 2 ^ 32 /\ readers (v + 1) = readers v + 1.
Proof. rewrite !readers_mod. unfold READERS, u32_max. intros Hn. lia. Qed.

Lemma decr_div v : readers v <> 0 -> (v - 1) / 2 ^ 32 = v / 2 ^ 32 /\ readers (v - 1) = readers v - 1.
Proof. rewrite !readers_mod. intros Hn. lia. Qed.

Lemma readers_bits v v' : (forall n, 0 <= n < 32 -> Z.testbit v n = Z.testbit v' n) -> readers v = readers v'.
Proof.
  intros E. unfold readers. apply Z.bits_inj'. intros n Hn. rewrite !Z.land_spec.
  change READERS with (Z.ones 32). destruct (Z_lt_ge_dec n 32) as [Hl|Hg]; [by rewrite E by lia | ].
  by rewrite Z.ones_spec_high, !andb_false_r by lia.
Qed.

Lemma lor_bit v k n : 0 <= k -> 0 <= n -> Z.testbit (Z.lor v (Z.shiftl 1 k)) n = Z.testbit v n || bool_decide (n = k).
Proof.
  intros Hk Hn. rewrite Z.lor_spec, Z.shiftl_1_l, Z.pow2_bits_eqb by lia. f_equal. case_bool_decide; lia.
Qed.

Lemma without_bit v k n : 0 <= k -> 0 <= n -> Z.testbit (without v (Z.shiftl 1 k)) n = Z.testbit v n && negb (bool_decide (n = k)).
Proof.
  intros Hk Hn. unfold without. rewrite Z.ldiff_spec, Z.shiftl_1_l, Z.pow2_bits_eqb by lia. do 2 f_equal. case_bool_decide; lia.
Qed.

Lemma is_u_set v k : 0 <= k < 64 -> is_u64 v -> is_u64 (Z.lor v (Z.shiftl 1 k)).
Proof.
  intros Hk [H0 H]%is_u_testbit; [ | lia]. apply is_u_testbit; [lia | ]. split.
  - rewrite Z.shiftl_1_l. apply Z.lor_nonneg. split; [done | ]. apply Z.pow_nonneg. lia.
  - intros i Hi. rewrite lor_bit, H by lia. by case_bool_decide; [lia | ].
Qed.

Lemma is_u_without v m : is_u64 v -> is_u64 (without v m).
Proof.
  intros [H0 H]%is_u_testbit; [ | lia]. apply is_u_testbit; [lia | ]. split; [by apply Z.ldiff_nonneg; left | ].
  intros i Hi. unfold without. by rewrite Z.ldiff_spec, H by lia.
Qed.

(** An update of a word that changes the number of readers by [d], closes the page or not, and keeps it in its width. *)
Definition word_step (v v' d : Z) (c : bool) : Prop := (is_u64 v -> is_u64 v') /\ readers v' = readers v + d /\ closed v' = c.

Lemma set_bit_step v k : 32 <= k < 64 -> k <> 62 -> word_step v (Z.lor v (Z.shiftl 1 k)) 0 (closed v).
Proof.
  intros Hk Hn. unfold word_step; splits; [apply is_u_set; lia | | ].
  - rewrite Z.add_0_r. apply readers_bits. intros n Hl. rewrite lor_bit by lia. by case_bool_decide; [lia | rewrite orb_false_r].
  - rewrite !closed_bit, lor_bit by lia. by case_bool_decide; [lia | rewrite orb_false_r].
Qed.

Lemma close_step v : word_step v (Z.lor v CLOSED) 0 true.
Proof.
  unfold CLOSED. unfold word_step; splits; [apply is_u_set; lia | | ].
  - rewrite Z.add_0_r. apply readers_bits. intros n Hl. rewrite lor_bit by lia. by case_bool_decide; [lia | rewrite orb_false_r].
  - rewrite closed_bit, lor_bit by lia. by rewrite bool_decide_true, orb_true_r.
Qed.

Lemma reopen_step v : word_step v (without v CLOSED) 0 false.
Proof.
  unfold CLOSED. unfold word_step; splits; [apply is_u_without | | ].
  - rewrite Z.add_0_r. apply readers_bits. intros n Hl. rewrite without_bit by lia. by case_bool_decide; [lia | rewrite andb_true_r].
  - rewrite closed_bit, without_bit by lia. by rewrite bool_decide_true, andb_false_r.
Qed.

Lemma select_step v : word_step v (without v ACCESSED) 0 (closed v).
Proof.
  unfold ACCESSED. unfold word_step; splits; [apply is_u_without | | ].
  - rewrite Z.add_0_r. apply readers_bits. intros n Hl. rewrite without_bit by lia. by case_bool_decide; [lia | rewrite andb_true_r].
  - rewrite !closed_bit, without_bit by lia. by case_bool_decide; [lia | rewrite andb_true_r].
Qed.

Lemma acquire_step old new : acquire_next old = Some new -> closed old = false /\ word_step old new 1 false.
Proof.
  unfold acquire_next. fold (closed old). fold (readers old). destruct (closed old) eqn:Ec; [done | ].
  destruct (Z.eqb_spec (readers old) READERS) as [|Hr]; [done | ]. intros [= <-]. destruct (incr_div old Hr) as [Ed Er].
  split; [done | ]. unfold word_step; splits; [ | done | ].
  - unfold is_u. intros Hu. lia.
  - by rewrite closed_bit, (counter_bit (old + 1) old), <- closed_bit by (done || lia).
Qed.

Lemma decr_step v : readers v <> 0 -> word_step v (v - 1) (-1) (closed v).
Proof.
  intros Hr. destruct (decr_div v Hr) as [Ed Er]. unfold word_step; splits; [ | lia | ].
  - unfold is_u. rewrite readers_mod in Hr. intros Hu. lia.
  - by rewrite !closed_bit, (counter_bit (v - 1) v) by (done || lia).
Qed.

Lemma retry_bit n : 0 <= n -> Z.testbit RETRY n = bool_decide (n = 32 \/ n = 33).
Proof.
  intros Hn. change RETRY with (Z.lor (Z.shiftl 1 32) (Z.shiftl 1 33)).
  rewrite lor_bit, Z.shiftl_1_l, Z.pow2_bits_eqb by lia. repeat case_bool_decide; lia.
Qed.

Lemma release_step v : readers v <> 0 -> word_step v (release_next v) (-1) (closed v) /\ was_read (release_next v) = true.
Proof.
  intros Hr. destruct (decr_step v Hr) as (Hu & Hd & Hc). unfold release_next, ACCESSED.
  destruct (set_bit_step (without (v - 1) RETRY) 63 ltac:(lia) ltac:(lia)) as (Hu' & Hd' & Hc'). split.
  - unfold word_step; splits; [intros H; by apply Hu', is_u_without, Hu | rewrite Hd', Z.add_0_r, <- Hd | rewrite Hc', <- Hc].
    + apply readers_bits. intros n Hl. unfold without. rewrite Z.ldiff_spec, retry_bit by lia.
      case_bool_decide; [lia | by rewrite andb_true_r].
    + rewrite !closed_bit. unfold without. rewrite Z.ldiff_spec, retry_bit by lia. by rewrite andb_true_r.
  - rewrite was_read_bit, lor_bit by lia. by rewrite bool_decide_true, orb_true_r.
Qed.

Lemma retry_field_bit r n : 0 <= r <= 2 -> 0 <= n -> n <> 32 -> n <> 33 -> Z.testbit (Z.shiftl (r + 1) RETRY_SHIFT) n = false.
Proof.
  intros Hr Hn H1 H2. assert (r = 0 \/ r = 1 \/ r = 2) as [->|[->| ->]] by lia; unfold RETRY_SHIFT.
  - change (0 + 1) with 1. rewrite Z.shiftl_1_l, Z.pow2_bits_eqb by lia. lia.
  - change (Z.shiftl (1 + 1) 32) with (Z.shiftl 1 33). rewrite Z.shiftl_1_l, Z.pow2_bits_eqb by lia. lia.
  - change (Z.shiftl (2 + 1) 32) with RETRY. rewrite retry_bit by lia. case_bool_decide; lia.
Qed.

Lemma abort_bit r v n : 0 <= r <= 2 -> 0 <= n -> n <> 32 -> n <> 33 -> Z.testbit (abort_next r v) n = Z.testbit v n && negb (bool_decide (n = 62)).
Proof.
  intros Hr Hn H1 H2. unfold abort_next, without. rewrite Z.lor_spec, retry_field_bit, orb_false_r, Z.ldiff_spec, Z.lor_spec, retry_bit by lia.
  unfold CLOSED. rewrite Z.shiftl_1_l, Z.pow2_bits_eqb by lia. do 2 f_equal. repeat case_bool_decide; lia.
Qed.

Lemma abort_step r v : 0 <= r <= 2 -> word_step v (abort_next r v) 0 false.
Proof.
  intros Hr. unfold word_step. splits.
  - intros [H0 H]%is_u_testbit; [ | lia]. apply is_u_testbit; [lia | ]. split.
    + apply Z.lor_nonneg. split; [by apply Z.ldiff_nonneg; left | ]. apply Z.shiftl_nonneg. lia.
    + intros i Hi. by rewrite abort_bit, H by lia.
  - rewrite Z.add_0_r. apply readers_bits. intros n Hl. rewrite abort_bit by lia. case_bool_decide; [lia | by rewrite andb_true_r].
  - rewrite closed_bit, abort_bit by lia. by rewrite bool_decide_true, andb_false_r.
Qed.

(** The mark of a read survives everything but a selection. *)
Lemma acquire_read old new : acquire_next old = Some new -> was_read new = was_read old.
Proof.
  unfold acquire_next. fold (readers old). destruct (Z.eqb_spec (readers old) READERS) as [|Hr]; [by rewrite orb_true_r | ].
  destruct (has old CLOSED); [done | ]. intros [= <-]. rewrite !was_read_bit. apply counter_bit; [lia | ]. by apply incr_div.
Qed.

Lemma decr_read v : readers v <> 0 -> was_read (v - 1) = was_read v.
Proof. intros Hr. rewrite !was_read_bit. apply counter_bit; [lia | ]. by apply decr_div. Qed.

Lemma set_bit_read v k : 0 <= k -> was_read v = true -> was_read (Z.lor v (Z.shiftl 1 k)) = true.
Proof. intros Hk. rewrite !was_read_bit. intros H. by rewrite lor_bit, H by lia. Qed.

Lemma reopen_read v : was_read (without v CLOSED) = was_read v.
Proof. rewrite !was_read_bit. unfold CLOSED. rewrite without_bit by lia. by rewrite andb_true_r. Qed.

Lemma abort_read r v : 0 <= r <= 2 -> was_read (abort_next r v) = was_read v.
Proof. intros Hr. rewrite !was_read_bit, abort_bit by lia. by rewrite andb_true_r. Qed.

(** ** What a task holds *)

(** The read guards of a page. *)
Fixpoint guards (h : nat) (pc : Pc) : bool :=
  match pc with
  | Reading h' _ | ReleaseFailed h' | Release h' | ReleaseLoop h' _ => bool_decide (h' = h)
  | Touch _ _ next | TouchLoop _ _ _ next | Mark _ _ next | Dirty _ next | Insert _ next => guards h next
  | _ => false
  end.

(** The mutex of the block. *)
Fixpoint in_block (pc : Pc) : bool :=
  match pc with
  | Panicked _ | Leave _ | Bind _ _ _ _ | Accessed _ _ _ | ScanAge _ _ _ _ _ | Select _ _ _ | ClaimExchange _ _ | ClaimAge _
  | ClaimReopen _ | Finished | CloseLoad _ _ _ | CloseExchange _ _ _ _ _ | Consume _ | Swap _ _ | Sample _ _ | SampleAge _ _ _ _ _ => true
  | AcquireLoop _ _ _ locked | Reopen _ locked => locked
  | Touch _ _ next | TouchLoop _ _ _ next | Mark _ _ next | Dirty _ next | Insert _ next => in_block next
  | _ => false
  end.

(** The gate. *)
Fixpoint hold (pc : Pc) : Hold :=
  match pc with
  | Panicked g | Leave g | Register _ _ _ g | Bind _ _ _ g | Accessed _ _ g => g
  | Claim _ | ClaimExchange _ _ | ClaimAge _ | ClaimReopen _ | Unlink _ | Finish _ | Abort _ | Finished | Emptied
  | CloseAll _ | CloseLoad _ _ _ | CloseExchange _ _ _ _ _ | UnlinkAll _ _ | FinishAll _ _ | Reopen _ _ => BlockGate
  | Touch _ _ next | TouchLoop _ _ _ next | Mark _ _ next | Dirty _ next | Insert _ next => hold next
  | _ => NoGate
  end.
Definition owns (pc : Pc) : bool := match hold pc with BlockGate => true | _ => false end.
Definition fills_in (pc : Pc) : bool := match hold pc with FillGate => true | _ => false end.

(** The pages it has closed. *)
Definition closes (pc : Pc) : list nat :=
  match pc with
  | ClaimAge e | ClaimReopen e | Unlink e | Finish e | Abort e => [c_handle (candidate e)]
  | CloseLoad _ _ l | CloseExchange _ _ _ _ l | UnlinkAll _ l | FinishAll _ l | Reopen l _ => l
  | _ => []
  end.

Fixpoint tally (f : Pc -> bool) (ts : list Pc) : nat :=
  match ts with [] => 0 | pc :: ts => Nat.b2n (f pc) + tally f ts end.

Lemma tally_insert f ts i pc pc' : ts !! i = Some pc -> (tally f (<[i := pc']> ts) + Nat.b2n (f pc) = tally f ts + Nat.b2n (f pc'))%nat.
Proof.
  revert i. induction ts as [|t ts IH]; intros [|i] E; simpl in *; try discriminate.
  - injection E as ->. lia.
  - specialize (IH i E). lia.
Qed.

Lemma tally_app f ts ts' : tally f (ts ++ ts') = (tally f ts + tally f ts')%nat.
Proof. induction ts as [|t ts IH]; simpl; [done | rewrite IH; lia]. Qed.

Lemma tally_pos f ts i pc : ts !! i = Some pc -> f pc = true -> (0 < tally f ts)%nat.
Proof. revert i. induction ts as [|t ts IH]; intros [|i] E F; simplify_eq/=; [rewrite F; simpl; lia | specialize (IH i E F); lia]. Qed.

Lemma tally_one f ts i j a b : (tally f ts <= 1)%nat -> ts !! i = Some a -> ts !! j = Some b -> f a = true -> f b = true -> i = j.
Proof.
  revert i j. induction ts as [|t ts IH]; intros [|i] [|j] Hl Ei Ej Fa Fb; simplify_eq/=; try done.
  - rewrite Fa in Hl. pose proof (tally_pos f ts j b Ej Fb). simpl in Hl. lia.
  - rewrite Fb in Hl. pose proof (tally_pos f ts i a Ei Fa). simpl in Hl. lia.
  - f_equal. apply IH; [lia | done..].
Qed.

Lemma tally_zero f ts i pc : tally f ts = 0%nat -> ts !! i = Some pc -> f pc = false.
Proof. intros H E. destruct (f pc) eqn:F; [ | done]. pose proof (tally_pos f ts i pc E F). lia. Qed.

Lemma alter_inv {A} (f : A -> A) (l : list A) i j x : alter f i l !! j = Some x -> (j = i /\ exists y, l !! i = Some y /\ x = f y) \/ (j <> i /\ l !! j = Some x).
Proof.
  rewrite list_lookup_alter. destruct (decide (i = j)) as [->|Hn]; [ | by right].
  rewrite fmap_Some. intros (y & Hy & ->). left. eauto.
Qed.

(** ** The locks *)

(** Reduce projections of updated worlds, and the classification of tasks, and nothing else. *)
Tactic Notation "proj" "in" hyp_list(H) :=
  cbn [heap block work inner gate shard_lock checkpointing saved set_heap set_block set_work set_inner set_gate set_shard_lock
    set_checkpointing set_saved on_page set_word pages revision checkpointed_revision cleanup_pending retries set_pages set_revision
    set_checkpointed set_cleanup set_retries track_access work_since summary pending set_since set_summary set_pending fills owned unlock
    leave leave_gate guards in_block hold closes handle selection state recency last_access dirty_since set_state set_last set_dirty
    fst snd negb andb orb Nat.b2n pred] in H.
Ltac proj_all := cbn [heap block work inner gate shard_lock checkpointing saved set_heap set_block set_work set_inner set_gate set_shard_lock
    set_checkpointing set_saved on_page set_word pages revision checkpointed_revision cleanup_pending retries set_pages set_revision
    set_checkpointed set_cleanup set_retries track_access work_since summary pending set_since set_summary set_pending fills owned unlock
    leave leave_gate guards in_block hold closes handle selection state recency last_access dirty_since set_state set_last set_dirty
    fst snd negb andb orb Nat.b2n pred] in *.

(** The cases of a step. *)
Ltac by_exec E :=
  cbn [exec] in E;
  unfold acquire, acquire_page, end_read, release, touch, mark, dirty, insert, register, bind, accessed, candidate_of, scan_page,
    scan_age, select, claim, claim_exchange, claim_age, claim_reopen, finish, abort, emptied, close_all, close_load, close_exchange,
    finish_all, reopen, checkpoint, consume, swap, sample, sample_age, flush, commit, rollback, changed, locked, leave, leave_gate in E;
  repeat match type of E with context [match ?x with _ => _ end] => destruct x eqn:?; try discriminate E; proj in E end;
  injection E as <- <-.

Record locks (w : World) (ts : list Pc) : Prop := {
  l_inner : tally in_block ts = Nat.b2n (inner w);
  l_owner : tally owns ts = Nat.b2n (owned (gate w));
  l_fills : tally fills_in ts = fills (gate w);
  l_gate : owned (gate w) = true -> fills (gate w) = 0%nat;
}.

(** The effect of a step on the locks, given that the task holds what it is to hold. *)
Definition lock_step (w : World) (pc : Pc) (w' : World) (pc' : Pc) : Prop :=
  (Nat.b2n (inner w') + Nat.b2n (in_block pc) = Nat.b2n (inner w) + Nat.b2n (in_block pc'))%nat /\
  (Nat.b2n (owned (gate w')) + Nat.b2n (owns pc) = Nat.b2n (owned (gate w)) + Nat.b2n (owns pc'))%nat /\
  (fills (gate w') + Nat.b2n (fills_in pc) = fills (gate w) + Nat.b2n (fills_in pc'))%nat /\
  (owned (gate w') = true -> fills (gate w') = 0%nat).

Lemma locks_step w ts i pc w' pc' : locks w ts -> ts !! i = Some pc -> lock_step w pc w' pc' -> locks w' (<[i := pc']> ts).
Proof.
  intros [H1 H2 H3 H4] E (L1 & L2 & L3 & L4).
  pose proof (tally_insert in_block ts i pc pc' E). pose proof (tally_insert owns ts i pc pc' E). pose proof (tally_insert fills_in ts i pc pc' E).
  constructor; [lia | lia | lia | done].
Qed.

Lemma lock_some g g' : lock g = Some g' -> owned g = false /\ fills g = 0%nat /\ g' = mkGate 0 true.
Proof. unfold lock. destruct (owned g); [done | ]. case_bool_decide; [ | done]. by intros [= <-]. Qed.

Lemma enter_fill g g' : enter FillGate g = Some g' -> owned g = false /\ g' = mkGate (S (fills g)) false.
Proof. simpl. unfold lock_page_fill. destruct (owned g); [done | ]. by intros [= <-]. Qed.

Lemma exec_locks w ts i pc ok w' pc' : locks w ts -> ts !! i = Some pc -> exec w pc ok = (w', pc') -> lock_step w pc w' pc'.
Proof.
  intros [H1 H2 H3 H4] E Ex.
  assert (in_block pc = true -> inner w = true) as Hi.
  { intros F. pose proof (tally_pos _ _ _ _ E F). destruct (inner w); [done | simpl in *; lia]. }
  assert (owns pc = true -> owned (gate w) = true) as Ho.
  { intros F. pose proof (tally_pos _ _ _ _ E F). destruct (owned (gate w)); [done | simpl in *; lia]. }
  assert (fills_in pc = true -> (0 < fills (gate w))%nat) as Hf by (intros F; pose proof (tally_pos _ _ _ _ E F); lia).
  clear H1 H2 H3 E. destruct pc; by_exec Ex; unfold lock_step, owns, fills_in in *; proj_all;
    repeat (case_match; try discriminate; proj_all); try (splits; first [done | lia | tauto]).
  - cbn in *. simplify_eq. splits; (done || lia).
  - apply enter_fill in Heqo as (-> & ->). proj_all. splits; (done || lia).
  - apply lock_some in Heqo as (-> & -> & ->). proj_all. splits; (done || lia).
  - apply lock_some in Heqo as (-> & -> & ->). proj_all. splits; (done || lia).
  - apply lock_some in Heqo as (-> & -> & ->). proj_all. splits; (done || lia).
Qed.

End PageTasks.
