(* ===== verification/PageClaims.v ===== *)
(** Readers and evictions of a block exclude each other (page_lifecycle.rs; the code is in [PageLifecycle]). *)

From S2P Require Import Prelude PageLifecycle PageTasks.

#[local] Set Warnings "-clear-no-such-hyp".

Module PageClaims.
Import PageLifecycle PageTasks.

(** ** The counters *)

(** Where the code goes on after marking a page or a block. *)
Definition resumes (pc : Pc) : bool :=
  match pc with Release _ | Accessed _ _ _ | Leave _ | Finished | Rollback _ _ | EndCheckpoint => true | _ => false end.

(** What a task remembers of a word it is about to exchange, and of its arguments. *)
Fixpoint local (pc : Pc) : Prop :=
  match pc with
  | ClaimExchange e v => has v (Z.lor READERS (Z.lor CLOSED ACCESSED)) = false /\ 0 <= reason e <= 2
  | CloseExchange _ _ flags _ _ => has flags (Z.lor READERS CLOSED) = false
  | Select _ _ flags => closed flags = false
  | Evict e | Claim e | ClaimAge e | ClaimReopen e | Unlink e | Finish e | Abort e => 0 <= reason e <= 2
  | Touch h _ next | TouchLoop h _ _ next | Mark h _ next => (guards h next = true \/ hold next <> NoGate) /\ resumes next = true /\ local next
  | Dirty _ next | Insert _ next => resumes next = true /\ local next
  | Bind _ _ _ g | Accessed _ _ g | Fill _ _ _ g | Register _ _ _ g => g <> NoGate
  | _ => True
  end.

(** The pages that a task works on have been allocated. *)
Fixpoint valid (n : nat) (pc : Pc) : Prop :=
  match pc with
  | AcquireLoop h _ _ _ | Reading h _ | ReleaseFailed h | Release h | ReleaseLoop h _ | Bind h _ _ _ => (h < n)%nat
  | Touch h _ next | TouchLoop h _ _ next | Mark h _ next => (h < n)%nat /\ valid n next
  | Dirty _ next | Insert _ next => valid n next
  | _ => True
  end.

Record words (w : World) (ts : list Pc) : Prop := {
  w_local : forall i pc, ts !! i = Some pc -> local pc;
  w_valid : forall i pc, ts !! i = Some pc -> valid (length (heap w)) pc;
  w_word : forall h s, heap w !! h = Some s -> is_u64 (state s) /\ readers (state s) = Z.of_nat (tally (guards h) ts) /\
    (closed (state s) = true -> tally (guards h) ts = 0%nat);
  w_table : forall p e, pages (block w) !! p = Some e -> (handle e < length (heap w))%nat;
}.

Definition words_step (w : World) (pc : Pc) (w' : World) (pc' : Pc) : Prop :=
  (length (heap w) <= length (heap w'))%nat /\
  forall h s', heap w' !! h = Some s' ->
    (length (heap w) <= h)%nat /\ state s' = 0 /\ guards h pc' = false \/
    exists s, heap w !! h = Some s /\ (is_u64 (state s) -> is_u64 (state s')) /\
      readers (state s') + Z.b2z (guards h pc) = readers (state s) + Z.b2z (guards h pc') /\
      (closed (state s') = true -> closed (state s) = true /\ guards h pc' = guards h pc \/ readers (state s) = 0 /\ guards h pc' = false) /\
      (closed (state s) = true -> closed (state s') = true \/ h ∈ closes pc) /\
      (closed (state s') = true -> closed (state s) = true \/ h ∈ closes pc').

Lemma words_same w pc w' pc' : heap w' = heap w -> (forall h, guards h pc' = guards h pc) -> words_step w pc w' pc'.
Proof. intros E G. split; [by rewrite E | ]. intros h s'. rewrite E, G. intros Hs. right. exists s'. splits; auto. Qed.

Lemma words_alter w pc w' pc' h0 f : heap w' = alter f h0 (heap w) -> (forall s, state (f s) = state s) ->
  (forall h, guards h pc' = guards h pc) -> words_step w pc w' pc'.
Proof.
  intros E F G. split; [by rewrite E, length_alter | ]. intros h s'. rewrite E, G.
  intros [(-> & s & Hs & ->)|[_ Hs]]%alter_inv; right; [exists s | exists s']; splits; rewrite ?F; auto.
Qed.

Lemma words_set w pc w' pc' h0 v d c : heap w' = alter (set_state v) h0 (heap w) -> word_step (word w h0) v d c ->
  (forall h, h <> h0 -> guards h pc' = guards h pc) -> Z.b2z (guards h0 pc') = Z.b2z (guards h0 pc) + d ->
  (c = true -> closed (word w h0) = true /\ d = 0 \/ readers (word w h0) = 0 /\ guards h0 pc' = false) ->
  c = closed (word w h0) \/ c = false /\ h0 ∈ closes pc \/ c = true /\ h0 ∈ closes pc' -> words_step w pc w' pc'.
Proof.
  intros E (Hu & Hr & Hc) G Gd Hk Hm. split; [by rewrite E, length_alter | ]. intros h s'. rewrite E.
  intros [(-> & s & Hs & ->)|[Hn Hs]]%alter_inv; right; [ | exists s'; rewrite G by done; splits; auto].
  exists s. unfold word, page_of in *. rewrite Hs in *. cbn [default from_option id] in *. proj_all.
  splits; [done | done | lia | | destruct Hm as [|[[-> ?]|[-> ?]]]; [left; congruence | by right | by left] |
    destruct Hm as [|[[-> ?]|[-> ?]]]; [left; congruence | congruence | by right]].
  rewrite Hc. intros Hct. destruct (Hk Hct) as [[? ->]| ?]; [left | by right]. split; [done | ]. destruct (guards h0 pc), (guards h0 pc'); done || lia.
Qed.

Lemma words_guarded w ts i pc h : words w ts -> ts !! i = Some pc -> guards h pc = true -> (h < length (heap w))%nat ->
  readers (word w h) <> 0 /\ closed (word w h) = false.
Proof.
  intros Hw E G [s Hs]%lookup_lt_is_Some. destruct (w_word _ _ Hw h s Hs) as (_ & Hr & Hc). unfold word, page_of. rewrite Hs. simpl.
  pose proof (tally_pos _ _ _ _ E G). split; [lia | ]. destruct (closed (state s)); [ | done]. specialize (Hc eq_refl). lia.
Qed.

Lemma has_or v a b : has v (Z.lor a b) = has v a || has v b.
Proof.
  unfold has. rewrite Z.land_lor_distr_r. destruct (Z.eqb_spec (Z.land v a) 0) as [->|Ha]; [by rewrite Z.lor_0_l | ].
  simpl. apply negb_true_iff, Z.eqb_neq. intros [? ?]%Z.lor_eq_0_iff. done.
Qed.

Lemma has_no_readers v : has v READERS = false -> readers v = 0.
Proof. unfold has, readers. intros H%negb_false_iff. lia. Qed.

Lemma words_kept w pc w' pc' h0 v c : heap w' = alter (set_state v) h0 (heap w) -> word_step (word w h0) v 0 c ->
  (forall h, guards h pc' = guards h pc) -> c = closed (word w h0) \/ c = false /\ h0 ∈ closes pc -> words_step w pc w' pc'.
Proof.
  intros E S G Hc. eapply words_set; [done | done | by intros | rewrite G; lia | | tauto]. intros ->. destruct Hc as [<-|[? _]]; [by left | done].
Qed.

Lemma words_closed w pc w' pc' h0 : heap w' = alter (set_state (Z.lor (word w h0) CLOSED)) h0 (heap w) -> readers (word w h0) = 0 ->
  (forall h, guards h pc' = guards h pc) -> guards h0 pc = false -> h0 ∈ closes pc' -> words_step w pc w' pc'.
Proof.
  intros E R G G0 Hc. eapply words_set; [done | apply close_step | by intros | rewrite G; lia | | auto]. intros _. right. by rewrite G.
Qed.

Lemma exec_words w ts i pc ok w' pc' : words w ts -> ts !! i = Some pc -> exec w pc ok = (w', pc') -> words_step w pc w' pc'.
Proof.
  intros Hw E Ex. pose proof (w_local _ _ Hw i pc E) as Hl. pose proof (w_valid _ _ Hw i pc E) as Hv.
  pose proof (fun h G => words_guarded w ts i pc h Hw E G) as Hg. clear E Hw.
  destruct pc; by_exec Ex; cbn [guards] in Hg; 
    try (apply words_same; [reflexivity | intros ?; reflexivity]);
    try (eapply words_alter; [reflexivity | intros ?; reflexivity | intros ?; reflexivity]);
    try (eapply words_kept; [reflexivity | apply reopen_step | intros ?; reflexivity | right; split; [done | apply list_elem_of_here]]);
    try (eapply words_kept; [reflexivity | by apply set_bit_step | intros ?; reflexivity | by left]).
  1,2: apply acquire_step in Heqo as [Hc Hs]; apply andb_true_iff in Heqb as [<-%Z.eqb_eq _];
    eapply words_set; [reflexivity | exact Hs | | | done | by left]; cbn [guards]; [intros; by apply bool_decide_false | by rewrite bool_decide_true].
  - destruct (Hg h) as [Hr Hc]; [by apply bool_decide_true | done | ]. pose proof (decr_step _ Hr) as Hs. rewrite Hc in Hs.
    eapply words_set; [reflexivity | exact Hs | | | done | by left]; cbn [guards]; [intros; by rewrite bool_decide_false | by rewrite bool_decide_true].
  - destruct (Hg h) as [Hr Hc]; [by apply bool_decide_true | done | ]. apply andb_true_iff in Heqb as [<-%Z.eqb_eq _].
    destruct (release_step _ Hr) as [Hs _]. rewrite Hc in Hs.
    eapply words_set; [reflexivity | exact Hs | | | done | by left]; cbn [guards]; [intros; by rewrite bool_decide_false | by rewrite bool_decide_true].
  - split; [proj_all; rewrite length_app; simpl; lia | ]. intros h s' [Hs|[Hlt [_ <-]%list_lookup_singleton_Some]]%lookup_app_Some.
    + right. exists s'. splits; auto.
    + left. done.
  - apply Z.eqb_eq in Heqb; rewrite <- Heqb; eapply words_kept; [reflexivity | apply select_step | done | by left].
  - apply Z.eqb_eq in Heqb; rewrite <- Heqb; eapply words_kept; [reflexivity | apply select_step | done | by left].
  - apply Z.eqb_eq in Heqb; rewrite <- Heqb; eapply words_kept; [reflexivity | apply select_step | done | by left].
  - apply Z.eqb_eq in Heqb as <-. destruct Hl as [Hl _]. rewrite has_or in Hl. apply orb_false_iff in Hl as [Hl _].
    by apply (words_closed _ _ _ _ (c_handle (candidate e))); [ | apply has_no_readers | | | apply list_elem_of_here].
  - eapply words_kept; [reflexivity | by apply abort_step | done | right; split; [done | apply list_elem_of_here]].
  - apply Z.eqb_eq in Heqb as <-. cbn [local] in Hl. rewrite has_or in Hl. apply orb_false_iff in Hl as [Hl _].
    by apply (words_closed _ _ _ _ h); [ | apply has_no_readers | | | apply list_elem_of_here].
Qed.

Lemma exec_local w pc ok w' pc' : local pc -> exec w pc ok = (w', pc') -> local pc'.
Proof.
  intros Hl Ex. destruct pc; by_exec Ex; cbn [local guards hold resumes] in *; try tauto.
  - by rewrite bool_decide_true by done; auto.
  - apply andb_true_iff in Heqb as [Hf%negb_true_iff _]. rewrite has_or in Hf. by apply orb_false_iff in Hf as [? _].
  - apply andb_true_iff in Heqb1 as [_ Hf%negb_true_iff]. done.
Qed.

Lemma valid_mono n m pc : (n <= m)%nat -> valid n pc -> valid m pc.
Proof. intros Hn. induction pc; simpl; auto; try lia; (intros [? ?]; split; [lia | auto]). Qed.

Lemma exec_valid w pc ok w' pc' : valid (length (heap w)) pc -> (forall p e, pages (block w) !! p = Some e -> (handle e < length (heap w))%nat) ->
  exec w pc ok = (w', pc') -> valid (length (heap w')) pc'.
Proof.
  intros Hv Ht Ex. destruct pc; by_exec Ex; cbn [valid] in *; proj_all; rewrite ?length_alter; try tauto; try (by eauto).
  - by apply bool_decide_eq_true in Heqb.
  - rewrite length_app. simpl. lia.
Qed.

Lemma exec_table w pc ok w' pc' : (forall p e, pages (block w) !! p = Some e -> (handle e < length (heap w))%nat) ->
  exec w pc ok = (w', pc') -> forall p e, pages (block w') !! p = Some e -> (handle e < length (heap w'))%nat.
Proof.
  intros Ht Ex. destruct pc; by_exec Ex; proj_all; rewrite ?length_alter; try done.
  - intros p e. rewrite length_app, lookup_insert_Some. simpl. intros [[_ <-]|[_ He%Ht]]; simpl; lia.
  - intros q e. rewrite lookup_insert_Some. intros [[_ <-]|[_ He%Ht]]; [simpl; eauto | done].
  - intros p f [_ Hf]%lookup_delete_Some. eauto.
  - intros p f [_ Hf]%lookup_delete_Some. eauto.
  - intros p f [_ Hf]%lookup_delete_Some. eauto.
  - intros p f [_ Hf]%lookup_delete_Some. eauto.
Qed.

Lemma guards_valid n h pc : guards h pc = true -> valid n pc -> (h < n)%nat.
Proof. induction pc; simpl; auto; try done; try (intros ->%bool_decide_eq_true; done); intros ? [? ?]; auto. Qed.

Lemma tally_none f ts : (forall i pc, ts !! i = Some pc -> f pc = false) -> tally f ts = 0%nat.
Proof.
  induction ts as [|t ts IH]; intros H; simpl; [done | ]. rewrite (H 0%nat t eq_refl), IH; [done | ]. intros i. apply (H (S i)).
Qed.

Lemma words_preserved w ts i pc ok w' pc' : words w ts -> ts !! i = Some pc -> exec w pc ok = (w', pc') -> words w' (<[i := pc']> ts).
Proof.
  intros Hw E Ex. destruct (exec_words _ _ _ _ _ _ _ Hw E Ex) as [Hlen Hst].
  assert (forall j q, <[i := pc']> ts !! j = Some q -> (q = pc' \/ ts !! j = Some q)) as Hin.
  { intros j q [(_ & -> & _)|[_ ?]]%list_lookup_insert_Some; auto. }
  constructor.
  - intros j q [->|Hq]%Hin; [eapply exec_local; [by eapply w_local | done] | by eapply w_local].
  - intros j q [->|Hq]%Hin; [eapply exec_valid; [by eapply w_valid | by eapply w_table | done] | ].
    eapply valid_mono; [exact Hlen | by eapply w_valid].
  - intros h s' Hs'. pose proof (tally_insert (guards h) ts i pc pc' E) as Ht.
    destruct (Hst h s' Hs') as [(Hh & Hz & G)|(s & Hs & Hu & Hr & Hc & _)].
    + assert (forall j q, ts !! j = Some q -> guards h q = false) as Hf.
      { intros j q Hq. destruct (guards h q) eqn:Gq; [ | done]. pose proof (guards_valid _ _ _ Gq (w_valid _ _ Hw j q Hq)). lia. }
      rewrite (tally_none _ _ Hf), (Hf _ _ E), G in Ht. simpl in Ht. rewrite Hz. splits; [done | | lia].
      change (readers 0) with 0. lia.
    + destruct (w_word _ _ Hw h s Hs) as (Hu0 & Hr0 & Hc0). splits; [auto | | ].
      * destruct (guards h pc), (guards h pc'); simpl in *; lia.
      * intros Hc'. destruct (Hc Hc') as [[Hc1 Hg]|[Hr1 Hg]].
        -- specialize (Hc0 Hc1). destruct (guards h pc), (guards h pc'); simpl in *; lia || done.
        -- rewrite Hg in *. destruct (guards h pc); simpl in *; lia.
  - eapply exec_table; [by eapply w_table | done].
Qed.

(** ** Closed pages *)

Definition resident (w : World) (h : nat) : Prop := exists p e, pages (block w) !! p = Some e /\ handle e = h.

(** What a task knows of the pages that it has closed or is to close. *)
Definition claim_of (w : World) (pc : Pc) : Prop :=
  match pc with
  | ScanAge page h _ _ _ | Select page h _ => exists e, pages (block w) !! page = Some e /\ handle e = h
  | ClaimExchange e _ => is_candidate (candidate e) w = true
  | ClaimAge e | ClaimReopen e | Finish e | Abort e => is_candidate (candidate e) w = true /\ closed (word w (c_handle (candidate e))) = true
  | Unlink e => is_candidate (candidate e) w = true /\ closed (word w (c_handle (candidate e))) = true /\
      forall tti, tti_of e = Some tti -> expired (last_access_of (page_of w (c_handle (candidate e)))) (claim_at e) tti = true
  | CloseLoad _ todo l => NoDup (todo ++ l) /\ (forall h, h ∈ todo ++ l <-> resident w h) /\ Forall (fun h => closed (word w h) = true) l
  | CloseExchange _ h _ todo l =>
    NoDup (h :: todo ++ l) /\ (forall h', h' ∈ h :: todo ++ l <-> resident w h') /\ Forall (fun h => closed (word w h) = true) l
  | UnlinkAll _ l | FinishAll _ l => NoDup l /\ (forall h, h ∈ l <-> resident w h) /\ Forall (fun h => closed (word w h) = true) l
  | Reopen l _ => NoDup l /\ Forall (fun h => resident w h /\ closed (word w h) = true) l
  | _ => True
  end.

Record claims (w : World) (ts : list Pc) : Prop := {
  c_inj : forall p q e f, pages (block w) !! p = Some e -> pages (block w) !! q = Some f -> handle e = handle f -> p = q;
  c_dead : forall h, (h < length (heap w))%nat -> ~ resident w h -> closed (word w h) = true;
  c_held : forall i pc, ts !! i = Some pc -> claim_of w pc;
  c_leak : forall h, resident w h -> closed (word w h) = true -> exists i pc, ts !! i = Some pc /\ h ∈ closes pc;
}.

(** A task that is outside the mutex of the block cannot change what the mutex protects while another is inside. *)
Lemma exec_outside w pc ok w' pc' : inner w = true -> in_block pc = false -> exec w pc ok = (w', pc') -> block w' = block w.
Proof. intros Hi Hb Ex. destruct pc; by_exec Ex; cbn [in_block] in Hb; proj_all; done. Qed.

Lemma page_alter w w' f h0 h : heap w' = alter f h0 (heap w) -> (h < length (heap w))%nat ->
  page_of w' h = if decide (h = h0) then f (page_of w h) else page_of w h.
Proof.
  intros E [s Hs]%lookup_lt_is_Some. unfold page_of. rewrite E, list_lookup_alter, Hs.
  destruct (decide (h0 = h)) as [->|]; [rewrite decide_True by done; by rewrite Hs | by rewrite decide_False by done].
Qed.

Lemma last_kept w w' f h0 h : heap w' = alter f h0 (heap w) -> (h < length (heap w))%nat -> h <> h0 \/ (forall s, last_access (f s) = last_access s) ->
  last_access (page_of w' h) = last_access (page_of w h).
Proof. intros E Hlt Hf. rewrite (page_alter _ _ _ _ _ E Hlt). destruct (decide (h = h0)); [destruct Hf as [|Hf]; [done | apply Hf] | done]. Qed.

(** The time of a page is changed by its readers and by fills. *)
Lemma exec_last w pc ok w' pc' h : local pc -> exec w pc ok = (w', pc') -> guards h pc = false -> hold pc = NoGate ->
  (h < length (heap w))%nat -> last_access (page_of w' h) = last_access (page_of w h).
Proof.
  intros Hl Ex Hg Hh Hlt. destruct pc; by_exec Ex; cbn [local guards hold] in *; proj_all; try done;
    try (eapply last_kept; [reflexivity | done | by right]).
  eapply last_kept; [reflexivity | done | left]. intros ->. destruct Hl as [[?|?] _]; congruence.
Qed.

(** How the table changes. *)
Inductive table_step (w : World) : Pc -> World -> Prop :=
  | TSame pc w' : pages (block w') = pages (block w) -> (length (heap w') = length (heap w)) -> table_step w pc w'
  | TNew page access now g w' : pages (block w) !! page = None ->
    pages (block w') = <[page := mkEntry (length (heap w)) 0]> (pages (block w)) ->
    heap w' = heap w ++ [new_page] -> table_step w (Register page access now g) w'
  | TSelect page h flags e n w' : word w h = flags -> pages (block w) !! page = Some e -> n = selection e + 1 ->
    pages (block w') = <[page := mkEntry (handle e) n]> (pages (block w)) -> length (heap w') = length (heap w) ->
    table_step w (Select page h flags) w'
  | TDelete e w' : pages (block w') = delete (c_page (candidate e)) (pages (block w)) -> heap w' = heap w -> table_step w (Finish e) w'
  | TClear now l w' : pages (block w') = ∅ -> heap w' = heap w -> table_step w (FinishAll now l) w'.

Lemma exec_pages w pc ok w' pc' : exec w pc ok = (w', pc') -> table_step w pc w'.
Proof.
  intros Ex. destruct pc; by_exec Ex; try (apply TSame; proj_all; rewrite ?length_alter; done); try (by eapply TNew);
    try (by eapply TDelete); try (by eapply TClear).
  unfold checked_add in Heqo0. destruct (_ <? _); [ | done]. injection Heqo0 as <-. apply Z.eqb_eq in Heqb.
  eapply TSelect; [done | done | reflexivity | done | ]. proj_all. by rewrite length_alter.
Qed.

Lemma word_set w w' v h : heap w' = alter (set_state v) h (heap w) -> (h < length (heap w))%nat -> word w' h = v.
Proof. intros E Hlt. unfold word. by rewrite (page_alter _ _ _ _ _ E Hlt), decide_True. Qed.

Lemma candidate_inv c w : is_candidate c w = true -> pages (block w) !! c_page c = Some (mkEntry (c_handle c) (c_selection c)).
Proof.
  unfold is_candidate. destruct (pages (block w) !! c_page c) as [[h n]|]; [ | done]. simpl.
  intros [->%bool_decide_eq_true ->%Z.eqb_eq]%andb_true_iff. done.
Qed.

Lemma gone_deleted w w' c : (forall p q e f, pages (block w) !! p = Some e -> pages (block w) !! q = Some f -> handle e = handle f -> p = q) ->
  is_candidate c w = true -> pages (block w') = delete (c_page c) (pages (block w)) -> ~ resident w' (c_handle c).
Proof.
  intros Hi Hc%candidate_inv E (p & e & He & Hh). rewrite E in He. apply lookup_delete_Some in He as [Hn He].
  apply Hn. eapply Hi; [exact Hc | exact He | done].
Qed.

Lemma gone_cleared w h : pages (block w) = ∅ -> ~ resident w h.
Proof. intros E (p & e & He & _). by rewrite E, lookup_empty in He. Qed.

Lemma exec_closes w pc ok w' pc' h :
  (forall p q e f, pages (block w) !! p = Some e -> pages (block w) !! q = Some f -> handle e = handle f -> p = q) -> local pc -> claim_of w pc -> exec w pc ok = (w', pc') ->
  (h < length (heap w))%nat -> h ∈ closes pc ->
  h ∈ closes pc' \/ closed (word w' h) = false \/ ~ resident w' h.
Proof.
  intros Hi Hl Hc Ex Hlt Hh. destruct pc; by_exec Ex; cbn [closes claim_of] in *; proj_all; try (by left); try (by inversion Hh);
    try (right; right; by apply gone_cleared); try (apply list_elem_of_singleton in Hh as ->);
    try (right; right; destruct Hc as [Hc _]; by apply (gone_deleted _ _ _ Hi Hc)).
  - right; left. erewrite (word_set w); [apply reopen_step | reflexivity | done].
  - exfalso. destruct Hc as [Hc Hk]. change (is_candidate (candidate e) w && closed (word w (c_handle (candidate e))) = false) in Heqb0.
    by rewrite Hc, Hk in Heqb0.
  - right; left. erewrite (word_set w); [by apply (abort_step (reason e)) | reflexivity | done].
  - exfalso. destruct Hc as [Hc _]. change (is_candidate (candidate e) w = false) in Heqb0. congruence.
  - left. by right.
  - apply elem_of_cons in Hh as [->|Hh]; [right; left | by left]. erewrite (word_set w); [apply reopen_step | reflexivity | done].
Qed.

(** *** The other tasks keep what they know *)

Lemma others_excluded w ts i j pc q : locks w ts -> ts !! i = Some pc -> ts !! j = Some q -> i <> j ->
  (in_block q = true -> inner w = true /\ in_block pc = false) /\ (owns q = true -> owned (gate w) = true /\ hold pc = NoGate).
Proof.
  intros [H1 H2 H3 H4] Ei Ej Hn. split; intros Hq.
  - pose proof (tally_pos _ _ _ _ Ej Hq). split; [destruct (inner w); [done | simpl in *; lia] | ].
    destruct (in_block pc) eqn:Hp; [ | done]. exfalso. apply Hn. eapply tally_one; [ | exact Ei | exact Ej | done..].
    destruct (inner w); simpl in *; lia.
  - pose proof (tally_pos _ _ _ _ Ej Hq). assert (owned (gate w) = true) as Ho by (destruct (owned (gate w)); [done | simpl in *; lia]).
    split; [done | ]. destruct (hold pc) eqn:Hp; [done | | ]; exfalso.
    + assert (fills_in pc = true) as Hf by (unfold fills_in; by rewrite Hp). pose proof (tally_pos _ _ _ _ Ei Hf). specialize (H4 Ho). lia.
    + apply Hn. eapply (tally_one owns); [ | exact Ei | exact Ej | unfold owns; by rewrite Hp | done]. rewrite H2, Ho. simpl. lia.
Qed.

Lemma step_closed w pc w' pc' h : words_step w pc w' pc' -> (h < length (heap w))%nat ->
  (closed (word w h) = true -> closed (word w' h) = true \/ h ∈ closes pc) /\
  (closed (word w' h) = true -> closed (word w h) = true \/ h ∈ closes pc').
Proof.
  intros [Hlen Hst] Hlt. destruct (lookup_lt_is_Some_2 (heap w') h ltac:(lia)) as [s' Hs'].
  destruct (Hst h s' Hs') as [[? _]|(s & Hs & _ & _ & _ & H1 & H2)]; [lia | ].
  unfold word, page_of. rewrite Hs, Hs'. simpl. done.
Qed.

Lemma resident_valid w ts h : words w ts -> resident w h -> (h < length (heap w))%nat.
Proof. intros Hw (p & e & He & <-). by eapply w_table. Qed.

Lemma closed_unread w ts i pc h : words w ts -> ts !! i = Some pc -> closed (word w h) = true -> guards h pc = false.
Proof.
  intros Hw E Hc. destruct (guards h pc) eqn:G; [ | done].
  destruct (words_guarded w ts i pc h Hw E G) as [_ Hf]; [eapply guards_valid; [done | by eapply w_valid] | congruence].
Qed.

(** A step that keeps the table up to selections of open pages, and closed pages closed. *)
Record quiet (w w' : World) : Prop := {
  q_resident : forall h, resident w h <-> resident w' h;
  q_entry : forall p e, pages (block w) !! p = Some e -> closed (word w (handle e)) = true -> pages (block w') !! p = Some e;
  q_closed : forall h, resident w h -> closed (word w h) = true -> closed (word w' h) = true;
  q_last : forall h, resident w h -> closed (word w h) = true -> last_access (page_of w' h) = last_access (page_of w h);
}.

Lemma reselected w w' page e n h : pages (block w) !! page = Some e -> pages (block w') = <[page := mkEntry (handle e) n]> (pages (block w)) ->
  resident w h <-> resident w' h.
Proof.
  intros He E. split; intros (p & f & Hf & <-).
  - destruct (decide (p = page)) as [->|Hn].
    + exists page, (mkEntry (handle e) n). rewrite E, lookup_insert_eq. split; [done | simpl; congruence].
    + exists p, f. by rewrite E, lookup_insert_ne.
  - rewrite E in Hf. apply lookup_insert_Some in Hf as [[<- <-]|[_ Hf]]; [exists page, e | exists p, f]; done.
Qed.

Lemma quiet_step w ts i pc ok w' pc' : words w ts -> claims w ts -> ts !! i = Some pc -> exec w pc ok = (w', pc') -> hold pc = NoGate -> quiet w w'.
Proof.
  intros Hw Hc E Ex Hh. pose proof (exec_words _ _ _ _ _ _ _ Hw E Ex) as Hst. pose proof (w_local _ _ Hw i pc E) as Hl.
  assert (closes pc = []) as Hcl by (destruct pc; simpl in Hh; try discriminate; done).
  assert (forall h, resident w h -> closed (word w h) = true -> closed (word w' h) = true) as Hq.
  { intros h Hr Hk. destruct (step_closed _ _ _ _ h Hst) as [H1 _]; [by eapply resident_valid | ].
    destruct (H1 Hk) as [|Hx]; [done | ]. rewrite Hcl in Hx. by inversion Hx. }
  assert (forall h, resident w h -> closed (word w h) = true -> last_access (page_of w' h) = last_access (page_of w h)) as Hla.
  { intros h Hr Hk. eapply exec_last; [done | done | by eapply closed_unread | done | by eapply resident_valid]. }
  destruct (exec_pages _ _ _ _ _ Ex) as [pc w' Ep _|page access now g w' _ _ _|page h flags e n w' Hwd He -> Ep _|e w' _ _|now l w' _ _];
    try discriminate Hh.
  - split; [ | intros; by rewrite Ep | done..]. intros h. unfold resident. by rewrite Ep.
  - done.
  - split; [intros; by eapply reselected | | done..]. intros p f Hf Hk. rewrite Ep. apply lookup_insert_Some. right. split; [ | done].
    intros <-. destruct (c_held _ _ Hc i _ E) as (e' & He' & Hh'). simpl in Hl. congruence.
Qed.

Lemma candidate_resident c w : is_candidate c w = true -> resident w (c_handle c).
Proof. intros H%candidate_inv. by eexists _, _. Qed.

Lemma quiet_candidate w w' c : quiet w w' -> is_candidate c w = true /\ closed (word w (c_handle c)) = true ->
  is_candidate c w' = true /\ closed (word w' (c_handle c)) = true.
Proof.
  intros Q [Hc Hk]. split; [ | apply Q; [by apply candidate_resident | done]].
  apply candidate_inv in Hc. apply (q_entry _ _ Q) in Hc; [ | done].
  unfold is_candidate. rewrite Hc. simpl. by rewrite bool_decide_true, Z.eqb_refl.
Qed.

Lemma quiet_list w w' (l0 l : list nat) : quiet w w' -> l ⊆ l0 -> (forall h, h ∈ l0 <-> resident w h) ->
  Forall (fun h => closed (word w h) = true) l -> (forall h, h ∈ l0 <-> resident w' h) /\ Forall (fun h => closed (word w' h) = true) l.
Proof.
  intros Q Hs Hr Hk. split; [intros h; rewrite Hr; apply Q | ]. rewrite Forall_forall in Hk |- *. intros h Hh.
  apply Q; [by apply Hr, Hs | by apply Hk].
Qed.

Lemma claim_kept w ts i pc ok w' pc' j q : locks w ts -> words w ts -> claims w ts -> ts !! i = Some pc -> exec w pc ok = (w', pc') ->
  ts !! j = Some q -> i <> j -> claim_of w' q.
Proof.
  intros HL Hw Hc E Ex Eq Hn. destruct (others_excluded _ _ _ _ _ _ HL E Eq Hn) as [Hin Hown].
  pose proof (c_held _ _ Hc j q Eq) as Hq.
  assert (in_block q = true -> block w' = block w) as Hb by (intros [? ?]%Hin; by eapply exec_outside).
  assert (owns q = true -> quiet w w') as HQ by (intros [? ?]%Hown; by eapply (quiet_step w ts i pc)).
  destruct q; try exact I; cbn [claim_of] in *; try (by apply (quiet_candidate w); auto);
    try (by unfold is_candidate in *; rewrite (Hb eq_refl));
    try (destruct Hq as (Hnd & Hr & Hk); split; [done | ]; eapply (quiet_list w); [by apply HQ | | done | done]; set_solver).
  - specialize (HQ eq_refl). destruct Hq as (H1 & H2 & H3). apply and_assoc. split; [by apply (quiet_candidate w) | ].
    intros tti Ht. rewrite <- (H3 tti Ht). unfold last_access_of. do 2 f_equal. apply HQ; [by apply candidate_resident | done].
  - specialize (HQ eq_refl). destruct Hq as [Hnd Hk]. split; [done | ]. rewrite Forall_forall in Hk |- *. intros h [Hr Hc']%Hk.
    split; [by apply HQ | by apply HQ].
Qed.

Lemma resumes_claim w pc : resumes pc = true -> claim_of w pc.
Proof. by destruct pc. Qed.

Lemma word_other w w' v h0 h : heap w' = alter (set_state v) h0 (heap w) -> h <> h0 -> word w' h = word w h.
Proof. intros E Hn. unfold word, page_of. by rewrite E, list_lookup_alter_ne by done. Qed.

Lemma handles_resident w h : h ∈ handle <$> (map_to_list (pages (block w))).*2 <-> resident w h.
Proof.
  rewrite list_elem_of_fmap. split.
  - intros (e & -> & [[p e'] [-> Hp%elem_of_map_to_list]]%list_elem_of_fmap). by eexists _, _.
  - intros (p & e & He & <-). exists e. split; [done | ]. apply list_elem_of_fmap. exists (p, e). split; [done | ]. by apply elem_of_map_to_list.
Qed.

Lemma handles_NoDup (m : gmap Z PageEntry) :
  (forall p q e f, m !! p = Some e -> m !! q = Some f -> handle e = handle f -> p = q) -> NoDup (handle <$> (map_to_list m).*2).
Proof.
  intros Hi. rewrite <- list_fmap_compose. apply NoDup_fmap_2_strong; [ | apply NoDup_map_to_list].
  intros [p e] [q f] Hp%elem_of_map_to_list Hq%elem_of_map_to_list Hh. simpl in Hh. pose proof (Hi p q e f Hp Hq Hh) as ->. congruence.
Qed.

Lemma closed_list w (l0 l : list nat) : NoDup l0 -> sublist l l0 -> (forall h, h ∈ l0 <-> resident w h) ->
  Forall (fun h => closed (word w h) = true) l -> NoDup l /\ Forall (fun h => resident w h /\ closed (word w h) = true) l.
Proof.
  intros Hnd Hs Hr Hk. split; [by eapply sublist_NoDup | ]. rewrite Forall_forall in Hk |- *. intros h Hh. split; [ | by apply Hk].
  apply Hr. by eapply sublist_subseteq.
Qed.

Lemma exec_claim w pc ok w' pc' :
  (forall p q e f, pages (block w) !! p = Some e -> pages (block w) !! q = Some f -> handle e = handle f -> p = q) -> 
  (forall p e, pages (block w) !! p = Some e -> (handle e < length (heap w))%nat) ->
  local pc -> claim_of w pc -> exec w pc ok = (w', pc') -> claim_of w' pc'.
Proof.
  intros Hi Ht Hl Hc Ex. destruct pc; by_exec Ex; cbn [claim_of local] in *; try exact I; try done;
    try (apply resumes_claim; tauto); try (by eexists _); try tauto.
  - by apply andb_true_iff in Heqb1 as [? _].
  - split; [done | ]. erewrite (word_set w); [apply close_step | reflexivity | ].
    apply candidate_inv in Hc. by apply (Ht _ _ Hc).
  - destruct Hc as [H1 H2]. splits; [done | done | ]. intros tti Htti. rewrite Heqo in Htti. by injection Htti as <-.
  - destruct Hc as [H1 H2]. splits; [done | done | ]. intros tti Htti. by rewrite Heqo in Htti.
  - rewrite app_nil_r. splits; [by apply handles_NoDup | | done]. intros h. rewrite ?app_nil_r. apply (handles_resident w).
  - destruct Hc as (Hnd & Hr & Hk). by apply (closed_list w (n :: l ++ closed0)); [ | apply sublist_cons, sublist_inserts_l | | ].
  - destruct Hc as (Hnd & Hr & Hk). rewrite <- Permutation_middle. splits; [done | | ].
    + intros h0. rewrite <- Permutation_middle. apply Hr.
    + assert (h < length (heap w))%nat as Hlt.
      { assert (resident w h) as (p & e & He & <-) by (apply Hr, list_elem_of_here). by eapply Ht. }
      constructor; [erewrite (word_set w); [apply close_step | reflexivity | done] | ].
      rewrite Forall_forall in Hk |- *. intros h' Hh'. erewrite (word_other w); [by apply Hk | reflexivity | ].
      intros ->. apply NoDup_cons in Hnd as [Hnd _]. apply Hnd, elem_of_app. by right.
  - destruct Hc as (Hnd & Hr & Hk). by apply (closed_list w (h :: todo ++ closed0)); [ | apply sublist_cons, sublist_inserts_l | | ].
  - destruct Hc as (Hnd & Hr & Hk). by apply (closed_list w closed0).
  - destruct Hc as [[Hn Hnd]%NoDup_cons Hk]. apply Forall_cons in Hk as [_ Hk]. split; [done | ].
    rewrite Forall_forall in Hk |- *. intros h Hh. destruct (Hk h Hh) as [Hr Hc]. split; [done | ].
    erewrite (word_other w); [done | reflexivity | ]. by intros ->.
Qed.

#[export] Instance resident_dec w h : Decision (resident w h).
Proof. destruct (decide (h ∈ handle <$> (map_to_list (pages (block w))).*2)) as [H|H]; [left | right]; by rewrite <- handles_resident. Defined.

Lemma closes_resident w pc h : claim_of w pc -> h ∈ closes pc -> resident w h.
Proof.
  destruct pc; simpl; try (intros _ Hh; by inversion Hh);
    try (intros [Hc _] ->%list_elem_of_singleton; by apply candidate_resident); try (intros (_ & Hr & _) Hh; apply Hr; set_solver).
  intros [_ Hk] Hh. rewrite Forall_forall in Hk. by apply Hk.
Qed.

(** Pages leave the table closed, and enter it open. *)
Lemma resident_step w ts pc ok w' pc' h : claims w ts -> words w ts -> claim_of w pc -> exec w pc ok = (w', pc') ->
  (resident w h -> resident w' h \/ closed (word w h) = true /\ heap w' = heap w) /\
  (resident w' h -> resident w h \/ h = length (heap w) /\ closed (word w' h) = false) /\
  (length (heap w) <= h < length (heap w') -> resident w' h)%nat.
Proof.
  intros Hc Hw Hk Ex.
  destruct (exec_pages _ _ _ _ _ Ex) as [pc w' Ep El|page access now g w' He Ep El|page h' flags e n w' Hwd He -> Ep El|e w' Ep El|now l w' Ep El].
  - unfold resident. rewrite Ep. splits; [auto.. | lia].
  - splits.
    + intros (p & e & Hp & <-). left. exists p, e. rewrite Ep, lookup_insert_ne; [done | congruence].
    + intros (p & e & Hp & <-). rewrite Ep in Hp. apply lookup_insert_Some in Hp as [[<- <-]|[_ Hp]]; [right | left; by exists p, e].
      split; [done | ]. unfold word, page_of. by rewrite El, list_lookup_middle.
    + rewrite El, length_app. simpl. intros Hh. exists page, (mkEntry (length (heap w)) 0). rewrite Ep, lookup_insert_eq. split; [done | simpl; lia].
  - pose proof (reselected w w' page e _ h He Ep) as Hr. splits; [tauto | tauto | lia].
  - destruct Hk as [Hc1 Hc2]. pose proof (candidate_inv _ _ Hc1) as Hin. splits; [ | | rewrite El; lia].
    + intros (p & f & Hp & <-). destruct (decide (p = c_page (candidate e))) as [->|Hn].
      * right. split; [ | done]. rewrite Hin in Hp. by injection Hp as <-.
      * left. exists p, f. by rewrite Ep, lookup_delete_ne.
    + intros (p & f & Hp & <-). rewrite Ep in Hp. apply lookup_delete_Some in Hp as [_ Hp]. left. by exists p, f.
  - destruct Hk as (_ & Hr & Hk). splits; [ | by intros ?%gone_cleared | rewrite El; lia].
    intros Hh%Hr. right. split; [ | done]. rewrite Forall_forall in Hk. by apply Hk.
Qed.

Lemma claims_preserved w ts i pc ok w' pc' : locks w ts -> words w ts -> claims w ts -> ts !! i = Some pc -> exec w pc ok = (w', pc') ->
  claims w' (<[i := pc']> ts).
Proof.
  intros HL Hw Hc E Ex. pose proof (exec_words _ _ _ _ _ _ _ Hw E Ex) as Hst. pose proof (w_local _ _ Hw i pc E) as Hl.
  assert (i < length ts)%nat as Hi by (by eapply lookup_lt_Some).
  constructor.
  - intros p q e f. destruct (exec_pages _ _ _ _ _ Ex) as [pc w' Ep _|page access now g w' He Ep _|page h flags e' n w' Hwd He -> Ep _|e' w' Ep _|now l w' Ep _];
      rewrite Ep; rewrite ?lookup_insert_Some, ?lookup_delete_Some, ?lookup_empty.
    + apply (c_inj _ _ Hc).
    + pose proof (w_table _ _ Hw) as Ht. intros [[<- <-]|[Hp Hf]] [[<- <-]|[Hq Hg]]; simpl; intros Hh; [done | | | by eapply (c_inj _ _ Hc)].
      * apply Ht in Hg. lia.
      * apply Ht in Hf. lia.
    + intros [[<- <-]|[Hp Hf]] [[<- <-]|[Hq Hg]]; simpl; intros Hh; [done | ..]; eapply (c_inj _ _ Hc); eauto.
    + intros [_ Hf] [_ Hg]. by apply (c_inj _ _ Hc).
    + done.
  - intros h Hlt Hn. destruct (resident_step w ts pc ok w' pc' h Hc Hw (c_held _ _ Hc i pc E) Ex) as (R1 & R2 & R3).
    destruct (decide (length (heap w) <= h)%nat) as [Hge|Hlt']; [by destruct Hn; apply R3 | ].
    destruct (decide (resident w h)) as [Hr|Hr].
    + destruct (R1 Hr) as [|[Hk Eh]]; [done | ]. unfold word, page_of in *. by rewrite Eh.
    + destruct (step_closed _ _ _ _ h Hst) as [S1 _]; [lia | ]. destruct S1 as [|Hx]; [apply Hc; [lia | done] | done | ].
      destruct Hr. eapply closes_resident; [by eapply (c_held _ _ Hc i) | done].
  - intros j q. rewrite list_lookup_insert_Some. intros [(<- & <- & _)|[Hn Hq]].
    + eapply exec_claim; [apply Hc | apply Hw | done | by eapply c_held | done].
    + by eapply (claim_kept w ts i pc).
  - intros h Hr Hk. destruct (resident_step w ts pc ok w' pc' h Hc Hw (c_held _ _ Hc i pc E) Ex) as (_ & R2 & _).
    destruct (R2 Hr) as [Hr0|[_ Hf]]; [ | congruence]. pose proof (resident_valid _ _ _ Hw Hr0) as Hlt.
    assert (h ∈ closes pc' -> exists j q, <[i := pc']> ts !! j = Some q /\ h ∈ closes q) as Hown.
    { intros Hx. exists i, pc'. by rewrite list_lookup_insert_eq. }
    destruct (step_closed _ _ _ _ h Hst Hlt) as [_ S2]. destruct (S2 Hk) as [Hk0|]; [ | auto].
    destruct (c_leak _ _ Hc h Hr0 Hk0) as (j & q & Ej & Hq). destruct (decide (i = j)) as [<-|Hn].
    + assert (q = pc) as -> by congruence.
      destruct (exec_closes w pc ok w' pc' h (c_inj _ _ Hc) Hl (c_held _ _ Hc i pc E) Ex Hlt Hq) as [|[|]]; [auto | congruence | done].
    + exists j, q. by rewrite list_lookup_insert_ne.
Qed.

(** ** Every state that can be reached *)

Record inv (w : World) (ts : list Pc) : Prop := { i_locks : locks w ts; i_words : words w ts; i_claims : claims w ts }.

Lemma new_block_inv track : inv (new_block track) [].
Proof.
  split; constructor; simpl; try done; try (intros; set_solver).
  intros h Hlt. lia.
Qed.

(** Restoring a page adds it, or changes nothing but its mark and its time. *)
Lemma restore_cases w page a :
  (exists f h, heap (restore w page a) = alter f h (heap w) /\ (forall s, state (f s) = Z.lor (state s) BOUND) /\
    pages (block (restore w page a)) = pages (block w)) \/
  (exists s, heap (restore w page a) = heap w ++ [s] /\ state s = BOUND /\ pages (block w) !! page = None /\
    pages (block (restore w page a)) = <[page := mkEntry (length (heap w)) 0]> (pages (block w))).
Proof.
  unfold restore. proj_all. destruct (pages (block w) !! page) as [e|] eqn:E; cbn zeta beta; proj_all.
  - left. eexists (fun s => if track_access (work w) then set_last _ (set_state (Z.lor (state s) BOUND) s) else set_state (Z.lor (state s) BOUND) s), (handle e).
    splits; [ | intros s; by destruct (track_access (work w)) | done].
    destruct (heap w !! handle e) as [s|] eqn:Hs.
    + simpl. apply list_eq. intros j. rewrite list_lookup_alter. destruct (decide (handle e = j)) as [<-|Hn].
      * rewrite list_lookup_insert_eq by (by eapply lookup_lt_Some). rewrite Hs. simpl. reflexivity.
      * by rewrite list_lookup_insert_ne.
    + rewrite list_insert_ge by (by apply lookup_ge_None). apply list_eq. intros j. rewrite list_lookup_alter.
      destruct (decide (handle e = j)) as [<-|]; [by rewrite Hs | done].
  - right. rewrite list_lookup_middle, insert_app_r_alt by done. rewrite Nat.sub_diag. simpl.
    eexists. splits; [reflexivity | by destruct (track_access (work w)) | done | done].
Qed.

Lemma restore_inv w page a : inv w [] -> inv (restore w page a) [].
Proof.
  intros [[L1 L2 L3 L4] Hw Hc].
  assert (locks (restore w page a) []) as HL by (constructor; unfold restore; destruct (pages (set_cleanup false (block w)) !! page); done).
  destruct (restore_cases w page a) as [(f & h0 & Eh & Hf & Ep)|(s0 & Eh & Hs0 & En & Ep)].
  - assert (forall h, (h < length (heap w))%nat -> closed (word (restore w page a) h) = closed (word w h)) as Hcl.
    { intros h Hlt. unfold word. rewrite (page_alter _ _ _ _ _ Eh Hlt). destruct (decide (h = h0)); [ | done]. rewrite Hf. by apply set_bit_step. }
    split; [done | | ]; constructor; try (intros i pc Hx; by rewrite lookup_nil in Hx).
    + rewrite Eh. intros h s [(-> & s1 & Hs1 & ->)|[_ Hs]]%alter_inv; [ | by apply Hw].
      destruct (w_word _ _ Hw h0 s1 Hs1) as (Hu & Hr & _). rewrite Hf. destruct (set_bit_step (state s1) 61) as (U & R & _); [lia.. | ].
      unfold BOUND. splits; [by apply U | rewrite R; simpl in *; lia | done].
    + rewrite Ep, Eh, length_alter. apply Hw.
    + rewrite Ep. apply Hc.
    + rewrite Eh, length_alter. intros h Hlt Hn. rewrite Hcl by done. apply Hc; [done | ]. unfold resident in *. by rewrite Ep in Hn.
    + intros h Hr Hk. unfold resident in Hr. rewrite Ep in Hr. rewrite Hcl in Hk by (by eapply resident_valid). by apply (c_leak _ _ Hc).
  - assert (forall h s, heap (restore w page a) !! h = Some s -> heap w !! h = Some s \/ h = length (heap w) /\ s = s0) as Hin.
    { intros h s. rewrite Eh. intros [Hs|[Hlt [Hz <-]%list_lookup_singleton_Some]]%lookup_app_Some; [by left | right]. split; [lia | done]. }
    assert (forall h, (h < length (heap w))%nat -> word (restore w page a) h = word w h) as Hwd.
    { intros h Hlt. unfold word, page_of. by rewrite Eh, lookup_app_l. }
    assert (resident (restore w page a) (length (heap w)) /\ forall h, resident (restore w page a) h -> resident w h \/ h = length (heap w)) as [R1 R2].
    { split; [exists page, (mkEntry (length (heap w)) 0); by rewrite Ep, lookup_insert_eq | ]. intros h (p & e & He & <-). rewrite Ep in He.
      apply lookup_insert_Some in He as [[_ <-]|[_ He]]; [by right | left; by exists p, e]. }
    split; [done | | ]; constructor; try (intros i pc Hx; by rewrite lookup_nil in Hx).
    + intros h s [Hs|[-> ->]]%Hin; [by apply Hw | ]. rewrite Hs0. splits; [by vm_compute | done | done].
    + rewrite Ep, Eh, length_app. simpl. intros p e [[_ <-]|[_ He%(w_table _ _ Hw)]]%lookup_insert_Some; simpl; lia.
    + rewrite Ep. intros p q e f. pose proof (w_table _ _ Hw) as Ht.
      intros [[<- <-]|[_ He]]%lookup_insert_Some [[<- <-]|[_ Hf]]%lookup_insert_Some; simpl; intros Hh; [done | | | by eapply (c_inj _ _ Hc)].
      * apply Ht in Hf. lia.
      * apply Ht in He. lia.
    + rewrite Eh, length_app. simpl. intros h Hlt Hn. destruct (decide (h = length (heap w))) as [->|Hne]; [done | ].
      rewrite Hwd by lia. apply Hc; [lia | ]. intros (p & e & He & <-). apply Hn. exists p, e. rewrite Ep, lookup_insert_ne; [done | congruence].
    + intros h [Hr| ->]%R2 Hk.
      * rewrite Hwd in Hk by (by eapply resident_valid). by apply (c_leak _ _ Hc).
      * unfold word, page_of in Hk. rewrite Eh, list_lookup_middle in Hk by done. simpl in Hk. by rewrite Hs0 in Hk.
Qed.

Lemma starts_fresh pc : starts pc = true ->
  (forall h, guards h pc = false) /\ in_block pc = false /\ hold pc = NoGate /\ (forall w n, local pc /\ valid n pc /\ claim_of w pc).
Proof.
  destruct pc; simpl; try done; try (by destruct g); intros H; splits; try done; intros _ _; splits; try done; lia.
Qed.

Lemma spawn_inv w ts pc : starts pc = true -> inv w ts -> inv w (ts ++ [pc]).
Proof.
  intros (G & B & H & L)%starts_fresh [[L1 L2 L3 L4] Hw Hc].
  assert (forall i q, (ts ++ [pc]) !! i = Some q -> ts !! i = Some q \/ q = pc) as Hin.
  { intros i q [?|[_ [_ <-]%list_lookup_singleton_Some]]%lookup_app_Some; auto. }
  assert (owns pc = false /\ fills_in pc = false) as [O F] by (unfold owns, fills_in; by rewrite H).
  split.
  - constructor; rewrite ?tally_app; simpl; rewrite ?B, ?O, ?F; simpl; [lia.. | done].
  - constructor; [ | | | apply Hw].
    + intros i q [Hq| ->]%Hin; [by eapply w_local | by apply (L w 0%nat)].
    + intros i q [Hq| ->]%Hin; [by eapply w_valid | by apply (L w)].
    + intros h s Hs. rewrite tally_app. simpl. rewrite G. simpl. rewrite Nat.add_0_r. by apply Hw.
  - constructor; [apply Hc | apply Hc | | ].
    + intros i q [Hq| ->]%Hin; [by eapply c_held | by apply (L w 0%nat)].
    + intros h Hr Hk. destruct (c_leak _ _ Hc h Hr Hk) as (i & q & Hq & Hx). exists i, q. split; [ | done]. by apply lookup_app_l_Some.
Qed.

Lemma step_inv w ts ev : inv w ts -> inv (step (w, ts) ev).1 (step (w, ts) ev).2.
Proof.
  intros [HL Hw Hc]. destruct ev as [pc|i ok]; simpl.
  - destruct (starts pc) eqn:Hs; [by apply spawn_inv | done].
  - destruct (ts !! i) as [pc|] eqn:E; [ | done]. destruct (exec w pc ok) as [w' pc'] eqn:Ex. simpl. split.
    + eapply locks_step; [done | done | by eapply exec_locks].
    + by eapply words_preserved.
    + by eapply claims_preserved.
Qed.

Lemma run_inv track l evs : inv (run (restored track l, []) evs).1 (run (restored track l, []) evs).2.
Proof.
  assert (inv (restored track l) []) as H.
  { unfold restored. induction l as [|[p a] l IH] using rev_ind; [apply new_block_inv | ]. rewrite foldl_app. by apply restore_inv. }
  induction evs as [|ev evs IH] using rev_ind; [done | ]. unfold run in *. rewrite foldl_app. simpl.
  destruct (foldl step _ evs) as [w ts]. by apply step_inv.
Qed.

Lemma closed_acquire v : closed v = true -> acquire_next v = None.
Proof. unfold acquire_next, closed. by intros ->. Qed.

Lemma closed_idle w ts h : words w ts -> (h < length (heap w))%nat -> closed (word w h) = true -> tally (guards h) ts = 0%nat.
Proof. intros Hw [s Hs]%lookup_lt_is_Some Hk. apply (w_word _ _ Hw h s Hs). unfold word, page_of in Hk. by rewrite Hs in Hk. Qed.

(** C26: deletion and readers exclude each other, under every interleaving of reads, fills, selections, evictions and
    checkpoints. A page that a task reads is in the table and open, and the word counts its readers exactly. While a task unlinks a page, the page is still the one that
    was selected, nobody reads it, nobody can start to, and a page evicted for its idle time has been idle; while a task unlinks a block, this holds of all its
    pages. When no task is running every page of the table can be read. *)
Theorem evictions_exclude_readers track l evs : let '(w, ts) := run (restored track l, []) evs in
  (forall i pc h, ts !! i = Some pc -> guards h pc = true -> resident w h /\ closed (word w h) = false) /\
  (forall h, (h < length (heap w))%nat -> readers (word w h) = Z.of_nat (tally (guards h) ts)) /\
  (forall i e, ts !! i = Some (Unlink e) -> let h := c_handle (candidate e) in
    is_candidate (candidate e) w = true /\ tally (guards h) ts = 0%nat /\ acquire_next (word w h) = None /\
    (reason e = 0 -> expired (last_access_of (page_of w h)) (claim_at e) (tti_ms e) = true)) /\
  (forall i now hs h, ts !! i = Some (UnlinkAll now hs) -> resident w h -> tally (guards h) ts = 0%nat /\ acquire_next (word w h) = None) /\
  (Forall (eq Done) ts -> forall h, resident w h -> closed (word w h) = false).
Proof.
  destruct (run (restored track l, []) evs) as [w ts] eqn:E. pose proof (run_inv track l evs) as [HL Hw Hc]. rewrite E in *. simpl in *.
  splits.
  - intros i pc h Ei G. pose proof (guards_valid _ _ _ G (w_valid _ _ Hw i pc Ei)) as Hlt.
    destruct (words_guarded w ts i pc h Hw Ei G Hlt) as [_ Hk]. split; [ | done].
    destruct (decide (resident w h)) as [|Hn]; [done | ]. pose proof (c_dead _ _ Hc h Hlt Hn). congruence.
  - intros h [s Hs]%lookup_lt_is_Some. unfold word, page_of. rewrite Hs. by apply Hw.
  - intros i e Ei. destruct (c_held _ _ Hc i _ Ei) as (H1 & H2 & H3). splits; [done | | by apply closed_acquire | ].
    + eapply closed_idle; [done | | done]. eapply resident_valid; [done | by apply candidate_resident].
    + intros Hr. apply H3. unfold tti_of. by rewrite Hr.
  - intros i now hs h Ei Hr. destruct (c_held _ _ Hc i _ Ei) as (_ & H2 & H3). rewrite Forall_forall in H3.
    pose proof (H3 h (proj2 (H2 h) Hr)) as Hk. split; [ | by apply closed_acquire]. eapply closed_idle; [done | by eapply resident_valid | done].
  - intros Hd h Hr. destruct (closed (word w h)) eqn:Hk; [ | done]. destruct (c_leak _ _ Hc h Hr Hk) as (i & pc & Ei & Hx).
    rewrite Forall_lookup in Hd. rewrite <- (Hd i pc Ei) in Hx. by inversion Hx.
Qed.

(** ** A page that was read is spared *)

Lemma word_alter_any w w' f h0 h : heap w' = alter f h0 (heap w) -> (h < length (heap w))%nat -> (forall s, state (f s) = state s) -> word w' h = word w h.
Proof. intros E Hlt Hf. unfold word. rewrite (page_alter _ _ _ _ _ E Hlt). by destruct (decide (h = h0)). Qed.

Lemma read_kept w w' v h0 h : heap w' = alter (set_state v) h0 (heap w) -> (h < length (heap w))%nat ->
  (was_read (word w h0) = true -> was_read v = true) -> was_read (word w h) = true -> was_read (word w' h) = true.
Proof.
  intros E Hlt Hv Hr. destruct (decide (h = h0)) as [->|Hn]; [rewrite (word_set _ _ _ _ E Hlt); auto | by rewrite (word_other _ _ _ _ _ E Hn)].
Qed.

Lemma exec_read w ts i pc ok w' pc' h : words w ts -> ts !! i = Some pc -> exec w pc ok = (w', pc') -> (h < length (heap w))%nat ->
  was_read (word w h) = true -> was_read (word w' h) = true \/ exists page, pc = Select page h (word w h).
Proof.
  intros Hw E Ex Hlt Hr. pose proof (w_local _ _ Hw i pc E) as Hl. pose proof (w_valid _ _ Hw i pc E) as Hv.
  pose proof (fun h G => words_guarded w ts i pc h Hw E G) as Hg. clear E Hw.
  destruct pc; by_exec Ex; cbn [guards local] in *; try (by left);
    try (left; erewrite (word_alter_any w); [exact Hr | reflexivity | done | done]);
    try (apply Z.eqb_eq in Heqb; subst; destruct (decide (h = h0)) as [->|Hn];
      [by right; eexists | left; erewrite (word_other w); [done | reflexivity | done]]; fail);
    try (left; eapply (read_kept w); [reflexivity | done | | done]; rewrite ?reopen_read; try done; try (apply set_bit_read; lia)).
  - apply andb_true_iff in Heqb as [<-%Z.eqb_eq _]. by rewrite (acquire_read _ _ Heqo).
  - apply andb_true_iff in Heqb as [<-%Z.eqb_eq _]. by rewrite (acquire_read _ _ Heqo).
  - rewrite decr_read; [done | ]. apply (Hg h0); [by apply bool_decide_true | done].
  - apply andb_true_iff in Heqb as [<-%Z.eqb_eq _]. intros _. apply release_step. apply (Hg h0); [by apply bool_decide_true | done].
  - left. unfold word, page_of in *. proj_all. by rewrite lookup_app_l.
  - apply Z.eqb_eq in Heqb as <-. apply set_bit_read. lia.
  - by rewrite abort_read.
  - apply Z.eqb_eq in Heqb as <-. apply set_bit_read. lia.
Qed.

Definition evicting (pc : Pc) : option Eviction :=
  match pc with ClaimAge e | ClaimReopen e | Unlink e | Finish e | Abort e => Some e | _ => None end.

(** Since the page was read with selection [n], it is marked or selected again, and no task evicts it for an older one. *)
Record spared (h : nat) (n : Z) (w : World) (ts : list Pc) : Prop := {
  s_valid : (h < length (heap w))%nat;
  s_table : (forall p e, pages (block w) !! p = Some e -> handle e = h -> n < selection e \/ n = selection e /\ was_read (word w h) = true) \/
    exists i g, ts !! i = Some (Panicked g);
  s_tasks : forall i pc e, ts !! i = Some pc -> evicting pc = Some e -> c_handle (candidate e) = h -> n < c_selection (candidate e);
}.

Lemma exec_evicting w pc ok w' pc' e : local pc -> exec w pc ok = (w', pc') -> evicting pc' = Some e ->
  evicting pc = Some e \/ exists v, pc = ClaimExchange e v /\ word w (c_handle (candidate e)) = v.
Proof.
  intros Hl Ex He. assert (forall q, resumes q = true -> evicting q <> Some e) as Hq by (by intros []).
  destruct pc; by_exec Ex; cbn [evicting local] in *; try discriminate He; try (by left);
    try (injection He as <-; apply Z.eqb_eq in Heqb; right; by eexists); exfalso; refine (Hq _ _ He); tauto.
Qed.

Lemma spared_select h n w ts i page h0 flags ok w' pc' : inv w ts -> ts !! i = Some (Select page h0 flags) -> exec w (Select page h0 flags) ok = (w', pc') ->
  (h < length (heap w))%nat ->
  (forall p e, pages (block w) !! p = Some e -> handle e = h -> n < selection e \/ n = selection e /\ was_read (word w h) = true) ->
  (forall p e, pages (block w') !! p = Some e -> handle e = h -> n < selection e \/ n = selection e /\ was_read (word w' h) = true) \/
  exists g, pc' = Panicked g.
Proof.
  intros [_ _ Hc] E Ex Hlt Ht. destruct (c_held _ _ Hc i _ E) as (e & He & Hh). cbn [exec] in Ex. unfold select in Ex.
  destruct (word w h0 =? flags); [ | injection Ex as <- <-; by left]. proj in Ex. rewrite He in Ex. unfold checked_add in Ex.
  destruct (_ <? _); injection Ex as <- <-; [left | by right; eexists].
  proj_all. intros p f [[<- <-]|[Hn Hf]]%lookup_insert_Some Hfh; simpl in *.
  - left. destruct (Ht page e He Hfh) as [?|[? _]]; lia.
  - destruct (Ht p f Hf Hfh) as [|[Hs Hr]]; [by left | right]. split; [done | ]. erewrite (word_other w); [done | reflexivity | ].
    intros ->. apply Hn. eapply (c_inj _ _ Hc); [exact He | exact Hf | congruence].
Qed.

Lemma spared_table h n w ts i pc ok w' pc' : inv w ts -> ts !! i = Some pc -> exec w pc ok = (w', pc') -> (h < length (heap w))%nat ->
  (forall p e, pages (block w) !! p = Some e -> handle e = h -> n < selection e \/ n = selection e /\ was_read (word w h) = true) ->
  (forall p e, pages (block w') !! p = Some e -> handle e = h -> n < selection e \/ n = selection e /\ was_read (word w' h) = true) \/
  exists g, pc' = Panicked g.
Proof.
  intros Hi E Ex Hlt Ht. destruct (match pc with Select _ _ _ => true | _ => false end) eqn:Hs.
  { destruct pc; try discriminate Hs. by eapply spared_select. }
  left. assert (was_read (word w h) = true -> was_read (word w' h) = true) as Hr.
  { intros Hr. destruct (exec_read w ts i pc ok w' pc' h (i_words _ _ Hi) E Ex Hlt Hr) as [|[page ->]]; done. }
  intros p e He Hh. assert (pages (block w) !! p = Some e \/ handle e = length (heap w)) as [Hp|Hp]; [ | | lia].
  - destruct (exec_pages _ _ _ _ _ Ex) as [pc w' Ep _|page access now g w' Hn Ep _|page h' flags f m w' _ _ _ _ _|f w' Ep _|now l w' Ep _];
      rewrite ?Ep in He; [by left | | done | | ].
    + apply lookup_insert_Some in He as [[_ <-]|[_ He]]; [by right | by left].
    + apply lookup_delete_Some in He as [_ He]. by left.
    + by rewrite lookup_empty in He.
  - destruct (Ht p e Hp Hh) as [|[? ?]]; auto.
Qed.

Lemma spared_step h n w ts ev : inv w ts -> spared h n w ts -> spared h n (step (w, ts) ev).1 (step (w, ts) ev).2.
Proof.
  intros Hi [Hv Ht Hk]. destruct ev as [q|i ok]; simpl.
  { destruct (starts q) eqn:Hs; [ | done]. split; simpl; [done | | ].
    - destruct Ht as [|(j & g & Hj)]; [by left | right]. exists j, g. by apply lookup_app_l_Some.
    - intros j pc e [Hj|[_ [_ <-]%list_lookup_singleton_Some]]%lookup_app_Some; [by apply (Hk j) | ]. by destruct q. }
  destruct (ts !! i) as [pc|] eqn:E; [ | done]. destruct (exec w pc ok) as [w' pc'] eqn:Ex. simpl.
  assert (i < length ts)%nat as Hlen by (by eapply lookup_lt_Some). pose proof Hi as [HL Hw Hc].
  destruct (exec_words _ _ _ _ _ _ _ Hw E Ex) as [Hl _]. split; [lia | | ].
  - destruct Ht as [Ht|(j & g & Hj)].
    + destruct (spared_table h n w ts i pc ok w' pc' Hi E Ex Hv Ht) as [|[g ->]]; [by left | right]. exists i, g. by rewrite list_lookup_insert_eq.
    + right. exists j, g. destruct (decide (i = j)) as [<-|Hn]; [ | by rewrite list_lookup_insert_ne]. rewrite list_lookup_insert_eq by done.
      assert (pc = Panicked g) as -> by congruence. by injection Ex as _ <-.
  - intros j q e. rewrite list_lookup_insert_Some. intros [(<- & <- & _)|[_ Hq]] He Hh; [ | by apply (Hk j q)].
    destruct (exec_evicting w pc ok w' pc' e (w_local _ _ Hw i pc E) Ex He) as [He'|(v & -> & Hv')]; [by apply (Hk i pc) | ].
    pose proof (candidate_inv _ _ (c_held _ _ Hc i _ E)) as Hin. destruct (w_local _ _ Hw i _ E) as [Hb _].
    destruct Ht as [Ht|(j & g & Hj)].
    + destruct (Ht _ _ Hin Hh) as [|[_ Hr]]; [done | exfalso]. rewrite <- Hv', Hh, !has_or in Hb.
      unfold was_read in Hr. rewrite Hr, !orb_true_r in Hb. done.
    + exfalso. assert (i = j) as <-; [ | congruence]. eapply (tally_one in_block); [ | exact E | exact Hj | done | done].
      rewrite (l_inner _ _ HL). destruct (inner w); simpl; lia.
Qed.

Lemma spared_run h n w ts evs : inv w ts -> spared h n w ts -> spared h n (run (w, ts) evs).1 (run (w, ts) evs).2.
Proof.
  unfold run. revert w ts. induction evs as [|ev evs IH]; intros w ts Hi Hs; [done | ]. cbn [foldl].
  pose proof (step_inv w ts ev Hi) as Hi'. pose proof (spared_step h n w ts ev Hi Hs) as Hs'. destruct (step (w, ts) ev) as [w' ts']. by apply IH.
Qed.

Lemma evicting_closed w pc e : claim_of w pc -> evicting pc = Some e -> closed (word w (c_handle (candidate e))) = true.
Proof. destruct pc; simpl; try discriminate; intros H [= <-]; tauto. Qed.

Lemma release_spares w ts i h old ok w' p e : inv w ts -> ts !! i = Some (ReleaseLoop h old) -> exec w (ReleaseLoop h old) ok = (w', Done) ->
  pages (block w) !! p = Some e -> handle e = h -> spared h (selection e) w' (<[i := Done]> ts).
Proof.
  intros [HL Hw Hc] Hi Ex He Hh. cbn [exec] in Ex. unfold release in Ex. destruct ((word w h =? old) && ok) eqn:Hb; [ | done].
  apply andb_true_iff in Hb as [<-%Z.eqb_eq _]. injection Ex as <-.
  assert (h < length (heap w))%nat as Hlt by (subst h; by eapply w_table).
  assert (guards h (ReleaseLoop h (word w h)) = true) as G by (by apply bool_decide_true).
  destruct (words_guarded w ts i _ h Hw Hi G Hlt) as [Hr Hk]. split; proj_all.
  - by rewrite length_alter.
  - left. intros q f Hf Hfh. right. assert (q = p) as -> by (by eapply (c_inj _ _ Hc); [exact Hf | exact He | congruence]).
    split; [congruence | ]. erewrite (word_set w); [by apply release_step | reflexivity | done].
  - intros j q v. rewrite list_lookup_insert_Some. intros [(_ & <- & _)|[_ Hq]] Hev Hvh; [done | exfalso].
    pose proof (evicting_closed w q v (c_held _ _ Hc j q Hq) Hev) as Hx. rewrite Hvh in Hx. congruence.
Qed.

(** C27: a page is only evicted by a selection made after it was last read. When a reader releases its guard after a successful read, any
    unlinking of the page from then on is for a candidate with a greater selection number than the page had at that time. *)
Theorem reads_spare_pages track l before i h old ok after j v p e : let s := run (restored track l, []) before in
  s.2 !! i = Some (ReleaseLoop h old) -> (step s (Step i ok)).2 !! i = Some Done ->
  pages (block s.1) !! p = Some e -> handle e = h ->
  (run (step s (Step i ok)) after).2 !! j = Some (Unlink v) -> c_handle (candidate v) = h -> selection e < c_selection (candidate v).
Proof.
  intros s Hi Hd He Hh Hj Hv. pose proof (run_inv track l before) as Hinv. fold s in Hinv. destruct s as [w ts]. simpl in *.
  rewrite Hi in Hd, Hj. destruct (exec w (ReleaseLoop h old) ok) as [w' pc'] eqn:Ex.
  assert (i < length ts)%nat as Hlen by (by eapply lookup_lt_Some). simpl in Hd. rewrite list_lookup_insert_eq in Hd by done. injection Hd as ->.
  assert (inv w' (<[i := Done]> ts)) as Hinv'.
  { pose proof (step_inv w ts (Step i ok) Hinv) as H'. simpl in H'. by rewrite Hi, Ex in H'. }
  pose proof (spared_run h (selection e) _ _ after Hinv' (release_spares w ts i h old ok w' p e Hinv Hi Ex He Hh)) as [_ _ Hs].
  by apply (Hs j _ v Hj).
Qed.

(** A page is read, selected, and evicted for capacity. *)
Definition demo_before : list Event := Spawn (Acquire 0 (Served (Some 200))) :: repeat (Step 0 true) 9.
Definition demo_eviction : Eviction := mkEviction (mkCandidate 0 0 1) 1 300 0 300.
Definition demo_after : list Event :=
  Spawn (Candidate 0) :: repeat (Step 1 true) 2 ++ Spawn (Evict demo_eviction) :: repeat (Step 2 true) 4.

Lemma reads_spare_pages_witness : 0 < c_selection (candidate demo_eviction).
Proof.
  apply (reads_spare_pages true [(0, Some 100)] demo_before 0 0 (Z.lor BOUND 1) true demo_after 2 demo_eviction 0 (mkEntry 0 0));
    vm_compute; reflexivity.
Defined.

(** While it is unlinked, a reader that comes is turned away. *)
Example turned_away :
  let s := run (restored true [(0, Some 100)], []) (demo_before ++ Step 0 true :: demo_after ++ Spawn (Acquire 0 Failed) :: repeat (Step 3 true) 2) in
  s.2 = [Done; Done; Unlink demo_eviction; Done].
Proof. vm_compute. reflexivity. Qed.
End PageClaims.
