(* ===== verification/PageDirty.v ===== *)
(** No access time is lost to a checkpoint (page_lifecycle.rs, runtime/page_maintenance.rs; the code is in [PageLifecycle]). *)

From S2P Require Import Prelude PageLifecycle PageTasks PageClaims.

#[local] Set Warnings "-clear-no-such-hyp".

Module PageDirty.
Import PageLifecycle PageTasks PageClaims.

(** ** What a task is about to do *)

Definition some (f : Pc -> bool) (ts : list Pc) : Prop := exists i pc, ts !! i = Some pc /\ f pc = true.

Definition inserting (pc : Pc) : bool := match pc with Insert _ _ => true | _ => false end.
Definition publishing (pc : Pc) : bool := match pc with Dirty _ _ | Insert _ _ => true | _ => false end.
Definition swapping (pc : Pc) : bool := match pc with Swap _ _ => true | _ => false end.
Definition marking (h : nat) (pc : Pc) : bool := match pc with Mark h' _ _ => bool_decide (h' = h) | _ => false end.

(** The page is sampled by a checkpoint that has consumed the entry of the block. *)
Definition samples (h : nat) (pc : Pc) : bool :=
  match pc with
  | Swap _ _ => true
  | Sample todo _ | SampleAge _ _ _ todo _ => bool_decide (h ∈ todo.*2)
  | _ => false
  end.

(** A checkpoint that has consumed the mark of the page, and gives it back if it fails. *)
Definition took (h : nat) (p : PageCheckpoint) : bool := bool_decide (p_handle p = h) && negb (p_dirty p =? UNKNOWN).
Fixpoint carries (h : nat) (pc : Pc) : bool :=
  match pc with
  | Sample _ s | Flush s | Flushed s => existsb (took h) (sampled s)
  | SampleAge _ h' d _ s => bool_decide (h' = h) && negb (d =? UNKNOWN) || existsb (took h) (sampled s)
  | Rollback todo _ => existsb (took h) todo
  | Dirty _ next | Insert _ next => carries h next
  | _ => false
  end.

(** The page table is being changed, and the revision not yet. *)
Fixpoint unrevised (pc : Pc) : bool :=
  match pc with
  | Panicked _ | Bind _ _ _ _ | Accessed _ _ _ => true
  | Touch _ _ next | TouchLoop _ _ _ next | Mark _ _ next | Dirty _ next | Insert _ next => unrevised next
  | _ => false
  end.

(** The task of a checkpoint, from when it has the gate of the shard. *)
Fixpoint checkpoints (pc : Pc) : bool :=
  match pc with
  | Consume _ | Swap _ _ | Sample _ _ | SampleAge _ _ _ _ _ | Flush _ | Flushed _ | Rollback _ _ | EndCheckpoint => true
  | Dirty _ next | Insert _ next => checkpoints next
  | _ => false
  end.

(** A task that makes sure that the revision [r] is noted. *)
Definition revises (r : Z) (pc : Pc) : bool :=
  match pc with
  | Insert _ _ => true
  | Dirty _ next => in_block next || match next with EndCheckpoint | Rollback _ (Some _) => true | _ => false end
  | Swap _ (Some _) | Rollback _ (Some _) => true
  | Sample _ s | SampleAge _ _ _ _ s | Flush s | Flushed s => (at_revision s =? r) && bool_decide (is_Some (since s))
  | _ => false
  end.

(** Times are before the end of time. *)
Fixpoint timely (pc : Pc) : Prop :=
  match pc with
  | Touch _ now next | TouchLoop _ now _ next | Mark _ now next | Dirty now next | Insert now next => now < UNKNOWN /\ timely next
  | Fill _ _ now _ | Register _ _ now _ | Bind _ _ now _ | Accessed _ now _ => now < UNKNOWN
  | Evict e | Claim e | ClaimExchange e _ | ClaimAge e | Unlink e | Finish e | Abort e => finish_at e < UNKNOWN
  | Retire now | CloseAll now | CloseLoad now _ _ | CloseExchange now _ _ _ _ | UnlinkAll now _ | FinishAll now _ => now < UNKNOWN
  | Swap _ since => from_option (fun t => t < UNKNOWN) True since
  | Sample _ s | Flush s | Flushed s => from_option (fun t => t < UNKNOWN) True (since s) /\ Forall (fun p => p_dirty p <= UNKNOWN) (sampled s)
  | SampleAge _ _ d _ s => d <= UNKNOWN /\ from_option (fun t => t < UNKNOWN) True (since s) /\ Forall (fun p => p_dirty p <= UNKNOWN) (sampled s)
  | Rollback todo since => from_option (fun t => t < UNKNOWN) True since /\ Forall (fun p => p_dirty p <= UNKNOWN) todo
  | _ => True
  end.

Lemma some_step f ts i pc pc' : ts !! i = Some pc -> (f pc = true -> f pc' = true) -> some f ts -> some f (<[i := pc']> ts).
Proof.
  intros E Hf (j & q & Hq & Hfq). destruct (decide (i = j)) as [<-|Hn].
  - exists i, pc'. rewrite list_lookup_insert_eq by (by eapply lookup_lt_Some). split; [done | ]. apply Hf. congruence.
  - exists j, q. by rewrite list_lookup_insert_ne.
Qed.

Lemma some_here f ts i pc pc' : ts !! i = Some pc -> f pc' = true -> some f (<[i := pc']> ts).
Proof. intros E Hf. exists i, pc'. rewrite list_lookup_insert_eq by (by eapply lookup_lt_Some). done. Qed.

Lemma some_step_inv f ts i pc pc' : ts !! i = Some pc -> some f (<[i := pc']> ts) -> (f pc' = true -> f pc = true) -> some f ts.
Proof.
  intros E (j & q & Hq & Hfq) Hf. apply list_lookup_insert_Some in Hq as [(<- & <- & _)|[_ Hq]]; [exists i, pc | exists j, q]; auto.
Qed.

(** ** Locks of the shard *)

Record shard_locks (w : World) (ts : list Pc) : Prop := {
  sl_checkpoint : tally checkpoints ts = Nat.b2n (checkpointing w);
  sl_map : tally swapping ts = Nat.b2n (shard_lock w);
}.

Lemma shard_locks_step w ts i pc ok w' pc' : locks w ts -> words w ts -> shard_locks w ts -> ts !! i = Some pc -> exec w pc ok = (w', pc') -> shard_locks w' (<[i := pc']> ts).
Proof.
  intros HL Hw [H1 H2] E Ex. pose proof (tally_insert checkpoints ts i pc pc' E) as T1. pose proof (tally_insert swapping ts i pc pc' E) as T2.
  assert (checkpoints pc = true -> checkpointing w = true) as Hk.
  { intros F. pose proof (tally_pos _ _ _ _ E F). destruct (checkpointing w); [done | simpl in *; lia]. }
  assert (swapping pc = true -> shard_lock w = true) as Hs.
  { intros F. pose proof (tally_pos _ _ _ _ E F). destruct (shard_lock w); [done | simpl in *; lia]. }
  pose proof (w_local _ _ Hw i pc E) as Hl. clear E.
  destruct pc; by_exec Ex; cbn [checkpoints swapping local] in *; proj_all; try (constructor; proj_all; lia).
  all: destruct pc; try (exfalso; clear -Hl; naive_solver); cbn [checkpoints swapping] in *; constructor; proj_all; lia.
Qed.

(** ** The summary of the block *)

Definition since_noted (w : World) (ts : list Pc) : Prop :=
  work_since (work w) < UNKNOWN -> is_Some (summary (work w)) \/ some inserting ts \/ some swapping ts.

Lemma since_noted_step w ts i pc ok w' pc' : local pc -> since_noted w ts -> ts !! i = Some pc -> exec w pc ok = (w', pc') -> since_noted w' (<[i := pc']> ts).
Proof.
  intros Hl Hn E Ex. unfold since_noted in *.
  assert (forall w'', work_since (work w'') = work_since (work w) -> summary (work w'') = summary (work w) -> inserting pc = false -> swapping pc = false ->
    work_since (work w'') < UNKNOWN -> is_Some (summary (work w'')) \/ some inserting (<[i := pc']> ts) \/ some swapping (<[i := pc']> ts)) as Hk.
  { intros w'' -> -> Hi Hs Hlt. destruct (Hn Hlt) as [|[|]]; [by left | right; left | right; right]; (eapply some_step; [done | congruence | done]). }
  destruct pc; by_exec Ex; try (apply Hk; done); proj_all.
  - intros Hlt. rewrite Z.min_l in Hlt by lia. by apply (Hk w).
  - intros _. right; left. by eapply some_here.
  - intros _. right; left. by eapply some_here.
  - intros _. left. by eexists.
  - intros _. left. by eexists.
  - intros _. right; right. by eapply some_here.
  - lia.
Qed.

(** ** The marks of the pages *)

Definition noted (w : World) (ts : list Pc) : Prop := is_Some (summary (work w)) \/ some publishing ts.

Definition marks_noted (w : World) (ts : list Pc) : Prop :=
  forall h, resident w h -> dirty_since (page_of w h) < UNKNOWN -> noted w ts \/ some (samples h) ts.

Lemma since_noted_any w ts h : since_noted w ts -> work_since (work w) < UNKNOWN -> noted w ts \/ some (samples h) ts.
Proof.
  intros Hn Hlt. destruct (Hn Hlt) as [|[(i & pc & Hi & Hp)|(i & pc & Hi & Hp)]]; [left; by left | left; right | right]; exists i, pc; split; try done; by destruct pc.
Qed.

(** Steps that neither mark nor sample. *)
Definition plain (pc : Pc) : bool :=
  match pc with
  | Mark _ _ _ | Dirty _ _ | Insert _ _ | Consume _ | Swap _ _ | Sample _ _ | SampleAge _ _ _ _ _ | Rollback _ _ => false
  | _ => true
  end.

Lemma dirty_alter w w' f h0 h : heap w' = alter f h0 (heap w) -> (forall s, dirty_since (f s) = dirty_since s) ->
  dirty_since (page_of w' h) = dirty_since (page_of w h).
Proof.
  intros E Hf. unfold page_of. rewrite E, list_lookup_alter. destruct (decide (h0 = h)) as [->|]; [ | done].
  destruct (heap w !! h); simpl; [apply Hf | done].
Qed.

Lemma page_app w w' s h : heap w' = heap w ++ [s] -> s = new_page -> page_of w' h = page_of w h.
Proof.
  intros E ->. unfold page_of. rewrite E. destruct (decide (h < length (heap w))%nat) as [Hlt|Hge]; [by rewrite lookup_app_l | ].
  rewrite lookup_app_r by lia. rewrite (lookup_ge_None_2 (heap w)) by lia. by destruct (h - length (heap w))%nat.
Qed.

Lemma exec_plain w pc ok w' pc' : plain pc = true -> exec w pc ok = (w', pc') ->
  work_since (work w') = work_since (work w) /\ summary (work w') = summary (work w) /\
  (forall h, dirty_since (page_of w' h) = dirty_since (page_of w h)).
Proof.
  intros Hp Ex. destruct pc; try discriminate Hp; by_exec Ex; proj_all;
    (splits; [done | done | intros ?h; try done; try (eapply dirty_alter; [reflexivity | done])]).
  by erewrite page_app.
Qed.

(** A page enters the table unmarked and of unknown age. *)
Lemma resident_before w pc ok w' pc' h : exec w pc ok = (w', pc') -> resident w' h -> resident w h \/ page_of w' h = new_page.
Proof.
  intros Ex Hr.
  destruct (exec_pages _ _ _ _ _ Ex) as [pc w' Ep _|page access now g w' _ Ep El|page h' flags e n w' _ He -> Ep _|e w' Ep _|now l w' Ep _].
  - left. unfold resident in *. by rewrite Ep in Hr.
  - destruct Hr as (p & e & He & <-). rewrite Ep in He. apply lookup_insert_Some in He as [[_ <-]|[_ He]]; [right | left; by exists p, e].
    unfold page_of. by rewrite El, list_lookup_middle.
  - left. by apply (reselected w w' page e (selection e + 1) h).
  - left. destruct Hr as (p & f & Hf & <-). rewrite Ep in Hf. apply lookup_delete_Some in Hf as [_ Hf]. by exists p, f.
  - by apply gone_cleared in Hr.
Qed.

Record bounded (w : World) : Prop := {
  b_track : track_access (work w) = true;
  b_dirty : forall h, dirty_since (page_of w h) <= UNKNOWN;
  b_since : work_since (work w) <= UNKNOWN;
  b_summary : forall t, summary (work w) = Some t -> t < UNKNOWN;
}.

Lemma noted_keep w ts i pc w' pc' h : ts !! i = Some pc -> summary (work w') = summary (work w) -> publishing pc = false ->
  (samples h pc = true -> samples h pc' = true) -> noted w ts \/ some (samples h) ts ->
  noted w' (<[i := pc']> ts) \/ some (samples h) (<[i := pc']> ts).
Proof.
  intros E Es Hp Hs [[H|H]|H]; [left; left; congruence | left; right | right]; (eapply some_step; [done | | done]); congruence || done.
Qed.

Lemma marks_noted_step w ts i pc ok w' pc' : bounded w -> inv w ts -> timely pc -> since_noted w ts -> marks_noted w ts ->
  ts !! i = Some pc -> exec w pc ok = (w', pc') -> marks_noted w' (<[i := pc']> ts).
Proof.
  intros [Ht Hb _ _] Hi Htm Hn Hm E Ex h Hr Hd.
  assert (resident w h) as Hr0 by (destruct (resident_before _ _ _ _ _ _ Ex Hr) as [|Hn0]; [done | rewrite Hn0 in Hd; simpl in Hd; lia]).
  assert (dirty_since (page_of w h) < UNKNOWN -> noted w ts \/ some (samples h) ts) as Hm0 by (by apply Hm). clear Hm.
  destruct (plain pc) eqn:Hp.
  { destruct (exec_plain _ _ _ _ _ Hp Ex) as (_ & Es & Ed). rewrite Ed in Hd. apply (noted_keep w ts i pc); auto; by destruct pc. }
  pose proof (resident_valid w ts h (i_words _ _ Hi) Hr0) as Hlt.
  destruct pc; try discriminate Hp; clear Hp; by_exec Ex; cbn [timely] in Htm; proj_all; rewrite ?Ht in *; try discriminate;
    try (left; right; by eapply some_here); try (left; left; by eexists);
    try (eapply (noted_keep w); [done | done | done | done | by apply Hm0]).
  - eapply (noted_keep w); [done | done | done | done | ]. apply Hm0. specialize (Hb h). destruct (decide (h = h0)) as [->|Hne]; [lia | ].
    erewrite (page_alter w) in Hd by done. by rewrite decide_False in Hd.
  - destruct Hn as [H|[H|H]]; [lia | left; by left | left; right | right].
    + assert (some inserting (<[i := pc]> ts)) as (j & q & Hq & Hf) by (eapply some_step; [exact E | done | exact H]). exists j, q. split; [done | by destruct q].
    + assert (some swapping (<[i := pc]> ts)) as (j & q & Hq & Hf) by (eapply some_step; [exact E | done | exact H]). exists j, q. split; [done | by destruct q].
  - right. eapply some_here; [done | ]. done.
  - right. eapply some_here; [done | ]. apply bool_decide_true. destruct Hr0 as (p & e & He & <-). apply list_elem_of_fmap. exists (p, handle e).
    split; [done | ]. apply list_elem_of_fmap. exists (p, e). split; [done | by apply elem_of_map_to_list].
  - erewrite (page_alter w) in Hd by done. destruct (decide (h = n)) as [->|Hne]; [simpl in Hd; lia | ].
    eapply (noted_keep w); [done | done | done | | by apply Hm0]. cbn [samples]. rewrite !bool_decide_eq_true, fmap_cons, elem_of_cons. simpl. naive_solver.
Qed.

(** ** Times *)

Lemma bounded_alter w w' f h0 : heap w' = alter f h0 (heap w) -> track_access (work w') = track_access (work w) ->
  work_since (work w') = work_since (work w) -> summary (work w') = summary (work w) ->
  (forall s, dirty_since s <= UNKNOWN -> dirty_since (f s) <= UNKNOWN) -> bounded w -> bounded w'.
Proof.
  intros Eh E1 E2 E3 Hf [B1 B2 B3 B4]. constructor; rewrite ?E1, ?E2, ?E3; auto. intros h. unfold page_of. rewrite Eh, list_lookup_alter.
  specialize (B2 h). unfold page_of in B2. destruct (decide (h0 = h)) as [->|]; [ | done]. destruct (heap w !! h); simpl in *; auto.
Qed.

Lemma bounded_work w w' : heap w' = heap w -> track_access (work w') = true -> work_since (work w') <= UNKNOWN ->
  (forall t, summary (work w') = Some t -> t < UNKNOWN) -> bounded w -> bounded w'.
Proof. intros Eh H1 H2 H3 [B1 B2 B3 B4]. constructor; [done | | done..]. unfold page_of. by rewrite Eh. Qed.

Lemma exec_bounded w pc ok w' pc' : bounded w -> timely pc -> exec w pc ok = (w', pc') -> bounded w'.
Proof.
  intros Hb Ht Ex. pose proof Hb as [B1 B2 B3 B4]. destruct pc; by_exec Ex; cbn [timely] in Ht; try done;
    try (eapply (bounded_alter w); [reflexivity | done | done | done | intros ?s ?Hs; simpl; lia | done]);
    try (eapply bounded_work; proj_all; try done; try (intros ? [=]); lia).
  - constructor; try done. intros h. by erewrite page_app.
Qed.

Lemma exec_timely w pc ok w' pc' : bounded w -> timely pc -> exec w pc ok = (w', pc') -> timely pc'.
Proof.
  intros Hb Ht Ex. pose proof Hb as [B1 B2 B3 B4]. destruct pc; by_exec Ex; cbn [timely] in *; try done; try lia; try tauto.
  - destruct (summary (work w)); simpl; auto.
  - destruct Ht as (Hd & Hs & Hf). split; [done | ]. simpl. apply Forall_app. by rewrite Forall_singleton.
  - destruct Ht as [Hs [_ Hf]%Forall_cons]. done.
  - destruct Ht as [Hs [Hp Hf]%Forall_cons]. splits; [lia | done | done].
Qed.
End PageDirty.
