(* ===== verification/PageSaved.v ===== *)
(** What checkpoints save of a block (page_lifecycle.rs, runtime/page_maintenance.rs): when nothing is running and the block has no entry in
    the map of dirty blocks, the ages that a restart would load are the ages in memory. *)

From S2P Require Import Prelude PageLifecycle PageTasks PageClaims PageDirty.

#[local] Set Warnings "-clear-no-such-hyp".

Module PageSaved.
Import PageLifecycle PageTasks PageClaims PageDirty.

Definition table (w : World) : gmap Z nat := handle <$> pages (block w).

(** A mark of the page is in memory, or about to be. *)
Definition touched (w : World) (ts : list Pc) (h : nat) : Prop := dirty_since (page_of w h) < UNKNOWN \/ some (marking h) ts.

Definition sampling (h : nat) (pc : Pc) : bool := match pc with Sample ((_, h') :: _) _ => bool_decide (h' = h) | _ => false end.

Lemma page_alter_any w w' f h0 h : heap w' = alter f h0 (heap w) -> page_of w' h = page_of w h \/ h = h0 /\ page_of w' h = f (page_of w h).
Proof.
  intros E. unfold page_of. rewrite E, list_lookup_alter. destruct (decide (h0 = h)) as [->|]; [ | by left].
  destruct (heap w !! h); simpl; auto.
Qed.

Ltac on_page_cases :=
  match goal with
  | H : context [page_of (on_page ?a ?f ?w) ?h] |- _ =>
    let E := fresh "Ew" in let Eh := fresh "Eh" in
    destruct (page_alter_any w (on_page a f w) f a h eq_refl) as [E|[Eh E]]; rewrite E in H; clear E
  end.

Lemma exec_time w pc ok w' pc' h : exec w pc ok = (w', pc') ->
  last_access (page_of w' h) = last_access (page_of w h) \/ marking h pc' = true /\ exists now old next, pc = TouchLoop h now old next /\ last_access (page_of w' h) = now.
Proof.
  intros Ex. destruct pc; by_exec Ex; try (by left);
    try (edestruct (page_alter_any w) as [->|[-> ->]]; [reflexivity | by left | by left]).
  - destruct (page_alter_any w (on_page h0 (set_last now) w) (set_last now) h0 h eq_refl) as [->|[-> ->]]; [by left | right].
    split; [by apply bool_decide_true | by eexists _, _, _].
  - left. by erewrite page_app.
Qed.

Lemma exec_dirty w pc ok w' pc' h : exec w pc ok = (w', pc') -> timely pc -> sampling h pc = false -> dirty_since (page_of w h) < UNKNOWN -> dirty_since (page_of w' h) < UNKNOWN.
Proof.
  intros Ex Ht Hs Hd. destruct (plain pc) eqn:Hp; [destruct (exec_plain _ _ _ _ _ Hp Ex) as (_ & _ & Ed); by rewrite Ed | ].
  destruct pc; try discriminate Hp; clear Hp; by_exec Ex; try done; cbn [timely sampling] in *.
  - edestruct (page_alter_any w) as [->|[Eh ->]]; [reflexivity | done | subst h0; simpl; lia].
  - edestruct (page_alter_any w) as [->|[Eh ->]]; [reflexivity | done | subst h0; simpl; lia].
  - edestruct (page_alter_any w) as [->|[Eh ->]]; [reflexivity | done | ]. by rewrite bool_decide_true in Hs.
  - edestruct (page_alter_any w) as [->|[Eh ->]]; [reflexivity | done | simpl; lia].
Qed.

Lemma mark_dirty w h now next ok w' pc' : (h < length (heap w))%nat -> now < UNKNOWN -> exec w (Mark h now next) ok = (w', pc') ->
  dirty_since (page_of w' h) < UNKNOWN.
Proof. intros Hlt Hn Ex. by_exec Ex; erewrite (page_alter w) by done; rewrite decide_True by done; simpl; lia. Qed.

Lemma touched_step w ts i pc ok w' pc' h : words w ts -> timely pc -> ts !! i = Some pc -> exec w pc ok = (w', pc') -> sampling h pc = false ->
  touched w ts h -> touched w' (<[i := pc']> ts) h.
Proof.
  intros Hw Ht E Ex Hs [Hd|Hm]; [left; by eapply exec_dirty | ]. destruct (marking h pc) eqn:Hmk.
  - left. destruct pc; try discriminate Hmk. simpl in Hmk. apply bool_decide_eq_true in Hmk as ->.
    destruct (w_valid _ _ Hw i _ E) as [Hlt _], Ht as [Ht _]. by eapply mark_dirty.
  - right. eapply some_step; [done | congruence | done].
Qed.

Lemma time_step w ts i pc ok w' pc' h : ts !! i = Some pc -> exec w pc ok = (w', pc') ->
  last_access (page_of w' h) = last_access (page_of w h) \/ touched w' (<[i := pc']> ts) h.
Proof. intros E Ex. destruct (exec_time w pc ok w' pc' h Ex) as [|[Hm _]]; [by left | right; right; by eapply some_here]. Qed.

Lemma sampled_step w ts i pc ok w' pc' h : ts !! i = Some pc -> exec w pc ok = (w', pc') -> sampling h pc = true -> touched w ts h ->
  some (marking h) (<[i := pc']> ts) \/ some (carries h) (<[i := pc']> ts).
Proof.
  intros E Ex Hs [Hd|Hm]; [right | left].
  - destruct pc; try discriminate Hs. destruct todo as [|[p h'] todo]; [done | ]. simpl in Hs. apply bool_decide_eq_true in Hs as ->.
    by_exec Ex. eapply some_here; [done | ]. cbn [carries]. rewrite bool_decide_true by done. simpl. apply orb_true_iff. left. lia.
  - eapply some_step; [done | | done]. intros Hx. by destruct pc.
Qed.

(** A mark that was taken is given back, unless the checkpoint commits. *)
Lemma carries_step w ts i pc ok w' pc' h : words w ts -> timely pc -> ts !! i = Some pc -> exec w pc ok = (w', pc') -> (h < length (heap w))%nat ->
  carries h pc = true -> carries h pc' = true \/ dirty_since (page_of w' h) < UNKNOWN \/ exists s, pc = Flushed s /\ pc' = Done.
Proof.
  intros Hw Ht E Ex Hlt Hc. pose proof (w_local _ _ Hw i pc E) as Hl. clear E.
  destruct pc; try discriminate Hc; by_exec Ex; cbn [carries timely local] in *; try (by left); try (by right; right; eexists).
  - left. by rewrite Hc, orb_true_r.
  - left. simpl. rewrite existsb_app. simpl. unfold took at 2. simpl. rewrite orb_false_r, orb_comm. done.
  - left. simpl in Hc. unfold took at 1 in Hc. rewrite Heqb in Hc. simpl in Hc. by rewrite andb_false_r in Hc.
  - simpl in Hc. apply orb_true_iff in Hc as [Hp|Hc]; [right; left | by left]. unfold took in Hp. apply andb_true_iff in Hp as [<-%bool_decide_eq_true _].
    erewrite (page_alter w) by done. rewrite decide_True by done. destruct Ht as [_ [Hp _]%Forall_cons]. simpl. lia.
Qed.

(** ** Pages with a mark have a time *)

Definition known_time (w : World) (h : nat) : Prop := last_access (page_of w h) <> UNKNOWN.

Definition marked_known (w : World) (ts : list Pc) : Prop := forall h, touched w ts h \/ some (carries h) ts -> known_time w h.

Lemma known_time_step w pc ok w' pc' h : timely pc -> exec w pc ok = (w', pc') -> known_time w h -> known_time w' h.
Proof.
  intros Ht Ex Hk. unfold known_time in *. destruct (exec_time w pc ok w' pc' h Ex) as [->|(_ & now & old & next & -> & ->)]; [done | ].
  destruct Ht as [Ht _]. lia.
Qed.

Lemma exec_dirty_back w pc ok w' pc' h : timely pc -> exec w pc ok = (w', pc') -> dirty_since (page_of w' h) < UNKNOWN ->
  dirty_since (page_of w h) < UNKNOWN \/ marking h pc = true \/ carries h pc = true.
Proof.
  intros Ht Ex Hd. destruct (plain pc) eqn:Hp; [destruct (exec_plain _ _ _ _ _ Hp Ex) as (_ & _ & Ed); rewrite Ed in Hd; by left | ].
  destruct pc; try discriminate Hp; clear Hp; by_exec Ex; try (by left); cbn [marking carries timely] in *.
  - on_page_cases; [by left | right; left; by apply bool_decide_true].
  - on_page_cases; [by left | right; left; by apply bool_decide_true].
  - on_page_cases; [by left | simpl in Hd; lia].
  - on_page_cases; [by left | right; right]. simpl. unfold took at 1. by rewrite bool_decide_true, Heqb by done.
Qed.

Lemma exec_marking_back w pc ok w' pc' h : local pc -> exec w pc ok = (w', pc') -> marking h pc' = true -> exists now old next, pc = TouchLoop h now old next.
Proof.
  intros Hl Ex Hm. assert (forall q, resumes q = true -> marking h q <> true) as Hq by (by intros []).
  destruct pc; by_exec Ex; try discriminate Hm; cbn [local] in Hl; try (exfalso; refine (Hq _ _ Hm); tauto).
  simpl in Hm. apply bool_decide_eq_true in Hm as ->. by eexists _, _, _.
Qed.

Lemma exec_carries_back w pc ok w' pc' h : local pc -> bounded w -> exec w pc ok = (w', pc') -> carries h pc' = true -> carries h pc = true \/ dirty_since (page_of w h) < UNKNOWN.
Proof.
  intros Hl [_ Hb _ _] Ex Hc. destruct pc; by_exec Ex; try discriminate Hc; cbn [carries local guards hold] in *; try (by left).
  1-3: exfalso; destruct Hl as [Hl [Hr _]]; destruct pc; try discriminate Hr; try discriminate Hc; destruct Hl as [Hl|Hl]; done.
  - apply orb_true_iff in Hc as [Hc|Hc]; [right | by left]. apply andb_true_iff in Hc as [->%bool_decide_eq_true Hc]. specialize (Hb h). lia.
  - left. simpl in Hc. rewrite existsb_app in Hc. simpl in Hc. unfold took at 2 in Hc. simpl in Hc. by rewrite orb_false_r, orb_comm in Hc.
  - left. simpl. by rewrite Hc, orb_true_r.
  - left. simpl. by rewrite Hc, orb_true_r.
Qed.

Lemma marked_known_step w ts i pc ok w' pc' : bounded w -> words w ts -> timely pc -> marked_known w ts -> ts !! i = Some pc -> exec w pc ok = (w', pc') ->
  marked_known w' (<[i := pc']> ts).
Proof.
  intros Hb Hw Ht Hm E Ex h Hh. pose proof (w_local _ _ Hw i pc E) as Hl.
  assert (touched w ts h \/ some (carries h) ts -> known_time w' h) as Hk by (intros H; eapply known_time_step; [done.. | by apply Hm]).
  destruct Hh as [[Hd|(j & q & Hq & Hf)]|(j & q & Hq & Hf)].
  - destruct (exec_dirty_back w pc ok w' pc' h Ht Ex Hd) as [|[|]]; apply Hk; [left; by left | left; right; by exists i, pc | right; by exists i, pc].
  - apply list_lookup_insert_Some in Hq as [(<- & <- & _)|[_ Hq]]; [ | apply Hk; left; right; by exists j, q].
    destruct (exec_marking_back w pc ok w' pc' h Hl Ex Hf) as (now & old & next & ->). destruct Ht as [Ht _], (w_valid _ _ Hw i _ E) as [Hlt _].
    by_exec Ex; [ | done | exfalso; destruct Hl as (_ & Hr & _); by destruct next].
    unfold known_time. erewrite (page_alter w) by done. rewrite decide_True by done. simpl. lia.
  - apply list_lookup_insert_Some in Hq as [(<- & <- & _)|[_ Hq]]; [ | apply Hk; right; by exists j, q].
    destruct (exec_carries_back w pc ok w' pc' h Hl Hb Ex Hf) as [|]; apply Hk; [right; by exists i, pc | left; by left].
Qed.

(** ** Changes of the table *)

Definition revised (ts : list Pc) : Prop := ~ some unrevised ts.

(** A step keeps the table and the revision, or is in the middle of a change, or completes one. *)
Lemma exec_structure w pc ok w' pc' : local pc -> exec w pc ok = (w', pc') ->
  (table w' = table w /\ revision (block w') = revision (block w) /\ (unrevised pc = true -> unrevised pc' = true)) \/
  unrevised pc' = true \/
  (revision (block w') = revision (block w) + 1 /\ checkpointed_revision (block w') = checkpointed_revision (block w) /\
    exists now next, pc' = Dirty now next /\ in_block next = true).
Proof.
  intros Hl Ex. unfold table. destruct pc; by_exec Ex; proj_all; try (left; splits; done); try (by right; left);
    try (right; right; unfold checked_add in *; repeat case_match; simplify_eq; splits; [done | done | by eexists _, _]).
  left. splits; [ | done | done]. rewrite fmap_insert. simpl. apply insert_id. by rewrite lookup_fmap, Heqo.
Qed.

Lemma exec_revision w pc ok w' pc' : exec w pc ok = (w', pc') -> revision (block w) <= revision (block w').
Proof.
  intros Ex. destruct pc; by_exec Ex; proj_all; try lia; unfold checked_add in *; repeat case_match; simplify_eq; lia.
Qed.

Lemma exec_checkpointed w pc ok w' pc' : exec w pc ok = (w', pc') ->
  checkpointed_revision (block w') = checkpointed_revision (block w) /\ (forall s, pc = Flushed s -> pc' <> Done) \/
  exists s, pc = Flushed s /\ pc' = Done /\ ok = true.
Proof. intros Ex. destruct pc; by_exec Ex; proj_all; try (left; split; [done | by intros ? [=]]). right. by eexists. Qed.

Lemma exec_saved w pc ok w' pc' : exec w pc ok = (w', pc') -> saved w' = saved w \/ exists s, pc = Flush s /\ pc' = Flushed s.
Proof. intros Ex. destruct pc; by_exec Ex; proj_all; try (by left). right. by eexists. Qed.

(** ** The invariant *)

Definition pairs (s : Snapshot) : list (Z * nat) := (fun p => (p_page p, p_handle p)) <$> sampled s.

(** What a snapshot holds is current, or the page is marked again. *)
Definition samples_ok (w : World) (ts : list Pc) (s : Snapshot) : Prop :=
  Forall (fun p => p_access p = last_access_of (page_of w (p_handle p)) \/ touched w ts (p_handle p)) (sampled s).

Definition saved_ok (w : World) (ts : list Pc) : Prop :=
  (forall p h, table w !! p = Some h -> saved w !! p = last_access_of (page_of w h) \/ touched w ts h) /\
  (forall p, is_Some (saved w !! p) -> is_Some (table w !! p)).

Definition sample_ok (w : World) (ts : list Pc) (todo : list (Z * nat)) (s : Snapshot) : Prop :=
  at_revision s = revision (block w) /\ (replace s = false -> checkpointed_revision (block w) = revision (block w)) /\
  todo ++ pairs s ≡ₚ map_to_list (table w) /\ samples_ok w ts s.

Definition checkpoint_ok (w : World) (ts : list Pc) (pc : Pc) : Prop :=
  match pc with
  | Sample todo s => sample_ok w ts todo s
  | SampleAge page h _ todo s => sample_ok w ts ((page, h) :: todo) s
  | Flush s =>
    checkpointed_revision (block w) <= at_revision s <= revision (block w) /\ (replace s = false -> checkpointed_revision (block w) = at_revision s) /\
    (revision (block w) = at_revision s -> revised ts -> pairs s ≡ₚ map_to_list (table w)) /\ samples_ok w ts s
  | Flushed s =>
    checkpointed_revision (block w) <= at_revision s <= revision (block w) /\ (revision (block w) = at_revision s -> revised ts -> saved_ok w ts)
  | _ => True
  end.

Definition ages (w : World) (ts : list Pc) : Prop :=
  revision (block w) = checkpointed_revision (block w) -> revised ts ->
  (forall p h, table w !! p = Some h -> saved w !! p = last_access_of (page_of w h) \/ touched w ts h \/ some (carries h) ts) /\
  (forall p, is_Some (saved w !! p) -> is_Some (table w !! p)).

Definition changes_noted (w : World) (ts : list Pc) : Prop :=
  revision (block w) <> checkpointed_revision (block w) -> is_Some (summary (work w)) \/ some (revises (revision (block w))) ts.

Record saving (w : World) (ts : list Pc) : Prop := {
  v_order : checkpointed_revision (block w) <= revision (block w);
  v_checkpoint : forall i pc, ts !! i = Some pc -> checkpoint_ok w ts pc;
  v_ages : ages w ts;
  v_changes : changes_noted w ts;
}.

Lemma revised_back ts i pc pc' : ts !! i = Some pc -> (unrevised pc = true -> unrevised pc' = true) -> revised (<[i := pc']> ts) -> revised ts.
Proof. intros E Hu Hr Hs. apply Hr. by eapply some_step. Qed.

Lemma revised_here ts i pc pc' : ts !! i = Some pc -> revised (<[i := pc']> ts) -> unrevised pc' = false.
Proof. intros E Hr. destruct (unrevised pc') eqn:H; [ | done]. destruct Hr. by eapply some_here. Qed.

(** A page in the table is covered by what was saved unless it was touched since, and stays so. *)
Lemma saved_ok_step w ts i pc ok w' pc' : words w ts -> timely pc -> ts !! i = Some pc -> exec w pc ok = (w', pc') ->
  (forall h, sampling h pc = false) -> table w' = table w -> saved w' = saved w -> saved_ok w ts -> saved_ok w' (<[i := pc']> ts).
Proof.
  intros Hw Ht E Ex Hs Et Es [H1 H2]. split; rewrite Et, Es; [ | done]. intros p h Hp.
  destruct (H1 p h Hp) as [Hl|Hl]; [ | right; by eapply touched_step].
  destruct (time_step w ts i pc ok w' pc' h E Ex) as [El|]; [left | by right]. unfold last_access_of. by rewrite El.
Qed.

Lemma samples_ok_step w ts i pc ok w' pc' s : words w ts -> timely pc -> ts !! i = Some pc -> exec w pc ok = (w', pc') ->
  (forall p, p ∈ sampled s -> sampling (p_handle p) pc = false) -> samples_ok w ts s -> samples_ok w' (<[i := pc']> ts) s.
Proof.
  unfold samples_ok. rewrite !Forall_forall. intros Hw Ht E Ex Hs H p Hp.
  destruct (H p Hp) as [Hl|Hl]; [ | right; eapply touched_step; eauto].
  destruct (time_step w ts i pc ok w' pc' (p_handle p) E Ex) as [El|]; [left | by right]. unfold last_access_of. by rewrite El.
Qed.

Lemma checkpoint_kept w ts i pc ok w' pc' j q : inv w ts -> shard_locks w ts -> saving w ts -> timely pc -> ts !! i = Some pc -> exec w pc ok = (w', pc') ->
  ts !! j = Some q -> i <> j -> checkpoint_ok w' (<[i := pc']> ts) q.
Proof.
  intros Hi [HS _] Hv Ht E Ex Eq Hn. pose proof (v_checkpoint _ _ Hv j q Eq) as Hq. destruct (checkpoints q) eqn:Hc; [ | by destruct q].
  assert (checkpoints pc = false) as Hcp.
  { destruct (checkpoints pc) eqn:Hp; [ | done]. destruct Hn. eapply (tally_one checkpoints); [ | exact E | exact Eq | done | done].
    rewrite HS. destruct (checkpointing w); simpl; lia. }
  assert (forall h, sampling h pc = false) as Hsm by (intros h; by destruct pc).
  assert (checkpointed_revision (block w') = checkpointed_revision (block w)) as Ec.
  { destruct (exec_checkpointed _ _ _ _ _ Ex) as [[? _]|(s & -> & _)]; done. }
  assert (saved w' = saved w) as Es by (destruct (exec_saved _ _ _ _ _ Ex) as [|(s & -> & _)]; done).
  pose proof (exec_structure w pc ok w' pc' (w_local _ _ (i_words _ _ Hi) i pc E) Ex) as Hst.
  pose proof (exec_revision _ _ _ _ _ Ex) as Hrev. pose proof (i_words _ _ Hi) as Hw.
  assert (forall s, samples_ok w ts s -> samples_ok w' (<[i := pc']> ts) s) as Hsok by (intros s; eapply samples_ok_step; eauto).
  assert (in_block q = true -> block w' = block w) as Hb.
  { intros Hin. destruct (others_excluded w ts i j pc q (i_locks _ _ Hi) E Eq Hn) as [Ho _]. destruct (Ho Hin) as [H1 H2]. by eapply exec_outside. }
  assert (forall r (P : Prop), r <= revision (block w) -> revision (block w') = r -> revised (<[i := pc']> ts) ->
    (table w' = table w -> revision (block w) = r -> revised ts -> P) -> P) as Hsame.
  { intros r P Hr Er Hrv HP. destruct Hst as [(H1 & H2 & H3)|[H|(H & _)]]; [ | by rewrite (revised_here _ _ _ _ E Hrv) in H | lia].
    apply HP; [done | lia | by apply (revised_back ts i pc pc' E H3)]. }
  destruct q; try exact I; try discriminate Hc; cbn [checkpoint_ok] in *; unfold sample_ok, table in *.
  - rewrite (Hb eq_refl). naive_solver.
  - rewrite (Hb eq_refl). naive_solver.
  - destruct Hq as (H1 & H2 & H3 & H4). rewrite Ec. splits; [lia.. | done | | auto].
    intros Er Hrv. apply (Hsame (at_revision s)); [lia | done | done | ]. intros -> Er' Hrv'. auto.
  - destruct Hq as (H1 & H2). rewrite Ec. splits; [lia.. | ].
    intros Er Hrv. apply (Hsame (at_revision s)); [lia | done | done | ]. intros Et Er' Hrv'. eapply saved_ok_step; eauto.
Qed.

(** Reading back what a checkpoint writes. *)
Lemma records_elem s q a : (q, a) ∈ omap (fun p => if replace s || negb (p_dirty p =? UNKNOWN) then pair (p_page p) <$> p_access p else None) (sampled s) <->
  exists p, p ∈ sampled s /\ (replace s = true \/ p_dirty p <> UNKNOWN) /\ p_page p = q /\ p_access p = Some a.
Proof.
  rewrite list_elem_of_omap. split.
  - intros (p & Hp & Hf). exists p. split; [done | ]. destruct (replace s || negb (p_dirty p =? UNKNOWN)) eqn:E; [ | done].
    apply fmap_Some in Hf as (a' & Ha & [= -> ->]). split; [ | done]. destruct (replace s); [by left | right]. simpl in E. lia.
  - intros (p & Hp & Hc & <- & Ha). exists p. split; [done | ]. replace (replace s || negb (p_dirty p =? UNKNOWN)) with true; [by rewrite Ha | ].
    symmetry. apply orb_true_iff. destruct Hc; [by left | right; lia].
Qed.

Lemma pages_unique s p q : NoDup (pairs s).*1 -> p ∈ sampled s -> q ∈ sampled s -> p_page p = p_page q -> p = q.
Proof.
  unfold pairs. rewrite <- list_fmap_compose. intros Hnd [i Hi]%list_elem_of_lookup_1 [j Hj]%list_elem_of_lookup_1 Hp.
  assert (i = j) as ->; [ | congruence]. eapply NoDup_lookup; [exact Hnd | rewrite list_lookup_fmap, Hi; done | ].
  rewrite list_lookup_fmap, Hj. simpl. by rewrite Hp.
Qed.

Lemma records_NoDup s : NoDup (pairs s).*1 -> forall q a b,
  (q, a) ∈ omap (fun p => if replace s || negb (p_dirty p =? UNKNOWN) then pair (p_page p) <$> p_access p else None) (sampled s) ->
  (q, b) ∈ omap (fun p => if replace s || negb (p_dirty p =? UNKNOWN) then pair (p_page p) <$> p_access p else None) (sampled s) -> a = b.
Proof.
  intros Hnd q a b (p & Hp & _ & <- & Ha)%records_elem (p' & Hp' & _ & Hq & Hb)%records_elem.
  assert (p = p') as <- by (by apply (pages_unique s)). congruence.
Qed.

Lemma records_Some s q a : NoDup (pairs s).*1 -> records s !! q = Some a <->
  exists p, p ∈ sampled s /\ (replace s = true \/ p_dirty p <> UNKNOWN) /\ p_page p = q /\ p_access p = Some a.
Proof.
  intros Hnd. rewrite <- records_elem. unfold records. split; [apply elem_of_list_to_map_2 | ].
  intros He. apply elem_of_list_to_map_1'; [ | done]. intros b Hb. by apply (records_NoDup s Hnd q).
Qed.

Lemma handles_unique s p q : NoDup (pairs s).*2 -> p ∈ sampled s -> q ∈ sampled s -> p_handle p = p_handle q -> p = q.
Proof.
  unfold pairs. rewrite <- list_fmap_compose. intros Hnd [i Hi]%list_elem_of_lookup_1 [j Hj]%list_elem_of_lookup_1 Hp.
  assert (i = j) as ->; [ | congruence]. eapply NoDup_lookup; [exact Hnd | rewrite list_lookup_fmap, Hi; done | ].
  rewrite list_lookup_fmap, Hj. simpl. by rewrite Hp.
Qed.

Lemma carries_checkpoints h pc : carries h pc = true -> checkpoints pc = true.
Proof. induction pc; simpl; auto; discriminate. Qed.

Lemma flush_saves w ts i s : saving w ts -> marked_known w ts -> NoDup (pairs s).*1 -> NoDup (pairs s).*2 -> ts !! i = Some (Flush s) ->
  (forall j q, ts !! j = Some q -> checkpoints q = true -> j = i) ->
  revision (block w) = at_revision s -> revised ts -> saved_ok (set_saved (replay s (saved w)) w) ts.
Proof.
  intros Hv Hk N1 N2 E Hu Er Hrv. destruct (v_checkpoint _ _ Hv i _ E) as (Ho & Hrep & Hp & Hs). specialize (Hp Er Hrv).
  unfold samples_ok in Hs. rewrite Forall_forall in Hs. unfold saved_ok, replay. cbn [saved set_saved].
  change (table (set_saved _ w)) with (table w).
  assert (forall q h, table w !! q = Some h -> exists p, p ∈ sampled s /\ p_page p = q /\ p_handle p = h) as Hin.
  { intros q h Hq%elem_of_map_to_list. rewrite <- Hp in Hq. apply list_elem_of_fmap in Hq as (p & [= -> ->] & Hps). by exists p. }
  assert (forall q, is_Some (records s !! q) -> is_Some (table w !! q)) as Hdom.
  { intros q [a (p & Hps & _ & <- & _)%records_Some]; [ | done]. exists (p_handle p). apply elem_of_map_to_list. rewrite <- Hp.
    apply list_elem_of_fmap. by exists p. }
  destruct (replace s) eqn:Hr.
  - split; [ | done]. intros q h (p & Hps & <- & <-)%Hin. destruct (Hs p Hps) as [Hl|]; [left | by right]. transitivity (p_access p); [ | exact Hl]. clear Hl.
    destruct (p_access p) as [a|] eqn:Ha; [apply records_Some; [done | exists p; auto] | ].
    destruct (records s !! p_page p) as [a|] eqn:Hx; [ | done]. apply records_Some in Hx as (p' & Hp' & _ & Hpp & Ha'); [ | done].
    assert (p' = p) as -> by (by apply (pages_unique s)). congruence.
  - destruct (v_ages _ _ Hv) as [A1 A2]; [by rewrite Hrep | done | ]. split.
    + intros q h Hq. destruct (Hin q h Hq) as (p & Hps & <- & <-).
      destruct (decide (p_dirty p = UNKNOWN)) as [Hd|Hd].
      * assert (records s !! p_page p = None) as Hx.
        { destruct (records s !! p_page p) as [a|] eqn:Hx; [exfalso | done]. apply records_Some in Hx as (p' & Hp' & [?|Hd'] & Hpp & _); [congruence | | done].
          assert (p' = p) as -> by (by apply (pages_unique s)). done. }
        rewrite lookup_union_r by done. destruct (A1 _ _ Hq) as [|[|(j & c & Hj & Hc)]]; [by left | by right | exfalso].
        assert (j = i) as -> by (by apply (Hu j c), (carries_checkpoints (p_handle p))). rewrite E in Hj. injection Hj as <-.
        simpl in Hc. apply existsb_exists in Hc as (p' & Hp'%list_elem_of_In & [Hh%bool_decide_eq_true Hd']%andb_true_iff).
        assert (p' = p) as -> by (by apply (handles_unique s)). lia.
      * destruct (Hs p Hps) as [Hl|]; [ | by right]. left. transitivity (p_access p); [ | exact Hl].
        assert (known_time w (p_handle p)) as Hkn.
        { apply Hk. right. exists i, (Flush s). split; [done | ]. simpl. apply existsb_exists. exists p. split; [by apply list_elem_of_In | ].
          apply andb_true_iff. split; [by apply bool_decide_true | lia]. }
        destruct (p_access p) as [a|] eqn:Ha.
        -- apply lookup_union_Some_l, records_Some; [done | ]. exists p. auto.
        -- unfold last_access_of, known, known_time in *. destruct (Z.eqb_spec (last_access (page_of w (p_handle p))) UNKNOWN); done.
    + intros q [a Ha]. apply lookup_union_Some_raw in Ha as [Ha|[_ Ha]]; [apply Hdom | apply A2]; by eexists.
Qed.

(** ** Steps of a checkpoint *)

Lemma table_handles w ts : claims w ts -> NoDup (map_to_list (table w)).*2.
Proof.
  intros Hc. unfold table. rewrite map_to_list_fmap.
  rewrite <- list_fmap_compose. change (snd ∘ prod_map id handle) with (handle ∘ (@snd Z PageEntry)). rewrite list_fmap_compose.
  apply handles_NoDup, Hc.
Qed.

Lemma marks_same w ts i pc w' pc' h : ts !! i = Some pc -> heap w' = heap w -> marking h pc = false -> touched w ts h -> touched w' (<[i := pc']> ts) h.
Proof.
  intros E Eh Hm [Hd|Hs]; [left; unfold page_of in *; by rewrite Eh | right]. eapply some_step; [done | congruence | done].
Qed.

Lemma samples_same w ts i pc w' pc' s : ts !! i = Some pc -> heap w' = heap w -> (forall h, marking h pc = false) -> samples_ok w ts s -> samples_ok w' (<[i := pc']> ts) s.
Proof.
  unfold samples_ok. rewrite !Forall_forall. intros E Eh Hm H p Hp. destruct (H p Hp) as [Hl|Hl]; [left | right; by eapply marks_same].
  unfold page_of in *. by rewrite Eh.
Qed.

Lemma checkpoint_own w ts i pc ok w' pc' : inv w ts -> shard_locks w ts -> marked_known w ts -> saving w ts -> timely pc -> ts !! i = Some pc ->
  exec w pc ok = (w', pc') -> checkpoint_ok w' (<[i := pc']> ts) pc'.
Proof.
  intros Hi [HS _] Hk Hv Ht E Ex. pose proof (v_checkpoint _ _ Hv i pc E) as Hc. pose proof (w_local _ _ (i_words _ _ Hi) i pc E) as Hl.
  assert (forall q w, resumes q = true -> checkpoint_ok w (<[i := pc']> ts) q) as Hq by (by intros []).
  assert (pc' = pc -> w' = w -> checkpoint_ok w' (<[i := pc']> ts) pc') as Hstay by (intros -> ->; by rewrite list_insert_id).
  destruct pc; by_exec Ex; try exact I; cbn [local] in Hl; try (apply Hq; tauto); try (by apply Hstay).
  all: clear Hstay Hq; cbn [checkpoint_ok] in *; unfold sample_ok in *.
  - splits; [done | | | by constructor].
    + simpl. intros [_ Hr%negb_false_iff]%orb_false_iff. lia.
    + unfold table. rewrite map_to_list_fmap. by rewrite app_nil_r.
  - destruct Hc as (H1 & H2 & H3 & H4). pose proof (v_order _ _ Hv). splits; [proj_all; lia | proj_all; lia | intros; proj_all; rewrite H1; auto | done | by eapply samples_same].
  - destruct Hc as (H1 & H2 & H3 & H4). unfold sample_ok. splits; [done | done | done | ]. eapply (samples_ok_step w ts i _ true); [apply Hi | done | exact E | done | | done].
    intros c Hp. simpl. apply bool_decide_false. intros ->.
    pose proof (table_handles w ts (i_claims _ _ Hi)) as Hnd. rewrite <- H3 in Hnd. simpl in Hnd. apply NoDup_cons in Hnd as [Hnd _].
    apply Hnd. rewrite fmap_app, elem_of_app. right. apply list_elem_of_fmap. exists (p_page c, p_handle c). split; [done | ]. apply list_elem_of_fmap. by exists c.
  - destruct Hc as (H1 & H2 & H3 & H4). splits; [done | done | | ].
    + unfold pairs. simpl. rewrite fmap_app. simpl. rewrite app_assoc, <- Permutation_cons_append. exact H3.
    + unfold samples_ok. simpl. apply Forall_app. split; [by eapply samples_same | ]. apply Forall_singleton. by left.
  - destruct Hc as (H1 & H2 & H3 & H4). proj_all. splits; [lia.. | ]. intros Er Hrv.
    assert (revised ts) as Hrv0 by (by apply (revised_back _ _ _ (Flushed s) E)).
    pose proof (NoDup_fst_map_to_list (table w)) as N1. pose proof (table_handles w ts (i_claims _ _ Hi)) as N2. rewrite <- (H3 Er Hrv0) in N1, N2.
    assert (saved_ok (set_saved (replay s (saved w)) w) ts) as [S1 S2].
    { eapply flush_saves; eauto. intros j q Hj Hq. eapply (tally_one checkpoints); [ | exact Hj | exact E | done | done].
      rewrite HS. destruct (checkpointing w); simpl; lia. }
    split; [ | done]. intros p h Hp. destruct (S1 p h Hp) as [|Hx]; [by left | right]. by apply (marks_same _ _ _ _ _ _ _ E eq_refl eq_refl Hx).
Qed.

Lemma sampling_dec h pc : sampling h pc = true \/ sampling h pc = false.
Proof. destruct (sampling h pc); auto. Qed.

Lemma ages_step w ts i pc ok w' pc' : inv w ts -> shard_locks w ts -> marked_known w ts -> saving w ts -> timely pc -> ts !! i = Some pc ->
  exec w pc ok = (w', pc') -> ages w' (<[i := pc']> ts).
Proof.
  intros Hi HS Hk Hv Ht E Ex Er Hrv. pose proof (i_words _ _ Hi) as Hw. pose proof (w_local _ _ Hw i pc E) as Hl.
  destruct (exec_checkpointed _ _ _ _ _ Ex) as [[Ec Hnc]|(s & -> & -> & ->)].
  2: { (* a commit *)
    destruct (v_checkpoint _ _ Hv i _ E) as [H1 H2]. cbn [exec] in Ex. unfold commit, locked in Ex. destruct (inner w); [done | ]. injection Ex as <-. proj_all.
    destruct H2 as [S1 S2]; [done | by apply (revised_back _ _ _ Done E) | ]. split; [ | done]. intros p h Hp.
    destruct (S1 p h Hp) as [|Hx]; [by left | right; left]. by apply (marks_same _ _ _ _ _ _ _ E eq_refl eq_refl Hx). }
  pose proof (v_order _ _ Hv) as Ho. pose proof (exec_revision _ _ _ _ _ Ex) as Hrev.
  destruct (exec_structure w pc ok w' pc' Hl Ex) as [(Et & Er' & Hun)|[Hun|(Er' & _)]]; [ | by rewrite (revised_here _ _ _ _ E Hrv) in Hun | lia].
  assert (revised ts) as Hrv0 by (by apply (revised_back ts i pc pc' E Hun)).
  destruct (exec_saved _ _ _ _ _ Ex) as [Es|(s & -> & ->)].
  2: { (* a snapshot is written *)
    destruct (checkpoint_own w ts i (Flush s) ok w' (Flushed s) Hi HS Hk Hv Ht E Ex) as [H1 H2].
    destruct H2 as [S1 S2]; [lia | done | ]. split; [ | done]. intros p h Hp. destruct (S1 p h Hp); auto. }
  destruct (v_ages _ _ Hv) as [A1 A2]; [lia | done | ]. unfold ages. rewrite Et, Es. split; [ | done]. intros p h Hp.
  assert (h < length (heap w))%nat as Hlt.
  { unfold table in Hp. rewrite lookup_fmap in Hp. apply fmap_Some in Hp as (e & He & ->). by eapply w_table. }
  destruct (A1 p h Hp) as [Hx|[Hx|(j & q & Hq & Hx)]].
  - destruct (time_step w ts i pc ok w' pc' h E Ex) as [El|]; [left | auto]. unfold last_access_of. by rewrite El.
  - destruct (sampling_dec h pc) as [Hsm|Hsm]; [ | right; left; by eapply touched_step].
    destruct (sampled_step w ts i pc ok w' pc' h E Ex Hsm Hx) as [Hm|]; [right; left; by right | auto].
  - destruct (decide (i = j)) as [<-|Hn]; [ | right; right; exists j, q; by rewrite list_lookup_insert_ne].
    assert (q = pc) as -> by congruence. destruct (carries_step w ts i pc ok w' pc' h Hw Ht E Ex Hlt Hx) as [|[|(s & -> & ->)]].
    + right; right. by eapply some_here.
    + right; left. by left.
    + by destruct (Hnc s).
Qed.

Lemma exec_revises w pc ok w' pc' : bounded w -> local pc -> exec w pc ok = (w', pc') -> revises (revision (block w)) pc = true ->
  revises (revision (block w)) pc' = true \/ is_Some (summary (work w')) \/ (exists now, pc = Dirty now pc' /\ work_since (work w) <= now) \/ (exists s, pc = Flushed s /\ pc' = Done).
Proof.
  intros [Ht _ _ _] Hl Ex Hr. destruct pc; try discriminate Hr; by_exec Ex; proj_all; cbn [revises] in *; rewrite ?Ht in *; try discriminate; try (by left);
    try (right; left; by eexists); try (right; right; left; eexists; split; [done | lia]); try (by right; right; right; eexists).
  - left. simpl. rewrite Z.eqb_refl. by destruct since0.
  - left. apply andb_true_iff in Hr as [_ [t Hr]%bool_decide_eq_true]. by rewrite Hr.
  - left. apply andb_true_iff in Hr as [_ [t Hr]%bool_decide_eq_true]. by rewrite Hr.
Qed.

Lemma exec_summary w pc ok w' pc' : exec w pc ok = (w', pc') -> is_Some (summary (work w)) ->
  is_Some (summary (work w')) \/ exists full t, pc' = Swap full (Some t).
Proof.
  intros Ex Hs. destruct pc; by_exec Ex; proj_all; try (by left); try (left; by eexists). right. destruct Hs as [t ->]. by eexists _, _.
Qed.

(** A notification that finds an earlier one can rely on it. *)
Lemma dirty_noted w ts i now next : inv w ts -> shard_locks w ts -> since_noted w ts -> ts !! i = Some (Dirty now next) -> work_since (work w) < UNKNOWN ->
  in_block next = true \/ next = EndCheckpoint -> is_Some (summary (work w)) \/ some inserting ts.
Proof.
  intros Hi [HS _] Hn E Hlt Hx. destruct (Hn Hlt) as [|[|(j & q & Hj & Hq)]]; [by left | by right | exfalso].
  assert (i = j) as <-; [ | rewrite E in Hj; by injection Hj as <-]. destruct Hx as [Hx| ->].
  - eapply (tally_one in_block); [ | exact E | exact Hj | done | by destruct q]. rewrite (l_inner _ _ (i_locks _ _ Hi)). destruct (inner w); simpl; lia.
  - eapply (tally_one checkpoints); [ | exact E | exact Hj | done | by destruct q]. rewrite HS. destruct (checkpointing w); simpl; lia.
Qed.

Lemma exec_revision_cases w pc ok w' pc' : exec w pc ok = (w', pc') ->
  revision (block w') = revision (block w) \/ exists now next, pc' = Dirty now next /\ in_block next = true.
Proof. intros Ex. destruct pc; by_exec Ex; proj_all; try (by left); right; by eexists _, _. Qed.

Lemma commit_revision w s w' : exec w (Flushed s) true = (w', Done) -> checkpointed_revision (block w') = at_revision s.
Proof. cbn [exec]. unfold commit, locked. destruct (inner w); [done | ]. by intros [= <-]. Qed.

Lemma changes_step w ts i pc ok w' pc' : inv w ts -> shard_locks w ts -> bounded w -> since_noted w ts -> saving w ts -> timely pc -> ts !! i = Some pc ->
  exec w pc ok = (w', pc') -> changes_noted w' (<[i := pc']> ts).
Proof.
  intros Hi HS Hb Hn Hv Ht E Ex Hne. pose proof (w_local _ _ (i_words _ _ Hi) i pc E) as Hl.
  pose proof (v_order _ _ Hv) as Ho. pose proof (exec_revision _ _ _ _ _ Ex) as Hrev.
  destruct (exec_revision_cases _ _ _ _ _ Ex) as [Er|(now & next & -> & Hx)]; [ | right; eapply some_here; [done | simpl; by rewrite Hx]].
  assert (revision (block w) <> checkpointed_revision (block w)) as Hne0.
  { destruct (exec_checkpointed _ _ _ _ _ Ex) as [[Ec _]|(s & -> & -> & ->)]; [lia | ]. destruct (v_checkpoint _ _ Hv i _ E) as [Hs _].
    pose proof (commit_revision _ _ _ Ex). lia. }
  rewrite Er. destruct (v_changes _ _ Hv Hne0) as [Hs|(j & q & Hj & Hq)].
  - destruct (exec_summary _ _ _ _ _ Ex Hs) as [|(full & t & ->)]; [by left | right]. by eapply some_here.
  - destruct (decide (i = j)) as [<-|Hnj]; [ | right; exists j, q; by rewrite list_lookup_insert_ne]. assert (q = pc) as -> by congruence.
    destruct (exec_revises w pc ok w' pc' Hb Hl Ex Hq) as [|[|[(now & -> & Hw)|(s & -> & ->)]]]; [right; by eapply some_here | by left | | ].
    + destruct Ht as [Ht _]. simpl in Hq.
      assert ((in_block pc' = true \/ pc' = EndCheckpoint) \/ exists l t, pc' = Rollback l (Some t)) as [Hx|(l & t & ->)].
      { apply orb_true_iff in Hq as [Hq|Hq]; [auto | ]. destruct pc'; try discriminate Hq; [ | auto]. destruct since0; [eauto | done]. }
      * destruct (dirty_noted w ts i now pc' Hi HS Hn E ltac:(lia) Hx) as [Hs|(j & q & Hj' & Hq')].
        -- destruct (exec_summary _ _ _ _ _ Ex Hs) as [|(full & t & ->)]; [by left | ]. by destruct Hl.
        -- right. exists j, q. rewrite list_lookup_insert_ne; [split; [done | by destruct q] | ]. intros <-. rewrite E in Hj'. by injection Hj' as <-.
      * right. by eapply some_here.
    + exfalso. simpl in Hq. apply andb_true_iff in Hq as [Hq%Z.eqb_eq _].
      destruct (exec_checkpointed _ _ _ _ _ Ex) as [[_ Hnc]|(s' & _ & _ & ->)]; [by destruct (Hnc s) | ]. pose proof (commit_revision _ _ _ Ex). lia.
Qed.

(** ** Every state that can be reached *)

Record good (w : World) (ts : list Pc) : Prop := {
  g_inv : inv w ts;
  g_shard : shard_locks w ts;
  g_bounded : bounded w;
  g_timely : forall i pc, ts !! i = Some pc -> timely pc;
  g_since : since_noted w ts;
  g_marks : marks_noted w ts;
  g_known : marked_known w ts;
  g_saving : saving w ts;
}.

Lemma exec_good w ts i pc ok w' pc' : good w ts -> ts !! i = Some pc -> exec w pc ok = (w', pc') -> good w' (<[i := pc']> ts).
Proof.
  intros [Hi HS Hb Ht Hn Hm Hk Hv] E Ex. pose proof (Ht i pc E) as Htp. pose proof Hi as [HL Hw Hc]. pose proof (w_local _ _ Hw i pc E) as Hl.
  constructor.
  - pose proof (step_inv w ts (Step i ok) Hi) as H. simpl in H. by rewrite E, Ex in H.
  - by eapply shard_locks_step.
  - by eapply exec_bounded.
  - intros j q [(_ & <- & _)|[_ Hq]]%list_lookup_insert_Some; [by eapply exec_timely | by eapply Ht].
  - by eapply since_noted_step.
  - by eapply marks_noted_step.
  - by eapply marked_known_step.
  - constructor.
    + pose proof (v_order _ _ Hv). pose proof (exec_revision _ _ _ _ _ Ex).
      destruct (exec_checkpointed _ _ _ _ _ Ex) as [[Ec _]|(s & -> & -> & ->)]; [lia | ]. destruct (v_checkpoint _ _ Hv i _ E) as [Hs _].
      rewrite (commit_revision _ _ _ Ex). lia.
    + intros j q. rewrite list_lookup_insert_Some. intros [(<- & <- & _)|[Hnj Hq]]; [by eapply checkpoint_own | by eapply (checkpoint_kept w ts i pc)].
    + by eapply ages_step.
    + by eapply changes_step.
Qed.

Lemma starts_quiet pc : starts pc = true ->
  inserting pc = false /\ publishing pc = false /\ swapping pc = false /\ unrevised pc = false /\ checkpoints pc = false /\
  (forall h, marking h pc = false /\ samples h pc = false /\ carries h pc = false) /\ (forall r, revises r pc = false) /\
  (forall w ts, checkpoint_ok w ts pc).
Proof. destruct pc; simpl; try done; intros _; by splits. Qed.

Lemma some_spawn f ts pc : f pc = false -> some f (ts ++ [pc]) <-> some f ts.
Proof.
  intros Hf. split.
  - intros (i & q & [Hq|[_ [_ <-]%list_lookup_singleton_Some]]%lookup_app_Some & Hx); [by exists i, q | congruence].
  - intros (i & q & Hq & Hx). exists i, q. split; [by apply lookup_app_l_Some | done].
Qed.

Lemma checkpoint_ok_spawn w ts pc q : unrevised pc = false -> (forall h, marking h pc = false) -> checkpoint_ok w ts q -> checkpoint_ok w (ts ++ [pc]) q.
Proof.
  intros Hu Hm. assert (forall h, touched w (ts ++ [pc]) h <-> touched w ts h) as Ht by (intros h; unfold touched; by rewrite (some_spawn _ ts pc (Hm h))).
  assert (revised (ts ++ [pc]) <-> revised ts) as Hr by (unfold revised; by rewrite (some_spawn _ ts pc Hu)).
  assert (forall s, samples_ok w ts s -> samples_ok w (ts ++ [pc]) s) as Hs.
  { intros s. intros H. eapply Forall_impl; [exact H | ]. intros p [|]; [by left | right]. by apply Ht. }
  destruct q; simpl; unfold sample_ok, saved_ok; try done; rewrite ?Hr; try naive_solver.
Qed.

Lemma spawn_good w ts pc : starts pc = true -> timely pc -> good w ts -> good w (ts ++ [pc]).
Proof.
  intros Hs Ht [Hi [S1 S2] Hb HT Hn Hm Hk [V1 V2 V3 V4]]. pose proof (starts_quiet pc Hs) as (F1 & F2 & F3 & F4 & F5 & F6 & F7 & F8).
  assert (forall h, touched w (ts ++ [pc]) h <-> touched w ts h) as Htc by (intros h; unfold touched; by rewrite (some_spawn _ ts pc (proj1 (F6 h)))).
  assert (forall i q, (ts ++ [pc]) !! i = Some q -> ts !! i = Some q \/ q = pc) as Hin.
  { intros i q [?|[_ [_ <-]%list_lookup_singleton_Some]]%lookup_app_Some; auto. }
  constructor; [by apply spawn_inv | | done | | | | | constructor; [done | | | ]].
  - constructor; rewrite tally_app; simpl; rewrite ?F5, ?F3; simpl; lia.
  - intros i q [Hq| ->]%Hin; [by eapply HT | done].
  - unfold since_noted. by rewrite !some_spawn.
  - intros h. unfold noted. rewrite !some_spawn by (done || apply F6). apply Hm.
  - intros h. rewrite Htc, some_spawn by apply F6. apply Hk.
  - intros i q [Hq| ->]%Hin; [ | apply F8]. apply checkpoint_ok_spawn; [done | apply F6 | by eapply V2].
  - unfold ages, revised. rewrite (some_spawn unrevised) by done. intros Hx Hy. destruct (V3 Hx Hy) as [H1 H2]. split; [ | done].
    intros p h Hp. rewrite Htc, some_spawn by apply F6. by apply H1.
  - unfold changes_noted. rewrite some_spawn by apply F7. apply V4.
Qed.

Definition timely_event (ev : Event) : Prop := match ev with Spawn pc => timely pc | Step _ _ => True end.

Lemma run_good w ts evs : Forall timely_event evs -> good w ts -> good (run (w, ts) evs).1 (run (w, ts) evs).2.
Proof.
  unfold run. revert w ts. induction evs as [|ev evs IH]; intros w ts Hf Hg; [done | ]. apply Forall_cons in Hf as [He Hf]. cbn [foldl].
  destruct ev as [pc|i ok]; simpl in *.
  - destruct (starts pc) eqn:Hs; apply IH; try done. by apply spawn_good.
  - destruct (ts !! i) as [pc|] eqn:E; [ | by apply IH]. destruct (exec w pc ok) as [w' pc'] eqn:Ex. apply IH; [done | by eapply exec_good].
Qed.

(** ** A block as it starts *)

(** The ages in memory. *)
Definition current (w : World) : gmap Z Z := omap (fun e => last_access_of (page_of w (handle e))) (pages (block w)).

Definition started (l : list (Z * option Z)) : World := let w := restored true l in set_saved (current w) w.

Lemma lookup_current w p : current w !! p = table w !! p ≫= fun h => last_access_of (page_of w h).
Proof. unfold current, table. rewrite lookup_omap, lookup_fmap. by destruct (pages (block w) !! p). Qed.

(** A block that starts has no marks. *)
Record clean (w : World) : Prop := {
  cl_dirty : Forall (fun s => dirty_since s = UNKNOWN) (heap w);
  cl_revision : revision (block w) = checkpointed_revision (block w);
  cl_work : work w = mkWork true UNKNOWN None true;
  cl_locks : checkpointing w = false /\ shard_lock w = false;
}.

Lemma restore_clean w p a : clean w -> clean (restore w p a).
Proof.
  intros [Hd Hr Hw [Hc Hs]]. unfold restore. rewrite Hw. cbn [track_access].
  assert (forall h, dirty_since (default new_page (heap w !! h)) = UNKNOWN) as Hh.
  { intros h. destruct (heap w !! h) eqn:E; [ | done]. exact (Forall_lookup_1 _ _ _ _ Hd E). }
  destruct (pages _ !! p) as [e|]; constructor; proj_all; try done.
  - apply Forall_insert; [done | ]. simpl. apply Hh.
  - rewrite insert_app_r_alt, Nat.sub_diag by lia. apply Forall_app. split; [done | ]. simpl. constructor; [ | done].
    rewrite list_lookup_middle by done. done.
Qed.

Lemma restored_clean l : clean (restored true l).
Proof.
  unfold restored. induction l as [|[p a] l IH] using rev_ind; [by constructor | ]. rewrite foldl_app. by apply restore_clean.
Qed.

Lemma none_some f : some f [] -> False.
Proof. intros (i & pc & Hi & _). done. Qed.

Lemma started_good l : good (started l) [].
Proof.
  pose proof (restored_clean l) as [Hd Hr Hw [Hc Hs]]. pose proof (run_inv true l []) as [HL Hwd Hcl]. simpl in *.
  assert (forall h, dirty_since (page_of (started l) h) = UNKNOWN) as Hh.
  { intros h. unfold page_of. change (heap (started l)) with (heap (restored true l)). destruct (heap _ !! h) eqn:E; [ | done]. simpl. exact (Forall_lookup_1 _ _ _ _ Hd E). }
  assert (work (started l) = mkWork true UNKNOWN None true) as Hw' by done.
  assert (forall h, ~ touched (started l) [] h) as Ht by (intros h [H|H%none_some]; [rewrite Hh in H; lia | done]).
  constructor; [ | | | done | | | | constructor; [ | done | | ]].
  - split; [by destruct HL; constructor | by destruct Hwd; constructor | ]. destruct Hcl. by constructor.
  - constructor; [change (checkpointing (started l)) with (checkpointing (restored true l)); by rewrite Hc | ].
    change (shard_lock (started l)) with (shard_lock (restored true l)). by rewrite Hs.
  - constructor; rewrite ?Hw'; try done. intros h. rewrite Hh. done.
  - intros H. rewrite Hw' in H. simpl in H. lia.
  - intros h _ H. rewrite Hh in H. lia.
  - intros h [H|H%none_some]; [by apply Ht in H | done].
  - change (block (started l)) with (block (restored true l)). lia.
  - intros _ _. split; intros p; change (saved (started l)) with (current (started l)); rewrite lookup_current.
    + intros h ->. by left.
    + destruct (table _ !! p) as [h|]; [by eexists | by intros [? ?]].
  - intros H. by destruct H.
Qed.

(** C28: no access time is lost. Start a block whose ages were saved, and run reads, fills, selections, evictions of pages and of the block and checkpoints in any
    interleaving, with journal writes that fail at any point. Whenever no task is running and the block is not in the map of dirty blocks, a
    restart would load for every page the age it has in memory, and no age for a page that is gone. *)
Theorem clean_block_is_saved l evs : let s := run (started l, []) evs in
  Forall timely_event evs -> Forall (eq Done) s.2 -> summary (work s.1) = None -> saved s.1 = current s.1.
Proof.
  intros s Hev Hd Hs. subst s. destruct (run (started l, []) evs) as [w ts] eqn:E. simpl in Hd, Hs |- *.
  pose proof (run_good _ _ evs Hev (started_good l)) as [Hi _ _ _ _ Hm _ [_ _ V3 V4]]. rewrite E in *. simpl in *.
  assert (forall f, f Done = false -> ~ some f ts) as Hno.
  { intros f Hf (i & pc & Hi' & Hx). rewrite Forall_lookup in Hd. rewrite <- (Hd i pc Hi') in Hx. congruence. }
  assert (~ is_Some (summary (work w))) as Hns by (rewrite Hs; by intros [? ?]).
  destruct V3 as [H1 H2].
  - destruct (decide (revision (block w) = checkpointed_revision (block w))) as [|Hne]; [done | ]. destruct (V4 Hne) as [|H]; [done | by apply Hno in H].
  - by apply Hno.
  - apply map_eq. intros p. rewrite lookup_current. destruct (table w !! p) as [h|] eqn:Ep; simpl.
    + destruct (H1 p h Ep) as [|[[Hx|H]|H]]; [done | | by apply Hno in H..].
      assert (resident w h) as Hr by (unfold table in Ep; rewrite lookup_fmap in Ep; apply fmap_Some in Ep as (e & He & ->); by exists p, e).
      destruct (Hm h Hr Hx) as [[|H]|H]; [done | by apply Hno in H..].
    + destruct (saved w !! p) eqn:Es; [ | done]. destruct (H2 p) as [? ?]; [by eexists | congruence].
Qed.

(** A page is read and the checkpoint that follows fails; the next one saves the time of the read. *)
Definition demo_checkpoints : list Event :=
  Spawn (Acquire 0 (Served (Some 200))) :: repeat (Step 0 true) 10 ++
  Spawn (Checkpoint false) :: repeat (Step 1 true) 6 ++ repeat (Step 1 false) 7 ++ Spawn (Checkpoint false) :: repeat (Step 2 true) 8.

Lemma clean_block_is_saved_witness : let s := run (started [(0, Some 100)], []) demo_checkpoints in saved s.1 = current s.1 /\ saved s.1 !! 0 = Some 200.
Proof.
  split; [ | vm_compute; reflexivity].
  refine (clean_block_is_saved [(0, Some 100)] demo_checkpoints _ _ _).
  - unfold demo_checkpoints. repeat constructor; vm_compute; reflexivity.
  - vm_compute. repeat constructor.
  - vm_compute. reflexivity.
Defined.
End PageSaved.
