(* ===== verification/AccessRecord.v ===== *)
(** Access times of the pages of a block as they are stored (crates/talon-worker/src/page_access_store.rs): one checksummed record for
    each block, and what is believed of a record that is read back. *)

From S2P Require Import Prelude External Bytes Key.

Module AccessRecord.
Import Bytes Key.

(** [serde_json] for a block identity: what it writes it reads back. *)
Class IdJson := {
  id_to_vec : BlockId -> result io_error (list byte);
  id_from_slice : list byte -> result io_error BlockId;
  id_json_roundtrip : forall id b, id_to_vec id = Ok b -> id_from_slice b = Ok id
}.

Definition MAGIC : list byte := s "TLNACC01".

Record AccessSnapshot := mkAccess { revision : Z; sampled_at : Z; records : list (Z * Z) }.
Record AccessRecovery := mkRecovery { r_records : gmap Z Z; r_corrupt : bool; future : Z; future_pages : list Z }.

Definition no_recovery : AccessRecovery := mkRecovery ∅ false 0 [].

Definition fail {A} (message : string) : result io_error A := Err (OtherError message).

(** [u32::try_from]. *)
Definition to_u32 (n : nat) : result io_error Z := if Z.of_nat n <? 2 ^ 32 then Ok (Z.of_nat n) else fail "out of range integral type conversion attempted".

Definition pair_bytes (p : Z * Z) : list byte := le_bytes 4 p.1 ++ le_bytes 8 p.2.

Definition record_body (n : Z) (identity : list byte) (page_size count : Z) (sn : AccessSnapshot) : list byte :=
  MAGIC ++ le_bytes 4 1 ++ le_bytes 4 n ++ identity ++ le_bytes 4 page_size ++ le_bytes 8 (revision sn) ++ le_bytes 8 (sampled_at sn) ++
  le_bytes 4 count ++ concat (pair_bytes <$> records sn).

Section Record.
Context `{Xxh3} `{IdJson}.

Definition sealed (b : list byte) : list byte := b ++ le_bytes 8 (xxh3_64 b).

Definition encode (id : BlockId) (page_size : Z) (sn : AccessSnapshot) : result io_error (list byte) :=
  identity ← id_to_vec id;
  n ← to_u32 (length identity);
  count ← to_u32 (length (records sn));
  Ok (sealed (record_body n identity page_size count sn)).

(** A time after the snapshot or after now is not believed. *)
Definition note (now sampled page access : Z) (out : AccessRecovery) : AccessRecovery :=
  if (now <? access) || (sampled <? access) || (now <? sampled)
  then mkRecovery (r_records out) (r_corrupt out) (future out + 1) (future_pages out ++ [page])
  else mkRecovery (<[page := access]> (r_records out)) (r_corrupt out) (future out) (future_pages out).

Definition take_n (n : nat) (input : list byte) : result io_error (list byte * list byte) :=
  if (length input <? n)%nat then fail "truncated checkpoint" else Ok (take n input, drop n input).
Definition uint (n : nat) (input : list byte) : result io_error (Z * list byte) :=
  '(b, input) ← take_n n input; Ok (le_val b, input).

Fixpoint decode_records (count : nat) (input : list byte) (limit now sampled : Z) (previous : option Z) (out : AccessRecovery) : result io_error AccessRecovery :=
  match count with
  | O => Ok out
  | S count =>
    '(page, input) ← uint 4 input;
    '(access, input) ← uint 8 input;
    if negb ((page <? limit) && match previous with None => true | Some p => p <? page end) then fail "invalid or duplicate page index" else
    decode_records count input limit now sampled (Some page) (note now sampled page access out)
  end.

Definition decode_bytes (bytes : list byte) (id : BlockId) (page_size now : Z) : result io_error AccessRecovery :=
  if (length bytes <? 48)%nat then fail "invalid checkpoint length" else
  let checksum_at := (length bytes - 8)%nat in
  if negb (xxh3_64 (take checksum_at bytes) =? le_val (drop checksum_at bytes)) then fail "checksum mismatch" else
  '(magic, input) ← take_n 8 (take checksum_at bytes);
  if negb (bool_decide (magic = MAGIC)) then fail "unknown checkpoint format" else
  '(format, input) ← uint 4 input;
  if negb (format =? 1) then fail "unknown checkpoint format" else
  '(n, input) ← uint 4 input;
  '(identity, input) ← take_n (Z.to_nat n) input;
  stored ← id_from_slice identity;
  if negb (bool_decide (stored = id)) then fail "checkpoint identity mismatch" else
  '(size, input) ← uint 4 input;
  if negb (size =? page_size) then fail "checkpoint identity mismatch" else
  '(_, input) ← uint 8 input;
  '(sampled, input) ← uint 8 input;
  '(count, input) ← uint 4 input;
  if negb ((count <=? page_count id page_size) && (Z.of_nat (length input) =? count * 12)) then fail "invalid checkpoint record count" else
  decode_records (Z.to_nat count) input (page_count id page_size) now sampled None no_recovery.

(** ** What is read back *)

(** What is believed of a snapshot at time [now]. *)
Definition recovered (now : Z) (sn : AccessSnapshot) : AccessRecovery :=
  foldl (fun out p => note now (sampled_at sn) p.1 p.2 out) no_recovery (records sn).

(** A snapshot of values of the Rust types, with the pages of the block in order. *)
Record snapshot_ok (id : BlockId) (page_size : Z) (sn : AccessSnapshot) : Prop := {
  ok_block : is_u 32 (block_size id);
  ok_size : is_u 32 page_size;
  ok_revision : is_u 64 (revision sn);
  ok_sampled : is_u 64 (sampled_at sn);
  ok_pages : Forall (fun p => 0 <= p.1 < page_count id page_size /\ p.1 < 2 ^ 32 /\ is_u 64 p.2) (records sn);
  ok_order : StronglySorted (fun p q => p.1 < q.1) (records sn);
}.

Lemma length_pair p : length (pair_bytes p) = 12%nat.
Proof. unfold pair_bytes. by rewrite length_app, !length_le_bytes. Qed.

Lemma length_pairs l : length (concat (pair_bytes <$> l)) = (12 * length l)%nat.
Proof. induction l as [|p l IH]; [done | ]. cbn [fmap list_fmap concat length]. rewrite length_app, IH, length_pair. lia. Qed.

Lemma take_n_app x rest n : length x = n -> take_n n (x ++ rest) = Ok (x, rest).
Proof. intros <-. unfold take_n. rewrite length_app, (proj2 (Nat.ltb_ge _ _)), take_app_length, drop_app_length by lia. done. Qed.

Lemma uint_app n v rest : 0 <= v < 256 ^ Z.of_nat n -> uint n (le_bytes n v ++ rest) = Ok (v, rest).
Proof. intros Hv. unfold uint. rewrite take_n_app by apply length_le_bytes. cbn [mbind result_bind]. by rewrite le_val_le_bytes. Qed.

Lemma decode_records_pairs l limit now sampled previous out :
  Forall (fun p => 0 <= p.1 < limit /\ p.1 < 2 ^ 32 /\ is_u 64 p.2) l -> StronglySorted (fun p q => p.1 < q.1) l ->
  (forall p, previous = Some p -> Forall (fun q => p < q.1) l) ->
  decode_records (length l) (concat (pair_bytes <$> l)) limit now sampled previous out = Ok (foldl (fun out p => note now sampled p.1 p.2 out) out l).
Proof.
  revert previous out. induction l as [|[page access] l IH]; intros previous out Hl Hs Hp; [done | ].
  apply Forall_cons in Hl as [(Hr & Hw & Ha) Hl]. apply StronglySorted_inv in Hs as [Hs Hlt]. cbn [fst snd] in *.
  cbn [fmap list_fmap concat length decode_records]. unfold pair_bytes at 1. cbn [fst snd]. rewrite <-!app_assoc.
  rewrite uint_app by (change (256 ^ Z.of_nat 4) with (2 ^ 32); lia). cbn [mbind result_bind].
  rewrite uint_app by (change (256 ^ Z.of_nat 8) with (2 ^ 64); apply Ha). cbn [mbind result_bind].
  assert ((page <? limit) && match previous with None => true | Some p => p <? page end = true) as ->.
  { apply andb_true_iff. split; [apply Z.ltb_lt; lia | ]. destruct previous as [p|]; [ | done]. specialize (Hp p eq_refl). apply Forall_cons in Hp as [Hp _]. by apply Z.ltb_lt. }
  cbn [negb]. rewrite IH; [done | done | done | ]. by intros p [= <-].
Qed.

(** Sorted pages below a bound are no more than the bound. *)
Lemma sorted_count (l : list (Z * Z)) a limit : Forall (fun p => a <= p.1 < limit) l -> StronglySorted (fun p q => p.1 < q.1) l -> a <= limit -> a + Z.of_nat (length l) <= limit.
Proof.
  revert a. induction l as [|p l IH]; intros a Hl Hs Hle; [simpl; lia | ]. apply Forall_cons in Hl as [Hp Hl]. apply StronglySorted_inv in Hs as [Hs Hlt].
  assert (p.1 + 1 + Z.of_nat (length l) <= limit) as Hx; [ | cbn [length]; lia]. apply IH; [ | done | lia].
  rewrite Forall_forall in *. intros q Hq. specialize (Hl q Hq). specialize (Hlt q Hq). simpl in *. lia.
Qed.

Lemma to_u32_ok n v : to_u32 n = Ok v -> v = Z.of_nat n /\ v < 2 ^ 32.
Proof. unfold to_u32. destruct (Z.ltb_spec (Z.of_nat n) (2 ^ 32)); [intros [= <-]; lia | done]. Qed.

Definition encoded (j : list byte) (ps : Z) (sn : AccessSnapshot) : list byte :=
  sealed (record_body (Z.of_nat (length j)) j ps (Z.of_nat (length (records sn))) sn).

Lemma encode_inv id ps sn b : encode id ps sn = Ok b ->
  exists j, id_to_vec id = Ok j /\ Z.of_nat (length j) < 2 ^ 32 /\ Z.of_nat (length (records sn)) < 2 ^ 32 /\ b = encoded j ps sn.
Proof.
  unfold encode. intros E. apply bind_ok_inv in E as (j & Hj & E). apply bind_ok_inv in E as (n & Hn & E). apply bind_ok_inv in E as (k & Hk & E).
  apply to_u32_ok in Hn as [-> Hn], Hk as [-> Hk]. exists j. splits; [done | done | done | ]. by injection E as <-.
Qed.

Lemma length_encoded j ps sn : length (encoded j ps sn) = (48 + length j + 12 * length (records sn))%nat.
Proof. unfold encoded, sealed, record_body. rewrite !length_app, !length_le_bytes, length_pairs. change (length MAGIC) with 8%nat. lia. Qed.

(** Where the readers of a shard find the identity. *)
Lemma encoded_identity j ps sn : Z.of_nat (length j) < 2 ^ 32 ->
  le_val (slice 12 4 (encoded j ps sn)) = Z.of_nat (length j) /\ slice 16 (length j) (encoded j ps sn) = j.
Proof.
  intros Hn. unfold encoded, sealed, record_body. rewrite <-!app_assoc. split.
  - rewrite (app_assoc MAGIC), slice_app_exact by (rewrite ?length_app, ?length_le_bytes; done).
    apply le_val_le_bytes. change (256 ^ Z.of_nat 4) with (2 ^ 32). lia.
  - rewrite (app_assoc MAGIC), (app_assoc (MAGIC ++ _)), slice_app_exact by (rewrite ?length_app, ?length_le_bytes; done). done.
Qed.

(** A record reads back as the part of the snapshot that is believed. *)
Lemma decode_encoded id j ps sn now : snapshot_ok id ps sn -> id_to_vec id = Ok j -> Z.of_nat (length j) < 2 ^ 32 -> Z.of_nat (length (records sn)) < 2 ^ 32 ->
  decode_bytes (encoded j ps sn) id ps now = Ok (recovered now sn).
Proof.
  intros [H0' H1 H2 H3 H4 H5] Hj Hn Hc. pose proof (length_encoded j ps sn) as Hlen. unfold decode_bytes. rewrite Hlen, (proj2 (Nat.ltb_ge _ _)) by lia.
  unfold encoded, sealed. set (body := record_body _ _ _ _ _). assert (length body = 40 + length j + 12 * length (records sn))%nat as Hb.
  { unfold encoded, sealed in Hlen. fold body in Hlen. rewrite length_app, length_le_bytes in Hlen. lia. }
  replace (48 + length j + 12 * length (records sn) - 8)%nat with (length body) by lia. rewrite take_app_length, drop_app_length.
  rewrite le_val_le_bytes by (apply xxh3_64_u64). rewrite Z.eqb_refl. cbn [negb]. unfold body, record_body.
  rewrite take_n_app by done. cbn [mbind result_bind]. rewrite bool_decide_true by done. cbn [negb].
  rewrite uint_app by done. cbn [mbind result_bind]. rewrite Z.eqb_refl. cbn [negb].
  rewrite uint_app by (change (256 ^ Z.of_nat 4) with (2 ^ 32); lia). cbn [mbind result_bind].
  rewrite take_n_app by (by rewrite Nat2Z.id). cbn [mbind result_bind]. rewrite (id_json_roundtrip _ _ Hj). cbn [mbind result_bind].
  rewrite bool_decide_true by done. cbn [negb].
  rewrite uint_app by apply H1. cbn [mbind result_bind]. rewrite Z.eqb_refl. cbn [negb].
  rewrite uint_app by apply H2. cbn [mbind result_bind]. rewrite uint_app by apply H3. cbn [mbind result_bind].
  rewrite uint_app by (change (256 ^ Z.of_nat 4) with (2 ^ 32); lia). cbn [mbind result_bind].
  rewrite length_pairs. assert (Z.of_nat (length (records sn)) <= page_count id ps) as Hle.
  { apply (sorted_count (records sn) 0); [ | done | ]; [by eapply Forall_impl; [exact H4 | ]; intros q Hq; apply Hq | ].
    unfold page_count, div_ceil. destruct (Z.eqb_spec ps 0); [done | ]. apply Z.div_pos; unfold is_u in *; lia. }
  rewrite (proj2 (Z.leb_le _ _)) by done. rewrite (proj2 (Z.eqb_eq _ _)) by lia. cbn [andb negb]. rewrite Nat2Z.id.
  by apply decode_records_pairs.
Qed.
End Record.

(** ** A toy instance, that knows one block *)

Definition demo_id : BlockId := mkBlockId (mkObjectId S3 [x62] [x70]) 0 64 [x76].

Definition toy_json : IdJson.
Proof.
  refine {| id_to_vec := fun id => if bool_decide (id = demo_id) then Ok [x7b; x7d] else fail "toy";
            id_from_slice := fun b => if bool_decide (b = [x7b; x7d]) then Ok demo_id else fail "toy" |}.
  intros id b. case_bool_decide; [ | done]. intros [= <-]. subst. by rewrite bool_decide_true.
Defined.

Definition demo_hash (id : BlockId) : Z := 0.
End AccessRecord.
