(* ===== verification/AccessShard.v ===== *)
(** The access times of a shard on disk (crates/talon-worker/src/page_access_shard.rs, page_access_shard/journal.rs): a snapshot of all blocks and a
    log of changes since, tied by a generation number. [flush] is a program of system calls; [load] reads the two files.

    [step] is the life of the files of a shard: flushes that advance call by call and can fail at any call, the death of the process
    or of the machine at any point, and startup. What was to be written is ghost state: [kept] are the contents that the disk may hold,
    [None] being no snapshot at all. *)

From S2P Require Import Prelude External Bytes Key FileSystem AccessRecord.

Module AccessShard.
Import Bytes Key FileSystem AccessRecord.

Definition SHARD_MAGIC : list byte := s "TLNSHR01".
Definition SNAPSHOT_MAGIC : list byte := s "TLNSHR02".
Definition LOG_MAGIC : list byte := s "TLNPAL01".
Definition HEADER : nat := 16.
Definition COMPACT_BYTES : Z := Z.shiftl 1 20.
Definition MAX_BYTES : Z := 64 * 1024 * 1024.
Definition WRITE_CHUNK : Z := 64 * 1024.

(** Temporary names are chosen by [tempfile]. *)
Inductive FileName := Shard | Log | Temp (n : nat).

#[export] Instance FileName_eq_dec : EqDecision FileName.
Proof. solve_decision. Defined.

#[export] Instance FileName_countable : Countable FileName.
Proof.
  apply (inj_countable' (fun x => match x with Shard => 0%nat | Log => 1%nat | Temp n => S (S n) end)
    (fun n => match n with O => Shard | S O => Log | S (S n) => Temp n end)). by intros [].
Defined.

#[export] Instance shard_temp_names : TempNames FileName := fun x => match x with Temp _ => true | _ => false end.

Abbreviation Fs := (FileSystem.Fs (Name := FileName)).
Abbreviation Op := (FileSystem.Op (Name := FileName)).
Abbreviation Prog := (FileSystem.Prog (Name := FileName)).

Record JournalState := mkJournal { generation : Z; snapshot_bytes : Z; log_bytes : Z; full : bool }.

Definition no_journal : JournalState := mkJournal 0 0 0 true.

Definition compact (j : JournalState) : bool := full j || (Z.max COMPACT_BYTES (div_ceil (snapshot_bytes j) 2) <=? log_bytes j).

Record ShardRecovery := mkShard { s_records : gmap BlockId AccessRecovery; s_corrupt : bool; s_journal : JournalState }.

Definition header (magic : list byte) (g : Z) : list byte := magic ++ le_bytes 8 g.

Definition blen (b : list byte) : Z := Z.of_nat (length b).
Definition starts_with (magic b : list byte) : bool := bool_decide (take (length magic) b = magic).

(** [b[i..j]]: a panic when out of range. *)
Definition index (i j : nat) (b : list byte) : Panic (list byte) :=
  if (i <=? j)%nat && (j <=? length b)%nat then Some (Ok (slice i (j - i) b)) else None.
Definition stop {A} (message : string) : Panic A := Some (fail message).
Definition done_with {A} (a : A) : Panic A := Some (Ok a).

(** [slice::chunks]. *)
Fixpoint chunks (fuel : nat) (n : Z) (b : list byte) : list (list byte) :=
  match fuel, b with
  | S fuel, _ :: _ => take (Z.to_nat n) b :: chunks fuel n (drop (Z.to_nat n) b)
  | _, _ => []
  end.

(** [File::take(n)] and [read_to_end]. *)
Definition read_limited (n : Z) (b : list byte) : list byte := if blen b <=? n then b else take (Z.to_nat n) b.

Abbreviation entry := (BlockId * AccessSnapshot)%type.
Abbreviation change := (BlockId * AccessSnapshot * bool)%type.

(** A snapshot and the changes logged since. *)
Abbreviation Content := (list entry * list change)%type.

Section Shard.
Context `{Xxh3} `{IdJson}.

(** The upper byte of the hash of a block identity by [DefaultHasher], whose algorithm is not specified. *)
Context (block_hash : BlockId -> Z).

Definition disk_shard (id : BlockId) : Z := Z.shiftr (block_hash id) 56.

(** ** Writing *)

Fixpoint encode_entries (ps : Z) (l : list (BlockId * AccessSnapshot)) (bytes : list byte) (count : Z) : result io_error (list byte * Z) :=
  match l with
  | [] => Ok (bytes, count)
  | (id, sn) :: l =>
    record ← AccessRecord.encode id ps sn;
    if MAX_BYTES <? blen bytes + blen record + 12 then fail "access shard exceeds 64 MiB limit" else
    n ← to_u32 (length record);
    encode_entries ps l (bytes ++ le_bytes 4 n ++ record) (count + 1)
  end.

Definition encode (ps : Z) (l : list (BlockId * AccessSnapshot)) : result io_error (list byte) :=
  '(bytes, count) ← encode_entries ps l (SHARD_MAGIC ++ le_bytes 4 ps ++ le_bytes 4 0) 0;
  Ok (sealed (take 12 bytes ++ le_bytes 4 count ++ drop 16 bytes)).

Definition frame (replace : bool) (record : list byte) : list byte :=
  let body := (if replace then x01 else x00) :: record in
  le_bytes 4 (blen body) ++ le_bytes 8 (xxh3_64 body) ++ body.

Fixpoint encode_frames (ps : Z) (l : list (BlockId * AccessSnapshot * bool)) (bytes : list byte) : result io_error (list byte) :=
  match l with
  | [] => Ok bytes
  | (id, sn, replace) :: l =>
    record ← AccessRecord.encode id ps sn;
    if MAX_BYTES <? blen bytes + blen record + 13 then fail "access delta exceeds 64 MiB limit" else
    encode_frames ps l (bytes ++ frame replace record)
  end.

Definition encode_delta (ps : Z) (l : list (BlockId * AccessSnapshot * bool)) : result io_error (list byte) := encode_frames ps l [].

Fixpoint write_chunks (x : FileName) (offset : nat) (cs : list (list byte)) : Prog unit :=
  match cs with
  | [] => mret tt
  | c :: cs => call (Write x offset c) ;; write_chunks x (offset + length c) cs
  end.

Definition publish_named (tmp : nat) (name : FileName) (bytes : list byte) : Prog unit :=
  call (Create (Temp tmp)) ;;
  write_chunks (Temp tmp) 0 (chunks (length bytes) WRITE_CHUNK bytes) ;;
  call (Sync (Temp tmp)) ;; call (Rename (Temp tmp) name) ;; call SyncDir.

Definition flush (tmp1 tmp2 : nat) (j : JournalState) (full : bool) (bytes : list byte) : Prog JournalState :=
  if full then
    g ← lift (ok_or (checked_add 64 (generation j) 1) (OtherError "access generation exhausted"));
    let snapshot := header SNAPSHOT_MAGIC g ++ bytes in
    publish_named tmp1 Shard snapshot ;;
    publish_named tmp2 Log (header LOG_MAGIC g) ;;
    mret (mkJournal g (blen snapshot) (Z.of_nat HEADER) false)
  else if (length bytes =? 0)%nat then mret (mkJournal (generation j) (snapshot_bytes j) (log_bytes j) false)
  else
    write_chunks Log (Z.to_nat (log_bytes j)) (chunks (length bytes) WRITE_CHUNK bytes) ;;
    call (Sync Log) ;;
    mret (mkJournal (generation j) (snapshot_bytes j) (log_bytes j + blen bytes) false).

(** ** Reading *)

Definition unwrap_snapshot (b : list byte) : Panic (list byte * Z) :=
  if starts_with SNAPSHOT_MAGIC b then
    if (length b <? 40)%nat then stop "truncated access snapshot generation" else
    let? g := index 8 16 b in
    if le_val g =? 0 then stop "invalid access snapshot generation" else
    let? rest := index 16 (length b) b in done_with (rest, le_val g)
  else done_with (b, 0).

(** The identity in a record, and the record. *)
Definition read_record (record : list byte) (shard ps now : Z) (kind : string) : Panic (BlockId * AccessRecovery) :=
  let? n := index 12 16 record in
  let identity_len := Z.to_nat (le_val n) in
  let? rest := index 16 (length record) record in
  if (length rest <? identity_len)%nat then stop kind else
  let? identity := index 16 (16 + identity_len) record in
  let? id := Some (id_from_slice identity) in
  if negb (disk_shard id =? shard) then stop "block in wrong shard" else
  let? recovered := Some (decode_bytes record id ps now) in
  done_with (id, recovered).

(** Every record takes 52 bytes or more. *)
Fixpoint load_records (fuel : nat) (count : Z) (input : list byte) (shard ps now : Z) (records : gmap BlockId AccessRecovery) : Panic (gmap BlockId AccessRecovery) :=
  if count =? 0 then if (length input =? 0)%nat then done_with records else stop "trailing shard data" else
  if (length input <? 4)%nat then stop "truncated shard record" else
  match fuel with
  | O => None
  | S fuel =>
    let? n := index 0 4 input in
    let n := Z.to_nat (le_val n) in
    let? input := index 4 (length input) input in
    if negb ((48 <=? n)%nat && (n <=? length input)%nat) then stop "invalid shard record length" else
    let? record := index 0 n input in
    let? input := index n (length input) input in
    let? '(id, recovered) := read_record record shard ps now "invalid block identity length" in
    match records !! id with
    | Some _ => stop "duplicate block identity"
    | None => load_records fuel (count - 1) input shard ps now (<[id := recovered]> records)
    end
  end.

(** One frame: it replaces what is known of the block, or adds to it. *)
Definition merge (old new : AccessRecovery) : AccessRecovery :=
  mkRecovery (r_records new ∪ foldr delete (r_records old) (future_pages new)) (r_corrupt old) (future old + future new) (future_pages old).

Definition apply_frame (id : BlockId) (replace : bool) (recovered : AccessRecovery) (records : gmap BlockId AccessRecovery) : gmap BlockId AccessRecovery :=
  if replace then
    if bool_decide (r_records recovered = ∅) && (future recovered =? 0) then delete id records else <[id := recovered]> records
  else <[id := merge (default no_recovery (records !! id)) recovered]> records.

Fixpoint replay_frames (fuel : nat) (input : list byte) (shard ps now : Z) (records : gmap BlockId AccessRecovery) : Panic (gmap BlockId AccessRecovery) :=
  if (length input <? 12)%nat then done_with records else
  match fuel with
  | O => None
  | S fuel =>
    let? l := index 0 4 input in
    let l := le_val l in
    if negb ((49 <=? l) && (l <=? MAX_BYTES)) then stop "invalid access log frame length" else
    let n := Z.to_nat l in
    if (length input <? 12 + n)%nat then done_with records else
    let? checksum := index 4 12 input in
    let? body := index 12 (12 + n) input in
    let? tag := index 0 1 body in
    if negb ((xxh3_64 body =? le_val checksum) && (le_val tag <=? 1)) then stop "corrupt access log frame" else
    let? record := index 1 (length body) body in
    let? '(id, recovered) := read_record record shard ps now "invalid access log identity" in
    let? input := index (12 + n) (length input) input in
    replay_frames fuel input shard ps now (apply_frame id (le_val tag =? 1) recovered records)
  end.

Definition replay (log : option (list byte)) (g shard ps now : Z) (records : gmap BlockId AccessRecovery) (j : JournalState)
  : Panic (gmap BlockId AccessRecovery * JournalState) :=
  match log with
  | None => done_with (records, j)
  | Some file =>
    let log := read_limited (2 * MAX_BYTES + Z.of_nat HEADER + 1) file in
    if negb ((HEADER <=? length log)%nat && (blen log <=? 2 * MAX_BYTES + Z.of_nat HEADER)) then stop "invalid access log length" else
    if negb (starts_with LOG_MAGIC log) then stop "invalid access log format" else
    let? g' := index 8 16 log in
    if negb (le_val g' =? g) then done_with (records, j) else
    let? input := index HEADER (length log) log in
    let? records := replay_frames (length input) input shard ps now records in
    done_with (records, mkJournal (generation j) (snapshot_bytes j) (blen log) (full j))
  end.

Definition load_files (file : list byte) (log : option (list byte)) (shard ps now : Z) : Panic ShardRecovery :=
  let bytes := read_limited (MAX_BYTES + 17) file in
  if negb ((24 <=? length bytes)%nat && (blen bytes <=? MAX_BYTES + 16)) then stop "invalid shard length" else
  let? '(bytes, g) := unwrap_snapshot bytes in
  let end_ := (length bytes - 8)%nat in
  let? sum := index end_ (length bytes) bytes in
  let? data := index 0 end_ bytes in
  if negb (xxh3_64 data =? le_val sum) then stop "shard checksum mismatch" else
  let? magic := index 0 8 bytes in
  let? size := index 8 12 bytes in
  if negb (bool_decide (magic = SHARD_MAGIC) && (le_val size =? ps)) then stop "shard format or page size mismatch" else
  let? count := index 12 16 bytes in
  let? input := index 16 end_ bytes in
  let? records := load_records (length input) (le_val count) input shard ps now ∅ in
  let j := mkJournal g (blen bytes) 0 true in
  if 0 <? g then let? '(records, j) := replay log g shard ps now records j in done_with (mkShard records false j)
  else done_with (mkShard records false j).

(** Without a snapshot there is nothing to recover; anything invalid loses the ages of the shard. The outer [None] is a panic. *)
Definition load (file log : option (list byte)) (shard ps now : Z) : option (option ShardRecovery) :=
  match file with
  | None => Some None
  | Some file =>
    match load_files file log shard ps now with
    | None => None
    | Some (Ok r) => Some (Some r)
    | Some (Err _) => Some (Some (mkShard ∅ true no_journal))
    end
  end.

(** ** The files of a shard over time *)

(** What is believed of it at time [now]. *)
Definition denote (now : Z) (c : Content) : gmap BlockId AccessRecovery :=
  foldl (fun m x => apply_frame x.1.1 x.2 (recovered now x.1.2) m) (list_to_map (prod_map id (recovered now) <$> c.1)) c.2.

(** A flush in progress: the calls to come, the journal state when they are done, and what the files then hold. *)
Record Task := mkTask { todo : list Op; next : JournalState; goal : Content }.

(** [journal] is [None] while the process is down. *)
Record Sys := mkSys { fs : Fs; journal : option JournalState; task : option Task; kept : list (option Content); base : Content }.

Definition files_init : Sys := mkSys empty_fs None None [None] ([], []).

Definition demand_full (j : JournalState) : JournalState := mkJournal (generation j) (snapshot_bytes j) (log_bytes j) true.

Definition entry_ok (ps shard : Z) (e : entry) : Prop := snapshot_ok e.1 ps e.2 /\ disk_shard e.1 = shard.

Definition prefixes (c : Content) (l : list change) : list (option Content) := (fun k => Some (c.1, c.2 ++ take k l)) <$> seq 0 (S (length l)).

(** [checkpoint_shard] begins a flush, demanding a full one in case it fails; any call may fail, a write also in the middle. *)
Inductive step (ps shard : Z) : Sys -> Sys -> Prop :=
  | step_full s j tmp1 tmp2 es bytes ops j' : journal s = Some j -> task s = None -> compact j = true ->
      dir (fs s) !! Temp tmp1 = None -> dir (fs s) !! Temp tmp2 = None ->
      Forall (entry_ok ps shard) es -> NoDup es.*1 -> encode ps es = Ok bytes -> flush tmp1 tmp2 j true bytes = (ops, Ok j') ->
      step ps shard s (mkSys (fs s) (Some (demand_full j)) (Some (mkTask ops j' (es, []))) (kept s ++ [Some (es, [])]) (base s))
  | step_delta s j tmp1 tmp2 l bytes ops j' : journal s = Some j -> task s = None -> compact j = false ->
      Forall (fun x => entry_ok ps shard x.1) l -> encode_delta ps l = Ok bytes -> flush tmp1 tmp2 j false bytes = (ops, Ok j') ->
      step ps shard s (mkSys (fs s) (Some (demand_full j)) (Some (mkTask ops j' ((base s).1, (base s).2 ++ l))) (prefixes (base s) l) (base s))
  | step_call s t op ops f : task s = Some t -> todo t = op :: ops -> exec op (fs s) = Some f ->
      step ps shard s (mkSys f (journal s) (Some (mkTask ops (next t) (goal t))) (kept s) (base s))
  | step_done s t : task s = Some t -> todo t = [] -> step ps shard s (mkSys (fs s) (Some (next t)) None [Some (goal t)] (goal t))
  | step_fail s t : task s = Some t -> step ps shard s (mkSys (fs s) (journal s) None (kept s) (base s))
  | step_torn s t x o b ops n f : task s = Some t -> todo t = Write x o b :: ops -> exec (Write x o (take n b)) (fs s) = Some f ->
      step ps shard s (mkSys f (journal s) None (kept s) (base s))
  | step_clean s n f : task s = None -> exec (Remove (Temp n)) (fs s) = Some f -> step ps shard s (mkSys f (journal s) None (kept s) (base s))
  | step_kill s f : kill (fs s) f -> step ps shard s (mkSys f None None (kept s) (base s))
  | step_power s f : power_loss (fs s) f -> step ps shard s (mkSys f None None (kept s) (base s))
  | step_load s now r : journal s = None -> load (content Shard (fs s)) (content Log (fs s)) shard ps now = Some r ->
      step ps shard s (mkSys (fs s) (Some match r with Some r => s_journal r | None => no_journal end) None (kept s) (base s)).

Inductive files_reach (ps shard : Z) : Sys -> Prop :=
  | reach_init : files_reach ps shard files_init
  | reach_step s s' : files_reach ps shard s -> step ps shard s s' -> files_reach ps shard s'.
End Shard.
End AccessShard.
