(* ===== verification/AccessLoad.v ===== *)
(** What the files of a shard contain (crates/talon-worker/src/page_access_shard.rs, page_access_shard/journal.rs): [load] reads back what [encode] and
    [encode_delta] write, also when the log is cut anywhere, and no bytes make it panic. *)

From S2P Require Import Prelude External Bytes Key FileSystem AccessRecord AccessShard.

Module AccessLoad.
Import Bytes Key FileSystem AccessRecord AccessShard.

Lemma index_ok i j (b : list byte) : (i <= j)%nat -> (j <= length b)%nat -> index i j b = Some (Ok (slice i (j - i) b)).
Proof. intros H1 H2. unfold index. by rewrite (proj2 (Nat.leb_le _ _) H1), (proj2 (Nat.leb_le _ _) H2). Qed.

Lemma index_app i j (a b c : list byte) : length a = i -> (i + length b)%nat = j -> index i j (a ++ b ++ c) = Some (Ok b).
Proof. intros <- <-. rewrite index_ok by len. f_equal. f_equal. apply slice_app_exact; [done | lia]. Qed.

Lemma index_first j (b c : list byte) : length b = j -> index 0 j (b ++ c) = Some (Ok b).
Proof. intros <-. by apply (index_app 0 (length b) [] b c). Qed.

Lemma index_rest i (a b : list byte) n : length a = i -> n = length (a ++ b) -> index i n (a ++ b) = Some (Ok b).
Proof. intros <- ->. rewrite <-(app_nil_r b) at 2. apply index_app; [done | by rewrite length_app]. Qed.

Section Load.
Context `{Xxh3} `{IdJson} (block_hash : BlockId -> Z) (ps shard now : Z).

Definition record_of (e : entry) : list byte := match AccessRecord.encode e.1 ps e.2 with Ok b => b | Err _ => [] end.
Definition entry_bytes (e : entry) : list byte := le_bytes 4 (blen (record_of e)) ++ record_of e.
Definition change_bytes (x : change) : list byte := frame x.2 (record_of x.1).

(** ** Records *)

Definition encodes (e : entry) : Prop := is_ok (AccessRecord.encode e.1 ps e.2) = true.

Lemma record_encoded e : encodes e -> exists j, id_to_vec e.1 = Ok j /\ Z.of_nat (length j) < 2 ^ 32 /\ Z.of_nat (length (records e.2)) < 2 ^ 32 /\ record_of e = encoded j ps e.2.
Proof. unfold encodes, record_of. destruct (AccessRecord.encode e.1 ps e.2) as [b|] eqn:E; [ | done]. intros _. by apply encode_inv. Qed.

Lemma length_record e : encodes e -> (48 <= length (record_of e))%nat.
Proof. intros (j & _ & _ & _ & ->)%record_encoded. rewrite length_encoded. lia. Qed.

Lemma read_record_ok e kind : encodes e -> entry_ok block_hash ps shard e ->
  read_record block_hash (record_of e) shard ps now kind = Some (Ok (e.1, recovered now e.2)).
Proof.
  intros (j & Hj & Hn & Hc & ->)%record_encoded [Hok Hs]. unfold read_record. pose proof (length_encoded j ps e.2) as Hlen.
  destruct (encoded_identity j ps e.2 Hn) as [H1 H2]. rewrite index_ok by lia. cbn [try_bind]. change (16 - 12)%nat with 4%nat. rewrite H1, Nat2Z.id.
  rewrite index_ok by lia. cbn [try_bind]. rewrite length_slice, (proj2 (Nat.ltb_ge _ _)) by lia. rewrite index_ok by lia. cbn [try_bind].
  replace (16 + length j - 16)%nat with (length j) by lia. rewrite H2, (id_json_roundtrip _ _ Hj). cbn [try_bind]. rewrite Hs, Z.eqb_refl. cbn [negb].
  by rewrite (decode_encoded e.1 j ps e.2 now).
Qed.

(** ** Snapshots *)

Lemma encode_entries_ok l bytes count b k : encode_entries ps l bytes count = Ok (b, k) -> blen bytes + 8 <= MAX_BYTES ->
  Forall encodes l /\ b = bytes ++ concat (entry_bytes <$> l) /\ k = count + Z.of_nat (length l) /\ blen b + 8 <= MAX_BYTES.
Proof.
  revert bytes count. induction l as [|[id sn] l IH]; intros bytes count; cbn [encode_entries].
  { intros [= <- <-] Hle. cbn [fmap list_fmap concat length]. rewrite app_nil_r. splits; [done | done | lia | done]. }
  intros E Hle. apply bind_ok_inv in E as (record & Hr & E). destruct (Z.ltb_spec MAX_BYTES (blen bytes + blen record + 12)) as [|Hlim]; [done | ].
  apply bind_ok_inv in E as (n & Hn & E). apply to_u32_ok in Hn as [-> Hn].
  assert (record_of (id, sn) = record) as Hrec by (unfold record_of; cbn [fst snd]; by rewrite Hr).
  destruct (IH _ _ E) as (Hf & -> & -> & Hb); [unfold blen in *; rewrite !length_app, length_le_bytes; lia | ]. splits; [ | | cbn [length]; lia | done].
  - constructor; [ | done]. unfold encodes. cbn [fst snd]. by rewrite Hr.
  - cbn [fmap list_fmap concat]. unfold entry_bytes at 2. rewrite Hrec, <-!app_assoc. done.
Qed.

Definition snapshot_data (l : list entry) : list byte := SHARD_MAGIC ++ le_bytes 4 ps ++ le_bytes 4 (Z.of_nat (length l)) ++ concat (entry_bytes <$> l).

Lemma snapshot_encode_ok l b : encode ps l = Ok b -> Forall encodes l /\ b = sealed (snapshot_data l) /\ blen b <= MAX_BYTES.
Proof.
  unfold encode. intros E. apply bind_ok_inv in E as ([b' k] & E' & E). apply encode_entries_ok in E' as (Hf & -> & -> & Hb); [ | done].
  apply Ok_same in E as <-. split; [done | ]. assert (take 12 ((SHARD_MAGIC ++ le_bytes 4 ps ++ le_bytes 4 0) ++ concat (entry_bytes <$> l)) ++
    le_bytes 4 (0 + Z.of_nat (length l)) ++ drop 16 ((SHARD_MAGIC ++ le_bytes 4 ps ++ le_bytes 4 0) ++ concat (entry_bytes <$> l)) = snapshot_data l) as ->.
  { rewrite (app_assoc SHARD_MAGIC), <-(app_assoc _ (le_bytes 4 0)). rewrite take_app_length' by (rewrite length_app, length_le_bytes; done).
    rewrite (app_assoc (SHARD_MAGIC ++ _) (le_bytes 4 0)), drop_app_length' by (rewrite !length_app, !length_le_bytes; done). unfold snapshot_data. by rewrite <-app_assoc. }
  split; [done | ]. revert Hb. unfold blen, sealed, snapshot_data. rewrite !length_app, !length_le_bytes. lia.
Qed.

Lemma load_records_ok l fuel m : Forall encodes l -> Forall (entry_ok block_hash ps shard) l -> NoDup l.*1 -> (forall e, e ∈ l -> m !! e.1 = None) ->
  Forall (fun e => blen (record_of e) < 2 ^ 32) l -> (length l <= fuel)%nat ->
  load_records block_hash fuel (Z.of_nat (length l)) (concat (entry_bytes <$> l)) shard ps now m =
    Some (Ok (foldl (fun m e => <[e.1 := recovered now e.2]> m) m l)).
Proof.
  revert fuel m. induction l as [|e l IH]; intros fuel m He Hok Hn Hm Hl Hf.
  { by destruct fuel. }
  apply Forall_cons in He as [He Hes], Hok as [Hok Hoks], Hl as [Hl Hls]. rewrite fmap_cons in Hn. apply NoDup_cons in Hn as [Hn Hns].
  destruct fuel as [|fuel]; [simpl in Hf; lia | ]. rewrite fmap_cons. cbn [concat length load_records foldl].
  rewrite (proj2 (Z.eqb_neq _ _)) by lia. pose proof (length_record e He) as Hlen.
  change (entry_bytes e) with (le_bytes 4 (blen (record_of e)) ++ record_of e). rewrite <-!app_assoc.
  rewrite (proj2 (Nat.ltb_ge _ _)) by (rewrite length_app, length_le_bytes; lia). rewrite index_first by apply length_le_bytes. cbn [try_bind].
  rewrite le_val_le_bytes by (change (256 ^ Z.of_nat 4) with (2 ^ 32); unfold blen in *; lia).
  rewrite (index_rest 4) by (rewrite ?length_le_bytes; done). cbn [try_bind]. replace (Z.to_nat (blen (record_of e))) with (length (record_of e)) by (unfold blen; lia).
  rewrite (proj2 (Nat.leb_le _ _)) by done. rewrite (proj2 (Nat.leb_le _ _)) by len. cbn [andb negb]. rewrite index_first by done. cbn [try_bind].
  rewrite (index_rest (length (record_of e))) by done. cbn [try_bind]. rewrite read_record_ok by done. cbn [try_bind].
  rewrite (Hm e) by left. replace (Z.of_nat (S (length l)) - 1) with (Z.of_nat (length l)) by lia. apply IH; try done; [ | simpl in Hf; lia].
  intros q Hq. rewrite lookup_insert_ne; [apply Hm; by right | ]. intros Heq. apply Hn. rewrite Heq. by apply list_elem_of_fmap_2.
Qed.

Lemma inserts_list_to_map (l : list entry) (m : gmap BlockId AccessRecovery) : NoDup l.*1 ->
  foldl (fun m e => <[e.1 := recovered now e.2]> m) m l = list_to_map (prod_map id (recovered now) <$> l) ∪ m.
Proof.
  revert m. induction l as [|e l IH]; intros m Hn; [by rewrite fmap_nil, list_to_map_nil, (left_id_L ∅ (∪)) | ]. rewrite fmap_cons in Hn. apply NoDup_cons in Hn as [Hn Hns].
  cbn [foldl]. rewrite IH by done. rewrite fmap_cons. destruct e as [i sn]. cbn [prod_map fst snd list_to_map foldr].
  rewrite <-insert_union_l, insert_union_r; [done | ]. apply not_elem_of_list_to_map_1. rewrite <-list_fmap_compose. by apply Hn.
Qed.

(** ** Logs *)

Definition fits (x : change) : Prop := encodes x.1 /\ blen (record_of x.1) + 13 <= MAX_BYTES.

Lemma length_frame x : length (change_bytes x) = (13 + length (record_of x.1))%nat.
Proof. unfold change_bytes, frame. rewrite !length_app, !length_le_bytes. simpl length. lia. Qed.

Lemma encode_delta_ok l b : encode_delta ps l = Ok b -> Forall fits l /\ b = concat (change_bytes <$> l) /\ blen b <= MAX_BYTES.
Proof.
  unfold encode_delta. assert (forall bytes, blen bytes <= MAX_BYTES -> encode_frames ps l bytes = Ok b ->
    Forall fits l /\ b = bytes ++ concat (change_bytes <$> l) /\ blen b <= MAX_BYTES) as Hx; [ | by apply (Hx [])].
  induction l as [|[[id sn] r] l IH]; intros bytes Hle; cbn [encode_frames].
  { intros [= <-]. cbn [fmap list_fmap concat]. by rewrite app_nil_r. }
  intros E. apply bind_ok_inv in E as (record & Hr & E). destruct (Z.ltb_spec MAX_BYTES (blen bytes + blen record + 13)) as [|Hlim]; [done | ].
  assert (record_of (id, sn) = record) as Hrec by (unfold record_of; cbn [fst snd]; by rewrite Hr).
  assert (frame r record = change_bytes (id, sn, r)) as Hfr by (unfold change_bytes; cbn [fst snd]; by rewrite Hrec). rewrite Hfr in E.
  destruct (IH (bytes ++ change_bytes (id, sn, r))) as (Hf & -> & Hb); [ | done | ].
  { unfold blen in *. rewrite length_app, length_frame. cbn [fst]. rewrite Hrec. lia. }
  splits; [ | by rewrite fmap_cons, <-app_assoc | done]. constructor; [ | done]. split; cbn [fst snd].
  - unfold encodes. cbn [fst snd]. by rewrite Hr.
  - rewrite Hrec. unfold blen in *. lia.
Qed.

Definition log_effect (m : gmap BlockId AccessRecovery) (x : change) : gmap BlockId AccessRecovery := apply_frame x.1.1 x.2 (recovered now x.1.2) m.

Lemma replay_frame x fuel rest m : fits x -> entry_ok block_hash ps shard x.1 ->
  replay_frames block_hash (S fuel) (change_bytes x ++ rest) shard ps now m = replay_frames block_hash fuel rest shard ps now (log_effect m x).
Proof.
  intros [He Hl] Hok. pose proof (length_record _ He) as Hlen. pose proof (length_frame x) as Hlf. cbn [replay_frames].
  rewrite (proj2 (Nat.ltb_ge _ _)) by (rewrite length_app; lia). unfold change_bytes, frame in *. destruct x as [[id sn] r]. cbn [fst snd] in *.
  set (record := record_of (id, sn)) in *. set (tag := if r then x01 else x00) in *. set (body := tag :: record) in *.
  assert (blen body = blen record + 1) as Hb by (unfold blen, body; cbn [length]; lia).
  rewrite <-!app_assoc. rewrite index_first by apply length_le_bytes. cbn [try_bind].
  rewrite le_val_le_bytes by (change (256 ^ Z.of_nat 4) with (2 ^ 32); unfold blen, MAX_BYTES in *; lia).
  rewrite (proj2 (Z.leb_le _ _)) by (unfold blen in *; lia). rewrite (proj2 (Z.leb_le _ _)) by lia. cbn [andb negb].
  replace (Z.to_nat (blen body)) with (length body) by (unfold blen; lia).
  rewrite (proj2 (Nat.ltb_ge _ _)) by (rewrite !length_app, !length_le_bytes; lia).
  rewrite index_app by (rewrite ?length_le_bytes; done). cbn [try_bind]. rewrite (app_assoc (le_bytes 4 _)).
  rewrite index_app by (rewrite ?length_app, ?length_le_bytes; done). cbn [try_bind]. 
  change body with ([tag] ++ record). rewrite index_first by done. cbn [try_bind]. change ([tag] ++ record) with body.
  rewrite le_val_le_bytes by apply xxh3_64_u64. rewrite Z.eqb_refl.
  assert (le_val [tag] = if r then 1 else 0) as -> by (by destruct r). replace ((if r then 1 else 0) <=? 1) with true by (by destruct r). cbn [andb negb].
  change body with ([tag] ++ record). rewrite (index_rest 1) by done. cbn [try_bind]. unfold record. rewrite read_record_ok by done. cbn [try_bind]. fold record.
  rewrite (app_assoc _ ([tag] ++ record)), index_rest by (rewrite ?length_app, ?length_le_bytes; done). cbn [try_bind].
  unfold log_effect. cbn [fst snd]. by destruct r.
Qed.

Lemma replay_torn x fuel j m : fits x -> (j < length (change_bytes x))%nat -> (j <= fuel)%nat ->
  replay_frames block_hash fuel (take j (change_bytes x)) shard ps now m = Some (Ok m).
Proof.
  intros [He Hl] Hj Hf. pose proof (length_record _ He) as Hlen. pose proof (length_frame x) as Hlf.
  assert (length (take j (change_bytes x)) = j) as Hn by (rewrite length_take; lia).
  destruct fuel as [|fuel]; cbn [replay_frames]; rewrite Hn; destruct (Nat.ltb_spec j 12) as [|Hj12]; [done | lia | done | ].
  unfold change_bytes at 1, frame at 1. rewrite take_app_ge by (rewrite length_le_bytes; lia). rewrite index_first by apply length_le_bytes. cbn [try_bind].
  set (body := _ :: _) in *. assert (blen body = blen (record_of x.1) + 1) as Hb by (unfold blen, body; cbn [length]; lia).
  rewrite le_val_le_bytes by (change (256 ^ Z.of_nat 4) with (2 ^ 32); unfold blen, MAX_BYTES in *; lia).
  rewrite (proj2 (Z.leb_le _ _)) by (unfold blen in *; lia). rewrite (proj2 (Z.leb_le _ _)) by lia. cbn [andb negb].
  rewrite (proj2 (Nat.ltb_lt _ _)); [done | ]. unfold blen in *. lia.
Qed.

(** A log that was cut reads as the frames before the cut. *)
Lemma replay_cut l l' fuel k m : Forall fits (l ++ l') -> Forall (fun x => entry_ok block_hash ps shard x.1) (l ++ l') ->
  let input := concat (change_bytes <$> l) ++ take k (concat (change_bytes <$> l')) in (length input <= fuel)%nat ->
  exists n, replay_frames block_hash fuel input shard ps now m = Some (Ok (foldl log_effect m (l ++ take n l'))).
Proof.
  revert fuel m. induction l as [|x l IH]; intros fuel m Hfit Hok input Hf.
  - cbn [app] in *. subst input. cbn [fmap list_fmap concat app] in *. revert k fuel m Hf. induction l' as [|y l' IH]; intros k fuel m Hf.
    { exists 0%nat. rewrite fmap_nil. cbn [concat]. rewrite !take_nil. by destruct fuel. }
    apply Forall_cons in Hfit as [Hy Hfit], Hok as [Hoky Hok]. rewrite fmap_cons in *. cbn [concat] in *.
    destruct (decide (k < length (change_bytes y))%nat) as [Hk|Hk].
    + rewrite take_app_le in * by lia. exists 0%nat. rewrite length_take in Hf. by rewrite replay_torn by (done || lia).
    + rewrite take_app_ge in * by lia. rewrite length_app in Hf. pose proof (length_frame y). destruct fuel as [|fuel]; [lia | ]. rewrite replay_frame by done.
      destruct (IH Hfit Hok (k - length (change_bytes y))%nat fuel (log_effect m y)) as [n ->]; [lia | ]. by exists (S n).
  - apply Forall_cons in Hfit as [Hx Hfit], Hok as [Hokx Hok]. subst input. rewrite fmap_cons in *. cbn [concat] in *. rewrite <-app_assoc in *.
    rewrite length_app, length_frame in Hf. destruct fuel as [|fuel]; [lia | ]. rewrite replay_frame by done.
    destruct (IH fuel (log_effect m x) Hfit Hok) as [n Hn]; [lia | ]. exists n. by rewrite Hn.
Qed.

(** ** Both files *)

Definition snapshot_file (g : Z) (l : list entry) : list byte := header SNAPSHOT_MAGIC g ++ sealed (snapshot_data l).

Record snapshot_fits (g : Z) (l : list entry) : Prop := {
  f_generation : 0 < g < 2 ^ 64;
  f_size : is_u 32 ps;
  f_encodes : Forall encodes l;
  f_ok : Forall (entry_ok block_hash ps shard) l;
  f_distinct : NoDup l.*1;
  f_limit : blen (sealed (snapshot_data l)) <= MAX_BYTES;
}.

Lemma length_header magic g : length magic = 8%nat -> length (header magic g) = 16%nat.
Proof. intros E. unfold header. by rewrite length_app, E, length_le_bytes. Qed.

Lemma starts_header magic g rest : starts_with magic (header magic g ++ rest) = true.
Proof. unfold starts_with, header. rewrite <-app_assoc. apply bool_decide_true, take_app_length. Qed.

Lemma index_header magic g rest : length magic = 8%nat -> index 8 16 (header magic g ++ rest) = Some (Ok (le_bytes 8 g)).
Proof. intros Hm. unfold header. rewrite <-app_assoc. apply index_app; [done | by rewrite length_le_bytes]. Qed.

Lemma read_all n b : blen b <= n -> read_limited n b = b.
Proof. intros Hle. unfold read_limited. by rewrite (proj2 (Z.leb_le _ _) Hle). Qed.

Lemma records_small l e : e ∈ l -> (length (record_of e) + 4 <= length (concat (entry_bytes <$> l)))%nat.
Proof.
  induction l as [|x l IH]; [by intros ?%not_elem_of_nil | ]. rewrite fmap_cons. cbn [concat]. unfold entry_bytes at 1. rewrite !length_app, length_le_bytes.
  intros [->|Hl]%elem_of_cons; [lia | ]. specialize (IH Hl). lia.
Qed.

Lemma entries_count l : (length l <= length (concat (entry_bytes <$> l)))%nat.
Proof. induction l as [|x l IH]; [done | ]. rewrite fmap_cons. cbn [concat length]. unfold entry_bytes at 1. rewrite !length_app, length_le_bytes. lia. Qed.

Lemma snapshot_fields l : let b := sealed (snapshot_data l) in let e := length (snapshot_data l) in
  index e (length b) b = Some (Ok (le_bytes 8 (xxh3_64 (snapshot_data l)))) /\ index 0 e b = Some (Ok (snapshot_data l)) /\
  index 0 8 b = Some (Ok SHARD_MAGIC) /\ index 8 12 b = Some (Ok (le_bytes 4 ps)) /\
  index 12 16 b = Some (Ok (le_bytes 4 (Z.of_nat (length l)))) /\ index 16 e b = Some (Ok (concat (entry_bytes <$> l))).
Proof.
  intros b e. assert (e = 16 + length (concat (entry_bytes <$> l)))%nat as He.
  { subst e. unfold snapshot_data. rewrite !length_app, !length_le_bytes. change (length SHARD_MAGIC) with 8%nat. lia. }
  subst b. unfold sealed. splits; [by apply index_rest | by apply index_first | | | | ]; rewrite ?He; unfold snapshot_data at 1; rewrite <-!app_assoc.
  - by apply index_first.
  - apply index_app; [done | by rewrite length_le_bytes].
  - rewrite (app_assoc SHARD_MAGIC). apply index_app; rewrite ?length_app, ?length_le_bytes; done.
  - rewrite (app_assoc SHARD_MAGIC), (app_assoc (SHARD_MAGIC ++ _)). apply index_app; rewrite ?length_app, ?length_le_bytes; done.
Qed.

Lemma load_snapshot g l log : snapshot_fits g l -> load_files block_hash (snapshot_file g l) log shard ps now =
  let? '(records, j) := replay block_hash log g shard ps now (denote now (l, [])) (mkJournal g (blen (sealed (snapshot_data l))) 0 true) in
  done_with (mkShard records false j).
Proof.
  intros [Hg Hps He Hok Hn Hlim]. unfold load_files. pose proof (length_header SNAPSHOT_MAGIC g eq_refl) as Hh.
  assert (length (snapshot_data l) = 16 + length (concat (entry_bytes <$> l)))%nat as Hd.
  { unfold snapshot_data. rewrite !length_app, !length_le_bytes. done. }
  assert (length (sealed (snapshot_data l)) = 24 + length (concat (entry_bytes <$> l)))%nat as Hsl by (unfold sealed; rewrite length_app, length_le_bytes; lia).
  assert (length (snapshot_file g l) = 40 + length (concat (entry_bytes <$> l)))%nat as Hf by (unfold snapshot_file; rewrite length_app; lia).
  rewrite read_all by (unfold blen in *; lia). rewrite (proj2 (Nat.leb_le _ _)) by lia. rewrite (proj2 (Z.leb_le _ _)) by (unfold blen in *; lia). cbn [andb negb].
  assert (unwrap_snapshot (snapshot_file g l) = Some (Ok (sealed (snapshot_data l), g))) as ->.
  { unfold unwrap_snapshot. rewrite (proj2 (Nat.ltb_ge _ _)) by lia. unfold snapshot_file at 1 2. rewrite starts_header, index_header by done. cbn [try_bind].
    rewrite le_val_le_bytes by (change (256 ^ Z.of_nat 8) with (2 ^ 64); lia). rewrite (proj2 (Z.eqb_neq _ _)) by lia.
    unfold snapshot_file. rewrite index_rest by done. done. }
  cbn [try_bind]. replace (length (sealed (snapshot_data l)) - 8)%nat with (length (snapshot_data l)) by lia.
  destruct (snapshot_fields l) as (-> & -> & -> & -> & -> & ->). cbn [try_bind].
  rewrite le_val_le_bytes by apply xxh3_64_u64. rewrite Z.eqb_refl, bool_decide_true by done. cbn [negb andb].
  rewrite le_val_le_bytes by apply Hps. rewrite Z.eqb_refl. cbn [negb].
  pose proof (entries_count l) as Hcount. rewrite le_val_le_bytes by (change (256 ^ Z.of_nat 4) with (2 ^ 32); unfold blen, MAX_BYTES in *; lia).
  rewrite load_records_ok; [ | done | done | done | by intros; apply lookup_empty | | lia].
  - cbn [try_bind]. rewrite (proj2 (Z.ltb_lt _ _)) by lia. rewrite inserts_list_to_map, (right_id_L ∅ (∪)) by done. done.
  - rewrite Forall_forall. intros e Hin. pose proof (records_small l e Hin). unfold blen, MAX_BYTES in *. lia.
Qed.

Definition log_file (g : Z) (input : list byte) : list byte := header LOG_MAGIC g ++ input.

Lemma replay_log g' g input m j : 0 <= g' < 2 ^ 64 -> blen input <= 2 * MAX_BYTES ->
  replay block_hash (Some (log_file g' input)) g shard ps now m j =
    if negb (g' =? g) then Some (Ok (m, j)) else
    let? m := replay_frames block_hash (length input) input shard ps now m in
    done_with (m, mkJournal (generation j) (snapshot_bytes j) (blen (log_file g' input)) (full j)).
Proof.
  intros Hg Hle. unfold replay, log_file. pose proof (length_header LOG_MAGIC g' eq_refl) as Hh.
  assert (blen (header LOG_MAGIC g' ++ input) = 16 + blen input) as Hb by (unfold blen; rewrite length_app, Hh; lia).
  rewrite read_all by (change (Z.of_nat HEADER) with 16; lia). rewrite (proj2 (Nat.leb_le _ _)) by (rewrite length_app, Hh; unfold HEADER; lia).
  rewrite (proj2 (Z.leb_le _ _)) by (change (Z.of_nat HEADER) with 16; lia). cbn [andb negb].
  rewrite starts_header, index_header by done. cbn [negb try_bind].
  rewrite le_val_le_bytes by (change (256 ^ Z.of_nat 8) with (2 ^ 64); lia). rewrite (index_rest HEADER) by done. done.
Qed.

(** What [load] returns for a snapshot and a log that may be of another generation, or cut in its last part. *)
Lemma load_pair g es g' l l' k : snapshot_fits g es -> 0 <= g' < 2 ^ 64 -> Forall fits (l ++ l') -> Forall (fun x => entry_ok block_hash ps shard x.1) (l ++ l') ->
  blen (concat (change_bytes <$> l ++ l')) <= 2 * MAX_BYTES ->
  exists n j, generation j = g /\ full j = true /\
    load block_hash (Some (snapshot_file g es)) (Some (log_file g' (concat (change_bytes <$> l) ++ take k (concat (change_bytes <$> l'))))) shard ps now =
      Some (Some (mkShard (denote now (es, if g' =? g then l ++ take n l' else [])) false j)).
Proof.
  intros Hs Hg Hf Hok Hle. unfold load. rewrite load_snapshot by done. set (input := concat (change_bytes <$> l) ++ _).
  assert (blen input <= 2 * MAX_BYTES) as Hle'.
  { revert Hle. unfold input, blen. rewrite fmap_app, concat_app, !length_app, length_take. lia. }
  rewrite replay_log by done. destruct (g' =? g); cbn [negb].
  - destruct (replay_cut l l' (length input) k (denote now (es, [])) Hf Hok) as [n Hn]; [done | ]. fold input in Hn. rewrite Hn. exists n. cbn [try_bind]. eexists. splits; [ | | done]; done.
  - exists 0%nat. eexists. splits; [ | | done]; done.
Qed.

Lemma load_alone g es : snapshot_fits g es -> exists j, generation j = g /\ full j = true /\
  load block_hash (Some (snapshot_file g es)) None shard ps now = Some (Some (mkShard (denote now (es, [])) false j)).
Proof. intros Hs. unfold load. rewrite load_snapshot by done. eexists. splits; [ | | done]; done. Qed.

(** ** Arbitrary bytes *)

(** What may be believed of a block. *)
Definition plausible (id : BlockId) (x : AccessRecovery) : Prop :=
  disk_shard block_hash id = shard /\ forall p a, r_records x !! p = Some a -> 0 <= p < page_count id ps /\ a <= now.

Definition all_plausible (m : gmap BlockId AccessRecovery) : Prop := forall id x, m !! id = Some x -> plausible id x.

(** A computation that does not panic, and whose result satisfies [P]. *)
Definition returns {A} (P : A -> Prop) (r : Panic A) : Prop := exists v, r = Some v /\ forall a, v = Ok a -> P a.

Lemma returns_err {A} (P : A -> Prop) m : returns P (stop m).
Proof. by exists (fail m). Qed.

Lemma returns_done {A} (P : A -> Prop) a : P a -> returns P (done_with a).
Proof. intros HP. exists (Ok a). split; [done | ]. by intros ? [= <-]. Qed.

Lemma returns_bind {A B} (P : A -> Prop) (Q : B -> Prop) m f : returns P m -> (forall a, P a -> returns Q (f a)) -> returns Q (try_bind m f).
Proof. intros ([a|e] & -> & HP) Hf; cbn [try_bind]; [apply Hf; by apply HP | by exists (Err e)]. Qed.

Lemma returns_index i j b : (i <= j)%nat -> (j <= length b)%nat -> returns (fun x => length x = (j - i)%nat) (index i j b).
Proof. intros H1 H2. rewrite index_ok by done. apply returns_done. by rewrite length_slice by lia. Qed.

Lemma uint_nonneg n input v rest : uint n input = Ok (v, rest) -> 0 <= v.
Proof. unfold uint. intros E. apply bind_ok_inv in E as ([b r] & _ & E). injection E as <- _. apply le_val_range. Qed.

Lemma decode_plausible count input limit sampled previous out x :
  decode_records count input limit now sampled previous out = Ok x ->
  (forall p a, r_records out !! p = Some a -> 0 <= p < limit /\ a <= now) -> forall p a, r_records x !! p = Some a -> 0 <= p < limit /\ a <= now.
Proof.
  revert input previous out. induction count as [|count IH]; intros input previous out; cbn [decode_records]; [by intros [= <-] | ].
  intros E Ho. apply bind_ok_inv in E as ([page i1] & E1 & E). apply bind_ok_inv in E as ([access i2] & E2 & E). apply uint_nonneg in E1.
  destruct (Z.ltb_spec page limit) as [Hp|]; [ | done]. destruct (match previous with None => true | _ => _ end); [ | done]. cbn [andb negb] in E.
  eapply IH; [done | ]. unfold note. destruct (Z.ltb_spec now access); [done | ]. destruct (_ || _); [done | ]. cbn [r_records].
  intros p a [[<- <-]|[_ Hl]]%lookup_insert_Some; [lia | by apply Ho].
Qed.

Lemma decode_bytes_plausible b id x : decode_bytes b id ps now = Ok x -> forall p a, r_records x !! p = Some a -> 0 <= p < page_count id ps /\ a <= now.
Proof.
  unfold decode_bytes. intros E. repeat (case_match; [done | ]). repeat first [apply bind_ok_inv in E as ([? ?] & _ & E) | apply bind_ok_inv in E as (? & _ & E) | case_match; [done | ]].
  eapply decode_plausible; [exact E | ]. cbn. by intros p a ?%lookup_empty_Some.
Qed.

Lemma read_record_plausible record kind : (48 <= length record)%nat -> returns (fun x => plausible x.1 x.2) (read_record block_hash record shard ps now kind).
Proof.
  intros Hl. unfold read_record. eapply returns_bind; [apply returns_index; lia | ]. intros n _. eapply returns_bind; [apply returns_index; lia | ]. intros rest Hr. cbv beta in Hr.
  destruct (Nat.ltb_spec (length rest) (Z.to_nat (le_val n))) as [|Hn]; [apply returns_err | ]. eapply returns_bind; [apply returns_index; lia | ]. intros j _.
  eapply returns_bind; [by eexists; split; [done | by instantiate (1 := fun _ => True)] | ]. intros id _. destruct (Z.eqb_spec (disk_shard block_hash id) shard) as [Hs|]; [ | apply returns_err]. cbn [negb].
  eapply (returns_bind (plausible id)); [ | intros x Hx; by apply returns_done]. eexists. split; [done | ]. intros x Hx. split; [done | by eapply decode_bytes_plausible].
Qed.

Ltac step_index := eapply returns_bind; [apply returns_index; lia | cbv beta].

Lemma load_records_plausible fuel count input m : (length input <= fuel)%nat -> all_plausible m ->
  returns all_plausible (load_records block_hash fuel count input shard ps now m).
Proof.
  revert count input m. induction fuel as [|fuel IH]; intros count input m Hf Hm; cbn [load_records]; destruct (count =? 0).
  1, 3: destruct (length input =? 0)%nat; [by apply returns_done | apply returns_err].
  all: destruct (Nat.ltb_spec (length input) 4) as [Hl|Hl]; [apply returns_err | ]. { lia. }
  step_index. intros n _. step_index. intros input1 H1. destruct (Nat.leb_spec 48 (Z.to_nat (le_val n))) as [H48|]; [ | apply returns_err].
  destruct (Nat.leb_spec (Z.to_nat (le_val n)) (length input1)) as [Hn|]; [ | apply returns_err]. cbn [andb negb].
  step_index. intros record Hr. step_index. intros input2 H2. eapply returns_bind; [apply read_record_plausible; lia | ]. intros [id x] Hx.
  destruct (m !! id); [apply returns_err | ]. apply IH; [lia | ]. intros id' y [[<- <-]|[_ Hy]]%lookup_insert_Some; [done | by apply Hm].
Qed.

Lemma apply_frame_plausible id replace x m : plausible id x -> all_plausible m -> all_plausible (apply_frame id replace x m).
Proof.
  intros Hx Hm id' y. unfold apply_frame. destruct replace.
  - destruct (_ && _); [intros [_ Hy]%lookup_delete_Some; by apply Hm | ]. intros [[<- <-]|[_ Hy]]%lookup_insert_Some; [done | by apply Hm].
  - intros [[<- <-]|[_ Hy]]%lookup_insert_Some; [ | by apply Hm]. destruct Hx as [Hs Hx]. split; [done | ]. cbn [merge r_records]. intros p a.
    rewrite lookup_union_Some_raw. intros [Ha|[_ Ha]]; [by apply Hx | ].
    assert (r_records (default no_recovery (m !! id)) !! p = Some a) as Ho.
    { revert Ha. induction (future_pages x) as [|q l IH]; [done | ]. cbn [foldr]. intros [_ Ha]%lookup_delete_Some. by apply IH. }
    destruct (m !! id) as [old|] eqn:E; [ | by apply (lookup_empty_Some (M := gmap Z) p a) in Ho]. by apply (proj2 (Hm id old E)).
Qed.

Lemma replay_frames_plausible fuel input m : (length input <= fuel)%nat -> all_plausible m ->
  returns all_plausible (replay_frames block_hash fuel input shard ps now m).
Proof.
  revert input m. induction fuel as [|fuel IH]; intros input m Hf Hm; cbn [replay_frames]; destruct (Nat.ltb_spec (length input) 12) as [|Hl]; try by apply returns_done.
  { lia. }
  step_index. intros b _. destruct (Z.leb_spec 49 (le_val b)) as [H49|]; [ | apply returns_err]. destruct (le_val b <=? MAX_BYTES); [ | apply returns_err]. cbn [andb negb].
  destruct (Nat.ltb_spec (length input) (12 + Z.to_nat (le_val b))) as [|Hn]; [by apply returns_done | ].
  step_index. intros sum _. step_index. intros body Hb. step_index. intros tag _. destruct (_ && _); [ | apply returns_err]. cbn [negb].
  step_index. intros record Hr. eapply returns_bind; [apply read_record_plausible; lia | ]. intros [id x] Hx. step_index. intros rest Hrest.
  apply IH; [lia | ]. by apply apply_frame_plausible.
Qed.

Lemma length_limited n b : 0 <= n -> blen (read_limited n b) <= n.
Proof. intros Hn. unfold read_limited. destruct (Z.leb_spec (blen b) n); [done | ]. unfold blen. rewrite length_take. lia. Qed.

Lemma replay_plausible log g m j : all_plausible m -> returns (fun r => all_plausible r.1) (replay block_hash log g shard ps now m j).
Proof.
  intros Hm. unfold replay. destruct log as [file|]; [ | by apply returns_done]. set (log := read_limited _ file).
  destruct (Nat.leb_spec HEADER (length log)) as [Hh|]; [ | apply returns_err]. destruct (_ <=? _); [ | apply returns_err]. cbn [andb negb].
  destruct (starts_with LOG_MAGIC log); [ | apply returns_err]. cbn [negb]. unfold HEADER in *. step_index. intros g' _. destruct (negb _); [by apply returns_done | ].
  step_index. intros input _. eapply returns_bind; [by apply replay_frames_plausible | ]. intros m' Hm'. by apply returns_done.
Qed.

Lemma load_files_plausible file log : returns (fun r => s_corrupt r = false /\ all_plausible (s_records r)) (load_files block_hash file log shard ps now).
Proof.
  unfold load_files. set (bytes := read_limited _ file). destruct (Nat.leb_spec 24 (length bytes)) as [Hl|]; [ | apply returns_err].
  destruct (_ <=? _); [ | apply returns_err]. cbn [andb negb]. apply (returns_bind (fun r => 24 <= length r.1)%nat).
  { unfold unwrap_snapshot. destruct (starts_with _ _); [ | by apply returns_done]. destruct (Nat.ltb_spec (length bytes) 40); [apply returns_err | ].
    step_index. intros g _. destruct (_ =? 0); [apply returns_err | ]. step_index. intros rest Hr. apply returns_done. simpl. lia. }
  intros [b g] Hb. cbn [fst] in Hb. step_index. intros sum _. step_index. intros data _. destruct (negb _); [apply returns_err | ].
  step_index. intros magic _. step_index. intros size _. destruct (negb _); [apply returns_err | ]. step_index. intros count _. step_index. intros input _.
  eapply returns_bind; [apply load_records_plausible; [done | by intros id x ?%lookup_empty_Some] | ]. intros m Hm.
  destruct (0 <? g); [ | by apply returns_done]. eapply returns_bind; [by apply replay_plausible | ]. intros [m' j] Hm'. by apply returns_done.
Qed.

End Load.

#[local] Existing Instance toy_xxh3.
#[local] Existing Instance toy_json.

End AccessLoad.
