(* ===== verification/AccessCrash.v ===== *)
(** The files of a shard survive failures (crates/talon-worker/src/page_access_shard.rs, page_access_shard/journal.rs): at every system call of
    every flush, whatever a failure leaves reads back as the last completed flush or as one that was attempted since. *)

From stdpp Require Import gmap.
From S2P Require Import Prelude External Bytes Key FileSystem AccessRecord AccessShard AccessLoad.

Module AccessCrash.
Import Bytes Key FileSystem AccessRecord AccessShard AccessLoad.

Section Crash.
Context `{Xxh3} `{IdJson} (block_hash : BlockId -> Z) (ps shard : Z).

Abbreviation fitting := (snapshot_fits block_hash ps shard).

Definition log_part (g : Z) (l : list change) : list byte := log_file g (concat (change_bytes ps <$> l)).

(** A log with the changes [l], and perhaps some of [l']. *)
Record log_ok (f : Inode) (g : Z) (l l' : list change) : Prop := {
  lo_bounds : exists lo hi, bounds f = Some (lo, hi) /\ log_part g l `prefix_of` lo /\ lo `prefix_of` cur f /\ cur f `prefix_of` hi /\ hi `prefix_of` log_part g (l ++ l');
  lo_generation : 0 <= g < 2 ^ 64;
  lo_fits : Forall (fits ps) (l ++ l');
  lo_entries : Forall (fun x => entry_ok block_hash ps shard x.1) (l ++ l');
  lo_limit : blen (concat (change_bytes ps <$> l ++ l')) <= 2 * MAX_BYTES;
}.

(** A directory state with a snapshot of generation [g], zero being none. While the journal is at generation [b] nothing has been logged for
    the next one. *)
Inductive dir_ok (I : gmap nat Inode) (K : list (option Content)) (b : Z) (d : gmap FileName nat) : Z -> Prop :=
  | dir_none : d !! Shard = None -> d !! Log = None -> None ∈ K -> 0 <= b -> dir_ok I K b d 0
  | dir_snapshot i g es : d !! Shard = Some i -> I !! i = Some (synced (snapshot_file ps g es)) -> fitting g es -> g <= b + 1 ->
      d !! Log = None -> Some (es, []) ∈ K -> dir_ok I K b d g
  | dir_both i g es i' f g' l l' : d !! Shard = Some i -> I !! i = Some (synced (snapshot_file ps g es)) -> fitting g es -> g <= b + 1 ->
      d !! Log = Some i' -> I !! i' = Some f -> log_ok f g' l l' -> g' <= g -> (g' = b + 1 -> l ++ l' = []) ->
      (forall n, Some (es, if g' =? g then l ++ take n l' else []) ∈ K) -> dir_ok I K b d g.

Record disk_ok (K : list (option Content)) (b : Z) (f : Fs) : Prop := {
  d_wf : fs_wf f;
  d_now : exists g0, dir_ok (inodes f) K b (dir f) g0 /\ forall d, d ∈ older f -> exists g, g <= g0 /\ dir_ok (inodes f) K b d g;
}.

Lemma dir_ok_same I I' K b d d' g : (forall x, is_tmp x = false -> d' !! x = d !! x /\ forall i, d !! x = Some i -> I' !! i = I !! i) ->
  dir_ok I K b d g -> dir_ok I' K b d' g.
Proof.
  intros Hs Hd. destruct (Hs Shard eq_refl) as [H1 H1'], (Hs Log eq_refl) as [H2 H2'].
  destruct Hd as [E1 E2 HK Hb|i g es E1 Ei Hf Hb E2 HK|i g es i' f g' l l' E1 Ei Hf Hb E2 Ei' Hl Hg Hnew HK].
  - apply dir_none; [congruence.. | done | done].
  - eapply dir_snapshot; [by rewrite H1 | by rewrite (H1' i) | done | done | congruence | done].
  - eapply dir_both; [by rewrite H1 | by rewrite (H1' i) | done | done | by rewrite H2 | by rewrite (H2' i') | done..].
Qed.

Lemma dir_ok_keep I K K' b d g : (forall c, c ∈ K -> c ∈ K') -> dir_ok I K b d g -> dir_ok I K' b d g.
Proof.
  intros HK' [E1 E2 HK Hb|i g1 es E1 Ei Hf Hb E2 HK|i g1 es i' f g' l l' E1 Ei Hf Hb E2 Ei' Hl Hg Hnew HK].
  - apply dir_none; auto.
  - eapply dir_snapshot; eauto.
  - eapply dir_both; eauto.
Qed.

Lemma dir_ok_rebase I K b b' d g : 0 <= b' -> g <= b' -> dir_ok I K b d g -> dir_ok I K b' d g.
Proof.
  intros H0' Hle Hd. revert Hle. destruct Hd as [E1 E2 HK Hb|i g1 es E1 Ei Hf Hb E2 HK|i g1 es i' f g' l l' E1 Ei Hf Hb E2 Ei' Hl Hg Hnew HK]; intros Hle.
  - by apply dir_none.
  - eapply dir_snapshot; eauto; lia.
  - eapply dir_both; eauto; [lia | ]. intros ->. lia.
Qed.

Lemma disk_ok_keep K K' b f : (forall c, c ∈ K -> c ∈ K') -> disk_ok K b f -> disk_ok K' b f.
Proof.
  intros HK [Hw (g0 & Hd & Ho)]. split; [done | ]. exists g0. split; [by eapply dir_ok_keep | ]. intros d Hin. destruct (Ho d Hin) as (g & Hg & Hx).
  exists g. split; [done | by eapply dir_ok_keep].
Qed.

(** Calls on temporary files do not matter. *)
Lemma disk_ok_tmp K b f f' : fs_wf f' -> tmp_only f f' -> disk_ok K b f -> disk_ok K b f'.
Proof.
  intros Hw [Hs Ht] [_ (g0 & Hd & Ho)]. split; [done | ]. exists g0. split; [by eapply dir_ok_same | ].
  intros d Hin. destruct (Ht d) as (d0 & Hd0 & Hx); [by right | ]. apply elem_of_cons in Hd0 as [->|Hd0].
  - exists g0. split; [done | by eapply dir_ok_same].
  - destruct (Ho d0 Hd0) as (g & Hg & Hy). exists g. split; [done | by eapply dir_ok_same].
Qed.

Lemma disk_ok_exec K b op f f' : disk_ok K b f -> tmp_op op -> exec op f = Some f' -> disk_ok K b f'.
Proof.
  intros Hd Hop He. pose proof (d_wf _ _ _ Hd) as Hw. eapply disk_ok_tmp; [ | by eapply tmp_only_exec | done]. eapply wf_exec; [exact Hw | | exact He]. by destruct op.
Qed.

(** ** Failures *)

(** What a failure may leave of a log. *)
Lemma log_ok_admissible f g l l' c : log_ok f g l l' -> admissible f c -> log_part g l `prefix_of` c /\ c `prefix_of` log_part g (l ++ l').
Proof.
  intros [(lo & hi & Hb & H1 & H2 & H3 & H4) _ _ _ _]. unfold admissible. rewrite Hb. intros [Hlo Hhi]. split; [by trans lo | by trans hi].
Qed.

Lemma log_ok_killed f f' g l l' : log_ok f g l l' -> killed f f' -> log_ok f' g l l'.
Proof.
  intros Hl [Ha Hb]. destruct (log_ok_admissible _ _ _ _ _ Hl Ha) as [_ Hhi]. destruct Hl as [(lo & hi & Hbf & H1 & H2 & H3 & H4) Hg Hf He Hlim].
  split; try done. rewrite Hbf in Hb. exists lo, (cur f'). unfold admissible in Ha. rewrite Hbf in Ha. splits; try done; tauto.
Qed.

Lemma log_ok_lost f f' g l l' : log_ok f g l l' -> lost f f' -> log_ok f' g l l'.
Proof.
  intros Hl [Ha Hb]. destruct (log_ok_admissible _ _ _ _ _ Hl Ha) as [Hlo Hhi]. destruct Hl as [_ Hg Hf He Hlim].
  split; try done. rewrite Hb. cbn [synced bounds cur]. by exists (cur f'), (cur f').
Qed.

Lemma synced_admissible c c' : admissible (synced c) c' -> c' = c.
Proof. unfold admissible. cbn [synced bounds]. intros [H1 H2]. symmetry. apply prefix_length_eq; [done | by apply prefix_length]. Qed.

Lemma synced_killed c f : killed (synced c) f -> f = synced c.
Proof. intros [Ha Hb]. apply synced_admissible in Ha. destruct f as [cu bd]. cbn [cur bounds synced] in *. subst. done. Qed.

Lemma synced_lost c f : lost (synced c) f -> f = synced c.
Proof. intros [Ha Hb]. apply synced_admissible in Ha. by rewrite Ha in Hb. Qed.

(** A failure keeps a directory state as good as it was. *)
Lemma dir_ok_failure (R : Inode -> Inode -> Prop) I I' K b d g :
  (forall c f, R (synced c) f -> f = synced c) -> (forall f f' g l l', log_ok f g l l' -> R f f' -> log_ok f' g l l') ->
  (forall i, option_Forall2 R (I !! i) (I' !! i)) -> dir_ok I K b d g -> dir_ok I' K b d g.
Proof.
  intros HR1 HR2 HI Hd. assert (forall i f, I !! i = Some f -> exists f', I' !! i = Some f' /\ R f f') as HI'.
  { intros i f Hi. specialize (HI i). rewrite Hi in HI. inversion HI; subst. eauto. }
  destruct Hd as [E1 E2 HK Hb|i g es E1 Ei Hf Hb E2 HK|i g es i' f g' l l' E1 Ei Hf Hb E2 Ei' Hl Hg Hnew HK].
  - by apply dir_none.
  - destruct (HI' i _ Ei) as (f & Hi & ->%HR1). by eapply dir_snapshot.
  - destruct (HI' i _ Ei) as (f1 & Hi & ->%HR1), (HI' i' _ Ei') as (f2 & Hi' & Hx). eapply dir_both; eauto.
Qed.

Lemma disk_ok_kill K b f f' : kill f f' -> disk_ok K b f -> disk_ok K b f'.
Proof.
  intros Hk [Hw (g0 & Hd & Ho)]. split; [by eapply wf_kill | ]. destruct Hk as (Ed & Eo & _ & HI). rewrite Ed, Eo. exists g0.
  assert (forall d g, dir_ok (inodes f) K b d g -> dir_ok (inodes f') K b d g) as Hx.
  { intros d g. apply (dir_ok_failure killed); [apply synced_killed | apply log_ok_killed | done]. }
  split; [by apply Hx | ]. intros d Hin. destruct (Ho d Hin) as (g & Hg & Hy). exists g. auto.
Qed.

Lemma disk_ok_power K b f f' : power_loss f f' -> disk_ok K b f -> disk_ok K b f'.
Proof.
  intros Hk [Hw (g0 & Hd & Ho)]. split; [by eapply wf_power_loss | ]. destruct Hk as (Ed & Eo & _ & HI). rewrite Eo.
  assert (forall d g, dir_ok (inodes f) K b d g -> dir_ok (inodes f') K b d g) as Hx.
  { intros d g. apply (dir_ok_failure lost); [apply synced_lost | apply log_ok_lost | done]. }
  assert (exists g, dir_ok (inodes f) K b (dir f') g) as [g Hg].
  { apply elem_of_cons in Ed as [->|Ed]; [by exists g0 | ]. destruct (Ho _ Ed) as (g & _ & Hy). by exists g. }
  exists g. split; [by apply Hx | by intros d ?%not_elem_of_nil].
Qed.

(** A log that was cut. *)
Lemma log_cut g l l' c t : c = log_part g l ++ t -> c `prefix_of` log_part g (l ++ l') -> exists k, t = take k (concat (change_bytes ps <$> l')).
Proof.
  intros -> [u Hu]. unfold log_part, log_file in Hu. rewrite fmap_app, concat_app, <-!app_assoc in Hu. apply app_inv_head, app_inv_head in Hu.
  exists (length t). by rewrite Hu, take_app_length.
Qed.

(** What is loaded is one of the contents that are kept. *)
Lemma load_kept K b f now : disk_ok K b f -> exists c g j, c ∈ K /\ dir_ok (inodes f) K b (dir f) g /\ generation j = g /\ full j = true /\
  load block_hash (content Shard f) (content Log f) shard ps now =
    Some match c with None => None | Some c => Some (mkShard (denote now c) false j) end /\ (c = None -> g = 0) /\ (forall d, d ∈ older f -> exists g', g' <= g /\ dir_ok (inodes f) K b d g').
Proof.
  intros [Hw (g0 & Hd & Ho)]. unfold content. pose proof Hd as Hd'. destruct Hd as [E1 E2 HK Hb|i g es E1 Ei Hf Hb E2 HK|i g es i' n g' l l' E1 Ei Hf Hb E2 Ei' Hl Hg Hnew HK].
  - exists None, 0, no_journal. rewrite E1. by splits.
  - rewrite E1, E2, Ei. cbn [fmap option_fmap option_map cur synced]. destruct (load_alone block_hash ps shard now g es Hf) as (j & Hj & Hfull & ->).
    exists (Some (es, [])), g, j. by splits.
  - rewrite E1, E2, Ei, Ei'. cbn [fmap option_fmap option_map cur synced].
    destruct (log_ok_admissible n g' l l' (cur n) Hl) as [Hlo Hhi].
    { destruct Hl as [(lo & hi & Hbn & _ & H2 & H3 & _) _ _ _ _]. unfold admissible. by rewrite Hbn. }
    destruct Hl as [_ Hg' Hfit Hent Hlim]. destruct Hlo as [t Ht]. destruct (log_cut g' l l' _ t Ht Hhi) as [k ->].
    destruct (load_pair block_hash ps shard now g es g' l l' k Hf Hg' Hfit Hent Hlim) as (m & j & Hj & Hfull & Hload).
    rewrite Ht. unfold log_part, log_file at 1. rewrite <-app_assoc. unfold log_file in Hload. rewrite Hload.
    exists (Some (es, if g' =? g then l ++ take m l' else [])), g, j. by splits.
Qed.

(** ** Programs *)

(** At every point [P] holds, also when a write stops in the middle, and [Q] holds at the end. *)
Fixpoint safe (P Q : Fs -> Prop) (ops : list Op) (f : Fs) : Prop :=
  P f /\
  match ops with
  | [] => Q f
  | op :: ops => (forall f', exec op f = Some f' -> safe P Q ops f') /\
    match op with Write x o b => forall n f', exec (Write x o (take n b)) f = Some f' -> P f' | _ => True end
  end.

Lemma concat_chunks n b fuel : 0 < n -> (length b <= fuel)%nat -> concat (chunks fuel n b) = b.
Proof.
  intros Hn. revert b. induction fuel as [|fuel IH]; intros [|x b] Hf; [done | simpl in Hf; lia | done | ].
  cbn [chunks concat]. rewrite IH; [by rewrite take_drop | ]. rewrite length_drop. simpl in *. lia.
Qed.

Lemma chunk_ops x cs off : write_chunks x off cs = (writes x cs off, Ok tt).
Proof. revert off. induction cs as [|c cs IH]; intros off; [done | ]. cbn [write_chunks writes]. rewrite IH. done. Qed.

Definition publishes (tmp : nat) (name : FileName) (b : list byte) (rest : list Op) : list Op :=
  Create (Temp tmp) :: writes (Temp tmp) (chunks (length b) WRITE_CHUNK b) 0 ++ Sync (Temp tmp) :: Rename (Temp tmp) name :: SyncDir :: rest.

Lemma shard_publish_ops tmp name b : publish_named tmp name b = (publishes tmp name b [], Ok tt).
Proof. unfold publish_named, publishes. rewrite chunk_ops. done. Qed.

Lemma publishes_app tmp name b rest rest' : publishes tmp name b rest ++ rest' = publishes tmp name b (rest ++ rest').
Proof. unfold publishes. cbn [app]. by rewrite <-app_assoc. Qed.

Lemma two_publishes t1 t2 a b (j : JournalState) :
  (publish_named t1 Shard a ;; publish_named t2 Log b ;; mret j) = (publishes t1 Shard a (publishes t2 Log b []), Ok j).
Proof. rewrite !shard_publish_ops. cbn [mbind Prog_bind mret Prog_ret]. by rewrite publishes_app, app_nil_r. Qed.

Lemma flush_full_ops t1 t2 j bytes ops j' : flush t1 t2 j true bytes = (ops, Ok j') ->
  let g := generation j + 1 in g < 2 ^ 64 /\ j' = mkJournal g (16 + blen bytes) 16 false /\
  ops = publishes t1 Shard (header SNAPSHOT_MAGIC g ++ bytes) (publishes t2 Log (header LOG_MAGIC g) []).
Proof.
  unfold flush, checked_add. destruct (Z.ltb_spec (generation j + 1) (2 ^ 64)) as [Hg|]; [ | done]. cbn [ok_or lift mbind Prog_bind].
  rewrite two_publishes. intros E. apply pair_eq in E as [E1 E2]. apply Ok_same in E2. subst ops j'. splits; [done | | done].
  f_equal. unfold blen. rewrite length_app, length_header by done. lia.
Qed.

Lemma flush_delta_ops t1 t2 j bytes ops j' : flush t1 t2 j false bytes = (ops, Ok j') ->
  (bytes = [] /\ ops = [] /\ j' = mkJournal (generation j) (snapshot_bytes j) (log_bytes j) false) \/
  ops = writes Log (chunks (length bytes) WRITE_CHUNK bytes) (Z.to_nat (log_bytes j)) ++ [Sync Log] /\
  j' = mkJournal (generation j) (snapshot_bytes j) (log_bytes j + blen bytes) false.
Proof.
  unfold flush. destruct (Nat.eqb_spec (length bytes) 0) as [E0|_].
  - apply nil_length_inv in E0 as ->. intros E. injection E as <- <-. by left.
  - rewrite chunk_ops. cbn [mbind Prog_bind mret Prog_ret app call]. intros E. right.
    apply pair_eq in E as [E1 E2]. apply Ok_same in E2. by subst ops j'.
Qed.

(** An assertion that calls on temporary files keep. *)
Definition kept_by_tmp (A : Fs -> Prop) : Prop := forall op f f', A f -> tmp_op op -> exec op f = Some f' -> A f'.

Lemma safe_writes_tmp P Q A t cs c rest f : (forall f, A f -> P f) -> kept_by_tmp A ->
  (forall f, A f -> tmp_file (Temp t) (c ++ concat cs) f -> safe P Q rest f) -> A f -> tmp_file (Temp t) c f ->
  safe P Q (writes (Temp t) cs (length c) ++ rest) f.
Proof.
  intros HP Hk. revert c f. induction cs as [|b cs IH]; intros c f Hrest Ha Ht; cbn [writes app].
  { cbn [concat] in Hrest. rewrite app_nil_r in Hrest. by apply Hrest. }
  split; [by apply HP | ]. split.
  - intros f' He. destruct (exec_write (Temp t) b c f Ht) as (f1 & He1 & Ht1). rewrite He in He1. injection He1 as <-.
    rewrite <-length_app. apply IH; [ | by eapply (Hk (Write (Temp t) (length c) b)) | done]. intros f1 Ha1 Hx. apply Hrest; [done | ]. by rewrite <-app_assoc in Hx.
  - intros n f' He. apply HP. by eapply (Hk (Write (Temp t) (length c) (take n b))).
Qed.

Lemma publishes_safe P Q A A' t y b rest f : (forall f, A f -> P f) -> (forall f, A' f -> P f) -> kept_by_tmp A -> (forall f, P f -> fs_wf f) -> is_tmp y = false ->
  (forall f i, A f -> dir f !! Temp t = Some i -> inodes f !! i = Some (synced b) -> fs_wf (set_dir (<[y := i]> (delete (Temp t) (dir f))) f) ->
    A' (set_dir (<[y := i]> (delete (Temp t) (dir f))) f)) ->
  (forall f f', A' f -> exec SyncDir f = Some f' -> older f' = [] -> safe P Q rest f') ->
  A f -> safe P Q (publishes t y b rest) f.
Proof.
  intros HP HP' Hk Hw Hy Hren Hrest Ha. unfold publishes. split; [by apply HP | ]. split; [ | done]. intros f1 He1.
  destruct (exec_create (Temp t) f) as (f1' & He & Ht); [by apply Hw, HP | ]. rewrite He1 in He. injection He as <-.
  apply (safe_writes_tmp P Q A t _ [] _ f1 HP Hk); [ | by eapply (Hk (Create (Temp t))) | done].
  clear f f1 Ha He1 Ht. intros f Ha Ht. cbn [app] in Ht. rewrite concat_chunks in Ht by done.
  split; [by apply HP | ]. split; [ | done]. intros f1 He1. destruct (exec_sync (Temp t) b f Ht) as (f1' & He & i & Hd & Hi).
  rewrite He1 in He. injection He as <-. assert (A f1) as Ha1 by (by eapply (Hk (Sync (Temp t)))).
  split; [by apply HP | ]. split; [ | done]. intros f2 He2. assert (fs_wf f2) as Hw2.
  { eapply wf_exec; [apply Hw, HP, Ha1 | | exact He2]. done. }
  cbn [exec] in He2. rewrite Hd in He2. injection He2 as <-. assert (A' (set_dir (<[y := i]> (delete (Temp t) (dir f1))) f1)) as Ha2 by (by apply Hren).
  split; [by apply HP' | ]. split; [ | done]. intros f3 He3. eapply Hrest; [done | done | ]. injection He3 as <-. done.
Qed.

(** ** A flush of everything *)

Definition same_names (d d' : gmap FileName nat) : Prop := forall x, is_tmp x = false -> d !! x = d' !! x.

(** The files are exactly the content [c], and durable. *)
Record settled (j : JournalState) (c : Content) (f : Fs) : Prop := {
  t_wf : fs_wf f;
  t_older : forall d, d ∈ older f -> same_names d (dir f);
  t_shard : exists i, dir f !! Shard = Some i /\ inodes f !! i = Some (synced (snapshot_file ps (generation j) c.1));
  t_log : exists i, dir f !! Log = Some i /\ inodes f !! i = Some (synced (log_part (generation j) c.2));
  t_fits : fitting (generation j) c.1;
  t_changes : Forall (fits ps) c.2 /\ Forall (fun x => entry_ok block_hash ps shard x.1) c.2 /\ blen (concat (change_bytes ps <$> c.2)) <= 2 * MAX_BYTES;
  t_bytes : log_bytes j = blen (log_part (generation j) c.2);
  t_size : snapshot_bytes j <= MAX_BYTES + 16;
}.

Lemma log_ok_synced g l : 0 <= g < 2 ^ 64 -> Forall (fits ps) l -> Forall (fun x => entry_ok block_hash ps shard x.1) l ->
  blen (concat (change_bytes ps <$> l)) <= 2 * MAX_BYTES -> log_ok (synced (log_part g l)) g l [].
Proof. intros. split; rewrite ?app_nil_r; try done. by eexists _, _. Qed.

(** One good directory state, the others with the same files. *)
Lemma disk_ok_names K b f g : fs_wf f -> (forall d, d ∈ older f -> same_names d (dir f)) -> dir_ok (inodes f) K b (dir f) g -> disk_ok K b f.
Proof.
  intros Hw Ho Hd. split; [done | ]. exists g. split; [done | ]. intros d Hin. exists g. split; [done | ]. eapply dir_ok_same; [ | exact Hd].
  intros x Hx. split; [by apply Ho | done].
Qed.

Lemma settled_ok j c f : settled j c f -> disk_ok [Some c] (generation j) f.
Proof.
  intros [Hw Ho (i & Hi & Hs) (i' & Hi' & Hl) Hf (H1 & H2 & H3) _ _]. apply (disk_ok_names _ _ _ (generation j)); [done | done | ].
  destruct c as [es l]. pose proof (f_generation _ _ _ _ _ Hf).
  eapply dir_both; [done | done | done | lia | done | done | apply log_ok_synced; [lia | done..] | done | lia | ].
  intros n. rewrite Z.eqb_refl, take_nil, app_nil_r. by left.
Qed.

(** Temporary files that a failure left are removed. *)
Lemma settled_clean j c f f' n : settled j c f -> exec (Remove (Temp n)) f = Some f' -> settled j c f'.
Proof.
  intros [Hw Ho Hs Hl Hf Hc Hb Hz] He. assert (fs_wf f') as Hw' by (eapply wf_exec; [exact Hw | | exact He]; done).
  cbn [exec] in He. destruct (dir f !! Temp n) as [i|]; apply (inj Some) in He as <-; [ | done].
  assert (same_names (delete (Temp n) (dir f)) (dir f)) as Hn by (intros x Hx; by destruct x; rewrite ?lookup_delete_ne).
  split; cbn [set_dir dir older inodes]; try done.
  - intros d [->|Hin]%elem_of_cons x Hx; rewrite Hn by done; [done | by apply Ho].
  - rewrite Hn by done. done.
  - rewrite Hn by done. done.
Qed.

Lemma header_log g : header LOG_MAGIC g = log_part g [].
Proof. unfold log_part, log_file. by rewrite fmap_nil, app_nil_r. Qed.

Lemma dir_ok_generation I K b d g : dir_ok I K b d g -> g <= b + 1.
Proof. intros []; lia. Qed.

Section Full.
Context (K : list (option Content)) (b : Z) (es : list entry) (Hf : fitting (b + 1) es) (HK : Some (es, []) ∈ K).

(** The new snapshot is in place. *)
Definition has_snapshot (f : Fs) : Prop :=
  disk_ok K b f /\ exists i, dir f !! Shard = Some i /\ inodes f !! i = Some (synced (snapshot_file ps (b + 1) es)).

Definition has_log (f : Fs) : Prop := has_snapshot f /\ exists i, dir f !! Log = Some i /\ inodes f !! i = Some (synced (log_part (b + 1) [])).

Lemma same_file op f f' x c : fs_wf f -> tmp_op op -> exec op f = Some f' -> is_tmp x = false ->
  (exists i, dir f !! x = Some i /\ inodes f !! i = Some (synced c)) -> exists i, dir f' !! x = Some i /\ inodes f' !! i = Some (synced c).
Proof.
  intros Hw Hop He Hx (i & Hd & Hi). destruct (tmp_only_exec op f f' Hw Hop He) as [Hs _]. destruct (Hs x Hx) as [E1 E2]. exists i. by rewrite E1, (E2 i).
Qed.

Lemma disk_kept : kept_by_tmp (disk_ok K b).
Proof. intros op f f' Hd Hop He. by eapply disk_ok_exec. Qed.

Lemma snapshot_kept : kept_by_tmp has_snapshot.
Proof.
  intros op f f' [Hd Hs] Hop He. split; [by eapply disk_ok_exec | ]. eapply (same_file op f); [apply (d_wf _ _ _ Hd) | done | done | done | done].
Qed.

Lemma log_kept : kept_by_tmp has_log.
Proof.
  intros op f f' [Hd Hs] Hop He. split; [by eapply (snapshot_kept op f) | ]. eapply (same_file op f); [apply (d_wf _ _ _ (proj1 Hd)) | done | done | done | done].
Qed.

(** The snapshot is renamed into place while the log is of an older generation, or of the same and empty. *)
Lemma rename_snapshot t f i : disk_ok K b f -> dir f !! Temp t = Some i -> inodes f !! i = Some (synced (snapshot_file ps (b + 1) es)) ->
  fs_wf (set_dir (<[Shard := i]> (delete (Temp t) (dir f))) f) -> has_snapshot (set_dir (<[Shard := i]> (delete (Temp t) (dir f))) f).
Proof.
  intros [_ (g0 & Hd & Ho)] Ht Hi Hw. set (d' := <[Shard := i]> _). assert (d' !! Shard = Some i) as E1 by apply lookup_insert_eq.
  assert (d' !! Log = dir f !! Log) as E2 by (unfold d'; by rewrite lookup_insert_ne, lookup_delete_ne by done).
  split; [ | by exists i]. split; [done | ]. exists (b + 1). cbn [set_dir dir older inodes]. split.
  - destruct Hd as [_ E _ _|? ? ? _ _ _ _ E _|? g ? i' n g' l l' _ _ _ Hg E Ei' Hl Hg' Hnew _].
    + eapply dir_snapshot; [done | done | done | done | congruence | done].
    + eapply dir_snapshot; [done | done | done | done | congruence | done].
    + eapply dir_both; [done | done | done | done | by rewrite E2 | done | done | lia | done | ].
      intros m. destruct (Z.eqb_spec g' (b + 1)) as [Hx|]; [ | done]. apply Hnew in Hx. apply app_eq_nil in Hx as [-> ->]. by rewrite take_nil.
  - intros d [->|Hin]%elem_of_cons; [exists g0 | destruct (Ho d Hin) as (g & Hg & Hx); exists g]; (split; [by eapply dir_ok_generation | done]).
Qed.

Lemma rename_log t f i : has_snapshot f -> dir f !! Temp t = Some i -> inodes f !! i = Some (synced (log_part (b + 1) [])) ->
  fs_wf (set_dir (<[Log := i]> (delete (Temp t) (dir f))) f) -> has_log (set_dir (<[Log := i]> (delete (Temp t) (dir f))) f).
Proof.
  intros [[_ (g0 & Hd & Ho)] (k & Hk & Hs)] Ht Hi Hw. set (d' := <[Log := i]> _). assert (d' !! Log = Some i) as E1 by apply lookup_insert_eq.
  assert (d' !! Shard = Some k) as E2 by (unfold d'; by rewrite lookup_insert_ne, lookup_delete_ne by done).
  split; [split | by exists i]; [ | by exists k]. split; [done | ]. exists (b + 1). cbn [set_dir dir older inodes]. split.
  - pose proof (f_generation _ _ _ _ _ Hf). eapply dir_both; [done | done | done | done | done | done | apply log_ok_synced; [lia | done..] | done | done | ].
    intros n. by rewrite Z.eqb_refl, take_nil.
  - intros d [->|Hin]%elem_of_cons; [exists g0 | destruct (Ho d Hin) as (g & Hg & Hx); exists g]; (split; [by eapply dir_ok_generation | done]).
Qed.

Lemma full_safe t1 t2 f n : disk_ok K b f -> n = 16 + blen (sealed (snapshot_data ps es)) ->
  safe (disk_ok K b) (settled (mkJournal (b + 1) n 16 false) (es, []))
    (publishes t1 Shard (snapshot_file ps (b + 1) es) (publishes t2 Log (header LOG_MAGIC (b + 1)) [])) f.
Proof.
  intros Hd ->. apply (publishes_safe _ _ (disk_ok K b) has_snapshot); [done | by intros ? [? _] | apply disk_kept | by intros ? [? _] | done | | | done].
  { intros f1 i. apply rename_snapshot. }
  clear f Hd. intros f f' Hs He _. apply (snapshot_kept SyncDir f f') in He; [ | done..]. clear f Hs. rewrite header_log.
  apply (publishes_safe _ _ has_snapshot has_log); [by intros ? [? _] | by intros ? [[? _] _] | apply snapshot_kept | by intros ? [? _] | done | | | done].
  { intros f1 i. apply rename_log. }
  clear f' He. intros f f' Hs He Ho. apply (log_kept SyncDir f f') in He as [[Hd Hsh] Hlog]; [ | done..]. split; [done | ].
  split; cbn [generation fst snd log_bytes snapshot_bytes]; try done.
  - apply (d_wf _ _ _ Hd).
  - rewrite Ho. by intros d ?%not_elem_of_nil.
  - pose proof (f_limit _ _ _ _ _ Hf). lia.
Qed.
End Full.

(** ** A flush of changes *)

Section Delta.
Context (j : JournalState) (c : Content) (l : list change) (f0 : Fs) (Hset : settled j c f0).
Context (Hfits : Forall (fits ps) l) (Hent : Forall (fun x => entry_ok block_hash ps shard x.1) l).
Context (Hlim : blen (concat (change_bytes ps <$> c.2 ++ l)) <= 2 * MAX_BYTES).

Lemma exec_file f f' i n (op : Op) g : exec op f = on_file Log g f -> dir f !! Log = Some i -> inodes f !! i = Some n -> exec op f = Some f' ->
  f' = mkFs (dir f) (older f) (<[i := g n]> (inodes f)) (fresh f).
Proof. intros -> Hd Hi. unfold on_file. rewrite Hd, Hi. intros He. by apply (inj Some) in He. Qed.

(** Some of the changes have been written. *)
Record appended (w : list byte) (f : Fs) : Prop := {
  p_wf : fs_wf f;
  p_older : forall d, d ∈ older f -> same_names d (dir f);
  p_shard : exists i, dir f !! Shard = Some i /\ inodes f !! i = Some (synced (snapshot_file ps (generation j) c.1));
  p_log : exists i, dir f !! Log = Some i /\ inodes f !! i = Some (mkInode (log_part (generation j) c.2 ++ w) (Some (log_part (generation j) c.2, log_part (generation j) c.2 ++ w)));
}.

Lemma log_part_app g k k' : log_part g (k ++ k') = log_part g k ++ concat (change_bytes ps <$> k').
Proof. unfold log_part, log_file. by rewrite fmap_app, concat_app, app_assoc. Qed.

Lemma appended_ok w f : w `prefix_of` concat (change_bytes ps <$> l) -> appended w f -> disk_ok (prefixes c l) (generation j) f.
Proof.
  intros Hpre [Hw Ho (i & Hi & Hs) (i' & Hi' & Hl)]. apply (disk_ok_names _ _ _ (generation j)); [done | done | ].
  pose proof (t_fits _ _ _ Hset) as Hf. pose proof (f_generation _ _ _ _ _ Hf). destruct (t_changes _ _ _ Hset) as (Hc1 & Hc2 & _).
  eapply (dir_both _ _ _ _ i (generation j) c.1 i' _ (generation j) c.2 l); [done | done | done | lia | done | done | | done | lia | ].
  - split; [ | lia | by apply Forall_app | by apply Forall_app | done]. eexists _, _. splits; [done | done | by apply prefix_app_r | done | ].
    rewrite log_part_app. by apply prefix_app.
  - intros n. rewrite Z.eqb_refl. unfold prefixes. apply list_elem_of_fmap. exists (min n (length l)). split; [ | apply elem_of_seq; lia].
    destruct (decide (n <= length l)%nat); [by rewrite Nat.min_l | ]. rewrite Nat.min_r, !take_ge by lia. done.
Qed.

Lemma appended_write w x f f' : appended w f -> exec (Write Log (length (log_part (generation j) c.2 ++ w)) x) f = Some f' -> appended (w ++ x) f'.
Proof.
  intros [Hw Ho (i & Hi & Hs) (i' & Hi' & Hl)] He. assert (fs_wf f') as Hw' by (eapply wf_exec; [exact Hw | | exact He]; done).
  apply (exec_file f f' i' _ (Write Log _ x) (write_inode _ x) eq_refl Hi' Hl) in He as ->.
  assert (i <> i') as Hne by (intros ->; by assert (Shard = Log) by (eapply (wf_inj f Hw (dir f)); [by left | done | done])).
  split; cbn [older dir inodes]; [done | done | exists i; by rewrite lookup_insert_ne | ]. exists i'. rewrite lookup_insert_eq. split; [done | ]. f_equal.
  unfold write_inode. cbn [cur bounds]. rewrite overwrite_end, bool_decide_true by done. by rewrite <-!app_assoc.
Qed.

Lemma appended_sync w f f' : appended w f -> exec (Sync Log) f = Some f' -> w = concat (change_bytes ps <$> l) ->
  settled (mkJournal (generation j) (snapshot_bytes j) (log_bytes j + blen w) false) (c.1, c.2 ++ l) f'.
Proof.
  intros [Hw Ho (i & Hi & Hs) (i' & Hi' & Hl)] He ->. assert (fs_wf f') as Hw' by (eapply wf_exec; [exact Hw | | exact He]; done).
  apply (exec_file f f' i' _ (Sync Log) (fun n => synced (cur n)) eq_refl Hi' Hl) in He as ->.
  assert (i <> i') as Hne by (intros ->; by assert (Shard = Log) by (eapply (wf_inj f Hw (dir f)); [by left | done | done])).
  destruct Hset as [_ _ _ _ Hf (Hc1 & Hc2 & _) Hb Hsz]. split; cbn [generation fst snd log_bytes snapshot_bytes older dir inodes cur]; try done.
  - exists i. by rewrite lookup_insert_ne.
  - exists i'. rewrite lookup_insert_eq. split; [done | ]. by rewrite log_part_app.
  - splits; [by apply Forall_app | by apply Forall_app | done].
  - rewrite log_part_app, Hb. unfold blen. rewrite length_app. lia.
Qed.

Lemma delta_writes Q rest cs w f : concat cs = drop (length w) (concat (change_bytes ps <$> l)) -> w `prefix_of` concat (change_bytes ps <$> l) -> appended w f ->
  (forall f', appended (concat (change_bytes ps <$> l)) f' -> safe (disk_ok (prefixes c l) (generation j)) Q rest f') ->
  safe (disk_ok (prefixes c l) (generation j)) Q (writes Log cs (length (log_part (generation j) c.2 ++ w)) ++ rest) f.
Proof.
  revert w f. induction cs as [|x cs IH]; intros w f Hc Hpre Ha HQ.
  { cbn [writes app]. apply HQ. destruct Hpre as [u Hu]. rewrite Hu, drop_app_length in Hc. cbn in Hc. subst u. rewrite app_nil_r in Hu. by rewrite Hu. }
  assert (w ++ x ++ concat cs = concat (change_bytes ps <$> l)) as Hall.
  { destruct Hpre as [u Hu]. rewrite Hu, drop_app_length in Hc. cbn [concat] in Hc. by rewrite Hu, <-Hc. }
  assert (forall n, w ++ take n x `prefix_of` concat (change_bytes ps <$> l)) as Hpx.
  { intros n. exists (drop n x ++ concat cs). rewrite <-Hall, <-app_assoc, (app_assoc (take n x)), take_drop. done. }
  cbn [writes app]. split; [by eapply appended_ok | ]. split.
  - intros f' He. pose proof (appended_write w x f f' Ha He) as Ha'. rewrite <-length_app, <-app_assoc. apply IH; [ | | done | done].
    + rewrite <-Hall, app_assoc, drop_app_length. done.
    + exists (concat cs). by rewrite <-Hall, app_assoc.
  - intros n f' He. apply (appended_ok (w ++ take n x)); [done | ]. by eapply appended_write.
Qed.

Lemma delta_safe t1 t2 bytes ops j' : bytes = concat (change_bytes ps <$> l) -> flush t1 t2 j false bytes = (ops, Ok j') ->
  safe (disk_ok (prefixes c l) (generation j)) (settled j' (c.1, c.2 ++ l)) ops f0.
Proof.
  intros -> Hfl. assert (appended [] f0) as Ha.
  { destruct Hset as [Hw Ho Hs (i & Hi & Hl) _ _ _ _]. split; [done | done | done | ]. exists i. by rewrite app_nil_r. }
  pose proof (appended_ok [] f0 (prefix_nil _) Ha) as Hok. apply flush_delta_ops in Hfl as [(Hb & -> & ->)|[-> ->]].
  - split; [done | ]. assert (l = []) as ->.
    { destruct l as [|x k]; [done | ]. rewrite fmap_cons in Hb. cbn [concat] in Hb. apply app_eq_nil in Hb as [Hb _].
      pose proof (length_frame ps x) as Hlen. rewrite Hb in Hlen. simpl in Hlen. lia. }
    rewrite app_nil_r. destruct c as [es k]. by destruct Hset.
  - pose proof (t_bytes _ _ _ Hset) as Hb. replace (Z.to_nat (log_bytes j)) with (length (log_part (generation j) c.2 ++ [])) by (rewrite app_nil_r, Hb; unfold blen; lia).
    apply delta_writes; [by rewrite concat_chunks | apply prefix_nil | done | ]. intros f' Ha'. split; [by eapply appended_ok | ]. split; [ | done].
    intros f'' He. pose proof (appended_sync _ f' f'' Ha' He eq_refl) as Hx. split; [ | done]. apply settled_ok in Hx. eapply disk_ok_keep; [ | exact Hx].
    intros x ->%list_elem_of_singleton. unfold prefixes. apply list_elem_of_fmap. exists (length l). rewrite take_ge by done. split; [done | ]. apply elem_of_seq. lia.
Qed.
End Delta.

(** ** Every reachable state *)

Definition sys_ok (s : Sys) : Prop :=
  match journal s, task s with
  | None, None => exists b, disk_ok (kept s) b (fs s)
  | None, Some _ => False
  | Some j, None => 0 <= generation j /\ disk_ok (kept s) (generation j) (fs s) /\ (full j = false -> settled j (base s) (fs s))
  | Some j, Some t => 0 <= generation j /\ 0 <= generation (next t) /\ full j = true /\ safe (disk_ok (kept s) (generation j)) (settled (next t) (goal t)) (todo t) (fs s)
  end.

Lemma files_init_ok : sys_ok files_init.
Proof.
  assert (forall d x, d ∈ dirs (empty_fs (Name := FileName)) -> d !! x = None) as He by (intros d x ->%list_elem_of_singleton; apply lookup_empty).
  exists 0. split.
  - split; cbn [files_init fs]; [intros d x i Hd | intros d x y i Hd | intros x i d y _ Hx Hd]; [by rewrite He | by rewrite He | ]. by rewrite (He _ x) in Hx by left.
  - exists 0. split; [ | by intros d ?%not_elem_of_nil]. by apply dir_none; [ | | left | ].
Qed.

Lemma safe_here P Q ops f : safe P Q ops f -> P f.
Proof. destruct ops; by intros [? _]. Qed.

Lemma sys_disk s : sys_ok s -> exists b, disk_ok (kept s) b (fs s).
Proof.
  unfold sys_ok. destruct (journal s) as [j|], (task s) as [t|]; try done.
  - intros (_ & _ & _ & Hs). exists (generation j). by eapply safe_here.
  - intros (_ & Hd & _). by exists (generation j).
Qed.

Lemma compact_bound j bytes : compact j = false -> snapshot_bytes j <= MAX_BYTES + 16 -> blen bytes <= MAX_BYTES -> log_bytes j + blen bytes <= 2 * MAX_BYTES.
Proof.
  unfold compact. destruct (full j); [done | ]. cbn [orb]. intros Hc%Z.leb_gt Hs Hb. unfold div_ceil in Hc. change COMPACT_BYTES with 1048576 in Hc.
  unfold MAX_BYTES in *. assert ((snapshot_bytes j + 2 - 1) / 2 < 33554441) by (apply Z.div_lt_upper_bound; lia). lia.
Qed.

Lemma step_full_ok s j t1 t2 es bytes ops j' : sys_ok s -> journal s = Some j -> task s = None -> is_u 32 ps ->
  Forall (entry_ok block_hash ps shard) es -> NoDup es.*1 -> encode ps es = Ok bytes -> flush t1 t2 j true bytes = (ops, Ok j') ->
  sys_ok (mkSys (fs s) (Some (demand_full j)) (Some (mkTask ops j' (es, []))) (kept s ++ [Some (es, [])]) (base s)).
Proof.
  unfold sys_ok. intros Hs Hj Ht Hps Hok Hn He Hfl. rewrite Hj, Ht in Hs. destruct Hs as (Hg & Hd & _). apply flush_full_ops in Hfl as (Hlt & -> & ->).
  apply (snapshot_encode_ok block_hash) in He as (Hes & -> & Hb). cbn [journal task fs kept generation demand_full full todo next goal]. splits; [done | lia | done | ].
  apply full_safe; [ | | by eapply disk_ok_keep; [ | exact Hd]; intros c Hc; apply elem_of_app; left | done].
  - by split; [lia | .. ].
  - apply elem_of_app. right. by left.
Qed.

Lemma step_delta_ok s j t1 t2 l bytes ops j' : sys_ok s -> journal s = Some j -> task s = None -> compact j = false ->
  Forall (fun x => entry_ok block_hash ps shard x.1) l -> encode_delta ps l = Ok bytes -> flush t1 t2 j false bytes = (ops, Ok j') ->
  sys_ok (mkSys (fs s) (Some (demand_full j)) (Some (mkTask ops j' ((base s).1, (base s).2 ++ l))) (prefixes (base s) l) (base s)).
Proof.
  unfold sys_ok. intros Hs Hj Ht Hc Hok He Hfl. rewrite Hj, Ht in Hs. destruct Hs as (Hg & _ & Hset). assert (full j = false) as Hfull.
  { unfold compact in Hc. by destruct (full j). }
  specialize (Hset Hfull). apply (encode_delta_ok block_hash) in He as (Hf & -> & Hb). cbn [journal task fs kept generation demand_full full todo next goal].
  assert (blen (concat (change_bytes ps <$> (base s).2 ++ l)) <= 2 * MAX_BYTES) as Hlim.
  { pose proof (compact_bound j _ Hc (t_size _ _ _ Hset) Hb) as Hx. rewrite (t_bytes _ _ _ Hset) in Hx.
    revert Hx. unfold log_part, log_file, blen. rewrite fmap_app, concat_app, !length_app. lia. }
  splits; [done | | done | by eapply (delta_safe j)]. apply flush_delta_ops in Hfl as [(_ & _ & ->)|[_ ->]]; done.
Qed.

Lemma step_load_ok s now r : sys_ok s -> journal s = None -> load block_hash (content Shard (fs s)) (content Log (fs s)) shard ps now = Some r ->
  sys_ok (mkSys (fs s) (Some match r with Some r => s_journal r | None => no_journal end) None (kept s) (base s)).
Proof.
  intros Hs Hj Hl. destruct (sys_disk s Hs) as [b Hd]. destruct (load_kept _ _ _ now Hd) as (c & g & j & Hc & Hg & Ej & Efull & Hload & Hnone & Ho).
  rewrite Hload in Hl. apply (inj Some) in Hl as <-. unfold sys_ok. cbn [journal task fs kept base].
  assert (0 <= g) as Hg0 by (destruct Hg as [|? ? ? _ _ Hf|? ? ? ? ? ? ? ? _ _ Hf]; [done | apply f_generation in Hf; lia | apply f_generation in Hf; lia]).
  assert (forall j', generation j' = g -> full j' = true -> 0 <= generation j' /\ disk_ok (kept s) (generation j') (fs s) /\ (full j' = false -> settled j' (base s) (fs s))) as Hx.
  { intros j' -> Hfull. splits; [done | | by rewrite Hfull]. split; [apply (d_wf _ _ _ Hd) | ]. exists g. split; [by eapply dir_ok_rebase | ].
    intros d Hin. destruct (Ho d Hin) as (g' & Hle & Hx). exists g'. split; [done | by eapply dir_ok_rebase]. }
  destruct c as [c|]; [by apply Hx | ]. apply Hx; [ | done]. by rewrite Hnone.
Qed.

Lemma step_ok s s' : is_u 32 ps -> sys_ok s -> step block_hash ps shard s s' -> sys_ok s'.
Proof.
  intros Hps Hs Hstep. pose proof (sys_disk s Hs) as [b Hd]. destruct Hstep as [s j t1 t2 es bytes ops j' Hj Ht Hc _ _ Hok Hn He Hfl|s j t1 t2 l bytes ops j' Hj Ht Hc Hok He Hfl|
    s t op ops f Ht Hops He|s t Ht Hops|s t Ht|s t x o bs ops n f Ht Hops He|s n f Ht He|s f Hk|s f Hk|s now r Hj Hl].
  - by eapply step_full_ok.
  - by eapply step_delta_ok.
  - unfold sys_ok in *. rewrite Ht in Hs. cbn [journal task fs kept base]. destruct (journal s) as [j|]; [ | done]. destruct Hs as (H1 & H2 & H3 & Hs).
    splits; [done.. | ]. rewrite Hops in Hs. cbn [todo next goal]. by apply Hs.
  - unfold sys_ok in *. rewrite Ht in Hs. cbn [journal task fs kept base]. destruct (journal s) as [j|]; [ | done]. destruct Hs as (H1 & H2 & H3 & Hs).
    rewrite Hops in Hs. destruct Hs as [_ Hset]. splits; [done | by apply settled_ok | done].
  - unfold sys_ok in *. rewrite Ht in Hs. cbn [journal task fs kept base]. destruct (journal s) as [j|]; [ | done]. destruct Hs as (H1 & H2 & H3 & Hs).
    splits; [done | by eapply safe_here | by rewrite H3].
  - unfold sys_ok in *. rewrite Ht in Hs. cbn [journal task fs kept base]. destruct (journal s) as [j|]; [ | done]. destruct Hs as (H1 & H2 & H3 & Hs).
    rewrite Hops in Hs. destruct Hs as (_ & _ & Htorn). splits; [done | by eapply Htorn | by rewrite H3].
  - unfold sys_ok in *. rewrite Ht in Hs. cbn [journal task fs kept base]. destruct (journal s) as [j|].
    + destruct Hs as (H1 & H2 & H3). splits; [done | by eapply (disk_ok_exec _ _ (Remove (Temp n))) | ]. intros Hf. eapply settled_clean; [by apply H3 | done].
    + exists b. by eapply (disk_ok_exec _ _ (Remove (Temp n))).
  - unfold sys_ok. cbn [journal task fs kept base]. exists b. by eapply disk_ok_kill.
  - unfold sys_ok. cbn [journal task fs kept base]. exists b. by eapply disk_ok_power.
  - by eapply step_load_ok.
Qed.

Lemma reach_ok s : is_u 32 ps -> files_reach block_hash ps shard s -> sys_ok s.
Proof. intros Hps. induction 1 as [|s s' _ IH Hs]; [apply files_init_ok | by eapply step_ok]. Qed.

(** The calls of a task that all succeed. *)
Lemma reach_calls f j t K c f' : files_reach block_hash ps shard (mkSys f j (Some t) K c) -> exec_all (todo t) f = Some f' ->
  files_reach block_hash ps shard (mkSys f' j (Some (mkTask [] (next t) (goal t))) K c).
Proof.
  destruct t as [ops nx gl]. cbn [todo next goal]. revert f. induction ops as [|op ops IH]; intros f Hr He; cbn [exec_all] in He; [by injection He as <- | ].
  destruct (exec op f) as [f1|] eqn:E; [ | done]. apply (IH f1); [ | done]. eapply reach_step; [exact Hr | ]. by apply (step_call block_hash ps shard (mkSys f j (Some (mkTask (op :: ops) nx gl)) K c) (mkTask (op :: ops) nx gl) op ops f1).
Qed.

(** C29: a shard never loses the access times of a completed flush. Flush everything or the changes any number of times, let any system call fail, a write
    also in the middle, let the process or the machine die at any point and start again. Whatever a failure leaves on the disk then loads without damage, as the
    content of the last completed flush, or of a flush that was begun since: all of it, or, of a flush of changes, the first ones. *)
Theorem ages_survive s f now : is_u 32 ps -> files_reach block_hash ps shard s -> f = fs s \/ kill (fs s) f \/ power_loss (fs s) f ->
  exists c j, c ∈ kept s /\
    load block_hash (content Shard f) (content Log f) shard ps now =
      Some match c with None => None | Some c => Some (mkShard (denote now c) false j) end.
Proof.
  intros Hps Hr Hf. pose proof (sys_disk s (reach_ok s Hps Hr)) as [b Hd].
  assert (disk_ok (kept s) b f) as Hd'.
  { destruct Hf as [->|[Hk|Hk]]; [done | by eapply disk_ok_kill | by eapply disk_ok_power]. }
  destruct (load_kept _ _ _ now Hd') as (c & g & j & Hc & _ & _ & _ & Hl & _). by exists c, j.
Qed.

(** After a damaged snapshot was given up, the generation numbers start over: a log of generation 1 that is still there is applied to
    the next snapshot, if the machine dies before the log is replaced. *)
Lemma stale_log_applied t1 t2 es bytes l now : is_u 32 ps -> encode ps es = Ok bytes -> Forall (entry_ok block_hash ps shard) es -> NoDup es.*1 ->
  Forall (fits ps) l -> Forall (fun x => entry_ok block_hash ps shard x.1) l -> blen (concat (change_bytes ps <$> l)) <= 2 * MAX_BYTES ->
  exists rest j', flush t1 t2 no_journal true bytes = (publishes t1 Shard (snapshot_file ps 1 es) rest, Ok j') /\
  exists j, load block_hash (Some (snapshot_file ps 1 es)) (Some (log_part 1 l)) shard ps now = Some (Some (mkShard (denote now (es, l)) false j)).
Proof.
  intros Hps He Hok Hn Hf Hent Hlim. apply (snapshot_encode_ok block_hash) in He as (Hes & -> & Hb). eexists _, _. split.
  { unfold flush. change (checked_add 64 (generation no_journal) 1) with (Some 1). cbn [lift mbind Prog_bind ok_or]. rewrite two_publishes. reflexivity. }
  destruct (load_pair block_hash ps shard now 1 es 1 l [] 0) as (n & j & _ & _ & Hl); rewrite ?app_nil_r; [by split | done | done | done | done | ].
  rewrite fmap_nil in Hl. cbn [concat] in Hl. rewrite !take_nil, !app_nil_r in Hl. exists j. exact Hl.
Qed.
End Crash.

(** ** A shard with one block *)

#[local] Existing Instance toy_xxh3.
#[local] Existing Instance toy_json.

Definition demo_entries : list entry := [(demo_id, mkAccess 1 100 [(0, 10); (2, 90)])].

Definition demo_bytes : list byte := match encode 16 demo_entries with Ok b => b | Err _ => [] end.
Definition demo_task : Task := mkTask (flush 0 1 no_journal true demo_bytes).1 (mkJournal 1 (16 + blen demo_bytes) 16 false) (demo_entries, []).
Definition demo_fs : Fs := default empty_fs (exec_all (todo demo_task) empty_fs).
Definition demo_sys : Sys := mkSys demo_fs (Some (next demo_task)) None [Some (demo_entries, [])] (demo_entries, []).

Lemma demo_reach : files_reach demo_hash 16 0 demo_sys.
Proof.
  eapply reach_step; [ | apply (step_done demo_hash 16 0 (mkSys demo_fs (Some no_journal) (Some (mkTask [] (next demo_task) (goal demo_task))) [None; Some (demo_entries, [])] ([], [])) (mkTask [] (next demo_task) (goal demo_task))); done].
  eapply (reach_calls _ _ _ empty_fs (Some no_journal) demo_task); [ | vm_compute; reflexivity].
  eapply reach_step; [eapply reach_step; [apply reach_init | ] | ].
  - by apply (step_load demo_hash 16 0 files_init 200 None).
  - apply (step_full demo_hash 16 0 (mkSys empty_fs (Some no_journal) None [None] ([], [])) no_journal 0 1 demo_entries demo_bytes (todo demo_task) (next demo_task)); try done.
    + repeat constructor; vm_compute; try done; intros; discriminate.
    + vm_compute. repeat constructor; by intros ?%not_elem_of_nil.
Qed.

Lemma ages_survive_witness : exists c j, c ∈ [Some (demo_entries, [])] /\
  load demo_hash (content Shard demo_fs) (content Log demo_fs) 0 16 200 = Some match c with None => None | Some c => Some (mkShard (denote 200 c) false j) end.
Proof. apply (ages_survive demo_hash 16 0 demo_sys demo_fs 200); [done | exact demo_reach | by left]. Defined.
End AccessCrash.
