(* ===== verification/ShardRegistry.v ===== *)
(** The blocks of a shard and the checkpoint of their access times (crates/talon-worker/src/page_lifecycle.rs: Registry and the checkpoint methods of
    PageLifecycle; runtime/page_maintenance.rs: checkpoint_shard).

    One shard: blocks are registered and retired, their pages are read and change, while a checkpoint goes through the registry in batches,
    samples block after block, flushes, and commits. An event is one critical section. A block is what a checkpoint sees of it: the ages of its
    pages, which were read since the last sample, its revisions, and whether it is in the map of dirty blocks; [PageLifecycle] has the
    protocol inside a block. Removed blocks are remembered until a flush has removed them from the disk. *)

From stdpp Require Import gmap sorting.
From S2P Require Import Prelude External Key FileSystem AccessRecord AccessShard.

Module ShardRegistry.
Import Key AccessRecord AccessShard.

(** [b_born] is ghost state: the membership when the block was registered. *)
Record Block := mkBlock {
  b_id : BlockId;
  b_pages : gmap Z (option Z);
  b_marks : gset Z;
  b_revision : Z;
  b_checkpointed : Z;
  b_dirty : bool;
  b_born : Z;
}.

Record Registry := mkRegistry {
  ordered : gmap Z Block;
  next_slot : Z;
  membership : Z;
  checkpointed_membership : Z;
  removed : gmap Z BlockId;
  removed_bytes : Z;
  removal_overflow : Z;
  state : JournalState;
}.

Definition set_ordered v g := mkRegistry v (next_slot g) (membership g) (checkpointed_membership g) (removed g) (removed_bytes g) (removal_overflow g) (state g).
Definition set_state v g := mkRegistry (ordered g) (next_slot g) (membership g) (checkpointed_membership g) (removed g) (removed_bytes g) (removal_overflow g) v.

(** A sampled block: its page guards with the markers they took, the summary they took, and what will be written. *)
Record Sample := mkSample {
  s_slot : Z;
  s_id : BlockId;
  s_pages : gmap Z (option Z);
  s_marks : gset Z;
  s_dirty : bool;
  s_replace : bool;
  s_snapshot : AccessSnapshot;
}.

(** What a checkpoint read when it started. *)
Record Run := mkRun { ceiling : Z; at_membership : Z; tombstones : list BlockId; whole : bool; journal_was : JournalState }.

Inductive Phase :=
  | Idle
  | Started (ceiling at_membership : Z) (dirty : bool)
  | Sampling (r : Run) (cursor : Z) (batch : list Z) (samples : list Sample)
  | Writing (r : Run) (samples : list Sample)
  | Committing (r : Run) (samples : list Sample)
  | Restoring (samples : list Sample).

Record World := mkWorld { registry : Registry; clock : Z; disk : Content; phase : Phase }.

Definition set_registry v w := mkWorld v (clock w) (disk w) (phase w).
Definition set_phase v w := mkWorld (registry w) (clock w) (disk w) v.

(** ** The registry *)

Definition id_bytes (id : BlockId) : Z := blen (bucket (object id)) + blen (object_path (object id)) + blen (version id) + 128.

(** [Registry::removed]. *)
Definition record_removal (id : BlockId) (g : Registry) : Registry :=
  let m := membership g + 1 in
  if generation (state g) =? 0 then mkRegistry (ordered g) (next_slot g) m (checkpointed_membership g) (removed g) (removed_bytes g) (removal_overflow g) (state g)
  else if Z.shiftl 1 20 <? removed_bytes g + id_bytes id
  then mkRegistry (ordered g) (next_slot g) m (checkpointed_membership g) (removed g) (removed_bytes g) m (state g)
  else mkRegistry (ordered g) (next_slot g) m (checkpointed_membership g) (<[m := id]> (removed g)) (removed_bytes g + id_bytes id) (removal_overflow g) (state g).

Definition has_id (id : BlockId) (g : Registry) : bool := bool_decide (id ∈ (b_id <$> (map_to_list (ordered g)).*2)).

(** [PageLifecycle::block] for a block that is not there: its pages may be in the index already, and have been read. *)
Definition known_ages (pages : gmap Z (option Z)) : gmap Z Z := omap id pages.

Definition add_block (id : BlockId) (pages : gmap Z (option Z)) (g : Registry) : Registry :=
  if has_id id g then g else
  let n := next_slot g + 1 in
  let m := membership g + 1 in
  mkRegistry (<[n := mkBlock id pages (dom (known_ages pages)) 0 0 (negb (bool_decide (known_ages pages = ∅))) m]> (ordered g)) n m (checkpointed_membership g) (removed g) (removed_bytes g) (removal_overflow g) (state g).

(** The blocks that a checkpoint holds on to. *)
Definition owned (p : Phase) : list Z :=
  match p with
  | Sampling _ _ batch samples => batch ++ (s_slot <$> samples)
  | Writing _ samples | Committing _ samples => s_slot <$> samples
  | _ => []
  end.

(** [PageLifecycle::retire_empty]: a block without pages that nobody holds. *)
Definition retire_empty (slot : Z) (w : World) : World :=
  let g := registry w in
  match ordered g !! slot with
  | Some b =>
    if bool_decide (b_pages b = ∅) && negb (bool_decide (slot ∈ owned (phase w)))
    then set_registry (record_removal (b_id b) (set_ordered (delete slot (ordered g)) g)) w else w
  | None => w
  end.

Definition on_block (slot : Z) (f : Block -> Block) (w : World) : World := set_registry (set_ordered (alter f slot (ordered (registry w))) (registry w)) w.

(** A read at time [t] of a page that is there ([PageState::touch]), and a change of the page table. *)
Definition read_page (page t : Z) (b : Block) : Block :=
  match b_pages b !! page with
  | Some old =>
    if match old with Some a => a <? t | None => true end
    then mkBlock (b_id b) (<[page := Some t]> (b_pages b)) ({[page]} ∪ b_marks b) (b_revision b) (b_checkpointed b) (b_dirty b || negb (bool_decide (page ∈ b_marks b))) (b_born b)
    else b
  | None => b
  end.
Definition change_pages (pages : gmap Z (option Z)) (b : Block) : Block :=
  mkBlock (b_id b) pages (b_marks b) (b_revision b + 1) (b_checkpointed b) true (b_born b).

(** ** The checkpoint *)

Definition any_dirty (g : Registry) : bool := bool_decide (Exists (fun b => b_dirty b = true) (map_to_list (ordered g)).*2).

(** [PageLifecycle::checkpoint_start]. *)
Definition checkpoint_start (w : World) : World :=
  match phase w with
  | Idle =>
    let g := registry w in
    set_phase (Started (next_slot g) (membership g) (negb (membership g =? checkpointed_membership g) || any_dirty g)) w
  | _ => w
  end.

Definition le_key (p q : Z * BlockId) : Prop := p.1 <= q.1.
#[export] Instance le_key_dec p q : Decision (le_key p q).
Proof. unfold le_key. apply _. Defined.

(** [PageLifecycle::checkpoint_journal] and the demand for a full flush, should this one fail. *)
Definition checkpoint_journal (w : World) : World :=
  match phase w with
  | Started c m dirty =>
    if dirty then
      let g := registry w in
      let j := mkJournal (generation (state g)) (snapshot_bytes (state g)) (log_bytes (state g)) (full (state g) || negb (removal_overflow g =? 0)) in
      let gone := (merge_sort le_key (map_to_list (filter (fun p => p.1 <= m) (removed g)))).*2 in
      set_phase (Sampling (mkRun c m gone (compact j) j) 0 [] []) (set_registry (set_state (demand_full j) g) w)
    else set_phase Idle w
  | _ => w
  end.

Definition le_slot (p q : Z * Block) : Prop := p.1 <= q.1.
#[export] Instance le_slot_dec p q : Decision (le_slot p q).
Proof. unfold le_slot. apply _. Defined.

(** [checkpoint_batch] and [checkpoint_dirty_batch]: the next 64 blocks, or dirty blocks. *)
Definition eligible (r : Run) (cursor : Z) (g : Registry) : list Z :=
  take 64 (merge_sort le_slot (map_to_list (filter (fun p => cursor <= p.1 <= ceiling r /\ (whole r = true \/ b_dirty p.2 = true)) (ordered g)))).*1.

Definition checkpoint_batch (w : World) : World :=
  match phase w with
  | Sampling r cursor [] samples =>
    match last (eligible r cursor (registry w)) with
    | Some n => set_phase (Sampling r (n + 1) (eligible r cursor (registry w)) samples) w
    | None => set_phase (Writing r samples) w
    end
  | _ => w
  end.

Definition le_page (p q : Z * Z) : Prop := p.1 <= q.1.
#[export] Instance le_page_dec p q : Decision (le_page p q).
Proof. unfold le_page. apply _. Defined.

(** The ages that are written, in the order of the pages. *)
Definition sampled_ages (replace : bool) (b : Block) : gmap Z Z := filter (fun p => replace = true \/ p.1 ∈ b_marks b) (known_ages (b_pages b)).

Definition sample_block (w : World) : World :=
  match phase w with
  | Sampling r cursor (slot :: batch) samples =>
    match ordered (registry w) !! slot with
    | Some b =>
      let replace := whole r || negb (b_revision b =? b_checkpointed b) in
      let x := mkSample slot (b_id b) (b_pages b) (b_marks b) (b_dirty b) replace
                 (mkAccess (b_revision b) (clock w) (merge_sort le_page (map_to_list (sampled_ages replace b)))) in
      let clear b := mkBlock (b_id b) (b_pages b) ∅ (b_revision b) (b_checkpointed b) false (b_born b) in
      set_phase (Sampling r cursor batch (samples ++ [x])) (on_block slot clear w)
    | None => w
    end
  | _ => w
  end.

Definition resident (x : Sample) : bool := negb (bool_decide (s_pages x = ∅)).

(** What a flush writes: the resident blocks, or the removals followed by the sampled blocks. *)
Definition flush_entries (samples : list Sample) : list entry := (fun x => (s_id x, s_snapshot x)) <$> filter (fun x => resident x = true) samples.
Definition flush_changes (r : Run) (now : Z) (samples : list Sample) : list change :=
  ((fun id => (id, mkAccess 0 now [], true)) <$> tombstones r) ++ ((fun x => (s_id x, s_snapshot x, s_replace x)) <$> samples).

Section Flush.
Context `{Xxh3} `{IdJson} (ps : Z).

(** [flush] succeeds, and deletions are recorded from now on. *)
Definition flush_done (w : World) : World :=
  match phase w with
  | Writing r samples =>
    let encoded := if whole r then encode ps (flush_entries samples) else encode_delta ps (flush_changes r (clock w) samples) in
    match encoded with
    | Ok bytes =>
      match (flush 0 1 (journal_was r) (whole r) bytes).2 with
      | Ok j =>
        let c := if whole r then (flush_entries samples, []) else ((disk w).1, (disk w).2 ++ flush_changes r (clock w) samples) in
        mkWorld (set_state j (registry w)) (clock w) c (Committing r samples)
      | Err _ => w
      end
    | Err _ => w
    end
  | _ => w
  end.
End Flush.

(** A checkpoint fails, before or while it flushes: the disk then holds some content [c], and the guards give back what they took. *)
Definition flush_failed (c : Content) (w : World) : World :=
  match phase w with
  | Sampling _ _ _ samples => set_phase (Restoring samples) w
  | Writing _ samples => mkWorld (registry w) (clock w) c (Restoring samples)
  | _ => w
  end.

Definition give_back (x : Sample) (b : Block) : Block :=
  mkBlock (b_id b) (b_pages b) (filter (fun p => is_Some (b_pages b !! p)) (s_marks x) ∪ b_marks b) (b_revision b) (b_checkpointed b)
    (b_dirty b || s_dirty x || negb (bool_decide (s_marks x = ∅))) (b_born b).

Definition restore_sample (w : World) : World :=
  match phase w with
  | Restoring (x :: samples) => set_phase (Restoring samples) (on_block (s_slot x) (give_back x) w)
  | Restoring [] => set_phase Idle w
  | _ => w
  end.

Definition commit_sample (w : World) : World :=
  match phase w with
  | Committing r (x :: samples) =>
    let f b := mkBlock (b_id b) (b_pages b) (b_marks b) (b_revision b) (revision (s_snapshot x)) (b_dirty b) (b_born b) in
    set_phase (Committing r samples) (on_block (s_slot x) f w)
  | _ => w
  end.

(** [PageLifecycle::checkpoint_finished]. *)
Definition finished (m : Z) (g : Registry) : Registry :=
  let kept := filter (fun p => m < p.1) (removed g) in
  mkRegistry (ordered g) (next_slot g) (membership g) m kept (foldr Z.add 0 (id_bytes <$> (map_to_list kept).*2))
    (if removal_overflow g <=? m then 0 else removal_overflow g) (state g).

Definition checkpoint_finished (w : World) : World :=
  match phase w with
  | Committing r [] => set_phase Idle (set_registry (finished (at_membership r) (registry w)) w)
  | _ => w
  end.

(** A shard without directory and without pages has nothing to persist. *)
Definition nothing_to_flush (w : World) : World :=
  match phase w with
  | Writing r samples =>
    if (length (disk w).1 =? 0)%nat && (length (disk w).2 =? 0)%nat && (generation (journal_was r) =? 0) && forallb (fun x => negb (resident x)) samples
    then set_phase Idle (set_registry (finished (at_membership r) (registry w)) w) else w
  | _ => w
  end.

(** ** Events *)

Inductive Event :=
  | Clock (t : Z)
  | Add (id : BlockId) (pages : gmap Z (option Z))
  | Retire (slot : Z)
  | Read (slot page t : Z)
  | Change (slot : Z) (pages : gmap Z (option Z))
  | Start
  | Journal
  | Batch
  | SampleNext
  | FlushDone
  | FlushFailed (c : Content)
  | RestoreNext
  | CommitNext
  | Finish
  | Nothing.

(** Ages are not after the clock, which does not go back. *)
Definition ages_until (t : Z) (pages : gmap Z (option Z)) : bool := bool_decide (Forall (fun a => a <= t) (map_to_list (known_ages pages)).*2).
Definition timely_entry (t : Z) (sn : AccessSnapshot) : bool := (sampled_at sn <=? t) && forallb (fun p => p.2 <=? sampled_at sn) (records sn).
Definition timely_content (t : Z) (c : Content) : bool := forallb (fun e => timely_entry t e.2) c.1 && forallb (fun x => timely_entry t x.1.2) c.2.

Section Events.
Context `{Xxh3} `{IdJson} (ps : Z).

Definition step (w : World) (e : Event) : World :=
  match e with
  | Clock t => mkWorld (registry w) (Z.max t (clock w)) (disk w) (phase w)
  | Add id pages => if ages_until (clock w) pages then set_registry (add_block id pages (registry w)) w else w
  | Retire slot => retire_empty slot w
  | Read slot page t => if t <=? clock w then on_block slot (read_page page t) w else w
  | Change slot pages => if ages_until (clock w) pages then on_block slot (change_pages pages) w else w
  | Start => checkpoint_start w
  | Journal => checkpoint_journal w
  | Batch => checkpoint_batch w
  | SampleNext => sample_block w
  | FlushDone => flush_done ps w
  | FlushFailed c => flush_failed c w
  | RestoreNext => restore_sample w
  | CommitNext => commit_sample w
  | Finish => checkpoint_finished w
  | Nothing => nothing_to_flush w
  end.

Definition run (w : World) (es : list Event) : World := foldl step w es.
End Events.

(** The shard at startup: the blocks found on disk, with their pages, and what was recovered of the files. *)
Definition startup (blocks : list (BlockId * gmap Z (option Z))) (recovered : option (Content * Z)) (t : Z) : World :=
  let n := Z.of_nat (length blocks) in
  let m := match recovered with Some _ => n + 1 | None => n end in
  let g := match recovered with Some (_, g) => g | None => 0 end in
  mkWorld (mkRegistry (list_to_map (imap (fun i x => (Z.of_nat i + 1, mkBlock x.1 x.2 ∅ 0 0 false (Z.of_nat i + 1))) blocks)) n m 0 ∅ 0 0 (mkJournal g 0 0 true))
    t (match recovered with Some (c, _) => c | None => ([], []) end) Idle.
End ShardRegistry.
