(* ===== verification/ShardContent.v ===== *)
(** What the files of a shard say of a block, when no time in them is in the future (crates/talon-worker/src/page_access_shard/journal.rs): the snapshot, then
    the changes in order. *)

From stdpp Require Import gmap sorting.
From S2P Require Import Prelude External Key FileSystem AccessRecord AccessShard ShardRegistry.

Module ShardContent.
Import Key AccessRecord AccessShard ShardRegistry.

Definition ages (sn : AccessSnapshot) : gmap Z Z := list_to_map (records sn).

(** The effect of a change on the ages of block [id]. *)
Definition effect (id : BlockId) (m : gmap Z Z) (x : change) : gmap Z Z :=
  if decide (x.1.1 = id) then (if x.2 then ages x.1.2 else ages x.1.2 ∪ m) else m.

Definition plain (c : Content) (id : BlockId) : gmap Z Z := foldl (effect id) (default ∅ (ages <$> (list_to_map c.1 : gmap BlockId AccessSnapshot) !! id)) c.2.

Definition loaded (now : Z) (c : Content) (id : BlockId) : gmap Z Z := default ∅ (r_records <$> denote now c !! id).

Definition snapshot_ordered (sn : AccessSnapshot) : Prop := NoDup (records sn).*1.

Lemma recovered_timely t now sn : timely_entry t sn = true -> t <= now -> snapshot_ordered sn -> recovered now sn = mkRecovery (ages sn) false 0 [].
Proof.
  unfold timely_entry. intros [Hs Hr]%andb_true_iff Hle Hn. apply Z.leb_le in Hs. unfold recovered, ages, snapshot_ordered in *.
  assert (forall m, foldl (fun out p => note now (sampled_at sn) p.1 p.2 out) (mkRecovery m false 0 []) (records sn) = mkRecovery (list_to_map (records sn) ∪ m) false 0 []) as Hx.
  { induction (records sn) as [|[p a] l IH]; intros m; [by rewrite list_to_map_nil, (left_id_L ∅ (∪)) | ].
    cbn [forallb] in Hr. apply andb_true_iff in Hr as [Ha Hr]. apply Z.leb_le in Ha. rewrite fmap_cons in Hn. apply NoDup_cons in Hn as [Hp Hn]. cbn [foldl fst snd] in *.
    unfold note at 2. rewrite !(proj2 (Z.ltb_ge _ _)) by lia. cbn [orb r_records r_corrupt future future_pages]. rewrite IH by done. f_equal.
    cbn [list_to_map foldr fst snd]. rewrite <-insert_union_l, insert_union_r; [done | ]. by apply not_elem_of_list_to_map_1. }
  unfold no_recovery. rewrite Hx. by rewrite (right_id_L ∅ (∪)).
Qed.

Lemma ages_nil sn : records sn = [] <-> ages sn = ∅.
Proof.
  unfold ages. split; [by intros -> | ]. destruct (records sn) as [|[p a] l]; [done | ]. cbn [list_to_map foldr fst snd]. intros E. by apply insert_non_empty in E.
Qed.

Lemma loaded_plain t now c id : timely_content t c = true -> t <= now -> NoDup c.1.*1 ->
  Forall (fun e => snapshot_ordered e.2) c.1 -> Forall (fun x => snapshot_ordered x.1.2) c.2 -> loaded now c id = plain c id.
Proof.
  destruct c as [es l]. unfold timely_content. intros [Hes Hl]%andb_true_iff Hle Hnd Hoe Hol. change (NoDup es.*1) in Hnd.
  change (Forall (fun e => snapshot_ordered e.2) es) in Hoe. change (Forall (fun x => snapshot_ordered x.1.2) l) in Hol. cbn [fst snd] in Hes, Hl. unfold loaded, plain, denote. cbn [fst snd].
  assert (forall m, default ∅ (r_records <$> foldl (fun m x => apply_frame x.1.1 x.2 (recovered now x.1.2) m) m l !! id) = foldl (effect id) (default ∅ (r_records <$> m !! id)) l) as Hx.
  { clear Hes Hoe Hnd. induction l as [|[[i sn] r] l IH]; intros m; [done | ]. cbn [forallb fst snd] in Hl. apply andb_true_iff in Hl as [Ht Hl]. apply Forall_cons in Hol as [Ho Hol].
    cbn [foldl]. rewrite IH by done. f_equal. cbn [fst snd] in *. rewrite (recovered_timely t) by done. unfold effect, apply_frame. cbn [fst snd r_records future].
    destruct (decide (i = id)) as [->|Hne]; destruct r.
    - case_bool_decide as E; cbn [andb Z.eqb]; [by rewrite lookup_delete_eq | by rewrite lookup_insert_eq].
    - rewrite lookup_insert_eq. cbn [fmap option_fmap option_map default merge r_records future_pages foldr]. by destruct (m !! id).
    - destruct (_ && _); [by rewrite lookup_delete_ne | by rewrite lookup_insert_ne].
    - by rewrite lookup_insert_ne. }
  rewrite Hx. f_equal. clear Hx Hl Hol. induction es as [|[i sn] es IH]; [done | ]. cbn [forallb fst snd] in Hes. apply andb_true_iff in Hes as [Ht Hes]. apply Forall_cons in Hoe as [Ho Hoe].
  rewrite fmap_cons in Hnd. rewrite fmap_cons. apply NoDup_cons in Hnd as [_ Hnd]. cbn [prod_map fst snd list_to_map foldr]. destruct (decide (i = id)) as [->|Hne].
  - rewrite !lookup_insert_eq. cbn [fmap option_fmap option_map default]. cbn [snd] in *. by rewrite (recovered_timely t).
  - rewrite !lookup_insert_ne by done. by apply IH.
Qed.

(** A flush of changes: blocks that are gone, then blocks of which a sample was taken. *)
Lemma plain_app c l id : plain (c.1, c.2 ++ l) id = foldl (effect id) (plain c id) l.
Proof. unfold plain. cbn [fst snd]. by rewrite foldl_app. Qed.

Lemma effects_gone id (gone : list BlockId) now m :
  foldl (effect id) m ((fun i => (i, mkAccess 0 now [], true)) <$> gone) = if decide (id ∈ gone) then ∅ else m.
Proof.
  revert m. induction gone as [|i gone IH]; intros m; [done | ]. rewrite fmap_cons. cbn [foldl]. rewrite IH. unfold effect. cbn [fst snd].
  destruct (decide (id ∈ gone)); [by rewrite decide_True by (by right) | ]. destruct (decide (i = id)) as [->|Hne]; [by rewrite decide_True by left | ].
  rewrite decide_False; [done | ]. by intros [->|?]%elem_of_cons.
Qed.

Lemma effects_other id m (l : list Sample) : Forall (fun x => s_id x <> id) l -> foldl (effect id) m ((fun x => (s_id x, s_snapshot x, s_replace x)) <$> l) = m.
Proof.
  induction 1 as [|x l Hx _ IH]; [done | ]. rewrite fmap_cons. cbn [foldl]. unfold effect at 2. cbn [fst snd]. by rewrite decide_False.
Qed.

Lemma effects_sample (l : list Sample) m x : NoDup (s_id <$> l) -> x ∈ l ->
  foldl (effect (s_id x)) m ((fun x => (s_id x, s_snapshot x, s_replace x)) <$> l) = if s_replace x then ages (s_snapshot x) else ages (s_snapshot x) ∪ m.
Proof.
  revert m. induction l as [|y l IH]; intros m Hn Hx; [by apply not_elem_of_nil in Hx | ]. rewrite fmap_cons in Hn. apply NoDup_cons in Hn as [Hy Hn]. rewrite fmap_cons. cbn [foldl].
  apply elem_of_cons in Hx as [->|Hx].
  - unfold effect at 2. cbn [fst snd]. rewrite decide_True by done. apply effects_other. rewrite Forall_forall. intros z Hz E. apply Hy. rewrite <-E. by apply list_elem_of_fmap_2.
  - unfold effect at 2. cbn [fst snd]. rewrite decide_False; [by apply IH | ]. intros E. apply Hy. rewrite E. by apply list_elem_of_fmap_2.
Qed.
End ShardContent.
