(* ===== verification/ShardInvariant.v ===== *)
(** The invariant between the blocks of a shard, a checkpoint that is running, and the files (crates/talon-worker/src/page_lifecycle.rs,
    runtime/page_maintenance.rs), and that blocks keep it which are registered, retired, read and changed. *)

From stdpp Require Import gmap sorting.
From S2P Require Import Prelude External Key FileSystem AccessRecord AccessShard ShardRegistry ShardContent.

Module ShardInvariant.
Import Key AccessRecord AccessShard ShardRegistry ShardContent.

Arguments known_ages : simpl never.

(** ** Phases *)

Definition samples_of (p : Phase) : list Sample :=
  match p with Sampling _ _ _ s | Writing _ s | Committing _ s => s | _ => [] end.
Definition all_samples (p : Phase) : list Sample := match p with Restoring s => s | _ => samples_of p end.

(** The slots and the membership that a checkpoint covers. *)
Definition cap (p : Phase) : option (Z * Z) :=
  match p with
  | Started c m _ => Some (c, m)
  | Sampling r _ _ _ | Writing r _ | Committing r _ => Some (ceiling r, at_membership r)
  | _ => None
  end.

Definition sample_of (p : Phase) (n : Z) : option Sample := (list_to_map ((fun x => (s_slot x, x)) <$> samples_of p) : gmap Z Sample) !! n.
Definition sampled_revision (x : Sample) : Z := revision (s_snapshot x).

(** The revision that is on the disk, or will be when the checkpoint succeeds; the revision that is on the disk; the marks that are not on
    the disk and that a sample has taken. *)
Definition target (p : Phase) (n : Z) (b : Block) : Z := from_option sampled_revision (b_checkpointed b) (sample_of p n).
Definition disk_revision (p : Phase) (n : Z) (b : Block) : Z := match p with Committing _ _ => target p n b | _ => b_checkpointed b end.
Definition taken (p : Phase) (n : Z) : gset Z := match p with Committing _ _ => ∅ | _ => from_option s_marks ∅ (sample_of p n) end.

(** The next flush has to write everything. *)
Definition mode_full (w : World) : bool :=
  match phase w with Sampling r _ _ _ | Writing r _ => full (journal_was r) | _ => full (state (registry w)) end.
(** Removals until then have been written. *)
Definition gone_until (w : World) : Z := match phase w with Committing r _ => at_membership r | _ => checkpointed_membership (registry w) end.
Definition pend (w : World) (id : BlockId) : Prop := exists k, gone_until w < k /\ removed (registry w) !! k = Some id.
Definition stale (w : World) : Prop := mode_full w = true \/ gone_until w < removal_overflow (registry w).

Definition noted (w : World) (n : Z) : Prop :=
  mode_full w = false \/ is_Some (sample_of (phase w) n) \/ exists c m, cap (phase w) = Some (c, m) /\ c < n.

(** ** The invariant *)

Abbreviation block_at w n b := (ordered (registry w) !! n = Some b).

Record shape (w : World) : Prop := {
  sh_slot : forall n b, block_at w n b -> 0 < n <= next_slot (registry w);
  sh_next : 0 <= next_slot (registry w);
  sh_born : forall n b, block_at w n b -> b_born b <= membership (registry w);
  sh_ids : forall n n' b b', block_at w n b -> block_at w n' b' -> b_id b = b_id b' -> n = n';
  sh_removed : forall k id, removed (registry w) !! k = Some id -> checkpointed_membership (registry w) < k <= membership (registry w);
  sh_after : forall k n b, removed (registry w) !! k = Some (b_id b) -> block_at w n b -> k < b_born b;
  sh_overflow : removal_overflow (registry w) = 0 \/ checkpointed_membership (registry w) < removal_overflow (registry w) <= membership (registry w);
  sh_member : 0 <= checkpointed_membership (registry w) <= membership (registry w);
  sh_cap : forall c m, cap (phase w) = Some (c, m) -> c <= next_slot (registry w) /\ checkpointed_membership (registry w) <= m <= membership (registry w) /\
    forall n b, block_at w n b -> (n <= c <-> b_born b <= m);
  sh_counted : 0 <= generation (state (registry w));
  sh_generation : mode_full w = false -> generation (state (registry w)) <> 0;
}.

(** A sample and the block it was taken of. *)
Record sample_ok (t : Z) (x : Sample) (b : Block) : Prop := {
  so_id : s_id x = b_id b;
  so_revision : b_checkpointed b <= sampled_revision x <= b_revision b;
  so_pages : b_revision b = sampled_revision x -> dom (b_pages b) = dom (s_pages x);
  so_known : b_revision b = sampled_revision x -> forall p, p ∉ b_marks b -> known_ages (b_pages b) !! p = known_ages (s_pages x) !! p;
  so_ages : ages (s_snapshot x) = filter (fun q => s_replace x = true \/ q.1 ∈ s_marks x) (known_ages (s_pages x));
  so_ordered : snapshot_ordered (s_snapshot x);
  so_merge : s_replace x = false -> sampled_revision x = b_checkpointed b /\ forall p, p ∈ s_marks x -> is_Some (known_ages (s_pages x) !! p);
  so_timely : timely_entry t (s_snapshot x) = true;
}.

Record sampling (w : World) : Prop := {
  sa_slots : NoDup (owned (phase w));
  sa_held : forall n, n ∈ owned (phase w) -> exists c m b, cap (phase w) = Some (c, m) /\ n <= c /\ block_at w n b;
  sa_samples : forall x, x ∈ samples_of (phase w) -> exists b, block_at w (s_slot x) b /\ sample_ok (clock w) x b;
  sa_cursor : forall r cursor batch s n, phase w = Sampling r cursor batch s -> n ∈ owned (phase w) -> n < cursor;
  sa_covered : forall r cursor batch s n b, phase w = Sampling r cursor batch s -> whole r = true -> block_at w n b -> n <= ceiling r -> n < cursor -> n ∈ owned (phase w);
  sa_written : forall r s n b, phase w = Writing r s -> whole r = true -> block_at w n b -> n <= ceiling r -> n ∈ s_slot <$> s;
  sa_gone : forall r, match phase w with Sampling r' _ _ _ | Writing r' _ => r' = r | _ => False end ->
    (forall id, id ∈ tombstones r <-> exists k, k <= at_membership r /\ removed (registry w) !! k = Some id) /\
    (whole r = false -> full (journal_was r) = false) /\
    (full (journal_was r) = false -> removal_overflow (registry w) = 0 \/ at_membership r < removal_overflow (registry w)) /\ state (registry w) = demand_full (journal_was r) /\
    (whole r = true -> forall x, x ∈ samples_of (phase w) -> s_replace x = true);
  sa_committing : forall r s, phase w = Committing r s -> full (state (registry w)) = false;
}.

Record revisions (w : World) : Prop := {
  rv_order : forall n b, block_at w n b -> 0 <= b_checkpointed b <= b_revision b;
  rv_dirty : forall n b, block_at w n b -> noted w n -> b_dirty b = false -> b_revision b = target (phase w) n b /\ b_marks b = ∅;
  rv_marks : forall n b p, block_at w n b -> noted w n -> p ∈ b_marks b -> is_Some (known_ages (b_pages b) !! p) \/ target (phase w) n b < b_revision b;
  rv_new : forall n b c m, block_at w n b -> cap (phase w) = Some (c, m) -> c < n -> b_checkpointed b = 0 /\ (b_revision b = 0 -> forall p, p ∉ b_marks b -> known_ages (b_pages b) !! p = None);
  rv_marked : forall n b, block_at w n b -> b_marks b <> ∅ -> b_dirty b = true;
}.

Record on_disk (w : World) : Prop := {
  od_blocks : ~ stale w -> forall n b p, block_at w n b -> b_revision b = disk_revision (phase w) n b -> p ∉ b_marks b -> p ∉ taken (phase w) n ->
    (pend w (b_id b) -> known_ages (b_pages b) !! p = None) /\ (~ pend w (b_id b) -> plain (disk w) (b_id b) !! p = known_ages (b_pages b) !! p);
  od_gone : ~ stale w -> forall id, (forall n b, block_at w n b -> b_id b <> id) -> plain (disk w) id = ∅ \/ pend w id;
}.

Definition unsettled (w : World) : Prop :=
  membership (registry w) <> checkpointed_membership (registry w) \/
  (exists n b, block_at w n b /\ b_dirty b = true) \/
  exists x b, x ∈ all_samples (phase w) /\ s_dirty x = true /\ block_at w (s_slot x) b.
Definition vacant (w : World) : Prop := disk w = ([], []) /\ forall n b, block_at w n b -> known_ages (b_pages b) = ∅.

Definition restless (w : World) : Prop :=
  match phase w with
  | Idle | Started _ _ false => full (state (registry w)) = true -> unsettled w \/ vacant w
  | Started _ _ true | Sampling _ _ _ _ | Writing _ _ => unsettled w
  | Restoring _ => unsettled w /\ full (state (registry w)) = true
  | Committing _ _ => True
  end.

Record times (w : World) : Prop := {
  tm_blocks : forall n b p a, block_at w n b -> known_ages (b_pages b) !! p = Some a -> a <= clock w;
  tm_disk : mode_full w = false -> timely_content (clock w) (disk w) = true;
  tm_distinct : mode_full w = false -> NoDup (disk w).1.*1;
  tm_entries : mode_full w = false -> Forall (fun e => snapshot_ordered e.2) (disk w).1;
  tm_changes : mode_full w = false -> Forall (fun x => snapshot_ordered x.1.2) (disk w).2;
}.

Record inv (w : World) : Prop := {
  i_shape : shape w;
  i_sampling : sampling w;
  i_revisions : revisions w;
  i_disk : on_disk w;
  i_restless : restless w;
  i_times : times w;
}.

(** A block is read, or its pages change. *)
Record block_event (t : Z) (f : Block -> Block) (b : Block) : Prop := {
  be_id : b_id (f b) = b_id b;
  be_born : b_born (f b) = b_born b;
  be_checkpointed : b_checkpointed (f b) = b_checkpointed b;
  be_dirty : (b_marks b <> ∅ -> b_dirty b = true) -> f b = b \/ b_dirty (f b) = true;
  be_revision : b_revision b <= b_revision (f b);
  be_same : b_revision (f b) = b_revision b -> dom (b_pages (f b)) = dom (b_pages b) /\
    forall p, p ∉ b_marks (f b) -> (p ∉ b_marks b) /\ known_ages (b_pages (f b)) !! p = known_ages (b_pages b) !! p;
  be_marks : forall p, p ∈ b_marks (f b) -> is_Some (known_ages (b_pages (f b)) !! p) \/ b_revision b < b_revision (f b) \/
    p ∈ b_marks b /\ (is_Some (known_ages (b_pages b) !! p) -> is_Some (known_ages (b_pages (f b)) !! p));
  be_times : (forall p a, known_ages (b_pages b) !! p = Some a -> a <= t) -> forall p a, known_ages (b_pages (f b)) !! p = Some a -> a <= t;
}.

(** ** Samples *)

Lemma sample_of_in p n x : sample_of p n = Some x -> x ∈ samples_of p /\ s_slot x = n.
Proof.
  unfold sample_of. intros E%elem_of_list_to_map_2. apply list_elem_of_fmap in E as (y & [= -> ->] & Hy). done.
Qed.

Lemma sample_of_slot p x : NoDup (s_slot <$> samples_of p) -> x ∈ samples_of p -> sample_of p (s_slot x) = Some x.
Proof.
  intros Hn Hx. apply elem_of_list_to_map_1; [ | by apply (list_elem_of_fmap_2 (fun x => (s_slot x, x)))]. by rewrite <-list_fmap_compose.
Qed.

Lemma sample_of_none p n x : sample_of p n = None -> x ∈ samples_of p -> s_slot x <> n.
Proof.
  unfold sample_of. intros E Hx <-. apply (not_elem_of_list_to_map_2 (M := gmap Z)) in E. apply E. rewrite <-list_fmap_compose. by apply (list_elem_of_fmap_2 (fst ∘ (fun x => (s_slot x, x)))).
Qed.

Lemma samples_owned p x : x ∈ samples_of p -> s_slot x ∈ owned p.
Proof. destruct p; cbn [samples_of owned]; rewrite ?elem_of_app; try right; try (by intros []%elem_of_nil); by apply list_elem_of_fmap_2. Qed.

Lemma sample_slots p : NoDup (owned p) -> NoDup (s_slot <$> samples_of p).
Proof. destruct p; cbn [samples_of owned]; try done. by intros (_ & _ & ?)%NoDup_app. Qed.

Lemma noted_sampled w n : mode_full w = true -> samples_of (phase w) = [] -> cap (phase w) = None -> ~ noted w n.
Proof. intros Hm Hs Hc [H|[[x [H _]%sample_of_in]|(c & m & H & _)]]; [congruence | rewrite Hs in H; by apply elem_of_nil in H | congruence]. Qed.

Lemma gone_bound w : shape w -> gone_until w <= membership (registry w).
Proof. intros [? ? ? ? ? ? ? Hm Hc _]. unfold gone_until. destruct (phase w); cbn [cap] in Hc; try lia. destruct (Hc _ _ eq_refl). lia. Qed.

Lemma gone_positive w : shape w -> checkpointed_membership (registry w) <= gone_until w.
Proof. intros [? ? ? ? ? ? ? Hm Hc _]. unfold gone_until. destruct (phase w); cbn [cap] in Hc; try lia. destruct (Hc _ _ eq_refl). lia. Qed.

(** What is on the disk, or will be, is not newer than the block. *)
Lemma target_bound w i b : sampling w -> revisions w -> block_at w i b -> target (phase w) i b <= b_revision b.
Proof.
  intros Hs Hr Hb. unfold target. destruct (sample_of _ i) as [x|] eqn:E; cbn [from_option].
  - apply sample_of_in in E as [Hx Ei]. destruct (sa_samples _ Hs x Hx) as (b' & Hb' & Hk). rewrite Ei, Hb in Hb'. injection Hb' as <-. apply Hk.
  - by apply (rv_order _ Hr i).
Qed.

Lemma disk_bound w i b : sampling w -> revisions w -> block_at w i b -> disk_revision (phase w) i b <= b_revision b.
Proof.
  intros Hs Hr Hb. pose proof (target_bound w i b Hs Hr Hb). pose proof (rv_order _ Hr i b Hb). unfold disk_revision. destruct (phase w); lia.
Qed.

(** ** A block is read or changes *)

Lemma on_block_at w n f n' b' : block_at (on_block n f w) n' b' -> exists b, block_at w n' b /\ b' = (if decide (n' = n) then f b else b).
Proof.
  unfold on_block, set_ordered. cbn [registry set_registry ordered]. destruct (decide (n' = n)) as [->|Hne].
  - rewrite lookup_alter_eq. destruct (_ !! n) as [b|]; [ | done]. intros [= <-]. by exists b.
  - rewrite lookup_alter_ne by done. by exists b'.
Qed.

Lemma on_block_back w n f n' b : block_at w n' b -> block_at (on_block n f w) n' (if decide (n' = n) then f b else b).
Proof.
  unfold on_block, set_ordered. cbn [registry set_registry ordered]. destruct (decide (n' = n)) as [->|Hne]; [by rewrite lookup_alter_eq; intros -> | by rewrite lookup_alter_ne].
Qed.

Lemma known_lookup pages p : known_ages pages !! p = pages !! p ≫= id.
Proof. apply lookup_omap. Qed.

Lemma read_page_event t p a b : a <= t -> block_event t (read_page p a) b.
Proof.
  intros Ha. assert (read_page p a b = b \/ is_Some (b_pages b !! p) /\ read_page p a b = mkBlock (b_id b) (<[p := Some a]> (b_pages b)) ({[p]} ∪ b_marks b) (b_revision b)
    (b_checkpointed b) (b_dirty b || negb (bool_decide (p ∈ b_marks b))) (b_born b)) as [E|[Hp E]]; [ | constructor; rewrite ?E; auto; lia | ].
  { unfold read_page. destruct (b_pages b !! p) as [old|]; [ | by left]. destruct (match old with Some _ => _ | None => _ end); [right; split; [by eexists | done] | by left]. }
  assert (forall q, q <> p -> known_ages (<[p := Some a]> (b_pages b)) !! q = known_ages (b_pages b) !! q) as Hq by (intros q Hq; by rewrite !known_lookup, lookup_insert_ne).
  assert (known_ages (<[p := Some a]> (b_pages b)) !! p = Some a) as Hpp by (by rewrite known_lookup, lookup_insert_eq).
  constructor; rewrite E; cbn; try done.
  - intros Hb. right. case_bool_decide as Hin; [ | by rewrite orb_true_r]. rewrite Hb; [done | ]. intros Em. rewrite Em in Hin. by apply not_elem_of_empty in Hin.
  - intros _. split; [ | intros q Hn; split; [set_solver | apply Hq; set_solver]]. rewrite dom_insert_L. apply elem_of_dom in Hp. set_solver.
  - intros q Hin. destruct (decide (q = p)) as [->|Hne]; [left; by rewrite Hpp | ]. right; right. split; [set_solver | by rewrite Hq].
  - intros Hb q x. destruct (decide (q = p)) as [->|Hne]; [rewrite Hpp; by intros [= <-] | rewrite Hq by done; apply Hb].
Qed.

Lemma known_until t pages p a : ages_until t pages = true -> known_ages pages !! p = Some a -> a <= t.
Proof.
  unfold ages_until. rewrite bool_decide_eq_true, Forall_forall. intros Ht E. apply Ht. apply list_elem_of_fmap. exists (p, a). split; [done | by apply elem_of_map_to_list].
Qed.

Lemma change_pages_event t pages b : ages_until t pages = true -> block_event t (change_pages pages) b.
Proof. intros Ht. constructor; cbn; try done; try lia. intros _ p a. by apply known_until. Qed.

Lemma kept_shape w n f : (forall b, b_id (f b) = b_id b /\ b_born (f b) = b_born b) -> shape w -> shape (on_block n f w).
Proof.
  intros Hk [? ? ? ? ? ? ? ? Hc]. constructor; try done.
  - intros i b' (b & Hb & ->)%on_block_at. eauto.
  - intros i b' (b & Hb & ->)%on_block_at. destruct (decide _); [rewrite (proj2 (Hk b)) | ]; eauto.
  - intros i j b1' b2' (b1 & H1 & ->)%on_block_at (b2 & H2 & ->)%on_block_at E. assert (b_id b1 = b_id b2) by (repeat destruct (decide _); destruct (Hk b1), (Hk b2); congruence). eauto.
  - intros k i b' E (b & Hb & ->)%on_block_at. destruct (decide _); [rewrite (proj1 (Hk b)) in E; rewrite (proj2 (Hk b)) | ]; eauto.
  - intros c m E. destruct (Hc c m E) as (? & ? & Hcb). split; [done | split; [done | ]]. intros i b' (b & Hb & ->)%on_block_at. destruct (decide _); [rewrite (proj2 (Hk b)) | ]; by apply Hcb.
Qed.

Lemma phase_shape w p : cap p = cap (phase w) -> mode_full (set_phase p w) = mode_full w -> shape w -> shape (set_phase p w).
Proof. intros Hc Hm [? ? ? ? ? ? ? ? ? ? ?]. constructor; rewrite ?Hm; try done. cbn [phase set_phase]. by rewrite Hc. Qed.

(** Events that touch one block, in any phase. *)
Section OnBlock.
Context (w : World) (n : Z) (f : Block -> Block) (Hf : forall b, block_event (clock w) f b).

Abbreviation w' := (on_block n f w).

Lemma touched_shape : shape w -> shape w'.
Proof. apply kept_shape. intros b. by destruct (Hf b). Qed.

Lemma touched_sample x b : sample_ok (clock w) x b -> sample_ok (clock w) x (f b).
Proof.
  intros [? ? Hp Hk ? ? ? ?]. destruct (Hf b) as [Ei Eb Ec ? ? Hs ? ?]. constructor; rewrite ?Ei, ?Ec; try done; try lia.
  - intros E. destruct Hs as [-> _]; [lia | ]. apply Hp. lia.
  - intros E p Hn. destruct Hs as [_ Hs]; [lia | ]. destruct (Hs p Hn) as [Hn' ->]. apply Hk; [lia | done].
Qed.

Lemma touched_sampling : sampling w -> sampling w'.
Proof.
  intros [? Hh Hs ? Hc Hw ? ?]. constructor; try done.
  - intros i Hi. destruct (Hh i Hi) as (c & m & b & ? & ? & Hb). exists c, m. eexists. splits; [done.. | by apply on_block_back].
  - intros x Hx. destruct (Hs x Hx) as (b & Hb & Hk). eexists. split; [by apply on_block_back | ]. destruct (decide _); [by apply touched_sample | done].
  - intros r cursor batch s i b' Hp Hr (b & Hb & _)%on_block_at. by eapply Hc.
  - intros r s i b' Hp Hr (b & Hb & _)%on_block_at. by eapply Hw.
Qed.

Lemma touched_revisions : revisions w -> sampling w -> revisions w'.
Proof.
  intros [Ho Hd Hm Hn Hk] Hs.
  assert (forall i b, target (phase w') i (f b) = target (phase w) i b) as Ht by (intros i b; unfold target; by rewrite (be_checkpointed _ _ _ (Hf b))).
  assert (forall i, noted w' i = noted w i) as Hw by done.
  constructor; intros i b'.
  - intros (b & Hb & ->)%on_block_at. specialize (Ho i b Hb). destruct (decide _); [ | done]. destruct (Hf b). lia.
  - intros (b & Hb & ->)%on_block_at Hi E. destruct (decide _); [ | eauto]. destruct (be_dirty _ _ _ (Hf b)) as [Eb|Eb]; [by apply (Hk i) | | congruence].
    rewrite Ht, Eb. rewrite Eb in E. eauto.
  - intros p (b & Hb & ->)%on_block_at Hi Hp. destruct (decide _); [ | by eapply Hm]. rewrite Ht.
    assert (b_revision b <= b_revision (f b) /\ target (phase w) i b <= b_revision b) as [Hr Hl] by (split; [apply (Hf b) | by apply target_bound]).
    destruct (be_marks _ _ _ (Hf b) p Hp) as [?|[?|[Hq Hk']]]; [by left | right; lia | ]. destruct (Hm i b p Hb Hi Hq); [left; by apply Hk' | right; lia].
  - intros c m (b & Hb & ->)%on_block_at Hc Hl. destruct (Hn i b c m Hb Hc Hl) as [E Hz]. destruct (decide _); [ | done]. rewrite (be_checkpointed _ _ _ (Hf b)). split; [done | ].
    intros Er p Hp. pose proof (Ho i b Hb). pose proof (be_revision _ _ _ (Hf b)). destruct (be_same _ _ _ (Hf b)) as [_ Hsame]; [lia | ].
    destruct (Hsame p Hp) as [Hp' ->]. apply Hz; [lia | done].
  - intros (b & Hb & ->)%on_block_at Hne. destruct (decide _); [ | by apply (Hk i)]. destruct (be_dirty _ _ _ (Hf b)) as [Eb|Eb]; [by apply (Hk i) | | done]. rewrite Eb in *. by apply (Hk i).
Qed.

Lemma touched_disk : sampling w -> revisions w -> on_disk w -> on_disk w'.
Proof.
  intros Hs Hr [Hb Hg]. constructor.
  - intros Hst i b' p (b & Hi & ->)%on_block_at E Hm Ht. destruct (decide _); [ | by apply (Hb Hst i)].
    assert (disk_revision (phase w') i (f b) = disk_revision (phase w) i b) as Ed.
    { unfold disk_revision, target. by rewrite (be_checkpointed _ _ _ (Hf b)). }
    rewrite Ed in E. assert (disk_revision (phase w) i b <= b_revision b) by (by apply disk_bound). pose proof (be_revision _ _ _ (Hf b)).
    destruct (be_same _ _ _ (Hf b)) as [_ Hk]; [lia | ]. destruct (Hk p Hm) as [Hm' ->]. rewrite (be_id _ _ _ (Hf b)).
    apply (Hb Hst i); [done | lia | done | done].
  - intros Hst id Hid. apply Hg; [done | ]. intros i b Hi E. eapply Hid; [by apply on_block_back | ]. destruct (decide _); [ | done]. by rewrite (be_id _ _ _ (Hf b)).
Qed.

Lemma touched_restless : revisions w -> restless w -> restless w'.
Proof.
  intros Hr. assert (forall i b, block_at w i b -> f b = b \/ b_dirty (f b) = true) as Hk by (intros i b Hb; apply Hf, (rv_marked _ Hr i b Hb)).
  assert (unsettled w -> unsettled w') as Hu.
  { intros [?|[(i & b & Hb & E)|(x & b & Hx & E & Hb)]]; [by left | right; left | right; right].
    - exists i. eexists. split; [by apply on_block_back | ]. destruct (decide _); [ | done]. destruct (Hk i b Hb); congruence.
    - exists x. eexists. splits; [done.. | by apply on_block_back]. }
  assert (unsettled w \/ vacant w -> unsettled w' \/ vacant w') as Hv.
  { intros [?|[Hd Hp]]; [by left; apply Hu | ]. destruct (ordered (registry w) !! n) as [b|] eqn:Eb.
    - destruct (Hk n b Eb) as [Ef|Ef].
      + right. split; [done | ]. intros i b' (b0 & Hi & ->)%on_block_at. destruct (decide _) as [->|]; [ | eauto]. rewrite Hi in Eb. injection Eb as ->. rewrite Ef. eauto.
      + left. right; left. exists n, (f b). split; [ | done]. pose proof (on_block_back w n f n b Eb) as H. by rewrite decide_True in H.
    - right. split; [done | ]. intros i b' (b0 & Hi & ->)%on_block_at. destruct (decide _) as [->|]; [congruence | eauto]. }
  unfold restless. change (phase w') with (phase w). change (state (registry w')) with (state (registry w)). destruct (phase w) as [|c m []| | | |]; tauto.
Qed.

Lemma touched_times : times w -> times w'.
Proof.
  intros [Hb ? ? ? ?]. constructor; try done. intros i b' p a (b & Hi & ->)%on_block_at. destruct (decide _); [ | by eapply Hb].
  apply (be_times _ _ _ (Hf b)). intros q x. by eapply Hb.
Qed.

Lemma touched_inv : inv w -> inv w'.
Proof. intros [? ? ? ? ? ?]. constructor; auto using touched_shape, touched_sampling, touched_revisions, touched_disk, touched_restless, touched_times. Qed.
End OnBlock.

(** ** A block is registered *)

Lemma has_id_false id g n b : has_id id g = false -> ordered g !! n = Some b -> b_id b <> id.
Proof.
  unfold has_id. rewrite bool_decide_eq_false. intros Hn Hb <-. apply Hn. rewrite <-list_fmap_compose. apply (list_elem_of_fmap_2 (b_id ∘ snd) _ (n, b)). by apply elem_of_map_to_list.
Qed.

Section Add.
Context (w : World) (id : BlockId) (pages : gmap Z (option Z)) (Hages : ages_until (clock w) pages = true) (Hid : has_id id (registry w) = false) (Hs : shape w).

Abbreviation slot := (next_slot (registry w) + 1).
Abbreviation fresh := (mkBlock id pages (dom (known_ages pages)) 0 0 (negb (bool_decide (known_ages pages = ∅))) (membership (registry w) + 1)).
Abbreviation w' := (set_registry (add_block id pages (registry w)) w).

Lemma add_registry : registry w' = mkRegistry (<[slot := fresh]> (ordered (registry w))) slot (membership (registry w) + 1) (checkpointed_membership (registry w))
  (removed (registry w)) (removed_bytes (registry w)) (removal_overflow (registry w)) (state (registry w)).
Proof. cbn [registry set_registry]. unfold add_block. by rewrite Hid. Qed.

Lemma added_at n b : block_at w' n b -> n = slot /\ b = fresh \/ block_at w n b /\ n < slot.
Proof.
  rewrite add_registry. cbn [ordered]. intros [[<- <-]|[Hne Hb]]%lookup_insert_Some; [by left | right]. split; [done | ]. pose proof (sh_slot _ Hs n b Hb). lia.
Qed.

Lemma added_back n b : block_at w n b -> block_at w' n b.
Proof. intros Hb. rewrite add_registry. cbn [ordered]. rewrite lookup_insert_ne; [done | ]. pose proof (sh_slot _ Hs n b Hb). lia. Qed.

Lemma add_fields : next_slot (registry w') = slot /\ membership (registry w') = membership (registry w) + 1 /\
  checkpointed_membership (registry w') = checkpointed_membership (registry w) /\ removed (registry w') = removed (registry w) /\
  removal_overflow (registry w') = removal_overflow (registry w) /\ state (registry w') = state (registry w).
Proof. by rewrite add_registry. Qed.

Lemma added_other n b : block_at w n b -> b_id b <> id.
Proof. by apply has_id_false. Qed.

Lemma added_shape : shape w'.
Proof.
  destruct Hs as [Hsl ? Hb Hi Hr Ha Ho Hm Hc ? ?]. destruct add_fields as (E1 & E2 & E3 & E4 & E5 & E6). constructor; rewrite ?E1, ?E2, ?E3, ?E4, ?E5, ?E6; try done.
  - intros n b [[-> _]|[Hn _]]%added_at; [lia | ]. specialize (Hsl n b Hn). lia.
  - lia.
  - intros n b [[_ ->]|[Hn _]]%added_at; [done | ]. specialize (Hb n b Hn). lia.
  - intros n n' b b' [[-> ->]|[H1 _]]%added_at [[-> ->]|[H2 _]]%added_at Ei; [done | | | by eapply Hi].
    + by apply added_other in H2.
    + by apply added_other in H1.
  - intros k i Hk. specialize (Hr k i Hk). lia.
  - intros k n b Hk [[_ ->]|[Hn _]]%added_at; [ | by eapply Ha]. cbn. specialize (Hr _ _ Hk). lia.
  - lia.
  - lia.
  - intros c m Hcm. destruct (Hc c m Hcm) as (? & ? & Hcb). split; [lia | split; [lia | ]]. intros n b [[-> ->]|[Hn _]]%added_at; [cbn; lia | by apply Hcb].
  - unfold mode_full. by rewrite E6.
Qed.

Lemma added_sampling : sampling w -> sampling w'.
Proof.
  intros [? Hh Hx ? Hc Hw Hg Hf]. destruct add_fields as (E1 & E2 & E3 & E4 & E5 & E6). constructor; rewrite ?E1, ?E2, ?E3, ?E4, ?E5, ?E6; try done.
  - intros n Hn. destruct (Hh n Hn) as (c & m & b & ? & ? & Hb). exists c, m, b. splits; [done.. | by apply added_back].
  - intros x Hi. destruct (Hx x Hi) as (b & Hb & ?). exists b. split; [by apply added_back | done].
  - intros r cursor batch s n b Hp Hr [[-> ->]|[Hn _]]%added_at Hl; [ | by eapply Hc]. cbn [phase set_registry] in Hp. destruct (sh_cap _ Hs (ceiling r) (at_membership r)) as [? _]; [by rewrite Hp | lia].
  - intros r s n b Hp Hr [[-> ->]|[Hn _]]%added_at Hl; [ | by eapply Hw]. cbn [phase set_registry] in Hp. destruct (sh_cap _ Hs (ceiling r) (at_membership r)) as [? _]; [by rewrite Hp | lia].
Qed.

Lemma fresh_unsampled : sampling w -> sample_of (phase w) slot = None.
Proof.
  intros Hx. destruct (sample_of _ _) as [x|] eqn:E; [ | done]. apply sample_of_in in E as [Hi E]. destruct (sa_samples _ Hx x Hi) as (b & Hb & _).
  pose proof (sh_slot _ Hs _ _ Hb). lia.
Qed.

Lemma noted_added n : noted w' n = noted w n.
Proof. unfold noted, mode_full. by rewrite add_registry. Qed.
Lemma stale_added : stale w' = stale w.
Proof. unfold stale, mode_full, gone_until. by rewrite add_registry. Qed.
Lemma pend_added i : pend w' i = pend w i.
Proof. unfold pend, gone_until. by rewrite add_registry. Qed.

Lemma added_revisions : sampling w -> revisions w -> revisions w'.
Proof.
  intros Hx [Ho Hd Hm Hn Hk]. change (phase w') with (phase w) in *. constructor; intros n b; try rewrite noted_added.
  - intros [[-> ->]|[Hb _]]%added_at; [cbn; lia | eauto].
  - intros [[-> ->]|[Hb _]]%added_at; [ | eauto]. intros _ E. unfold target. cbn [phase set_registry]. rewrite fresh_unsampled by done. split; [done | ].
    cbn in E. apply negb_false_iff, bool_decide_eq_true in E. cbn. by rewrite E, dom_empty_L.
  - intros p [[-> ->]|[Hb _]]%added_at; [cbn | eauto]. intros _ Hp%elem_of_dom. by left.
  - intros c m [[-> ->]|[Hb _]]%added_at; [ | eauto]. intros _ _. split; [done | ]. intros _ p. cbn. by rewrite not_elem_of_dom.
  - intros [[-> ->]|[Hb _]]%added_at; [ | eauto]. cbn. case_bool_decide as E; [ | done]. by rewrite E, dom_empty_L.
Qed.

Lemma added_disk : on_disk w -> on_disk w'.
Proof.
  intros [Hb Hg]. constructor; rewrite stale_added; intros Hst.
  - intros n b p [[-> ->]|[Hn _]]%added_at; cbn [b_id]; rewrite pend_added; [ | by apply Hb]. intros _ Hnone _. cbn in Hnone |- *. apply not_elem_of_dom in Hnone. split; [done | ].
    intros Hp. rewrite Hnone. destruct (Hg Hst id) as [E|E]; [ | | done]; [intros n b; apply added_other | by rewrite E].
  - intros i Hi. rewrite pend_added. apply Hg; [done | ]. intros n b Hn. by apply (Hi n), added_back.
Qed.

Lemma added_unsettled : unsettled w'.
Proof. left. rewrite add_registry. cbn [membership checkpointed_membership]. pose proof (sh_member _ Hs). lia. Qed.

Lemma added_inv : inv w -> inv w'.
Proof.
  intros [_ ? ? ? Hr [Ht ? ? ? ?]]. constructor; auto using added_shape, added_sampling, added_revisions, added_disk.
  - unfold restless in *. cbn [phase set_registry]. rewrite add_registry. cbn [state]. pose proof added_unsettled. destruct (phase w) as [|c m []| | | |]; tauto.
  - constructor; [intros n b p a [[-> ->]|[Hb _]]%added_at; [by apply known_until | by eapply Ht] | unfold mode_full; by rewrite add_registry..].
Qed.
End Add.

(** ** A block is retired *)

Section Retire.
Context (w : World) (slot : Z) (gone : Block) (Hgone : block_at w slot gone) (Hs : shape w).

Abbreviation w' := (set_registry (record_removal (b_id gone) (set_ordered (delete slot (ordered (registry w))) (registry w))) w).

Lemma retire_fields : ordered (registry w') = delete slot (ordered (registry w)) /\ next_slot (registry w') = next_slot (registry w) /\
  membership (registry w') = membership (registry w) + 1 /\ checkpointed_membership (registry w') = checkpointed_membership (registry w) /\
  state (registry w') = state (registry w).
Proof. cbn [registry set_registry]. unfold record_removal, set_ordered. cbn. by repeat destruct (_ : bool). Qed.

(** The removal is remembered, or everything will be written. *)
Lemma retire_recorded :
  (removed (registry w') = removed (registry w) /\ removal_overflow (registry w') = removal_overflow (registry w) /\ generation (state (registry w)) = 0) \/
  (removed (registry w') = removed (registry w) /\ removal_overflow (registry w') = membership (registry w) + 1) \/
  (removed (registry w') = <[membership (registry w) + 1 := b_id gone]> (removed (registry w)) /\ removal_overflow (registry w') = removal_overflow (registry w)).
Proof.
  cbn [registry set_registry]. unfold record_removal, set_ordered. cbn. destruct (_ =? 0) eqn:E; [left | right]; [by apply Z.eqb_eq in E | ].
  destruct (_ <? _); [by left | by right].
Qed.

Lemma retired_at n b : block_at w' n b <-> block_at w n b /\ n <> slot.
Proof. rewrite (proj1 retire_fields), lookup_delete_Some. naive_solver. Qed.

Lemma retired_other n b : block_at w' n b -> b_id b <> b_id gone.
Proof. intros [Hb Hn]%retired_at E. by apply Hn, (sh_ids _ Hs _ _ _ _ Hb Hgone). Qed.

Lemma retire_removed k i : removed (registry w') !! k = Some i -> removed (registry w) !! k = Some i \/ k = membership (registry w) + 1 /\ i = b_id gone.
Proof.
  destruct retire_recorded as [(-> & _)|[(-> & _)|(-> & _)]]; [by left.. | ]. intros [[<- <-]|[_ ?]]%lookup_insert_Some; [by right | by left].
Qed.

Lemma retire_kept k i : removed (registry w) !! k = Some i -> removed (registry w') !! k = Some i.
Proof.
  intros Hk. pose proof (sh_removed _ Hs k i Hk). destruct retire_recorded as [(-> & _)|[(-> & _)|(-> & _)]]; [done.. | ]. rewrite lookup_insert_ne; [done | lia].
Qed.

Lemma retire_overflow : removal_overflow (registry w') = removal_overflow (registry w) \/ removal_overflow (registry w') = membership (registry w) + 1.
Proof. destruct retire_recorded as [(_ & -> & _)|[(_ & ->)|(_ & ->)]]; auto. Qed.

Lemma retired_mode : mode_full w' = mode_full w /\ gone_until w' = gone_until w.
Proof. unfold mode_full, gone_until. destruct retire_fields as (_ & _ & _ & -> & ->). done. Qed.

Lemma retired_shape : shape w'.
Proof.
  destruct Hs as [Hsl ? Hb Hi Hr Ha Ho Hm Hc ? ?]. destruct retire_fields as (_ & E1 & E2 & E3 & E4). constructor; rewrite ?E1, ?E2, ?E3, ?E4; try done.
  - intros n b [Hn _]%retired_at. eauto.
  - intros n b [Hn _]%retired_at. specialize (Hb n b Hn). lia.
  - intros n n' b b' [Hn _]%retired_at [Hn' _]%retired_at. by apply Hi.
  - intros k i [Hk|[-> _]]%retire_removed; [specialize (Hr k i Hk) | ]; lia.
  - intros k n b [Hk|[-> E]]%retire_removed Hn; [apply retired_at in Hn as [Hn _]; eauto | by apply retired_other in Hn].
  - destruct retire_overflow as [-> | ->]; lia.
  - lia.
  - intros c m Hcm. destruct (Hc c m Hcm) as (? & ? & Hcb). split; [lia | split; [lia | ]]. intros n b [Hn _]%retired_at. by apply Hcb.
  - by rewrite (proj1 retired_mode).
Qed.

Lemma retired_sampling : slot ∉ owned (phase w) -> sampling w -> sampling w'.
Proof.
  intros Ho [? Hh Hx ? Hc Hw Hg Hf]. destruct retire_fields as (_ & E1 & E2 & E3 & E4). constructor; rewrite ?E1, ?E2, ?E3, ?E4; try done.
  - intros n Hn. destruct (Hh n Hn) as (c & m & b & ? & ? & Hb). exists c, m, b. splits; [done.. | ]. apply retired_at. split; [done | ]. by intros ->.
  - intros x Hi. destruct (Hx x Hi) as (b & Hb & ?). exists b. split; [ | done]. apply retired_at. split; [done | ]. intros <-. by apply Ho, samples_owned.
  - intros r cursor batch s n b Hp Hr [Hn _]%retired_at. by eapply Hc.
  - intros r s n b Hp Hr [Hn _]%retired_at. by eapply Hw.
  - intros r Hr. destruct (Hg r Hr) as (Ht & ? & Hov & ? & ?).
    assert (at_membership r <= membership (registry w)) by (destruct (sh_cap _ Hs (ceiling r) (at_membership r)) as (_ & ? & _); [cbn in Hr; destruct (phase w); cbn in *; by try subst | lia]).
    splits; try done.
    + intros i. rewrite Ht. split; intros (k & Hk & E); exists k; (split; [done | ]); [by apply retire_kept | ]. apply retire_removed in E as [?|[-> _]]; [done | lia].
    + intros E. destruct retire_overflow as [-> | ->]; [auto | lia].
Qed.

Lemma retired_revisions : revisions w -> revisions w'.
Proof.
  intros [Ho Hd Hm Hn Hk]. assert (forall n, noted w' n -> noted w n) as Hw by (intros n; unfold noted; by rewrite (proj1 retired_mode)).
  constructor; intros n b; [intros [Hb _]%retired_at | intros [Hb _]%retired_at Hi%Hw | intros p [Hb _]%retired_at Hi%Hw | intros c m [Hb _]%retired_at | intros [Hb _]%retired_at]; eauto.
Qed.

Lemma retired_fresh : ~ stale w' -> ~ stale w /\ removed (registry w') = <[membership (registry w) + 1 := b_id gone]> (removed (registry w)).
Proof.
  intros Hst. destruct retired_mode as [Em Eg]. unfold stale in *. rewrite Em, Eg in Hst. pose proof (gone_bound _ Hs).
  assert (mode_full w = false) as Hf by (destruct (mode_full w); [destruct Hst; by left | done]).
  destruct retire_recorded as [(_ & _ & E)|[(_ & E)|(Er & E)]]; [by apply (sh_generation _ Hs) in E | | ]; rewrite E in Hst; [destruct Hst; right; lia | done].
Qed.

Lemma retired_disk : on_disk w -> on_disk w'.
Proof.
  intros [Hb Hg]. pose proof (gone_bound _ Hs). destruct retired_mode as [_ Eg]. constructor; intros [Hst Er]%retired_fresh.
  - intros n b p Hn. pose proof (retired_other n b Hn) as Hne. apply retired_at in Hn as [Hn _]. intros E1 E2 E3.
    assert (pend w' (b_id b) <-> pend w (b_id b)) as ->.
    { unfold pend. rewrite Eg. split; intros (k & Hk & E); exists k; (split; [done | ]); [apply retire_removed in E as [?|[_ ?]]; [done | by destruct Hne] | by apply retire_kept]. }
    by apply (Hb Hst n).
  - intros i Hi. destruct (decide (i = b_id gone)) as [->|Hne].
    + right. exists (membership (registry w) + 1). rewrite Eg, Er, lookup_insert_eq. split; [lia | done].
    + destruct (Hg Hst i) as [?|(k & Hk & E)]; [ | by left | ].
      * intros n b Hn E. destruct (decide (n = slot)) as [->|]; [ | by apply (Hi n b); [apply retired_at | ]]. rewrite Hgone in Hn. by injection Hn as <-.
      * right. exists k. rewrite Eg. split; [done | by apply retire_kept].
Qed.

Lemma retired_inv : slot ∉ owned (phase w) -> inv w -> inv w'.
Proof.
  intros Ho [_ ? ? ? Hr [Ht ? ? ? ?]]. constructor; auto using retired_shape, retired_sampling, retired_revisions, retired_disk.
  - assert (unsettled w') by (left; destruct retire_fields as (_ & _ & -> & -> & _); pose proof (sh_member _ Hs); lia).
    unfold restless in *. change (phase w') with (phase w). destruct retire_fields as (_ & _ & _ & _ & ->). destruct (phase w) as [|c m []| | | |]; tauto.
  - constructor; rewrite ?(proj1 retired_mode); try done. intros n b p a [Hn _]%retired_at. by eapply Ht.
Qed.
End Retire.
End ShardInvariant.
