(* ===== verification/ShardSampling.v ===== *)
(** A checkpoint of a shard until it writes (crates/talon-worker/src/page_lifecycle.rs, runtime/page_maintenance.rs): starting, reading the journal, taking
    batches and samples keep the invariant. *)

From stdpp Require Import gmap sorting.
From S2P Require Import Prelude External Key FileSystem AccessRecord AccessShard ShardRegistry ShardContent ShardInvariant.

Module ShardSampling.
Import Key AccessRecord AccessShard ShardRegistry ShardContent ShardInvariant.

Abbreviation block_at w n b := (ordered (registry w) !! n = Some b).

(** Phases in which no block is held. *)
Definition at_rest (p : Phase) : bool := match p with Sampling _ _ _ _ | Writing _ _ | Committing _ _ => false | _ => true end.

(** The slots that a checkpoint will still visit. *)
Definition candidates (r : Run) (cursor : Z) (g : Registry) : list Z :=
  (merge_sort le_slot (map_to_list (filter (fun p => cursor <= p.1 <= ceiling r /\ (whole r = true \/ b_dirty p.2 = true)) (ordered g)))).*1.

(** ** A phase that changes no block *)

Lemma shard_clock_inv t w : inv w -> inv (mkWorld (registry w) (Z.max t (clock w)) (disk w) (phase w)).
Proof.
  intros [[] [? ? Hx ? ? ? ? ?] [] [] ? [Ht Hd ? ? ?]].
  assert (forall sn, timely_entry (clock w) sn = true -> timely_entry (Z.max t (clock w)) sn = true) as Hm.
  { unfold timely_entry. intros sn [? ?]%andb_true_iff. apply andb_true_iff. split; [lia | done]. }
  constructor; try (by constructor); try assumption.
  - constructor; try done. intros x Hi. destruct (Hx x Hi) as (b & Hb & []). exists b. split; [done | ]. constructor; try done. by apply Hm.
  - constructor; try done.
    + intros n b p a Hb E. cbn [clock]. specialize (Ht n b p a Hb E). lia.
    + intros Hf. specialize (Hd Hf). unfold timely_content in *. cbn [clock]. apply andb_true_iff in Hd as [H1 H2]. rewrite forallb_forall in H1, H2.
      apply andb_true_iff. rewrite !forallb_forall. auto.
Qed.

Lemma any_dirty_spec g : any_dirty g = true <-> exists n b, ordered g !! n = Some b /\ b_dirty b = true.
Proof.
  unfold any_dirty. rewrite bool_decide_eq_true, Exists_exists. split.
  - intros (b & ([n b'] & -> & Hb)%list_elem_of_fmap & E). apply elem_of_map_to_list in Hb. by exists n, b'.
  - intros (n & b & Hb & E). exists b. split; [ | done]. apply list_elem_of_fmap. exists (n, b). split; [done | by apply elem_of_map_to_list].
Qed.

Lemma rest_sampling w : at_rest (phase w) = true -> sampling w.
Proof.
  destruct w as [g t d p]. cbn [phase]. destruct p; intros Hp; try done; (constructor; cbn [phase owned samples_of]; [constructor | by intros ? ?%elem_of_nil | by intros ? ?%elem_of_nil | done..]).
Qed.

(** After a failure, and at startup, everything will be written. *)
Lemma full_inv w : at_rest (phase w) = true -> cap (phase w) = None -> full (state (registry w)) = true -> shape w ->
  (forall n b, block_at w n b -> 0 <= b_checkpointed b <= b_revision b) -> (forall n b, block_at w n b -> b_marks b <> ∅ -> b_dirty b = true) ->
  (forall n b p a, block_at w n b -> known_ages (b_pages b) !! p = Some a -> a <= clock w) -> restless w -> inv w.
Proof.
  intros Hp Hc Hf Hs Hr Hk Ht Hl. assert (mode_full w = true) as Hm by (unfold mode_full; by destruct (phase w)).
  assert (samples_of (phase w) = []) as Hx by (by destruct (phase w)).
  constructor; [done | by apply rest_sampling | | | done | ].
  - constructor; [done | | | congruence | done]; intros n b.
    + intros _ Hn. by apply noted_sampled in Hn.
    + intros p _ Hn. by apply noted_sampled in Hn.
  - by constructor; intros []; left.
  - by constructor; [ | rewrite Hm..].
Qed.

Lemma shard_start_inv w : inv w -> inv (checkpoint_start w).
Proof.
  unfold checkpoint_start. destruct w as [g t d []]; cbn [phase registry]; try done. intros [[Hs1 ? Hs2 ? ? ? ? ? ? ?] [] [] [] Hr []].
  constructor; try (by constructor).
  - constructor; try done. intros c m [= <- <-]. cbn [registry set_phase] in *. split; [lia | split; [lia | ]]. intros n b Hb. specialize (Hs1 n b Hb). specialize (Hs2 n b Hb). lia.
  - by apply rest_sampling.
  - constructor; try done.
    + intros n b Hb Hn. apply (rv_dirty0 n b Hb). destruct Hn as [?|[?|(c & m & [= <- <-] & Hl)]]; [by left | by right; left | ].
      specialize (Hs1 n b Hb). cbn [registry set_phase] in *. lia.
    + intros n b p Hb Hn. apply (rv_marks0 n b p Hb). destruct Hn as [?|[?|(c & m & [= <- <-] & Hl)]]; [by left | by right; left | ].
      specialize (Hs1 n b Hb). cbn [registry set_phase] in *. lia.
    + intros n b c m Hb [= <- <-] Hl. specialize (Hs1 n b Hb). cbn [registry set_phase] in *. lia.
  - unfold restless in *. cbn [phase set_phase registry] in *. destruct (_ || _) eqn:E; [ | done]. apply orb_true_iff in E as [E|E].
    + left. cbn. apply negb_true_iff, Z.eqb_neq in E. done.
    + right; left. by apply any_dirty_spec.
Qed.

Lemma shard_journal_inv w : inv w -> inv (checkpoint_journal w).
Proof.
  unfold checkpoint_journal. destruct w as [g t d []]; cbn [phase registry]; try done. intros [[Hs1 ? ? ? ? Ha Ho Hm Hc ? Hg] ? [Hr1 Hr2 Hr3 ? ?] [Hd1 Hd2] Hr [? Ht1 Ht2 Ht3 Ht4]]. destruct dirty.
  2: { constructor; [by constructor | by apply rest_sampling | | by constructor | done | by constructor].
       constructor; [done | intros n b Hb Hn; apply (Hr2 n b Hb) | intros n b p Hb Hn; apply (Hr3 n b p Hb) | done | done]; (destruct Hn as [?|[?|(c & m & ? & ?)]]; [by left | by right; left | done]). }
  unfold mode_full, stale, gone_until, pend in *. cbn [phase registry] in *.
  assert (forall a b, a || b = false -> a = false) as Hor by (intros [] []; done). unfold unsettled in Hr.
  constructor; [ | | | | exact Hr | ].
  - constructor; try done. unfold mode_full. cbn. intros E%Hor. by apply Hg.
  - constructor; cbn [phase set_phase owned samples_of registry set_registry removed removal_overflow set_state state].
    + constructor.
    + by intros ? ?%elem_of_nil.
    + by intros ? ?%elem_of_nil.
    + by intros ? ? ? ? ? _ ?%elem_of_nil.
    + intros r cursor batch s n b [= <- <- <- <-] _ Hb _ Hl. specialize (Hs1 n b Hb). lia.
    + done.
    + intros r <-. cbn [tombstones at_membership whole journal_was full]. splits.
      * intros id. split.
        -- intros ([k i] & -> & Hk)%list_elem_of_fmap. rewrite merge_sort_Permutation in Hk. apply elem_of_map_to_list, map_lookup_filter_Some in Hk as [Hk Hl]. by exists k.
        -- intros (k & Hl & Hk). apply list_elem_of_fmap. exists (k, id). split; [done | ]. rewrite merge_sort_Permutation. by apply elem_of_map_to_list, map_lookup_filter_Some.
      * unfold compact. cbn [full]. by intros E%Hor.
      * intros [_ E]%orb_false_iff. left. by apply negb_false_iff, Z.eqb_eq in E.
      * done.
      * by intros _ x ?%elem_of_nil.
    + done.
  - constructor; [done | intros n b Hb Hn; apply (Hr2 n b Hb) | intros n b p Hb Hn; apply (Hr3 n b p Hb) | done | done];
      (destruct Hn as [Hn|[?|?]]; [left; cbn in *; by apply Hor in Hn | by right; left | by right; right]).
  - unfold stale, mode_full, gone_until. cbn in *. constructor; unfold stale, mode_full, gone_until; cbn; intros Hst; [apply Hd1 | apply Hd2]; (intros [E|E]; apply Hst; [left; by rewrite E | by right]).
  - constructor; [done | unfold mode_full; cbn; intros E%Hor; auto..].
Qed.

(** ** Batches *)

Lemma sorted_take (l : list Z) k n y : StronglySorted Z.le l -> NoDup l -> last (take k l) = Some y -> n ∈ l -> n <= y -> n ∈ take k l.
Proof.
  intros Hs Hn Hy Hi Hl. rewrite <-(take_drop k l) in Hi. apply elem_of_app in Hi as [?|Hd]; [done | ]. apply last_Some_elem_of in Hy as Hy'.
  rewrite <-(take_drop k l) in Hs, Hn. apply StronglySorted_app in Hs as (Hs & _ & _). specialize (Hs y n Hy' Hd). assert (n = y) as -> by lia.
  apply NoDup_app in Hn as (_ & Hn & _). by destruct (Hn y).
Qed.

Lemma sorted_last (l : list Z) n y : StronglySorted Z.le l -> last l = Some y -> n ∈ l -> n <= y.
Proof.
  intros Hs Hy Hn. apply last_Some in Hy as [l' ->]. apply elem_of_app in Hn as [Hn|Hn%list_elem_of_singleton]; [ | lia].
  apply StronglySorted_app in Hs as (Hs & _ & _). apply Hs; [done | by apply list_elem_of_singleton].
Qed.

Lemma candidates_in r cursor g n : n ∈ candidates r cursor g <-> exists b, ordered g !! n = Some b /\ cursor <= n <= ceiling r /\ (whole r = true \/ b_dirty b = true).
Proof.
  unfold candidates. rewrite list_elem_of_fmap. setoid_rewrite merge_sort_Permutation. split.
  - intros ([n' b] & -> & [Hb Hc]%elem_of_map_to_list%map_lookup_filter_Some). by exists b.
  - intros (b & Hb & Hc). exists (n, b). split; [done | ]. by apply elem_of_map_to_list, map_lookup_filter_Some.
Qed.

Lemma candidates_sorted r cursor g : StronglySorted Z.le (candidates r cursor g) /\ NoDup (candidates r cursor g).
Proof.
  unfold candidates. split.
  - assert (StronglySorted le_slot (merge_sort le_slot (map_to_list (filter (fun p => cursor <= p.1 <= ceiling r /\ (whole r = true \/ b_dirty p.2 = true)) (ordered g))))) as H.
    { apply StronglySorted_merge_sort; unfold le_slot; [intros x y z | intros x y]; lia. }
    induction H as [|x l _ IH Hx]; [constructor | ]. rewrite fmap_cons. constructor; [done | ]. by apply Forall_fmap.
  - rewrite merge_sort_Permutation. apply NoDup_fst_map_to_list.
Qed.

Lemma eligible_take r cursor g : eligible r cursor g = take 64 (candidates r cursor g).
Proof. done. Qed.

Lemma shard_batch_inv w : inv w -> inv (checkpoint_batch w).
Proof.
  unfold checkpoint_batch. destruct w as [g t d [| |r cursor [|n0 batch] s| | |]]; cbn [phase registry]; try done.
  intros [[] [Hn Hh Hx Hc Hv Hw Hg Hf] [] [] Hr []]. rewrite eligible_take. destruct (candidates_sorted r cursor g) as [Hs Hd]. cbn [phase registry owned samples_of app] in *.
  destruct (last (take 64 (candidates r cursor g))) as [y|] eqn:Ey; (constructor; [by constructor | | by constructor | by constructor | exact Hr | by constructor]).
  - assert (forall n, n ∈ take 64 (candidates r cursor g) -> n <= y /\ exists b, ordered g !! n = Some b /\ cursor <= n <= ceiling r) as He.
    { intros n Hi. split; [ | apply elem_of_take in Hi as (i & (b & ? & ? & _)%list_elem_of_lookup_2%candidates_in & _); by exists b]. eapply sorted_last; [ | done | done].
      rewrite <-(take_drop 64 (candidates _ _ _)) in Hs. by apply StronglySorted_app in Hs as (_ & ? & _). }
    constructor; cbn [phase set_phase owned samples_of registry]; try done.
    + apply NoDup_app. splits; [ | | done].
      * rewrite <-(take_drop 64 (candidates _ _ _)) in Hd. by apply NoDup_app in Hd as (? & _ & _).
      * intros n [_ (b & _ & Hl)]%He Hi. specialize (Hc _ _ _ _ n eq_refl Hi). lia.
    + intros n [Hi|Hi]%elem_of_app; [ | by apply Hh]. apply He in Hi as [_ (b & Hb & Hl)]. exists (ceiling r), (at_membership r), b. splits; [done | lia | done].
    + intros r' cursor' batch' s' n [= <- <- <- <-] [Hi|Hi]%elem_of_app; [apply He in Hi; lia | ]. specialize (Hc _ _ _ _ n eq_refl Hi). apply last_Some_elem_of, He in Ey as [_ (b & _ & ?)]. lia.
    + intros r' cursor' batch' s' n b [= <- <- <- <-] Hwh Hb Hl Hy. apply elem_of_app. destruct (decide (n < cursor)) as [|Hge]; [right; by eapply (Hv _ _ _ _ n b eq_refl) | left].
      eapply sorted_take; [done | done | done | | lia]. apply candidates_in. exists b. splits; [done | lia | lia | by left].
  - constructor; cbn [phase set_phase owned samples_of registry]; try done. intros r' s' n b [= <- <-] Hwh Hb Hl.
    destruct (decide (n < cursor)) as [|Hge]; [by eapply (Hv _ _ _ _ n b eq_refl) | ]. exfalso. apply last_None in Ey.
    assert (n ∈ candidates r cursor g) as Hi by (apply candidates_in; exists b; splits; [done | lia | lia | by left]). destruct (candidates r cursor g); [by apply elem_of_nil in Hi | done].
Qed.

(** ** A sample is taken *)

Lemma sampled_records (m : gmap Z Z) : list_to_map (merge_sort le_page (map_to_list m)) = m /\ NoDup (merge_sort le_page (map_to_list m)).*1.
Proof.
  assert (NoDup (merge_sort le_page (map_to_list m)).*1) as Hn by (rewrite merge_sort_Permutation; apply NoDup_fst_map_to_list). split; [ | done].
  rewrite <-(list_to_map_to_list m) at 2. apply list_to_map_proper; [done | ]. apply merge_sort_Permutation.
Qed.

Section Sample.
Context (g : Registry) (t : Z) (d : Content) (r : Run) (cursor slot : Z) (batch : list Z) (s : list Sample) (b : Block).
Context (Hb : ordered g !! slot = Some b).

Abbreviation w := (mkWorld g t d (Sampling r cursor (slot :: batch) s)).
Abbreviation replace := (whole r || negb (b_revision b =? b_checkpointed b)).
Abbreviation x := (mkSample slot (b_id b) (b_pages b) (b_marks b) (b_dirty b) replace (mkAccess (b_revision b) t (merge_sort le_page (map_to_list (sampled_ages replace b))))).
Abbreviation clear b := (mkBlock (b_id b) (b_pages b) ∅ (b_revision b) (b_checkpointed b) false (b_born b)).
Abbreviation w' := (set_phase (Sampling r cursor batch (s ++ [x])) (on_block slot (fun b => clear b) w)).

Context (Hi : inv w).

Lemma sample_step : sample_block w = w'.
Proof. unfold sample_block. cbn [phase registry]. by rewrite Hb. Qed.

Lemma slot_apart : slot ∉ s_slot <$> s.
Proof. pose proof (sa_slots _ (i_sampling _ Hi)) as Hn. cbn in Hn. apply NoDup_cons in Hn as [Hn _]. set_solver. Qed.

Lemma sample_of_next n : sample_of (phase w') n = if decide (n = slot) then Some x else sample_of (phase w) n.
Proof.
  unfold sample_of. cbn [phase set_phase samples_of]. rewrite fmap_app, list_to_map_app. cbn [fmap list_fmap list_to_map foldr s_slot fst snd]. rewrite lookup_union.
  assert ((list_to_map ((fun y => (s_slot y, y)) <$> s) : gmap Z Sample) !! slot = None) as Hn.
  { apply not_elem_of_list_to_map_1. rewrite <-list_fmap_compose. apply slot_apart. }
  destruct (decide (n = slot)) as [->|Hne]; [by rewrite Hn, lookup_insert_eq | ]. rewrite lookup_insert_ne, lookup_empty by done. by destruct (_ !! n).
Qed.

Lemma next_at n b' : block_at w' n b' <-> if decide (n = slot) then b' = clear b else block_at w n b'.
Proof.
  cbn [registry set_phase on_block set_registry set_ordered ordered]. destruct (decide (n = slot)) as [->|Hne].
  - rewrite lookup_alter_eq, Hb. cbn. naive_solver.
  - by rewrite lookup_alter_ne.
Qed.

Lemma next_back n b' : block_at w n b' -> exists b'', block_at w' n b''.
Proof. intros E%(on_block_back _ slot (fun b => clear b)). by eexists. Qed.

Lemma noted_next n : n <> slot -> noted w' n -> noted w n.
Proof. intros Hne [?|[H|?]]; [by left | right; left | by right; right]. by rewrite sample_of_next, decide_False in H. Qed.

Lemma slot_unsampled : sample_of (phase w) slot = None.
Proof.
  destruct (sample_of _ _) as [y|] eqn:E; [ | done]. apply sample_of_in in E as [Hy E]. destruct slot_apart. rewrite <-E. by apply list_elem_of_fmap_2.
Qed.

Lemma sample_taken : sample_ok t x (clear b).
Proof.
  destruct Hi as [_ [_ _ _ _ _ _ Hg _] [Ho _ Hm _ _] _ _ [Ht _ _ _ _]]. destruct (sampled_records (sampled_ages replace b)) as [Er En]. pose proof (Ho slot b Hb).
  constructor; cbn [s_id s_pages s_marks s_replace s_snapshot sampled_revision revision b_id b_checkpointed b_revision b_pages b_marks]; try done.
  - lia.
  - intros [Hw E]%orb_false_iff. apply negb_false_iff, Z.eqb_eq in E. split; [done | ]. intros p Hp. destruct (Hg r eq_refl) as (_ & Hf & _).
    destruct (Hm slot b p Hb (or_introl (Hf Hw)) Hp) as [?|Hl]; [done | ]. unfold target in Hl. rewrite slot_unsampled in Hl. cbn in Hl. lia.
  - unfold timely_entry. cbn [sampled_at records]. rewrite Z.leb_refl. cbn [andb]. apply forallb_forall. intros [p a] Hp%list_elem_of_In. rewrite merge_sort_Permutation in Hp.
    apply elem_of_map_to_list, map_lookup_filter_Some in Hp as [Hp _]. apply Z.leb_le. by apply (Ht slot b p a Hb).
Qed.

Lemma next_shape : shape w'.
Proof. apply phase_shape; [done.. | ]. apply kept_shape; [done | apply Hi]. Qed.

Lemma next_sampling : sampling w'.
Proof.
  pose proof (i_sampling _ Hi) as [Hn Hh Hx Hc Hv Hw Hg Hf]. cbn [phase owned samples_of registry] in *.
  assert (forall n, n ∈ owned (phase w') <-> n ∈ (slot :: batch) ++ (s_slot <$> s)) as Ho.
  { intros n. cbn [phase set_phase owned]. rewrite fmap_app. cbn [fmap list_fmap s_slot app]. rewrite !elem_of_cons, !elem_of_app, list_elem_of_singleton. clear. tauto. }
  constructor; cbn [phase set_phase owned samples_of].
  - cbn in Hn. apply NoDup_cons in Hn as [Hns Hn]. rewrite fmap_app, (assoc_L (++)). apply NoDup_app. splits; [done | | apply NoDup_singleton]. intros n Hm ->%list_elem_of_singleton. by apply Hns.
  - intros n Hm%Ho. destruct (Hh n Hm) as (c & m & b' & ? & ? & Hb'). apply next_back in Hb' as [b'' ?]. by exists c, m, b''.
  - intros y [Hy| ->%list_elem_of_singleton]%elem_of_app; [ | exists (clear b); split; [by apply next_at; rewrite decide_True | apply sample_taken]].
    destruct (Hx y Hy) as (b' & Hb' & Hk). exists b'. split; [ | done]. apply next_at. rewrite decide_False; [done | ]. intros E. apply slot_apart. rewrite <-E. by apply list_elem_of_fmap_2.
  - intros r' cursor' batch' s' n [= <- <- <- <-] Hm%Ho. by eapply Hc.
  - intros r' cursor' batch' s' n b' [= <- <- <- <-] Hwh Hb' Hl Hlt. apply Ho. apply next_at in Hb'. destruct (decide (n = slot)) as [->|]; [by left | by eapply Hv].
  - done.
  - intros r' <-. destruct (Hg r eq_refl) as (? & ? & ? & ? & Hrep). splits; [done.. | ]. intros E y [Hy| ->%list_elem_of_singleton]%elem_of_app; [by apply Hrep | ]. cbn. by rewrite E.
  - done.
Qed.

Lemma next_revisions : revisions w'.
Proof.
  pose proof (i_revisions _ Hi) as [Ho Hd Hm Hn Hk]. constructor; intros n b'.
  - intros Hb'%next_at. destruct (decide _) as [->|]; [subst b'; by apply (Ho slot b) | by apply (Ho n)].
  - intros Hb'%next_at. unfold target. rewrite sample_of_next. destruct (decide _) as [->|Hne]; [by subst b' | ]. intros Hnn%noted_next; [ | done]. by apply (Hd n).
  - intros p Hb'%next_at. unfold target. rewrite sample_of_next. destruct (decide _) as [->|Hne]; [subst b'; cbn; set_solver | ]. intros Hnn%noted_next; [ | done]. by apply (Hm n).
  - intros c m Hb'%next_at. destruct (decide _) as [->|Hne]; [subst b' | by apply (Hn n)]. intros Hcm Hl. exfalso.
    destruct (sa_held _ (i_sampling _ Hi) slot) as (c' & m' & _ & Hcap & ? & _); [by left | ].
    cbn in Hcm, Hcap. rewrite Hcm in Hcap. injection Hcap as <- <-. lia.
  - intros Hb'%next_at. destruct (decide _) as [->|Hne]; [by subst b' | by apply (Hk n)].
Qed.

Lemma next_disk : on_disk w'.
Proof.
  pose proof (i_disk _ Hi) as [Hd Hg]. constructor.
  - intros Hst n b' p Hb'%next_at. unfold taken. cbn [phase set_phase]. change (sample_of (Sampling r cursor batch (s ++ [x])) n) with (sample_of (phase w') n). rewrite sample_of_next.
    destruct (decide _) as [->|Hne]; [ | by apply (Hd Hst n b')]. subst b'. cbn [from_option s_marks b_marks b_revision b_id b_pages]. intros E _ Hp. apply (Hd Hst slot b p Hb); [done | done | ].
    unfold taken. cbn [phase]. change (p ∉ from_option s_marks ∅ (sample_of (phase w) slot)). by rewrite slot_unsampled.
  - intros Hst id Hid. apply (Hg Hst id). intros n b' Hb'. destruct (decide (n = slot)) as [->|Hne].
    + cbn in Hb'. rewrite Hb in Hb'. injection Hb' as <-. apply (Hid slot (clear b)). apply next_at. by rewrite decide_True.
    + apply (Hid n). apply next_at. by rewrite decide_False.
Qed.

Lemma next_inv : inv w'.
Proof.
  constructor; [apply next_shape | apply next_sampling | apply next_revisions | apply next_disk | | ].
  - pose proof (i_restless _ Hi) as Hr. change (unsettled w) in Hr. change (unsettled w').
    destruct Hr as [?|[(n & b' & Hb' & E)|(y & b' & Hy & E & Hb')]]; [by left | destruct (decide (n = slot)) as [->|Hne] | ].
    + right; right. exists x, (clear b). cbn in Hb'. rewrite Hb in Hb'. injection Hb' as <-. splits; [cbn; apply elem_of_app; right; by left | done | apply next_at; by rewrite decide_True].
    + right; left. exists n, b'. split; [apply next_at; by rewrite decide_False | done].
    + right; right. apply next_back in Hb' as [b'' ?]. exists y, b''. splits; [cbn; apply elem_of_app; by left | done | done].
  - destruct (i_times _ Hi) as [Ht ? ? ? ?]. constructor; try done. intros n b' p a Hb'%next_at. destruct (decide _) as [->|]; [subst b'; by apply (Ht slot b) | by apply (Ht n)].
Qed.
End Sample.

Lemma shard_sample_inv w : inv w -> inv (sample_block w).
Proof.
  destruct w as [g t d [| |r cursor [|slot batch] s| | |]]; try done. intros Hi. destruct (ordered g !! slot) as [b|] eqn:Hb.
  - rewrite (sample_step g t d r cursor slot batch s b Hb). by apply next_inv.
  - unfold sample_block. cbn [phase registry]. by rewrite Hb.
Qed.
End ShardSampling.
