(* ===== verification/ShardSaved.v ===== *)
(** Checkpoints of a shard save the ages of its blocks (crates/talon-worker/src/page_lifecycle.rs, runtime/page_maintenance.rs): when no
    checkpoint is running and nothing is noted for the next one, a restart would load the ages in memory, and no age of a block that is gone. *)

From stdpp Require Import gmap sorting.
From S2P Require Import Prelude External Key FileSystem AccessRecord AccessShard AccessCrash ShardRegistry ShardContent ShardInvariant ShardSampling.

Module ShardSaved.
Import Key AccessRecord AccessShard ShardRegistry ShardContent ShardInvariant ShardSampling.

Abbreviation block_at w n b := (ordered (registry w) !! n = Some b).

(** ** A checkpoint fails *)

Lemma failed_shape w c s : at_rest (phase w) = false -> full (state (registry w)) = true -> shape w -> shape (mkWorld (registry w) (clock w) c (Restoring s)).
Proof. intros Hp Hf [? ? ? ? ? ? ? ? ? ? ?]. constructor; try done. unfold mode_full. cbn. congruence. Qed.

Lemma shard_failed_inv c w : inv w -> inv (flush_failed c w).
Proof.
  unfold flush_failed. destruct w as [g t d []]; cbn [phase registry]; try done; intros [Hs [_ _ _ _ _ _ Hg _] [Hr _ _ _ Hk] _ Hl [Ht _ _ _ _]];
    destruct (Hg _ eq_refl) as (_ & _ & _ & E & _); (apply full_inv; [done | done | cbn in *; by rewrite E | | done | done | done | split; [exact Hl | cbn in *; by rewrite E]]).
  - apply (failed_shape _ d samples) in Hs; [exact Hs | done | cbn in *; by rewrite E].
  - apply (failed_shape _ c samples) in Hs; [exact Hs | done | cbn in *; by rewrite E].
Qed.

Lemma shard_restore_inv w : inv w -> inv (restore_sample w).
Proof.
  unfold restore_sample. destruct w as [g t d [| | | | |[|x s]]]; cbn [phase registry]; try done; intros [Hs _ [Hr _ _ _ Hk] _ [Hl Hf] [Ht _ _ _ _]].
  - apply full_inv; [done | done | done | | done | done | done | ]; [apply phase_shape; done | ]. intros _. left.
    destruct Hl as [?|[?|(y & b & Hy & _)]]; [by left | by right; left | by apply elem_of_nil in Hy].
  - apply full_inv; [done | done | done | | | | | ].
    + apply phase_shape; [done | done | ]. by apply kept_shape.
    + intros n b (b' & Hb & ->)%on_block_at. specialize (Hr n b' Hb). by destruct (decide _).
    + intros n b (b' & Hb & ->)%on_block_at. specialize (Hk n b' Hb). destruct (decide _); [ | done]. cbn. intros Hne. case_bool_decide as E; cbn [negb]; [ | by rewrite orb_true_r].
      rewrite Hk; [done | ]. intros Em. apply Hne. rewrite E, Em. set_solver.
    + intros n b p a (b' & Hb & ->)%on_block_at. specialize (Ht n b' p a Hb). by destruct (decide _).
    + split; [ | done]. destruct Hl as [?|[(n & b & Hb & E)|(y & b & Hy & E & Hb)]]; [by left | | ].
      * right; left. exists n. eexists. split; [by apply (on_block_back _ (s_slot x) (give_back x)) in Hb | ]. destruct (decide _); [cbn; by rewrite E | done].
      * apply (on_block_back _ (s_slot x) (give_back x)) in Hb. apply elem_of_cons in Hy as [->|Hy]; [right; left | right; right].
        -- exists (s_slot x). eexists. split; [done | ]. rewrite decide_True by done. cbn. rewrite E. by destruct (b_dirty b).
        -- by exists y; eexists.
Qed.

(** ** A sample is committed *)

Lemma commit_target (s : list Sample) (r : Run) x n b : NoDup (s_slot x :: (s_slot <$> s)) ->
  target (Committing r s) n (if decide (n = s_slot x) then mkBlock (b_id b) (b_pages b) (b_marks b) (b_revision b) (revision (s_snapshot x)) (b_dirty b) (b_born b) else b) =
  target (Committing r (x :: s)) n b.
Proof.
  intros [Hx _]%NoDup_cons. unfold target, sample_of. cbn [samples_of]. rewrite fmap_cons. cbn [list_to_map foldr fst snd]. destruct (decide (n = s_slot x)) as [->|Hne].
  - rewrite lookup_insert_eq. cbn [from_option]. rewrite not_elem_of_list_to_map_1; [done | ]. by rewrite <-list_fmap_compose.
  - by rewrite lookup_insert_ne.
Qed.

Lemma shard_commit_inv w : inv w -> inv (commit_sample w).
Proof.
  unfold commit_sample. destruct w as [g t d [| | | |r [|x s]|]]; cbn [phase registry]; try done. intros [Hs [Hn Hh Hx Hc Hv Hw Hg Hf] [Ho Hd Hm Hnew Hk] [Hb Hgone] Hr [Ht ? ? ? ?]].
  set (f := fun b => mkBlock (b_id b) (b_pages b) (b_marks b) (b_revision b) (revision (s_snapshot x)) (b_dirty b) (b_born b)).
  set (w0 := mkWorld g t d (Committing r (x :: s))) in *. set (w1 := set_phase (Committing r s) (on_block (s_slot x) f w0)).
  assert (forall n b', block_at w1 n b' -> exists b, block_at w0 n b /\ b' = (if decide (n = s_slot x) then f b else b) /\
    b_id b' = b_id b /\ b_pages b' = b_pages b /\ b_marks b' = b_marks b /\ b_dirty b' = b_dirty b /\ b_revision b' = b_revision b /\ target (phase w1) n b' = target (phase w0) n b) as Hat.
  { intros n b' (b & Hb' & ->)%on_block_at. exists b. split; [done | split; [done | ]]. splits; [by destruct (decide _).. | ]. by apply commit_target. }
  assert (forall n, noted w0 n) as Hall by (intros n; left; by apply (Hf r (x :: s))).
  change (NoDup (s_slot x :: (s_slot <$> s))) in Hn.
  constructor; [apply phase_shape; [done.. | by apply kept_shape] | | | | done | ].
  - constructor; try done.
    + by apply NoDup_cons in Hn as [_ ?].
    + intros n Hi. destruct (Hh n) as (c & m & b & ? & ? & Hbn); [by right | ]. apply (on_block_back _ (s_slot x) f) in Hbn. by exists c, m; eexists.
    + intros y Hy. destruct (Hx y) as (b & Hbn & Hok); [by right | ]. exists b. split; [ | done]. apply (on_block_back _ (s_slot x) f) in Hbn. rewrite decide_False in Hbn; [done | ].
      intros E. apply NoDup_cons in Hn as [Hn _]. apply Hn. rewrite <-E. by apply list_elem_of_fmap_2.
    + intros r' s' [= <- <-]. by apply (Hf r (x :: s)).
  - constructor.
    + intros n b' (b & Hbn & -> & _)%Hat. pose proof (Ho n b Hbn). destruct (decide _) as [->|]; [ | done]. destruct (Hx x) as (b0 & Hb0 & Hok); [by left | ]. rewrite Hbn in Hb0. injection Hb0 as <-.
      pose proof (so_revision _ _ _ Hok) as Hrev. unfold sampled_revision in Hrev. cbn. lia.
    + intros n b' (b & Hbn & _ & _ & _ & -> & -> & -> & ->)%Hat _. by apply Hd.
    + intros n b' p (b & Hbn & _ & _ & -> & -> & _ & -> & ->)%Hat _. by apply Hm.
    + intros n b' c m (b & Hbn & -> & _)%Hat Hcm Hl. destruct (decide _) as [->|]; [ | by apply (Hnew n b c m)]. destruct (Hh (s_slot x)) as (c' & m' & b0 & Hcm' & ? & _); [by left | ].
      cbn in Hcm, Hcm'. rewrite Hcm in Hcm'. injection Hcm' as <- <-. lia.
    + intros n b' (b & Hbn & _ & _ & _ & -> & -> & _)%Hat. by apply (Hk n).
  - constructor.
    + intros Hst n b' p (b & Hbn & _ & -> & -> & -> & _ & -> & Et)%Hat. change (disk_revision (phase w1) n b') with (target (phase w1) n b'). rewrite Et. by apply (Hb Hst n b p).
    + intros Hst id Hid. apply (Hgone Hst id). intros n b Hbn E. apply (on_block_back _ (s_slot x) f) in Hbn. apply Hid in Hbn. apply Hbn. by destruct (decide _).
  - constructor; try done. intros n b' p a (b & Hbn & _ & _ & -> & _)%Hat. by apply (Ht n b).
Qed.

(** ** A checkpoint ends *)

Lemma finished_shape g t d m p : at_rest p = false -> cap p = Some (ceiling m, at_membership m) -> shape (mkWorld g t d p) ->
  (full (state g) = false -> generation (state g) <> 0) -> shape (mkWorld (finished (at_membership m) g) t d Idle).
Proof.
  intros Hp Hcp [? ? ? ? Hr Ha Ho Hm Hc ? _] Hg. destruct (Hc _ _ Hcp) as (_ & Hl & _). cbn [phase registry] in *.
  constructor; cbn [registry phase finished removed ordered membership checkpointed_membership removal_overflow next_slot]; try done.
  - intros k id [Hk Hlt]%map_lookup_filter_Some. specialize (Hr k id Hk). cbn in Hlt. lia.
  - intros k n b [Hk _]%map_lookup_filter_Some. by apply Ha.
  - destruct (_ <=? _) eqn:E; [by left | ]. apply Z.leb_gt in E. lia.
  - lia.
Qed.

Lemma shard_finish_inv w : inv w -> inv (checkpoint_finished w).
Proof.
  unfold checkpoint_finished. destruct w as [g t d [| | | |r [|x s]|]]; cbn [phase registry]; try done.
  intros [Hs [_ _ _ _ _ _ _ Hf] [Ho Hd Hm Hnew Hk] [Hb Hgone] Hr [Ht ? ? ? ?]]. specialize (Hf r [] eq_refl) as Hfull. cbn in Hfull.
  set (w0 := mkWorld g t d (Committing r [])) in *. set (w1 := set_phase Idle (set_registry (finished (at_membership r) g) w0)).
  assert (0 <= at_membership r) as Hpos by (pose proof (gone_positive _ Hs); pose proof (sh_member _ Hs); unfold gone_until in *; cbn in *; lia).
  assert (~ stale w1 -> ~ stale w0) as Hst.
  { unfold stale, mode_full, gone_until. cbn. intros H' [E|E]; apply H'; [by left | right]. rewrite (proj2 (Z.leb_gt _ _)); [done | lia]. }
  assert (forall id, pend w1 id <-> pend w0 id) as Hpend.
  { intros id. unfold pend, gone_until. cbn. split; intros (k & Hkl & E); exists k; (split; [done | ]); [by apply map_lookup_filter_Some in E as [? _] | by apply map_lookup_filter_Some]. }
  assert (forall n, noted w0 n) as Hall by (intros n; by left).
  constructor; [ | by apply rest_sampling | | | unfold restless; cbn; congruence | by constructor].
  - refine (finished_shape g t d r _ _ _ Hs _); [done | done | ]. intros _. by apply (sh_generation _ Hs).
  - constructor; [done | intros n b Hbn _; by apply (Hd n b Hbn) | intros n b p Hbn _; by apply (Hm n b p Hbn) | done | done].
  - constructor; intros H'%Hst.
    + intros n b p Hbn. rewrite Hpend. by apply (Hb H' n b p).
    + intros id. rewrite Hpend. apply (Hgone H' id).
Qed.

(** A checkpoint that has nothing to write leaves nothing behind. *)
Lemma nothing_vacant g t r s : inv (mkWorld g t ([], []) (Writing r s)) -> generation (journal_was r) = 0 -> forallb (fun x => negb (resident x)) s = true ->
  membership g = at_membership r -> ~ (exists n b, ordered g !! n = Some b /\ b_dirty b = true) -> forall n b, ordered g !! n = Some b -> known_ages (b_pages b) = ∅.
Proof.
  intros [Hs [Hnd _ Hx _ _ Hw Hg _] [_ Hd _ _ _] _ _ _] Hj Hres Hm Hdirty n b Hb. destruct (Hg r eq_refl) as (_ & Hwh & _ & Hst & _).
  destruct (whole r) eqn:Ewh.
  2: { exfalso. apply (sh_generation _ Hs); [by apply Hwh | ]. cbn in Hst |- *. by rewrite Hst. }
  destruct (sh_cap _ Hs (ceiling r) (at_membership r) eq_refl) as (_ & _ & Hc). pose proof (sh_born _ Hs n b Hb) as Hborn. cbn in Hborn. rewrite Hm in Hborn. apply (Hc n b Hb) in Hborn.
  specialize (Hw r s n b eq_refl Ewh Hb Hborn). apply list_elem_of_fmap in Hw as (x & -> & Hxs).
  assert (sample_of (Writing r s) (s_slot x) = Some x) as Ex by (by apply sample_of_slot).
  assert (b_dirty b = false) as Hclean by (destruct (b_dirty b) eqn:E; [destruct Hdirty; by exists (s_slot x), b | done]).
  destruct (Hd (s_slot x) b Hb) as [Er _]; [right; left; by exists x | done | ]. unfold target in Er. cbn [phase] in Er. rewrite Ex in Er. cbn [from_option] in Er.
  destruct (Hx x Hxs) as (b' & Hb' & Hk). cbn in Hb, Hb'. rewrite Hb in Hb'. injection Hb' as <-. pose proof (so_pages _ _ _ Hk Er) as Hdom.
  rewrite forallb_forall in Hres. specialize (Hres x (proj1 (list_elem_of_In _ _) Hxs)). unfold resident in Hres. rewrite negb_involutive, bool_decide_eq_true in Hres.
  rewrite Hres, dom_empty_L in Hdom. apply dom_empty_inv_L in Hdom. by rewrite Hdom.
Qed.

Lemma shard_nothing_inv w : inv w -> inv (nothing_to_flush w).
Proof.
  unfold nothing_to_flush. destruct w as [g t [es l] [| | |r s| |]]; cbn [phase registry disk fst snd]; try done. intros Hi. destruct (_ && _) eqn:E; [ | done].
  repeat apply andb_true_iff in E as [E ?]. destruct es; [ | done]. destruct l; [ | done].
  destruct (sa_gone _ (i_sampling _ Hi) r eq_refl) as (_ & _ & _ & Hst & _). cbn in Hst. assert (full (state g) = true) as Hf by (by rewrite Hst).
  apply full_inv; try done.
  - refine (finished_shape g t _ r _ _ _ (i_shape _ Hi) _); [done | done | congruence].
  - apply (rv_order _ (i_revisions _ Hi)).
  - apply (rv_marked _ (i_revisions _ Hi)).
  - apply (tm_blocks _ (i_times _ Hi)).
  - intros _. destruct (decide (membership g = at_membership r)) as [Hm|Hm]; [ | left; by left]. destruct (any_dirty g) eqn:Ed.
    + left. right; left. by apply any_dirty_spec.
    + right. split; [done | ]. eapply (nothing_vacant g t r s); [done | by apply Z.eqb_eq | done | done | ]. intros Hd%any_dirty_spec. congruence.
Qed.

(** ** A flush succeeds *)

Lemma flush_journal whole j bytes j' : (flush 0 1 j whole bytes).2 = Ok j' -> 0 <= generation j -> (whole = false -> generation j <> 0) -> full j' = false /\ 0 < generation j'.
Proof.
  destruct (flush 0 1 j whole bytes) as [ops r] eqn:E. cbn [snd]. intros -> Hj Hw. destruct whole.
  - apply AccessCrash.flush_full_ops in E as (_ & -> & _). cbn. lia.
  - specialize (Hw eq_refl). apply AccessCrash.flush_delta_ops in E as [(_ & _ & ->)|[_ ->]]; cbn; lia.
Qed.

Lemma plain_entries s x : NoDup (s_id <$> s) -> x ∈ s -> plain (flush_entries s, []) (s_id x) = if resident x then ages (s_snapshot x) else ∅.
Proof.
  intros Hn Hx. unfold plain, flush_entries. cbn [fst snd foldl]. induction s as [|y s IH]; [by apply elem_of_nil in Hx | ]. rewrite fmap_cons in Hn. apply NoDup_cons in Hn as [Hy Hn].
  assert (forall l : list Sample, s_id x ∉ s_id <$> l -> (list_to_map ((fun z => (s_id z, s_snapshot z)) <$> filter (fun z => resident z = true) l) : gmap BlockId AccessSnapshot) !! s_id x = None) as Hnone.
  { intros l Hl. apply not_elem_of_list_to_map_1. rewrite <-list_fmap_compose. intros (z & E & [_ Hz]%list_elem_of_filter)%list_elem_of_fmap. apply Hl. rewrite E. by apply list_elem_of_fmap_2. }
  apply elem_of_cons in Hx as [->|Hx]; rewrite filter_cons.
  - destruct (resident y) eqn:E; [ | rewrite decide_False, Hnone by done; done]. rewrite decide_True by done. rewrite fmap_cons. cbn [list_to_map foldr fst snd]. by rewrite lookup_insert_eq.
  - assert (s_id y <> s_id x) by (intros E; apply Hy; rewrite E; by apply list_elem_of_fmap_2). destruct (decide (resident y = true)); [ | by apply IH].
    rewrite fmap_cons. cbn [list_to_map foldr fst snd]. rewrite lookup_insert_ne by done. by apply IH.
Qed.

Lemma plain_absent s id : id ∉ s_id <$> s -> plain (flush_entries s, []) id = ∅.
Proof.
  intros Hn. unfold plain, flush_entries. cbn [fst snd foldl]. rewrite not_elem_of_list_to_map_1; [done | ]. rewrite <-list_fmap_compose.
  intros (z & E & [_ Hz]%list_elem_of_filter)%list_elem_of_fmap. apply Hn. rewrite E. by apply list_elem_of_fmap_2.
Qed.

Lemma plain_changes c r t s id : plain (c.1, c.2 ++ flush_changes r t s) id =
  foldl (effect id) (if decide (id ∈ tombstones r) then ∅ else plain c id) ((fun x => (s_id x, s_snapshot x, s_replace x)) <$> s).
Proof. rewrite plain_app. unfold flush_changes. by rewrite foldl_app, effects_gone. Qed.

Lemma samples_apart w (l : list Sample) : shape w -> NoDup (s_slot <$> l) -> (forall x, x ∈ l -> exists b, block_at w (s_slot x) b /\ sample_ok (clock w) x b) -> NoDup (s_id <$> l).
Proof.
  intros Hs. induction l as [|x l IH]; intros Hn Hx; [constructor | ].
  rewrite fmap_cons in Hn. rewrite fmap_cons. apply NoDup_cons in Hn as [Hn Hnd]. constructor; [ | apply IH; [done | intros y Hy; apply Hx; by right]].
  intros (y & E & Hy)%list_elem_of_fmap. apply Hn. destruct (Hx x) as (b & Hb & Hk); [by left | ]. destruct (Hx y) as (b' & Hb' & Hk'); [by right | ].
  apply list_elem_of_fmap. exists y. split; [ | done]. apply (sh_ids _ Hs _ _ b b'); [done | done | ]. by rewrite <-(so_id _ _ _ Hk), <-(so_id _ _ _ Hk').
Qed.

Section Flushed.
Context (g : Registry) (t : Z) (d : Content) (r : Run) (s : list Sample) (j : JournalState).
Context (Hj : full j = false) (Hpos : 0 < generation j).

Abbreviation w := (mkWorld g t d (Writing r s)).
Abbreviation content := (if whole r then (flush_entries s, []) else (d.1, d.2 ++ flush_changes r t s)).
Abbreviation w' := (mkWorld (set_state j g) t content (Committing r s)).

Context (Hi : inv w).

Lemma sample_ids : NoDup (s_id <$> s).
Proof. apply (samples_apart w); [apply Hi | apply (sa_slots _ (i_sampling _ Hi)) | apply (sa_samples _ (i_sampling _ Hi))]. Qed.

(** In the slots that the checkpoint covers every block is sampled, or nothing was noted of it. *)
Lemma all_noted n b : block_at w n b -> noted w n.
Proof.
  intros Hb. destruct (decide (n <= ceiling r)) as [Hl|Hl]; [ | right; right; exists (ceiling r), (at_membership r); split; [done | lia]].
  destruct (sa_gone _ (i_sampling _ Hi) r eq_refl) as (_ & Hw & _). destruct (whole r) eqn:E; [ | left; by apply Hw].
  right; left. pose proof (sa_written _ (i_sampling _ Hi) r s n b eq_refl E Hb Hl) as (x & -> & Hx)%list_elem_of_fmap. exists x. apply sample_of_slot; [ | done].
  apply (sa_slots _ (i_sampling _ Hi)).
Qed.

Lemma flushed_shape : shape w'.
Proof. destruct (i_shape _ Hi). constructor; cbn [registry set_state state]; try done; lia. Qed.

Lemma flushed_sampling : sampling w'.
Proof. destruct (i_sampling _ Hi). by constructor. Qed.

Lemma flushed_revisions : revisions w'.
Proof.
  destruct (i_revisions _ Hi) as [? Hd Hm ? ?]. constructor; [done | | | done | done].
  - intros n b Hb _. apply (Hd n b Hb). by eapply all_noted.
  - intros n b p Hb _. apply (Hm n b p Hb). by eapply all_noted.
Qed.

Lemma covered_settled n b : block_at w n b -> n <= ceiling r -> ~ pend w' (b_id b).
Proof.
  intros Hb Hl (k & Hk & E). cbn in Hk. destruct (sh_cap _ (i_shape _ Hi) (ceiling r) (at_membership r) eq_refl) as (_ & _ & Hc). apply (Hc n b Hb) in Hl.
  pose proof (sh_after _ (i_shape _ Hi) k n b E Hb). lia.
Qed.

Lemma pend_split id : pend w id <-> id ∈ tombstones r \/ pend w' id.
Proof.
  destruct (sa_gone _ (i_sampling _ Hi) r eq_refl) as (Ht & _). pose proof (sh_cap _ (i_shape _ Hi) (ceiling r) (at_membership r) eq_refl) as (_ & Hc & _). rewrite Ht. unfold pend, gone_until. cbn in *. split.
  - intros (k & Hk & E). destruct (decide (k <= at_membership r)); [left | right]; exists k; split; [done.. | lia | done].
  - intros [(k & Hk & E)|(k & Hk & E)]; exists k; (split; [ | done]); [ | lia]. pose proof (sh_removed _ (i_shape _ Hi) k id E). cbn in *. lia.
Qed.

(** What was on the disk before a flush of changes. *)
Lemma not_stale_before : whole r = false -> ~ stale w' -> ~ stale w.
Proof.
  intros Hw Hst [E|E]; destruct (sa_gone _ (i_sampling _ Hi) r eq_refl) as (_ & Hf & Hov & _); specialize (Hf Hw).
  - unfold mode_full in E. cbn in E. congruence.
  - specialize (Hov Hf). unfold gone_until in E. cbn in *. apply Hst. right. unfold gone_until. cbn. pose proof (sh_member _ (i_shape _ Hi)). cbn in *. lia.
Qed.

Lemma replaced_ages x b p : sample_ok t x b -> s_replace x = true -> ages (s_snapshot x) !! p = known_ages (s_pages x) !! p.
Proof. intros Hk E. rewrite (so_ages _ _ _ Hk). f_equal. apply map_filter_id. intros i a _. by left. Qed.

Lemma sampled_saved n b x p : ~ stale w' -> block_at w n b -> sample_of (Writing r s) n = Some x -> b_revision b = sampled_revision x -> p ∉ b_marks b ->
  plain content (b_id b) !! p = known_ages (b_pages b) !! p.
Proof.
  intros Hst Hb Ex Er Hp. apply sample_of_in in Ex as Ex'. destruct Ex' as [Hx Hn]. cbn [samples_of] in Hx. destruct (sa_samples _ (i_sampling _ Hi) x Hx) as (b' & Hb' & Hk).
  cbn in Hb, Hb'. rewrite Hn, Hb in Hb'. injection Hb' as <-. destruct (sa_held _ (i_sampling _ Hi) n) as (c & m & _ & [= <- <-] & Hl & _); [subst n; by apply list_elem_of_fmap_2 | ].
  destruct (sa_gone _ (i_sampling _ Hi) r eq_refl) as (_ & _ & _ & _ & Hrep). pose proof (so_known _ _ _ Hk Er p Hp) as Hpages. rewrite Hpages, <-(so_id _ _ _ Hk). destruct (whole r) eqn:Ew.
  - rewrite plain_entries by (done || apply sample_ids). unfold resident. case_bool_decide as Epages; cbn [negb]; [by rewrite Epages | ]. by eapply replaced_ages; [ | apply Hrep].
  - rewrite plain_changes, effects_sample by (done || apply sample_ids). destruct (s_replace x) eqn:Ep; [by eapply replaced_ages | ]. destruct (so_merge _ _ _ Hk Ep) as [Ec Hmk].
    rewrite lookup_union, (so_ages _ _ _ Hk). destruct (decide (p ∈ s_marks x)) as [Hin|Hin].
    + destruct (Hmk p Hin) as [a Ha]. rewrite (map_lookup_filter_Some_2 _ _ p a) by auto. rewrite Ha. apply union_Some_l.
    + rewrite map_lookup_filter_None_2 by (right; intros a _ [E|E]; [congruence | done]). rewrite (left_id_L None (∪)).
      destruct (od_blocks _ (i_disk _ Hi) (not_stale_before Ew Hst) n b p Hb) as [H1 H2]; [cbn; lia | done | unfold taken; cbn [phase]; by rewrite Ex | ].
      rewrite (so_id _ _ _ Hk). rewrite pend_split in H1, H2. pose proof (covered_settled n b Hb Hl). rewrite <-Hpages. destruct (decide _); [symmetry; apply H1; by left | apply H2; tauto].
Qed.

(** Blocks of which no sample was taken. *)
Lemma unsampled_changes id : id ∉ s_id <$> s -> plain (d.1, d.2 ++ flush_changes r t s) id = if decide (id ∈ tombstones r) then ∅ else plain d id.
Proof.
  intros Hn. rewrite plain_changes. apply effects_other. rewrite Forall_forall. intros x Hx E. apply Hn. rewrite <-E. by apply list_elem_of_fmap_2.
Qed.

Lemma unsampled_id n b : block_at w n b -> sample_of (Writing r s) n = None -> b_id b ∉ s_id <$> s.
Proof.
  intros Hb En (x & E & Hx)%list_elem_of_fmap. pose proof (sample_of_none (Writing r s) n x En Hx) as Hne. destruct (sa_samples _ (i_sampling _ Hi) x Hx) as (b' & Hb' & Hk).
  apply Hne. apply (sh_ids _ (i_shape _ Hi) _ _ b' b); [done | done | ]. by rewrite <-(so_id _ _ _ Hk).
Qed.

Lemma unsampled_saved n b p : ~ stale w' -> block_at w n b -> sample_of (Writing r s) n = None -> b_revision b = b_checkpointed b -> p ∉ b_marks b ->
  (pend w' (b_id b) -> known_ages (b_pages b) !! p = None) /\ (~ pend w' (b_id b) -> plain content (b_id b) !! p = known_ages (b_pages b) !! p).
Proof.
  intros Hst Hb En Er Hp. pose proof (unsampled_id n b Hb En) as Hid. destruct (decide (n <= ceiling r)) as [Hl|Hl].
  - pose proof (covered_settled n b Hb Hl). split; [done | ]. intros _. destruct (whole r) eqn:Ew.
    + pose proof (sa_written _ (i_sampling _ Hi) r s n b eq_refl Ew Hb Hl) as (x & -> & Hx)%list_elem_of_fmap. by eapply (sample_of_none (Writing r s)) in En.
    + destruct (od_blocks _ (i_disk _ Hi) (not_stale_before Ew Hst) n b p Hb) as [H1 H2]; [done | done | unfold taken; cbn [phase]; by rewrite En | ]. rewrite pend_split in H1, H2.
      rewrite unsampled_changes by done. destruct (decide _); [symmetry; apply H1; by left | apply H2; tauto].
  - destruct (rv_new _ (i_revisions _ Hi) n b (ceiling r) (at_membership r) Hb eq_refl) as [Ec Hz]; [lia | ]. rewrite Hz by (done || lia). split; [done | ]. intros Hnp. destruct (whole r) eqn:Ew.
    + by rewrite plain_absent.
    + destruct (od_blocks _ (i_disk _ Hi) (not_stale_before Ew Hst) n b p Hb) as [H1 H2]; [done | done | unfold taken; cbn [phase]; by rewrite En | ]. rewrite pend_split in H1, H2. rewrite Hz in H1, H2 by (done || lia).
      rewrite unsampled_changes by done. destruct (decide _); [done | apply H2; tauto].
Qed.

Lemma flushed_disk : on_disk w'.
Proof.
  constructor; intros Hst.
  - intros n b p Hb Er Hp _. cbn [disk]. change (b_revision b = target (Writing r s) n b) in Er. unfold target in Er. destruct (sample_of (Writing r s) n) as [x|] eqn:Ex; cbn [from_option] in Er.
    + apply sample_of_in in Ex as Ex'. destruct Ex' as [Hx Hn]. destruct (sa_held _ (i_sampling _ Hi) n) as (c & m & _ & [= <- <-] & Hl & _); [subst n; by apply list_elem_of_fmap_2 | ].
      pose proof (covered_settled n b Hb Hl). split; [done | ]. intros _. by eapply sampled_saved.
    + by apply (unsampled_saved n).
  - intros id Hid. cbn [disk]. assert (id ∉ s_id <$> s) as Hn.
    { intros (x & -> & Hx)%list_elem_of_fmap. destruct (sa_samples _ (i_sampling _ Hi) x Hx) as (b & Hb & Hk). apply (Hid _ _ Hb). by rewrite (so_id _ _ _ Hk). }
    destruct (whole r) eqn:Ew; [left; by apply plain_absent | ]. rewrite unsampled_changes by done. destruct (decide _); [by left | ].
    destruct (od_gone _ (i_disk _ Hi) (not_stale_before Ew Hst) id Hid) as [?|Hpe]; [by left | ]. apply pend_split in Hpe. tauto.
Qed.

Lemma flushed_times : times w'.
Proof.
  destruct (i_times _ Hi) as [? Ht Hn He Hc]. pose proof (sa_samples _ (i_sampling _ Hi)) as Hx. destruct (sa_gone _ (i_sampling _ Hi) r eq_refl) as (_ & Hf & _).
  assert (forall x, x ∈ s -> timely_entry t (s_snapshot x) = true /\ snapshot_ordered (s_snapshot x)) as Hs by (intros x Hi'; destruct (Hx x Hi') as (b & _ & []); done).
  constructor; [done | cbn [clock disk]; intros _..]; destruct (whole r); cbn [fst snd]; try specialize (Hf eq_refl).
  - unfold timely_content. cbn [fst snd]. apply andb_true_iff. split; [ | done]. apply forallb_forall. intros e (x & -> & [_ Hi']%list_elem_of_filter)%list_elem_of_In%list_elem_of_fmap. by apply Hs.
  - specialize (Ht Hf). unfold timely_content, flush_changes in *. cbn [fst snd disk clock] in *. apply andb_true_iff in Ht as [Ht1 Ht2]. rewrite Ht1, !forallb_app, Ht2. cbn [andb].
    apply andb_true_iff. split; apply forallb_forall; intros e (x & -> & Hi')%list_elem_of_In%list_elem_of_fmap; cbn [fst snd]; [ | by apply Hs]. unfold timely_entry. cbn. by rewrite Z.leb_refl.
  - unfold flush_entries. rewrite <-list_fmap_compose. eapply sublist_NoDup; [apply sample_ids | ]. apply (fmap_sublist s_id), sublist_filter.
  - by apply Hn.
  - apply Forall_forall. intros e (x & -> & [_ Hi']%list_elem_of_filter)%list_elem_of_fmap. by apply Hs.
  - by apply He.
  - constructor.
  - apply Forall_app. split; [by apply Hc | ]. apply Forall_app. split; apply Forall_forall; intros e (x & -> & Hi')%list_elem_of_fmap; cbn [fst snd]; [ | by apply Hs]. constructor.
Qed.

Lemma flushed_inv : inv w'.
Proof. constructor; [apply flushed_shape | apply flushed_sampling | apply flushed_revisions | apply flushed_disk | done | apply flushed_times]. Qed.
End Flushed.

Lemma shard_flush_inv `{Xxh3} `{IdJson} ps w : inv w -> inv (flush_done ps w).
Proof.
  unfold flush_done. destruct w as [g t d [| | |r s| |]]; cbn [phase registry clock disk]; try done. intros Hi. destruct (if whole r then _ else _) as [bytes|]; [ | done]. destruct (_.2) as [j|] eqn:E; [ | done].
  destruct (sa_gone _ (i_sampling _ Hi) r eq_refl) as (_ & Hw & _ & Est & _). cbn in Est. apply flush_journal in E as [Hf Hp].
  - by apply flushed_inv.
  - pose proof (sh_counted _ (i_shape _ Hi)) as Hc. cbn in Hc. by rewrite Est in Hc.
  - intros Ew. pose proof (sh_generation _ (i_shape _ Hi) (Hw Ew)) as Hc. cbn in Hc. by rewrite Est in Hc.
Qed.
Lemma shard_retire_inv slot w : inv w -> inv (retire_empty slot w).
Proof.
  intros Hi. unfold retire_empty. destruct (ordered (registry w) !! slot) as [b|] eqn:Hb; [ | done]. destruct (_ && _) eqn:E; [ | done].
  apply andb_true_iff in E as [_ E]. apply negb_true_iff, bool_decide_eq_false in E. apply retired_inv; [done | apply Hi | done | done].
Qed.

Section Runs.
Context `{Xxh3} `{IdJson} (ps : Z).

Lemma shard_step_inv w e : inv w -> inv (step ps w e).
Proof.
  intros Hi. destruct e; cbn [step]; auto using shard_clock_inv, shard_retire_inv, shard_start_inv, shard_journal_inv, shard_batch_inv, shard_sample_inv, shard_flush_inv, shard_failed_inv, shard_restore_inv, shard_commit_inv, shard_finish_inv, shard_nothing_inv.
  - destruct (ages_until _ _) eqn:E; [ | done]. destruct (has_id id (registry w)) eqn:Eid; [ | apply added_inv; [done | done | apply Hi | done]].
    unfold add_block. rewrite Eid. by destruct w.
  - destruct (Z.leb_spec t (clock w)); [ | done]. apply touched_inv; [ | done]. intros b. by apply read_page_event.
  - destruct (ages_until _ _) eqn:E; [ | done]. apply touched_inv; [ | done]. intros b. by apply change_pages_event.
Qed.

Lemma shard_run_inv w es : inv w -> inv (run ps w es).
Proof. revert w. unfold run. induction es as [|e es IH]; intros w Hi; [done | ]. cbn [foldl]. by apply IH, shard_step_inv. Qed.
End Runs.

Lemma startup_at blocks recovered t n b : block_at (startup blocks recovered t) n b ->
  exists i x, blocks !! i = Some x /\ n = Z.of_nat i + 1 /\ b = mkBlock x.1 x.2 ∅ 0 0 false n.
Proof.
  unfold startup. cbn [registry ordered]. intros (i & x & E & Hi)%elem_of_list_to_map_2%elem_of_lookup_imap. injection E as -> ->. by exists i, x.
Qed.

Lemma shard_startup_inv blocks recovered t : NoDup blocks.*1 -> forallb (fun x => ages_until t x.2) blocks = true -> match recovered with Some (_, g) => 0 <= g | None => True end ->
  inv (startup blocks recovered t).
Proof.
  intros Hn Ht Hg. rewrite forallb_forall in Ht. set (w := startup blocks recovered t).
  assert (membership (registry w) = Z.of_nat (length blocks) + match recovered with Some _ => 1 | None => 0 end) as Em by (cbn; destruct recovered; lia).
  assert (forall n b, block_at w n b -> 0 < n <= Z.of_nat (length blocks) /\ b_born b = n) as Hat.
  { intros n b (i & x & Hi & -> & ->)%startup_at. apply lookup_lt_Some in Hi. cbn. lia. }
  apply full_inv; try done.
  - constructor; try done.
    + intros n b Hb. cbn. apply Hat in Hb. lia.
    + cbn. lia.
    + intros n b Hb. apply Hat in Hb. rewrite Em. destruct recovered; lia.
    + intros n n' b b' (i & x & Hi & -> & ->)%startup_at (i' & x' & Hi' & -> & ->)%startup_at E. cbn in E.
      assert (i = i') as -> by (eapply (NoDup_lookup blocks.*1); [done | by rewrite list_lookup_fmap, Hi | by rewrite list_lookup_fmap, Hi', E]). done.
    + by left.
    + rewrite Em. cbn. destruct recovered; lia.
    + cbn. destruct recovered as [[c g]|]; [done | lia].
  - intros n b (i & x & _ & _ & ->)%startup_at. cbn. lia.
  - by intros n b (i & x & _ & _ & ->)%startup_at.
  - intros n b p a (i & x & Hi & _ & ->)%startup_at. apply known_until, Ht. apply list_elem_of_In. by eapply list_elem_of_lookup_2.
  - intros _. destruct (decide (membership (registry w) = 0)) as [E|E]; [ | left; by left]. right. rewrite Em in E. destruct recovered as [[c g]|]; [lia | ]. split; [done | ].
    intros n b Hb%Hat. lia.
Qed.

(** ** What a restart would load *)

Lemma quiet_saved w now : inv w -> phase w = Idle -> membership (registry w) = checkpointed_membership (registry w) -> any_dirty (registry w) = false -> clock w <= now ->
  (forall n b, ordered (registry w) !! n = Some b -> loaded now (disk w) (b_id b) = known_ages (b_pages b)) /\
  (forall id, has_id id (registry w) = false -> loaded now (disk w) id = ∅).
Proof.
  intros [Hs _ Hr Hd Hl Ht] Hp Hm Hc Hnow.
  assert (forall n b, block_at w n b -> b_dirty b = false) as Hclean.
  { intros n b Hb. destruct (b_dirty b) eqn:E; [ | done]. assert (any_dirty (registry w) = true) by (apply any_dirty_spec; by exists n, b). congruence. }
  destruct (full (state (registry w))) eqn:Ef.
  - assert (vacant w) as [Ed Hv]; [ | rewrite Ed; split; [intros n b Hb; by rewrite (Hv n b Hb) | done]].
    unfold restless in Hl. rewrite Hp in Hl. destruct (Hl Ef) as [[?|[(n & b & Hb & E)|(x & b & Hx & _)]]|?]; [done | | | done].
    + apply Hclean in Hb. congruence.
    + rewrite Hp in Hx. by apply elem_of_nil in Hx.
  - assert (mode_full w = false) as Emode by (unfold mode_full; by rewrite Hp). assert (gone_until w = membership (registry w)) as Eg by (unfold gone_until; by rewrite Hp, Hm).
    assert (~ stale w) as Hst by (intros [?|E]; [congruence | rewrite Eg in E; pose proof (sh_overflow _ Hs); pose proof (sh_member _ Hs); lia]).
    assert (forall id, ~ pend w id) as Hnp by (intros id (k & Hk & E); rewrite Eg in Hk; pose proof (sh_removed _ Hs k id E); lia).
    destruct Ht as [_ H1 H2 H3 H4]. assert (forall id, loaded now (disk w) id = plain (disk w) id) as El by (intros id; apply (loaded_plain (clock w)); auto). split.
    + intros n b Hb. rewrite El. apply map_eq. intros p. destruct (rv_dirty _ Hr n b Hb) as [Er Emarks]; [by left | by apply (Hclean n) | ].
      apply (od_blocks _ Hd Hst n b p Hb); [ | by rewrite Emarks | by rewrite Hp | apply Hnp]. rewrite Er, Hp. done.
    + intros id Hid. rewrite El. destruct (od_gone _ Hd Hst id) as [E|E]; [ | done | by apply Hnp in E]. intros n b. by apply has_id_false.
Qed.

(** C31: when no checkpoint of a shard is running, and the next one would find nothing to do, the files hold exactly the ages in memory: a restart
    would load for every registered block the ages of its pages, and nothing for any other block. This is so after every sequence of
    registrations, retirements, reads, changes of the page table, clock steps and steps of checkpoints, wherever checkpoints fail
    and whatever a failed flush leaves in the files. *)
Theorem quiet_shard_saved `{Xxh3} `{IdJson} ps blocks recovered t es now :
  let w := run ps (startup blocks recovered t) es in
  NoDup blocks.*1 -> forallb (fun x => ages_until t x.2) blocks = true -> match recovered with Some (_, g) => 0 <= g | None => True end ->
  phase w = Idle -> membership (registry w) = checkpointed_membership (registry w) -> any_dirty (registry w) = false -> clock w <= now ->
  (forall n b, ordered (registry w) !! n = Some b -> loaded now (disk w) (b_id b) = known_ages (b_pages b)) /\
  (forall id, has_id id (registry w) = false -> loaded now (disk w) id = ∅).
Proof. intros w Hn Ht Hg Hp Hm Hd Hnow. apply quiet_saved; [by apply shard_run_inv, shard_startup_inv | done..]. Qed.
#[local] Existing Instance toy_xxh3.
#[local] Existing Instance toy_json.

(** A block is read, flushed, read and flushed again; then it is retired, registered anew, and the removal and the new block are flushed together. *)
Definition demo_flush : list Event := [Start; Journal; Batch; SampleNext; Batch; FlushDone; CommitNext; Finish].
Definition demo_events : list Event :=
  [Clock 10; Add demo_id {[0 := None]}; Read 1 0 5] ++ demo_flush ++ [Read 1 0 8] ++ demo_flush ++
  [Change 1 ∅; Retire 1; Add demo_id {[3 := None]}; Read 2 3 9] ++ demo_flush.
Abbreviation demo_world := (run 16 (startup [] None 0) demo_events).

Lemma quiet_shard_saved_witness : ordered (registry demo_world) !! 2 = Some (mkBlock demo_id {[3 := Some 9]} ∅ 0 0 false 3) /\ loaded 20 (disk demo_world) demo_id = {[3 := 9]}.
Proof.
  assert (ordered (registry demo_world) !! 2 = Some (mkBlock demo_id {[3 := Some 9]} ∅ 0 0 false 3)) as E by (vm_compute; reflexivity).
  split; [exact E | ]. pose proof (quiet_shard_saved 16 [] None 0 demo_events 20) as Hq. cbv zeta in Hq.
  destruct Hq as [Hq _]; [constructor | reflexivity | exact I | vm_compute; reflexivity | vm_compute; reflexivity | vm_compute; reflexivity | vm_compute; discriminate | ].
  refine (eq_trans (Hq 2 _ E) _). vm_compute. reflexivity.
Defined.
End ShardSaved.
