(* ===== verification/MemoryStore.v ===== *)
(** The in-memory page cache (crates/talon-worker/src/memory_store.rs): a least-recently-used cache of fixed-size
    pages, bounded in bytes, and the counters that the caches of several namespaces share.

    The mutex makes an operation atomic towards its own store. The shared counters are changed by atomic
    instructions that operations of other stores may come between, so an operation is a [Prog]: the
    instructions it executes, and what it does with their answers. *)

From stdpp Require Import gmap.
From S2P Require Import Prelude External Key.

#[local] Set Warnings "-clear-no-such-hyp".

Module MemoryStore.
Import Key.

Record MemoryPageKey := mkKey { block : BlockId; page : Z }.

#[export] Instance MemoryPageKey_eq_dec : EqDecision MemoryPageKey.
Proof. solve_decision. Defined.
#[export] Instance MemoryPageKey_countable : Countable MemoryPageKey.
Proof. apply (inj_countable' (fun k => (block k, page k)) (fun '(b, p) => mkKey b p)). by intros []. Defined.

Inductive MemoryInsert := Disabled | TooLarge | Inserted (evicted : list MemoryPageKey).

(** [budget] is the bytes of the guard. *)
Record Entry := mkEntry { budget : option Z; value : list byte; last_used : Z }.

Definition len (e : Entry) : Z := Z.of_nat (length (value e)).

(** [HashMap] iterates its entries in some order, which need not be the same at another time. *)
Class HashOrder := {
  order : Z -> gmap MemoryPageKey Entry -> list (MemoryPageKey * Entry);
  order_perm : forall clock m, order clock m ≡ₚ map_to_list m
}.

Record Inner := mkInner { entries : gmap MemoryPageKey Entry; resident_bytes : Z; clock : Z }.

Record Store := mkStore { shared_budget : bool; inner : Inner; capacity_bytes : Z; page_size_bytes : Z }.

Definition with_limits (capacity page_size : Z) : Store := mkStore false (mkInner ∅ 0 0) capacity page_size.
Definition disabled : Store := with_limits 0 0.
Definition with_shared_budget (capacity page_size : Z) : Store := mkStore true (mkInner ∅ 0 0) capacity page_size.

Definition is_enabled (st : Store) : bool :=
  (0 <? capacity_bytes st) && (0 <? page_size_bytes st) && (page_size_bytes st <=? capacity_bytes st).

Definition set_inner (i : Inner) (st : Store) : Store := mkStore (shared_budget st) i (capacity_bytes st) (page_size_bytes st).

Definition tick (i : Inner) : Inner := mkInner (entries i) (resident_bytes i) (saturating_add 64 (clock i) 1).

Definition len_pages (st : Store) : nat := size (entries (inner st)).

Definition contains_page (st : Store) (b : BlockId) (p : Z) : bool := bool_decide (is_Some (entries (inner st) !! mkKey b p)).

(** *** Reading *)

(** Mark an entry as used. *)
Definition touch (k : MemoryPageKey) (i : Inner) : option (Entry * Inner) :=
  e ← entries i !! k;
  let e := mkEntry (budget e) (value e) (clock i) in
  Some (e, mkInner (<[k := e]> (entries i)) (resident_bytes i) (clock i)).

Definition get_page (st : Store) (b : BlockId) (p : Z) : option (list byte) * Store :=
  let i := tick (inner st) in
  match touch (mkKey b p) i with
  | Some (e, i) => (Some (value e), set_inner i st)
  | None => (None, set_inner i st)
  end.

(** The first loop of [get_range]: is the range of every page resident? *)
Definition covered (i : Inner) (b : BlockId) (page_size end_ p : Z) : bool :=
  (p <? 2 ^ 32) &&
  match entries i !! mkKey b p with
  | Some e => Z.min end_ (p * page_size + page_size) - p * page_size <=? len e
  | None => false
  end.

(** The last loop: the bytes of every page. *)
Fixpoint stitch (i : Inner) (b : BlockId) (page_size offset end_ : Z) (pages : list Z) : option (list byte * Inner) :=
  match pages with
  | [] => Some ([], i)
  | p :: pages =>
    '(e, i) ← touch (mkKey b p) i;
    let page_start := p * page_size in
    let start := saturating_sub offset page_start in
    let take_end := Z.min end_ (page_start + page_size) - page_start in
    '(out, i) ← stitch i b page_size offset end_ pages;
    Some (slice (Z.to_nat start) (Z.to_nat (take_end - start)) (value e) ++ out, i)
  end.

(** The range of whole numbers [first..=last]. *)
Definition inclusive (first last : Z) : list Z := seqZ first (last - first + 1).

(** [None] inside is a miss; a [?] that cannot happen after the check is a miss too. *)
Definition get_range (st : Store) (b : BlockId) (offset n : Z) : option (list byte) * Store :=
  if n =? 0 then (Some [], st) else
  let end_ := offset + n in
  if 2 ^ 64 <=? end_ then (None, st) else
  let page_size := page_size_bytes st in
  if negb (is_enabled st) || (block_size b <? end_) then (None, st) else
  let first := offset / page_size in
  let last := (end_ - 1) / page_size in
  if negb (forallb (covered (inner st) b page_size end_) (inclusive first last)) then (None, st) else
  let i := tick (inner st) in
  if first =? last then
    match touch (mkKey b first) i with
    | Some (e, i) => (Some (slice (Z.to_nat (offset mod page_size)) (Z.to_nat n) (value e)), set_inner i st)
    | None => (None, set_inner i st)
    end
  else
    match stitch i b page_size offset end_ (inclusive first last) with
    | Some (out, i) => (Some out, set_inner i st)
    | None => (None, set_inner i st)
    end.

(** *** The shared counters *)

(** The atomic instructions of an operation. [FetchUpdate] adds to the bytes unless the sum passes the capacity. *)
Inductive Prog (A : Type) : Type :=
  | Ret (a : A)
  | FetchUpdate (n capacity : Z) (k : bool -> Prog A)
  | PagesAdd (k : Prog A)
  | PagesSub (k : Prog A)
  | BytesSub (n : Z) (k : Prog A).
Arguments Ret {A}.
Arguments FetchUpdate {A}.
Arguments PagesAdd {A}.
Arguments PagesSub {A}.
Arguments BytesSub {A}.

(** Dropping an entry drops its guard. *)
Definition drop_entry {A} (e : Entry) (k : Prog A) : Prog A :=
  match budget e with Some n => PagesSub (BytesSub n k) | None => k end.

(** *** Writing *)

Section Write.
Context `{HashOrder}.

(** [min_by_key]: the first of the least. *)
Fixpoint min_by_last_used (l : list (MemoryPageKey * Entry)) : option (MemoryPageKey * Entry) :=
  match l with
  | [] => None
  | e :: l =>
    match min_by_last_used l with
    | Some e' => if last_used e.2 <=? last_used e'.2 then Some e else Some e'
    | None => Some e
    end
  end.

Definition coldest (i : Inner) : option MemoryPageKey := fst <$> min_by_last_used (order (clock i) (entries i)).

(** Take an entry out; the result is what is left. *)
Definition without (k : MemoryPageKey) (e : Entry) (i : Inner) : Inner :=
  mkInner (delete k (entries i)) (saturating_sub (resident_bytes i) (len e)) (clock i).

(** The loop that reserves room in the shared budget: [Some None] is [TooLarge], [None] a panic. *)
Fixpoint reserve (fuel : nat) (st : Store) (n : Z) (evicted : list MemoryPageKey) : Prog (option (option (list MemoryPageKey) * Store)) :=
  match fuel with
  | O => Ret None
  | S fuel =>
    FetchUpdate n (capacity_bytes st) (fun ok =>
    if ok then PagesAdd (Ret (Some (Some evicted, st))) else
    match coldest (inner st) with
    | None => Ret (Some (None, st))
    | Some victim =>
      match entries (inner st) !! victim with
      | None => Ret None
      | Some e =>
        if resident_bytes (inner st) <? len e then Ret None else
        drop_entry e (reserve fuel (set_inner (without victim e (inner st)) st) n (evicted ++ [victim]))
      end
    end)
  end.

(** The loop that keeps the store within its capacity. *)
Fixpoint evict (fuel : nat) (st : Store) (evicted : list MemoryPageKey) : Prog (option (MemoryInsert * Store)) :=
  if resident_bytes (inner st) <=? capacity_bytes st then Ret (Some (Inserted evicted, st)) else
  match fuel with
  | O => Ret None
  | S fuel =>
    match coldest (inner st) with
    | None => Ret (Some (Inserted evicted, st))
    | Some victim =>
      match entries (inner st) !! victim with
      | None => evict fuel st evicted
      | Some e => drop_entry e (evict fuel (set_inner (without victim e (inner st)) st) (evicted ++ [victim]))
      end
    end
  end.

Fixpoint bind_prog {A B} (p : Prog A) (f : A -> Prog B) : Prog B :=
  match p with
  | Ret a => f a
  | FetchUpdate n c k => FetchUpdate n c (fun ok => bind_prog (k ok) f)
  | PagesAdd k => PagesAdd (bind_prog k f)
  | PagesSub k => PagesSub (bind_prog k f)
  | BytesSub n k => BytesSub n (bind_prog k f)
  end.

(** Put the page in and make room. *)
Definition admit_page (k : MemoryPageKey) (v : list byte) (st : Store) (evicted : list MemoryPageKey) : Prog (option (MemoryInsert * Store)) :=
  let i := inner st in
  let n := Z.of_nat (length v) in
  let st := set_inner (mkInner (<[k := mkEntry (if shared_budget st then Some n else None) v (clock i)]> (entries i))
                        (saturating_add 64 (resident_bytes i) n) (clock i)) st in
  evict (size (entries (inner st))) st evicted.

Definition insert_page (st : Store) (b : BlockId) (p : Z) (v : list byte) : Prog (option (MemoryInsert * Store)) :=
  let n := Z.of_nat (length v) in
  if negb (is_enabled st) then Ret (Some (Disabled, st)) else
  let page_start := Z.min (p * page_size_bytes st) (2 ^ 64 - 1) in
  if (n =? 0) || (page_size_bytes st <? n) || (capacity_bytes st <? n) || (block_size b <=? page_start)
  then Ret (Some (TooLarge, st)) else
  let k := mkKey b p in
  let i := tick (inner st) in
  let go i :=
    let st := set_inner i st in
    if shared_budget st then
      bind_prog (reserve (S (size (entries i))) st n []) (fun r =>
        match r with
        | None => Ret None
        | Some (None, st) => Ret (Some (TooLarge, st))
        | Some (Some evicted, st) => admit_page k v st evicted
        end)
    else admit_page k v st [] in
  match entries i !! k with
  | Some previous => drop_entry previous (go (without k previous i))
  | None => go i
  end.

Definition remove_page (st : Store) (b : BlockId) (p : Z) : Prog (option (bool * Store)) :=
  match entries (inner st) !! mkKey b p with
  | Some e => drop_entry e (Ret (Some (true, set_inner (without (mkKey b p) e (inner st)) st)))
  | None => Ret (Some (false, st))
  end.

Fixpoint remove_all (victims : list MemoryPageKey) (st : Store) : Prog Store :=
  match victims with
  | [] => Ret st
  | k :: victims =>
    match entries (inner st) !! k with
    | Some e => drop_entry e (remove_all victims (set_inner (without k e (inner st)) st))
    | None => remove_all victims st
    end
  end.

Definition remove_matching (f : BlockId -> bool) (st : Store) : Prog (option (list MemoryPageKey * Store)) :=
  let victims := filter (fun k => f (block k) = true) (fst <$> order (clock (inner st)) (entries (inner st))) in
  bind_prog (remove_all victims st) (fun st => Ret (Some (victims, st))).

Definition remove_block (st : Store) (b : BlockId) : Prog (option (list MemoryPageKey * Store)) :=
  remove_matching (fun id => bool_decide (id = b)) st.

Definition superseded (keep id : BlockId) : bool :=
  bool_decide (object id = object keep) && (offset id =? offset keep) && (block_size id =? block_size keep) &&
  negb (bool_decide (version id = version keep)).

Definition remove_superseded (st : Store) (keep : BlockId) : Prog (option (list MemoryPageKey * Store)) :=
  remove_matching (superseded keep) st.

End Write.

(** ** Accounting *)

(** Any answer may come back from the shared counters. *)
Inductive possible {A} : Prog A -> A -> Prop :=
  | possible_ret a : possible (Ret a) a
  | possible_update n c k ok a : possible (k ok) a -> possible (FetchUpdate n c k) a
  | possible_add k a : possible k a -> possible (PagesAdd k) a
  | possible_sub k a : possible k a -> possible (PagesSub k) a
  | possible_bytes n k a : possible k a -> possible (BytesSub n k) a.

Definition total (m : gmap MemoryPageKey Entry) : Z := map_fold (fun _ e acc => len e + acc) 0 m.

Lemma total_insert m k e : m !! k = None -> total (<[k := e]> m) = len e + total m.
Proof. intros Hk. unfold total. rewrite map_fold_insert_L; [done|intros; lia|done]. Qed.

Lemma total_delete m k e : m !! k = Some e -> total m = len e + total (delete k m).
Proof. intros Hk. unfold total. rewrite (map_fold_delete_L _ _ k e m); [done|intros; lia|done]. Qed.

Lemma total_nonneg m : 0 <= total m.
Proof. unfold total. apply (map_fold_weak_ind (fun r _ => 0 <= r)); [done|]. intros. unfold len. lia. Qed.

Lemma total_mono m m' : m ⊆ m' -> total m <= total m'.
Proof.
  revert m'. induction m as [|k e m Hk IH] using map_ind; intros m' Hm; [apply total_nonneg|]. rewrite total_insert by done.
  assert (m' !! k = Some e) as Hk' by (eapply lookup_weaken; [apply lookup_insert_eq|done]). rewrite (total_delete m' k e Hk').
  specialize (IH (delete k m')). enough (m ⊆ delete k m') by (specialize (IH H); lia).
  apply map_subseteq_spec. intros x ex Hx. apply lookup_delete_Some. split; [congruence|]. eapply lookup_weaken; [|done].
  rewrite lookup_insert_ne by congruence. done.
Qed.

Lemma total_same m k e e' : m !! k = Some e -> len e' = len e -> total (<[k := e']> m) = total m.
Proof.
  intros Hk He. rewrite <-insert_delete_eq, total_insert by apply lookup_delete_eq. rewrite (total_delete m k e) by done. lia.
Qed.

(** What an entry satisfies. *)
Record entry_ok (st : Store) (now : Z) (k : MemoryPageKey) (e : Entry) : Prop := {
  eo_size : 1 <= len e <= page_size_bytes st;
  eo_page : page k * page_size_bytes st < block_size (block k);
  eo_used : last_used e <= now;
  eo_budget : budget e = if shared_budget st then Some (len e) else None
}.

(** The accounts of a store, which may be over its capacity while a page is put in. *)
Record balanced (st : Store) : Prop := {
  ba_clock : 0 <= clock (inner st) < 2 ^ 64;
  ba_resident : resident_bytes (inner st) = total (entries (inner st));
  ba_entries : map_Forall (entry_ok st (clock (inner st))) (entries (inner st))
}.

Record wf (st : Store) : Prop := {
  wf_balanced : balanced st;
  wf_capacity : resident_bytes (inner st) <= capacity_bytes st;
  wf_limits : 0 <= capacity_bytes st < 2 ^ 63
}.

Section Accounts.

(** The greatest capacity that any reservation is checked against. *)
Context (limit : Z).

(** An operation that starts with [h] bytes in [n] pages of the shared counters accounted to its store, and what
    holds of the result and of the bytes and pages accounted to it then. It never gives back more than it holds. *)
Fixpoint keeps {A} (Q : A -> Z -> Z -> Prop) (h n : Z) (p : Prog A) : Prop :=
  match p with
  | Ret a => Q a h n
  | FetchUpdate m c k => (0 <= m /\ c <= limit) /\ keeps Q (h + m) n (k true) /\ keeps Q h n (k false)
  | PagesAdd k => keeps Q h (n + 1) k
  | PagesSub k => 1 <= n /\ keeps Q h (n - 1) k
  | BytesSub m k => 0 <= m <= h /\ keeps Q (h - m) n k
  end.

Lemma keeps_bind {A B} (Q : B -> Z -> Z -> Prop) (p : Prog A) (f : A -> Prog B) h n :
  keeps (fun a h n => keeps Q h n (f a)) h n p -> keeps Q h n (bind_prog p f).
Proof. revert h n. induction p; cbn; intros h' n' Hk; naive_solver. Qed.

Lemma keeps_possible {A} (Q : A -> Z -> Z -> Prop) p a h n : keeps Q h n p -> possible p a -> exists h' n', Q a h' n'.
Proof.
  intros Hk Hp. revert h n Hk. induction Hp as [a|m c k ok a _ IH|k a _ IH|k a _ IH|m k a _ IH]; cbn; intros h n Hk; [eauto| |eauto| |].
  - destruct Hk as (_ & H1 & H2). destruct ok; eauto.
  - destruct Hk as [_ Hk]. eauto.
  - destruct Hk as [_ Hk]. eauto.
Qed.

Lemma keeps_weaken {A} (Q Q' : A -> Z -> Z -> Prop) p h n : (forall a h n, Q a h n -> Q' a h n) -> keeps Q h n p -> keeps Q' h n p.
Proof. intros HQ. revert h n. induction p; cbn; naive_solver. Qed.

(** What a store has in the shared counters. *)
Definition accounted (st : Store) (h n : Z) : Prop :=
  if shared_budget st then h = total (entries (inner st)) /\ n = Z.of_nat (size (entries (inner st))) else h = 0 /\ n = 0.

Abbreviation take_out k e st := (set_inner (without k e (inner st)) st).

Lemma entry_ok_same st st' now now' k e : page_size_bytes st' = page_size_bytes st -> shared_budget st' = shared_budget st -> now <= now' ->
  entry_ok st now k e -> entry_ok st' now' k e.
Proof. intros Hp Hs Hn [H1 H2 H3 H4]. split; rewrite ?Hp, ?Hs; [done|done|lia|done]. Qed.

Lemma take_out_balanced k e st : balanced st -> entries (inner st) !! k = Some e -> balanced (take_out k e st).
Proof.
  intros [Hc Hr He] Hk. split; cbn; [done| |].
  - rewrite Hr, (total_delete _ _ _ Hk). unfold saturating_sub. pose proof (total_nonneg (delete k (entries (inner st)))). lia.
  - intros x ex [_ Hx]%lookup_delete_Some. by eapply entry_ok_same, He.
Qed.

Lemma drop_entry_keeps {A} (Q : A -> Z -> Z -> Prop) k e st p h n : balanced st -> entries (inner st) !! k = Some e -> accounted st h n ->
  (forall h' n', accounted (take_out k e st) h' n' -> keeps Q h' n' p) -> keeps Q h n (drop_entry e p).
Proof.
  intros [_ _ He] Hk Ha Hp. pose proof (eo_budget _ _ _ _ (He k e Hk)) as Hb. unfold drop_entry, accounted in *. rewrite Hb. cbn in Hp. destruct (shared_budget st).
  - destruct Ha as [-> ->]. pose proof (total_delete _ _ _ Hk). pose proof (total_nonneg (delete k (entries (inner st)))).
    pose proof (eo_size _ _ _ _ (He k e Hk)). pose proof (map_size_delete_Some _ _ (mk_is_Some _ _ Hk)).
    assert (size (entries (inner st)) <> 0)%nat by (rewrite map_size_non_empty_iff; intros E; by rewrite E, lookup_empty in Hk).
    cbn. splits; [lia|lia|lia|]. apply Hp. split; lia.
  - destruct Ha as [-> ->]. by apply Hp.
Qed.

(** *** Eviction *)

Section Evict.
Context `{HashOrder}.

Lemma min_by_ok l : match min_by_last_used l with
  | None => l = []
  | Some e => e ∈ l /\ forall e', e' ∈ l -> last_used e.2 <= last_used e'.2
  end.
Proof.
  induction l as [|e l IH]; cbn [min_by_last_used]; [done|]. destruct (min_by_last_used l) as [e'|].
  - destruct IH as [Hin Hmin]. destruct (Z.leb_spec (last_used e.2) (last_used e'.2)); (split; [set_solver|]).
    + intros x [->|Hx]%elem_of_cons; [lia|]. specialize (Hmin x Hx). lia.
    + intros x [->|Hx]%elem_of_cons; [lia|]. by apply Hmin.
  - subst l. split; [set_solver|]. intros x ->%list_elem_of_singleton. lia.
Qed.

Lemma coldest_ok i : match coldest i with
  | None => entries i = ∅
  | Some k => exists e, entries i !! k = Some e /\ forall k' e', entries i !! k' = Some e' -> last_used e <= last_used e'
  end.
Proof.
  unfold coldest. pose proof (min_by_ok (order (clock i) (entries i))) as Hm. destruct (min_by_last_used _) as [[k e]|]; cbn.
  - destruct Hm as [Hin Hmin]. rewrite order_perm in Hin. exists e. split; [by apply elem_of_map_to_list|].
    intros k' e' Hk'. apply (Hmin (k', e')). rewrite order_perm. by apply elem_of_map_to_list.
  - apply map_to_list_empty_iff, Permutation_nil_r. by rewrite <-(order_perm (clock i)), Hm.
Qed.

(** What a loop has taken out of a store, coldest first. *)
Record evicted_from (st : Store) (ev : list MemoryPageKey) (st' : Store) : Prop := {
  ef_entries : forall k, entries (inner st') !! k = if bool_decide (k ∈ ev) then None else entries (inner st) !! k;
  ef_members : forall k, k ∈ ev -> is_Some (entries (inner st) !! k);
  ef_nodup : NoDup ev;
  ef_cold : forall k e k' e', k ∈ ev -> entries (inner st) !! k = Some e -> entries (inner st') !! k' = Some e' -> last_used e <= last_used e';
  ef_clock : clock (inner st') = clock (inner st);
  ef_limits : shared_budget st' = shared_budget st /\ capacity_bytes st' = capacity_bytes st /\ page_size_bytes st' = page_size_bytes st
}.

Lemma evicted_none st : evicted_from st [] st.
Proof. split; try done; [by intros k ?%elem_of_nil|constructor|by intros k ? ? ? ?%elem_of_nil]. Qed.

Lemma evicted_snoc st ev st' k e : evicted_from st ev st' -> entries (inner st') !! k = Some e ->
  (forall k' e', entries (inner st') !! k' = Some e' -> last_used e <= last_used e') -> evicted_from st (ev ++ [k]) (take_out k e st').
Proof.
  intros [H1 H2 H3 H4 H5 H6] Hk Hmin. pose proof (H1 k) as Hk'. rewrite Hk in Hk'. case_bool_decide as Hin; [done|]. split; cbn; try done.
  - intros x. destruct (decide (x = k)) as [->|Hne]; [by rewrite lookup_delete_eq, bool_decide_true by set_solver|].
    rewrite lookup_delete_ne, H1 by done. by rewrite (bool_decide_ext (x ∈ ev) (x ∈ ev ++ [k])) by set_solver.
  - intros x [Hx| ->%list_elem_of_singleton]%elem_of_app; [auto|by rewrite <-Hk'].
  - apply NoDup_app. splits; [done|set_solver|apply NoDup_singleton].
  - intros x ex y ey [Hx| ->%list_elem_of_singleton]%elem_of_app Hex [_ Hey]%lookup_delete_Some; [by eapply H4|].
    rewrite <-Hk' in Hex. injection Hex as <-. by eapply Hmin.
Qed.

Lemma reserve_keeps st0 n fuel st ev h m : evicted_from st0 ev st -> balanced st -> shared_budget st = true -> accounted st h m -> 0 <= n -> capacity_bytes st <= limit ->
  (size (entries (inner st)) < fuel)%nat ->
  keeps (fun r h m => exists st', balanced st' /\ match r with
    | None => False
    | Some (None, st1) => st1 = st' /\ accounted st' h m /\ entries (inner st') = ∅ /\ exists ev', evicted_from st0 ev' st'
    | Some (Some ev', st1) => st1 = st' /\ accounted st' (h - n) (m - 1) /\ evicted_from st0 ev' st'
    end) h m (reserve fuel st n ev).
Proof.
  revert st ev h m. induction fuel as [|fuel IH]; intros st ev h m Hev Hb Hs Ha Hn Hlim Hf; [lia|]. cbn [reserve keeps]. split; [done|]. split.
  - exists st. splits; [done|done| |done]. unfold accounted in *. rewrite Hs in *. lia.
  - pose proof (coldest_ok (inner st)) as Hc. destruct (coldest (inner st)) as [k|]; [|exists st; eauto 6].
    destruct Hc as (e & Hk & Hmin). rewrite Hk. pose proof (total_delete _ _ _ Hk). pose proof (total_nonneg (delete k (entries (inner st)))).
    rewrite (ba_resident _ Hb), (proj2 (Z.ltb_ge _ _)) by lia. eapply drop_entry_keeps; [done|done|done|]. intros h' m' Ha'. apply IH; try done.
    + by apply evicted_snoc.
    + by apply take_out_balanced.
    + cbn. pose proof (map_size_delete_Some _ _ (mk_is_Some _ _ Hk)).
      assert (size (entries (inner st)) <> 0)%nat by (rewrite map_size_non_empty_iff; intros E; by rewrite E, lookup_empty in Hk). lia.
Qed.

(** The page that was put in last is not taken out. *)
Lemma evict_keeps st1 key new fuel st ev h m : evicted_from st1 ev st -> balanced st -> accounted st h m ->
  entries (inner st) !! key = Some new -> len new <= capacity_bytes st ->
  (forall k e, k <> key -> entries (inner st) !! k = Some e -> last_used e < last_used new) -> (size (entries (inner st)) <= fuel)%nat ->
  keeps (fun r h m => exists ev' st', r = Some (Inserted ev', st') /\ balanced st' /\ accounted st' h m /\ evicted_from st1 ev' st' /\
    resident_bytes (inner st') <= capacity_bytes st' /\ entries (inner st') !! key = Some new) h m (evict fuel st ev).
Proof.
  revert st ev h m. induction fuel as [|fuel IH]; intros st ev h m Hev Hb Ha Hkey Hlen Hold Hf; cbn [evict].
  { assert (entries (inner st) = ∅) as E by (apply map_size_empty_iff; lia). by rewrite E, lookup_empty in Hkey. }
  destruct (Z.leb_spec (resident_bytes (inner st)) (capacity_bytes st)); [cbn; exists ev, st; by splits|].
  pose proof (coldest_ok (inner st)) as Hc. destruct (coldest (inner st)) as [k|]; [|by rewrite Hc, lookup_empty in Hkey].
  destruct Hc as (e & Hk & Hmin). rewrite Hk. assert (k <> key) as Hne.
  { intros ->. rewrite Hkey in Hk. injection Hk as <-. assert (entries (inner st) = {[ key := new ]}) as E.
    { apply map_eq. intros x. destruct (decide (x = key)) as [->|Hx]; [by rewrite lookup_singleton_eq|]. rewrite lookup_singleton_ne by done.
      destruct (entries (inner st) !! x) as [ex|] eqn:Ex; [|done]. specialize (Hold x ex Hx Ex). specialize (Hmin x ex Ex). lia. }
    rewrite (ba_resident _ Hb), E in *. pose proof (total_insert ∅ key new (lookup_empty _)) as Ht. change (total ∅) with 0 in Ht.
    change ({[key := new]}) with (<[key := new]> (∅ : gmap MemoryPageKey Entry)) in *. lia. }
  eapply drop_entry_keeps; [done|done|done|]. intros h' m' Ha'. apply IH; try done.
  - by apply evicted_snoc.
  - by apply take_out_balanced.
  - cbn. by rewrite lookup_delete_ne.
  - cbn. intros x ex Hx [_ Hex]%lookup_delete_Some. by eapply Hold.
  - cbn. pose proof (map_size_delete_Some _ _ (mk_is_Some _ _ Hk)). lia.
Qed.

(** A store with a page put in. *)
Definition with_page (k : MemoryPageKey) (v : list byte) (st : Store) : Store :=
  set_inner (mkInner (<[k := mkEntry (if shared_budget st then Some (Z.of_nat (length v)) else None) v (clock (inner st))]> (entries (inner st)))
    (saturating_add 64 (resident_bytes (inner st)) (Z.of_nat (length v))) (clock (inner st))) st.

Lemma evicted_with_page k v st ev st' : evicted_from st ev st' -> entries (inner st) !! k = None -> balanced st ->
  evicted_from (with_page k v st) ev (with_page k v st').
Proof.
  intros [H1 H2 H3 H4 H5 [H6 H7]] Hk [_ _ He]. assert (k ∉ ev) as Hin by (intros ?; destruct (H2 k) as [? ?]; [done|congruence]). split; cbn; try done.
  - intros x. rewrite H5, H6. destruct (decide (x = k)) as [->|Hx]; [by rewrite !lookup_insert_eq, bool_decide_false|]. by rewrite !lookup_insert_ne.
  - intros x Hx. apply lookup_insert_is_Some'. auto.
  - intros x ex y ey Hx Hex Hey. rewrite lookup_insert_ne in Hex by set_solver. apply lookup_insert_Some in Hey as [[<- <-]|[_ Hey]]; [|by eapply H4].
    cbn. rewrite H5. by apply He in Hex as [].
Qed.

Lemma with_page_balanced k v st : let n := Z.of_nat (length v) in balanced st -> entries (inner st) !! k = None ->
  total (entries (inner st)) <= capacity_bytes st < 2 ^ 63 -> 1 <= n <= page_size_bytes st -> n <= capacity_bytes st ->
  page k * page_size_bytes st < block_size (block k) -> balanced (with_page k v st).
Proof.
  intros n [Hc Hr He] Hk Ht Hn Hcap Hp. split; cbn; [done| |].
  - rewrite total_insert, Hr by done. unfold saturating_add, len. cbn [value]. subst n. lia.
  - intros x ex [[<- <-]|[_ Hx]]%lookup_insert_Some; [|by eapply entry_ok_same, He]. by split; cbn.
Qed.

Lemma admit_keeps k v st0 st ev h m : let n := Z.of_nat (length v) in
  evicted_from st0 ev st -> balanced st0 -> balanced st -> entries (inner st0) !! k = None -> total (entries (inner st)) <= capacity_bytes st < 2 ^ 63 ->
  1 <= n <= page_size_bytes st -> n <= capacity_bytes st -> page k * page_size_bytes st < block_size (block k) ->
  map_Forall (fun _ e => last_used e < clock (inner st0)) (entries (inner st0)) ->
  (if shared_budget st then accounted st (h - n) (m - 1) else accounted st h m) ->
  keeps (fun r h m => exists ev' st', r = Some (Inserted ev', st') /\ balanced st' /\ accounted st' h m /\ evicted_from (with_page k v st0) ev' st' /\
    resident_bytes (inner st') <= capacity_bytes st' /\ entries (inner st') !! k = entries (inner (with_page k v st0)) !! k) h m (admit_page k v st ev).
Proof.
  intros n Hev Hb0 Hb Hk Ht Hn Hcap Hp Hold Ha. pose proof Hev as [H1 _ _ _ H5 [H6 [H7 H8]]].
  assert (entries (inner st) !! k = None) as Hk' by (rewrite H1; by case_bool_decide).
  cbn [inner with_page set_inner entries]. rewrite lookup_insert_eq.
  unfold admit_page. change (set_inner _ st) with (with_page k v st). eapply evict_keeps.
  - by apply evicted_with_page.
  - by apply with_page_balanced.
  - unfold accounted in *. cbn. rewrite total_insert, map_size_insert_None by done. destruct (shared_budget st); cbn [len value]; [|done]. unfold len. cbn. unfold n in *. lia.
  - cbn. by rewrite lookup_insert_eq, H5, H6.
  - unfold len. cbn. done.
  - cbn. intros x ex Hx. rewrite lookup_insert_ne, H1 by done. case_bool_decide; [done|]. intros Hex. by eapply Hold.
  - done.
Qed.

(** What an insertion has to say. *)
Definition insert_spec (st : Store) (b : BlockId) (p : Z) (v : list byte) (o : MemoryInsert) (st' : Store) : Prop :=
  let k := mkKey b p in
  match o with
  | Disabled => is_enabled st = false /\ st' = st
  | TooLarge => is_enabled st = true /\
      (st' = st /\ (v = [] \/ page_size_bytes st < Z.of_nat (length v) \/ block_size b <= p * page_size_bytes st) \/
       shared_budget st = true /\ entries (inner st') = ∅)
  | Inserted ev =>
      entries (inner st') !! k = Some (mkEntry (if shared_budget st then Some (Z.of_nat (length v)) else None) v (clock (inner st) + 1)) /\
      NoDup ev /\ (forall x, x ∈ ev -> x <> k /\ is_Some (entries (inner st) !! x)) /\
      (forall x, x <> k -> entries (inner st') !! x = if bool_decide (x ∈ ev) then None else entries (inner st) !! x) /\
      (forall x ex y ey, x ∈ ev -> entries (inner st) !! x = Some ex -> entries (inner st') !! y = Some ey -> last_used ex <= last_used ey)
  end.

Definition same_limits (st st' : Store) : Prop :=
  shared_budget st' = shared_budget st /\ capacity_bytes st' = capacity_bytes st /\ page_size_bytes st' = page_size_bytes st.

(** The store without the page that is about to be replaced, at the next tick. *)
Definition cleared (k : MemoryPageKey) (st : Store) : Store :=
  set_inner (mkInner (delete k (entries (inner st))) (total (delete k (entries (inner st)))) (clock (inner st) + 1)) st.

Lemma cleared_balanced k st : balanced st -> clock (inner st) < 2 ^ 64 - 1 -> balanced (cleared k st) /\
  map_Forall (fun _ e => last_used e < clock (inner (cleared k st))) (entries (inner (cleared k st))).
Proof.
  intros [Hc Hr He] Hlt. split; [split; cbn|]; [lia|done| |].
  - intros x ex [_ Hx]%lookup_delete_Some. eapply entry_ok_same; [| |apply Z.le_succ_diag_r|by apply He]; done.
  - intros x ex Hx. cbn in Hx. apply lookup_delete_Some in Hx as [_ Hx]. cbn. pose proof (eo_used _ _ _ _ (He x ex Hx)). lia.
Qed.

Lemma insert_inserted b p v st ev st' : let k := mkKey b p in
  evicted_from (with_page k v (cleared k st)) ev st' -> entries (inner st') !! k = entries (inner (with_page k v (cleared k st))) !! k ->
  insert_spec st b p v (Inserted ev) st' /\ same_limits st st' /\ clock (inner st') = clock (inner st) + 1.
Proof.
  intros k [H1 H2 H3 H4 H5 H6] Hk. cbn in *. rewrite lookup_insert_eq in Hk.
  assert (k ∉ ev) as Hin. { intros Hin. specialize (H1 k). rewrite Hk, bool_decide_true in H1 by done. done. }
  assert (forall x, x <> k -> <[k := mkEntry (if shared_budget st then Some (Z.of_nat (length v)) else None) v (clock (inner st) + 1)]> (delete k (entries (inner st))) !! x = entries (inner st) !! x) as Hx
    by (intros; by rewrite lookup_insert_ne, lookup_delete_ne).
  split; [|done]. splits; [done|done| | |].
  - intros x Hxe. assert (x <> k) by set_solver. split; [done|]. rewrite <-Hx by done. auto.
  - intros x Hne. by rewrite H1, Hx.
  - intros x ex y ey Hxe Hex Hey. eapply H4; [done| |done]. rewrite Hx; [done|set_solver].
Qed.

(** The state after an operation. *)
Definition after (st : Store) (st' : Store) (h m : Z) : Prop :=
  wf st' /\ accounted st' h m /\ same_limits st st' /\ clock (inner st') <= clock (inner st) + 1.

(** The part of [insert_page] after a page of the same key was removed. *)
Lemma insert_cleared_keeps st b p v h m : let k := mkKey b p in let n := Z.of_nat (length v) in
  wf st -> clock (inner st) < 2 ^ 64 - 1 -> capacity_bytes st <= limit -> is_enabled st = true -> 1 <= n <= page_size_bytes st -> n <= capacity_bytes st ->
  p * page_size_bytes st < block_size b -> accounted (cleared k st) h m ->
  keeps (fun r h m => exists o st', r = Some (o, st') /\ insert_spec st b p v o st' /\ after st st' h m) h m
    (if shared_budget st then
       bind_prog (reserve (S (size (entries (inner (cleared k st))))) (cleared k st) n []) (fun r =>
         match r with
         | None => Ret None
         | Some (None, st) => Ret (Some (TooLarge, st))
         | Some (Some evicted, st) => admit_page k v st evicted
         end)
     else admit_page k v (cleared k st) []).
Proof.
  intros k n [Hb Hcap Hlim] Hclk Hl Hen Hn Hnc Hp Ha. destruct (cleared_balanced k st Hb Hclk) as [Hb1 Hold].
  assert (forall ev st1, evicted_from (cleared k st) ev st1 -> balanced st1 -> total (entries (inner st1)) <= total (entries (inner st))) as Htot.
  { intros ev st1 Hev _. pose proof (total_mono (entries (inner st1)) (entries (inner st))) as Hm. apply Hm. apply map_subseteq_spec. intros x ex Hx.
    rewrite (ef_entries _ _ _ Hev) in Hx. case_bool_decide; [done|]. cbn in Hx. by apply lookup_delete_Some in Hx as [_ Hx]. }
  assert (forall ev st1 h m, evicted_from (cleared k st) ev st1 -> balanced st1 -> (if shared_budget st1 then accounted st1 (h - n) (m - 1) else accounted st1 h m) ->
    keeps (fun r h m => exists o st', r = Some (o, st') /\ insert_spec st b p v o st' /\ after st st' h m) h m (admit_page k v st1 ev)) as Hadmit.
  { intros ev st1 h' m' Hev Hb' Ha'. pose proof (ef_limits _ _ _ Hev) as (E1 & E2 & E3). cbn in E1, E2, E3. eapply keeps_weaken; [|eapply (admit_keeps k v (cleared k st))]; try done.
    - intros r h1 m1 (ev' & st' & -> & Hbst & Hacc & Hev' & Hres & Hkey). destruct (insert_inserted b p v st ev' st' Hev' Hkey) as (Hspec & Hlims & Hc).
      exists (Inserted ev'), st'. splits; [done|done|]. destruct Hlims as (L1 & L2 & L3). unfold after, same_limits. splits; [split; [done|done|by rewrite L2]|done|done|done|done|lia].
    - cbn. apply lookup_delete_eq.
    - rewrite E2. pose proof (Htot ev st1 Hev Hb'). rewrite (ba_resident _ Hb) in Hcap. lia.
    - by rewrite E3.
    - by rewrite E2.
    - by rewrite E3. }
  destruct (shared_budget st) eqn:Es.
  - apply keeps_bind. eapply keeps_weaken; [|apply (reserve_keeps (cleared k st) n)]; [|apply evicted_none|done|done|done|lia|done|lia].
    intros [[[ev|] st1]|] h1 m1 (st' & Hbst & Hr); [| |done].
    + destruct Hr as (-> & Hacc & Hev). apply Hadmit; [done|done|]. pose proof (ef_limits _ _ _ Hev) as (E1 & _). cbn in E1. by rewrite E1, Es.
    + destruct Hr as (-> & Hacc & Hempty & ev' & Hev). pose proof (ef_limits _ _ _ Hev) as (E1 & E2 & E3). cbn in E1, E2, E3.
      pose proof (ef_clock _ _ _ Hev) as Hclock. cbn in Hclock. exists TooLarge, st'. splits; [done|split; [done|right; done]|].
      unfold after, same_limits. splits; [split; [done| |by rewrite E2]|done|done|done|done|lia].
      rewrite (ba_resident _ Hbst), Hempty, E2. change (total ∅) with 0. lia.
  - apply Hadmit; [apply evicted_none|done|]. cbn. by rewrite Es.
Qed.

Lemma insert_keeps st b p v h m : wf st -> clock (inner st) < 2 ^ 64 - 1 -> capacity_bytes st <= limit -> 0 <= p -> accounted st h m ->
  block_size b < 2 ^ 32 ->
  keeps (fun r h m => exists o st', r = Some (o, st') /\ insert_spec st b p v o st' /\ after st st' h m) h m (insert_page st b p v).
Proof.
  intros Hw Hclk Hl Hp Ha Hbs. pose proof Hw as [Hb Hcap Hlim]. unfold insert_page.
  assert (after st st h m) as Hsame by (unfold after, same_limits; splits; try done; lia).
  destruct (is_enabled st) eqn:Hen; cbn [negb]; [|exists Disabled, st; by splits].
  assert (0 < page_size_bytes st <= capacity_bytes st) as Hps by (unfold is_enabled in Hen; rewrite !andb_true_iff, !Z.ltb_lt, Z.leb_le in Hen; lia).
  destruct (_ || _) eqn:Eg.
  { exists TooLarge, st. splits; [done| |done]. split; [done|left]. split; [done|]. rewrite !orb_true_iff, Z.eqb_eq, !Z.ltb_lt, Z.leb_le in Eg.
    destruct Eg as [[[E|E]|E]|E]; [left; by destruct v|right; left; lia|right; left; lia|right; right; lia]. }
  rewrite !orb_false_iff, Z.eqb_neq, !Z.ltb_ge, Z.leb_gt in Eg. destruct Eg as [[[E1 E2] E3] E4].
  set (k := mkKey b p). assert (saturating_add 64 (clock (inner st)) 1 = clock (inner st) + 1) as Htick by (unfold saturating_add; lia).
  assert (p * page_size_bytes st < block_size b) as Hpage by lia.
  change (entries (tick (inner st)) !! k) with (entries (inner st) !! k). destruct (entries (inner st) !! k) as [previous|] eqn:Ek.
  - assert (without k previous (tick (inner st)) = inner (cleared k st)) as ->.
    { unfold without, tick, cleared. cbn. rewrite Htick. f_equal. pose proof (total_delete _ _ _ Ek). pose proof (total_nonneg (delete k (entries (inner st)))).
      rewrite (ba_resident _ Hb). unfold saturating_sub. lia. }
    eapply drop_entry_keeps; [done|done|done|]. intros h' m' Ha'. apply insert_cleared_keeps; try done; lia.
  - assert (tick (inner st) = inner (cleared k st)) as ->.
    { unfold tick, cleared. cbn. by rewrite Htick, delete_id, (ba_resident _ Hb). }
    apply insert_cleared_keeps; try done; [lia|]. unfold accounted in *. cbn. by rewrite delete_id.
Qed.

Lemma take_out_after st k e st0 : wf st0 -> balanced st -> entries (inner st) ⊆ entries (inner st0) -> same_limits st0 st -> clock (inner st) = clock (inner st0) ->
  entries (inner st) !! k = Some e -> balanced (take_out k e st) /\ entries (inner (take_out k e st)) ⊆ entries (inner st0).
Proof.
  intros Hw Hb Hsub Hl Hc Hk. split; [by apply take_out_balanced|]. cbn. etransitivity; [apply delete_subseteq|done].
Qed.

Lemma remove_all_keeps victims st0 st h m : wf st0 -> balanced st -> entries (inner st) ⊆ entries (inner st0) -> same_limits st0 st ->
  clock (inner st) = clock (inner st0) -> accounted st h m ->
  keeps (fun st' h m => after st0 st' h m /\ forall x, entries (inner st') !! x = if bool_decide (x ∈ victims) then None else entries (inner st) !! x)
    h m (remove_all victims st).
Proof.
  revert st h m. induction victims as [|k victims IH]; intros st h m Hw Hb Hsub Hl Hc Ha; cbn [remove_all].
  - cbn. split; [|done]. unfold after. splits; [|done|done|lia]. destruct Hw as [Hb0 Hcap Hlim]. destruct Hl as (L1 & L2 & L3).
    split; [done|rewrite L2|by rewrite L2]. rewrite (ba_resident _ Hb). rewrite (ba_resident _ Hb0) in Hcap. pose proof (total_mono _ _ Hsub). lia.
  - destruct (entries (inner st) !! k) as [e|] eqn:Ek.
    + destruct (take_out_after st k e st0) as [Hb' Hsub']; [done..|]. apply (drop_entry_keeps _ k e st); [done|done|done|]. intros h' m' Ha'.
      eapply keeps_weaken; [|by apply IH]. intros st' h1 m1 [Haf Hx]. split; [done|]. intros x. rewrite Hx. cbn.
      destruct (decide (x = k)) as [->|Hne]; [rewrite lookup_delete_eq, (bool_decide_true (k ∈ k :: victims)) by set_solver; by case_bool_decide|].
      rewrite lookup_delete_ne by done. by rewrite (bool_decide_ext (x ∈ victims) (x ∈ k :: victims)) by set_solver.
    + eapply keeps_weaken; [|by apply IH]. intros st' h1 m1 [Haf Hx]. split; [done|]. intros x. rewrite Hx.
      destruct (decide (x = k)) as [->|Hne]; [rewrite (bool_decide_true (k ∈ k :: victims)), Ek by set_solver; by case_bool_decide|].
      by rewrite (bool_decide_ext (x ∈ victims) (x ∈ k :: victims)) by set_solver.
Qed.

Lemma remove_matching_keeps (f : BlockId -> bool) st h m : wf st -> accounted st h m ->
  keeps (fun r h m => exists (victims : list MemoryPageKey) st', r = Some (victims, st') /\ after st st' h m /\
    forall x, entries (inner st') !! x = if f (block x) then None else entries (inner st) !! x) h m (remove_matching f st).
Proof.
  intros Hw Ha. apply keeps_bind. eapply keeps_weaken; [|by apply (remove_all_keeps _ st st); [|apply Hw|..]].
  intros st' h1 m1 [Haf Hx]. cbn. eexists _, st'. splits; [done|done|]. intros x. rewrite Hx. case_bool_decide as Hin.
  - apply list_elem_of_filter in Hin as [-> _]. done.
  - destruct (f (block x)) eqn:Ef; [|done]. destruct (entries (inner st) !! x) as [e|] eqn:Ee; [|done]. exfalso. apply Hin, list_elem_of_filter. split; [done|].
    apply list_elem_of_fmap. exists (x, e). split; [done|]. rewrite order_perm. by apply elem_of_map_to_list.
Qed.

Lemma remove_page_keeps st b p h m : wf st -> accounted st h m ->
  keeps (fun r h m => exists o st', r = Some (o, st') /\ after st st' h m /\ o = contains_page st b p /\
    entries (inner st') = delete (mkKey b p) (entries (inner st))) h m (remove_page st b p).
Proof.
  intros Hw Ha. pose proof Hw as [Hb Hcap Hlim]. unfold remove_page, contains_page. destruct (entries (inner st) !! mkKey b p) as [e|] eqn:Ek.
  - eapply drop_entry_keeps; [done|done|done|]. intros h' m' Ha'. cbn. eexists _, _. splits; [done| |done|done].
    unfold after, same_limits. cbn. splits; [split; [by apply take_out_balanced| |done]|done|done|done|done|lia]. cbn. unfold saturating_sub.
    pose proof (eo_size _ _ _ _ (ba_entries _ Hb _ _ Ek)). lia.
  - cbn. eexists _, st. splits; [done| |done|by rewrite delete_id]. unfold after, same_limits. splits; try done. lia.
Qed.

End Evict.

End Accounts.

End MemoryStore.
