(* ===== verification/MemorySpec.v ===== *)
(** What the in-memory page cache promises: it serves exactly the bytes of the source, keeps the recently used pages,
    and the caches of all namespaces together stay within the shared budget under any interleaving. *)

From stdpp Require Import gmap.
From S2P Require Import Prelude External Key MemoryStore.

#[local] Set Warnings "-clear-no-such-hyp".

Module MemorySpec.
Import Key.
Import MemoryStore.

(** ** Reading *)

(** The same pages, whatever their recency. *)
Definition alike (m m' : gmap MemoryPageKey Entry) : Prop :=
  forall k, (fun e => (budget e, value e)) <$> m' !! k = (fun e => (budget e, value e)) <$> m !! k.

#[local] Instance alike_equiv : Equivalence alike.
Proof. split; [by intros m k|intros m m' H k; by rewrite H|intros m1 m2 m3 H1 H2 k; by rewrite H2, H1]. Qed.

Lemma touch_ok k i : match touch k i with
  | None => entries i !! k = None
  | Some (e, i') => exists e0, entries i !! k = Some e0 /\ e = mkEntry (budget e0) (value e0) (clock i) /\
      i' = mkInner (<[k := e]> (entries i)) (resident_bytes i) (clock i)
  end.
Proof. unfold touch. destruct (entries i !! k) as [e0|] eqn:E; cbn; [|done]. exists e0. done. Qed.

Lemma touch_alike k i e i' : touch k i = Some (e, i') -> alike (entries i) (entries i') /\ value <$> entries i !! k = Some (value e).
Proof.
  intros Ht. pose proof (touch_ok k i) as Hok. rewrite Ht in Hok. destruct Hok as (e0 & He0 & -> & ->). split; [|by rewrite He0].
  intros x. cbn. destruct (decide (x = k)) as [->|]; [by rewrite lookup_insert_eq, He0|by rewrite lookup_insert_ne].
Qed.

(** Touching a page keeps the accounts. *)
Lemma touch_balanced k st e i : balanced st -> touch k (inner st) = Some (e, i) ->
  balanced (set_inner i st) /\ clock i = clock (inner st) /\ resident_bytes i = resident_bytes (inner st) /\
  total (entries i) = total (entries (inner st)) /\ size (entries i) = size (entries (inner st)).
Proof.
  intros [Hc Hr He] Ht. pose proof (touch_ok k (inner st)) as Hok. rewrite Ht in Hok. destruct Hok as (e0 & He0 & -> & ->). cbn.
  assert (total (<[k := mkEntry (budget e0) (value e0) (clock (inner st))]> (entries (inner st))) = total (entries (inner st))) as Htot by (by eapply total_same).
  splits; [|done|done|done|by apply map_size_insert_Some]. split; cbn; [done|by rewrite Htot|].
  intros x ex [[<- <-]|[_ Hx]]%lookup_insert_Some; [|by eapply entry_ok_same, He]. destruct (He k e0 He0) as [H1 H2 H3 H4]. by split.
Qed.

Lemma tick_balanced st : balanced st -> balanced (set_inner (tick (inner st)) st).
Proof.
  intros [Hc Hr He]. split; cbn; [unfold saturating_add; lia|done|]. intros x ex Hx. apply (entry_ok_same st _ (clock (inner st))); [done|done| |by apply He].
  cbn. unfold saturating_add. lia.
Qed.

Lemma balanced_after st st' h m : wf st -> balanced st' -> same_limits st st' -> total (entries (inner st')) = total (entries (inner st)) ->
  size (entries (inner st')) = size (entries (inner st)) -> clock (inner st') <= clock (inner st) + 1 -> accounted st h m -> after st st' h m.
Proof.
  intros [Hb Hcap Hlim] Hb' (L1 & L2 & L3) Ht Hs Hc Ha. unfold after, same_limits. splits; [split| |done|done|done|done]; [done| |by rewrite L2|].
  - rewrite (ba_resident _ Hb'), L2, Ht. by rewrite (ba_resident _ Hb) in Hcap.
  - unfold accounted in *. by rewrite L1, Ht, Hs.
Qed.

Lemma get_page_ok st b p h m : wf st -> accounted st h m ->
  after st (get_page st b p).2 h m /\ (get_page st b p).1 = value <$> entries (inner st) !! mkKey b p /\
  alike (entries (inner st)) (entries (inner (get_page st b p).2)).
Proof.
  intros Hw Ha. pose proof Hw as [Hb _ _]. pose proof (tick_balanced st Hb) as Hb1. unfold get_page.
  destruct (touch (mkKey b p) (tick (inner st))) as [[e i]|] eqn:Et; cbn [fst snd].
  - destruct (touch_balanced _ (set_inner (tick (inner st)) st) e i Hb1 Et) as (Hb2 & Hc & Hr & Htot & Hsize). cbn in Hc, Hr, Htot, Hsize.
    destruct (touch_alike _ _ _ _ Et) as [Hal Hv]. cbn in Hal, Hv. splits; [|done|done].
    apply balanced_after; try done. cbn. rewrite Hc. unfold saturating_add. lia.
  - pose proof (touch_ok (mkKey b p) (tick (inner st))) as Hok. rewrite Et in Hok. cbn in Hok. rewrite Hok. splits; [|done|done].
    apply balanced_after; try done. cbn. unfold saturating_add. lia.
Qed.

(** Every resident page is a prefix of that page of its block's data. *)
Definition faithful (data : BlockId -> list byte) (st : Store) : Prop :=
  forall k e, entries (inner st) !! k = Some e ->
    0 <= page k /\ value e = slice (Z.to_nat (page k * page_size_bytes st)) (length (value e)) (data (block k)).

Section Range.
Context (data : BlockId -> list byte) (ps : Z) (Hps : 0 < ps) (b : BlockId) (offset end_ : Z) (Hoff : 0 <= offset).

Abbreviation D := (data b).

(** The pages of a map are those of the data. *)
Definition pages_of (m : gmap MemoryPageKey Entry) : Prop :=
  forall k e, m !! k = Some e -> 0 <= page k /\ value e = slice (Z.to_nat (page k * ps)) (length (value e)) (data (block k)).

Lemma pages_alike m m' : alike m m' -> pages_of m -> pages_of m'.
Proof.
  intros Ha Hp k e Hk. specialize (Ha k). rewrite Hk in Ha. cbn in Ha. symmetry in Ha. apply fmap_Some in Ha as (e' & He' & [= _ ->]). by apply Hp.
Qed.

Lemma covered_alike i i' p : alike (entries i) (entries i') -> covered i' b ps end_ p = covered i b ps end_ p.
Proof.
  intros Ha. unfold covered. specialize (Ha (mkKey b p)).
  destruct (entries i !! mkKey b p) as [e|], (entries i' !! mkKey b p) as [e'|]; cbn in Ha; try done. injection Ha as _ Hv. unfold len. by rewrite Hv.
Qed.

(** What a page contributes is a slice of the data. *)
Lemma page_slice (m : gmap MemoryPageKey Entry) p v start cnt : pages_of m -> value <$> m !! mkKey b p = Some v -> (start + cnt <= length v)%nat ->
  slice start cnt v = slice (Z.to_nat (p * ps) + start) cnt D /\ (cnt <> 0 -> Z.to_nat (p * ps) + start + cnt <= length D)%nat.
Proof.
  intros Hp (e & He & ->)%fmap_Some Hlen. destruct (Hp _ _ He) as [_ Hv]. cbn in Hv. split.
  - rewrite Hv. unfold slice. rewrite skipn_firstn_comm, drop_drop, take_take. f_equal. lia.
  - intros Hc. apply (f_equal length) in Hv. unfold slice in Hv. rewrite length_take, length_drop in Hv. lia.
Qed.

Lemma stitch_ok n p i : 0 <= p -> pages_of (entries i) -> offset < (p + 1) * ps -> offset < end_ -> end_ <= (p + Z.of_nat n + 1) * ps -> (p + Z.of_nat n) * ps < end_ ->
  forallb (covered i b ps end_) (seqZ p (Z.of_nat n + 1)) = true ->
  exists i', stitch i b ps offset end_ (seqZ p (Z.of_nat n + 1)) =
      Some (slice (Z.to_nat (Z.max offset (p * ps))) (Z.to_nat (end_ - Z.max offset (p * ps))) D, i') /\
    alike (entries i) (entries i') /\ end_ <= Z.of_nat (length D).
Proof.
  revert p i. induction n as [|n IH]; intros p i Hp Hm H1 H2 H3 H4 Hcov.
  all: rewrite seqZ_cons in * by lia; cbn [forallb stitch] in *; apply andb_true_iff in Hcov as [Hc Hcov].
  all: unfold covered in Hc; apply andb_true_iff in Hc as [_ Hc].
  all: destruct (touch (mkKey b p) i) as [[e i1]|] eqn:Et; [|pose proof (touch_ok (mkKey b p) i) as Hok; rewrite Et in Hok; by rewrite Hok in Hc].
  all: destruct (touch_alike _ _ _ _ Et) as [Hal Hv]; cbn [mbind option_bind].
  all: assert (Z.min end_ (p * ps + ps) - p * ps <= Z.of_nat (length (value e))) as Hlen by
    (destruct (entries i !! mkKey b p) as [e0|]; [|done]; cbn in Hv; injection Hv as <-; apply Z.leb_le in Hc; exact Hc); clear Hc.
  all: unfold saturating_sub; set (start := Z.max 0 (offset - p * ps)) in *.
  - replace (Z.pred (Z.of_nat 0 + 1)) with 0 by lia.
    destruct (page_slice (entries i) p (value e) (Z.to_nat start) (Z.to_nat (Z.min end_ (p * ps + ps) - p * ps - start)) Hm Hv) as [-> Hd]; [lia|].
    exists i1. splits; [|done|lia]. change (seqZ (Z.succ p) 0) with (@nil Z). cbn [stitch mbind option_bind]. rewrite app_nil_r. do 2 f_equal. f_equal; lia.
  - replace (Z.pred (Z.of_nat (S n) + 1)) with (Z.of_nat n + 1) in * by lia. replace (Z.succ p) with (p + 1) in * by lia.
    destruct (IH (p + 1) i1) as (i' & -> & Hal' & Hd); [lia|by eapply pages_alike|lia|lia|lia|lia| |].
    { rewrite forallb_forall in Hcov |- *. intros q Hq. rewrite (covered_alike i i1) by done. auto. }
    destruct (page_slice (entries i) p (value e) (Z.to_nat start) (Z.to_nat (Z.min end_ (p * ps + ps) - p * ps - start)) Hm Hv) as [-> _]; [lia|].
    exists i'. cbn [mbind option_bind]. splits; [|by etransitivity|done]. do 2 f_equal.
    rewrite (Z.max_r offset ((p + 1) * ps)) by lia.
    replace (Z.to_nat (p * ps) + Z.to_nat start)%nat with (Z.to_nat (Z.max offset (p * ps))) by lia.
    replace (Z.to_nat (end_ - Z.max offset (p * ps))) with (Z.to_nat (Z.min end_ (p * ps + ps) - p * ps - start) + Z.to_nat (end_ - (p + 1) * ps))%nat by lia.
    rewrite slice_split. do 2 f_equal. lia.
Qed.

Lemma stitch_balanced pages i i' out st : stitch i b ps offset end_ pages = Some (out, i') -> balanced (set_inner i st) ->
  balanced (set_inner i' st) /\ clock i' = clock i /\ total (entries i') = total (entries i) /\ size (entries i') = size (entries i).
Proof.
  revert i out. induction pages as [|p pages IH]; intros i out; cbn [stitch]; [intros [= <- <-]; done|].
  destruct (touch (mkKey b p) i) as [[e i1]|] eqn:Et; [|done]. cbn [mbind option_bind]. intros Hst Hb.
  destruct (stitch i1 b ps offset end_ pages) as [[out1 i2]|] eqn:Es; [|done]. injection Hst as _ <-.
  destruct (touch_balanced _ (set_inner i st) e i1 Hb Et) as (Hb2 & Hc & _ & Htot & Hsize). cbn in *.
  destruct (IH i1 out1 Es) as (H1 & H2 & H3 & H4); [done|]. splits; [done|congruence..].
Qed.

End Range.

(** The part of [get_range] after its check. *)
Lemma hit_ok data st b offset n : let ps := page_size_bytes st in let first := offset / ps in let last := (offset + n - 1) / ps in
  balanced st -> faithful data st -> 0 < ps -> 0 <= offset -> 0 < n -> forallb (covered (inner st) b ps (offset + n)) (inclusive first last) = true ->
  exists i', (if first =? last then
      match touch (mkKey b first) (tick (inner st)) with
      | Some (e, i) => (Some (slice (Z.to_nat (offset mod ps)) (Z.to_nat n) (value e)), set_inner i st)
      | None => (None, set_inner (tick (inner st)) st)
      end
    else
      match stitch (tick (inner st)) b ps offset (offset + n) (inclusive first last) with
      | Some (out, i) => (Some out, set_inner i st)
      | None => (None, set_inner (tick (inner st)) st)
      end) = (Some (slice (Z.to_nat offset) (Z.to_nat n) (data b)), set_inner i' st) /\
    alike (entries (inner st)) (entries i') /\ balanced (set_inner i' st) /\ clock i' = clock (tick (inner st)) /\
    total (entries i') = total (entries (inner st)) /\ size (entries i') = size (entries (inner st)) /\ offset + n <= Z.of_nat (length (data b)).
Proof.
  intros ps first last Hb Hfa Hps Ho Hn Hcov. pose proof (tick_balanced st Hb) as Hb1.
  assert (0 <= first <= last) as Hfl by (split; [apply Z.div_pos; lia|apply Z.div_le_mono; lia]).
  pose proof (Z.div_mod offset ps ltac:(lia)) as E1. pose proof (Z.mod_pos_bound offset ps Hps). fold first in E1.
  pose proof (Z.div_mod (offset + n - 1) ps ltac:(lia)) as E2. pose proof (Z.mod_pos_bound (offset + n - 1) ps Hps). fold last in E2.
  assert (pages_of data ps (entries (tick (inner st)))) as Hpages by exact Hfa.
  destruct (Z.eqb_spec first last) as [Efl|Efl].
  - assert (covered (inner st) b ps (offset + n) first = true) as Hc.
    { rewrite forallb_forall in Hcov. apply Hcov, list_elem_of_In, elem_of_seqZ. lia. }
    unfold covered in Hc. apply andb_true_iff in Hc as [_ Hc].
    destruct (touch (mkKey b first) (tick (inner st))) as [[e i]|] eqn:Et;
      [|pose proof (touch_ok (mkKey b first) (tick (inner st))) as Hok; rewrite Et in Hok; cbn in Hok; by rewrite Hok in Hc].
    destruct (touch_alike _ _ _ _ Et) as [Hal Hv]. destruct (touch_balanced _ (set_inner (tick (inner st)) st) e i Hb1 Et) as (H1 & H2 & _ & H3 & H4). cbn in *.
    assert (Z.min (offset + n) (first * ps + ps) - first * ps <= Z.of_nat (length (value e))) as Hlen.
    { destruct (entries (inner st) !! mkKey b first) as [e0|]; [|done]. cbn in Hv. injection Hv as <-. by apply Z.leb_le in Hc. }
    destruct (page_slice data ps b _ first (value e) (Z.to_nat (offset mod ps)) (Z.to_nat n) Hpages Hv) as [E Hd]; [nia|].
    exists i. rewrite E. splits; try done; [|nia]. do 2 f_equal. f_equal. nia.
  - destruct (stitch_ok data ps Hps b offset (offset + n) Ho (Z.to_nat (last - first)) first (tick (inner st))) as (i' & E & Hal & Hd);
      [lia|done|nia|lia|rewrite Z2Nat.id by lia; replace (first + (last - first) + 1) with (last + 1) by lia; nia
      |rewrite Z2Nat.id by lia; replace (first + (last - first)) with last by lia; nia| |].
    { rewrite <-Hcov. unfold inclusive. rewrite Z2Nat.id by lia. done. }
    unfold inclusive. rewrite Z2Nat.id in E by lia. rewrite E. destruct (stitch_balanced ps b offset (offset + n) _ _ _ _ st E Hb1) as (H1 & H2 & H3 & H4).
    exists i'. splits; try done. do 2 f_equal; f_equal; nia.
Qed.

(** A read of the cache: a hit is exactly the data, and every resident range is a hit. *)
Lemma get_range_ok data st b offset n h m : wf st -> accounted st h m -> faithful data st -> 0 <= offset -> 0 <= n ->
  after st (get_range st b offset n).2 h m /\ alike (entries (inner st)) (entries (inner (get_range st b offset n).2)) /\
  match (get_range st b offset n).1 with
  | Some out => out = slice (Z.to_nat offset) (Z.to_nat n) (data b) /\ Z.of_nat (length out) = n
  | None => 0 < n /\ (is_enabled st = false \/ 2 ^ 64 <= offset + n \/ block_size b < offset + n \/
      exists p, offset / page_size_bytes st <= p <= (offset + n - 1) / page_size_bytes st /\ covered (inner st) b (page_size_bytes st) (offset + n) p = false)
  end.
Proof.
  intros Hw Ha Hfa Ho Hn. unfold get_range.
  assert (after st st h m) as Hsame by (apply balanced_after; try done; [apply Hw|lia]).
  destruct (Z.eqb_spec n 0) as [->|Hn0]; [cbn [fst snd]; by splits|].
  destruct (Z.leb_spec (2 ^ 64) (offset + n)); [cbn [fst snd]; splits; [done|done|lia|tauto]|].
  destruct (is_enabled st) eqn:Hen; [|cbn [negb orb fst snd]; splits; [done|done|lia|tauto]].
  destruct (Z.ltb_spec (block_size b) (offset + n)); [cbn [negb orb fst snd]; splits; [done|done|lia|tauto]|]. cbn [negb orb].
  assert (0 < page_size_bytes st) as Hps by (unfold is_enabled in Hen; rewrite !andb_true_iff, !Z.ltb_lt in Hen; lia).
  destruct (forallb _ _) eqn:Ecov; cbn [negb].
  - destruct (hit_ok data st b offset n) as (i' & -> & Hal & Hb' & Hc & Ht & Hs & Hd); try done; [apply Hw|lia|]. cbn [fst snd]. splits; [|done|done|rewrite length_slice; lia].
    apply balanced_after; try done. cbn [inner set_inner]. rewrite Hc. cbn. unfold saturating_add. lia.
  - cbn [fst snd]. splits; [done|done|lia|]. do 3 right. apply not_true_iff_false in Ecov. rewrite forallb_forall in Ecov.
    destruct (decide (Exists (fun p => covered (inner st) b (page_size_bytes st) (offset + n) p = false) (inclusive (offset / page_size_bytes st) ((offset + n - 1) / page_size_bytes st)))) as [He|He].
    + apply Exists_exists in He as (p & Hin & Hp). exists p. split; [|done]. apply elem_of_seqZ in Hin. lia.
    + exfalso. apply Ecov. intros p Hin. apply not_false_is_true. intros Hf. apply He, Exists_exists. exists p. split; [by apply list_elem_of_In|done].
Qed.

(** ** Operations *)

Inductive Op :=
  | OpInsert (b : BlockId) (p : Z) (v : list byte)
  | OpRemovePage (b : BlockId) (p : Z)
  | OpRemoveBlock (b : BlockId)
  | OpRemoveSuperseded (keep : BlockId)
  | OpGetPage (b : BlockId) (p : Z)
  | OpGetRange (b : BlockId) (offset n : Z).

Section Ops.
Context `{HashOrder} (data : BlockId -> list byte) (limit : Z).

Definition only_store {A} (p : Prog (option (A * Store))) : Prog (option Store) := bind_prog p (fun r => Ret (snd <$> r)).

Definition run_op (op : Op) (st : Store) : Prog (option Store) :=
  match op with
  | OpInsert b p v => only_store (insert_page st b p v)
  | OpRemovePage b p => only_store (remove_page st b p)
  | OpRemoveBlock b => only_store (remove_block st b)
  | OpRemoveSuperseded keep => only_store (remove_superseded st keep)
  | OpGetPage b p => Ret (Some (get_page st b p).2)
  | OpGetRange b offset n => Ret (Some (get_range st b offset n).2)
  end.

(** Arguments of the right types; what is inserted is the data of the page. *)
Definition op_ok (st : Store) (op : Op) : Prop :=
  match op with
  | OpInsert b p v => 0 <= p /\ block_size b < 2 ^ 32 /\ v = slice (Z.to_nat (p * page_size_bytes st)) (length v) (data b)
  | OpGetRange _ offset n => 0 <= offset /\ 0 <= n
  | _ => True
  end.

Definition good (st : Store) : Prop := wf st /\ faithful data st /\ capacity_bytes st <= limit.

Lemma faithful_sub st st' : page_size_bytes st' = page_size_bytes st -> (forall k e, entries (inner st') !! k = Some e -> entries (inner st) !! k = Some e) ->
  faithful data st -> faithful data st'.
Proof. intros Hp Hsub Hf k e Hk. rewrite Hp. apply Hf. by apply Hsub. Qed.

Lemma only_store_keeps {A} Q (p : Prog (option (A * Store))) h m :
  keeps limit (fun r h m => exists o st', r = Some (o, st') /\ Q st' h m) h m p ->
  keeps limit (fun r h m => exists st', r = Some st' /\ Q st' h m) h m (only_store p).
Proof. intros Hk. apply keeps_bind. eapply keeps_weaken; [|exact Hk]. intros r h1 m1 (o & st' & -> & HQ). cbn. eauto. Qed.

Lemma after_good st st' h m : good st -> after st st' h m -> faithful data st' -> good st' /\ accounted st' h m /\ same_limits st st'.
Proof. intros (_ & _ & Hl) (Hw & Ha & Hs & _) Hf. pose proof Hs as (_ & E & _). by split; [split; [done|split; [done|by rewrite E]]|]. Qed.

Lemma alike_faithful st st' : alike (entries (inner st)) (entries (inner st')) -> same_limits st st' -> faithful data st -> faithful data st'.
Proof. intros Hal (_ & _ & Eps) Hf k e. rewrite Eps. by apply (pages_alike data (page_size_bytes st) _ _ Hal). Qed.

Lemma remove_matching_good f st h m : good st -> accounted st h m ->
  keeps limit (fun r h m => exists st', r = Some st' /\ good st' /\ accounted st' h m /\ same_limits st st') h m (only_store (remove_matching f st)).
Proof.
  intros Hg Ha. pose proof Hg as (Hw & Hf & Hl). apply (only_store_keeps (fun st' h m => good st' /\ accounted st' h m /\ same_limits st st')).
  eapply keeps_weaken; [|by apply remove_matching_keeps]. intros r h1 m1 (o & st' & -> & Haf & He). exists o, st'. split; [done|]. eapply after_good; [done|done|].
  pose proof Haf as (_ & _ & (_ & _ & Eps) & _). apply (faithful_sub st); [done| |done]. intros k e. rewrite He. by case_match.
Qed.

Lemma run_op_keeps op st h m : good st -> clock (inner st) < 2 ^ 64 - 1 -> op_ok st op -> accounted st h m ->
  keeps limit (fun r h m => exists st', r = Some st' /\ good st' /\ accounted st' h m /\ same_limits st st') h m (run_op op st).
Proof.
  intros Hg Hc Hop Ha. pose proof Hg as (Hw & Hf & Hl). destruct op as [b p v|b p|b|keep|b p|b offset n]; cbn [run_op op_ok] in *.
  - apply (only_store_keeps (fun st' h m => good st' /\ accounted st' h m /\ same_limits st st')). destruct Hop as (Hp & Hbs & Hv).
    eapply keeps_weaken; [|by apply insert_keeps]. intros r h1 m1 (o & st' & -> & Hspec & Haf). exists o, st'. split; [done|]. eapply after_good; [done|done|].
    destruct Haf as (_ & _ & (_ & _ & Eps) & _). destruct o as [| |ev]; cbn [insert_spec] in Hspec.
    + destruct Hspec as [_ ->]. done.
    + destruct Hspec as (_ & [[-> _]|[_ He]]); [done|]. intros k e Hk. by rewrite He, lookup_empty in Hk.
    + destruct Hspec as (Hk & _ & _ & Hx & _). intros x e Hxe. rewrite Eps. destruct (decide (x = mkKey b p)) as [->|Hne].
      * rewrite Hk in Hxe. injection Hxe as <-. cbn. split; [done|exact Hv].
      * rewrite Hx in Hxe by done. case_bool_decide; [done|]. by apply Hf.
  - apply (only_store_keeps (fun st' h m => good st' /\ accounted st' h m /\ same_limits st st')).
    eapply keeps_weaken; [|by apply remove_page_keeps]. intros r h1 m1 (o & st' & -> & Haf & _ & He). exists o, st'. split; [done|]. eapply after_good; [done|done|].
    pose proof Haf as (_ & _ & (_ & _ & Eps) & _). apply (faithful_sub st); [done| |done]. intros k e. rewrite He. by intros [_ ?]%lookup_delete_Some.
  - by apply remove_matching_good.
  - by apply remove_matching_good.
  - destruct (get_page_ok st b p h m Hw Ha) as (Haf & _ & Hal). exists (get_page st b p).2. split; [done|]. eapply after_good; [done|done|].
    by apply (alike_faithful st); [|apply Haf|].
  - destruct Hop. destruct (get_range_ok data st b offset n h m) as (Haf & Hal & _); [done..|]. exists (get_range st b offset n).2. split; [done|]. eapply after_good; [done|done|].
    by apply (alike_faithful st); [|apply Haf|].
Qed.

(** *** One store *)

(** The states that a store reaches, whatever the shared counters answer. *)
Inductive reaches : Store -> Prop :=
  | reaches_own capacity page_size : 0 <= capacity < 2 ^ 63 -> reaches (with_limits capacity page_size)
  | reaches_shared capacity page_size : 0 <= capacity < 2 ^ 63 -> reaches (with_shared_budget capacity page_size)
  | reaches_op st op st' : reaches st -> clock (inner st) < 2 ^ 64 - 1 -> op_ok st op -> possible (run_op op st) (Some st') -> reaches st'.

End Ops.

Section Theorems.
Context `{HashOrder}.

Lemma empty_good data shared capacity page_size : 0 <= capacity < 2 ^ 63 -> good data capacity (mkStore shared (mkInner ∅ 0 0) capacity page_size).
Proof.
  intros Hc. unfold good. splits; [split; [split; cbn; [lia|done|apply map_Forall_empty]|cbn; lia|done]| |cbn; lia].
  intros k e Hk. cbn in Hk. by rewrite lookup_empty in Hk.
Qed.

Definition own_bytes (st : Store) : Z := if shared_budget st then total (entries (inner st)) else 0.
Definition own_pages (st : Store) : Z := if shared_budget st then Z.of_nat (size (entries (inner st))) else 0.

Lemma own_accounted st : accounted st (own_bytes st) (own_pages st).
Proof. unfold accounted, own_bytes, own_pages. by destruct (shared_budget st). Qed.

Lemma reaches_good data st : reaches data st -> good data (capacity_bytes st) st.
Proof.
  induction 1 as [capacity page_size Hc|capacity page_size Hc|st op st' _ IH Hc Hop Hp]; [by apply empty_good|by apply empty_good|].
  pose proof (run_op_keeps data (capacity_bytes st) op st _ _ IH Hc Hop (own_accounted st)) as Hk.
  destruct (keeps_possible _ _ _ _ _ _ Hk Hp) as (h & m & st1 & [= <-] & Hg & _ & (_ & E & _)). by rewrite E.
Qed.

(** C18: The page cache serves the source: in every state it reaches, a range it answers is exactly those bytes of
    the block, and it answers every range whose pages it holds; the pages it holds never exceed its
    capacity. *)
Theorem l1_serves_source data st b offset n :
  reaches data st -> 0 <= offset -> 0 <= n ->
  resident_bytes (inner st) = total (entries (inner st)) /\ resident_bytes (inner st) <= capacity_bytes st /\
  match (get_range st b offset n).1 with
  | Some out => out = slice (Z.to_nat offset) (Z.to_nat n) (data b) /\ Z.of_nat (length out) = n
  | None => 0 < n /\ (is_enabled st = false \/ 2 ^ 64 <= offset + n \/ block_size b < offset + n \/
      exists p, offset / page_size_bytes st <= p <= (offset + n - 1) / page_size_bytes st /\ covered (inner st) b (page_size_bytes st) (offset + n) p = false)
  end.
Proof.
  intros Hr Ho Hn. destruct (reaches_good data st Hr) as (Hw & Hf & _). splits; [apply Hw|apply Hw|].
  by destruct (get_range_ok data st b offset n _ _ Hw (own_accounted st) Hf Ho Hn) as (_ & _ & Hres).
Qed.

(** C19: Admission evicts the coldest pages only: a page that fits is resident afterwards with its bytes, or, when
    other namespaces hold the shared budget, refused; the pages evicted for it were all used no later
    than any page that stays, and no other page changes. *)
Theorem l1_evicts_coldest data st b p v r :
  reaches data st -> clock (inner st) < 2 ^ 64 - 1 -> 0 <= p -> block_size b < 2 ^ 32 -> possible (insert_page st b p v) r ->
  exists o st', r = Some (o, st') /\ insert_spec st b p v o st' /\ resident_bytes (inner st') <= capacity_bytes st.
Proof.
  intros Hr Hc Hp Hb Hpos. destruct (reaches_good data st Hr) as (Hw & _ & _).
  pose proof (insert_keeps (capacity_bytes st) st b p v _ _ Hw Hc (Z.le_refl _) Hp (own_accounted st) Hb) as Hk.
  destruct (keeps_possible _ _ _ _ _ _ Hk Hpos) as (h & m & o & st' & -> & Hs & ([_ Hcap _] & _ & (_ & E & _) & _)). exists o, st'. by rewrite <-E.
Qed.

(** ** Several stores on one budget *)

(** One atomic instruction on the shared counters. *)
Definition instruction {A} (bytes pages : Z) (p : Prog A) : option (Z * Z * Prog A) :=
  match p with
  | Ret _ => None
  | FetchUpdate n c k => Some (if (bytes + n <? 2 ^ 64) && (bytes + n <=? c) then (bytes + n, pages, k true) else (bytes, pages, k false))
  | PagesAdd k => Some (bytes, wrap 64 (pages + 1), k)
  | PagesSub k => Some (bytes, wrap 64 (pages - 1), k)
  | BytesSub n k => Some (wrap 64 (bytes - n), pages, k)
  end.

(** A store between operations, or in one, holding its mutex. *)
Inductive Thread := Idle (st : Store) | Running (p : Prog (option Store)).

Record Sys := mkSys { bytes : Z; pages : Z; threads : list Thread }.

Inductive sys_step (data : BlockId -> list byte) : Sys -> Sys -> Prop :=
  | step_start sys i st op : threads sys !! i = Some (Idle st) -> clock (inner st) < 2 ^ 64 - 1 -> op_ok data st op ->
      sys_step data sys (mkSys (bytes sys) (pages sys) (<[i := Running (run_op op st)]> (threads sys)))
  | step_instruction sys i p b' n' p' : threads sys !! i = Some (Running p) -> instruction (bytes sys) (pages sys) p = Some (b', n', p') ->
      sys_step data sys (mkSys b' n' (<[i := Running p']> (threads sys)))
  | step_finish sys i st : threads sys !! i = Some (Running (Ret (Some st))) ->
      sys_step data sys (mkSys (bytes sys) (pages sys) (<[i := Idle st]> (threads sys))).

Definition sys_init (limits : list (Z * Z)) : Sys := mkSys 0 0 ((fun l => Idle (with_shared_budget l.1 l.2)) <$> limits).

(** What a thread holds of the counters. *)
Definition thread_ok (data : BlockId -> list byte) (limit : Z) (t : Thread) (held : Z * Z) : Prop :=
  let done st h m := good data limit st /\ shared_budget st = true /\ accounted st h m in
  match t with
  | Idle st => done st held.1 held.2
  | Running p => keeps limit (fun r h m => exists st, r = Some st /\ done st h m) held.1 held.2 p
  end.

Definition sum (l : list Z) : Z := foldr Z.add 0 l.

Lemma sum_insert l i x y : l !! i = Some x -> sum (<[i := y]> l) = sum l - x + y.
Proof.
  unfold sum. revert i. induction l as [|z l IH]; intros [|i] Hi; [done|done|cbn in *; injection Hi as ->; lia|].
  specialize (IH i Hi). change (<[S i := y]> (z :: l)) with (z :: <[i := y]> l). cbn [foldr]. lia.
Qed.

Record sys_inv (data : BlockId -> list byte) (limit : Z) (sys : Sys) (held : list (Z * Z)) : Prop := {
  si_threads : Forall2 (thread_ok data limit) (threads sys) held;
  si_nonneg : Forall (fun x => 0 <= x.1) held;
  si_bytes : bytes sys = sum held.*1;
  si_pages : pages sys = wrap 64 (sum held.*2);
  si_limit : bytes sys <= limit < 2 ^ 63
}.

(** One thread changes what it holds. *)
Lemma sys_inv_update data limit sys held i t t' x x' b' n' : sys_inv data limit sys held -> threads sys !! i = Some t -> held !! i = Some x ->
  thread_ok data limit t' x' -> 0 <= x'.1 -> b' = bytes sys - x.1 + x'.1 -> b' <= limit -> n' = wrap 64 (pages sys - x.2 + x'.2) ->
  sys_inv data limit (mkSys b' n' (<[i := t']> (threads sys))) (<[i := x']> held).
Proof.
  intros [H1 H2 H3 H4 H5] Ht Hx Ht' Hx' -> Hb ->. split; cbn [threads bytes pages].
  - by apply Forall2_insert.
  - by apply Forall_insert.
  - rewrite list_fmap_insert, (sum_insert _ _ x.1), H3; [done|]. by rewrite list_lookup_fmap, Hx.
  - rewrite list_fmap_insert, (sum_insert _ _ x.2), H4 by (by rewrite list_lookup_fmap, Hx). unfold wrap.
    replace (sum held.*2 mod 2 ^ 64 - x.2 + x'.2) with (sum held.*2 mod 2 ^ 64 + (x'.2 - x.2)) by lia. rewrite Z.add_mod_idemp_l by lia. f_equal. lia.
  - lia.
Qed.

Lemma sum_nonneg l : Forall (fun x => 0 <= x) l -> 0 <= sum l.
Proof. unfold sum. induction 1; cbn [foldr]; lia. Qed.

Lemma sum_member l x : Forall (fun x => 0 <= x) l -> x ∈ l -> x <= sum l.
Proof.
  induction 1 as [|y l Hy Hl IH]; [by intros ?%elem_of_nil|]. pose proof (sum_nonneg l Hl). unfold sum in *. cbn [foldr].
  intros [->|Hx]%elem_of_cons; [lia|]. specialize (IH Hx). lia.
Qed.

Lemma held_bytes (held : list (Z * Z)) i x : Forall (fun x => 0 <= x.1) held -> held !! i = Some x -> x.1 <= sum held.*1.
Proof. intros Hf Hi. apply sum_member; [by apply Forall_fmap|]. apply list_elem_of_fmap. exists x. split; [done|by eapply list_elem_of_lookup_2]. Qed.

Lemma sys_step_inv data limit sys sys' held : sys_inv data limit sys held -> sys_step data sys sys' -> exists held', sys_inv data limit sys' held'.
Proof.
  intros Hi Hs. pose proof Hi as [Hth Hnn Hb Hp Hl].
  assert (forall i t, threads sys !! i = Some t -> exists x, held !! i = Some x /\ thread_ok data limit t x /\ 0 <= x.1 <= bytes sys) as Hget.
  { intros i t Ht. destruct (Forall2_lookup_l _ _ _ _ _ Hth Ht) as (x & Hx & Hok). exists x. splits; [done|done| |rewrite Hb; by eapply held_bytes].
    rewrite Forall_forall in Hnn. apply Hnn. by eapply list_elem_of_lookup_2. }
  assert (pages sys = wrap 64 (pages sys)) as Hpw by (rewrite Hp; symmetry; apply wrap_small, wrap_range; lia).
  destruct Hs as [sys i st op Ht Hc Hop|sys i p b' n' p' Ht Hin|sys i st Ht]; destruct (Hget i _ Ht) as (x & Hx & Hok & Hx0); clear Hget; cbn [thread_ok] in Hok.
  - destruct Hok as (Hg & Hsh & Ha). exists (<[i := x]> held). eapply sys_inv_update; [done|done|done| |lia|lia|lia|rewrite Hpw at 1; f_equal; lia]. cbn [thread_ok].
    eapply keeps_weaken; [|by apply run_op_keeps]. intros r h m (st' & -> & Hg' & Ha' & (E & _)). exists st'. by rewrite E.
  - destruct x as [h m]. cbn [fst snd] in *. destruct p as [a|n c k|k|k|n k]; cbn [instruction keeps] in *; [done| | | |].
    + destruct Hok as ((Hn & Hcl) & Ht1 & Hf1). destruct (_ && _) eqn:Eg; injection Hin as <- <- <-.
      * apply andb_true_iff in Eg as [_ ?%Z.leb_le]. exists (<[i := (h + n, m)]> held). eapply sys_inv_update; [done|done|done|done|cbn [fst]; lia|cbn [fst]; lia|lia|cbn [snd]; rewrite Hpw at 1; f_equal; lia].
      * exists (<[i := (h, m)]> held). eapply sys_inv_update; [done|done|done|done|cbn [fst]; lia|cbn [fst]; lia|lia|cbn [snd]; rewrite Hpw at 1; f_equal; lia].
    + injection Hin as <- <- <-. exists (<[i := (h, m + 1)]> held). eapply sys_inv_update; [done|done|done|done|cbn [fst]; lia|cbn [fst]; lia|lia|cbn [snd]; f_equal; lia].
    + injection Hin as <- <- <-. destruct Hok as [_ Hok]. exists (<[i := (h, m - 1)]> held). eapply sys_inv_update; [done|done|done|done|cbn [fst]; lia|cbn [fst]; lia|lia|cbn [snd]; f_equal; lia].
    + injection Hin as <- <- <-. destruct Hok as [Hn Hok]. rewrite (wrap_small 64 (bytes sys - n)) by (unfold is_u; lia).
      exists (<[i := (h - n, m)]> held). eapply sys_inv_update; [done|done|done|done|cbn [fst]; lia|cbn [fst]; lia|lia|cbn [snd]; rewrite Hpw at 1; f_equal; lia].
  - destruct Hok as (st1 & [= <-] & Hg & Hsh & Ha). exists (<[i := x]> held). eapply sys_inv_update; [done|done|done|done|lia|lia|lia|rewrite Hpw at 1; f_equal; lia].
Qed.

Lemma init_inv data limit limits : 0 <= limit < 2 ^ 63 -> Forall (fun l => 0 <= l.1 <= limit) limits ->
  sys_inv data limit (sys_init limits) ((fun _ => (0, 0)) <$> limits).
Proof.
  intros Hl Hf. assert (forall (g : Z * Z -> Z), g (0, 0) = 0 -> sum (g <$> ((fun _ => (0, 0)) <$> limits)) = 0) as Hsum.
  { intros g Hg. unfold sum. clear Hf. induction limits; cbn; [done|]. rewrite Hg. done. }
  split; cbn [threads bytes pages sys_init].
  - apply Forall2_fmap_l, Forall2_fmap_r, Forall_Forall2_diag. eapply Forall_impl; [exact Hf|]. intros [c ps] Hc. unfold compose, thread_ok. cbn [fst snd] in *. cbv zeta.
    splits; [|done|done]. destruct (empty_good data true c ps) as (H1 & H2 & H3); [lia|]. unfold good. splits; [done|done|cbn in *; lia].
  - apply Forall_fmap. eapply Forall_impl; [exact Hf|]. done.
  - by rewrite Hsum.
  - by rewrite Hsum.
  - lia.
Qed.

Lemma size_total st now m : map_Forall (entry_ok st now) m -> Z.of_nat (size m) <= total m.
Proof.
  induction m as [|k e m Hk IH] using map_ind; [done|]. intros [He Hm]%map_Forall_insert; [|done].
  rewrite map_size_insert_None, total_insert by done. pose proof (eo_size _ _ _ _ He). specialize (IH Hm). lia.
Qed.

(** When every store is idle, the counters are the stores' accounts. *)
Lemma idle_held data limit sts held : Forall2 (thread_ok data limit) (Idle <$> sts) held ->
  held = (fun st => (resident_bytes (inner st), Z.of_nat (size (entries (inner st))))) <$> sts /\
  sum ((fun st => Z.of_nat (size (entries (inner st)))) <$> sts) <= sum ((fun st => resident_bytes (inner st)) <$> sts).
Proof.
  revert held. induction sts as [|st sts IH]; intros held Hf; cbn in Hf.
  - apply Forall2_nil_inv_l in Hf as ->. done.
  - apply Forall2_cons_inv_l in Hf as ([h m] & held' & ((Hw & _) & Hs & Ha) & Hf & ->). destruct (IH held' Hf) as [-> Hle]. cbn [fst snd] in Ha.
    destruct Hw as [[_ Hr He] _ _]. unfold accounted in Ha. rewrite Hs in Ha. destruct Ha as [-> ->]. pose proof (size_total _ _ _ He).
    split; [cbn; by rewrite Hr|]. unfold sum in *. cbn [fmap list_fmap foldr]. lia.
Qed.

(** C20: The caches of all namespaces together stay within the shared budget: under any interleaving of their
    operations at the granularity of single atomic instructions, the counter of bytes never passes the
    limit, no operation panics, and whenever no operation is under way the counters are exactly the
    bytes and pages resident. *)
Theorem l1_budget_shared data limit limits sys :
  0 <= limit < 2 ^ 63 -> Forall (fun l => 0 <= l.1 <= limit) limits -> rtc (sys_step data) (sys_init limits) sys ->
  0 <= bytes sys <= limit /\ (forall i, threads sys !! i <> Some (Running (Ret None))) /\
  forall sts, threads sys = Idle <$> sts ->
    bytes sys = sum ((fun st => resident_bytes (inner st)) <$> sts) /\ pages sys = sum ((fun st => Z.of_nat (size (entries (inner st)))) <$> sts).
Proof.
  intros Hl Hf Hr. assert (exists held, sys_inv data limit sys held) as (held & [Hth Hnn Hb Hp Hlim]).
  { pose proof (init_inv data limit limits Hl Hf) as Hi. revert Hi. generalize ((fun _ : Z * Z => (0, 0)) <$> limits). induction Hr as [sys|s1 s2 s3 Hs _ IH]; intros held Hi; [eauto|].
    destruct (sys_step_inv data limit s1 s2 held Hi Hs) as [held' Hi']. by eapply IH. }
  assert (0 <= bytes sys) by (rewrite Hb; apply sum_nonneg; by apply Forall_fmap). splits; [done|lia| |].
  - intros i Hi. destruct (Forall2_lookup_l _ _ _ _ _ Hth Hi) as (x & _ & Hok). cbn in Hok. by destruct Hok as (st & ? & _).
  - intros sts Hsts. rewrite Hsts in Hth. destruct (idle_held data limit sts held Hth) as [-> Hle]. rewrite Hb, Hp, <-!list_fmap_compose. split; [done|].
    apply wrap_small. rewrite Hb, <-!list_fmap_compose in *. unfold is_u. split; [apply sum_nonneg, Forall_fmap, Forall_true; cbn; lia|].
    change (snd ∘ (fun st => (resident_bytes (inner st), Z.of_nat (size (entries (inner st)))))) with (fun st => Z.of_nat (size (entries (inner st)))).
    change (fst ∘ (fun st => (resident_bytes (inner st), Z.of_nat (size (entries (inner st)))))) with (fun st => resident_bytes (inner st)) in *. lia.
Qed.

End Theorems.

(** ** A cache of two pages *)

Section Demo.

#[local] Instance demo_order : HashOrder := {| order := fun _ m => map_to_list m; order_perm := fun _ m => Permutation_refl _ |}.

Definition demo_block : BlockId := mkBlockId (mkObjectId S3 (s "b") (s "k")) 0 12 (s "v1").
Definition demo_data (b : BlockId) : list byte := s "abcdefghijkl".

(** The store that an operation leaves when nothing is shared. *)
Definition result_store (p : Prog (option Store)) : Store := match p with Ret (Some st) => st | _ => disabled end.

Definition returns (p : Prog (option Store)) : bool := match p with Ret (Some _) => true | _ => false end.

Lemma result_possible p : returns p = true -> possible p (Some (result_store p)).
Proof. destruct p as [[st|]| | | |]; intros H; try done. apply possible_ret. Qed.

Definition demo_put (p : Z) : Op := OpInsert demo_block p (slice (Z.to_nat (p * 4)) 4 (demo_data demo_block)).

Definition demo_insert (p : Z) (st : Store) : Store := result_store (run_op (demo_put p) st).

Lemma demo_insert_reaches p st : reaches demo_data st -> clock (inner st) < 2 ^ 64 - 1 -> op_ok demo_data st (demo_put p) -> returns (run_op (demo_put p) st) = true ->
  reaches demo_data (demo_insert p st).
Proof. intros Hr Hc Ho Hp. by apply (reaches_op demo_data st (demo_put p)), result_possible. Qed.

Definition demo_store : Store := demo_insert 1 (demo_insert 0 (with_limits 8 4)).

Lemma demo_reaches : reaches demo_data demo_store.
Proof.
  unfold demo_store. apply demo_insert_reaches; [apply demo_insert_reaches; [apply reaches_own; lia| | |]| | |].
  1, 3, 4, 6: vm_compute; reflexivity.
  all: splits; vm_compute; done.
Qed.

Lemma l1_serves_source_witness : exists st, reaches demo_data st /\ resident_bytes (inner st) = 8 /\
  (get_range st demo_block 2 4).1 = Some (slice 2 4 (demo_data demo_block)).
Proof.
  exists demo_store. splits; [exact demo_reaches|vm_compute; reflexivity|].
  destruct (l1_serves_source demo_data demo_store demo_block 2 4 demo_reaches) as (_ & _ & Hr); [lia|lia|].
  assert ((get_range demo_store demo_block 2 4).1 = Some (s "cdef")) as E by (vm_compute; reflexivity). rewrite E in *. by destruct Hr as [-> _].
Defined.

Definition demo_third : MemoryInsert * Store :=
  match insert_page demo_store demo_block 2 (s "ijkl") with Ret (Some r) => r | _ => (Disabled, disabled) end.

Lemma l1_evicts_coldest_witness : demo_third.1 = Inserted [mkKey demo_block 0] /\
  insert_spec demo_store demo_block 2 (s "ijkl") demo_third.1 demo_third.2 /\ resident_bytes (inner demo_third.2) <= capacity_bytes demo_store.
Proof.
  split; [vm_compute; reflexivity|].
  assert (possible (insert_page demo_store demo_block 2 (s "ijkl")) (Some demo_third)) as Hp.
  { assert (match insert_page demo_store demo_block 2 (s "ijkl") with Ret (Some _) => true | _ => false end = true) as E by (vm_compute; reflexivity).
    unfold demo_third. revert E. destruct (insert_page demo_store demo_block 2 (s "ijkl")) as [[r|]| | | |]; intros E; try done. apply possible_ret. }
  destruct (l1_evicts_coldest demo_data demo_store demo_block 2 (s "ijkl") (Some demo_third) demo_reaches) as (o & st & E & H1 & H2);
    [vm_compute; reflexivity|lia|vm_compute; reflexivity|exact Hp|]. apply (inj Some) in E. rewrite E. exact (conj H1 H2).
Defined.

(** The only store of a system goes on. *)
Definition next_sys (sys : Sys) : Sys :=
  match threads sys with
  | [Running (Ret (Some st))] => mkSys (bytes sys) (pages sys) [Idle st]
  | [Running p] => match instruction (bytes sys) (pages sys) p with Some (b, n, p) => mkSys b n [Running p] | None => sys end
  | _ => sys
  end.

Lemma next_sys_steps data sys : rtc (sys_step data) sys (next_sys sys).
Proof.
  destruct sys as [b n ths]. unfold next_sys. cbn [threads bytes pages]. destruct ths as [|[st|p] [|]]; [done|done|done| |by destruct p as [[]| | | |]].
  assert (forall r, instruction b n p = Some r -> rtc (sys_step data) (mkSys b n [Running p]) (mkSys r.1.1 r.1.2 [Running r.2])) as Hi.
  { intros [[b' n'] p'] E. apply rtc_once, (step_instruction data (mkSys b n [Running p]) 0 p b' n' p'); done. }
  destruct p as [[st|]|m c k|k|k|m k]; [apply rtc_once, (step_finish data (mkSys b n [Running (Ret (Some st))]) 0 st); done|done| | | |];
    cbn [instruction] in *; [|by apply (Hi _ eq_refl)..]. specialize (Hi _ eq_refl). by destruct (_ && _).
Qed.

Definition demo_start : Sys := mkSys 0 0 (<[0%nat := Running (run_op (demo_put 0) (with_shared_budget 8 4))]> (threads (sys_init [(8, 4)]))).

Definition demo_sys : Sys := Nat.iter 3 next_sys demo_start.

Lemma demo_sys_reached : rtc (sys_step demo_data) (sys_init [(8, 4)]) demo_sys.
Proof.
  apply rtc_l with demo_start.
  - apply (step_start demo_data (sys_init [(8, 4)]) 0 (with_shared_budget 8 4) (demo_put 0)); [reflexivity|vm_compute; reflexivity|splits; vm_compute; done].
  - unfold demo_sys. generalize demo_start. intros sys. generalize 3%nat. intros n. induction n as [|n IH]; [done|]. etransitivity; [exact IH|apply next_sys_steps].
Qed.

Lemma l1_budget_shared_witness : bytes demo_sys = 4 /\ pages demo_sys = 1 /\ bytes demo_sys <= 8 /\ forall sts, threads demo_sys = Idle <$> sts ->
  bytes demo_sys = sum ((fun st => resident_bytes (inner st)) <$> sts).
Proof.
  destruct (l1_budget_shared demo_data 8 [(8, 4)] demo_sys) as (H1 & _ & H2); [lia|repeat constructor; cbn; lia|exact demo_sys_reached|].
  splits; [vm_compute; reflexivity|vm_compute; reflexivity|apply H1|]. intros sts E. apply (H2 sts E).
Defined.

End Demo.

End MemorySpec.
