(* ===== verification/ReadPlan.v ===== *)
(** Splitting a byte read into per-block segments
    (crates/talon-cache-client/src/read_plan.rs). *)

From S2P Require Import Prelude Key.

Module ReadPlan.
Import Key.

Record BlockSegment := mkSegment {
  block : BlockId;
  offset_in_block : Z;
  seg_len : Z
}.

(** The lazy plan: an iterator over [position, end). *)
Record ReadPlan := mkPlan {
  rp_object : ObjectId;
  rp_version : str;
  rp_block_size : Z;
  position : Z;
  end_ : Z
}.

(** [Iterator::next], with the casts to [u32] written out. *)
Definition next (p : ReadPlan) : option (BlockSegment * ReadPlan) :=
  if end_ p <=? position p then None else
  let bs := rp_block_size p in
  let block_start := position p / bs * bs in
  let off := wrap 32 (position p - block_start) in
  let segment_end := Z.min (saturating_add 64 block_start bs) (end_ p) in
  let len := wrap 32 (segment_end - position p) in
  Some (mkSegment (mkBlockId (rp_object p) block_start bs (rp_version p)) off len,
        mkPlan (rp_object p) (rp_version p) bs segment_end (end_ p)).

Definition iter_read (object : ObjectId) (offset len block_size : Z) (version : str) (size : Z)
  : ReadPlan :=
  let e := if (block_size =? 0) || (len =? 0) || (size <=? offset) then offset
           else Z.min (saturating_add 64 offset len) size in
  mkPlan object version block_size offset e.

(** [collect], with fuel for the calls of [next]. *)
Fixpoint collect (fuel : nat) (p : ReadPlan) : option (list BlockSegment) :=
  match fuel with
  | O => None
  | S fuel =>
    match next p with
    | None => Some []
    | Some (seg, p') => cons seg <$> collect fuel p'
    end
  end.

(** One [next] per block touched, and the one that ends the iteration. *)
Definition plan_fuel (p : ReadPlan) : nat :=
  S (Z.to_nat ((end_ p - 1) / rp_block_size p - position p / rp_block_size p + 1)).

Definition plan_read (obj : ObjectId) (offset len block_size : Z) (version : str) (size : Z)
  : option (list BlockSegment) :=
  let p := iter_read obj offset len block_size version size in collect (plan_fuel p) p.

(** ** What a plan covers *)

(** The file offsets a segment names. *)
Definition seg_bytes (sg : BlockSegment) : list Z :=
  seqZ (offset (block sg) + offset_in_block sg) (seg_len sg).

Record seg_ok (p : ReadPlan) (sg : BlockSegment) : Prop := {
  so_object : object (block sg) = rp_object p;
  so_version : version (block sg) = rp_version p;
  so_size : block_size (block sg) = rp_block_size p;
  so_aligned : (rp_block_size p | offset (block sg));
  so_nonempty : 0 < seg_len sg;
  so_inside : 0 <= offset_in_block sg /\ offset_in_block sg + seg_len sg <= rp_block_size p
}.

Record plan_inv (p : ReadPlan) : Prop := {
  pi_bs : 0 < rp_block_size p /\ is_u32 (rp_block_size p);
  pi_pos : 0 <= position p <= end_ p;
  pi_end : is_u64 (end_ p)
}.

(** One step: the segment is the rest of the block the position lies in, up to the end. *)
Lemma next_step p :
  plan_inv p -> position p < end_ p ->
  let k := position p / rp_block_size p in
  let e := Z.min ((k + 1) * rp_block_size p) (end_ p) in
  exists sg, next p = Some (sg, mkPlan (rp_object p) (rp_version p) (rp_block_size p) e (end_ p)) /\
  seg_ok p sg /\ offset (block sg) = k * rp_block_size p /\
  offset (block sg) + offset_in_block sg = position p /\ seg_len sg = e - position p /\
  position p < e.
Proof.
  intros [[Hb Hb32] Hp He] Hlt k e. unfold is_u in *. unfold next.
  rewrite (proj2 (Z.leb_gt _ _)) by done.
  pose proof (Z.div_mod (position p) (rp_block_size p) ltac:(lia)) as Hdm.
  pose proof (Z.mod_pos_bound (position p) (rp_block_size p) Hb) as Hm. fold k in Hdm |- *.
  replace (Z.min (saturating_add 64 (k * rp_block_size p) (rp_block_size p)) (end_ p)) with e
    by (unfold e, saturating_add; lia).
  rewrite !wrap_small by (unfold is_u, e; lia).
  eexists. split; [done|]. simpl. splits; try (unfold e; lia).
  split; simpl; try done; [by exists k|unfold e; lia|unfold e; lia].
Qed.

(** The blocks still to be visited. *)
Definition steps (p : ReadPlan) : nat :=
  if position p <? end_ p
  then Z.to_nat ((end_ p - 1) / rp_block_size p - position p / rp_block_size p + 1) else 0.

Lemma steps_fuel p : (steps p < plan_fuel p)%nat.
Proof. unfold steps, plan_fuel. destruct (_ <? _); lia. Qed.

Lemma steps_next p e :
  plan_inv p -> position p < end_ p ->
  e = Z.min ((position p / rp_block_size p + 1) * rp_block_size p) (end_ p) ->
  (steps (mkPlan (rp_object p) (rp_version p) (rp_block_size p) e (end_ p)) < steps p)%nat /\
  (e < end_ p -> e / rp_block_size p = position p / rp_block_size p + 1).
Proof.
  intros [[Hb _] Hp _] Hlt ->. unfold steps. simpl.
  set (bs := rp_block_size p) in *. set (k := position p / bs).
  assert (k <= (end_ p - 1) / bs) as Hk by (apply Z.div_le_mono; lia).
  rewrite (proj2 (Z.ltb_lt (position p) (end_ p))) by done.
  destruct (Z.lt_ge_cases ((k + 1) * bs) (end_ p)) as [He|He].
  - rewrite (Z.min_l _ (end_ p)), (proj2 (Z.ltb_lt _ _)), Z.div_mul by lia. split; [lia|done].
  - rewrite (Z.min_r _ (end_ p)), Z.ltb_irrefl by lia. lia.
Qed.

Lemma collect_spec fuel p :
  plan_inv p -> (steps p < fuel)%nat ->
  exists segs, collect fuel p = Some segs /\ Forall (seg_ok p) segs /\
  segs ≫= seg_bytes = seqZ (position p) (end_ p - position p) /\
  forall i sg, segs !! i = Some sg ->
    offset (block sg) = (position p / rp_block_size p + Z.of_nat i) * rp_block_size p.
Proof.
  revert p. induction fuel as [|fuel IH]; intros p Hi Hf; [lia|]. cbn [collect].
  destruct (Z.lt_ge_cases (position p) (end_ p)) as [Hlt|Hge]; last first.
  { unfold next. rewrite (proj2 (Z.leb_le _ _)) by done. eexists. split; [done|].
    splits; [done| |done]. by rewrite seqZ_nil by lia. }
  destruct (next_step p Hi Hlt) as (sg & Hn & Hok & Hoff & Hpos & Hlen & Hadv).
  set (e := Z.min _ _) in *. destruct (steps_next p e Hi Hlt eq_refl) as [Hs Hdiv].
  rewrite Hn. destruct (IH (mkPlan (rp_object p) (rp_version p) (rp_block_size p) e (end_ p)))
    as (segs & Hc & Hall & Hbytes & Hidx); [|lia|].
  { destruct Hi as [? ? ?]. split; simpl; [done|unfold e; lia|done]. }
  rewrite Hc. exists (sg :: segs). cbn [rp_object rp_version rp_block_size position end_] in *.
  splits; [done| | |].
  - constructor; [done|]. eapply Forall_impl; [exact Hall|]. by intros x [].
  - rewrite bind_cons, Hbytes. unfold seg_bytes. rewrite Hpos, Hlen.
    replace (end_ p - position p) with ((e - position p) + (end_ p - e)) by lia.
    rewrite seqZ_app by (unfold e in *; lia). do 2 f_equal. lia.
  - intros [|i] x Hx; simpl in Hx; simplify_eq.
    + rewrite Hoff. lia.
    + rewrite (Hidx i x Hx), Hdiv; [lia|].
      destruct (Z.lt_ge_cases e (end_ p)) as [|Hee]; [done|]. exfalso.
      destruct fuel; [lia|]. cbn [collect] in Hc. unfold next in Hc. simpl in Hc.
      by rewrite (proj2 (Z.leb_le _ _)) in Hc by done; simplify_eq.
Qed.

(** ** Theorems *)

(** C37: A read plan always terminates, and its segments are exactly the requested bytes cut
    at end of file, in order, each one inside one block-size aligned block of the object's
    version, the blocks consecutive. *)
Theorem plan_read_exact obj offset len block_size version size :
  is_u64 offset -> is_u64 len -> is_u64 size -> is_u32 block_size -> 0 < block_size ->
  exists segs, plan_read obj offset len block_size version size = Some segs /\
  segs ≫= seg_bytes = seqZ offset (Z.min len (saturating_sub size offset)) /\
  Forall (fun sg => 0 < seg_len sg /\ 0 <= offset_in_block sg /\
    offset_in_block sg + seg_len sg <= block_size) segs /\
  forall i sg, segs !! i = Some sg ->
    block sg = mkBlockId obj ((offset / block_size + Z.of_nat i) * block_size) block_size version.
Proof.
  intros Ho Hl Hs Hb Hb0. unfold plan_read.
  set (p := iter_read obj offset len block_size version size).
  assert (plan_inv p /\ end_ p = offset + Z.min len (saturating_sub size offset)) as [Hi He].
  { unfold p, iter_read, saturating_add, saturating_sub, is_u in *.
    rewrite (proj2 (Z.eqb_neq _ _)) by lia. simpl.
    destruct (Z.eqb_spec len 0), (Z.leb_spec size offset); simpl; split; try lia;
      split; simpl; unfold is_u; lia. }
  destruct (collect_spec (plan_fuel p) p Hi (steps_fuel p)) as (segs & Hc & Hok & Hb1 & Hidx).
  exists segs. rewrite Hc, Hb1, He. splits; [done|simpl; f_equal; lia| |].
  - eapply Forall_impl; [exact Hok|]. intros sg []. simpl in *. lia.
  - intros i sg Hx. specialize (Hidx i sg Hx). simpl in Hidx. rewrite Forall_lookup in Hok.
    destruct (Hok i sg Hx). simpl in *. destruct (block sg). simpl in *. by subst.
Qed.

Lemma plan_read_exact_witness :
  exists segs, plan_read (mkObjectId S3 [] []) 6 9 4 [] 13 = Some segs /\
  segs ≫= seg_bytes = [6; 7; 8; 9; 10; 11; 12].
Proof.
  destruct (plan_read_exact (mkObjectId S3 [] []) 6 9 4 [] 13) as (segs & Hp & Hb & _);
    [unfold is_u; lia..|]. exists segs. by rewrite Hp, Hb.
Defined.

End ReadPlan.
