(* ===== verification/RateLimit.v ===== *)
(** The rate limits of cache namespaces (crates/talon-core/src/rate_limit.rs).

    A [Gcra] cell's state is one timestamp, advanced by compare-and-swap. [f64] is
    IEEE-754 binary64, as [SpecFloat] computes it. The cell is modelled twice: as the
    sequential [charge_at], and as the loop that threads run on the shared timestamp,
    with every interleaving of loads and compare-and-swaps. *)

From Stdlib Require Import SpecFloat.
From S2P Require Import Prelude Key Namespace.

Module RateLimit.
Import Namespace.
Import Key.

Inductive RateMetric := ReadIops | ReadThroughput | OriginReadBytes.

Definition RateMetric_ALL : list RateMetric := [ReadIops; ReadThroughput; OriginReadBytes].

Definition label (m : RateMetric) : str :=
  match m with
  | ReadIops => s "read_iops"
  | ReadThroughput => s "read_throughput"
  | OriginReadBytes => s "origin_read_bytes"
  end.

(** *** [f64] *)

Abbreviation f64 := spec_float.
Definition f64_of_Z (z : Z) : f64 := binary_normalize 53 1024 z 0 false.
Definition f64_zero : f64 := S754_zero false.
Definition f64_mul : f64 -> f64 -> f64 := SFmul 53 1024.

Definition f64_is_finite (x : f64) : bool :=
  match x with S754_zero _ | S754_finite _ _ _ => true | S754_infinity _ | S754_nan => false end.

(** [f64::max]: the other operand if one is a NaN. *)
Definition f64_max (x y : f64) : f64 :=
  match x, y with
  | S754_nan, _ => y
  | _, S754_nan => x
  | _, _ => if SFltb x y then y else x
  end.

(** The cast [as u64]: truncating and saturating, zero for a NaN. *)
Definition f64_as_u64 (x : f64) : Z :=
  match x with
  | S754_nan | S754_zero _ => 0
  | S754_infinity sign => if sign then 0 else u64_max
  | S754_finite sign m e =>
    if sign then 0 else
    Z.min (if 0 <=? e then Z.pos m * 2 ^ e else Z.pos m / 2 ^ (- e)) u64_max
  end.

(** *** Limits and policies *)

Inductive RateLimitError := ZeroRate | InvalidBurstRatio (r : f64).

Record RateLimit := mkRateLimit { limit_rate : Z; burst_ratio : f64 }.

Definition RateLimit_new (rate : Z) (burst : f64) : result RateLimitError RateLimit :=
  if rate =? 0 then Err ZeroRate else
  if negb (f64_is_finite burst) || SFleb burst f64_zero then Err (InvalidBurstRatio burst) else
  Ok (mkRateLimit rate burst).

Record MetricLimits := mkMetricLimits {
  read_iops : option RateLimit;
  read_throughput : option RateLimit
}.

Definition MetricLimits_is_empty (l : MetricLimits) : bool :=
  negb (bool_decide (is_Some (read_iops l))) && negb (bool_decide (is_Some (read_throughput l))).

(** [for x in xs { f(x)?; }]. *)
Fixpoint try_each {A} (f : A -> result RateLimitError unit) (l : list A)
  : result RateLimitError unit :=
  match l with [] => Ok tt | x :: l => f x ≫= fun _ => try_each f l end.

Definition limit_validate (l : RateLimit) : result RateLimitError unit :=
  RateLimit_new (limit_rate l) (burst_ratio l) ≫= fun _ => Ok tt.

Definition MetricLimits_validate (l : MetricLimits) : result RateLimitError unit :=
  try_each limit_validate (omap id [read_iops l; read_throughput l]).

(** The overrides in the order the map iterates them. *)
Record RateLimitPolicy := mkPolicy {
  enabled : bool;
  default_limits : MetricLimits;
  overrides : list (str * MetricLimits)
}.

Fixpoint override (name : str) (l : list (str * MetricLimits)) : option MetricLimits :=
  match l with
  | [] => None
  | (k, v) :: l => if bool_decide (k = name) then Some v else override name l
  end.

Definition limits_for (p : RateLimitPolicy) (n : NamespaceId) : MetricLimits :=
  default (default_limits p) (override (effective_name n) (overrides p)).

Definition policy_validate (p : RateLimitPolicy) : result RateLimitError unit :=
  MetricLimits_validate (default_limits p) ≫= fun _ =>
  try_each MetricLimits_validate (overrides p).*2.

(** *** The cell *)

Definition NANOS_PER_SEC : Z := 1000000000.

Inductive RateDecision := IsAdmitted | Throttled (retry_after : Z).

Record Gcra := mkGcra { tat_nanos : Z; rate : Z; tolerance_nanos : Z }.

Definition Gcra_new (limit : RateLimit) : Gcra :=
  mkGcra 0 (Z.max (limit_rate limit) 1)
    (f64_as_u64 (f64_mul (f64_max (burst_ratio limit) f64_zero) (f64_of_Z NANOS_PER_SEC))).

Definition increment (g : Gcra) (cost : Z) : Z :=
  Z.min (cost * NANOS_PER_SEC / rate g) u64_max.

Definition ceiling (g : Gcra) (cost : Z) : Z := Z.max (tolerance_nanos g) (increment g cost).

(** The body of the loop on a loaded timestamp: the timestamp to publish, or the delay. *)
Definition attempt (g : Gcra) (cost now tat : Z) : Z + Z :=
  let new_tat := saturating_add 64 (Z.max tat now) (increment g cost) in
  if saturating_sub new_tat now <=? ceiling g cost then inl new_tat
  else inr (saturating_sub (saturating_sub new_tat (ceiling g cost)) now).

Definition set_tat (g : Gcra) (tat : Z) : Gcra := mkGcra tat (rate g) (tolerance_nanos g).

(** [charge_at] with no other thread: the first compare-and-swap succeeds. *)
Definition charge_at (g : Gcra) (cost now : Z) : RateDecision * Gcra :=
  if cost =? 0 then (IsAdmitted, g) else
  match attempt g cost now (tat_nanos g) with
  | inl new_tat => (IsAdmitted, set_tat g new_tat)
  | inr retry => (Throttled retry, g)
  end.

(** *** Threads *)

(** A call of [charge_at] in progress: before the load, between the load and the
    compare-and-swap, returned. *)
Inductive Pc := Start | Loaded (tat : Z) | Returned (d : RateDecision).

Record Call := mkCall { cost : Z; now : Z; pc : Pc }.

(** The cell, the calls, and the admitted charges in the order of their swaps. *)
Record World := mkWorld { cell : Gcra; calls : list Call; admitted : list (Z * Z) }.

Definition at_pc (c : Call) (p : Pc) : Call := mkCall (cost c) (now c) p.

Inductive cas_step : World -> World -> Prop :=
  | call_spawn w c n :
      is_u64 c -> is_u64 n ->
      cas_step w (mkWorld (cell w) (calls w ++ [mkCall c n Start]) (admitted w))
  | call_zero w i c :
      calls w !! i = Some c -> pc c = Start -> cost c = 0 ->
      cas_step w (mkWorld (cell w) (<[i := at_pc c (Returned IsAdmitted)]> (calls w)) (admitted w))
  | call_load w i c :
      calls w !! i = Some c -> pc c = Start -> cost c <> 0 ->
      cas_step w (mkWorld (cell w) (<[i := at_pc c (Loaded (tat_nanos (cell w)))]> (calls w))
                   (admitted w))
  | call_refuse w i c tat retry :
      calls w !! i = Some c -> pc c = Loaded tat ->
      attempt (cell w) (cost c) (now c) tat = inr retry ->
      cas_step w (mkWorld (cell w) (<[i := at_pc c (Returned (Throttled retry))]> (calls w))
                   (admitted w))
  | call_swap w i c new_tat :
      calls w !! i = Some c -> pc c = Loaded (tat_nanos (cell w)) ->
      attempt (cell w) (cost c) (now c) (tat_nanos (cell w)) = inl new_tat ->
      cas_step w (mkWorld (set_tat (cell w) new_tat)
                   (<[i := at_pc c (Returned IsAdmitted)]> (calls w))
                   (admitted w ++ [(cost c, now c)]))
  (** A failed swap: another thread advanced the timestamp, or the weak exchange failed. *)
  | call_retry w i c tat new_tat :
      calls w !! i = Some c -> pc c = Loaded tat ->
      attempt (cell w) (cost c) (now c) tat = inl new_tat ->
      cas_step w (mkWorld (cell w) (<[i := at_pc c Start]> (calls w)) (admitted w)).

Inductive reachable (g : Gcra) : World -> Prop :=
  | reach_init : reachable g (mkWorld g [] [])
  | reach_step w w' : reachable g w -> cas_step w w' -> reachable g w'.

(** The charges one after the other on a cell, all of them admitted. *)
Fixpoint replay (g : Gcra) (l : list (Z * Z)) : option Gcra :=
  match l with
  | [] => Some g
  | (c, n) :: l =>
    match charge_at g c n with
    | (IsAdmitted, g') => replay g' l
    | (Throttled _, _) => None
    end
  end.

(** The time the charges take at the sustained rate. *)
Definition drain_time (g : Gcra) (l : list (Z * Z)) : Z :=
  foldr Z.add 0 ((fun x => increment g x.1) <$> l).

(** ** Charges in sequence *)

Lemma replay_app g l k : replay g (l ++ k) = replay g l ≫= fun g' => replay g' k.
Proof.
  revert g. induction l as [|[c n] l IH]; intros g; [done|]. simpl.
  destruct (charge_at g c n) as [[] g']; [apply IH|done].
Qed.

(** An admitted charge moves the timestamp forward by its increment, from now if the cell
    was idle, and never past the ceiling. *)
Lemma charge_admitted g c n g' :
  0 < rate g -> 0 <= c -> 0 <= tat_nanos g <= u64_max -> is_u64 n ->
  charge_at g c n = (IsAdmitted, g') ->
  rate g' = rate g /\ tolerance_nanos g' = tolerance_nanos g /\
  tat_nanos g <= tat_nanos g' <= u64_max /\
  (tat_nanos g' < u64_max -> tat_nanos g + increment g c <= tat_nanos g') /\
  (c <> 0 -> tat_nanos g' <= n + ceiling g c /\
    (tat_nanos g' < u64_max -> n + increment g c <= tat_nanos g')).
Proof.
  intros Hr Hc Ht Hn. unfold charge_at, attempt.
  assert (0 <= increment g c) as Hinc.
  { unfold increment, u64_max, NANOS_PER_SEC.
    pose proof (Z.div_pos (c * 1000000000) (rate g)). lia. }
  unfold is_u in Hn. change (2 ^ 64) with (u64_max + 1) in Hn.
  destruct (Z.eqb_spec c 0) as [->|Hne].
  - intros [= <-]. splits; try done; try lia. intros _.
    replace (increment g 0) with 0; [lia|]. unfold increment. rewrite Z.div_0_l by lia. done.
  - destruct (Z.leb_spec (saturating_sub (saturating_add 64 (Z.max (tat_nanos g) n) (increment g c)) n)
      (ceiling g c)) as [Hle|]; [|done].
    intros [= <-]. cbn [rate tolerance_nanos tat_nanos set_tat].
    unfold saturating_add, saturating_sub in *. change (2 ^ 64 - 1) with u64_max in *.
    splits; try done; try lia; intros; lia.
Qed.

Definition charges_ok (l : list (Z * Z)) : Prop :=
  Forall (fun x => is_u64 x.1 /\ x.1 <> 0 /\ is_u64 x.2) l.

Lemma replay_spec g l g' :
  0 < rate g -> 0 <= tat_nanos g <= u64_max -> charges_ok l -> replay g l = Some g' ->
  rate g' = rate g /\ tolerance_nanos g' = tolerance_nanos g /\
  tat_nanos g <= tat_nanos g' <= u64_max /\
  (tat_nanos g' < u64_max -> tat_nanos g + drain_time g l <= tat_nanos g').
Proof.
  revert g. induction l as [|[c n] l IH]; intros g Hr Ht Hok; simpl.
  { intros [= <-]. unfold drain_time. simpl. splits; try done; lia. }
  apply Forall_cons in Hok as [(Hc & Hc0 & Hn) Hok]. simpl in *.
  destruct (charge_at g c n) as [[] g1] eqn:E; [|done]. intros Hl.
  apply charge_admitted in E as (E1 & E2 & E3 & E4 & E5); try done; [|unfold is_u in Hc; lia].
  apply IH in Hl as (L1 & L2 & L3 & L4); try done; try lia.
  rewrite L1, L2. splits; try done; try lia. intros Hlt. specialize (L4 Hlt).
  specialize (E4 ltac:(lia)). unfold drain_time in *. rewrite fmap_cons. cbn [foldr fst].
  unfold increment in *. rewrite E1 in L4. lia.
Qed.

Lemma replay_last g l c n g' :
  0 < rate g -> 0 <= tat_nanos g <= u64_max -> charges_ok l ->
  last l = Some (c, n) -> replay g l = Some g' ->
  tat_nanos g' <= n + ceiling g c.
Proof.
  intros Hr Ht Hok Hl. apply last_Some in Hl as [k ->]. rewrite replay_app.
  apply Forall_app in Hok as [Hk Hc]. apply Forall_singleton in Hc as (Hc & Hc0 & Hn). simpl in *.
  destruct (replay g k) as [g1|] eqn:Ek; [|done]. cbn [mbind option_bind].
  apply replay_spec in Ek as (K1 & K2 & K3 & K4); try done.
  destruct (charge_at g1 c n) as [[] g2] eqn:E; [|done]. intros [= <-].
  apply charge_admitted in E as (_ & _ & _ & _ & E5); try lia; try done; [|unfold is_u in Hc; lia].
  destruct (E5 Hc0) as [E6 _]. unfold ceiling, increment in *. by rewrite K1, K2 in E6.
Qed.

(** The charges of a run of admissions fit between its ends and the burst. *)
Lemma replay_window g l c1 n1 c2 n2 g' :
  0 < rate g -> 0 <= tat_nanos g <= u64_max -> charges_ok l ->
  head l = Some (c1, n1) -> last l = Some (c2, n2) -> replay g l = Some g' ->
  n2 + ceiling g c2 < u64_max ->
  drain_time g l <= n2 - n1 + ceiling g c2.
Proof.
  intros Hr Ht Hok Hh Hl Hrep Hmax. pose proof (replay_last g l c2 n2 g' Hr Ht Hok Hl Hrep) as Hle.
  destruct l as [|[c n] l]; [done|]. simpl in Hh, Hrep. simplify_eq.
  apply Forall_cons in Hok as [(Hc & Hc0 & Hn) Hok]. simpl in *.
  destruct (charge_at g c1 n1) as [[] g1] eqn:E; [|done].
  apply charge_admitted in E as (E1 & E2 & E3 & _ & E5); try done; [|unfold is_u in Hc; lia].
  destruct (E5 Hc0) as [_ E6].
  apply replay_spec in Hrep as (L1 & L2 & L3 & L4); try done; try lia.
  specialize (L4 ltac:(lia)). specialize (E6 ltac:(lia)).
  unfold drain_time in *. rewrite fmap_cons. cbn [foldr fst].
  unfold increment in *. rewrite E1 in L4. lia.
Qed.

(** ** Threads *)

(** A pending or returned call agrees with the cell as it was at some point of the
    sequence of admitted charges. *)
Definition call_ok (g : Gcra) (l : list (Z * Z)) (c : Call) : Prop :=
  is_u64 (cost c) /\ is_u64 (now c) /\
  match pc c with
  | Start => True
  | Loaded tat => cost c <> 0 /\
      exists k g1, k `prefix_of` l /\ replay g k = Some g1 /\ tat_nanos g1 = tat
  | Returned IsAdmitted => cost c = 0 \/ (cost c, now c) ∈ l
  | Returned (Throttled r) =>
      exists k g1, k `prefix_of` l /\ replay g k = Some g1 /\
      charge_at g1 (cost c) (now c) = (Throttled r, g1)
  end.

Record world_inv (g : Gcra) (w : World) : Prop := {
  wi_replay : replay g (admitted w) = Some (cell w);
  wi_charges : charges_ok (admitted w);
  wi_calls : Forall (call_ok g (admitted w)) (calls w)
}.

Lemma call_ok_mono g l x c : call_ok g l c -> call_ok g (l ++ [x]) c.
Proof.
  intros (H1 & H2 & H3). unfold call_ok. splits; [done..|]. destruct (pc c) as [|tat|[|r]]; [done| | |].
  - destruct H3 as (? & k & g1 & Hk & ?). split; [done|]. exists k, g1. split; [|done].
    by apply prefix_app_r.
  - rewrite elem_of_app. tauto.
  - destruct H3 as (k & g1 & Hk & ?). exists k, g1. split; [|done]. by apply prefix_app_r.
Qed.

Lemma attempt_same g1 g2 c n t :
  rate g1 = rate g2 -> tolerance_nanos g1 = tolerance_nanos g2 ->
  attempt g1 c n t = attempt g2 c n t.
Proof. intros H1 H2. unfold attempt, ceiling, increment. by rewrite H1, H2. Qed.

Lemma replay_params g l g' :
  replay g l = Some g' -> rate g' = rate g /\ tolerance_nanos g' = tolerance_nanos g.
Proof.
  revert g. induction l as [|[c n] l IH]; intros g; simpl; [by intros [= <-]|].
  unfold charge_at. destruct (c =? 0); [apply IH|]. destruct (attempt _ _ _ _); [|done].
  intros H. apply IH in H. done.
Qed.

Lemma reachable_inv g w : reachable g w -> world_inv g w.
Proof.
  induction 1 as [|w w' _ [Hrep Hch Hcalls] Hstep]; [split; [done|apply Forall_nil_2|apply Forall_nil_2]|].
  destruct Hstep as [w c n Hc Hn|w i c Hi Hpc H0|w i c Hi Hpc H0|w i c tat r Hi Hpc Ha
    |w i c t' Hi Hpc Ha|w i c tat t' Hi Hpc Ha]; split; cbn [cell calls admitted]; try done.
  - apply Forall_app. by rewrite Forall_singleton.
  - apply Forall_insert; [done|]. destruct (Forall_lookup_1 _ _ _ _ Hcalls Hi) as (? & ? & _).
    unfold call_ok; splits; simpl; auto.
  - apply Forall_insert; [done|]. destruct (Forall_lookup_1 _ _ _ _ Hcalls Hi) as (? & ? & _).
    unfold call_ok; splits; simpl; [done..|]. split; [done|]. by exists (admitted w), (cell w).
  - apply Forall_insert; [done|]. destruct (Forall_lookup_1 _ _ _ _ Hcalls Hi) as (? & ? & Hp).
    rewrite Hpc in Hp. destruct Hp as (Hne & k & g1 & Hk & Hg1 & Ht). unfold call_ok; splits; simpl; [done..|].
    exists k, g1. splits; [done..|]. unfold charge_at. rewrite (proj2 (Z.eqb_neq _ _)) by done.
    destruct (replay_params _ _ _ Hrep), (replay_params _ _ _ Hg1).
    by rewrite Ht, (attempt_same g1 (cell w)), Ha by congruence.
  - destruct (Forall_lookup_1 _ _ _ _ Hcalls Hi) as (_ & _ & Hp). rewrite Hpc in Hp.
    destruct Hp as [Hne _]. rewrite replay_app, Hrep. cbn. unfold charge_at.
    by rewrite (proj2 (Z.eqb_neq _ _)), Ha by done.
  - destruct (Forall_lookup_1 _ _ _ _ Hcalls Hi) as (? & ? & Hp). rewrite Hpc in Hp.
    destruct Hp as [Hne _]. apply Forall_app. by rewrite Forall_singleton.
  - destruct (Forall_lookup_1 _ _ _ _ Hcalls Hi) as (? & ? & _). apply Forall_insert.
    + eapply Forall_impl; [exact Hcalls|]. intros. by apply call_ok_mono.
    + unfold call_ok; splits; simpl; [done..|]. right. apply elem_of_app. right. by apply list_elem_of_singleton.
  - apply Forall_insert; [done|]. by destruct (Forall_lookup_1 _ _ _ _ Hcalls Hi) as (? & ? & _).
Qed.

(** ** Theorems *)


(** Ten units per second with one second of burst. Two calls load the same timestamp; the
    second one's swap wins, the first retries and is throttled. *)
Definition example_cell : Gcra := Gcra_new (mkRateLimit 10 (f64_of_Z 1)).

Definition example_world : World :=
  mkWorld (set_tat example_cell 600000000)
    [mkCall 5 0 (Returned (Throttled 100000000)); mkCall 6 0 (Returned IsAdmitted)] [(6, 0)].

Lemma example_cell_eq : example_cell = mkGcra 0 10 1000000000.
Proof. by vm_compute. Qed.

Lemma reach_to g w v w' : reachable g w -> cas_step w v -> v = w' -> reachable g w'.
Proof. intros H1 H2 <-. by eapply reach_step. Qed.

Lemma example_reachable : reachable example_cell example_world.
Proof.
  unfold example_world. rewrite example_cell_eq. set (g := mkGcra 0 10 1000000000).
  eapply reach_to.
  { eapply reach_step. { eapply reach_step. { eapply reach_step. { eapply reach_step.
    { eapply reach_step. { eapply reach_step. { eapply reach_step. { apply reach_init. }
    { apply (call_spawn _ 5 0); by vm_compute. } }
    { apply (call_spawn _ 6 0); by vm_compute. } }
    { by apply (call_load _ 0 (mkCall 5 0 Start)). } }
    { by apply (call_load _ 1 (mkCall 6 0 Start)). } }
    { by apply (call_swap _ 1 (mkCall 6 0 (Loaded 0)) 600000000). } }
    { by apply (call_retry _ 0 (mkCall 5 0 (Loaded 0)) 0 500000000). } }
    { by apply (call_load _ 0 (mkCall 5 0 Start)). } }
  { by apply (call_refuse _ 0 (mkCall 5 0 (Loaded 600000000)) 600000000 100000000). }
  done.
Qed.




(** The delay a throttled caller gets is exact: the same charge is admitted after it and
    refused before it, and the cell is unchanged. A charge on an idle cell is always admitted,
    however large. *)
Theorem retry_after_exact g c n :
  0 < rate g -> is_u64 c -> is_u64 n -> tat_nanos g + increment g c <= u64_max ->
  (tat_nanos g <= n -> exists g', charge_at g c n = (IsAdmitted, g')) /\
  forall r g', charge_at g c n = (Throttled r, g') ->
  g' = g /\ 0 < r /\
  (exists g'', charge_at g c (n + r) = (IsAdmitted, g'')) /\
  forall n', n <= n' < n + r -> exists r', charge_at g c n' = (Throttled r', g) /\ n' + r' = n + r.
Proof.
  intros Hr Hc Hn Hmax. unfold is_u in *. change (2 ^ 64) with (u64_max + 1) in *.
  assert (0 <= increment g c <= u64_max) as Hinc.
  { unfold increment, NANOS_PER_SEC, u64_max.
    pose proof (Z.div_pos (c * 1000000000) (rate g)). lia. }
  unfold charge_at. destruct (Z.eqb_spec c 0) as [->|Hne]; [split; [eauto|done]|].
  unfold attempt, saturating_add, saturating_sub. change (2 ^ 64 - 1) with u64_max.
  set (inc := increment g c) in *. pose proof (Z.le_max_r (tolerance_nanos g) inc) as Hceil.
  change (Z.max (tolerance_nanos g) inc) with (ceiling g c) in Hceil. set (ce := ceiling g c) in *.
  split.
  - intros Hidle. rewrite (proj2 (Z.leb_le _ _)) by lia. eauto.
  - intros r g'. destruct (Z.leb_spec (Z.max 0 (Z.min (Z.max (tat_nanos g) n + inc) u64_max - n)) ce)
      as [|Hgt]; [done|]. intros [= <- <-]. splits; [done|lia| |].
    + rewrite (proj2 (Z.leb_le _ _)) by lia. eauto.
    + intros n' Hn'. rewrite (proj2 (Z.leb_gt _ _)) by lia. eexists. split; [done|lia].
Qed.

Lemma retry_after_exact_witness :
  exists g'', charge_at (mkGcra 600000000 10 1000000000) 5 (0 + 100000000) = (IsAdmitted, g'').
Proof.
  apply (retry_after_exact (mkGcra 600000000 10 1000000000) 5 0)
    with (g' := mkGcra 600000000 10 1000000000); by vm_compute.
Defined.

(** Above 10^9 units per second a charge of fewer than [rate / 10^9] units advances the
    timestamp by nothing: any number of them is admitted at one instant. *)
Lemma sub_nanosecond_charges_unmetered k :
  replay (mkGcra 0 2000000000 1000000000) (replicate k (1, 0)) =
  Some (mkGcra 0 2000000000 1000000000).
Proof. induction k as [|k IH]; [done|]. cbn [replicate replay]. exact IH. Qed.

End RateLimit.
